(* ===== verification/_CoqProject ===== *)
-Q . S2P
Prelude.v
Order.v
Text.v
Collections.v
Identity.v
Paths.v
PathFilter.v
Scheduler.v
Admission.v
Timing.v
Frames.v
Hits.v
Pages.v
ResultStore.v
QueryShape.v
QualifiedName.v
Ranking.v
Rerank.v
Source.v
Diff.v
Correspond.v
PhpMarkers.v
Chains.v
EmbeddingCache.v
RuntimeConfig.v
Worker.v
WorkerSafety.v
Snippets.v
Pool.v
Spool.v
Batches.v
Preparation.v
PreparedCache.v
Extract.v
Regions.v
FilterDiagnosis.v
DmLex.v
DmExtract.v
Modules.v
Hierarchy.v
Aliases.v
PhpNames.v
PhpParents.v
ParentCalls.v
Manifest.v
Extensions.v
ChainFacts.v
ChainRows.v
Xenforo.v
Inference.v
InheritanceContext.v
SyntaxTree.v
Bindings.v
BindingIndex.v
Syntax.v
Declarations.v
HomeIndex.v
Members.v
WorkspaceSets.v
Retrieval.v
PhpScopes.v
PhpExtract.v
PhpReferences.v
CSharp.v
Journal.v
DiagnosticAudit.v
