(* ===== verification/Prelude.v ===== *)
(** * Trufflepig verification library

    Trufflepig is a local code search engine: it indexes a repository, answers
    queries through several retrieval lanes, stores every answer as a result set
    whose entries keep stable handles, renders pages of it within a token
    budget, and re-reads the source behind a handle.  Semantic lanes call a
    shared model worker over framed sockets; a daemon serves a root and
    reconciles its index.  This library models the parts of [src/src/] that
    decide what is returned and in which order, as executable definitions, and
    proves what makes them correct.

    ** Files, and the code they model

    - [Prelude]: the result monad ([anyhow::Result]), machine integers, the
      tactics ([bool_to_prop], [result_inv], [break_match]) and the rewrite
      databases the other files use.
    - [Order]: lawful comparison functions and sorting by them ([slice::sort_by]
      is a stable sort).
    - [Text]: UTF-8 text and bytes, substrings, splitting, decimal numbers.
    - [Identity]: [identity.rs]; Git object ids, byte spans, result handles
      [SET:ORDINAL] and cursors [SET@OFFSET].
    - [Paths]: [store/paths.rs]; the percent encoding of stored paths.
    - [PathFilter]: [search/path_filter.rs]; [file:] filters, anchoring at the
      root, the in-memory matcher and the SQL clause with its semantics.
    - [Scheduler]: [semantic/worker/scheduler.rs]; the two-class round-robin
      queue of the model worker, as a state machine.
    - [Admission]: [semantic/worker/admission.rs]; counters and tickets under any
      interleaving of admissions, starts and drops.
    - [Timing]: [semantic/worker/load_retry.rs], [daemon/deadline.rs] and the
      debounce of [daemon/reconciler.rs]; instants are nanoseconds in [Z].
    - [Frames]: [semantic/worker/protocol.rs] and [daemon/protocol.rs]; deadline
      reads and writes against an arbitrary schedule of short transfers, and the
      bounds of commands, requests and replies.
    - [Hits]: [results.rs] and [results/entries.rs]; hits, entries, JSON values,
      compaction for a page, file URIs.
    - [Pages]: [results/page.rs], [results/lines.rs], [output.rs] and
      [output/lines.rs]; the largest window of a set that fits a budget, in lines
      or JSON, with its continuation.
    - [ResultStore]: [results/result_set_store.rs] and the lookups of
      [results.rs]; saving with shrinking, expiry and eviction, and loading.
    - [QueryShape]: query parsing of [search.rs], [search/concept_query.rs],
      [search/language_filter.rs], [search/path_class.rs], [search/path_prior.rs].
    - [QualifiedName]: [search/qualified_name.rs]; [A::b] lookups.
    - [Ranking]: [search/file_ranking.rs], [search_top_k] of [semantic.rs] and the
      filename lane of [search.rs]; bounded heaps and reciprocal-rank fusion in
      IEEE double precision (the Standard Library's [SpecFloat]).
    - [Rerank]: [search/rerank_window.rs]; fetching the window's documents, the
      stable order by tier and score, and the in-place permutation.
    - [Source]: [source.rs], [source/lines.rs] and [source/acquisition.rs]; line
      spans, rows of a read, budgeted rendering, and acquiring verified bytes
      for a handle, path or continuation.
    - [Diff]: [history/source_diff.rs] and line evidence of
      [history/source_diff/fingerprints.rs]; change and unchanged-run tables.
    - [Correspond]: [history/source_diff/correspondence.rs] and
      [correspond_fingerprints]; matching the declarations of two versions.
    - [PhpMarkers]: [extract/php_markers.rs]; facts written by PHP extraction into
      relationship rows and read back by the resolver.
    - [Chains]: [store/inheritance/ordered_chains.rs]; the candidate predecessor
      graph of ordered class registrations.
    - [EmbeddingCache]: [semantic/embedding_cache.rs] with its format and
      snapshot; vectors in bytes, content keys, batched writes and eviction.
    - [RuntimeConfig]: [semantic/runtime_config.rs]; validation of the inference
      settings, visible devices and GPU identities.
    - [Worker], [WorkerSafety]: [semantic/worker.rs] with its rerank executor and
      status; the serving loop with both executor lanes as a step relation.
    - [Snippets]: [search/snippets.rs]; previews of hits and their cache.
    - [Pool], [Spool]: [daemon/pool.rs] and [daemon/spool.rs]; request threads as
      interleaved steps, and requests exchanged through a directory of files.
    - [Batches], [Preparation], [PreparedCache]: [semantic/preparation.rs] with its
      cache and worker; batching and bisection, the sweep of a generation with
      retries and supersession, and the vector cache the sweep is run against.
    - [Extract]: the data types of [extract.rs] and the choice of the language.
    - [Regions]: [store/regions.rs]; a source cut into regions.
    - [FilterDiagnosis]: [search/path_filter/filter_diagnosis.rs]; why a filter
      matched nothing.
    - [DmLex], [DmExtract]: [extract/dreammaker.rs] and its parts; the scanner, the
      recovery of declarations and the resolution of references.
    - [Modules]: [store/module_config.rs] and [store/module_resolver.rs]; the pass
      that links imports to modules.
    - [Collections]: sorting with removal of duplicates, indexes of positions and
      lists by key, which the resolvers share.
    - [Hierarchy]: [store/inheritance.rs], [store/php_resolver/hierarchy_index.rs] and
      [parent_lookup.rs]; the index of PHP classes and the search for a method
      above a class.
    - [Aliases]: [store/php_resolver/xenforo/alias_source.rs] and [alias_names.rs];
      literal alias rules and canonical class names.
    - [PhpNames], [PhpParents], [ParentCalls]: [php_names.rs], [php_parents.rs] with its
      projection, and [parent_projection.rs]; candidates of class names, the
      hierarchy built from stored markers, and candidates of [parent::] calls.
    - [Manifest], [Extensions]: [xenforo/manifest.rs] and [class_extensions.rs]; the
      requirements of an add-on and the rows of its class extensions, with spans.
    - [ChainFacts], [ChainRows]: [xenforo/chain_adapter.rs] and its parts; from the
      rows to registrations and chains, and what a chain publishes.
    - [Xenforo]: [xenforo.rs], [xenforo/chain_projection.rs] and [php_resolver.rs]; what
      is published for the add-ons, and the whole PHP resolution over the tables.
    - [Inference]: [semantic/inference/batch.rs]; the plan of the model's calls and
      inference with and without isolation of the inputs that fail.
    - [InheritanceContext]: [search/inheritance_context.rs] and [context_entry] of
      [search/navigation.rs]; the bounded search above the classes of a hit and the
      response of [ctx] that fits its budget.
    - [SyntaxTree]: the places of a tree-sitter tree, which the extractors walk.
    - [Bindings], [BindingIndex], [Syntax]: [extract/bindings.rs] with
      [syntax_names.rs], [extract/binding_index.rs], [extract/syntax.rs] with
      [syntax_modules.rs]; definitions and bindings of a tree, lexical resolution,
      and the extraction of Rust, TypeScript, JavaScript and Luau.
    - [PhpScopes], [PhpExtract], [PhpReferences]: [extract/php.rs] with [php/names.rs],
      [scopes.rs], [imports.rs], [declarations.rs], [inheritance_facts.rs] and
      [references.rs]; namespaces and imports, the definitions, marker rows and
      references of a PHP file, and the theorems about them.
    - [CSharp]: [extract/csharp.rs] with its scopes, declarations and references.
    - [Journal], [DiagnosticAudit]: [diagnostics/records.rs], [journal.rs], [delivery.rs],
      [audit.rs], [ledger.rs] and [sessions.rs]; bounded records, the segments they
      are appended to and read back from, receipts, the audit with its ledger, and
      the table of sessions.
    - [Declarations]: [search/declarations.rs] and the order of definitions; lookup by
      name, and re-extraction of a definition ([source/reextraction.rs]).
    - [HomeIndex]: [workspace/home_index.rs] and its parts; the answer of a linked
      worktree from its parent's index.
    - [Members]: [workspace/config.rs] and [member_root.rs]; workspace members.
    - [WorkspaceSets]: [workspace/result_cache.rs]; sets of hits owned by members.
    - [Retrieval]: [workspace/retrieval.rs] and its parts; the search over members.

    ** How the parts interact

    A query is parsed ([QueryShape], [PathFilter]), its lanes are cut and fused
    by file ([Ranking]) and the first hits reordered ([Rerank], whose requests
    pass the worker's bounds of [Frames]).  The hits are saved ([ResultStore])
    and paged ([Pages]) with handles and cursors of [Identity], with previews of
    [Snippets]; [Source] turns a handle back into verified bytes, with the lookup
    of the stored entry (the operation [ResultStore.entry] proves correct) as an
    argument.  A filter without matches is explained by [FilterDiagnosis].

    The model worker ([Worker]) composes [Scheduler], [Admission], [Timing] and
    the bounds of [Frames]; [WorkerSafety] proves it refines a ledger of
    admissions.  [Preparation] cuts a generation into [Batches] and runs them
    against the class [VectorCache], which [PreparedCache] discharges with the
    operations of [EmbeddingCache]; behind the worker the engine runs its texts in
    the batches of [Inference].

    Extraction ([Extract], [Syntax], [CSharp], [DmExtract], [PhpExtract] with [PhpMarkers]) gives the definitions from
    which [Regions] cuts a source, [Modules] links imports and [PhpParents]
    builds the [Hierarchy]; [ParentCalls] searches it, with names made canonical
    by [Aliases].  [Xenforo] composes these passes: the rows of [Manifest] and
    [Extensions] become facts of the index, [ChainRows] groups them by base class,
    [Chains] orders the registrations of one class, and [ChainFacts] decides with
    the [Hierarchy] which predecessors are certain.  [InheritanceContext] shows what
    these passes stored around a hit.

    A workspace ([Members]) is searched member by member ([Retrieval]) within a
    scope; the answers are merged fairly and saved ([WorkspaceSets]).  A linked
    worktree is answered from its parent's index by [HomeIndex], which re-extracts
    changed files ([Declarations]).  [Diff] and [Correspond] compare two versions
    of a source.

    ** Parameters

    Code outside the repository is a parameter with documented laws, each met by
    a concrete instance where a theorem needs it: UUID text ([UuidCrate]), JSON
    and token counting ([Rendering]), BLAKE3 ([Blake3]) and SHA-256, the Unicode
    tables ([UnicodeTables], [UnicodeLaws]), the diff library ([DiffLibrary],
    [DiffLaws]), the iteration order of hash maps ([HashIteration]), the TOML and
    JSON parsers of configuration files and manifests, the XML events of
    class extensions, the tree-sitter parsers (a parse is a tree whose nodes span
    their children in order) and the captures of a query, the tokenizer and the
    model, the CUDA driver, the JSON of a diagnostic record ([EventFormat]).  SQLite tables are lists of rows with the
    ordering the statements ask for; the file system, Git probes and the clock
    are arguments, and so are the resolution of [sym:] targets
    ([source/symbol.rs], a query over the index), what a member's index answers
    and the extraction of a file that is read again.

    ** What the theorems show

    - Result sets: retention limits and least-recent eviction, saving succeeds,
      saved sets and handles read back.
    - Pages: the budget search returns a boundary, a page fits and shows what it
      can, continuation visits every entry once, printed handles read back.
    - Ranking: bounded heaps are exact, fusion shows each file once under its
      strongest evidence and in the stated order, reranking only permutes.
    - Worker: scheduler invariant, service order and progress (and a starvation
      the shared cursor allows), admission counters, refinement of a ledger under
      any interleaving (and the wedge a crashed lane leaves), frames under any
      schedule, command bounds, request round trips.
    - Preparation: a sweep ends in an outcome, a completed generation is cached,
      bisection isolates what fails, the cache refines a least-recently-used map;
      the engine's batches cover their inputs and each input keeps its own outcome.
    - Daemon: the pool accounts for every job, the spool answers a request once.
    - Sources: line ranges, rows, largest fitting read, verified bytes,
      continuations without gaps.
    - History: diff tables are exact, every declaration is accounted for once,
      rows are justified, and the result does not depend on hash order.
    - Extraction and resolution: extracted facts are well formed and justified,
      regions rebuild the source, module links, class names, parent edges and
      parent calls are exactly the declared ones, canonical names are stable, PHP
      facts round trip, predecessor edges are exactly the declared ones.  A
      reference of a syntax tree resolves exactly to the nearest visible binding,
      and the context of a hit shows all that is reachable or says it is cut; a
      PHP variable resolves exactly to the one parameter that binds it, and what is
      extracted of a C# file lies in its source.
    - XenForo: the spans of metadata are those of the values, every published
      predecessor edge goes back to sole, enabled rows and to certain classes,
      and the resolution only adds to what was extracted.
    - Workspaces: a loaded configuration is sound, one home member, fair merge,
      saved sets load, a worktree's answer is current.
    - Diagnostics: the journal keeps its bounds whatever happens to it, an accepted
      record is read back whole, a store opened before a forgetting writes nothing
      more, receipts are exact, the counts of an audit add up and do not depend on
      the order of the requests, and open sessions and their baselines stay bounded.
    - Text: path and handle round trips, filters agree between SQL and memory,
      FTS quoting, qualified names, explanations of empty filters.

    ** Bounds and fuel

    Loops that are not structural take fuel bounded by their data: the eviction
    loop by the rows, the shrink loop by the hits, the budget search by the
    count (it halves an interval), text scans, the DreamMaker scanner, the region
    cutter and literal decoding by the length of the text, bisection by the
    length of the batch, retries by 70 doublings, the occurrence pass by the rows,
    the parent search and the inheritance context by the 64 classes they may
    visit, the isolation of a batch by its length, merging by the number of
    entries, walks to an ancestor by the length of the path, the tokens of a
    manifest and the attributes of a tag by its bytes, and twenty decimal digits
    for a [usize].  Theorems state that the fuel is enough (the loop
    returns), not only what a returned value is.

    ** Not modelled

    The SQLite schema, scans and publication of the index ([store.rs],
    [store/scan.rs] and the like) and the search lanes that are SQL over it, Git
    and blame ([history/git.rs] and the like), loading models and accelerator
    sessions, sockets and processes, the dispatch of workspace verbs, the queue in
    front of the diagnostic journal ([diagnostics/appender.rs]) and the command
    line. *)
From Stdlib Require Import Ascii String ZArith Lia Permutation Sorted.
From stdpp Require Import base numbers list gmap strings sorting.

Declare Scope rust_scope.
Delimit Scope rust_scope with rust.
Open Scope rust_scope.

(** ** Automation shared by the components *)

Create HintDb rust discriminated.
Create Rewrite HintDb rust_rw.

(** Turn the boolean tests of the code into propositions. *)
Ltac bool_to_prop :=
  repeat match goal with
  | H : _ && _ = true |- _ => apply andb_prop in H; destruct H
  | H : _ || _ = false |- _ => apply orb_false_elim in H; destruct H
  | H : negb _ = true |- _ => apply negb_true_iff in H
  | H : negb _ = false |- _ => apply negb_false_iff in H
  | H : bool_decide _ = true |- _ => apply bool_decide_eq_true in H
  | H : bool_decide _ = false |- _ => apply bool_decide_eq_false in H
  | H : (_ <? _)%Z = true |- _ => apply Z.ltb_lt in H
  | H : (_ <? _)%Z = false |- _ => apply Z.ltb_ge in H
  | H : (_ <=? _)%Z = true |- _ => apply Z.leb_le in H
  | H : (_ <=? _)%Z = false |- _ => apply Z.leb_gt in H
  | H : (_ =? _)%Z = true |- _ => apply Z.eqb_eq in H
  | H : (_ =? _)%Z = false |- _ => apply Z.eqb_neq in H
  | H : (_ <? _)%nat = true |- _ => apply Nat.ltb_lt in H
  | H : (_ <? _)%nat = false |- _ => apply Nat.ltb_ge in H
  | H : (_ <=? _)%nat = true |- _ => apply Nat.leb_le in H
  | H : (_ <=? _)%nat = false |- _ => apply Nat.leb_gt in H
  | H : (_ =? _)%nat = true |- _ => apply Nat.eqb_eq in H
  | H : (_ =? _)%nat = false |- _ => apply Nat.eqb_neq in H
  end.

(** Case analysis on the scrutinee of a [match] or [if], keeping the equation. *)
Ltac break_match :=
  match goal with
  | |- context [match ?x with _ => _ end] => destruct x eqn:?
  end.
Ltac break_match_in H :=
  match type of H with
  | context [match ?x with _ => _ end] => destruct x eqn:?
  end.

(** ** Fallible code: [anyhow::Result]

    An error carries the literal text the source gives it; values that the
    source interpolates into that text are left out. *)

Inductive result (A : Type) : Type :=
| Ok (a : A)
| Err (e : string).
Arguments Ok {A} a.
Arguments Err {A} e.

#[export] Instance result_ret : MRet result := λ A, @Ok A.
#[export] Instance result_bind : MBind result := λ A B f r,
  match r with Ok a => f a | Err e => Err e end.
#[export] Instance result_fmap : FMap result := λ A B f r,
  match r with Ok a => Ok (f a) | Err e => Err e end.

(** [ensure!(cond, msg)] and [option.context(msg)]. *)
Definition ensure (b : bool) (msg : string) : result unit :=
  if b then Ok tt else Err msg.
Definition or_err {A} (msg : string) (o : option A) : result A :=
  match o with Some a => Ok a | None => Err msg end.
(** [result.ok()] and [result.is_ok()]. *)
Definition ok {A} (r : result A) : option A :=
  match r with Ok a => Some a | Err _ => None end.
Definition is_ok {A} (r : result A) : bool :=
  match r with Ok _ => true | Err _ => false end.

Lemma bind_Ok {A B} (r : result A) (f : A → result B) b :
  (r ≫= f) = Ok b ↔ ∃ a, r = Ok a ∧ f a = Ok b.
Proof. destruct r; naive_solver. Qed.

Lemma ensure_Ok b msg u : ensure b msg = Ok u ↔ b = true.
Proof. destruct b, u; naive_solver. Qed.

Lemma or_err_Ok {A} msg (o : option A) a : or_err msg o = Ok a ↔ o = Some a.
Proof. destruct o; naive_solver. Qed.

#[export] Hint Rewrite @bind_Ok ensure_Ok @or_err_Ok : rust_rw.

(** Opens a successful computation in the result monad into its steps. *)
Ltac result_inv :=
  repeat match goal with
  | H : (_ ≫= _) = Ok _ |- _ => apply bind_Ok in H; destruct H as (? & ? & ?)
  | H : ensure _ _ = Ok _ |- _ => apply ensure_Ok in H
  | H : or_err _ _ = Ok _ |- _ => apply or_err_Ok in H
  | H : Ok _ = Ok _ |- _ => injection H; clear H; intros; subst
  | H : Err _ = Ok _ |- _ => discriminate H
  | H : Ok _ = Err _ |- _ => discriminate H
  end.

(** Fallible code on a shared state: an error keeps the changes made before it. *)
Definition SR (S A : Type) : Type := S → result A * S.
#[export] Instance sr_ret {S} : MRet (SR S) := λ A a s, (Ok a, s).
#[export] Instance sr_bind {S} : MBind (SR S) := λ A B f m s,
  match m s with
  | (Ok a, s) => f a s
  | (Err e, s) => (Err e, s)
  end.
Definition throw {S A} (e : string) : SR S A := λ s, (Err e, s).
Definition gets {S A} (f : S → A) : SR S A := λ s, (Ok (f s), s).
Definition modify {S} (f : S → S) : SR S unit := λ s, (Ok tt, f s).
(** [match m { Ok(..) => .., Err(..) => .. }]. *)
Definition attempt {S A} (m : SR S A) : SR S (result A) := λ s, let '(r, s) := m s in (Ok r, s).

(** [iter.map(f).collect::<Result<Vec<_>>>()]. *)
Fixpoint try_map {A B} (f : A → result B) (l : list A) : result (list B) :=
  match l with
  | [] => Ok []
  | x :: l' => y ← f x; ys ← try_map f l'; Ok (y :: ys)
  end.

Lemma try_map_total {A B} (f : A → result B) (g : A → B) l :
  (∀ x, x ∈ l → f x = Ok (g x)) → try_map f l = Ok (g <$> l).
Proof.
  induction l as [|x l IH]; intros Hf; simpl; [done|].
  rewrite Hf by set_solver. simpl. rewrite IH by set_solver. done.
Qed.
Lemma try_map_elem {A B} (f : A → result B) l ys y :
  try_map f l = Ok ys → y ∈ ys → ∃ x, x ∈ l ∧ f x = Ok y.
Proof.
  revert ys. induction l as [|x l IH]; cbn; intros ys.
  - intros [= <-] Hy. by apply not_elem_of_nil in Hy.
  - intros (z & Hz & (zs & Hzs & [= <-])%bind_Ok)%bind_Ok [->|Hy]%elem_of_cons.
    + exists x. split; [by left|done].
    + destruct (IH zs Hzs Hy) as (w & Hw & ?). exists w. split; [by right|done].
Qed.
Lemma try_map_is_ok {A B} (f : A → result B) (l : list A) :
  is_ok (try_map f l) = true ↔ ∀ x, x ∈ l → is_ok (f x) = true.
Proof.
  induction l as [|x l IH]; cbn [try_map]; [set_solver|]. split.
  - intros Hok y Hy. destruct (f x) as [z|] eqn:Hx; [|done].
    apply elem_of_cons in Hy as [->|Hy]; [by rewrite Hx|]. apply IH; [|done].
    by destruct (try_map f l).
  - intros Hall. assert (is_ok (f x) = true) as Hx by (apply Hall; left).
    assert (is_ok (try_map f l) = true) as Hl by (apply IH; intros; apply Hall; by right).
    by destruct (f x), (try_map f l).
Qed.

(** ** Machine integers *)

Definition USIZE_MAX : Z := 18446744073709551615.
Definition U64_MAX : Z := 18446744073709551615.
Definition U32_MAX : Z := 4294967295.
Definition U8_MAX : Z := 255.
Definition I64_MAX : Z := 9223372036854775807.

Definition in_usize (z : Z) : Prop := (0 ≤ z ≤ USIZE_MAX)%Z.

Definition saturating_add (max a b : Z) : Z := Z.min max (a + b).
Definition saturating_sub (a b : Z) : Z := Z.max 0 (a - b).
Definition saturating_mul (max a b : Z) : Z := Z.min max (a * b).
Definition checked_add (max a b : Z) : option Z :=
  if (a + b <=? max)%Z then Some (a + b)%Z else None.

(** [usize::div_ceil]. *)
Definition div_ceil (a b : nat) : nat := (a + b - 1) / b.

Lemma div_ceil_2_bounds n : 0 < n → 1 ≤ div_ceil n 2 ≤ n.
Proof.
  unfold div_ceil. intros. split.
  - apply Nat.div_le_lower_bound; lia.
  - apply Nat.Div0.div_le_upper_bound; lia.
Qed.

(** ** Lists *)

(** Two elements of a list whose keys are distinct are equal when their keys are. *)
Lemma elem_of_same_key {A B} (key : A → B) (l : list A) x y :
  NoDup (key <$> l) → x ∈ l → y ∈ l → key x = key y → x = y.
Proof.
  induction l as [|z l IH]; intros Hnd Hx Hy Heq; [set_solver|].
  rewrite fmap_cons in Hnd. apply NoDup_cons in Hnd as [Hz Hnd].
  apply elem_of_cons in Hx as [->|Hx], Hy as [->|Hy]; [done|..|by apply IH].
  - destruct Hz. rewrite Heq. by apply list_elem_of_fmap_2.
  - destruct Hz. rewrite <-Heq. by apply list_elem_of_fmap_2.
Qed.

(** [Iterator::take_while] and [Iterator::skip_while]. *)
Fixpoint take_while {A} (f : A → bool) (l : list A) : list A :=
  match l with [] => [] | x :: l' => if f x then x :: take_while f l' else [] end.
Fixpoint drop_while {A} (f : A → bool) (l : list A) : list A :=
  match l with [] => [] | x :: l' => if f x then drop_while f l' else l end.

Lemma take_drop_while {A} (f : A → bool) (l : list A) : take_while f l ++ drop_while f l = l.
Proof. induction l as [|x l IH]; simpl; [done|]. destruct (f x); simpl; by rewrite ?IH. Qed.

(** [slice::chunks]. *)
Fixpoint chunks_go {A} (fuel n : nat) (l : list A) : list (list A) :=
  match fuel, l with
  | S fuel, _ :: _ => take n l :: chunks_go fuel n (drop n l)
  | _, _ => []
  end.
Definition chunks {A} (n : nat) (l : list A) : list (list A) := chunks_go (length l) n l.

Lemma concat_chunks {A} n (l : list A) : 0 < n → concat (chunks n l) = l.
Proof.
  intros Hn. unfold chunks.
  assert (∀ fuel l, length l ≤ fuel → concat (@chunks_go A fuel n l) = l) as Hgo; [|by apply Hgo].
  clear l. induction fuel as [|fuel IH]; intros l Hl; destruct l as [|x l]; simpl in *; [done|lia|done|].
  rewrite IH by (rewrite length_drop; simpl; lia).
  apply (take_drop n (x :: l)).
Qed.

Lemma list_filter_all {A} (P : A → Prop) `{∀ x, Decision (P x)} (l : list A) :
  (∀ x, x ∈ l → P x) → filter P l = l.
Proof.
  induction l as [|x l IH]; intros HP; [done|].
  rewrite filter_cons_True by (apply HP; left). f_equal. apply IH. intros. apply HP. by right.
Qed.

Lemma list_filter_none {A} (P : A → Prop) `{∀ x, Decision (P x)} (l : list A) :
  (∀ x, x ∈ l → ¬ P x) → filter P l = [].
Proof.
  induction l as [|x l IH]; intros HP; [done|].
  rewrite filter_cons_False by (apply HP; left). apply IH. intros. apply HP. by right.
Qed.

Lemma StronglySorted_filter {A} (R : A → A → Prop) (P : A → Prop) `{∀ x, Decision (P x)} (l : list A) :
  StronglySorted R l → StronglySorted R (filter P l).
Proof.
  induction 1 as [|x l Hl IH Hx]; [constructor|]. rewrite filter_cons. case_decide; [|done].
  constructor; [done|]. rewrite Forall_forall in *. intros y [_ Hy]%list_elem_of_filter. by apply Hx.
Qed.
