(* ===== verification/Order.v ===== *)
(** * Comparators and stable sorting

    The ranking code orders values with closures built from [Ord::cmp],
    [Ordering::then_with] and [slice::sort_by].  This file gives the lawful
    comparators ([Comparator]), their combinators, and the stable sort. *)
From Stdlib Require Import Ascii String ZArith Lia Permutation.
From stdpp Require Import base numbers list gmap strings sorting.
From S2P Require Import Prelude.

(** A comparison function that is a total preorder. *)
Class Comparator {A} (cmp : A → A → comparison) : Prop := {
  cmp_opp : ∀ x y, cmp y x = CompOpp (cmp x y);
  cmp_le_trans : ∀ x y z, cmp x y ≠ Gt → cmp y z ≠ Gt → cmp x z ≠ Gt;
}.

Arguments cmp_opp {A} cmp {Comparator} x y.
Arguments cmp_le_trans {A} cmp {Comparator} x y z.

(** A comparator whose equal elements are identical. *)
Class StrictComparator {A} (cmp : A → A → comparison) : Prop := {
  strict_comparator :: Comparator cmp;
  cmp_eq : ∀ x y, cmp x y = Eq → x = y;
}.

Arguments cmp_eq {A} cmp {StrictComparator} x y.

Definition cmp_le {A} (cmp : A → A → comparison) (x y : A) : Prop := cmp x y ≠ Gt.

(** [Ordering::then_with], [cmp::Reverse] and [sort_by_key]. *)
Definition then_with (c d : comparison) : comparison :=
  match c with Eq => d | _ => c end.
Definition cmp_then {A} (c d : A → A → comparison) (x y : A) : comparison :=
  then_with (c x y) (d x y).
Definition cmp_rev {A} (c : A → A → comparison) (x y : A) : comparison := c y x.
Definition cmp_on {A B} (f : A → B) (c : B → B → comparison) (x y : A) : comparison :=
  c (f x) (f y).

#[global] Typeclasses Opaque cmp_then cmp_rev cmp_on.

Section comparator_facts.
Context {A : Type} (cmp : A → A → comparison) {Hc : Comparator cmp}.

Lemma cmp_refl x : cmp x x = Eq.
Proof. pose proof (cmp_opp cmp x x) as H. by destruct (cmp x x). Qed.

Lemma cmp_le_refl x : cmp_le cmp x x.
Proof. unfold cmp_le. by rewrite cmp_refl. Qed.

Lemma cmp_le_total x y : cmp_le cmp x y ∨ cmp_le cmp y x.
Proof.
  unfold cmp_le. rewrite (cmp_opp cmp x y). destruct (cmp x y); simpl; auto.
Qed.

Lemma cmp_Eq_sym x y : cmp x y = Eq → cmp y x = Eq.
Proof. intros H. by rewrite cmp_opp, H. Qed.

Lemma cmp_Gt_Lt x y : cmp x y = Gt ↔ cmp y x = Lt.
Proof. rewrite (cmp_opp cmp x y). destruct (cmp x y); naive_solver. Qed.

Lemma cmp_Eq_l x y z : cmp x y = Eq → cmp x z = cmp y z.
Proof.
  intros He. pose proof (cmp_Eq_sym _ _ He) as He'.
  assert (cmp x y ≠ Gt ∧ cmp y x ≠ Gt) as [? ?] by (split; congruence).
  destruct (cmp x z) eqn:E1, (cmp y z) eqn:E2; try done; exfalso.
  - apply (cmp_le_trans cmp z x y); [rewrite cmp_opp, E1; done|done|].
    rewrite cmp_opp, E2; done.
  - apply (cmp_le_trans cmp y x z); congruence.
  - apply (cmp_le_trans cmp z y x); [rewrite cmp_opp, E2; done|done|].
    rewrite cmp_opp, E1; done.
  - apply (cmp_le_trans cmp y x z); congruence.
  - apply (cmp_le_trans cmp x y z); congruence.
  - apply (cmp_le_trans cmp x y z); congruence.
Qed.

Lemma cmp_Lt_trans x y z : cmp x y = Lt → cmp y z ≠ Gt → cmp x z = Lt.
Proof.
  intros H1 H2. destruct (cmp x z) eqn:E; [|done|]; exfalso.
  - apply cmp_Eq_sym in E. rewrite <-(cmp_Eq_l z x y E) in H1.
    apply H2. by apply cmp_Gt_Lt.
  - apply (cmp_le_trans cmp x y z); congruence.
Qed.
End comparator_facts.

#[export] Instance cmp_le_preorder {A} (cmp : A → A → comparison) :
  Comparator cmp → PreOrder (cmp_le cmp).
Proof.
  intros Hc. split.
  - intros x. by apply cmp_le_refl.
  - intros x y z. by apply (cmp_le_trans cmp).
Qed.

#[export] Instance cmp_le_antisymm {A} (cmp : A → A → comparison) :
  StrictComparator cmp → AntiSymm (=) (cmp_le cmp).
Proof.
  intros Hc x y. unfold cmp_le. rewrite (cmp_opp cmp x y).
  destruct (cmp x y) eqn:E; simpl; intros; try done. by apply (cmp_eq cmp).
Qed.

#[export] Instance cmp_rev_comparator {A} (c : A → A → comparison) :
  Comparator c → Comparator (cmp_rev c).
Proof.
  intros Hc. unfold cmp_rev. split.
  - intros x y. apply (cmp_opp c).
  - intros x y z ? ?. by apply (cmp_le_trans c z y x).
Qed.

#[export] Instance cmp_on_comparator {A B} (f : A → B) c :
  Comparator c → Comparator (cmp_on f c).
Proof.
  intros Hc. unfold cmp_on. split.
  - intros x y. apply (cmp_opp c).
  - intros x y z. apply (cmp_le_trans c).
Qed.

#[export] Instance cmp_then_comparator {A} (c d : A → A → comparison) :
  Comparator c → Comparator d → Comparator (cmp_then c d).
Proof.
  intros Hc Hd. unfold cmp_then, then_with. split.
  - intros x y. rewrite (cmp_opp c x y).
    destruct (c x y); simpl; [apply (cmp_opp d)|done|done].
  - intros x y z. destruct (c x y) eqn:E1; [| |done].
    + rewrite (cmp_Eq_l c x y z E1).
      destruct (c y z); [apply (cmp_le_trans d)|done|done].
    + destruct (c y z) eqn:E2; [| |done]; intros _ _.
      * rewrite (cmp_Lt_trans c x y z E1); congruence.
      * rewrite (cmp_Lt_trans c x y z E1); congruence.
Qed.

#[export] Instance nat_compare_strict : StrictComparator Nat.compare.
Proof.
  split; [split|].
  - intros. apply Nat.compare_antisym.
  - intros x y z H1 H2 H3. apply Nat.compare_gt_iff in H3.
    rewrite Nat.compare_gt_iff in H1. rewrite Nat.compare_gt_iff in H2. lia.
  - apply Nat.compare_eq.
Qed.

#[export] Instance Z_compare_strict : StrictComparator Z.compare.
Proof.
  split; [split|].
  - intros. apply Z.compare_antisym.
  - intros x y z H1 H2 H3. apply Z.compare_gt_iff in H3.
    rewrite Z.compare_gt_iff in H1. rewrite Z.compare_gt_iff in H2. lia.
  - apply Z.compare_eq.
Qed.

(** [bool] orders [false] before [true]. *)
Definition bool_compare (a b : bool) : comparison :=
  match a, b with
  | false, true => Lt
  | true, false => Gt
  | _, _ => Eq
  end.

#[export] Instance bool_compare_strict : StrictComparator bool_compare.
Proof.
  split; [split|]; intros; repeat match goal with b : bool |- _ => destruct b end;
    simpl in *; congruence.
Qed.

(** Lexicographic order on lists, as [Ord for [T]] and [Ord for str] define it. *)
Fixpoint list_compare {A} (cmp : A → A → comparison) (a b : list A) : comparison :=
  match a, b with
  | [], [] => Eq
  | [], _ :: _ => Lt
  | _ :: _, [] => Gt
  | x :: a', y :: b' => then_with (cmp x y) (list_compare cmp a' b')
  end.

#[export] Instance list_compare_strict {A} (cmp : A → A → comparison) :
  StrictComparator cmp → StrictComparator (list_compare cmp).
Proof.
  intros Hc. split; [split|].
  - induction x as [|x xs IH]; intros [|y ys]; simpl; try done.
    rewrite (cmp_opp cmp x y), IH. by destruct (cmp x y).
  - induction x as [|x xs IH]; intros [|y ys] [|z zs]; simpl; try done.
    unfold then_with. destruct (cmp x y) eqn:E1; [| |done].
    + apply (cmp_eq cmp) in E1 as ->. destruct (cmp y z); [apply IH|done|done].
    + destruct (cmp y z) eqn:E2; [| |done]; intros _ _;
        rewrite (cmp_Lt_trans cmp x y z E1); congruence.
  - induction x as [|x xs IH]; intros [|y ys]; simpl; try done.
    unfold then_with. destruct (cmp x y) eqn:E1; try done.
    intros H%IH. apply (cmp_eq cmp) in E1. congruence.
Qed.

(** ** [slice::sort_by]: the stable sort

    An element is inserted before the first element that is not smaller, so
    equal elements keep their input order. *)

Fixpoint insert_by {A} (cmp : A → A → comparison) (x : A) (l : list A) : list A :=
  match l with
  | [] => [x]
  | y :: l' => match cmp x y with Gt => y :: insert_by cmp x l' | _ => x :: l end
  end.

Fixpoint sort_by {A} (cmp : A → A → comparison) (l : list A) : list A :=
  match l with
  | [] => []
  | x :: l' => insert_by cmp x (sort_by cmp l')
  end.

Section sorting_facts.
Context {A : Type} (cmp : A → A → comparison).

Lemma insert_by_perm x l : insert_by cmp x l ≡ₚ x :: l.
Proof.
  induction l as [|y l IH]; simpl; [done|].
  destruct (cmp x y); [done|done|]. rewrite IH. apply Permutation_swap.
Qed.

Lemma sort_by_perm l : sort_by cmp l ≡ₚ l.
Proof.
  induction l as [|x l IH]; simpl; [done|]. by rewrite insert_by_perm, IH.
Qed.

Lemma sort_by_length l : length (sort_by cmp l) = length l.
Proof. apply Permutation_length, sort_by_perm. Qed.

Lemma elem_of_sort_by x l : x ∈ sort_by cmp l ↔ x ∈ l.
Proof. by rewrite sort_by_perm. Qed.

Context {Hc : Comparator cmp}.

Lemma insert_by_sorted x l :
  StronglySorted (cmp_le cmp) l → StronglySorted (cmp_le cmp) (insert_by cmp x l).
Proof.
  induction 1 as [|y l Hl IH Hy]; simpl; [by repeat constructor|].
  assert (cmp_le cmp x y → StronglySorted (cmp_le cmp) (x :: y :: l)) as Hfront.
  { intros Hle. constructor; [by constructor|]. constructor; [done|].
    eapply Forall_impl; [exact Hy|]. intros z ?. by trans y. }
  destruct (cmp x y) eqn:E; [apply Hfront; unfold cmp_le; congruence..|].
  constructor; [done|]. rewrite insert_by_perm. constructor; [|done].
  unfold cmp_le. rewrite (cmp_opp cmp x y), E. done.
Qed.

Lemma sort_by_sorted l : StronglySorted (cmp_le cmp) (sort_by cmp l).
Proof. induction l; simpl; [constructor|by apply insert_by_sorted]. Qed.

(** Sorting a sorted list changes nothing. *)
Lemma sort_by_id l : StronglySorted (cmp_le cmp) l → sort_by cmp l = l.
Proof.
  induction 1 as [|x l Hl IH Hx]; simpl; [done|]. rewrite IH.
  destruct l as [|y l]; simpl; [done|].
  apply Forall_cons in Hx as [Hx _]. unfold cmp_le in Hx.
  by destruct (cmp x y).
Qed.

(** Stability: elements of one equivalence class keep their order. *)
Lemma insert_by_filter x l (P : A → bool) :
  (∀ a b, P a = true → P b = true → cmp a b = Eq) →
  List.filter P (insert_by cmp x l) = List.filter P (x :: l).
Proof.
  intros HP. induction l as [|y l IH]; simpl; [done|].
  destruct (cmp x y) eqn:E; [done|done|]. simpl. rewrite IH. simpl.
  destruct (P y) eqn:Py, (P x) eqn:Px; try done.
  rewrite (HP x y) in E; done.
Qed.

Lemma sort_by_stable l (P : A → bool) :
  (∀ a b, P a = true → P b = true → cmp a b = Eq) →
  List.filter P (sort_by cmp l) = List.filter P l.
Proof.
  intros HP. induction l as [|x l IH]; simpl; [done|].
  rewrite insert_by_filter by done. simpl. by rewrite IH.
Qed.
End sorting_facts.

(** Two permutations of one list sort to the same list when the comparator
    separates distinct elements: the input order cannot show. *)
Lemma sort_by_perm_eq {A} (cmp : A → A → comparison) (l1 l2 : list A) :
  Comparator cmp →
  (∀ x y, x ∈ l1 → y ∈ l1 → cmp x y = Eq → x = y) →
  l1 ≡ₚ l2 → sort_by cmp l1 = sort_by cmp l2.
Proof.
  intros Hc Hsep Hp.
  assert (∀ s1 s2, (∀ x, x ∈ s1 → x ∈ l1) → s1 ≡ₚ s2 →
    StronglySorted (cmp_le cmp) s1 → StronglySorted (cmp_le cmp) s2 → s1 = s2) as Huniq.
  { induction s1 as [|x s1 IH]; intros s2 Hin Hp' H1 H2.
    { by apply Permutation_nil_l in Hp'. }
    destruct s2 as [|y s2]; [by apply Permutation_nil_r in Hp'|].
    apply StronglySorted_inv in H1 as [H1 Hx], H2 as [H2 Hy].
    assert (x = y) as ->.
    { assert (x ∈ y :: s2) as [->|Hxs]%elem_of_cons by (rewrite <-Hp'; left); [done|].
      assert (y ∈ x :: s1) as [->|Hys]%elem_of_cons by (rewrite Hp'; left); [done|].
      rewrite Forall_forall in Hx, Hy.
      specialize (Hx y Hys). specialize (Hy x Hxs).
      unfold cmp_le in *. apply Hsep; [apply Hin; left|apply Hin; by right|].
      rewrite (cmp_opp cmp x y) in Hy. by destruct (cmp x y). }
    f_equal. apply IH; [intros z ?; apply Hin; by right| |done|done].
    by apply Permutation_cons_inv in Hp'. }
  apply Huniq; [| |by apply sort_by_sorted..].
  - intros x. by rewrite elem_of_sort_by.
  - by rewrite !sort_by_perm.
Qed.

#[export] Hint Resolve sort_by_perm sort_by_sorted : rust.
