(* ===== verification/Text.v ===== *)
(** * Rust strings and byte slices

    A [str], a [&[u8]] and a Unix path are all lists of bytes; a byte is an
    [ascii] (eight bits) with value [bval].  The operations are those of
    [core::str] and [core::slice] that the program uses. *)
From Stdlib Require Import Ascii String ZArith Lia Permutation.
From stdpp Require Import base numbers list gmap strings.
From S2P Require Import Prelude Order.

Abbreviation str := (list ascii).

(** A string literal of the source. *)
Definition lit (s : string) : str := String.list_ascii_of_string s.

Notation "a =s b" := (bool_decide (@eq (list ascii) a b)) (at level 70) : rust_scope.
Notation "a =c b" := (bool_decide (@eq ascii a b)) (at level 70) : rust_scope.

(** ** Bytes *)

Definition bval (c : ascii) : Z := Z.of_N (N_of_ascii c).
Definition chr (z : Z) : ascii := ascii_of_N (Z.to_N z).

(** Proves a decidable statement about one byte by running all 256 cases. *)
Ltac by_byte c :=
  destruct c as [[] [] [] [] [] [] [] []]; vm_compute; first [done | reflexivity].

Lemma bval_range c : (0 ≤ bval c ≤ 255)%Z.
Proof. by_byte c. Qed.

Lemma chr_bval c : chr (bval c) = c.
Proof. by_byte c. Qed.

Lemma bval_inj c d : bval c = bval d → c = d.
Proof. intros H. by rewrite <-(chr_bval c), <-(chr_bval d), H. Qed.

Lemma bval_chr z : (0 ≤ z ≤ 255)%Z → bval (chr z) = z.
Proof.
  intros H. unfold bval, chr. rewrite N_ascii_embedding; lia.
Qed.

Definition in_range (lo hi : Z) (c : ascii) : bool :=
  ((lo <=? bval c) && (bval c <=? hi))%Z.

Definition is_ascii_digit (c : ascii) : bool := in_range 48 57 c.
Definition is_ascii_uppercase (c : ascii) : bool := in_range 65 90 c.
Definition is_ascii_lowercase (c : ascii) : bool := in_range 97 122 c.
Definition is_ascii_alphabetic (c : ascii) : bool :=
  is_ascii_uppercase c || is_ascii_lowercase c.
Definition is_ascii_alphanumeric (c : ascii) : bool :=
  is_ascii_alphabetic c || is_ascii_digit c.
Definition is_ascii_hexdigit (c : ascii) : bool :=
  is_ascii_digit c || in_range 65 70 c || in_range 97 102 c.
(** Space, tab, line feed, form feed and carriage return. *)
Definition is_ascii_whitespace (c : ascii) : bool :=
  bool_decide (bval c ∈ [32; 9; 10; 12; 13]%Z).

Definition to_ascii_lowercase_byte (c : ascii) : ascii :=
  if is_ascii_uppercase c then chr (bval c + 32) else c.
Definition to_ascii_uppercase_byte (c : ascii) : ascii :=
  if is_ascii_lowercase c then chr (bval c - 32) else c.
Definition to_ascii_lowercase (s : str) : str := to_ascii_lowercase_byte <$> s.

Lemma to_ascii_lowercase_idemp s :
  to_ascii_lowercase (to_ascii_lowercase s) = to_ascii_lowercase s.
Proof.
  unfold to_ascii_lowercase. rewrite <-list_fmap_compose.
  apply list_fmap_ext. intros i c _. by_byte c.
Qed.

Lemma to_ascii_lowercase_length s : length (to_ascii_lowercase s) = length s.
Proof. apply length_fmap. Qed.

(** ** Order *)

Definition byte_compare : ascii → ascii → comparison := cmp_on bval Z.compare.
Definition str_compare : str → str → comparison := list_compare byte_compare.

#[export] Instance byte_compare_strict : StrictComparator byte_compare.
Proof.
  unfold byte_compare. split; [apply _|].
  unfold cmp_on. intros x y H%Z.compare_eq. by apply bval_inj.
Qed.

#[export] Instance str_compare_strict : StrictComparator str_compare.
Proof. apply _. Qed.

(** ** Prefixes, suffixes and substrings *)

Fixpoint strip_prefix (p s : str) : option str :=
  match p, s with
  | [], _ => Some s
  | c :: p', d :: s' => if c =c d then strip_prefix p' s' else None
  | _ :: _, [] => None
  end.

Definition starts_with (p s : str) : bool :=
  match strip_prefix p s with Some _ => true | None => false end.

Definition strip_suffix (p s : str) : option str :=
  reverse <$> strip_prefix (reverse p) (reverse s).
Definition ends_with (p s : str) : bool :=
  match strip_suffix p s with Some _ => true | None => false end.

(** [str::find]: the byte offset of the first occurrence. *)
Fixpoint find_sub (n s : str) : option nat :=
  if starts_with n s then Some 0
  else match s with
       | [] => None
       | _ :: s' => S <$> find_sub n s'
       end.

Definition contains (n s : str) : bool :=
  match find_sub n s with Some _ => true | None => false end.

Lemma strip_prefix_Some p s r : strip_prefix p s = Some r ↔ s = p ++ r.
Proof.
  revert s. induction p as [|c p IH]; intros s; simpl; [naive_solver|].
  destruct s as [|d s]; [naive_solver|]. case_bool_decide; [|naive_solver].
  rewrite IH. naive_solver.
Qed.

Lemma starts_with_true p s : starts_with p s = true ↔ ∃ r, s = p ++ r.
Proof.
  unfold starts_with. destruct (strip_prefix p s) as [r|] eqn:E.
  - apply strip_prefix_Some in E. naive_solver.
  - split; [done|]. intros [r Hr]. by apply strip_prefix_Some in Hr; simplify_eq.
Qed.

Lemma starts_with_app p r : starts_with p (p ++ r) = true.
Proof. apply starts_with_true. eauto. Qed.

Lemma strip_suffix_Some p s r : strip_suffix p s = Some r ↔ s = r ++ p.
Proof.
  unfold strip_suffix. rewrite fmap_Some. split.
  - intros (t & Ht%strip_prefix_Some & ->).
    by rewrite <-(reverse_involutive s), Ht, reverse_app, reverse_involutive.
  - intros ->. exists (reverse r). rewrite reverse_involutive. split; [|done].
    apply strip_prefix_Some, reverse_app.
Qed.

Lemma ends_with_true p s : ends_with p s = true ↔ ∃ r, s = r ++ p.
Proof.
  unfold ends_with. destruct (strip_suffix p s) as [r|] eqn:E.
  - apply strip_suffix_Some in E. naive_solver.
  - split; [done|]. intros [r Hr]. by apply strip_suffix_Some in Hr; simplify_eq.
Qed.

Lemma contains_true n s : contains n s = true ↔ ∃ a b, s = a ++ n ++ b.
Proof.
  unfold contains. split.
  - destruct (find_sub n s) as [i|] eqn:E; [intros _|done].
    revert i E. induction s as [|c s IH]; intros i; simpl;
      destruct (starts_with n _) eqn:P.
    1,3: apply starts_with_true in P as [r ->]; by exists [], r.
    + done.
    + destruct (find_sub n s) as [j|]; [|done]. destruct (IH j eq_refl) as (a & b & ->).
      by exists (c :: a), b.
  - intros (a & b & ->). induction a as [|c a IH]; simpl.
    + destruct (n ++ b) eqn:E; simpl; rewrite <-?E, ?starts_with_app; [|done].
      apply app_eq_nil in E as [-> ->]. done.
    + destruct (starts_with n _); [done|]. by destruct (find_sub n (a ++ n ++ b)).
Qed.

(** ** Splitting at a byte *)

Fixpoint split_once (c : ascii) (s : str) : option (str * str) :=
  match s with
  | [] => None
  | d :: s' =>
      if c =c d then Some ([], s')
      else (λ '(a, b), (d :: a, b)) <$> split_once c s'
  end.

Definition rsplit_once (c : ascii) (s : str) : option (str * str) :=
  (λ '(a, b), (reverse b, reverse a)) <$> split_once c (reverse s).

(** [str::split]: always at least one piece. *)
Fixpoint split_char (c : ascii) (s : str) : list str :=
  match s with
  | [] => [[]]
  | d :: s' =>
      if c =c d then [] :: split_char c s'
      else match split_char c s' with
           | [] => [[d]]
           | p :: ps => (d :: p) :: ps
           end
  end.

Lemma split_once_Some c s a b :
  split_once c s = Some (a, b) ↔ s = a ++ c :: b ∧ c ∉ a.
Proof.
  revert a. induction s as [|d s IH]; intros a; simpl.
  { split; [done|]. intros [H _]. by destruct a. }
  case_bool_decide as Hd.
  - subst d. split; [intros [= <- <-]; split; [done|set_solver]|].
    intros [H Ha]. destruct a as [|d a]; simplify_eq/=; [done|set_solver].
  - split.
    + intros ([a' b'] & Hs & [= -> ->])%fmap_Some. apply IH in Hs as [-> ?].
      split; [done|set_solver].
    + intros [H Ha]. destruct a as [|e a]; simplify_eq/=.
      destruct (IH a) as [_ ->]; [done|]. split; [done|set_solver].
Qed.

Lemma split_once_None c s : split_once c s = None ↔ c ∉ s.
Proof.
  induction s as [|d s IH]; simpl; [set_solver|]. case_bool_decide; [set_solver|].
  destruct (split_once c s) as [[]|]; simpl; set_solver.
Qed.

Lemma rsplit_once_Some c s a b :
  rsplit_once c s = Some (a, b) ↔ s = a ++ c :: b ∧ c ∉ b.
Proof.
  unfold rsplit_once. rewrite fmap_Some. split.
  - intros ([x y] & [Hs Hx]%split_once_Some & [= -> ->]).
    rewrite <-(reverse_involutive s), Hs, reverse_app, reverse_cons, <-app_assoc.
    split; [done|]. by rewrite elem_of_reverse.
  - intros [-> Hb]. exists (reverse b, reverse a). rewrite !reverse_involutive. split; [|done].
    apply split_once_Some. rewrite reverse_app, reverse_cons, <-app_assoc.
    split; [done|]. by rewrite elem_of_reverse.
Qed.

Lemma split_char_nonempty c s : split_char c s ≠ [].
Proof. destruct s; simpl; [done|]. case_bool_decide; [done|]. by destruct (split_char c s). Qed.

(** [slice.join]: the pieces with the separator between them. *)
Fixpoint join (sep : str) (ps : list str) : str :=
  match ps with
  | [] => []
  | [p] => p
  | p :: ps' => p ++ sep ++ join sep ps'
  end.

Lemma join_split_char c s : join [c] (split_char c s) = s.
Proof.
  induction s as [|d s IH]; simpl; [done|].
  pose proof (split_char_nonempty c s) as Hne.
  case_bool_decide as Hd.
  - subst d. destruct (split_char c s); [done|]. cbn [join]. by rewrite <-IH.
  - destruct (split_char c s) as [|p [|q ps]]; [done|..]; cbn [join] in *; by rewrite <-IH.
Qed.

Lemma split_char_no_sep c s p : p ∈ split_char c s → c ∉ p.
Proof.
  revert p. induction s as [|d s IH]; intros p; simpl.
  { intros ->%list_elem_of_singleton. apply not_elem_of_nil. }
  case_bool_decide as Hd.
  { intros [->|?]%elem_of_cons; [apply not_elem_of_nil|by apply IH]. }
  pose proof (split_char_nonempty c s) as Hne.
  destruct (split_char c s) as [|q qs]; [done|].
  intros [->|Hp]%elem_of_cons; [|apply IH; by right].
  rewrite elem_of_cons. intros [?|?]; [done|]. by apply (IH q); [left|].
Qed.

Lemma split_char_single c s : c ∉ s → split_char c s = [s].
Proof.
  induction s as [|d s IH]; simpl; [done|]. intros H.
  rewrite bool_decide_eq_false_2 by set_solver. rewrite IH by set_solver. done.
Qed.

Lemma split_char_cons c p s : c ∉ p → split_char c (p ++ c :: s) = p :: split_char c s.
Proof.
  induction p as [|d p IH]; simpl; intros H.
  - by rewrite bool_decide_eq_true_2.
  - rewrite bool_decide_eq_false_2 by set_solver. rewrite IH by set_solver. done.
Qed.

(** ** Decimal numbers: [Display] and [FromStr] of [usize] *)

Definition digit_char (d : Z) : ascii := chr (48 + d).
Definition digit_value (c : ascii) : Z := bval c - 48.

(** Twenty digits hold every [usize]. *)
Fixpoint digits_go (fuel : nat) (n : Z) (acc : str) : str :=
  match fuel with
  | O => acc
  | S f =>
      let acc' := digit_char (n mod 10) :: acc in
      if (n <? 10)%Z then acc' else digits_go f (n / 10) acc'
  end.
Definition show_usize (n : Z) : str := digits_go 20 n [].
Definition show_nat (n : nat) : str := show_usize (Z.of_nat n).

Fixpoint parse_digits (acc : Z) (s : str) : option Z :=
  match s with
  | [] => Some acc
  | c :: s' =>
      if is_ascii_digit c then
        let v := (acc * 10 + digit_value c)%Z in
        if (v <=? USIZE_MAX)%Z then parse_digits v s' else None
      else None
  end.
(** A leading plus sign is accepted. *)
Definition strip_plus (s : str) : str :=
  match s with
  | [] => []
  | c :: s' => if c =c "+"%char then s' else s
  end.
Definition parse_usize (s : str) : option Z :=
  match strip_plus s with
  | [] => None
  | digits => parse_digits 0 digits
  end.

Definition dec_step (a : Z) (c : ascii) : Z := a * 10 + digit_value c.

Lemma digit_char_spec d :
  (0 ≤ d < 10)%Z → is_ascii_digit (digit_char d) = true ∧ digit_value (digit_char d) = d.
Proof.
  intros H. unfold is_ascii_digit, in_range, digit_value, digit_char.
  rewrite bval_chr by lia. lia.
Qed.

Lemma digits_go_spec f n acc :
  (0 ≤ n < 10 ^ Z.of_nat (S f))%Z →
  ∃ ds, digits_go (S f) n acc = ds ++ acc ∧ ds ≠ [] ∧
        Forall (λ c, is_ascii_digit c = true) ds ∧ foldl dec_step 0%Z ds = n.
Proof.
  revert n acc. induction f as [|f IH]; intros n acc Hn.
  - assert (n < 10)%Z by (change (10 ^ Z.of_nat 1)%Z with 10%Z in Hn; lia).
    cbn [digits_go]. rewrite (proj2 (Z.ltb_lt n 10)) by lia.
    destruct (digit_char_spec (n mod 10)) as [Hd Hv]; [apply Z.mod_pos_bound; lia|].
    eexists [_]. split; [done|]. split; [done|]. split; [by constructor|].
    simpl. unfold dec_step. rewrite Hv, Z.mod_small; lia.
  - remember (S f) as f'. cbn [digits_go].
    destruct (digit_char_spec (n mod 10)) as [Hd Hv]; [apply Z.mod_pos_bound; lia|].
    destruct (Z.ltb_spec n 10) as [Hlt|Hge].
    { eexists [_]. split; [done|]. split; [done|]. split; [by constructor|].
      simpl. unfold dec_step. rewrite Hv, Z.mod_small; lia. }
    assert (0 ≤ n / 10 < 10 ^ Z.of_nat f')%Z as Hdiv.
    { split; [apply Z.div_pos; lia|]. apply Z.div_lt_upper_bound; [lia|].
      rewrite <-Z.pow_succ_r by lia. replace (Z.succ (Z.of_nat f'))%Z with (Z.of_nat (S f'))%Z by lia.
      lia. }
    destruct (IH (n / 10)%Z (digit_char (n mod 10) :: acc) Hdiv) as (ds & -> & Hne & Hds & Hf).
    exists (ds ++ [digit_char (n mod 10)]). rewrite <-app_assoc. split; [done|].
    split; [by destruct ds|]. split; [by apply Forall_app; repeat constructor|].
    rewrite foldl_app, Hf. simpl. unfold dec_step. rewrite Hv.
    pose proof (Z.div_mod n 10). lia.
Qed.

Lemma dec_step_mono ds a :
  Forall (λ c, is_ascii_digit c = true) ds → (0 ≤ a)%Z → (a ≤ foldl dec_step a ds)%Z.
Proof.
  intros H. revert a. induction H as [|c ds Hc _ IH]; intros a Ha; simpl; [lia|].
  assert (0 ≤ digit_value c)%Z.
  { unfold is_ascii_digit, in_range in Hc. unfold digit_value. lia. }
  etrans; [|apply IH]; unfold dec_step; lia.
Qed.

Lemma parse_digits_fold ds a :
  Forall (λ c, is_ascii_digit c = true) ds → (0 ≤ a)%Z →
  (foldl dec_step a ds ≤ USIZE_MAX)%Z → parse_digits a ds = Some (foldl dec_step a ds).
Proof.
  intros H. revert a. induction H as [|c ds Hc Hds IH]; intros a Ha Hmax; simpl; [done|].
  rewrite Hc. fold (dec_step a c). simpl in Hmax.
  assert (0 ≤ digit_value c)%Z.
  { unfold is_ascii_digit, in_range in Hc. unfold digit_value. lia. }
  assert (0 ≤ dec_step a c)%Z by (unfold dec_step; lia).
  pose proof (dec_step_mono ds (dec_step a c) Hds ltac:(done)).
  rewrite (proj2 (Z.leb_le _ _)) by lia. by apply IH.
Qed.

Lemma show_usize_spec n :
  in_usize n →
  show_usize n ≠ [] ∧ Forall (λ c, is_ascii_digit c = true) (show_usize n) ∧
  foldl dec_step 0%Z (show_usize n) = n.
Proof.
  intros H. unfold show_usize.
  destruct (digits_go_spec 19 n []) as (ds & -> & ? & ? & ?).
  - unfold in_usize, USIZE_MAX in H. change (10 ^ Z.of_nat 20)%Z with 100000000000000000000%Z. lia.
  - by rewrite app_nil_r.
Qed.

Lemma show_usize_no_char n c :
  in_usize n → is_ascii_digit c = false → c ∉ show_usize n.
Proof.
  intros Hn Hc Hin. destruct (show_usize_spec n Hn) as (_ & Hd & _).
  rewrite Forall_forall in Hd. rewrite Hd in Hc; done.
Qed.

(** Printing a [usize] and parsing the text gives the number back. *)
Lemma parse_show_usize n : in_usize n → parse_usize (show_usize n) = Some n.
Proof.
  intros Hn. destruct (show_usize_spec n Hn) as (Hne & Hd & Hv).
  unfold parse_usize, strip_plus. destruct (show_usize n) as [|c s] eqn:E; [done|].
  assert ((c =c "+"%char) = false) as ->.
  { apply bool_decide_eq_false_2. intros ->. by inversion Hd. }
  rewrite parse_digits_fold, Hv; [done|done|lia|].
  rewrite Hv. unfold in_usize in Hn. lia.
Qed.

Lemma parse_digits_range ds a v :
  (0 ≤ a ≤ USIZE_MAX)%Z → parse_digits a ds = Some v → (a ≤ v ≤ USIZE_MAX)%Z.
Proof.
  revert a. induction ds as [|c ds IH]; intros a Ha; simpl; [naive_solver|].
  destruct (is_ascii_digit c) eqn:Hc; [|done].
  destruct (_ <=? _)%Z eqn:E; [|done]. intros H%IH; bool_to_prop; [|split].
  all: unfold is_ascii_digit, in_range, digit_value in *; lia.
Qed.

Lemma parse_usize_range s v : parse_usize s = Some v → in_usize v.
Proof.
  unfold parse_usize, in_usize. destruct (strip_plus s); [done|].
  intros Hp%parse_digits_range; [done|]. unfold USIZE_MAX. lia.
Qed.

(** ** UTF-8 validation

    [utf8_char_len s] is the length of the well-formed encoded character at the
    front of [s], by the table of [core::str::from_utf8] (RFC 3629). *)

Definition is_cont (c : ascii) : bool := in_range 128 191 c.

Definition utf8_char_len (s : str) : option nat :=
  match s with
  | [] => None
  | a :: s1 =>
      if in_range 0 127 a then Some 1
      else match s1 with
      | [] => None
      | b :: s2 =>
          if in_range 194 223 a && is_cont b then Some 2
          else match s2 with
          | [] => None
          | c :: s3 =>
              if ((in_range 224 224 a && in_range 160 191 b)
                  || (in_range 225 236 a && is_cont b)
                  || (in_range 237 237 a && in_range 128 159 b)
                  || (in_range 238 239 a && is_cont b)) && is_cont c then Some 3
              else match s3 with
              | [] => None
              | d :: _ =>
                  if ((in_range 240 240 a && in_range 144 191 b)
                      || (in_range 241 243 a && is_cont b)
                      || (in_range 244 244 a && in_range 128 143 b))
                     && is_cont c && is_cont d then Some 4
                  else None
              end
          end
      end
  end.

(** [Utf8Error::valid_up_to]; a string of [n] bytes has at most [n] characters. *)
Fixpoint valid_up_to_go (fuel : nat) (s : str) : nat :=
  match fuel with
  | O => 0
  | S f =>
      match utf8_char_len s with
      | None => 0
      | Some n => n + valid_up_to_go f (drop n s)
      end
  end.
Definition valid_up_to (s : str) : nat := valid_up_to_go (length s) s.

(** [str::from_utf8(s).is_ok()]. *)
Definition utf8_valid (s : str) : bool := valid_up_to s =? length s.

(** [str::is_char_boundary]. *)
Definition is_char_boundary (s : str) (i : nat) : bool :=
  if i =? 0 then true
  else match s !! i with
       | None => i =? length s
       | Some c => negb (is_cont c)
       end.

(** The well-formed strings: concatenations of encoded characters. *)
Inductive Utf8 : str → Prop :=
| Utf8_nil : Utf8 []
| Utf8_char c s : utf8_char_len c = Some (length c) → Utf8 s → Utf8 (c ++ s).

Ltac utf8_cases s :=
  unfold utf8_char_len; destruct s as [|? [|? [|? [|? ?]]]]; simpl;
  repeat case_match; intros; simplify_eq/=; try done.

Lemma utf8_char_len_bounds s n : utf8_char_len s = Some n → 1 ≤ n ≤ 4 ∧ n ≤ length s.
Proof. utf8_cases s; lia. Qed.

Lemma utf8_char_len_take s n : utf8_char_len s = Some n → utf8_char_len (take n s) = Some n.
Proof.
  intros H. unfold utf8_char_len in H.
  destruct s as [|a [|b [|c [|d s]]]]; simpl in H; repeat case_match; simplify_eq/=;
    repeat match goal with H : ?x = _ |- context [?x] => rewrite H end; done.
Qed.

Lemma utf8_char_len_app c s :
  utf8_char_len c = Some (length c) → utf8_char_len (c ++ s) = Some (length c).
Proof.
  intros H. unfold utf8_char_len in H.
  destruct c as [|a [|b [|c [|d [|]]]]]; simpl in H; repeat case_match; simplify_eq/=;
    repeat match goal with H : ?x = _ |- context [?x] => rewrite H end; done.
Qed.

(** A character starts with a byte that is not a continuation byte, and every
    other byte of it is one. *)
Lemma utf8_char_shape c :
  utf8_char_len c = Some (length c) →
  ∃ a t, c = a :: t ∧ is_cont a = false ∧ Forall (λ b, is_cont b = true) t.
Proof.
  intros H. destruct c as [|a t]; [done|]. exists a, t. split; [done|].
  unfold utf8_char_len in H.
  destruct t as [|b [|c [|d [|]]]]; simpl in H; repeat case_match; simplify_eq/=;
    bool_to_prop; (split; [|repeat (constructor; try done)]); unfold is_cont, in_range in *;
    repeat match goal with H : _ || _ = true |- _ => apply orb_prop in H as [H|H] end;
    bool_to_prop; lia.
Qed.

Lemma valid_up_to_go_le f s : valid_up_to_go f s ≤ length s.
Proof.
  revert s. induction f as [|f IH]; intros s; simpl; [lia|].
  destruct (utf8_char_len s) as [n|] eqn:E; [|lia].
  apply utf8_char_len_bounds in E. pose proof (IH (drop n s)). rewrite length_drop in *. lia.
Qed.

Lemma valid_up_to_le s : valid_up_to s ≤ length s.
Proof. apply valid_up_to_go_le. Qed.

Lemma valid_up_to_go_Utf8 f s : Utf8 (take (valid_up_to_go f s) s).
Proof.
  revert s. induction f as [|f IH]; intros s; simpl; [constructor|].
  destruct (utf8_char_len s) as [n|] eqn:E; [|constructor].
  pose proof (utf8_char_len_bounds s n E).
  rewrite <-(take_drop n s) at 2. rewrite take_app_add' by (rewrite length_take; lia).
  constructor; [|apply IH]. rewrite length_take, Nat.min_l by lia. by apply utf8_char_len_take.
Qed.

Lemma Utf8_valid_go s f t : Utf8 s → length s ≤ f → length s ≤ valid_up_to_go f (s ++ t).
Proof.
  intros H. revert f. induction H as [|c s Hc _ IH]; intros f Hf; simpl; [lia|].
  rewrite <-app_assoc. pose proof (utf8_char_len_bounds _ _ Hc). rewrite length_app in *.
  destruct f as [|f]; [lia|]. simpl. rewrite utf8_char_len_app by done.
  rewrite drop_app_length. pose proof (IH f ltac:(lia)). lia.
Qed.

(** [from_utf8] accepts exactly the well-formed strings. *)
Lemma utf8_valid_iff s : utf8_valid s = true ↔ Utf8 s.
Proof.
  unfold utf8_valid, valid_up_to. rewrite Nat.eqb_eq. split.
  - intros H. pose proof (valid_up_to_go_Utf8 (length s) s) as HU.
    by rewrite H, firstn_all in HU.
  - intros H. pose proof (Utf8_valid_go s (length s) [] H ltac:(lia)) as Hle.
    rewrite app_nil_r in Hle. pose proof (valid_up_to_go_le (length s) s). lia.
Qed.
