(* ===== verification/Collections.v ===== *)
(** * Sorted lists, indexes by key and options

    The standard library operations that the resolvers over the index share:
    [sort_unstable] followed by [dedup], maps from a key to the positions of a
    vector, [Option] as an ordered type and [Display] of [i64]. *)
From Stdlib Require Import Ascii String ZArith Lia Permutation Sorted.
From stdpp Require Import base numbers list gmap strings sorting.
From S2P Require Import Prelude Order Text.

(** ** [Vec::dedup] *)

Fixpoint dedup `{EqDecision A} (l : list A) : list A :=
  match l with
  | [] => []
  | x :: rest =>
      match dedup rest with
      | [] => [x]
      | y :: r => if decide (x = y) then y :: r else x :: y :: r
      end
  end.
(** [v.sort_unstable(); v.dedup()] under a total order. *)
Definition sort_dedup `{EqDecision A} (cmp : A → A → comparison) (l : list A) : list A :=
  dedup (sort_by cmp l).

Section Dedup.
Context `{EqDecision A} (cmp : A → A → comparison) `{!StrictComparator cmp}.

Lemma elem_of_dedup (l : list A) x : x ∈ dedup l ↔ x ∈ l.
Proof.
  induction l as [|y l IH]; simpl; [done|]. rewrite (elem_of_cons l x y), <- IH.
  destruct (dedup l) as [|z r]; [by rewrite elem_of_cons|].
  case_decide as E; [|by rewrite elem_of_cons]. subst z. rewrite elem_of_cons. tauto.
Qed.
Lemma dedup_length (l : list A) : length (dedup l) ≤ length l.
Proof.
  induction l as [|y l IH]; simpl; [done|].
  destruct (dedup l) as [|z r]; [simpl; lia|]. case_decide; simpl in *; lia.
Qed.
Lemma dedup_strict (l : list A) :
  StronglySorted (cmp_le cmp) l → StronglySorted (λ x y, cmp x y = Lt) (dedup l).
Proof.
  induction 1 as [|y l Hl IH Hy]; simpl; [constructor|].
  assert (Forall (cmp_le cmp y) (dedup l)) as Hy'.
  { apply Forall_forall. intros x Hx. apply (proj1 (elem_of_dedup l x)) in Hx. rewrite Forall_forall in Hy. by apply Hy. }
  destruct (dedup l) as [|z r]; [by repeat constructor|].
  case_decide as Hyz; [done|]. constructor; [done|].
  apply StronglySorted_inv in IH as [Hr Hz]. apply Forall_cons in Hy' as [Hyz' _].
  assert (cmp y z = Lt) as Hlt.
  { destruct (cmp y z) eqn:E; [|done|by destruct Hyz'].
    destruct Hyz. by apply (cmp_eq cmp). }
  constructor; [done|]. apply Forall_forall. intros x Hx.
  apply (cmp_Lt_trans cmp _ z); [done|].
  rewrite Forall_forall in Hz. rewrite (Hz x Hx). done.
Qed.
Lemma elem_of_sort_dedup (l : list A) x : x ∈ sort_dedup cmp l ↔ x ∈ l.
Proof. unfold sort_dedup. by rewrite elem_of_dedup, elem_of_sort_by. Qed.
Lemma sort_dedup_lt (l : list A) : StronglySorted (λ x y, cmp x y = Lt) (sort_dedup cmp l).
Proof. apply dedup_strict, sort_by_sorted. apply _. Qed.
Lemma sort_dedup_length (l : list A) : length (sort_dedup cmp l) ≤ length l.
Proof. unfold sort_dedup. rewrite dedup_length, sort_by_length. done. Qed.
Lemma dedup_sorted_id (l : list A) : StronglySorted (λ x y, cmp x y = Lt) l → dedup l = l.
Proof.
  induction 1 as [|x l Hl IH Hx]; simpl; [done|]. rewrite IH. destruct l as [|y l]; [done|].
  rewrite decide_False; [done|]. intros ->. apply Forall_cons in Hx as [Hx _].
  by rewrite (cmp_refl cmp) in Hx.
Qed.
Lemma sort_dedup_id (l : list A) : StronglySorted (λ x y, cmp x y = Lt) l → sort_dedup cmp l = l.
Proof.
  intros Hl. unfold sort_dedup. rewrite sort_by_id; [by apply dedup_sorted_id|].
  induction Hl as [|x l Hl IH Hx]; constructor; [done|].
  eapply Forall_impl; [exact Hx|]. unfold cmp_le. cbn. congruence.
Qed.
Lemma strictly_sorted_NoDup (l : list A) : StronglySorted (λ x y, cmp x y = Lt) l → NoDup l.
Proof.
  induction 1 as [|x l Hl IH Hx]; constructor; [|done]. intros Hin.
  eapply Forall_forall in Hin; [|exact Hx]. cbn in Hin. by rewrite (cmp_refl cmp) in Hin.
Qed.
End Dedup.

Lemma sorted_Z_lt l : StronglySorted (λ x y, (x ?= y)%Z = Lt) l ↔ StronglySorted Z.lt l.
Proof. done. Qed.

(** Filtering commutes with sorting. *)
Lemma insert_by_front {A} (cmp : A → A → comparison) x l :
  Forall (cmp_le cmp x) l → insert_by cmp x l = x :: l.
Proof.
  destruct 1 as [|y l Hy _]; [done|]. cbn. unfold cmp_le in Hy. by destruct (cmp x y).
Qed.
Lemma sort_by_filter {A} (cmp : A → A → comparison) `{!Comparator cmp} (P : A → bool) l :
  List.filter P (sort_by cmp l) = sort_by cmp (List.filter P l).
Proof.
  induction l as [|x l IH]; [done|].
  assert (∀ s, StronglySorted (cmp_le cmp) s →
    List.filter P (insert_by cmp x s) =
    if P x then insert_by cmp x (List.filter P s) else List.filter P s) as Hins.
  { induction 1 as [|y s Hs IHs Hy]; cbn; [by destruct (P x)|].
    assert (cmp_le cmp x y → Forall (cmp_le cmp x) (List.filter P (y :: s))) as Hfront.
    { intros Hxy. apply Forall_forall. intros z [Hz _]%list_elem_of_In%List.filter_In.
      apply list_elem_of_In in Hz. apply elem_of_cons in Hz as [->|Hz]; [done|].
      rewrite Forall_forall in Hy. trans y; [done|by apply Hy]. }
    destruct (cmp x y) eqn:E.
    1, 2: cbn in *; destruct (P x); [|done];
      rewrite insert_by_front; [done|]; apply Hfront; unfold cmp_le; congruence.
    cbn. rewrite IHs. destruct (P x), (P y); cbn; rewrite ?E; done. }
  cbn. rewrite Hins by (apply sort_by_sorted; done). rewrite IH. by destruct (P x).
Qed.

Lemma filter_andb {A} (P Q : A → bool) (l : list A) :
  List.filter (λ x, P x && Q x) l = List.filter P (List.filter Q l).
Proof.
  induction l as [|x l IH]; [done|]. cbn. rewrite IH. destruct (P x) eqn:E, (Q x); cbn; by rewrite ?E.
Qed.
(** Rewriting rows that the filter drops anyway. *)
Lemma filter_fmap_same {A} (P : A → bool) (f : A → A) (l : list A) :
  (∀ x, P (f x) = P x ∧ (P x = true → f x = x)) → List.filter P (f <$> l) = List.filter P l.
Proof.
  intros Hf. induction l as [|x l IH]; [done|]. cbn. destruct (Hf x) as [-> Hx]. rewrite IH.
  destruct (P x); [by rewrite Hx|done].
Qed.
Lemma filter_split {A} (P : A → bool) (l1 l2 : list A) :
  (∀ x, x ∈ l1 → P x = false) → (∀ x, x ∈ l2 → P x = true) → List.filter P (l1 ++ l2) = l2.
Proof.
  intros H1 H2. rewrite List.filter_app. rewrite (proj2 (List.filter_ext_in_iff P (λ _, false) l1)).
  2: { intros x Hx. by apply H1, list_elem_of_In. }
  rewrite (proj2 (List.filter_ext_in_iff P (λ _, true) l2)).
  2: { intros x Hx. by apply H2, list_elem_of_In. }
  assert (List.filter (λ _, false) l1 = []) as -> by (clear; induction l1; cbn; congruence).
  assert (List.filter (λ _, true) l2 = l2) as Hl by (clear; induction l2; cbn; congruence). done.
Qed.

Lemma NoDup_fmap_filter {A B} (f : A → B) (P : A → bool) (l : list A) :
  NoDup (f <$> l) → NoDup (f <$> List.filter P l).
Proof.
  induction l as [|x l IH]; [done|]. rewrite fmap_cons. intros [Hx Hl]%NoDup_cons. cbn.
  destruct (P x); [|by apply IH]. rewrite fmap_cons. constructor; [|by apply IH].
  contradict Hx. apply list_elem_of_fmap in Hx as (y & -> & Hy).
  apply list_elem_of_In, List.filter_In in Hy as [Hy _].
  apply list_elem_of_fmap_2. by apply list_elem_of_In.
Qed.

(** [map.entry(key).or_default().push(value)]. *)
Definition push_entry `{Countable K} {V} (m : gmap K (list V)) (k : K) (v : V) : gmap K (list V) :=
  <[k := default [] (m !! k) ++ [v]]> m.
Lemma push_entries_lookup `{Countable K} {A V} (key : A → option (K * V)) (l : list A) k :
  default [] (foldl (λ m x, match key x with Some (k, v) => push_entry m k v | None => m end) ∅ l !! k) =
  omap (λ x, match key x with Some (k', v) => if decide (k' = k) then Some v else None | None => None end) l.
Proof.
  induction l as [|x l IH] using rev_ind; [done|].
  rewrite foldl_app, omap_app. cbn [foldl omap list_omap].
  destruct (key x) as [[k' v]|]; [|by rewrite app_nil_r]. unfold push_entry at 1.
  destruct (decide (k' = k)) as [->|Hne].
  - rewrite lookup_insert_eq. cbn [default]. by rewrite IH.
  - by rewrite lookup_insert_ne, IH, app_nil_r.
Qed.

(** ** Options in order *)

Definition option_compare {A} (cmp : A → A → comparison) (a b : option A) : comparison :=
  match a, b with
  | None, None => Eq
  | None, Some _ => Lt
  | Some _, None => Gt
  | Some x, Some y => cmp x y
  end.

#[export] Instance option_compare_strict {A} (cmp : A → A → comparison) :
  StrictComparator cmp → StrictComparator (option_compare cmp).
Proof.
  intros Hc. split; [split|].
  - intros [x|] [y|]; simpl; try done. apply (cmp_opp cmp).
  - intros [x|] [y|] [z|]; simpl; try done. apply (cmp_le_trans cmp).
  - intros [x|] [y|]; simpl; try done. intros H. f_equal. by apply (cmp_eq cmp).
Qed.

(** The derived order of a pair. *)
Definition pair_compare {A B} (c : A → A → comparison) (d : B → B → comparison) : A * B → A * B → comparison :=
  cmp_then (cmp_on fst c) (cmp_on snd d).
#[global] Typeclasses Opaque pair_compare.

#[export] Instance pair_compare_strict {A B} (c : A → A → comparison) (d : B → B → comparison) :
  StrictComparator c → StrictComparator d → StrictComparator (pair_compare c d).
Proof.
  intros Hc Hd. unfold pair_compare. split; [apply _|].
  intros [a b] [a' b']. unfold cmp_then, cmp_on, then_with. cbn.
  destruct (c a a') eqn:E; try done. apply (cmp_eq c) in E as ->. intros H%(cmp_eq d). by subst.
Qed.

(** ** Positions by key

    [map.entry(key).or_default().push(position)] over a vector, where [sel k x]
    says that [x] is pushed under [k]. *)

Section Positions.
Context `{Countable K} {A : Type} (sel : K → A → bool).

Definition push_position (m : gmap K (list nat)) (k : K) (position : nat) : gmap K (list nat) :=
  <[k := default [] (m !! k) ++ [position]]> m.
(** The elements at the positions of an entry, in order. *)
Definition at_positions (l : list A) (entry : option (list nat)) : list A :=
  omap (λ p, l !! p) (default [] entry).

(** [m] indexes [l]: an entry holds the positions of the elements selected by its key. *)
Definition indexes (m : gmap K (list nat)) (l : list A) : Prop :=
  ∀ k, match m !! k with
       | None => List.filter (sel k) l = []
       | Some ps => ps ≠ [] ∧ Forall (λ p, p < length l) ps ∧
                    omap (λ p, l !! p) ps = List.filter (sel k) l
       end.

Lemma indexes_nil : indexes ∅ [].
Proof. intros k. by rewrite lookup_empty. Qed.

Lemma omap_positions_snoc (l : list A) x ps :
  Forall (λ p, p < length l) ps → omap (λ p, (l ++ [x]) !! p) ps = omap (λ p, l !! p) ps.
Proof.
  induction 1 as [|p ps Hp Hps IH]; [done|]. cbn. rewrite lookup_app_l by done.
  by rewrite IH.
Qed.

Lemma indexes_skip m l x : (∀ k, sel k x = false) → indexes m l → indexes m (l ++ [x]).
Proof.
  intros Hx Hm k. specialize (Hm k). rewrite List.filter_app. cbn. rewrite Hx, app_nil_r.
  destruct (m !! k) as [ps|]; [|done]. destruct Hm as (Hne & Hps & Ho).
  split_and!; [done| |by rewrite omap_positions_snoc].
  eapply Forall_impl; [exact Hps|]. intros p Hp. cbn in *. rewrite length_app. lia.
Qed.

Lemma indexes_push m l x k :
  sel k x = true → (∀ k', sel k' x = true → k' = k) → indexes m l →
  indexes (push_position m k (length l)) (l ++ [x]).
Proof.
  intros Hk Hu Hm k'. rewrite List.filter_app. unfold push_position.
  destruct (decide (k' = k)) as [->|Hne].
  - rewrite lookup_insert_eq. specialize (Hm k). cbn. rewrite Hk.
    assert (Forall (λ p, p < length l) (default [] (m !! k)) ∧
            omap (λ p, l !! p) (default [] (m !! k)) = List.filter (sel k) l) as [Hps Ho]
      by (destruct (m !! k); cbn; [tauto|by rewrite Hm]).
    split_and!.
    + by destruct (default [] (m !! k)).
    + apply Forall_app. split; [|by repeat constructor; rewrite length_app; cbn; lia].
      eapply Forall_impl; [exact Hps|]. intros p Hp. cbn in *. rewrite length_app. lia.
    + rewrite omap_app, omap_positions_snoc, Ho by done. cbn.
      by rewrite list_lookup_middle.
  - rewrite lookup_insert_ne by done. specialize (Hm k'). cbn.
    replace (sel k' x) with false by (symmetry; apply not_true_is_false; naive_solver).
    rewrite app_nil_r. destruct (m !! k') as [ps|]; [|done]. destruct Hm as (? & Hps & Ho).
    split_and!; [done| |by rewrite omap_positions_snoc].
    eapply Forall_impl; [exact Hps|]. intros p Hp. cbn in *. rewrite length_app. lia.
Qed.

Lemma indexes_lookup m l k : indexes m l → at_positions l (m !! k) = List.filter (sel k) l.
Proof.
  intros Hm. specialize (Hm k). unfold at_positions. destruct (m !! k) as [ps|]; cbn; [tauto|by rewrite Hm].
Qed.
Lemma indexes_None m l k : indexes m l → m !! k = None ↔ List.filter (sel k) l = [].
Proof.
  intros Hm. specialize (Hm k). destruct (m !! k) as [ps|]; [|done].
  destruct Hm as (Hne & Hps & Ho). split; [done|]. intros Hf. rewrite Hf in Ho.
  destruct ps as [|p ps]; [done|]. apply Forall_cons in Hps as [Hp _].
  apply lookup_lt_is_Some in Hp as [x Hx]. cbn in Ho. by rewrite Hx in Ho.
Qed.
End Positions.

(** ** [Display] of [i64] *)

Definition show_i64 (n : Z) : str :=
  if (n <? 0)%Z then "-"%char :: show_usize (- n) else show_usize n.
