(* ===== verification/Identity.v ===== *)
(** * Object identifiers, byte spans and result addresses

    Models [src/src/identity.rs]: full Git object ids, half-open byte spans, and
    the [SET:ORDINAL] and [SET@OFFSET] addresses of persisted results.  The
    [uuid] crate is a parameter ([UuidCrate]) with the documented fact that it
    parses its own simple form ([UuidLaws]). *)
From Stdlib Require Import Ascii String ZArith Lia Permutation.
From stdpp Require Import base numbers list gmap strings.
From S2P Require Import Prelude Order Text.

(** The part of the [uuid] crate the program calls. *)
Class UuidCrate (uuid : Type) := {
  uuid_parse_str : str → option uuid;   (* Uuid::parse_str *)
  uuid_simple : uuid → str;             (* id.simple().to_string() *)
  uuid_hyphenated : uuid → str;         (* id.to_string() *)
}.
Class UuidLaws (uuid : Type) `{UuidCrate uuid} : Prop := {
  uuid_parse_simple : ∀ u, uuid_parse_str (uuid_simple u) = Some u;
  uuid_parse_hyphenated : ∀ u, uuid_parse_str (uuid_hyphenated u) = Some u;
  uuid_simple_hex : ∀ u, length (uuid_simple u) = 32 ∧
    Forall (λ c, is_ascii_hexdigit c = true) (uuid_simple u);
}.

(** A concrete instance: a UUID is its 32 lower-case hexadecimal digits, and
    the parser accepts that form. *)
Module SimpleUuid.
Definition is_lower_hex (c : ascii) : bool := is_ascii_digit c || in_range 97 102 c.
Definition is_text (s : str) : bool := (length s =? 32) && forallb is_lower_hex s.
Definition t : Type := { s : str | is_text s = true }.
Definition parse (s : str) : option t :=
  match Bool.bool_dec (is_text s) true with
  | left H => Some (exist _ s H)
  | right _ => None
  end.
Definition nil : t := exist _ (replicate 32 "0"%char) eq_refl.
#[global] Instance crate : UuidCrate t := {|
  uuid_parse_str := parse; uuid_simple := proj1_sig; uuid_hyphenated := proj1_sig |}.

Lemma parse_text (u : t) : parse (proj1_sig u) = Some u.
Proof.
  destruct u as [s Hs]. unfold parse; simpl. destruct (Bool.bool_dec (is_text s) true) as [H|H].
  - do 2 f_equal. apply proof_irrel.
  - by destruct H.
Qed.

#[global] Instance laws : UuidLaws t.
Proof.
  split; [apply parse_text..|]. intros [s Hs]. simpl. unfold is_text in Hs.
  bool_to_prop. split; [done|]. apply Forall_forall. intros c Hc.
  match goal with H : forallb _ _ = true |- _ => rewrite forallb_forall in H;
    specialize (H c ltac:(by apply list_elem_of_In)) end.
  unfold is_lower_hex, is_ascii_hexdigit in *. destruct (is_ascii_digit c); [done|].
  simpl in *. by rewrite orb_true_r || (match goal with H : _ = true |- _ => rewrite H end; apply orb_true_r).
Qed.
End SimpleUuid.

(** ** Git object ids *)

Module GitOid.
Record t := Mk { hex : str; len : Z }.

(** [for (out, byte) in hex.iter_mut().zip(value.bytes())]. *)
Fixpoint zip_lowercase (hex value : str) : str :=
  match hex, value with
  | _ :: hex', b :: value' => to_ascii_lowercase_byte b :: zip_lowercase hex' value'
  | _, _ => hex
  end.

Definition parse (value : str) : result t :=
  if negb ((length value =? 40) || (length value =? 64))
     || negb (forallb is_ascii_hexdigit value)
  then Err "invalid_oid: expected full SHA-1 or SHA-256 object ID"
  else Ok {| hex := zip_lowercase (replicate 64 (chr 0)) value;
             len := Z.of_nat (length value) |}.

(** Slicing and UTF-8 conversion can panic. *)
Definition as_str (o : t) : result str :=
  _ ← ensure (Z.to_nat (len o) <=? length (hex o)) "slice index out of range";
  let s := take (Z.to_nat (len o)) (hex o) in
  _ ← ensure (utf8_valid s) "validated ASCII hex";
  Ok s.

Lemma zip_lowercase_take hex value :
  length value ≤ length hex →
  take (length value) (zip_lowercase hex value) = to_ascii_lowercase value ∧
  length (zip_lowercase hex value) = length hex.
Proof.
  revert value. induction hex as [|h hex IH]; intros [|b value]; simpl; try done; [lia|].
  intros H. destruct (IH value) as [-> ->]; [lia|]. done.
Qed.

Lemma ascii_utf8 s : Forall (λ c, in_range 0 127 c = true) s → Utf8 s.
Proof.
  induction 1 as [|c s Hc _ IH]; [constructor|].
  change (c :: s) with ([c] ++ s). constructor; [|done]. simpl. by rewrite Hc.
Qed.

Lemma hex_lowercase_ascii s :
  forallb is_ascii_hexdigit s = true →
  Forall (λ c, in_range 0 127 c = true) (to_ascii_lowercase s).
Proof.
  intros H. apply Forall_fmap, Forall_forall. intros c Hc.
  rewrite forallb_forall in H. specialize (H c ltac:(by apply list_elem_of_In)).
  revert H. clear. unfold compose. destruct c as [[] [] [] [] [] [] [] []]; by vm_compute.
Qed.

Lemma parse_Ok value o :
  parse value = Ok o →
  (length value = 40 ∨ length value = 64) ∧ forallb is_ascii_hexdigit value = true ∧
  o = {| hex := zip_lowercase (replicate 64 (chr 0)) value; len := Z.of_nat (length value) |}.
Proof.
  unfold parse. destruct (_ || _) eqn:E; [done|]. intros [= <-]. bool_to_prop.
  split_and!; [|done|done].
  match goal with H : _ || _ = true |- _ => apply orb_prop in H as [H|H] end;
    bool_to_prop; auto.
Qed.

(** An accepted id prints as the lower-case form of its input; printing never
    panics, and the printed form parses to the same id. *)
Lemma parse_as_str value o :
  parse value = Ok o → as_str o = Ok (to_ascii_lowercase value).
Proof.
  intros (Hlen & Hhex & ->)%parse_Ok. unfold as_str. cbn [hex len].
  destruct (zip_lowercase_take (replicate 64 (chr 0)) value) as [Ht Hl];
    [rewrite length_replicate; lia|].
  rewrite Hl, length_replicate, Nat2Z.id, Ht.
  rewrite (proj2 (Nat.leb_le _ _)) by lia. simpl.
  rewrite (proj2 (utf8_valid_iff _)); [done|]. by apply ascii_utf8, hex_lowercase_ascii.
Qed.
End GitOid.

(** ** Byte spans *)

Module ByteSpan.
Record t := Mk { start : nat; end_ : nat }.

Definition new (start end_ : nat) : result t :=
  if end_ <? start then Err "invalid_span: reversed byte range"
  else Ok {| start := start; end_ := end_ |}.

Definition validate (s : t) (len : nat) : result t :=
  if (end_ s <? start s) || (len <? end_ s)
  then Err "invalid_span: coordinates outside verified source"
  else Ok s.

(** A validated span selects a slice of the buffer it was validated against. *)
Lemma validate_Ok s len s' : validate s len = Ok s' ↔ s' = s ∧ start s ≤ end_ s ≤ len.
Proof.
  unfold validate. destruct (_ || _) eqn:E.
  - split; [done|]. intros [_ H]. apply orb_prop in E as [E|E]; bool_to_prop; lia.
  - bool_to_prop. split; [intros [= <-]; split; [done|lia]|]. by intros [-> _].
Qed.

Lemma new_Ok a b s : new a b = Ok s ↔ a ≤ b ∧ s = {| start := a; end_ := b |}.
Proof. unfold new. destruct (Nat.ltb_spec b a); naive_solver lia. Qed.
End ByteSpan.

(** ** Result addresses *)

Section addresses.
Context {uuid : Type} `{UuidCrate uuid}.

Record ResultHandle := MkHandle { handle_set : uuid; handle_ordinal : Z }.
Record ResultCursor := MkCursor { cursor_set : uuid; cursor_offset : Z }.

Definition handle_from_str (value : str) : result ResultHandle :=
  '(set, ordinal) ← or_err "invalid_handle: expected SET:ORDINAL" (rsplit_once ":" value);
  set ← or_err "invalid_handle: invalid result-set ID" (uuid_parse_str set);
  ordinal ← or_err "invalid_handle: invalid ordinal" (parse_usize ordinal);
  if (ordinal =? 0)%Z then Err "invalid_handle: ordinal must be positive"
  else Ok {| handle_set := set; handle_ordinal := ordinal |}.

Definition handle_to_string (h : ResultHandle) : str :=
  uuid_simple (handle_set h) ++ lit ":" ++ show_usize (handle_ordinal h).

Definition cursor_from_str (value : str) : result ResultCursor :=
  '(set, offset) ← or_err "invalid_cursor: expected SET@OFFSET" (rsplit_once "@" value);
  set ← or_err "invalid_cursor: invalid result-set ID" (uuid_parse_str set);
  offset ← or_err "invalid_cursor: invalid offset" (parse_usize offset);
  Ok {| cursor_set := set; cursor_offset := offset |}.

Definition cursor_to_string (c : ResultCursor) : str :=
  uuid_simple (cursor_set c) ++ lit "@" ++ show_usize (cursor_offset c).

(** What the handle parser accepts. *)
Lemma handle_from_str_Ok s h :
  handle_from_str s = Ok h ↔
  ∃ a b, s = a ++ (":"%char :: b) ∧ (":"%char) ∉ b ∧
    uuid_parse_str a = Some (handle_set h) ∧ parse_usize b = Some (handle_ordinal h) ∧
    (0 < handle_ordinal h)%Z.
Proof.
  unfold handle_from_str. split.
  - intros Hs. result_inv. destruct x as [a b]. result_inv.
    match goal with H : rsplit_once _ _ = _ |- _ => apply rsplit_once_Some in H as [-> ?] end.
    destruct (_ =? 0)%Z eqn:E; result_inv. exists a, b. bool_to_prop. simpl.
    match goal with H : parse_usize _ = _ |- _ => pose proof (parse_usize_range _ _ H) as Hr end.
    unfold in_usize in Hr. split_and!; auto; lia.
  - intros (a & b & -> & Hb & Ha & Ho & Hpos).
    rewrite (proj2 (rsplit_once_Some _ _ a b)) by done. simpl. rewrite Ha. simpl.
    rewrite Ho. simpl. rewrite (proj2 (Z.eqb_neq _ _)) by lia. by destruct h.
Qed.

Context `{!UuidLaws uuid}.

(** Printing a result address and parsing the text gives the address back. *)
Lemma handle_parse_print h :
  in_usize (handle_ordinal h) → (0 < handle_ordinal h)%Z →
  handle_from_str (handle_to_string h) = Ok h.
Proof.
  intros Hu Hpos. apply handle_from_str_Ok.
  exists (uuid_simple (handle_set h)), (show_usize (handle_ordinal h)).
  split_and!; [done|by apply show_usize_no_char|apply uuid_parse_simple|
    by apply parse_show_usize|done].
Qed.

Lemma cursor_parse_print c :
  in_usize (cursor_offset c) → cursor_from_str (cursor_to_string c) = Ok c.
Proof.
  intros Hu. unfold cursor_from_str, cursor_to_string.
  rewrite (proj2 (rsplit_once_Some _ _ (uuid_simple (cursor_set c)) (show_usize (cursor_offset c)))).
  - simpl. rewrite uuid_parse_simple. simpl. rewrite parse_show_usize by done. by destruct c.
  - split; [done|by apply show_usize_no_char].
Qed.
End addresses.
Arguments ResultHandle : clear implicits.
Arguments ResultCursor : clear implicits.

(** Result handles: printing a handle as [SET:ORDINAL] and parsing the text returns the same handle, for every set and every positive [usize] ordinal. *)
Theorem handle_roundtrip `{UuidLaws uuid} (h : ResultHandle uuid) :
  in_usize (handle_ordinal h) → (0 < handle_ordinal h)%Z →
  handle_from_str (handle_to_string h) = Ok h.
Proof. apply handle_parse_print. Qed.

Lemma handle_roundtrip_witness :
  let h := {| handle_set := SimpleUuid.nil; handle_ordinal := 10000 |} in
  handle_from_str (handle_to_string h) = Ok h.
Proof. apply (handle_roundtrip (uuid := SimpleUuid.t)); vm_compute; [split|]; congruence. Defined.
