(* ===== verification/Paths.v ===== *)
(** * Percent-encoded paths

    Models [src/src/store/paths.rs]: the text form of a Unix path that indexed
    rows, handles and filters carry, and its decoder. *)
From Stdlib Require Import Ascii String ZArith Lia Permutation.
From stdpp Require Import base numbers list gmap strings.
From S2P Require Import Prelude Order Text.

(** [{byte:02X}] and [{byte:02x}]. *)
Definition hex_upper (d : Z) : ascii := if (d <? 10)%Z then chr (48 + d) else chr (55 + d).
Definition hex_lower (d : Z) : ascii := if (d <? 10)%Z then chr (48 + d) else chr (87 + d).
Definition hex2_upper (b : ascii) : str := [hex_upper (bval b / 16); hex_upper (bval b mod 16)].
Definition hex2_lower (b : ascii) : str := [hex_lower (bval b / 16); hex_lower (bval b mod 16)].

(** [char::to_digit(16)]. *)
Definition to_digit16 (c : ascii) : option Z :=
  if is_ascii_digit c then Some (bval c - 48)%Z
  else if in_range 65 70 c then Some (bval c - 55)%Z
  else if in_range 97 102 c then Some (bval c - 87)%Z
  else None.

(** [u8::from_str_radix(digits, 16)]: a leading plus sign is accepted unless it
    is the whole text; overflow past 255 is an error. *)
Fixpoint radix16_go (acc : Z) (s : str) : option Z :=
  match s with
  | [] => Some acc
  | c :: s' =>
      d ← to_digit16 c;
      let v := (acc * 16 + d)%Z in
      if (v <=? U8_MAX)%Z then radix16_go v s' else None
  end.
Definition u8_from_str_radix16 (s : str) : option Z :=
  match s with
  | [] => None
  | c :: s' =>
      if (c =c "+"%char) && negb (s' =s []) then radix16_go 0 s' else radix16_go 0 s
  end.

(** Bytes that encoding keeps as they are. *)
Definition encode_plain (b : ascii) : bool :=
  in_range 33 126 b && negb (bool_decide (b ∈ ["%"; ":"; "@"]%char)).

Definition encode_byte (b : ascii) : str :=
  if encode_plain b then [b] else "%"%char :: hex2_upper b.

Definition encode_path (path : str) : str := path ≫= encode_byte.

Fixpoint decode_go (input : str) : result str :=
  match input with
  | [] => Ok []
  | c :: rest =>
      if c =c "%"%char then
        match rest with
        | h :: l :: rest' =>
            _ ← ensure (utf8_valid [h; l]) "invalid utf-8 sequence";
            b ← or_err "invalid digit found in string" (u8_from_str_radix16 [h; l]);
            bytes ← decode_go rest';
            Ok (chr b :: bytes)
        | _ => Err "invalid percent-encoded path"
        end
      else bytes ← decode_go rest; Ok (c :: bytes)
  end.

Definition decode_path (encoded : str) : result str :=
  bytes ← decode_go encoded;
  _ ← ensure (negb (bool_decide (chr 0 ∈ bytes))) "NUL in path";
  Ok bytes.

(** ** Round trip *)

Lemma encode_byte_plain b : encode_plain b = true → encode_byte b = [b] ∧ b ≠ "%"%char.
Proof.
  intros H. unfold encode_byte. rewrite H. split; [done|]. intros ->. by vm_compute in H.
Qed.

Lemma hex2_upper_decode b :
  utf8_valid (hex2_upper b) = true ∧ u8_from_str_radix16 (hex2_upper b) = Some (bval b).
Proof. split; by_byte b. Qed.

Lemma decode_go_encode_byte b s : decode_go (encode_byte b ++ s) = cons b <$> decode_go s.
Proof.
  unfold encode_byte. destruct (encode_plain b) eqn:E.
  - apply encode_byte_plain in E as [_ Hne]. simpl.
    rewrite bool_decide_eq_false_2 by done. by destruct (decode_go s).
  - destruct (hex2_upper_decode b) as [Hu Hd].
    assert (∃ h l, hex2_upper b = [h; l]) as (h & l & Hb) by (unfold hex2_upper; eauto).
    rewrite Hb in *. cbn [app decode_go].
    rewrite bool_decide_eq_true_2 by done. rewrite Hu, Hd. cbn.
    rewrite chr_bval. by destruct (decode_go s).
Qed.

Lemma decode_go_encode path : decode_go (encode_path path) = Ok path.
Proof.
  induction path as [|b path IH]; [done|]. unfold encode_path. rewrite bind_cons.
  rewrite decode_go_encode_byte. fold (encode_path path). by rewrite IH.
Qed.

(** Characters of encoded text: printable ASCII without [:] and [@]. *)
Definition path_char (c : ascii) : bool :=
  in_range 33 126 c && negb (bool_decide (c ∈ [":"; "@"]%char)).

Lemma encode_byte_chars b : forallb path_char (encode_byte b) = true.
Proof. by_byte b. Qed.

Lemma encode_path_chars path : Forall (λ c, path_char c = true) (encode_path path).
Proof.
  unfold encode_path. apply Forall_bind, Forall_true. intros b.
  apply Forall_forall. intros c Hc. pose proof (encode_byte_chars b) as H.
  rewrite forallb_forall in H. by apply H, list_elem_of_In.
Qed.

(** Paths: every Unix path without a NUL byte survives encoding and
    decoding, and its encoded form is printable ASCII without the [:] and [@]
    that delimit handles and cursors. *)
Theorem path_roundtrip path :
  chr 0 ∉ path →
  decode_path (encode_path path) = Ok path ∧
  Forall (λ c, path_char c = true) (encode_path path).
Proof.
  intros H0. split; [|apply encode_path_chars].
  unfold decode_path. rewrite decode_go_encode. simpl.
  by rewrite bool_decide_eq_false_2.
Qed.

Lemma path_roundtrip_witness :
  decode_path (encode_path (lit "src/a b%:.rs")) = Ok (lit "src/a b%:.rs").
Proof. apply path_roundtrip. apply (bool_decide_eq_false_1 _). reflexivity. Defined.

Lemma encode_path_inj p q : chr 0 ∉ p → encode_path p = encode_path q → p = q.
Proof.
  intros _ H. pose proof (decode_go_encode p) as Hp. rewrite H, decode_go_encode in Hp.
  by injection Hp.
Qed.
