(* ===== verification/PathFilter.v ===== *)
(** * [file:] filters

    Models [src/src/search/path_filter.rs]: the encoding of filter values, the
    binding of each include value to root-prefix or component matching, the
    in-memory matcher, and the SQL clause that lanes append to their queries.
    The [files] table is the list of its [path] column; text compares bytewise
    (SQLite's BINARY collation). *)
From Stdlib Require Import Ascii String ZArith Lia Permutation.
From stdpp Require Import base numbers list gmap strings.
From S2P Require Import Prelude Order Text Paths.

Record PathFilter := MkFilter { include : list str; exclude : list str }.
Definition filter_default : PathFilter := {| include := []; exclude := [] |}.

(** [while let Some(rest) = value.strip_prefix("./")]. *)
Fixpoint strip_dot_slash (s : str) : str :=
  match s with
  | a :: b :: rest => if (a =c "."%char) && (b =c "/"%char) then strip_dot_slash rest else s
  | _ => s
  end.

Fixpoint encoded_go (bytes : str) : str :=
  match bytes with
  | [] => []
  | byte :: rest =>
      if byte =c "%"%char then
        match rest with
        | high :: low :: rest' =>
            if is_ascii_hexdigit high && is_ascii_hexdigit low
            then "%"%char :: to_ascii_uppercase_byte high :: to_ascii_uppercase_byte low
                 :: encoded_go rest'
            else "%"%char :: hex2_upper byte ++ encoded_go rest
        | _ => "%"%char :: hex2_upper byte ++ encoded_go rest
        end
      else if path_char byte then byte :: encoded_go rest
      else "%"%char :: hex2_upper byte ++ encoded_go rest
  end.

Definition encoded_value (value : str) : option str :=
  let value := strip_dot_slash value in
  if value =s [] then None else Some (encoded_go value).

Definition filter_include (f : PathFilter) (value : str) : PathFilter :=
  match encoded_value value with
  | Some v => {| include := include f ++ [v]; exclude := exclude f |}
  | None => f
  end.
Definition filter_exclude (f : PathFilter) (value : str) : PathFilter :=
  match encoded_value value with
  | Some v => {| include := include f; exclude := exclude f ++ [v] |}
  | None => f
  end.
Definition filter_prefix (value : str) : PathFilter := filter_include filter_default value.

(** ** SQL text comparison *)

Definition str_ge (s t : str) : bool :=
  match str_compare s t with Lt => false | _ => true end.
Definition str_lt (s t : str) : bool :=
  match str_compare s t with Lt => true | _ => false end.

(** [*last += 1] on the last byte. *)
Definition upper_bound (p : str) : str :=
  match last p with
  | Some c => take (length p - 1) p ++ [chr ((bval c + 1) mod 256)]
  | None => []
  end.

(** [SELECT 1 FROM files WHERE path>=?1 AND path<?2 LIMIT 1]. *)
Definition exists_range (files : list str) (low high : str) : bool :=
  existsb (λ p, str_ge p low && str_lt p high) files.

Definition anchors_at_root (files : list str) (value : str) : bool :=
  if ends_with (lit "/") value then exists_range files value (upper_bound value)
  else exists_range files (value ++ lit ".") (value ++ lit "0")
       || exists_range files value (value ++ [chr 1]).

(** ** Needles *)

Record PathNeedle := MkNeedle { slashed : str; anchored : bool }.
Definition needle_new (value : str) (anchored : bool) : PathNeedle :=
  {| slashed := "/"%char :: value; anchored := anchored |}.
Definition needle_value (n : PathNeedle) : str := drop 1 (slashed n).
Definition needle_matches (n : PathNeedle) (path : str) : bool :=
  starts_with (needle_value n) path || (negb (anchored n) && contains (slashed n) path).

(** The predicates a needle turns into. *)
Inductive Predicate :=
| PRange (low high : str)
| PInstr (needle : str)
| POr (p q : Predicate).

Definition needle_predicate (n : PathNeedle) : Predicate :=
  let range := PRange (needle_value n) (upper_bound (needle_value n)) in
  if anchored n then range else POr range (PInstr (slashed n)).

(** [value.replace('\'', "''")] between quotes. *)
Definition sql_literal (value : str) : str :=
  lit "'" ++ (value ≫= λ c, if c =c "'"%char then lit "''" else [c]) ++ lit "'".

Fixpoint predicate_text (column : str) (p : Predicate) : str :=
  match p with
  | PRange low high =>
      lit "(" ++ column ++ lit ">=" ++ sql_literal low ++ lit " AND " ++ column ++ lit "<"
      ++ sql_literal high ++ lit ")"
  | PInstr n => lit "instr(" ++ column ++ lit "," ++ sql_literal n ++ lit ")>0"
  | POr p q => lit "(" ++ predicate_text column p ++ lit " OR " ++ predicate_text column q ++ lit ")"
  end.
Definition needle_sql (n : PathNeedle) (column : str) : str :=
  predicate_text column (needle_predicate n).

(** SQLite's reading of a predicate on a path. *)
Fixpoint predicate_eval (p : Predicate) (path : str) : bool :=
  match p with
  | PRange low high => str_ge path low && str_lt path high
  | PInstr n => contains n path
  | POr p q => predicate_eval p path || predicate_eval q path
  end.

(** ** Bound filters *)

Record BoundPathFilter := MkBound { b_include : list PathNeedle; b_exclude : list PathNeedle }.

Definition bind (f : PathFilter) (files : list str) : BoundPathFilter :=
  {| b_include := (λ v, needle_new v (anchors_at_root files v)) <$> include f;
     b_exclude := (λ v, needle_new v false) <$> exclude f |}.

Definition bound_is_empty (f : BoundPathFilter) : bool :=
  match b_include f, b_exclude f with [], [] => true | _, _ => false end.

Definition bound_matches (f : BoundPathFilter) (path : str) : bool :=
  (match b_include f with [] => true | ns => existsb (λ n, needle_matches n path) ns end)
  && negb (existsb (λ n, needle_matches n path) (b_exclude f)).

Definition sql_clause (f : BoundPathFilter) (column : str) : str :=
  (match b_include f with
   | [] => []
   | ns => lit " AND (" ++ join (lit " OR ") ((λ n, needle_sql n column) <$> ns) ++ lit ")"
   end)
  ++ (b_exclude f ≫= λ n, lit " AND NOT " ++ needle_sql n column).

(** SQLite's reading of the clause: a disjunction of the include predicates
    when there are any, and the negation of each exclude predicate. *)
Definition clause_eval (f : BoundPathFilter) (path : str) : bool :=
  (match b_include f with
   | [] => true
   | ns => existsb (λ n, predicate_eval (needle_predicate n) path) ns
   end)
  && forallb (λ n, negb (predicate_eval (needle_predicate n) path)) (b_exclude f).

(** Whether a value ends inside [path]'s basename, at its end or before [.]. *)
Definition names_file (path : str) (values : list str) : bool :=
  existsb (λ value,
    let rest_ok e := let rest := drop e path in
      ((rest =s []) || starts_with (lit ".") rest) && negb (contains (lit "/") rest) in
    if starts_with value path then rest_ok (length value)
    else match find_sub ("/"%char :: value) path with
         | Some start => rest_ok (start + 1 + length value)
         | None => false
         end) values.

Definition resolve_single_file (f : PathFilter) (files : list str) : option str :=
  let exact := match include f, exclude f with
               | [value], [] => if existsb (λ p, p =s value) files then Some value else None
               | _, _ => None
               end in
  match exact with
  | Some _ => exact
  | None =>
      let bound := bind f files in
      match b_include bound with
      | [] => None
      | _ =>
          match take 2 (sort_by str_compare (List.filter (clause_eval bound) files)) with
          | [path] => if names_file path (include f) then Some path else None
          | _ => None
          end
      end
  end.

(** ** Filter values *)

(** Text every indexed path and every stored filter value consists of. *)
Definition path_text (s : str) : Prop := Forall (λ c, path_char c = true) s.
(** A stored value: encoded and not empty. *)
Definition value_ok (v : str) : Prop := v ≠ [] ∧ path_text v.
Definition filter_ok (f : PathFilter) : Prop :=
  Forall value_ok (include f) ∧ Forall value_ok (exclude f).

(** The percent escapes of an encoded text are complete and upper case. *)
Definition upper_hex (c : ascii) : bool := is_ascii_hexdigit c && negb (is_ascii_lowercase c).

Lemma hex2_upper_digits b :
  ∃ h l, hex2_upper b = [h; l] ∧ upper_hex h = true ∧ upper_hex l = true.
Proof.
  exists (hex_upper (bval b / 16)), (hex_upper (bval b mod 16)). split; [done|].
  split; by_byte b.
Qed.

Lemma upper_hex_facts c :
  upper_hex c = true → is_ascii_hexdigit c = true ∧ to_ascii_uppercase_byte c = c ∧ path_char c = true.
Proof. destruct c as [[] [] [] [] [] [] [] []]; by vm_compute. Qed.

Lemma to_upper_hex c : is_ascii_hexdigit c = true → upper_hex (to_ascii_uppercase_byte c) = true.
Proof. destruct c as [[] [] [] [] [] [] [] []]; by vm_compute. Qed.

(** Normal forms: plain path characters and complete upper-case escapes. *)
Inductive Encoded : str → Prop :=
| Encoded_nil : Encoded []
| Encoded_plain c s : path_char c = true → c ≠ "%"%char → Encoded s → Encoded (c :: s)
| Encoded_escape h l s :
    upper_hex h = true → upper_hex l = true → Encoded s → Encoded ("%"%char :: h :: l :: s).

Lemma encoded_go_Encoded s : Encoded (encoded_go s).
Proof.
  induction s as [s IH] using (well_founded_induction (well_founded_ltof _ length)).
  unfold ltof in IH. destruct s as [|c s]; simpl; [constructor|].
  assert (∀ t, Encoded t → Encoded ("%"%char :: hex2_upper c ++ t)) as Hesc.
  { intros t Ht. destruct (hex2_upper_digits c) as (h & l & -> & ? & ?). by constructor. }
  case_bool_decide as Hc.
  - assert (Encoded ("%"%char :: hex2_upper c ++ encoded_go s)) as Hrest.
    { apply Hesc, IH. simpl; lia. }
    destruct s as [|h [|l s]]; [done|done|].
    destruct (is_ascii_hexdigit h && is_ascii_hexdigit l) eqn:E; [|done].
    bool_to_prop. constructor; [by apply to_upper_hex..|]. apply IH; simpl; lia.
  - destruct (path_char c) eqn:E; [|apply Hesc, IH; simpl; lia].
    constructor; [done|done|]. apply IH; simpl; lia.
Qed.

Lemma encoded_go_fixed s : Encoded s → encoded_go s = s.
Proof.
  induction 1 as [|c s Hc Hne _ IH|h l s Hh Hl _ IH]; simpl; [done|..].
  - rewrite bool_decide_eq_false_2 by done. by rewrite Hc, IH.
  - apply upper_hex_facts in Hh as (-> & -> & _), Hl as (-> & -> & _). by rewrite IH.
Qed.

Lemma Encoded_path_text s : Encoded s → path_text s.
Proof.
  induction 1 as [|c s Hc Hne _ IH|h l s Hh Hl _ IH]; [by constructor|by constructor|].
  apply upper_hex_facts in Hh as (_ & _ & ?), Hl as (_ & _ & ?).
  repeat constructor; done.
Qed.

Lemma strip_dot_slash_fixed s : strip_dot_slash (strip_dot_slash s) = strip_dot_slash s.
Proof.
  induction s as [s IH] using (well_founded_induction (well_founded_ltof _ length)).
  unfold ltof in IH. destruct s as [|a [|b s]]; [done|done|]. simpl.
  destruct (_ && _) eqn:E; [apply IH; simpl; lia|]. simpl. by rewrite E.
Qed.

(** Encoding never creates a leading [./]. *)
Lemma encoded_go_strip s :
  strip_dot_slash s = s → strip_dot_slash (encoded_go s) = encoded_go s.
Proof.
  destruct s as [|a s]; [done|]. intros Hs.
  assert (∀ c t, c ≠ "."%char → strip_dot_slash (c :: t) = c :: t) as Hhead.
  { intros c [|d t] Hc; simpl; [done|]. by rewrite bool_decide_eq_false_2. }
  simpl. case_bool_decide.
  { destruct s as [|h [|l s]]; [by apply Hhead..|].
    destruct (_ && _); by apply Hhead. }
  destruct (path_char a); [|by apply Hhead].
  destruct (decide (a = "."%char)) as [->|]; [|by apply Hhead].
  destruct s as [|b s]; [done|]. cbn [strip_dot_slash] in Hs.
  rewrite (bool_decide_eq_true_2 ("."%char = "."%char)), andb_true_l in Hs by done.
  destruct (decide (b = "/"%char)) as [Eb|Eb].
  { exfalso. rewrite bool_decide_eq_true_2 in Hs by done. apply (f_equal length) in Hs. simpl in Hs.
    assert (∀ t, length (strip_dot_slash t) ≤ length t) as Hlen; [|specialize (Hlen s); lia].
    clear. intros t. induction t as [t IH] using (well_founded_induction (well_founded_ltof _ length)).
    unfold ltof in IH. destruct t as [|x [|y t]]; simpl; [lia..|].
    destruct (_ && _); simpl; [|lia]. etrans; [apply IH; simpl; lia|lia]. }
  assert (∃ d t, encoded_go (b :: s) = d :: t ∧ d ≠ "/"%char) as (d & t & -> & Hd).
  { clear Hs. simpl. case_bool_decide; [destruct s as [|h [|l s]]; [eauto..|]; destruct (_ && _); eauto|].
    destruct (path_char b); eauto. }
  simpl. by rewrite (bool_decide_eq_false_2 _ Hd), ?andb_false_r.
Qed.

Lemma encoded_value_ok v e : encoded_value v = Some e → value_ok e.
Proof.
  unfold encoded_value. case_bool_decide as H; [done|]. intros [= <-]. split.
  - destruct (strip_dot_slash v) as [|c s]; [done|]. simpl.
    case_bool_decide; [destruct s as [|h [|l s]]; [done..|]; by destruct (_ && _)|].
    by destruct (path_char c).
  - apply Encoded_path_text, encoded_go_Encoded.
Qed.

Lemma encoded_value_fixed v e : encoded_value v = Some e → encoded_value e = Some e.
Proof.
  intros H. pose proof (encoded_value_ok v e H) as [Hne _]. revert H. unfold encoded_value.
  case_bool_decide as Hv; [done|]. intros [= <-].
  rewrite encoded_go_strip by apply strip_dot_slash_fixed.
  rewrite bool_decide_eq_false_2 by done. f_equal.
  apply encoded_go_fixed, encoded_go_Encoded.
Qed.

Lemma encode_path_Encoded p : Encoded (encode_path p).
Proof.
  induction p as [|b p IH]; [constructor|]. unfold encode_path. rewrite bind_cons.
  fold (encode_path p). unfold encode_byte. destruct (encode_plain b) eqn:E.
  - pose proof (encode_byte_chars b) as Hc. apply encode_byte_plain in E as [E ?].
    rewrite E in Hc. simpl in Hc. bool_to_prop. by constructor.
  - destruct (hex2_upper_digits b) as (h & l & -> & ? & ?). by constructor.
Qed.

Lemma filter_include_ok f v : filter_ok f → filter_ok (filter_include f v).
Proof.
  unfold filter_include, filter_ok. destruct (encoded_value v) as [e|] eqn:E; [|done].
  simpl. rewrite Forall_app, Forall_singleton. apply encoded_value_ok in E. tauto.
Qed.

Lemma filter_exclude_ok f v : filter_ok f → filter_ok (filter_exclude f v).
Proof.
  unfold filter_exclude, filter_ok. destruct (encoded_value v) as [e|] eqn:E; [|done].
  simpl. rewrite Forall_app, Forall_singleton. apply encoded_value_ok in E. tauto.
Qed.

(** ** Text ranges *)

Lemma byte_compare_eq a : byte_compare a a = Eq.
Proof. apply cmp_refl, _. Qed.

(** A string between two extensions of [v] extends [v]. *)
Lemma range_common v a b s :
  str_ge s (v ++ a) && str_lt s (v ++ b) = true ↔
  ∃ r, s = v ++ r ∧ str_ge r a && str_lt r b = true.
Proof.
  unfold str_ge, str_lt. revert s. induction v as [|c v IH]; intros s; simpl.
  { naive_solver. }
  destruct s as [|d s]; simpl; [split; [done|by intros (? & ? & _)]|].
  unfold str_compare in *. simpl. destruct (byte_compare d c) eqn:E; simpl.
  - apply (cmp_eq byte_compare) in E as ->. rewrite IH. naive_solver.
  - split; [done|]. intros (r & [= -> ->] & _). by rewrite byte_compare_eq in E.
  - split; [done|]. intros (r & [= -> ->] & _). by rewrite byte_compare_eq in E.
Qed.

Lemma range_one_byte c r :
  (bval c < 255)%Z →
  str_ge r [c] && str_lt r [chr ((bval c + 1) mod 256)] = true ↔ ∃ t, r = c :: t.
Proof.
  intros Hc. pose proof (bval_range c). unfold str_ge, str_lt, str_compare, byte_compare, cmp_on.
  destruct r as [|d t]; simpl; [naive_solver|].
  rewrite Z.mod_small, bval_chr by lia. split.
  - intros Hr. exists t. f_equal. apply bval_inj.
    destruct (Z.compare_spec (bval d) (bval c)), (Z.compare_spec (bval d) (bval c + 1));
      simpl in Hr; try done; try lia.
    destruct t; done.
  - intros [u [= -> ->]]. rewrite Z.compare_refl.
    rewrite (proj2 (Z.compare_lt_iff _ _)) by lia. by destruct u.
Qed.

(** The index range of a value is exactly the paths it prefixes. *)
Lemma range_prefix v s :
  value_ok v → str_ge s v && str_lt s (upper_bound v) = starts_with v s.
Proof.
  intros [Hne Hv]. destruct (last v) as [c|] eqn:E.
  2: { apply last_None in E. done. }
  apply last_Some in E as [u ->]. unfold upper_bound. rewrite last_snoc, length_app.
  simpl. rewrite Nat.add_sub, take_app_length.
  assert (bval c < 255)%Z as Hc.
  { apply Forall_app in Hv as [_ [Hv _]%Forall_cons].
    unfold path_char, in_range in Hv. bool_to_prop. lia. }
  apply Bool.eq_iff_eq_true. rewrite range_common, starts_with_true.
  split.
  - intros (r & -> & (t & ->)%range_one_byte); [|done]. exists t. by rewrite <-app_assoc.
  - intros [t ->]. exists (c :: t). rewrite <-app_assoc. split; [done|].
    apply range_one_byte; eauto.
Qed.

Lemma needle_new_value v a : needle_value (needle_new v a) = v.
Proof. done. Qed.

Lemma predicate_needle n path :
  value_ok (needle_value n) → predicate_eval (needle_predicate n) path = needle_matches n path.
Proof.
  intros Hv. unfold needle_predicate, needle_matches. destruct (anchored n); simpl;
    rewrite range_prefix by done; [by rewrite orb_false_r|done].
Qed.

Lemma bind_ok f files :
  filter_ok f →
  Forall (λ n, value_ok (needle_value n)) (b_include (bind f files)) ∧
  Forall (λ n, value_ok (needle_value n)) (b_exclude (bind f files)).
Proof. intros [Hi He]. split; simpl; by apply Forall_fmap. Qed.

Lemma existsb_ext_Forall {A} (P : A → Prop) (f g : A → bool) l :
  Forall P l → (∀ x, P x → f x = g x) → existsb f l = existsb g l.
Proof. intros H Hfg. induction H; simpl; [done|]. by rewrite Hfg, IHForall. Qed.

Lemma forallb_negb_existsb {A} (f : A → bool) l :
  forallb (λ x, negb (f x)) l = negb (existsb f l).
Proof. induction l; simpl; [done|]. by rewrite negb_orb, IHl. Qed.



(** ** Anchoring *)

Lemma exists_range_true files lo hi :
  exists_range files lo hi = true ↔ ∃ p, p ∈ files ∧ str_ge p lo && str_lt p hi = true.
Proof.
  unfold exists_range. rewrite existsb_exists. setoid_rewrite list_elem_of_In. done.
Qed.

Lemma range_dot_slash r :
  str_ge r (lit ".") && str_lt r (lit "0") = true ↔
  ∃ c t, r = c :: t ∧ (c = "."%char ∨ c = "/"%char).
Proof.
  unfold str_ge, str_lt, str_compare, byte_compare, cmp_on. destruct r as [|c t]; simpl.
  { split; [done|naive_solver]. }
  change (bval ".") with 46%Z. change (bval "0") with 48%Z. split.
  - intros Hr. exists c, t. split; [done|].
    assert (bval c = 46 ∨ bval c = 47)%Z as [Hb|Hb].
    { destruct (Z.compare_spec (bval c) 46), (Z.compare_spec (bval c) 48);
        simpl in Hr; try done; try lia. destruct t; done. }
    + left. apply bval_inj. by rewrite Hb.
    + right. apply bval_inj. by rewrite Hb.
  - intros (? & ? & [= <- <-] & [->| ->]); by destruct t.
Qed.

(** Anchoring: an include value is matched from the root exactly when some
    indexed path continues it at a component or stem boundary: the value ends in
    [/] and prefixes a path, or a path is the value itself or continues it with
    [.] or [/]. *)
Theorem anchors_at_root_spec (files : list str) (v : str) :
  value_ok v → Forall path_text files →
  anchors_at_root files v = true ↔
  ∃ p, p ∈ files ∧
    (if ends_with (lit "/") v then ∃ r, p = v ++ r
     else p = v ∨ ∃ c r, p = v ++ c :: r ∧ (c = "."%char ∨ c = "/"%char)).
Proof.
  intros Hv Hf. unfold anchors_at_root. destruct (ends_with (lit "/") v).
  { rewrite exists_range_true. setoid_rewrite range_prefix; [|done].
    by setoid_rewrite starts_with_true. }
  rewrite orb_true_iff, !exists_range_true. split.
  - intros [(p & Hp & Hr)|(p & Hp & Hr)]; exists p; (split; [done|]).
    + apply range_common in Hr as (r & -> & (c & t & -> & Hc)%range_dot_slash). eauto.
    + rewrite <-(app_nil_r v) in Hr at 1. apply range_common in Hr as (r & -> & Hr).
      left. destruct r as [|c t]; [by rewrite app_nil_r|]. exfalso.
      rewrite Forall_forall in Hf. specialize (Hf _ Hp).
      apply Forall_app in Hf as [_ [Hc _]%Forall_cons].
      unfold path_char, in_range in Hc. bool_to_prop.
      unfold str_lt, str_compare, byte_compare, cmp_on in *. simpl in *.
      change (bval (chr 1)) with 1%Z in *.
      destruct (Z.compare_spec (bval c) 1); simpl in *; try done; lia.
  - intros (p & Hp & [->|(c & r & -> & Hc)]).
    + right. exists v. split; [done|]. rewrite <-(app_nil_r v) at 2.
      apply range_common. exists []. by rewrite app_nil_r.
    + left. eexists. split; [done|]. apply range_common. eexists. split; [done|].
      apply range_dot_slash. eauto.
Qed.

Lemma anchors_at_root_spec_witness :
  anchors_at_root [lit "src/host.rs"] (lit "src/host") = true.
Proof.
  apply (anchors_at_root_spec [lit "src/host.rs"] (lit "src/host")).
  - apply (encoded_value_ok (lit "src/host")). reflexivity.
  - repeat constructor.
  - exists (lit "src/host.rs"). split; [left|]. right. exists "."%char, (lit "rs"). split; [done|by left].
Defined.

(** Filter values: what a filter stores is never empty, holds only the
    characters of encoded paths, and encoding it again changes nothing; an
    encoded path is stored unchanged. *)
Theorem encoded_value_normal (v e : str) :
  encoded_value v = Some e →
  value_ok e ∧ encoded_value e = Some e ∧
  ∀ p, strip_dot_slash (encode_path p) = encode_path p → p ≠ [] →
       encoded_value (encode_path p) = Some (encode_path p).
Proof.
  intros H. split; [by apply (encoded_value_ok v)|]. split; [by apply (encoded_value_fixed v)|].
  intros p Hp Hne. unfold encoded_value. rewrite Hp, encoded_go_fixed by apply encode_path_Encoded.
  rewrite bool_decide_eq_false_2; [done|]. intros He. apply Hne.
  apply (f_equal decode_go) in He. rewrite decode_go_encode in He. by injection He.
Qed.

Lemma encoded_value_normal_witness :
  encoded_value (lit "./src/a%2fb c") = Some (lit "src/a%2Fb%20c") ∧
  value_ok (lit "src/a%2Fb%20c").
Proof. split; [reflexivity|]. by apply (encoded_value_normal (lit "./src/a%2fb c")). Defined.

(** ** SQL literals *)

(** SQLite's reading of a quoted literal: a doubled quote is a quote, a single
    one ends the literal. *)
Fixpoint read_quoted (s : str) : option (str * str) :=
  match s with
  | [] => None
  | c :: s' =>
      if c =c "'"%char then
        match s' with
        | d :: s'' =>
            if d =c "'"%char then (λ '(v, r), ("'"%char :: v, r)) <$> read_quoted s''
            else Some ([], s')
        | [] => Some ([], [])
        end
      else (λ '(v, r), (c :: v, r)) <$> read_quoted s'
  end.

Lemma read_quoted_escaped v tail rest :
  read_quoted tail = Some ([], rest) →
  read_quoted ((v ≫= λ c, if c =c "'"%char then lit "''" else [c]) ++ tail) = Some (v, rest).
Proof.
  intros Ht. induction v as [|c v IH]; [done|].
  rewrite bind_cons, <-app_assoc. revert IH. generalize ((v ≫= λ c, if c =c "'"%char
    then lit "''" else [c]) ++ tail) as t. intros t IH. case_bool_decide as Hc; simpl.
  - subst c. by rewrite IH.
  - by rewrite bool_decide_eq_false_2, IH.
Qed.

(** A literal cannot be broken out of: reading it back gives the value and
    leaves the rest of the statement untouched. *)
Lemma sql_literal_roundtrip v rest :
  starts_with (lit "'") rest = false →
  read_quoted (drop 1 (sql_literal v ++ rest)) = Some (v, rest).
Proof.
  intros Hr. unfold sql_literal. rewrite <-!app_assoc. simpl. rewrite drop_0.
  apply read_quoted_escaped. destruct rest as [|d rest]; [done|]. simpl.
  case_bool_decide as Hd; [|done]. subst d. by destruct rest.
Qed.
