(* ===== verification/Scheduler.v ===== *)
(** * The fair request scheduler of the inference worker

    Models [src/src/semantic/worker/scheduler.rs].  A [VecDeque] is a list with
    its front at the head; the [BTreeMap] of root queues is a finite map whose
    iteration visits keys in order. *)
From Stdlib Require Import Ascii String ZArith Lia Permutation.
From stdpp Require Import base numbers list gmap strings.
From S2P Require Import Prelude Order Text.

Inductive RequestClass := Query | Background.
#[export] Instance RequestClass_eq_dec : EqDecision RequestClass.
Proof. solve_decision. Defined.

Section scheduler.
Context {T : Type}.

Record RootQueue := MkQueue { query : list T; background : list T }.
Record FairScheduler := MkScheduler {
  roots : gmap str RootQueue;
  order : list str;
  cursor : nat;
  query_turns : Z;  (* u8 *)
}.

Definition scheduler_default : FairScheduler :=
  {| roots := ∅; order := []; cursor := 0; query_turns := 0 |}.

Definition push_back (class : RequestClass) (item : T) (q : RootQueue) : RootQueue :=
  match class with
  | Query => {| query := query q ++ [item]; background := background q |}
  | Background => {| query := query q; background := background q ++ [item] |}
  end.

Definition enqueue (s : FairScheduler) (root_id : str) (class : RequestClass) (item : T)
    : FairScheduler :=
  match roots s !! root_id with
  | Some q =>
      {| roots := <[root_id := push_back class item q]> (roots s); order := order s;
         cursor := cursor s; query_turns := query_turns s |}
  | None =>
      {| roots := <[root_id := push_back class item {| query := []; background := [] |}]> (roots s);
         order := order s ++ [root_id]; cursor := cursor s; query_turns := query_turns s |}
  end.

(** [push] reads the root from the item ([RootIdent]). *)
Definition push (root_of : T → str) (s : FairScheduler) (class : RequestClass) (item : T)
    : FairScheduler :=
  enqueue s (root_of item) class item.

Definition pop_front (class : RequestClass) (q : RootQueue) : option (T * RootQueue) :=
  match class with
  | Query => match query q with
             | x :: xs => Some (x, {| query := xs; background := background q |})
             | [] => None
             end
  | Background => match background q with
                  | x :: xs => Some (x, {| query := query q; background := xs |})
                  | [] => None
                  end
  end.

(** The inner loop of [pop]: the first root at or after the cursor whose queue
    of this class has an item. *)
Fixpoint scan (s : FairScheduler) (class : RequestClass) (offsets : list nat)
    : option (T * nat * gmap str RootQueue) :=
  match offsets with
  | [] => None
  | offset :: offsets' =>
      let index := (cursor s + offset) mod length (order s) in
      match order s !! index with
      | None => None  (* index out of bounds: unreachable, index < len *)
      | Some root =>
          match roots s !! root with
          | None => scan s class offsets'
          | Some q =>
              match pop_front class q with
              | Some (item, q') => Some (item, index, <[root := q']> (roots s))
              | None => scan s class offsets'
              end
          end
      end
  end.

Definition queue_is_empty (q : RootQueue) : bool :=
  match query q, background q with [], [] => true | _, _ => false end.

(** [iter().position(|entry| entry == root)]. *)
Fixpoint position (root : str) (l : list str) : option nat :=
  match l with
  | [] => None
  | r :: l' => if r =s root then Some 0 else S <$> position root l'
  end.

Definition remove_root (s : FairScheduler) (root : str) : FairScheduler :=
  match position root (order s) with
  | None => {| roots := delete root (roots s); order := order s; cursor := cursor s;
               query_turns := query_turns s |}
  | Some index =>
      let order' := take index (order s) ++ drop (S index) (order s) in
      let cursor' :=
        match order' with
        | [] => 0
        | _ => if index <? cursor s then cursor s - 1 else cursor s mod length order'
        end in
      {| roots := delete root (roots s); order := order'; cursor := cursor';
         query_turns := query_turns s |}
  end.

Definition empty_roots (s : FairScheduler) : list str :=
  sort_by str_compare
    ((map_to_list (roots s)) ≫= λ '(root, q), if queue_is_empty q then [root] else []).

Definition remove_empty_roots (s : FairScheduler) : FairScheduler :=
  foldl remove_root s (empty_roots s).

Definition other_class (c : RequestClass) : RequestClass :=
  match c with Query => Background | Background => Query end.

Definition preferred (s : FairScheduler) : RequestClass :=
  if (query_turns s <? 3)%Z then Query else Background.

Definition pop_class (s : FairScheduler) : option (T * RequestClass * FairScheduler) :=
  match order s with
  | [] => None
  | _ =>
      let offsets := seq 0 (length (order s)) in
      let finish class '(item, index, roots') :=
        let s' := {| roots := roots'; order := order s;
                     cursor := (index + 1) mod length (order s);
                     query_turns := match class with
                                    | Query => saturating_add U8_MAX (query_turns s) 1
                                    | Background => 0%Z
                                    end |} in
        (item, class, remove_empty_roots s') in
      match scan s (preferred s) offsets with
      | Some found => Some (finish (preferred s) found)
      | None =>
          match scan s (other_class (preferred s)) offsets with
          | Some found => Some (finish (other_class (preferred s)) found)
          | None => None
          end
      end
  end.

Definition pop (s : FairScheduler) : option (T * FairScheduler) :=
  (λ '(item, _, s'), (item, s')) <$> pop_class s.

Definition pending (s : FairScheduler) : nat :=
  sum_list ((λ '(_, q), length (query q) + length (background q)) <$> map_to_list (roots s)).
End scheduler.
Arguments RootQueue : clear implicits.
Arguments FairScheduler : clear implicits.

Section scheduler_facts.
Context {T : Type}.
Implicit Types (s : FairScheduler T) (q : RootQueue T).

(** The items of one class waiting at one root, oldest first. *)
Definition queue_of (class : RequestClass) (q : RootQueue T) : list T :=
  match class with Query => query q | Background => background q end.
Definition waiting (s : FairScheduler T) (root : str) (class : RequestClass) : list T :=
  match roots s !! root with Some q => queue_of class q | None => [] end.

(** The state invariant: [order] lists each root with a queue once, no queue
    is empty, and the cursor addresses [order]. *)
Record scheduler_inv (s : FairScheduler T) : Prop := {
  inv_nodup : NoDup (order s);
  inv_dom : ∀ r, r ∈ order s ↔ is_Some (roots s !! r);
  inv_nonempty : ∀ r q, roots s !! r = Some q → queue_is_empty q = false;
  inv_cursor : order s = [] ∧ cursor s = 0 ∨ cursor s < length (order s);
  inv_turns : (0 ≤ query_turns s ≤ U8_MAX)%Z;
}.

(** The same without the non-emptiness of queues: what holds inside [pop],
    between taking an item and dropping the roots it emptied. *)
Record scheduler_inv' (s : FairScheduler T) : Prop := {
  inv'_nodup : NoDup (order s);
  inv'_dom : ∀ r, r ∈ order s ↔ is_Some (roots s !! r);
  inv'_cursor : order s = [] ∧ cursor s = 0 ∨ cursor s < length (order s);
  inv'_turns : (0 ≤ query_turns s ≤ U8_MAX)%Z;
}.

Lemma queue_of_push_back c c' x q :
  queue_of c (push_back c' x q) = queue_of c q ++ (if decide (c = c') then [x] else []).
Proof. destruct c, c'; simpl; by rewrite ?app_nil_r. Qed.

Lemma queue_of_pop_front c q x q' :
  pop_front c q = Some (x, q') →
  queue_of c q = x :: queue_of c q' ∧
  queue_of (other_class c) q' = queue_of (other_class c) q.
Proof. destruct c, q as [[|] [|]]; simpl; naive_solver. Qed.

Lemma pop_front_None c q : pop_front c q = None ↔ queue_of c q = [].
Proof. destruct c, q as [[|] [|]]; simpl; naive_solver. Qed.

Lemma queue_is_empty_true q : queue_is_empty q = true ↔ ∀ c, queue_of c q = [].
Proof.
  destruct q as [[|] [|]]; unfold queue_is_empty; simpl; split; try done.
  - by intros _ [].
  - intros H. by specialize (H Background).
  - intros H. by specialize (H Query).
  - intros H. by specialize (H Query).
Qed.

Lemma position_Some root l i :
  position root l = Some i → l !! i = Some root ∧ i < length l.
Proof.
  revert i. induction l as [|r l IH]; intros i; simpl; [done|]. case_bool_decide as Hr.
  - intros [= <-]. subst. split; [done|lia].
  - intros (j & Hj & ->)%fmap_Some. destruct (IH j Hj). split; [done|lia].
Qed.

Lemma position_elem root l : root ∈ l → is_Some (position root l).
Proof.
  induction l as [|r l IH]; intros H; simpl; [by apply elem_of_nil in H|].
  case_bool_decide; [eauto|]. apply elem_of_cons in H as [->|H]; [done|].
  destruct (IH H) as [j ->]. simpl. eauto.
Qed.

(** Removing one root keeps the invariant. *)
Lemma remove_root_inv s root :
  root ∈ order s → scheduler_inv' s → scheduler_inv' (remove_root s root).
Proof.
  intros Hin [Hnd Hdom Hcur Hturns]. destruct (position_elem root (order s) Hin) as [i Hi].
  unfold remove_root. rewrite Hi. apply position_Some in Hi as [Hi Hlt].
  pose proof (take_drop_middle (order s) i root Hi) as Hsplit.
  set (o' := take i (order s) ++ drop (S i) (order s)).
  assert (order s ≡ₚ root :: o') as Hperm.
  { rewrite <-Hsplit at 1. symmetry. apply Permutation_middle. }
  assert (NoDup (root :: o')) as [Hnr Hnd']%NoDup_cons by by rewrite <-Hperm.
  split; simpl; [done| | |done].
  - intros r. rewrite lookup_delete_is_Some, <-Hdom, Hperm, elem_of_cons. split.
    + intros Hr. split; [congruence|by right].
    + intros [? [?|?]]; [congruence|done].
  - assert (length (order s) = S (length o')) as Hl by by rewrite Hperm.
    destruct o' as [|r o''] eqn:Eo; [by left|right]. rewrite <-Eo in *.
    destruct (Nat.ltb_spec i (cursor s)); [|apply Nat.mod_upper_bound]; [|by rewrite Eo].
    destruct Hcur as [[He _]|Hcur]; [rewrite He in Hlt; simpl in Hlt|]; lia.
Qed.

Lemma remove_root_waiting s root r c :
  waiting s root c = [] → waiting (remove_root s root) r c = waiting s r c.
Proof.
  unfold waiting, remove_root. intros H.
  assert (delete root (roots s) !! r = roots s !! r ∨ r = root ∧ delete root (roots s) !! r = None)
    as Hr.
  { rewrite lookup_delete. case_decide; [right; by subst|by left]. }
  destruct (position root (order s)); simpl; destruct Hr as [->|[-> ->]]; congruence || done.
Qed.

Lemma remove_root_turns s root : query_turns (remove_root s root) = query_turns s.
Proof. unfold remove_root. by destruct (position root (order s)). Qed.

Lemma remove_root_lookup s root r :
  roots (remove_root s root) !! r = if decide (root = r) then None else roots s !! r.
Proof. unfold remove_root. destruct (position root (order s)); simpl; apply lookup_delete. Qed.

Lemma elem_of_empty_roots s r :
  r ∈ empty_roots s ↔ ∃ q, roots s !! r = Some q ∧ queue_is_empty q = true.
Proof.
  unfold empty_roots. rewrite elem_of_sort_by, list_elem_of_bind. split.
  - intros ([r' q] & Hr & Hq%elem_of_map_to_list).
    destruct (queue_is_empty q) eqn:E; [|by apply elem_of_nil in Hr].
    apply list_elem_of_singleton in Hr as ->. eauto.
  - intros (q & Hq & He). exists (r, q). rewrite He, list_elem_of_singleton.
    split; [done|]. by apply elem_of_map_to_list.
Qed.

Lemma empty_roots_NoDup s : NoDup (empty_roots s).
Proof.
  unfold empty_roots. rewrite (sort_by_perm _ _).
  pose proof (NoDup_fst_map_to_list (roots s)) as Hnd.
  induction (map_to_list (roots s)) as [|[r q] l IH]; simpl; [constructor|].
  apply NoDup_cons in Hnd as [Hr Hnd]. specialize (IH Hnd).
  destruct (queue_is_empty q); simpl; [|done]. constructor; [|done].
  intros ([r' q'] & Hr' & Hin)%list_elem_of_bind. apply Hr.
  destruct (queue_is_empty q'); [|by apply elem_of_nil in Hr'].
  apply list_elem_of_singleton in Hr' as <-. apply list_elem_of_fmap. by exists (r, q').
Qed.

Lemma fold_remove_root l s :
  NoDup l → (∀ r, r ∈ l → r ∈ order s ∧ ∀ c, waiting s r c = []) → scheduler_inv' s →
  let s' := foldl remove_root s l in
  scheduler_inv' s' ∧ (∀ r c, waiting s' r c = waiting s r c) ∧
  query_turns s' = query_turns s ∧
  ∀ r, roots s' !! r = if decide (r ∈ l) then None else roots s !! r.
Proof.
  revert s. induction l as [|x l IH]; intros s Hnd Hl Hinv; simpl.
  { split_and!; [done..|]. intros r. by destruct (decide (r ∈ [])) as [[]%elem_of_nil|]. }
  apply NoDup_cons in Hnd as [Hx Hnd].
  destruct (Hl x ltac:(left)) as [Hxo Hxw].
  destruct (IH (remove_root s x)) as (Hi & Hw & Ht & Hlk); [done| |by apply remove_root_inv|].
  { intros r Hr. destruct (Hl r ltac:(by right)) as [Hro Hrw]. split.
    - apply (inv'_dom _ (remove_root_inv s x Hxo Hinv)). rewrite remove_root_lookup.
      rewrite decide_False by (intros ->; done). by apply (inv'_dom _ Hinv).
    - intros c. by rewrite remove_root_waiting. }
  split_and!; [done| | |].
  - intros r c. rewrite Hw. by apply remove_root_waiting.
  - by rewrite Ht, remove_root_turns.
  - intros r. rewrite Hlk, remove_root_lookup.
    destruct (decide (r ∈ l)), (decide (x = r)), (decide (r ∈ x :: l)); set_solver.
Qed.

Lemma remove_empty_roots_spec s :
  scheduler_inv' s →
  scheduler_inv (remove_empty_roots s) ∧
  (∀ r c, waiting (remove_empty_roots s) r c = waiting s r c) ∧
  query_turns (remove_empty_roots s) = query_turns s.
Proof.
  intros Hinv. unfold remove_empty_roots.
  destruct (fold_remove_root (empty_roots s) s) as (Hi & Hw & Ht & Hlk);
    [apply empty_roots_NoDup| |done|].
  { intros r (q & Hq & He)%elem_of_empty_roots. split; [apply (inv'_dom _ Hinv); eauto|].
    intros c. unfold waiting. rewrite Hq. by apply queue_is_empty_true. }
  split_and!; [|done|done]. destruct Hi. split; try done.
  intros r q. rewrite Hlk. destruct (decide _) as [|Hn]; [done|]. intros Hq.
  destruct (queue_is_empty q) eqn:E; [|done]. exfalso. apply Hn, elem_of_empty_roots. eauto.
Qed.

(** ** What the scan of [pop] finds *)

Lemma scan_Some s c offsets x i roots' :
  scan s c offsets = Some (x, i, roots') →
  ∃ root q q', order s !! i = Some root ∧ roots s !! root = Some q ∧
    pop_front c q = Some (x, q') ∧ roots' = <[root := q']> (roots s).
Proof.
  induction offsets as [|o offsets IH]; simpl; [done|].
  destruct (order s !! ((cursor s + o) mod length (order s))) as [root|] eqn:Ho; [|done].
  destruct (roots s !! root) as [q|] eqn:Hq; [|apply IH].
  destruct (pop_front c q) as [[y q']|] eqn:Hp; [|apply IH].
  intros [= <- <- <-]. exists root, q, q'. done.
Qed.

Lemma scan_None s c offsets root o :
  scheduler_inv' s → order s ≠ [] → scan s c offsets = None → o ∈ offsets →
  order s !! ((cursor s + o) mod length (order s)) = Some root → waiting s root c = [].
Proof.
  intros Hinv Hne. induction offsets as [|o' offsets IH]; simpl; intros Hs Ho Hroot.
  { by apply elem_of_nil in Ho. }
  assert (is_Some (order s !! ((cursor s + o') mod length (order s)))) as [r Hr].
  { apply lookup_lt_is_Some, Nat.mod_upper_bound. by destruct (order s). }
  rewrite Hr in Hs. unfold waiting.
  assert (is_Some (roots s !! r)) as [q Hq]
    by (apply (inv'_dom _ Hinv); by apply list_elem_of_lookup_2 in Hr).
  rewrite Hq in Hs. destruct (pop_front c q) as [[]|] eqn:Hp; [done|].
  apply elem_of_cons in Ho as [->|Ho]; [|by apply IH].
  rewrite Hroot in Hr. injection Hr as ->. rewrite Hq. by apply pop_front_None.
Qed.

(** A full scan visits every root. *)
Lemma offset_reaches cur i n : cur < n → i < n → ∃ o, o < n ∧ (cur + o) mod n = i.
Proof.
  intros Hc Hi. destruct (decide (cur ≤ i)).
  - exists (i - cur). split; [lia|]. rewrite Nat.mod_small; lia.
  - exists (i + n - cur). split; [lia|]. replace (cur + (i + n - cur)) with (i + 1 * n) by lia.
    rewrite Nat.Div0.mod_add. apply Nat.mod_small. lia.
Qed.

Lemma scan_all_None s c root :
  scheduler_inv' s → scan s c (seq 0 (length (order s))) = None → waiting s root c = [].
Proof.
  intros Hinv Hs. unfold waiting. destruct (roots s !! root) as [q|] eqn:Hq; [|done].
  assert (root ∈ order s) as Hin by (apply (inv'_dom _ Hinv); eauto).
  apply list_elem_of_lookup_1 in Hin as [i Hi]. pose proof (lookup_lt_Some _ _ _ Hi) as Hlt.
  destruct (inv'_cursor _ Hinv) as [[He _]|Hcur]; [rewrite He in Hlt; simpl in Hlt; lia|].
  destruct (offset_reaches (cursor s) i (length (order s))) as (o & Ho & Hoi); [done..|].
  rewrite <-Hoi in Hi.
  pose proof (scan_None s c _ root o Hinv ltac:(by intros H; rewrite H in Hlt; simpl in Hlt; lia)
    Hs ltac:(apply elem_of_seq; lia) Hi) as Hw.
  unfold waiting in Hw. by rewrite Hq in Hw.
Qed.

Lemma inv_inv' s : scheduler_inv s → scheduler_inv' s.
Proof. by intros []. Qed.

(** The state between taking an item from [root] and dropping empty roots. *)
Lemma taken_state s c root q q' x i t :
  scheduler_inv s → order s !! i = Some root → roots s !! root = Some q →
  pop_front c q = Some (x, q') → (0 ≤ t ≤ U8_MAX)%Z →
  let s1 := {| roots := <[root := q']> (roots s); order := order s;
               cursor := (i + 1) mod length (order s); query_turns := t |} in
  scheduler_inv' s1 ∧ waiting s root c = x :: waiting s1 root c ∧
  ∀ r c', (r, c') ≠ (root, c) → waiting s1 r c' = waiting s r c'.
Proof.
  intros [Hnd Hdom Hne Hcur Ht0] Ho Hq Hp Ht s1. apply lookup_lt_Some in Ho as Hlt.
  destruct (queue_of_pop_front c q x q' Hp) as [Hq1 Hq2]. split_and!.
  - split; simpl; [done| | |done].
    + intros r. rewrite Hdom, lookup_insert_is_Some'. split; [by right|].
      intros [<-|?]; eauto.
    + right. apply Nat.mod_upper_bound. lia.
  - unfold waiting, s1; simpl. by rewrite Hq, lookup_insert_eq.
  - intros r c' Hrc. unfold waiting, s1; simpl.
    destruct (decide (root = r)) as [->|]; [|by rewrite lookup_insert_ne].
    rewrite lookup_insert_eq, Hq.
    assert (c' = other_class c) as -> by (destruct c, c'; simpl; congruence).
    done.
Qed.

(** One [pop] on every branch. *)
Lemma pop_class_spec s :
  scheduler_inv s →
  match pop_class s with
  | None => ∀ r c, waiting s r c = []
  | Some (x, c, s') =>
      scheduler_inv s' ∧
      (∃ root, waiting s root c = x :: waiting s' root c ∧
        ∀ r c', (r, c') ≠ (root, c) → waiting s' r c' = waiting s r c') ∧
      (c ≠ preferred s → ∀ r, waiting s r (preferred s) = []) ∧
      query_turns s' = match c with
                       | Query => saturating_add U8_MAX (query_turns s) 1
                       | Background => 0%Z
                       end
  end.
Proof.
  intros Hinv. pose proof (inv_inv' s Hinv) as Hinv'. unfold pop_class.
  destruct (order s) as [|o0 os] eqn:Ho; [|rewrite <-Ho].
  { intros r c. unfold waiting. destruct (roots s !! r) eqn:Hr; [|done].
    assert (r ∈ order s) as Hin by (apply (inv_dom _ Hinv); eauto).
    rewrite Ho in Hin. by apply elem_of_nil in Hin. }
  assert (∀ c x i roots', scan s c (seq 0 (length (order s))) = Some (x, i, roots') →
    let s' := remove_empty_roots {| roots := roots'; order := order s;
      cursor := (i + 1) mod length (order s);
      query_turns := match c with
        | Query => saturating_add U8_MAX (query_turns s) 1 | Background => 0%Z end |} in
    scheduler_inv s' ∧
    (∃ root, waiting s root c = x :: waiting s' root c ∧
      ∀ r c', (r, c') ≠ (root, c) → waiting s' r c' = waiting s r c') ∧
    query_turns s' = match c with
      | Query => saturating_add U8_MAX (query_turns s) 1 | Background => 0%Z end) as Htake.
  { intros c x i roots' (root & q & q' & Hi & Hq & Hp & ->)%scan_Some s'.
    destruct (taken_state s c root q q' x i (match c with
        | Query => saturating_add U8_MAX (query_turns s) 1 | Background => 0%Z end))
      as (H1 & H2 & H3); [done..| |].
    { pose proof (inv_turns _ Hinv). unfold saturating_add, U8_MAX in *. destruct c; lia. }
    destruct (remove_empty_roots_spec _ H1) as (Hi' & Hw & Ht). split_and!; [done| |done].
    exists root. split; [by rewrite Hw|]. intros r c' Hrc. rewrite Hw. by apply H3. }
  destruct (scan s (preferred s) _) as [[[x i] roots']|] eqn:E1.
  { destruct (Htake _ _ _ _ E1) as (? & ? & ?). by split_and!. }
  destruct (scan s (other_class _) _) as [[[x i] roots']|] eqn:E2.
  { destruct (Htake _ _ _ _ E2) as (? & ? & ?). split_and!; try done.
    intros _ r. by apply scan_all_None. }
  intros r c. destruct (decide (c = preferred s)) as [->|Hc]; [by apply scan_all_None|].
  replace c with (other_class (preferred s)) by (destruct c, (preferred s); done).
  by apply scan_all_None.
Qed.

Lemma enqueue_waiting s root c x r c' :
  waiting (enqueue s root c x) r c' =
    waiting s r c' ++ (if decide (r = root ∧ c' = c) then [x] else []).
Proof.
  unfold waiting, enqueue. destruct (roots s !! root) as [q|] eqn:Hq; simpl;
    rewrite lookup_insert; destruct (decide (root = r)) as [->|Hne].
  - rewrite Hq, queue_of_push_back. do 2 case_decide; naive_solver.
  - rewrite decide_False by naive_solver. by rewrite app_nil_r.
  - rewrite Hq, queue_of_push_back. destruct c'; simpl; do 2 case_decide; naive_solver.
  - rewrite decide_False by naive_solver. by rewrite app_nil_r.
Qed.

Lemma enqueue_inv s root c x : scheduler_inv s → scheduler_inv (enqueue s root c x).
Proof.
  intros [Hnd Hdom Hne Hcur Ht].
  assert (∀ q, queue_is_empty (push_back c x q) = false) as Hpb.
  { intros q. destruct c, q as [[|] [|]]; done. }
  unfold enqueue. destruct (roots s !! root) as [q|] eqn:Hq; split; simpl; try done.
  - intros r. rewrite lookup_insert_is_Some', Hdom. split; [by right|].
    intros [<-|?]; eauto.
  - intros r q'. rewrite lookup_insert. case_decide; naive_solver.
  - apply NoDup_app. split_and!; [done| |apply NoDup_singleton].
    intros r Hr ->%list_elem_of_singleton. apply Hdom in Hr as [? ?]. congruence.
  - intros r. rewrite lookup_insert_is_Some', elem_of_app, list_elem_of_singleton, Hdom.
    naive_solver.
  - intros r q'. rewrite lookup_insert. case_decide; naive_solver.
  - right. rewrite length_app. simpl. destruct Hcur as [[_ ->]|?]; lia.
Qed.

Lemma default_inv : scheduler_inv (@scheduler_default T).
Proof.
  split; simpl; [constructor| |done|by left|unfold U8_MAX; lia].
  intros r. rewrite lookup_empty. split; [by intros ?%elem_of_nil|by intros [? ?]].
Qed.
End scheduler_facts.

(** ** The scheduler as a state machine *)

Inductive SchedulerEvent (T : Type) :=
| EnqueueEvent (root : str) (class : RequestClass) (item : T)
| PopEvent (class : RequestClass) (item : T).
Arguments EnqueueEvent {T}.
Arguments PopEvent {T}.

Inductive scheduler_step {T} : FairScheduler T → SchedulerEvent T → FairScheduler T → Prop :=
| StepEnqueue s root class item :
    scheduler_step s (EnqueueEvent root class item) (enqueue s root class item)
| StepPop s item class s' :
    pop_class s = Some (item, class, s') → scheduler_step s (PopEvent class item) s'.

Inductive scheduler_trace {T} : FairScheduler T → list (SchedulerEvent T) → FairScheduler T → Prop :=
| TraceNil s : scheduler_trace s [] s
| TraceCons s e s1 es s2 :
    scheduler_step s e s1 → scheduler_trace s1 es s2 → scheduler_trace s (e :: es) s2.

Lemma scheduler_step_inv {T} (s : FairScheduler T) e s' :
  scheduler_step s e s' → scheduler_inv s → scheduler_inv s'.
Proof.
  intros [|s0 x c s1 Hp] Hinv; [by apply enqueue_inv|].
  pose proof (pop_class_spec s0 Hinv) as Hspec. rewrite Hp in Hspec. by destruct Hspec.
Qed.

Lemma scheduler_trace_inv {T} (s : FairScheduler T) es s' :
  scheduler_trace s es s' → scheduler_inv s → scheduler_inv s'.
Proof. induction 1; eauto using scheduler_step_inv. Qed.

Definition empty_scheduler : FairScheduler nat := scheduler_default.

(** Scheduler invariant: in every state reached from the empty scheduler by
    enqueues and pops, [order] lists each root that has a queue exactly once, no
    root with an empty queue is kept, and the round-robin cursor addresses
    [order] (or is 0 when nothing waits). *)
Theorem scheduler_reachable_inv {T} (es : list (SchedulerEvent T)) (s : FairScheduler T) :
  scheduler_trace scheduler_default es s → scheduler_inv s.
Proof. intros H. eapply scheduler_trace_inv; [exact H|apply default_inv]. Qed.

Lemma scheduler_reachable_inv_witness :
  scheduler_inv (enqueue empty_scheduler (lit "a") Query 7).
Proof.
  apply (scheduler_reachable_inv [EnqueueEvent (lit "a") Query 7]).
  repeat econstructor.
Defined.

(** Pop: [pop] returns nothing only when no request waits; otherwise it
    removes the oldest request of one root and class, leaves every other queue
    as it was, and serves the non-preferred class only when no request of the
    preferred class waits anywhere. *)
Theorem pop_serves_oldest {T} (s : FairScheduler T) :
  scheduler_inv s →
  match pop_class s with
  | None => ∀ r c, waiting s r c = []
  | Some (x, c, s') =>
      (∃ root, waiting s root c = x :: waiting s' root c ∧
        ∀ r c', (r, c') ≠ (root, c) → waiting s' r c' = waiting s r c') ∧
      (c ≠ preferred s → ∀ r, waiting s r (preferred s) = [])
  end.
Proof.
  intros H%pop_class_spec. destruct (pop_class s) as [[[x c] s']|]; [|done].
  destruct H as (_ & ? & ? & _). done.
Qed.

Lemma pop_serves_oldest_witness :
  match pop_class (enqueue empty_scheduler (lit "a") Background 7) with
  | Some (x, c, s') => (∃ root, waiting (enqueue empty_scheduler (lit "a") Background 7) root c
                          = x :: waiting s' root c ∧
      ∀ r c', (r, c') ≠ (root, c) → waiting s' r c' =
        waiting (enqueue empty_scheduler (lit "a") Background 7) r c') ∧
      (c ≠ Query → ∀ r, waiting (enqueue empty_scheduler (lit "a") Background 7) r Query = [])
  | None => False
  end.
Proof.
  pose proof (pop_serves_oldest (enqueue empty_scheduler (lit "a") Background 7)
    ltac:(apply enqueue_inv, default_inv)) as H. exact H.
Defined.

(** ** Counting *)

Definition map_pending {T} (m : gmap str (RootQueue T)) : nat :=
  sum_list ((λ '(_, q), length (query q) + length (background q)) <$> map_to_list m).

Lemma map_pending_delete {T} (m : gmap str (RootQueue T)) r q :
  m !! r = Some q →
  map_pending m = length (query q) + length (background q) + map_pending (delete r m).
Proof.
  intros H. unfold map_pending. rewrite <-(map_to_list_delete m r q H). done.
Qed.

Lemma map_pending_insert {T} (m : gmap str (RootQueue T)) r q :
  map_pending (<[r := q]> m) =
  length (query q) + length (background q) + map_pending (delete r m).
Proof.
  rewrite (map_pending_delete _ r q) by apply lookup_insert_eq. f_equal.
  by rewrite delete_insert_eq.
Qed.

Lemma remove_root_pending {T} (s : FairScheduler T) root :
  (∀ c, waiting s root c = []) → pending (remove_root s root) = pending s.
Proof.
  intros Hw. assert (map_pending (delete root (roots s)) = map_pending (roots s)) as Hd.
  { unfold waiting in Hw. destruct (roots s !! root) as [q|] eqn:Hq.
    - rewrite (map_pending_delete (roots s) root q Hq).
      pose proof (Hw Query) as Hwq. pose proof (Hw Background) as Hwb. simpl in *.
      by rewrite Hwq, Hwb.
    - by rewrite delete_id. }
  unfold remove_root, pending. by destruct (position root (order s)).
Qed.

Lemma fold_remove_root_pending {T} l (s : FairScheduler T) :
  NoDup l → (∀ r, r ∈ l → ∀ c, waiting s r c = []) →
  pending (foldl remove_root s l) = pending s.
Proof.
  revert s. induction l as [|x l IH]; intros s Hnd Hl; simpl; [done|].
  apply NoDup_cons in Hnd as [Hx Hnd]. rewrite IH; [|done|].
  - apply remove_root_pending, Hl. left.
  - intros r Hr c. rewrite remove_root_waiting; apply Hl; [by right|left].
Qed.

Lemma remove_empty_roots_pending {T} (s : FairScheduler T) :
  pending (remove_empty_roots s) = pending s.
Proof.
  apply fold_remove_root_pending; [apply empty_roots_NoDup|].
  intros r (q & Hq & He)%elem_of_empty_roots c. unfold waiting. rewrite Hq.
  by apply queue_is_empty_true.
Qed.

Lemma taken_pending {T} (m : gmap str (RootQueue T)) c root q q' x :
  m !! root = Some q → pop_front c q = Some (x, q') →
  map_pending m = S (map_pending (<[root := q']> m)).
Proof.
  intros Hq Hp. rewrite map_pending_insert, (map_pending_delete m root q Hq).
  apply queue_of_pop_front in Hp as [H1 H2]. destruct c; simpl in *; rewrite H1, H2; simpl; lia.
Qed.

(** The requests the scheduler holds. *)
Definition map_items {T} (m : gmap str (RootQueue T)) : list T :=
  map_to_list m ≫= λ '(_, q), query q ++ background q.
Definition items {T} (s : FairScheduler T) : list T := map_items (roots s).

Lemma map_items_delete {T} (m : gmap str (RootQueue T)) r q :
  m !! r = Some q → map_items m ≡ₚ (query q ++ background q) ++ map_items (delete r m).
Proof. intros H. unfold map_items. by rewrite <-(map_to_list_delete m r q H). Qed.

Lemma map_items_insert {T} (m : gmap str (RootQueue T)) r q :
  map_items (<[r := q]> m) ≡ₚ (query q ++ background q) ++ map_items (delete r m).
Proof.
  rewrite (map_items_delete _ r q) by apply lookup_insert_eq. by rewrite delete_insert_eq.
Qed.

Lemma enqueue_items {T} (s : FairScheduler T) root c x : items (enqueue s root c x) ≡ₚ x :: items s.
Proof.
  unfold items, enqueue. destruct (roots s !! root) as [q|] eqn:Hq; cbn [roots];
    rewrite map_items_insert.
  - rewrite (map_items_delete (roots s) root q Hq).
    destruct c; cbn [push_back query background]; solve_Permutation.
  - rewrite delete_id by done. destruct c; cbn [push_back query background app]; solve_Permutation.
Qed.

Lemma fold_remove_root_items {T} l (s : FairScheduler T) :
  NoDup l → (∀ r, r ∈ l → ∀ c, waiting s r c = []) → items (foldl remove_root s l) ≡ₚ items s.
Proof.
  revert s. induction l as [|x l IH]; intros s Hnd Hl; cbn [foldl]; [done|].
  apply NoDup_cons in Hnd as [Hx Hnd]. rewrite IH; [|done|].
  - unfold items. assert (roots (remove_root s x) = delete x (roots s)) as ->.
    { unfold remove_root. by destruct (position x (order s)). }
    destruct (roots s !! x) as [q|] eqn:Hq; [|by rewrite delete_id].
    rewrite (map_items_delete (roots s) x q Hq).
    specialize (Hl x ltac:(left)). unfold waiting in Hl. rewrite Hq in Hl.
    pose proof (Hl Query) as H1. pose proof (Hl Background) as H2. cbn in H1, H2. by rewrite H1, H2.
  - intros r Hr c. rewrite remove_root_waiting; apply Hl; [by right|left].
Qed.

Lemma remove_empty_roots_items {T} (s : FairScheduler T) : items (remove_empty_roots s) ≡ₚ items s.
Proof.
  apply fold_remove_root_items; [apply empty_roots_NoDup|].
  intros r (q & Hq & He)%elem_of_empty_roots c. unfold waiting. rewrite Hq.
  by apply queue_is_empty_true.
Qed.

(** Every pop takes exactly the request it returns. *)
Lemma pop_items {T} (s : FairScheduler T) x s' : pop s = Some (x, s') → items s ≡ₚ x :: items s'.
Proof.
  assert (∀ c x i roots' t, scan s c (seq 0 (length (order s))) = Some (x, i, roots') →
    items s ≡ₚ x :: items (remove_empty_roots {| roots := roots'; order := order s;
      cursor := (i + 1) mod length (order s); query_turns := t |})) as Htake.
  { intros d y i roots' t (root & q & q' & _ & Hq & Hp & ->)%scan_Some.
    rewrite remove_empty_roots_items. unfold items at 2. cbn [roots].
    rewrite map_items_insert. unfold items. rewrite (map_items_delete _ root q Hq).
    apply queue_of_pop_front in Hp as [H1 H2].
    destruct d; cbn [queue_of other_class] in H1, H2; rewrite H1, H2; solve_Permutation. }
  unfold pop, pop_class. destruct (order s) eqn:Ho; [done|]. rewrite <-Ho in *.
  destruct (scan s (preferred s) _) as [[[y i] rs]|] eqn:E1.
  { intros [= <- <-]. by eapply Htake. }
  destruct (scan s (other_class _) _) as [[[y i] rs]|] eqn:E2; [|done].
  intros [= <- <-]. by eapply Htake.
Qed.

(** Conservation: every pop takes exactly one request out of the scheduler,
    and an empty pop means that nothing is pending. *)
Theorem pop_pending {T} (s : FairScheduler T) :
  scheduler_inv s →
  match pop s with
  | None => pending s = 0
  | Some (_, s') => pending s = S (pending s')
  end.
Proof.
  intros Hinv. pose proof (pop_class_spec s Hinv) as Hspec. unfold pop.
  destruct (pop_class s) as [[[x c] s']|] eqn:E; simpl.
  - revert E. unfold pop_class. destruct (order s) eqn:Ho; [done|]. rewrite <-Ho.
    assert (∀ c x i roots' t, scan s c (seq 0 (length (order s))) = Some (x, i, roots') →
      pending s = S (pending (remove_empty_roots {| roots := roots'; order := order s;
        cursor := (i + 1) mod length (order s); query_turns := t |}))) as Htake.
    { intros d y i roots' t (root & q & q' & _ & Hq & Hp & ->)%scan_Some.
      rewrite remove_empty_roots_pending. by apply (taken_pending _ d root q q' y). }
    destruct (scan s (preferred s) _) as [[[y i] rs]|] eqn:E1.
    { intros [= <- <- <-]. by eapply Htake. }
    destruct (scan s (other_class _) _) as [[[y i] rs]|] eqn:E2; [|done].
    intros [= <- <- <-]. by eapply Htake.
  - clear E. assert (∀ r q, roots s !! r = Some q → False) as Hnone.
    { intros r q Hq. pose proof (inv_nonempty s Hinv r q Hq) as Hne.
      assert (queue_is_empty q = true); [|congruence]. apply queue_is_empty_true.
      intros c. specialize (Hspec r c). unfold waiting in Hspec. by rewrite Hq in Hspec. }
    assert (roots s = ∅) as He.
    { apply map_empty. intros r. destruct (roots s !! r) eqn:Hr; [|done]. by destruct (Hnone r r0). }
    unfold pending. by rewrite He, map_to_list_empty.
Qed.

Lemma pop_pending_witness :
  match pop (enqueue empty_scheduler (lit "a") Background 7) with
  | None => pending (enqueue empty_scheduler (lit "a") Background 7) = 0
  | Some (_, s') => pending (enqueue empty_scheduler (lit "a") Background 7) = S (pending s')
  end.
Proof. apply pop_pending. apply enqueue_inv, default_inv. Defined.

(** ** Progress of background work *)

Definition background_waiting {T} (s : FairScheduler T) : Prop :=
  ∃ r, waiting s r Background ≠ [].

Definition is_pop_of {T} (c : RequestClass) (e : SchedulerEvent T) : bool :=
  match e with PopEvent c' _ => bool_decide (c = c') | EnqueueEvent _ _ _ => false end.
Definition count_pops {T} (c : RequestClass) (es : list (SchedulerEvent T)) : nat :=
  length (List.filter (is_pop_of c) es).

(** A run in which background work waits before every event. *)
Inductive starving_trace {T} : FairScheduler T → list (SchedulerEvent T) → Prop :=
| StarvingNil s : starving_trace s []
| StarvingCons s e s1 es :
    background_waiting s → scheduler_step s e s1 → starving_trace s1 es →
    starving_trace s (e :: es).

Lemma query_pop_turns {T} (s : FairScheduler T) x s' :
  scheduler_inv s → background_waiting s → pop_class s = Some (x, Query, s') →
  (query_turns s < 3)%Z ∧ query_turns s' = (query_turns s + 1)%Z.
Proof.
  intros Hinv [r Hr] Hp. pose proof (pop_class_spec s Hinv) as Hspec. rewrite Hp in Hspec.
  destruct Hspec as (_ & _ & Hpref & ->).
  assert (query_turns s < 3)%Z as Hlt.
  { unfold preferred in Hpref. destruct (Z.ltb_spec (query_turns s) 3); [done|].
    exfalso. apply Hr, Hpref. done. }
  split; [done|]. unfold saturating_add, U8_MAX. lia.
Qed.

(** Background progress: from any reachable state, while background work
    keeps waiting, at most three query requests are served before a background
    request, whatever else is enqueued in between. *)
Theorem background_progress {T} (s : FairScheduler T) (es : list (SchedulerEvent T)) :
  scheduler_inv s → starving_trace s es → count_pops Background es = 0 →
  (Z.of_nat (count_pops Query es) ≤ Z.max 0 (3 - query_turns s))%Z ∧ count_pops Query es ≤ 3.
Proof.
  intros Hinv Htr Hb.
  enough (Z.of_nat (count_pops Query es) ≤ Z.max 0 (3 - query_turns s))%Z.
  { pose proof (inv_turns s Hinv). lia. }
  induction Htr as [s|s e s1 es Hbg Hstep Htr IH]; [change (count_pops Query []) with 0; lia|].
  pose proof (scheduler_step_inv _ _ _ Hstep Hinv) as Hinv1.
  destruct Hstep as [s root c x|s x c s' Hp].
  - specialize (IH Hinv1 Hb). unfold count_pops in *. simpl in *.
    replace (query_turns s) with (query_turns (enqueue s root c x)); [done|].
    unfold enqueue. by destruct (roots s !! root).
  - destruct c; [|by unfold count_pops in Hb; simpl in Hb].
    destruct (query_pop_turns s x s' Hinv Hbg Hp) as [Hlt Ht].
    specialize (IH Hinv1 Hb). rewrite Ht in IH.
    change (count_pops Query (PopEvent Query x :: es)) with (S (count_pops Query es)).
    rewrite Nat2Z.inj_succ. lia.
Qed.

Definition busy_scheduler : FairScheduler nat :=
  enqueue (enqueue empty_scheduler (lit "a") Query 1) (lit "b") Background 99.

Lemma background_progress_witness :
  count_pops (T := nat) Query [PopEvent Query 1] ≤ 3.
Proof.
  apply (background_progress busy_scheduler [PopEvent Query 1]).
  - apply enqueue_inv, enqueue_inv, default_inv.
  - eapply StarvingCons; [exists (lit "b"); vm_compute; congruence| |apply StarvingNil].
    eapply StepPop. vm_compute. reflexivity.
  - reflexivity.
Defined.

(** ** A root can wait forever

    The cursor is shared by the two classes: query pops move it past roots whose
    background queues they did not look at. *)

Definition apply_event (s : FairScheduler str) (e : SchedulerEvent str) : option (FairScheduler str) :=
  match e with
  | EnqueueEvent root class item => Some (enqueue s root class item)
  | PopEvent class item =>
      match pop_class s with
      | Some (item', class', s') =>
          if (item =s item') && bool_decide (class = class') then Some s' else None
      | None => None
      end
  end.
Definition apply_events (s : FairScheduler str) (es : list (SchedulerEvent str))
    : option (FairScheduler str) :=
  foldl (λ o e, o ≫= λ s, apply_event s e) (Some s) es.

Lemma apply_events_trace s es s' : apply_events s es = Some s' → scheduler_trace s es s'.
Proof.
  unfold apply_events. revert s. induction es as [|e es IH]; intros s; simpl.
  { intros [= <-]. constructor. }
  destruct (apply_event s e) as [s1|] eqn:E.
  - intros H%IH. econstructor; [|exact H]. destruct e as [root c x|c x]; simpl in E.
    + injection E as <-. constructor.
    + destruct (pop_class s) as [[[x' c'] s2]|] eqn:Hp; [|done].
      destruct (_ && _) eqn:Eb; [|done]. bool_to_prop. simplify_eq. by constructor.
  - intros H. exfalso. clear -H. induction es; simpl in H; [done|auto].
Qed.

Section starvation.
Let a := lit "a".
Let b := lit "b".
Let x := lit "x".
Let y := lit "y".

(** Requests are named by their root. *)
Definition starve_setup : list (SchedulerEvent str) :=
  (λ '(r, c), EnqueueEvent r c r) <$>
    [(a, Query); (b, Query); (x, Background); (y, Background);
     (a, Query); (b, Query); (x, Background)].
(** Four served requests, each replaced by an equal one. *)
Definition starve_round : list (SchedulerEvent str) :=
  [(a, Query); (b, Query); (a, Query); (x, Background)] ≫=
    λ '(r, c), [PopEvent c r; EnqueueEvent r c r].
End starvation.

(** C39. Starvation of a root: there is a reachable state and a round of pops and
    enqueues that leads back to that same state and serves a background request
    of another root, while the one background request of root [y] waits and is
    never served; repeating the round starves [y] for ever. *)
Theorem shared_cursor_starves_root :
  ∃ s0 s, scheduler_trace scheduler_default (starve_setup ++ starve_round) s0 ∧
    scheduler_trace s0 starve_round s ∧
    (order s = order s0 ∧ cursor s = cursor s0 ∧ query_turns s = query_turns s0 ∧
     ∀ r c, waiting s r c = waiting s0 r c) ∧
    waiting s0 (lit "y") Background = [lit "y"] ∧ count_pops Background starve_round = 1 ∧
    Forall (λ e, match e with PopEvent _ r => r ≠ lit "y" | _ => True end) starve_round.
Proof.
  destruct (apply_events scheduler_default (starve_setup ++ starve_round)) as [s0|] eqn:E0;
    [|vm_compute in E0; discriminate].
  destruct (apply_events s0 starve_round) as [s|] eqn:E1;
    [|vm_compute in E0; injection E0 as <-; vm_compute in E1; discriminate].
  exists s0, s. split; [by apply apply_events_trace|]. split; [by apply apply_events_trace|].
  assert (roots s = roots s0 ∧ order s = order s0 ∧ cursor s = cursor s0 ∧
          query_turns s = query_turns s0 ∧ waiting s0 (lit "y") Background = [lit "y"])
    as (Hr & Ho & Hc & Ht & Hw).
  { vm_compute in E0. injection E0 as <-. vm_compute in E1. injection E1 as <-. by vm_compute. }
  clear E0 E1. split; [|split; [exact Hw|split]].
  - split; [exact Ho|]. split; [exact Hc|]. split; [exact Ht|].
    intros r c. unfold waiting. rewrite Hr. reflexivity.
  - vm_compute. reflexivity.
  - repeat constructor; vm_compute; congruence.
Qed.
