(* ===== verification/Admission.v ===== *)
(** * Admission control of the inference worker

    Models [src/src/semantic/worker/admission.rs]: the counters shared by every
    ticket, the admission test, and the tickets whose drops give capacity back.
    The mutex makes each operation atomic, so a run is a sequence of steps. *)
From Stdlib Require Import Ascii String ZArith Lia Permutation.
From stdpp Require Import base numbers list gmap strings.
From S2P Require Import Prelude.
Local Open Scope Z_scope.

Definition MAX_ADMITTED : Z := 64.
Definition MAX_INPUTS : Z := 8.
Definition MAX_RAW_INPUT_BYTES : Z := 8 * 1024 * 1024.

Record AdmissionLimits := MkLimits {
  max_admitted : Z; max_raw_input_bytes : Z; max_inputs : Z }.
Definition limits_default : AdmissionLimits :=
  {| max_admitted := MAX_ADMITTED; max_raw_input_bytes := MAX_RAW_INPUT_BYTES;
     max_inputs := MAX_INPUTS |}.

Record AdmissionState := MkAdmission { queued : Z; inflight : Z; raw_input_bytes : Z }.
Definition admission_default : AdmissionState :=
  {| queued := 0; inflight := 0; raw_input_bytes := 0 |}.

Record AdmissionTicket := MkTicket { ticket_bytes : Z; started : bool }.
Record InflightTicket := MkInflight { inflight_bytes : Z }.

Definition try_admit (limits : AdmissionLimits) (st : AdmissionState) (inputs bytes : Z)
    : result (AdmissionTicket * AdmissionState) :=
  if max_inputs limits <? inputs then Err "semantic_admission: at most {} inputs per batch"
  else if max_raw_input_bytes limits <? bytes
  then Err "semantic_admission: raw inputs exceed {} bytes"
  else if max_admitted limits <=? saturating_add USIZE_MAX (queued st) (inflight st)
  then Err "semantic_admission: 64 batches already queued or in flight"
  else
    match checked_add USIZE_MAX (raw_input_bytes st) bytes with
    | None => Err "semantic_admission: raw input byte counter overflow"
    | Some total =>
        if max_raw_input_bytes limits <? total
        then Err "semantic_admission: raw inputs exceed {} bytes including in-flight batches"
        else Ok ({| ticket_bytes := bytes; started := false |},
                 {| queued := queued st + 1; inflight := inflight st;
                    raw_input_bytes := total |})
    end.

Definition counts (st : AdmissionState) : Z * Z * Z :=
  (queued st, inflight st, raw_input_bytes st).

(** [Drop for AdmissionTicket]. *)
Definition drop_ticket (t : AdmissionTicket) (st : AdmissionState) : AdmissionState :=
  if started t then st
  else {| queued := saturating_sub (queued st) 1; inflight := inflight st;
          raw_input_bytes := saturating_sub (raw_input_bytes st) (ticket_bytes t) |}.

(** [AdmissionTicket::begin]: it consumes the ticket, so the ticket, now
    started, is dropped when the call returns. *)
Definition begin (t : AdmissionTicket) (st : AdmissionState) : InflightTicket * AdmissionState :=
  let st' := {| queued := saturating_sub (queued st) 1; inflight := inflight st + 1;
                raw_input_bytes := raw_input_bytes st |} in
  let t' := {| ticket_bytes := ticket_bytes t; started := true |} in
  ({| inflight_bytes := ticket_bytes t |}, drop_ticket t' st').

(** [Drop for InflightTicket]. *)
Definition drop_inflight (t : InflightTicket) (st : AdmissionState) : AdmissionState :=
  {| queued := queued st; inflight := saturating_sub (inflight st) 1;
     raw_input_bytes := saturating_sub (raw_input_bytes st) (inflight_bytes t) |}.

(** ** Runs: the controller with the tickets its clients hold *)

Record Holders := MkHolders { waiting_tickets : list AdmissionTicket;
                              running_tickets : list InflightTicket }.

Inductive admission_step (limits : AdmissionLimits)
  : AdmissionState * Holders → AdmissionState * Holders → Prop :=
| StepAdmit st w r inputs bytes t st' :
    in_usize inputs → in_usize bytes →
    try_admit limits st inputs bytes = Ok (t, st') →
    admission_step limits (st, MkHolders w r) (st', MkHolders (w ++ [t]) r)
| StepBegin st w1 t w2 r :
    admission_step limits (st, MkHolders (w1 ++ t :: w2) r)
      ((begin t st).2, MkHolders (w1 ++ w2) (r ++ [(begin t st).1]))
| StepDropTicket st w1 t w2 r :
    admission_step limits (st, MkHolders (w1 ++ t :: w2) r)
      (drop_ticket t st, MkHolders (w1 ++ w2) r)
| StepDropInflight st w r1 t r2 :
    admission_step limits (st, MkHolders w (r1 ++ t :: r2))
      (drop_inflight t st, MkHolders w (r1 ++ r2)).

Inductive admission_reachable (limits : AdmissionLimits) : AdmissionState * Holders → Prop :=
| ReachStart : admission_reachable limits (admission_default, MkHolders [] [])
| ReachStep s s' :
    admission_reachable limits s → admission_step limits s s' → admission_reachable limits s'.

Definition sumZ (l : list Z) : Z := foldr Z.add 0 l.
Lemma sumZ_app l1 l2 : sumZ (l1 ++ l2) = sumZ l1 + sumZ l2.
Proof. unfold sumZ. induction l1; simpl; lia. Qed.
Lemma sumZ_nonneg l : Forall (λ z, 0 ≤ z) l → 0 ≤ sumZ l.
Proof. unfold sumZ. induction 1; simpl; lia. Qed.

(** The counters are exactly what the live tickets hold, within the limits. *)
Record admission_inv (limits : AdmissionLimits) (s : AdmissionState * Holders) : Prop := {
  adm_queued : queued s.1 = Z.of_nat (length (waiting_tickets s.2));
  adm_inflight : inflight s.1 = Z.of_nat (length (running_tickets s.2));
  adm_bytes : raw_input_bytes s.1 = sumZ (ticket_bytes <$> waiting_tickets s.2)
                                    + sumZ (inflight_bytes <$> running_tickets s.2);
  adm_fresh : Forall (λ t, started t = false ∧ 0 ≤ ticket_bytes t) (waiting_tickets s.2);
  adm_running : Forall (λ t, 0 ≤ inflight_bytes t) (running_tickets s.2);
  adm_batches : queued s.1 + inflight s.1 ≤ Z.max 0 (max_admitted limits);
  adm_total : raw_input_bytes s.1 ≤ Z.max 0 (max_raw_input_bytes limits);
}.

Lemma try_admit_Ok limits st inputs bytes t st' :
  max_admitted limits ≤ USIZE_MAX →
  try_admit limits st inputs bytes = Ok (t, st') →
  inputs ≤ max_inputs limits ∧ queued st + inflight st < max_admitted limits ∧
  raw_input_bytes st + bytes ≤ max_raw_input_bytes limits ∧
  t = {| ticket_bytes := bytes; started := false |} ∧
  st' = {| queued := queued st + 1; inflight := inflight st;
           raw_input_bytes := raw_input_bytes st + bytes |}.
Proof.
  intros Hmax. unfold try_admit, checked_add, saturating_add.
  repeat break_match; try done; intros; result_inv; bool_to_prop; simplify_eq.
  destruct (_ <=? _) eqn:? in Heqo; [|done]. simplify_eq. split_and!; try done; lia.
Qed.

Lemma admission_step_inv limits s s' :
  max_admitted limits ≤ USIZE_MAX →
  admission_inv limits s → admission_step limits s s' → admission_inv limits s'.
Proof.
  intros Hmax [Hq Hi Hb Hf Hr Hn Ht] Hstep.
  destruct Hstep as [st w r inputs bytes t st' Hin Hby Hadm|st w1 t w2 r|st w1 t w2 r|st w r1 t r2];
    csimpl in *.
  - apply try_admit_Ok in Hadm as (_ & Hadm & Htot & -> & ->); [|done]. unfold in_usize in *.
    split; csimpl; rewrite ?fmap_app, ?length_app, ?sumZ_app; csimpl; try done; try lia.
    + apply Forall_app. split; [done|]. repeat constructor; simpl; lia.
  - apply Forall_app in Hf as [Hf1 [[Hst Htb] Hf2]%Forall_cons].
    rewrite fmap_app, sumZ_app, length_app in *. csimpl in *.
    pose proof (sumZ_nonneg (ticket_bytes <$> w1)). pose proof (sumZ_nonneg (ticket_bytes <$> w2)).
    unfold begin, drop_ticket; simpl.
    split; csimpl; rewrite ?fmap_app, ?length_app, ?sumZ_app; csimpl;
      unfold saturating_sub; try done; try lia.
    + by apply Forall_app.
    + apply Forall_app. split; [done|]. by repeat constructor.
  - apply Forall_app in Hf as [Hf1 [[Hst Htb] Hf2]%Forall_cons].
    rewrite fmap_app, sumZ_app, length_app in *. csimpl in *.
    assert (0 ≤ sumZ (ticket_bytes <$> w1)) by
      (apply sumZ_nonneg, Forall_fmap; eapply Forall_impl; [exact Hf1|]; naive_solver).
    assert (0 ≤ sumZ (ticket_bytes <$> w2)) by
      (apply sumZ_nonneg, Forall_fmap; eapply Forall_impl; [exact Hf2|]; naive_solver).
    assert (0 ≤ sumZ (inflight_bytes <$> r)) by
      (apply sumZ_nonneg, Forall_fmap; exact Hr).
    unfold drop_ticket. rewrite Hst.
    split; csimpl; rewrite ?fmap_app, ?length_app, ?sumZ_app; csimpl;
      unfold saturating_sub; try done; try lia. by apply Forall_app.
  - apply Forall_app in Hr as [Hr1 [Htb Hr2]%Forall_cons].
    rewrite fmap_app, sumZ_app, length_app in *. csimpl in *.
    assert (0 ≤ sumZ (ticket_bytes <$> w)) by
      (apply sumZ_nonneg, Forall_fmap; eapply Forall_impl; [exact Hf|]; naive_solver).
    assert (0 ≤ sumZ (inflight_bytes <$> r1)) by (apply sumZ_nonneg, Forall_fmap; exact Hr1).
    assert (0 ≤ sumZ (inflight_bytes <$> r2)) by (apply sumZ_nonneg, Forall_fmap; exact Hr2).
    unfold drop_inflight.
    split; csimpl; rewrite ?fmap_app, ?length_app, ?sumZ_app; csimpl;
      unfold saturating_sub; try done; try lia. by apply Forall_app.
Qed.

(** Admission: in every interleaving of admissions, starts and drops, the
    counters equal what the live tickets hold, at most [max_admitted] batches are
    queued or in flight, their raw bytes stay within the limit, and once every
    ticket is dropped the counters are back to zero. *)
Theorem admission_counts_live_tickets limits s :
  max_admitted limits ≤ USIZE_MAX → admission_reachable limits s →
  admission_inv limits s ∧
  (waiting_tickets s.2 = [] → running_tickets s.2 = [] → counts s.1 = (0, 0, 0)).
Proof.
  intros Hmax Hr. assert (admission_inv limits s) as Hinv.
  { induction Hr as [|s s' _ IH Hstep]; [|by eapply admission_step_inv].
    split; simpl; try done; try constructor; lia. }
  split; [done|]. intros Hw Hrun. destruct Hinv as [Hq Hi Hb _ _ _ _].
  rewrite Hw, Hrun in *. unfold counts. by rewrite Hq, Hi, Hb.
Qed.

Lemma admission_counts_live_tickets_witness :
  admission_inv limits_default
    ({| queued := 1; inflight := 0; raw_input_bytes := 4 |},
     MkHolders [{| ticket_bytes := 4; started := false |}] []).
Proof.
  apply (admission_counts_live_tickets limits_default); [vm_compute; congruence|].
  eapply ReachStep; [apply ReachStart|].
  eapply (StepAdmit limits_default admission_default [] [] 1 4);
    [vm_compute; split; congruence..|reflexivity].
Defined.

(** Admission test: a batch is admitted exactly when its input count, its own
    bytes, the number of live batches and the total live bytes are within the
    limits; the overflow branch is unreachable while the limits are [usize]s. *)
Theorem try_admit_complete limits st inputs bytes :
  0 ≤ queued st → 0 ≤ inflight st → 0 ≤ raw_input_bytes st → 0 ≤ bytes →
  max_admitted limits ≤ USIZE_MAX → max_raw_input_bytes limits ≤ USIZE_MAX →
  is_ok (try_admit limits st inputs bytes) = true ↔
  inputs ≤ max_inputs limits ∧ queued st + inflight st < max_admitted limits ∧
  raw_input_bytes st + bytes ≤ max_raw_input_bytes limits.
Proof.
  intros H1 H2 H3 H4 H5 H6. split.
  - destruct (try_admit limits st inputs bytes) as [[t st']|] eqn:E; [|done].
    apply try_admit_Ok in E; [tauto|done].
  - intros (Ha & Hb & Hc). unfold try_admit, checked_add, saturating_add.
    rewrite !(proj2 (Z.ltb_ge _ _)) by lia. rewrite (proj2 (Z.leb_gt _ _)) by lia.
    rewrite (proj2 (Z.leb_le _ _)) by lia. by rewrite (proj2 (Z.ltb_ge _ _)) by lia.
Qed.

Lemma try_admit_complete_witness :
  is_ok (try_admit limits_default
    {| queued := 60; inflight := 3; raw_input_bytes := 100 |} 8 1000) = true.
Proof. apply try_admit_complete; vm_compute; first [congruence | split_and!; congruence]. Defined.
