(* ===== verification/Timing.v ===== *)
(** * Clocks: load retries, query deadlines and reconcile debouncing

    Models [src/src/semantic/worker/load_retry.rs], the clock arithmetic of
    [src/src/daemon/deadline.rs], and [ReconcileSchedule] of
    [src/src/daemon/reconciler.rs].  An [Instant] or [Duration] is a number of
    nanoseconds; each [Instant::now()] is an argument.  [Instant - Instant] and
    [duration_since] saturate at zero. *)
From Stdlib Require Import Ascii String ZArith Lia Permutation.
From stdpp Require Import base numbers list gmap strings.
From S2P Require Import Prelude.
Local Open Scope Z_scope.

Definition from_millis (ms : Z) : Z := ms * 1000000.
Definition from_secs (s : Z) : Z := s * 1000000000.
Definition DURATION_MAX : Z := U64_MAX * 1000000000 + 999999999.
Definition duration_since (now earlier : Z) : Z := saturating_sub now earlier.

(** ** Model-load retries *)

Module LoadRetry.
Definition INITIAL_COOLDOWN : Z := from_millis 500.
Definition MAX_COOLDOWN : Z := from_secs 30.

Record t := Mk { retry_at : option Z; cooldown : Z }.
Definition default : t := {| retry_at := None; cooldown := INITIAL_COOLDOWN |}.

Definition is_ready (r : t) (now : Z) : bool :=
  match retry_at r with None => true | Some at_ => at_ <=? now end.

Definition failed (r : t) (now : Z) : t :=
  {| retry_at := Some (now + cooldown r);
     cooldown := Z.min (saturating_mul DURATION_MAX (cooldown r) 2) MAX_COOLDOWN |}.

Definition succeeded (_ : t) : t := {| retry_at := None; cooldown := INITIAL_COOLDOWN |}.

(** The state after failures at the given times, oldest first. *)
Definition after_failures (times : list Z) : t := foldl failed default times.

Lemma cooldown_after times :
  cooldown (after_failures times) =
    Z.min (INITIAL_COOLDOWN * 2 ^ Z.of_nat (length times)) MAX_COOLDOWN.
Proof.
  unfold after_failures. induction times as [|now times IH] using rev_ind; [done|].
  rewrite foldl_app, length_app. simpl. rewrite IH. clear IH.
  rewrite Nat2Z.inj_add, Z.pow_add_r by lia. change (2 ^ Z.of_nat 1) with 2.
  set (k := 2 ^ Z.of_nat (length times)).
  assert (1 ≤ k) by (subst k; apply (Z.pow_le_mono_r 2 0); lia).
  unfold saturating_mul, DURATION_MAX, U64_MAX, INITIAL_COOLDOWN, MAX_COOLDOWN,
    from_millis, from_secs. lia.
Qed.
End LoadRetry.

(** Load retries: after [n + 1] consecutive failures, the last at time [now],
    loading is refused before [now] plus half a second doubled [n] times, capped
    at thirty seconds, and allowed from that instant on; a success resets it. *)
Theorem load_retry_backoff (times : list Z) (now t : Z) :
  let wait := Z.min (LoadRetry.INITIAL_COOLDOWN * 2 ^ Z.of_nat (length times))
                    LoadRetry.MAX_COOLDOWN in
  LoadRetry.is_ready (LoadRetry.after_failures (times ++ [now])) t = (now + wait <=? t) ∧
  LoadRetry.is_ready (LoadRetry.succeeded (LoadRetry.after_failures times)) t = true ∧
  LoadRetry.cooldown (LoadRetry.after_failures times) ≤ LoadRetry.MAX_COOLDOWN.
Proof.
  simpl. split_and!; [|done|].
  - unfold LoadRetry.after_failures. rewrite foldl_app. simpl.
    fold (LoadRetry.after_failures times). unfold LoadRetry.is_ready. simpl.
    by rewrite LoadRetry.cooldown_after.
  - rewrite LoadRetry.cooldown_after. lia.
Qed.

(** ** Query deadlines *)

Module QueryDeadline.
Definition QUERY_DEADLINE : Z := from_secs 20.
Record t := Mk { expires : Z }.

Definition after (now budget : Z) : t := {| expires := now + budget |}.
Definition start (now : Z) : t := after now QUERY_DEADLINE.
Definition expired (d : t) (now : Z) : bool := expires d <=? now.
Definition remaining (d : t) (now : Z) : Z := duration_since (expires d) now.
(** [pause_during]: the clock reads [started] before the work and [ended] after. *)
Definition pause_during (d : t) (started ended : Z) : t :=
  {| expires := expires d + duration_since ended started |}.
Definition cap (d : t) (wait now : Z) : Z := Z.min wait (remaining d now).
Definition capped (d : t) (maximum now : Z) : t :=
  {| expires := Z.min (expires d) (now + maximum) |}.
End QueryDeadline.

(** Deadlines: paused work spends none of the budget, a capped deadline never
    outlives the original nor its cap, and a capped wait ends by the deadline. *)
Theorem deadline_arithmetic (d : QueryDeadline.t) (started ended now maximum wait : Z) :
  started ≤ ended → 0 ≤ wait → 0 ≤ maximum →
  QueryDeadline.remaining (QueryDeadline.pause_during d started ended) ended
    = QueryDeadline.remaining d started ∧
  QueryDeadline.remaining (QueryDeadline.capped d maximum now) now
    = Z.min (QueryDeadline.remaining d now) maximum ∧
  QueryDeadline.cap d wait now ≤ wait ∧
  (QueryDeadline.expired d now = true → QueryDeadline.cap d wait now = 0) ∧
  (QueryDeadline.expired d now = false → now + QueryDeadline.cap d wait now ≤ QueryDeadline.expires d).
Proof.
  unfold QueryDeadline.remaining, QueryDeadline.pause_during, QueryDeadline.capped,
    QueryDeadline.cap, QueryDeadline.expired, duration_since, saturating_sub. simpl.
  unfold QueryDeadline.remaining, duration_since, saturating_sub.
  intros. split_and!; intros; bool_to_prop; lia.
Qed.

Lemma deadline_arithmetic_witness :
  QueryDeadline.remaining (QueryDeadline.pause_during (QueryDeadline.start 0) 5 100) 100
    = QueryDeadline.remaining (QueryDeadline.start 0) 5.
Proof.
  apply (deadline_arithmetic (QueryDeadline.start 0) 5 100 0 0 0); lia.
Defined.

(** ** Reconcile debouncing *)

Module Reconcile.
Definition RECONCILE_INTERVAL : Z := from_secs 30.
Definition WATCHED_RECONCILE_INTERVAL : Z := from_secs 300.
Definition DEBOUNCE : Z := from_millis 75.
Definition MAX_DEBOUNCE : Z := from_secs 1.

Record t := Mk {
  interval : Z; last_reconcile : Z; first_event : option Z; latest_event : option Z }.

Definition new (now interval : Z) : t :=
  {| interval := interval; last_reconcile := now; first_event := None; latest_event := None |}.

(** [due] first records the change, then tests the three conditions. *)
Definition note (s : t) (now : Z) (changed : bool) : t :=
  if changed
  then {| interval := interval s; last_reconcile := last_reconcile s;
          first_event := Some (default now (first_event s)); latest_event := Some now |}
  else s.
Definition is_due (s : t) (now : Z) : bool :=
  (interval s <=? duration_since now (last_reconcile s))
  || (match latest_event s with Some time => DEBOUNCE <=? duration_since now time | None => false end)
  || (match first_event s with Some time => MAX_DEBOUNCE <=? duration_since now time | None => false end).
Definition due (s : t) (now : Z) (changed : bool) : bool * t :=
  let s' := note s now changed in (is_due s' now, s').

Definition completed (s : t) (now : Z) : t :=
  {| interval := interval s; last_reconcile := now; first_event := None; latest_event := None |}.

(** Ticks of the maintenance loop that did not come due, oldest first. *)
Definition after_ticks (s : t) (ticks : list (Z * bool)) : t :=
  foldl (λ s '(now, changed), (due s now changed).2) s ticks.

Lemma note_first s now changed t0 :
  first_event s = Some t0 → first_event (note s now changed) = Some t0.
Proof. unfold note. destruct changed; simpl; [|done]. by intros ->. Qed.

Lemma after_ticks_first s ticks t0 :
  first_event s = Some t0 → first_event (after_ticks s ticks) = Some t0.
Proof.
  unfold after_ticks. revert s. induction ticks as [|[now c] ticks IH]; intros s H; cbn [foldl]; [done|].
  apply IH. by apply note_first.
Qed.

Lemma after_ticks_frame s ticks :
  last_reconcile (after_ticks s ticks) = last_reconcile s ∧
  interval (after_ticks s ticks) = interval s.
Proof.
  unfold after_ticks. revert s. induction ticks as [|[now c] ticks IH]; intros s; cbn [foldl]; [done|].
  destruct (IH (due s now c).2) as [-> ->]. unfold due, note. by destruct c.
Qed.
End Reconcile.

(** Debounce bound: once a change was noted at [t0], however many further
    changes keep arriving, reconciliation is due at every tick one second or more
    after [t0]; a quiet tick 75 ms after the last change is due at once; and a
    tick is always due when the recovery interval has passed. *)
Theorem reconcile_due_bound (s : Reconcile.t) (ticks : list (Z * bool)) (now t0 : Z) (changed : bool) :
  let s' := Reconcile.after_ticks s ticks in
  (Reconcile.first_event s = Some t0 → t0 + Reconcile.MAX_DEBOUNCE ≤ now →
    (Reconcile.due s' now changed).1 = true) ∧
  (Reconcile.latest_event s' = Some t0 → t0 + Reconcile.DEBOUNCE ≤ now →
    (Reconcile.due s' now false).1 = true) ∧
  (Reconcile.last_reconcile s + Reconcile.interval s ≤ now →
    (Reconcile.due s' now changed).1 = true).
Proof.
  simpl. destruct (Reconcile.after_ticks_frame s ticks) as [Hl Hi].
  unfold Reconcile.is_due, Reconcile.MAX_DEBOUNCE, Reconcile.DEBOUNCE, duration_since, saturating_sub.
  split_and!; intros H.
  - intros Hle. rewrite (Reconcile.note_first _ now changed t0) by by apply Reconcile.after_ticks_first.
    rewrite orb_true_iff. right. lia.
  - intros Hle. unfold Reconcile.note. rewrite H, !orb_true_iff. left. right. lia.
  - rewrite !orb_true_iff. left. left.
    replace (Reconcile.last_reconcile (Reconcile.note _ now changed)) with (Reconcile.last_reconcile s)
      by (unfold Reconcile.note; destruct changed; simpl; congruence).
    replace (Reconcile.interval (Reconcile.note _ now changed)) with (Reconcile.interval s)
      by (unfold Reconcile.note; destruct changed; simpl; congruence). lia.
Qed.

Lemma reconcile_due_bound_witness :
  let s := Reconcile.note (Reconcile.new 0 Reconcile.WATCHED_RECONCILE_INTERVAL) 10 true in
  (Reconcile.due (Reconcile.after_ticks s [(50, true); (90, true)]) (10 + Reconcile.MAX_DEBOUNCE) true).1
    = true.
Proof.
  intros s. refine (proj1 (reconcile_due_bound s [(50, true); (90, true)] _ 10 true) _ _); [reflexivity|lia].
Defined.
