(* ===== verification/Frames.v ===== *)
(** * Length-prefixed frames and request validation

    Models the wire format of [src/src/semantic/worker/protocol.rs] and
    [src/src/daemon/protocol.rs].  A reader is the sequence of results its [read]
    calls give, each with the clock value of the deadline check before the call;
    a writer likewise.  JSON encoding ([serde_json]) is a parameter. *)
From Stdlib Require Import Ascii String ZArith Lia Permutation.
From stdpp Require Import base numbers list gmap strings.
From S2P Require Import Prelude Order Text Identity Scheduler.

(** ** Blocking I/O with a deadline *)

Inductive outcome (A : Type) :=
| Done (a : A)
| Failed (e : string)
| Waiting.  (* the listed events are used up and the call has not returned *)
Arguments Done {A} a.
Arguments Failed {A} e.
Arguments Waiting {A}.

#[export] Instance outcome_bind : MBind outcome := λ A B f o,
  match o with Done a => f a | Failed e => Failed e | Waiting => Waiting end.

(** What one [read] call does: it takes at most [count] of the peer's bytes (and
    never more than its buffer holds), it times out, or it fails.  A count of
    zero is end of file, as is a read past the last byte the peer sends. *)
Inductive ReadEvent := RRead (count : nat) | RBlock | RFail.

(** A reader: the result of each coming [read] call with the clock value of the
    deadline check before it, and the bytes the peer sends. *)
Record Reader := mk_reader { schedule : list (Z * ReadEvent); incoming : str }.

Fixpoint read_exact_until_aux (sched : list (Z * ReadEvent)) (input : str) (need : nat)
    (deadline : Z) : outcome (str * Reader) :=
  match need with
  | O => Done ([], mk_reader sched input)
  | _ =>
      match sched with
      | [] => Waiting
      | (now, event) :: sched' =>
          if (deadline <=? now)%Z then Failed "worker frame read deadline exceeded"
          else match event with
          | RRead count =>
              let n := Nat.min count (Nat.min need (length input)) in
              if n =? 0 then Failed "unexpected end of worker frame"
              else '(out, rest) ← read_exact_until_aux sched' (drop n input) (need - n) deadline;
                   Done (take n input ++ out, rest)
          | RBlock => read_exact_until_aux sched' input need deadline
          | RFail => Failed "io error"
          end
      end
  end.
Definition read_exact_until (r : Reader) (need : nat) (deadline : Z) : outcome (str * Reader) :=
  read_exact_until_aux (schedule r) (incoming r) need deadline.

(** [u32::to_be_bytes] and [u32::from_be_bytes]. *)
Definition to_be_bytes (n : Z) : str :=
  [chr (n / 16777216 mod 256); chr (n / 65536 mod 256); chr (n / 256 mod 256); chr (n mod 256)].
Definition from_be_bytes (b : str) : Z := foldl (λ acc c, acc * 256 + bval c)%Z 0%Z b.

Definition FRAME_LIMIT : Z := 1024 * 1024.
Definition len (s : str) : Z := Z.of_nat (length s).

Definition read_frame_with_deadline (r : Reader) (deadline : Z) : outcome (str * Reader) :=
  '(header, r) ← read_exact_until r 4 deadline;
  let length := from_be_bytes header in
  if (length <=? FRAME_LIMIT)%Z then read_exact_until r (Z.to_nat length) deadline
  else Failed "worker frame exceeds 1 MiB".

(** What one [write] call returns: the number of bytes it accepts. *)
Inductive WriteEvent := WAccept (count : nat) | WBlock | WFail.
Abbreviation Writer := (list (Z * WriteEvent)).

(** The bytes accepted so far and how the call ends. *)
Fixpoint write_all_until (w : Writer) (bytes : str) (deadline : Z) : str * outcome Writer :=
  match bytes with
  | [] => ([], Done w)
  | _ =>
      match w with
      | [] => ([], Waiting)
      | (now, event) :: w' =>
          if (deadline <=? now)%Z then ([], Failed "worker frame write deadline exceeded")
          else match event with
          | WAccept 0 => ([], Failed "unable to write worker frame")
          | WAccept count =>
              let n := Nat.min count (length bytes) in
              let '(out, res) := write_all_until w' (drop n bytes) deadline in
              (take n bytes ++ out, res)
          | WBlock => write_all_until w' bytes deadline
          | WFail => ([], Failed "io error")
          end
      end
  end.

(** [end_time] is the clock value of the check before the flush, [flush_ok] the
    result of the flush. *)
Definition write_frame_with_deadline (w : Writer) (bytes : str) (deadline end_time : Z)
    (flush_ok : bool) : str * outcome Writer :=
  if (len bytes <=? FRAME_LIMIT)%Z then
    let '(out1, res1) := write_all_until w (to_be_bytes (len bytes)) deadline in
    match res1 with
    | Done w1 =>
        let '(out2, res2) := write_all_until w1 bytes deadline in
        match res2 with
        | Done w2 =>
            (out1 ++ out2,
             if (deadline <=? end_time)%Z then Failed "worker frame write deadline exceeded"
             else if flush_ok then Done w2 else Failed "flush worker frame")
        | _ => (out1 ++ out2, res2)
        end
    | _ => (out1, res1)
    end
  else ([], Failed "worker frame exceeds 1 MiB").

(** ** Plain frames: [read_exact] on a byte source, [write_all] to a buffer *)

Definition read_exact (input : str) (n : nat) (msg : string) : result (str * str) :=
  if n <=? length input then Ok (take n input, drop n input) else Err msg.

Definition read_frame (limit : Z) (input : str) : result (str * str) :=
  '(header, input) ← read_exact input 4 "read daemon frame length";
  let length := from_be_bytes header in
  _ ← ensure (length <=? limit)%Z "daemon frame exceeds {limit} bytes";
  read_exact input (Z.to_nat length) "read daemon frame".

Definition write_frame (limit : Z) (bytes : str) : result str :=
  _ ← ensure (len bytes <=? limit)%Z "daemon frame exceeds {limit} bytes";
  Ok (to_be_bytes (len bytes) ++ bytes).

(** ** Frame facts *)

Definition frame (payload : str) : str := to_be_bytes (len payload) ++ payload.

Lemma be_bytes_roundtrip n : (0 ≤ n ≤ U32_MAX)%Z → from_be_bytes (to_be_bytes n) = n.
Proof.
  intros Hn. unfold from_be_bytes, to_be_bytes, U32_MAX in *. cbn [foldl].
  rewrite !bval_chr by (pose proof (Z.mod_pos_bound (n / 16777216) 256);
    pose proof (Z.mod_pos_bound (n / 65536) 256); pose proof (Z.mod_pos_bound (n / 256) 256);
    pose proof (Z.mod_pos_bound n 256); lia).
  assert (n / 65536 = n / 256 / 256)%Z as -> by by rewrite Z.div_div.
  assert (n / 16777216 = n / 256 / 256 / 256)%Z as -> by by rewrite !Z.div_div.
  pose proof (Z.div_mod n 256). pose proof (Z.div_mod (n / 256) 256).
  pose proof (Z.div_mod (n / 256 / 256) 256).
  assert (n / 256 / 256 / 256 < 256)%Z.
  { rewrite !Z.div_div by lia. apply Z.div_lt_upper_bound; lia. }
  assert (0 ≤ n / 256 / 256 / 256)%Z by (rewrite !Z.div_div by lia; apply Z.div_pos; lia).
  rewrite (Z.mod_small (n / 256 / 256 / 256)) by lia. lia.
Qed.

Lemma to_be_bytes_length n : length (to_be_bytes n) = 4.
Proof. done. Qed.

Lemma from_be_bytes_nonneg b : (0 ≤ from_be_bytes b)%Z.
Proof.
  unfold from_be_bytes. assert (∀ acc, 0 ≤ acc → 0 ≤ foldl (λ acc c, acc * 256 + bval c) acc b)%Z
    as H; [|by apply H].
  induction b as [|c b IH]; intros acc Hacc; simpl; [done|].
  apply IH. pose proof (bval_range c). lia.
Qed.

(** Every call of the schedule happens in time and either reads or times out. *)
Definition steady (deadline : Z) (sched : list (Z * ReadEvent)) : bool :=
  forallb (λ e, (e.1 <? deadline)%Z &&
    match e.2 with RRead 0 => false | RRead _ | RBlock => true | RFail => false end) sched.
Definition reads (sched : list (Z * ReadEvent)) : nat :=
  length (filter (λ e, match e.2 with RRead _ => true | _ => false end = true) sched).

Lemma read_exact_until_sound sched input need deadline out r' :
  read_exact_until_aux sched input need deadline = Done (out, r') →
  input = out ++ incoming r' ∧ length out = need.
Proof.
  revert input need out r'. induction sched as [|[now ev] sched IH]; intros input need out r' H.
  { destruct need; simpl in H; by simplify_eq. }
  destruct need as [|need]; cbn [read_exact_until_aux] in H; [by simplify_eq|].
  destruct (deadline <=? now)%Z; [done|].
  destruct ev as [count| |]; [|by eapply IH|done].
  destruct (Nat.eqb_spec (Nat.min count (Nat.min (S need) (length input))) 0) as [|Hn]; [done|].
  set (n := Nat.min _ _) in *. destruct (read_exact_until_aux sched _ _ _) as [[o r]| |] eqn:Hr; [|done..].
  cbn in H. simplify_eq. apply IH in Hr as [Hin Hlen].
  rewrite <-app_assoc, <-Hin, take_drop, length_app, length_take, Hlen.
  split; [done|lia].
Qed.

Lemma read_exact_until_complete sched input need deadline :
  steady deadline sched = true → need ≤ length input → need ≤ reads sched →
  ∃ sched', read_exact_until_aux sched input need deadline
      = Done (take need input, mk_reader sched' (drop need input)) ∧
    steady deadline sched' = true ∧ reads sched ≤ reads sched' + need.
Proof.
  revert input need. induction sched as [|[now ev] sched IH]; intros input need Hs Hlen Hr.
  { destruct need; [|cbn in Hr; lia]. eexists. split_and!; [done..|lia]. }
  destruct need as [|need]; cbn [read_exact_until_aux].
  { eexists. split_and!; [done..|lia]. }
  apply andb_true_iff in Hs as [[Ht Hev]%andb_true_iff Hs]. cbn [fst snd] in Ht, Hev.
  apply Z.ltb_lt in Ht. rewrite (proj2 (Z.leb_gt _ _)) by lia.
  destruct ev as [[|count]| |]; [done| |by apply IH|done].
  assert (reads ((now, RRead (S count)) :: sched) = S (reads sched)) as Heq by done.
  set (n := Nat.min (S count) (Nat.min (S need) (length input))).
  destruct (Nat.eqb_spec n 0); [lia|].
  destruct (IH (drop n input) (S need - n)) as (sched' & Hd & Hs' & Hr'); [done|..].
  { rewrite length_drop. lia. }
  { lia. }
  exists sched'. rewrite Hd. split_and!; [|done|lia]. cbn [mbind outcome_bind].
  rewrite drop_drop, take_take_drop. by replace (n + (S need - n)) with (S need) by lia.
Qed.

Lemma read_frame_sound r deadline payload r' :
  read_frame_with_deadline r deadline = Done (payload, r') →
  ∃ header, length header = 4 ∧ from_be_bytes header = len payload ∧
    incoming r = header ++ payload ++ incoming r'.
Proof.
  unfold read_frame_with_deadline, read_exact_until.
  destruct (read_exact_until_aux (schedule r) _ 4 deadline) as [[header r1]| |] eqn:H1; [|done..].
  cbn. case_match eqn:Hl; [|done]. intros H2. apply read_exact_until_sound in H1 as [Hin H4].
  apply read_exact_until_sound in H2 as [Hin2 Hlen]. exists header. unfold len.
  rewrite Hlen, Z2Nat.id, <-Hin2; [done|]. by apply from_be_bytes_nonneg.
Qed.

Lemma read_frame_complete r deadline payload rest :
  (len payload ≤ FRAME_LIMIT)%Z → incoming r = frame payload ++ rest →
  steady deadline (schedule r) = true → 4 + length payload ≤ reads (schedule r) →
  ∃ sched', read_frame_with_deadline r deadline = Done (payload, mk_reader sched' rest).
Proof.
  intros Hlen Hin Hs Hr. unfold read_frame_with_deadline, frame, read_exact_until in *.
  rewrite <-app_assoc in Hin.
  destruct (read_exact_until_complete (schedule r) (incoming r) 4 deadline)
    as (s1 & H1 & Hs1 & Hr1); [done| |lia|].
  { rewrite Hin, length_app, to_be_bytes_length. lia. }
  rewrite Hin, take_app_length', drop_app_length' in H1 by done.
  rewrite Hin, H1. cbn [mbind outcome_bind fst snd]. unfold len, FRAME_LIMIT in *.
  rewrite be_bytes_roundtrip by (unfold U32_MAX; lia).
  rewrite (proj2 (Z.leb_le _ _)) by lia. rewrite Nat2Z.id. cbn [schedule incoming].
  destruct (read_exact_until_complete s1 (payload ++ rest) (length payload) deadline)
    as (s2 & H2 & _ & _); [done|rewrite length_app; lia|lia|].
  exists s2. by rewrite H2, take_app_length, drop_app_length.
Qed.

(** C18. Deadline reads under any schedule of short reads and timeouts: what the
    reader returns is one whole frame taken from the front of the peer's bytes,
    with the rest left unread; and when every call happens before the absolute
    deadline and the peer gives at least one byte per read, a complete frame of
    at most 1 MiB is always returned. *)
Theorem read_frame_any_schedule (deadline : Z) :
  (∀ r payload r', read_frame_with_deadline r deadline = Done (payload, r') →
     ∃ header, length header = 4 ∧ from_be_bytes header = len payload ∧
       incoming r = header ++ payload ++ incoming r') ∧
  (∀ r payload rest, (len payload ≤ FRAME_LIMIT)%Z → incoming r = frame payload ++ rest →
     steady deadline (schedule r) = true → 4 + length payload ≤ reads (schedule r) →
     ∃ sched', read_frame_with_deadline r deadline = Done (payload, mk_reader sched' rest)).
Proof.
  split; intros; [by eapply read_frame_sound|by apply read_frame_complete].
Qed.

Example read_frame_short_reads :
  read_frame_with_deadline
    (mk_reader [(1, RRead 2); (2, RBlock); (3, RRead 9); (4, RRead 1); (5, RRead 7); (6, RBlock)]%Z
       ([chr 0; chr 0; chr 0; chr 2] ++ lit "hi!")) 10
    = Done (lit "hi", mk_reader [(6%Z, RBlock)] (lit "!")).
Proof. reflexivity. Qed.

(** Oversized frames: when the header announces more than 1 MiB the frame is
    refused with no byte of its body read, whatever the schedule: the outcome is
    the size error, or the header itself never arrived. *)
Theorem read_frame_rejects_oversized (r : Reader) (deadline n : Z) (rest : str) :
  (FRAME_LIMIT < n ≤ U32_MAX)%Z → incoming r = to_be_bytes n ++ rest →
  match read_exact_until r 4 deadline with
  | Done _ => read_frame_with_deadline r deadline = Failed "worker frame exceeds 1 MiB"
  | Failed e => read_frame_with_deadline r deadline = Failed e
  | Waiting => read_frame_with_deadline r deadline = Waiting
  end.
Proof.
  intros Hn Hin. unfold read_frame_with_deadline.
  destruct (read_exact_until r 4 deadline) as [[header r']| |] eqn:H; [|done..].
  apply read_exact_until_sound in H as [Hh H4]. rewrite Hin in Hh.
  apply app_inj_1 in Hh as [<- _]; [|done]. cbn [mbind outcome_bind].
  rewrite be_bytes_roundtrip by (unfold FRAME_LIMIT in *; lia).
  by rewrite (proj2 (Z.leb_gt _ _)) by lia.
Qed.

Lemma read_frame_rejects_oversized_witness :
  read_frame_with_deadline (mk_reader [(0%Z, RRead 4)] (to_be_bytes 1048577)) 5
    = Failed "worker frame exceeds 1 MiB".
Proof.
  apply (read_frame_rejects_oversized (mk_reader [(0%Z, RRead 4)] (to_be_bytes 1048577)) 5 1048577 []);
    [split; vm_compute; congruence|reflexivity].
Defined.

Lemma write_all_until_prefix w bytes deadline :
  ∃ tail, bytes = (write_all_until w bytes deadline).1 ++ tail ∧
    (∀ w', (write_all_until w bytes deadline).2 = Done w' → tail = []).
Proof.
  revert bytes. induction w as [|[now ev] w IH]; intros bytes.
  { destruct bytes; simpl; [by exists []|eexists; split; [done|by intros]]. }
  destruct bytes as [|c bytes]; [by exists []|]. simpl.
  destruct (deadline <=? now)%Z; [eexists; split; [done|by intros]|].
  destruct ev as [[|n]| |]; [eexists; split; [done|by intros]| |apply IH|eexists; split; [done|by intros]].
  simpl. specialize (IH (drop (Nat.min n (length bytes)) bytes)) as (tail & Ht & Hdone).
  destruct (write_all_until w _ deadline) as [out res]. simpl in *.
  exists tail. split; [|done]. f_equal. rewrite <-app_assoc, <-Ht. by rewrite take_drop.
Qed.

(** Deadline writes: however the peer accepts bytes, what has been written is
    always a prefix of the frame, and a successful call has written all of it; a
    steady reader that gets those bytes decodes the same payload. *)
Theorem write_frame_prefix (w : Writer) (payload : str) (deadline end_time : Z) (flush_ok : bool) :
  let '(out, res) := write_frame_with_deadline w payload deadline end_time flush_ok in
  (∃ tail, frame payload = out ++ tail) ∧
  (∀ w', res = Done w' →
     out = frame payload ∧ (len payload ≤ FRAME_LIMIT)%Z ∧
     ∀ sched d, steady d sched = true → 4 + length payload ≤ reads sched →
       ∃ sched', read_frame_with_deadline (mk_reader sched out) d
         = Done (payload, mk_reader sched' [])).
Proof.
  unfold write_frame_with_deadline.
  destruct (len payload <=? FRAME_LIMIT)%Z eqn:Hlen; [|split; [by eexists|done]]. bool_to_prop.
  destruct (write_all_until_prefix w (to_be_bytes (len payload)) deadline) as (t1 & H1 & Hd1).
  destruct (write_all_until w (to_be_bytes _) deadline) as [out1 res1]. simpl in *.
  destruct res1 as [w1| |]; [|unfold frame; split; [|done]; rewrite H1, <-app_assoc; eauto..].
  specialize (Hd1 w1 eq_refl) as ->. rewrite app_nil_r in H1. subst out1.
  destruct (write_all_until_prefix w1 payload deadline) as (t2 & H2 & Hd2).
  destruct (write_all_until w1 payload deadline) as [out2 res2]. simpl in *.
  destruct res2 as [w2| |];
    [|unfold frame; split; [|done]; exists t2; simpl; by rewrite <-H2..].
  specialize (Hd2 w2 eq_refl) as ->. rewrite app_nil_r in H2. subst out2.
  split; [exists []; by rewrite app_nil_r|]. intros w' _. split_and!; [done|done|].
  intros sched d Hs Hr. apply read_frame_complete; [done|by rewrite app_nil_r|done..].
Qed.

(** ** Admission checks of worker and daemon requests *)

Definition MAX_INPUTS : Z := 8.
Definition MAX_RAW_INPUT_BYTES : Z := 8 * 1024 * 1024.
Definition RERANK_MAX_DOCUMENTS : Z := 32.
Definition RERANK_MAX_DOCUMENT_BYTES : Z := 4096.
Definition REQUEST_LIMIT : Z := 64 * 1024.
Definition RESPONSE_LIMIT : Z := 4 * 1024 * 1024.
Definition ARGUMENT_LIMIT : Z := 256.

Definition raw_input_bytes (texts : list str) : Z :=
  foldl (λ total text, saturating_add USIZE_MAX total (len text)) 0%Z texts.

Definition validate_inputs (texts : list str) : result unit :=
  _ ← ensure (Z.of_nat (length texts) <=? MAX_INPUTS)%Z
        "semantic_admission: at most 8 inputs per batch";
  _ ← ensure (raw_input_bytes texts <=? MAX_RAW_INPUT_BYTES)%Z
        "semantic_admission: raw inputs exceed 8 MiB";
  Ok tt.

Fixpoint check_documents (documents : list str) : result unit :=
  match documents with
  | [] => Ok tt
  | document :: documents =>
      _ ← ensure (negb (RERANK_MAX_DOCUMENT_BYTES <? len document)%Z)
            "rerank_admission: document exceeds the limit";
      check_documents documents
  end.

Definition check_rerank_bounds (query : str) (documents : list str) : result unit :=
  _ ← ensure (negb (RERANK_MAX_DOCUMENTS <? Z.of_nat (length documents))%Z)
        "rerank_admission: documents exceed the limit";
  _ ← ensure (negb (RERANK_MAX_DOCUMENT_BYTES <? len query)%Z)
        "rerank_admission: query exceeds the limit";
  check_documents documents.

Definition validate_rerank_inputs (query : str) (documents : list str) : result unit :=
  check_rerank_bounds query documents.

Inductive WorkerCommand :=
| Status
| Stop
| Embed (class : RequestClass) (root_id : str) (texts : list str) (deadline_ms : Z)
| Rerank (root_id query : str) (documents : list str) (deadline_ms : Z).

Definition is_empty (s : str) : bool := match s with [] => true | _ => false end.

Definition validate_command (command : WorkerCommand) : result unit :=
  match command with
  | Embed _ root_id texts deadline_ms =>
      _ ← ensure (negb (is_empty root_id)) "semantic_admission: root id is empty";
      _ ← ensure (negb (deadline_ms =? 0)%Z) "semantic_admission: deadline is missing";
      validate_inputs texts
  | Rerank root_id query documents deadline_ms =>
      _ ← ensure (negb (is_empty root_id)) "rerank_admission: root id is empty";
      _ ← ensure (negb (deadline_ms =? 0)%Z) "rerank_admission: deadline is missing";
      validate_rerank_inputs query documents
  | Status | Stop => Ok tt
  end.

(** [try_fold] of [checked_add] over the argument lengths. *)
Fixpoint checked_total (total : Z) (args : list str) : option Z :=
  match args with
  | [] => Some total
  | arg :: args => t ← checked_add USIZE_MAX total (len arg); checked_total t args
  end.

Inductive DaemonRequest := Arguments (request_id : str) (args : list str) | StopDaemon.

Inductive DaemonReply := Success (output : str) | Failure (message : str).

Section Codec.
(** [uuid::Uuid::parse_str] and the [serde_json] encoder and decoder. *)
Context {uuid : Type} `{UuidCrate uuid}.
Context {Req : Type} (to_vec : Req → str) (from_slice : str → result Req).
Context (reply_to_vec : DaemonReply → str).

Definition daemon_validate (request : DaemonRequest) : result unit :=
  match request with
  | Arguments request_id args =>
      _ ← or_err "invalid request UUID" (uuid_parse_str request_id);
      _ ← ensure (Z.of_nat (length args) <=? ARGUMENT_LIMIT)%Z "too many daemon arguments";
      ensure (match checked_total 0 args with
              | Some bytes => (bytes <=? REQUEST_LIMIT)%Z
              | None => false
              end) "daemon arguments too large"
  | StopDaemon => Ok tt
  end.

(** A request crosses the wire as the JSON encoding in one frame; both ends run
    the same validation. *)
Definition write_request (limit : Z) (validate : Req → result unit) (request : Req)
    : result str :=
  _ ← validate request; write_frame limit (to_vec request).
Definition read_request (limit : Z) (validate : Req → result unit) (input : str)
    : result (Req * str) :=
  '(bytes, rest) ← read_frame limit input;
  request ← from_slice bytes;
  _ ← validate request; Ok (request, rest).

Definition daemon_write_reply (reply : DaemonReply) : result str :=
  let oversized := match reply with
    | Success output => (RESPONSE_LIMIT <? len output)%Z
    | Failure message => (RESPONSE_LIMIT <? len message)%Z
    end in
  let bytes := if oversized then [] else reply_to_vec reply in
  if oversized || (RESPONSE_LIMIT <? len bytes)%Z
  then write_frame RESPONSE_LIMIT (reply_to_vec (Failure (lit "daemon response exceeds 4 MiB")))
  else write_frame RESPONSE_LIMIT bytes.
End Codec.

(** ** What the checks guarantee *)

Definition total_bytes (texts : list str) : Z := foldr (λ t n, len t + n)%Z 0%Z texts.

Lemma total_bytes_nonneg texts : (0 ≤ total_bytes texts)%Z.
Proof. unfold total_bytes, len. induction texts; cbn [foldr]; lia. Qed.

Lemma raw_input_bytes_sum texts :
  raw_input_bytes texts = Z.min USIZE_MAX (total_bytes texts).
Proof.
  unfold raw_input_bytes.
  assert (∀ acc, (0 ≤ acc ≤ USIZE_MAX)%Z →
    foldl (λ total text, saturating_add USIZE_MAX total (len text)) acc texts
      = Z.min USIZE_MAX (acc + total_bytes texts)) as H.
  { induction texts as [|t texts IH]; intros acc Hacc; cbn [foldl].
    - cbn. lia.
    - change (total_bytes (t :: texts)) with (len t + total_bytes texts)%Z.
      pose proof (total_bytes_nonneg texts). unfold saturating_add at 2, len.
      rewrite IH; lia. }
  rewrite H; [done|]. unfold USIZE_MAX. lia.
Qed.

Lemma check_documents_Ok documents :
  check_documents documents = Ok tt ↔
  Forall (λ d, (len d ≤ RERANK_MAX_DOCUMENT_BYTES)%Z) documents.
Proof.
  induction documents as [|d documents IH]; cbn [check_documents]; [by split|].
  rewrite Forall_cons, <-IH. unfold ensure.
  destruct (Z.ltb_spec RERANK_MAX_DOCUMENT_BYTES (len d)); cbn.
  - split; [done|]. intros [? _]. lia.
  - split; [by split|by intros [_ ?]].
Qed.

(** What an admitted command promises the engine. *)
Definition admissible (command : WorkerCommand) : Prop :=
  match command with
  | Status | Stop => True
  | Embed _ root_id texts deadline_ms =>
      root_id ≠ [] ∧ deadline_ms ≠ 0%Z ∧ length texts ≤ 8 ∧
      (total_bytes texts ≤ MAX_RAW_INPUT_BYTES)%Z
  | Rerank root_id query documents deadline_ms =>
      root_id ≠ [] ∧ deadline_ms ≠ 0%Z ∧ length documents ≤ 32 ∧
      Forall (λ d, (len d ≤ RERANK_MAX_DOCUMENT_BYTES)%Z) (query :: documents)
  end.

Lemma ensure_bind {B} (b : bool) e (k : result B) x :
  (_ ← ensure b e; k) = Ok x ↔ b = true ∧ k = Ok x.
Proof. unfold ensure. destruct b; cbn; naive_solver. Qed.

Lemma negb_is_empty s : negb (is_empty s) = true ↔ s ≠ [].
Proof. by destruct s. Qed.

(** Worker admission accepts exactly the commands within its bounds: a root
    id, a deadline, at most 8 inputs of at most 8 MiB together for an embedding
    (the byte total is exact although it is summed with saturation), at most 32
    documents of at most 4096 bytes and such a query for a rerank. *)
Theorem validate_command_spec (command : WorkerCommand) :
  validate_command command = Ok tt ↔ admissible command.
Proof.
  destruct command as [| |class root texts ms|root query docs ms]; cbn; [done..| |].
  - unfold validate_inputs. rewrite !ensure_bind, negb_is_empty, negb_true_iff, Z.eqb_neq, !Z.leb_le.
    rewrite raw_input_bytes_sum. unfold MAX_INPUTS, MAX_RAW_INPUT_BYTES, USIZE_MAX.
    split; [intros (?&?&?&?&_)|intros (?&?&?&?)]; split_and!; try done; lia.
  - unfold validate_rerank_inputs, check_rerank_bounds.
    rewrite !ensure_bind, negb_is_empty, !negb_true_iff, Z.eqb_neq, !Z.ltb_ge, check_documents_Ok.
    unfold RERANK_MAX_DOCUMENTS. rewrite Forall_cons.
    split; [intros (?&?&?&?&?)|intros (?&?&?&?&?)]; split_and!; try done; lia.
Qed.

Lemma read_frame_frame limit payload rest :
  (len payload ≤ limit ≤ U32_MAX)%Z →
  read_frame limit (frame payload ++ rest) = Ok (payload, rest).
Proof.
  intros Hl. unfold read_frame, frame, read_exact. rewrite <-app_assoc.
  rewrite length_app, to_be_bytes_length. cbn [Nat.leb Nat.add mbind result_bind].
  rewrite take_app_length', drop_app_length' by done. unfold len in *.
  rewrite be_bytes_roundtrip by lia. cbn zeta. unfold ensure.
  rewrite (proj2 (Z.leb_le _ _)) by lia. cbn [mbind result_bind].
  rewrite Nat2Z.id, length_app, (proj2 (Nat.leb_le _ _)) by lia.
  by rewrite take_app_length, drop_app_length.
Qed.

Lemma write_frame_Ok limit bytes out :
  write_frame limit bytes = Ok out ↔ (len bytes ≤ limit)%Z ∧ out = frame bytes.
Proof. unfold write_frame. rewrite ensure_bind, Z.leb_le. naive_solver. Qed.

(** Request round trip: a request the sender accepts and writes is read back
    by the receiver as the same request, with the following bytes untouched; the
    receiver's validation never rejects what the sender's accepted. *)
Theorem request_roundtrip {Req} (to_vec : Req → str) (from_slice : str → result Req)
    (validate : Req → result unit) (limit : Z) (request : Req) (out rest : str) :
  (∀ r, from_slice (to_vec r) = Ok r) → (limit ≤ U32_MAX)%Z →
  write_request to_vec limit validate request = Ok out →
  read_request from_slice limit validate (out ++ rest) = Ok (request, rest).
Proof.
  intros Hcodec Hlimit. unfold write_request, read_request.
  destruct (validate request) as [[]|] eqn:Hv; [|done]. cbn [mbind result_bind].
  intros [Hlen ->]%write_frame_Ok.
  rewrite (read_frame_frame limit (to_vec request) rest) by lia. cbn [mbind result_bind].
  rewrite Hcodec. cbn [mbind result_bind]. by rewrite Hv.
Qed.

(** A codec that satisfies the law: the two constructors of a small request
    type, one byte each. *)
Lemma request_roundtrip_witness :
  read_request (λ s, match s with ["t"%char] => Ok true | ["f"%char] => Ok false | _ => Err "decode" end)
    REQUEST_LIMIT (λ b : bool, ensure b "refused") (frame (lit "t") ++ lit "next")
    = Ok (true, lit "next").
Proof.
  apply (request_roundtrip (λ b : bool, if b then ["t"%char] else ["f"%char])
    (λ s, match s with ["t"%char] => Ok true | ["f"%char] => Ok false | _ => Err "decode" end)
    (λ b : bool, ensure b "refused") REQUEST_LIMIT true).
  - by intros [].
  - vm_compute. congruence.
  - reflexivity.
Defined.

(** Daemon replies always fit: whatever the handler's output, one frame of at
    most 4 MiB is written, holding the reply itself, or the fixed failure when
    the encoded reply is too large (as long as that failure's own encoding
    fits and an encoding is no shorter than the text it holds). *)
Theorem daemon_reply_fits (reply_to_vec : DaemonReply → str) (reply : DaemonReply) :
  let fallback := Failure (lit "daemon response exceeds 4 MiB") in
  (len (reply_to_vec fallback) ≤ RESPONSE_LIMIT)%Z →
  (∀ s, len s ≤ len (reply_to_vec (Success s)))%Z →
  (∀ s, len s ≤ len (reply_to_vec (Failure s)))%Z →
  daemon_write_reply reply_to_vec reply = Ok (frame (reply_to_vec
    (if (len (reply_to_vec reply) <=? RESPONSE_LIMIT)%Z then reply else fallback))).
Proof.
  intros fallback Hfb Hs Hf. unfold daemon_write_reply, write_frame, ensure.
  destruct (len (reply_to_vec reply) <=? RESPONSE_LIMIT)%Z eqn:Hle; bool_to_prop.
  - assert (match reply with Success o => RESPONSE_LIMIT <? len o
            | Failure m => RESPONSE_LIMIT <? len m end = false)%Z as ->.
    { destruct reply as [o|m]; apply Z.ltb_ge; [specialize (Hs o)|specialize (Hf m)]; lia. }
    cbn [orb]. rewrite (proj2 (Z.ltb_ge _ _)) by lia. by rewrite (proj2 (Z.leb_le _ _)) by lia.
  - rewrite (proj2 (Z.leb_le (len (reply_to_vec (Failure _))) _)) by done.
    destruct (match reply with Success _ => _ | Failure _ => _ end) eqn:Hov; [done|].
    by rewrite (proj2 (Z.ltb_lt _ _)) by lia.
Qed.

Lemma daemon_reply_fits_witness :
  daemon_write_reply (λ r, match r with Success s => "s"%char :: s | Failure s => "f"%char :: s end)
    (Success (lit "ok")) = Ok (frame (lit "sok")).
Proof.
  apply (daemon_reply_fits
    (λ r, match r with Success s => "s"%char :: s | Failure s => "f"%char :: s end) (Success (lit "ok"))).
  - vm_compute. congruence.
  - intros s. unfold len. cbn [length]. lia.
  - intros s. unfold len. cbn [length]. lia.
Defined.
