(* ===== verification/Hits.v ===== *)
(** * Result entries and their compact form

    Models the data of [src/src/results.rs] and [src/src/results/entries.rs] and
    the compact JSON rendering of a live hit.  JSON objects are key-sorted
    association lists (the [BTreeMap] of [serde_json] without [preserve_order]). *)
From Stdlib Require Import Ascii String ZArith Lia Permutation.
From stdpp Require Import base numbers list gmap strings.
From S2P Require Import Prelude Order Text Identity Paths.

(** ** JSON values *)

Inductive Json :=
| JNull
| JBool (b : bool)
| JNum (n : Z)
| JStr (s : str)
| JArr (l : list Json)
| JObj (m : list (str * Json)).

Fixpoint obj_get (m : list (str * Json)) (key : str) : option Json :=
  match m with
  | [] => None
  | (k, v) :: m' => if k =s key then Some v else obj_get m' key
  end.

Fixpoint obj_insert (m : list (str * Json)) (key : str) (value : Json) : list (str * Json) :=
  match m with
  | [] => [(key, value)]
  | (k, v) :: m' =>
      match str_compare key k with
      | Lt => (key, value) :: m
      | Eq => (key, value) :: m'
      | Gt => (k, v) :: obj_insert m' key value
      end
  end.

(** [value[key]]: null where there is no such member. *)
Definition jindex (v : Json) (key : string) : Json :=
  match v with
  | JObj m => default JNull (obj_get m (lit key))
  | _ => JNull
  end.
Definition as_str (v : Json) : option str := match v with JStr s => Some s | _ => None end.
Definition as_u64 (v : Json) : option Z :=
  match v with JNum n => if (0 <=? n)%Z then Some n else None | _ => None end.
Definition as_array (v : Json) : option (list Json) :=
  match v with JArr l => Some l | _ => None end.

Lemma obj_get_insert m key v k :
  obj_get (obj_insert m key v) k = if key =s k then Some v else obj_get m k.
Proof.
  induction m as [|[k' v'] m IH]; cbn [obj_insert obj_get]; [done|].
  destruct (str_compare key k') eqn:E; cbn [obj_get].
  - apply (cmp_eq str_compare) in E as ->. by case_bool_decide.
  - done.
  - rewrite IH. destruct (decide (k' = k)) as [->|Hne].
    + rewrite (bool_decide_eq_true_2 (k = k)) by done.
      rewrite bool_decide_eq_false_2; [done|]. intros ->.
      by rewrite (cmp_refl str_compare) in E.
    + by rewrite !(bool_decide_eq_false_2 (k' = k)) by done.
Qed.

(** ** Entries *)

Record DefinitionTarget := {
  target_path : str;
  target_revision : str;
  target_start : nat;
  target_end : nat;
  target_name : str;
}.

Record Snippet := { snippet_line : nat; snippet_text : str }.

Record Hit := {
  hit_handle : str;
  hit_path : str;
  hit_revision : option str;
  hit_start : nat;
  hit_end : nat;
  hit_start_line : nat;
  hit_end_line : nat;
  hit_name : str;
  hit_kind : str;
  hit_container : option str;
  hit_provenance : option str;
  hit_resolution : option str;
  hit_candidates : list DefinitionTarget;
  hit_target : option DefinitionTarget;
  hit_snippet : option Snippet;
  hit_repeats : option nat;
}.

Record HistoricalSource := {
  source_repository : str;
  source_commit : GitOid.t;
  source_blob : GitOid.t;
  source_revision : str;
  source_path : str;
  source_span : ByteSpan.t;
}.

Record CommitEntry := {
  commit_handle : str;
  commit_repository : str;
  commit_commit : GitOid.t;
  commit_parent : option GitOid.t;
  commit_summary : str;
  commit_committer_time : Z;
}.

Record ChangeEntry := {
  change_handle : str;
  change_name : str;
  change_status : str;
  change_before : option HistoricalSource;
  change_after : option HistoricalSource;
  change_correspondence : str;
}.

Inductive ResultEntry :=
| LiveSource (hit : Hit)
| Commit (commit : CommitEntry)
| Change (change : ChangeEntry).

Record StoredResultSet := {
  set_generation : Z;
  set_coverage : Json;
  set_truncated : bool;
  set_hits : list ResultEntry;
}.

Definition entry_handle (e : ResultEntry) : str :=
  match e with
  | LiveSource h => hit_handle h
  | Commit c => commit_handle c
  | Change c => change_handle c
  end.

(** [*entry.handle_mut() = handle]. *)
Definition set_hit_handle (h : Hit) (handle : str) : Hit :=
  {| hit_handle := handle; hit_path := hit_path h; hit_revision := hit_revision h;
     hit_start := hit_start h; hit_end := hit_end h; hit_start_line := hit_start_line h;
     hit_end_line := hit_end_line h; hit_name := hit_name h; hit_kind := hit_kind h;
     hit_container := hit_container h; hit_provenance := hit_provenance h;
     hit_resolution := hit_resolution h; hit_candidates := hit_candidates h;
     hit_target := hit_target h; hit_snippet := hit_snippet h; hit_repeats := hit_repeats h |}.
Definition handle_mut (e : ResultEntry) (handle : str) : ResultEntry :=
  match e with
  | LiveSource h => LiveSource (set_hit_handle h handle)
  | Commit c => Commit {| commit_handle := handle; commit_repository := commit_repository c;
      commit_commit := commit_commit c; commit_parent := commit_parent c;
      commit_summary := commit_summary c; commit_committer_time := commit_committer_time c |}
  | Change c => Change {| change_handle := handle; change_name := change_name c;
      change_status := change_status c; change_before := change_before c;
      change_after := change_after c; change_correspondence := change_correspondence c |}
  end.

Lemma entry_handle_mut e h : entry_handle (handle_mut e h) = h.
Proof. by destruct e. Qed.

(** ** File URIs *)

Inductive Component := RootDir | CurDir | ParentDir | Normal (part : str).

(** [Path::components] on Unix: repeated separators and interior [.] parts vanish. *)
Definition component_of (part : str) : list Component :=
  if part =s [] then [] else if part =s lit "." then []
  else if part =s lit ".." then [ParentDir] else [Normal part].
Definition components (path : str) : list Component :=
  let parts := split_char "/" path in
  match path with
  | "/"%char :: _ => RootDir :: (parts ≫= component_of)
  | _ => (if default [] (head parts) =s lit "." then [CurDir] else []) ++ (parts ≫= component_of)
  end.
Definition is_relative (path : str) : bool := negb (starts_with (lit "/") path).
Definition is_normal (c : Component) : bool := match c with Normal _ => true | _ => false end.

(** [root.join(relative)] for a relative operand. *)
Definition path_join (root relative : str) : str :=
  if negb (root =s []) && negb (ends_with (lit "/") root) then root ++ lit "/" ++ relative
  else root ++ relative.

(** [encoded.replace(c, text)] for a one-byte pattern. *)
Definition replace_char (c : ascii) (text s : str) : str :=
  s ≫= λ b, if b =c c then text else [b].

Definition file_uri (root relative : str) : result str :=
  relative ← decode_path relative;
  _ ← ensure (is_relative relative) "result_unavailable: stored path is absolute";
  _ ← ensure (forallb is_normal (components relative))
        "result_unavailable: stored path escapes repository root";
  let encoded := encode_path (path_join root relative) in
  let encoded := replace_char "#" (lit "%23") (replace_char "?" (lit "%3F") encoded) in
  Ok (lit "file://" ++ encoded).

(** ** Compact rendering *)

Record HitDetail := { names : bool; snippets : bool }.

Definition COMPACT_NAME_LIMIT : nat := 96.

(** [name.chars().count()]: the bytes that start a character. *)
Definition chars_count (s : str) : nat := length (filter (λ c, is_cont c = false) s).
Definition concise_name (name : str) : bool :=
  negb (name =s []) && (chars_count name <=? COMPACT_NAME_LIMIT).

Definition insert_opt {A} (m : list (str * Json)) (key : string) (o : option A) (f : A → Json)
    : list (str * Json) :=
  match o with Some a => obj_insert m (lit key) (f a) | None => m end.

Definition jnat (n : nat) : Json := JNum (Z.of_nat n).

Definition compact_target (target : DefinitionTarget) (root : str) (names : bool) : result Json :=
  uri ← file_uri root (target_path target);
  let value := obj_insert [] (lit "file") (JStr uri) in
  let value := obj_insert value (lit "start") (jnat (target_start target)) in
  let value := obj_insert value (lit "end") (jnat (target_end target)) in
  Ok (JObj (if names && concise_name (target_name target)
            then obj_insert value (lit "name") (JStr (target_name target)) else value)).

Definition snippet_value (s : Snippet) : Json :=
  JObj [(lit "line", jnat (snippet_line s)); (lit "text", JStr (snippet_text s))].

Definition compact_hit (hit : Hit) (root : str) (member : option str) (detail : HitDetail)
    : result Json :=
  let value := if hit_handle hit =s [] then []
               else obj_insert [] (lit "handle") (JStr (hit_handle hit)) in
  let value := insert_opt value "member" member JStr in
  uri ← file_uri root (hit_path hit);
  let value := obj_insert value (lit "file") (JStr uri) in
  let value := obj_insert value (lit "start_line") (jnat (hit_start_line hit)) in
  let value := obj_insert value (lit "end_line") (jnat (hit_end_line hit)) in
  let value := if names detail && concise_name (hit_name hit)
               then obj_insert value (lit "name") (JStr (hit_name hit)) else value in
  let value := if snippets detail
               then insert_opt value "snippet" (hit_snippet hit) snippet_value else value in
  let value := insert_opt value "resolution" (hit_resolution hit) JStr in
  let value := insert_opt value "repeats" (hit_repeats hit) jnat in
  value ← match hit_target hit with
          | Some target =>
              t ← compact_target target root (names detail);
              Ok (obj_insert value (lit "target") t)
          | None => Ok value
          end;
  match hit_candidates hit with
  | [] => Ok (JObj value)
  | candidates =>
      cs ← try_map (λ target, compact_target target root (names detail)) candidates;
      Ok (JObj (obj_insert value (lit "candidates") (JArr cs)))
  end.

Section Entries.
(** [serde_json::to_value] of an entry, from the derived serializer. *)
Context (to_value : ResultEntry → Json).

Definition compact_entry_for_page (entry : ResultEntry) (root : str) (member : option str)
    (detail : HitDetail) (compact_live : bool) : result Json :=
  match entry with
  | LiveSource hit => if compact_live then compact_hit hit root member detail
                      else Ok (to_value entry)
  | _ => Ok (to_value entry)
  end.
End Entries.

(** ** URIs decode to the file inside the root *)

Lemma decode_go_app_percent h l s b :
  utf8_valid [h; l] = true → u8_from_str_radix16 [h; l] = Some b →
  decode_go ("%"%char :: h :: l :: s) = cons (chr b) <$> decode_go s.
Proof.
  intros Hu Hd. cbn [decode_go]. rewrite bool_decide_eq_true_2 by done. rewrite Hu, Hd. cbn.
  by destruct (decode_go s).
Qed.

Definition uri_byte (b : ascii) : str :=
  replace_char "#" (lit "%23") (replace_char "?" (lit "%3F") (encode_byte b)).

Lemma replace_char_bind c t s (f : ascii → str) :
  replace_char c t (s ≫= f) = s ≫= λ b, replace_char c t (f b).
Proof.
  unfold replace_char. induction s as [|b s IH]; [done|].
  rewrite !bind_cons, bind_app. by f_equal.
Qed.

Lemma decode_go_uri_byte b s : decode_go (uri_byte b ++ s) = cons b <$> decode_go s.
Proof.
  destruct (decide (b = "?"%char)) as [->|H1];
    [apply (decode_go_app_percent "3" "F" s 63); reflexivity|].
  destruct (decide (b = "#"%char)) as [->|H2];
    [apply (decode_go_app_percent "2" "3" s 35); reflexivity|].
  assert (uri_byte b = encode_byte b) as ->; [|apply decode_go_encode_byte].
  revert H1 H2. by_byte b.
Qed.

Lemma uri_byte_chars b :
  forallb (λ c, path_char c && negb (c =c "?"%char) && negb (c =c "#"%char)) (uri_byte b) = true.
Proof. by_byte b. Qed.

(** File URIs: for a stored path that is accepted, the text after [file://] is
    printable ASCII with no [?] or [#], and percent-decoding it gives the root
    joined with the decoded path, which has only normal components, so the URI
    never leaves the repository. *)
Theorem file_uri_confined (root relative uri : str) :
  file_uri root relative = Ok uri →
  ∃ path text, decode_path relative = Ok path ∧
    Forall (λ c, is_normal c = true) (components path) ∧
    uri = lit "file://" ++ text ∧ decode_go text = Ok (path_join root path) ∧
    Forall (λ c, path_char c = true ∧ c ≠ "?"%char ∧ c ≠ "#"%char) text.
Proof.
  unfold file_uri. intros H. result_inv.
  match goal with H : decode_path _ = Ok ?p |- _ => exists p; eexists; split; [exact H|] end.
  split; [by apply Forall_forall; intros c Hc; eapply forallb_forall; [|by apply list_elem_of_In]|].
  split; [done|]. set (p := path_join root _). unfold encode_path.
  rewrite !replace_char_bind. change (λ b, replace_char "#" _ _) with uri_byte.
  clearbody p. clear. split.
  - induction p as [|b p IH]; [done|]. by rewrite bind_cons, decode_go_uri_byte, IH.
  - apply Forall_bind, Forall_true. intros b. apply Forall_forall. intros c Hc.
    pose proof (proj1 (forallb_forall _ _) (uri_byte_chars b) c (proj1 (list_elem_of_In _ _) Hc)) as H.
    cbn beta in H. bool_to_prop. done.
Qed.

Lemma file_uri_confined_witness :
  file_uri (lit "/repo") (lit "src/a%20b?.rs") = Ok (lit "file:///repo/src/a%20b%3F.rs") ∧
  ∃ path, decode_path (lit "src/a%20b?.rs") = Ok path.
Proof.
  split; [reflexivity|].
  destruct (file_uri_confined (lit "/repo") (lit "src/a%20b?.rs") (lit "file:///repo/src/a%20b%3F.rs"))
    as (path & _ & H & _); [reflexivity|by exists path].
Defined.
