(* ===== verification/Pages.v ===== *)
(** * Budgeted result pages

    Models [src/src/output.rs], [src/src/output/lines.rs],
    [src/src/results/lines.rs] and [src/src/results/page.rs]: rendering a window
    of a persisted result set as JSON or tab lines, and choosing by binary search
    the largest window whose text fits the token budget.  The tokenizer
    ([tiktoken_rs]), the JSON printer and the derived serializer are parameters. *)
From Stdlib Require Import Ascii String ZArith Lia Permutation.
From stdpp Require Import base numbers list gmap strings.
From S2P Require Import Prelude Order Text Identity Paths Hits.

(** ** Output budget *)

Inductive OutputFormat := FormatJson | FormatLines.
#[export] Instance output_format_eq_dec : EqDecision OutputFormat.
Proof. solve_decision. Defined.

Definition output_format_parse (value : str) : result OutputFormat :=
  if value =s lit "json" then Ok FormatJson
  else if value =s lit "lines" then Ok FormatLines
  else Err "invalid_options: unknown output format".

Record OutputBudget := { limit : nat; format : OutputFormat }.

Definition budget_new (limit : nat) : OutputBudget := {| limit := limit; format := FormatJson |}.
Definition with_format (b : OutputBudget) (f : OutputFormat) : OutputBudget :=
  {| limit := limit b; format := f |}.

(** The external functions a page is rendered and measured with. *)
Class Rendering := {
  token_count : str → nat;            (* tokenizer.encode_ordinary(text).len() *)
  json_to_string : Json → str;        (* serde_json::to_string *)
  entry_to_value : ResultEntry → Json (* serde_json::to_value *)
}.

(** ** Lines format *)

Definition nl : ascii := chr 10.
Definition tab : ascii := chr 9.

Definition COVERAGE_KEY : str := lit "coverage: ".
Definition NEXT_KEY : str := lit "next: ".
Definition HINT_KEY : str := lit "hint: ".
Definition TRUNCATED_LINE : str := lit "truncated: true".
Definition PAGE_SIZE_HINT : str := lit "-n N raises the page size".
Definition PAGE_BUDGET_HINT : str := lit "-b N raises the token budget".

Record NextCommand := { verb : str; cursor : str; hint : option str }.

Definition footer (next : option NextCommand) (truncated : bool) (out : str) : str :=
  let out := match next with
    | Some n =>
        let out := out ++ NEXT_KEY ++ verb n ++ lit " " ++ cursor n ++ [nl] in
        match hint n with Some h => out ++ HINT_KEY ++ h ++ [nl] | None => out end
    | None => out
    end in
  if truncated then out ++ TRUNCATED_LINE ++ [nl] else out.

(** [str::lines]: a final line terminator does not start another line, and a
    carriage return before a terminator is dropped with it. *)
Definition strip_cr (s : str) : str := default s (strip_suffix [chr 13] s).
Fixpoint lines_of (parts : list str) : list str :=
  match parts with
  | [] => []
  | [last] => if last =s [] then [] else [last]
  | part :: parts => strip_cr part :: lines_of parts
  end.
Definition str_lines (s : str) : list str := lines_of (split_char nl s).

Section EmittedHandles.
Context {uuid : Type} `{UuidCrate uuid}.

Definition line_handle (line : str) : option str :=
  handle ← head (split_char tab line);
  if is_ok (handle_from_str handle) then Some handle else None.

Definition emitted_handles (text : str) : list str :=
  omap line_handle (take_while (λ line, negb (starts_with COVERAGE_KEY line)) (str_lines text)).
End EmittedHandles.

(** ** Result lines *)

(** [GitOid]'s [Display]; on an id made by its parser [as_str] does not panic
    ([GitOid.parse_as_str]). *)
Definition oid_display (o : GitOid.t) : str :=
  match GitOid.as_str o with Ok s => s | Err _ => [] end.

Definition entry_line (entry : ResultEntry) (member : option str) (detail : HitDetail) : str :=
  let prefix := match member with Some m => m ++ lit "/" | None => [] end in
  match entry with
  | LiveSource hit =>
      let line := hit_handle hit ++ [tab] ++ prefix ++ hit_path hit ++ lit ":" ++
        show_nat (hit_start_line hit) ++ lit "-" ++ show_nat (hit_end_line hit) in
      let previewed := snippets detail && bool_decide (is_Some (hit_snippet hit)) &&
        bool_decide (hit_provenance hit = Some (lit "live_regex")) in
      let line := if names detail && concise_name (hit_name hit) &&
          negb (hit_name hit =s hit_path hit) && negb previewed
        then line ++ [tab] ++ hit_name hit else line in
      let line := match hit_resolution hit with
        | Some r => line ++ [tab] ++ lit "resolution=" ++ r | None => line end in
      let line := match hit_repeats hit with
        | Some r => line ++ [tab; chr 195; chr 151] ++ show_nat r | None => line end in
      if snippets detail then
        match hit_snippet hit with
        | Some s => line ++ [nl] ++ lit "  " ++ show_nat (snippet_line s) ++ lit ": " ++ snippet_text s
        | None => line
        end
      else line
  | Commit c =>
      commit_handle c ++ [tab] ++ lit "commit:" ++ oid_display (commit_commit c) ++ [tab] ++
      default [] (head (str_lines (commit_summary c)))
  | Change c =>
      let path := match change_after c with
        | Some s => source_path s
        | None => match change_before c with Some s => source_path s | None => [] end
        end in
      change_handle c ++ [tab] ++ lit "change:" ++ change_status c ++ [tab] ++ prefix ++ path ++
      [tab] ++ change_name c
  end.

Definition unconfigured (reason : option str) : bool :=
  match reason with
  | Some r => contains (lit "model_dir") r || contains (lit "not configured") r
  | None => false
  end.

Definition is_true (v : Json) : bool := match v with JBool true => true | _ => false end.

Definition reference_summary (coverage : Json) : option str :=
  sites ← as_u64 (jindex coverage "reference_sites");
  let files := default 0%Z (as_u64 (jindex coverage "reference_files")) in
  let more := if is_true (jindex coverage "reference_sites_truncated") then lit "+" else [] in
  let plural (count : Z) := if (count =? 1)%Z then [] else lit "s" in
  Some (lit "refs " ++ show_usize sites ++ more ++ lit " site" ++ plural sites ++ lit " in " ++
        show_usize files ++ lit " file" ++ plural files).

(** [key.trim_end_matches("_files")] on the counter names. *)
Definition trim_files (key : string) : str := default (lit key) (strip_suffix (lit "_files") (lit key)).

(** The parts of the summary for one counter and for one retrieval lane. *)
Definition counter_part (coverage : Json) (key : string) : list str :=
  let value := default 0%Z (as_u64 (jindex coverage key)) in
  if (0 <? value)%Z then [trim_files key ++ lit " " ++ show_usize value] else [].
Definition lane_part (coverage : Json) (label key reason : string) : list str :=
  match as_str (jindex coverage key) with
  | Some status =>
      if negb (status =s lit "ready") && negb (unconfigured (as_str (jindex coverage reason)))
      then [lit label ++ lit " " ++ status] else []
  | None => []
  end.
Definition opt_part (o : option str) : list str := match o with Some s => [s] | None => [] end.

Definition single_repo_coverage (coverage : Json) : str :=
  let count key := default 0%Z (as_u64 (jindex coverage key)) in
  let has_preparation_error := match coverage with
    | JObj m => bool_decide (is_Some (obj_get m (lit "semantic_preparation_error")))
    | _ => false end in
  join (lit "; ") (
    [lit "indexed " ++ show_usize (count "indexed_files") ++ lit "/" ++
       show_usize (count "total_files")] ++
    counter_part coverage "excluded_files" ++ counter_part coverage "parse_failures" ++
    counter_part coverage "walk_failures" ++ counter_part coverage "truncated_files" ++
    lane_part coverage "semantic" "semantic_status" "semantic_reason" ++
    lane_part coverage "rerank" "rerank_status" "rerank_reason" ++
    (if has_preparation_error then [lit "semantic preparation_error"] else []) ++
    opt_part ((λ e, lit "endpoint " ++ e) <$> as_str (jindex coverage "endpoint")) ++
    opt_part (as_str (jindex coverage "filter_diagnosis")) ++
    opt_part (reference_summary coverage)).

Definition page_text (entries : list (option str * ResultEntry)) (detail : HitDetail)
    (coverage : str) (next : option NextCommand) (truncated : bool) : str :=
  let out := entries ≫= λ '(member, entry), entry_line entry member detail ++ [nl] in
  footer next truncated (out ++ COVERAGE_KEY ++ coverage ++ [nl]).

Definition next_cursor (id : str) (offset count total : nat) : option str :=
  if offset + count <? total then Some (id ++ lit "@" ++ show_nat (offset + count)) else None.

Definition more_command (cursor : str) (offset count limit : nat) : NextCommand :=
  {| verb := lit "more"; cursor := cursor;
     hint := if offset =? 0
             then Some (if limit <=? count then PAGE_SIZE_HINT else PAGE_BUDGET_HINT)
             else None |}.

(** ** Page fitting *)

Definition SNIPPET_PAGE_FLOOR : nat := 8.

(** The binary-search loop; [fuel] bounds its iterations by the interval's
    width, which every iteration shrinks. *)
Fixpoint fit_loop (fuel low high : nat) (fits : nat → result bool) : result nat :=
  match fuel with
  | O => Ok low
  | S fuel' =>
      if low <? high then
        let count := low + div_ceil (high - low) 2 in
        b ← fits count;
        if b : bool then fit_loop fuel' count high fits
        else fit_loop fuel' low (count - 1) fits
      else Ok low
  end.
Definition largest_fitting (max : nat) (fits : nat → result bool) : result nat :=
  fit_loop max 0 max fits.

Section Page.
Context `{Rendering}.

Definition encode (value : Json) : str := json_to_string value ++ [nl].
Definition fits (budget : OutputBudget) (text : str) : bool := token_count text <=? limit budget.
Definition budget_render (budget : OutputBudget) (value : Json) : result str :=
  let text := encode value in
  if negb (fits budget text) then Err "budget_too_small: complete response exceeds o200k_base tokens"
  else Ok text.

Definition snippet_page (max_count : nat) (budget : OutputBudget)
    (render : nat → HitDetail → result str) : result (option str) :=
  let floor := Nat.min max_count SNIPPET_PAGE_FLOOR in
  if floor =? 0 then Ok None
  else
    let full := {| names := true; snippets := true |} in
    count ← largest_fitting max_count (λ count, text ← render count full; Ok (fits budget text));
    if floor <=? count then text ← render count full; Ok (Some text) else Ok None.

(** Trims one hit's candidate array and records the cut. *)
Definition trim_candidates (limit : nat) (hit : Json) : Json :=
  match hit with
  | JObj m =>
      match obj_get m (lit "candidates") with
      | Some (JArr candidates) =>
          if limit <? length candidates then
            let m := obj_insert m (lit "candidates") (JArr (take limit candidates)) in
            let m := obj_insert m (lit "candidates_total") (jnat (length candidates)) in
            JObj (obj_insert m (lit "candidates_truncated") (JBool true))
          else hit
      | _ => hit
      end
  | _ => hit
  end.

Definition page_value (set : StoredResultSet) (id root : str) (offset count : nat)
    (detail : HitDetail) (candidate_limit : option nat) (compact_live : bool) : result Json :=
  hits ← try_map (λ entry, compact_entry_for_page entry_to_value entry root None detail compact_live)
           (take count (drop offset (set_hits set)));
  let hits := match candidate_limit with
    | Some limit => trim_candidates limit <$> hits | None => hits end in
  let next := match next_cursor id offset count (length (set_hits set)) with
    | Some c => JStr c | None => JNull end in
  Ok (JObj [(lit "coverage", set_coverage set); (lit "generation", JNum (set_generation set));
            (lit "hits", JArr hits); (lit "next", next);
            (lit "tokenizer", JStr (lit "o200k_base"));
            (lit "truncated", JBool (set_truncated set))]).

(** What [page] knows once the set is loaded. *)
Context (root id : str) (set : StoredResultSet) (offset page_limit : nat) (budget : OutputBudget).

Definition compact_live : bool :=
  negb (bool_decide (as_str (jindex (set_coverage set) "endpoint")
                      = Some (lit "published_working_tree"))).
Definition available : nat := length (set_hits set) - offset.
Definition max_count : nat := Nat.min (Nat.min available page_limit) (limit budget).

Definition render_detail (count : nat) (detail : HitDetail) (candidate_limit : option nat)
    : result str :=
  match format budget with
  | FormatJson =>
      value ← page_value set id root offset count detail candidate_limit compact_live;
      Ok (encode value)
  | FormatLines =>
      let cursor := next_cursor id offset count (length (set_hits set)) in
      Ok (page_text ((λ entry, (None, entry)) <$> take count (drop offset (set_hits set))) detail
            (single_repo_coverage (set_coverage set))
            ((λ cursor, more_command cursor offset count page_limit) <$> cursor)
            (set_truncated set))
  end.

Definition render (count : nat) (names : bool) (candidate_limit : option nat) : result str :=
  render_detail count {| names := names; snippets := false |} candidate_limit.

Definition fits_render (count : nat) (names : bool) (candidate_limit : option nat)
    : result bool :=
  text ← render count names candidate_limit; Ok (fits budget text).

(** [value["hits"][0]["candidates"].as_array().map(Vec::len).unwrap_or(0)]. *)
Definition candidate_total (value : Json) : nat :=
  match jindex value "hits" with
  | JArr (hit :: _) => match as_array (jindex hit "candidates") with
                       | Some l => length l | None => 0 end
  | _ => 0
  end.

(** One iteration of [for names in [false, true]]: a page to return, if any. *)
Definition names_pass (names : bool) : result (option str) :=
  low ← largest_fitting max_count (λ count, fits_render count names None);
  if 0 <? low then
    named ← render low true None;
    if fits budget named then Ok (Some named)
    else text ← render low names None; Ok (Some text)
  else if (0 <? max_count) && bool_decide (format budget = FormatJson) then
    value ← page_value set id root offset 1 {| names := names; snippets := false |} None compact_live;
    let total := candidate_total value in
    candidate_low ← fit_loop total 0 total (λ c, fits_render 1 names (Some c));
    if 0 <? total then
      text ← render 1 names (Some candidate_low);
      Ok (if fits budget text then Some text else None)
    else Ok None
  else Ok None.

Definition page_loaded : result str :=
  if length (set_hits set) <? offset then Err "invalid_cursor: offset outside result set"
  else
    first ← snippet_page max_count budget (λ count detail, render_detail count detail None);
    match first with
    | Some text => Ok text
    | None =>
        plain ← names_pass false;
        match plain with
        | Some text => Ok text
        | None =>
            named ← names_pass true;
            match named with
            | Some text => Ok text
            | None =>
                let too_small :=
                  Err "budget_too_small: no hit and pagination envelope fit; increase --budget" in
                if available =? 0 then
                  text ← render 0 false None;
                  if fits budget text then Ok text else too_small
                else too_small
            end
        end
    end.
End Page.

Section Commands.
Context {uuid : Type} `{UuidCrate uuid, Rendering}.
(** The store's root and [load_entries]. *)
Context (root : str) (load_entries : str → result StoredResultSet).

Definition page (id : str) (offset limit : nat) (budget : OutputBudget) : result str :=
  set ← load_entries id;
  page_loaded root id set offset limit budget.

Definition more (cursor : str) (limit : nat) (budget : OutputBudget) : result str :=
  c ← cursor_from_str cursor;
  page (uuid_simple (cursor_set c)) (Z.to_nat (cursor_offset c)) limit budget.
End Commands.

(** ** The search for the largest fitting count *)

Lemma fit_loop_spec fuel low high fits n :
  high - low ≤ fuel → low ≤ high → fit_loop fuel low high fits = Ok n →
  low ≤ n ≤ high ∧ (n = low ∨ fits n = Ok true) ∧ (n = high ∨ fits (S n) = Ok false).
Proof.
  revert low high. induction fuel as [|fuel IH]; intros low high Hf Hle H; cbn [fit_loop] in H.
  { injection H as <-. split_and!; auto; lia. }
  destruct (Nat.ltb_spec low high) as [Hlt|Hge].
  2: { injection H as <-. split_and!; auto; lia. }
  pose proof (div_ceil_2_bounds (high - low) ltac:(lia)) as Hd.
  set (count := low + div_ceil (high - low) 2) in *.
  assert (low < count ≤ high) as Hc by (unfold count; lia). clearbody count.
  destruct (fits count) as [[]|] eqn:Hfit; [| |done]; cbn in H.
  - apply IH in H as (? & [->|?] & ?); [..|lia|lia]; split_and!; auto; lia.
  - apply IH in H as (? & ? & [->|?]); [..|lia|lia]; split_and!; try (auto; lia).
    right. by replace (S (count - 1)) with count by lia.
Qed.

Lemma fit_loop_total fuel low high fits :
  (∀ c, low < c ≤ high → is_ok (fits c) = true) → ∃ n, fit_loop fuel low high fits = Ok n.
Proof.
  revert low high. induction fuel as [|fuel IH]; intros low high Hok; cbn [fit_loop]; [eauto|].
  destruct (Nat.ltb_spec low high) as [Hlt|Hge]; [|eauto].
  pose proof (div_ceil_2_bounds (high - low) ltac:(lia)) as Hd.
  set (count := low + div_ceil (high - low) 2) in *.
  assert (low < count ≤ high) as Hc by (unfold count; lia). clearbody count.
  pose proof (Hok count Hc) as Hcok. destruct (fits count) as [[]|]; [..|done]; cbn.
  - apply IH. intros c Hr. apply Hok. lia.
  - apply IH. intros c Hr. apply Hok. lia.
Qed.

Lemma largest_fitting_Ok max fits n :
  largest_fitting max fits = Ok n →
  n ≤ max ∧ (n = 0 ∨ fits n = Ok true) ∧ (n = max ∨ fits (S n) = Ok false).
Proof. intros (? & ? & ?)%fit_loop_spec; [|lia..]. split_and!; auto. lia. Qed.

(** [largest_fitting] always returns when the test does not fail, and its
    answer is a boundary whether or not the test is monotone: it is zero or fits,
    and the next count is out of range or does not fit.  For a monotone test it
    is the largest count that fits. *)
Theorem largest_fitting_boundary (max : nat) (fits : nat → result bool) :
  (∀ c, 1 ≤ c ≤ max → is_ok (fits c) = true) →
  ∃ n, largest_fitting max fits = Ok n ∧ n ≤ max ∧
    (n = 0 ∨ fits n = Ok true) ∧ (n = max ∨ fits (S n) = Ok false) ∧
    ((∀ a b, a ≤ b ≤ max → fits b = Ok true → fits a = Ok true) →
     ∀ m, m ≤ max → fits m = Ok true → m ≤ n).
Proof.
  intros Hok. destruct (fit_loop_total max 0 max fits) as [n Hn]; [intros; apply Hok; lia|].
  exists n. split; [done|]. apply largest_fitting_Ok in Hn as (Hle & Hlow & Hhigh).
  split_and!; [done..|]. intros Hmono m Hm Hfm.
  destruct Hhigh as [->|Hhigh]; [done|].
  destruct (le_lt_dec m n) as [|Hlt]; [done|].
  rewrite (Hmono (S n) m) in Hhigh by (done || lia). done.
Qed.

Lemma largest_fitting_boundary_witness :
  ∃ n, largest_fitting 9 (λ c, Ok (c * c <=? 30)) = Ok n ∧ n = 5.
Proof.
  destruct (largest_fitting_boundary 9 (λ c, Ok (c * c <=? 30))) as (n & Hn & _); [done|].
  exists n. split; [done|]. vm_compute in Hn. congruence.
Defined.

(** ** Pages *)

Section PageFacts.
Context `{Rendering} (root id : str) (set : StoredResultSet) (offset page_limit : nat)
  (budget : OutputBudget).
Abbreviation render_at := (render_detail root id set offset page_limit budget).
Abbreviation cap := (max_count set offset page_limit budget).

(** The text is a rendering of [count] entries, it fits, and it shows at least
    one entry. *)
Definition good_page (text : str) : Prop :=
  ∃ count detail trimmed, 1 ≤ count ≤ cap ∧ render_at count detail trimmed = Ok text ∧
    fits budget text = true.

Lemma snippet_page_good text :
  snippet_page cap budget (λ count detail, render_at count detail None) = Ok (Some text) →
  good_page text.
Proof.
  unfold snippet_page. intros Hs.
  destruct (Nat.eqb_spec (Nat.min cap SNIPPET_PAGE_FLOOR) 0) as [|Hf]; [done|].
  apply bind_Ok in Hs as (count & Hlarge & Hs).
  apply largest_fitting_Ok in Hlarge as (Hle & Hlow & _).
  destruct (Nat.leb_spec (Nat.min cap SNIPPET_PAGE_FLOOR) count); [|done].
  result_inv. destruct Hlow as [->|Hfit]; [lia|]. result_inv.
  eexists count, _, None. split_and!; [lia..|eassumption|].
  congruence.
Qed.

Lemma names_pass_good names text :
  names_pass root id set offset page_limit budget names = Ok (Some text) → good_page text.
Proof.
  unfold names_pass. intros Hs. apply bind_Ok in Hs as (low & Hlarge & Hs).
  apply largest_fitting_Ok in Hlarge as (Hle & Hlow & _).
  destruct (Nat.ltb_spec 0 low) as [Hpos|_].
  - apply bind_Ok in Hs as (named & Hnamed & Hs).
    destruct (fits budget named) eqn:Hfn.
    + injection Hs as <-. by eexists low, _, None.
    + result_inv. destruct Hlow as [->|Hfit]; [lia|]. unfold fits_render in Hfit. result_inv.
      eexists low, _, None. split_and!; [lia..|eassumption|]. congruence.
  - destruct (Nat.ltb_spec 0 cap); [|done]. destruct (bool_decide _); [|done]. cbn [andb] in Hs.
    apply bind_Ok in Hs as (value & _ & Hs). apply bind_Ok in Hs as (clow & _ & Hs).
    destruct (0 <? candidate_total value); [|done].
    apply bind_Ok in Hs as (t & Ht & Hs). destruct (fits budget t) eqn:Hft; [|done].
    injection Hs as <-. by eexists 1, _, (Some clow).
Qed.

Lemma page_loaded_good text :
  page_loaded root id set offset page_limit budget = Ok text →
  offset ≤ length (set_hits set) ∧ fits budget text = true ∧
  (good_page text ∨
   available set offset = 0 ∧ render root id set offset page_limit budget 0 false None = Ok text).
Proof.
  unfold page_loaded. intros Hs. destruct (Nat.ltb_spec (length (set_hits set)) offset); [done|].
  assert (∀ t, good_page t → offset ≤ length (set_hits set) ∧ fits budget t = true ∧
    (good_page t ∨ available set offset = 0 ∧
      render root id set offset page_limit budget 0 false None = Ok t)) as Hgood.
  { intros t Ht. split; [done|]. split; [|by left]. by destruct Ht as (?&?&?&?&?&?). }
  apply bind_Ok in Hs as ([t|] & Hfirst & Hs).
  { injection Hs as <-. by apply Hgood, snippet_page_good. }
  apply bind_Ok in Hs as ([t|] & Hplain & Hs).
  { injection Hs as <-. by eapply Hgood, names_pass_good. }
  apply bind_Ok in Hs as ([t|] & Hnamed & Hs).
  { injection Hs as <-. by eapply Hgood, names_pass_good. }
  destruct (Nat.eqb_spec (available set offset) 0); [|done].
  apply bind_Ok in Hs as (t & Ht & Hs). destruct (fits budget t) eqn:Hft; [|done].
  injection Hs as <-. auto.
Qed.

(** A window of one entry without names and snippets that renders and fits is
    enough for a page. *)
Lemma names_pass_complete :
  (∀ count detail, is_ok (render_at count detail None) = true) →
  0 < cap → fits_render root id set offset page_limit budget 1 false None = Ok true →
  ∃ text, names_pass root id set offset page_limit budget false = Ok (Some text).
Proof.
  intros Hok Hcap Hone. unfold names_pass.
  assert (∀ count names, ∃ t, render root id set offset page_limit budget count names None = Ok t)
    as Hr.
  { intros count names. unfold render.
    specialize (Hok count {| Hits.names := names; snippets := false |}).
    destruct (render_detail _ _ _ _ _ _ _ _ _); [eauto|done]. }
  destruct (fit_loop_total cap 0 cap
    (λ count, fits_render root id set offset page_limit budget count false None)) as [n Hn].
  { intros c _. unfold fits_render. by destruct (Hr c false) as [t ->]. }
  unfold largest_fitting. rewrite Hn. cbn [mbind result_bind].
  apply fit_loop_spec in Hn as (Hle & _ & Hhigh); [|lia..].
  destruct (Nat.ltb_spec 0 n) as [Hpos|Hz].
  - destruct (Hr n true) as [t ->]. cbn [mbind result_bind].
    destruct (fits budget t); [eauto|]. destruct (Hr n false) as [t' ->]. cbn. eauto.
  - assert (n = 0) as -> by lia. destruct Hhigh as [Hh|Hh]; [lia|]. congruence.
Qed.
End PageFacts.

(** C2. A page never exceeds its token budget: whatever [page] returns, it is a
    rendering of a window of the stored set that starts at the requested offset
    and fits the budget; the window holds at least one entry and at most the
    page limit, unless the offset is already the end of the set. *)
Theorem page_within_budget `{Rendering} (root : str) (load : str → result StoredResultSet)
    (id : str) (offset limit : nat) (budget : OutputBudget) (text : str) :
  page root load id offset limit budget = Ok text →
  ∃ set count detail trimmed, load id = Ok set ∧
    token_count text ≤ Pages.limit budget ∧
    render_detail root id set offset limit budget count detail trimmed = Ok text ∧
    offset + count ≤ length (set_hits set) ∧
    (1 ≤ count ≤ limit ∨ count = 0 ∧ offset = length (set_hits set)).
Proof.
  unfold page. intros Hp. apply bind_Ok in Hp as (set & Hset & Hp). exists set.
  apply page_loaded_good in Hp as (Hoff & Hfit & [(count & detail & trimmed & Hc & Hr & _)|[Ha Hr]]).
  - exists count, detail, trimmed. apply Nat.leb_le in Hfit. unfold max_count, available in Hc.
    split_and!; [done..|lia|left; lia].
  - exists 0, {| names := false; snippets := false |}, None. apply Nat.leb_le in Hfit. unfold available in Ha.
    split_and!; [done..|lia|right; split; [done|lia]].
Qed.

(** A page is refused only when it has to be: if every window renders and the
    next entry alone, without name and snippet, fits the budget, [page] returns a
    page. *)
Theorem page_exists `{Rendering} (root : str) (load : str → result StoredResultSet)
    (id : str) (offset limit : nat) (budget : OutputBudget) (set : StoredResultSet) :
  load id = Ok set → offset < length (set_hits set) → 0 < limit → 0 < Pages.limit budget →
  (∀ count detail, is_ok (render_detail root id set offset limit budget count detail None) = true) →
  fits_render root id set offset limit budget 1 false None = Ok true →
  ∃ text, page root load id offset limit budget = Ok text.
Proof.
  intros Hset Hoff Hl Hb Hok Hone. unfold page. rewrite Hset. cbn [mbind result_bind].
  unfold page_loaded. destruct (Nat.ltb_spec (length (set_hits set)) offset); [lia|].
  assert (0 < max_count set offset limit budget) as Hcap by (unfold max_count, available; lia).
  assert (∃ o, snippet_page (max_count set offset limit budget) budget
    (λ count detail, render_detail root id set offset limit budget count detail None) = Ok o)
    as [[t|] ->].
  { assert (∀ c d, ∃ t, render_detail root id set offset limit budget c d None = Ok t) as Hr.
    { intros c d. specialize (Hok c d). destruct (render_detail _ _ _ _ _ _ _ _ _); [eauto|done]. }
    unfold snippet_page. destruct (_ =? 0); [eauto|].
    edestruct (fit_loop_total (max_count set offset limit budget) 0) as [n Hn];
      [|unfold largest_fitting; rewrite Hn; cbn].
    - intros c _. cbn. by destruct (Hr c {| names := true; snippets := true |}) as [t ->].
    - destruct (_ <=? n); [|eauto].
      destruct (Hr n {| names := true; snippets := true |}) as [t ->]. cbn. eauto. }
  { cbn. eauto. }
  cbn [mbind result_bind].
  destruct (names_pass_complete root id set offset limit budget Hok Hcap Hone) as [t ->].
  cbn. eauto.
Qed.

(** Continuing a page: the [SET@OFFSET] cursor a page prints is parsed back by
    [more] to exactly the window after that page, so a chain of pages visits
    every entry once and in order. *)
Theorem more_continues_page `{UuidLaws uuid, Rendering} (root : str)
    (load : str → result StoredResultSet) (set : uuid) (offset count total limit : nat)
    (budget : OutputBudget) (cursor : str) :
  in_usize (Z.of_nat total) →
  next_cursor (uuid_simple set) offset count total = Some cursor →
  offset + count < total ∧
  more root load cursor limit budget = page root load (uuid_simple set) (offset + count) limit budget.
Proof.
  unfold next_cursor, in_usize. intros Hu. destruct (Nat.ltb_spec (offset + count) total); [|done].
  intros Hc. split; [done|]. unfold more.
  assert (cursor = cursor_to_string {| cursor_set := set; cursor_offset := Z.of_nat (offset + count) |})
    as -> by (injection Hc as <-; reflexivity).
  rewrite cursor_parse_print by (unfold in_usize; simpl; lia).
  cbn [mbind result_bind cursor_set cursor_offset]. by rewrite Nat2Z.id.
Qed.

(** Witnesses for the page theorems: a tokenizer that counts bytes, a printer
    that ignores its value, and a set of two commits. *)
Module PageExample.
#[global] Instance rendering : Rendering := {|
  token_count := @length ascii; json_to_string := λ _, lit "{}"; entry_to_value := λ _, JNull |}.
Definition commit (n : string) : ResultEntry :=
  Commit {| commit_handle := lit n; commit_repository := lit "r";
    commit_commit := {| GitOid.hex := []; GitOid.len := 0 |}; commit_parent := None;
    commit_summary := lit "s"; commit_committer_time := 0 |}.
Definition set : StoredResultSet :=
  {| set_generation := 1; set_coverage := JNull; set_truncated := false;
     set_hits := [commit "a"; commit "b"] |}.
Definition load (_ : str) : result StoredResultSet := Ok set.
Definition budget : OutputBudget := with_format (budget_new 100) FormatLines.
Definition first_page : str := lit "a" ++ [tab] ++ lit "commit:" ++ [tab] ++ lit "s" ++ [nl] ++
  lit "coverage: indexed 0/0" ++ [nl] ++ lit "next: more x@1" ++ [nl] ++
  lit "hint: -n N raises the page size" ++ [nl].
End PageExample.

Lemma page_within_budget_witness :
  page (lit "/r") PageExample.load (lit "x") 0 1 PageExample.budget = Ok PageExample.first_page ∧
  length PageExample.first_page ≤ 100.
Proof.
  split; [vm_compute; reflexivity|].
  destruct (page_within_budget (lit "/r") PageExample.load (lit "x") 0 1 PageExample.budget
    PageExample.first_page) as (set & count & detail & trimmed & _ & Hfit & _);
    [vm_compute; reflexivity|exact Hfit].
Defined.

Lemma page_exists_witness :
  ∃ text, page (lit "/r") PageExample.load (lit "x") 1 5 PageExample.budget = Ok text.
Proof.
  apply (page_exists (lit "/r") PageExample.load (lit "x") 1 5 PageExample.budget PageExample.set);
    [reflexivity|vm_compute; lia|lia|vm_compute; lia|done|vm_compute; reflexivity].
Defined.

Lemma more_continues_page_witness :
  more (uuid := SimpleUuid.t) (lit "/r") PageExample.load
    (lit "00000000000000000000000000000000@1") 5 PageExample.budget
  = page (lit "/r") PageExample.load (lit "00000000000000000000000000000000") 1 5 PageExample.budget.
Proof.
  destruct (more_continues_page (uuid := SimpleUuid.t) (lit "/r") PageExample.load SimpleUuid.nil
    0 1 2 5 PageExample.budget (lit "00000000000000000000000000000000@1")) as [_ Hmore];
    [split; vm_compute; congruence|vm_compute; reflexivity|exact Hmore].
Defined.

(** ** Handles of a lines page *)

Lemma str_lines_cons line rest :
  nl ∉ line → str_lines (line ++ nl :: rest) = strip_cr line :: str_lines rest.
Proof.
  intros Hn. unfold str_lines. rewrite split_char_cons by done.
  cbn [lines_of]. pose proof (split_char_nonempty nl rest). by destruct (split_char nl rest).
Qed.

Lemma str_lines_no_nl s l : l ∈ str_lines s → nl ∉ l.
Proof.
  unfold str_lines. assert (∀ ps, (∀ p, p ∈ ps → nl ∉ p) → ∀ l, l ∈ lines_of ps → nl ∉ l) as Hgen.
  { induction ps as [|p ps IH]; intros Hp l' Hl; [by apply not_elem_of_nil in Hl|].
    destruct ps as [|q ps].
    - cbn in Hl. case_bool_decide; [by apply not_elem_of_nil in Hl|].
      apply list_elem_of_singleton in Hl as ->. apply Hp. set_solver.
    - change (lines_of (p :: q :: ps)) with (strip_cr p :: lines_of (q :: ps)) in Hl.
      apply elem_of_cons in Hl as [->|Hl]; [|apply IH; [set_solver|done]].
      unfold strip_cr. destruct (strip_suffix _ p) as [r|] eqn:E; simpl; [|apply Hp; set_solver].
      apply strip_suffix_Some in E as ->. specialize (Hp (r ++ [chr 13])). set_solver. }
  apply Hgen. apply split_char_no_sep.
Qed.

(** No line terminator in the fields that [entry_line] copies. *)
Definition one_line (s : str) : Prop := nl ∉ s.
Definition entry_one_line (member : option str) (entry : ResultEntry) : Prop :=
  one_line (default [] member) ∧
  match entry with
  | LiveSource h => one_line (hit_path h) ∧ one_line (hit_name h) ∧
      one_line (default [] (hit_resolution h)) ∧
      one_line (default [] (snippet_text <$> hit_snippet h))
  | Commit c => one_line (oid_display (commit_commit c))
  | Change c => one_line (change_status c) ∧ one_line (change_name c) ∧
      one_line (default [] (source_path <$> change_after c)) ∧
      one_line (default [] (source_path <$> change_before c))
  end.

Lemma digits_go_digits f n acc :
  Forall (λ c, is_ascii_digit c = true) acc → Forall (λ c, is_ascii_digit c = true) (digits_go f n acc).
Proof.
  revert n acc. induction f as [|f IH]; intros n acc Ha; cbn [digits_go]; [done|].
  assert (Forall (λ c, is_ascii_digit c = true) (digit_char (n mod 10) :: acc)) as Hd.
  { constructor; [|done]. apply digit_char_spec, Z.mod_pos_bound. lia. }
  destruct (n <? 10)%Z; [done|by apply IH].
Qed.

Lemma show_nat_one_line n : nl ∉ show_nat n.
Proof.
  intros Hin. pose proof (digits_go_digits 20 (Z.of_nat n) [] (Forall_nil_2 _)) as Hd.
  rewrite Forall_forall in Hd. by specialize (Hd _ Hin).
Qed.

Lemma lit_one_line s : forallb (λ c, negb (c =c nl)) (lit s) = true → nl ∉ lit s.
Proof.
  intros Hf Hin. rewrite forallb_forall in Hf. apply list_elem_of_In in Hin.
  apply Hf in Hin. by rewrite bool_decide_eq_true_2 in Hin.
Qed.

(** Solves [nl ∉ a ++ b ++ ...] from the pieces. *)
Ltac one_line :=
  repeat first [done | apply show_nat_one_line | apply lit_one_line; reflexivity
    | apply not_elem_of_nil | apply not_elem_of_app; split
    | apply not_elem_of_cons; split; [done|] ].

(** An entry's text: its handle, a tab, one line, and perhaps an indented line. *)
Lemma entry_line_shape entry member detail :
  entry_one_line member entry →
  ∃ tail snippet, entry_line entry member detail = entry_handle entry ++ (tab :: tail ++ snippet) ∧
    (nl ∉ tail) ∧ (snippet = [] ∨ ∃ s, snippet = (nl :: " "%char :: s) ∧ (nl ∉ s)).
Proof.
  intros [Hm Hentry]. unfold entry_line.
  set (prefix := match member with Some m => _ | None => _ end).
  assert (nl ∉ prefix) as Hprefix.
  { unfold prefix. destruct member; [|apply not_elem_of_nil]. simpl in Hm. one_line. }
  clearbody prefix. destruct entry as [h|c|c]; unfold one_line in *; cbn [entry_handle].
  - destruct Hentry as (Hpath & Hname & Hres & Hsn).
    set (named := names detail && _ && _ && _). clearbody named.
    exists (prefix ++ hit_path h ++ lit ":" ++ show_nat (hit_start_line h) ++ lit "-" ++
      show_nat (hit_end_line h) ++ (if named then [tab] ++ hit_name h else []) ++
      (match hit_resolution h with Some r => [tab] ++ lit "resolution=" ++ r | None => [] end) ++
      (match hit_repeats h with Some r => [tab; chr 195; chr 151] ++ show_nat r | None => [] end)).
    exists (if snippets detail then match hit_snippet h with
      | Some s => ([nl] ++ lit "  " ++ show_nat (snippet_line s) ++ lit ": " ++ snippet_text s)
      | None => [] end else []).
    split_and!.
    + destruct named, (hit_resolution h), (hit_repeats h), (snippets detail), (hit_snippet h);
        rewrite ?app_nil_r; by rewrite <-?app_assoc.
    + destruct named, (hit_resolution h), (hit_repeats h); one_line.
    + destruct (snippets detail); [|by left]. destruct (hit_snippet h) as [s|]; [right|by left].
      eexists. split; [reflexivity|]. simpl in Hsn. one_line.
  - exists (lit "commit:" ++ oid_display (commit_commit c) ++ [tab] ++
      default [] (head (str_lines (commit_summary c)))), [].
    rewrite app_nil_r. split_and!; [done| |by left]. one_line.
    destruct (str_lines (commit_summary c)) as [|l ls] eqn:E; [apply not_elem_of_nil|].
    apply (str_lines_no_nl (commit_summary c)). rewrite E. apply elem_of_cons. by left.
  - destruct Hentry as (Hst & Hname & Ha & Hb).
    eexists (lit "change:" ++ change_status c ++ [tab] ++ prefix ++ _ ++ [tab] ++ change_name c), [].
    rewrite app_nil_r. split_and!; [reflexivity| |by left]. one_line.
    destruct (change_after c); [done|]. destruct (change_before c); [done|]. apply not_elem_of_nil.
Qed.

Section HandleFacts.
Context {uuid : Type} `{UuidLaws uuid}.

Definition valid_handle (handle : str) : Prop :=
  ∃ h : ResultHandle uuid, in_usize (handle_ordinal h) ∧ (0 < handle_ordinal h)%Z ∧
    handle = handle_to_string h.

Lemma handle_no_char handle c :
  valid_handle handle → is_ascii_hexdigit c = false → is_ascii_digit c = false →
  c ≠ ":"%char → c ∉ handle.
Proof.
  intros (h & Hu & _ & ->) Hx Hd Hc. unfold handle_to_string.
  rewrite !not_elem_of_app. split_and!.
  - intros Hin. destruct (uuid_simple_hex (handle_set h)) as [_ Hf].
    rewrite Forall_forall in Hf. rewrite Hf in Hx; done.
  - simpl. set_solver.
  - by apply show_usize_no_char.
Qed.

Lemma handle_not_coverage handle rest :
  valid_handle handle → starts_with COVERAGE_KEY (handle ++ rest) = false.
Proof.
  intros (h & _ & _ & ->). destruct (starts_with _ _) eqn:E; [|done].
  apply starts_with_true in E as [r Hr]. unfold handle_to_string in Hr.
  destruct (uuid_simple_hex (handle_set h)) as [Hlen Hf].
  destruct (uuid_simple (handle_set h)) as [|c0 [|c1 s]]; [done..|].
  unfold COVERAGE_KEY in Hr. cbn in Hr. injection Hr as _ -> _.
  apply Forall_inv_tail, Forall_inv in Hf. by vm_compute in Hf.
Qed.

Lemma strip_cr_app p rest : chr 13 ∉ take 1 rest → rest ≠ [] → ∃ r, strip_cr (p ++ rest) = p ++ r ∧ take 1 r = take 1 rest.
Proof.
  intros Hc Hne. unfold strip_cr. destruct (strip_suffix [chr 13] (p ++ rest)) as [r|] eqn:E; simpl; [|eauto].
  apply strip_suffix_Some in E. destruct (exists_last Hne) as (rest' & x & ->).
  rewrite app_assoc in E. apply app_inj_tail in E as [<- ->]. exists rest'. split; [done|].
  destruct rest'; [|done]. simpl in Hc. set_solver.
Qed.

Lemma line_handle_entry handle tail :
  valid_handle handle → line_handle (handle ++ (tab :: tail)) = Some handle.
Proof.
  intros Hv. unfold line_handle.
  rewrite split_char_cons by (apply handle_no_char; done). cbn [head mbind option_bind].
  destruct Hv as (h & Hu & Hpos & ->). by rewrite handle_parse_print.
Qed.

(** No UUID text starts with a space. *)
Context (uuid_no_space : ∀ s, uuid_parse_str (" "%char :: s) = None).

Lemma line_handle_snippet s : line_handle (" "%char :: s) = None.
Proof.
  unfold line_handle. destruct (split_char tab (" "%char :: s)) as [|f fs] eqn:E; [done|].
  cbn [head mbind option_bind].
  assert (∃ f', f = " "%char :: f') as [f' ->].
  { change (split_char tab (" "%char :: s)) with
      (match split_char tab s with p :: ps => (" "%char :: p) :: ps | [] => [[" "%char]] end) in E.
    destruct (split_char tab s); injection E as <- _; eauto. }
  destruct (handle_from_str _) as [h|] eqn:Hh; [|done].
  apply handle_from_str_Ok in Hh as (a & b & Hab & _ & Ha & _).
  destruct a as [|c a]; simplify_eq/=. by rewrite uuid_no_space in Ha.
Qed.

Lemma emitted_handles_entry entry member detail rest :
  valid_handle (entry_handle entry) → entry_one_line member entry →
  emitted_handles (entry_line entry member detail ++ (nl :: rest))
    = entry_handle entry :: emitted_handles rest.
Proof.
  intros Hv Hl. unfold emitted_handles.
  destruct (entry_line_shape entry member detail Hl) as (tail & snippet & -> & Ht & Hs).
  assert (nl ∉ entry_handle entry) as Hnl by (apply handle_no_char; done).
  assert (∀ rest, omap line_handle (take_while (λ line, negb (starts_with COVERAGE_KEY line))
      (str_lines ((entry_handle entry ++ (tab :: tail)) ++ (nl :: rest))))
    = entry_handle entry :: omap line_handle (take_while
        (λ line, negb (starts_with COVERAGE_KEY line)) (str_lines rest))) as Hfirst.
  { intros r. rewrite str_lines_cons by one_line.
    destruct (strip_cr_app (entry_handle entry) (tab :: tail)) as (x & -> & Hx);
      [cbn; set_solver|done|].
    destruct x as [|d x]; [done|]. cbn in Hx. injection Hx as ->. cbn [take_while].
    rewrite handle_not_coverage by done. cbn [negb omap list_omap].
    by rewrite line_handle_entry. }
  destruct Hs as [->|(s & -> & Hs)].
  - rewrite app_nil_r. apply Hfirst.
  - rewrite <-(app_assoc _ (tab :: _ ++ _)).
    change ((tab :: tail ++ nl :: " "%char :: s) ++ nl :: rest)
      with (tab :: (tail ++ nl :: " "%char :: s) ++ nl :: rest).
    rewrite <-app_assoc. cbn [app].
    replace (entry_handle entry ++ tab :: tail ++ nl :: " "%char :: s ++ nl :: rest)
      with ((entry_handle entry ++ (tab :: tail)) ++ (nl :: " "%char :: s ++ nl :: rest))
      by by rewrite <-app_assoc.
    rewrite Hfirst. f_equal.
    change (" "%char :: s ++ nl :: rest) with ((" "%char :: s) ++ nl :: rest).
    rewrite str_lines_cons by one_line.
    destruct (strip_cr_app [] (" "%char :: s)) as (x & Hx & Hx1); [cbn; set_solver|done|].
    cbn [app] in Hx. rewrite Hx. destruct x as [|d x]; [done|]. cbn in Hx1. injection Hx1 as ->.
    cbn [take_while]. change (starts_with COVERAGE_KEY (" "%char :: x)) with false.
    cbn [negb omap list_omap]. by rewrite line_handle_snippet.
Qed.
End HandleFacts.

Lemma split_char_prefix c p s q qs :
  c ∉ p → split_char c s = q :: qs → split_char c (p ++ s) = (p ++ q) :: qs.
Proof.
  intros Hp Hs. induction p as [|d p IH]; [done|]. apply not_elem_of_cons in Hp as [Hd Hp].
  cbn [app split_char]. rewrite bool_decide_eq_false_2 by done. by rewrite IH.
Qed.

Lemma emitted_handles_footer `{UuidCrate uuid} coverage next truncated :
  emitted_handles (footer next truncated (COVERAGE_KEY ++ coverage ++ [nl])) = [].
Proof.
  assert (∃ rest, footer next truncated (COVERAGE_KEY ++ coverage ++ [nl]) = COVERAGE_KEY ++ rest)
    as [rest ->].
  { unfold footer. destruct next as [n|]; [destruct (hint n)|]; destruct truncated;
      rewrite <-?app_assoc; by eexists. }
  unfold emitted_handles, str_lines.
  assert (∃ p ps, split_char nl (COVERAGE_KEY ++ rest) = (COVERAGE_KEY ++ p) :: ps)
    as (p & ps & ->).
  { pose proof (split_char_nonempty nl rest) as Hne.
    destruct (split_char nl rest) as [|p ps] eqn:E; [done|]. exists p, ps.
    apply split_char_prefix; [by apply lit_one_line|done]. }
  assert (∀ q, starts_with COVERAGE_KEY (COVERAGE_KEY ++ q) = true) as Hsw by apply starts_with_app.
  destruct ps as [|q ps]; cbn [lines_of].
  - rewrite bool_decide_eq_false_2 by done. cbn [take_while]. by rewrite Hsw.
  - cbn [take_while].
    assert (starts_with COVERAGE_KEY (strip_cr (COVERAGE_KEY ++ p)) = true) as ->; [|done].
    unfold strip_cr. destruct (strip_suffix _ _) as [r|] eqn:E; cbn [default]; [|apply Hsw].
    apply strip_suffix_Some in E. destruct p as [|c p] using rev_ind.
    + by apply (f_equal (last)) in E; rewrite last_snoc in E.
    + rewrite app_assoc in E. apply app_inj_tail in E as [<- _]. apply Hsw.
Qed.

Lemma footer_app next truncated a b : footer next truncated (a ++ b) = a ++ footer next truncated b.
Proof.
  unfold footer. destruct next as [n|]; [destruct (hint n)|]; destruct truncated;
    by rewrite <-?app_assoc.
Qed.

(** Emitted handles: reading back a lines page gives exactly the handles of
    the entries it shows, in order, whatever snippets, names, cursors and hints
    surround them, as long as the copied fields hold no line terminator (and, as
    for the real parser, no UUID text starts with a space). *)
Theorem emitted_handles_page `{UuidLaws uuid} (entries : list (option str * ResultEntry))
    (detail : HitDetail) (coverage : str) (next : option NextCommand) (truncated : bool) :
  (∀ s, uuid_parse_str (" "%char :: s) = None) →
  Forall (λ '(member, entry), valid_handle (entry_handle entry) ∧ entry_one_line member entry) entries →
  emitted_handles (page_text entries detail coverage next truncated)
    = (λ '(_, entry), entry_handle entry) <$> entries.
Proof.
  intros Hspace Hall. unfold page_text. rewrite footer_app.
  induction Hall as [|[member entry] entries [Hv Hl] _ IH]; [apply emitted_handles_footer|].
  rewrite bind_cons, <-!app_assoc. cbn [app]. rewrite emitted_handles_entry by done.
  rewrite IH. done.
Qed.

Lemma emitted_handles_page_witness :
  let handle := lit "00000000000000000000000000000000:1" in
  let hit := {| hit_handle := handle; hit_path := lit "src/a.rs"; hit_revision := None;
    hit_start := 0; hit_end := 10; hit_start_line := 3; hit_end_line := 9; hit_name := lit "run";
    hit_kind := lit "function"; hit_container := None; hit_provenance := None;
    hit_resolution := None; hit_candidates := []; hit_target := None;
    hit_snippet := Some {| snippet_line := 4; snippet_text := lit "fn run() {" |};
    hit_repeats := None |} in
  emitted_handles (uuid := SimpleUuid.t) (page_text [(None, LiveSource hit)]
    {| names := true; snippets := true |} (lit "indexed 1/1") None true) = [handle].
Proof.
  intros handle hit.
  apply (emitted_handles_page (uuid := SimpleUuid.t) [(None, LiveSource hit)]).
  - intros s. cbn [uuid_parse_str SimpleUuid.crate]. unfold SimpleUuid.parse.
    destruct (Bool.bool_dec _ true) as [Hs|Hs]; [|reflexivity].
    exfalso. unfold SimpleUuid.is_text in Hs. apply andb_prop in Hs as [_ Hs]. discriminate Hs.
  - constructor; [|constructor]. split.
    + exists {| handle_set := SimpleUuid.nil; handle_ordinal := 1 |}.
      split; [split; vm_compute; congruence|]. split; [vm_compute; congruence|reflexivity].
    + unfold entry_one_line, one_line. split_and!; apply (bool_decide_eq_false_1 _); reflexivity.
Defined.
