(* ===== verification/ResultStore.v ===== *)
(** * The result-set database

    Models [src/src/results/result_set_store.rs] and the lookups of
    [src/src/results.rs].  The table [result_sets] is a list of rows; [save] is
    one immediate transaction.  The [uuid] crate, the clock and the JSON codec
    are parameters. *)
From Stdlib Require Import Ascii String ZArith Lia Permutation Sorted.
From stdpp Require Import base numbers list gmap strings sorting.
From S2P Require Import Prelude Order Text Identity Hits.

Definition MAX_BYTES : Z := 32 * 1024 * 1024.
Definition MAX_HITS : nat := 100 * 100.
Definition MAX_SETS : nat := 50.
Definition TTL_SECONDS : Z := 600.

Definition blen (s : str) : Z := Z.of_nat (length s).

Record Row := { row_id : str; created : Z; expires : Z; payload : str }.
#[export] Instance row_eq_dec : EqDecision Row.
Proof. solve_decision. Defined.

Definition row_compare : Row → Row → comparison :=
  cmp_then (cmp_on created Z.compare) (cmp_on row_id str_compare).

Definition total_payload (rows : list Row) : Z := foldr (λ r n, blen (payload r) + n)%Z 0%Z rows.

(** [count <= MAX_SETS && bytes <= MAX_BYTES]. *)
Definition within_limits (rows : list Row) : bool :=
  (length rows <=? MAX_SETS) && (total_payload rows <=? MAX_BYTES)%Z.

(** [DELETE ... WHERE id=(SELECT id ... WHERE id != ?1 ORDER BY created,id LIMIT 1)]. *)
Definition delete_oldest (id : str) (rows : list Row) : list Row :=
  match sort_by row_compare (filter (λ r, row_id r ≠ id) rows) with
  | [] => rows
  | oldest :: _ => filter (λ r, row_id r ≠ row_id oldest) rows
  end.

(** The eviction loop; each iteration deletes a row, so the number of rows is
    enough fuel. *)
Fixpoint evict (fuel : nat) (id : str) (rows : list Row) : list Row :=
  match fuel with
  | O => rows
  | S fuel' => if within_limits rows then rows else evict fuel' id (delete_oldest id rows)
  end.

Definition with_hits (set : StoredResultSet) (hits : list ResultEntry) (truncated : bool)
    : StoredResultSet :=
  {| set_generation := set_generation set; set_coverage := set_coverage set;
     set_truncated := truncated; set_hits := hits |}.

Section Store.
Context {uuid : Type} `{UuidCrate uuid}.
Context (to_string : StoredResultSet → str) (from_str : str → result StoredResultSet).

(** [hits.len() * MAX_BYTES / payload.len()], less one. *)
Definition keep_count (hits : nat) (bytes : Z) : nat :=
  Z.to_nat (saturating_sub (Z.of_nat hits * MAX_BYTES / bytes) 1).

(** The loop that cuts hits until the payload fits; each iteration keeps
    strictly fewer, so the number of hits is enough fuel. *)
Fixpoint shrink (fuel : nat) (set : StoredResultSet) : StoredResultSet :=
  match fuel with
  | O => set
  | S fuel' =>
      let payload := to_string set in
      if (MAX_BYTES <? blen payload)%Z && negb (length (set_hits set) =? 0) then
        shrink fuel' (with_hits set
          (take (keep_count (length (set_hits set)) (blen payload)) (set_hits set)) true)
      else set
  end.

Definition assign_handles (id : str) (hits : list ResultEntry) : list ResultEntry :=
  imap (λ ordinal hit, handle_mut hit (id ++ lit ":" ++ show_nat (ordinal + 1))) hits.

(** The set that [save] stores, before its payload is checked. *)
Definition prepared (u : uuid) (set : StoredResultSet) : StoredResultSet :=
  let set := if MAX_HITS <? length (set_hits set)
             then with_hits set (take MAX_HITS (set_hits set)) true else set in
  let set := with_hits set (assign_handles (uuid_simple u) (set_hits set)) (set_truncated set) in
  shrink (length (set_hits set)) set.

(** [u] is the new UUID and [time] the clock of the transaction. *)
Definition save (rows : list Row) (u : uuid) (time : Z) (set : StoredResultSet)
    : result (str * list Row) :=
  let id := uuid_simple u in
  let payload := to_string (prepared u set) in
  if (MAX_BYTES <? blen payload)%Z
  then Err "result_cache_unavailable: metadata exceeds cache capacity"
  else
    let rows := filter (λ r, (time < expires r)%Z) rows in
    if bool_decide (id ∈ row_id <$> rows) then Err "UNIQUE constraint failed: result_sets.id"
    else
      let row := {| row_id := id; created := time; expires := time + TTL_SECONDS;
                    payload := payload |} in
      let rows := rows ++ [row] in
      Ok (id, evict (length rows) id rows).

Definition select_row (rows : list Row) (id : str) : option Row :=
  head (filter (λ r, row_id r = id) rows).

Definition load (rows : list Row) (time : Z) (id : str) : result StoredResultSet :=
  _ ← or_err "invalid_handle: expected immutable result-set identifier" (uuid_parse_str id);
  row ← or_err "expired_result: result set expired or was evicted; search again"
          (select_row rows id);
  _ ← ensure (negb (expires row <=? time)%Z) "expired_result: result set expired; search again";
  from_str (payload row).

Definition entry (rows : list Row) (time : Z) (handle : str) : result (Z * ResultEntry) :=
  handle ← handle_from_str handle;
  set ← load rows time (uuid_simple (handle_set handle));
  e ← or_err "invalid_handle: ordinal outside result set"
        (set_hits set !! Z.to_nat (handle_ordinal handle - 1));
  Ok (set_generation set, e).

(** [results::handle]: a live hit only. *)
Definition handle (rows : list Row) (time : Z) (text : str) : result (Z * Hit) :=
  '(generation, e) ← entry rows time text;
  match e with
  | LiveSource hit => Ok (generation, hit)
  | _ => Err "historical_result: historical entries are invalid for live context"
  end.
End Store.

(** ** Eviction *)

#[export] Instance row_compare_comparator : Comparator row_compare.
Proof. unfold row_compare. apply _. Qed.

Lemma delete_oldest_spec rows new :
  NoDup (row_id <$> rows) → new ∈ rows →
  delete_oldest (row_id new) rows = rows ∧ rows = [new] ∨
  ∃ oldest, oldest ∈ rows ∧ oldest ≠ new ∧
    (∀ r, r ∈ rows → r ≠ new → cmp_le row_compare oldest r) ∧
    (∀ r, r ∈ delete_oldest (row_id new) rows ↔ r ∈ rows ∧ r ≠ oldest) ∧
    NoDup (row_id <$> delete_oldest (row_id new) rows) ∧
    length (delete_oldest (row_id new) rows) < length rows.
Proof.
  intros Hnd Hnew. unfold delete_oldest.
  pose proof (sort_by_perm row_compare (filter (λ r, row_id r ≠ row_id new) rows)) as Hperm.
  pose proof (sort_by_sorted row_compare (filter (λ r, row_id r ≠ row_id new) rows)) as Hsorted.
  destruct (sort_by row_compare _) as [|oldest rest].
  - left. split; [done|]. apply Permutation_nil_l in Hperm. symmetry in Hperm.
    assert (∀ r, r ∈ rows → r = new) as Hall.
    { intros r Hr. destruct (decide (row_id r = row_id new)); [by apply (elem_of_same_key row_id rows)|].
      assert (r ∈ filter (λ r, row_id r ≠ row_id new) rows) as Hf by by apply list_elem_of_filter.
      rewrite Hperm in Hf. set_solver. }
    destruct rows as [|a [|b rows]]; [set_solver|f_equal; apply Hall; set_solver|].
    rewrite !fmap_cons in Hnd. apply NoDup_cons in Hnd as [Ha _].
    rewrite (Hall a), (Hall b) in Ha by set_solver. set_solver.
  - right. exists oldest.
    assert (∀ r, r ∈ oldest :: rest ↔ row_id r ≠ row_id new ∧ r ∈ rows) as Hin
      by (intros r; by rewrite Hperm, list_elem_of_filter).
    destruct (proj1 (Hin oldest) (list_elem_of_here _ _)) as [Hne Hold].
    split_and!; [done|by intros ->|..].
    + intros r Hr Hrn. assert (r ∈ oldest :: rest) as Hr'.
      { apply Hin. split; [|done]. intros ?. by apply Hrn, (elem_of_same_key row_id rows). }
      apply elem_of_cons in Hr' as [->|Hr']; [reflexivity|].
      apply StronglySorted_inv in Hsorted as [_ Hs]. rewrite Forall_forall in Hs. by apply Hs.
    + intros r. rewrite list_elem_of_filter. split; [|intros [? Hro]; split; [|done]].
      * intros [Hid Hr]. split; [done|]. by intros ->.
      * intros ?. by apply Hro, (elem_of_same_key row_id rows).
    + eapply sublist_NoDup; [exact Hnd|]. apply fmap_sublist, sublist_filter.
    + apply (length_filter_lt _ _ oldest); [done|]. by intros [].
Qed.

(** The rows [evict] leaves: within limits, the new row kept, and only the oldest
    other rows gone. *)
Lemma evict_spec fuel new rows :
  NoDup (row_id <$> rows) → new ∈ rows → (blen (payload new) ≤ MAX_BYTES)%Z → length rows ≤ fuel →
  let kept := evict fuel (row_id new) rows in
  within_limits kept = true ∧ new ∈ kept ∧ NoDup (row_id <$> kept) ∧
  (∀ r, r ∈ kept → r ∈ rows) ∧
  (∀ gone r, gone ∈ rows → gone ∉ kept → r ∈ kept → r ≠ new → cmp_le row_compare gone r).
Proof.
  intros Hnd Hnew Hp. revert rows Hnd Hnew. induction fuel as [|fuel IH]; intros rows Hnd Hnew Hlen.
  { destruct rows; [set_solver|simpl in Hlen; lia]. }
  cbn [evict]. destruct (within_limits rows) eqn:Hw; [split_and!; naive_solver|].
  destruct (delete_oldest_spec rows new Hnd Hnew)
    as [[_ ->]|(oldest & Hold & Hne & Hleast & Hin & Hnd' & Hlt)].
  { unfold within_limits, total_payload in Hw. cbn [length foldr] in Hw.
    rewrite (proj2 (Z.leb_le _ _)) in Hw by lia. done. }
  destruct (IH (delete_oldest (row_id new) rows)) as (Hlim & Hnk & Hndk & Hsub & Hgone);
    [done|by apply Hin|lia|].
  split_and!; [done..| |].
  - intros r Hr. by apply Hin, Hsub.
  - intros gone r Hg Hng Hr Hrn. destruct (decide (gone = oldest)) as [->|Hgo].
    + apply Hleast; [|done]. by apply Hin, Hsub.
    + apply Hgone; [by apply Hin|done..].
Qed.

(** ** The payload loop *)

Lemma keep_count_lt hits bytes : hits ≠ 0 → (MAX_BYTES < bytes)%Z → keep_count hits bytes < hits.
Proof.
  intros Hh Hb. unfold keep_count, saturating_sub.
  assert (Z.of_nat hits * MAX_BYTES / bytes < Z.of_nat hits)%Z; [|lia].
  unfold MAX_BYTES in *. apply Z.div_lt_upper_bound; [lia|]. nia.
Qed.

Section ShrinkFacts.
Context (to_string : StoredResultSet → str).

Lemma shrink_spec fuel set :
  length (set_hits set) ≤ fuel →
  let out := shrink to_string fuel set in
  ((blen (to_string out) ≤ MAX_BYTES)%Z ∨ set_hits out = []) ∧
  ∃ k, set_hits out = take k (set_hits set) ∧
    set_generation out = set_generation set ∧ set_coverage out = set_coverage set ∧
    (out = set ∨ set_truncated out = true).
Proof.
  revert set. induction fuel as [|fuel IH]; intros set Hlen.
  { simpl. split; [right; destruct (set_hits set); [done|simpl in Hlen; lia]|].
    exists 0. split_and!; try done; [|by left].
    destruct (set_hits set); [done|simpl in Hlen; lia]. }
  cbn [shrink]. destruct (Z.ltb_spec MAX_BYTES (blen (to_string set))) as [Hbig|Hok]; cbn [andb].
  2: { split; [by left|]. exists (length (set_hits set)). rewrite firstn_all. naive_solver. }
  destruct (Nat.eqb_spec (length (set_hits set)) 0) as [Hz|Hnz]; cbn [negb].
  { apply nil_length_inv in Hz. split; [by right|]. exists 0. rewrite Hz. naive_solver. }
  pose proof (keep_count_lt _ _ Hnz Hbig) as Hk. set (keep := keep_count _ _) in *.
  destruct (IH (with_hits set (take keep (set_hits set)) true))
    as (Hend & k & Hh & Hg & Hc & Ht); [cbn; rewrite length_take; lia|].
  split; [done|]. exists (Nat.min k keep). rewrite Hh, Hg, Hc. cbn [with_hits set_hits].
  split_and!; [by rewrite take_take|done|done|right].
  destruct Ht as [->|Ht]; [done|exact Ht].
Qed.

Lemma shrink_id fuel set :
  (blen (to_string set) ≤ MAX_BYTES)%Z → shrink to_string fuel set = set.
Proof.
  intros Hb. destruct fuel; [done|]. cbn [shrink].
  by rewrite (proj2 (Z.ltb_ge _ _)) by lia.
Qed.
End ShrinkFacts.

(** ** Saving and reading back *)

Section SaveFacts.
Context {uuid : Type} `{UuidLaws uuid}.
Context (to_string : StoredResultSet → str) (from_str : str → result StoredResultSet).

Lemma prepared_spec u set :
  let out := prepared to_string u set in
  ((blen (to_string out) ≤ MAX_BYTES)%Z ∨ set_hits out = []) ∧
  ∃ k, k ≤ MAX_HITS ∧ set_hits out = take k (assign_handles (uuid_simple u) (set_hits set)) ∧
    set_generation out = set_generation set ∧ set_coverage out = set_coverage set.
Proof.
  assert (∀ l n id, assign_handles id (take n l) = take n (assign_handles id l)) as Htake.
  { intros l n id. apply list_eq. intros i. unfold assign_handles.
    rewrite list_lookup_imap. destruct (decide (i < n)).
    - by rewrite !lookup_take_lt, list_lookup_imap by done.
    - by rewrite !lookup_take_ge by lia. }
  unfold prepared. set (cut := if _ <? _ then _ else _).
  assert (set_generation cut = set_generation set ∧ set_coverage cut = set_coverage set ∧
    set_hits cut = take MAX_HITS (set_hits set)) as (Hg & Hc & Hh).
  { unfold cut. destruct (Nat.ltb_spec MAX_HITS (length (set_hits set))); [done|].
    by rewrite take_ge. }
  set (ready := with_hits _ _ _).
  destruct (shrink_spec to_string (length (set_hits ready)) ready)
    as (Hend & k & Hk & Hg' & Hc' & _); [done|].
  split; [done|]. exists (Nat.min k MAX_HITS). split_and!; [lia| |by rewrite Hg'|by rewrite Hc'].
  rewrite Hk. cbn [ready with_hits set_hits]. by rewrite Hh, Htake, take_take.
Qed.

(** Nothing is cut from a set within both bounds. *)
Lemma prepared_small u set :
  let ready := with_hits set (assign_handles (uuid_simple u) (set_hits set)) (set_truncated set) in
  length (set_hits set) ≤ MAX_HITS → (blen (to_string ready) ≤ MAX_BYTES)%Z →
  prepared to_string u set = ready.
Proof.
  intros ready Hl Hb. unfold prepared.
  destruct (Nat.ltb_spec MAX_HITS (length (set_hits set))); [lia|]. by apply shrink_id.
Qed.

Definition new_row (u : uuid) (time : Z) (set : StoredResultSet) : Row :=
  {| row_id := uuid_simple u; created := time; expires := time + TTL_SECONDS;
     payload := to_string (prepared to_string u set) |}.

Lemma save_Ok rows u time set id rows' :
  NoDup (row_id <$> rows) → save to_string rows u time set = Ok (id, rows') →
  let live := filter (λ r, (time < expires r)%Z) rows in
  let new := new_row u time set in
  id = uuid_simple u ∧ (blen (payload new) ≤ MAX_BYTES)%Z ∧
  NoDup (row_id <$> (live ++ [new])) ∧
  rows' = evict (length (live ++ [new])) (row_id new) (live ++ [new]).
Proof.
  intros Hnd. unfold save. destruct (Z.ltb_spec MAX_BYTES (blen (to_string (prepared to_string u set))));
    [done|]. case_bool_decide as Hin; [done|]. intros [= <- <-].
  split_and!; [done|done| |done].
  rewrite fmap_app, NoDup_app. split_and!.
  - eapply sublist_NoDup; [exact Hnd|]. apply fmap_sublist, sublist_filter.
  - intros x Hx Hx'. apply list_elem_of_singleton in Hx' as ->. by destruct Hin.
  - apply NoDup_singleton.
Qed.

(** The new row stays, and ids stay unique. *)
Lemma save_kept rows u time set id rows' :
  NoDup (row_id <$> rows) → save to_string rows u time set = Ok (id, rows') →
  id = uuid_simple u ∧ new_row u time set ∈ rows' ∧ NoDup (row_id <$> rows').
Proof.
  intros Hnd Hsave. apply save_Ok in Hsave as (-> & Hb & Hnd' & ->); [|done].
  destruct (evict_spec (length (filter (λ r, (time < expires r)%Z) rows ++ [new_row u time set]))
    (new_row u time set) (filter (λ r, (time < expires r)%Z) rows ++ [new_row u time set]))
    as (_ & Hnew & Hndk & _); [done|set_solver|done|done|done].
Qed.

Lemma select_row_unique rows row :
  NoDup (row_id <$> rows) → row ∈ rows → select_row rows (row_id row) = Some row.
Proof.
  intros Hnd Hr. unfold select_row.
  assert (row ∈ filter (λ r, row_id r = row_id row) rows) as Hf by by apply list_elem_of_filter.
  destruct (filter _ rows) as [|r rest] eqn:E; [set_solver|]. cbn [head]. f_equal.
  assert (r ∈ filter (λ r, row_id r = row_id row) rows) as [Hid Hin]%list_elem_of_filter
    by (rewrite E; apply elem_of_cons; by left).
  by apply (elem_of_same_key row_id rows).
Qed.

(** A saved row reads back as the set it holds until it expires. *)
Lemma load_new_row rows u time t set :
  from_str (to_string (prepared to_string u set)) = Ok (prepared to_string u set) →
  NoDup (row_id <$> rows) → new_row u time set ∈ rows → (t < time + TTL_SECONDS)%Z →
  load from_str rows t (uuid_simple u) = Ok (prepared to_string u set).
Proof.
  intros Hcodec Hnd Hrow Ht. unfold load. rewrite uuid_parse_simple. cbn [or_err mbind result_bind].
  pose proof (select_row_unique rows (new_row u time set) Hnd Hrow) as Hsel.
  cbn [new_row row_id] in Hsel. rewrite Hsel. cbn [or_err mbind result_bind].
  cbn [new_row expires payload]. rewrite (proj2 (Z.leb_gt _ _)) by lia. exact Hcodec.
Qed.

Lemma assign_handles_lookup id hits i :
  assign_handles id hits !! i =
    (λ hit, handle_mut hit (id ++ lit ":" ++ show_nat (i + 1))) <$> hits !! i.
Proof. apply list_lookup_imap. Qed.
End SaveFacts.

(** C1. Retention: after a successful [save] the table holds at most 50 sets and
    32 MiB of payload, the new set is in it, every other row is an old row that
    had not expired, and an unexpired row is evicted only if every other old row
    that stays is at least as new in [(created, id)] order. *)
Theorem save_retention `{UuidCrate uuid} (to_string : StoredResultSet → str)
    (rows rows' : list Row) (u : uuid) (time : Z) (set : StoredResultSet) (id : str) :
  NoDup (row_id <$> rows) → save to_string rows u time set = Ok (id, rows') →
  let new := new_row to_string u time set in
  length rows' ≤ MAX_SETS ∧ (total_payload rows' ≤ MAX_BYTES)%Z ∧ NoDup (row_id <$> rows') ∧
  new ∈ rows' ∧
  (∀ r, r ∈ rows' → r = new ∨ r ∈ rows ∧ (time < expires r)%Z) ∧
  (∀ gone r, gone ∈ rows → (time < expires gone)%Z → gone ∉ rows' → r ∈ rows' → r ≠ new →
     cmp_le row_compare gone r).
Proof.
  intros Hnd Hsave. apply save_Ok in Hsave as (-> & Hb & Hnd' & ->); [|done]. intros new.
  destruct (evict_spec (length (filter (λ r, (time < expires r)%Z) rows ++ [new])) new
    (filter (λ r, (time < expires r)%Z) rows ++ [new])) as (Hlim & Hnew & Hndk & Hsub & Hgone);
    [done|set_solver|done|done|].
  unfold within_limits in Hlim. bool_to_prop. split_and!; [done..| |].
  - intros r Hr. apply Hsub in Hr. rewrite elem_of_app, list_elem_of_filter, list_elem_of_singleton in Hr.
    naive_solver.
  - intros gone r Hg Hexp. apply Hgone. rewrite elem_of_app, list_elem_of_filter. auto.
Qed.

(** Reading back: a saved set is loaded again under its id until ten minutes
    have passed, with the first hits in order, each carrying the handle
    [SET:ORDINAL], and the same generation and coverage; a set of at most 10,000
    hits and 32 MiB comes back whole. *)
Theorem save_load `{UuidLaws uuid} (to_string : StoredResultSet → str)
    (from_str : str → result StoredResultSet) (rows rows' : list Row) (u : uuid) (time t : Z)
    (set : StoredResultSet) (id : str) :
  from_str (to_string (prepared to_string u set)) = Ok (prepared to_string u set) →
  NoDup (row_id <$> rows) → save to_string rows u time set = Ok (id, rows') → (t < time + TTL_SECONDS)%Z →
  ∃ out k, load from_str rows' t id = Ok out ∧ k ≤ MAX_HITS ∧
    set_hits out = take k (assign_handles id (set_hits set)) ∧
    set_generation out = set_generation set ∧ set_coverage out = set_coverage set ∧
    (let ready := with_hits set (assign_handles id (set_hits set)) (set_truncated set) in
     length (set_hits set) ≤ MAX_HITS → (blen (to_string ready) ≤ MAX_BYTES)%Z → out = ready).
Proof.
  intros Hcodec Hnd Hsave Ht.
  pose proof (save_kept to_string rows u time set id rows' Hnd Hsave) as (-> & Hnew & Hndk).
  destruct (prepared_spec to_string u set) as (_ & k & Hk & Hh & Hg & Hc).
  eexists _, k. split; [by apply (load_new_row to_string from_str _ u time)|].
  split_and!; [done..|]. intros. by apply prepared_small.
Qed.

(** Saved handles resolve: every handle of a saved set, looked up before the
    set expires, gives the generation it was saved at and exactly the entry that
    carries the handle. *)
Theorem saved_handle_resolves `{UuidLaws uuid} (to_string : StoredResultSet → str)
    (from_str : str → result StoredResultSet) (rows rows' : list Row) (u : uuid) (time t : Z)
    (set : StoredResultSet) (id : str) :
  from_str (to_string (prepared to_string u set)) = Ok (prepared to_string u set) →
  NoDup (row_id <$> rows) → save to_string rows u time set = Ok (id, rows') →
  (t < time + TTL_SECONDS)%Z →
  Forall (λ e, entry from_str rows' t (entry_handle e) = Ok (set_generation set, e))
    (set_hits (prepared to_string u set)).
Proof.
  intros Hcodec Hnd Hsave Ht.
  pose proof (save_kept to_string rows u time set id rows' Hnd Hsave) as (_ & Hnew & Hndk).
  destruct (prepared_spec to_string u set) as (_ & k & Hk & Hh & Hg & _).
  apply Forall_lookup. intros i e He.
  pose proof He as Hi. rewrite Hh in Hi. apply lookup_take_Some in Hi as [Hi Hik].
  rewrite assign_handles_lookup in Hi. destruct (set_hits set !! i) as [hit|]; [|done].
  set (h := {| handle_set := u; handle_ordinal := Z.of_nat (i + 1) |}).
  assert (entry_handle e = handle_to_string h) as ->.
  { injection Hi as <-. apply entry_handle_mut. }
  unfold entry. unfold MAX_HITS in Hk.
  rewrite handle_parse_print by (unfold in_usize, USIZE_MAX; cbn [h handle_ordinal]; lia).
  cbn [mbind result_bind h handle_set handle_ordinal].
  rewrite (load_new_row to_string from_str _ u time t set) by done. cbn [mbind result_bind].
  replace (Z.to_nat (Z.of_nat (i + 1) - 1)) with i by lia. rewrite He. cbn [or_err mbind result_bind]. by rewrite Hg.
Qed.

(** Saving succeeds whenever the new id is free and the set's metadata fits:
    the loop that drops hits ends with a payload within 32 MiB, and the eviction
    loop ends within the limits. *)
Theorem save_succeeds `{UuidLaws uuid} (to_string : StoredResultSet → str)
    (rows : list Row) (u : uuid) (time : Z) (set : StoredResultSet) :
  uuid_simple u ∉ row_id <$> rows →
  (∀ out, set_hits out = [] → (blen (to_string out) ≤ MAX_BYTES)%Z) →
  ∃ rows', save to_string rows u time set = Ok (uuid_simple u, rows').
Proof.
  intros Hfree Hmeta. unfold save.
  destruct (prepared_spec to_string u set) as ([Hb|He] & _); cbn zeta.
  2: apply Hmeta in He as Hb.
  all: rewrite (proj2 (Z.ltb_ge _ _)) by lia; rewrite bool_decide_eq_false_2; [by eexists|];
    intros Hin; apply Hfree; revert Hin; apply elem_of_subseteq;
    apply sublist_subseteq, fmap_sublist, sublist_filter.
Qed.

(** A table with one expired and one live row, and a set of two commits. *)
Module StoreExample.
Definition row (id : string) (created : Z) : Row :=
  {| row_id := lit id; created := created; expires := created + TTL_SECONDS; payload := lit "{}" |}.
Definition rows : list Row := [row "old" 0; row "live" 500].
Definition commit : ResultEntry :=
  Commit {| commit_handle := []; commit_repository := lit "r";
    commit_commit := {| GitOid.hex := []; GitOid.len := 0 |}; commit_parent := None;
    commit_summary := lit "s"; commit_committer_time := 0 |}.
Definition set : StoredResultSet :=
  {| set_generation := 7; set_coverage := JNull; set_truncated := false;
     set_hits := [commit; commit] |}.
Definition to_string (s : StoredResultSet) : str := show_nat (length (set_hits s)).
Definition from_str (s : str) : result StoredResultSet :=
  Ok (with_hits set (assign_handles (uuid_simple SimpleUuid.nil) [commit; commit]) false).
Definition rows' : list Row := [row "live" 500; new_row to_string SimpleUuid.nil 700 set].
Lemma nodup : NoDup (row_id <$> rows).
Proof. apply (bool_decide_unpack _). by vm_compute. Qed.
Lemma saved : save to_string rows SimpleUuid.nil 700 set = Ok (uuid_simple SimpleUuid.nil, rows').
Proof. by vm_compute. Qed.
End StoreExample.

Lemma save_retention_witness :
  length StoreExample.rows' ≤ MAX_SETS ∧ (total_payload StoreExample.rows' ≤ MAX_BYTES)%Z.
Proof.
  destruct (save_retention StoreExample.to_string StoreExample.rows StoreExample.rows' SimpleUuid.nil
    700 StoreExample.set (uuid_simple SimpleUuid.nil) StoreExample.nodup StoreExample.saved)
    as (Hlen & Hbytes & _). split; [exact Hlen|exact Hbytes].
Defined.

Lemma save_load_witness :
  ∃ out, load StoreExample.from_str StoreExample.rows' 1200 (uuid_simple SimpleUuid.nil) = Ok out ∧
    set_generation out = 7%Z.
Proof.
  destruct (save_load StoreExample.to_string StoreExample.from_str StoreExample.rows
    StoreExample.rows' SimpleUuid.nil 700 1200 StoreExample.set (uuid_simple SimpleUuid.nil))
    as (out & k & Hl & _ & _ & Hg & _);
    [reflexivity|exact StoreExample.nodup|exact StoreExample.saved|reflexivity|].
  exists out. split; [exact Hl|exact Hg].
Defined.

Lemma saved_handle_resolves_witness :
  Forall (λ e, entry StoreExample.from_str StoreExample.rows' 1200 (entry_handle e) = Ok (7%Z, e))
    (set_hits (prepared StoreExample.to_string SimpleUuid.nil StoreExample.set)).
Proof.
  apply (saved_handle_resolves StoreExample.to_string StoreExample.from_str StoreExample.rows
    StoreExample.rows' SimpleUuid.nil 700 1200 StoreExample.set (uuid_simple SimpleUuid.nil));
    [reflexivity|exact StoreExample.nodup|exact StoreExample.saved|reflexivity].
Defined.

Lemma save_succeeds_witness :
  ∃ rows', save StoreExample.to_string StoreExample.rows SimpleUuid.nil 700 StoreExample.set
    = Ok (uuid_simple SimpleUuid.nil, rows').
Proof.
  apply (save_succeeds StoreExample.to_string StoreExample.rows SimpleUuid.nil 700 StoreExample.set).
  - apply (bool_decide_eq_false_1 _). reflexivity.
  - intros out Hout. unfold StoreExample.to_string. rewrite Hout. vm_compute. congruence.
Defined.
