(* ===== verification/QueryShape.v ===== *)
(** * Query text: parsing, terms, shapes and path classes

    Models [Query::parse], [fts_terms], [query_terms] and [filename_score] of
    [src/src/search.rs], [src/src/search/language_filter.rs],
    [src/src/search/concept_query.rs] (query shapes), [src/src/search/path_class.rs]
    and [src/src/search/path_prior.rs].  The Unicode tables behind [char]'s
    predicates are a parameter; a [char] is its UTF-8 bytes. *)
From Stdlib Require Import Ascii String ZArith Lia Permutation.
From stdpp Require Import base numbers list gmap strings.
From S2P Require Import Prelude Order Text Paths PathFilter.

(** ** Characters *)

Class UnicodeTables := {
  is_alphanumeric : str → bool;
  is_alphabetic : str → bool;
  is_lowercase : str → bool;
  is_uppercase : str → bool;
  is_whitespace : str → bool;
  to_lowercase : str → str;   (* str::to_lowercase *)
}.
(** On ASCII the tables are the ASCII classes. *)
Class UnicodeLaws `{UnicodeTables} : Prop := {
  alphanumeric_ascii : ∀ a t, in_range 0 127 a = true →
    is_alphanumeric (a :: t) = is_ascii_alphanumeric a;
  whitespace_ascii : ∀ a t, is_ascii_alphanumeric a = true → is_whitespace (a :: t) = false;
}.

(** [str::chars] of well-formed text: a byte and the continuation bytes after it. *)
Fixpoint chars (s : str) : list str :=
  match s with
  | [] => []
  | c :: s' =>
      match chars s' with
      | (d :: ch) :: cs => if is_cont d then (c :: d :: ch) :: cs else [c] :: (d :: ch) :: cs
      | cs => [c] :: cs
      end
  end.

(** [str::split] with a character class. *)
Fixpoint split_class (f : str → bool) (cs : list str) : list str :=
  match cs with
  | [] => [[]]
  | c :: cs' =>
      if f c then [] :: split_class f cs'
      else match split_class f cs' with
           | p :: ps => (c ++ p) :: ps
           | [] => [c]
           end
  end.

(** [str::split_inclusive] with a character class: a final empty piece is dropped. *)
Fixpoint split_inclusive (f : str → bool) (cs : list str) : list str :=
  match cs with
  | [] => []
  | c :: cs' =>
      if f c then c :: split_inclusive f cs'
      else match split_inclusive f cs' with
           | p :: ps => (c ++ p) :: ps
           | [] => [c]
           end
  end.

(** [str::split] with a string separator. *)
Fixpoint split_str_go (fuel : nat) (sep s : str) : list str :=
  match fuel with
  | O => [s]
  | S f =>
      match find_sub sep s with
      | None => [s]
      | Some i => take i s :: split_str_go f sep (drop (i + length sep) s)
      end
  end.
Definition split_str (sep s : str) : list str := split_str_go (length s) sep s.

Section Text.
Context `{UnicodeTables}.

Definition trim_start (s : str) : str := concat (drop_while is_whitespace (chars s)).
Definition trim_end (s : str) : str :=
  concat (reverse (drop_while is_whitespace (reverse (chars s)))).
Definition trim (s : str) : str := trim_end (trim_start s).

Definition nonempty (s : str) : bool := negb (s =s []).

(** ** Terms *)

Definition query_terms (text : str) : list str :=
  to_lowercase <$> List.filter nonempty (split_class (λ c, negb (is_alphanumeric c)) (chars text)).

Definition term_char (c : str) : bool := is_alphanumeric c || (c =s lit "_").
Definition term_words (text : str) : list str :=
  List.filter nonempty (split_class (λ c, negb (term_char c)) (chars text)).

Definition dquote : ascii := chr 34.
(** [term.replace] of each quote by two quotes. *)
Definition escape_quotes (s : str) : str := s ≫= λ b, if b =c dquote then [dquote; dquote] else [b].
Definition fts_terms (text : str) : str :=
  join (lit " OR ") ((λ term, [dquote] ++ escape_quotes term ++ [dquote]) <$> term_words text).

Definition filename_score (path : str) (terms : list str) : nat :=
  if bool_decide (terms = []) then 1
  else
    let basename := default path (last (split_char "/" path)) in
    let stem := match rsplit_once "." basename with Some (stem, _) => stem | None => basename end in
    if bool_decide (query_terms stem = terms) then 3
    else if forallb (λ term, contains term (to_lowercase basename)) terms then 2
    else if existsb (λ term, contains term (to_lowercase path)) terms then 1
    else 0.

(** ** Query shapes *)

Record IdentifierToken := { id_name : str; id_qualifier : option str }.
Record ConceptQuery := {
  any_terms : option str;
  phrase : option str;
  all_terms : option str;
  identifier : option IdentifierToken;
  literal : bool;
}.

Fixpoint windows2 {A} (f : A → A → bool) (l : list A) : bool :=
  match l with
  | x :: ((y :: _) as l') => f x y || windows2 f l'
  | _ => false
  end.

Definition identifier_parse (text : str) : option IdentifierToken :=
  let segments := split_str (lit "::") text in
  let identifier_segment segment := nonempty segment && forallb term_char (chars segment) in
  if negb (forallb identifier_segment segments) || negb (existsb is_alphabetic (chars text)) then None
  else
    let camel := windows2 (λ a b, is_lowercase a && is_uppercase b) (chars text) in
    let digits := existsb (λ c, match c with [b] => is_ascii_digit b | _ => false end) (chars text) in
    if (length segments =? 1) && negb (contains (lit "_") text) && negb camel && negb digits then None
    else Some {| id_name := default [] (last segments);
                 id_qualifier := if 1 <? length segments
                                 then segments !! (length segments - 2) else None |}.

Definition inner (text : str) : str := drop 1 (take (length text - 1) text).
Definition is_literal (text : str) : bool :=
  (2 <=? length text) && starts_with [dquote] text && ends_with [dquote] text &&
  negb (contains [dquote] (inner text)).

Definition quote (s : str) : str := [dquote] ++ s ++ [dquote].

Definition concept_parse (text : str) : ConceptQuery :=
  let text := trim text in
  let literal := is_literal text in
  let body := if literal then inner text else text in
  let terms := term_words body in
  if bool_decide (terms = []) then
    {| any_terms := None; phrase := None; all_terms := None; identifier := None;
       literal := literal |}
  else
    let quoted := quote <$> terms in
    let phrase := if literal || (1 <? length terms) then Some (quote (join (lit " ") terms)) else None in
    if literal then
      {| any_terms := None; phrase := phrase; all_terms := None; identifier := None;
         literal := literal |}
    else
      {| any_terms := Some (fts_terms body);
         all_terms := if 1 <? length terms then Some (join (lit " AND ") quoted) else None;
         phrase := phrase; identifier := identifier_parse text; literal := literal |}.
End Text.

(** ** Language names *)

Definition INDEXED_LANGUAGES : list str :=
  lit <$> ["rust"; "typescript"; "javascript"; "csharp"; "php"; "luau"; "dreammaker"; "text"].

Definition language_aliases : list (str * str) :=
  prod_map lit lit <$> [("rs", "rust"); ("ts", "typescript"); ("tsx", "typescript");
    ("js", "javascript"); ("jsx", "javascript"); ("cs", "csharp"); ("c#", "csharp");
    ("phtml", "php"); ("lua", "luau"); ("dm", "dreammaker"); ("md", "text"); ("markdown", "text");
    ("toml", "text"); ("json", "text"); ("txt", "text")].

Definition canonical_language (value : str) : result str :=
  if value =s [] then Ok []
  else
    let lower := to_ascii_lowercase value in
    if bool_decide (lower ∈ INDEXED_LANGUAGES) then Ok lower
    else match List.find (λ '(alias, _), alias =s lower) language_aliases with
         | Some (_, name) => Ok name
         | None => Err "unknown_language"
         end.

(** ** The query grammar *)

Record Query := {
  text : str;
  path : PathFilter;
  language : str;
  kind : str;
  exact : bool;
  regex : bool;
}.

Section Parse.
Context `{UnicodeTables}.

(** One chunk: the query with its filters, and the free text so far. *)
Definition parse_chunk (st : PathFilter * str * str * str) (chunk : str)
    : result (PathFilter * str * str * str) :=
  let '(path, language, kind, text) := st in
  let word := trim_end chunk in
  match strip_prefix (lit "file:") word with
  | Some value => Ok (filter_include path value, language, kind, text)
  | None =>
  match strip_prefix (lit "-file:") word with
  | Some value => Ok (filter_exclude path value, language, kind, text)
  | None =>
  match strip_prefix (lit "lang:") word with
  | Some value => language ← canonical_language value; Ok (path, language, kind, text)
  | None =>
  match strip_prefix (lit "kind:") word with
  | Some value => Ok (path, language, value, text)
  | None => Ok (path, language, kind, text ++ chunk)
  end end end end.

Fixpoint parse_chunks (st : PathFilter * str * str * str) (chunks : list str)
    : result (PathFilter * str * str * str) :=
  match chunks with
  | [] => Ok st
  | chunk :: chunks => st ← parse_chunk st chunk; parse_chunks st chunks
  end.

Definition query_parse (input : str) : result Query :=
  '(path, language, kind, text) ←
    parse_chunks (filter_default, [], [], []) (split_inclusive is_whitespace (chars input));
  let text := trim text in
  let '(exact, text) := match strip_prefix (lit "sym:") text with
    | Some text => (true, text) | None => (false, text) end in
  let '(regex, text) := match strip_prefix (lit "re:") text with
    | Some text => (true, text) | None => (false, text) end in
  if (text =s []) && (exact || regex) then Err "invalid_query: empty prefixed query"
  else Ok {| text := text; path := path; language := language; kind := kind;
             exact := exact; regex := regex |}.
End Parse.

(** ** Path classes *)

Definition test_directory_at (components : list str) (index : nat) (directory : str) : bool :=
  if bool_decide (directory ∈ lit <$> ["tests"; "__tests__"; "spec"; "testdata"]) then true
  else (directory =s lit "test") && negb (bool_decide (components !! (index + 1) = Some (lit "src"))).

Definition is_test_path (path : str) : bool :=
  let path := to_ascii_lowercase path in
  let '(directories, file) := default ([], path) (rsplit_once "/" path) in
  let '(stem, extension) := default (file, []) (split_once "." file) in
  let components := split_char "/" path in
  existsb (λ b, b) (imap (test_directory_at components) (split_char "/" directories))
  || (stem =s lit "tests")
  || ends_with (lit "_tests") stem
  || contains (lit ".test.") file
  || contains (lit ".spec.") file
  || (ends_with (lit "_test") stem && ((extension =s lit "go") || (extension =s lit "py")))
  || (starts_with (lit "test_") stem && (extension =s lit "py"))
  || (ends_with (lit "_spec") stem && (extension =s lit "rb")).

Definition is_doc_pointer_path (path : str) : bool :=
  let path := to_ascii_lowercase path in
  ends_with (lit ".md") path || ends_with (lit ".markdown") path.

(** ** Path prior *)

Definition TEST_TERMS : list str := lit <$> ["test"; "tests"; "testing"; "spec"; "fixture"; "fixtures"].
Definition DOC_TERMS : list str :=
  lit <$> ["doc"; "docs"; "documentation"; "readme"; "markdown"; "md"; "agents"; "claude"; "guide"].

Record PathPrior := {
  demote_tests : bool;
  demote_docs : bool;
  exempt_named : bool;
  terms : list str;
}.

Definition selects_tests (value : str) : bool :=
  is_test_path value ||
  existsb (λ part, nonempty part && is_test_path (part ++ lit "/x")) (split_char "/" value).
Definition selects_docs (value : str) : bool :=
  is_doc_pointer_path value ||
  existsb (λ part, (part =s lit "doc") || (part =s lit "docs")) (split_char "/" value).

Section Prior.
Context `{UnicodeTables}.

Definition prior_for_query (query : Query) : PathPrior :=
  let terms := query_terms (text query) in
  let names (class : list str) := existsb (λ term, bool_decide (term ∈ class)) terms in
  let filters := to_ascii_lowercase <$> include (path query) in
  let listing := kind query =s lit "file" in
  {| demote_tests := negb listing && negb (names TEST_TERMS) && negb (existsb selects_tests filters);
     demote_docs := negb listing && negb (names DOC_TERMS) && negb (language query =s lit "text")
                    && negb (existsb selects_docs filters);
     exempt_named := match identifier (concept_parse (text query)) with
                     | None => true | Some _ => false end;
     terms := terms |}.

Definition prior_names (p : PathPrior) (path : str) : bool :=
  negb (bool_decide (terms p = [])) && (2 <=? filename_score path (terms p)).
Definition names_exactly (p : PathPrior) (path : str) : bool :=
  negb (bool_decide (terms p = [])) && (filename_score path (terms p) =? 3).

(** Whether [weight] is the demoted one. *)
Definition prior_demotes (p : PathPrior) (path : str) : bool :=
  ((demote_tests p && is_test_path path) || (demote_docs p && is_doc_pointer_path path))
  && negb (exempt_named p && prior_names p path).
End Prior.

(** ** Facts *)

Lemma chars_shape s c : c ∈ chars s → ∃ a t, c = a :: t ∧ Forall (λ b, is_cont b = true) t.
Proof.
  revert c. induction s as [|a s IH]; intros c Hc; cbn [chars] in Hc; [set_solver|].
  destruct (chars s) as [|[|d ch] cs] eqn:E.
  - apply list_elem_of_singleton in Hc as ->. eauto.
  - apply elem_of_cons in Hc as [->|Hc]; eauto.
  - destruct (is_cont d) eqn:Ed; apply elem_of_cons in Hc as [->|Hc].
    + exists a, (d :: ch). split; [done|]. constructor; [done|].
      destruct (IH (d :: ch)) as (? & ? & [= -> ->] & ?); [set_solver|done].
    + apply IH. set_solver.
    + eauto.
    + by apply IH.
Qed.

Lemma concat_chars s : concat (chars s) = s.
Proof.
  induction s as [|a s IH]; cbn [chars]; [done|].
  destruct (chars s) as [|[|d ch] cs]; [|by rewrite <-IH|destruct (is_cont d)]; simpl in *; by rewrite IH.
Qed.

(** The characters outside the class make up the pieces. *)
Lemma split_class_pieces f cs p b :
  p ∈ split_class f cs → b ∈ p → ∃ c, c ∈ cs ∧ f c = false ∧ b ∈ c.
Proof.
  revert p. induction cs as [|c cs IH]; intros p Hp Hb; cbn [split_class] in Hp.
  { apply list_elem_of_singleton in Hp as ->. set_solver. }
  destruct (f c) eqn:E.
  { apply elem_of_cons in Hp as [->|Hp]; [set_solver|]. destruct (IH p Hp Hb) as (d & ? & ? & ?). set_solver. }
  destruct (split_class f cs) as [|q qs] eqn:Eq.
  { apply list_elem_of_singleton in Hp as ->. exists c. set_solver. }
  apply elem_of_cons in Hp as [->|Hp].
  - apply elem_of_app in Hb as [Hb|Hb]; [exists c; set_solver|].
    destruct (IH q) as (d & ? & ? & ?); [set_solver|done|]. set_solver.
  - destruct (IH p) as (d & ? & ? & ?); [set_solver|done|]. set_solver.
Qed.

(** Words hold no quote. *)
Lemma term_words_no_quote `{UnicodeLaws} text w : w ∈ term_words text → w ≠ [] ∧ dquote ∉ w.
Proof.
  unfold term_words. rewrite list_elem_of_In, filter_In, <-list_elem_of_In. intros [Hw Hne].
  split; [by apply negb_true_iff, bool_decide_eq_false in Hne|]. intros Hq.
  destruct (split_class_pieces _ _ _ _ Hw Hq) as (c & Hc & Hf & Hqc).
  destruct (chars_shape _ _ Hc) as (a & t & -> & Ht).
  apply elem_of_cons in Hqc as [<-|Hqt].
  - unfold term_char in Hf. rewrite alphanumeric_ascii in Hf by done.
    change (is_ascii_alphanumeric dquote) with false in Hf.
    rewrite bool_decide_eq_false_2 in Hf by done. done.
  - rewrite Forall_forall in Ht. by specialize (Ht _ Hqt).
Qed.

(** The quoted strings of an FTS5 expression, as its tokenizer reads them: a quote
    opens a string, two quotes inside stand for one, and a single quote closes. *)
Fixpoint fts_strings (open : option str) (s : str) : list str :=
  match s with
  | [] => match open with Some acc => [acc] | None => [] end
  | c :: s' =>
      if c =c dquote then
        match open with
        | None => fts_strings (Some []) s'
        | Some acc =>
            match s' with
            | d :: s'' => if d =c dquote then fts_strings (Some (acc ++ [dquote])) s''
                          else acc :: fts_strings None s'
            | [] => [acc]
            end
        end
      else match open with
           | Some acc => fts_strings (Some (acc ++ [c])) s'
           | None => fts_strings None s'
           end
  end.

Lemma fts_strings_skip s rest : dquote ∉ s → fts_strings None (s ++ rest) = fts_strings None rest.
Proof.
  induction s as [|c s IH]; intros Hs; [done|]. apply not_elem_of_cons in Hs as [Hc Hs].
  cbn [app fts_strings]. rewrite bool_decide_eq_false_2 by done. by apply IH.
Qed.

Lemma fts_strings_word acc s rest :
  dquote ∉ s → fts_strings (Some acc) (s ++ rest) = fts_strings (Some (acc ++ s)) rest.
Proof.
  revert acc. induction s as [|c s IH]; intros acc Hs; [by rewrite app_nil_r|].
  apply not_elem_of_cons in Hs as [Hc Hs]. cbn [app fts_strings].
  rewrite bool_decide_eq_false_2 by done. rewrite IH by done. by rewrite <-app_assoc.
Qed.

Lemma fts_strings_quote s rest :
  dquote ∉ s → (∀ r, rest ≠ dquote :: r) →
  fts_strings None (quote s ++ rest) = s :: fts_strings None rest.
Proof.
  intros Hs Hr. unfold quote. rewrite <-!app_assoc. cbn [app fts_strings].
  rewrite bool_decide_eq_true_2 by done. rewrite fts_strings_word by done. cbn [app fts_strings].
  rewrite bool_decide_eq_true_2 by done. destruct rest as [|d rest]; [done|].
  rewrite bool_decide_eq_false_2; [done|]. intros ->. by eapply Hr.
Qed.

Lemma fts_strings_join sep ws :
  dquote ∉ sep → sep ≠ [] → Forall (λ w, dquote ∉ w) ws →
  fts_strings None (join sep (quote <$> ws)) = ws.
Proof.
  intros Hsep Hne. induction 1 as [|w ws Hw Hws IH]; [done|].
  destruct ws as [|w' ws].
  - change (join sep (quote <$> [w])) with (quote w). rewrite <-(app_nil_r (quote w)).
    by rewrite fts_strings_quote.
  - change (join sep (quote <$> w :: w' :: ws)) with (quote w ++ sep ++ join sep (quote <$> w' :: ws)).
    rewrite fts_strings_quote; [|done|].
    + by rewrite fts_strings_skip, IH.
    + intros r E. destruct sep as [|c sep]; [done|]. injection E as -> _. set_solver.
Qed.

Lemma escape_quotes_id s : dquote ∉ s → escape_quotes s = s.
Proof.
  induction s as [|c s IH]; intros Hs; [done|]. apply not_elem_of_cons in Hs as [Hc Hs].
  unfold escape_quotes. rewrite bind_cons, bool_decide_eq_false_2 by done.
  cbn [app]. f_equal. by apply IH.
Qed.

Lemma join_no_quote sep ws :
  dquote ∉ sep → Forall (λ w, dquote ∉ w) ws → dquote ∉ join sep ws.
Proof.
  intros Hsep. induction 1 as [|w ws Hw Hws IH]; [apply not_elem_of_nil|].
  destruct ws as [|w' ws]; [done|].
  change (join sep (w :: w' :: ws)) with (w ++ sep ++ join sep (w' :: ws)).
  by rewrite !not_elem_of_app.
Qed.

(** Query text cannot escape its FTS5 quoting: read back the way FTS5 reads
    quoted strings, the any-term and all-terms expressions are exactly the
    query's words and the phrase expression is one string, the words joined by
    spaces; a literal query runs only its phrase. *)
Theorem concept_query_quoting `{UnicodeLaws} (input : str) :
  let q := concept_parse input in
  let words := term_words (if literal q then inner (trim input) else trim input) in
  (∀ e, any_terms q = Some e → fts_strings None e = words) ∧
  (∀ e, all_terms q = Some e → fts_strings None e = words ∧ 1 < length words) ∧
  (∀ e, phrase q = Some e → fts_strings None e = [join (lit " ") words]) ∧
  (literal q = true → any_terms q = None ∧ all_terms q = None ∧ identifier q = None).
Proof.
  assert (∀ t, Forall (λ w, dquote ∉ w) (term_words t)) as Hno.
  { intros t. apply Forall_forall. intros w Hw. by apply term_words_no_quote in Hw as [_ ?]. }
  assert (∀ t, fts_strings None (fts_terms t) = term_words t) as Hany.
  { intros t. unfold fts_terms.
    assert ((λ term, [dquote] ++ escape_quotes term ++ [dquote]) <$> term_words t
      = quote <$> term_words t) as ->.
    { apply list_fmap_ext. intros i w Hw%list_elem_of_lookup_2. unfold quote.
      apply term_words_no_quote in Hw as [_ ?]. by rewrite escape_quotes_id. }
    apply fts_strings_join; [by apply (bool_decide_eq_false_1 _)|done|done]. }
  assert (∀ t, fts_strings None (quote (join (lit " ") (term_words t)))
    = [join (lit " ") (term_words t)]) as Hphrase.
  { intros t. rewrite <-(app_nil_r (quote _)). rewrite fts_strings_quote; [done| |done].
    apply join_no_quote; [by apply (bool_decide_eq_false_1 _)|done]. }
  unfold concept_parse. cbn zeta. set (body := if is_literal (trim input) then _ else _).
  destruct (bool_decide (term_words body = [])); [cbn; by intros|].
  destruct (is_literal (trim input)); cbn [any_terms all_terms phrase identifier literal];
    unfold body; split_and!; try done; intros e; try (intros [= <-]); try done.
  - destruct (1 <? _) eqn:E; [|done]. intros [= <-]. bool_to_prop. split; [|done].
    apply fts_strings_join; [by apply (bool_decide_eq_false_1 _)|done|done].
  - cbn [orb]. destruct (1 <? _); [|done]. by intros [= <-].
Qed.

Lemma canonical_language_known value name :
  canonical_language value = Ok name → name = [] ∨ name ∈ INDEXED_LANGUAGES.
Proof.
  unfold canonical_language. case_bool_decide; [intros [= <-]; by left|].
  case_bool_decide as Hin; [intros [= <-]; by right|].
  destruct (List.find _ _) as [[alias n]|] eqn:E; [|done]. intros [= <-]. right.
  apply find_some in E as [E _].
  assert (forallb (λ p, bool_decide (p.2 ∈ INDEXED_LANGUAGES)) language_aliases = true) as Hall
    by by vm_compute.
  rewrite forallb_forall in Hall. by specialize (Hall _ E) as ?%bool_decide_eq_true.
Qed.

Lemma canonical_language_fixed name :
  name = [] ∨ name ∈ INDEXED_LANGUAGES → canonical_language name = Ok name.
Proof.
  intros [->|Hin]; [done|].
  assert (Forall (λ n, canonical_language n = Ok n) INDEXED_LANGUAGES) as Hall
    by (repeat constructor).
  rewrite Forall_forall in Hall. by apply Hall.
Qed.

Definition chunk_inv (st : PathFilter * str * str * str) : Prop :=
  let '(path, language, _, _) := st in
  filter_ok path ∧ (language = [] ∨ language ∈ INDEXED_LANGUAGES).

Lemma parse_chunks_inv `{UnicodeTables} chunks st st' :
  chunk_inv st → parse_chunks st chunks = Ok st' → chunk_inv st'.
Proof.
  revert st. induction chunks as [|chunk chunks IH]; intros st Hst Hp; cbn [parse_chunks] in Hp.
  { by injection Hp as <-. }
  apply bind_Ok in Hp as (st1 & H1 & Hp). apply (IH st1); [|done]. clear IH Hp.
  destruct st as [[[p l] k] t]. destruct Hst as [Hf Hl]. unfold parse_chunk in H1.
  repeat (destruct (strip_prefix _ _); [|]); result_inv; simpl;
    eauto using filter_include_ok, filter_exclude_ok, canonical_language_known.
Qed.

(** Parsed queries are well formed: the language is empty or one the index
    records (and parsing it again changes nothing), the path filter holds only
    encoded, non-empty values, and a [sym:] or [re:] query has text. *)
Theorem query_parse_wf `{UnicodeTables} (input : str) (q : Query) :
  query_parse input = Ok q →
  filter_ok (path q) ∧ (language q = [] ∨ language q ∈ INDEXED_LANGUAGES) ∧
  canonical_language (language q) = Ok (language q) ∧
  (exact q || regex q = true → text q ≠ []).
Proof.
  unfold query_parse. intros Hq. apply bind_Ok in Hq as ([[[p l] k] t] & Hc & Hq).
  apply parse_chunks_inv in Hc as [Hf Hl]; [|split; [split; constructor|by left]].
  revert Hq. cbn zeta.
  destruct (match strip_prefix (lit "sym:") (trim t) with Some _ => _ | None => _ end) as [ex t1].
  destruct (match strip_prefix (lit "re:") t1 with Some _ => _ | None => _ end) as [re t2].
  destruct (_ && _) eqn:E; [done|]. intros [= <-]. cbn [path language exact regex text].
  split_and!; [done|done|by apply canonical_language_fixed|]. intros Hex ->. by rewrite Hex in E.
Qed.

(** ASCII tables, for concrete runs. *)
Module AsciiTables.
Definition one (f : ascii → bool) (c : str) : bool := match c with a :: _ => f a | [] => false end.
#[global] Instance tables : UnicodeTables := {|
  is_alphanumeric := one is_ascii_alphanumeric; is_alphabetic := one is_ascii_alphabetic;
  is_lowercase := one is_ascii_lowercase; is_uppercase := one is_ascii_uppercase;
  is_whitespace := one is_ascii_whitespace; to_lowercase := to_ascii_lowercase |}.
#[global] Instance laws : UnicodeLaws.
Proof. split; [done|]. intros a t. cbn. by destruct a as [[] [] [] [] [] [] [] []]. Qed.
End AsciiTables.

(** Two words and a quote that tries to leave its string. *)
Definition quoted_input : str := lit "fn" ++ [chr 34] ++ lit " OR x_1".

Lemma concept_query_quoting_witness :
  any_terms (concept_parse quoted_input) = Some (fts_terms quoted_input) ∧
  fts_strings None (fts_terms quoted_input) = lit <$> ["fn"; "OR"; "x_1"]%string.
Proof.
  assert (any_terms (concept_parse quoted_input) = Some (fts_terms quoted_input)) as He
    by (vm_compute; reflexivity).
  split; [exact He|].
  etrans; [exact (proj1 (concept_query_quoting quoted_input) _ He)|vm_compute; reflexivity].
Defined.

Definition example_query : Query :=
  {| text := lit "run"; path := {| include := []; exclude := [lit "vendor/"] |};
     language := lit "rust"; kind := lit "function"; exact := true; regex := false |}.

Lemma query_parse_wf_witness :
  query_parse (lit "sym:run lang:RS -file:vendor/ kind:function") = Ok example_query ∧
  filter_ok (path example_query).
Proof.
  assert (query_parse (lit "sym:run lang:RS -file:vendor/ kind:function") = Ok example_query) as Hp
    by (vm_compute; reflexivity).
  split; [exact Hp|]. apply (query_parse_wf _ _ Hp).
Defined.

Example test_paths_by_convention :
  forallb is_test_path (lit <$> ["src/sim/tests.rs"; "crates/core/tests/motion.rs"; "web/hover.test.ts";
    "py/test_steer.py"; "go/parse_test.go"; "src/Tests/Motion.cs"; "src/test/java/MotionTest.java";
    "spec/models/user_spec.rb"; "src/sim/tests/"]) = true ∧
  forallb (λ p, negb (is_test_path p)) (lit <$> ["src/latest.rs"; "library/test/src/lib.rs";
    "src/ab_test.rs"; "test.config.js"; "src/main/java/Test.java"]) = true.
Proof. split; vm_compute; reflexivity. Qed.
