(* ===== verification/QualifiedName.v ===== *)
(** * Qualified names

    Models [src/src/search/qualified_name.rs]: splitting [A::b] lookups, the
    module path and container scopes of a definition, and how closely a
    qualifier agrees with them.  Text is UTF-8 bytes; the code compares it only
    with ASCII characters, so a walk over bytes meets the same positions as one
    over [char]s. *)
From Stdlib Require Import Ascii String ZArith Lia Permutation.
From stdpp Require Import base numbers list gmap strings.
From S2P Require Import Prelude Order Text Paths PathFilter QueryShape.

Record QualifiedName := MkQualified { qualifier : list str; name : str }.

Inductive QualifierMatch := Suffix | Subsequence.
#[export] Instance QualifierMatch_eq_dec : EqDecision QualifierMatch.
Proof. solve_decision. Defined.
(** The derived order: [Suffix] first. *)
Definition qualifier_min (a b : QualifierMatch) : QualifierMatch :=
  match a, b with Subsequence, Subsequence => Subsequence | _, _ => Suffix end.

(** ** Substrings from the right *)

(** [str::rfind] *)
Fixpoint rfind_sub (n s : str) : option nat :=
  match (match s with [] => None | _ :: s' => rfind_sub n s' end) with
  | Some i => Some (S i)
  | None => if starts_with n s then Some 0 else None
  end.
(** [s.rsplit(sep).next()] *)
Definition after_last (sep s : str) : str :=
  match rfind_sub sep s with Some i => drop (i + length sep) s | None => s end.
(** [s.split(sep).next()] *)
Definition before_first (sep s : str) : str :=
  match find_sub sep s with Some i => take i s | None => s end.

(** [str::trim_start_matches] of a nonempty string. *)
Fixpoint trim_start_matches_go (fuel : nat) (p s : str) : str :=
  match fuel with
  | O => s
  | S f => match strip_prefix p s with Some s' => trim_start_matches_go f p s' | None => s end
  end.
Definition trim_start_matches (p s : str) : str := trim_start_matches_go (length s) p s.
(** [trim_end_matches('/')] *)
Definition trim_end_slashes (s : str) : str := reverse (drop_while (λ c, c =c "/"%char) (reverse s)).

(** ** Owner paths *)

(** [remaining.any(|candidate| candidate == segment)], with what the iterator has left. *)
Fixpoint advance (segment : str) (remaining : list str) : option (list str) :=
  match remaining with
  | [] => None
  | candidate :: remaining' => if candidate =s segment then Some remaining' else advance segment remaining'
  end.
Fixpoint is_subsequence (needle haystack : list str) : bool :=
  match needle with
  | [] => true
  | segment :: needle' =>
      match advance segment haystack with
      | Some remaining => is_subsequence needle' remaining
      | None => false
      end
  end.

Definition plain_part (part : str) : bool :=
  negb (existsb (λ w, part =s lit w) [""; "src"; "mod"; "lib"; "main"; "index"]%string).
(** [part.replace('-', "_")] *)
Definition underscores (part : str) : str :=
  (λ c, if c =c "-"%char then "_"%char else c) <$> part.
Definition module_segments (path : str) : list str :=
  let stem := match rsplit_once "." path with
              | Some (stem, extension) => if contains (lit "/") extension then path else stem
              | None => path
              end in
  underscores <$> List.filter plain_part (split_char "/" stem).

Definition crate_root_segments (path : str) : list str :=
  match rfind_sub (lit "src/") path with
  | Some index =>
      if (index =? 0) || bool_decide (path !! (index - 1) = Some "/"%char)
      then module_segments (trim_end_slashes (take index path)) else []
  | None => []
  end.

(** ** Containers *)

(** The loop of [closing_angle]: from [offset], at [depth]. *)
Fixpoint closing_angle_go (depth offset : nat) (text : str) : nat :=
  match text with
  | [] => offset
  | ch :: text' =>
      if ch =c "<"%char then closing_angle_go (S depth) (S offset) text'
      else if ch =c ">"%char then
        if depth - 1 =? 0 then offset + 1 else closing_angle_go (depth - 1) (S offset) text'
      else closing_angle_go depth (S offset) text'
  end.
Definition closing_angle (text : str) : nat := closing_angle_go 1 0 text.

Definition opens (ch : ascii) : bool := existsb (λ b, ch =c b) ["<"; "("; "["]%char.
Definition closes (ch : ascii) : bool := existsb (λ b, ch =c b) [">"; ")"; "]"]%char.
Fixpoint split_for_go (depth : Z) (offset : nat) (header rest : str) : option (str * str) :=
  match rest with
  | [] => None
  | ch :: rest' =>
      if opens ch then split_for_go (depth + 1) (S offset) header rest'
      else if closes ch then split_for_go (depth - 1) (S offset) header rest'
      else if (depth =? 0)%Z && starts_with (lit " for ") rest
      then Some (take offset header, drop (offset + 5) header)
      else split_for_go depth (S offset) header rest'
  end.
Definition split_top_level_for (header : str) : option (str * str) := split_for_go 0 0 header header.

Section Names.
Context `{UnicodeTables}.

Definition impl_header (container : str) : option str :=
  rest ← strip_prefix (lit "impl") (default container (strip_prefix (lit "unsafe ") container));
  match rest with
  | ch :: _ =>
      if existsb (λ b, ch =c b) ["<"%char; " "%char; chr 10; chr 9] then
        let rest := trim_start rest in
        Some (match strip_prefix (lit "<") rest with
              | Some generics => trim_start (drop (closing_angle generics) generics)
              | None => rest
              end)
      else None
  | [] => None
  end.

Definition word_char (c : str) : bool := is_alphanumeric c || (c =s lit "_").

Definition type_name (text : str) : option str :=
  let text := before_first (lit " where") text in
  let text := trim (before_first (lit "<") text) in
  let text := trim_start_matches (lit "!") (trim_start_matches (lit "dyn ")
                (trim_start_matches (lit "mut ") (trim_start_matches (lit "&") text))) in
  let name := trim (after_last (lit "::") text) in
  if nonempty name && forallb word_char (chars name) then Some name else None.

Definition container_parts (container : str) : list str :=
  List.filter nonempty
    (split_str (lit "::") container ≫=
       λ part, split_class (λ c, existsb (λ b, c =s [b]) [chr 92; "."%char; "/"%char]) (chars part)).

Definition container_scopes (container : option str) : list (list str) :=
  match container with
  | None => [[]]
  | Some container =>
      let container := trim container in
      if nonempty container then
        match impl_header container with
        | Some header =>
            let '(trait_part, type_part) :=
              match split_top_level_for header with
              | Some (trait_part, type_part) => (Some trait_part, type_part)
              | None => (None, header)
              end in
            let scopes := option_list ((λ n, [n]) <$> type_name type_part) ++
                          option_list ((λ n, [n]) <$> (trait_part ≫= type_name)) in
            if bool_decide (scopes = []) then [[]] else scopes
        | None => [container_parts container]
        end
      else [[]]
  end.

(** ** Parsing *)

Definition path_keyword (segment : str) : bool :=
  existsb (λ w, segment =s lit w) ["crate"; "self"; "super"]%string.

(** [while let Some(tail) = rest.strip_prefix(["super"])] *)
Fixpoint climb (qualifier rest : list str) : list str * list str :=
  match rest with
  | segment :: tail =>
      if segment =s lit "super" then climb (removelast qualifier) tail else (qualifier, rest)
  | [] => (qualifier, rest)
  end.

Definition path_segments (text : str) : list str :=
  List.filter nonempty (trim <$> split_str (lit "::") text).

Definition parse_in (text : str) (module crate_root : list str) : QualifiedName :=
  let segments := path_segments text in
  let name := default [] (last segments) in
  let rest := removelast segments in
  let '(qualifier, rest) :=
    match rest with
    | first :: tail =>
        if first =s lit "crate" then (crate_root, tail)
        else if first =s lit "self" then climb module tail
        else if first =s lit "super" then climb module rest
        else ([], rest)
    | [] => ([], rest)
    end in
  {| qualifier := qualifier ++ List.filter (λ s, negb (path_keyword s)) rest; name := name |}.
Definition qualified_parse (text : str) : QualifiedName := parse_in text [] [].

Definition owner_hint (q : QualifiedName) : str := default [] (last (qualifier q)).
Definition is_qualified (q : QualifiedName) : bool := negb (bool_decide (qualifier q = [])).

(** ** Matching *)

Definition scope_match (q : list str) (owner : list str) : option QualifierMatch :=
  if bool_decide (q `suffix_of` owner) then Some Suffix
  else if is_subsequence q owner then Some Subsequence
  else None.
Definition best_match (best found : option QualifierMatch) : option QualifierMatch :=
  match best, found with
  | Some old, Some new => Some (qualifier_min old new)
  | Some old, None => Some old
  | None, new => new
  end.
Definition qualified_matches (q : QualifiedName) (path : str) (container : option str) :
    option QualifierMatch :=
  if bool_decide (qualifier q = []) then Some Suffix
  else foldl (λ best scope, best_match best (scope_match (qualifier q) (module_segments path ++ scope)))
         None (container_scopes container).

Definition import_char (c : str) : bool :=
  is_alphanumeric c || existsb (λ b, c =s [b]) ["_"; ":"; "$"]%char.
Definition import_spelling (text : str) : option (str * str) :=
  let text := join (lit " ") (List.filter nonempty (split_class is_whitespace (chars text))) in
  let '(path, alias) :=
    match find_sub (lit " as ") text with
    | Some i => (trim (take i text), trim (drop (i + 4) text))
    | None => (text, after_last (lit "::") text)
    end in
  let valid part := nonempty part && forallb import_char (chars part) in
  if valid path && valid alias then Some (path, alias) else None.
End Names.

(** ** Subsequences *)

Lemma advance_Some segment l rest :
  advance segment l = Some rest → ∃ pre, l = pre ++ segment :: rest ∧ segment ∉ pre.
Proof.
  induction l as [|c l IH]; cbn; [done|]. case_bool_decide as Hc.
  - intros [= <-]. exists []. by rewrite Hc; split; [|apply not_elem_of_nil].
  - intros (pre & -> & Hnin)%IH. exists (c :: pre). split; [done|]. by apply not_elem_of_cons.
Qed.
Lemma advance_None segment l : advance segment l = None → segment ∉ l.
Proof.
  induction l as [|c l IH]; cbn; [by intros _ ?%elem_of_nil|]. case_bool_decide; [done|].
  intros Hn. apply not_elem_of_cons. by split; [|apply IH].
Qed.

Lemma sublist_drop_missing (x : str) n pre l :
  x ∉ pre → x :: n `sublist_of` pre ++ l → x :: n `sublist_of` l.
Proof.
  induction pre as [|y pre IH]; [done|]. intros Hnin Hs.
  apply not_elem_of_cons in Hnin as [Hne Hnin]. cbn in Hs. inversion Hs; subst; [done|by apply IH].
Qed.

Lemma is_subsequence_iff n h : is_subsequence n h = true ↔ n `sublist_of` h.
Proof.
  revert h. induction n as [|x n IH]; intros h; cbn; [split; [intros; apply sublist_nil_l|done]|].
  destruct (advance x h) as [rest|] eqn:E.
  - apply advance_Some in E as (pre & -> & Hnin). rewrite IH. split.
    + intros Hs. apply sublist_inserts_l. by apply sublist_skip.
    + intros Hs%sublist_drop_missing; [|done]. inversion Hs; subst; [done|].
      etrans; [by apply sublist_cons|done].
  - apply advance_None in E. split; [done|]. intros Hs. exfalso. apply E.
    apply (sublist_subseteq _ _ Hs), list_elem_of_here.
Qed.

#[export] Instance sublist_dec (n h : list str) : Decision (n `sublist_of` h).
Proof.
  destruct (is_subsequence n h) eqn:E; [left|right]; rewrite <- is_subsequence_iff; congruence.
Defined.

Section Matches.
Context `{UnicodeTables}.

Lemma scope_match_cases q owner :
  scope_match q owner =
  if decide (q `suffix_of` owner) then Some Suffix
  else if decide (q `sublist_of` owner) then Some Subsequence else None.
Proof.
  unfold scope_match. case_bool_decide; case_decide; try done.
  pose proof (is_subsequence_iff q owner).
  destruct (is_subsequence q owner); case_decide; naive_solver.
Qed.

Lemma best_match_fold {A} (f : A → option QualifierMatch) l best :
  let r := foldl (λ b x, best_match b (f x)) best l in
  (r = Some Suffix ↔ best = Some Suffix ∨ ∃ x, x ∈ l ∧ f x = Some Suffix) ∧
  (r = None ↔ best = None ∧ ∀ x, x ∈ l → f x = None).
Proof.
  revert best. induction l as [|y l IH]; intros best; cbn.
  { setoid_rewrite elem_of_nil. naive_solver. }
  destruct (IH (best_match best (f y))) as [IH1 IH2]. rewrite IH1, IH2. clear IH IH1 IH2.
  setoid_rewrite elem_of_cons.
  destruct best as [[]|], (f y) as [[]|] eqn:E; cbn; naive_solver.
Qed.

Lemma qualified_matches_scopes q path container :
  qualifier q ≠ [] →
  let owner scope := module_segments path ++ scope in
  (qualified_matches q path container = Some Suffix ↔
     ∃ scope, scope ∈ container_scopes container ∧ qualifier q `suffix_of` owner scope) ∧
  (qualified_matches q path container = None ↔
     ∀ scope, scope ∈ container_scopes container → ¬ qualifier q `sublist_of` owner scope).
Proof.
  intros Hne owner. unfold qualified_matches. rewrite bool_decide_false by done.
  destruct (best_match_fold (λ scope, scope_match (qualifier q) (module_segments path ++ scope))
              (container_scopes container) None) as [-> ->].
  setoid_rewrite scope_match_cases. subst owner. cbn. split.
  - split; [intros [?|(scope & ? & Hs)]; [done|]|intros (scope & ? & ?); right]; exists scope;
      (split; [done|]); [by repeat case_decide|by rewrite decide_True].
  - split.
    + intros [_ Hall] scope Hin Hsub. specialize (Hall scope Hin).
      case_decide; [done|]. by rewrite decide_True in Hall.
    + intros Hall. split; [done|]. intros scope Hin. specialize (Hall scope Hin).
      rewrite decide_False; [by rewrite decide_False|].
      intros [k Hk]. apply Hall. rewrite Hk. by apply sublist_inserts_l.
Qed.

(** A qualified lookup accepts a definition exactly as documented: an
    unqualified name always agrees; otherwise the best agreement over the
    scopes its container names is [Suffix] when the qualifier ends the module
    path followed by some scope, [Subsequence] when it only occurs in order in
    one, and the definition is rejected when it occurs in none. *)
Theorem qualified_matches_exact q path container :
  let agrees (R : list str → list str → Prop) :=
    ∃ scope, scope ∈ container_scopes container ∧ R (qualifier q) (module_segments path ++ scope) in
  match qualified_matches q path container with
  | Some Suffix => qualifier q = [] ∨ agrees suffix
  | Some Subsequence => qualifier q ≠ [] ∧ ¬ agrees suffix ∧ agrees sublist
  | None => qualifier q ≠ [] ∧ ¬ agrees sublist
  end.
Proof.
  intros agrees. subst agrees. cbn.
  destruct (decide (qualifier q = [])) as [Hq|Hne].
  { unfold qualified_matches. rewrite bool_decide_true by done. by left. }
  destruct (qualified_matches_scopes q path container Hne) as [Hs Hn].
  destruct (qualified_matches q path container) as [[]|].
  - right. by apply Hs.
  - split_and!; [done|intros Hex; apply Hs in Hex; done|].
    destruct (decide (Exists (λ scope, qualifier q `sublist_of` module_segments path ++ scope)
                (container_scopes container))) as [He|Hno].
    + apply Exists_exists in He as (scope & ? & ?). eauto.
    + exfalso. assert (Some Subsequence = @None QualifierMatch) by
        (apply Hn; intros scope Hin Hsub; apply Hno, Exists_exists; eauto). done.
  - split; [done|]. intros (scope & Hin & Hsub). by apply (proj1 Hn eq_refl scope Hin).
Qed.
End Matches.

(** ** Relative paths *)

Section Relative.
Context `{UnicodeTables, !UnicodeLaws}.

(** A path segment as it is written: no separator and no white space. *)
Definition clean (s : str) : Prop :=
  s ≠ [] ∧ (":"%char ∉ s) ∧ forallb (λ c, negb (is_whitespace c)) (chars s) = true.

Lemma drop_while_none {A} (f : A → bool) l :
  forallb (λ c, negb (f c)) l = true → drop_while f l = l.
Proof. destruct l; cbn; [done|]. by intros [->%negb_true_iff _]%andb_prop. Qed.

Lemma trim_clean s : clean s → trim s = s.
Proof.
  intros (_ & _ & Hw). unfold trim, trim_end, trim_start.
  rewrite (drop_while_none _ _ Hw), concat_chars.
  rewrite drop_while_none, reverse_involutive; [apply concat_chars|].
  apply forallb_forall. intros c Hc. apply (proj1 (forallb_forall _ _) Hw).
  by apply list_elem_of_In, elem_of_reverse, list_elem_of_In.
Qed.

Lemma no_colon c s : c ≠ ":"%char → starts_with (lit "::") (c :: s) = false.
Proof.
  intros Hc. apply not_true_iff_false. intros [r Hr]%starts_with_true. by injection Hr.
Qed.
Lemma find_colons_none p : ":"%char ∉ p → find_sub (lit "::") p = None.
Proof.
  induction p as [|c p IH]; [done|]. intros [Hc Hp]%not_elem_of_cons. cbn [find_sub].
  by rewrite no_colon, IH.
Qed.
Lemma find_colons p r : ":"%char ∉ p → find_sub (lit "::") (p ++ lit "::" ++ r) = Some (length p).
Proof.
  induction p as [|c p IH]; [done|]. intros [Hc Hp]%not_elem_of_cons. cbn [find_sub app].
  by rewrite no_colon, IH.
Qed.

Lemma split_join p ps f :
  Forall clean (p :: ps) → length ps ≤ f →
  split_str_go f (lit "::") (join (lit "::") (p :: ps)) = p :: ps.
Proof.
  revert p f. induction ps as [|p' ps IH]; intros p f Hc Hf; inversion Hc as [|? ? (_ & Hp & _) Hps]; subst.
  - destruct f; [done|]. cbn [split_str_go join]. by rewrite find_colons_none.
  - destruct f as [|f]; [cbn in Hf; lia|].
    change (join (lit "::") (p :: p' :: ps)) with (p ++ lit "::" ++ join (lit "::") (p' :: ps)).
    cbn [split_str_go]. rewrite find_colons by done. rewrite take_app_length.
    rewrite app_assoc, <- length_app, drop_app_length. f_equal. apply IH; [done|]. cbn in Hf. lia.
Qed.

Lemma join_length p ps : Forall clean (p :: ps) → length ps ≤ length (join (lit "::") (p :: ps)).
Proof.
  revert p. induction ps as [|p' ps IH]; intros p Hc; inversion Hc as [|? ? _ Hps]; subst; [cbn; lia|].
  change (join (lit "::") (p :: p' :: ps)) with (p ++ lit "::" ++ join (lit "::") (p' :: ps)).
  rewrite !length_app. specialize (IH p' Hps).
  change (length (lit "::")) with 2. change (length (p' :: ps)) with (S (length ps)). lia.
Qed.

Lemma path_segments_join p ps :
  Forall clean (p :: ps) → path_segments (join (lit "::") (p :: ps)) = p :: ps.
Proof.
  intros Hc. unfold path_segments, split_str. rewrite split_join by (try done; by apply join_length).
  assert (trim <$> (p :: ps) = p :: ps) as ->.
  { induction Hc as [|q qs Hq Hqs IH]; [done|]. cbn. rewrite trim_clean by done. by f_equal. }
  induction Hc as [|q qs (Hq & _) Hqs IH]; [done|]. cbn [List.filter]. unfold nonempty at 1.
  rewrite bool_decide_false by done. cbn. by rewrite IH.
Qed.

Lemma climb_super q t k :
  Forall (λ s, path_keyword s = false) t →
  climb q (replicate k (lit "super") ++ t) = (take (length q - k) q, t).
Proof.
  intros Ht. revert q. induction k as [|k IH]; intros q.
  - rewrite Nat.sub_0_r, firstn_all. destruct t as [|s t]; [done|].
    inversion Ht as [|? ? Hs _]; subst. cbn. rewrite bool_decide_false; [done|].
    intros ->. by vm_compute in Hs.
  - cbn [replicate app climb]. rewrite bool_decide_true by done. rewrite IH. f_equal.
    rewrite removelast_firstn_len, length_firstn, firstn_firstn. f_equal. lia.
Qed.

Lemma filter_plain t :
  Forall (λ s, path_keyword s = false) t → List.filter (λ s, negb (path_keyword s)) t = t.
Proof. induction 1 as [|s t Hs Ht IH]; [done|]. cbn [List.filter]. rewrite Hs. cbn [negb]. by rewrite IH. Qed.

Lemma not_keyword s :
  path_keyword s = false → s ≠ lit "crate" ∧ s ≠ lit "self" ∧ s ≠ lit "super".
Proof. intros Hs. split_and!; intros ->; by vm_compute in Hs. Qed.

Lemma keyword_clean w : w ∈ ["crate"; "self"; "super"]%string → clean (lit w).
Proof.
  intros Hw. repeat (apply elem_of_cons in Hw as [->|Hw]); [..|by apply elem_of_nil in Hw];
    (split; [done|]; split; [by apply (bool_decide_unpack _); vm_compute|]);
    match goal with |- context [chars ?s] =>
      let x := eval vm_compute in (chars s) in change (chars s) with x end;
    cbn [forallb]; by rewrite !whitespace_ascii.
Qed.

Lemma path_segments_snoc ps n :
  Forall clean (ps ++ [n]) →
  path_segments (join (lit "::") (ps ++ [n])) = ps ++ [n].
Proof. intros Hc. destruct ps as [|p ps]; by apply path_segments_join. Qed.

Lemma parse_in_snoc ps n module root :
  Forall clean (ps ++ [n]) →
  parse_in (join (lit "::") (ps ++ [n])) module root =
  let '(q, rest) :=
    match ps with
    | first :: tail =>
        if first =s lit "crate" then (root, tail)
        else if first =s lit "self" then climb module tail
        else if first =s lit "super" then climb module ps
        else ([], ps)
    | [] => ([], ps)
    end in
  {| qualifier := q ++ List.filter (λ s, negb (path_keyword s)) rest; name := n |}.
Proof.
  intros Hc. unfold parse_in. rewrite path_segments_snoc by done.
  by rewrite last_snoc, removelast_last.
Qed.

(** Import paths resolve against the importing module as they do in the
    language: [crate::] starts at the crate root, [self::] at the module, each
    leading [super::] climbs one level (stopping at the root), and a path
    without such a prefix is kept as it is; the last segment is the name. *)
Theorem parse_in_resolves t n module root k :
  Forall clean (t ++ [n]) → Forall (λ s, path_keyword s = false) t →
  let text prefix := join (lit "::") (prefix ++ t ++ [n]) in
  parse_in (text []) module root = {| qualifier := t; name := n |} ∧
  parse_in (text [lit "crate"]) module root = {| qualifier := root ++ t; name := n |} ∧
  parse_in (text (lit "self" :: replicate k (lit "super"))) module root =
    {| qualifier := take (length module - k) module ++ t; name := n |} ∧
  parse_in (text (replicate (S k) (lit "super"))) module root =
    {| qualifier := take (length module - S k) module ++ t; name := n |}.
Proof.
  intros Hc Ht text. subst text. cbn beta.
  assert (∀ k, Forall clean (replicate k (lit "super"))) as Hsup
    by (intros; apply Forall_replicate, keyword_clean; set_solver).
  assert (∀ pre, Forall clean pre → Forall clean ((pre ++ t) ++ [n])) as Hpre
    by (intros; rewrite <- app_assoc; by apply Forall_app).
  split_and!; rewrite app_assoc, parse_in_snoc;
    try (apply Hpre; repeat (apply Forall_cons; split); try done; apply keyword_clean; set_solver).
  - cbn [app]. destruct t as [|s t]; [done|]. inversion Ht as [|? ? Hs _]; subst.
    destruct (not_keyword s Hs) as (? & ? & ?). rewrite !bool_decide_false by done.
    by rewrite filter_plain.
  - cbn [app]. rewrite bool_decide_true by done. by rewrite filter_plain.
  - cbn [app]. rewrite bool_decide_false by done. rewrite bool_decide_true by done.
    by rewrite climb_super, filter_plain.
  - cbn [app replicate]. rewrite !bool_decide_false by done. rewrite bool_decide_true by done.
    change (lit "super" :: replicate k (lit "super") ++ t) with (replicate (S k) (lit "super") ++ t).
    by rewrite climb_super, filter_plain.
Qed.
End Relative.

Definition sample_module : list str := lit <$> ["crates"; "core"; "sim"; "move"]%string.

Lemma parse_in_resolves_witness :
  parse_in (lit "super::super::Ledger::open") sample_module [] =
  {| qualifier := lit <$> ["crates"; "core"; "Ledger"]%string; name := lit "open" |}.
Proof.
  refine (proj2 (proj2 (proj2 (parse_in_resolves [lit "Ledger"] (lit "open") sample_module [] 1 _ _)))).
  - apply Forall_cons; split; [|apply Forall_cons; split; [|apply Forall_nil; exact I]];
      (split; [discriminate|]; split; [apply (bool_decide_unpack _); vm_compute; exact I|]);
      vm_compute; reflexivity.
  - by repeat constructor.
Defined.

(** The cases of the unit tests. *)
Example qualifier_examples :
  let display := qualified_parse (lit "Display::fmt") in
  let store := qualified_parse (lit "crate::Store::open") in
  let module := qualified_parse (lit "harvest::record") in
  qualified_matches store (lit "src/store.rs") (Some (lit "impl Store")) = Some Suffix ∧
  qualified_matches store (lit "src/a.rs")
    (Some (lit "impl<'a, T: Into<u8>> fmt::Display for Store<'a, T> where T: Copy")) = Some Suffix ∧
  qualified_matches store (lit "src/a.rs") (Some (lit "impl Other")) = None ∧
  qualified_matches display (lit "src/a.rs") (Some (lit "impl fmt::Display for Store")) = Some Suffix ∧
  qualified_matches module (lit "src/harvest/mod.rs") (Some (lit "impl Ledger")) = Some Subsequence ∧
  crate_root_segments (lit "crates/core/src/sim/move.rs") = lit <$> ["crates"; "core"]%string ∧
  crate_root_segments (lit "resrc/x.rs") = [] ∧
  import_spelling (lit "a::b as c") = Some (lit "a::b", lit "c") ∧
  import_spelling (lit "{ a, b }") = None.
Proof. vm_compute. repeat split; reflexivity. Qed.
