(* ===== verification/Ranking.v ===== *)
(** * File ranking

    Models [src/src/search/file_ranking.rs] (weighted reciprocal-rank fusion of
    search lanes) and the top-k selection of [src/src/semantic.rs].  Floats are
    the IEEE 754 numbers of the Standard Library's [SpecFloat]; [BTreeMap] is a
    [gmap] whose values are read in key order. *)
From Stdlib Require Import Ascii String ZArith Lia Permutation Sorted.
From Corelib Require Import SpecFloat.
From stdpp Require Import base numbers list gmap strings.
From S2P Require Import Prelude Order Text Hits QueryShape.

(** ** IEEE 754 numbers *)

Definition f64_of_Z (n : Z) : spec_float := binary_normalize 53 1024 n 0 false.
Definition f64_add : spec_float → spec_float → spec_float := SFadd 53 1024.
Definition f64_mul : spec_float → spec_float → spec_float := SFmul 53 1024.
Definition f64_div : spec_float → spec_float → spec_float := SFdiv 53 1024.
Definition f32_of_Z (n : Z) : spec_float := binary_normalize 24 128 n 0 false.
Definition f32_add : spec_float → spec_float → spec_float := SFadd 24 128.
Definition f32_mul : spec_float → spec_float → spec_float := SFmul 24 128.

(** The bit pattern's place in the total order of [total_cmp]: a canonical
    magnitude [m * 2 ^ e] has the bits [(e - emin) * 2 ^ (prec - 1) + m]. *)
Definition total_key (prec emax : Z) (f : spec_float) : Z :=
  let emin := (3 - emax - prec)%Z in
  let inf := ((2 * emax - 1) * 2 ^ (prec - 1))%Z in
  let mag := match f with
    | S754_zero _ => 0
    | S754_finite _ m e => (e - emin) * 2 ^ (prec - 1) + Zpos m
    | S754_infinity _ => inf
    | S754_nan => inf + 2 ^ (prec - 2)
    end%Z in
  let negative := match f with
    | S754_zero s | S754_finite s _ _ | S754_infinity s => s
    | S754_nan => false
    end in
  if negative then (-1 - mag)%Z else mag.
Definition f64_total_cmp : spec_float → spec_float → comparison := cmp_on (total_key 53 1024) Z.compare.
Definition f32_total_cmp : spec_float → spec_float → comparison := cmp_on (total_key 24 128) Z.compare.
Definition is_finite (f : spec_float) : bool :=
  match f with S754_zero _ | S754_finite _ _ _ => true | _ => false end.

Example f64_order :
  f64_total_cmp (f64_div (f64_of_Z 7) (f64_of_Z 10)) (S754_finite false 6305039478318694 (-53)) = Eq ∧
  f64_total_cmp (f64_of_Z 0) (S754_zero true) = Gt ∧
  f64_total_cmp (f64_div (f64_of_Z 1) (f64_of_Z 61)) (f64_div (f64_of_Z 1) (f64_of_Z 62)) = Gt.
Proof. split_and!; reflexivity. Qed.

(** ** Bounded selection with a binary heap

    [BinaryHeap] gives back its greatest element; which of several equal
    elements that is does not matter where the order separates elements. *)
Section TopK.
Context {A : Type} (cmp : A → A → comparison).

Definition heap_pop (heap : list A) : list A := take (length heap - 1) (sort_by cmp heap).
Definition heap_offer (limit : nat) (heap : list A) (x : A) : list A :=
  let heap := x :: heap in
  if limit <? length heap then heap_pop heap else heap.
Definition top_k (limit : nat) (xs : list A) : list A :=
  sort_by cmp (foldl (heap_offer limit) [] xs).
End TopK.

(** ** Semantic top-k *)

Record SemanticHit := { sem_id : Z; score : spec_float }.

Definition semantic_compare : SemanticHit → SemanticHit → comparison :=
  cmp_then (cmp_rev (cmp_on score f32_total_cmp)) (cmp_on sem_id Z.compare).

(** [iter.sum()] over [f32] starts at negative zero. *)
Definition cosine (a b : list spec_float) : spec_float :=
  foldl f32_add (S754_zero true) (zip_with f32_mul a b).

Definition search_top_k (query : list spec_float) (candidates : list (Z * list spec_float))
    (limit : nat) : list SemanticHit :=
  if limit =? 0 then []
  else top_k semantic_compare limit
    (List.filter (λ hit, is_finite (score hit))
      ((λ '(id, vector), {| sem_id := id; score := cosine query vector |}) <$> candidates)).

(** ** Evidence *)

Definition FILE_CANDIDATE_LIMIT : nat := 1000.
Definition RRF_K : spec_float := f64_of_Z 60.
Definition DEMOTED_PATH_WEIGHT : spec_float := S754_finite false 6305039478318694 (-53). (* 0.7 *)

Record FusionPolicy := {
  lane_weights : bool;
  identifier_tier : bool;
  prior : PathPrior;
  prior_from_lane : nat;
}.

Inductive IdentifierEvidence := IdAbsent | IdUsed | IdDefined | IdNamed.
Inductive FileEvidence := Absent | Used | Defined | Named | Phrase.

(** The derived order of [IdentifierEvidence]. *)
Definition id_rank (e : IdentifierEvidence) : nat :=
  match e with IdAbsent => 0 | IdUsed => 1 | IdDefined => 2 | IdNamed => 3 end.
Definition id_max (a b : IdentifierEvidence) : IdentifierEvidence :=
  if id_rank b <=? id_rank a then a else b.

Definition is_local_kind (kind : str) : bool :=
  bool_decide (kind ∈ lit <$> ["variable"; "parameter"; "import"]).
Definition has_provenance (hit : Hit) (p : string) : bool :=
  bool_decide (hit_provenance hit = Some (lit p)).

Definition identifier_evidence (e : FileEvidence) : IdentifierEvidence :=
  match e with
  | Used => IdUsed | Defined => IdDefined | Named => IdNamed | Absent | Phrase => IdAbsent
  end.
Definition tier (e : FileEvidence) : nat :=
  match e with Named | Defined | Phrase => 0 | Used => 1 | Absent => 2 end.

(** One representative of a lane: its lane index, its rank in the lane and its hit. *)
Abbreviation Contribution := (nat * nat * Hit)%type.

Section Fusion.
Context `{UnicodeTables} (policy : FusionPolicy).

Definition evidence_of (hit : Hit) : FileEvidence :=
  if identifier_tier policy && names_exactly (prior policy) (hit_path hit) then Named
  else if has_provenance hit "phrase" then Phrase
  else if negb (identifier_tier policy) then Absent
  else if has_provenance hit "exact_identifier" && negb (is_local_kind (hit_kind hit)) then Defined
  else if has_provenance hit "exact_identifier" || has_provenance hit "identifier_occurrence"
       then Used
  else Absent.

Definition lane_weight (hit : Hit) : spec_float :=
  if has_provenance hit "exact_identifier" && identifier_tier policy
     && negb (is_local_kind (hit_kind hit)) then f64_of_Z 3
  else if has_provenance hit "phrase" || has_provenance hit "filename_exact" then f64_of_Z 2
  else if has_provenance hit "filename_partial" then f64_div (f64_of_Z 1) (f64_of_Z 2)
  else f64_of_Z 1.

Definition prior_weight (path : str) : spec_float :=
  if prior_demotes (prior policy) path then DEMOTED_PATH_WEIGHT else f64_of_Z 1.

(** ** One lane: its first hit per path, capped *)

(** [entry(path).or_insert((rank, hit))]. *)
Definition or_insert (m : gmap str (nat * Hit)) (ranked : nat * Hit) : gmap str (nat * Hit) :=
  match m !! hit_path ranked.2 with
  | Some _ => m
  | None => <[hit_path ranked.2 := ranked]> m
  end.
(** [BTreeMap::into_values]. *)
Definition into_values {V} (m : gmap str V) : list V :=
  snd <$> sort_by (cmp_on fst str_compare) (map_to_list m).

Definition ranked_compare : nat * Hit → nat * Hit → comparison :=
  cmp_then (cmp_on fst Nat.compare)
    (cmp_then (cmp_on (hit_path ∘ snd) str_compare)
      (cmp_then (cmp_on (hit_start ∘ snd) Nat.compare) (cmp_on (hit_end ∘ snd) Nat.compare))).

Definition representatives (lane : list Hit) : list (nat * Hit) :=
  take FILE_CANDIDATE_LIMIT
    (sort_by ranked_compare (into_values (foldl or_insert ∅ (imap pair lane)))).

(** ** Fusion *)

Record FileScore := {
  file_score : spec_float;
  file_identifier_evidence : IdentifierEvidence;
  representative_evidence : FileEvidence;
  representative : Hit;
  representative_lane : nat;
  representative_rank : nat;
}.

Definition contribution_score (c : Contribution) : spec_float :=
  let '(lane_index, file_rank, hit) := c in
  let weight := if lane_weights policy then lane_weight hit else f64_of_Z 1 in
  let prior := if prior_from_lane policy <=? lane_index then prior_weight (hit_path hit)
               else f64_of_Z 1 in
  f64_div (f64_mul weight prior)
    (f64_add (f64_add RRF_K (f64_of_Z (Z.of_nat file_rank))) (f64_of_Z 1)).

(** [(lane_index, file_rank) < (representative_lane, representative_rank)]. *)
Definition earlier (l r l' r' : nat) : bool := (l <? l') || ((l =? l') && (r <? r')).

Definition add_contribution (files : gmap str FileScore) (c : Contribution) : gmap str FileScore :=
  let '(lane_index, file_rank, hit) := c in
  let evidence := evidence_of hit in
  let s := default
    {| file_score := S754_zero false; file_identifier_evidence := IdAbsent;
       representative_evidence := evidence; representative := hit;
       representative_lane := lane_index; representative_rank := file_rank |}
    (files !! hit_path hit) in
  let better := tier evidence <? tier (representative_evidence s) in
  let tied := tier evidence =? tier (representative_evidence s) in
  let replace := better ||
    (tied && earlier lane_index file_rank (representative_lane s) (representative_rank s)) in
  <[hit_path hit :=
    {| file_score := f64_add (file_score s) (contribution_score c);
       file_identifier_evidence := id_max (file_identifier_evidence s) (identifier_evidence evidence);
       representative_evidence := if replace then evidence else representative_evidence s;
       representative := if replace then hit else representative s;
       representative_lane := if replace then lane_index else representative_lane s;
       representative_rank := if replace then file_rank else representative_rank s |}]> files.

Definition contributions (lanes : list (list Hit)) : list Contribution :=
  concat (imap (λ lane_index lane,
    imap (λ file_rank ranked, (lane_index, file_rank, ranked.2)) (representatives lane)) lanes).

Definition file_compare : FileScore → FileScore → comparison :=
  cmp_then (cmp_rev (cmp_on (id_rank ∘ file_identifier_evidence) Nat.compare))
    (cmp_then (cmp_rev (cmp_on file_score f64_total_cmp))
      (cmp_then (cmp_on (hit_path ∘ representative) str_compare)
        (cmp_then (cmp_on (hit_start ∘ representative) Nat.compare)
          (cmp_then (cmp_on (hit_end ∘ representative) Nat.compare)
            (cmp_on (hit_kind ∘ representative) str_compare))))).

Definition fuse_search_file_lanes (lanes : list (list Hit)) : list Hit :=
  let files := foldl add_contribution ∅ (contributions lanes) in
  representative <$> sort_by file_compare (into_values files).
End Fusion.

(** ** Selection *)

Lemma insert_by_take {A} (cmp : A → A → comparison) x l k :
  take k (insert_by cmp x l) = take k (insert_by cmp x (take k l)).
Proof.
  revert k. induction l as [|y l IH]; intros [|k]; cbn [take insert_by]; try done.
  destruct (cmp x y); cbn [take].
  - f_equal. destruct k; [done|]. cbn [take]. f_equal. rewrite take_take. f_equal. lia.
  - f_equal. destruct k; [done|]. cbn [take]. f_equal. rewrite take_take. f_equal. lia.
  - f_equal. apply IH.
Qed.

Section TopKFacts.
Context {A : Type} (cmp : A → A → comparison) {Hc : Comparator cmp}.

Lemma sorted_take k l : StronglySorted (cmp_le cmp) l → StronglySorted (cmp_le cmp) (take k l).
Proof.
  intros Hl. revert k. induction Hl as [|x l Hl IH Hx]; intros [|k]; cbn; [constructor..|].
  constructor; [apply IH|]. by apply Forall_take.
Qed.

Lemma insert_by_length x l : length (insert_by cmp x l) = S (length l).
Proof. by rewrite (Permutation_length (insert_by_perm cmp x l)). Qed.

Lemma heap_offer_sort limit heap seen x :
  sort_by cmp heap = take limit (sort_by cmp seen) →
  sort_by cmp (heap_offer cmp limit heap x) = take limit (sort_by cmp (x :: seen)).
Proof.
  intros Hh. unfold heap_offer.
  assert (length heap = Nat.min limit (length seen)) as Hlen.
  { rewrite <-(sort_by_length cmp heap), Hh, length_take, sort_by_length. done. }
  cbn [sort_by length]. rewrite insert_by_take, <-Hh.
  destruct (Nat.ltb_spec limit (S (length heap))) as [Hlt|Hge].
  - unfold heap_pop. rewrite (sort_by_id cmp) by apply sorted_take, (sort_by_sorted cmp).
    cbn [sort_by length]. f_equal. lia.
  - rewrite take_ge; [done|]. rewrite insert_by_length, sort_by_length. lia.
Qed.

(** The heap keeps the [limit] least elements. *)
Lemma top_k_take limit xs :
  (∀ x y, x ∈ xs → y ∈ xs → cmp x y = Eq → x = y) →
  top_k cmp limit xs = take limit (sort_by cmp xs).
Proof.
  intros Hsep. unfold top_k.
  assert (∀ heap seen, sort_by cmp heap = take limit (sort_by cmp seen) →
    sort_by cmp (foldl (heap_offer cmp limit) heap xs) = take limit (sort_by cmp (reverse xs ++ seen)))
    as Hgen.
  { clear Hsep. induction xs as [|x xs IH]; intros heap seen Hh; cbn [foldl]; [done|].
    rewrite (IH _ (x :: seen)) by by apply heap_offer_sort.
    by rewrite reverse_cons, <-app_assoc. }
  rewrite (Hgen [] []) by (cbn; by rewrite take_nil). rewrite app_nil_r. f_equal.
  symmetry. apply sort_by_perm_eq; [done|done|]. symmetry. apply reverse_Permutation.
Qed.
End TopKFacts.

#[export] Instance f32_total_cmp_comparator : Comparator f32_total_cmp.
Proof. unfold f32_total_cmp. apply _. Qed.
#[export] Instance f64_total_cmp_comparator : Comparator f64_total_cmp.
Proof. unfold f64_total_cmp. apply _. Qed.
#[export] Instance semantic_compare_comparator : Comparator semantic_compare.
Proof. unfold semantic_compare. apply _. Qed.

(** C13. Bounded semantic search is exact: with the heap never holding more than
    [limit] hits, [search_top_k] returns the first [limit] of all finite-scored
    candidates in descending score order, ties by id. *)
Theorem search_top_k_exact (query : list spec_float) (candidates : list (Z * list spec_float))
    (limit : nat) :
  NoDup (fst <$> candidates) →
  search_top_k query candidates limit = take limit (sort_by semantic_compare
    (List.filter (λ hit, is_finite (score hit))
      ((λ '(id, vector), {| sem_id := id; score := cosine query vector |}) <$> candidates))).
Proof.
  intros Hnd. unfold search_top_k. destruct (Nat.eqb_spec limit 0) as [->|_]; [done|].
  apply (top_k_take semantic_compare). intros x y Hx Hy Heq.
  rewrite list_elem_of_In, filter_In, <-list_elem_of_In in Hx, Hy.
  destruct Hx as [([i v] & -> & Hi)%list_elem_of_fmap _], Hy as [([j w] & -> & Hj)%list_elem_of_fmap _].
  assert (i = j) as <-.
  { unfold semantic_compare, cmp_then, then_with, cmp_on in Heq. cbn [sem_id score] in Heq.
    case_match; [|done..]. by apply Z.compare_eq_iff in Heq. }
  assert (v = w) as <-; [|done]. clear Heq. revert Hnd Hi Hj. clear.
  induction candidates as [|[k u] cs IH]; intros Hnd Hi Hj; [set_solver|].
  rewrite fmap_cons in Hnd. apply NoDup_cons in Hnd as [Hk Hnd]. cbn in Hk.
  apply elem_of_cons in Hi as [Hi|Hi], Hj as [Hj|Hj]; [congruence|..|by apply IH].
  - injection Hi as -> ->. destruct Hk. by apply (list_elem_of_fmap_2 fst) in Hj.
  - injection Hj as -> ->. destruct Hk. by apply (list_elem_of_fmap_2 fst) in Hi.
Qed.

Lemma search_top_k_exact_witness :
  let one := f32_of_Z 1 in
  sem_id <$> search_top_k [one] [(1%Z, [f32_of_Z 2]); (2%Z, [f32_of_Z 5]); (3%Z, [f32_of_Z 3])] 2
    = [2; 3]%Z.
Proof.
  intros one. rewrite search_top_k_exact; [vm_compute; reflexivity|].
  apply (bool_decide_unpack _). by vm_compute.
Defined.

(** ** One lane *)

(** The first hit of each path not seen before, in lane order: what a lane
    contributes, without maps and sorting. *)
Fixpoint first_per_path (seen : gset str) (ranked : list (nat * Hit)) : list (nat * Hit) :=
  match ranked with
  | [] => []
  | r :: ranked' =>
      if bool_decide (hit_path r.2 ∈ seen) then first_per_path seen ranked'
      else r :: first_per_path ({[hit_path r.2]} ∪ seen) ranked'
  end.

Lemma first_per_path_sublist seen l : first_per_path seen l `sublist_of` l.
Proof.
  revert seen. induction l as [|r l IH]; intros seen; cbn; [constructor|].
  case_bool_decide; [by apply sublist_cons|by apply sublist_skip].
Qed.

Lemma first_per_path_NoDup seen l :
  NoDup ((hit_path ∘ snd) <$> first_per_path seen l) ∧
  ∀ r, r ∈ first_per_path seen l → hit_path r.2 ∉ seen.
Proof.
  revert seen. induction l as [|r l IH]; intros seen; cbn [first_per_path].
  { split; [constructor|set_solver]. }
  case_bool_decide as Hin; [apply IH|]. destruct (IH ({[hit_path r.2]} ∪ seen)) as [Hnd Hs].
  split.
  - rewrite fmap_cons. constructor; [|done]. intros (r' & Heq & Hr')%list_elem_of_fmap.
    apply Hs in Hr'. unfold compose in Heq. set_solver.
  - intros r' [->|Hr']%elem_of_cons; [done|]. apply Hs in Hr'. set_solver.
Qed.

Lemma or_insert_values m l :
  (∀ p v, m !! p = Some v → hit_path v.2 = p) →
  snd <$> map_to_list (foldl or_insert m l) ≡ₚ
    (snd <$> map_to_list m) ++ first_per_path (dom m) l.
Proof.
  revert m. induction l as [|r l IH]; intros m Hm; cbn [foldl first_per_path].
  { by rewrite app_nil_r. }
  unfold or_insert at 2. destruct (m !! hit_path r.2) as [v|] eqn:E.
  - rewrite bool_decide_eq_true_2 by by eapply elem_of_dom_2. by apply IH.
  - rewrite bool_decide_eq_false_2 by by apply not_elem_of_dom.
    rewrite IH.
    + rewrite map_to_list_insert by done. rewrite fmap_cons, dom_insert_L. simpl.
      by rewrite Permutation_middle.
    + intros p v. rewrite lookup_insert_Some. intros [[<- <-]|[_ Hv]]; [done|by apply Hm].
Qed.

Lemma into_values_perm {V} (m : gmap str V) : into_values m ≡ₚ snd <$> map_to_list m.
Proof. unfold into_values. by rewrite (sort_by_perm (cmp_on fst str_compare) (map_to_list m)). Qed.

#[export] Instance ranked_compare_comparator : Comparator ranked_compare.
Proof. unfold ranked_compare. apply _. Qed.

Lemma ranked_sorted k (lane : list Hit) :
  StronglySorted (λ a b : nat * Hit, a.1 < b.1) (imap (λ i, pair (k + i)) lane) ∧
  ∀ r, r ∈ imap (λ i, pair (k + i)) lane → k ≤ r.1.
Proof.
  revert k. induction lane as [|h lane IH]; intros k; [split; [constructor|set_solver]|].
  rewrite imap_cons. assert (imap ((λ i, pair (k + i)) ∘ S) lane = imap (λ i, pair (S k + i)) lane) as ->.
  { apply imap_ext. intros. unfold compose. f_equal. lia. }
  destruct (IH (S k)) as [Hs Hk]. split.
  - constructor; [done|]. apply Forall_forall. intros r Hr%Hk. simpl. lia.
  - intros r [->|Hr%Hk]%elem_of_cons; simpl; lia.
Qed.

Lemma sublist_StronglySorted {A} (R : A → A → Prop) l1 l2 :
  l1 `sublist_of` l2 → StronglySorted R l2 → StronglySorted R l1.
Proof.
  induction 1 as [|x l1 l2 Hs IH|x l1 l2 Hs IH]; intros Hl; [done|..];
    apply StronglySorted_inv in Hl as [Hl Hx]; [|by apply IH].
  constructor; [by apply IH|]. rewrite Forall_forall in *. intros y Hy. apply Hx.
  revert y Hy. apply elem_of_subseteq. by apply sublist_subseteq.
Qed.

(** A lane's representatives: collecting a lane in a map by path and sorting
    it again gives exactly the first hit of each path in lane order, cut at 1,000
    paths. *)
Theorem representatives_first (lane : list Hit) :
  representatives lane = take FILE_CANDIDATE_LIMIT (first_per_path ∅ (imap pair lane)).
Proof.
  unfold representatives. f_equal.
  destruct (ranked_sorted 0 lane) as [Hsorted _].
  assert (StronglySorted (λ a b : nat * Hit, a.1 < b.1) (first_per_path ∅ (imap pair lane))) as Hfs
    by by eapply sublist_StronglySorted; [apply first_per_path_sublist|].
  rewrite <-(sort_by_id ranked_compare (first_per_path ∅ (imap pair lane))).
  2: { clear Hsorted. induction Hfs as [|r l Hl IH Hr]; constructor; [done|].
    eapply Forall_impl; [exact Hr|]. intros r' Hlt. unfold cmp_le, ranked_compare, cmp_then, cmp_on.
    by rewrite (proj2 (Nat.compare_lt_iff _ _) Hlt). }
  symmetry. apply sort_by_perm_eq; [apply _| |].
  - intros x y Hx Hy Heq.
    assert (x.1 = y.1) as Hxy.
    { unfold ranked_compare, cmp_then, then_with, cmp_on in Heq.
      destruct (x.1 ?= y.1) eqn:E; [by apply Nat.compare_eq_iff in E|done..]. }
    clear Heq Hsorted. revert x y Hx Hy Hxy.
    induction Hfs as [|r l Hl IH Hr]; intros x y Hx Hy Hxy; [set_solver|].
    rewrite Forall_forall in Hr.
    apply elem_of_cons in Hx as [->|Hx], Hy as [->|Hy]; [done|..|by apply IH].
    + specialize (Hr y Hy). lia.
    + specialize (Hr x Hx). lia.
  - rewrite into_values_perm, or_insert_values by by intros p v; rewrite lookup_empty.
    by rewrite map_to_list_empty, dom_empty_L.
Qed.

(** ** Fusion *)

Definition contribution_path (c : Contribution) : str := hit_path c.2.
(** Reference values of one file, from its contributions in order. *)
Definition contributions_of (p : str) (cs : list Contribution) : list Contribution :=
  filter (λ c, contribution_path c = p) cs.

Section FusionFacts.
Context `{UnicodeTables} (policy : FusionPolicy).

Definition fused_score (p : str) (cs : list Contribution) : spec_float :=
  foldl f64_add (S754_zero false) (contribution_score policy <$> contributions_of p cs).
Definition fused_evidence (p : str) (cs : list Contribution) : IdentifierEvidence :=
  foldl id_max IdAbsent
    ((λ c : Contribution, identifier_evidence (evidence_of policy c.2)) <$> contributions_of p cs).

(** The order in which a file prefers its contributions: tier, lane, rank. *)
Definition prefers (c d : Contribution) : Prop :=
  let '(l, r, h) := c in let '(l', r', h') := d in
  tier (evidence_of policy h) < tier (evidence_of policy h') ∨
  tier (evidence_of policy h) = tier (evidence_of policy h') ∧ (l < l' ∨ l = l' ∧ r ≤ r').

Lemma prefers_refl c : prefers c c.
Proof. destruct c as [[l r] h]. unfold prefers. lia. Qed.
Lemma prefers_trans c d e : prefers c d → prefers d e → prefers c e.
Proof. destruct c as [[? ?] ?], d as [[? ?] ?], e as [[? ?] ?]. unfold prefers. lia. Qed.

(** What the table says of the contributions processed so far. *)
Definition file_ok (cs : list Contribution) (p : str) (s : FileScore) : Prop :=
  let best := (representative_lane s, representative_rank s, representative s) in
  best ∈ cs ∧ hit_path (representative s) = p ∧
  representative_evidence s = evidence_of policy (representative s) ∧
  (∀ c, c ∈ cs → contribution_path c = p → prefers best c) ∧
  file_score s = fused_score p cs ∧ file_identifier_evidence s = fused_evidence p cs.
Definition files_ok (cs : list Contribution) (files : gmap str FileScore) : Prop :=
  (∀ p s, files !! p = Some s → file_ok cs p s) ∧
  (∀ c, c ∈ cs → is_Some (files !! contribution_path c)).

Lemma contributions_of_snoc p cs c :
  contributions_of p (cs ++ [c]) =
    contributions_of p cs ++ (if decide (contribution_path c = p) then [c] else []).
Proof. unfold contributions_of. rewrite filter_app, filter_cons. by destruct (decide _). Qed.

Lemma fused_snoc p cs c :
  contribution_path c = p →
  fused_score p (cs ++ [c]) = f64_add (fused_score p cs) (contribution_score policy c) ∧
  fused_evidence p (cs ++ [c]) =
    id_max (fused_evidence p cs) (identifier_evidence (evidence_of policy c.2)).
Proof.
  intros Hp. unfold fused_score, fused_evidence. rewrite contributions_of_snoc.
  rewrite decide_True by done. by rewrite !fmap_app, !foldl_app.
Qed.
Lemma fused_snoc_other p cs c :
  contribution_path c ≠ p →
  fused_score p (cs ++ [c]) = fused_score p cs ∧ fused_evidence p (cs ++ [c]) = fused_evidence p cs.
Proof.
  intros Hp. unfold fused_score, fused_evidence. rewrite contributions_of_snoc.
  by rewrite decide_False, app_nil_r by done.
Qed.
Lemma fused_none p cs :
  (∀ c, c ∈ cs → contribution_path c ≠ p) →
  fused_score p cs = S754_zero false ∧ fused_evidence p cs = IdAbsent.
Proof.
  intros Hn. unfold fused_score, fused_evidence.
  assert (contributions_of p cs = []) as ->; [|done]. unfold contributions_of.
  destruct (filter _ cs) as [|c l] eqn:E; [done|].
  assert (c ∈ filter (λ c, contribution_path c = p) cs) as [Hc Hin]%list_elem_of_filter
    by (rewrite E; set_solver). by destruct (Hn c Hin).
Qed.

(** A contribution to another file changes nothing. *)
Lemma file_ok_other cs c q s :
  contribution_path c ≠ q → file_ok cs q s → file_ok (cs ++ [c]) q s.
Proof.
  intros Hq (Hin & Hp & He & Hpref & Hsc & Hev).
  destruct (fused_snoc_other q cs c) as [Hs1 Hs2]; [done|].
  unfold file_ok. rewrite Hs1, Hs2. split_and!; [set_solver|done|done| |done|done].
  intros d [Hd|Hd]%elem_of_app Hdp; [by apply Hpref|].
  apply list_elem_of_singleton in Hd as ->. by destruct Hq.
Qed.

(** The replacement test decides which of two contributions is preferred. *)
Lemma replace_prefers l r h l' r' h' :
  let t := tier (evidence_of policy h) in let t' := tier (evidence_of policy h') in
  let replace := (t <? t') || ((t =? t') && earlier l r l' r') in
  replace = true ∧ prefers (l, r, h) (l', r', h') ∨ replace = false ∧ prefers (l', r', h') (l, r, h).
Proof.
  cbn zeta. unfold prefers, earlier.
  destruct (Nat.ltb_spec (tier (evidence_of policy h)) (tier (evidence_of policy h'))),
    (Nat.eqb_spec (tier (evidence_of policy h)) (tier (evidence_of policy h'))),
    (Nat.ltb_spec l l'), (Nat.eqb_spec l l'), (Nat.ltb_spec r r'); cbn [andb orb];
    (left; split; [done|lia]) || (right; split; [done|lia]).
Qed.

Lemma add_contribution_ok cs files c :
  files_ok cs files → files_ok (cs ++ [c]) (add_contribution policy files c).
Proof.
  intros [Hfiles Hall]. destruct c as [[lane rank] hit]. set (c := (lane, rank, hit)).
  set (p := hit_path hit).
  split.
  2: { intros d [Hd|Hd]%elem_of_app; cbn [add_contribution c].
    - destruct (decide (hit_path hit = contribution_path d)) as [->|Hne].
      + rewrite lookup_insert_eq. eauto.
      + rewrite lookup_insert_ne by done. by apply Hall.
    - apply list_elem_of_singleton in Hd as ->. rewrite lookup_insert_eq. eauto. }
  intros q s. cbn [add_contribution c]. rewrite lookup_insert_Some.
  intros [[<- <-]|[Hne Hs]]; [|by apply file_ok_other, Hfiles].
  destruct (fused_snoc p cs c eq_refl) as [Hsc Hev]. fold p.
  destruct (files !! p) as [s|] eqn:Es; cbn [from_option id]; unfold file_ok;
    cbn [file_score file_identifier_evidence representative_evidence representative
      representative_lane representative_rank]; rewrite Hsc, Hev.
  - destruct (Hfiles p s Es) as (Hin & Hp & He & Hpref & Hs1 & Hs2).
    rewrite Hs1, Hs2, He. unfold c; cbn [snd]; fold c.
    destruct (replace_prefers lane rank hit (representative_lane s) (representative_rank s)
                (representative s)) as [[-> Hpr]|[-> Hpr]].
    + split_and!; [set_solver|done|done| |done|done].
      intros d [Hd|Hd]%elem_of_app Hdp; [eapply prefers_trans; [exact Hpr|]; by apply Hpref|].
      apply list_elem_of_singleton in Hd as ->. apply prefers_refl.
    + split_and!; [set_solver|done|done| |done|done].
      intros d [Hd|Hd]%elem_of_app Hdp; [by apply Hpref|].
      by apply list_elem_of_singleton in Hd as ->.
  - assert (∀ d, d ∈ cs → contribution_path d ≠ p) as Hnone.
    { intros d Hd Hdp. apply Hall in Hd as [s Hs]. rewrite Hdp, Es in Hs. done. }
    destruct (fused_none p cs Hnone) as [-> ->]. unfold c; cbn [snd]; fold c.
    assert (∀ {A} (b : bool) (x : A), (if b then x else x) = x) as Hb by by intros ? [].
    rewrite !Hb. split_and!; [set_solver|done|done| |done|done].
    intros d [Hd|Hd]%elem_of_app Hdp; [by destruct (Hnone d Hd)|].
    apply list_elem_of_singleton in Hd as ->. apply prefers_refl.
Qed.

Lemma fold_contributions_ok cs : files_ok cs (foldl (add_contribution policy) ∅ cs).
Proof.
  induction cs as [|c cs IH] using rev_ind.
  - split; [|set_solver]. intros p s Hs. cbn in Hs. by rewrite lookup_empty in Hs.
  - rewrite foldl_app. cbn [foldl]. by apply add_contribution_ok.
Qed.
End FusionFacts.

#[export] Instance file_compare_comparator : Comparator file_compare.
Proof. unfold file_compare. apply _. Qed.

(** The published order of two files: identifier evidence, then score, both
    descending, then path. *)
Definition file_precedes `{UnicodeTables} (policy : FusionPolicy) (cs : list Contribution)
    (h1 h2 : Hit) : Prop :=
  then_with (Nat.compare (id_rank (fused_evidence policy (hit_path h2) cs))
                         (id_rank (fused_evidence policy (hit_path h1) cs)))
    (then_with (f64_total_cmp (fused_score policy (hit_path h2) cs)
                              (fused_score policy (hit_path h1) cs))
      (str_compare (hit_path h1) (hit_path h2))) ≠ Gt.

Section FuseResult.
Context `{UnicodeTables} (policy : FusionPolicy) (lanes : list (list Hit)).
Abbreviation cs := (contributions lanes).
Abbreviation files := (foldl (add_contribution policy) ∅ cs).

Lemma into_values_elem s :
  s ∈ into_values files ↔ ∃ p, files !! p = Some s.
Proof.
  rewrite into_values_perm, list_elem_of_fmap. split.
  - intros ([p s'] & -> & Hin%elem_of_map_to_list). eauto.
  - intros [p Hp]. exists (p, s). split; [done|]. by apply elem_of_map_to_list.
Qed.

Lemma into_values_NoDup_paths :
  NoDup ((hit_path ∘ representative) <$> into_values files).
Proof.
  rewrite into_values_perm, <-list_fmap_compose.
  assert ((hit_path ∘ representative ∘ snd) <$> map_to_list files = fst <$> map_to_list files) as ->;
    [|apply NoDup_fst_map_to_list].
  apply list_fmap_ext. intros i [p s] Hi%list_elem_of_lookup_2%elem_of_map_to_list.
  apply fold_contributions_ok in Hi as (_ & Hp & _). exact Hp.
Qed.
End FuseResult.

(** Fused ranking: every file that some lane contributes appears exactly once,
    represented by an actual contribution of a lane whose evidence tier is the
    strongest the file has, ties going to the earlier lane and rank. *)
Theorem fuse_representatives `{UnicodeTables} (policy : FusionPolicy) (lanes : list (list Hit)) :
  let cs := contributions lanes in
  let out := fuse_search_file_lanes policy lanes in
  NoDup (hit_path <$> out) ∧
  (∀ p, p ∈ hit_path <$> out ↔ p ∈ contribution_path <$> cs) ∧
  (∀ h, h ∈ out → ∃ lane rank, (lane, rank, h) ∈ cs ∧
     ∀ c, c ∈ cs → contribution_path c = hit_path h → prefers policy (lane, rank, h) c).
Proof.
  intros cs out. destruct (fold_contributions_ok policy cs) as [Hfiles Hall].
  assert (∀ h, h ∈ out ↔ ∃ p s, foldl (add_contribution policy) ∅ cs !! p = Some s ∧
    h = representative s) as Hout.
  { intros h. unfold out, fuse_search_file_lanes. rewrite list_elem_of_fmap.
    setoid_rewrite elem_of_sort_by. setoid_rewrite into_values_elem. naive_solver. }
  split_and!.
  - unfold out, fuse_search_file_lanes. rewrite <-list_fmap_compose.
    rewrite (sort_by_perm file_compare). apply into_values_NoDup_paths.
  - intros p. rewrite !list_elem_of_fmap. split.
    + intros (h & -> & (q & s & Hs & ->)%Hout). destruct (Hfiles q s Hs) as (Hin & _).
      eexists. split; [|exact Hin]. done.
    + intros (c & -> & Hc). destruct (Hall c Hc) as [s Hs].
      exists (representative s). split; [|apply Hout; eauto].
      by destruct (Hfiles _ s Hs) as (_ & -> & _).
  - intros h (q & s & Hs & ->)%Hout. destruct (Hfiles q s Hs) as (Hin & Hp & _ & Hpref & _).
    eexists _, _. split; [exact Hin|]. intros c Hc Hcp. apply Hpref; [done|]. by rewrite Hcp.
Qed.

(** Fused order: the result is sorted by the file's strongest identifier
    evidence, then by its reciprocal-rank score (the sum over its lanes, in lane
    order, in double precision), then by path. *)
Theorem fuse_sorted `{UnicodeTables} (policy : FusionPolicy) (lanes : list (list Hit)) :
  StronglySorted (file_precedes policy (contributions lanes)) (fuse_search_file_lanes policy lanes).
Proof.
  unfold fuse_search_file_lanes. set (cs := contributions lanes).
  destruct (fold_contributions_ok policy cs) as [Hfiles _].
  pose proof (sort_by_sorted file_compare (into_values (foldl (add_contribution policy) ∅ cs))) as Hs.
  assert (∀ s, s ∈ sort_by file_compare (into_values (foldl (add_contribution policy) ∅ cs)) →
    file_ok policy cs (hit_path (representative s)) s) as Hok.
  { intros s Hin%elem_of_sort_by%into_values_elem. destruct Hin as [p Hp].
    pose proof (Hfiles p s Hp) as Hf. assert (hit_path (representative s) = p) as ->; [|exact Hf].
    by destruct Hf as (_ & ? & _). }
  induction Hs as [|s l Hl IH Hx]; [constructor|]. rewrite fmap_cons. constructor.
  { apply IH. intros t Ht. apply Hok. set_solver. }
  apply Forall_fmap, Forall_forall. intros t Ht. rewrite Forall_forall in Hx. specialize (Hx t Ht).
  destruct (Hok s ltac:(set_solver)) as (_ & _ & _ & _ & Hs1 & Hs2).
  destruct (Hok t ltac:(set_solver)) as (_ & _ & _ & _ & Ht1 & Ht2).
  unfold cmp_le, file_compare, cmp_then, cmp_rev, cmp_on, compose in Hx.
  unfold compose, file_precedes. rewrite <-Hs1, <-Hs2, <-Ht1, <-Ht2. revert Hx. clear.
  unfold then_with. intros Hx Hgt. apply Hx. by repeat case_match.
Qed.

(** ** The filename lane *)

Record FilenameCandidate := { candidate_score : nat; candidate_hit : Hit }.

(** [Ord] of the heap, and the final sort. *)
Definition candidate_compare : FilenameCandidate → FilenameCandidate → comparison :=
  cmp_then (cmp_rev (cmp_on candidate_score Nat.compare))
    (cmp_then (cmp_on (hit_path ∘ candidate_hit) str_compare)
      (cmp_then (cmp_on (hit_start ∘ candidate_hit) Nat.compare)
                (cmp_on (hit_end ∘ candidate_hit) Nat.compare))).
Definition candidate_sort : FilenameCandidate → FilenameCandidate → comparison :=
  cmp_then (cmp_rev (cmp_on candidate_score Nat.compare))
           (cmp_on (hit_path ∘ candidate_hit) str_compare).

Definition filename_hit (path : str) (revision : option str) (score : nat) : Hit :=
  {| hit_handle := []; hit_path := path; hit_revision := revision; hit_start := 0; hit_end := 0;
     hit_start_line := 1; hit_end_line := 1; hit_name := path; hit_kind := lit "file";
     hit_container := None;
     hit_provenance := Some (lit (match score with
       | 3 => "filename_exact" | 2 => "filename_tokens" | _ => "filename_partial" end));
     hit_resolution := None; hit_candidates := []; hit_target := None; hit_snippet := None;
     hit_repeats := None |}.

Record LaneHits := { lane_hits : list Hit; lane_truncated : bool }.

Definition cap_hits (hits : list Hit) (limit : nat) : LaneHits :=
  {| lane_hits := take limit hits; lane_truncated := limit <? length hits |}.

(** One pushed candidate: pop and mark when the heap is over its limit. *)
Definition file_step (st : list FilenameCandidate * bool) (c : FilenameCandidate)
    : list FilenameCandidate * bool :=
  let '(heap, truncated) := st in
  let heap := c :: heap in
  if FILE_CANDIDATE_LIMIT <? length heap then (heap_pop candidate_compare heap, true)
  else (heap, truncated).

Section FileLane.
Context `{UnicodeTables}.

(** [rows] is the result of the lane's SQL query: path and revision, by path. *)
Definition file_candidates (terms : list str) (rows : list (str * option str))
    : list FilenameCandidate :=
  rows ≫= λ '(path, revision),
    let score := filename_score path terms in
    if score =? 0 then []
    else [{| candidate_score := score; candidate_hit := filename_hit path revision score |}].

Definition file_hits (query : Query) (rows : list (str * option str)) : LaneHits :=
  if negb (kind query =s []) && negb (kind query =s lit "file") then
    {| lane_hits := []; lane_truncated := false |}
  else
    let '(heap, truncated) :=
      foldl file_step ([], false) (file_candidates (query_terms (text query)) rows) in
    {| lane_hits := candidate_hit <$> sort_by candidate_sort heap; lane_truncated := truncated |}.
End FileLane.

Lemma sort_by_ext {A} (c d : A → A → comparison) l :
  (∀ x y, x ∈ l → y ∈ l → c x y = d x y) → sort_by c l = sort_by d l.
Proof.
  induction l as [|x l IH]; intros Heq; cbn [sort_by]; [done|].
  rewrite IH by (intros; apply Heq; by apply elem_of_cons; right).
  assert (∀ y, y ∈ sort_by d l → c x y = d x y) as Hx.
  { intros y Hy. rewrite (elem_of_sort_by d) in Hy. apply Heq; [apply list_elem_of_here|by apply list_elem_of_further]. }
  clear IH Heq. induction (sort_by d l) as [|y s IHs]; cbn [insert_by]; [done|].
  rewrite Hx by (apply elem_of_cons; by left). destruct (d x y); [done..|]. f_equal.
  apply IHs. intros z Hz. apply Hx. apply elem_of_cons. by right.
Qed.

Lemma heap_offer_elem {A} (cmp : A → A → comparison) limit heap xs x :
  x ∈ foldl (heap_offer cmp limit) heap xs → x ∈ heap ∨ x ∈ xs.
Proof.
  revert heap. induction xs as [|y xs IH]; intros heap Hx; cbn [foldl] in Hx; [by left|].
  apply IH in Hx as [Hx|Hx]; [|right; by apply elem_of_cons; right].
  assert (x ∈ y :: heap) as Hin.
  { unfold heap_offer in Hx. cbn zeta in Hx. destruct (limit <? length (y :: heap)); [|exact Hx].
    rewrite <-(elem_of_sort_by cmp). eapply elem_of_subseteq; [|exact Hx].
    apply sublist_subseteq, sublist_take. }
  apply elem_of_cons in Hin as [->|Hin]; [right; apply elem_of_cons; by left|by left].
Qed.

Lemma file_steps heap truncated cs :
  length heap ≤ FILE_CANDIDATE_LIMIT →
  foldl file_step (heap, truncated) cs =
    (foldl (heap_offer candidate_compare FILE_CANDIDATE_LIMIT) heap cs,
     truncated || (FILE_CANDIDATE_LIMIT <? length heap + length cs)).
Proof.
  revert heap truncated. induction cs as [|c cs IH]; intros heap truncated Hh; cbn [foldl].
  { f_equal. rewrite (proj2 (Nat.ltb_ge _ _)) by (cbn; lia). by rewrite orb_false_r. }
  unfold file_step at 2, heap_offer at 2.
  destruct (Nat.ltb_spec FILE_CANDIDATE_LIMIT (length (c :: heap))) as [Hlt|Hge].
  - assert (length (heap_pop candidate_compare (c :: heap)) = length heap) as Hl.
    { unfold heap_pop. rewrite length_take, sort_by_length. cbn [length]. lia. }
    rewrite IH by lia. f_equal. cbn [orb]. symmetry. cbn [length] in *.
    rewrite (proj2 (Nat.ltb_lt _ _)) by lia. apply orb_true_r.
  - rewrite IH by done. cbn [length].
    by replace (S (length heap) + length cs) with (length heap + S (length cs)) by lia.
Qed.

#[export] Instance candidate_compare_comparator : Comparator candidate_compare.
Proof. unfold candidate_compare. apply _. Qed.

Lemma file_candidates_elem `{UnicodeTables} terms rows c :
  c ∈ file_candidates terms rows →
  hit_start (candidate_hit c) = 0 ∧ hit_end (candidate_hit c) = 0 ∧
  ∃ revision, (hit_path (candidate_hit c), revision) ∈ rows ∧
    c = {| candidate_score := filename_score (hit_path (candidate_hit c)) terms;
           candidate_hit := filename_hit (hit_path (candidate_hit c)) revision
             (filename_score (hit_path (candidate_hit c)) terms) |}.
Proof.
  unfold file_candidates. intros ([p r] & Hc & Hin)%list_elem_of_bind.
  destruct (_ =? 0); [set_solver|]. apply list_elem_of_singleton in Hc as ->. cbn. eauto.
Qed.

(** The filename lane is exact under its memory bound: with at most 1,001
    candidates in the heap it returns the first 1,000 of all matching files by
    score and path, and reports truncation exactly when there were more. *)
Theorem file_hits_exact `{UnicodeTables} (query : Query) (rows : list (str * option str)) :
  NoDup (fst <$> rows) → kind query = [] ∨ kind query = lit "file" →
  let all := file_candidates (query_terms (text query)) rows in
  file_hits query rows =
    {| lane_hits := candidate_hit <$> take FILE_CANDIDATE_LIMIT (sort_by candidate_sort all);
       lane_truncated := FILE_CANDIDATE_LIMIT <? length all |}.
Proof.
  intros Hnd Hkind all. unfold file_hits. fold all.
  assert (negb (kind query =s []) && negb (kind query =s lit "file") = false) as ->.
  { destruct Hkind as [->| ->]; by vm_compute. }
  rewrite file_steps by (cbn; lia). cbn [length orb Nat.add]. f_equal. f_equal.
  assert (∀ x y, x ∈ all → y ∈ all → candidate_compare x y = candidate_sort x y) as Hext.
  { intros x y (Hxs & Hxe & _)%file_candidates_elem (Hys & Hye & _)%file_candidates_elem.
    unfold candidate_compare, candidate_sort, cmp_then, cmp_on, compose.
    rewrite Hxs, Hxe, Hys, Hye. unfold then_with. by repeat case_match. }
  rewrite <-(sort_by_ext candidate_compare) .
  2: { intros x y Hx%heap_offer_elem Hy%heap_offer_elem. apply Hext; set_solver. }
  rewrite <-(sort_by_ext candidate_compare candidate_sort all Hext).
  apply (top_k_take candidate_compare). intros x y Hx Hy Heq.
  apply file_candidates_elem in Hx as (_ & _ & rx & Hx & ->), Hy as (_ & _ & ry & Hy & ->).
  assert (hit_path (candidate_hit x) = hit_path (candidate_hit y)) as Hp.
  { unfold candidate_compare, cmp_then, then_with, cmp_on, cmp_rev, compose in Heq. cbn in Heq.
    destruct (Nat.compare _ _); [|done..].
    destruct (str_compare _ _) eqn:E in Heq; [by apply (cmp_eq str_compare) in E|done..]. }
  rewrite Hp in Hx |- *. do 2 f_equal. revert Hnd Hx Hy. clear.
  induction rows as [|[p r] rows IH]; intros Hnd Hx Hy; [set_solver|].
  rewrite fmap_cons in Hnd. apply NoDup_cons in Hnd as [Hk Hnd]. cbn in Hk.
  apply elem_of_cons in Hx as [Hx|Hx], Hy as [Hy|Hy]; [congruence|..|by apply IH].
  - destruct Hk. injection Hx as <- _. by apply (list_elem_of_fmap_2 fst) in Hy.
  - destruct Hk. injection Hy as <- _. by apply (list_elem_of_fmap_2 fst) in Hx.
Qed.

Lemma file_hits_exact_witness :
  hit_path <$> lane_hits (file_hits {| text := lit "run"; path := PathFilter.filter_default;
    language := []; kind := []; exact := false; regex := false |}
    [(lit "src/a.rs", None); (lit "src/rerun.rs", None); (lit "src/run.rs", None)])
  = lit <$> ["src/run.rs"; "src/rerun.rs"].
Proof.
  rewrite file_hits_exact; [vm_compute; reflexivity| |left; reflexivity].
  apply (bool_decide_unpack _). by vm_compute.
Defined.
