(* ===== verification/Rerank.v ===== *)
(** * The rerank window

    Models [src/src/search/rerank_window.rs]: fetching the bodies of the first
    fused hits, scoring them, and reordering the window in place.  The snapshot
    read and the scorer are parameters. *)
From Stdlib Require Import Ascii String ZArith Lia Permutation Sorted.
From Corelib Require Import SpecFloat.
From stdpp Require Import base numbers list gmap strings.
From S2P Require Import Prelude Order Text Hits QueryShape Ranking Scheduler Frames.

Definition RERANK_WINDOW : nat := 32.
Definition BODY_CLAMP_BYTES : nat := 4096.

(** ** Documents *)

Definition clamp_document (bytes : str) : option str :=
  let clamped := take (Nat.min (length bytes) BODY_CLAMP_BYTES) bytes in
  let end_ := valid_up_to clamped in
  if end_ =? 0 then None else Some (take end_ clamped).

Section Window.
(** The [SELECT] of one hit's body: the bytes of [path] from one offset to the
    other, nothing when there is no such row, or a read error. *)
Context (body : str → nat → nat → result (option str)).

Fixpoint fetch_bodies (position : nat) (hits : list Hit) : result (list str * list nat) :=
  match hits with
  | [] => Ok ([], [])
  | hit :: hits' =>
      let '(start, end_) := if hit_start hit =? hit_end hit then (0, BODY_CLAMP_BYTES)
                            else (hit_start hit, hit_end hit) in
      bytes ← body (hit_path hit) start end_;
      '(documents, positions) ← fetch_bodies (S position) hits';
      Ok (match bytes ≫= clamp_document with
          | Some text => (text :: documents, position :: positions)
          | None => (documents, positions)
          end)
  end.

Definition fetch_window_bodies (hits : list Hit) (window : nat) : result (list str * list nat) :=
  fetch_bodies 0 (take window hits).
End Window.

(** ** In-place permutation *)

(** [slice.swap(i, j)]; an index out of range panics. *)
Definition swap {A} (i j : nat) (l : list A) : result (list A) :=
  match l !! i, l !! j with
  | Some a, Some b => Ok (<[i := b]> (<[j := a]> l))
  | _, _ => Err "index out of bounds"
  end.

(** [while destinations[i] != i]; each swap settles one position, so the length
    is enough fuel. *)
Fixpoint follow_cycle {A} (fuel i : nat) (slice : list A) (destinations : list nat)
    : result (list A * list nat) :=
  j ← or_err "index out of bounds" (destinations !! i);
  if j =? i then Ok (slice, destinations)
  else match fuel with
       | O => Err "out of fuel"
       | S fuel' =>
           slice ← swap i j slice;
           destinations ← swap i j destinations;
           follow_cycle fuel' i slice destinations
       end.

Fixpoint permute_from {A} (n : nat) (indices : list nat) (slice : list A) (destinations : list nat)
    : result (list A * list nat) :=
  match indices with
  | [] => Ok (slice, destinations)
  | i :: indices' =>
      '(slice, destinations) ← follow_cycle n i slice destinations;
      permute_from n indices' slice destinations
  end.

Definition permute_in_place {A} (slice : list A) (destinations : list nat)
    : result (list A * list nat) :=
  permute_from (length destinations) (seq 0 (length destinations)) slice destinations.

(** ** Reordering *)

Definition f32_opt : Type := option spec_float.

(** Scored positions by descending score, unscored ones after them. *)
Definition score_compare (left right : option spec_float) : comparison :=
  match left, right with
  | Some l, Some r => f32_total_cmp r l
  | _, _ => bool_compare (bool_decide (is_Some right)) (bool_decide (is_Some left))
  end.

Inductive RerankOutcome := Skipped | Unavailable (reason : string) | Ready (scored : nat).

Section Apply.
Context `{UnicodeTables} (policy : FusionPolicy).
Context (body : str → nat → nat → result (option str)).
Context (scorer : str → list str → result (list spec_float)).

Definition hit_tier (hits : list Hit) (i : nat) : nat :=
  match hits !! i with Some hit => tier (evidence_of policy hit) | None => 0 end.

Definition source_compare (hits : list Hit) (window_scores : list (option spec_float))
    : nat → nat → comparison :=
  cmp_then (cmp_on (hit_tier hits) Nat.compare)
    (cmp_then (cmp_on (λ i, default None (window_scores !! i)) score_compare) Nat.compare).

(** [window_scores[position] = score.is_finite().then_some(score)]. *)
Definition place_score (window_scores : list (option spec_float)) (ps : nat * spec_float)
    : list (option spec_float) :=
  <[ps.1 := if is_finite ps.2 then Some ps.2 else None]> window_scores.

(** [destinations[source] = target]. *)
Definition invert (window : nat) (sources : list nat) : list nat :=
  foldl (λ d ts, <[ts.2 := ts.1]> d) (replicate window 0) (imap pair sources).

(** The reordered hits and the status that goes into the coverage. *)
Definition rerank_apply (query_text : str) (hits : list Hit) : result (list Hit * RerankOutcome) :=
  if (query_text =s []) || (length hits =? 0) then Ok (hits, Skipped)
  else
    let window := Nat.min (length hits) RERANK_WINDOW in
    match fetch_window_bodies body hits window with
    | Err e => Ok (hits, Unavailable e)
    | Ok (documents, scored_positions) =>
        if length documents =? 0 then Ok (hits, Skipped)
        else match scorer query_text documents with
        | Err e => Ok (hits, Unavailable e)
        | Ok scores =>
            if negb (length scores =? length documents)
            then Ok (hits, Unavailable "rerank_worker: score count mismatch")
            else
              let window_scores :=
                foldl place_score (replicate window None) (zip scored_positions scores) in
              let sources := sort_by (source_compare hits window_scores) (seq 0 window) in
              let scored := length (filter is_Some window_scores) in
              let destinations := invert window sources in
              '(front, _) ← permute_in_place (take window hits) destinations;
              Ok (front ++ drop window hits, Ready scored)
        end
    end.
End Apply.

(** ** Documents are within the worker's bounds *)

Lemma clamp_document_spec bytes text :
  clamp_document bytes = Some text →
  text ≠ [] ∧ length text ≤ BODY_CLAMP_BYTES ∧ Utf8 text ∧ ∃ rest, bytes = text ++ rest.
Proof.
  unfold clamp_document. set (clamped := take _ bytes).
  destruct (Nat.eqb_spec (valid_up_to clamped) 0) as [|Hne]; [done|]. intros [= <-].
  pose proof (valid_up_to_le clamped) as Hle. split_and!.
  - intros Ht. apply (f_equal length) in Ht. rewrite length_take in Ht. cbn in Ht. lia.
  - rewrite length_take. unfold clamped in Hle |- *. rewrite length_take in *. lia.
  - apply valid_up_to_go_Utf8.
  - exists (drop (valid_up_to clamped) clamped ++ drop (Nat.min (length bytes) BODY_CLAMP_BYTES) bytes).
    rewrite app_assoc, take_drop. unfold clamped. by rewrite take_drop.
Qed.

Lemma fetch_bodies_spec body position hits documents positions :
  fetch_bodies body position hits = Ok (documents, positions) →
  length documents = length positions ∧ length documents ≤ length hits ∧
  Forall (λ d, d ≠ [] ∧ length d ≤ BODY_CLAMP_BYTES ∧ Utf8 d) documents ∧
  Forall (λ i, position ≤ i < position + length hits) positions ∧ NoDup positions.
Proof.
  revert position documents positions.
  induction hits as [|hit hits IH]; intros position documents positions Hf; cbn [fetch_bodies] in Hf.
  { injection Hf as <- <-. split_and!; repeat constructor. }
  destruct (if hit_start hit =? hit_end hit then _ else _) as [start end_].
  apply bind_Ok in Hf as (bytes & _ & Hf). apply bind_Ok in Hf as ([ds ps] & Hrest & Hf).
  apply IH in Hrest as (Hl & Hle & Hd & Hp & Hnd). injection Hf as Hf.
  assert (Forall (λ i, position ≤ i < position + length (hit :: hits)) ps) as Hp'
    by (eapply Forall_impl; [exact Hp|]; cbn; lia).
  destruct (bytes ≫= clamp_document) as [text|] eqn:E; injection Hf as <- <-.
  - destruct bytes as [b|]; [|done]. apply clamp_document_spec in E as (? & ? & ? & _).
    cbn [length]. split_and!; [lia|lia|by constructor|..].
    + constructor; [cbn; lia|done].
    + constructor; [|done]. intros Hin. rewrite Forall_forall in Hp. specialize (Hp _ Hin). lia.
  - cbn [length]. split_and!; [done|lia|done|done|done].
Qed.

(** Rerank requests are admissible: the documents fetched for a window always
    satisfy the worker's document bounds, each is non-empty valid UTF-8, and
    together with a query of at most 4096 bytes the request passes
    [check_rerank_bounds]. *)
Theorem fetched_documents_admissible (body : str → nat → nat → result (option str))
    (hits : list Hit) (query : str) (documents : list str) (positions : list nat) :
  fetch_window_bodies body hits (Nat.min (length hits) RERANK_WINDOW) = Ok (documents, positions) →
  (len query ≤ RERANK_MAX_DOCUMENT_BYTES)%Z →
  check_rerank_bounds query documents = Ok tt ∧
  length documents = length positions ∧ Forall (λ d, d ≠ [] ∧ utf8_valid d = true) documents.
Proof.
  intros (Hl & Hle & Hd & _ & _)%fetch_bodies_spec Hq. split_and!; [|done|].
  - unfold check_rerank_bounds. rewrite !ensure_bind, !negb_true_iff, !Z.ltb_ge, check_documents_Ok.
    unfold RERANK_MAX_DOCUMENTS, RERANK_WINDOW in *. rewrite length_take in Hle.
    split_and!; [lia|done|]. eapply Forall_impl; [exact Hd|]. intros d (_ & Hdl & _).
    unfold len, RERANK_MAX_DOCUMENT_BYTES, BODY_CLAMP_BYTES in *. lia.
  - eapply Forall_impl; [exact Hd|]. intros d (? & _ & ?). split; [done|by apply utf8_valid_iff].
Qed.

(** ** The permutation loop *)

Lemma swap_perm {A} i j (l l' : list A) : swap i j l = Ok l' → l' ≡ₚ l.
Proof.
  unfold swap. destruct (l !! i) as [a|] eqn:Ea; [|done]. destruct (l !! j) as [b|] eqn:Eb; [|done].
  intros [= <-]. by apply Permutation_insert_swap.
Qed.

Lemma swap_lookup {A} i j (l l' : list A) m :
  swap i j l = Ok l' →
  l' !! m = if decide (m = i) then l !! j else if decide (m = j) then l !! i else l !! m.
Proof.
  unfold swap. destruct (l !! i) as [a|] eqn:Ea; [|done]. destruct (l !! j) as [b|] eqn:Eb; [|done].
  intros [= <-]. pose proof (lookup_lt_Some _ _ _ Ea). pose proof (lookup_lt_Some _ _ _ Eb).
  rewrite !list_lookup_insert, length_insert. repeat case_decide; naive_solver.
Qed.

Lemma swap_total {A} i j (l : list A) : i < length l → j < length l → ∃ l', swap i j l = Ok l'.
Proof.
  intros Hi Hj. unfold swap. destruct (lookup_lt_is_Some_2 l i Hi) as [a ->].
  destruct (lookup_lt_is_Some_2 l j Hj) as [b ->]. eauto.
Qed.

Lemma swap_zip {A B} i j (l l' : list A) (k k' : list B) :
  swap i j l = Ok l' → swap i j k = Ok k' → zip l' k' ≡ₚ zip l k.
Proof.
  intros Hl Hk. assert (swap i j (zip l k) = Ok (zip l' k')) as Hz; [|by eapply swap_perm].
  assert (∀ m, zip l' k' !! m =
    if decide (m = i) then zip l k !! j else if decide (m = j) then zip l k !! i else zip l k !! m) as Hm.
  { intros m. rewrite !lookup_zip_with, (swap_lookup i j l l' m Hl), (swap_lookup i j k k' m Hk).
    by repeat case_decide. }
  revert Hl Hk. unfold swap. destruct (l !! i) as [a|] eqn:Ea; [|done].
  destruct (l !! j) as [b|] eqn:Eb; [|done]. intros _.
  destruct (k !! i) as [c|] eqn:Ec; [|done]. destruct (k !! j) as [d|] eqn:Ed; [|done]. intros _.
  assert (zip l k !! i = Some (a, c)) as Hi by by rewrite lookup_zip_with, Ea; cbn; rewrite Ec.
  assert (zip l k !! j = Some (b, d)) as Hj by by rewrite lookup_zip_with, Eb; cbn; rewrite Ed.
  rewrite Hi, Hj. f_equal. apply list_eq. intros m. rewrite Hm, Hi, Hj.
  rewrite !list_lookup_insert, length_insert.
  apply lookup_lt_Some in Hi, Hj. repeat case_decide; naive_solver.
Qed.

(** Positions that are not yet their own destination. *)
Definition unsettled (d : list nat) : nat :=
  length (filter (λ k, d !! k ≠ Some k) (seq 0 (length d))).

Lemma length_filter_sub {A} (P Q : A → Prop) `{∀ x, Decision (P x), ∀ x, Decision (Q x)} l x :
  (∀ y, P y → Q y) → x ∈ l → Q x → ¬ P x → length (filter P l) < length (filter Q l).
Proof.
  intros Hsub Hx HQ HP. induction l as [|y l IH]; [by apply not_elem_of_nil in Hx|].
  assert (length (filter P l) ≤ length (filter Q l)) as Hle.
  { clear -Hsub. induction l as [|z l IH]; [done|]. rewrite !filter_cons.
    destruct (decide (P z)), (decide (Q z)); cbn; try lia. naive_solver. }
  rewrite !filter_cons. apply elem_of_cons in Hx as [->|Hx].
  - rewrite decide_False, decide_True by done. cbn. lia.
  - specialize (IH Hx). destruct (decide (P y)), (decide (Q y)); cbn; try lia. naive_solver.
Qed.

(** One swap at an unsettled position: the destination settles, and what was
    settled stays settled. *)
Lemma swap_settles d i j d' :
  NoDup d → d !! i = Some j → j ≠ i → swap i j d = Ok d' →
  (∀ k, d !! k = Some k → d' !! k = Some k) ∧ unsettled d' < unsettled d.
Proof.
  intros Hnd Hi Hne Hs.
  assert (∀ k, d !! k = Some k → d' !! k = Some k) as Hkeep.
  { intros k Hk. rewrite (swap_lookup _ _ _ _ k Hs).
    destruct (decide (k = i)) as [->|]; [congruence|]. destruct (decide (k = j)) as [->|]; [|done].
    by rewrite Hi. }
  split; [done|]. unfold unsettled.
  rewrite <-(Permutation_length (swap_perm _ _ _ _ Hs)).
  assert (j < length d').
  { rewrite (Permutation_length (swap_perm _ _ _ _ Hs)). unfold swap in Hs. rewrite Hi in Hs.
    destruct (d !! j) eqn:Ej; [|done]. by eapply lookup_lt_Some. }
  apply (length_filter_sub _ _ _ j).
  - intros k Hk Hk'. by apply Hk, Hkeep.
  - apply elem_of_seq. lia.
  - intros Hj. apply Hne. symmetry. by eapply NoDup_lookup.
  - rewrite (swap_lookup _ _ _ _ j Hs), decide_False, decide_True by done. by intros [].
Qed.

Lemma follow_cycle_spec {A} fuel i (l : list A) d :
  d ≡ₚ seq 0 (length d) → length l = length d → i < length d → unsettled d ≤ fuel →
  ∃ l' d', follow_cycle fuel i l d = Ok (l', d') ∧ d' ≡ₚ d ∧ length l' = length d ∧
    zip l' d' ≡ₚ zip l d ∧ d' !! i = Some i ∧ (∀ k, d !! k = Some k → d' !! k = Some k).
Proof.
  revert l d. induction fuel as [|fuel IH]; intros l d Hp Hl Hi Hf;
    destruct (lookup_lt_is_Some_2 d i Hi) as [j Hj]; cbn [follow_cycle]; rewrite Hj;
    cbn [or_err mbind result_bind]; (destruct (Nat.eqb_spec j i) as [->|Hne];
      [exists l, d; split_and!; done|]).
  - exfalso. unfold unsettled in Hf. assert (i ∈ filter (λ k, d !! k ≠ Some k) (seq 0 (length d))) as Hin.
    { apply list_elem_of_filter. split; [congruence|]. apply elem_of_seq. lia. }
    destruct (filter _ _); [set_solver|simpl in Hf; lia].
  - assert (NoDup d) as Hnd by (rewrite Hp; apply NoDup_seq).
    assert (j < length d) as Hjl.
    { apply list_elem_of_lookup_2 in Hj. rewrite Hp in Hj. apply elem_of_seq in Hj. lia. }
    destruct (swap_total i j l) as [l1 Hl1]; [lia..|]. destruct (swap_total i j d) as [d1 Hd1]; [lia..|].
    rewrite Hl1, Hd1. cbn [mbind result_bind].
    destruct (swap_settles d i j d1) as [Hkeep Hlt]; [done..|].
    pose proof (swap_perm _ _ _ _ Hd1) as Hpd. pose proof (swap_perm _ _ _ _ Hl1) as Hpl.
    pose proof (Permutation_length Hpd) as Hld. pose proof (Permutation_length Hpl) as Hll.
    destruct (IH l1 d1) as (l' & d' & Hr & Hp' & Hl' & Hz & Hi' & Hk'); [by rewrite Hpd|lia..|].
    exists l', d'. split_and!; [done|by rewrite Hp'|lia| |done|auto].
    rewrite Hz. by eapply swap_zip.
Qed.

Lemma unsettled_le d : unsettled d ≤ length d.
Proof. unfold unsettled. pose proof (length_filter (λ k, d !! k ≠ Some k) (seq 0 (length d))). rewrite length_seq in *. lia. Qed.

Lemma permute_from_spec {A} n indices (l : list A) d :
  d ≡ₚ seq 0 (length d) → length l = length d → n = length d → Forall (λ i, i < n) indices →
  ∃ l' d', permute_from n indices l d = Ok (l', d') ∧ d' ≡ₚ d ∧ length l' = length d ∧
    zip l' d' ≡ₚ zip l d ∧ (∀ i, i ∈ indices → d' !! i = Some i) ∧
    (∀ k, d !! k = Some k → d' !! k = Some k).
Proof.
  intros Hp Hl -> Hall. revert l d Hp Hl Hall. induction indices as [|i indices IH]; intros l d Hp Hl Hall.
  { exists l, d. split_and!; try done. set_solver. }
  apply Forall_cons in Hall as [Hi Hall]. cbn [permute_from].
  destruct (follow_cycle_spec (length d) i l d) as (l1 & d1 & -> & Hp1 & Hl1 & Hz1 & Hi1 & Hk1);
    [done|done|done|apply unsettled_le|]. cbn [mbind result_bind].
  pose proof (Permutation_length Hp1) as Hlen1.
  destruct (IH l1 d1) as (l' & d' & Hr & Hp' & Hl' & Hz & Hin & Hk);
    [by rewrite Hp1|lia|by rewrite Hlen1|].
  rewrite Hlen1 in Hr. exists l', d'.
  split_and!; [done|by rewrite Hp'|lia|by rewrite Hz| |auto].
  intros m [->|Hm]%elem_of_cons; [by apply Hk|by apply Hin].
Qed.

Lemma permute_in_place_moves {A} (l : list A) d :
  d ≡ₚ seq 0 (length d) → length l = length d →
  ∃ l', permute_in_place l d = Ok (l', seq 0 (length d)) ∧ length l' = length l ∧
    ∀ k t, d !! k = Some t → l' !! t = l !! k.
Proof.
  intros Hp Hl. unfold permute_in_place.
  destruct (permute_from_spec (length d) (seq 0 (length d)) l d)
    as (l' & d' & -> & Hp' & Hl' & Hz & Hin & _); [done|done|done| |].
  { apply Forall_forall. intros i Hi%elem_of_seq. lia. }
  assert (d' = seq 0 (length d)) as ->.
  { apply list_eq. intros i. pose proof (Permutation_length Hp') as Hlen.
    destruct (decide (i < length d)) as [Hi|Hi].
    - rewrite lookup_seq_lt by done. cbn. apply Hin, elem_of_seq. lia.
    - rewrite lookup_seq_ge by lia. apply lookup_ge_None. lia. }
  exists l'. split_and!; [done|lia|]. intros k t Hk.
  assert (k < length l) as Hkl by (rewrite Hl; by eapply lookup_lt_Some).
  destruct (lookup_lt_is_Some_2 l k Hkl) as [a Ha]. rewrite Ha.
  assert ((a, t) ∈ zip l' (seq 0 (length d))) as Hat.
  { rewrite Hz. apply list_elem_of_lookup. exists k. by rewrite lookup_zip_with, Ha; cbn; rewrite Hk. }
  apply list_elem_of_lookup in Hat as [m Hm]. rewrite lookup_zip_with in Hm.
  destruct (l' !! m) as [b|] eqn:Eb; [|done]. cbn in Hm.
  destruct (seq 0 (length d) !! m) as [x|] eqn:Ex; [|done]. cbn in Hm. injection Hm as -> ->.
  apply lookup_seq in Ex as [-> _]. by cbn.
Qed.

(** In-place permutation: for any destination map that is a permutation of
    the slice's indices, the cycle-following loop ends, moves the element at
    every position [k] to [destinations[k]], and leaves the scratch array
    settled. *)
Theorem permute_in_place_spec {A} (slice : list A) (destinations : list nat) :
  destinations ≡ₚ seq 0 (length destinations) → length slice = length destinations →
  ∃ out, permute_in_place slice destinations = Ok (out, seq 0 (length destinations)) ∧
    length out = length slice ∧
    ∀ k target, destinations !! k = Some target → out !! target = slice !! k.
Proof. apply permute_in_place_moves. Qed.

Lemma permute_in_place_spec_witness :
  ∃ out, permute_in_place ["a"; "b"; "c"; "d"] [2; 0; 3; 1] = Ok (out, [0; 1; 2; 3]) ∧
    out = ["b"; "d"; "a"; "c"].
Proof.
  destruct (permute_in_place_spec ["a"; "b"; "c"; "d"] [2; 0; 3; 1]) as (out & Hout & _).
  - apply (bool_decide_unpack _). by vm_compute.
  - reflexivity.
  - exists out. split; [exact Hout|]. vm_compute in Hout. injection Hout as <-. reflexivity.
Defined.

(** ** The reordered window *)

Lemma comparator_ext {A} (c d : A → A → comparison) :
  Comparator c → (∀ x y, c x y = d x y) → Comparator d.
Proof.
  intros Hc Heq. split.
  - intros x y. rewrite <-!Heq. apply (cmp_opp c).
  - intros x y z. rewrite <-!Heq. apply (cmp_le_trans c).
Qed.

#[export] Instance score_compare_comparator : Comparator score_compare.
Proof.
  apply (comparator_ext (cmp_then
    (cmp_rev (cmp_on (λ o : option spec_float, bool_decide (is_Some o)) bool_compare))
    (cmp_rev (cmp_on (λ o, default 0%Z (total_key 24 128 <$> o)) Z.compare)))); [apply _|].
  intros [x|] [y|]; unfold cmp_then, cmp_rev, cmp_on, score_compare; cbn [then_with];
    by repeat (rewrite bool_decide_eq_true_2 by eauto || rewrite (bool_decide_eq_false_2 (is_Some None)) by by intros []).
Qed.

#[export] Instance source_compare_comparator `{UnicodeTables} policy hits scores :
  Comparator (source_compare policy hits scores).
Proof. unfold source_compare. apply _. Qed.

Lemma invert_lookup (d : list nat) pairs t s :
  (t, s) ∈ pairs → NoDup pairs.*2 → s < length d →
  foldl (λ d ts, <[ts.2 := ts.1]> d) d pairs !! s = Some t.
Proof.
  induction pairs as [|[t' s'] pairs IH] using rev_ind; [set_solver|].
  intros Hin Hnd Hs. rewrite foldl_app. cbn [foldl fst snd].
  rewrite fmap_app, NoDup_app in Hnd. destruct Hnd as (Hnd & Hdis & _).
  assert (∀ (d : list nat), length (foldl (λ d ts, <[ts.2 := ts.1]> d) d pairs) = length d) as Hlen.
  { clear. induction pairs as [|p pairs IH]; intros d; cbn [foldl]; [done|]. by rewrite IH, length_insert. }
  apply elem_of_app in Hin as [Hin|Hin].
  - rewrite list_lookup_insert_ne; [by apply IH|]. intros ->. apply (Hdis s).
    + by apply (list_elem_of_fmap_2 snd) in Hin.
    + cbn. set_solver.
  - apply list_elem_of_singleton in Hin as [= <- <-]. apply list_lookup_insert_eq. by rewrite Hlen.
Qed.

Lemma invert_spec window sources :
  sources ≡ₚ seq 0 window →
  invert window sources ≡ₚ seq 0 window ∧
  ∀ t s, sources !! t = Some s → invert window sources !! s = Some t.
Proof.
  intros Hp. assert (length (invert window sources) = window) as Hlen.
  { unfold invert. assert (∀ ps (d : list nat), length (foldl (λ d ts, <[ts.2 := ts.1]> d) d ps) = length d) as Hl.
    { induction ps as [|p ps IH]; intros d; cbn [foldl]; [done|]. by rewrite IH, length_insert. }
    by rewrite Hl, length_replicate. }
  pose proof (Permutation_length Hp) as Hls. rewrite length_seq in Hls.
  assert (∀ t s, sources !! t = Some s → s < window) as Hrange.
  { intros t s Hs%list_elem_of_lookup_2. rewrite Hp in Hs. apply elem_of_seq in Hs. lia. }
  assert (∀ t s, sources !! t = Some s → invert window sources !! s = Some t) as Hinv.
  { intros t s Hs. unfold invert. apply invert_lookup.
    - apply list_elem_of_lookup. exists t. by rewrite list_lookup_imap, Hs.
    - assert ((imap pair sources).*2 = sources) as ->.
      { apply list_eq. intros i. rewrite list_lookup_fmap, list_lookup_imap. by destruct (sources !! i). }
      rewrite Hp. apply NoDup_seq.
    - rewrite length_replicate. eauto. }
  assert (∀ s, s < window → ∃ t, sources !! t = Some s) as Hsurj.
  { intros s Hs. apply list_elem_of_lookup. rewrite Hp. apply elem_of_seq. lia. }
  split; [|done]. apply NoDup_Permutation; [|apply NoDup_seq|].
  - apply NoDup_alt. intros s1 s2 t H1 H2.
    destruct (Hsurj s1) as [t1 Ht1]; [rewrite <-Hlen; by eapply lookup_lt_Some|].
    destruct (Hsurj s2) as [t2 Ht2]; [rewrite <-Hlen; by eapply lookup_lt_Some|].
    pose proof (Hinv _ _ Ht1). pose proof (Hinv _ _ Ht2). congruence.
  - intros t. rewrite elem_of_seq. split.
    + intros (s & Hs)%list_elem_of_lookup.
      destruct (Hsurj s) as [t' Ht']; [rewrite <-Hlen; by eapply lookup_lt_Some|].
      pose proof (Hinv _ _ Ht'). apply lookup_lt_Some in Ht' as ?. assert (t = t') by congruence. lia.
    + intros Ht. destruct (lookup_lt_is_Some_2 sources t) as [s Hs]; [lia|].
      apply list_elem_of_lookup. eauto.
Qed.

Lemma reorder_spec {A} (front : list A) sources :
  sources ≡ₚ seq 0 (length front) →
  ∃ out rest, permute_in_place front (invert (length front) sources) = Ok (out, rest) ∧
    out = omap (front !!.) sources ∧ out ≡ₚ front.
Proof.
  intros Hp. destruct (invert_spec _ _ Hp) as [Hd Hinv].
  pose proof (Permutation_length Hd) as Hld. rewrite length_seq in Hld.
  pose proof (Permutation_length Hp) as Hls. rewrite length_seq in Hls.
  destruct (permute_in_place_moves front (invert (length front) sources)) as (out & Hout & Hlen & Hmove);
    [by rewrite Hld|done|].
  assert (∀ (l : list nat), (∀ s, s ∈ l → s < length front) → ∀ t : nat, omap (front !!.) l !! t = l !! t ≫= (front !!.)) as Homap.
  { induction l as [|s l IH]; intros Hl t; [done|]. cbn [omap list_omap].
    destruct (lookup_lt_is_Some_2 front s) as [a Ha]; [apply Hl; set_solver|]. rewrite Ha.
    destruct t as [|t]; cbn; [done|]. apply IH. set_solver. }
  assert (∀ s, s ∈ sources → s < length front) as Hrange.
  { intros s Hs. rewrite Hp in Hs. apply elem_of_seq in Hs. lia. }
  assert (out = omap (front !!.) sources) as Heq.
  { apply list_eq. intros t. rewrite (Homap sources) by done.
    destruct (sources !! t) as [s|] eqn:Es; cbn.
    - by apply Hmove, Hinv.
    - apply lookup_ge_None. apply lookup_ge_None in Es. lia. }
  eexists out, _. split_and!; [done|done|]. rewrite Heq, Hp.
  assert (omap (front !!.) (seq 0 (length front)) = front) as ->; [|done].
  apply list_eq. intros t. rewrite Homap by (intros s Hs%elem_of_seq; lia).
  destruct (decide (t < length front)) as [Ht|Ht].
  - by rewrite lookup_seq_lt by done.
  - rewrite lookup_seq_ge by lia. symmetry. apply lookup_ge_None. lia.
Qed.

(** Reranking only reorders: whatever the snapshot and the scorer return, the
    call ends without an out-of-range access, its hits are a permutation of the
    fused hits with everything beyond the 32-hit window in place; and unless
    scores for all documents came back, the order is unchanged. *)
Theorem rerank_permutes `{UnicodeTables} (policy : FusionPolicy)
    (body : str → nat → nat → result (option str)) (scorer : str → list str → result (list spec_float))
    (query_text : str) (hits : list Hit) :
  ∃ out outcome, rerank_apply policy body scorer query_text hits = Ok (out, outcome) ∧
    out ≡ₚ hits ∧ drop RERANK_WINDOW out = drop RERANK_WINDOW hits ∧
    (match outcome with Ready _ => True | _ => out = hits end).
Proof.
  unfold rerank_apply. destruct (_ || _); [by eexists _, _|].
  set (window := Nat.min _ _). destruct (fetch_window_bodies body hits window) as [[ds ps]|e]; [|by eexists _, _].
  destruct (length ds =? 0); [by eexists _, _|].
  destruct (scorer query_text ds) as [scores|e]; [|by eexists _, _].
  destruct (negb _); [by eexists _, _|]. cbn zeta.
  set (cmp := source_compare _ _ _). set (front := take window hits).
  assert (length front = window) as Hlf by (unfold front; rewrite length_take; lia).
  destruct (reorder_spec front (sort_by cmp (seq 0 window))) as (out & rest & Hp & _ & Hperm);
    [by rewrite Hlf, sort_by_perm|].
  rewrite Hlf in Hp. rewrite Hp. cbn [mbind result_bind]. eexists _, _. split_and!; [done|..|done].
  - rewrite Hperm. unfold front. by rewrite take_drop.
  - pose proof (Permutation_length Hperm) as Hlo. unfold window in *.
    destruct (decide (length hits ≤ RERANK_WINDOW)) as [Hle|Hgt].
    + rewrite !drop_ge; [done|lia|]. rewrite length_app, length_drop. lia.
    + rewrite drop_app_length' by lia. f_equal. lia.
Qed.

(** Rerank order: with scores for every document the window holds the same
    hits sorted by evidence tier, then by descending score with unscored hits
    last in their tier, ties in fused order. *)
Theorem rerank_sorted `{UnicodeTables} (policy : FusionPolicy)
    (body : str → nat → nat → result (option str)) (scorer : str → list str → result (list spec_float))
    (query_text : str) (hits out : list Hit) (scored : nat) :
  rerank_apply policy body scorer query_text hits = Ok (out, Ready scored) →
  let window := Nat.min (length hits) RERANK_WINDOW in
  ∃ documents positions scores sources,
    fetch_window_bodies body hits window = Ok (documents, positions) ∧
    scorer query_text documents = Ok scores ∧ length scores = length documents ∧
    let window_scores := foldl place_score (replicate window None) (zip positions scores) in
    sources ≡ₚ seq 0 window ∧
    StronglySorted (cmp_le (source_compare policy hits window_scores)) sources ∧
    out = omap (take window hits !!.) sources ++ drop window hits.
Proof.
  unfold rerank_apply. cbn zeta. set (window := Nat.min (length hits) RERANK_WINDOW).
  destruct (_ || _); [done|]. intros Hr.
  destruct (fetch_window_bodies body hits window) as [[ds ps]|e] eqn:Hf; [|done].
  destruct (length ds =? 0); [done|].
  destruct (scorer query_text ds) as [scores|e] eqn:Hsc; [|done].
  destruct (Nat.eqb_spec (length scores) (length ds)) as [Hlen|]; [|done]. cbn [negb] in Hr. cbn zeta in Hr.
  revert Hr. set (ws := foldl place_score _ _). set (cmp := source_compare _ _ _). intros Hr.
  set (front := take window hits) in *.
  assert (length front = window) as Hlf by (unfold front; rewrite length_take; lia).
  destruct (reorder_spec front (sort_by cmp (seq 0 window))) as (o & rest & Hp & Ho & Hperm);
    [by rewrite Hlf, sort_by_perm|].
  rewrite Hlf in Hp. rewrite Hp in Hr. cbn [mbind result_bind] in Hr. injection Hr as <- _.
  exists ds, ps, scores, (sort_by cmp (seq 0 window)).
  split_and!; [done..|apply sort_by_perm|apply (sort_by_sorted cmp)|by rewrite Ho].
Qed.

(** Three hits, the second without a body, and a scorer that prefers the last. *)
Module RerankExample.
Definition hit (path : string) : Hit := filename_hit (lit path) None 1.
Definition hits : list Hit := [hit "a"; hit "b"; hit "c"].
Definition body (path : str) (start end_ : nat) : result (option str) :=
  Ok (if path =s lit "b" then None else Some path).
Definition scorer (query : str) (documents : list str) : result (list spec_float) :=
  Ok (imap (λ i _, f32_of_Z (Z.of_nat i)) documents).
Definition policy : FusionPolicy := {| lane_weights := true; identifier_tier := false;
  prior := {| demote_tests := false; demote_docs := false; exempt_named := false; terms := [] |};
  prior_from_lane := 0 |}.
End RerankExample.

Lemma fetched_documents_admissible_witness :
  check_rerank_bounds (lit "q") (lit <$> ["a"; "c"]) = Ok tt.
Proof.
  apply (fetched_documents_admissible RerankExample.body RerankExample.hits (lit "q")
    (lit <$> ["a"; "c"]) [0; 2]); [vm_compute; reflexivity|vm_compute; congruence].
Defined.

Lemma rerank_sorted_witness :
  rerank_apply RerankExample.policy RerankExample.body RerankExample.scorer (lit "q") RerankExample.hits
    = Ok ([RerankExample.hit "c"; RerankExample.hit "a"; RerankExample.hit "b"], Ready 2) ∧
  ∃ sources, sources ≡ₚ [0; 1; 2].
Proof.
  assert (rerank_apply RerankExample.policy RerankExample.body RerankExample.scorer (lit "q")
    RerankExample.hits
    = Ok ([RerankExample.hit "c"; RerankExample.hit "a"; RerankExample.hit "b"], Ready 2)) as Hr
    by (vm_compute; reflexivity).
  split; [exact Hr|].
  destruct (rerank_sorted _ _ _ _ _ _ _ Hr) as (_ & _ & _ & sources & _ & _ & _ & Hp & _).
  exists sources. exact Hp.
Defined.
