(* ===== verification/Source.v ===== *)
(** * Source reads

    Models [src/src/source.rs] (line arithmetic, byte escaping, budgeted
    rendering), [src/src/source/lines.rs] (the lines form of a read) and
    [src/src/source/acquisition.rs] (acquiring and verifying the bytes of a
    handle, cursor or path).  The file system, Git, BLAKE3 and the symbol lookup
    are parameters. *)
From Stdlib Require Import Ascii String ZArith Lia Permutation.
From stdpp Require Import base numbers list gmap strings.
From S2P Require Import Prelude Order Text Identity Paths Hits Pages.

(** ** Lines *)

Definition is_nl (c : ascii) : bool := c =c nl.

Definition line_at (bytes : str) (offset : nat) : nat :=
  1 + length (List.filter is_nl (take (Nat.min offset (length bytes)) bytes)).

Definition line_span (bytes : str) (start end_ : nat) : nat * nat :=
  (line_at bytes start, line_at bytes (if start <? end_ then end_ - 1 else start)).

(** The scan of [current_span] from byte [i] on; [line] is the line it is in. *)
Fixpoint span_scan (bytes : str) (i : nat) (line first last : Z) (start : option nat) (end_ : nat)
    : option nat * nat :=
  match bytes with
  | [] => (start, end_)
  | byte :: bytes' =>
      if is_nl byte then
        if (line =? last)%Z then (start, i + 1)
        else
          let line := (line + 1)%Z in
          let start := if (line =? first)%Z then Some (i + 1) else start in
          span_scan bytes' (S i) line first last start end_
      else span_scan bytes' (S i) line first last start end_
  end.

Definition current_span (bytes : str) (first last : Z) : result (nat * nat) :=
  if (first =? 0)%Z || (last <? first)%Z
  then Err "invalid_range: lines must be one-based and inclusive"
  else
    let '(start, end_) := span_scan bytes 0 1 first last
      (if (first =? 1)%Z then Some 0 else None) (length bytes) in
    start ← or_err "invalid_range: first line is beyond end of file" start;
    Ok (start, end_).

(** [slice::split_inclusive] at newlines. *)
Fixpoint split_lines (bytes : str) : list str :=
  match bytes with
  | [] => []
  | c :: bytes' =>
      if is_nl c then [c] :: split_lines bytes'
      else match split_lines bytes' with
           | [] => [[c]]
           | l :: ls => (c :: l) :: ls
           end
  end.

(** ** Displayed bytes *)

Definition plain_byte (c : ascii) : bool := in_range 32 126 c && negb (c =c chr 92).
Definition escape_byte (c : ascii) : str :=
  if plain_byte c then [c] else [chr 92; "x"%char] ++ hex2_lower c.

Definition display_bytes (bytes : str) : str * string :=
  if utf8_valid bytes then (bytes, "utf8") else (bytes ≫= escape_byte, "byte-escaped").

(** ** Rendering a read *)

Inductive SourceSide := Before | After.
#[export] Instance source_side_eq_dec : EqDecision SourceSide.
Proof. solve_decision. Defined.
Definition side_as_str (side : SourceSide) : str :=
  match side with Before => lit "before" | After => lit "after" end.
Definition side_parse (value : str) : result SourceSide :=
  if value =s lit "before" then Ok Before
  else if value =s lit "after" then Ok After
  else Err "invalid_side: expected before or after".

Record ImportHop := { hop_site : str; hop_path : str; hop_reexport : bool }.
Record ImportTrail := { hops : list ImportHop; followed : bool; trail_candidates : nat }.
Record SymbolSelection := {
  declarations : nat;
  imports : nat;
  also : list str;
  import : option ImportTrail;
}.

Record AcquiredSource := {
  acq_bytes : str;
  acq_path : str;
  acq_revision : str;
  acq_span : ByteSpan.t;
  acq_verified : bool;
  acq_handle : str;
  acq_side : option SourceSide;
  acq_historical : option HistoricalSource;
  acq_definitions : option SymbolSelection;
  acq_freshness : option str;
}.

Record SourceRow := {
  row_line : nat;
  row_start : nat;
  row_end : nat;
  row_text : str;
  row_encoding : string;
}.

(** The rows of the given lines, from a line number and a byte offset on. *)
Fixpoint rows_from (line offset : nat) (lines : list str) : list SourceRow :=
  match lines with
  | [] => []
  | l :: lines' =>
      let '(text, encoding) := display_bytes l in
      {| row_line := line; row_start := offset; row_end := offset + length l;
         row_text := text; row_encoding := encoding |}
      :: rows_from (S line) (offset + length l) lines'
  end.

Definition source_rows (source : AcquiredSource) : list SourceRow :=
  let start := ByteSpan.start (acq_span source) in
  let end_ := ByteSpan.end_ (acq_span source) in
  rows_from (line_span (acq_bytes source) start end_).1 start
    (take 200 (split_lines (take (end_ - start) (drop start (acq_bytes source))))).

Definition row_value (r : SourceRow) : Json :=
  JObj [(lit "encoding", JStr (lit (row_encoding r))); (lit "end", jnat (row_end r));
        (lit "line", jnat (row_line r)); (lit "start", jnat (row_start r));
        (lit "text", JStr (row_text r))].

Definition hop_value (h : ImportHop) : Json :=
  JObj [(lit "path", JStr (hop_path h)); (lit "reexport", JBool (hop_reexport h));
        (lit "site", JStr (hop_site h))].

Definition shown_end (source : AcquiredSource) (rows : list SourceRow) : nat :=
  match last rows with Some r => row_end r | None => ByteSpan.start (acq_span source) end.

(** [read:HANDLE[:SIDE]@OFFSET] for what the rows do not show. *)
Definition next_read (source : AcquiredSource) (rows : list SourceRow) : option str :=
  if shown_end source rows <? ByteSpan.end_ (acq_span source) then
    Some (lit "read:" ++ acq_handle source ++
          (match acq_side source with Some s => lit ":" ++ side_as_str s | None => [] end) ++
          lit "@" ++ show_nat (shown_end source rows))
  else None.

(** BLAKE3: a content revision is a digest, shown in hexadecimal. *)
Class Blake3 := {
  revision_of : str → str;                (* blake3::hash *)
  revision_from_hex : str → option str;   (* Hash::from_hex *)
  revision_to_hex : str → str;            (* Hash::to_hex *)
}.

Section Render.
Context `{Rendering, Blake3} (historical_value : HistoricalSource → Json).

Definition selection_fields (m : list (str * Json)) (s : SymbolSelection) : list (str * Json) :=
  let m := obj_insert m (lit "definitions") (jnat (declarations s)) in
  let m := if 0 <? imports s then obj_insert m (lit "imports") (jnat (imports s)) else m in
  let m := obj_insert m (lit "also") (JArr (JStr <$> also s)) in
  match import s with
  | Some t => obj_insert m (lit "import")
      (JObj [(lit "candidates", jnat (trail_candidates t)); (lit "followed", JBool (followed t));
             (lit "via", JArr (hop_value <$> hops t))])
  | None => m
  end.

(** The response object for the rows shown. *)
Definition source_value (source : AcquiredSource) (metadata : list (str * Json))
    (rows : list SourceRow) : result Json :=
  let start := ByteSpan.start (acq_span source) in
  let end_ := ByteSpan.end_ (acq_span source) in
  let next := next_read source rows in
  let m := [(lit "end", jnat end_); (lit "lines", JArr (row_value <$> rows));
            (lit "next", match next with Some n => JStr n | None => JNull end);
            (lit "path", JStr (acq_path source)); (lit "revision", JStr (revision_to_hex (acq_revision source)));
            (lit "start", jnat start); (lit "tokenizer", JStr (lit "o200k_base"));
            (lit "truncated", JBool (shown_end source rows <? end_));
            (lit "verified", JBool (acq_verified source))] in
  let m := insert_opt m "historical" (acq_historical source) historical_value in
  let m := if negb (acq_verified source) && negb (bool_decide (is_Some (acq_historical source)))
              && negb (bool_decide (is_Some (obj_get metadata (lit "source"))))
           then obj_insert m (lit "source") (JStr (lit "current_file")) else m in
  let m := insert_opt m "freshness" (acq_freshness source) JStr in
  let m := match acq_definitions source with Some s => selection_fields m s | None => m end in
  _ ← ensure (forallb (λ kv, negb (bool_decide (is_Some (obj_get m kv.1)))) metadata)
        "invalid_metadata: source metadata collides with response identity";
  Ok (JObj (foldl (λ m kv, obj_insert m kv.1 kv.2) m metadata)).

(** [lines::show_text]. *)
Definition row_line_text (row : Json) : str :=
  let escaped := bool_decide (as_str (jindex row "encoding") = Some (lit "byte-escaped")) in
  let text := default [] (as_str (jindex row "text")) in
  let text := if escaped then default text (strip_suffix (chr 92 :: lit "x0a") text)
              else default text (strip_suffix [nl] text) in
  show_usize (default 0%Z (as_u64 (jindex row "line"))) ++ [tab] ++ text ++ [nl].

Definition hop_text (hop : Json) : str :=
  (if is_true (jindex hop "reexport") then lit "re-export" else lit "import") ++ lit " of " ++
  default [] (as_str (jindex hop "path")) ++ lit " at " ++ default [] (as_str (jindex hop "site")).

Definition field_line (key : string) (o : option str) : str :=
  match o with Some s => lit key ++ s ++ [nl] | None => [] end.

Definition show_text (value : Json) : str :=
  let rows := default [] (as_array (jindex value "lines")) in
  let line (row : option Json) := row ≫= λ row, as_u64 (jindex row "line") in
  let out := default [] (as_str (jindex value "path")) ++
    (match as_str (jindex value "member") with Some m => lit " (" ++ m ++ lit ")" | None => [] end) ++
    (match line (head rows), line (last rows) with
     | Some first, Some last => lit " lines " ++ show_usize first ++ lit "-" ++ show_usize last ++ [nl]
     | _, _ => lit " (empty)" ++ [nl]
     end) ++ (rows ≫= row_line_text) in
  let next := (λ c, {| verb := lit "show"; cursor := c; hint := None |}) <$> as_str (jindex value "next") in
  let out := footer next (is_true (jindex value "truncated")) out in
  let out := out ++ match jindex value "verified" with
    | JBool false => if bool_decide (as_str (jindex value "source") = Some (lit "current_file"))
                     then lit "verified: current file" ++ [nl] else lit "verified: false" ++ [nl]
    | JBool true => lit "verified: true" ++ [nl]
    | _ => [] end in
  let out := out ++ field_line "freshness: " (as_str (jindex value "freshness")) in
  let out := out ++ (if existsb (λ row, bool_decide
      (as_str (jindex row "encoding") = Some (lit "byte-escaped"))) rows
    then lit "encoding: byte-escaped" ++ [nl] else []) in
  let out := out ++ field_line "served_from: " (as_str (jindex value "served_from")) in
  let out := out ++ field_line "commit: " (as_str (jindex (jindex value "historical") "commit")) in
  let import := jindex value "import" in
  let out := out ++ match as_array (jindex import "via") with
    | Some ((_ :: _) as hops) =>
        let trail := join (lit " -> ") (hop_text <$> hops) in
        if is_true (jindex import "followed") then
          match as_u64 (jindex import "candidates") with
          | Some count => if (1 <? count)%Z
              then lit "via: " ++ trail ++ lit " (1 of " ++ show_usize count ++ lit ")" ++ [nl]
              else lit "via: " ++ trail ++ [nl]
          | None => lit "via: " ++ trail ++ [nl]
          end
        else trail ++ lit " (declaration not indexed)" ++ [nl]
    | _ => [] end in
  let out := out ++ match as_u64 (jindex value "definitions") with
    | Some total =>
        match as_u64 (jindex value "imports") with
        | Some imports => lit "definitions: " ++ show_usize total ++ lit " (+" ++ show_usize imports ++
                          lit " imports)" ++ [nl]
        | None => lit "definitions: " ++ show_usize total ++ [nl]
        end
    | None => [] end in
  out ++ (default [] (as_array (jindex value "also")) ≫= λ locator,
    lit "also: " ++ default [] (as_str locator) ++ [nl]).

Definition source_text (source : AcquiredSource) (budget : OutputBudget)
    (metadata : list (str * Json)) (rows : list SourceRow) : result str :=
  value ← source_value source metadata rows;
  Ok (match format budget with
      | FormatJson => encode value
      | FormatLines => show_text value
      end).

(** The loop that drops the last row until the response fits. *)
Fixpoint render_rows (source : AcquiredSource) (budget : OutputBudget)
    (metadata : list (str * Json)) (rows : list SourceRow) (n : nat) : result str :=
  text ← source_text source budget metadata (take n rows);
  if fits budget text &&
     (negb (length (take n rows) =? 0) ||
      (ByteSpan.start (acq_span source) =? ByteSpan.end_ (acq_span source)))
  then Ok text
  else match n with
       | O => Err "budget_too_small: source line and response envelope do not fit"
       | S n' => render_rows source budget metadata rows n'
       end.

Definition render_owned (source : AcquiredSource) (budget : OutputBudget) (metadata : Json)
    : result str :=
  match metadata with
  | JObj metadata =>
      let rows := source_rows source in
      render_rows source budget metadata rows (length rows)
  | _ => Err "invalid_metadata: source metadata must be an object"
  end.
End Render.

(** ** Acquisition *)

(** [header.split_whitespace()] on Git's ASCII output. *)
Fixpoint split_ascii_whitespace (s : str) : list str :=
  match s with
  | [] => []
  | c :: s' =>
      if is_ascii_whitespace c then split_ascii_whitespace s'
      else match s' with
           | [] => [[c]]
           | d :: _ =>
               if is_ascii_whitespace d then [c] :: split_ascii_whitespace s'
               else match split_ascii_whitespace s' with
                    | w :: ws => (c :: w) :: ws
                    | [] => [[c]]
                    end
           end
  end.

Section Acquire.
Context {uuid : Type} `{UuidCrate uuid, Blake3}.
(** The result store, the confined file read, and the repository. *)
Context (results_entry : str → result (Z * ResultEntry)).
Context (save_entry : Hit → result str).
Context (read_contained : str → result str).
Context (common_dir : result str) (tree_entry : GitOid.t → str → result str)
  (blob : GitOid.t → result str).
Context (acquire_symbol : str → result AcquiredSource).

Definition revision_parse (value : str) : result str :=
  or_err "invalid_revision: expected BLAKE3 digest" (revision_from_hex value).

Definition acquire_historical (handle : str) (side : SourceSide) (identity : HistoricalSource)
    : result AcquiredSource :=
  dir ← common_dir;
  repository ← decode_path (source_repository identity);
  _ ← ensure (dir =s repository) "scope_boundary: historical source belongs to another repository";
  decoded ← decode_path (source_path identity);
  _ ← ensure (negb (decoded =s []) && forallb is_normal (components decoded))
        "scope_boundary: historical path is outside configured root";
  tree ← tree_entry (source_commit identity) decoded;
  let header := default [] (head (split_char tab tree)) in
  _ ← ensure (utf8_valid header) "invalid utf-8 sequence";
  let fields := split_ascii_whitespace header in
  _ ← ensure (bool_decide (fields !! 0 = Some (lit "100644")) || bool_decide (fields !! 0 = Some (lit "100755")))
        "source_unavailable: historical path missing or not a regular file";
  oid ← GitOid.as_str (source_blob identity);
  _ ← ensure (bool_decide (fields !! 1 = Some (lit "blob")) && bool_decide (fields !! 2 = Some oid))
        "source_unavailable: historical path does not identify recorded blob";
  bytes ← blob (source_blob identity);
  _ ← ensure (revision_of bytes =s source_revision identity)
        "source_unavailable: historical content revision does not match recorded identity";
  span ← ByteSpan.validate (source_span identity) (length bytes);
  Ok {| acq_bytes := bytes; acq_path := source_path identity; acq_revision := revision_of bytes;
        acq_span := span; acq_verified := true; acq_handle := handle; acq_side := Some side;
        acq_historical := Some identity; acq_definitions := None; acq_freshness := None |}.

Definition acquire_entry (handle : str) (entry : ResultEntry) (side : option SourceSide)
    : result AcquiredSource :=
  match entry with
  | LiveSource hit =>
      _ ← ensure (bool_decide (side = None)) "invalid_side: live sources have no historical side";
      recorded ← or_err "source_excluded: no indexed source revision" (hit_revision hit);
      expected ← revision_parse recorded;
      decoded ← decode_path (hit_path hit);
      bytes ← read_contained decoded;
      _ ← ensure (revision_of bytes =s expected) "stale_source: source revision changed";
      span ← (if hit_kind hit =s lit "file" then ByteSpan.new 0 (length bytes)
              else ByteSpan.new (hit_start hit) (hit_end hit));
      span ← ByteSpan.validate span (length bytes);
      Ok {| acq_bytes := bytes; acq_path := hit_path hit; acq_revision := revision_of bytes;
            acq_span := span; acq_verified := true; acq_handle := handle; acq_side := None;
            acq_historical := None; acq_definitions := None; acq_freshness := None |}
  | Change change =>
      side ← or_err "side_required: show a change with --side before or after" side;
      identity ← or_err "source_unavailable: change has no source on the requested side"
        (match side with Before => change_before change | After => change_after change end);
      acquire_historical handle side identity
  | Commit _ =>
      Err "source_unavailable: commit entries contain metadata; select a change source"
  end.

Definition acquire_handle (handle : str) (side : option SourceSide) : result AcquiredSource :=
  '(_, entry) ← results_entry handle;
  acquire_entry handle entry side.

Definition acquire_path (target : str) : result AcquiredSource :=
  let target := default target (strip_prefix (lit "path:") target) in
  '(path, first, last) ←
    match rsplit_once ":" target with
    | Some (path, range) =>
        if contains (lit "-") range then
          match split_once "-" range with
          | Some (first, last) =>
              first ← or_err "invalid digit found in string" (parse_usize first);
              last ← or_err "invalid digit found in string" (parse_usize last);
              Ok (path, first, last)
          | None => Err "range separator"
          end
        else Ok (target, 1%Z, USIZE_MAX)
    | None => Ok (target, 1%Z, USIZE_MAX)
    end;
  decoded ← decode_path path;
  bytes ← read_contained decoded;
  let revision := revision_of bytes in
  '(start, end_) ← current_span bytes first last;
  let '(start_line, end_line) := line_span bytes start end_ in
  set ← save_entry {| hit_handle := []; hit_path := path;
    hit_revision := Some (revision_to_hex revision); hit_start := start; hit_end := end_;
    hit_start_line := start_line; hit_end_line := end_line; hit_name := path;
    hit_kind := lit "source_read"; hit_container := None;
    hit_provenance := Some (lit "explicit_path_read"); hit_resolution := None;
    hit_candidates := []; hit_target := None; hit_snippet := None; hit_repeats := None |};
  span ← ByteSpan.new start end_;
  Ok {| acq_bytes := bytes; acq_path := path; acq_revision := revision; acq_span := span;
        acq_verified := false; acq_handle := set ++ lit ":1"; acq_side := None;
        acq_historical := None; acq_definitions := None; acq_freshness := None |}.

Definition with_start (source : AcquiredSource) (start : nat) : AcquiredSource :=
  {| acq_bytes := acq_bytes source; acq_path := acq_path source;
     acq_revision := acq_revision source;
     acq_span := {| ByteSpan.start := start; ByteSpan.end_ := ByteSpan.end_ (acq_span source) |};
     acq_verified := acq_verified source; acq_handle := acq_handle source;
     acq_side := acq_side source; acq_historical := acq_historical source;
     acq_definitions := acq_definitions source; acq_freshness := acq_freshness source |}.

(** The handle and the recorded side of a [read:] cursor's identity. *)
Definition cursor_identity (identity : str) : str * option SourceSide :=
  match rsplit_once ":" identity with
  | Some (handle, value) =>
      match side_parse value with
      | Ok side => (handle, Some side)
      | Err _ => (identity, None)
      end
  | None => (identity, None)
  end.

Definition acquire (target : str) (side : option SourceSide) : result AcquiredSource :=
  match strip_prefix (lit "read:") target with
  | Some cursor =>
      '(identity, offset) ← or_err "invalid_cursor: expected read:HANDLE@BYTE_OFFSET"
                              (rsplit_once "@" cursor);
      let '(handle, recorded_side) := cursor_identity identity in
      _ ← ensure (bool_decide (side = None) || bool_decide (side = recorded_side))
            "invalid_side: continuation side cannot change";
      source ← acquire_handle handle recorded_side;
      offset ← or_err "invalid_cursor: invalid byte offset" (parse_usize offset);
      let offset := Z.to_nat offset in
      _ ← ensure ((ByteSpan.start (acq_span source) <=? offset) &&
                  (offset <=? ByteSpan.end_ (acq_span source)))
            "invalid_cursor: offset outside original source range";
      Ok (with_start source offset)
  | None =>
      if is_ok (handle_from_str target) ||
         match rsplit_once ":" target with
         | Some (id, _) => bool_decide (is_Some (uuid_parse_str id))
         | None => false
         end
      then acquire_handle target side
      else
        _ ← ensure (bool_decide (side = None)) "invalid_side: side requires a historical change handle";
        if starts_with (lit "sym:") target then acquire_symbol target else acquire_path target
  end.
End Acquire.

(** ** Line facts *)

Definition newlines (s : str) : nat := length (List.filter is_nl s).

Lemma newlines_app a b : newlines (a ++ b) = newlines a + newlines b.
Proof. unfold newlines. by rewrite List.filter_app, length_app. Qed.

Lemma concat_split_lines s : concat (split_lines s) = s.
Proof.
  induction s as [|c s IH]; cbn [split_lines]; [done|].
  destruct (is_nl c); cbn [concat app]; [by rewrite IH|].
  destruct (split_lines s) as [|l ls]; cbn [concat app] in *; by rewrite <-IH.
Qed.

(** The length of the first [k] lines. *)
Definition lines_length (k : nat) (s : str) : nat := length (concat (take k (split_lines s))).

Lemma lines_length_nl k c s :
  is_nl c = true → lines_length (S k) (c :: s) = S (lines_length k s).
Proof. intros Hc. unfold lines_length. cbn [split_lines]. by rewrite Hc. Qed.

Lemma lines_length_other k c s :
  is_nl c = false → lines_length (S k) (c :: s) = S (lines_length (S k) s).
Proof.
  intros Hc. unfold lines_length. cbn [split_lines]. rewrite Hc.
  destruct (split_lines s) as [|l ls]; [by destruct k|]. cbn [take concat]. by rewrite !length_app.
Qed.

Lemma lines_length_nil k : lines_length k [] = 0.
Proof. unfold lines_length. cbn. by rewrite take_nil. Qed.

Lemma lines_length_mono j k s : j ≤ k → lines_length j s ≤ lines_length k s.
Proof.
  intros Hjk. unfold lines_length. replace k with (j + (k - j)) by lia.
  rewrite <-take_take_drop, concat_app, length_app. lia.
Qed.

Lemma span_scan_spec bytes i line first last start :
  (1 ≤ line ≤ last)%Z → (first ≤ last)%Z →
  span_scan bytes i line first last start (i + length bytes) =
    ((if (first <=? line)%Z then start
      else if (first - line <=? Z.of_nat (newlines bytes))%Z
           then Some (i + lines_length (Z.to_nat (first - line)) bytes) else start),
     i + lines_length (Z.to_nat (last - line + 1)) bytes).
Proof.
  revert i line start. induction bytes as [|c bytes IH]; intros i line start Hl Hfl; cbn [span_scan].
  { rewrite !lines_length_nil. cbn [length]. rewrite Nat.add_0_r. f_equal.
    destruct (Z.leb_spec first line); [done|]. rewrite (proj2 (Z.leb_gt _ _)); [done|].
    unfold newlines. cbn. lia. }
  replace (i + length (c :: bytes)) with (S i + length bytes) by (cbn; lia).
  replace (Z.to_nat (last - line + 1)) with (S (Z.to_nat (last - line))) by lia.
  assert (newlines (c :: bytes) = (if is_nl c then 1 else 0) + newlines bytes) as Hn.
  { unfold newlines. cbn. by destruct (is_nl c). }
  destruct (is_nl c) eqn:Hc; rewrite Hn; cbn [Nat.add].
  - rewrite lines_length_nl by done. destruct (Z.eqb_spec line last) as [->|Hne].
    { rewrite (proj2 (Z.leb_le _ _)) by lia. replace (Z.to_nat (last - last)) with 0 by lia. done. }
    rewrite IH by lia. f_equal.
    2: { replace (last - (line + 1) + 1)%Z with (last - line)%Z by lia. lia. }
    destruct (Z.leb_spec first line) as [Hf|Hf].
    { rewrite (proj2 (Z.eqb_neq _ _)) by lia. by rewrite (proj2 (Z.leb_le _ _)) by lia. }
    replace (Z.to_nat (first - line)) with (S (Z.to_nat (first - (line + 1)))) by lia.
    rewrite lines_length_nl by done.
    destruct (Z.eqb_spec (line + 1) first) as [<-|Hf'].
    { rewrite !(proj2 (Z.leb_le _ _)) by lia.
      replace (Z.to_nat (line + 1 - (line + 1))) with 0 by lia.
      reflexivity. }
    rewrite (proj2 (Z.leb_gt first (line + 1))) by lia.
    destruct (Z.leb_spec (first - (line + 1)) (Z.of_nat (newlines bytes)));
      [rewrite (proj2 (Z.leb_le _ _)) by lia; f_equal; lia|by rewrite (proj2 (Z.leb_gt _ _)) by lia].
  - rewrite lines_length_other by done. rewrite IH by lia.
    replace (Z.to_nat (last - line + 1)) with (S (Z.to_nat (last - line))) by lia. f_equal; [|lia].
    destruct (Z.leb_spec first line); [done|].
    destruct (Z.leb_spec (first - line) (Z.of_nat (newlines bytes))); [|done]. f_equal.
    replace (Z.to_nat (first - line)) with (S (Z.to_nat (first - line - 1))) by lia.
    rewrite lines_length_other by done. lia.
Qed.

Lemma middle_slice {A} (a b c : list A) :
  take (length (a ++ b) - length a) (drop (length a) (a ++ b ++ c)) = b.
Proof. rewrite drop_app_length, length_app. apply take_app_length'. lia. Qed.

(** Line ranges: [current_span] accepts exactly the one-based ranges whose
    first line exists, and the bytes it selects are exactly the lines [first] to
    [last] of the file, terminators included. *)
Theorem current_span_lines (bytes : str) (first last : Z) :
  (1 ≤ first ≤ last)%Z →
  match current_span bytes first last with
  | Ok (start, end_) =>
      start ≤ end_ ≤ length bytes ∧
      take (end_ - start) (drop start bytes) =
        concat (take (Z.to_nat (last - first + 1)) (drop (Z.to_nat (first - 1)) (split_lines bytes)))
  | Err _ => (Z.of_nat (newlines bytes) < first - 1)%Z
  end.
Proof.
  intros Hr. unfold current_span.
  rewrite (proj2 (Z.eqb_neq _ _)), (proj2 (Z.ltb_ge _ _)) by lia. cbn [orb].
  rewrite (span_scan_spec bytes 0 1) by lia. cbn [Nat.add].
  assert (∀ a b, a ≤ b → take (lines_length b bytes - lines_length a bytes) (drop (lines_length a bytes) bytes)
    = concat (take (b - a) (drop a (split_lines bytes)))) as Hslice.
  { intros a b Hab. unfold lines_length.
    assert (bytes = concat (take a (split_lines bytes)) ++
      concat (take (b - a) (drop a (split_lines bytes))) ++ concat (drop b (split_lines bytes))) as Hsplit.
    { rewrite <-!concat_app, app_assoc, take_take_drop. replace (a + (b - a)) with b by lia.
      by rewrite take_drop, concat_split_lines. }
    replace (take b (split_lines bytes))
      with (take a (split_lines bytes) ++ take (b - a) (drop a (split_lines bytes)))
      by (rewrite take_take_drop; f_equal; lia).
    rewrite concat_app. pose proof (middle_slice (concat (take a (split_lines bytes)))
      (concat (take (b - a) (drop a (split_lines bytes)))) (concat (drop b (split_lines bytes)))) as Hm.
    by rewrite <-Hsplit in Hm. }
  assert (∀ k, lines_length k bytes ≤ length bytes) as Hle.
  { intros k. unfold lines_length. rewrite <-(concat_split_lines bytes) at 2.
    rewrite <-(take_drop k (split_lines bytes)) at 2. rewrite concat_app, length_app. lia. }
  replace (last - 1 + 1)%Z with last by lia.
  destruct (Z.eqb_spec first 1) as [->|Hne].
  - cbn [or_err mbind result_bind Z.leb Z.compare Pos.compare Pos.compare_cont].
    split; [split; [lia|apply Hle]|]. change 0 with (lines_length 0 bytes).
    rewrite Hslice by lia. do 2 f_equal. lia.
  - rewrite (proj2 (Z.leb_gt _ _)) by lia.
    destruct (Z.leb_spec (first - 1) (Z.of_nat (newlines bytes))); cbn [or_err mbind result_bind]; [|lia].
    split; [split; [apply lines_length_mono; lia|apply Hle]|].
    rewrite Hslice by lia. do 2 f_equal. lia.
Qed.

Lemma current_span_lines_witness :
  current_span (lit "a" ++ [nl] ++ lit "bc" ++ [nl] ++ lit "d") 2 2 = Ok (2, 5) ∧ 2 ≤ 5 ≤ 6.
Proof.
  split; [reflexivity|].
  pose proof (current_span_lines (lit "a" ++ [nl] ++ lit "bc" ++ [nl] ++ lit "d") 2 2
    ltac:(split; vm_compute; congruence)) as Hs.
  destruct Hs as [Hs _]. exact Hs.
Defined.

(** ** Rows *)

Lemma split_lines_newlines s k :
  k < length (split_lines s) → newlines (concat (take k (split_lines s))) = k.
Proof.
  revert k. induction s as [|c s IH]; intros k Hk; [cbn in Hk; lia|]. cbn [split_lines] in *.
  destruct (is_nl c) eqn:Hc.
  - destruct k as [|k]; [done|]. cbn [take concat length] in *. rewrite newlines_app, IH by lia.
    unfold newlines. cbn. by rewrite Hc.
  - destruct (split_lines s) as [|l ls]; [cbn in Hk; assert (k = 0) as -> by lia; done|].
    destruct k as [|k]; [done|]. cbn [length take concat app] in *.
    specialize (IH (S k) Hk). cbn [take concat] in IH.
    unfold newlines in *. cbn. by rewrite Hc.
Qed.

Lemma split_lines_nonempty s l : l ∈ split_lines s → length l ≠ 0.
Proof.
  revert l. induction s as [|c s IH]; intros l Hl; cbn [split_lines] in Hl; [set_solver|].
  destruct (is_nl c); [apply elem_of_cons in Hl as [->|Hl]; [done|by apply IH]|].
  destruct (split_lines s) as [|l' ls]; [apply list_elem_of_singleton in Hl as ->; done|].
  apply elem_of_cons in Hl as [->|Hl]; [done|]. apply IH. set_solver.
Qed.

Lemma rows_from_lookup line offset lines i r :
  rows_from line offset lines !! i = Some r →
  ∃ l, lines !! i = Some l ∧ row_line r = line + i ∧
    row_start r = offset + length (concat (take i lines)) ∧ row_end r = row_start r + length l ∧
    (row_text r, row_encoding r) = display_bytes l.
Proof.
  revert line offset i. induction lines as [|l lines IH]; intros line offset i Hr; [done|].
  cbn [rows_from] in Hr. destruct (display_bytes l) as [text encoding] eqn:Ed.
  destruct i as [|i]; cbn in Hr.
  - injection Hr as <-. exists l. cbn. split_and!; [done|lia|lia|done|done].
  - apply IH in Hr as (l' & Hl & H1 & H2 & H3 & H4). exists l'.
    cbn [take concat]. rewrite length_app. split_and!; [done|lia|lia|done|done].
Qed.

Lemma rows_from_length line offset lines : length (rows_from line offset lines) = length lines.
Proof.
  revert line offset. induction lines as [|l lines IH]; intros line offset; [done|].
  cbn [rows_from]. destruct (display_bytes l). cbn. by rewrite IH.
Qed.

Section SourceFacts.
Context (source : AcquiredSource).
Abbreviation start := (ByteSpan.start (acq_span source)).
Abbreviation end_ := (ByteSpan.end_ (acq_span source)).
Hypothesis span_ok : start ≤ end_ ≤ length (acq_bytes source).

Definition selected : str := take (end_ - start) (drop start (acq_bytes source)).

Lemma selected_length : length selected = end_ - start.
Proof. unfold selected. rewrite length_take, length_drop. lia. Qed.

Lemma source_rows_lookup i r :
  source_rows source !! i = Some r →
  ∃ l, split_lines selected !! i = Some l ∧ i < 200 ∧
    row_line r = line_at (acq_bytes source) start + i ∧
    row_start r = start + lines_length i selected ∧ row_end r = row_start r + length l ∧
    (row_text r, row_encoding r) = display_bytes l.
Proof.
  clear span_ok. unfold source_rows. fold selected. intros (l & Hl & H1 & H2 & H3 & H4)%rows_from_lookup.
  cbn [line_span fst] in H1. apply lookup_take_Some in Hl as [Hl Hi]. exists l.
  rewrite take_take, Nat.min_l in H2 by lia. auto 10.
Qed.

Lemma lines_length_at i l :
  split_lines selected !! i = Some l →
  lines_length (S i) selected = lines_length i selected + length l ∧
  take (length l) (drop (lines_length i selected) selected) = l.
Proof.
  clear span_ok. intros Hl. unfold lines_length. rewrite (take_S_r _ _ l) by done. rewrite concat_app, length_app.
  cbn [concat]. rewrite app_nil_r. split; [done|].
  rewrite <-(concat_split_lines selected) at 2. rewrite <-(take_drop_middle _ _ _ Hl) at 2.
  rewrite concat_app. cbn [concat]. by rewrite drop_app_length, take_app_length.
Qed.
End SourceFacts.

(** Rows of a read: row [i] starts where row [i-1] ends, its bytes are the
    displayed text's source, and its line number is the line the file gives its
    first byte. *)
Theorem source_rows_faithful (source : AcquiredSource) :
  ByteSpan.start (acq_span source) ≤ ByteSpan.end_ (acq_span source) ≤ length (acq_bytes source) →
  (∀ i r, source_rows source !! i = Some r →
     row_line r = line_at (acq_bytes source) (row_start r) ∧
     row_start r < row_end r ≤ ByteSpan.end_ (acq_span source) ∧
     (row_text r, row_encoding r) =
       display_bytes (take (row_end r - row_start r) (drop (row_start r) (acq_bytes source)))) ∧
  (∀ r, source_rows source !! 0 = Some r → row_start r = ByteSpan.start (acq_span source)) ∧
  (∀ i r r', source_rows source !! i = Some r → source_rows source !! S i = Some r' →
     row_start r' = row_end r).
Proof.
  intros Hspan. split_and!.
  - intros i r (l & Hl & Hi & H1 & H2 & H3 & H4)%source_rows_lookup.
    destruct (lines_length_at source i l Hl) as [Hnext Hbytes].
    assert (lines_length (S i) (selected source) ≤ length (selected source)) as Hle.
    { unfold lines_length. rewrite <-(concat_split_lines (selected source)) at 2.
      rewrite <-(take_drop (S i) (split_lines (selected source))) at 2. rewrite concat_app, length_app. lia. }
    rewrite selected_length in Hle by done.
    assert (length l ≠ 0) as Hne by (by apply (split_lines_nonempty (selected source) l);
      eapply list_elem_of_lookup_2).
    split_and!; [|lia|lia|].
    + rewrite H1, H2. unfold line_at. rewrite !Nat.min_l by lia.
      set (s := ByteSpan.start (acq_span source)).
      replace (take (s + lines_length i (selected source)) (acq_bytes source))
        with (take s (acq_bytes source) ++ take (lines_length i (selected source)) (drop s (acq_bytes source)))
        by by rewrite take_take_drop.
      rewrite List.filter_app, length_app.
      assert (take (lines_length i (selected source)) (drop s (acq_bytes source))
        = concat (take i (split_lines (selected source)))) as ->.
      { unfold lines_length. assert (drop s (acq_bytes source) = selected source ++
          drop (ByteSpan.end_ (acq_span source) - s) (drop s (acq_bytes source))) as ->
          by (unfold selected; by rewrite take_drop).
        rewrite <-(concat_split_lines (selected source)) at 2.
        rewrite <-(take_drop i (split_lines (selected source))) at 2.
        rewrite concat_app, <-app_assoc. apply take_app_length. }
      fold (newlines (concat (take i (split_lines (selected source))))).
      rewrite split_lines_newlines; [lia|]. by eapply lookup_lt_Some.
    + rewrite H4, H3, H2. f_equal. rewrite <-Hbytes at 1. rewrite Hnext in Hle.
      revert Hle. generalize (lines_length i (selected source)). intros L Hle. unfold selected.
      rewrite skipn_firstn_comm, take_take, drop_drop. f_equal. lia.
  - intros r (l & Hl & _ & _ & H2 & _)%source_rows_lookup. rewrite H2. change (lines_length 0 (selected source)) with 0. lia.
  - intros i r r' (l & Hl & _ & _ & H2 & H3 & _)%source_rows_lookup
      (l' & Hl' & _ & _ & H2' & _)%source_rows_lookup.
    destruct (lines_length_at source i l Hl) as [Hnext _]. lia.
Qed.

(** ** Rendering *)

Section RenderFacts.
Context `{Rendering, Blake3} (historical_value : HistoricalSource → Json).
Context (source : AcquiredSource) (budget : OutputBudget) (metadata : list (str * Json)).
Abbreviation text_of := (source_text historical_value source budget metadata).

(** The text shows the first [n] rows, and shows something if there is anything. *)
Definition acceptable (rows : list SourceRow) (n : nat) (text : str) : Prop :=
  text_of (take n rows) = Ok text ∧ fits budget text = true ∧
  (take n rows ≠ [] ∨ ByteSpan.start (acq_span source) = ByteSpan.end_ (acq_span source)).

Lemma render_rows_largest rows n text :
  render_rows historical_value source budget metadata rows n = Ok text →
  ∃ k, k ≤ n ∧ acceptable rows k text ∧ ∀ m t, k < m ≤ n → ¬ acceptable rows m t.
Proof.
  assert (∀ n t, text_of (take n rows) = Ok t →
    (fits budget t && (negb (length (take n rows) =? 0) ||
      (ByteSpan.start (acq_span source) =? ByteSpan.end_ (acq_span source))) = true ↔
     acceptable rows n t)) as Hacc.
  { intros m t Ht. unfold acceptable. rewrite andb_true_iff, orb_true_iff, negb_true_iff.
    rewrite Nat.eqb_neq, Nat.eqb_eq. destruct (take m rows); naive_solver. }
  induction n as [|n IH]; cbn [render_rows]; intros Hr; apply bind_Ok in Hr as (t & Ht & Hr).
  - destruct (_ && _) eqn:E; [|done]. injection Hr as <-. apply (Hacc 0) in E; [|done].
    exists 0. split_and!; [done|done|]. intros. lia.
  - destruct (_ && _) eqn:E.
    + injection Hr as <-. apply (Hacc (S n)) in E; [|done]. exists (S n).
      split_and!; [done|done|]. intros. lia.
    + destruct (IH Hr) as (k & Hk & Hok & Hmax). exists k. split_and!; [lia|done|].
      intros m t' Hm Ha. destruct (decide (m = S n)) as [->|]; [|by apply (Hmax m t'); [lia|]].
      assert (t' = t) as -> by (destruct Ha as [Ha _]; congruence).
      apply (Hacc (S n) t Ht) in Ha. congruence.
Qed.
End RenderFacts.

(** A read fits its budget and shows as much as it can: the text returned is
    the response for the first [k] rows, it fits, it shows at least one row
    unless the range is empty, and no longer prefix of the rows would have been
    accepted. *)
Theorem render_owned_largest `{Rendering, Blake3} (historical_value : HistoricalSource → Json)
    (source : AcquiredSource) (budget : OutputBudget) (metadata : list (str * Json)) (text : str) :
  render_owned historical_value source budget (JObj metadata) = Ok text →
  let rows := source_rows source in
  ∃ k, k ≤ length rows ∧ acceptable historical_value source budget metadata rows k text ∧
    ∀ m t, k < m ≤ length rows → ¬ acceptable historical_value source budget metadata rows m t.
Proof. apply render_rows_largest. Qed.

(** ** Escaped bytes *)

(** Reads the [\xNN] escapes of a displayed line back. *)
Fixpoint unescape (s : str) : option str :=
  match s with
  | [] => Some []
  | c :: s' =>
      if c =c chr 92 then
        match s' with
        | "x"%char :: h :: l :: s'' =>
            d ← u8_from_str_radix16 [h; l]; rest ← unescape s''; Some (chr d :: rest)
        | _ => None
        end
      else rest ← unescape s'; Some (c :: rest)
  end.

Lemma unescape_byte c s : unescape (escape_byte c ++ s) = cons c <$> unescape s.
Proof.
  unfold escape_byte. destruct (plain_byte c) eqn:E.
  - cbn [app unescape]. unfold plain_byte in E. bool_to_prop.
    rewrite bool_decide_eq_false_2 by done. by destruct (unescape s).
  - assert (u8_from_str_radix16 (hex2_lower c) = Some (bval c)) as Hd by (clear E; by_byte c).
    unfold hex2_lower in *. cbn [app unescape].
    rewrite bool_decide_eq_true_2 by done. rewrite Hd. cbn. rewrite chr_bval. by destruct (unescape s).
Qed.

(** Byte escapes lose nothing: a line that is not UTF-8 is shown in printable
    ASCII from which its bytes can be read back, and a UTF-8 line is shown as it
    is. *)
Theorem display_bytes_lossless (bytes : str) :
  match display_bytes bytes with
  | (text, "utf8"%string) => text = bytes
  | (text, _) => unescape text = Some bytes ∧ Forall (λ c, in_range 32 126 c = true) text
  end.
Proof.
  unfold display_bytes. destruct (utf8_valid bytes); [done|]. split.
  - induction bytes as [|c bytes IH]; [done|]. by rewrite bind_cons, unescape_byte, IH.
  - apply Forall_bind, Forall_true. intros c.
    assert (forallb (in_range 32 126) (escape_byte c) = true) as Hc by by_byte c.
    apply Forall_forall. intros d Hd. rewrite forallb_forall in Hc. by apply Hc, list_elem_of_In.
Qed.

(** ** Verified reads and continuations *)

Section AcquireFacts.
Context {uuid : Type} `{UuidLaws uuid} `{Blake3}.
Context (results_entry : str → result (Z * ResultEntry)).
Context (save_entry : Hit → result str) (read_contained : str → result str).
Context (common_dir : result str) (tree_entry : GitOid.t → str → result str)
  (blob : GitOid.t → result str) (acquire_symbol : str → result AcquiredSource).
Abbreviation entry_at := (acquire_entry read_contained common_dir tree_entry blob).
Abbreviation handle_at :=
  (acquire_handle results_entry read_contained common_dir tree_entry blob).

(** What an acquired entry guarantees. *)
Definition recorded_revision (entry : ResultEntry) (side : option SourceSide) : option str :=
  match entry with
  | LiveSource hit => r ← hit_revision hit; revision_from_hex r
  | Change change =>
      side ← side;
      source_revision <$> match side with Before => change_before change | After => change_after change end
  | Commit _ => None
  end.

Lemma acquire_entry_Ok handle entry side source :
  entry_at handle entry side = Ok source →
  acq_handle source = handle ∧ acq_side source = side ∧ acq_verified source = true ∧
  acq_revision source = revision_of (acq_bytes source) ∧
  recorded_revision entry side = Some (revision_of (acq_bytes source)) ∧
  ByteSpan.start (acq_span source) ≤ ByteSpan.end_ (acq_span source) ≤ length (acq_bytes source).
Proof.
  destruct entry as [hit|c|change]; cbn [acquire_entry]; intros Ha; [|done|].
  - result_inv. bool_to_prop. subst.
    match goal with H : hit_revision hit = Some ?r |- _ => rename H into Hrev end.
    match goal with H : revision_parse _ = Ok _ |- _ => apply or_err_Ok in H; rename H into Hparse end.
    match goal with H : ByteSpan.validate _ _ = Ok _ |- _ => apply ByteSpan.validate_Ok in H as [-> Hspan] end.
    cbn [acq_handle acq_side acq_verified acq_revision acq_bytes acq_span recorded_revision].
    rewrite Hrev. cbn. rewrite Hparse. split_and!; try done; lia.
  - result_inv. match goal with H : side = Some ?s |- _ => subst side end.
    match goal with H : acquire_historical _ _ _ _ _ _ = Ok _ |- _ => rename H into Hh end.
    unfold acquire_historical in Hh. result_inv. bool_to_prop.
    match goal with H : ByteSpan.validate _ _ = Ok _ |- _ => apply ByteSpan.validate_Ok in H as [-> Hspan] end.
    cbn [acq_handle acq_side acq_verified acq_revision acq_bytes acq_span recorded_revision mbind option_bind].
    match goal with H : _ = Some x0 |- _ => rewrite H end. cbn.
    split_and!; try done; try lia. congruence.
Qed.

Lemma cursor_identity_handle handle side :
  valid_handle (uuid := uuid) handle →
  cursor_identity (handle ++ match side with Some s => lit ":" ++ side_as_str s | None => [] end)
    = (handle, side).
Proof.
  intros Hv. unfold cursor_identity. destruct side as [s|].
  - rewrite (proj2 (rsplit_once_Some ":" _ handle (side_as_str s))).
    + by destruct s.
    + split; [done|]. destruct s; apply (bool_decide_eq_false_1 _); reflexivity.
  - rewrite app_nil_r. destruct (rsplit_once ":" handle) as [[a b]|] eqn:E; [|done].
    apply rsplit_once_Some in E as [-> Hb]. destruct Hv as (h & Hu & Hpos & Heq).
    unfold handle_to_string in Heq. cbn [lit] in Heq.
    assert (b = show_usize (handle_ordinal h)) as ->.
    { assert (rsplit_once ":" (a ++ ":"%char :: b) = Some (a, b)) as Hs1 by by apply rsplit_once_Some.
      assert (rsplit_once ":" (a ++ ":"%char :: b)
        = Some (uuid_simple (handle_set h), show_usize (handle_ordinal h))) as Hs2.
      { rewrite Heq. apply rsplit_once_Some. split; [done|]. by apply show_usize_no_char. }
      congruence. }
    destruct (show_usize_spec (handle_ordinal h) Hu) as (Hne & Hd & _).
    unfold side_parse. destruct (show_usize (handle_ordinal h)) as [|c s]; [done|].
    apply Forall_inv in Hd.
    rewrite !bool_decide_eq_false_2; [done|..]; intros [= ->]; by vm_compute in Hd.
Qed.
End AcquireFacts.


(** Continuations: for a truncated read of a handle, acquiring the printed
    [read:HANDLE[:SIDE]@OFFSET] cursor gives the same verified source, starting at
    the first byte not shown; a chain of reads covers the range without gaps. *)
Theorem next_read_resumes `{UuidLaws uuid, Blake3} (results_entry : str → result (Z * ResultEntry))
    (save_entry : Hit → result str) (read_contained : str → result str) (common_dir : result str)
    (tree_entry : GitOid.t → str → result str) (blob : GitOid.t → result str)
    (acquire_symbol : str → result AcquiredSource)
    (handle : str) (side : option SourceSide) (source : AcquiredSource) (n : nat) (cursor : str) :
  valid_handle (uuid := uuid) handle → in_usize (Z.of_nat (length (acq_bytes source))) →
  acquire_handle results_entry read_contained common_dir tree_entry blob handle side = Ok source →
  let rows := take n (source_rows source) in
  next_read source rows = Some cursor →
  ByteSpan.start (acq_span source) ≤ shown_end source rows < ByteSpan.end_ (acq_span source) ∧
  (rows ≠ [] → ByteSpan.start (acq_span source) < shown_end source rows) ∧
  acquire (uuid := uuid) results_entry save_entry read_contained common_dir tree_entry blob
    acquire_symbol cursor None = Ok (with_start source (shown_end source rows)).
Proof.
  intros Hv Hu Ha rows Hnext.
  assert (acq_handle source = handle ∧ acq_side source = side ∧
    ByteSpan.start (acq_span source) ≤ ByteSpan.end_ (acq_span source) ≤ length (acq_bytes source))
    as (Hh & Hs & Hspan).
  { pose proof Ha as Ha'. unfold acquire_handle in Ha'. apply bind_Ok in Ha' as ([g e] & _ & He).
    apply acquire_entry_Ok in He as (? & ? & _ & _ & _ & ?). done. }
  unfold next_read in Hnext. destruct (Nat.ltb_spec (shown_end source rows) (ByteSpan.end_ (acq_span source)))
    as [Hlt|]; [|done].
  assert (ByteSpan.start (acq_span source) ≤ shown_end source rows ∧
    (rows ≠ [] → ByteSpan.start (acq_span source) < shown_end source rows)) as [Hle Hprog].
  { unfold shown_end. destruct (last rows) as [r|] eqn:El.
    - assert (ByteSpan.start (acq_span source) < row_end r); [|split; [lia|done]].
      rewrite last_lookup in El. unfold rows in El. apply lookup_take_Some in El as [El _].
      apply source_rows_lookup in El as (l & Hl & _ & _ & H2 & H3 & _).
      assert (length l ≠ 0); [|lia].
      apply (split_lines_nonempty (selected source)). by eapply list_elem_of_lookup_2.
    - apply last_None in El. split; [lia|]. by rewrite El. }
  split_and!; [done|done|done|]. injection Hnext as Hnext.
  set (identity := handle ++ match side with Some s => lit ":" ++ side_as_str s | None => [] end).
  assert (cursor = lit "read:" ++ (identity ++ ("@"%char :: show_nat (shown_end source rows)))) as ->.
  { rewrite <-Hnext. rewrite Hh, Hs. unfold identity. by rewrite <-!app_assoc. }
  unfold acquire. rewrite (proj2 (strip_prefix_Some _ _ _) eq_refl).
  rewrite (proj2 (rsplit_once_Some "@" _ identity (show_nat (shown_end source rows)))).
  2: { split; [done|]. apply show_usize_no_char; [|done]. unfold in_usize in *. lia. }
  cbn [or_err mbind result_bind]. unfold identity. rewrite (cursor_identity_handle (uuid := uuid)) by done.
  rewrite bool_decide_eq_true_2 by done. cbn [orb ensure mbind result_bind]. rewrite Ha.
  cbn [mbind result_bind]. unfold show_nat. rewrite parse_show_usize by (unfold in_usize in *; lia).
  cbn [or_err mbind result_bind]. rewrite Nat2Z.id.
  rewrite !(proj2 (Nat.leb_le _ _)) by lia. done.
Qed.

(** A small repository: one file of three lines, with the identity as digest. *)
Module SourceExample.
#[global] Instance digest : Blake3 := {|
  revision_of := λ s, s; revision_from_hex := Some; revision_to_hex := λ s, s |}.
Definition bytes : str := lit "a" ++ [nl] ++ lit "b" ++ [nl] ++ lit "c".
Definition handle : str := lit "00000000000000000000000000000000:1".
Definition hit : Hit :=
  {| hit_handle := handle; hit_path := lit "f"; hit_revision := Some bytes; hit_start := 2;
     hit_end := 5; hit_start_line := 2; hit_end_line := 3; hit_name := lit "n";
     hit_kind := lit "function"; hit_container := None; hit_provenance := None;
     hit_resolution := None; hit_candidates := []; hit_target := None; hit_snippet := None;
     hit_repeats := None |}.
Definition results_entry (_ : str) : result (Z * ResultEntry) := Ok (1%Z, LiveSource hit).
Definition read_contained (_ : str) : result str := Ok bytes.
Definition no_git : result str := Err "no repository".
Definition source : AcquiredSource :=
  {| acq_bytes := bytes; acq_path := lit "f"; acq_revision := bytes;
     acq_span := {| ByteSpan.start := 2; ByteSpan.end_ := 5 |}; acq_verified := true;
     acq_handle := handle; acq_side := None; acq_historical := None; acq_definitions := None;
     acq_freshness := None |}.
Definition acquired : result AcquiredSource :=
  acquire_handle results_entry read_contained no_git (λ _ _, no_git) (λ _, no_git) handle None.
End SourceExample.

Lemma source_rows_faithful_witness :
  ∃ r, source_rows SourceExample.source !! 0 = Some r ∧
    row_line r = line_at SourceExample.bytes (row_start r).
Proof.
  destruct (source_rows SourceExample.source !! 0) as [r|] eqn:Hr; [|vm_compute in Hr; discriminate Hr].
  exists r. split; [reflexivity|].
  apply (proj1 (source_rows_faithful SourceExample.source ltac:(cbn; lia)) 0 r Hr).
Defined.

Lemma render_owned_largest_witness :
  ∃ text k, render_owned (λ _, JNull) SourceExample.source (with_format (budget_new 200) FormatLines)
    (JObj []) = Ok text ∧
    acceptable (λ _, JNull) SourceExample.source (with_format (budget_new 200) FormatLines) []
      (source_rows SourceExample.source) k text.
Proof.
  destruct (render_owned (λ _, JNull) SourceExample.source (with_format (budget_new 200) FormatLines)
    (JObj [])) as [text|e] eqn:E; [|vm_compute in E; discriminate E].
  destruct (render_owned_largest _ _ _ _ _ E) as (k & _ & Hk & _).
  exists text, k. split; [reflexivity|exact Hk].
Defined.


Lemma next_read_resumes_witness :
  acquire (uuid := SimpleUuid.t) SourceExample.results_entry (λ _, Err "no store")
    SourceExample.read_contained SourceExample.no_git (λ _ _, SourceExample.no_git)
    (λ _, SourceExample.no_git) (λ _, Err "no symbols")
    (lit "read:00000000000000000000000000000000:1@4") None = Ok (with_start SourceExample.source 4).
Proof.
  refine (proj2 (proj2 (next_read_resumes (uuid := SimpleUuid.t) SourceExample.results_entry
    (λ _, Err "no store") SourceExample.read_contained SourceExample.no_git
    (λ _ _, SourceExample.no_git) (λ _, SourceExample.no_git) (λ _, Err "no symbols")
    SourceExample.handle None SourceExample.source 1
    (lit "read:00000000000000000000000000000000:1@4") _ _ _ _))).
  - exists {| handle_set := SimpleUuid.nil; handle_ordinal := 1 |}.
    split; [split; vm_compute; congruence|]. split; [vm_compute; congruence|reflexivity].
  - split; vm_compute; congruence.
  - reflexivity.
  - vm_compute. reflexivity.
Defined.
