(* ===== verification/Diff.v ===== *)
(** * Source comparison

    Models [src/src/history/source_diff.rs] and
    [src/src/history/source_diff/fingerprints.rs]: line offsets, and the change
    and unchanged-run tables built from the hunks of a histogram diff.  The diff
    algorithm and its line tokenizer ([imara_diff]) are parameters
    ([DiffLibrary]); [DiffLaws] states what they document. *)
From Stdlib Require Import Ascii String ZArith Lia Permutation.
From stdpp Require Import base numbers list gmap strings.
From S2P Require Import Prelude Order Text Identity Hits Pages Source.

(** ** Lines and hunks *)

(** [Range<usize>] *)
Abbreviation line_range := (nat * nat)%type.
Definition range_contains (r : line_range) (line : nat) : bool := (r.1 <=? line) && (line <? r.2).

Record SourceChange := MkChange {
  change_before : ByteSpan.t;
  change_after : ByteSpan.t;
  before_lines : line_range;
  after_lines : line_range;
}.
Record LineCorrespondence := MkRun { run_before : line_range; run_after : line_range }.
Record SourceDiff := MkDiff { changes : list SourceChange; unchanged_lines : list LineCorrespondence }.
(** [SourceDiff::default] *)
Definition diff_default : SourceDiff := {| changes := []; unchanged_lines := [] |}.

(** [slice::partition_point]: the first index where the predicate fails. *)
Fixpoint partition_point {A} (f : A → bool) (l : list A) : nat :=
  match l with [] => 0 | x :: l' => if f x then S (partition_point f l') else 0 end.

Definition map_before_line (d : SourceDiff) (line : nat) : option nat :=
  let index := partition_point (λ run, (run_before run).2 <=? line) (unchanged_lines d) in
  match unchanged_lines d !! index with
  | Some run =>
      if range_contains (run_before run) line
      then Some ((run_after run).1 + line - (run_before run).1) else None
  | None => None
  end.

Definition shares_change (d : SourceDiff) (before_line after_line : nat) : bool :=
  let index := partition_point (λ c, (before_lines c).2 <=? before_line) (changes d) in
  match changes d !! index with
  | Some c => range_contains (before_lines c) before_line && range_contains (after_lines c) after_line
  | None => false
  end.

Fixpoint offsets_from (index : nat) (source : str) : list nat :=
  match source with
  | [] => []
  | c :: source' => if is_nl c then S index :: offsets_from (S index) source'
                    else offsets_from (S index) source'
  end.
Definition line_offsets (source : str) : list nat :=
  let offsets := 0 :: offsets_from 0 source in
  if decide (last offsets = Some (length source)) then offsets
  else offsets ++ [length source].

(** [imara_diff::Hunk] *)
Record Hunk := MkHunk { hunk_before : line_range; hunk_after : line_range }.

(** [offsets[i]]; an index out of range panics. *)
Definition offset_at (offsets : list nat) (i : nat) : result nat :=
  or_err "index out of bounds" (offsets !! i).

Definition change_of (before_offsets after_offsets : list nat) (h : Hunk) : result SourceChange :=
  b0 ← offset_at before_offsets (hunk_before h).1;
  b1 ← offset_at before_offsets (hunk_before h).2;
  a0 ← offset_at after_offsets (hunk_after h).1;
  a1 ← offset_at after_offsets (hunk_after h).2;
  Ok {| change_before := {| ByteSpan.start := b0; ByteSpan.end_ := b1 |};
        change_after := {| ByteSpan.start := a0; ByteSpan.end_ := a1 |};
        before_lines := hunk_before h; after_lines := hunk_after h |}.

(** The loop over the hunks, from the ends of the previous one, then the final run. *)
Fixpoint diff_loop (before_offsets after_offsets : list nat) (before_len after_len : nat)
    (before_end after_end : nat) (hunks : list Hunk) : result SourceDiff :=
  match hunks with
  | [] =>
      Ok {| changes := [];
            unchanged_lines := if before_end <? before_len
              then [{| run_before := (before_end, before_len); run_after := (after_end, after_len) |}]
              else [] |}
  | h :: hunks' =>
      change ← change_of before_offsets after_offsets h;
      rest ← diff_loop before_offsets after_offsets before_len after_len
               (hunk_before h).2 (hunk_after h).2 hunks';
      Ok {| changes := change :: changes rest;
            unchanged_lines :=
              (if before_end <? (hunk_before h).1
               then [{| run_before := (before_end, (hunk_before h).1);
                        run_after := (after_end, (hunk_after h).1) |}]
               else []) ++ unchanged_lines rest |}
  end.

(** [imara_diff]: the line tokenizer of a byte slice and the histogram diff of
    two token sequences. *)
Class DiffLibrary := {
  byte_lines : str → list str;
  histogram_hunks : list str → list str → list Hunk;
}.

Section diff.
Context `{DiffLibrary} `{Blake3}.

Definition diff_interned (before after : list str) (before_offsets after_offsets : list nat) :
    result SourceDiff :=
  diff_loop before_offsets after_offsets (length before) (length after) 0 0
    (histogram_hunks before after).

Definition diff_sources (before after : str) : result SourceDiff :=
  diff_interned (byte_lines before) (byte_lines after) (line_offsets before) (line_offsets after).

(** ** Fingerprints *)

Record FingerprintLines := MkLines { offsets : list nat; fingerprints : list str }.

(** [windows(2)] *)
Fixpoint windows2 (l : list nat) : list (nat * nat) :=
  match l with
  | a :: (b :: _) as l' => (a, b) :: windows2 l'
  | _ => []
  end.

Definition fingerprint_validate (f : FingerprintLines) : result nat :=
  _ ← ensure ((length (offsets f) =? length (fingerprints f) + 1) &&
              bool_decide (head (offsets f) = Some 0) &&
              forallb (λ pair, pair.1 <? pair.2) (windows2 (offsets f)))
        "invalid fingerprint line coordinates";
  or_err "validated nonempty offsets" (last (offsets f)).

Definition fingerprint_lines (source : str) : FingerprintLines :=
  let offsets := line_offsets source in
  {| offsets := offsets;
     fingerprints :=
       (λ span, revision_of (take (span.2 - span.1) (drop span.1 source))) <$> windows2 offsets |}.

Definition diff_fingerprints (before after : FingerprintLines) : result SourceDiff :=
  _ ← fingerprint_validate before;
  _ ← fingerprint_validate after;
  diff_interned (fingerprints before) (fingerprints after) (offsets before) (offsets after).
End diff.

(** ** What [imara_diff] documents *)

(** A source cut into lines that keep their terminator; the last line may lack it. *)
Inductive lines_of : list str → str → Prop :=
| lines_nil : lines_of [] []
| lines_last body : body ≠ [] → forallb (λ c, negb (is_nl c)) body = true → lines_of [body] body
| lines_cons body ls s :
    forallb (λ c, negb (is_nl c)) body = true →
    lines_of ls s → lines_of ((body ++ [nl]) :: ls) (body ++ nl :: s).

(** The tokens [b..b'] and [a..a'] are equal one by one. *)
Definition equal_run (before after : list str) (b b' a a' : nat) : Prop :=
  b ≤ b' ≤ length before ∧ a ≤ a' ≤ length after ∧ b' - b = a' - a ∧
  ∀ i, i < b' - b → before !! (b + i) = after !! (a + i).

(** Hunks are in order and in range; the tokens between them are unchanged. *)
Fixpoint hunks_from (before after : list str) (b a : nat) (hunks : list Hunk) : Prop :=
  match hunks with
  | [] => equal_run before after b (length before) a (length after)
  | h :: hunks' =>
      equal_run before after b (hunk_before h).1 a (hunk_after h).1 ∧
      (hunk_before h).1 ≤ (hunk_before h).2 ≤ length before ∧
      (hunk_after h).1 ≤ (hunk_after h).2 ≤ length after ∧
      hunks_from before after (hunk_before h).2 (hunk_after h).2 hunks'
  end.

Class DiffLaws `{DiffLibrary} : Prop := {
  byte_lines_law : ∀ s, lines_of (byte_lines s) s;
  histogram_law : ∀ before after, hunks_from before after 0 0 (histogram_hunks before after);
}.

(** ** Line offsets *)

(** The offset before each token and after the last. *)
Fixpoint sums (k : nat) (ls : list str) : list nat :=
  k :: match ls with [] => [] | l :: ls' => sums (k + length l) ls' end.

Definition offsets_all (k : nat) (s : str) : list nat :=
  let offsets := k :: offsets_from k s in
  if decide (last offsets = Some (k + length s)) then offsets else offsets ++ [k + length s].

Lemma offsets_from_body k body s :
  forallb (λ c, negb (is_nl c)) body = true →
  offsets_from k (body ++ s) = offsets_from (k + length body) s.
Proof.
  revert k. induction body as [|c body IH]; intros k Hb; cbn in *; [by rewrite Nat.add_0_r|].
  bool_to_prop. rewrite H, IH by done. f_equal. lia.
Qed.

Lemma offsets_all_line k body s :
  forallb (λ c, negb (is_nl c)) body = true →
  offsets_all k (body ++ nl :: s) = k :: offsets_all (k + length body + 1) s.
Proof.
  intros Hb. unfold offsets_all.
  assert (offsets_from k (body ++ nl :: s) =
          (k + length body + 1) :: offsets_from (k + length body + 1) s) as ->.
  { rewrite offsets_from_body by done. cbn. by rewrite Nat.add_1_r. }
  rewrite length_app. cbn [length].
  replace (k + (length body + S (length s))) with (k + length body + 1 + length s) by lia.
  cbn [last]. destruct (decide _); done.
Qed.

Lemma offsets_all_sums ls s :
  lines_of ls s → ∀ k, offsets_all k s = sums k ls.
Proof.
  induction 1 as [|body Hne Hb|body ls s Hb Hl IH]; intros k.
  - unfold offsets_all. cbn. rewrite Nat.add_0_r. by rewrite decide_True.
  - unfold offsets_all. pose proof (offsets_from_body k body [] Hb) as Ho.
    rewrite app_nil_r in Ho. rewrite Ho. cbn.
    destruct body as [|c body]; [done|]. rewrite decide_False; [done|]. cbn. intros [=]. lia.
  - rewrite offsets_all_line by done. rewrite IH. cbn. rewrite length_app. cbn.
    by rewrite Nat.add_assoc.
Qed.

Lemma line_offsets_sums ls s : lines_of ls s → line_offsets s = sums 0 ls.
Proof. intros Hl. exact (offsets_all_sums ls s Hl 0). Qed.

Lemma sums_length k ls : length (sums k ls) = S (length ls).
Proof. revert k. induction ls as [|l ls IH]; intros k; cbn; [done|]. by rewrite IH. Qed.

Lemma sums_lookup k ls i :
  i ≤ length ls → sums k ls !! i = Some (k + length (concat (take i ls))).
Proof.
  revert k i. induction ls as [|l ls IH]; intros k [|i] Hi; cbn in *; try lia;
    try (by rewrite Nat.add_0_r).
  rewrite IH by lia. rewrite length_app. f_equal. lia.
Qed.

Lemma lines_of_concat ls s : lines_of ls s → concat ls = s.
Proof.
  induction 1 as [|body|body ls s Hb Hl IH]; cbn; [done|by rewrite app_nil_r|].
  by rewrite IH, <- app_assoc.
Qed.

Lemma lines_of_nonempty ls s : lines_of ls s → Forall (λ l, l ≠ []) ls.
Proof. induction 1; repeat constructor; try done. by destruct body. Qed.

(** The bytes between two line offsets are the lines between them. *)
Lemma sums_slice ls s i j x y :
  lines_of ls s → i ≤ j ≤ length ls → sums 0 ls !! i = Some x → sums 0 ls !! j = Some y →
  take (y - x) (drop x s) = concat (take (j - i) (drop i ls)).
Proof.
  intros <-%lines_of_concat Hij. rewrite !sums_lookup by lia. intros [= <-] [= <-]. cbn.
  assert (take j ls = take i ls ++ take (j - i) (drop i ls)) as ->.
  { rewrite <- (take_drop i (take j ls)), take_take, Nat.min_l by lia.
    f_equal. rewrite skipn_firstn_comm. done. }
  rewrite concat_app, length_app.
  assert (∀ k (l : list str), concat l = concat (take k l) ++ concat (drop k l)) as Hsplit.
  { intros k l. by rewrite <- concat_app, take_drop. }
  rewrite (Hsplit i ls), drop_app_length, (Hsplit (j - i) (drop i ls)).
  rewrite Nat.add_comm, Nat.add_sub, take_app_length. done.
Qed.

(** Every byte string can be cut into lines. *)
Lemma lines_of_total s : ∃ ls, lines_of ls s.
Proof.
  induction s as [|c s (ls & Hl)]; [exists []; constructor|].
  destruct (is_nl c) eqn:Hc.
  - exists ([nl] :: ls). apply bool_decide_eq_true in Hc as ->. by apply (lines_cons []).
  - inversion Hl; subst.
    + exists [[c]]. apply lines_last; [done|]. cbn. by rewrite Hc.
    + exists [c :: s]. apply lines_last; [done|]. cbn. by rewrite Hc.
    + exists ((c :: body ++ [nl]) :: ls0).
      apply (lines_cons (c :: body)); [|done]. cbn. by rewrite Hc.
Qed.

#[local] Arguments Nat.ltb : simpl never.
#[local] Arguments Nat.leb : simpl never.

(** ** Ordered ranges *)

Fixpoint ordered_from (lo : nat) (l : list line_range) : Prop :=
  match l with [] => True | r :: l' => lo ≤ r.1 ≤ r.2 ∧ ordered_from r.2 l' end.

Lemma ordered_from_le lo l r : ordered_from lo l → r ∈ l → lo ≤ r.1.
Proof.
  revert lo. induction l as [|r' l IH]; intros lo; cbn; [by intros _ ?%elem_of_nil|].
  intros (Hle & Ho) [->|Hin]%elem_of_cons; [lia|]. specialize (IH _ Ho Hin). lia.
Qed.

Lemma ordered_from_weaken lo lo' l : lo ≤ lo' → ordered_from lo' l → ordered_from lo l.
Proof. destruct l; cbn; [done|]. intros ? [? ?]. split; [lia|done]. Qed.

(** The binary search finds the range that holds a point, when one does. *)
Lemma partition_point_finds {A} (g : A → line_range) l lo x r :
  ordered_from lo (g <$> l) → r ∈ l → range_contains (g r) x = true →
  l !! partition_point (λ r, (g r).2 <=? x) l = Some r.
Proof.
  revert lo. induction l as [|r' l IH]; intros lo; [by intros _ ?%elem_of_nil|].
  cbn [fmap list_fmap ordered_from]. intros [Hle Ho] Hin Hc.
  apply andb_prop in Hc as Hc'. destruct Hc' as [H1%Nat.leb_le H2%Nat.ltb_lt].
  cbn [partition_point]. destruct ((g r').2 <=? x) eqn:Hx; bool_to_prop.
  - apply elem_of_cons in Hin as [->|Hin]; [lia|]. cbn. by eapply IH.
  - apply elem_of_cons in Hin as [->|Hin]; [done|].
    pose proof (ordered_from_le _ _ (g r) Ho (list_elem_of_fmap_2 g _ _ Hin)). lia.
Qed.

(** ** The tables of a diff *)

Section tables.
Context (before after : list str) (before_offsets after_offsets : list nat).

Abbreviation loop := (diff_loop before_offsets after_offsets (length before) (length after)).

Lemma diff_loop_cons b a h hunks d :
  loop b a (h :: hunks) = Ok d →
  ∃ c rest, change_of before_offsets after_offsets h = Ok c ∧ before_lines c = hunk_before h ∧
    loop (hunk_before h).2 (hunk_after h).2 hunks = Ok rest ∧
    d = {| changes := c :: changes rest;
           unchanged_lines :=
             (if b <? (hunk_before h).1
              then [{| run_before := (b, (hunk_before h).1); run_after := (a, (hunk_after h).1) |}]
              else []) ++ unchanged_lines rest |}.
Proof.
  cbn. intros Hd. apply bind_Ok in Hd as (c & Hc & Hd). apply bind_Ok in Hd as (rest & Hrest & [= <-]).
  exists c, rest. split_and!; try done. unfold change_of in Hc. by result_inv.
Qed.

Lemma diff_loop_total b a hunks :
  length before_offsets = S (length before) → length after_offsets = S (length after) →
  hunks_from before after b a hunks → ∃ d, loop b a hunks = Ok d.
Proof.
  intros Hb Ha. revert b a. induction hunks as [|h hunks IH]; intros b a; cbn; [eauto|].
  intros (_ & Hh1 & Hh2 & Hrest). destruct (IH _ _ Hrest) as [d Hd].
  unfold change_of, offset_at.
  destruct (lookup_lt_is_Some_2 before_offsets (hunk_before h).1) as [? ->]; [lia|].
  destruct (lookup_lt_is_Some_2 before_offsets (hunk_before h).2) as [? ->]; [lia|].
  destruct (lookup_lt_is_Some_2 after_offsets (hunk_after h).1) as [? ->]; [lia|].
  destruct (lookup_lt_is_Some_2 after_offsets (hunk_after h).2) as [? ->]; [lia|].
  cbn. rewrite Hd. cbn. eauto.
Qed.

(** The runs and the changes of a table are ordered. *)
Lemma diff_loop_ordered b a hunks d :
  hunks_from before after b a hunks → loop b a hunks = Ok d →
  ordered_from b (run_before <$> unchanged_lines d) ∧ ordered_from b (before_lines <$> changes d).
Proof.
  revert b a d. induction hunks as [|h hunks IH]; intros b a d Hh Hd; cbn in Hh.
  - injection Hd as <-. cbn. destruct (_ <? _) eqn:E; cbn; bool_to_prop; split_and!; lia.
  - destruct Hh as ((Hrun & _) & Hh1 & _ & Hrest).
    apply diff_loop_cons in Hd as (c & rest & _ & Hx & Hd & ->).
    destruct (IH _ _ _ Hrest Hd) as [Hr Hc]. cbn. rewrite Hx.
    split; [|split; [lia|done]].
    destruct (_ <? _) eqn:E; cbn; bool_to_prop; [split; [lia|]|];
      (eapply ordered_from_weaken; [|exact Hr]; lia).
Qed.

Definition run_equal (run : LineCorrespondence) : Prop :=
  equal_run before after (run_before run).1 (run_before run).2 (run_after run).1 (run_after run).2.

Lemma diff_loop_runs b a hunks d :
  hunks_from before after b a hunks → loop b a hunks = Ok d → Forall run_equal (unchanged_lines d).
Proof.
  revert b a d. induction hunks as [|h hunks IH]; intros b a d Hh Hd; cbn in Hh.
  - injection Hd as <-. cbn. destruct (_ <? _); [by apply Forall_singleton|by constructor].
  - destruct Hh as (Hrun & _ & _ & Hrest).
    apply diff_loop_cons in Hd as (c & rest & _ & _ & Hd & ->). cbn. apply Forall_app. split; [destruct (_ <? _); [by apply Forall_singleton|by constructor]|eauto].
Qed.

(** Every line from [b] on is in a run or in a change. *)
Lemma diff_loop_covers b a hunks d line :
  hunks_from before after b a hunks → loop b a hunks = Ok d → b ≤ line < length before →
  (∃ run, run ∈ unchanged_lines d ∧ range_contains (run_before run) line = true) ∨
  (∃ c, c ∈ changes d ∧ range_contains (before_lines c) line = true).
Proof.
  revert b a d. induction hunks as [|h hunks IH]; intros b a d Hh Hd Hl; cbn in Hh.
  - injection Hd as <-. left. cbn. rewrite (proj2 (Nat.ltb_lt _ _)) by lia.
    eexists. split; [apply list_elem_of_here|]. unfold range_contains; cbn.
    apply andb_true_intro. rewrite Nat.leb_le, Nat.ltb_lt. lia.
  - destruct Hh as ((Hrun & _) & Hh1 & _ & Hrest).
    apply diff_loop_cons in Hd as (x & rest & _ & Hx & Hd & ->). cbn.
    destruct (decide (line < (hunk_before h).1)) as [Hlt|Hge];
      [|destruct (decide (line < (hunk_before h).2)) as [Hlt|Hge2]].
    + left. rewrite (proj2 (Nat.ltb_lt _ _)) by lia.
      eexists. split; [apply list_elem_of_here|]. unfold range_contains; cbn.
      apply andb_true_intro. rewrite Nat.leb_le, Nat.ltb_lt. lia.
    + right. exists x. split; [apply list_elem_of_here|]. rewrite Hx. unfold range_contains.
      apply andb_true_intro. rewrite Nat.leb_le, Nat.ltb_lt. lia.
    + destruct (IH _ _ _ Hrest Hd) as [(run & ? & ?)|(c & ? & ?)]; [lia| |].
      * left. exists run. split; [apply elem_of_app; by right|done].
      * right. exists c. split; [by apply list_elem_of_further|done].
Qed.

(** A change records the offsets at the ends of its two line ranges. *)
Definition change_coordinates (c : SourceChange) : Prop :=
  (before_lines c).1 ≤ (before_lines c).2 ≤ length before ∧
  (after_lines c).1 ≤ (after_lines c).2 ≤ length after ∧
  before_offsets !! (before_lines c).1 = Some (ByteSpan.start (change_before c)) ∧
  before_offsets !! (before_lines c).2 = Some (ByteSpan.end_ (change_before c)) ∧
  after_offsets !! (after_lines c).1 = Some (ByteSpan.start (change_after c)) ∧
  after_offsets !! (after_lines c).2 = Some (ByteSpan.end_ (change_after c)).

Lemma diff_loop_coordinates b a hunks d :
  hunks_from before after b a hunks → loop b a hunks = Ok d → Forall change_coordinates (changes d).
Proof.
  revert b a d. induction hunks as [|h hunks IH]; intros b a d Hh Hd; cbn in Hh.
  - injection Hd as <-. by constructor.
  - destruct Hh as (_ & Hh1 & Hh2 & Hrest).
    apply diff_loop_cons in Hd as (c & rest & Hc & _ & Hd & ->). constructor; [|by eauto].
    unfold change_of, offset_at in Hc. result_inv. by unfold change_coordinates.
Qed.

(** A run and a change never share a line. *)
Lemma diff_loop_disjoint b a hunks d run c line :
  hunks_from before after b a hunks → loop b a hunks = Ok d →
  run ∈ unchanged_lines d → c ∈ changes d →
  range_contains (run_before run) line = true → range_contains (before_lines c) line = true → False.
Proof.
  revert b a d. induction hunks as [|h hunks IH]; intros b a d Hh Hd Hr Hc Hl1 Hl2;
    cbn in Hh; [injection Hd as <-; by apply elem_of_nil in Hc|].
  destruct Hh as ((Hrun & _) & Hh1 & _ & Hrest).
  apply diff_loop_cons in Hd as (x & rest & _ & Hx & Hd & ->).
  destruct (diff_loop_ordered _ _ _ _ Hrest Hd) as [Ho1 Ho2].
  unfold range_contains in Hl1, Hl2. bool_to_prop. cbn in Hr, Hc.
  apply elem_of_cons in Hc. apply elem_of_app in Hr as [Hr|Hr].
  - destruct (_ <? _); [|by apply elem_of_nil in Hr].
    apply list_elem_of_singleton in Hr as ->. cbn in *.
    destruct Hc as [->|Hc]; [rewrite Hx in *; lia|].
    pose proof (ordered_from_le _ _ _ Ho2 (list_elem_of_fmap_2 before_lines _ _ Hc)). lia.
  - pose proof (ordered_from_le _ _ _ Ho1 (list_elem_of_fmap_2 run_before _ _ Hr)).
    destruct Hc as [->|Hc]; [rewrite Hx in *; lia|].
    eapply (IH _ _ _ Hrest Hd Hr Hc); unfold range_contains; apply andb_true_intro;
      rewrite Nat.leb_le, Nat.ltb_lt; lia.
Qed.
End tables.

(** ** Properties *)

Section diff_claims.
Context `{DL : DiffLibrary} `{!DiffLaws} `{Blake3}.

Lemma map_before_line_run before after bo ao hunks d line line' :
  hunks_from before after 0 0 hunks →
  diff_loop bo ao (length before) (length after) 0 0 hunks = Ok d →
  map_before_line d line = Some line' ↔
  ∃ run, run ∈ unchanged_lines d ∧ range_contains (run_before run) line = true ∧
         line' = (run_after run).1 + line - (run_before run).1.
Proof.
  intros Hh Hd. destruct (diff_loop_ordered _ _ _ _ _ _ _ _ Hh Hd) as [Ho _].
  unfold map_before_line. split.
  - destruct (_ !! _) as [run|] eqn:E; [|done]. destruct (range_contains _ _) eqn:Hc; [|done].
    intros [= <-]. exists run. split; [by eapply list_elem_of_lookup_2|done].
  - intros (run & Hin & Hc & ->).
    by rewrite (partition_point_finds run_before _ 0 line run Ho Hin Hc), Hc.
Qed.

(** Comparing two sources never panics, whatever hunks the diff library
    gives within its contract: every offset the loop indexes exists.  The table
    it builds is exact.  A line of the old source is either mapped, and then to
    a line of the new source with the same bytes, or it lies in the old side of
    a reported change, never both; and two lines share a change exactly when
    one reported change holds both. *)
Theorem diff_sources_exact before after :
  ∃ d, diff_sources before after = Ok d ∧
    (∀ line line', map_before_line d line = Some line' →
      is_Some (byte_lines before !! line) ∧ byte_lines before !! line = byte_lines after !! line') ∧
    (∀ line, line < length (byte_lines before) →
      map_before_line d line = None ↔
      ∃ c, c ∈ changes d ∧ range_contains (before_lines c) line = true) ∧
    (∀ line line', shares_change d line line' = true ↔
      ∃ c, c ∈ changes d ∧ range_contains (before_lines c) line = true ∧
           range_contains (after_lines c) line' = true).
Proof.
  pose proof (histogram_law (byte_lines before) (byte_lines after)) as Hh.
  unfold diff_sources, diff_interned.
  rewrite (line_offsets_sums _ _ (byte_lines_law before)), (line_offsets_sums _ _ (byte_lines_law after)).
  destruct (diff_loop_total _ _ (sums 0 (byte_lines before)) (sums 0 (byte_lines after)) 0 0 _
              (sums_length _ _) (sums_length _ _) Hh) as [d Hd].
  pose proof (λ line line', map_before_line_run _ _ _ _ _ _ line line' Hh Hd) as Hmap.
  destruct (diff_loop_ordered _ _ _ _ _ _ _ _ Hh Hd) as [_ Ho].
  exists d. split_and!; [done| | |].
  - intros line line' (run & Hin & Hc & ->)%Hmap.
    pose proof (proj1 (Forall_forall _ _) (diff_loop_runs _ _ _ _ _ _ _ _ Hh Hd) run Hin)
      as (Hr1 & Hr2 & Hlen & Heq).
    unfold range_contains in Hc. bool_to_prop.
    specialize (Heq (line - (run_before run).1)).
    replace ((run_before run).1 + (line - (run_before run).1)) with line in Heq by lia.
    replace ((run_after run).1 + line - (run_before run).1)
      with ((run_after run).1 + (line - (run_before run).1)) by lia.
    split; [apply lookup_lt_is_Some_2; lia|apply Heq; lia].
  - intros line Hline. split.
    + intros Hnone.
      destruct (diff_loop_covers _ _ _ _ _ _ _ _ line Hh Hd) as [(run & Hin & Hc)|?]; [lia| |done].
      pose proof (proj2 (Hmap line _) (ex_intro _ run (conj Hin (conj Hc eq_refl)))). congruence.
    + intros (c & Hin & Hc). destruct (map_before_line d line) as [line'|] eqn:E; [|done].
      apply Hmap in E as (run & Hrun & Hrc & _).
      by destruct (diff_loop_disjoint _ _ _ _ _ _ _ _ run c line Hh Hd Hrun Hin).
  - intros line line'. unfold shares_change. split.
    + destruct (_ !! _) as [c|] eqn:E; [|done]. intros Hc. apply andb_prop in Hc as [? ?].
      exists c. split; [by eapply list_elem_of_lookup_2|done].
    + intros (c & Hin & Hc & Hc').
      rewrite (partition_point_finds before_lines _ 0 line c Ho Hin Hc). by rewrite Hc, Hc'.
Qed.

(** Every reported change selects whole lines: the byte span of each side
    is exactly the concatenation of the lines of its line range, so showing the
    span shows the changed lines, terminators included. *)
Theorem change_spans_select_lines before after d c :
  diff_sources before after = Ok d → c ∈ changes d →
  (let '(b0, b1) := before_lines c in
   take (ByteSpan.end_ (change_before c) - ByteSpan.start (change_before c))
     (drop (ByteSpan.start (change_before c)) before)
   = concat (take (b1 - b0) (drop b0 (byte_lines before)))) ∧
  (let '(a0, a1) := after_lines c in
   take (ByteSpan.end_ (change_after c) - ByteSpan.start (change_after c))
     (drop (ByteSpan.start (change_after c)) after)
   = concat (take (a1 - a0) (drop a0 (byte_lines after)))).
Proof.
  unfold diff_sources, diff_interned. intros Hd Hc.
  rewrite (line_offsets_sums _ _ (byte_lines_law before)),
    (line_offsets_sums _ _ (byte_lines_law after)) in Hd.
  pose proof (diff_loop_coordinates _ _ _ _ _ _ _ _ (histogram_law _ _) Hd) as HF.
  pose proof (proj1 (Forall_forall _ _) HF c Hc) as (Hb & Ha & Hb0 & Hb1 & Ha0 & Ha1).
  destruct (before_lines c), (after_lines c). split; apply sums_slice; by try apply byte_lines_law.
Qed.

Lemma windows2_sums_cons k l ls :
  windows2 (sums k (l :: ls)) = (k, k + length l) :: windows2 (sums (k + length l) ls).
Proof. by destruct ls. Qed.

Lemma windows2_increasing k ls :
  Forall (λ l, l ≠ []) ls →
  forallb (λ pair, pair.1 <? pair.2) (windows2 (sums k ls)) = true.
Proof.
  intros Hne. revert k. induction Hne as [|l ls Hl Hne IH]; intros k; [done|].
  rewrite windows2_sums_cons. cbn [forallb fst snd]. rewrite IH, andb_true_r.
  apply Nat.ltb_lt. destruct l; [done|cbn; lia].
Qed.

Lemma windows2_slices pre ls :
  (λ span, take (span.2 - span.1) (drop span.1 (pre ++ concat ls))) <$>
    windows2 (sums (length pre) ls) = ls.
Proof.
  revert pre. induction ls as [|l ls IH]; intros pre; [done|].
  rewrite windows2_sums_cons. cbn [fmap list_fmap fst snd concat]. f_equal.
  - rewrite drop_app_length, Nat.add_comm, Nat.add_sub, take_app_length. done.
  - rewrite <- length_app, app_assoc. apply IH.
Qed.

(** The line evidence computed from any source passes the validation that
    guards every later comparison, with the source's length as its extent and
    one fingerprint per line; so evidence recorded by the program is never
    rejected by the program. *)
Theorem fingerprint_lines_valid source :
  fingerprint_validate (fingerprint_lines source) = Ok (length source) ∧
  fingerprints (fingerprint_lines source) = revision_of <$> byte_lines source.
Proof.
  pose proof (byte_lines_law source) as Hl. unfold fingerprint_validate, fingerprint_lines. cbn.
  rewrite (line_offsets_sums _ _ Hl). pose proof (windows2_slices [] (byte_lines source)) as Hw.
  rewrite (lines_of_concat _ _ Hl) in Hw. cbn in Hw.
  assert ((λ span, revision_of (take (span.2 - span.1) (drop span.1 source))) <$>
            windows2 (sums 0 (byte_lines source)) = revision_of <$> byte_lines source) as Hf.
  { by rewrite <- Hw at 2; rewrite <- list_fmap_compose. }
  split; [|exact Hf]. rewrite Hf, length_fmap, sums_length.
  rewrite windows2_increasing by by eapply lines_of_nonempty.
  rewrite Nat.add_1_r, Nat.eqb_refl, bool_decide_true by by destruct (byte_lines source).
  cbn. rewrite last_lookup, sums_length, sums_lookup, take_ge by (cbn; lia).
  by rewrite (lines_of_concat _ _ Hl).
Qed.
End diff_claims.

(** ** A diff that keeps the common prefix *)

Module PrefixDiff.
Fixpoint common (b a : list str) : nat :=
  match b, a with
  | x :: b', y :: a' => if decide (x = y) then S (common b' a') else 0
  | _, _ => 0
  end.
Definition hunks (b a : list str) : list Hunk :=
  if decide (b = a) then []
  else [{| hunk_before := (common b a, length b); hunk_after := (common b a, length a) |}].

#[local] Instance library : DiffLibrary := {| byte_lines := split_lines; histogram_hunks := hunks |}.

Lemma split_lines_of s : lines_of (split_lines s) s.
Proof.
  induction s as [|c s IH]; [constructor|]. cbn. destruct (is_nl c) eqn:Hc.
  - apply bool_decide_eq_true in Hc as ->. by apply (lines_cons []).
  - inversion IH as [E|body Hne Hb E|body ls s' Hb Hl E]; subst.
    + apply lines_last; [done|]. cbn. by rewrite Hc.
    + apply lines_last; [done|]. cbn. by rewrite Hc.
    + apply (lines_cons (c :: body)); [|done]. cbn. by rewrite Hc.
Qed.

Lemma common_le b a : common b a ≤ length b ∧ common b a ≤ length a.
Proof.
  revert a. induction b as [|x b IH]; intros [|y a]; cbn; [lia..|].
  destruct (decide _); [destruct (IH a)|]; lia.
Qed.
Lemma common_lookup b a i : i < common b a → b !! i = a !! i.
Proof.
  revert a i. induction b as [|x b IH]; intros [|y a] i; cbn; [lia..|].
  destruct (decide _) as [->|]; [|lia]. destruct i; [done|]. cbn. intros. apply IH. lia.
Qed.

#[local] Instance laws : DiffLaws.
Proof.
  split; [exact split_lines_of|]. intros b a. cbn. unfold hunks.
  destruct (decide (b = a)) as [->|]; cbn; unfold equal_run; [by split_and!; try lia|].
  destruct (common_le b a). split_and!; try lia.
  intros i Hi. apply common_lookup. lia.
Qed.

Definition old : str := lit "a" ++ nl :: lit "b" ++ nl :: lit "c".
Definition new : str := lit "a" ++ nl :: lit "B" ++ nl :: lit "c".

#[local] Instance blake3 : Blake3 :=
  {| revision_of := λ s, s; revision_from_hex := λ s, Some s; revision_to_hex := λ s, s |}.

Lemma diff_sources_exact_witness :
  ∃ d, diff_sources old new = Ok d ∧ map_before_line d 0 = Some 0 ∧
       (∀ line line', map_before_line d line = Some line' →
          split_lines old !! line = split_lines new !! line').
Proof.
  destruct (diff_sources_exact old new) as (d & Hd & Hmap & _ & _).
  exists d. split; [exact Hd|]. split; [|intros; by apply Hmap].
  vm_compute in Hd. injection Hd as <-. reflexivity.
Defined.

Lemma change_spans_select_lines_witness :
  ∃ d c, diff_sources old new = Ok d ∧ c ∈ changes d ∧
    take 3 (drop 2 old) = concat (take 2 (drop 1 (split_lines old))).
Proof.
  destruct (diff_sources old new) as [d|e] eqn:E; [|vm_compute in E; discriminate E].
  destruct (changes d) as [|c cs] eqn:Ec;
    [vm_compute in E; injection E as <-; discriminate Ec|].
  assert (c ∈ changes d) as Hc by (rewrite Ec; apply list_elem_of_here).
  exists d, c. split; [reflexivity|]. split; [exact Hc|].
  pose proof (change_spans_select_lines old new d c E Hc) as [Hb _].
  vm_compute in E. injection E as <-. cbn in Ec. injection Ec as <- _. exact Hb.
Defined.

Lemma fingerprint_lines_valid_witness :
  fingerprint_validate (fingerprint_lines old) = Ok 5.
Proof. exact (proj1 (fingerprint_lines_valid old)). Defined.
End PrefixDiff.
