(* ===== verification/Correspond.v ===== *)
(** * Declaration correspondence

    Models [src/src/history/source_diff/correspondence.rs] and
    [correspond_fingerprints] of [src/src/history/source_diff/fingerprints.rs]:
    the conservative matching of the declarations of two versions of a source.
    A Rust [HashMap] is a [gmap]; the order in which it iterates is a parameter
    ([HashIteration]) of which only that it visits every entry once is known. *)
From Stdlib Require Import Ascii String ZArith Lia Permutation.
From stdpp Require Import base numbers list gmap strings.
From S2P Require Import Prelude Order Text Identity Hits Pages Source Diff.

Inductive DeclarationRelation := Unchanged | Modified | Moved | Added | Deleted | Uncertain.
#[export] Instance relation_eq_dec : EqDecision DeclarationRelation.
Proof. solve_decision. Defined.

Record DeclarationCorrespondence := MkRow {
  row_before : option nat;
  row_after : option nat;
  row_candidates : list nat;
  row_truncated : bool;
  row_relation : DeclarationRelation;
}.

Record MatchFact (K C : Type) := MkFact {
  fact_key : K;
  fact_start : nat;
  fact_content : option C;
}.
Arguments MkFact {K C}.
Arguments fact_key {K C}.
Arguments fact_start {K C}.
Arguments fact_content {K C}.

(** The order in which a [HashMap] yields its entries; each map is seeded on its own. *)
Class HashIteration := hash_iter : ∀ (seed : nat) {A : Type}, list A → list A.
Class HashIterationLaws `{HashIteration} : Prop :=
  hash_iter_perm : ∀ seed A (l : list A), hash_iter seed l ≡ₚ l.

(** [map.entry(k).or_insert_with(Vec::new).push(i)] and [*map.entry(k).or_insert(0) += 1]. *)
Definition entry_push `{Countable K} (m : gmap K (list nat)) (e : K * nat) : gmap K (list nat) :=
  <[e.1 := default [] (m !! e.1) ++ [e.2]]> m.
Definition entry_count `{Countable K} (m : gmap K nat) (k : K) : gmap K nat :=
  <[k := S (default 0 (m !! k))]> m.

(** [iter().enumerate()] *)
Definition enumerate {A} (l : list A) : list (nat * A) := imap pair l.

(** [position]; the offsets of every caller start at 0. *)
Definition position (offsets : list nat) (start : nat) : nat * nat :=
  let line := partition_point (λ offset, offset <=? start) offsets - 1 in
  (line, start - default 0 (offsets !! line)).

(** [matches] and [used_after] *)
Abbreviation match_state := (list (option (nat * DeclarationRelation)) * list bool)%type.

Definition try_match (lhs rhs : nat) (rel : DeclarationRelation) (st : match_state) : match_state :=
  if bool_decide (st.1 !! lhs = Some None) && bool_decide (st.2 !! rhs = Some false)
  then (<[lhs := Some (rhs, rel)]> st.1, <[rhs := true]> st.2)
  else st.

Section matching.
Context `{Countable K, Countable C} {HI : HashIteration}.

Definition group_definitions (facts : list (MatchFact K C)) : gmap K (list nat) :=
  foldl (λ m e, entry_push m (fact_key e.2, e.1)) ∅ (enumerate facts).

Definition count_positions (offsets : list nat) (facts : list (MatchFact K C)) :
    gmap (K * (nat * nat)) nat :=
  foldl (λ m f, entry_count m (fact_key f, position offsets (fact_start f))) ∅ facts.
Definition group_positions (offsets : list nat) (facts : list (MatchFact K C)) :
    gmap (K * (nat * nat)) (list nat) :=
  foldl (λ m e, entry_push m ((fact_key e.2, position offsets (fact_start e.2)), e.1)) ∅
    (enumerate facts).

(** [left.content.zip(right.content).is_some_and(|(l, r)| l == r)] *)
Definition equal_content (lhs rhs : MatchFact K C) : bool :=
  match fact_content lhs, fact_content rhs with
  | Some l, Some r => bool_decide (l = r)
  | _, _ => false
  end.

Section facts.
Context (before after : list (MatchFact K C)) (before_offsets after_offsets : list nat)
        (complete : bool) (diff : SourceDiff).

(** One declaration of the first loop: an exact mapped position. *)
Definition position_step (before_positions : gmap (K * (nat * nat)) nat)
    (after_positions : gmap (K * (nat * nat)) (list nat))
    (st : match_state) (e : nat * MatchFact K C) : match_state :=
  let '(index, definition) := e in
  let '(line, column) := position before_offsets (fact_start definition) in
  if bool_decide (before_positions !! (fact_key definition, (line, column)) = Some 1) then
    match map_before_line diff line with
    | None => st
    | Some mapped =>
        match after_positions !! (fact_key definition, (mapped, column)) with
        | Some [candidate] =>
            match after !! candidate, st.2 !! candidate with
            | Some target, Some false =>
                let rel := if equal_content definition target then Unchanged else Modified in
                (<[index := Some (candidate, rel)]> st.1, <[candidate := true]> st.2)
            | _, _ => st
            end
        | _ => st
        end
    end
  else st.

(** Indexes of one group by their content. *)
Definition group_content (facts : list (MatchFact K C)) (indexes : list nat) :
    gmap C (list nat) :=
  foldl (λ m index,
    match facts !! index ≫= fact_content with
    | Some bytes => entry_push m (bytes, index)
    | None => m
    end) ∅ indexes.

(** A lone declaration on each side that shares a change. *)
Definition shared_change_step (before_indexes after_indexes : list nat) (st : match_state) :
    match_state :=
  match before_indexes, after_indexes with
  | [lhs], [rhs] =>
      match before !! lhs, after !! rhs with
      | Some l, Some r =>
          if shares_change diff (position before_offsets (fact_start l)).1
               (position after_offsets (fact_start r)).1
          then try_match lhs rhs Modified st else st
      | _, _ => st
      end
  | _, _ => st
  end.

(** Exact content that is unique on both sides. *)
Definition moved_step (after_content : gmap C (list nat)) (st : match_state)
    (e : C * list nat) : match_state :=
  match e.2, after_content !! e.1 with
  | [lhs], Some [rhs] => try_match lhs rhs Moved st
  | _, _ => st
  end.

Definition group_step (after_groups : gmap K (list nat)) (st : match_state)
    (e : K * list nat) : match_state :=
  match after_groups !! e.1 with
  | None => st
  | Some after_indexes =>
      foldl (moved_step (group_content after after_indexes))
        (shared_change_step e.2 after_indexes st)
        (hash_iter 2 (map_to_list (group_content before e.2)))
  end.

Definition match_loop : match_state :=
  let st := (replicate (length before) None, replicate (length after) false) in
  let st := foldl (position_step (count_positions before_offsets before)
                                 (group_positions after_offsets after))
              st (enumerate before) in
  foldl (group_step (group_definitions after)) st
    (hash_iter 0 (map_to_list (group_definitions before))).

(** One group of the new side: its unmatched indexes (64 kept) and their number. *)
Definition remaining_index (used : list bool) (uncertain : bool)
    (acc : list bool * list nat * nat) (index : nat) : list bool * list nat * nat :=
  let '(uncertain_after, candidates, count) := acc in
  if bool_decide (used !! index = Some false)
  then (<[index := uncertain]> uncertain_after,
        if length candidates <? 64 then candidates ++ [index] else candidates, S count)
  else acc.
Definition remaining_step (st : match_state) (before_groups : gmap K (list nat))
    (acc : list bool * gmap K (list nat * nat)) (e : K * list nat) :
    list bool * gmap K (list nat * nat) :=
  let uncertain := match before_groups !! e.1 with
                   | Some indexes => existsb (λ i, bool_decide (st.1 !! i = Some None)) indexes
                   | None => false
                   end in
  let '(uncertain_after, candidates, count) :=
    foldl (remaining_index st.2 uncertain) (acc.1, [], 0) e.2 in
  (uncertain_after, <[e.1 := (candidates, count)]> acc.2).

Fixpoint before_rows (st : match_state) (remaining : gmap K (list nat * nat)) (index links : nat)
    (facts : list (MatchFact K C)) : list DeclarationCorrespondence :=
  match facts with
  | [] => []
  | definition :: facts' =>
      match mjoin (st.1 !! index) with
      | Some (after, relation) =>
          {| row_before := Some index; row_after := Some after; row_candidates := [];
             row_truncated := false; row_relation := relation |}
          :: before_rows st remaining (S index) links facts'
      | None =>
          let '(kept, count) := default ([], 0) (remaining !! fact_key definition) in
          let candidates := take (Nat.min (length kept) links) kept in
          {| row_before := Some index; row_after := None; row_candidates := candidates;
             row_truncated := length candidates <? count;
             row_relation := if (count =? 0) && complete then Deleted else Uncertain |}
          :: before_rows st remaining (S index) (links - length candidates) facts'
      end
  end.

Definition after_row (uncertain_after : list bool) (e : nat * bool) :
    list DeclarationCorrespondence :=
  let '(index, used) := e in
  if used then [] else
    [{| row_before := None; row_after := Some index; row_candidates := [];
        row_truncated := false;
        row_relation := if complete && negb (default false (uncertain_after !! index))
                        then Added else Uncertain |}].

Definition match_facts : list DeclarationCorrespondence :=
  let st := match_loop in
  let '(uncertain_after, remaining) :=
    foldl (remaining_step st (group_definitions before)) (replicate (length after) false, ∅)
      (hash_iter 1 (map_to_list (group_definitions after))) in
  before_rows st remaining 0 4096 before ++
  (enumerate st.2 ≫= after_row uncertain_after).
End facts.
End matching.

(** ** The two entry points *)

(** [extract::Definition], and the fields of [Extraction] that are read. *)
Record SourceDefinition := MkDefinition {
  def_name : str;
  def_kind : str;
  def_start : nat;
  def_end : nat;
  def_container : option str;
}.
Record Extraction := MkExtraction { definitions : list SourceDefinition; extraction_status : str }.

Definition declaration_key (d : SourceDefinition) : str * str * option str :=
  (def_name d, def_kind d, def_container d).

(** [source.get(start..end)], without the empty slice. *)
Definition content (source : str) (d : SourceDefinition) : option str :=
  if (def_start d <=? def_end d) && (def_end d <=? length source)
  then match take (def_end d - def_start d) (drop (def_start d) source) with
       | [] => None
       | bytes => Some bytes
       end
  else None.

Record FingerprintFact := MkFingerprint {
  fingerprint_key : str;
  fingerprint_span : ByteSpan.t;
  fingerprint : str;
}.

Section entry_points.
Context `{HashIteration} `{DiffLibrary}.

Definition definition_fact (source : str) (d : SourceDefinition) :
    MatchFact (str * str * option str) str :=
  {| fact_key := declaration_key d; fact_start := def_start d; fact_content := content source d |}.

Definition correspond_declarations (before after : str) (before_extraction after_extraction : Extraction)
    (diff : SourceDiff) : list DeclarationCorrespondence :=
  match_facts (definition_fact before <$> definitions before_extraction)
    (definition_fact after <$> definitions after_extraction)
    (line_offsets before) (line_offsets after)
    (bool_decide (extraction_status before_extraction = lit "complete") &&
     bool_decide (extraction_status after_extraction = lit "complete"))
    diff.

Definition fingerprint_fact (f : FingerprintFact) : MatchFact str str :=
  {| fact_key := fingerprint_key f;
     fact_start := ByteSpan.start (fingerprint_span f);
     fact_content :=
       if ByteSpan.start (fingerprint_span f) <? ByteSpan.end_ (fingerprint_span f)
       then Some (fingerprint f) else None |}.

(** [lines.map(FingerprintLines::validate).transpose()] *)
Definition lines_length (lines : option FingerprintLines) : result (option nat) :=
  match lines with Some l => Some <$> fingerprint_validate l | None => Ok None end.

(** [convert]; without line evidence the limit is [usize::MAX], which no
    coordinate exceeds. *)
Definition convert (facts : list FingerprintFact) (len : option nat) : result unit :=
  _ ← try_map (λ f, ByteSpan.validate (fingerprint_span f)
                      (default (ByteSpan.end_ (fingerprint_span f)) len)) facts;
  Ok tt.

Definition correspond_fingerprints (before after : list FingerprintFact)
    (before_complete after_complete : bool) (before_lines after_lines : option FingerprintLines) :
    result (list DeclarationCorrespondence) :=
  diff ← match before_lines, after_lines with
         | Some b, Some a => diff_fingerprints b a
         | _, _ => Ok diff_default
         end;
  before_length ← lines_length before_lines;
  after_length ← lines_length after_lines;
  _ ← convert before before_length;
  _ ← convert after after_length;
  Ok (match_facts (fingerprint_fact <$> before) (fingerprint_fact <$> after)
        (match before_lines with Some l => offsets l | None => [0] end)
        (match after_lines with Some l => offsets l | None => [0] end)
        (before_complete && after_complete) diff).
End entry_points.

(** ** Folds *)

Lemma foldl_invariant {A B} (P : B → Prop) (f : B → A → B) b l :
  P b → (∀ b x, x ∈ l → P b → P (f b x)) → P (foldl f b l).
Proof.
  revert b. induction l as [|x l IH]; intros b Hb Hf; cbn; [done|].
  apply IH; [apply Hf; [apply list_elem_of_here|done]|].
  intros. apply Hf; [by apply list_elem_of_further|done].
Qed.

(** Steps that commute pairwise give the same result in any order. *)
Lemma foldl_reorder {A B} (f : B → A → B) l1 l2 :
  l1 ≡ₚ l2 → NoDup l1 →
  (∀ b x y, x ∈ l1 → y ∈ l1 → x ≠ y → f (f b x) y = f (f b y) x) →
  ∀ b, foldl f b l1 = foldl f b l2.
Proof.
  induction 1 as [|x l1 l2 Hp IH|x y l|l1 l2 l3 Hp1 IH1 Hp2 IH2]; intros Hnd Hf b; cbn; [done| | |].
  - apply NoDup_cons in Hnd as [_ Hnd]. apply IH; [done|].
    intros. apply Hf; [by apply list_elem_of_further..|done].
  - apply NoDup_cons in Hnd as [Hnin _]. rewrite (Hf b y x); [done|apply list_elem_of_here| |].
    + apply list_elem_of_further, list_elem_of_here.
    + intros ->. apply Hnin, list_elem_of_here.
  - rewrite IH1 by done. apply IH2; [by rewrite <- Hp1|].
    intros. apply Hf; [by rewrite Hp1..|done].
Qed.

Lemma foldl_ext {A B} (f g : B → A → B) l :
  (∀ b x, f b x = g b x) → ∀ b, foldl f b l = foldl g b l.
Proof. intros Hfg. induction l as [|x l IH]; intros b; cbn; [done|]. by rewrite Hfg, IH. Qed.

(** Two runs of steps commute when each step of one commutes with each of the other. *)
Lemma foldl_commute {A B} (f : B → A → B) l1 l2 b :
  (∀ b x y, x ∈ l1 → y ∈ l2 → f (f b x) y = f (f b y) x) →
  foldl f (foldl f b l1) l2 = foldl f (foldl f b l2) l1.
Proof.
  intros Hf. rewrite <- !foldl_app. revert b. induction l1 as [|x l1 IH]; intros b; cbn.
  - by rewrite app_nil_r.
  - rewrite IH by (intros; apply Hf; [by apply list_elem_of_further|done]).
    rewrite !foldl_app. cbn. f_equal. clear IH.
    revert b. induction l2 as [|y l2 IH2]; intros b; cbn; [done|].
    rewrite Hf by apply list_elem_of_here. apply IH2.
    intros. apply Hf; [done|by apply list_elem_of_further].
Qed.

Lemma NoDup_omap {A B} (f : A → option B) l :
  (∀ x y z, f x = Some z → f y = Some z → x = y) → NoDup l → NoDup (omap f l).
Proof.
  intros Hf. induction 1 as [|x l Hx Hnd IH]; cbn; [constructor|].
  destruct (f x) as [z|] eqn:E; [|done]. constructor; [|done].
  intros (y & Hy & Hz)%list_elem_of_omap. apply Hx. by rewrite (Hf x y z).
Qed.

Lemma bind_ext_in {A B} (f g : A → list B) l :
  (∀ x, x ∈ l → f x = g x) → l ≫= f = l ≫= g.
Proof.
  induction l as [|x l IH]; intros Hfg; cbn; [done|].
  rewrite Hfg by apply list_elem_of_here. f_equal. apply IH.
  intros. apply Hfg. by apply list_elem_of_further.
Qed.

Lemma foldl_insert_length {A} (x : A) l v :
  length (foldl (λ v i, <[i := x]> v) v l) = length v.
Proof.
  apply (foldl_invariant (λ w, length w = length v)); [done|]. intros. by rewrite length_insert.
Qed.
Lemma foldl_insert_lookup {A} (x : A) l v i :
  i < length v →
  foldl (λ v i, <[i := x]> v) v l !! i = if decide (i ∈ l) then Some x else v !! i.
Proof.
  intros Hi. induction l as [|j l IH] using rev_ind; [by rewrite decide_False by apply not_elem_of_nil|].
  pose proof (foldl_insert_length x l v) as Hlen.
  rewrite foldl_app. cbn. destruct (decide (i = j)) as [->|Hne].
  - rewrite list_lookup_insert_eq by lia. rewrite decide_True; [done|]. set_solver.
  - rewrite list_lookup_insert_ne, IH by done.
    destruct (decide (i ∈ l)), (decide (i ∈ l ++ [j])); try done; set_solver.
Qed.
(** ** Groups *)

Section groups.
Context `{Countable K}.

(** What is grouped under [k], in order. *)
Definition grouped (k : K) (l : list (K * nat)) : list nat := snd <$> filter (λ e, e.1 = k) l.

Lemma entry_push_lookup (l : list (K * nat)) k :
  foldl entry_push ∅ l !! k = match grouped k l with [] => None | ids => Some ids end.
Proof.
  induction l as [|[k' i] l IH] using rev_ind; [done|].
  assert (foldl entry_push ∅ (l ++ [(k', i)]) =
          <[k' := default [] (foldl entry_push ∅ l !! k') ++ [i]]> (foldl entry_push ∅ l)) as ->
    by (by rewrite foldl_app).
  unfold grouped in *. rewrite filter_app, fmap_app.
  destruct (decide (k' = k)) as [->|Hne].
  - rewrite lookup_insert_eq, IH, filter_cons_True by done.
    rewrite filter_nil. cbn. by destruct (snd <$> _).
  - rewrite lookup_insert_ne, IH, filter_cons_False by done.
    rewrite filter_nil. cbn. by rewrite app_nil_r.
Qed.

Lemma grouped_elem k l i : i ∈ grouped k l ↔ (k, i) ∈ l.
Proof.
  unfold grouped. rewrite list_elem_of_fmap. setoid_rewrite list_elem_of_filter.
  split; [intros ([k' j] & -> & <- & Hin); exact Hin|intros Hin; by exists (k, i)].
Qed.

Lemma group_Some (l : list (K * nat)) k ids :
  foldl entry_push ∅ l !! k = Some ids → ∀ i, i ∈ ids ↔ (k, i) ∈ l.
Proof.
  rewrite entry_push_lookup. intros Hg i. rewrite <- (grouped_elem k l i).
  destruct (grouped k l); [done|by injection Hg as <-].
Qed.
Lemma group_None (l : list (K * nat)) k : foldl entry_push ∅ l !! k = None → ∀ i, (k, i) ∉ l.
Proof.
  rewrite entry_push_lookup. intros Hg i. rewrite <- (grouped_elem k l i).
  destruct (grouped k l); [by apply not_elem_of_nil|done].
Qed.
End groups.

Lemma elem_of_enumerate {A} (l : list A) i x : (i, x) ∈ enumerate l ↔ l !! i = Some x.
Proof.
  unfold enumerate. rewrite elem_of_lookup_imap. split; [by intros (? & ? & [= -> ->] & ?)|].
  intros Hl. by exists i, x.
Qed.
Lemma enumerate_snoc {A} (l : list A) x : enumerate (l ++ [x]) = enumerate l ++ [(length l, x)].
Proof. unfold enumerate. rewrite imap_app. cbn. by rewrite Nat.add_0_r. Qed.

Lemma enumerate_fst {A} (l : list A) : fst <$> enumerate l = seq 0 (length l).
Proof.
  induction l as [|x l IH] using rev_ind; [done|].
  by rewrite enumerate_snoc, fmap_app, IH, length_app, seq_app.
Qed.

(** ** The state of the matching *)

Section matched.
Context `{Countable K, Countable C} {HI : HashIteration} {HL : HashIterationLaws}.
Context (before after : list (MatchFact K C)) (before_offsets after_offsets : list nat)
        (complete : bool) (diff : SourceDiff).

(** What a matched pair has in common. *)
Definition matched (l r : nat) (rel : DeclarationRelation) : Prop :=
  ∃ f g, before !! l = Some f ∧ after !! r = Some g ∧ fact_key f = fact_key g ∧
    match rel with
    | Unchanged | Moved => ∃ c, fact_content f = Some c ∧ fact_content g = Some c
    | Modified => True
    | _ => False
    end.

Definition match_inv (st : match_state) : Prop :=
  length st.1 = length before ∧ length st.2 = length after ∧
  (∀ l r rel, st.1 !! l = Some (Some (r, rel)) → st.2 !! r = Some true ∧ matched l r rel) ∧
  (∀ l l' r rel rel', st.1 !! l = Some (Some (r, rel)) → st.1 !! l' = Some (Some (r, rel')) → l = l') ∧
  (∀ r, st.2 !! r = Some true → ∃ l rel, st.1 !! l = Some (Some (r, rel))).

Lemma match_inv_assign st l r rel :
  match_inv st → st.1 !! l = Some None → st.2 !! r = Some false → matched l r rel →
  match_inv (<[l := Some (r, rel)]> st.1, <[r := true]> st.2).
Proof.
  intros (Hl1 & Hl2 & Hm & Hinj & Hu) Hl Hr Hmat.
  pose proof (lookup_lt_Some _ _ _ Hl). pose proof (lookup_lt_Some _ _ _ Hr).
  split_and!; cbn; [by rewrite length_insert..| | |].
  - intros l' r' rel'. destruct (decide (l' = l)) as [->|Hne].
    + rewrite list_lookup_insert_eq by done. intros [= <- <-].
      by rewrite list_lookup_insert_eq.
    + rewrite list_lookup_insert_ne by done. intros Hl'. destruct (Hm _ _ _ Hl') as [Hr' ?].
      split; [|done]. destruct (decide (r' = r)) as [->|]; [congruence|].
      by rewrite list_lookup_insert_ne.
  - assert (∀ l' rel', st.1 !! l' ≠ Some (Some (r, rel'))) as Hfresh.
    { intros l' rel' Hl'. apply Hm in Hl' as [Hr' _]. congruence. }
    intros l1 l2 r' rel1 rel2.
    destruct (decide (l1 = l)) as [->|], (decide (l2 = l)) as [->|];
      rewrite ?list_lookup_insert_eq, ?list_lookup_insert_ne by done; try done.
    + intros [= <- <-] Hx. by apply Hfresh in Hx.
    + intros Hx [= <- <-]. by apply Hfresh in Hx.
    + apply Hinj.
  - intros r'. destruct (decide (r' = r)) as [->|Hne].
    + intros _. exists l, rel. by rewrite list_lookup_insert_eq.
    + rewrite list_lookup_insert_ne by done. intros (l' & rel' & Hl')%Hu. exists l', rel'.
      rewrite list_lookup_insert_ne; [done|]. congruence.
Qed.

Lemma match_inv_try st l r rel :
  matched l r rel → match_inv st → match_inv (try_match l r rel st).
Proof.
  intros Hmat Hinv. unfold try_match. destruct (_ && _) eqn:E; [|done].
  bool_to_prop. by apply match_inv_assign.
Qed.

Lemma match_inv_init : match_inv (replicate (length before) None, replicate (length after) false).
Proof.
  split_and!; cbn; [by rewrite length_replicate..| | |].
  - intros ? ? ? [? _]%lookup_replicate_1. done.
  - intros ? ? ? ? ? [? _]%lookup_replicate_1. done.
  - intros ? [? _]%lookup_replicate_1. done.
Qed.

(** *** Groups of the facts *)

Lemma group_definitions_elem (facts : list (MatchFact K C)) k ids i :
  group_definitions facts !! k = Some ids →
  i ∈ ids ↔ ∃ f, facts !! i = Some f ∧ fact_key f = k.
Proof.
  unfold group_definitions.
  rewrite <- (foldl_fmap entry_push _ _ (λ e, (fact_key e.2, e.1))).
  intros Hg. rewrite (group_Some _ _ _ Hg), list_elem_of_fmap. split.
  - intros ([j f] & [= -> ->] & Hin%elem_of_enumerate). by exists f.
  - intros (f & Hf & <-). exists (i, f). by rewrite elem_of_enumerate.
Qed.
Lemma group_definitions_is_Some (facts : list (MatchFact K C)) i f :
  facts !! i = Some f → is_Some (group_definitions facts !! fact_key f).
Proof.
  unfold group_definitions.
  rewrite <- (foldl_fmap entry_push _ _ (λ e, (fact_key e.2, e.1))). intros Hf.
  destruct (foldl _ _ _ !! _) eqn:Hg; [done|]. exfalso. apply (group_None _ _ Hg i).
  apply list_elem_of_fmap. exists (i, f). by rewrite elem_of_enumerate.
Qed.
Lemma group_positions_elem offs (facts : list (MatchFact K C)) kp ids i :
  group_positions offs facts !! kp = Some ids → i ∈ ids → ∃ f, facts !! i = Some f ∧ fact_key f = kp.1.
Proof.
  unfold group_positions.
  rewrite <- (foldl_fmap entry_push _ _ (λ e, ((fact_key e.2, position offs (fact_start e.2)), e.1))).
  intros Hg. rewrite (group_Some _ _ _ Hg), list_elem_of_fmap.
  intros ([j f] & [= -> ->] & Hin%elem_of_enumerate). by exists f.
Qed.
Lemma group_content_elem (facts : list (MatchFact K C)) idx c ids i :
  group_content facts idx !! c = Some ids →
  i ∈ ids ↔ i ∈ idx ∧ ∃ f, facts !! i = Some f ∧ fact_content f = Some c.
Proof.
  set (entry i := (λ c : C, (c, i)) <$> (facts !! i ≫= fact_content)).
  assert (group_content facts idx = foldl entry_push ∅ (omap entry idx)) as ->.
  { unfold group_content. generalize (∅ : gmap C (list nat)).
    induction idx as [|j idx IH]; intros m; cbn; [done|]. rewrite IH. unfold entry at 2.
    by destruct (facts !! j ≫= fact_content). }
  intros Hg. rewrite (group_Some _ _ _ Hg), list_elem_of_omap. split.
  - intros (j & Hj & He). unfold entry in He.
    destruct (facts !! j) as [f|] eqn:Hf; [|done]. cbn in He.
    destruct (fact_content f) eqn:Hc; [|done]. injection He as -> ->. eauto.
  - intros (Hi & f & Hf & Hc). exists i. split; [done|]. unfold entry. by rewrite Hf; cbn; rewrite Hc.
Qed.

(** *** Steps as attempts to match a pair *)

Abbreviation attempt := (nat * nat * DeclarationRelation)%type.
Definition apply_attempt (st : match_state) (a : attempt) : match_state :=
  try_match a.1.1 a.1.2 a.2 st.

Lemma apply_attempt_commute st a a' :
  a.1.1 ≠ a'.1.1 → a.1.2 ≠ a'.1.2 →
  apply_attempt (apply_attempt st a) a' = apply_attempt (apply_attempt st a') a.
Proof.
  destruct a as [[l r] rel], a' as [[l' r'] rel'], st as [m u]. cbn. intros Hl Hr.
  unfold apply_attempt, try_match. cbn.
  destruct (bool_decide (m !! l = _)) eqn:E1, (bool_decide (u !! r = _)) eqn:E2,
    (bool_decide (m !! l' = _)) eqn:E3, (bool_decide (u !! r' = _)) eqn:E4; cbn;
    rewrite ?list_lookup_insert_ne by done; rewrite ?E1, ?E2, ?E3, ?E4; cbn; try done.
  f_equal; by apply list_insert_insert_ne.
Qed.

Definition shared_attempts (before_indexes after_indexes : list nat) : list attempt :=
  match before_indexes, after_indexes with
  | [l], [r] =>
      match before !! l, after !! r with
      | Some f, Some g =>
          if shares_change diff (position before_offsets (fact_start f)).1
               (position after_offsets (fact_start g)).1
          then [(l, r, Modified)] else []
      | _, _ => []
      end
  | _, _ => []
  end.
Definition moved_attempt (after_content : gmap C (list nat)) (e : C * list nat) : option attempt :=
  match e.2, after_content !! e.1 with
  | [l], Some [r] => Some (l, r, Moved)
  | _, _ => None
  end.
Definition moved_attempts (before_indexes after_indexes : list nat) : list attempt :=
  omap (moved_attempt (group_content after after_indexes))
    (hash_iter 2 (map_to_list (group_content before before_indexes))).
Definition group_attempts (e : K * list nat) : list attempt :=
  match group_definitions after !! e.1 with
  | None => []
  | Some after_indexes => shared_attempts e.2 after_indexes ++ moved_attempts e.2 after_indexes
  end.

Lemma moved_step_attempt after_content st e :
  moved_step after_content st e =
  match moved_attempt after_content e with Some a => apply_attempt st a | None => st end.
Proof. unfold moved_step, moved_attempt. by repeat case_match. Qed.
Lemma moved_step_attempts after_content es st :
  foldl (moved_step after_content) st es = foldl apply_attempt st (omap (moved_attempt after_content) es).
Proof.
  revert st. induction es as [|e es IH]; intros st; cbn; [done|].
  rewrite IH, moved_step_attempt. by destruct (moved_attempt after_content e).
Qed.

Lemma group_step_attempts st e :
  group_step before after before_offsets after_offsets diff (group_definitions after) st e =
  foldl apply_attempt st (group_attempts e).
Proof.
  unfold group_step, group_attempts. destruct (_ !! e.1) as [ids|]; [|done].
  rewrite foldl_app, moved_step_attempts. unfold moved_attempts. f_equal.
  unfold shared_change_step, shared_attempts. by repeat case_match.
Qed.

(** An attempt of a group pairs declarations with the group's key. *)
Lemma shared_attempts_matched k bi ai a :
  group_definitions before !! k = Some bi → group_definitions after !! k = Some ai →
  a ∈ shared_attempts bi ai →
  matched a.1.1 a.1.2 a.2 ∧ a.1.1 ∈ bi ∧ a.1.2 ∈ ai.
Proof.
  intros Hb Ha. unfold shared_attempts. repeat case_match; intros Hin; try (by apply elem_of_nil in Hin).
  apply list_elem_of_singleton in Hin as ->. cbn. subst.
  pose proof (proj1 (group_definitions_elem _ _ _ _ Hb) (list_elem_of_here _ _)) as (f & Hf & Hkf).
  pose proof (proj1 (group_definitions_elem _ _ _ _ Ha) (list_elem_of_here _ _)) as (g & Hg & Hkg).
  split; [|split; apply list_elem_of_here]. exists f, g. rewrite Hkf, Hkg. done.
Qed.
Lemma moved_attempt_content bi ai e a :
  group_content before bi !! e.1 = Some e.2 → moved_attempt (group_content after ai) e = Some a →
  a.2 = Moved ∧ a.1.1 ∈ bi ∧ a.1.2 ∈ ai ∧
  (∃ f, before !! a.1.1 = Some f ∧ fact_content f = Some e.1) ∧
  (∃ g, after !! a.1.2 = Some g ∧ fact_content g = Some e.1).
Proof.
  destruct e as [c ids]. unfold moved_attempt. cbn. intros Hb.
  destruct ids as [|l [|]]; try done.
  destruct (group_content after ai !! c) as [[|r [|]]|] eqn:Ha; try done. intros [= <-]. cbn.
  pose proof (proj1 (group_content_elem _ _ _ _ _ Hb) (list_elem_of_here _ _)) as (? & ?).
  pose proof (proj1 (group_content_elem _ _ _ _ _ Ha) (list_elem_of_here _ _)) as (? & ?).
  done.
Qed.
Lemma group_attempts_matched k ids a :
  group_definitions before !! k = Some ids → a ∈ group_attempts (k, ids) →
  matched a.1.1 a.1.2 a.2 ∧
  ∃ f g, before !! a.1.1 = Some f ∧ after !! a.1.2 = Some g ∧ fact_key f = k ∧ fact_key g = k.
Proof.
  intros Hb. unfold group_attempts. cbn.
  destruct (group_definitions after !! k) as [ai|] eqn:Ha; [|by intros ?%elem_of_nil].
  assert (∀ i, i ∈ ids → ∃ f, before !! i = Some f ∧ fact_key f = k) as HB
    by (intros i; apply (group_definitions_elem _ _ _ _ Hb)).
  assert (∀ i, i ∈ ai → ∃ f, after !! i = Some f ∧ fact_key f = k) as HA
    by (intros i; apply (group_definitions_elem _ _ _ _ Ha)).
  intros [Hin|Hin]%elem_of_app.
  - destruct (shared_attempts_matched k _ _ _ Hb Ha Hin) as (Hm & (f & ? & ?)%HB & (g & ? & ?)%HA).
    split; [done|]. by exists f, g.
  - apply list_elem_of_omap in Hin as (e & He & Hat).
    rewrite hash_iter_perm in He. destruct e as [c is']. apply elem_of_map_to_list in He.
    destruct (moved_attempt_content _ _ (c, is') a He Hat)
      as (-> & (f & Hf & Hkf)%HB & (g & Hg & Hkg)%HA & (f' & Hf' & Hc) & (g' & Hg' & Hc')).
    simplify_eq. split; [|by exists f, g]. exists f, g. split_and!; try done. by exists c.
Qed.

(** *** The invariant of the matching *)

Definition position_state (facts : list (MatchFact K C)) : match_state :=
  foldl (position_step after before_offsets diff (count_positions before_offsets before)
           (group_positions after_offsets after))
    (replicate (length before) None, replicate (length after) false) (enumerate facts).

Lemma position_step_cases st l f :
  position_step after before_offsets diff (count_positions before_offsets before)
    (group_positions after_offsets after) st (l, f) = st ∨
  ∃ r g rel, after !! r = Some g ∧ fact_key f = fact_key g ∧ st.2 !! r = Some false ∧
    rel = (if equal_content f g then Unchanged else Modified) ∧
    position_step after before_offsets diff (count_positions before_offsets before)
      (group_positions after_offsets after) st (l, f) =
    (<[l := Some (r, rel)]> st.1, <[r := true]> st.2).
Proof.
  unfold position_step. destruct (position before_offsets (fact_start f)) as [line column].
  case_bool_decide; [|by left]. destruct (map_before_line diff line) as [mapped|]; [|by left].
  destruct (group_positions after_offsets after !! (fact_key f, (mapped, column)))
    as [[|r [|]]|] eqn:Hg; try by left.
  destruct (after !! r) as [g|] eqn:Hr; [|by left]. destruct (st.2 !! r) as [[]|] eqn:Hu; try by left.
  right. exists r, g, (if equal_content f g then Unchanged else Modified).
  destruct (group_positions_elem _ _ _ _ r Hg) as (g' & Hg' & Hk); [apply list_elem_of_here|].
  simplify_eq. split_and!; try done.
Qed.

Lemma position_state_inv facts :
  facts `prefix_of` before →
  match_inv (position_state facts) ∧
  ∀ l, length facts ≤ l < length before → (position_state facts).1 !! l = Some None.
Proof.
  induction facts as [|f facts IH] using rev_ind; intros Hpre.
  - split; [apply match_inv_init|]. intros l [_ Hl]. by apply lookup_replicate_2.
  - destruct IH as [Hinv Hnone]; [etrans; [by apply prefix_app_r|done]|].
    assert (before !! length facts = Some f) as Hf.
    { eapply prefix_lookup_Some; [|exact Hpre]. by rewrite lookup_app_r, Nat.sub_diag. }
    unfold position_state. rewrite enumerate_snoc, foldl_app. cbn [foldl].
    fold (position_state facts). rewrite length_app. cbn [length].
    destruct (position_step_cases (position_state facts) (length facts) f)
      as [->|(r & g & rel & Hr & Hk & Hu & Hrel & ->)].
    + split; [done|]. intros. apply Hnone. lia.
    + split; [|intros l Hl; cbn; rewrite list_lookup_insert_ne by lia; apply Hnone; lia].
      apply match_inv_assign; [done| |done|].
      { apply Hnone. split; [lia|]. by eapply lookup_lt_Some. }
      exists f, g. split_and!; try done. subst rel. unfold equal_content.
      destruct (fact_content f) as [c|], (fact_content g) as [c'|]; try done.
      case_bool_decide; subst; [by exists c'|done].
Qed.

Lemma match_loop_inv : match_inv (match_loop before after before_offsets after_offsets diff).
Proof.
  unfold match_loop. apply foldl_invariant; [by apply position_state_inv|].
  intros st [k ids] Hin Hst. rewrite hash_iter_perm, elem_of_map_to_list in Hin.
  rewrite group_step_attempts. apply foldl_invariant; [done|].
  intros st' a Ha. apply match_inv_try. by apply (group_attempts_matched k ids).
Qed.

(** *** What is left of each group, whatever the order of the maps *)

Definition unused (u : list bool) (ids : list nat) : list nat := filter (λ i, u !! i = Some false) ids.
Definition remaining_of (u : list bool) (ids : list nat) : list nat * nat :=
  (take 64 (unused u ids), length (unused u ids)).
Definition uncertain_of (st : match_state) (k : K) : bool :=
  match group_definitions before !! k with
  | Some ids => existsb (λ i, bool_decide (st.1 !! i = Some None)) ids
  | None => false
  end.

Lemma remaining_index_fold u b v ids :
  foldl (remaining_index u b) (v, [], 0) ids =
  (foldl (λ v i, <[i := b]> v) v (unused u ids), take 64 (unused u ids), length (unused u ids)).
Proof.
  induction ids as [|i ids IH] using rev_ind; [done|].
  rewrite foldl_app, IH. cbn [foldl]. unfold unused. rewrite filter_app.
  unfold remaining_index. case_bool_decide as Hi.
  - rewrite filter_cons_True by done. rewrite filter_nil, foldl_app, length_app. cbn [foldl length].
    rewrite Nat.add_1_r. f_equal. f_equal. fold (unused u ids). rewrite length_take.
    destruct (_ <? 64) eqn:E; bool_to_prop.
    + rewrite !take_ge by (rewrite ?length_app; cbn; lia). done.
    + by rewrite take_app_le by lia.
  - rewrite filter_cons_False by done. by rewrite filter_nil, app_nil_r.
Qed.

Lemma remaining_step_eq st acc k ids :
  remaining_step st (group_definitions before) acc (k, ids) =
  (foldl (λ v i, <[i := uncertain_of st k]> v) acc.1 (unused st.2 ids),
   <[k := remaining_of st.2 ids]> acc.2).
Proof. unfold remaining_step. cbn [fst snd]. by rewrite remaining_index_fold. Qed.

Lemma remaining_fold st gs :
  length st.2 = length after → NoDup gs.*1 →
  (∀ k ids i, (k, ids) ∈ gs → i ∈ ids → ∃ f, after !! i = Some f ∧ fact_key f = k) →
  let acc := foldl (remaining_step st (group_definitions before))
               (replicate (length after) false, ∅) gs in
  length acc.1 = length after ∧
  (∀ k ids, (k, ids) ∈ gs → acc.2 !! k = Some (remaining_of st.2 ids)) ∧
  (∀ k, k ∉ gs.*1 → acc.2 !! k = None) ∧
  (∀ k ids i, (k, ids) ∈ gs → i ∈ unused st.2 ids → acc.1 !! i = Some (uncertain_of st k)).
Proof.
  intros Hlen. induction gs as [|[k ids] gs IH] using rev_ind; intros Hnd Hgs acc.
  - split_and!; [by apply length_replicate| | |]; try done; by intros * ?%elem_of_nil.
  - rewrite fmap_app in Hnd. apply NoDup_app in Hnd as (Hnd & Hfresh & _).
    destruct IH as (Hl & Hrem & Hnone & Hunc); [done|intros; eapply Hgs; [|done]; set_solver|].
    subst acc. rewrite foldl_app. cbn [foldl]. set (acc := foldl _ _ gs) in *.
    rewrite remaining_step_eq. cbn [fst snd].
    assert (∀ k' ids', (k', ids') ∈ gs → k' ≠ k) as Hne.
    { intros k' ids' Hin ->. apply (Hfresh k); [|set_solver].
      apply list_elem_of_fmap. by exists (k, ids'). }
    split_and!; [by rewrite foldl_insert_length| | |].
    + intros k' ids' [Hin|[= -> ->]%list_elem_of_singleton]%elem_of_app;
        [rewrite lookup_insert_ne by (by apply not_eq_sym, (Hne k' ids')); by apply Hrem|].
      by rewrite lookup_insert_eq.
    + intros k' Hk'. rewrite fmap_app in Hk'. rewrite lookup_insert_ne by set_solver.
      apply Hnone. set_solver.
    + intros k' ids' i Hin Hi.
      assert (i ∈ ids') as Hi' by (by apply list_elem_of_filter in Hi as [_ ?]).
      destruct (Hgs _ _ _ Hin Hi') as (f & Hf & Hkf).
      rewrite foldl_insert_lookup by (rewrite Hl; by eapply lookup_lt_Some).
      apply elem_of_app in Hin as [Hin|[= -> ->]%list_elem_of_singleton];
        [|by rewrite decide_True].
      rewrite decide_False; [by eapply Hunc|]. intros [_ Hi2]%list_elem_of_filter.
      destruct (Hgs k ids i ltac:(set_solver) Hi2) as (f2 & Hf2 & Hk2). simplify_eq.
      by apply (Hne (fact_key f) ids').
Qed.

(** The rows as a function of the matching alone. *)
Definition rows_of (st : match_state) : list DeclarationCorrespondence :=
  before_rows complete st (remaining_of st.2 <$> group_definitions after) 0 4096 before ++
  (enumerate st.2 ≫= after_row complete ((λ f, uncertain_of st (fact_key f)) <$> after)).

Lemma match_facts_rows_of :
  match_facts before after before_offsets after_offsets complete diff =
  rows_of (match_loop before after before_offsets after_offsets diff).
Proof.
  unfold match_facts. pose proof match_loop_inv as (_ & Hlen & _).
  set (st := match_loop _ _ _ _ _) in *.
  pose proof (remaining_fold st (hash_iter 1 (map_to_list (group_definitions after))) Hlen) as Hfold.
  destruct Hfold as (Hl & Hrem & Hnone & Hunc).
  { rewrite (hash_iter_perm 1). apply NoDup_fst_map_to_list. }
  { intros k ids i Hin Hi. rewrite hash_iter_perm, elem_of_map_to_list in Hin.
    by apply (group_definitions_elem _ _ _ _ Hin). }
  destruct (foldl _ _ _) as [v rem]. cbn in *. unfold rows_of. f_equal.
  - f_equal. apply map_eq. intros k. rewrite lookup_fmap.
    destruct (group_definitions after !! k) as [ids|] eqn:Hg; cbn.
    + apply Hrem. by rewrite hash_iter_perm, elem_of_map_to_list.
    + apply Hnone. intros ([k' ids] & -> & Hin)%list_elem_of_fmap. cbn in Hg.
      rewrite hash_iter_perm, elem_of_map_to_list in Hin. congruence.
  - apply bind_ext_in. intros [i [|]] Hi%elem_of_enumerate; [done|]. cbn. do 4 f_equal.
    destruct (lookup_lt_is_Some_2 after i) as [f Hf]; [rewrite <- Hlen; by eapply lookup_lt_Some|].
    rewrite list_lookup_fmap, Hf. cbn.
    destruct (group_definitions_is_Some after i f Hf) as [ids Hg].
    rewrite (Hunc (fact_key f) ids i); [done|by rewrite hash_iter_perm, elem_of_map_to_list|].
    apply list_elem_of_filter. split; [done|]. apply (group_definitions_elem _ _ _ _ Hg). by exists f.
Qed.

(** *** The rows *)

Lemma before_rows_before st rem i links (facts : list (MatchFact K C)) :
  omap row_before (before_rows complete st rem i links facts) = seq i (length facts).
Proof.
  revert i links. induction facts as [|f facts IH]; intros i links; cbn; [done|].
  destruct (mjoin _) as [[r rel]|]; cbn; [by rewrite IH|].
  destruct (default _ _) as [kept count]. cbn. by rewrite IH.
Qed.
Lemma before_rows_after st rem i links (facts : list (MatchFact K C)) :
  omap row_after (before_rows complete st rem i links facts) =
  omap (λ j, fst <$> mjoin (st.1 !! j)) (seq i (length facts)).
Proof.
  revert i links. induction facts as [|f facts IH]; intros i links; cbn; [done|].
  destruct (mjoin _) as [[r rel]|]; cbn; [by rewrite IH|].
  destruct (default _ _) as [kept count]. cbn. by rewrite IH.
Qed.
Lemma before_rows_links st rem i links (facts : list (MatchFact K C)) :
  sum_list_with (λ row, length (row_candidates row)) (before_rows complete st rem i links facts) ≤ links.
Proof.
  revert i links. induction facts as [|f facts IH]; intros i links; cbn; [lia|].
  destruct (mjoin _) as [[r rel]|]; cbn; [apply IH|].
  destruct (default _ _) as [kept count]. cbn.
  specialize (IH (S i) (links - length (take (Nat.min (length kept) links) kept))).
  rewrite length_take in *. lia.
Qed.

(** A row of the old side: matched, or with what is left of its group. *)
Definition before_row_spec (st : match_state) (rem : gmap K (list nat * nat)) (l : nat)
    (f : MatchFact K C) (row : DeclarationCorrespondence) : Prop :=
  match mjoin (st.1 !! l) with
  | Some (r, rel) => row_after row = Some r ∧ row_relation row = rel
  | None =>
      let '(kept, count) := default ([], 0) (rem !! fact_key f) in
      row_after row = None ∧ row_candidates row `prefix_of` kept ∧
      row_truncated row = (length (row_candidates row) <? count) ∧
      row_relation row = (if (count =? 0) && complete then Deleted else Uncertain)
  end.
Lemma before_rows_elem st rem i links facts row :
  row ∈ before_rows complete st rem i links facts →
  ∃ j f, facts !! j = Some f ∧ row_before row = Some (i + j) ∧ before_row_spec st rem (i + j) f row.
Proof.
  revert i links. induction facts as [|f facts IH]; intros i links; [by intros ?%elem_of_nil|].
  assert (∀ links', row ∈ before_rows complete st rem (S i) links' facts →
    ∃ j g, (f :: facts) !! j = Some g ∧ row_before row = Some (i + j) ∧
           before_row_spec st rem (i + j) g row) as Hrest.
  { intros links' (j & g & Hg & Hrow)%IH. exists (S j), g.
    replace (S i + j) with (i + S j) in Hrow by lia. by destruct Hrow. }
  cbn [before_rows]. intros Hin. destruct (mjoin (st.1 !! i)) as [[r rel]|] eqn:Hm.
  - apply elem_of_cons in Hin as [->|Hin]; [|by eapply Hrest].
    exists 0, f. rewrite Nat.add_0_r. unfold before_row_spec. by rewrite Hm.
  - destruct (default _ _) as [kept count] eqn:Hd.
    apply elem_of_cons in Hin as [->|Hin]; [|by eapply Hrest].
    exists 0, f. rewrite Nat.add_0_r. unfold before_row_spec. rewrite Hm, Hd. cbn.
    split_and!; try done. apply prefix_take.
Qed.

Lemma after_rows_elem v u row :
  row ∈ (enumerate u ≫= after_row complete v) ↔
  ∃ r, u !! r = Some false ∧ row = {| row_before := None; row_after := Some r; row_candidates := [];
          row_truncated := false;
          row_relation := if complete && negb (default false (v !! r)) then Added else Uncertain |}.
Proof.
  rewrite list_elem_of_bind. split.
  - intros ([r [|]] & Hin & Hr%elem_of_enumerate); [by apply elem_of_nil in Hin|].
    apply list_elem_of_singleton in Hin. by exists r.
  - intros (r & Hr & ->). exists (r, false). split; [apply list_elem_of_here|by apply elem_of_enumerate].
Qed.
Lemma after_rows_before v u : omap row_before (enumerate u ≫= after_row complete v) = [].
Proof. induction (enumerate u) as [|[i [|]] l IH]; cbn; done. Qed.
Lemma after_rows_after v u :
  omap row_after (enumerate u ≫= after_row complete v) =
  omap (λ e : nat * bool, if e.2 then None else Some e.1) (enumerate u).
Proof. induction (enumerate u) as [|[i [|]] l IH]; cbn; [done..|]. by rewrite IH. Qed.

(** A row that has a counterpart on the new side has no candidates. *)
Lemma before_rows_candidates st rem i links (facts : list (MatchFact K C)) row :
  row ∈ before_rows complete st rem i links facts → is_Some (row_after row) → row_candidates row = [].
Proof.
  revert i links. induction facts as [|f facts IH]; intros i links; cbn [before_rows]; [by intros ?%elem_of_nil|].
  destruct (mjoin _) as [[r rel]|].
  - intros [->|Hin]%elem_of_cons; [done|by eapply IH].
  - destruct (default _ _) as [kept count]. intros [->|Hin]%elem_of_cons; [by intros [? ?]|by eapply IH].
Qed.

(** A declaration of either side without a counterpart. *)
Definition unmatched_after (rows : list DeclarationCorrespondence) (r : nat) : Prop :=
  ∃ row, row ∈ rows ∧ row_before row = None ∧ row_after row = Some r.
Definition unmatched_before (rows : list DeclarationCorrespondence) (l : nat) : Prop :=
  ∃ row, row ∈ rows ∧ row_before row = Some l ∧ row_after row = None.

Lemma unmatched_after_iff st r : unmatched_after (rows_of st) r ↔ st.2 !! r = Some false.
Proof.
  unfold unmatched_after, rows_of. split.
  - intros (row & [Hin|Hin]%elem_of_app & Hb & Ha).
    + apply before_rows_elem in Hin as (j & f & _ & Hrow & _). congruence.
    + apply after_rows_elem in Hin as (r' & Hr & ->). cbn in Ha. by injection Ha as ->.
  - intros Hr. eexists. split; [apply elem_of_app; right; apply after_rows_elem; by exists r|done].
Qed.
Lemma unmatched_before_iff st l :
  match_inv st → unmatched_before (rows_of st) l ↔ st.1 !! l = Some None.
Proof.
  intros (Hlen & _). unfold unmatched_before, rows_of. split.
  - intros (row & [Hin|Hin]%elem_of_app & Hb & Ha);
      [|apply after_rows_elem in Hin as (? & _ & ->); done].
    apply before_rows_elem in Hin as (j & f & Hf & Hrow & Hspec).
    assert (0 + j = l) as Hj by congruence. rewrite Hj in Hspec. cbn in Hj. subst j.
    destruct (lookup_lt_is_Some_2 st.1 l) as [o Ho]; [rewrite Hlen; by eapply lookup_lt_Some|].
    unfold before_row_spec in Hspec. rewrite Ho in *. destruct o as [[r rel]|]; [|done].
    cbn in Hspec. destruct Hspec. congruence.
  - intros Hl. pose proof (lookup_lt_Some _ _ _ Hl) as Hlt.
    assert (l ∈ omap row_before (before_rows complete st
              (remaining_of st.2 <$> group_definitions after) 0 4096 before)) as Hin.
    { rewrite before_rows_before, elem_of_seq. lia. }
    apply list_elem_of_omap in Hin as (row & Hin & Hb).
    exists row. split_and!; [apply elem_of_app; by left|done|].
    apply before_rows_elem in Hin as (j & f & Hf & Hrow & Hspec).
    assert (0 + j = l) as Hj by congruence. rewrite Hj in Hspec.
    unfold before_row_spec in Hspec. rewrite Hl in Hspec. cbn in Hspec.
    destruct (default _ _). by destruct Hspec.
Qed.

Abbreviation rows := (match_facts before after before_offsets after_offsets complete diff).

(** C6. The correspondence accounts for every declaration exactly once: the
    rows list the old declarations in order, each in one row, and every new
    declaration in exactly one row, so no declaration is lost, invented or
    paired twice. *)
Theorem match_facts_accounts :
  omap row_before rows = seq 0 (length before) ∧
  omap row_after rows ≡ₚ seq 0 (length after).
Proof.
  rewrite match_facts_rows_of. pose proof match_loop_inv as Hinv.
  set (st := match_loop _ _ _ _ _) in *. destruct Hinv as (Hl1 & Hl2 & Hm & Hinj & Hu).
  unfold rows_of. rewrite !omap_app, before_rows_before, after_rows_before, app_nil_r.
  split; [done|]. rewrite before_rows_after, after_rows_after.
  assert (∀ j r, fst <$> mjoin (st.1 !! j) = Some r → ∃ rel, st.1 !! j = Some (Some (r, rel))) as Hj.
  { intros j r. destruct (st.1 !! j) as [[[r' rel]|]|]; try done. intros [= ->]. eauto. }
  apply NoDup_Permutation; [|apply NoDup_seq|].
  - apply NoDup_app. split_and!.
    + apply NoDup_omap; [|apply NoDup_seq].
      intros x y r (? & Hx)%Hj (? & Hy)%Hj. by eapply Hinj.
    + intros r (j & _ & (rel & Hr)%Hj)%list_elem_of_omap ([i []] & Hi & [= ->])%list_elem_of_omap.
      apply elem_of_enumerate in Hi. apply Hm in Hr as [Hr _]. congruence.
    + apply NoDup_omap.
      * intros [x []] [y []] z; cbn; congruence.
      * apply (NoDup_fmap_1 fst). rewrite enumerate_fst. apply NoDup_seq.
  - intros r. rewrite elem_of_app, !list_elem_of_omap, elem_of_seq. split.
    + intros [(j & _ & (rel & Hr)%Hj)|([i []] & Hi & [= ->])].
      * apply Hm in Hr as [Hr _]. apply lookup_lt_Some in Hr. lia.
      * apply elem_of_enumerate, lookup_lt_Some in Hi. lia.
    + intros [_ Hr]. destruct (lookup_lt_is_Some_2 st.2 r) as [[|] Hb]; [lia| |].
      * left. apply Hu in Hb as (l & rel & Hl). exists l.
        rewrite elem_of_seq, Hl. pose proof (lookup_lt_Some _ _ _ Hl). split; [lia|done].
      * right. exists (r, false). by rewrite elem_of_enumerate.
Qed.

(** What one row asserts about the two sides. *)
Definition row_sound (rows : list DeclarationCorrespondence) (row : DeclarationCorrespondence) : Prop :=
  match row_before row, row_after row with
  | Some l, Some r => matched l r (row_relation row)
  | Some l, None =>
      ∃ f, before !! l = Some f ∧ row_relation row ∈ [Deleted; Uncertain] ∧
        (row_relation row = Deleted ↔ complete = true ∧
           ∀ r g, after !! r = Some g → fact_key g = fact_key f → ¬ unmatched_after rows r) ∧
        (∀ r, r ∈ row_candidates row →
           unmatched_after rows r ∧ ∃ g, after !! r = Some g ∧ fact_key g = fact_key f) ∧
        length (row_candidates row) ≤ 64 ∧
        (row_truncated row = false → ∀ r g, after !! r = Some g → fact_key g = fact_key f →
           unmatched_after rows r → r ∈ row_candidates row)
  | None, Some r =>
      ∃ g, after !! r = Some g ∧ row_relation row ∈ [Added; Uncertain] ∧
        (row_relation row = Added ↔ complete = true ∧
           ∀ l f, before !! l = Some f → fact_key f = fact_key g → ¬ unmatched_before rows l)
  | None, None => False
  end.

Lemma remaining_lookup u (f : MatchFact K C) :
  ∃ ids, default ([], 0) ((remaining_of u <$> group_definitions after) !! fact_key f) =
           (take 64 ids, length ids) ∧
    ∀ r, r ∈ ids ↔ u !! r = Some false ∧ ∃ g, after !! r = Some g ∧ fact_key g = fact_key f.
Proof.
  rewrite lookup_fmap. destruct (group_definitions after !! fact_key f) as [ids|] eqn:Hg; cbn.
  - exists (unused u ids). split; [done|]. intros r. unfold unused.
    by rewrite list_elem_of_filter, (group_definitions_elem _ _ _ _ Hg).
  - exists []. split; [done|]. intros r. split; [by intros ?%elem_of_nil|].
    intros (_ & g & Hr & Hk). apply group_definitions_is_Some in Hr as [? Hr]. congruence.
Qed.

Lemma uncertain_of_iff st k :
  uncertain_of st k = true ↔ ∃ l f, before !! l = Some f ∧ fact_key f = k ∧ st.1 !! l = Some None.
Proof.
  unfold uncertain_of. destruct (group_definitions before !! k) as [ids|] eqn:Hg.
  - rewrite existsb_exists. split.
    + intros (l & Hin & Hl). apply bool_decide_eq_true in Hl.
      apply list_elem_of_In, (group_definitions_elem _ _ _ _ Hg) in Hin as (f & ? & ?). by exists l, f.
    + intros (l & f & Hf & Hk & Hl). exists l. rewrite bool_decide_true by done. split; [|done].
      apply list_elem_of_In, (group_definitions_elem _ _ _ _ Hg). by exists f.
  - split; [done|]. intros (l & f & Hf & <- & _).
    apply group_definitions_is_Some in Hf as [? Hf]. congruence.
Qed.

Lemma before_row_sound st row :
  match_inv st → row ∈ before_rows complete st (remaining_of st.2 <$> group_definitions after) 0 4096 before →
  row_sound (rows_of st) row.
Proof.
  intros Hinv (j & f & Hf & Hrow & Hspec)%before_rows_elem. cbn in Hrow, Hspec.
  unfold row_sound. rewrite Hrow. unfold before_row_spec in Hspec.
  destruct (mjoin (st.1 !! j)) as [[r rel]|] eqn:Hm.
  - destruct Hspec as [-> ->]. destruct Hinv as (_ & _ & Hmat & _).
    apply (Hmat j r rel). destruct (st.1 !! j) as [[]|]; [|done..]. cbn in Hm. by rewrite Hm.
  - destruct (remaining_lookup st.2 f) as (ids & Hd & Hids). rewrite Hd in Hspec.
    destruct Hspec as (-> & Hpre & Htrunc & Hrel).
    assert (∀ r, r ∈ row_candidates row → r ∈ ids) as Hsub.
    { intros r Hr. destruct Hpre as [tl Htl].
      assert (r ∈ take 64 ids) as Hin by (rewrite Htl; apply elem_of_app; by left).
      rewrite <- (take_drop 64 ids). apply elem_of_app. by left. }
    exists f. split_and!; [done| | | | |].
    + rewrite Hrel. destruct (_ && _); set_solver.
    + rewrite Hrel. split.
      * destruct (_ && _) eqn:E; [|done]. intros _. bool_to_prop. split; [done|].
        intros r g Hg Hk Hun%unmatched_after_iff.
        assert (r ∈ ids) as Hin by (apply Hids; eauto). destruct ids; [by apply elem_of_nil in Hin|done].
      * intros [-> Hnone]. destruct ids as [|r ids]; [done|].
        destruct (proj1 (Hids r)) as (Hun & g & Hg & Hk); [apply list_elem_of_here|].
        exfalso. apply (Hnone r g Hg Hk). by apply unmatched_after_iff.
    + intros r (Hun & g & Hg & Hk)%Hsub%Hids. split; [by apply unmatched_after_iff|eauto].
    + apply prefix_length in Hpre. rewrite length_take in Hpre. lia.
    + rewrite Htrunc. intros Hlt r g Hg Hk Hun%unmatched_after_iff. bool_to_prop.
      assert (r ∈ ids) as Hin by (apply Hids; eauto).
      apply prefix_length in Hpre as Hpl. rewrite length_take in Hpl.
      destruct Hpre as [tl Htl]. rewrite take_ge in Htl by lia.
      assert (length ids = length (row_candidates row ++ tl)) as Hlen by (by rewrite Htl at 1).
      rewrite length_app in Hlen. destruct tl; [|cbn in Hlen; lia].
      by rewrite Htl, app_nil_r in Hin.
Qed.

(** Every row is justified.  A pair is two declarations with the same
    name, kind and container, and its content is equal when the row calls it
    unchanged or moved.  A declaration is called deleted (added) exactly when
    both extractions are complete and no declaration with its key is left
    unmatched on the other side; otherwise it is uncertain.  The candidates of
    an unmatched row are unmatched declarations with its key, at most 64 of
    them, and all of them unless the row says they are truncated. *)
Theorem match_facts_sound row : row ∈ rows → row_sound rows row.
Proof.
  rewrite match_facts_rows_of. pose proof match_loop_inv as Hinv.
  set (st := match_loop _ _ _ _ _) in *. intros [Hin|Hin]%elem_of_app; [by apply before_row_sound|].
  apply after_rows_elem in Hin as (r & Hr & ->). cbn.
  destruct (lookup_lt_is_Some_2 after r) as [g Hg].
  { destruct Hinv as (_ & <- & _). by eapply lookup_lt_Some. }
  exists g. rewrite list_lookup_fmap, Hg. cbn. split_and!; [done|destruct (_ && _); set_solver|].
  assert (uncertain_of st (fact_key g) = false ↔
    ∀ l f, before !! l = Some f → fact_key f = fact_key g → ¬ unmatched_before (rows_of st) l) as <-.
  { rewrite <- not_true_iff_false, uncertain_of_iff.
    setoid_rewrite (unmatched_before_iff st _ Hinv). naive_solver. }
  destruct complete, (uncertain_of st (fact_key g)); cbn; naive_solver.
Qed.

Lemma match_facts_candidates row : row ∈ rows → is_Some (row_after row) → row_candidates row = [].
Proof.
  rewrite match_facts_rows_of. intros [Hin|Hin]%elem_of_app; [by eapply before_rows_candidates|].
  by apply after_rows_elem in Hin as (r & _ & ->).
Qed.

(** However many declarations share a name, the rows of one comparison
    carry at most 4096 candidate links in all. *)
Theorem candidate_links_bounded :
  sum_list_with (λ row, length (row_candidates row)) rows ≤ 4096.
Proof.
  rewrite match_facts_rows_of. set (st := match_loop _ _ _ _ _). unfold rows_of.
  rewrite sum_list_with_app.
  pose proof (before_rows_links st (remaining_of st.2 <$> group_definitions after) 0 4096 before).
  assert (sum_list_with (λ row, length (row_candidates row))
    (enumerate st.2 ≫= after_row complete ((λ f, uncertain_of st (fact_key f)) <$> after)) = 0); [|lia].
  induction (enumerate st.2) as [|[i [|]] l IH]; cbn; done.
Qed.
End matched.

(** ** Independence of the order of the maps *)

Section order.
Context `{Countable K, Countable C} (it1 it2 : HashIteration)
        `{!@HashIterationLaws it1, !@HashIterationLaws it2}.
Context (before after : list (MatchFact K C)) (before_offsets after_offsets : list nat)
        (complete : bool) (diff : SourceDiff).

Abbreviation attempts it := (group_attempts (HI:=it) before after before_offsets after_offsets diff).

Lemma moved_attempts_reorder bi ai st :
  foldl apply_attempt st (moved_attempts (HI:=it1) before after bi ai) =
  foldl apply_attempt st (moved_attempts (HI:=it2) before after bi ai).
Proof.
  unfold moved_attempts. rewrite <- !moved_step_attempts. apply foldl_reorder.
  - by rewrite !hash_iter_perm.
  - rewrite hash_iter_perm. apply NoDup_map_to_list.
  - intros st' [c ids] [c' ids'] Hx Hy Hne.
    rewrite hash_iter_perm in Hx, Hy. apply elem_of_map_to_list in Hx, Hy.
    assert (c ≠ c') as Hc by (intros ->; congruence).
    rewrite !moved_step_attempt.
    destruct (moved_attempt _ (c, ids)) as [a|] eqn:Ha, (moved_attempt _ (c', ids')) as [a'|] eqn:Ha';
      rewrite ?moved_step_attempt, ?Ha, ?Ha'; try done.
    destruct (moved_attempt_content _ _ _ _ (c, ids) a Hx Ha) as (_ & _ & _ & (f & Hf & Hcf) & (g & Hg & Hcg)).
    destruct (moved_attempt_content _ _ _ _ (c', ids') a' Hy Ha') as (_ & _ & _ & (f' & Hf' & Hcf') & (g' & Hg' & Hcg')).
    cbn in *. apply apply_attempt_commute; intros E; rewrite E in *; congruence.
Qed.

Lemma group_attempts_reorder e st :
  foldl apply_attempt st (attempts it1 e) = foldl apply_attempt st (attempts it2 e).
Proof.
  unfold group_attempts. destruct (_ !! e.1) as [ai|]; [|done].
  rewrite !foldl_app. apply moved_attempts_reorder.
Qed.

Lemma match_loop_reorder :
  match_loop (HI:=it1) before after before_offsets after_offsets diff =
  match_loop (HI:=it2) before after before_offsets after_offsets diff.
Proof.
  unfold match_loop. generalize (foldl (position_step after before_offsets diff
    (count_positions before_offsets before) (group_positions after_offsets after))
    (replicate (length before) None, replicate (length after) false) (enumerate before)).
  intros st. set (gs := map_to_list (group_definitions before)).
  rewrite (foldl_ext _ (λ st e, foldl apply_attempt st (attempts it1 e)))
    by (intros; apply group_step_attempts).
  rewrite (foldl_ext (group_step (HI:=it2) _ _ _ _ _ _) (λ st e, foldl apply_attempt st (attempts it1 e)))
    by (intros; rewrite group_attempts_reorder; apply group_step_attempts).
  apply foldl_reorder; [by rewrite !hash_iter_perm|rewrite hash_iter_perm; apply NoDup_map_to_list|].
  intros st' [k ids] [k' ids'] Hx Hy Hne. rewrite hash_iter_perm in Hx, Hy.
  apply elem_of_map_to_list in Hx, Hy.
  assert (k ≠ k') as Hk by (intros ->; congruence).
  apply foldl_commute. intros st'' a a' Ha Ha'.
  apply (group_attempts_matched _ _ _ _ _ k ids a Hx) in Ha as (_ & f & g & Hf & Hg & Hkf & Hkg).
  apply (group_attempts_matched _ _ _ _ _ k' ids' a' Hy) in Ha' as (_ & f' & g' & Hf' & Hg' & Hkf' & Hkg').
  apply apply_attempt_commute; intros E; rewrite E in *; congruence.
Qed.

(** The correspondence does not depend on the order in which the hash maps
    yield their entries: the result is a function of the two sources and their
    diff, although the code iterates randomly seeded maps. *)
Theorem match_facts_deterministic :
  match_facts (HI:=it1) before after before_offsets after_offsets complete diff =
  match_facts (HI:=it2) before after before_offsets after_offsets complete diff.
Proof. by rewrite !match_facts_rows_of, match_loop_reorder. Qed.
End order.

(** ** Examples *)

Module CorrespondExample.
Definition in_order : HashIteration := λ _ _ l, l.
Definition reversed : HashIteration := λ _ _ l, reverse l.
#[local] Instance in_order_laws : @HashIterationLaws in_order.
Proof. by intros seed A l. Qed.
#[local] Instance reversed_laws : @HashIterationLaws reversed.
Proof. intros seed A l. apply reverse_Permutation. Qed.

Definition fact (k start : nat) (c : option nat) : MatchFact nat nat :=
  {| fact_key := k; fact_start := start; fact_content := c |}.
(** Declaration 1 and 2 change places, 3 is repeated and ambiguous, 4 is new. *)
Definition before : list (MatchFact nat nat) := [fact 1 0 (Some 7); fact 2 4 (Some 8); fact 3 8 (Some 9)].
Definition after : list (MatchFact nat nat) :=
  [fact 2 0 (Some 8); fact 1 4 (Some 7); fact 3 8 (Some 5); fact 3 12 (Some 6); fact 4 16 None].
Definition lines : list nat := [0; 4; 8; 12; 16; 20].

Example relations :
  row_relation <$> match_facts (HI:=in_order) before after lines lines true diff_default =
  [Moved; Moved; Uncertain; Uncertain; Uncertain; Added].
Proof. vm_compute. reflexivity. Qed.

Lemma match_facts_accounts_witness :
  omap row_before (match_facts (HI:=in_order) before after lines lines true diff_default) = [0; 1; 2] ∧
  omap row_after (match_facts (HI:=in_order) before after lines lines true diff_default) ≡ₚ [0; 1; 2; 3; 4].
Proof. exact (match_facts_accounts (HI:=in_order) before after lines lines true diff_default). Defined.

Lemma match_facts_sound_witness :
  let rows := match_facts (HI:=in_order) before after lines lines true diff_default in
  ∃ row, row ∈ rows ∧ row_sound before after true rows row.
Proof.
  intros rows. destruct rows as [|row rows'] eqn:E; [vm_compute in E; discriminate E|].
  exists row. split; [apply list_elem_of_here|]. rewrite <- E.
  apply (match_facts_sound (HI:=in_order)). fold rows. rewrite E. apply list_elem_of_here.
Defined.

Lemma candidate_links_bounded_witness :
  sum_list_with (λ row, length (row_candidates row))
    (match_facts (HI:=in_order) before after lines lines true diff_default) ≤ 4096.
Proof. exact (candidate_links_bounded (HI:=in_order) before after lines lines true diff_default). Defined.

Lemma match_facts_deterministic_witness :
  match_facts (HI:=in_order) before after lines lines true diff_default =
  match_facts (HI:=reversed) before after lines lines true diff_default.
Proof. exact (match_facts_deterministic in_order reversed before after lines lines true diff_default). Defined.
End CorrespondExample.
