(* ===== verification/PhpMarkers.v ===== *)
(** * PHP facts carried in relationship rows

    Models [src/src/extract/php_markers.rs]: typed facts that PHP extraction
    writes into the provenance text of a relationship and the resolver reads
    back from the index.  Integers of a row are [i64]s, as [Z]. *)
From Stdlib Require Import Ascii String ZArith Lia Permutation.
From stdpp Require Import base numbers list gmap strings.
From S2P Require Import Prelude Order Text.

Definition MARKER_KIND : str := lit "__trufflepig_php_marker_v1".

Inductive ClassRole := RoleOrdinary | RoleProxy | RoleUnknown.
Inductive ParentKind := KindOrdinary | KindProxy | KindUnknown.
Inductive Visibility := Public | Protected | Private | VisUnknown.

Inductive Marker :=
| MClass (role : ClassRole) (conditional : bool)
| MParent (kind : ParentKind) (conditional : bool) (resolved_name : option str)
| MTraitUse (conditional : bool)
| MMethod (visibility : Visibility) (abstract_method conditional : bool)
| MParentCall.

(** [extract::Relationship] *)
Record Relationship := MkRelationship {
  rel_source : Z;
  rel_target : option Z;
  rel_kind : str;
  evidence_start : Z;
  evidence_end : Z;
  provenance : str;
}.

Record DecodedMarker := MkDecoded {
  dec_source : Z;
  dec_target : option Z;
  dec_start : Z;
  dec_end : Z;
  dec_marker : Marker;
}.

(** ** Names *)

Definition class_role_name (role : ClassRole) : str :=
  lit match role with RoleOrdinary => "ordinary" | RoleProxy => "proxy" | RoleUnknown => "unknown" end.
Definition parse_class_role (value : str) : option ClassRole :=
  if value =s lit "ordinary" then Some RoleOrdinary
  else if value =s lit "proxy" then Some RoleProxy
  else if value =s lit "unknown" then Some RoleUnknown else None.

Definition parent_kind_name (kind : ParentKind) : str :=
  lit match kind with KindOrdinary => "ordinary" | KindProxy => "proxy" | KindUnknown => "unknown" end.
Definition parse_parent_kind (value : str) : option ParentKind :=
  if value =s lit "ordinary" then Some KindOrdinary
  else if value =s lit "proxy" then Some KindProxy
  else if value =s lit "unknown" then Some KindUnknown else None.

Definition visibility_name (visibility : Visibility) : str :=
  lit match visibility with
      | Public => "public" | Protected => "protected" | Private => "private" | VisUnknown => "unknown"
      end.
Definition parse_visibility (value : str) : option Visibility :=
  if value =s lit "public" then Some Public
  else if value =s lit "protected" then Some Protected
  else if value =s lit "private" then Some Private
  else if value =s lit "unknown" then Some VisUnknown else None.

Definition push_flag (payload : str) (flag : bool) : str :=
  payload ++ lit ":" ++ (if flag then lit "1" else lit "0").
Definition parse_flag (value : str) : option bool :=
  if value =s lit "0" then Some false else if value =s lit "1" then Some true else None.

(** ** Hexadecimal text *)

(** [{byte:02x}] *)
Definition hex_lower (d : Z) : ascii := if (d <? 10)%Z then chr (48 + d) else chr (87 + d).
Definition hex2_lower (byte : ascii) : str := [hex_lower (bval byte / 16); hex_lower (bval byte mod 16)].
Definition push_hex (payload bytes : str) : str := foldl (λ p byte, p ++ hex2_lower byte) payload bytes.

Definition hex_digit (value : ascii) : option Z :=
  if in_range 48 57 value then Some (bval value - 48)%Z
  else if in_range 97 102 value then Some (bval value - 97 + 10)%Z
  else if in_range 65 70 value then Some (bval value - 65 + 10)%Z
  else None.

(** The loop over [chunks_exact(2)] of text of even length. *)
Fixpoint parse_pairs (value : str) : option str :=
  match value with
  | [] => Some []
  | [_] => None
  | a :: b :: value' =>
      high ← hex_digit a;
      low ← hex_digit b;
      bytes ← parse_pairs value';
      Some (chr (Z.lor (Z.shiftl high 4) low) :: bytes)
  end.
Definition parse_hex (value : str) : option (option str) :=
  if value =s lit "-" then Some None
  else if negb (length value mod 2 =? 0) then None
  else
    bytes ← parse_pairs value;
    if utf8_valid bytes then Some (Some bytes) else None.

(** ** Payloads *)

Definition encode_payload (marker : Marker) : str :=
  let payload := lit "php_fact_v1:" in
  match marker with
  | MClass role conditional =>
      push_flag (payload ++ lit "class:" ++ class_role_name role) conditional
  | MParent kind conditional resolved_name =>
      let payload := push_flag (payload ++ lit "parent:" ++ parent_kind_name kind) conditional ++ lit ":" in
      match resolved_name with
      | Some name => push_hex payload name
      | None => payload ++ lit "-"
      end
  | MTraitUse conditional => push_flag (payload ++ lit "trait_use") conditional
  | MMethod visibility abstract_method conditional =>
      push_flag (push_flag (payload ++ lit "method:" ++ visibility_name visibility) abstract_method) conditional
  | MParentCall => payload ++ lit "parent_call"
  end.

(** [fields.next()?] *)
Definition next (fields : list str) : option (str * list str) :=
  match fields with [] => None | f :: fields' => Some (f, fields') end.

Definition decode_fields_of (fields : list str) : option (Marker * list str) :=
  '(tag, fields) ← next fields;
  if tag =s lit "class" then
    '(role, fields) ← next fields; role ← parse_class_role role;
    '(flag, fields) ← next fields; conditional ← parse_flag flag;
    Some (MClass role conditional, fields)
  else if tag =s lit "parent" then
    '(kind, fields) ← next fields; kind ← parse_parent_kind kind;
    '(flag, fields) ← next fields; conditional ← parse_flag flag;
    '(name, fields) ← next fields; resolved_name ← parse_hex name;
    Some (MParent kind conditional resolved_name, fields)
  else if tag =s lit "trait_use" then
    '(flag, fields) ← next fields; conditional ← parse_flag flag;
    Some (MTraitUse conditional, fields)
  else if tag =s lit "method" then
    '(visibility, fields) ← next fields; visibility ← parse_visibility visibility;
    '(flag, fields) ← next fields; abstract_method ← parse_flag flag;
    '(flag, fields) ← next fields; conditional ← parse_flag flag;
    Some (MMethod visibility abstract_method conditional, fields)
  else if tag =s lit "parent_call" then Some (MParentCall, fields)
  else None.
Definition decode_payload (payload : str) : option Marker :=
  rest ← strip_prefix (lit "php_fact_v1:") payload;
  '(marker, fields) ← decode_fields_of (split_char ":" rest);
  match fields with [] => Some marker | _ => None end.

(** ** Rows *)

(** [matches!(&marker, Marker::Method { .. } | Marker::ParentCall)] *)
Definition has_target (marker : Marker) : bool :=
  match marker with MMethod _ _ _ | MParentCall => true | _ => false end.

(** [encode]; its debug assertions are preconditions. *)
Definition encode_marker (source_def : Z) (target_def : option Z) (start end_ : Z) (marker : Marker) :
    Relationship :=
  {| rel_source := source_def; rel_target := target_def; rel_kind := MARKER_KIND;
     evidence_start := start; evidence_end := end_; provenance := encode_payload marker |}.

Definition decode_fields (kind provenance : str) (source : Z) (target : option Z) (start end_ : Z) :
    option DecodedMarker :=
  if negb (kind =s MARKER_KIND) || (source <=? 0)%Z || (start <? 0)%Z || (end_ <? start)%Z then None
  else
    marker ← decode_payload provenance;
    if negb (Bool.eqb (bool_decide (is_Some target)) (has_target marker)) then None
    else Some {| dec_source := source; dec_target := target; dec_start := start; dec_end := end_;
                 dec_marker := marker |}.

(** ** Hexadecimal round trips *)

Lemma hex_digit_lower d : (0 ≤ d < 16)%Z → hex_digit (hex_lower d) = Some d.
Proof.
  intros Hd. assert (d ∈ seqZ 0 16) as Hin by (apply elem_of_seqZ; lia).
  clear Hd. revert d Hin. apply Forall_forall. repeat constructor.
Qed.
Lemma hex_lower_no_colon d : (0 ≤ d < 16)%Z → hex_lower d ≠ ":"%char.
Proof. intros Hd Hc. pose proof (hex_digit_lower d Hd) as Hh. by rewrite Hc in Hh. Qed.
Lemma byte_split c : (0 ≤ bval c / 16 < 16)%Z ∧ (0 ≤ bval c mod 16 < 16)%Z.
Proof.
  pose proof (bval_range c). split; [|apply Z.mod_pos_bound; lia].
  split; [apply Z.div_pos; lia|apply Z.div_lt_upper_bound; lia].
Qed.
Lemma byte_join c : chr (Z.lor (Z.shiftl (bval c / 16) 4) (bval c mod 16)) = c.
Proof. destruct c as [[] [] [] [] [] [] [] []]; vm_compute; reflexivity. Qed.

Lemma push_hex_app payload bytes : push_hex payload bytes = payload ++ (bytes ≫= hex2_lower).
Proof.
  revert payload. unfold push_hex. induction bytes as [|c bytes IH]; intros payload; cbn [foldl].
  - by rewrite app_nil_r.
  - rewrite IH, <- app_assoc. done.
Qed.

Lemma parse_pairs_hex bytes : parse_pairs (bytes ≫= hex2_lower) = Some bytes.
Proof.
  induction bytes as [|c bytes IH]; [done|].
  change ((c :: bytes) ≫= hex2_lower)
    with (hex_lower (bval c / 16) :: hex_lower (bval c mod 16) :: (bytes ≫= hex2_lower)).
  cbn [parse_pairs]. destruct (byte_split c). rewrite !hex_digit_lower by done. cbn.
  by rewrite IH; cbn; rewrite byte_join.
Qed.
Lemma hex_length bytes : length (bytes ≫= hex2_lower) = length bytes * 2.
Proof. induction bytes as [|c bytes IH]; [done|]. cbn in *. by rewrite IH. Qed.

Lemma parse_hex_name name : utf8_valid name = true → parse_hex (name ≫= hex2_lower) = Some (Some name).
Proof.
  intros Hu. unfold parse_hex. rewrite bool_decide_false.
  2: { intros E. apply (f_equal length) in E. rewrite hex_length in E. cbn in E. lia. }
  rewrite hex_length, Nat.Div0.mod_mul, parse_pairs_hex. cbn. by rewrite Hu.
Qed.
Lemma hex_no_colon bytes : ":"%char ∉ (bytes ≫= hex2_lower).
Proof.
  intros (c & Hc & _)%list_elem_of_bind. destruct (byte_split c).
  unfold hex2_lower in Hc. rewrite !elem_of_cons, elem_of_nil in Hc.
  destruct Hc as [Hc|[Hc|[]]]; symmetry in Hc; (eapply hex_lower_no_colon; [|exact Hc]); done.
Qed.

(** ** Properties *)

(** What a decoded name may be: a Rust [String] is UTF-8. *)
Definition marker_ok (m : Marker) : Prop :=
  match m with MParent _ _ (Some name) => utf8_valid name = true | _ => True end.

Lemma parent_payload kind conditional name :
  encode_payload (MParent kind conditional (Some name)) =
  lit "php_fact_v1:" ++ lit "parent" ++ ":"%char :: parent_kind_name kind ++ ":"%char ::
    (if conditional then lit "1" else lit "0") ++ ":"%char :: (name ≫= hex2_lower).
Proof. cbn [encode_payload]. rewrite push_hex_app. unfold push_flag. by destruct kind, conditional. Qed.

Lemma decode_encode m : marker_ok m → decode_payload (encode_payload m) = Some m.
Proof.
  intros Hm. destruct m as [r c|k c [n|]|c|v a c|].
  - by destruct r, c.
  - unfold decode_payload. rewrite parent_payload.
    rewrite (proj2 (strip_prefix_Some _ _ _) eq_refl). cbn [mbind option_bind].
    rewrite !split_char_cons, split_char_single;
      [|apply hex_no_colon|by destruct c; apply (bool_decide_unpack _)
       |by destruct k; apply (bool_decide_unpack _)|by apply (bool_decide_unpack _)].
    unfold decode_fields_of. cbn [next mbind option_bind].
    rewrite (bool_decide_false (lit "parent" = lit "class")) by done.
    rewrite (bool_decide_true (lit "parent" = lit "parent")) by done.
    cbn [next mbind option_bind]. rewrite parse_hex_name by done. by destruct k, c.
  - by destruct k, c.
  - by destruct c.
  - by destruct v, a, c.
  - done.
Qed.

(** PHP facts survive the index: a fact written into a relationship row by
    extraction, with a target exactly when facts of its kind have one, is read
    back by the resolver as the same fact at the same place. *)
Theorem marker_roundtrip source target start end_ m :
  marker_ok m → (0 < source)%Z → (0 ≤ start ≤ end_)%Z → bool_decide (is_Some target) = has_target m →
  let r := encode_marker source target start end_ m in
  decode_fields (rel_kind r) (provenance r) (rel_source r) (rel_target r)
    (evidence_start r) (evidence_end r) =
  Some {| dec_source := source; dec_target := target; dec_start := start; dec_end := end_;
          dec_marker := m |}.
Proof.
  intros Hm Hs Hr Ht. cbn. unfold decode_fields. rewrite bool_decide_true by done.
  rewrite (proj2 (Z.leb_gt _ _)), (proj2 (Z.ltb_ge _ _)), (proj2 (Z.ltb_ge _ _)) by lia.
  cbn [negb orb]. rewrite decode_encode by done. cbn. by rewrite Ht, Bool.eqb_reflx.
Qed.

Lemma marker_roundtrip_witness :
  let m := MParent KindProxy true (Some (lit "App\Base")) in
  let r := encode_marker 3 None 10 20 m in
  decode_fields (rel_kind r) (provenance r) (rel_source r) (rel_target r)
    (evidence_start r) (evidence_end r) =
  Some {| dec_source := 3; dec_target := None; dec_start := 10; dec_end := 20; dec_marker := m |}.
Proof. apply marker_roundtrip; [vm_compute; reflexivity|lia|lia|reflexivity]. Defined.

Lemma hex_digit_value a d : hex_digit a = Some d → (0 ≤ d < 16)%Z ∧ hex_lower d = to_ascii_lowercase_byte a.
Proof.
  destruct a as [[] [] [] [] [] [] [] []]; vm_compute; intros [=]; subst; vm_compute; done.
Qed.
Lemma hex2_join h l :
  (0 ≤ h < 16)%Z → (0 ≤ l < 16)%Z → hex2_lower (chr (Z.lor (Z.shiftl h 4) l)) = [hex_lower h; hex_lower l].
Proof.
  intros Hh Hl. assert (h ∈ seqZ 0 16) as Hin by (apply elem_of_seqZ; lia).
  assert (l ∈ seqZ 0 16) as Hin' by (apply elem_of_seqZ; lia). clear Hh Hl.
  revert l Hin'. apply Forall_forall. revert h Hin. apply Forall_forall.
  repeat constructor; vm_compute; reflexivity.
Qed.
Lemma parse_pairs_lower n value bytes :
  length value ≤ n → parse_pairs value = Some bytes → (bytes ≫= hex2_lower) = to_ascii_lowercase value.
Proof.
  revert value bytes. induction n as [|n IH]; intros [|a [|b value]] bytes Hn Hp; cbn in Hn; try lia; try done;
    cbn in Hp; try (by injection Hp as <-).
  destruct (hex_digit a) as [h|] eqn:Ha; [|done]. destruct (hex_digit b) as [l|] eqn:Hb; [|done].
  cbn in Hp. destruct (parse_pairs value) as [bytes'|] eqn:Hv; [|done]. injection Hp as <-.
  apply hex_digit_value in Ha as [? Ha], Hb as [? Hb].
  rewrite bind_cons, hex2_join, (IH value bytes' ltac:(lia) Hv) by done. cbn. by rewrite Ha, Hb.
Qed.

Lemma parse_class_role_Some v r : parse_class_role v = Some r → v = class_role_name r.
Proof. unfold parse_class_role. by repeat case_bool_decide; intros [=]; subst. Qed.
Lemma parse_parent_kind_Some v k : parse_parent_kind v = Some k → v = parent_kind_name k.
Proof. unfold parse_parent_kind. by repeat case_bool_decide; intros [=]; subst. Qed.
Lemma parse_visibility_Some v w : parse_visibility v = Some w → v = visibility_name w.
Proof. unfold parse_visibility. by repeat case_bool_decide; intros [=]; subst. Qed.
Lemma parse_flag_Some v b : parse_flag v = Some b → v = if b then lit "1" else lit "0".
Proof. unfold parse_flag. by repeat case_bool_decide; intros [=]; subst. Qed.
Lemma next_Some fields f rest : next fields = Some (f, rest) → fields = f :: rest.
Proof. destruct fields; cbn; [done|]. by intros [= -> ->]. Qed.

Lemma parse_hex_Some v name :
  parse_hex v = Some name →
  match name with
  | None => v = lit "-"
  | Some bytes => utf8_valid bytes = true ∧ to_ascii_lowercase v = (bytes ≫= hex2_lower)
  end.
Proof.
  unfold parse_hex. case_bool_decide; [by intros [= <-]|]. destruct (negb _); [done|].
  destruct (parse_pairs v) as [bytes|] eqn:Hp; [|done]. cbn.
  destruct (utf8_valid bytes) eqn:Hu; [|done]. intros [= <-].
  split; [done|]. symmetry. by apply (parse_pairs_lower (length v)).
Qed.

(** Opens a successful computation in the option monad into its steps. *)
Ltac option_inv :=
  repeat match goal with
  | H : (_ ≫= _) = Some _ |- _ => apply bind_Some in H; destruct H as (? & ? & ?)
  | x : _ * _ |- _ => destruct x
  | H : next _ = Some _ |- _ => apply next_Some in H; subst
  | H : parse_class_role _ = Some _ |- _ => apply parse_class_role_Some in H; subst
  | H : parse_parent_kind _ = Some _ |- _ => apply parse_parent_kind_Some in H; subst
  | H : parse_visibility _ = Some _ |- _ => apply parse_visibility_Some in H; subst
  | H : parse_flag _ = Some _ |- _ => apply parse_flag_Some in H; subst
  | H : Some _ = Some _ |- _ => injection H; clear H; intros; subst
  end.

(** The decoder accepts nothing else: text that decodes to a fact is that fact's
    encoding, up to the case of its hexadecimal digits, and a decoded name is
    UTF-8. *)
Theorem decode_payload_exact p m :
  decode_payload p = Some m → to_ascii_lowercase p = encode_payload m ∧ marker_ok m.
Proof.
  unfold decode_payload. intros Hd. option_inv. apply strip_prefix_Some in H. subst p.
  destruct l as [|]; [|done]. option_inv.
  rewrite <- (join_split_char ":" x). revert H0. generalize (split_char ":" x). intros fields Hf.
  unfold decode_fields_of in Hf. option_inv.
  repeat case_bool_decide; option_inv; subst; try done.
  - by destruct x0, x1.
  - apply parse_hex_Some in H6. destruct x2 as [bytes|]; [|subst; by destruct x0, x1].
    destruct H6 as [Hu Hl]. split; [|done]. rewrite parent_payload, <- Hl. clear Hu Hl.
    destruct x0, x1; reflexivity.
  - by destruct x0.
  - by destruct x0, x1, x2.
Qed.

Lemma decode_payload_exact_witness :
  to_ascii_lowercase (lit "php_fact_v1:parent:proxy:1:4A") =
  encode_payload (MParent KindProxy true (Some (lit "J"))).
Proof.
  exact (proj1 (decode_payload_exact (lit "php_fact_v1:parent:proxy:1:4A")
    (MParent KindProxy true (Some (lit "J"))) ltac:(vm_compute; reflexivity))).
Defined.
