(* ===== verification/Chains.v ===== *)
(** * Ordered inheritance chains

    Models [src/src/store/inheritance/ordered_chains.rs]: from class
    registrations with priorities, the declared candidates for each
    registration's immediate predecessor, with ties and limits reported.  The
    cross-base [build_chains] is test code and is left out. *)
From Stdlib Require Import Ascii String ZArith Lia Permutation.
From stdpp Require Import base numbers list gmap strings sorting.
From S2P Require Import Prelude Order Text.

Definition MAX_CHAIN_CLASSES : nat := 64.
Definition MAX_CANDIDATES_PER_REGISTRATION : nat := 64.

Record Registration (E : Type) := MkRegistration {
  reg_id : str;
  reg_base : str;
  implementation : str;
  numeric_priority : Z;
  evidence : E;
}.
Arguments reg_id {E}.
Arguments reg_base {E}.
Arguments implementation {E}.
Arguments numeric_priority {E}.
Arguments evidence {E}.

(** [RegistrationIndex] *)
Abbreviation registration_index := nat.

Inductive PredecessorCandidate :=
| CandRegistration (index : registration_index)
| CandBase.

(** [CandidateEdge] with its [EdgeEvidence]. *)
Record CandidateEdge (E : Type) := MkEdge {
  edge_base : str;
  edge_child : registration_index;
  edge_predecessor : PredecessorCandidate;
  child_evidence : E;
  predecessor_evidence : option E;
}.
Arguments MkEdge {E}.
Arguments edge_base {E}.
Arguments edge_child {E}.
Arguments edge_predecessor {E}.
Arguments child_evidence {E}.
Arguments predecessor_evidence {E}.

Inductive ChainIssue :=
| PriorityTie (base : str) (priority : Z) (registrations : list registration_index)
| ClassLimitExceeded (base : str) (class_count limit : nat)
| CandidateLimitExceeded (base : str) (child : registration_index) (candidate_count limit : nat).

Record ChainGraph (E : Type) := MkGraph { edges : list (CandidateEdge E); issues : list ChainIssue }.
Arguments MkGraph {E}.
Arguments edges {E}.
Arguments issues {E}.

Section chains.
Context {E : Type}.

(** An index with the registration it addresses ([registrations[index.0]]). *)
Abbreviation item := (registration_index * Registration E)%type.
Definition item_priority (i : item) : Z := numeric_priority i.2.

(** Every index is looked up while sorting or grouping, so one out of range panics. *)
Definition items (indices : list registration_index) (registrations : list (Registration E)) :
    result (list item) :=
  try_map (λ i, r ← or_err "index out of bounds" (registrations !! i); Ok (i, r)) indices.

(** The inner loop of [priority_groups]: how far the priority goes on. *)
Fixpoint run_length (priority : Z) (l : list item) : nat :=
  match l with
  | [] => 0
  | i :: l' => if (item_priority i =? priority)%Z then S (run_length priority l') else 0
  end.
Fixpoint groups_from (fuel start : nat) (l : list item) : list (nat * nat) :=
  match fuel with
  | O => []
  | S fuel' =>
      match drop start l with
      | [] => []
      | i :: _ =>
          let end_ := start + 1 + run_length (item_priority i) (drop (start + 1) l) in
          (start, end_) :: groups_from fuel' end_ l
      end
  end.
Definition priority_groups (l : list item) : list (nat * nat) := groups_from (length l) 0 l.

(** [&indices[range]] *)
Definition slice (l : list item) (r : nat * nat) : list item := take (r.2 - r.1) (drop r.1 l).

Definition edge (base : str) (child : item) (predecessor : PredecessorCandidate) (from : option item) :
    CandidateEdge E :=
  {| edge_base := base; edge_child := child.1; edge_predecessor := predecessor;
     child_evidence := evidence child.2;
     predecessor_evidence := (λ i : item, evidence i.2) <$> from |}.

(** [group_len.saturating_sub(1) + if previous_len == 0 { 1 } else { previous_len }] *)
Definition candidate_count (previous_len group_len : nat) : nat :=
  group_len - 1 + (if previous_len =? 0 then 1 else previous_len).
Fixpoint candidate_overflow (previous_len : nat) (groups : list (nat * nat)) : option (nat * nat) :=
  match groups with
  | [] => None
  | g :: groups' =>
      let count := candidate_count previous_len (g.2 - g.1) in
      if MAX_CANDIDATES_PER_REGISTRATION <? count then Some (g.1, count)
      else candidate_overflow (g.2 - g.1) groups'
  end.

(** The edges of one child. *)
Definition child_edges (base : str) (group : list item) (previous : option (list item)) (child : item) :
    list (CandidateEdge E) :=
  ((λ peer, edge base child (CandRegistration peer.1) (Some peer)) <$>
     List.filter (λ peer, negb (child.1 =? peer.1)) group) ++
  match previous with
  | Some predecessors =>
      (λ predecessor, edge base child (CandRegistration predecessor.1) (Some predecessor)) <$> predecessors
  | None => [edge base child CandBase None]
  end.
Definition group_issue (base : str) (group : list item) : list ChainIssue :=
  match group with
  | first :: _ :: _ => [PriorityTie base (item_priority first) (fst <$> group)]
  | _ => []
  end.
Fixpoint chain_groups (base : str) (previous : option (list item)) (groups : list (list item)) :
    ChainGraph E :=
  match groups with
  | [] => {| edges := []; issues := [] |}
  | group :: groups' =>
      let rest := chain_groups base (Some group) groups' in
      {| edges := (group ≫= child_edges base group previous) ++ edges rest;
         issues := group_issue base group ++ issues rest |}
  end.

Definition build_base_chain (base : str) (indices : list registration_index)
    (registrations : list (Registration E)) : result (ChainGraph E) :=
  l ← items indices registrations;
  let l := sort_by (cmp_on item_priority Z.compare) l in
  let class_count := length l + 1 in
  if MAX_CHAIN_CLASSES <? class_count then
    Ok {| edges := []; issues := [ClassLimitExceeded base class_count MAX_CHAIN_CLASSES] |}
  else
    let groups := priority_groups l in
    match candidate_overflow 0 groups with
    | Some (start, count) =>
        child ← or_err "index out of bounds" (l !! start);
        Ok {| edges := [];
              issues := [CandidateLimitExceeded base child.1 count MAX_CANDIDATES_PER_REGISTRATION] |}
    | None => Ok (chain_groups base None (slice l <$> groups))
    end.
Definition build_chain_for_base := build_base_chain.

(** ** Groups as lists *)

Fixpoint blocks (fuel : nat) (l : list item) : list (list item) :=
  match fuel, l with
  | S fuel', i :: l' =>
      let n := run_length (item_priority i) l' in
      (i :: take n l') :: blocks fuel' (drop n l')
  | _, _ => []
  end.

Lemma slices_blocks fuel start l : slice l <$> groups_from fuel start l = blocks fuel (drop start l).
Proof.
  revert start. induction fuel as [|fuel IH]; intros start; [done|]. cbn [groups_from blocks].
  destruct (drop start l) as [|i l'] eqn:E1; [done|].
  assert (drop (start + 1) l = l') as Hl' by (rewrite <- drop_drop, E1; done).
  cbn [fmap list_fmap]. rewrite IH. f_equal.
  - unfold slice. cbn [fst snd]. rewrite E1, Hl'.
    replace (start + 1 + run_length (item_priority i) l' - start)
      with (S (run_length (item_priority i) l')) by lia. done.
  - rewrite Hl', <- drop_drop, Hl'. done.
Qed.

Lemma run_length_le p l : run_length p l ≤ length l.
Proof. induction l as [|i l IH]; cbn; [lia|]. destruct (_ =? _)%Z; lia. Qed.
Lemma run_length_take p l : Forall (λ i, item_priority i = p) (take (run_length p l) l).
Proof.
  induction l as [|i l IH]; cbn; [constructor|]. destruct (_ =? _)%Z eqn:Hi; cbn; constructor; [|done].
  by apply Z.eqb_eq.
Qed.
Lemma run_length_stop p l i l' : drop (run_length p l) l = i :: l' → item_priority i ≠ p.
Proof.
  induction l as [|j l IH]; cbn; [done|]. destruct (_ =? _)%Z eqn:Hj; [exact IH|].
  cbn. intros [= -> ->]. by apply Z.eqb_neq.
Qed.

(** Blocks are nonempty, share a priority, and grow strictly. *)
Inductive ascending : list (list item) → Prop :=
| ascending_nil : ascending []
| ascending_cons p b bs :
    b ≠ [] → Forall (λ i, item_priority i = p) b →
    Forall (λ i, (p < item_priority i)%Z) (concat bs) →
    ascending bs → ascending (b :: bs).

Lemma concat_blocks fuel l : length l ≤ fuel → concat (blocks fuel l) = l.
Proof.
  revert l. induction fuel as [|fuel IH]; intros [|i l] Hf; cbn in *; try done; [lia|].
  f_equal. rewrite IH; [apply take_drop|]. rewrite length_drop. lia.
Qed.

Lemma blocks_ascending fuel l :
  length l ≤ fuel → StronglySorted (cmp_le (cmp_on item_priority Z.compare)) l → ascending (blocks fuel l).
Proof.
  revert l. induction fuel as [|fuel IH]; intros [|i l] Hf Hs; cbn; try constructor.
  apply StronglySorted_inv in Hs as [Hs Hi]. cbn in Hf.
  set (n := run_length (item_priority i) l).
  assert (StronglySorted (cmp_le (cmp_on item_priority Z.compare)) (drop n l)) as Hd.
  { rewrite <- (take_drop n l) in Hs. by apply StronglySorted_app_1_r in Hs. }
  apply (ascending_cons (item_priority i)); [done| | |].
  - constructor; [done|]. apply run_length_take.
  - rewrite concat_blocks by (rewrite length_drop; lia).
    destruct (drop n l) as [|j l'] eqn:E1; [constructor|].
    pose proof (run_length_stop _ _ _ _ E1) as Hne.
    assert (∀ k, k ∈ j :: l' → (item_priority i ≤ item_priority k)%Z) as Hle.
    { intros k Hk. assert (k ∈ l) as Hkl by (rewrite <- (take_drop n l), E1; set_solver).
      pose proof (proj1 (Forall_forall _ _) Hi k Hkl) as Hc.
      unfold cmp_le, cmp_on in Hc. by apply Z.compare_le_iff. }
    apply StronglySorted_inv in Hd as [_ Hj]. apply Forall_forall. intros k Hk.
    assert (item_priority j ≤ item_priority k)%Z as Hjk.
    { apply elem_of_cons in Hk as [->|Hk]; [done|].
      pose proof (proj1 (Forall_forall _ _) Hj k Hk) as Hc.
      unfold cmp_le, cmp_on in Hc. by apply Z.compare_le_iff. }
    specialize (Hle j ltac:(set_solver)). lia.
  - apply IH; [rewrite length_drop; lia|done].
Qed.

Lemma groups_sum fuel start l :
  sum_list_with (λ g : nat * nat, g.2 - g.1) (groups_from fuel start l) ≤ length l - start.
Proof.
  revert start. induction fuel as [|fuel IH]; intros start; cbn [groups_from sum_list_with]; [lia|].
  destruct (drop start l) as [|i l'] eqn:E1; cbn [sum_list_with]; [lia|].
  assert (start < length l) as Hlt.
  { assert (0 < length (drop start l)) as H0 by (rewrite E1; cbn; lia). rewrite length_drop in H0. lia. }
  pose proof (run_length_le (item_priority i) (drop (start + 1) l)) as Hr. rewrite length_drop in Hr.
  specialize (IH (start + 1 + run_length (item_priority i) (drop (start + 1) l))). cbn [fst snd]. lia.
Qed.

Lemma no_overflow previous_len groups :
  previous_len + sum_list_with (λ g : nat * nat, g.2 - g.1) groups ≤ MAX_CANDIDATES_PER_REGISTRATION →
  Forall (λ g : nat * nat, 0 < g.2 - g.1) groups → candidate_overflow previous_len groups = None.
Proof.
  intros Hsum Hpos. revert previous_len Hsum.
  induction Hpos as [|g groups Hg Hpos IH]; intros previous_len Hsum; [done|].
  cbn [candidate_overflow sum_list_with] in *. unfold candidate_count.
  rewrite (proj2 (Nat.ltb_ge _ _)); [apply IH; lia|]. destruct (previous_len =? 0) eqn:E0; bool_to_prop; lia.
Qed.

Lemma groups_positive fuel start l : Forall (λ g : nat * nat, 0 < g.2 - g.1) (groups_from fuel start l).
Proof.
  revert start. induction fuel as [|fuel IH]; intros start; cbn [groups_from]; [constructor|].
  destruct (drop start l); constructor; [cbn; lia|apply IH].
Qed.

(** ** The edges *)

(** [q] is declared to come right before [child]: a tie, or the next lower priority. *)
Definition immediate (all : list item) (q child : item) : Prop :=
  item_priority q = item_priority child ∨
  (item_priority q < item_priority child)%Z ∧
  ∀ r, r ∈ all → ¬ (item_priority q < item_priority r < item_priority child)%Z.
Definition declared_edge (base : str) (all : list item) (child : item) (e : CandidateEdge E) : Prop :=
  (∃ q, q ∈ all ∧ q.1 ≠ child.1 ∧ immediate all q child ∧
        e = edge base child (CandRegistration q.1) (Some q)) ∨
  ((∀ q, q ∈ all → (item_priority child ≤ item_priority q)%Z) ∧ e = edge base child CandBase None).

(** What precedes a block: nothing, or a block with the highest priority so far. *)
Definition preceded (previous : option (list item)) (earlier : list item) (p : Z) : Prop :=
  match previous with
  | None => earlier = []
  | Some b => b ≠ [] ∧ ∃ p', (p' < p)%Z ∧
      (∀ i, i ∈ earlier → (item_priority i ≤ p')%Z) ∧
      (∀ i, i ∈ b ↔ i ∈ earlier ∧ item_priority i = p')
  end.

Lemma child_edges_declared base previous earlier b later p child e :
  preceded previous earlier p →
  Forall (λ i, item_priority i = p) b → Forall (λ i, (p < item_priority i)%Z) later →
  (∀ q r, q ∈ earlier ++ b ++ later → r ∈ earlier ++ b ++ later → q.1 = r.1 → q = r) →
  child ∈ b →
  e ∈ child_edges base b previous child ↔ declared_edge base (earlier ++ b ++ later) child e.
Proof.
  rewrite !Forall_forall. intros Hprev Hb Hl Hfun Hchild. pose proof (Hb child Hchild) as Hcp.
  assert (∀ q, q ∈ earlier → (item_priority q < p)%Z) as Hearly.
  { intros q Hq. destruct previous as [pv|]; cbn in Hprev; [|subst; by apply elem_of_nil in Hq].
    destruct Hprev as (_ & p' & ? & Hle & _). specialize (Hle q Hq). lia. }
  unfold child_edges, declared_edge, immediate. rewrite elem_of_app, list_elem_of_fmap, Hcp. split.
  - intros [(q & -> & Hq)|Hrest].
    + apply list_elem_of_In, filter_In in Hq as [Hq%list_elem_of_In Hne].
      apply negb_true_iff, Nat.eqb_neq in Hne. left. exists q.
      split_and!; [set_solver|done|left; by apply Hb|done].
    + destruct previous as [pv|]; cbn in Hprev.
      * destruct Hprev as (_ & p' & Hp' & Hle & Hpv). apply list_elem_of_fmap in Hrest as (q & -> & Hq).
        apply Hpv in Hq as [Hq Hqp]. left. exists q. split_and!; [set_solver| | |done].
        { intros Heq. rewrite (Hfun q child) in Hqp by (done || set_solver). lia. }
        right. split; [lia|]. intros r [Hr|[Hr|Hr]%elem_of_app]%elem_of_app.
        { specialize (Hle r Hr). lia. } { specialize (Hb r Hr). lia. } { specialize (Hl r Hr). lia. }
      * apply list_elem_of_singleton in Hrest as ->. right. split; [|done]. subst earlier.
        intros q [Hq|[Hq|Hq]%elem_of_app]%elem_of_app;
          [by apply elem_of_nil in Hq|by rewrite (Hb q Hq)|specialize (Hl q Hq); lia].
  - intros [(q & Hq & Hne & Himm & ->)|[Hall ->]].
    + apply elem_of_app in Hq as [Hq|[Hq|Hq]%elem_of_app].
      * right. specialize (Hearly q Hq). destruct Himm as [?|[_ Hbetween]]; [lia|].
        destruct previous as [pv|]; cbn in Hprev; [|subst; by apply elem_of_nil in Hq].
        destruct Hprev as (Hpv0 & p' & Hp' & Hle & Hpv). apply list_elem_of_fmap. exists q.
        split; [done|]. apply Hpv. split; [done|]. destruct pv as [|x pv]; [done|].
        destruct (proj1 (Hpv x)) as [Hx Hxp]; [apply list_elem_of_here|].
        specialize (Hle q Hq). specialize (Hbetween x ltac:(set_solver)). lia.
      * left. exists q. split; [done|]. apply list_elem_of_In, filter_In.
        split; [by apply list_elem_of_In|]. apply negb_true_iff, Nat.eqb_neq. done.
      * specialize (Hl q Hq). lia.
    + right. destruct previous as [[|x pv]|]; cbn in Hprev; [by destruct Hprev| |apply list_elem_of_here].
      destruct Hprev as (_ & p' & Hp' & Hle & Hpv).
      destruct (proj1 (Hpv x)) as [Hx Hxp]; [apply list_elem_of_here|].
      specialize (Hall x ltac:(set_solver)). lia.
Qed.

Lemma chain_groups_declared base previous earlier bs e :
  ascending bs →
  (match bs with b :: _ => ∀ i, i ∈ b → preceded previous earlier (item_priority i) | [] => True end) →
  (∀ q r, q ∈ earlier ++ concat bs → r ∈ earlier ++ concat bs → q.1 = r.1 → q = r) →
  e ∈ edges (chain_groups base previous bs) ↔
  ∃ child, child ∈ concat bs ∧ declared_edge base (earlier ++ concat bs) child e.
Proof.
  intros Hasc. revert previous earlier.
  induction Hasc as [|p b bs Hne Hb Hlater Hasc IH]; intros previous earlier Hprev Hfun.
  { cbn. setoid_rewrite elem_of_nil. naive_solver. }
  cbn [chain_groups edges concat] in *.
  destruct b as [|x b']; [done|]. set (b := x :: b') in *.
  assert (item_priority x = p) as Hxp by (rewrite Forall_forall in Hb; apply Hb, list_elem_of_here).
  assert (preceded previous earlier p) as Hp by (rewrite <- Hxp; apply Hprev, list_elem_of_here).
  rewrite elem_of_app, list_elem_of_bind. rewrite (IH (Some b) (earlier ++ b)).
  - rewrite <- app_assoc. setoid_rewrite elem_of_app at 2. split.
    + intros [(child & He & Hc)|(child & Hc & He)]; exists child; [|by split; [right|]].
      split; [by left|]. by apply (child_edges_declared base previous earlier b (concat bs) p child e).
    + intros (child & [Hc|Hc] & He); [left|right]; exists child; [|done].
      split; [|done]. by apply (child_edges_declared base previous earlier b (concat bs) p child e).
  - destruct bs as [|b2 bs]; [done|]. intros i Hi. split; [done|]. exists p.
    rewrite !Forall_forall in *. split_and!.
    + apply Hlater. cbn. set_solver.
    + intros j [Hj|Hj]%elem_of_app; [|by rewrite (Hb j Hj)].
      destruct previous as [pv|]; cbn in Hp; [|subst; by apply elem_of_nil in Hj].
      destruct Hp as (_ & p' & ? & Hle & _). specialize (Hle j Hj). lia.
    + intros j. split; [intros Hj; split; [set_solver|by apply Hb]|].
      intros [[Hj|Hj]%elem_of_app Hjp]; [|done]. exfalso.
      destruct previous as [pv|]; cbn in Hp; [|subst; by apply elem_of_nil in Hj].
      destruct Hp as (_ & p' & ? & Hle & _). specialize (Hle j Hj). lia.
  - intros q r. rewrite <- app_assoc. apply Hfun.
Qed.

(** ** Properties *)

Lemma items_total indices registrations :
  Forall (λ i, i < length registrations) indices →
  ∃ l, items indices registrations = Ok l ∧ l.*1 = indices ∧
    Forall (λ x : item, registrations !! x.1 = Some x.2) l.
Proof.
  induction 1 as [|i indices Hi _ (l & Hl & Hfst & Hreg)]; [by exists []|].
  destruct (lookup_lt_is_Some_2 registrations i Hi) as [r Hr].
  exists ((i, r) :: l). unfold items in *. cbn. rewrite Hr. cbn. rewrite Hl. cbn.
  split_and!; [done|by rewrite Hfst|by constructor].
Qed.

Lemma chain_groups_issues base previous bs :
  Forall (λ i, ∃ p rs, i = PriorityTie base p rs) (issues (chain_groups base previous bs)).
Proof.
  revert previous. induction bs as [|b bs IH]; intros previous; cbn; [constructor|].
  apply Forall_app. split; [|apply IH]. destruct b as [|x [|y b]]; cbn; repeat constructor. eauto.
Qed.

(** The priority of a registration index. *)
Definition priority_at (registrations : list (Registration E)) (i : registration_index) : Z :=
  from_option numeric_priority 0%Z (registrations !! i).

(** A declared predecessor of an index, in terms of the priorities alone. *)
Definition declared_predecessor (indices : list registration_index) (prio : registration_index → Z)
    (child : registration_index) (predecessor : PredecessorCandidate) : Prop :=
  match predecessor with
  | CandBase => ∀ q, q ∈ indices → (prio child ≤ prio q)%Z
  | CandRegistration q =>
      q ∈ indices ∧ q ≠ child ∧
      (prio q = prio child ∨
       (prio q < prio child)%Z ∧ ∀ r, r ∈ indices → ¬ (prio q < prio r < prio child)%Z)
  end.

Lemma declared_edge_indices base registrations l child c predecessor :
  Forall (λ x : item, registrations !! x.1 = Some x.2) l → child ∈ l → child.1 = c →
  (∃ e, declared_edge base l child e ∧ edge_predecessor e = predecessor) ↔
  declared_predecessor l.*1 (priority_at registrations) c predecessor.
Proof.
  rewrite Forall_forall. intros Hreg Hchild <-.
  assert (∀ x, x ∈ l → item_priority x = priority_at registrations x.1) as Hp.
  { intros x Hx. unfold item_priority, priority_at. by rewrite (Hreg x Hx). }
  unfold declared_edge, immediate, declared_predecessor. rewrite (Hp child Hchild). split.
  - intros (e & [(q & Hq & Hne & Himm & ->)|[Hall ->]] & <-); cbn.
    + rewrite (Hp q Hq) in Himm. split_and!; [by apply list_elem_of_fmap_2|done|].
      destruct Himm as [?|[? Hno]]; [by left|right]. split; [done|].
      intros r (x & -> & Hx)%list_elem_of_fmap. rewrite <- (Hp x Hx). by apply Hno.
    + intros q (x & -> & Hx)%list_elem_of_fmap. rewrite <- (Hp x Hx). by apply Hall.
  - destruct predecessor as [q|].
    + intros ((x & -> & Hx)%list_elem_of_fmap & Hne & Himm).
      exists (edge base child (CandRegistration x.1) (Some x)). split; [|done]. left. exists x.
      rewrite (Hp x Hx). split_and!; [done..| |done].
      destruct Himm as [?|[? Hno]]; [by left|right]. split; [done|].
      intros r Hr. rewrite (Hp r Hr). by apply Hno, list_elem_of_fmap_2.
    + intros Hall. exists (edge base child CandBase None). split; [|done]. right. split; [|done].
      intros q Hq. rewrite (Hp q Hq). by apply Hall, list_elem_of_fmap_2.
Qed.

Lemma build_base_chain_groups base indices registrations :
  Forall (λ i, i < length registrations) indices → length indices < MAX_CHAIN_CLASSES →
  ∃ l, l.*1 ≡ₚ indices ∧ Forall (λ x : item, registrations !! x.1 = Some x.2) l ∧
    ascending (blocks (length l) l) ∧
    build_chain_for_base base indices registrations = Ok (chain_groups base None (blocks (length l) l)).
Proof.
  intros Hin Hlen. destruct (items_total _ _ Hin) as (l & Hl & Hfst & Hreg).
  set (m := sort_by (cmp_on item_priority Z.compare) l).
  assert (m ≡ₚ l) as Hm by apply sort_by_perm.
  assert (length m = length indices) as Hlm by (by rewrite Hm, <- Hfst, length_fmap).
  exists m. split_and!; [by rewrite Hm, Hfst|by rewrite Hm| |].
  - apply blocks_ascending; [done|]. apply sort_by_sorted, _.
  - unfold build_chain_for_base, build_base_chain. rewrite Hl. cbn [mbind result_bind]. fold m.
    rewrite (proj2 (Nat.ltb_ge _ _)) by lia.
    unfold priority_groups. rewrite no_overflow, slices_blocks, drop_0; [done| |apply groups_positive].
    pose proof (groups_sum (length m) 0 m). unfold MAX_CHAIN_CLASSES in Hlen.
    unfold MAX_CANDIDATES_PER_REGISTRATION. lia.
Qed.

(** Every edge of a built chain is about the base and the registrations given. *)
Lemma items_Ok indices registrations l :
  items indices registrations = Ok l → l.*1 = indices.
Proof.
  revert l. induction indices as [|i indices IH]; intros l; cbn; [by intros [= <-]|].
  intros (x & (r & _ & [= <-])%bind_Ok & (l' & Hl & [= <-])%bind_Ok)%bind_Ok. by rewrite fmap_cons, (IH l').
Qed.
Lemma slice_subset (l : list item) r : slice l r ⊆ l.
Proof. by intros x Hx%subseteq_take%subseteq_drop. Qed.
Definition within (base : str) (all : list item) (e : CandidateEdge E) : Prop :=
  edge_base e = base ∧ edge_child e ∈ all.*1 ∧ ∀ i, edge_predecessor e = CandRegistration i → i ∈ all.*1.
Lemma chain_groups_within base all previous groups e :
  (∀ group, group ∈ groups → group ⊆ all) → (∀ group, previous = Some group → group ⊆ all) →
  e ∈ edges (chain_groups base previous groups) → within base all e.
Proof.
  revert previous. induction groups as [|group groups IH]; intros previous Hall Hprev; cbn.
  { by intros ?%not_elem_of_nil. }
  assert (group ⊆ all) as Hgroup by (apply Hall; by left).
  intros [(child & He & Hc)%list_elem_of_bind|He]%elem_of_app.
  2: { apply (IH (Some group)); [|by intros ? [= <-]|done]. intros g Hg. apply Hall. by right. }
  apply Hgroup in Hc. unfold child_edges in He.
  apply elem_of_app in He as [(peer & -> & Hp)%list_elem_of_fmap|He].
  - apply list_elem_of_In, filter_In in Hp as [Hp%list_elem_of_In _].
    split_and!; [done|by apply (list_elem_of_fmap_2 fst)|]. intros i [= <-]. apply (list_elem_of_fmap_2 fst). by apply Hgroup.
  - destruct previous as [ps|].
    + apply list_elem_of_fmap in He as (q & -> & Hq). split_and!; [done|by apply (list_elem_of_fmap_2 fst)|].
      intros i [= <-]. apply (list_elem_of_fmap_2 fst). by apply (Hprev ps).
    + apply list_elem_of_singleton in He as ->. split_and!; [done|by apply (list_elem_of_fmap_2 fst)|done].
Qed.
Lemma build_chain_within base indices registrations g e :
  build_chain_for_base base indices registrations = Ok g → e ∈ edges g →
  edge_base e = base ∧ edge_child e ∈ indices ∧ ∀ i, edge_predecessor e = CandRegistration i → i ∈ indices.
Proof.
  unfold build_chain_for_base, build_base_chain. intros (l & Hl & H)%bind_Ok He. apply items_Ok in Hl as <-.
  set (m := sort_by _ l) in H. assert (∀ x, x ∈ m.*1 → x ∈ l.*1) as Hm.
  { intros x. unfold m. by rewrite (sort_by_perm (cmp_on item_priority Z.compare) l). }
  destruct (MAX_CHAIN_CLASSES <? _); [injection H as <-; by apply not_elem_of_nil in He|].
  destruct (candidate_overflow 0 (priority_groups m)) as [[start count]|].
  { apply bind_Ok in H as (child & _ & [= <-]). by apply not_elem_of_nil in He. }
  injection H as <-. apply (chain_groups_within base m) in He as (H1 & H2 & H3); [|..].
  - split_and!; [done|by apply Hm|]. intros i Hi. by apply Hm, H3.
  - intros group (r & -> & _)%list_elem_of_fmap. apply slice_subset.
  - done.
Qed.

(** The candidate graph is exact: for a chain within the class limit the
    builder returns, without hitting the limit on alternatives, and an edge is
    emitted exactly for every declared immediate predecessor: a registration of
    equal priority, one of the next lower priority, or the base class for the
    lowest priority; the only issues reported are ties. *)
Theorem chain_edges_exact base indices registrations :
  Forall (λ i, i < length registrations) indices → length indices < MAX_CHAIN_CLASSES →
  ∃ g, build_chain_for_base base indices registrations = Ok g ∧
    (∀ child predecessor,
      (∃ e, e ∈ edges g ∧ edge_child e = child ∧ edge_predecessor e = predecessor) ↔
      child ∈ indices ∧ declared_predecessor indices (priority_at registrations) child predecessor) ∧
    Forall (λ i, ∃ p rs, i = PriorityTie base p rs) (issues g).
Proof.
  intros Hin Hlen. destruct (build_base_chain_groups base _ _ Hin Hlen) as (l & Hl & Hreg & Hasc & Hg).
  exists (chain_groups base None (blocks (length l) l)). split_and!; [done| |apply chain_groups_issues].
  intros child predecessor.
  assert (declared_predecessor indices (priority_at registrations) child predecessor ↔
          declared_predecessor l.*1 (priority_at registrations) child predecessor) as ->.
  { unfold declared_predecessor. destruct predecessor; setoid_rewrite Hl; done. }
  rewrite <- Hl, list_elem_of_fmap. setoid_rewrite (chain_groups_declared base None [] _ _ Hasc).
  2: { destruct (blocks (length l) l); [done|]. by intros. }
  2: { rewrite concat_blocks by done. rewrite Forall_forall in Hreg. intros [q rq] [r rr] Hq Hr E1.
       apply Hreg in Hq, Hr. cbn in *. congruence. }
  rewrite concat_blocks by done. cbn [app]. split.
  - intros (e & (x & Hx & He) & Hc & Hp). split.
    + exists x. split; [|done]. rewrite <- Hc. by destruct He as [(? & ? & ? & ? & ->)|[? ->]].
    + apply (declared_edge_indices base registrations l x child); [done|done| |by exists e].
      rewrite <- Hc. by destruct He as [(? & ? & ? & ? & ->)|[? ->]].
  - intros ((x & -> & Hx) & Hd).
    apply (declared_edge_indices base registrations l x x.1) in Hd as (e & He & Hp); [|done..].
    exists e. split_and!; [by exists x| |done]. by destruct He as [(? & ? & ? & ? & ->)|[? ->]].
Qed.

(** A chain of too many classes is refused whole, with its size. *)
Theorem chain_limit base indices registrations :
  Forall (λ i, i < length registrations) indices → MAX_CHAIN_CLASSES ≤ length indices →
  build_chain_for_base base indices registrations =
  Ok {| edges := []; issues := [ClassLimitExceeded base (length indices + 1) MAX_CHAIN_CLASSES] |}.
Proof.
  intros Hin Hlen. destruct (items_total _ _ Hin) as (l & Hl & Hfst & _).
  unfold build_chain_for_base, build_base_chain. rewrite Hl. cbn [mbind result_bind].
  rewrite sort_by_length, <- (length_fmap fst l), Hfst.
  by rewrite (proj2 (Nat.ltb_lt _ _)) by lia.
Qed.
End chains.

Definition sample_registration (priority : Z) : Registration nat :=
  {| reg_id := []; reg_base := lit "B"; implementation := lit "I"; numeric_priority := priority; evidence := 0 |}.
Definition sample_registrations : list (Registration nat) := sample_registration <$> [20; 10; 20]%Z.

Lemma chain_edges_exact_witness :
  ∃ g, build_chain_for_base (lit "B") [0; 1; 2] sample_registrations = Ok g ∧
    (∃ e, e ∈ edges g ∧ edge_child e = 1 ∧ edge_predecessor e = CandBase) ∧
    (∃ e, e ∈ edges g ∧ edge_child e = 0 ∧ edge_predecessor e = CandRegistration 1).
Proof.
  destruct (chain_edges_exact (lit "B") [0; 1; 2] sample_registrations) as (g & Hg & He & _);
    [repeat constructor|unfold MAX_CHAIN_CLASSES; cbn; lia|].
  exists g. split; [exact Hg|].
  split; apply He; (split; [set_solver|]); cbn.
  - intros q Hq. repeat (apply elem_of_cons in Hq as [->|Hq]); [..|by apply elem_of_nil in Hq]; vm_compute; discriminate.
  - split; [set_solver|]. split; [done|]. right. split; [by vm_compute|].
    intros r Hr. repeat (apply elem_of_cons in Hr as [->|Hr]); [..|by apply elem_of_nil in Hr];
      vm_compute; intros [? ?]; discriminate.
Defined.
