(* ===== verification/EmbeddingCache.v ===== *)
(** * The embedding cache

    Models [src/src/semantic/embedding_cache.rs], its snapshot reads
    ([embedding_cache/snapshot.rs]) and the row format
    ([embedding_cache/cache_format.rs], [Embedding::from_values] of
    [semantic.rs]).  The SQLite file is a record of its schema objects and the
    rows of its three tables; the bytes of the model manifest and SHA-256 are
    parameters.  The cache refines a bounded list of entries in recency order. *)
From Stdlib Require Import Ascii String ZArith Lia Permutation Sorted.
From Corelib Require Import SpecFloat.
From stdpp Require Import base numbers list gmap strings sorting.
From S2P Require Import Prelude Order Text Ranking.

(** ** Vectors and their bytes *)

Definition DIMENSIONS : nat := 768.
Definition MODEL_REVISION : str := lit "516f4baf13dec4ddddda8631e019b5737c8bc250".
Definition INPUT_VERSION : str := lit "source-only-mean-l2-v2-regions4096-max4096".
Definition NORMALIZATION : str := lit "l2".

Abbreviation Embedding := (list spec_float).

(** [f64::from(f32)] and [f64 as f32]: the value rounded to the other format. *)
Definition convert (prec emax : Z) (f : spec_float) : spec_float :=
  match f with
  | S754_finite s m e => binary_normalize prec emax (if s then Zneg m else Zpos m) e s
  | _ => f
  end.
Definition f64_from (f : spec_float) : spec_float := convert 53 1024 f.
Definition as_f32 (f : spec_float) : spec_float := convert 24 128 f.
Definition f64_EPSILON : spec_float := f64_div (f64_of_Z 1) (f64_of_Z (2 ^ 52)).
Definition NORM_TOLERANCE : spec_float := f64_div (f64_of_Z 1) (f64_of_Z 1000).

(** The Euclidean norm both functions compute; [sum] starts at negative zero. *)
Definition norm_of (values : Embedding) : spec_float :=
  SFsqrt 53 1024
    (foldl f64_add (S754_zero true) ((λ v, f64_mul (f64_from v) (f64_from v)) <$> values)).

Definition from_values (values : Embedding) : result Embedding :=
  if negb (length values =? DIMENSIONS) || existsb (λ v, negb (is_finite v)) values
  then Err "invalid_embedding: expected 768 finite f32 values"
  else
    let norm := norm_of values in
    if SFleb norm f64_EPSILON then Err "invalid_embedding: zero vector"
    else Ok ((λ v, as_f32 (f64_div (f64_from v) norm)) <$> values).

Definition validate_values (values : Embedding) : result unit :=
  if existsb (λ v, negb (is_finite v)) values
  then Err "invalid_embedding: cached vector contains non-finite values"
  else
    let norm := norm_of values in
    if negb (is_finite norm) || SFleb norm f64_EPSILON
       || SFltb NORM_TOLERANCE (SFabs (SFsub 53 1024 norm (f64_of_Z 1)))
    then Err "invalid_embedding: cached vector is not unit normalized"
    else Ok tt.

(** [f32::to_bits]; every NaN is the canonical quiet one. *)
Definition f32_to_bits (f : spec_float) : Z :=
  match f with
  | S754_zero s => if s then 2 ^ 31 else 0
  | S754_infinity s => (if s then 2 ^ 31 else 0) + 255 * 2 ^ 23
  | S754_nan => 255 * 2 ^ 23 + 2 ^ 22
  | S754_finite s m e => (if s then 2 ^ 31 else 0) + (e + 149) * 2 ^ 23 + Zpos m
  end%Z.
Definition f32_from_bits (b : Z) : spec_float :=
  let s := (2 ^ 31 <=? b)%Z in
  let magnitude := (b mod 2 ^ 31)%Z in
  let biased := (magnitude / 2 ^ 23)%Z in
  let fraction := (magnitude mod 2 ^ 23)%Z in
  if (biased =? 255)%Z then if (fraction =? 0)%Z then S754_infinity s else S754_nan
  else if (biased =? 0)%Z then
    match fraction with Zpos m => S754_finite s m (-149) | _ => S754_zero s end
  else match (2 ^ 23 + fraction)%Z with
    | Zpos m => S754_finite s m (biased - 150)
    | _ => S754_nan
    end.

(** [to_le_bytes] and [from_le_bytes] of an integer of [n] bytes. *)
Fixpoint to_le_bytes (n : nat) (z : Z) : str :=
  match n with
  | 0 => []
  | S n => chr (z mod 256) :: to_le_bytes n (z / 256)
  end.
Definition from_le_bytes (b : str) : Z := foldr (λ c acc, bval c + 256 * acc)%Z 0%Z b.

(** [encode] and the reading loop of [decode]. *)
Definition vector_bytes (values : Embedding) : str :=
  concat ((λ v, to_le_bytes 4 (f32_to_bits v)) <$> values).
Definition vector_values (bytes : str) : Embedding :=
  (λ chunk, f32_from_bits (from_le_bytes chunk)) <$> chunks 4 bytes.

Definition encode (vector : Embedding) : result str :=
  normalized ← from_values vector; Ok (vector_bytes normalized).

Record CacheCounters := { corrupt_misses : Z; provenance_misses : Z }.
Definition counters_default : CacheCounters := {| corrupt_misses := 0; provenance_misses := 0 |}.
(** [AtomicU64::fetch_add] wraps. *)
Definition fetch_add (n : Z) : Z := ((n + 1) mod (U64_MAX + 1))%Z.
Definition corrupt_miss (c : CacheCounters) : CacheCounters :=
  {| corrupt_misses := fetch_add (corrupt_misses c); provenance_misses := provenance_misses c |}.
Definition provenance_miss (c : CacheCounters) : CacheCounters :=
  {| corrupt_misses := corrupt_misses c; provenance_misses := fetch_add (provenance_misses c) |}.

(** A row of [embedding_provenance]; a column that holds no value of the type
    read is [None]. *)
Record Provenance := {
  model_revision : option str; input_version : option str; dimensions : option Z;
  normalization : option str; manifest_column : option str;
}.
Definition no_provenance : Provenance :=
  {| model_revision := None; input_version := None; dimensions := None;
     normalization := None; manifest_column := None |}.
Definition current_provenance (manifest : str) : Provenance :=
  {| model_revision := Some MODEL_REVISION; input_version := Some INPUT_VERSION;
     dimensions := Some (Z.of_nat DIMENSIONS); normalization := Some NORMALIZATION;
     manifest_column := Some manifest |}.
#[export] Instance provenance_eq_dec : EqDecision Provenance.
Proof. solve_decision. Defined.

Definition decode (bytes : str) (row : Provenance) (expected_manifest : str)
    (counters : CacheCounters) : option Embedding * CacheCounters :=
  if negb (length bytes =? DIMENSIONS * 4) then (None, corrupt_miss counters)
  else
    let values := vector_values bytes in
    if negb (is_ok (validate_values values)) then (None, corrupt_miss counters)
    else if negb (bool_decide (model_revision row = Some MODEL_REVISION))
         || negb (bool_decide (input_version row = Some INPUT_VERSION))
         || negb (bool_decide (dimensions row = Some (Z.of_nat DIMENSIONS)))
         || negb (bool_decide (normalization row = Some NORMALIZATION))
         || negb (bool_decide (manifest_column row = Some expected_manifest))
    then (None, provenance_miss counters)
    else (Some values, counters).

(** ** Content keys *)

Section Keys.
Context (MODEL_MANIFEST : str) (sha256_hex : str → str).

Definition manifest_digest : str := sha256_hex MODEL_MANIFEST.

(** The bytes one labelled part adds to the digest. *)
Definition key_part (part : str * str) : str :=
  let '(label, value) := part in
  to_le_bytes 8 (Z.of_nat (length label)) ++ label ++
  to_le_bytes 8 (Z.of_nat (length value)) ++ value.
Definition key_parts (text : str) : list (str * str) :=
  [(lit "manifest", MODEL_MANIFEST); (lit "model_revision", MODEL_REVISION);
   (lit "input_version", INPUT_VERSION); (lit "dimensions", to_le_bytes 8 (Z.of_nat DIMENSIONS));
   (lit "normalization", NORMALIZATION); (lit "content", text)].
Definition key_input (parts : list (str * str)) : str := concat (key_part <$> parts).
Definition content_key (text : str) : str := sha256_hex (key_input (key_parts text)).
End Keys.

(** ** The database *)

Definition PAGE_SIZE : Z := 4096.
Definition MIN_LIMIT : Z := 64 * 1024.
Definition CACHE_BYTES : Z := 5 * 1024 * 1024 * 1024.
Definition MAX_BATCH_ENTRIES : nat := 4096.
Definition DELETE_CHUNK : nat := 256.
Definition SCHEMA_VERSION : Z := 2.

(** A row of [embeddings]; a [vector] that is no blob is [None]. *)
Record EmbeddingRow := { key : str; vector : option str; touched : Z }.

Inductive ObjectType := TableObject | IndexObject.
#[export] Instance object_type_eq_dec : EqDecision ObjectType.
Proof. solve_decision. Defined.

(** [sqlite_master]: the type, the name and the table of each schema object. *)
Record SchemaObject := { object_type : ObjectType; object_name : str; tbl_name : str }.

Record Database := {
  user_version : Z;
  sqlite_master : list SchemaObject;
  provenance_columns : list str;
  embeddings : list EmbeddingRow;
  embedding_provenance : list (str * Provenance);
  cache_clock : Z;
}.

Definition empty_database : Database :=
  {| user_version := 0; sqlite_master := []; provenance_columns := [];
     embeddings := []; embedding_provenance := []; cache_clock := 0 |}.

Definition tables (db : Database) : list str :=
  object_name <$> filter (λ o, object_type o = TableObject) (sqlite_master db).

Definition has_current_schema (db : Database) : bool :=
  forallb (λ name, bool_decide (lit name ∈ tables db))
    ["embeddings"; "embedding_provenance"; "cache_clock"]%string
  && forallb (λ name, bool_decide (lit name ∈ provenance_columns db))
    ["key"; "model_revision"; "input_version"; "dimensions"; "normalization";
     "manifest_digest"]%string.

(** [DROP TABLE IF EXISTS] removes a table, its indexes and its rows. *)
Definition drop_object (name : string) (master : list SchemaObject) : list SchemaObject :=
  filter (λ o, tbl_name o ≠ lit name) master.
Definition drop_tables (db : Database) : Database :=
  {| user_version := user_version db;
     sqlite_master := drop_object "cache_clock" (drop_object "embeddings"
       (drop_object "embedding_provenance" (sqlite_master db)));
     provenance_columns := []; embeddings := []; embedding_provenance := []; cache_clock := 0 |}.

(** The [CREATE ... IF NOT EXISTS] batch on a database without these tables; a
    [TEXT PRIMARY KEY] has an automatic index. *)
Definition object (t : ObjectType) (name tbl : string) : SchemaObject :=
  {| object_type := t; object_name := lit name; tbl_name := lit tbl |}.
Definition created_objects : list SchemaObject :=
  [object TableObject "embeddings" "embeddings";
   object IndexObject "sqlite_autoindex_embeddings_1" "embeddings";
   object TableObject "embedding_provenance" "embedding_provenance";
   object IndexObject "sqlite_autoindex_embedding_provenance_1" "embedding_provenance";
   object IndexObject "embedding_recency" "embeddings";
   object TableObject "cache_clock" "cache_clock"].
Definition create_tables (db : Database) : Database :=
  {| user_version := SCHEMA_VERSION;
     sqlite_master := sqlite_master db ++ created_objects;
     provenance_columns := lit <$> ["key"; "model_revision"; "input_version"; "dimensions";
       "normalization"; "manifest_digest"]%string;
     embeddings := []; embedding_provenance := []; cache_clock := 0 |}.

(** [(max_pages.max(0) as u64 / 2).saturating_sub(8).max(1)]. *)
Definition max_entries_of (max_pages : Z) : Z :=
  Z.max (saturating_sub (Z.max max_pages 0 / 2) 8) 1.

(** An open handle: its capacity, the expected manifest and its counters; the
    database is shared with the file's other connections. *)
Record EmbeddingCache := {
  max_entries : Z; cache_manifest : str; counters : CacheCounters;
}.

Section Open.
Context (digest : str).
(** [PRAGMA max_page_count=n] answers [n], or the size of a larger database;
    without it the library's default holds. *)
Context (page_count : Z) (default_max_page_count : Z).

Definition set_max_page_count (n : Z) : Z := Z.max n page_count.
Definition from_existing (max_pages : Z) : EmbeddingCache :=
  {| max_entries := max_entries_of max_pages; cache_manifest := digest;
     counters := counters_default |}.

Definition with_limit (limit : Z) (file : option Database) : result (EmbeddingCache * Database) :=
  if (limit <? MIN_LIMIT)%Z then Err "embedding cache limit must be at least 64 KiB"
  else
    let db := default empty_database file in
    let reset_schema :=
      negb (user_version db =? SCHEMA_VERSION)%Z || negb (has_current_schema db) in
    let db := if reset_schema then create_tables (drop_tables db) else db in
    let max_pages := set_max_page_count (limit / PAGE_SIZE) in
    Ok (from_existing max_pages, db).
Definition open (file : option Database) : result (EmbeddingCache * Database) :=
  with_limit CACHE_BYTES file.

Definition open_existing (file : option Database) : result EmbeddingCache :=
  db ← or_err "unable to open database file" file;
  if negb (user_version db =? SCHEMA_VERSION)%Z || negb (has_current_schema db)
  then Err "semantic_cache_unavailable: cache schema is not ready"
  else Ok (from_existing default_max_page_count).
Definition open_query (file : option Database) : result EmbeddingCache := open_existing file.

Definition open_query_writer (file : option Database) : result (EmbeddingCache * Database) :=
  let db := default empty_database file in
  let max_pages := set_max_page_count (CACHE_BYTES / PAGE_SIZE) in
  if (user_version db =? SCHEMA_VERSION)%Z && has_current_schema db
  then Ok (from_existing max_pages, db)
  else if negb (user_version db =? 0)%Z || negb (length (sqlite_master db) =? 0)
  then Err "semantic_cache_unavailable: cache schema is not ready"
  else Ok (from_existing max_pages, create_tables db).
End Open.

(** ** Reading *)

(** The joined row of a key, in one snapshot. *)
Definition select_row (db : Database) (k : str) : option EmbeddingRow :=
  find (λ r, key r =s k) (embeddings db).
Definition select_provenance (db : Database) (k : str) : Provenance :=
  match find (λ p, p.1 =s k) (embedding_provenance db) with
  | Some p => p.2
  | None => no_provenance
  end.
Definition with_counters (c : EmbeddingCache) (n : CacheCounters) : EmbeddingCache :=
  {| max_entries := max_entries c; cache_manifest := cache_manifest c; counters := n |}.

Definition get (c : EmbeddingCache) (db : Database) (k : str) : option Embedding * EmbeddingCache :=
  match select_row db k with
  | None => (None, c)
  | Some row =>
      match vector row with
      | None => (None, with_counters c (corrupt_miss (counters c)))
      | Some bytes =>
          let '(found, n) := decode bytes (select_provenance db k) (cache_manifest c) (counters c) in
          (found, with_counters c n)
      end
  end.

(** ** Writing *)

Record CacheWrite := { write_key : str; bytes : str }.

Fixpoint collect_writes (writes : list CacheWrite) (entries : list (str * Embedding))
    : result (list CacheWrite) :=
  match entries with
  | [] => Ok writes
  | (k, v) :: entries =>
      if length writes =? MAX_BATCH_ENTRIES then Err "embedding cache batch exceeds 4096 entries"
      else b ← encode v; collect_writes (writes ++ [{| write_key := k; bytes := b |}]) entries
  end.

(** Pops from the back into [unique], which is then reversed. *)
Fixpoint dedup_go (popped : list CacheWrite) (seen : list str) (unique : list CacheWrite)
    : list CacheWrite :=
  match popped with
  | [] => unique
  | w :: popped =>
      if bool_decide (write_key w ∈ seen) then dedup_go popped seen unique
      else dedup_go popped (write_key w :: seen) (unique ++ [w])
  end.
Definition deduplicate_latest (writes : list CacheWrite) : list CacheWrite :=
  rev (dedup_go (rev writes) [] []).

Definition row_compare : EmbeddingRow → EmbeddingRow → comparison :=
  cmp_then (cmp_on touched Z.compare) (cmp_on key str_compare).

Definition delete_keys (keys : list str) (db : Database) : Database :=
  {| user_version := user_version db; sqlite_master := sqlite_master db;
     provenance_columns := provenance_columns db;
     embeddings := filter (λ r, key r ∉ keys) (embeddings db);
     embedding_provenance := filter (λ p, p.1 ∉ keys) (embedding_provenance db);
     cache_clock := cache_clock db |}.

Definition evict (required : Z) (db : Database) : Database :=
  if (0 <? required)%Z then
    let oldest := key <$> take (Z.to_nat required) (sort_by row_compare (embeddings db)) in
    let rows := filter (λ r, key r ∉ oldest) (embeddings db) in
    {| user_version := user_version db; sqlite_master := sqlite_master db;
       provenance_columns := provenance_columns db;
       embeddings := rows;
       embedding_provenance := filter (λ p, p.1 ∈ key <$> rows) (embedding_provenance db);
       cache_clock := cache_clock db |}
  else db.

Definition tick_clock (n : Z) (db : Database) : Database :=
  {| user_version := user_version db; sqlite_master := sqlite_master db;
     provenance_columns := provenance_columns db; embeddings := embeddings db;
     embedding_provenance := embedding_provenance db; cache_clock := cache_clock db + n |}.

(** [INSERT OR REPLACE] into both tables. *)
Definition upsert (manifest : str) (row : EmbeddingRow) (db : Database) : Database :=
  {| user_version := user_version db; sqlite_master := sqlite_master db;
     provenance_columns := provenance_columns db;
     embeddings := filter (λ r, key r ≠ key row) (embeddings db) ++ [row];
     embedding_provenance :=
       filter (λ p, p.1 ≠ key row) (embedding_provenance db)
       ++ [(key row, current_provenance manifest)];
     cache_clock := cache_clock db |}.

Definition new_row (tick : Z) (n index : nat) (w : CacheWrite) : EmbeddingRow :=
  {| key := write_key w; vector := Some (bytes w); touched := tick - Z.of_nat (n - index - 1) |}.
Definition new_rows (tick : Z) (writes : list CacheWrite) : list EmbeddingRow :=
  imap (new_row tick (length writes)) writes.

(** The statements of the transaction. *)
Definition transact (cap : Z) (manifest : str) (writes : list CacheWrite) (db : Database) : Database :=
  let db := foldl (λ db chunk, delete_keys (write_key <$> chunk) db) db
              (chunks DELETE_CHUNK writes) in
  let count := Z.of_nat (length (embeddings db)) in
  let required := saturating_sub (saturating_add U64_MAX count (Z.of_nat (length writes))) cap in
  let db := tick_clock (Z.of_nat (length writes)) (evict required db) in
  foldl (λ db row, upsert manifest row db) db (new_rows (cache_clock db) writes).

(** [failure] is an error SQLite reports for the transaction (a locked or full
    database): dropping the transaction rolls it back. *)
Definition put_many (c : EmbeddingCache) (failure : option string) (db : Database)
    (entries : list (str * Embedding)) : result unit * Database :=
  match collect_writes [] entries with
  | Err e => (Err e, db)
  | Ok writes =>
      if length writes =? 0 then (Ok tt, db)
      else
        let writes := deduplicate_latest writes in
        let keep := Z.to_nat (Z.min (max_entries c) (Z.of_nat (length writes))) in
        let writes := drop (length writes - keep) writes in
        match failure with
        | Some e => (Err e, db)
        | None => (Ok tt, transact (max_entries c) (cache_manifest c) writes db)
        end
  end.

Definition put (c : EmbeddingCache) (failure : option string) (db : Database)
    (k : str) (v : Embedding) : result unit * Database :=
  put_many c failure db [(k, v)].

(** ** Bytes *)

Lemma le_bytes_roundtrip n z : (0 ≤ z < 256 ^ Z.of_nat n)%Z → from_le_bytes (to_le_bytes n z) = z.
Proof.
  revert z. induction n as [|n IH]; intros z Hz; [simpl in *; lia|].
  cbn [to_le_bytes from_le_bytes foldr]. fold (from_le_bytes (to_le_bytes n (z / 256))).
  rewrite Nat2Z.inj_succ, Z.pow_succ_r in Hz by lia.
  rewrite IH by (split; [apply Z.div_pos; lia|apply Z.div_lt_upper_bound; lia]).
  rewrite bval_chr by (pose proof (Z.mod_pos_bound z 256); lia).
  pose proof (Z.div_mod z 256). lia.
Qed.

Lemma to_le_bytes_length n z : length (to_le_bytes n z) = n.
Proof. revert z. induction n; intros; simpl; auto. Qed.

(** The [f32] values: canonical mantissas and exponents. *)
Definition valid_f32 (f : spec_float) : Prop := valid_binary 24 128 f = true.

Lemma digits2_pos_bounds m :
  (2 ^ (Zpos (digits2_pos m) - 1) ≤ Zpos m < 2 ^ Zpos (digits2_pos m))%Z.
Proof.
  induction m as [m IH|m IH|]; cbn [digits2_pos]; [| |simpl; lia].
  all: rewrite Pos2Z.inj_succ.
  all: assert (2 ^ Z.succ (Zpos (digits2_pos m)) = 2 * 2 ^ Zpos (digits2_pos m))%Z
    by (rewrite Z.pow_succ_r; lia).
  all: assert (2 ^ (Z.succ (Zpos (digits2_pos m)) - 1) = 2 * 2 ^ (Zpos (digits2_pos m) - 1))%Z
    by (rewrite <-Z.pow_succ_r by lia; f_equal; lia).
  all: lia.
Qed.

(** A finite [f32] is subnormal, or normal with an exponent in range. *)
Lemma valid_f32_finite s m e :
  valid_f32 (S754_finite s m e) →
  (e = -149 ∧ Zpos m < 2 ^ 23 ∨ -149 ≤ e ≤ 104 ∧ 2 ^ 23 ≤ Zpos m < 2 ^ 24)%Z.
Proof.
  unfold valid_f32, valid_binary, bounded, canonical_mantissa, SpecFloat.fexp, SpecFloat.emin.
  intros [Hc He]%andb_prop. apply Z.eqb_eq in Hc. apply Z.leb_le in He.
  pose proof (digits2_pos_bounds m) as Hb.
  remember (Zpos (digits2_pos m)) as d eqn:Hd. clear Hd.
  destruct (decide (d ≤ 23)%Z).
  - left. split; [lia|]. destruct Hb as [_ Hb].
    eapply Z.lt_le_trans; [exact Hb|]. apply Z.pow_le_mono_r; lia.
  - right. assert (d = 24)%Z as -> by lia. lia.
Qed.

Lemma f32_to_bits_range f : valid_f32 f → (0 ≤ f32_to_bits f < 2 ^ 32)%Z.
Proof.
  destruct f as [[]|[]| |s m e]; intros Hv; unfold f32_to_bits; [lia..|].
  apply valid_f32_finite in Hv. destruct s; lia.
Qed.

Lemma f32_bits_roundtrip f : valid_f32 f → f32_from_bits (f32_to_bits f) = f.
Proof.
  destruct f as [[]|[]| |s m e]; intros Hv; [done..|].
  apply valid_f32_finite in Hv. unfold f32_to_bits, f32_from_bits.
  set (mag := ((e + 149) * 2 ^ 23 + Zpos m)%Z).
  set (b := ((if s then 2 ^ 31 else 0) + (e + 149) * 2 ^ 23 + Zpos m)%Z).
  assert (0 ≤ mag < 255 * 2 ^ 23)%Z as Hmag by lia.
  assert ((2 ^ 31 <=? b)%Z = s) as ->.
  { destruct s; [apply Z.leb_le|apply Z.leb_gt]; lia. }
  assert (b mod 2 ^ 31 = mag)%Z as ->.
  { symmetry. apply (Z.mod_unique _ _ (if s then 1 else 0)%Z); [lia|destruct s; lia]. }
  destruct Hv as [[-> Hm]|[He Hm]].
  - assert (mag / 2 ^ 23 = 0)%Z as -> by (apply Z.div_small; lia).
    assert (mag mod 2 ^ 23 = Zpos m)%Z as -> by (apply Z.mod_small; lia). done.
  - assert (mag / 2 ^ 23 = e + 150)%Z as ->.
    { symmetry. apply (Z.div_unique _ _ _ (Zpos m - 2 ^ 23)); lia. }
    assert (mag mod 2 ^ 23 = Zpos m - 2 ^ 23)%Z as ->.
    { symmetry. apply (Z.mod_unique _ _ (e + 150)); lia. }
    rewrite (proj2 (Z.eqb_neq _ _)) by lia. rewrite (proj2 (Z.eqb_neq _ _)) by lia.
    replace (2 ^ 23 + (Zpos m - 2 ^ 23))%Z with (Zpos m) by lia. f_equal. lia.
Qed.

Lemma vector_bytes_length values : length (vector_bytes values) = length values * 4.
Proof.
  unfold vector_bytes. induction values as [|f values IH]; [done|].
  rewrite fmap_cons. cbn [concat]. rewrite length_app, IH, to_le_bytes_length. simpl. lia.
Qed.

Lemma chunks_cons {A} (a l : list A) n :
  0 < n → length a = n → chunks n (a ++ l) = a :: chunks n l.
Proof.
  intros Hn Ha. unfold chunks. rewrite length_app.
  destruct a as [|x a]; [simpl in Ha; lia|].
  change ((x :: a) ++ l) with (x :: (a ++ l)). cbn [length Nat.add chunks_go].
  change (x :: a ++ l) with ((x :: a) ++ l).
  rewrite take_app_length' by done. rewrite drop_app_length' by done. f_equal.
  assert (∀ f1 f2 (l : list A), length l ≤ f1 → length l ≤ f2 → chunks_go f1 n l = chunks_go f2 n l)
    as Hf; [|apply Hf; lia].
  clear -Hn. induction f1 as [|f1 IH]; intros f2 l H1 H2; destruct l as [|y l], f2 as [|f2]; simpl in *;
    try lia; try done.
  f_equal. apply IH; rewrite length_drop; simpl; lia.
Qed.

Lemma vector_roundtrip values : Forall valid_f32 values → vector_values (vector_bytes values) = values.
Proof.
  unfold vector_values. induction 1 as [|f values Hf _ IH]; [done|].
  unfold vector_bytes in *. cbn [fmap list_fmap concat].
  rewrite chunks_cons by (try lia; apply to_le_bytes_length).
  rewrite fmap_cons. f_equal; [|exact IH].
  rewrite le_bytes_roundtrip by (pose proof (f32_to_bits_range f Hf); simpl; lia).
  by apply f32_bits_roundtrip.
Qed.

(** ** Keys *)

Lemma to_le_bytes_inj n x y :
  (0 ≤ x < 256 ^ Z.of_nat n)%Z → (0 ≤ y < 256 ^ Z.of_nat n)%Z →
  to_le_bytes n x = to_le_bytes n y → x = y.
Proof.
  intros Hx Hy He. apply (f_equal from_le_bytes) in He.
  by rewrite !le_bytes_roundtrip in He.
Qed.

Definition addressable (s : str) : Prop := (Z.of_nat (length s) ≤ U64_MAX)%Z.

Lemma length_prefixed_inj (a b r t : str) :
  addressable a → addressable b →
  to_le_bytes 8 (Z.of_nat (length a)) ++ a ++ r = to_le_bytes 8 (Z.of_nat (length b)) ++ b ++ t →
  a = b ∧ r = t.
Proof.
  unfold addressable, U64_MAX. intros Ha Hb He.
  apply app_inj_1 in He as [Hl He]; [|by rewrite !to_le_bytes_length].
  apply to_le_bytes_inj in Hl; [|simpl; lia..].
  apply app_inj_1 in He; [done|lia].
Qed.

Lemma key_input_inj ps qs :
  Forall (λ p, addressable p.1 ∧ addressable p.2) ps →
  Forall (λ p, addressable p.1 ∧ addressable p.2) qs →
  key_input ps = key_input qs → ps = qs.
Proof.
  intros Hps. revert qs. unfold key_input.
  assert (∀ p r, key_part p ++ r ≠ []) as Hne.
  { intros [l v] r He. apply (f_equal length) in He. unfold key_part in He.
    rewrite !length_app, to_le_bytes_length in He. simpl in He. lia. }
  induction Hps as [|[l v] ps [Hl Hv] _ IH]; intros qs Hqs He;
    destruct Hqs as [|[l' v'] qs [Hl' Hv'] Hqs]; cbn [fmap list_fmap concat] in He.
  - done.
  - by symmetry in He; apply Hne in He.
  - by apply Hne in He.
  - cbn [fst snd] in *. cbn [key_part] in He. rewrite <-!app_assoc in He.
    apply length_prefixed_inj in He as [-> He]; [|done..].
    apply length_prefixed_inj in He as [-> He]; [|done..].
    f_equal. by apply IH.
Qed.

(** ** The specification: a bounded list in recency order *)

Section Latest.
Context {V : Type}.

(** The last binding of each key, in the order of those bindings. *)
Fixpoint latest (batch : list (str * V)) : list (str * V) :=
  match batch with
  | [] => []
  | e :: batch => if bool_decide (e.1 ∈ batch.*1) then latest batch else e :: latest batch
  end.

(** A batch moves its keys to the recent end; the oldest entries beyond the
    capacity are dropped. *)
Definition lru_put (cap : nat) (batch entries : list (str * V)) : list (str * V) :=
  let all := filter (λ e, e.1 ∉ batch.*1) entries ++ latest batch in
  drop (length all - cap) all.
End Latest.

(** What a put answers and leaves, in terms of the entries alone. *)
Definition lru_put_many (c : EmbeddingCache) (failure : option string)
    (entries : list (str * option str)) (batch : list (str * Embedding))
    : result unit * list (str * option str) :=
  match collect_writes [] batch with
  | Err e => (Err e, entries)
  | Ok writes =>
      match writes, failure with
      | [], _ => (Ok tt, entries)
      | _, Some e => (Err e, entries)
      | _, None =>
          (Ok tt, lru_put (Z.to_nat (max_entries c))
                    ((λ w, (write_key w, Some (bytes w))) <$> writes) entries)
      end
  end.

(** The entries of a database, least recent first. *)
Definition entry_of (r : EmbeddingRow) : str * option str := (key r, vector r).
Definition cache_entries (db : Database) : list (str * option str) :=
  entry_of <$> sort_by row_compare (embeddings db).

Record cache_inv (db : Database) : Prop := {
  inv_keys : NoDup (key <$> embeddings db);
  inv_provenance : ∀ k, k ∈ (embedding_provenance db).*1 ↔ k ∈ key <$> embeddings db;
  inv_provenance_keys : NoDup (embedding_provenance db).*1;
  inv_clock : ∀ r, r ∈ embeddings db → (touched r ≤ cache_clock db)%Z;
}.

#[export] Instance row_compare_comparator : Comparator row_compare.
Proof. unfold row_compare. apply _. Qed.

Lemma row_compare_Eq r1 r2 : row_compare r1 r2 = Eq → key r1 = key r2.
Proof.
  unfold row_compare, cmp_then, cmp_on, then_with.
  destruct (touched r1 ?= touched r2)%Z; try done. apply (cmp_eq str_compare).
Qed.

(** *** Batches *)

Definition write_entry (w : CacheWrite) : str * option str := (write_key w, Some (bytes w)).
Definition latest_writes (ws : list CacheWrite) : list CacheWrite :=
  foldr (λ w acc, if bool_decide (write_key w ∈ write_key <$> acc) then acc else w :: acc) [] ws.

Lemma latest_writes_keys ws k : k ∈ write_key <$> latest_writes ws ↔ k ∈ write_key <$> ws.
Proof.
  induction ws as [|w ws IH]; [done|]. cbn [latest_writes foldr]. fold (latest_writes ws).
  case_bool_decide as Hin; rewrite !fmap_cons, !elem_of_cons; [|by rewrite IH].
  rewrite IH. split; [auto|]. intros [->|?]; [by apply IH|done].
Qed.

Lemma latest_writes_nodup ws : NoDup (write_key <$> latest_writes ws).
Proof.
  induction ws as [|w ws IH]; [constructor|]. cbn [latest_writes foldr]. fold (latest_writes ws).
  case_bool_decide; [done|]. rewrite fmap_cons. by constructor.
Qed.

Lemma latest_writes_latest ws : write_entry <$> latest_writes ws = latest (write_entry <$> ws).
Proof.
  induction ws as [|w ws IH]; [done|]. cbn [latest_writes foldr]. fold (latest_writes ws).
  rewrite fmap_cons. cbn [latest]. rewrite <-IH.
  assert ((write_entry w).1 ∈ (write_entry <$> ws).*1 ↔ write_key w ∈ write_key <$> latest_writes ws) as Hk.
  { rewrite latest_writes_keys, <-list_fmap_compose. done. }
  case_bool_decide as H1; case_bool_decide as H2; try done; naive_solver.
Qed.

Lemma dedup_go_snoc ws w seen unique :
  dedup_go (ws ++ [w]) seen unique =
  if bool_decide (write_key w ∈ seen ++ (write_key <$> ws)) then dedup_go ws seen unique
  else dedup_go ws seen unique ++ [w].
Proof.
  revert seen unique. induction ws as [|v ws IH]; intros seen unique; cbn [app dedup_go].
  { rewrite fmap_nil, app_nil_r. case_bool_decide; done. }
  rewrite fmap_cons. case_bool_decide as Hv.
  - rewrite IH. assert (write_key w ∈ seen ++ (write_key <$> ws) ↔
      write_key w ∈ seen ++ write_key v :: (write_key <$> ws)) as Hiff.
    { rewrite !elem_of_app, elem_of_cons. split; [naive_solver|]. intros [?|[->|?]]; auto. }
    by rewrite (bool_decide_ext _ _ Hiff).
  - rewrite IH. assert (write_key w ∈ (write_key v :: seen) ++ (write_key <$> ws) ↔
      write_key w ∈ seen ++ write_key v :: (write_key <$> ws)) as Hiff by set_solver.
    by rewrite (bool_decide_ext _ _ Hiff).
Qed.

Lemma deduplicate_latest_eq ws : deduplicate_latest ws = latest_writes ws.
Proof.
  unfold deduplicate_latest. induction ws as [|w ws IH]; [done|].
  cbn [rev latest_writes foldr]. fold (latest_writes ws). rewrite dedup_go_snoc.
  assert (write_key w ∈ [] ++ (write_key <$> rev ws) ↔ write_key w ∈ write_key <$> latest_writes ws) as Hiff.
  { rewrite latest_writes_keys, app_nil_l. by rewrite <-(Permutation_rev ws). }
  rewrite (bool_decide_ext _ _ Hiff). case_bool_decide; [done|].
  by rewrite rev_app_distr, IH.
Qed.

(** *** Statements *)

Lemma delete_chunks n ws db :
  0 < n →
  let db' := foldl (λ db chunk, delete_keys (write_key <$> chunk) db) db (chunks n ws) in
  embeddings db' = filter (λ r, key r ∉ write_key <$> ws) (embeddings db) ∧
  embedding_provenance db' = filter (λ p, p.1 ∉ write_key <$> ws) (embedding_provenance db) ∧
  cache_clock db' = cache_clock db.
Proof.
  intros Hn. cbn zeta.
  assert (∀ k, k ∈ write_key <$> ws ↔ k ∈ write_key <$> concat (chunks n ws)) as Hk
    by (intros k; by rewrite concat_chunks).
  assert (∀ r, key r ∉ write_key <$> ws ↔ key r ∉ write_key <$> concat (chunks n ws)) as Hk1
    by (intros r; by rewrite Hk).
  assert (∀ p : str * Provenance,
    p.1 ∉ write_key <$> ws ↔ p.1 ∉ write_key <$> concat (chunks n ws)) as Hk2
    by (intros p; by rewrite Hk).
  rewrite (list_filter_iff _ _ _ Hk1), (list_filter_iff _ _ _ Hk2). clear Hk Hk1 Hk2.
  generalize (chunks n ws) as cs. clear ws. intros cs. revert db.
  induction cs as [|chunk cs IH]; intros db; cbn [foldl concat].
  { rewrite !list_filter_all by (intros; set_solver). done. }
  destruct (IH (delete_keys (write_key <$> chunk) db)) as (-> & -> & ->).
  unfold delete_keys. cbn [embeddings embedding_provenance cache_clock].
  rewrite !list_filter_filter. split_and!; [..|done];
    (apply list_filter_iff; intros x; rewrite fmap_app; set_solver).
Qed.

Lemma nodup_filter_keys (P : EmbeddingRow → Prop) `{∀ r, Decision (P r)} rows :
  NoDup (key <$> rows) → NoDup (key <$> filter P rows).
Proof. intros Hnd. eapply sublist_NoDup; [exact Hnd|]. apply fmap_sublist, sublist_filter. Qed.

Lemma row_separated rows :
  NoDup (key <$> rows) → ∀ x y, x ∈ rows → y ∈ rows → row_compare x y = Eq → x = y.
Proof.
  intros Hnd x y Hx Hy He. apply (elem_of_same_key key rows); [done..|]. by apply row_compare_Eq.
Qed.

Lemma sort_filter (P : EmbeddingRow → Prop) `{∀ r, Decision (P r)} rows :
  NoDup (key <$> rows) →
  sort_by row_compare (filter P rows) = filter P (sort_by row_compare rows).
Proof.
  intros Hnd. transitivity (sort_by row_compare (filter P (sort_by row_compare rows))).
  - apply (sort_by_perm_eq row_compare); [apply _| |by rewrite sort_by_perm].
    apply row_separated. by apply nodup_filter_keys.
  - apply sort_by_id. apply StronglySorted_filter, sort_by_sorted, _.
Qed.

(** Deleting the keys of the first [n] rows in order drops those rows. *)
Lemma filter_take_keys n (rows : list EmbeddingRow) :
  NoDup (key <$> rows) → filter (λ r, key r ∉ key <$> take n rows) rows = drop n rows.
Proof.
  intros Hnd.
  transitivity (filter (λ r, key r ∉ key <$> take n rows) (take n rows ++ drop n rows));
    [by rewrite take_drop|rewrite filter_app].
  rewrite <-(take_drop n rows), fmap_app, NoDup_app in Hnd. destruct Hnd as (_ & Hd & _).
  rewrite list_filter_none, list_filter_all; [done|..].
  - intros r Hr Hin. by apply (Hd (key r)); [|by apply list_elem_of_fmap_2].
  - intros r Hr Hn. apply Hn. by apply list_elem_of_fmap_2.
Qed.

Lemma sort_append (rows news : list EmbeddingRow) :
  NoDup (key <$> rows ++ news) → StronglySorted (cmp_le row_compare) news →
  (∀ r n, r ∈ rows → n ∈ news → touched r < touched n)%Z →
  sort_by row_compare (rows ++ news) = sort_by row_compare rows ++ news.
Proof.
  intros Hnd Hs Hlt.
  transitivity (sort_by row_compare (sort_by row_compare rows ++ news)).
  - apply (sort_by_perm_eq row_compare); [apply _|by apply row_separated|by rewrite sort_by_perm].
  - apply sort_by_id. apply StronglySorted_app_2; [|apply sort_by_sorted, _|done].
    intros r n Hr Hn. apply elem_of_sort_by in Hr. specialize (Hlt r n Hr Hn).
    unfold cmp_le, row_compare, cmp_then, cmp_on, then_with.
    by rewrite (proj2 (Z.compare_lt_iff _ _)).
Qed.

Lemma upsert_all manifest rows db :
  NoDup (key <$> embeddings db ++ rows) →
  (∀ r, r ∈ rows → key r ∉ (embedding_provenance db).*1) →
  let db' := foldl (λ db row, upsert manifest row db) db rows in
  embeddings db' = embeddings db ++ rows ∧
  embedding_provenance db' =
    embedding_provenance db ++ ((λ r, (key r, current_provenance manifest)) <$> rows) ∧
  cache_clock db' = cache_clock db.
Proof.
  cbn zeta. revert db. induction rows as [|row rows IH]; intros db Hnd Hp; cbn [foldl].
  { by rewrite !app_nil_r. }
  assert (embeddings (upsert manifest row db) = embeddings db ++ [row]) as He.
  { cbn [upsert embeddings]. rewrite list_filter_all; [done|]. intros r Hr Heq.
    rewrite fmap_app, fmap_cons, NoDup_app in Hnd. destruct Hnd as (_ & Hd & _).
    apply (Hd (key r)); [by apply list_elem_of_fmap_2|]. rewrite Heq. left. }
  assert (embedding_provenance (upsert manifest row db) =
    embedding_provenance db ++ [(key row, current_provenance manifest)]) as Hq.
  { cbn [upsert embedding_provenance]. rewrite list_filter_all; [done|].
    intros p Hpp Heq. apply (Hp row); [left|]. rewrite <-Heq. by apply list_elem_of_fmap_2. }
  destruct (IH (upsert manifest row db)) as (H1 & H2 & H3).
  - by rewrite He, <-app_assoc.
  - intros r Hr. rewrite Hq, fmap_app. rewrite !fmap_app, !fmap_cons, NoDup_app in Hnd.
    destruct Hnd as (_ & _ & Hnd). apply NoDup_cons in Hnd as [Hrow _].
    rewrite not_elem_of_app. split; [apply Hp; by right|]. rewrite fmap_cons, fmap_nil. cbn [fst].
    intros Heq%list_elem_of_singleton. apply Hrow. rewrite <-Heq. by apply list_elem_of_fmap_2.
  - rewrite H1, H2, H3, He, Hq, <-!app_assoc. done.
Qed.

Lemma new_rows_keys tick ws : key <$> new_rows tick ws = write_key <$> ws.
Proof.
  unfold new_rows. generalize (length ws) as n. intros n. rewrite fmap_imap.
  rewrite (imap_ext _ (λ _, write_key)) by done. apply imap_const.
Qed.

Lemma new_rows_entries tick ws : entry_of <$> new_rows tick ws = write_entry <$> ws.
Proof.
  unfold new_rows. generalize (length ws) as n. intros n. rewrite fmap_imap.
  rewrite (imap_ext _ (λ _, write_entry)) by done. apply imap_const.
Qed.

(** Later writes of a batch are more recent, and all newer than the old clock. *)
Lemma new_rows_order tick ws :
  (∀ r, r ∈ new_rows tick ws → (tick - Z.of_nat (length ws) < touched r ≤ tick)%Z) ∧
  StronglySorted (cmp_le row_compare) (new_rows tick ws).
Proof.
  assert (∀ ws n k, k + length ws ≤ n →
    let rows := imap (λ i, new_row tick n (k + i)) ws in
    (∀ r, r ∈ rows → (tick - Z.of_nat n + Z.of_nat k < touched r ≤ tick)%Z) ∧
    StronglySorted (cmp_le row_compare) rows) as Hgen.
  { clear ws. induction ws as [|w ws IH]; intros n k Hk; cbn [imap].
    { split; [set_solver|constructor]. }
    cbn [length] in Hk. destruct (IH n (S k)) as [Ht Hs]; [lia|].
    rewrite (imap_ext _ (λ i, new_row tick n (S k + i))) by (intros; simpl; do 2 f_equal; lia).
    split.
    - intros r [->|Hr]%elem_of_cons; [cbn; lia|]. specialize (Ht r Hr). lia.
    - constructor; [done|]. apply Forall_forall. intros r Hr. specialize (Ht r Hr).
      unfold cmp_le, row_compare, cmp_then, cmp_on, then_with.
      rewrite (proj2 (Z.compare_lt_iff _ _)); [done|]. cbn. lia. }
  destruct (Hgen ws (length ws) 0) as [Ht Hs]; [lia|]. split; [|exact Hs].
  intros r Hr. specialize (Ht r Hr). lia.
Qed.

(** Eviction drops the [required] least recent rows, and orphaned provenance. *)
Lemma cache_evict_spec required db :
  cache_inv db → cache_inv (evict required db) ∧
  sort_by row_compare (embeddings (evict required db)) =
    drop (Z.to_nat required) (sort_by row_compare (embeddings db)) ∧
  (∀ r, r ∈ embeddings (evict required db) → r ∈ embeddings db) ∧
  cache_clock (evict required db) = cache_clock db.
Proof.
  intros [Hk Hp Hpk Hc]. unfold evict. destruct (0 <? required)%Z eqn:Hr.
  2: { apply Z.ltb_ge in Hr. rewrite Z2Nat.nonpos by lia. done. }
  cbn [embeddings cache_clock]. split_and!; [|rewrite sort_filter by done| |done].
  - split; cbn [embeddings embedding_provenance cache_clock].
    + by apply nodup_filter_keys.
    + intros k. rewrite list_elem_of_fmap. setoid_rewrite list_elem_of_filter. split.
      * intros (p & -> & ? & _). done.
      * intros Hin. assert (k ∈ key <$> embeddings db) as Hin'.
        { eapply list_elem_of_fmap in Hin as (r & -> & Hr'). apply list_elem_of_filter in Hr' as [_ ?].
          by apply list_elem_of_fmap_2. }
        apply Hp, list_elem_of_fmap in Hin' as (p & -> & Hpin). by exists p.
    + eapply sublist_NoDup; [exact Hpk|]. apply fmap_sublist, sublist_filter.
    + intros r [_ Hin]%list_elem_of_filter. by apply Hc.
  - apply filter_take_keys. by rewrite (sort_by_perm row_compare).
  - by intros r [_ Hin]%list_elem_of_filter.
Qed.

Definition capacity_ok (c : EmbeddingCache) : Prop := (1 ≤ max_entries c ≤ I64_MAX)%Z.
(** SQLite's [COUNT] is an [i64]. *)
Definition countable_rows (db : Database) : Prop :=
  (Z.of_nat (length (embeddings db)) ≤ I64_MAX)%Z.

(** Filters on the image of a function. *)
Lemma filter_fmap {A B} (f : A → B) (Q : B → Prop) `{∀ y, Decision (Q y)} (l : list A) :
  filter Q (f <$> l) = f <$> filter (λ x, Q (f x)) l.
Proof.
  induction l as [|x l IH]; [done|]. rewrite fmap_cons, !filter_cons.
  destruct (decide (Q (f x))); rewrite ?fmap_cons; by f_equal.
Qed.

Lemma elem_of_fmap_filter {A B} (f : A → B) (Q : B → Prop) `{∀ y, Decision (Q y)} (l : list A) k :
  k ∈ f <$> filter (λ x, Q (f x)) l ↔ Q k ∧ k ∈ f <$> l.
Proof. by rewrite <-filter_fmap, list_elem_of_filter. Qed.

Lemma delete_inv n ws db :
  0 < n → cache_inv db →
  let db' := foldl (λ db chunk, delete_keys (write_key <$> chunk) db) db (chunks n ws) in
  cache_inv db' ∧ cache_clock db' = cache_clock db ∧
  embeddings db' = filter (λ r, key r ∉ write_key <$> ws) (embeddings db).
Proof.
  intros Hn [Hk Hp Hpk Hc]. destruct (delete_chunks n ws db Hn) as (He & Hq & Ht). cbn zeta in *.
  split_and!; [|done..]. split; rewrite ?He, ?Hq, ?Ht.
  - by apply nodup_filter_keys.
  - intros k. transitivity ((k ∉ write_key <$> ws) ∧ (k ∈ key <$> embeddings db)).
    + rewrite <-(Hp k). exact (elem_of_fmap_filter fst (λ k, k ∉ write_key <$> ws) _ k).
    + symmetry. exact (elem_of_fmap_filter key (λ k, k ∉ write_key <$> ws) _ k).
  - eapply sublist_NoDup; [exact Hpk|]. apply fmap_sublist, sublist_filter.
  - intros r [_ Hr]%list_elem_of_filter. by apply Hc.
Qed.

Lemma entries_filter (ws : list CacheWrite) db :
  NoDup (key <$> embeddings db) →
  entry_of <$> sort_by row_compare (filter (λ r, key r ∉ write_key <$> ws) (embeddings db)) =
  filter (λ e, e.1 ∉ write_key <$> ws) (cache_entries db).
Proof.
  intros Hnd. rewrite sort_filter by done. unfold cache_entries. by rewrite filter_fmap.
Qed.

(** Appending the new rows of a batch whose keys are absent. *)
Lemma insert_rows manifest ws db :
  cache_inv db → NoDup (write_key <$> ws) →
  (∀ r, r ∈ embeddings db → key r ∉ write_key <$> ws) →
  let db' := tick_clock (Z.of_nat (length ws)) db in
  let db'' := foldl (λ db row, upsert manifest row db) db' (new_rows (cache_clock db') ws) in
  cache_inv db'' ∧ cache_entries db'' = cache_entries db ++ (write_entry <$> ws) ∧
  (∀ w, w ∈ ws → (write_key w, current_provenance manifest) ∈ embedding_provenance db'').
Proof.
  intros [Hk Hp Hpk Hc] Hnd Habs. cbn zeta.
  set (db' := tick_clock _ db). set (rows := new_rows _ ws).
  destruct (new_rows_order (cache_clock db') ws) as [Ht Hs]. fold rows in Ht, Hs.
  assert (key <$> rows = write_key <$> ws) as Hkeys by apply new_rows_keys.
  assert (NoDup (key <$> embeddings db' ++ rows)) as Hall.
  { rewrite fmap_app, Hkeys. apply NoDup_app. split_and!; [done| |done].
    intros k (r & -> & Hr)%list_elem_of_fmap. by apply Habs. }
  assert (∀ k, k ∈ key <$> rows → k ∉ (embedding_provenance db').*1) as Hfresh.
  { intros k Hkr Hin. cbn in Hin. apply Hp, list_elem_of_fmap in Hin as (r & -> & Hr).
    apply (Habs r Hr). by rewrite <-Hkeys. }
  destruct (upsert_all manifest rows db' Hall) as (E1 & E2 & E3).
  { intros r Hr. apply Hfresh. by apply list_elem_of_fmap_2. }
  cbn zeta in E1, E2, E3. split_and!.
  - split; rewrite ?E1, ?E2, ?E3; [done|..].
    + intros k. rewrite !fmap_app, !elem_of_app, <-list_fmap_compose. cbn. by rewrite Hp.
    + rewrite fmap_app, <-list_fmap_compose. apply NoDup_app. split_and!; [done| |].
      * intros k Hin Hkr. by apply (Hfresh k).
      * change (NoDup (key <$> rows)). by rewrite Hkeys.
    + intros r [Hr|Hr]%elem_of_app; [specialize (Hc r Hr); cbn; lia|apply Ht in Hr; lia].
  - unfold cache_entries. rewrite E1. rewrite sort_append; [|done..|].
    + rewrite fmap_app. unfold rows. by rewrite new_rows_entries.
    + intros r n Hr Hn. specialize (Hc r Hr). apply Ht in Hn. cbn in Hn. lia.
  - intros w Hw. rewrite E2. apply elem_of_app. right.
    assert (write_key w ∈ key <$> rows) as (r & -> & Hr)%list_elem_of_fmap
      by (rewrite Hkeys; by apply list_elem_of_fmap_2).
    apply list_elem_of_fmap. by exists r.
Qed.

Lemma transact_spec cap manifest ws db :
  cache_inv db → countable_rows db → NoDup (write_key <$> ws) →
  (1 ≤ cap ≤ I64_MAX)%Z → (Z.of_nat (length ws) ≤ cap)%Z →
  let all := filter (λ e, e.1 ∉ write_key <$> ws) (cache_entries db) ++ (write_entry <$> ws) in
  let db' := transact cap manifest ws db in
  cache_inv db' ∧ cache_entries db' = drop (length all - Z.to_nat cap) all ∧
  (∀ w, w ∈ ws → (write_key w, current_provenance manifest) ∈ embedding_provenance db').
Proof.
  intros Hinv Hcount Hnd Hcap Hlen. cbn zeta. unfold transact.
  destruct (delete_inv DELETE_CHUNK ws db ltac:(unfold DELETE_CHUNK; lia) Hinv) as (Hd & Hdc & Hde).
  cbn zeta in Hd, Hdc, Hde. cbn zeta.
  set (db1 := foldl _ db _) in *. set (required := saturating_sub _ cap).
  destruct (cache_evict_spec required db1 Hd) as (He & Hes & Hein & Hec).
  destruct (insert_rows manifest ws (evict required db1)) as (Hi & Hie & Hip); [done..| |].
  { intros r Hr. apply Hein in Hr. rewrite Hde in Hr. by apply list_elem_of_filter in Hr as [? _]. }
  split_and!; [exact Hi| |exact Hip].
  transitivity (cache_entries (evict required db1) ++ (write_entry <$> ws)); [exact Hie|].
  unfold cache_entries at 1. rewrite Hes, fmap_drop, Hde.
  rewrite entries_filter by apply Hinv.
  set (kept := filter (λ e, e.1 ∉ write_key <$> ws) (cache_entries db)).
  assert (length kept = length (embeddings db1)) as Hk.
  { unfold kept. rewrite <-entries_filter by apply Hinv.
    by rewrite length_fmap, sort_by_length, Hde. }
  assert (length (embeddings db1) ≤ length (embeddings db)) as Hle
    by (rewrite Hde; apply length_filter).
  assert (Z.to_nat required = length kept + length ws - Z.to_nat cap) as ->.
  { unfold required, saturating_sub, saturating_add. unfold countable_rows, I64_MAX in *.
    unfold U64_MAX. rewrite <-Hk. lia. }
  rewrite length_app, length_fmap, drop_app_le by lia. done.
Qed.

(** A batch that fits beside the other rows evicts nothing. *)
Lemma transact_fits cap manifest ws db :
  cache_inv db → NoDup (write_key <$> ws) → (cap ≤ I64_MAX)%Z →
  (Z.of_nat (length (filter (λ r, key r ∉ write_key <$> ws) (embeddings db)) + length ws) ≤ cap)%Z →
  let db' := transact cap manifest ws db in
  ∃ tick, embeddings db' = filter (λ r, key r ∉ write_key <$> ws) (embeddings db) ++ new_rows tick ws ∧
    embedding_provenance db' = filter (λ p, p.1 ∉ write_key <$> ws) (embedding_provenance db) ++
      ((λ r, (key r, current_provenance manifest)) <$> new_rows tick ws).
Proof.
  intros [Hk Hp Hpk Hc] Hnd Hcap Hfits. cbn zeta. unfold transact.
  destruct (delete_chunks DELETE_CHUNK ws db ltac:(unfold DELETE_CHUNK; lia)) as (He & Hq & _). cbn zeta in *.
  set (db1 := foldl _ db _) in *. set (required := saturating_sub _ cap).
  assert (evict required db1 = db1) as ->.
  { unfold evict. assert (required = 0)%Z as ->; [|done].
    unfold required, saturating_sub, saturating_add, I64_MAX, U64_MAX in *. rewrite He. lia. }
  set (db2 := tick_clock _ db1). exists (cache_clock db2).
  destruct (upsert_all manifest (new_rows (cache_clock db2) ws) db2) as (E1 & E2 & _).
  - cbn [embeddings db2 tick_clock]. rewrite fmap_app, new_rows_keys, He. apply NoDup_app. split_and!; [|..|done].
    + by apply nodup_filter_keys.
    + by intros k (r & -> & [? _]%list_elem_of_filter)%list_elem_of_fmap.
  - intros r Hr. cbn [embedding_provenance db2 tick_clock]. rewrite Hq.
    intros (p & Heq & [Hn _]%list_elem_of_filter)%list_elem_of_fmap. apply Hn. rewrite <-Heq.
    rewrite <-(new_rows_keys (cache_clock db2)). by apply list_elem_of_fmap_2.
  - cbn zeta in *. rewrite E1, E2. cbn [embeddings embedding_provenance db2 tick_clock]. by rewrite He, Hq.
Qed.

(** Lookups of the other keys do not see a batch. *)
Lemma find_other {A} (f : A → str) (keys : list str) (rows news : list A) k :
  k ∉ keys → (∀ x, x ∈ news → f x ∈ keys) →
  find (λ x, f x =s k) (filter (λ x, f x ∉ keys) rows ++ news) = find (λ x, f x =s k) rows.
Proof.
  intros Hk Hnew. induction rows as [|x rows IH].
  - cbn [filter list_filter app]. induction news as [|y news IH]; [done|]. cbn [find].
    rewrite bool_decide_eq_false_2; [apply IH; intros; apply Hnew; by right|].
    intros <-. by apply Hk, Hnew; left.
  - rewrite filter_cons. cbn [find]. destruct (decide (f x ∉ keys)) as [Hx|Hx]; cbn [app find]; [by rewrite IH|].
    rewrite (bool_decide_eq_false_2 (f x = k)); [done|]. intros <-. by apply Hx.
Qed.

(** Writing only the last [cap] bindings is enough. *)
Lemma lru_put_trim cap (ws : list CacheWrite) entries :
  let last := latest_writes ws in
  let kept := drop (length last - Nat.min cap (length last)) last in
  let all := filter (λ e, e.1 ∉ write_key <$> kept) entries ++ (write_entry <$> kept) in
  drop (length all - cap) all = lru_put cap (write_entry <$> ws) entries.
Proof.
  cbn zeta. unfold lru_put. rewrite <-latest_writes_latest.
  assert (∀ e : str * option str,
    e.1 ∉ (write_entry <$> ws).*1 ↔ e.1 ∉ write_key <$> latest_writes ws) as Hk.
  { intros e. rewrite latest_writes_keys, <-list_fmap_compose. done. }
  rewrite (list_filter_iff _ _ _ Hk). clear Hk.
  generalize (latest_writes ws) as last. intros last.
  destruct (decide (length last ≤ cap)) as [Hl|Hl].
  - rewrite Nat.min_r by done. rewrite Nat.sub_diag, drop_0. done.
  - rewrite Nat.min_l by lia. rewrite !length_app, !length_fmap, length_drop.
    rewrite !drop_app_ge by lia. rewrite <-!fmap_drop, drop_drop. do 2 f_equal. lia.
Qed.

(** A batch is accepted when it is small enough and every vector encodes. *)
Definition encode_entry (e : str * Embedding) : result CacheWrite :=
  b ← encode e.2; Ok {| write_key := e.1; bytes := b |}.

Lemma collect_writes_Ok entries acc out :
  length acc ≤ MAX_BATCH_ENTRIES →
  collect_writes acc entries = Ok out ↔
  length acc + length entries ≤ MAX_BATCH_ENTRIES ∧
  ∃ ws, try_map encode_entry entries = Ok ws ∧ out = acc ++ ws.
Proof.
  revert acc. induction entries as [|[k v] es IH]; intros acc Hacc; cbn [collect_writes try_map length].
  { split.
    - intros He. result_inv. split; [lia|]. exists []. by rewrite app_nil_r.
    - intros (_ & ws & He & ->). result_inv. by rewrite app_nil_r. }
  destruct (Nat.eqb_spec (length acc) MAX_BATCH_ENTRIES) as [He|He].
  { split; [done|]. intros [? _]. lia. }
  rewrite (eq_refl : encode_entry (k, v) = (b ← encode v; Ok {| write_key := k; bytes := b |})).
  destruct (encode v) as [b|e]; cbn [mbind result_bind].
  2: { split; [done|]. intros (_ & ws & Hw & _). result_inv. }
  rewrite IH by (rewrite length_app; simpl; lia). rewrite length_app. cbn [length].
  split.
  - intros (Hl & ws & -> & ->). split; [lia|]. eexists. split; [done|]. by rewrite <-app_assoc.
  - intros (Hl & ws & Hw & ->). split; [lia|]. result_inv.
    eexists. split; [done|]. by rewrite <-app_assoc.
Qed.

Lemma put_many_Ok c db entries ws :
  collect_writes [] entries = Ok ws → entries ≠ [] →
  put_many c None db entries =
    (Ok tt, transact (max_entries c) (cache_manifest c)
      (drop (length (latest_writes ws) - Nat.min (Z.to_nat (max_entries c)) (length (latest_writes ws)))
        (latest_writes ws)) db).
Proof.
  intros Hc Hne. unfold put_many. rewrite Hc.
  apply collect_writes_Ok in Hc as (_ & bs & Hbs & ->); [|simpl; lia].
  destruct entries as [|e es]; [done|]. cbn [try_map] in Hbs. result_inv.
  cbn [app length Nat.eqb]. rewrite deduplicate_latest_eq, Z2Nat.inj_min, Nat2Z.id. done.
Qed.

(** One put refines one step of the specification. *)
Lemma put_many_step c failure db batch :
  capacity_ok c → cache_inv db → countable_rows db →
  let '(answer, db') := put_many c failure db batch in
  cache_inv db' ∧ countable_rows db' ∧
  lru_put_many c failure (cache_entries db) batch = (answer, cache_entries db').
Proof.
  intros Hcap Hinv Hcount. unfold lru_put_many.
  destruct (collect_writes [] batch) as [ws|e] eqn:Hc; [|by unfold put_many; rewrite Hc].
  destruct batch as [|b batch].
  { unfold put_many. injection Hc as <-. done. }
  destruct ws as [|w ws].
  { apply collect_writes_Ok in Hc as (_ & bs & Hbs & Hnil); [|simpl; lia].
    cbn [app] in Hnil. subst bs. cbn [try_map] in Hbs. by result_inv. }
  destruct failure as [e|]; [unfold put_many; by rewrite Hc|].
  rewrite (put_many_Ok c db (b :: batch) (w :: ws)) by done.
  set (last := latest_writes (w :: ws)). set (kept := drop _ last).
  destruct (transact_spec (max_entries c) (cache_manifest c) kept db) as (Hi & He & _); [done..| |done| |].
  { unfold kept.
    pose proof (latest_writes_nodup (w :: ws)) as Hnd. fold last in Hnd. eapply sublist_NoDup; [exact Hnd|].
    apply fmap_sublist, sublist_drop. }
  { unfold kept. rewrite length_drop. unfold capacity_ok in Hcap. lia. }
  split_and!; [exact Hi| |].
  - unfold countable_rows. apply (f_equal length) in He.
    unfold cache_entries in He at 1. rewrite length_fmap, sort_by_length, length_drop in He.
    unfold capacity_ok in Hcap. lia.
  - do 2 f_equal. rewrite He. symmetry. apply lru_put_trim.
Qed.

(** The database after a sequence of puts, each with the error SQLite may report. *)
Definition run_puts (c : EmbeddingCache) (db : Database)
    (calls : list (option string * list (str * Embedding))) : Database :=
  foldl (λ db call, (put_many c call.1 db call.2).2) db calls.

(** C4. Under any sequence of puts, failed ones included, the cache holds exactly
    what a list of the most recent [max_entries] bindings would hold, in the same
    recency order, and every embedding keeps exactly one provenance row. *)
Theorem cache_refines_lru c db calls :
  capacity_ok c → cache_inv db → countable_rows db →
  cache_inv (run_puts c db calls) ∧
  cache_entries (run_puts c db calls) =
    foldl (λ entries call, (lru_put_many c call.1 entries call.2).2) (cache_entries db) calls.
Proof.
  intros Hcap. unfold run_puts. revert db. induction calls as [|[failure batch] calls IH];
    intros db Hinv Hcount; cbn [foldl fst snd]; [done|].
  pose proof (put_many_step c failure db batch Hcap Hinv Hcount) as Hstep.
  destruct (put_many c failure db batch) as [answer db']. destruct Hstep as (Hi & Hcn & ->).
  by apply IH.
Qed.

Lemma encode_entry_is_ok k v : is_ok (encode_entry (k, v)) = is_ok (from_values v).
Proof. unfold encode_entry, encode. cbn [snd]. by destruct (from_values v). Qed.

(** A put that fails, for an oversized batch, a vector that cannot be
    normalized or an error of the database, leaves the cache as it was; without
    a database error a put succeeds exactly when the batch has at most 4096
    entries and every vector can be normalized. *)
Theorem put_many_error c failure db batch :
  (∀ e db', put_many c failure db batch = (Err e, db') → db' = db) ∧
  ((put_many c None db batch).1 = Ok tt ↔
   length batch ≤ MAX_BATCH_ENTRIES ∧ ∀ k v, (k, v) ∈ batch → is_ok (from_values v) = true).
Proof.
  split.
  - intros e db'. unfold put_many. destruct (collect_writes [] batch) as [ws|?]; [|naive_solver].
    destruct (_ =? _); [done|]. destruct failure; naive_solver.
  - transitivity (∃ ws, collect_writes [] batch = Ok ws).
    { unfold put_many. destruct (collect_writes [] batch) as [ws|e]; [|naive_solver].
      split; [by exists ws|]. intros _. by destruct (_ =? _). }
    transitivity (length batch ≤ MAX_BATCH_ENTRIES ∧ is_ok (try_map encode_entry batch) = true).
    { setoid_rewrite collect_writes_Ok; [|simpl; lia]. simpl.
      destruct (try_map encode_entry batch); naive_solver. }
    rewrite try_map_is_ok. apply and_iff_compat_l. split.
    + intros Hall k v Hin. rewrite <-(encode_entry_is_ok k). by apply Hall.
    + intros Hall [k v] Hin. rewrite encode_entry_is_ok. by apply (Hall k).
Qed.

(** A [get] whose answer is a vector found current provenance and valid bytes. *)
Lemma get_Some c db k v c' :
  get c db k = (Some v, c') →
  c' = c ∧ ∃ row b, select_row db k = Some row ∧ vector row = Some b ∧
    select_provenance db k = current_provenance (cache_manifest c) ∧
    length b = DIMENSIONS * 4 ∧ v = vector_values b ∧ validate_values v = Ok tt.
Proof.
  unfold get. destruct (select_row db k) as [row|]; [|done].
  destruct (vector row) as [b|] eqn:Hb; [|done]. unfold decode.
  destruct (length b =? DIMENSIONS * 4) eqn:Hl; [|done]. cbn [negb].
  destruct (validate_values (vector_values b)) as [[]|] eqn:Hv; [|done]. cbn [is_ok negb].
  destruct (_ || _) eqn:Hp; [done|]. intros [= <- <-]. bool_to_prop.
  split; [by destruct c|]. exists row, b. split_and!; [done|done| |done|done|done].
  generalize dependent (select_provenance db k). intros []; cbn. intros. by subst.
Qed.

Lemma chunks_length_mul {A} n m (l : list A) : 0 < n → length l = m * n → length (chunks n l) = m.
Proof.
  intros Hn. revert l. induction m as [|m IH]; intros l Hl.
  { destruct l; [done|simpl in Hl; lia]. }
  rewrite <-(take_drop n l), chunks_cons by (try done; rewrite length_take; lia).
  simpl. f_equal. apply IH. rewrite length_drop. lia.
Qed.

(** Whatever the file holds, a vector read from the cache has 768 finite
    coordinates and a norm within the tolerance of one, and was written for the
    model, input version and manifest in use. *)
Theorem get_well_typed c db k v c' :
  get c db k = (Some v, c') →
  length v = DIMENSIONS ∧ Forall (λ x, is_finite x = true) v ∧
  SFltb NORM_TOLERANCE (SFabs (SFsub 53 1024 (norm_of v) (f64_of_Z 1))) = false ∧
  select_provenance db k = current_provenance (cache_manifest c).
Proof.
  intros (_ & row & b & _ & _ & Hp & Hl & Hv & Hval)%get_Some. split_and!; [..|done].
  - subst v. unfold vector_values. rewrite length_fmap. apply chunks_length_mul; [lia|done].
  - unfold validate_values in Hval. destruct (existsb _ v) eqn:Hf; [done|].
    apply Forall_forall. intros x Hx. destruct (is_finite x) eqn:Hx'; [done|exfalso].
    assert (existsb (λ v, negb (is_finite v)) v = true) as He; [|congruence].
    apply existsb_exists. exists x. split; [by apply list_elem_of_In|by rewrite Hx'].
  - unfold validate_values in Hval. destruct (existsb _ v); [done|].
    cbv zeta in Hval. destruct (_ || _) eqn:Hc; [done|]. by bool_to_prop.
Qed.

Lemma find_unique {A} (f : A → str) (l : list A) x :
  NoDup (f <$> l) → x ∈ l → find (λ y, f y =s f x) l = Some x.
Proof.
  intros Hnd Hx. destruct (find _ l) as [y|] eqn:Hf.
  - apply find_some in Hf as [Hy He]. bool_to_prop. f_equal.
    apply (elem_of_same_key f l); [done|by apply list_elem_of_In|done|done].
  - apply list_elem_of_In in Hx. eapply find_none in Hf; [|exact Hx].
    rewrite bool_decide_eq_true_2 in Hf; done.
Qed.

(** What a database stores under a key after a batch that binds it and is not
    larger than the capacity. *)
Lemma put_many_stores c db batch ws db' k b :
  capacity_ok c → cache_inv db → countable_rows db →
  collect_writes [] batch = Ok ws → (Z.of_nat (length (latest_writes ws)) ≤ max_entries c)%Z →
  {| write_key := k; bytes := b |} ∈ latest_writes ws →
  put_many c None db batch = (Ok tt, db') →
  (∃ row, select_row db' k = Some row ∧ vector row = Some b) ∧
  select_provenance db' k = current_provenance (cache_manifest c).
Proof.
  intros Hcap Hinv Hcount Hc Hle Hin Hput.
  assert (batch ≠ []) as Hne by (intros ->; injection Hc as <-; set_solver).
  rewrite (put_many_Ok c db batch ws Hc Hne) in Hput.
  unfold capacity_ok in Hcap. rewrite Nat.min_r, Nat.sub_diag, drop_0 in Hput by lia.
  destruct (transact_spec (max_entries c) (cache_manifest c) (latest_writes ws) db)
    as ([Hk Hp Hpk _] & He & Hprov); [done..|by apply latest_writes_nodup|done|done|].
  cbn zeta in *. injection Hput as Hput. rewrite Hput in *. split.
  - assert ((k, Some b) ∈ cache_entries db') as Hent.
    { rewrite He, drop_app_le by (rewrite length_app, length_fmap; lia).
      apply elem_of_app. right. apply (list_elem_of_fmap_2 write_entry) in Hin. done. }
    unfold cache_entries in Hent. apply list_elem_of_fmap in Hent as (row & Hrow & Hr).
    apply elem_of_sort_by in Hr. injection Hrow as -> ->. exists row. split; [|done].
    by apply find_unique.
  - specialize (Hprov _ Hin). unfold select_provenance.
    pose proof (find_unique fst _ _ Hpk Hprov) as Hf. cbn [fst write_key] in Hf. by rewrite Hf.
Qed.

Lemma from_values_length v n : from_values v = Ok n → length n = DIMENSIONS.
Proof.
  intros Hn. unfold from_values in Hn. destruct (_ || _) eqn:Hl; [done|]. bool_to_prop.
  cbv zeta in Hn. destruct (SFleb _ _); [done|]. injection Hn as <-. by rewrite length_fmap.
Qed.

(** A row that holds the bytes of a valid vector, with the current provenance. *)
Lemma get_stored_row c db k row n :
  select_row db k = Some row → vector row = Some (vector_bytes n) →
  select_provenance db k = current_provenance (cache_manifest c) →
  length n = DIMENSIONS → Forall valid_f32 n → validate_values n = Ok tt → get c db k = (Some n, c).
Proof.
  intros Hrow Hvec Hprov Hlen Hvalid Hval. unfold get. rewrite Hrow, Hvec, Hprov. unfold decode.
  rewrite vector_bytes_length, Hlen, Nat.eqb_refl, vector_roundtrip, Hval by done.
  cbn [negb is_ok current_provenance model_revision input_version dimensions normalization
    manifest_column].
  rewrite !bool_decide_eq_true_2 by done. by destruct c.
Qed.

(** A vector put in the cache is read back as the normalized vector: the
    encoding to little-endian bytes loses nothing, the provenance check accepts
    the row, and no miss is counted. *)
Theorem get_after_put c db k v n db' :
  capacity_ok c → cache_inv db → countable_rows db →
  from_values v = Ok n → Forall valid_f32 n → validate_values n = Ok tt →
  put c None db k v = (Ok tt, db') → get c db' k = (Some n, c).
Proof.
  intros Hcap Hinv Hcount Hn Hvalid Hval Hput.
  destruct (put_many_stores c db [(k, v)] [{| write_key := k; bytes := vector_bytes n |}] db' k
    (vector_bytes n)) as [(row & Hrow & Hvec) Hprov]; [done..| | |left|done|].
  { cbn [collect_writes length Nat.eqb]. unfold encode. by rewrite Hn. }
  { unfold capacity_ok in Hcap. simpl. lia. }
  eapply get_stored_row; [done..|by eapply from_values_length|done|done].
Qed.

(** The bytes hashed into a content key determine the model manifest and the
    text: no other text, and no other split into parts, hashes the same input. *)
Theorem content_key_binds manifest manifest' text text' :
  addressable manifest → addressable manifest' → addressable text → addressable text' →
  key_input (key_parts manifest text) = key_input (key_parts manifest' text') →
  manifest = manifest' ∧ text = text'.
Proof.
  intros Hm Hm' Ht Ht' He.
  assert (∀ m t, addressable m → addressable t →
    Forall (λ p, addressable p.1 ∧ addressable p.2) (key_parts m t)) as Hparts.
  { intros m t ? ?. unfold key_parts. repeat constructor; try done;
      by (unfold addressable; vm_compute). }
  apply key_input_inj in He; [|by apply Hparts..].
  unfold key_parts in He. by simplify_eq.
Qed.

(** Opening the cache for writing always leaves the current schema, keeps the
    rows of a file that has it, and otherwise starts empty; queries then find
    the schema ready. *)
Theorem open_schema digest pages default_max limit file c db :
  with_limit digest pages limit file = Ok (c, db) →
  has_current_schema db = true ∧ user_version db = SCHEMA_VERSION ∧
  (1 ≤ max_entries c)%Z ∧ is_ok (open_query digest default_max (Some db)) = true ∧
  (file = Some db ∨ embeddings db = [] ∧ cache_inv db).
Proof.
  unfold with_limit. destruct (limit <? MIN_LIMIT)%Z; [done|].
  set (old := default empty_database file).
  assert (∀ db, has_current_schema (create_tables db) = true) as Hcreate.
  { intros d. unfold has_current_schema. apply andb_true_intro. split; [|done].
    cbn [forallb]. rewrite !bool_decide_eq_true_2; [done|..];
      (unfold tables, create_tables; cbn [sqlite_master]; rewrite filter_app, fmap_app, elem_of_app;
       right; apply (bool_decide_unpack _); vm_compute; exact I). }
  intros H. injection H as <- <-.
  assert (∀ d, has_current_schema d = true → user_version d = SCHEMA_VERSION →
    is_ok (open_query digest default_max (Some d)) = true) as Hquery.
  { intros d Hs Hv. unfold open_query, open_existing. cbn [or_err mbind result_bind].
    by rewrite Hs, Hv. }
  destruct (negb (user_version old =? SCHEMA_VERSION)%Z || negb (has_current_schema old)) eqn:Hreset.
  - assert (user_version (create_tables (drop_tables old)) = SCHEMA_VERSION) as Hv by done.
    split_and!; [apply Hcreate|done|cbn; unfold max_entries_of; lia|by apply Hquery|].
    right. split; [done|]. split; cbn; [constructor|done|constructor|set_solver].
  - bool_to_prop. split_and!; [done|done|cbn; unfold max_entries_of; lia|by apply Hquery|].
    left. unfold old in *. destruct file; [done|]. cbn in *. done.
Qed.

(** ** Witnesses *)

Module EmbeddingCacheExample.

Definition axis (i : nat) : Embedding :=
  replicate i (f32_of_Z 0) ++ f32_of_Z 2 :: replicate (DIMENSIONS - i - 1) (f32_of_Z 0).
Definition unit_axis : Embedding := f32_of_Z 1 :: replicate (DIMENSIONS - 1) (f32_of_Z 0).
Definition cache : EmbeddingCache := from_existing (lit "digest") 16.
Definition db : Database := create_tables empty_database.
Lemma db_inv : cache_inv db.
Proof. split; [constructor|done|constructor|set_solver]. Qed.
Lemma db_count : countable_rows db.
Proof. by vm_compute. Qed.
Lemma cache_capacity : capacity_ok cache.
Proof. by vm_compute. Qed.

Definition calls : list (option string * list (str * Embedding)) :=
  [(None, [(lit "a", axis 0)]); (Some "database is locked"%string, [(lit "b", axis 1)]);
   (None, [(lit "c", axis 2); (lit "d", axis 0); (lit "c", axis 0)]); (None, [])].

Lemma cache_refines_lru_witness :
  cache_inv (run_puts cache db calls) ∧
  (cache_entries (run_puts cache db calls)).*1 = [lit "c"].
Proof.
  destruct (cache_refines_lru cache db calls cache_capacity db_inv db_count) as [Hi He].
  split; [exact Hi|]. rewrite He. vm_compute. reflexivity.
Defined.

Lemma put_many_error_witness :
  put_many cache None db [(lit "a", [])] = (Err "invalid_embedding: expected 768 finite f32 values", db) ∧
  db = db.
Proof.
  assert (put_many cache None db [(lit "a", [])] =
    (Err "invalid_embedding: expected 768 finite f32 values", db)) as He by reflexivity.
  split; [exact He|]. exact (proj1 (put_many_error cache None db [(lit "a", [])]) _ _ He).
Defined.

Definition db_a : Database := (put cache None db (lit "a") (axis 0)).2.

Lemma get_well_typed_witness :
  get cache db_a (lit "a") = (Some unit_axis, cache) ∧ length unit_axis = DIMENSIONS.
Proof.
  assert (get cache db_a (lit "a") = (Some unit_axis, cache)) as Hg by (vm_compute; reflexivity).
  split; [exact Hg|]. exact (proj1 (get_well_typed cache db_a (lit "a") unit_axis cache Hg)).
Defined.

Lemma get_after_put_witness : get cache db_a (lit "a") = (Some unit_axis, cache).
Proof.
  apply (get_after_put cache db (lit "a") (axis 0) unit_axis db_a cache_capacity db_inv db_count).
  - vm_compute. reflexivity.
  - constructor; [reflexivity|]. apply Forall_replicate. reflexivity.
  - vm_compute. reflexivity.
  - vm_compute. reflexivity.
Defined.

Lemma content_key_binds_witness : lit "m" = lit "m" ∧ lit "fn a" = lit "fn a".
Proof. apply content_key_binds; [by vm_compute..|reflexivity]. Defined.

Lemma open_schema_witness :
  ∃ c d, with_limit (lit "digest") 0 CACHE_BYTES (Some empty_database) = Ok (c, d) ∧
    has_current_schema d = true.
Proof.
  eexists _, _. split; [reflexivity|].
  exact (proj1 (open_schema (lit "digest") 0 0 CACHE_BYTES (Some empty_database) _ _ eq_refl)).
Defined.
End EmbeddingCacheExample.
