(* ===== verification/RuntimeConfig.v ===== *)
(** * Inference configuration

    Models [src/src/semantic/runtime_config.rs], the UUID parsing and device
    choice of [runtime_config/cuda_identity.rs], and [Handshake::for_config] of
    [semantic/worker/protocol.rs].  The environment, the TOML and JSON codecs,
    BLAKE3 and the CUDA driver's device list are arguments. *)
From Stdlib Require Import Ascii String ZArith Lia Permutation.
From stdpp Require Import base numbers list gmap strings.
From S2P Require Import Prelude Order Text EmbeddingCache.

Inductive InferenceProvider := Cpu | Cuda.
#[export] Instance provider_eq_dec : EqDecision InferenceProvider.
Proof. solve_decision. Defined.
Definition provider_text (p : InferenceProvider) : str :=
  match p with Cpu => lit "cpu" | Cuda => lit "cuda" end.

Definition DEFAULT_ARENA_BYTES : Z := 10 * 1024 * 1024 * 1024.

Record InferenceConfig := {
  provider : InferenceProvider;
  gpu_uuid : option str;
  model_dir : option str;
  runtime_library : option str;
  cuda_preload_library : option str;
  arena_bytes : Z;
  rerank_model_dir : option str;
  rerank_gpu_uuid : option str;
}.
#[export] Instance config_eq_dec : EqDecision InferenceConfig.
Proof. solve_decision. Defined.

Definition config_default : InferenceConfig :=
  {| provider := Cpu; gpu_uuid := None; model_dir := None; runtime_library := None;
     cuda_preload_library := None; arena_bytes := DEFAULT_ARENA_BYTES;
     rerank_model_dir := None; rerank_gpu_uuid := None |}.

(** [env::var_os]. *)
Abbreviation Environment := (string → option str).

Definition config_path (env : Environment) (is_absolute : str → bool) (join : str → str → str)
    : result str :=
  match env "TRUFFLEPIG_INFERENCE_CONFIG"%string with
  | Some path =>
      if negb (is_absolute path)
      then Err "inference_config_invalid: TRUFFLEPIG_INFERENCE_CONFIG must be absolute"
      else Ok path
  | None =>
      home ← or_err "inference_config_unavailable: HOME is unset" (env "HOME"%string);
      Ok (join (join home (lit ".config/trufflepig")) (lit "inference.toml"))
  end.

Definition or_env (env : Environment) (name : string) (o : option str) : option str :=
  match o with None => env name | Some _ => o end.
Definition apply_environment_defaults (env : Environment) (c : InferenceConfig) : InferenceConfig :=
  {| provider := provider c; gpu_uuid := gpu_uuid c;
     model_dir := or_env env "TRUFFLEPIG_MODEL_DIR" (model_dir c);
     runtime_library := or_env env "ORT_DYLIB_PATH" (runtime_library c);
     cuda_preload_library := or_env env "TRUFFLEPIG_CUDA_PRELOAD_LIBRARY" (cuda_preload_library c);
     arena_bytes := arena_bytes c;
     rerank_model_dir := or_env env "TRUFFLEPIG_RERANK_MODEL_DIR" (rerank_model_dir c);
     rerank_gpu_uuid := rerank_gpu_uuid c |}.

Definition is_some {A} (o : option A) : bool := match o with Some _ => true | None => false end.

Definition validate (c : InferenceConfig) : result unit :=
  if (arena_bytes c =? 0)%Z then Err "inference_config_invalid: arena_bytes must be positive"
  else if bool_decide (provider c = Cuda)
       && match gpu_uuid c with None => true | Some u => u =s [] end
  then Err "inference_config_invalid: cuda requires gpu_uuid"
  else if is_some (rerank_gpu_uuid c) && negb (bool_decide (provider c = Cuda))
  then Err "inference_config_invalid: rerank_gpu_uuid requires the cuda provider"
  else if is_some (rerank_gpu_uuid c) && negb (is_some (rerank_model_dir c))
  then Err "inference_config_invalid: rerank_gpu_uuid requires rerank_model_dir"
  else Ok tt.

Inductive FileRead := FileText (contents : str) | FileNotFound | FileError (e : string).

Definition from_path (env : Environment) (from_toml : str → result InferenceConfig)
    (file : FileRead) : result InferenceConfig :=
  config ← match file with
           | FileText contents => from_toml contents
           | FileNotFound => Ok config_default
           | FileError e => Err e
           end;
  let config := apply_environment_defaults env config in
  _ ← validate config;
  Ok config.

Definition require_model_dir (c : InferenceConfig) : result str :=
  or_err "semantic_unavailable: set model_dir in inference.toml or TRUFFLEPIG_MODEL_DIR" (model_dir c).
Definition require_runtime_library (c : InferenceConfig) : result str :=
  or_err "semantic_unavailable: set runtime_library in inference.toml or ORT_DYLIB_PATH"
    (runtime_library c).
Definition require_rerank_model_dir (c : InferenceConfig) : result str :=
  or_err "rerank_unavailable: set rerank_model_dir in inference.toml or TRUFFLEPIG_RERANK_MODEL_DIR"
    (rerank_model_dir c).
Definition rerank_enabled (c : InferenceConfig) : bool := is_some (rerank_model_dir c).

Definition cuda_visible_devices (c : InferenceConfig) : option str :=
  if negb (bool_decide (provider c = Cuda)) then None
  else
    primary ← gpu_uuid c;
    match rerank_gpu_uuid c with
    | Some rerank => if negb (rerank =s primary) then Some (primary ++ lit "," ++ rerank)
                     else Some primary
    | None => Some primary
    end.

(** ** GPU UUIDs *)

Definition CUDA_UUID_BYTES : nat := 16.
Definition MAX_CUDA_DEVICES : Z := 64.
Record DriverCudaDevice := { ordinal : Z; uuid_bytes : list Z }.

Definition hex_nibble (c : ascii) : option Z :=
  if in_range 48 57 c then Some (bval c - 48)%Z
  else if in_range 97 102 c then Some (bval c - 97 + 10)%Z
  else if in_range 65 70 c then Some (bval c - 65 + 10)%Z
  else None.

(** [str::get(a..b)]. *)
Definition get_range (s : str) (a b : nat) : option str :=
  if (a <=? b) && (b <=? length s) && is_char_boundary s a && is_char_boundary s b
  then Some (take (b - a) (drop a s)) else None.

Definition uuid_error : string := "cuda_unavailable: configured gpu_uuid must be a canonical GPU UUID".

(** The loop over [chunks_exact(2)] of a group. *)
Fixpoint parse_pairs (group : str) : option (list Z) :=
  match group with
  | h :: l :: group =>
      high ← hex_nibble h; low ← hex_nibble l; rest ← parse_pairs group;
      Some (Z.lor (Z.shiftl high 4) low :: rest)
  | _ => Some []
  end.

Fixpoint parse_groups (encoded : str) (lengths : list nat) (offset : nat) (output : list Z)
    : result (nat * list Z) :=
  match lengths with
  | [] => Ok (offset, output)
  | n :: lengths =>
      group ← or_err uuid_error (get_range encoded offset (offset + n));
      pairs ← or_err uuid_error (parse_pairs group);
      let offset := offset + n in
      match lengths with
      | [] => Ok (offset, output ++ pairs)
      | _ =>
          _ ← ensure (bool_decide (encoded !! offset = Some "-"%char)) uuid_error;
          parse_groups encoded lengths (S offset) (output ++ pairs)
      end
  end.

Definition parse_gpu_uuid (input : str) : result (list Z) :=
  prefix ← or_err uuid_error (get_range input 0 4);
  _ ← ensure (to_ascii_lowercase prefix =s lit "gpu-") uuid_error;
  encoded ← or_err uuid_error (get_range input 4 (length input));
  parsed ← parse_groups encoded [8; 4; 4; 4; 12] 0 [];
  _ ← ensure (parsed.1 =? length encoded) uuid_error;
  Ok parsed.2.

Definition resolve_uuid_from_devices (wanted : list Z) (devices : list DriverCudaDevice) : result Z :=
  device ← or_err "cuda_unavailable: configured gpu_uuid is not visible to CUDA"
             (find (λ d, bool_decide (uuid_bytes d = wanted)) devices);
  Ok (ordinal device).
Definition resolve_cuda_uuid (enumerate : result (list DriverCudaDevice)) (wanted : str) : result Z :=
  wanted ← parse_gpu_uuid wanted;
  devices ← enumerate;
  resolve_uuid_from_devices wanted devices.

(** [DriverApi::enumerate] over the driver's answers: [count], then the UUID of
    each ordinal. *)
Definition enumerate (count : result Z) (uuid_of : Z → result (list Z)) : result (list DriverCudaDevice) :=
  count ← count;
  _ ← ensure (negb (count <? 0)%Z) "cuda_unavailable: CUDA driver returned a negative device count";
  _ ← ensure (negb (MAX_CUDA_DEVICES <? count)%Z)
        "cuda_unavailable: CUDA reported devices, maximum supported is 64";
  try_map (λ i, uuid ← uuid_of i; Ok {| ordinal := i; uuid_bytes := uuid |})
    (Z.of_nat <$> seq 0 (Z.to_nat count)).

Definition cuda_device (enumerate : result (list DriverCudaDevice)) (c : InferenceConfig)
    : result (option Z) :=
  if negb (bool_decide (provider c = Cuda)) then Ok None
  else
    wanted ← or_err "cuda requires gpu_uuid" (gpu_uuid c);
    ordinal ← resolve_cuda_uuid enumerate wanted; Ok (Some ordinal).

Definition rerank_cuda_device (enumerate : result (list DriverCudaDevice)) (c : InferenceConfig)
    : result (option Z) :=
  if negb (bool_decide (provider c = Cuda)) then Ok None
  else
    wanted ← or_err "cuda requires gpu_uuid"
               (match rerank_gpu_uuid c with Some u => Some u | None => gpu_uuid c end);
    ordinal ← resolve_cuda_uuid enumerate wanted; Ok (Some ordinal).

(** ** Handshakes *)

Record Handshake := {
  protocol : Z; build : str; handshake_config : str; handshake_model : str;
}.
#[export] Instance handshake_eq_dec : EqDecision Handshake.
Proof. solve_decision. Defined.
Definition PROTOCOL_VERSION : Z := 1.
Definition MODEL_NAME : str := lit "jinaai/jina-embeddings-v2-base-code".
Definition RERANKER_NAME : str := lit "rozgo/bge-reranker-v2-m3".
Definition RERANKER_REVISION : str := lit "fbd57b17b4db111a9d16813bb08b4c804fac18e9".

Section Handshakes.
Context (BUILD_ID : str) (blake3_hex : str → str) (config_to_json : InferenceConfig → str)
  (to_string_lossy : str → str).

Definition fingerprint (c : InferenceConfig) : str := blake3_hex (config_to_json c).
Definition path_text (dir : option str) : str :=
  match dir with Some path => to_string_lossy path | None => [] end.
Definition model_text (c : InferenceConfig) : str :=
  join (lit ":") [MODEL_NAME; MODEL_REVISION; path_text (model_dir c);
    RERANKER_NAME; RERANKER_REVISION; path_text (rerank_model_dir c)].
Definition for_config (c : InferenceConfig) : Handshake :=
  {| protocol := PROTOCOL_VERSION; build := BUILD_ID; handshake_config := fingerprint c;
     handshake_model := blake3_hex (model_text c) |}.
End Handshakes.

(** ** UUID text *)

Definition hex_digit (n : Z) : ascii := if (n <? 10)%Z then chr (48 + n) else chr (87 + n).
Definition hex_text (bytes : list Z) : str :=
  bytes ≫= λ b, [hex_digit (b / 16); hex_digit (b mod 16)].

(** The canonical text of sixteen bytes. *)
Definition gpu_uuid_text (b : list Z) : str :=
  lit "GPU-" ++ join (lit "-") [hex_text (take 4 b); hex_text (take 2 (drop 4 b));
    hex_text (take 2 (drop 6 b)); hex_text (take 2 (drop 8 b)); hex_text (drop 10 b)].

Definition is_byte (b : Z) : Prop := (0 ≤ b < 256)%Z.

Lemma hex_digit_cases n :
  (0 ≤ n < 16)%Z → hex_nibble (hex_digit n) = Some n ∧ is_cont (hex_digit n) = false.
Proof.
  intros Hn. assert (n ∈ seqZ 0 16) as Hin by (apply elem_of_seqZ; lia).
  cbn in Hin. repeat (apply elem_of_cons in Hin as [->|Hin]; [done|]). by apply elem_of_nil in Hin.
Qed.

Lemma nibbles h l : (0 ≤ h < 16)%Z → (0 ≤ l < 16)%Z → Z.lor (Z.shiftl h 4) l = (16 * h + l)%Z.
Proof.
  intros Hh Hl.
  assert (forallb (λ h, forallb (λ l, (Z.lor (Z.shiftl h 4) l =? 16 * h + l)%Z) (seqZ 0 16)) (seqZ 0 16)
    = true) as Hall by reflexivity.
  rewrite forallb_forall in Hall. specialize (Hall h).
  rewrite forallb_forall in Hall. apply Z.eqb_eq, Hall; apply list_elem_of_In, elem_of_seqZ; lia.
Qed.

Lemma uuid_pairs_hex bytes : Forall is_byte bytes → parse_pairs (hex_text bytes) = Some bytes.
Proof.
  induction 1 as [|b bytes Hb _ IH]; [done|]. unfold hex_text. rewrite bind_cons.
  cbn [app parse_pairs]. fold (hex_text bytes). unfold is_byte in Hb.
  destruct (hex_digit_cases (b / 16)) as [-> _];
    [split; [apply Z.div_pos; lia|apply Z.div_lt_upper_bound; lia]|].
  destruct (hex_digit_cases (b mod 16)) as [-> _]; [apply Z.mod_pos_bound; lia|].
  cbn [mbind option_bind]. rewrite IH. cbn [mbind option_bind]. do 2 f_equal.
  rewrite nibbles; [pose proof (Z.div_mod b 16); lia| |by apply Z.mod_pos_bound].
  split; [apply Z.div_pos; lia|apply Z.div_lt_upper_bound; lia].
Qed.

(** A slice between ASCII neighbours. *)
Lemma get_range_app (p g r : str) :
  (∀ c, head (g ++ r) = Some c → is_cont c = false) →
  (∀ c, head r = Some c → is_cont c = false) →
  get_range (p ++ g ++ r) (length p) (length p + length g) = Some g.
Proof.
  intros Hg Hr. unfold get_range.
  assert (∀ a b : str, (∀ c, head b = Some c → is_cont c = false) →
    is_char_boundary (a ++ b) (length a) = true) as Hb.
  { intros a b Hh. unfold is_char_boundary. destruct (Nat.eqb_spec (length a) 0); [done|].
    rewrite lookup_app_r, Nat.sub_diag by lia. destruct b as [|c b]; simpl.
    - rewrite app_nil_r. apply Nat.eqb_refl.
    - by rewrite (Hh c). }
  rewrite (Hb p (g ++ r)) by done. rewrite (app_assoc p g r), <-length_app, (Hb (p ++ g) r) by done.
  rewrite <-app_assoc, !length_app.
  rewrite (proj2 (Nat.leb_le _ _)), (proj2 (Nat.leb_le _ _)) by lia. cbn [andb].
  rewrite drop_app_length. f_equal. apply take_app_length'. lia.
Qed.

Lemma hex_text_length bytes : length (hex_text bytes) = 2 * length bytes.
Proof. induction bytes as [|b bytes IH]; [done|]. unfold hex_text in *. rewrite bind_cons, length_app, IH. simpl. lia. Qed.

Lemma hex_text_head bytes r c :
  Forall is_byte bytes → (∀ c, head r = Some c → is_cont c = false) →
  head (hex_text bytes ++ r) = Some c → is_cont c = false.
Proof.
  destruct 1 as [|b bytes Hb _]; intros Hr; [apply Hr|]. unfold hex_text. rewrite bind_cons. cbn.
  intros [= <-]. apply hex_digit_cases. unfold is_byte in Hb.
  split; [apply Z.div_pos; lia|apply Z.div_lt_upper_bound; lia].
Qed.

(** One group and what follows it. *)
Lemma parse_groups_step p bytes r n lengths output :
  Forall is_byte bytes → n = 2 * length bytes →
  (∀ c, head r = Some c → is_cont c = false) →
  parse_groups (p ++ hex_text bytes ++ r) (n :: lengths) (length p) output =
  match lengths with
  | [] => Ok (length p + n, output ++ bytes)
  | _ =>
      _ ← ensure (bool_decide ((p ++ hex_text bytes ++ r) !! (length p + n) = Some "-"%char)) uuid_error;
      parse_groups (p ++ hex_text bytes ++ r) lengths (S (length p + n)) (output ++ bytes)
  end.
Proof.
  intros Hb -> Hr. cbn [parse_groups]. rewrite <-hex_text_length at 1.
  rewrite get_range_app; [|intros c; by apply hex_text_head|done].
  cbn [or_err mbind result_bind]. rewrite uuid_pairs_hex by done. done.
Qed.

Lemma parse_groups_dash p bytes r n lengths output :
  Forall is_byte bytes → n = 2 * length bytes → lengths ≠ [] →
  parse_groups (p ++ hex_text bytes ++ "-"%char :: r) (n :: lengths) (length p) output =
  parse_groups ((p ++ hex_text bytes ++ ["-"%char]) ++ r) lengths
    (length (p ++ hex_text bytes ++ ["-"%char])) (output ++ bytes).
Proof.
  intros Hb Hn Hl. rewrite parse_groups_step; [|done|done|by intros c [= <-]].
  destruct lengths as [|m lengths]; [done|].
  assert ((p ++ hex_text bytes ++ "-"%char :: r) !! (length p + n) = Some "-"%char) as Hd.
  { rewrite lookup_app_r by lia. rewrite lookup_app_r by (rewrite hex_text_length; lia).
    rewrite hex_text_length, Hn. by replace (_ - _ - _) with 0 by lia. }
  rewrite bool_decide_eq_true_2 by done. cbn [ensure mbind result_bind].
  rewrite <-!app_assoc. cbn [app]. f_equal.
  rewrite !length_app, hex_text_length. simpl. lia.
Qed.

(** GPU UUIDs: the canonical text of any sixteen bytes parses back to them. *)
Theorem gpu_uuid_roundtrip bytes :
  length bytes = CUDA_UUID_BYTES → Forall is_byte bytes →
  parse_gpu_uuid (gpu_uuid_text bytes) = Ok bytes.
Proof.
  intros Hlen Hb. unfold CUDA_UUID_BYTES in Hlen. unfold parse_gpu_uuid, gpu_uuid_text.
  set (g1 := take 4 bytes). set (g2 := take 2 (drop 4 bytes)). set (g3 := take 2 (drop 6 bytes)).
  set (g4 := take 2 (drop 8 bytes)). set (g5 := drop 10 bytes).
  assert (bytes = g1 ++ g2 ++ g3 ++ g4 ++ g5) as Hsplit.
  { unfold g1, g2, g3, g4, g5. rewrite <-(take_drop 4 bytes) at 1. f_equal.
    rewrite <-(take_drop 2 (drop 4 bytes)) at 1. rewrite drop_drop. f_equal.
    rewrite <-(take_drop 2 (drop (4 + 2) bytes)) at 1. rewrite drop_drop. f_equal.
    rewrite <-(take_drop 2 (drop (4 + 2 + 2) bytes)) at 1. rewrite drop_drop. done. }
  assert (length g1 = 4 ∧ length g2 = 2 ∧ length g3 = 2 ∧ length g4 = 2 ∧ length g5 = 6)
    as (L1 & L2 & L3 & L4 & L5).
  { unfold g1, g2, g3, g4, g5. rewrite !length_take, !length_drop, Hlen. done. }
  rewrite Hsplit in Hb |- *. clearbody g1 g2 g3 g4 g5. clear Hsplit Hlen bytes.
  rewrite !Forall_app in Hb. destruct Hb as (B1 & B2 & B3 & B4 & B5).
  set (text := join (lit "-") _).
  assert (text = hex_text g1 ++ "-"%char :: hex_text g2 ++ "-"%char :: hex_text g3 ++
    "-"%char :: hex_text g4 ++ "-"%char :: hex_text g5) as Htext.
  { reflexivity. }
  assert (∀ c, head text = Some c → is_cont c = false) as Hhead.
  { rewrite Htext. intros c. apply hex_text_head; [done|by intros d [= <-]]. }
  assert (get_range (lit "GPU-" ++ text) 0 4 = Some (lit "GPU-")) as ->.
  { apply (get_range_app [] (lit "GPU-") text); [by intros c [= <-]|done]. }
  cbn [or_err mbind result_bind].
  assert (get_range (lit "GPU-" ++ text) 4 (length (lit "GPU-" ++ text)) = Some text) as ->.
  { pose proof (get_range_app (lit "GPU-") text []) as Hg. rewrite app_nil_r in Hg.
    rewrite length_app. by apply Hg. }
  cbn [or_err mbind result_bind ensure]. rewrite bool_decide_eq_true_2 by done.
  cbn [ensure mbind result_bind].
  assert (parse_groups text [8; 4; 4; 4; 12] 0 [] =
    Ok (length text, g1 ++ g2 ++ g3 ++ g4 ++ g5)) as ->.
  2: { cbn [mbind result_bind fst snd]. by rewrite Nat.eqb_refl. }
  rewrite Htext.
  etransitivity; [apply (parse_groups_dash [] g1 _ 8 [4; 4; 4; 12] []); [done|lia|done]|].
  etransitivity; [apply parse_groups_dash; [done|lia|done]|].
  etransitivity; [apply parse_groups_dash; [done|lia|done]|].
  etransitivity; [apply parse_groups_dash; [done|lia|done]|].
  rewrite <-(app_nil_r (hex_text g5)) at 1.
  etransitivity; [apply parse_groups_step; [done|lia|done]|]. cbn [app]. rewrite <-!app_assoc.
  do 2 f_equal. repeat progress (rewrite ?length_app, ?hex_text_length; cbn [length app]). lia.
Qed.

Lemma gpu_uuid_roundtrip_witness :
  parse_gpu_uuid (lit "GPU-00010203-0405-0607-0809-0a0b0c0d0eff") =
    Ok [0; 1; 2; 3; 4; 5; 6; 7; 8; 9; 10; 11; 12; 13; 14; 255]%Z.
Proof.
  apply (gpu_uuid_roundtrip [0; 1; 2; 3; 4; 5; 6; 7; 8; 9; 10; 11; 12; 13; 14; 255]%Z); [reflexivity|].
  repeat constructor; by vm_compute.
Defined.

Example gpu_uuid_forms :
  is_ok (parse_gpu_uuid (lit "gpu-00112233-4455-6677-8899-AABBccddeeff")) = true ∧
  is_ok (parse_gpu_uuid (lit "GPU-00112233-4455-6677-8899-aabbccddeef")) = false ∧
  is_ok (parse_gpu_uuid (lit "GPU-001122334455-6677-8899-aabbccddeeff")) = false ∧
  is_ok (parse_gpu_uuid (lit "GPU-00112233-4455-6677-8899-aabbccddeeff0")) = false ∧
  is_ok (parse_gpu_uuid (lit "00112233-4455-6677-8899-aabbccddeeff")) = false.
Proof. split_and!; reflexivity. Qed.

(** A loaded configuration is valid, and on CUDA the visibility mask lists the
    device of each model. *)
Theorem loaded_config_devices env from_toml file c :
  from_path env from_toml file = Ok c →
  validate c = Ok tt ∧
  (provider c = Cuda → ∃ primary mask, gpu_uuid c = Some primary ∧ cuda_visible_devices c = Some mask ∧
     (","%char ∉ primary → primary ∈ split_char ","%char mask ∧
      ∀ rerank, rerank_gpu_uuid c = Some rerank → ","%char ∉ rerank →
        rerank_enabled c = true ∧ rerank ∈ split_char ","%char mask)).
Proof.
  unfold from_path. intros H. result_inv. destruct x0. cbv zeta in *.
  set (c := apply_environment_defaults env x) in *. split; [done|]. intros Hp.
  unfold cuda_visible_devices. rewrite Hp. cbn [bool_decide negb].
  match goal with Hv : validate c = _ |- _ => revert Hv end. unfold validate.
  destruct (arena_bytes c =? 0)%Z; [done|]. rewrite Hp. cbn [bool_decide andb negb].
  destruct (gpu_uuid c) as [primary|]; [|done]. destruct (primary =s []); [done|].
  destruct (rerank_gpu_uuid c) as [rerank|]; cbn [is_some andb negb].
  - destruct (is_some (rerank_model_dir c)) eqn:Hm; [|done]. intros _.
    exists primary, (if negb (rerank =s primary) then primary ++ lit "," ++ rerank else primary).
    split_and!; [done|cbn; by destruct (rerank =s primary)|]. intros Hc.
    destruct (rerank =s primary) eqn:He; bool_to_prop; cbn [negb].
    + subst rerank. rewrite split_char_single by done. split; [left|].
      intros r [= <-] _. split; [done|left].
    + change (lit "," ++ rerank) with (","%char :: rerank). rewrite split_char_cons by done.
      split; [left|]. intros r [= <-] Hr. split; [done|]. right.
      rewrite split_char_single by done. left.
  - intros _. exists primary, primary. split_and!; [done|done|]. intros Hc.
    rewrite split_char_single by done. split; [left|done].
Qed.
