(* ===== verification/Worker.v ===== *)
(** * The inference worker

    Models [WorkerRuntime] of [src/src/semantic/worker.rs] and [RerankLane] of
    [src/src/semantic/worker/rerank_executor.rs]: two lanes, each with an executor
    thread behind a pair of FIFO channels.  The threads interleave as steps of one
    relation; an executor step takes the command at the front of its channel and
    appends the event it sends.  A crash of a thread drops its channel ends.
    [Instant::now()] and [now_ms()] are arguments, a stream is a number, and
    [write_reply], whose result the code ignores, appends to a log. *)
From Stdlib Require Import Ascii String ZArith Lia Permutation.
From Corelib Require Import SpecFloat.
From stdpp Require Import base numbers list gmap strings.
From S2P Require Import Prelude Order Text Scheduler Admission Timing Frames Ranking.
From S2P Require Import EmbeddingCache RuntimeConfig.

Definition IDLE_UNLOAD : Z := from_secs (10 * 60).

(** ** Requests, replies and connections *)

Inductive WorkerState := NotRunning | Loading | Ready.

Record WorkerStatus := {
  state : WorkerState; status_provider : str; status_gpu_uuid : option str; status_pending : nat;
  status_loaded : bool; config_fingerprint : str; model_fingerprint : str; handshake_match : bool;
  status_error : option string; rerank_loaded : bool; status_rerank_gpu_uuid : option str;
  rerank_error : option string; rerank_pending : nat;
}.

Inductive WorkerReply :=
| ReplyStatus (status : WorkerStatus)
| ReplyEmbeddings (values : list (list spec_float))
| ReplyScores (values : list spec_float)
| ReplyError (message : string).

Record WorkerRequest := { request_handshake : Handshake; request_command : WorkerCommand }.
Record QueuedConnection := {
  q_request : WorkerRequest; q_stream : nat; q_ticket : AdmissionTicket;
}.
Record RunningConnection := {
  r_request : WorkerRequest; r_stream : nat; r_inflight : InflightTicket;
}.

(** [RootIdent for QueuedConnection]. *)
Definition root_id (c : QueuedConnection) : str :=
  match request_command (q_request c) with
  | Embed _ root_id _ _ => root_id
  | Rerank root_id _ _ _ => root_id
  | Status | Stop => []
  end.

(** What the operations share: the admission counters and the replies written. *)
Record World := { admission : AdmissionState; replies : list (nat * WorkerReply) }.
Definition write_reply (stream : nat) (reply : WorkerReply) (w : World) : World :=
  {| admission := admission w; replies := replies w ++ [(stream, reply)] |}.
Definition with_admission (st : AdmissionState) (w : World) : World :=
  {| admission := st; replies := replies w |}.

(** ** Executor threads and their channels *)

Section Executors.
Context {C E R : Type}.

Inductive ExecutorCommand :=
| Load (config : C)
| Execute (connection : RunningConnection)
| Unload
| Shutdown.

Inductive ExecutorEvent :=
| Loaded (outcome : result unit)
| Completed (request : WorkerRequest) (stream : nat) (inflight : InflightTicket) (outcome : result R)
| Unloaded.

(** The engine the thread owns, the commands not yet received, the events not
    yet received, and whether the thread runs. *)
Record Executor := {
  engine : option E; commands : list ExecutorCommand; events : list ExecutorEvent; alive : bool;
}.
Definition spawn : Executor := {| engine := None; commands := []; events := []; alive := true |}.

(** [Sender::send] fails when the thread is gone. *)
Definition send (c : ExecutorCommand) (x : Executor) : option Executor :=
  if alive x then
    Some {| engine := engine x; commands := commands x ++ [c]; events := events x; alive := true |}
  else None.

(** [Receiver::try_recv]. *)
Inductive TryRecv := Received (e : ExecutorEvent) (x : Executor) | Empty | Disconnected.
Definition try_recv (x : Executor) : TryRecv :=
  match events x with
  | e :: es => Received e {| engine := engine x; commands := commands x; events := es; alive := alive x |}
  | [] => if alive x then Empty else Disconnected
  end.

(** One turn of the loop of the thread: [opened] is what opening the engine
    answers, [infer] runs a command on the engine. *)
Definition executor_turn (opened : result E) (infer : option E → WorkerCommand → result R * option E)
    (x : Executor) : Executor :=
  match commands x with
  | Load _ :: cs =>
      match opened with
      | Ok e => {| engine := Some e; commands := cs; events := events x ++ [Loaded (Ok tt)]; alive := true |}
      | Err m => {| engine := engine x; commands := cs; events := events x ++ [Loaded (Err m)];
                    alive := true |}
      end
  | Execute c :: cs =>
      let '(outcome, engine) := infer (engine x) (request_command (r_request c)) in
      {| engine := engine; commands := cs;
         events := events x ++ [Completed (r_request c) (r_stream c) (r_inflight c) outcome];
         alive := true |}
  | Unload :: cs =>
      {| engine := None; commands := cs; events := events x ++ [Unloaded]; alive := true |}
  | Shutdown :: _ => {| engine := None; commands := []; events := events x; alive := false |}
  | [] => x
  end.

(** A panic of the thread drops its engine and its ends of both channels. *)
Definition crash (x : Executor) : Executor :=
  {| engine := None; commands := []; events := events x; alive := false |}.

Definition execute_of (c : ExecutorCommand) : list RunningConnection :=
  match c with Execute r => [r] | _ => [] end.
Definition completed_of (e : ExecutorEvent) : list RunningConnection :=
  match e with
  | Completed request stream inflight _ =>
      [{| r_request := request; r_stream := stream; r_inflight := inflight |}]
  | _ => []
  end.
(** The connections a thread or its channels hold. *)
Definition outstanding (x : Executor) : list RunningConnection :=
  (events x ≫= completed_of) ++ (commands x ≫= execute_of).

(** ** The flags of a lane, common to both *)

Record Lane := {
  loading : bool; loaded : bool; load_error : option string; load_retry : LoadRetry.t;
  active : bool; last_used : option Z; executor : Executor;
}.
Definition lane_default : Lane :=
  {| loading := false; loaded := false; load_error := None; load_retry := LoadRetry.default;
     active := false; last_used := None; executor := spawn |}.

Definition set_executor (x : Executor) (l : Lane) : Lane :=
  {| loading := loading l; loaded := loaded l; load_error := load_error l;
     load_retry := load_retry l; active := active l; last_used := last_used l; executor := x |}.
Definition set_active (b : bool) (l : Lane) : Lane :=
  {| loading := loading l; loaded := loaded l; load_error := load_error l;
     load_retry := load_retry l; active := b; last_used := last_used l; executor := executor l |}.

Definition record_load_failure (error : string) (now : Z) (l : Lane) : Lane :=
  {| loading := false; loaded := false; load_error := Some error;
     load_retry := LoadRetry.failed (load_retry l) now; active := active l;
     last_used := last_used l; executor := executor l |}.

Definition start_loader (exited : string) (config : C) (now : Z) (l : Lane) : Lane :=
  let l := {| loading := true; loaded := loaded l; load_error := load_error l;
              load_retry := load_retry l; active := active l; last_used := last_used l;
              executor := executor l |} in
  match send (Load config) (executor l) with
  | Some x => set_executor x l
  | None => record_load_failure exited now l
  end.

(** The effect of one event on the flags. *)
Definition lane_event (e : ExecutorEvent) (now : Z) (l : Lane) : Lane :=
  match e with
  | Loaded (Ok _) =>
      {| loading := false; loaded := true; load_error := None;
         load_retry := LoadRetry.succeeded (load_retry l); active := active l;
         last_used := Some now; executor := executor l |}
  | Loaded (Err error) => record_load_failure error now l
  | Completed _ _ _ _ =>
      {| loading := loading l; loaded := loaded l; load_error := load_error l;
         load_retry := load_retry l; active := false; last_used := Some now; executor := executor l |}
  | Unloaded =>
      {| loading := loading l; loaded := false; load_error := load_error l;
         load_retry := load_retry l; active := active l; last_used := last_used l;
         executor := executor l |}
  end.

(** [last_used.is_some_and(|used| used.elapsed() >= IDLE_UNLOAD)] and its body. *)
Definition lane_unload (now : Z) (l : Lane) : Lane :=
  match last_used l with
  | Some used =>
      if (IDLE_UNLOAD <=? duration_since now used)%Z then
        {| loading := loading l; loaded := false; load_error := load_error l;
           load_retry := load_retry l; active := active l; last_used := None;
           executor := default (executor l) (send Unload (executor l)) |}
      else l
  | None => l
  end.

(** [if let Some(error) = &self.load_error && !self.load_retry.is_ready(now)]. *)
Definition cooling_error (now : Z) (l : Lane) : option string :=
  match load_error l with
  | Some error => if negb (LoadRetry.is_ready (load_retry l) now) then Some error else None
  | None => None
  end.
End Executors.
Arguments ExecutorCommand : clear implicits.
Arguments ExecutorEvent : clear implicits.
Arguments Executor : clear implicits.
Arguments Lane : clear implicits.

(** ** The reranking lane *)

Section Rerank.
Context {E : Type}.

Definition RerankExecutorCommand : Type := ExecutorCommand InferenceConfig.
Definition RerankExecutorEvent : Type := ExecutorEvent (list spec_float).

Record RerankLane := {
  rerank_config : InferenceConfig; queue : list QueuedConnection;
  rerank : Lane InferenceConfig E (list spec_float);
}.
Definition set_rerank (l : Lane InferenceConfig E (list spec_float)) (r : RerankLane) : RerankLane :=
  {| rerank_config := rerank_config r; queue := queue r; rerank := l |}.
Definition set_queue (q : list QueuedConnection) (r : RerankLane) : RerankLane :=
  {| rerank_config := rerank_config r; queue := q; rerank := rerank r |}.

Definition rerank_start_loader (now : Z) (r : RerankLane) : RerankLane :=
  set_rerank (start_loader "rerank_unavailable: model loader exited" (rerank_config r) now (rerank r)) r.

(** [RerankLane::new], with the clock in case the loader cannot be reached. *)
Definition rerank_new (config : InferenceConfig) (now : Z) : RerankLane :=
  let r := {| rerank_config := config; queue := []; rerank := lane_default |} in
  if rerank_enabled config then rerank_start_loader now r else r.

Definition rerank_enqueue (item : QueuedConnection) (r : RerankLane) : RerankLane :=
  set_queue (queue r ++ [item]) r.

Definition HANDSHAKE_MISMATCH : string := "handshake_mismatch: protocol, build, config, or model changed".
Definition RERANK_LOADING : string := "rerank_loading: reranker is loading".
Definition RERANK_EXITED : string := "rerank_unavailable: rerank executor exited".

(** [RerankLane::admit]: [ms] is [now_ms()], [now] and [later] are readings of [Instant::now()]. *)
Definition rerank_admit (limits : AdmissionLimits) (handshake : Handshake) (handshake_match : bool)
    (command : WorkerCommand) (stream : nat) (ms now later : Z) (r : RerankLane) (w : World)
    : RerankLane * World :=
  match command with
  | Rerank _ query documents deadline_ms =>
      if negb handshake_match then (r, write_reply stream (ReplyError HANDSHAKE_MISMATCH) w)
      else if (deadline_ms <=? ms)%Z then (r, w)
      else
        let bytes := (len query + Frames.raw_input_bytes documents)%Z in
        match try_admit limits (admission w) 1 bytes with
        | Err error => (r, write_reply stream (ReplyError error) w)
        | Ok (ticket, st) =>
            let w := with_admission st w in
            if negb (loaded (rerank r)) then
              let cooling := cooling_error now (rerank r) in
              let r' := if negb (loading (rerank r)) && negb (is_some cooling)
                        then rerank_start_loader later r else r in
              let message := default RERANK_LOADING cooling in
              let w := write_reply stream (ReplyError message) w in
              (r', with_admission (drop_ticket ticket (admission w)) w)
            else
              (rerank_enqueue
                 {| q_request := {| request_handshake := handshake; request_command := command |};
                    q_stream := stream; q_ticket := ticket |} r, w)
        end
  | _ => (r, w)
  end.

Definition rerank_pending_count (r : RerankLane) : nat :=
  length (queue r) + (if active (rerank r) then 1 else 0).

Definition rerank_process_at (item : QueuedConnection) (ms now later : Z) (r : RerankLane) (w : World)
    : RerankLane * World :=
  let dropped := with_admission (drop_ticket (q_ticket item) (admission w)) w in
  match request_command (q_request item) with
  | Rerank _ _ _ deadline_ms =>
      if (deadline_ms <=? ms)%Z then (r, dropped)
      else match cooling_error now (rerank r) with
      | Some error => (r, write_reply (q_stream item) (ReplyError error) dropped)
      | None =>
          if negb (loaded (rerank r)) then
            let r := if negb (loading (rerank r)) then rerank_start_loader later r else r in
            (set_queue (item :: queue r) r, w)
          else
            let '(inflight, st) := begin (q_ticket item) (admission w) in
            let connection := {| r_request := q_request item; r_stream := q_stream item;
                                 r_inflight := inflight |} in
            let w := with_admission st w in
            match send (Execute connection) (executor (rerank r)) with
            | Some x => (set_rerank (set_executor x (set_active true (rerank r))) r, w)
            | None =>
                (set_rerank (record_load_failure RERANK_EXITED later (set_active false (rerank r))) r,
                 write_reply (q_stream item) (ReplyError RERANK_EXITED)
                   (with_admission (drop_inflight inflight (admission w)) w))
            end
      end
  | _ => (r, dropped)
  end.

Definition rerank_poll (ms now later : Z) (r : RerankLane) (w : World) : RerankLane * World :=
  if active (rerank r) || (loading (rerank r) && negb (loaded (rerank r))) then (r, w)
  else match queue r with
  | [] => (r, w)
  | item :: rest => rerank_process_at item ms now later (set_queue rest r) w
  end.

Definition rerank_deadline (c : WorkerCommand) : Z :=
  match c with Rerank _ _ _ deadline_ms => deadline_ms | _ => 0 end.
Definition scores_reply (outcome : result (list spec_float)) : WorkerReply :=
  match outcome with Ok values => ReplyScores values | Err error => ReplyError error end.

(** [drain_queue_with_error]. *)
Definition drain_queue_with_error (r : RerankLane) (w : World) : RerankLane * World :=
  let message := default RERANK_EXITED (load_error (rerank r)) in
  (set_queue [] r,
   foldl (λ w item, with_admission (drop_ticket (q_ticket item) (admission w))
            (write_reply (q_stream item) (ReplyError message) w)) w (queue r)).

(** One turn of the loop of [pump]. *)
Definition pump_one (ms now : Z) (r : RerankLane) (w : World) : RerankLane * World :=
  match try_recv (executor (rerank r)) with
  | Received e x =>
      let r := set_rerank (lane_event e now (set_executor x (rerank r))) r in
      match e with
      | Completed request stream inflight outcome =>
          let w := if (ms <? rerank_deadline (request_command request))%Z
                   then write_reply stream (scores_reply outcome) w else w in
          (r, with_admission (drop_inflight inflight (admission w)) w)
      | _ => (r, w)
      end
  | Empty => (r, w)
  | Disconnected =>
      drain_queue_with_error
        (set_rerank (record_load_failure RERANK_EXITED now (set_active false (rerank r))) r) w
  end.

Definition rerank_unload_idle (now : Z) (r : RerankLane) : RerankLane :=
  if negb (length (queue r) =? 0) || loading (rerank r) || active (rerank r) || negb (loaded (rerank r))
  then r
  else set_rerank (lane_unload now (rerank r)) r.

Definition rerank_shutdown (r : RerankLane) : RerankLane :=
  set_rerank (set_executor (default (executor (rerank r)) (send Shutdown (executor (rerank r))))
    (rerank r)) r.

(** [rerank_inference_loop]: running a command on the engine. *)
Definition rerank_infer (score : E → str → list str → result (list spec_float) * E)
    (engine : option E) (command : WorkerCommand) : result (list spec_float) * option E :=
  match engine, command with
  | Some e, Rerank _ query documents _ => let '(outcome, e) := score e query documents in (outcome, Some e)
  | None, _ => (Err "rerank_unavailable: engine unavailable", None)
  | Some e, _ => (Err "rerank_unavailable: invalid inference command", Some e)
  end.

Record RerankStatusFields := {
  field_loaded : bool; field_gpu_uuid : option str; field_error : option string; field_pending : nat;
}.
Definition rerank_gpu (c : InferenceConfig) : option str :=
  if rerank_enabled c
  then match rerank_gpu_uuid c with Some u => Some u | None => gpu_uuid c end
  else None.
Definition status_fields (r : RerankLane) : RerankStatusFields :=
  {| field_loaded := loaded (rerank r); field_gpu_uuid := rerank_gpu (rerank_config r);
     field_error := load_error (rerank r); field_pending := rerank_pending_count r |}.
End Rerank.
Arguments RerankLane : clear implicits.

(** ** The worker *)

Section Worker.
Context {E F : Type} (limits : AdmissionLimits) (not_running : InferenceConfig → WorkerStatus).

Record WorkerRuntime := {
  config : InferenceConfig; cache_dir : str; worker_handshake : Handshake;
  scheduler : FairScheduler QueuedConnection; background_roots : gset str;
  embed : Lane (InferenceConfig * str) E (list Embedding);
  rerank_lane : RerankLane F; stopping : bool;
}.
Record System := { runtime : WorkerRuntime; world : World }.

Definition set_scheduler (s : FairScheduler QueuedConnection) (t : WorkerRuntime) : WorkerRuntime :=
  {| config := config t; cache_dir := cache_dir t; worker_handshake := worker_handshake t;
     scheduler := s; background_roots := background_roots t; embed := embed t;
     rerank_lane := rerank_lane t; stopping := stopping t |}.
Definition set_roots (b : gset str) (t : WorkerRuntime) : WorkerRuntime :=
  {| config := config t; cache_dir := cache_dir t; worker_handshake := worker_handshake t;
     scheduler := scheduler t; background_roots := b; embed := embed t;
     rerank_lane := rerank_lane t; stopping := stopping t |}.
Definition set_embed (l : Lane (InferenceConfig * str) E (list Embedding)) (t : WorkerRuntime)
    : WorkerRuntime :=
  {| config := config t; cache_dir := cache_dir t; worker_handshake := worker_handshake t;
     scheduler := scheduler t; background_roots := background_roots t; embed := l;
     rerank_lane := rerank_lane t; stopping := stopping t |}.
Definition set_rerank_lane (r : RerankLane F) (t : WorkerRuntime) : WorkerRuntime :=
  {| config := config t; cache_dir := cache_dir t; worker_handshake := worker_handshake t;
     scheduler := scheduler t; background_roots := background_roots t; embed := embed t;
     rerank_lane := r; stopping := stopping t |}.
Definition set_stopping (t : WorkerRuntime) : WorkerRuntime :=
  {| config := config t; cache_dir := cache_dir t; worker_handshake := worker_handshake t;
     scheduler := scheduler t; background_roots := background_roots t; embed := embed t;
     rerank_lane := rerank_lane t; stopping := true |}.

Definition runtime_new (c : InferenceConfig) (cache : str) (h : Handshake) (now : Z) : WorkerRuntime :=
  {| config := c; cache_dir := cache; worker_handshake := h; scheduler := scheduler_default;
     background_roots := ∅; embed := lane_default; rerank_lane := rerank_new c now; stopping := false |}.

Definition status (t : WorkerRuntime) (matching : bool) : WorkerStatus :=
  let fields := status_fields (rerank_lane t) in
  {| state := if loading (embed t) then Loading else if loaded (embed t) then Ready else Loading;
     status_provider := provider_text (provider (config t)); status_gpu_uuid := gpu_uuid (config t);
     status_pending := pending (scheduler t) + (if active (embed t) then 1 else 0);
     status_loaded := loaded (embed t); config_fingerprint := handshake_config (worker_handshake t);
     model_fingerprint := handshake_model (worker_handshake t); handshake_match := matching;
     status_error := load_error (embed t); rerank_loaded := field_loaded fields;
     status_rerank_gpu_uuid := field_gpu_uuid fields; rerank_error := field_error fields;
     rerank_pending := field_pending fields |}.

Definition ROOT_BUSY : string := "semantic_root_busy: one outstanding batch per root".

(** [handle_request]: a request the reader could not decode is its error text. *)
Definition handle_request (stream : nat) (request : result WorkerRequest) (ms now later : Z) (t : WorkerRuntime)
    (w : World) : WorkerRuntime * World :=
  match request with
  | Err error => (t, write_reply stream (ReplyError ("protocol: " ++ error)%string) w)
  | Ok request =>
      let matching := bool_decide (request_handshake request = worker_handshake t) in
      match request_command request with
      | Status => (t, write_reply stream (ReplyStatus (status t matching)) w)
      | Stop => (set_stopping t, write_reply stream (ReplyStatus (not_running (config t))) w)
      | Embed class root_id texts deadline_ms =>
          if negb matching then (t, write_reply stream (ReplyError HANDSHAKE_MISMATCH) w)
          else if bool_decide (class = Background) && bool_decide (root_id ∈ background_roots t)
          then (t, write_reply stream (ReplyError ROOT_BUSY) w)
          else
            match try_admit limits (admission w) (Z.of_nat (length texts)) (Frames.raw_input_bytes texts) with
            | Err error => (t, write_reply stream (ReplyError error) w)
            | Ok (ticket, st) =>
                let t := if bool_decide (class = Background)
                         then set_roots ({[root_id]} ∪ background_roots t) t else t in
                let queued :=
                  {| q_request := {| request_handshake := worker_handshake t;
                                     request_command := Embed class root_id texts deadline_ms |};
                     q_stream := stream; q_ticket := ticket |} in
                (set_scheduler (push Worker.root_id (scheduler t) class queued) t, with_admission st w)
            end
      | Rerank root_id query documents deadline_ms =>
          let '(r, w) := rerank_admit limits (worker_handshake t) matching
            (Rerank root_id query documents deadline_ms) stream ms now later (rerank_lane t) w in
          (set_rerank_lane r t, w)
      end
  end.

Definition embed_start_loader (now : Z) (t : WorkerRuntime) : WorkerRuntime :=
  set_embed (start_loader "semantic_worker: model loader exited" (config t, cache_dir t) now (embed t)) t.

(** [self.background_roots.remove(&root_id)] for a background batch. *)
Definition release_root (class : RequestClass) (root : str) (t : WorkerRuntime) : WorkerRuntime :=
  if bool_decide (class = Background) then set_roots (background_roots t ∖ {[root]}) t else t.

Definition process_at (item : QueuedConnection) (ms now : Z) (t : WorkerRuntime) (w : World)
    : WorkerRuntime * World :=
  let dropped := with_admission (drop_ticket (q_ticket item) (admission w)) w in
  match request_command (q_request item) with
  | Embed class root _ deadline_ms =>
      if (deadline_ms <=? ms)%Z then (release_root class root t, dropped)
      else match cooling_error now (embed t) with
      | Some error => (release_root class root t, write_reply (q_stream item) (ReplyError error) dropped)
      | None =>
          if negb (loaded (embed t)) then
            let t := if negb (loading (embed t)) then embed_start_loader now t else t in
            (set_scheduler (push Worker.root_id (scheduler t) class item) t, w)
          else
            let '(inflight, st) := begin (q_ticket item) (admission w) in
            let connection := {| r_request := q_request item; r_stream := q_stream item;
                                 r_inflight := inflight |} in
            let w := with_admission st w in
            match send (Execute connection) (executor (embed t)) with
            | Some x => (set_embed (set_executor x (set_active true (embed t))) t, w)
            | None =>
                (release_root class root (set_embed (set_active false (embed t)) t),
                 with_admission (drop_inflight inflight (admission w)) w)
            end
      end
  | _ => (t, dropped)
  end.

Definition unload_idle (now : Z) (t : WorkerRuntime) : WorkerRuntime :=
  if negb (pending (scheduler t) =? 0) || loading (embed t) || active (embed t) || negb (loaded (embed t))
  then t
  else set_embed (lane_unload now (embed t)) t.

Definition embed_completion (c : WorkerCommand) : str * Z * RequestClass :=
  match c with
  | Embed class root_id _ deadline_ms => (root_id, deadline_ms, class)
  | Status | Stop | Rerank _ _ _ _ => ([], 0%Z, Query)
  end.
Definition embeddings_reply (outcome : result (list Embedding)) : WorkerReply :=
  match outcome with Ok values => ReplyEmbeddings values | Err error => ReplyError error end.

(** One turn of the loop of [poll_executor]. *)
Definition poll_one (ms now : Z) (t : WorkerRuntime) (w : World) : WorkerRuntime * World :=
  match try_recv (executor (embed t)) with
  | Received e x =>
      let t := set_embed (lane_event e now (set_executor x (embed t))) t in
      match e with
      | Completed request stream inflight outcome =>
          let '(root, deadline_ms, class) := embed_completion (request_command request) in
          let t := release_root class root t in
          let w := if (ms <? deadline_ms)%Z then write_reply stream (embeddings_reply outcome) w else w in
          (t, with_admission (drop_inflight inflight (admission w)) w)
      | _ => (t, w)
      end
  | Empty | Disconnected => (t, w)
  end.

(** [inference_loop]: running a command on the engine. *)
Definition embed_infer (embed_batch : E → list str → result (list Embedding) * E)
    (engine : option E) (command : WorkerCommand) : result (list Embedding) * option E :=
  match engine, command with
  | Some e, Embed _ _ texts _ => let '(outcome, e) := embed_batch e texts in (outcome, Some e)
  | None, _ => (Err "semantic_worker: engine unavailable", None)
  | Some e, _ => (Err "semantic_worker: invalid inference command", Some e)
  end.

(** The dispatch of the run loop: when a request may be taken, and taking it. *)
Definition dispatch (ms now : Z) (t : WorkerRuntime) (w : World) : WorkerRuntime * World :=
  if negb (stopping t) && negb (active (embed t)) && (negb (loading (embed t)) || loaded (embed t)) then
    match pop (scheduler t) with
    | Some (item, s) => process_at item ms now (set_scheduler s t) w
    | None => (t, w)
    end
  else (t, w).

(** The loops of [poll_executor] and [pump]: the [i]-th turn reads the clocks
    [clock i]; every turn but the last takes an event, so the events bound them. *)
Fixpoint poll_events (fuel : nat) (clock : nat → Z * Z) (t : WorkerRuntime) (w : World)
    : WorkerRuntime * World :=
  match fuel with
  | 0 => (t, w)
  | S fuel =>
      let '(t, w) := poll_one (clock 0).1 (clock 0).2 t w in
      poll_events fuel (λ i, clock (S i)) t w
  end.
Definition poll_executor (clock : nat → Z * Z) (t : WorkerRuntime) (w : World) : WorkerRuntime * World :=
  poll_events (S (length (events (executor (embed t))))) clock t w.

Fixpoint pump_events (fuel : nat) (clock : nat → Z) (now : Z) (r : RerankLane F) (w : World)
    : RerankLane F * World :=
  match fuel with
  | 0 => (r, w)
  | S fuel =>
      let '(r, w) := pump_one (clock 0) now r w in
      pump_events fuel (λ i, clock (S i)) now r w
  end.
Definition pump (clock : nat → Z) (now : Z) (r : RerankLane F) (w : World) : RerankLane F * World :=
  pump_events (S (length (events (executor (rerank r))))) clock now r w.

(** The lifted operations of the rerank lane. *)
Definition on_rerank (f : RerankLane F → World → RerankLane F * World) (t : WorkerRuntime) (w : World)
    : WorkerRuntime * World :=
  let '(r, w) := f (rerank_lane t) w in (set_rerank_lane r t, w).

(** The requests whose frames have been read, each with its clock readings. *)
Record ParsedRequest := {
  parsed_stream : nat; parsed_request : result WorkerRequest; parsed_ms : Z; parsed_now : Z; parsed_later : Z;
}.
Definition handle_parsed (requests : list ParsedRequest) (t : WorkerRuntime) (w : World)
    : WorkerRuntime * World :=
  foldl (λ '(t, w) q,
    handle_request (parsed_stream q) (parsed_request q) (parsed_ms q) (parsed_now q) (parsed_later q) t w)
    (t, w) requests.

Record IterationClock := {
  poll_clock : nat → Z * Z; pump_clock : nat → Z; pump_now : Z; dispatch_ms : Z; dispatch_now : Z;
  rerank_ms : Z; rerank_now : Z; rerank_later : Z; unload_now : Z; rerank_unload_now : Z;
}.

(** One iteration of the loop of [run], apart from accepting sockets. *)
Definition run_iteration (requests : list ParsedRequest) (clock : IterationClock) (t : WorkerRuntime)
    (w : World) : WorkerRuntime * World :=
  let '(t, w) := handle_parsed requests t w in
  let '(t, w) := poll_executor (poll_clock clock) t w in
  let '(t, w) := on_rerank (pump (pump_clock clock) (pump_now clock)) t w in
  let '(t, w) := dispatch (dispatch_ms clock) (dispatch_now clock) t w in
  let '(t, w) :=
    if negb (stopping t)
    then on_rerank (rerank_poll (rerank_ms clock) (rerank_now clock) (rerank_later clock)) t w
    else (t, w) in
  let t := unload_idle (unload_now clock) t in
  (set_rerank_lane (rerank_unload_idle (rerank_unload_now clock) (rerank_lane t)) t, w).

(** Accepting a socket: a reader thread is started while fewer than
    [MAX_FRAME_READERS] run. *)
Definition MAX_FRAME_READERS : nat := 64.
Definition accept (stream readers : nat) (w : World) : nat * World :=
  if readers <? MAX_FRAME_READERS then (S readers, w)
  else (readers, write_reply stream (ReplyError "semantic_admission: too many frame readers") w).

(** ** Interleavings *)

Definition streams_of (waiting : list QueuedConnection) (running : list RunningConnection) : list nat :=
  (q_stream <$> waiting) ++ (r_stream <$> running).
Definition waiting_connections (t : WorkerRuntime) : list QueuedConnection :=
  items (scheduler t) ++ queue (rerank_lane t).
Definition running_connections (t : WorkerRuntime) : list RunningConnection :=
  outstanding (executor (embed t)) ++ outstanding (executor (rerank (rerank_lane t))).
Definition live_streams (s : System) : list nat :=
  (replies (world s)).*1 ++
  streams_of (waiting_connections (runtime s)) (running_connections (runtime s)).

Definition apply (f : WorkerRuntime → World → WorkerRuntime * World) (s : System) : System :=
  let '(t, w) := f (runtime s) (world s) in {| runtime := t; world := w |}.
Definition pure (f : WorkerRuntime → WorkerRuntime) (t : WorkerRuntime) (w : World)
    : WorkerRuntime * World := (f t, w).

(** The connections lost with a thread: their tickets are dropped. *)
Definition crash_world {C' E' R'} (x : Executor C' E' R') (w : World) : World :=
  foldl (λ w c, with_admission (drop_inflight (r_inflight c) (admission w)) w) w
    (commands x ≫= execute_of).

Definition on_embed_executor
    (f : Executor (InferenceConfig * str) E (list Embedding) →
         Executor (InferenceConfig * str) E (list Embedding)) (t : WorkerRuntime) : WorkerRuntime :=
  set_embed (set_executor (f (executor (embed t))) (embed t)) t.
Definition on_rerank_executor
    (f : Executor InferenceConfig F (list spec_float) → Executor InferenceConfig F (list spec_float))
    (t : WorkerRuntime) : WorkerRuntime :=
  set_rerank_lane (set_rerank (set_executor (f (executor (rerank (rerank_lane t))))
    (rerank (rerank_lane t))) (rerank_lane t)) t.

(** One step of the worker thread, of an executor thread, or a crash of one.  A
    new stream is none the worker has answered or holds. *)
Inductive worker_step : System → System → Prop :=
| StepRequest stream request ms now later s :
    stream ∉ live_streams s →
    worker_step s (apply (handle_request stream request ms now later) s)
| StepPoll ms now s : worker_step s (apply (poll_one ms now) s)
| StepPump ms now s : worker_step s (apply (on_rerank (pump_one ms now)) s)
| StepDispatch ms now s : worker_step s (apply (dispatch ms now) s)
| StepRerankPoll ms now later s : worker_step s (apply (on_rerank (rerank_poll ms now later)) s)
| StepUnload now s : worker_step s (apply (pure (unload_idle now)) s)
| StepRerankUnload now s :
    worker_step s (apply (on_rerank (λ r w, (rerank_unload_idle now r, w))) s)
| StepInference opened embed_batch s :
    alive (executor (embed (runtime s))) = true →
    worker_step s (apply (pure (on_embed_executor (executor_turn opened (embed_infer embed_batch)))) s)
| StepRerankInference opened score s :
    alive (executor (rerank (rerank_lane (runtime s)))) = true →
    worker_step s (apply (pure (on_rerank_executor (executor_turn opened (rerank_infer score)))) s)
| StepCrash s :
    alive (executor (embed (runtime s))) = true →
    worker_step s (apply (λ t w, (on_embed_executor crash t, crash_world (executor (embed t)) w)) s)
| StepRerankCrash s :
    alive (executor (rerank (rerank_lane (runtime s)))) = true →
    worker_step s (apply (λ t w, (on_rerank_executor crash t,
      crash_world (executor (rerank (rerank_lane t))) w)) s).

Definition worker_start (c : InferenceConfig) (cache : str) (h : Handshake) (now : Z) : System :=
  {| runtime := runtime_new c cache h now;
     world := {| admission := admission_default; replies := [] |} |}.

Definition worker_reachable (s : System) : Prop :=
  ∃ c cache h now, rtc worker_step (worker_start c cache h now) s.
End Worker.
Arguments WorkerRuntime : clear implicits.
Arguments System : clear implicits.
