(* ===== verification/WorkerSafety.v ===== *)
(** * Safety of the inference worker

    Proofs about [Worker]: in every interleaving each executor holds at most one
    batch and only while its engine is loaded, the worker refines a ledger of
    connections that answers each at most once and counts every live ticket,
    and the busy roots are those of outstanding background batches. *)
From Stdlib Require Import Ascii String ZArith Lia Permutation.
From Corelib Require Import SpecFloat.
From stdpp Require Import base numbers list gmap strings relations.
From S2P Require Import Prelude Order Text Scheduler Admission Timing Frames Ranking.
From S2P Require Import EmbeddingCache RuntimeConfig Worker.

(** ** The protocol of one lane *)

Inductive Token := TLoad | TExec | TUnload | TShutdown.
#[export] Instance token_eq_dec : EqDecision Token.
Proof. solve_decision. Defined.

(** Too many tokens for the state. *)
Ltac count_tokens Ht :=
  exfalso; apply (f_equal length) in Ht; cbn in Ht; rewrite ?length_app in Ht; cbn in Ht; lia.

Section LaneProtocol.
Context {C E R : Type}.
Implicit Types (l : Lane C E R) (x : Executor C E R).

Definition command_token (c : ExecutorCommand C) : Token :=
  match c with Load _ => TLoad | Execute _ => TExec | Unload => TUnload | Shutdown => TShutdown end.
Definition event_token (e : ExecutorEvent R) : Token :=
  match e with Loaded _ => TLoad | Completed _ _ _ _ => TExec | Unloaded => TUnload end.
(** What is on the way: answers the lane has not seen, then commands not yet run. *)
Definition tokens x : list Token := (event_token <$> events x) ++ (command_token <$> commands x).

(** A loaded lane has an engine and at most the batch it is waiting for; a
    loading lane waits for one load, perhaps behind an unload; any other lane
    waits at most for an unload. *)
Inductive lane_state l : Prop :=
| LaneLoaded :
    loaded l = true → loading l = false → is_Some (engine (executor l)) →
    tokens (executor l) = (if active l then [TExec] else []) → lane_state l
| LaneLoading :
    loaded l = false → loading l = true → active l = false →
    (tokens (executor l) = [TLoad] ∨ tokens (executor l) = [TUnload; TLoad]) →
    (∀ u, Loaded (Ok u) ∈ events (executor l) → is_Some (engine (executor l))) → lane_state l
| LaneIdle :
    loaded l = false → loading l = false → active l = false →
    (tokens (executor l) = [] ∨ tokens (executor l) = [TUnload]) → lane_state l.

Definition lane_ok l : Prop :=
  if alive (executor l) then lane_state l else commands (executor l) = [].

Lemma lane_default_ok : lane_ok (@lane_default C E R).
Proof. by apply LaneIdle; [..|left]. Qed.

Lemma start_loader_ok exited c now l :
  lane_ok l → loaded l = false → loading l = false → lane_ok (start_loader exited c now l).
Proof.
  unfold lane_ok, start_loader, send. cbn [executor]. destruct (alive (executor l)) eqn:Ha.
  - intros [H1|H1|H1 H2 H3 Ht] Hl Hg; [congruence..|]. apply LaneLoading; try done.
    + unfold tokens in *. cbn [set_executor executor events commands] in *.
      rewrite fmap_app, app_assoc. destruct Ht as [-> | ->]; auto.
    + cbn [set_executor executor events engine]. intros u Hin. exfalso.
      unfold tokens in Ht. apply (list_elem_of_fmap_2 event_token) in Hin. cbn in Hin.
      destruct Ht as [Ht|Ht]; apply (f_equal (TLoad ∈.)) in Ht;
        (assert (TLoad ∈ (event_token <$> events (executor l)) ++ (command_token <$> commands (executor l)))
          as Hin' by set_solver); rewrite Ht in Hin'; set_solver.
  - cbn. by rewrite Ha.
Qed.

Lemma lane_event_ok e x now l :
  try_recv (executor l) = Received e x → lane_ok l → lane_ok (lane_event e now (set_executor x l)).
Proof.
  unfold try_recv, lane_ok. destruct (events (executor l)) as [|e' es] eqn:Hev.
  { by destruct (alive (executor l)). }
  intros He. injection He as -> <-. assert (executor (lane_event e now (set_executor {| engine := engine (executor l);
    commands := commands (executor l); events := es; alive := alive (executor l) |} l)) =
    {| engine := engine (executor l); commands := commands (executor l); events := es;
       alive := alive (executor l) |}) as Hx by (by destruct e as [[]| |]).
  rewrite Hx. cbn [alive]. destruct (alive (executor l)); [|done].
  intros [H1 H2 H3 Ht|H1 H2 H3 Ht Hok|H1 H2 H3 Ht]; unfold tokens in Ht; rewrite Hev in Ht;
    rewrite fmap_cons in Ht; cbn [app] in Ht.
  - destruct (active l) eqn:Hact; [|done]. injection Ht as Ht1 Ht2. destruct e; try done.
    apply LaneLoaded; cbn; [done..|]. unfold tokens. cbn. exact Ht2.
  - destruct Ht as [Ht|Ht]; injection Ht as Ht1 Ht2; destruct e as [[]| |]; try done.
    + apply LaneLoaded; cbn; [done|done| |by rewrite H3].
      apply (Hok a). rewrite Hev. left.
    + by apply LaneIdle; cbn; [..|left].
    + apply LaneLoading; cbn; [done..|by left|]. intros u Hu. apply (Hok u). rewrite Hev. by right.
  - destruct Ht as [Ht|Ht]; [done|]. injection Ht as Ht1 Ht2. destruct e as [[]| |]; try done.
    by apply LaneIdle; cbn; [..|left].
Qed.

Lemma executor_turn_alive opened infer x :
  (∀ c, c ∈ commands x → command_token c ≠ TShutdown) → alive x = true →
  alive (executor_turn opened infer x) = true ∧ tokens (executor_turn opened infer x) = tokens x ∧
  outstanding (executor_turn opened infer x) = outstanding x.
Proof.
  intros Hns Ha. unfold executor_turn, tokens, outstanding.
  destruct (commands x) as [|[cfg|c| |] cs] eqn:Hc; cbn; rewrite ?Hc; [done|..].
  - destruct opened; cbn; rewrite fmap_app, bind_app, <-!app_assoc; done.
  - destruct (infer _ _) as [o g]. cbn. rewrite fmap_app, bind_app, <-!app_assoc. by destruct c.
  - cbn. rewrite fmap_app, bind_app, <-!app_assoc. done.
  - by destruct (Hns Shutdown); [left|].
Qed.

(** A running lane never holds a shutdown. *)
Lemma lane_state_no_shutdown l c :
  lane_state l → c ∈ commands (executor l) → command_token c ≠ TShutdown.
Proof.
  intros Hl Hc Hs. assert (TShutdown ∈ tokens (executor l)) as Hin.
  { unfold tokens. apply elem_of_app. right. rewrite <-Hs. by apply list_elem_of_fmap_2. }
  destruct Hl as [_ _ _ Ht|_ _ _ [Ht|Ht] _|_ _ _ [Ht|Ht]]; rewrite Ht in Hin;
    [destruct (active l)|..]; set_solver.
Qed.

Lemma executor_turn_ok opened infer l :
  (∀ e c, is_Some (infer (Some e) c).2) → alive (executor l) = true → lane_ok l →
  lane_ok (set_executor (executor_turn opened infer (executor l)) l).
Proof.
  intros Hinfer Ha. unfold lane_ok. rewrite Ha. intros Hl.
  destruct (executor_turn_alive opened infer (executor l)) as (Ha' & Ht' & _); [|done|].
  { intros c. by apply lane_state_no_shutdown. }
  cbn [set_executor executor]. rewrite Ha'.
  destruct Hl as [H1 H2 [e He] Ht|H1 H2 H3 Ht Hok|H1 H2 H3 Ht].
  - apply LaneLoaded; cbn; [done..| |by rewrite Ht']. unfold executor_turn, tokens in *.
    destruct (commands (executor l)) as [|c cs]; [by rewrite He|].
    destruct (events (executor l)); cbn in Ht; [|destruct (active l); count_tokens Ht].
    destruct (active l); [|done]. injection Ht as Ht1 Ht2. destruct c as [|c| |]; try done.
    rewrite He. specialize (Hinfer e (request_command (r_request c))).
    by destruct (infer _ _).
  - apply LaneLoading; cbn; [done..|by rewrite Ht'|]. intros u. clear Ht'.
    unfold executor_turn, tokens in *.
    destruct (commands (executor l)) as [|[cfg|c| |] cs]; [apply Hok|..]; cbn.
    + destruct opened; cbn; [by eauto|]. intros [Hin|Hin]%elem_of_app; [by apply (Hok u)|set_solver].
    + destruct (events (executor l)) as [|e1 [|e2 es]]; cbn in Ht; destruct Ht as [Ht|Ht];
        try done; count_tokens Ht.
    + destruct (events (executor l)) as [|e1 [|e2 es]]; cbn in *; destruct Ht as [Ht|Ht];
        try done; try (count_tokens Ht); set_solver.
    + destruct (events (executor l)) as [|e1 [|e2 es]]; cbn in Ht; destruct Ht as [Ht|Ht];
        try done; count_tokens Ht.
  - apply LaneIdle; cbn; [done..|by rewrite Ht'].
Qed.

Lemma lane_unload_ok now l :
  lane_ok l → loading l = false → active l = false → loaded l = true → lane_ok (lane_unload now l).
Proof.
  intros Hl Hg Hact Hload. unfold lane_unload. destruct (last_used l); [|done].
  destruct (IDLE_UNLOAD <=? _)%Z; [|done]. unfold lane_ok, send in *. cbn [executor].
  destruct (alive (executor l)) eqn:Ha; [|cbn; by rewrite Ha]. cbn [default alive].
  destruct Hl as [H1 H2 H3 Ht|?|?]; [|congruence..]. rewrite Hact in Ht.
  apply LaneIdle; cbn; [done..|]. right. unfold tokens in *. cbn.
  rewrite fmap_app, app_assoc, Ht. done.
Qed.

Lemma execute_ok c x l :
  lane_ok l → active l = false → loaded l = true → send (Execute c) (executor l) = Some x →
  lane_ok (set_executor x (set_active true l)).
Proof.
  unfold lane_ok, send. intros Hl Hact Hload. destruct (alive (executor l)) eqn:Ha; [|done].
  intros [= <-]. cbn. destruct Hl as [H1 H2 H3 Ht|?|?]; [|congruence..]. rewrite Hact in Ht.
  apply LaneLoaded; cbn; [done..|]. unfold tokens in *. cbn. by rewrite fmap_app, app_assoc, Ht.
Qed.

(** A lane whose thread is gone constrains nothing but its channel. *)
Lemma dead_lane_ok l l' :
  alive (executor l) = false → lane_ok l → executor l' = executor l → lane_ok l'.
Proof. unfold lane_ok. intros Ha Hl ->. by rewrite Ha in *. Qed.

Lemma crash_ok l : lane_ok (set_executor (crash (executor l)) l).
Proof. done. Qed.
End LaneProtocol.

(** ** The ledger of connections: an abstract specification *)

Record Ledger := MkLedger {
  l_admission : AdmissionState; l_replies : list (nat * WorkerReply);
  l_waiting : list QueuedConnection; l_running : list RunningConnection;
}.

Definition started_connection (c : QueuedConnection) (a : AdmissionState) : RunningConnection :=
  {| r_request := q_request c; r_stream := q_stream c; r_inflight := (begin (q_ticket c) a).1 |}.

Definition ledger_streams (p : list (nat * WorkerReply)) W R : list nat := p.*1 ++ streams_of W R.

(** A connection is answered at once, or admitted; once admitted it is dropped,
    answered or started; once started it is dropped or answered. *)
Inductive ledger_step (limits : AdmissionLimits) : Ledger → Ledger → Prop :=
| LReply a p W R stream reply :
    stream ∉ ledger_streams p W R →
    ledger_step limits (MkLedger a p W R) (MkLedger a (p ++ [(stream, reply)]) W R)
| LAdmit a a' p W R c inputs bytes :
    (0 ≤ inputs)%Z → (0 ≤ bytes)%Z → try_admit limits a inputs bytes = Ok (q_ticket c, a') →
    q_stream c ∉ ledger_streams p W R →
    ledger_step limits (MkLedger a p W R) (MkLedger a' p (c :: W) R)
| LBegin a p W R c :
    ledger_step limits (MkLedger a p (c :: W) R)
      (MkLedger (begin (q_ticket c) a).2 p W (started_connection c a :: R))
| LDropWaiting a p W R c :
    ledger_step limits (MkLedger a p (c :: W) R) (MkLedger (drop_ticket (q_ticket c) a) p W R)
| LAnswerWaiting a p W R c reply :
    ledger_step limits (MkLedger a p (c :: W) R)
      (MkLedger (drop_ticket (q_ticket c) a) (p ++ [(q_stream c, reply)]) W R)
| LDropRunning a p W R c :
    ledger_step limits (MkLedger a p W (c :: R)) (MkLedger (drop_inflight (r_inflight c) a) p W R)
| LAnswerRunning a p W R c reply :
    ledger_step limits (MkLedger a p W (c :: R))
      (MkLedger (drop_inflight (r_inflight c) a) (p ++ [(r_stream c, reply)]) W R)
| LPerm a p W W' R R' :
    W ≡ₚ W' → R ≡ₚ R' → ledger_step limits (MkLedger a p W R) (MkLedger a p W' R').

(** Every connection is answered at most once, and the counters are what the
    live tickets hold. *)
Definition ledger_inv (limits : AdmissionLimits) (l : Ledger) : Prop :=
  admission_inv limits (l_admission l,
    MkHolders (q_ticket <$> l_waiting l) (r_inflight <$> l_running l)) ∧
  NoDup (ledger_streams (l_replies l) (l_waiting l) (l_running l)).

Definition limits_ok (limits : AdmissionLimits) : Prop :=
  (max_admitted limits ≤ USIZE_MAX ∧ max_inputs limits ≤ USIZE_MAX ∧
   max_raw_input_bytes limits ≤ USIZE_MAX)%Z.

Lemma sumZ_perm l l' : l ≡ₚ l' → sumZ l = sumZ l'.
Proof. unfold sumZ. induction 1; simpl; lia. Qed.

Lemma admission_inv_perm limits a w w' r r' :
  w ≡ₚ w' → r ≡ₚ r' →
  admission_inv limits (a, MkHolders w r) → admission_inv limits (a, MkHolders w' r').
Proof.
  intros Hw Hr [H1 H2 H3 H4 H5 H6 H7]. cbn in *. split; cbn.
  - by rewrite <-Hw.
  - by rewrite <-Hr.
  - rewrite H3. f_equal; apply sumZ_perm; [by rewrite Hw|by rewrite Hr].
  - by rewrite <-Hw.
  - by rewrite <-Hr.
  - done.
  - done.
Qed.

Lemma ledger_streams_perm p W W' R R' :
  W ≡ₚ W' → R ≡ₚ R' → ledger_streams p W R ≡ₚ ledger_streams p W' R'.
Proof. intros HW HR. unfold ledger_streams, streams_of. by rewrite HW, HR. Qed.

Lemma NoDup_perm {A} (l l' : list A) : l ≡ₚ l' → NoDup l → NoDup l'.
Proof. by intros ->. Qed.

Lemma NoDup_app_cons_remove {A} (a : list A) x b : NoDup (a ++ x :: b) → NoDup (a ++ b).
Proof. rewrite <-Permutation_middle. by intros [_ ?]%NoDup_cons. Qed.

Lemma ledger_step_inv limits l l' :
  limits_ok limits → ledger_step limits l l' → ledger_inv limits l → ledger_inv limits l'.
Proof.
  intros (Hmax & Hin & Hby) Hstep [Hadm Hnd].
  assert (∀ s', admission_step limits (l_admission l,
    MkHolders (q_ticket <$> l_waiting l) (r_inflight <$> l_running l)) s' → admission_inv limits s') as Hs.
  { intros s' Hs'. by eapply admission_step_inv. }
  destruct Hstep as [a p W R s r Hf|a a' p W R c n b Hn Hb Ha Hf|a p W R c|a p W R c|a p W R c r|a p W R c
    |a p W R c r|a p W W' R R' HW HR]; unfold ledger_inv in *; cbn in *;
    unfold ledger_streams, streams_of in *; cbn in *.
  - split; [done|]. rewrite fmap_app. cbn. rewrite <-app_assoc. cbn.
    rewrite <-Permutation_middle. by constructor.
  - split.
    + pose proof (try_admit_Ok limits a n b _ _ Hmax Ha) as (Hn' & Hq & Ht & _ & _).
      assert (in_usize n) by (unfold in_usize; lia).
      assert (in_usize b).
      { unfold in_usize. pose proof (adm_bytes _ _ Hadm) as Hbytes. cbn in Hbytes.
        pose proof (adm_fresh _ _ Hadm) as Hfr. pose proof (adm_running _ _ Hadm) as Hru. cbn in *.
        assert (0 ≤ Admission.raw_input_bytes a)%Z; [|lia]. rewrite Hbytes.
        apply Z.add_nonneg_nonneg; apply sumZ_nonneg; apply Forall_fmap;
          (eapply Forall_impl; [eassumption|]; cbn; naive_solver). }
      eapply admission_inv_perm; [| |apply Hs; by eapply (StepAdmit limits a (q_ticket <$> W)
        (r_inflight <$> R) n b (q_ticket c) a')]; [symmetry; apply Permutation_cons_append|done].
    + rewrite <-Permutation_middle. by constructor.
  - split.
    + eapply admission_inv_perm; [| |apply Hs, (StepBegin limits a [] (q_ticket c) (q_ticket <$> W))];
        try done. cbn. by rewrite Permutation_app_comm.
    + eapply NoDup_perm; [|exact Hnd]. cbn. solve_Permutation.
  - split; [apply Hs; exact (StepDropTicket limits a [] (q_ticket c) (q_ticket <$> W) (r_inflight <$> R))|].
    by apply NoDup_app_cons_remove in Hnd.
  - split; [apply Hs; exact (StepDropTicket limits a [] (q_ticket c) (q_ticket <$> W) (r_inflight <$> R))|].
    eapply NoDup_perm; [|exact Hnd]. rewrite fmap_app. cbn. solve_Permutation.
  - split; [apply Hs; exact (StepDropInflight limits a (q_ticket <$> W) [] (r_inflight c) (r_inflight <$> R))|].
    rewrite app_assoc in Hnd |- *. by apply NoDup_app_cons_remove in Hnd.
  - split; [apply Hs; exact (StepDropInflight limits a (q_ticket <$> W) [] (r_inflight c) (r_inflight <$> R))|].
    eapply NoDup_perm; [|exact Hnd]. rewrite fmap_app. cbn. solve_Permutation.
  - split; [|by rewrite <-(ledger_streams_perm p W W' R R')].
    eapply admission_inv_perm; [| |exact Hadm]; by apply fmap_Permutation.
Qed.

(** ** The worker refines the ledger *)

Definition ledger_at (w : World) W R : Ledger := MkLedger (admission w) (replies w) W R.
Definition ledger_of {E F} (s : System E F) : Ledger :=
  ledger_at (world s) (waiting_connections (runtime s)) (running_connections (runtime s)).

(** What a connection is told when it is let go: nothing, or one reply. *)
Definition answer (stream : nat) (reply : option WorkerReply) (w : World) : World :=
  match reply with Some r => write_reply stream r w | None => w end.

Section LedgerSteps.
Context (limits : AdmissionLimits).
Abbreviation lsteps := (rtc (ledger_step limits)).

Lemma l_perm w W W' R R' : W ≡ₚ W' → R ≡ₚ R' → lsteps (ledger_at w W R) (ledger_at w W' R').
Proof. intros. by apply rtc_once, LPerm. Qed.

Lemma l_reply w W R stream reply :
  stream ∉ ledger_streams (replies w) W R →
  lsteps (ledger_at w W R) (ledger_at (write_reply stream reply w) W R).
Proof. intros Hf. apply rtc_once. exact (LReply limits _ _ W R stream reply Hf). Qed.

Lemma l_admit w W W' R c st inputs bytes :
  (0 ≤ inputs)%Z → (0 ≤ bytes)%Z → try_admit limits (admission w) inputs bytes = Ok (q_ticket c, st) →
  q_stream c ∉ ledger_streams (replies w) W R → W' ≡ₚ c :: W →
  lsteps (ledger_at w W R) (ledger_at (with_admission st w) W' R).
Proof.
  intros Hi Hb Ha Hf HW. eapply rtc_l; [exact (LAdmit limits _ _ _ _ _ c inputs bytes Hi Hb Ha Hf)|].
  by apply rtc_once, LPerm.
Qed.

Lemma l_release w W W' R c reply :
  W ≡ₚ c :: W' →
  lsteps (ledger_at w W R)
    (ledger_at (answer (q_stream c) reply (with_admission (drop_ticket (q_ticket c) (admission w)) w)) W' R).
Proof.
  intros HW. eapply rtc_l; [by apply (LPerm limits _ _ W (c :: W') R R)|]. apply rtc_once.
  destruct reply; [apply LAnswerWaiting|apply LDropWaiting].
Qed.

Lemma l_begin w W W' R R' c :
  W ≡ₚ c :: W' → R' ≡ₚ started_connection c (admission w) :: R →
  lsteps (ledger_at w W R) (ledger_at (with_admission (begin (q_ticket c) (admission w)).2 w) W' R').
Proof.
  intros HW HR. eapply rtc_l; [by apply (LPerm limits _ _ W (c :: W') R R)|].
  eapply rtc_l; [apply LBegin|]. by apply rtc_once, LPerm.
Qed.

Lemma l_finish w W R R' c reply :
  R ≡ₚ c :: R' →
  lsteps (ledger_at w W R)
    (ledger_at (with_admission (drop_inflight (r_inflight c) (admission w)) (answer (r_stream c) reply w))
      W R').
Proof.
  intros HR. eapply rtc_l; [by apply (LPerm limits _ _ W W R (c :: R'))|]. apply rtc_once.
  destruct reply; [apply LAnswerRunning|apply LDropRunning].
Qed.

(** Letting go of a list of connections. *)
Lemma l_release_all items W R reply w :
  lsteps (ledger_at w (W ++ items) R)
    (ledger_at (foldl (λ w item, with_admission (drop_ticket (q_ticket item) (admission w))
       (write_reply (q_stream item) reply w)) w items) W R).
Proof.
  revert w. induction items as [|c items IH]; intros w; cbn [foldl].
  { rewrite app_nil_r. apply rtc_refl. }
  etransitivity; [apply (l_release w _ (W ++ items) R c (Some reply))|].
  { by rewrite <-Permutation_middle. }
  apply IH.
Qed.

Lemma l_crash lost W R w :
  lsteps (ledger_at w W (R ++ lost))
    (ledger_at (foldl (λ w c, with_admission (drop_inflight (r_inflight c) (admission w)) w) w lost) W R).
Proof.
  revert w. induction lost as [|c lost IH]; intros w; cbn [foldl].
  { rewrite app_nil_r. apply rtc_refl. }
  etransitivity; [apply (l_finish w W _ (R ++ lost) c None)|].
  { by rewrite <-Permutation_middle. }
  apply IH.
Qed.
End LedgerSteps.

(** The operations of a lane that keep what its executor holds. *)
Section KeepsOutstanding.
Context {C E R : Type}.
Implicit Types (l : Lane C E R) (x : Executor C E R).

Lemma send_outstanding c x x' : send c x = Some x' → outstanding x' = outstanding x ++ execute_of c.
Proof.
  unfold send. destruct (alive x); [|done]. intros [= <-]. unfold outstanding. cbn [events commands].
  rewrite bind_app, <-app_assoc. cbn. by rewrite app_nil_r.
Qed.

Lemma start_loader_outstanding exited c now l :
  outstanding (executor (start_loader exited c now l)) = outstanding (executor l).
Proof.
  unfold start_loader. cbn [executor]. destruct (send _ _) as [x|] eqn:Hs; [|done].
  apply send_outstanding in Hs. cbn. by rewrite Hs, app_nil_r.
Qed.

Lemma lane_unload_outstanding now l :
  outstanding (executor (lane_unload now l)) = outstanding (executor l).
Proof.
  unfold lane_unload. destruct (last_used l); [|done]. destruct (_ <=? _)%Z; [|done]. cbn [executor].
  destruct (send _ _) as [x|] eqn:Hs; [|done]. apply send_outstanding in Hs. cbn. by rewrite Hs, app_nil_r.
Qed.

Lemma lane_event_executor e now l : executor (lane_event e now l) = executor l.
Proof. by destruct e as [[]| |]. Qed.

Lemma try_recv_outstanding e x x' :
  try_recv x = Received e x' → outstanding x = completed_of e ++ outstanding x'.
Proof.
  unfold try_recv, outstanding. destruct (events x) as [|e' es]; [by destruct (alive x)|].
  intros H. injection H as -> <-. cbn [events commands]. by rewrite bind_cons, <-app_assoc.
Qed.

Lemma crash_outstanding x : outstanding x = outstanding (crash x) ++ (commands x ≫= execute_of).
Proof. unfold outstanding, crash. cbn. by rewrite app_nil_r. Qed.
End KeepsOutstanding.

Lemma raw_input_bytes_nonneg texts : (0 ≤ Frames.raw_input_bytes texts)%Z.
Proof.
  rewrite raw_input_bytes_sum. pose proof (total_bytes_nonneg texts). unfold USIZE_MAX. lia.
Qed.

(** *** The rerank lane, beside the connections [W] and [R] of the other lane *)
Section RerankLedger.
Context {F : Type} (limits : AdmissionLimits) (W : list QueuedConnection) (R : list RunningConnection).
Abbreviation lsteps := (rtc (ledger_step limits)).

Definition lane_ledger (r : RerankLane F) (w : World) : Ledger :=
  ledger_at w (W ++ queue r) (R ++ outstanding (executor (rerank r))).

Lemma rerank_admit_ledger handshake matching command stream ms now later r w :
  stream ∉ ledger_streams (replies w) (W ++ queue r) (R ++ outstanding (executor (rerank r))) →
  let '(r', w') := rerank_admit limits handshake matching command stream ms now later r w in
  lsteps (lane_ledger r w) (lane_ledger r' w').
Proof.
  intros Hf. unfold rerank_admit. destruct command as [| | |root q docs deadline]; try apply rtc_refl.
  destruct matching; cbn [negb]; [|by apply l_reply].
  destruct (deadline <=? ms)%Z; [apply rtc_refl|].
  destruct (try_admit _ _ _ _) as [[ticket st]|e] eqn:Ha; [|by apply l_reply].
  assert (0 ≤ len q + Frames.raw_input_bytes docs)%Z as Hb
    by (pose proof (raw_input_bytes_nonneg docs); unfold len; lia).
  set (c := {| q_request := {| request_handshake := handshake; request_command := Rerank root q docs deadline |};
               q_stream := stream; q_ticket := ticket |}).
  destruct (loaded (rerank r)); cbn [negb].
  - apply (l_admit limits w _ _ _ c st 1 _ ltac:(lia) Hb Ha Hf). cbn [rerank_enqueue set_queue queue].
    rewrite app_assoc. by rewrite <-Permutation_cons_append.
  - etransitivity; [apply (l_admit limits w _ (c :: W ++ queue r) _ c st 1 _ ltac:(lia) Hb Ha Hf); done|].
    etransitivity; [apply (l_release limits _ _ (W ++ queue r) _ c
      (Some (ReplyError (default RERANK_LOADING (cooling_error now (rerank r)))))); done|].
    destruct (negb (loading (rerank r)) && _); [|apply rtc_refl].
    unfold lane_ledger. cbn [rerank_start_loader set_rerank queue rerank].
    rewrite start_loader_outstanding. apply rtc_refl.
Qed.

Lemma rerank_process_ledger item ms now later r w :
  let '(r', w') := rerank_process_at item ms now later r w in
  lsteps (ledger_at w (W ++ item :: queue r) (R ++ outstanding (executor (rerank r)))) (lane_ledger r' w').
Proof.
  assert (W ++ item :: queue r ≡ₚ item :: W ++ queue r) as Hp by by rewrite <-Permutation_middle.
  pose proof (λ reply, l_release limits w _ _ (R ++ outstanding (executor (rerank r))) item reply Hp) as Hrel.
  unfold rerank_process_at, lane_ledger.
  destruct (request_command (q_request item)) as [| | |root q docs deadline]; try exact (Hrel None).
  destruct (deadline <=? ms)%Z; [exact (Hrel None)|].
  destruct (cooling_error now (rerank r)) as [error|]; [exact (Hrel (Some (ReplyError error)))|].
  destruct (loaded (rerank r)); cbn [negb].
  - destruct (begin (q_ticket item) (admission w)) as [inflight st] eqn:Hb.
    set (c := {| r_request := q_request item; r_stream := q_stream item; r_inflight := inflight |}).
    assert (c = started_connection item (admission w)) as Hc by (unfold c, started_connection; by rewrite Hb).
    assert (∀ R', R' ≡ₚ c :: R ++ outstanding (executor (rerank r)) →
      lsteps (ledger_at w (W ++ item :: queue r) (R ++ outstanding (executor (rerank r))))
        (ledger_at (with_admission st w) (W ++ queue r) R')) as Hbegin.
    { intros R' HR. assert (st = (begin (q_ticket item) (admission w)).2) as -> by by rewrite Hb.
      apply (l_begin limits w _ _ _ _ item Hp). by rewrite <-Hc. }
    destruct (send (Execute c) (executor (rerank r))) as [x|] eqn:Hs.
    + apply Hbegin. cbn. apply send_outstanding in Hs. rewrite Hs, app_assoc. cbn.
      by rewrite <-Permutation_cons_append.
    + etransitivity; [apply (Hbegin (c :: R ++ outstanding (executor (rerank r)))); done|].
      exact (l_finish limits (with_admission st w) _ _ (R ++ outstanding (executor (rerank r))) c
        (Some (ReplyError RERANK_EXITED)) (Permutation_refl _)).
  - assert (∀ r' : RerankLane F, queue r' = queue r → outstanding (executor (rerank r')) = outstanding (executor (rerank r)) →
      lsteps (ledger_at w (W ++ item :: queue r) (R ++ outstanding (executor (rerank r))))
        (ledger_at w (W ++ queue (set_queue (item :: queue r') r'))
          (R ++ outstanding (executor (rerank (set_queue (item :: queue r') r')))))) as Hkeep.
    { intros r' -> Ho. cbn [set_queue queue rerank]. rewrite Ho. apply rtc_refl. }
    apply Hkeep; destruct (negb (loading (rerank r))); try done.
    cbn [rerank_start_loader set_rerank rerank]. apply start_loader_outstanding.
Qed.

Lemma rerank_poll_ledger ms now later r w :
  let '(r', w') := rerank_poll ms now later r w in lsteps (lane_ledger r w) (lane_ledger r' w').
Proof.
  unfold rerank_poll. destruct (_ || _); [apply rtc_refl|].
  destruct (queue r) as [|item rest] eqn:Hq; [apply rtc_refl|].
  pose proof (rerank_process_ledger item ms now later (set_queue rest r) w) as Hp.
  destruct (rerank_process_at _ _ _ _ _ _) as [r' w']. unfold lane_ledger in *. by rewrite Hq.
Qed.

Lemma pump_one_ledger ms now r w :
  let '(r', w') := pump_one ms now r w in lsteps (lane_ledger r w) (lane_ledger r' w').
Proof.
  unfold pump_one, lane_ledger. destruct (try_recv (executor (rerank r))) as [e x| |] eqn:Hr.
  - assert (∀ l, executor (rerank (set_rerank (lane_event e now (set_executor x l)) r)) = x) as Hx
      by (intros l; cbn [set_rerank rerank]; by rewrite lane_event_executor).
    apply try_recv_outstanding in Hr. destruct e as [o|request stream inflight outcome|];
      rewrite Hx, Hr; try apply rtc_refl.
    cbn [completed_of app]. set (c := {| r_request := request; r_stream := stream; r_inflight := inflight |}).
    assert (R ++ c :: outstanding x ≡ₚ c :: R ++ outstanding x) as Hp by by rewrite <-Permutation_middle.
    destruct (ms <? _)%Z; [exact (l_finish limits w _ _ _ c (Some (scores_reply outcome)) Hp)
                          |exact (l_finish limits w _ _ _ c None Hp)].
  - apply rtc_refl.
  - cbn [drain_queue_with_error set_queue queue rerank set_rerank].
    rewrite app_nil_r. apply l_release_all.
Qed.

Lemma rerank_unload_ledger now r w :
  lsteps (lane_ledger r w) (lane_ledger (rerank_unload_idle now r) w).
Proof.
  unfold rerank_unload_idle. destruct (_ || _); [apply rtc_refl|]. unfold lane_ledger.
  cbn [set_rerank queue rerank]. rewrite lane_unload_outstanding. apply rtc_refl.
Qed.
End RerankLedger.

Section WorkerLedger.
Context {E F : Type} (limits : AdmissionLimits) (not_running : InferenceConfig → WorkerStatus).
Abbreviation lsteps := (rtc (ledger_step limits)).
Implicit Types (t : WorkerRuntime E F) (s : System E F).

Definition ledger_rt t (w : World) : Ledger := ledger_at w (waiting_connections t) (running_connections t).

(** Changing the busy roots leaves the connections. *)
Lemma release_root_ledger class root t w : ledger_rt (release_root class root t) w = ledger_rt t w.
Proof. unfold release_root. by destruct (bool_decide _). Qed.

Lemma push_waiting t class item :
  waiting_connections (set_scheduler (push root_id (scheduler t) class item) t) ≡ₚ
  item :: waiting_connections t.
Proof.
  unfold waiting_connections, push. cbn [set_scheduler scheduler rerank_lane]. by rewrite enqueue_items.
Qed.

Lemma handle_request_ledger stream request ms now later t w :
  stream ∉ ledger_streams (replies w) (waiting_connections t) (running_connections t) →
  let '(t', w') := handle_request limits not_running stream request ms now later t w in
  lsteps (ledger_rt t w) (ledger_rt t' w').
Proof.
  intros Hf. unfold handle_request, ledger_rt. destruct request as [request|e]; [|by apply l_reply].
  cbv zeta. set (matching := bool_decide _). destruct (request_command request) as [| |class root texts deadline|root q docs deadline].
  - by apply l_reply.
  - by apply l_reply.
  - destruct (negb matching); [by apply l_reply|].
    destruct (_ && _); [by apply l_reply|].
    destruct (try_admit _ _ _ _) as [[ticket st]|e] eqn:Ha; [|by apply l_reply].
    set (t' := if bool_decide (class = Background) then _ else t).
    assert (scheduler t' = scheduler t ∧ waiting_connections t' = waiting_connections t ∧
      running_connections t' = running_connections t) as (Hsch & Hw & Hr)
      by (unfold t'; destruct (bool_decide (class = Background)); split_and!; reflexivity).
    rewrite <-Hr. set (c := {| q_stream := stream |}).
    apply (l_admit limits w _ _ _ c st _ _ (Nat2Z.is_nonneg _) (raw_input_bytes_nonneg texts) Ha);
      [by rewrite Hr|]. rewrite <-Hw. apply push_waiting.
  - pose proof (rerank_admit_ledger limits (items (scheduler t)) (outstanding (executor (embed t)))
      (worker_handshake t) matching (Rerank root q docs deadline) stream ms now later (rerank_lane t) w Hf) as H.
    by destruct (rerank_admit _ _ _ _ _ _ _ _ _ _) as [r w'].
Qed.

Lemma process_at_ledger item ms now t w :
  let '(t', w') := process_at item ms now t w in
  lsteps (ledger_at w (item :: waiting_connections t) (running_connections t)) (ledger_rt t' w').
Proof.
  pose proof (λ reply, l_release limits w _ _ (running_connections t) item reply
    (Permutation_refl (item :: waiting_connections t))) as Hrel.
  unfold process_at. destruct (request_command (q_request item)) as [| |class root texts deadline|];
    try exact (Hrel None).
  destruct (deadline <=? ms)%Z; [rewrite release_root_ledger; exact (Hrel None)|].
  destruct (cooling_error now (embed t)) as [error|];
    [rewrite release_root_ledger; exact (Hrel (Some (ReplyError error)))|].
  destruct (loaded (embed t)); cbn [negb].
  - destruct (begin (q_ticket item) (admission w)) as [inflight st] eqn:Hb.
    set (c := {| r_request := q_request item; r_stream := q_stream item; r_inflight := inflight |}).
    assert (c = started_connection item (admission w)) as Hc by (unfold c, started_connection; by rewrite Hb).
    assert (∀ R', R' ≡ₚ c :: running_connections t →
      lsteps (ledger_at w (item :: waiting_connections t) (running_connections t))
        (ledger_at (with_admission st w) (waiting_connections t) R')) as Hbegin.
    { intros R' HR. assert (st = (begin (q_ticket item) (admission w)).2) as -> by by rewrite Hb.
      apply (l_begin limits w _ _ _ _ item); [done|by rewrite <-Hc]. }
    destruct (send (Execute c) (executor (embed t))) as [x|] eqn:Hs.
    + apply Hbegin. unfold running_connections. cbn [set_embed embed set_executor executor rerank_lane].
      apply send_outstanding in Hs. rewrite Hs. cbn [execute_of].
      rewrite <-app_assoc. cbn [app]. by rewrite <-Permutation_middle.
    + rewrite release_root_ledger.
      etransitivity; [apply (Hbegin (c :: running_connections t)); done|].
      exact (l_finish limits (with_admission st w) _ _ (running_connections t) c None (Permutation_refl _)).
  - set (t' := if negb (loading (embed t)) then _ else t).
    assert (waiting_connections t' = waiting_connections t ∧ running_connections t' = running_connections t)
      as [Hw Hr].
    { unfold t'. destruct (negb _); [|done]. split; [done|]. unfold running_connections.
      cbn [embed_start_loader set_embed embed rerank_lane]. by rewrite start_loader_outstanding. }
    apply l_perm; [by rewrite push_waiting, Hw|]. unfold running_connections in *. cbn. by rewrite Hr.
Qed.

Lemma dispatch_ledger ms now t w :
  let '(t', w') := dispatch ms now t w in lsteps (ledger_rt t w) (ledger_rt t' w').
Proof.
  unfold dispatch. destruct (_ && _); [|apply rtc_refl].
  destruct (pop (scheduler t)) as [[item sch]|] eqn:Hp; [|apply rtc_refl].
  apply pop_items in Hp. pose proof (process_at_ledger item ms now (set_scheduler sch t) w) as H.
  destruct (process_at _ _ _ _ _) as [t' w']. etransitivity; [|exact H].
  apply l_perm; [|done]. unfold waiting_connections. by rewrite Hp.
Qed.

Lemma poll_one_ledger ms now t w :
  let '(t', w') := poll_one ms now t w in lsteps (ledger_rt t w) (ledger_rt t' w').
Proof.
  unfold poll_one. destruct (try_recv (executor (embed t))) as [e x| |] eqn:Hr; [|apply rtc_refl..].
  apply try_recv_outstanding in Hr. set (t' := set_embed _ t).
  assert (waiting_connections t' = waiting_connections t ∧
    running_connections t = completed_of e ++ running_connections t') as [Hw Hrun].
  { split; [done|]. unfold running_connections, t'. cbn [set_embed embed rerank_lane].
    by rewrite Hr, lane_event_executor, <-app_assoc. }
  assert (lsteps (ledger_rt t w) (ledger_at w (waiting_connections t')
    (completed_of e ++ running_connections t'))) as Hsame.
  { unfold ledger_rt. rewrite Hw, Hrun. apply rtc_refl. }
  destruct e as [o|request stream inflight outcome|]; [exact Hsame| |exact Hsame].
  destruct (embed_completion (request_command request)) as [[root deadline] class].
  rewrite release_root_ledger. etransitivity; [exact Hsame|]. cbn [completed_of app].
  set (c := {| r_request := request; r_stream := stream; r_inflight := inflight |}).
  pose proof (λ reply, l_finish limits w (waiting_connections t') _ (running_connections t') c reply
    (Permutation_refl _)) as Hfin.
  destruct (ms <? deadline)%Z; [exact (Hfin (Some (embeddings_reply outcome)))|exact (Hfin None)].
Qed.
End WorkerLedger.

(** ** Both lanes keep their protocol *)

Lemma set_executor_executor {C E R} (x : Executor C E R) l : executor (set_executor x l) = x.
Proof. done. Qed.

Lemma send_None {C E R} c (x : Executor C E R) : send c x = None ↔ alive x = false.
Proof. unfold send. by destruct (alive x). Qed.

Lemma try_recv_Disconnected {C E R} (x : Executor C E R) :
  try_recv x = Disconnected ↔ alive x = false ∧ events x = [].
Proof. unfold try_recv. destruct (events x), (alive x); naive_solver. Qed.

Section RerankOk.
Context {F : Type} (limits : AdmissionLimits).
Implicit Types (r : RerankLane F).

Lemma rerank_admit_ok handshake matching command stream ms now later r w :
  lane_ok (rerank r) →
  lane_ok (rerank (rerank_admit limits handshake matching command stream ms now later r w).1).
Proof.
  intros Hok. unfold rerank_admit. destruct command; try done. destruct (negb matching); [done|].
  destruct (_ <=? _)%Z; [done|]. destruct (try_admit _ _ _ _) as [[ticket st]|]; [|done].
  destruct (loaded (rerank r)) eqn:Hl; cbn [negb]; [done|].
  destruct (loading (rerank r)) eqn:Hg; cbn [negb andb]; [done|].
  destruct (negb (is_some _)); [|done]. by apply start_loader_ok.
Qed.

Lemma rerank_poll_ok ms now later r w :
  lane_ok (rerank r) → lane_ok (rerank (rerank_poll ms now later r w).1).
Proof.
  intros Hok. unfold rerank_poll. destruct (active (rerank r)) eqn:Hact; cbn [orb]; [done|].
  destruct (loading (rerank r) && _) eqn:Hg; [done|]. destruct (queue r) as [|item rest]; [done|].
  unfold rerank_process_at. cbn [set_queue rerank].
  destruct (request_command (q_request item)); try done. destruct (_ <=? _)%Z; [done|].
  destruct (cooling_error now (rerank r)); [done|].
  destruct (loaded (rerank r)) eqn:Hl; cbn [negb].
  - destruct (begin _ _) as [inflight st]. destruct (send _ _) as [x|] eqn:Hs.
    + by eapply execute_ok.
    + apply send_None in Hs. by eapply (dead_lane_ok (rerank r)).
  - rewrite andb_true_r in Hg. rewrite Hg. cbn. by apply start_loader_ok.
Qed.

Lemma pump_one_ok ms now r w : lane_ok (rerank r) → lane_ok (rerank (pump_one ms now r w).1).
Proof.
  intros Hok. unfold pump_one. destruct (try_recv (executor (rerank r))) as [e x| |] eqn:Hr; [|done|].
  - pose proof (lane_event_ok e x now _ Hr Hok) as Hev. by destruct e.
  - apply try_recv_Disconnected in Hr as [Ha _]. by eapply (dead_lane_ok (rerank r)).
Qed.

Lemma rerank_unload_ok now r : lane_ok (rerank r) → lane_ok (rerank (rerank_unload_idle now r)).
Proof.
  intros Hok. unfold rerank_unload_idle.
  destruct (negb (length (queue r) =? 0)); cbn [orb]; [done|].
  destruct (loading (rerank r)) eqn:Hg; cbn [orb]; [done|].
  destruct (active (rerank r)) eqn:Ha; cbn [orb]; [done|].
  destruct (loaded (rerank r)) eqn:Hl; cbn [negb]; [|done]. by apply lane_unload_ok.
Qed.
End RerankOk.

Section WorkerOk.
Context {E F : Type} (limits : AdmissionLimits) (not_running : InferenceConfig → WorkerStatus).
Implicit Types (t : WorkerRuntime E F) (s : System E F).

Definition lanes_ok t : Prop := lane_ok (embed t) ∧ lane_ok (rerank (rerank_lane t)).

Lemma release_root_lanes class root t :
  embed (release_root class root t) = embed t ∧ rerank_lane (release_root class root t) = rerank_lane t.
Proof. unfold release_root. by destruct (bool_decide _). Qed.

Lemma handle_request_ok stream request ms now later t w :
  lanes_ok t → lanes_ok (handle_request limits not_running stream request ms now later t w).1.
Proof.
  intros [He Hr]. unfold handle_request. destruct request as [request|]; [|done]. cbv zeta.
  destruct (request_command request) as [| |class root texts deadline|root q docs deadline]; [done..| |].
  - destruct (negb _); [done|]. destruct (_ && _); [done|].
    destruct (try_admit _ _ _ _) as [[ticket st]|]; [|done].
    by destruct (bool_decide (class = Background)).
  - pose proof (rerank_admit_ok limits (worker_handshake t)
      (bool_decide (request_handshake request = worker_handshake t)) (Rerank root q docs deadline)
      stream ms now later (rerank_lane t) w Hr) as Hadm.
    by destruct (rerank_admit _ _ _ _ _ _ _ _ _ _).
Qed.

Lemma dispatch_ok ms now t w : lanes_ok t → lanes_ok (dispatch ms now t w).1.
Proof.
  intros [He Hr]. unfold dispatch. destruct (stopping t); cbn [negb andb]; [done|].
  destruct (active (embed t)) eqn:Hact; cbn [negb andb]; [done|].
  destruct (_ || _) eqn:Hg; [|done]. destruct (pop (scheduler t)) as [[item sch]|]; [|done].
  unfold process_at. destruct (request_command (q_request item)) as [| |class root texts deadline|]; try done.
  destruct (deadline <=? ms)%Z.
  { unfold lanes_ok. cbn. by destruct (release_root_lanes class root (set_scheduler sch t)) as [-> ->]. }
  cbn [set_scheduler embed]. destruct (cooling_error now (embed t)).
  { unfold lanes_ok. cbn. by destruct (release_root_lanes class root (set_scheduler sch t)) as [-> ->]. }
  destruct (loaded (embed t)) eqn:Hl; cbn [negb].
  - destruct (begin _ _) as [inflight st]. destruct (send _ _) as [x|] eqn:Hs.
    + split; [by eapply execute_ok|done].
    + unfold lanes_ok. cbn. destruct (release_root_lanes class root
        (set_embed (set_active false (embed t)) (set_scheduler sch t))) as [-> ->].
      split; [|done]. apply send_None in Hs. by eapply (dead_lane_ok (embed t)).
  - rewrite orb_false_r, negb_true_iff in Hg. rewrite Hg. split; [by apply start_loader_ok|done].
Qed.

Lemma poll_one_ok ms now t w : lanes_ok t → lanes_ok (poll_one ms now t w).1.
Proof.
  intros [He Hr]. unfold poll_one. destruct (try_recv (executor (embed t))) as [e x| |] eqn:Hrec; [|done..].
  pose proof (lane_event_ok e x now _ Hrec He) as Hev. destruct e as [|request stream inflight outcome|];
    [done| |done]. destruct (embed_completion (request_command request)) as [[root deadline] class].
  unfold lanes_ok. cbn [fst]. destruct (release_root_lanes class root
    (set_embed (lane_event (Completed request stream inflight outcome) now (set_executor x (embed t))) t))
    as [-> ->]. done.
Qed.

Lemma unload_idle_ok now t : lanes_ok t → lanes_ok (unload_idle now t).
Proof.
  intros [He Hr]. unfold unload_idle. destruct (negb (pending _ =? 0)); cbn [orb]; [done|].
  destruct (loading (embed t)) eqn:Hg; cbn [orb]; [done|].
  destruct (active (embed t)) eqn:Ha; cbn [orb]; [done|].
  destruct (loaded (embed t)) eqn:Hl; cbn [negb]; [|done]. split; [by apply lane_unload_ok|done].
Qed.

Lemma embed_infer_keeps embed_batch (e : E) c : is_Some (embed_infer embed_batch (Some e) c).2.
Proof. unfold embed_infer. destruct c; try by eexists. by destruct (embed_batch _ _); eexists. Qed.

Lemma rerank_infer_keeps score (e : F) c : is_Some (rerank_infer score (Some e) c).2.
Proof. unfold rerank_infer. destruct c; try by eexists. by destruct (score _ _ _); eexists. Qed.

Lemma apply_runtime (f : WorkerRuntime E F → World → WorkerRuntime E F * World) s :
  runtime (apply f s) = (f (runtime s) (world s)).1.
Proof. unfold apply. by destruct (f _ _). Qed.

Lemma on_rerank_runtime f t (w : World) :
  (on_rerank f t w).1 = set_rerank_lane (f (rerank_lane t) w).1 t.
Proof. unfold on_rerank. by destruct (f _ _). Qed.

Lemma worker_step_lanes s s' :
  worker_step limits not_running s s' → lanes_ok (runtime s) → lanes_ok (runtime s').
Proof.
  intros Hstep Hok. destruct Hstep; rewrite apply_runtime; rewrite ?on_rerank_runtime; cbn [pure fst].
  - by apply handle_request_ok.
  - by apply poll_one_ok.
  - destruct Hok. split; [done|]. by apply pump_one_ok.
  - by apply dispatch_ok.
  - destruct Hok. split; [done|]. by apply rerank_poll_ok.
  - by apply unload_idle_ok.
  - destruct Hok. split; [done|]. by apply rerank_unload_ok.
  - destruct Hok. split; [|done]. apply executor_turn_ok; [apply embed_infer_keeps|done|done].
  - destruct Hok. split; [done|]. apply executor_turn_ok; [apply rerank_infer_keeps|done|done].
  - destruct Hok. split; [|done]. apply crash_ok.
  - destruct Hok. split; [done|]. apply crash_ok.
Qed.

Lemma worker_start_lanes c cache h now : lanes_ok (runtime (worker_start (E:=E) (F:=F) c cache h now)).
Proof.
  split; [apply lane_default_ok|]. cbn. unfold rerank_new.
  destruct (rerank_enabled c); [|apply lane_default_ok]. by apply start_loader_ok; [apply lane_default_ok|..].
Qed.

Lemma reachable_lanes s : worker_reachable limits not_running s → lanes_ok (runtime s).
Proof.
  intros (c & cache & h & now & Hs). pose proof (worker_start_lanes c cache h now) as H0.
  induction Hs as [|? ? ? Hstep _ IH]; [done|]. apply IH. by eapply worker_step_lanes.
Qed.
End WorkerOk.

(** ** What holds in every interleaving *)

Section WorkerTheorems.
Context {E F : Type} (limits : AdmissionLimits) (not_running : InferenceConfig → WorkerStatus).
Implicit Types (t : WorkerRuntime E F) (s : System E F).

Lemma on_rerank_ledger f t w :
  (let '(r', w') := f (rerank_lane t) w in
   rtc (ledger_step limits)
     (lane_ledger (items (scheduler t)) (outstanding (executor (embed t))) (rerank_lane t) w)
     (lane_ledger (items (scheduler t)) (outstanding (executor (embed t))) r' w')) →
  let '(t', w') := on_rerank f t w in rtc (ledger_step limits) (ledger_rt t w) (ledger_rt t' w').
Proof. unfold on_rerank. destruct (f (rerank_lane t) w) as [r' w']. done. Qed.

Lemma apply_ledger (f : WorkerRuntime E F → World → WorkerRuntime E F * World) s :
  (let '(t', w') := f (runtime s) (world s) in
   rtc (ledger_step limits) (ledger_rt (runtime s) (world s)) (ledger_rt t' w')) →
  rtc (ledger_step limits) (ledger_of s) (ledger_of (apply f s)).
Proof. unfold apply, ledger_of. by destruct (f _ _). Qed.

Lemma worker_step_ledger s s' :
  worker_step limits not_running s s' → lanes_ok (runtime s) →
  rtc (ledger_step limits) (ledger_of s) (ledger_of s').
Proof.
  intros Hstep [He Hr].
  destruct Hstep as [stream request ms now later s Hf|ms now s|ms now s|ms now s|ms now later s|now s|now s
    |opened run s Ha|opened run s Ha|s Ha|s Ha]; apply apply_ledger.
  - by apply handle_request_ledger.
  - apply poll_one_ledger.
  - apply on_rerank_ledger, pump_one_ledger.
  - apply dispatch_ledger.
  - apply on_rerank_ledger, rerank_poll_ledger.
  - cbn [pure]. unfold unload_idle. destruct (_ || _); [apply rtc_refl|].
    apply l_perm; [done|]. unfold running_connections. cbn [set_embed embed rerank_lane].
    by rewrite lane_unload_outstanding.
  - apply on_rerank_ledger, rerank_unload_ledger.
  - cbn [pure]. apply l_perm; [done|]. unfold running_connections. cbn.
    unfold lane_ok in He. rewrite Ha in He.
    destruct (executor_turn_alive opened (embed_infer run) (executor (embed (runtime s)))) as (_ & _ & ->);
      [|done|done]. intros c. by apply lane_state_no_shutdown.
  - cbn [pure]. apply l_perm; [done|]. unfold running_connections. cbn.
    unfold lane_ok in Hr. rewrite Ha in Hr.
    destruct (executor_turn_alive opened (rerank_infer run) (executor (rerank (rerank_lane (runtime s)))))
      as (_ & _ & ->); [|done|done]. intros c. by apply lane_state_no_shutdown.
  - set (x := executor (embed (runtime s))).
    etransitivity; [|apply (l_crash limits (commands x ≫= execute_of))]. apply l_perm; [done|].
    unfold running_connections. fold x. rewrite (crash_outstanding x). cbn. solve_Permutation.
  - set (x := executor (rerank (rerank_lane (runtime s)))).
    etransitivity; [|apply (l_crash limits (commands x ≫= execute_of))]. apply l_perm; [done|].
    unfold running_connections. fold x. rewrite (crash_outstanding x). cbn. solve_Permutation.
Qed.

Lemma worker_start_ledger c cache h now :
  ledger_of (worker_start (E:=E) (F:=F) c cache h now) = MkLedger admission_default [] [] [].
Proof.
  unfold ledger_of, ledger_at, waiting_connections, running_connections. cbn. unfold rerank_new.
  destruct (rerank_enabled c); cbn [rerank_start_loader set_rerank queue rerank];
    rewrite ?start_loader_outstanding; done.
Qed.

Lemma reachable_ledger s :
  worker_reachable limits not_running s →
  rtc (ledger_step limits) (MkLedger admission_default [] [] []) (ledger_of s).
Proof.
  intros (c & cache & h & now & Hs). rewrite <-(worker_start_ledger c cache h now).
  pose proof (worker_start_lanes (E:=E) (F:=F) c cache h now) as H0.
  induction Hs as [|? ? ? Hstep _ IH]; [done|].
  etransitivity; [by eapply worker_step_ledger|]. apply IH. by eapply worker_step_lanes.
Qed.

Lemma ledger_start_inv : ledger_inv limits (MkLedger admission_default [] [] []).
Proof. split; [split; cbn; try done; try constructor; lia|constructor]. Qed.

Lemma reachable_ledger_inv s :
  limits_ok limits → worker_reachable limits not_running s → ledger_inv limits (ledger_of s).
Proof.
  intros Hlim Hs%reachable_ledger. pose proof ledger_start_inv as H0.
  induction Hs as [|? ? ? Hstep _ IH]; [done|]. apply IH. by eapply ledger_step_inv.
Qed.
End WorkerTheorems.


(** What a running thread finds at the front of its channel. *)
Lemma lane_execute_ready {C E R} (l : Lane C E R) c cs :
  lane_state l → commands (executor l) = Execute c :: cs →
  is_Some (engine (executor l)) ∧ active l = true ∧ outstanding (executor l) = [c].
Proof.
  intros Hl Hc. destruct Hl as [H1 H2 H3 Ht|_ _ _ Ht _|_ _ _ Ht]; unfold tokens in Ht; rewrite Hc in Ht;
    rewrite fmap_cons in Ht; cbn in Ht.
  - unfold outstanding. rewrite Hc.
    destruct (events (executor l)) as [|e es]; [|destruct (active l); count_tokens Ht].
    cbn in Ht. destruct (active l); [|done]. destruct cs; [done|count_tokens Ht].
  - destruct (events (executor l)) as [|e1 [|e2 es]]; cbn in Ht; destruct Ht as [Ht|Ht]; try done; count_tokens Ht.
  - destruct (events (executor l)) as [|e1 [|e2 es]]; cbn in Ht; destruct Ht as [Ht|Ht]; try done; count_tokens Ht.
Qed.

Lemma lane_outstanding_count {C E R} (l : Lane C E R) :
  lane_state l → length (outstanding (executor l)) = (if active l then 1 else 0).
Proof.
  assert (∀ x : Executor C E R, length (outstanding x) =
    length (filter (λ tk, tk = TExec) (tokens x))) as Hcount.
  { intros x. unfold outstanding, tokens. rewrite filter_app, !length_app. f_equal.
    - induction (events x) as [|e es IH]; [done|].
      rewrite bind_cons, fmap_cons, filter_cons, length_app, IH. by destruct e.
    - induction (commands x) as [|c cs IH]; [done|].
      rewrite bind_cons, fmap_cons, filter_cons, length_app, IH. by destruct c. }
  intros Hl. rewrite Hcount.
  destruct Hl as [H1 H2 H3 Ht|_ _ Hact [Ht|Ht] _|_ _ Hact [Ht|Ht]]; rewrite Ht, ?Hact; try done.
  by destruct (active l).
Qed.

(** The lane of a running thread has at most one batch, and the thread that takes
    it holds an engine. *)
Definition dispatch_ready {C E R} (l : Lane C E R) : Prop :=
  alive (executor l) = true →
  length (outstanding (executor l)) = (if active l then 1 else 0) ∧
  ∀ c cs, commands (executor l) = Execute c :: cs → is_Some (engine (executor l)).

(** Dispatch: in every interleaving, while an executor thread runs, its lane
    is active exactly when one batch is with the thread or its channels, and a
    thread that takes a batch holds a loaded engine, so the engine-unavailable
    answer is never produced. *)
Theorem dispatch_finds_engine {E F} limits not_running (s : System E F) :
  worker_reachable limits not_running s →
  dispatch_ready (embed (runtime s)) ∧ dispatch_ready (rerank (rerank_lane (runtime s))).
Proof.
  intros [He Hr]%reachable_lanes. unfold dispatch_ready, lane_ok in *.
  split; intros Ha; rewrite Ha in *; (split; [by apply lane_outstanding_count|]);
    intros c cs Hc; by eapply lane_execute_ready.
Qed.

(** ** One background batch per root *)

Definition background_root (c : WorkerCommand) : list str :=
  match c with Embed Background root _ _ => [root] | _ => [] end.

Section Roots.
Context {E F : Type} (limits : AdmissionLimits) (not_running : InferenceConfig → WorkerStatus).
Implicit Types (t : WorkerRuntime E F) (s : System E F).

(** The roots of the background batches that wait or run. *)
Definition busy t : list str :=
  (items (scheduler t) ≫= λ q, background_root (request_command (q_request q))) ++
  (outstanding (executor (embed t)) ≫= λ c, background_root (request_command (r_request c))).

Definition embed_alive t : bool := alive (executor (embed t)).

Definition roots_ok t : Prop :=
  NoDup (busy t) ∧ (∀ r, r ∈ busy t → r ∈ background_roots t) ∧
  (embed_alive t = true → ∀ r, r ∈ background_roots t → r ∈ busy t).

Lemma roots_ok_release c t t' :
  roots_ok t → busy t ≡ₚ background_root c ++ busy t' →
  background_roots t' = background_roots t ∖ list_to_set (background_root c) →
  (embed_alive t' = true → embed_alive t = true) → roots_ok t'.
Proof.
  intros (Hnd & Hsub & Heq) Hb Hr Ha. rewrite Hb in Hnd. apply NoDup_app in Hnd as (_ & Hdis & Hnd).
  split_and!; [done|..].
  - intros r Hin. rewrite Hr. apply elem_of_difference. split.
    + apply Hsub. rewrite Hb. apply elem_of_app. by right.
    + rewrite elem_of_list_to_set. intros Hc. by apply (Hdis r).
  - intros Hal r. rewrite Hr, elem_of_difference, elem_of_list_to_set. intros [Hin Hnc].
    apply (Heq (Ha Hal)) in Hin. rewrite Hb in Hin. set_solver.
Qed.

Lemma roots_ok_same t t' :
  roots_ok t → busy t ≡ₚ busy t' → background_roots t' = background_roots t →
  embed_alive t' = embed_alive t → roots_ok t'.
Proof.
  intros Hok Hb Hr Ha. apply (roots_ok_release Status t t'); [done|done| |by rewrite Ha].
  rewrite Hr. cbn. set_solver.
Qed.

Lemma roots_ok_subset t t' :
  roots_ok t → busy t' `sublist_of` busy t → background_roots t' = background_roots t →
  embed_alive t' = false → roots_ok t'.
Proof.
  intros (Hnd & Hsub & _) Hb Hr Ha. split_and!; [by eapply sublist_NoDup| |by rewrite Ha].
  intros r Hin. rewrite Hr. apply Hsub. by eapply elem_of_sublist.
Qed.

Lemma roots_ok_add class root texts deadline c t t' :
  roots_ok t → request_command (q_request c) = Embed class root texts deadline →
  (class = Background → root ∉ background_roots t) →
  busy t' ≡ₚ background_root (Embed class root texts deadline) ++ busy t →
  background_roots t' = list_to_set (background_root (Embed class root texts deadline)) ∪ background_roots t →
  embed_alive t' = embed_alive t → roots_ok t'.
Proof.
  intros (Hnd & Hsub & Heq) Hc Hfree Hb Hr Ha. split_and!.
  - rewrite Hb. destruct class; [done|]. cbn. constructor; [|done]. intros Hin. by apply Hfree, Hsub.
  - intros r. rewrite Hb, Hr, elem_of_app, elem_of_union, elem_of_list_to_set. naive_solver.
  - rewrite Ha. intros Hal r. rewrite Hb, Hr, elem_of_app, elem_of_union, elem_of_list_to_set. naive_solver.
Qed.

Lemma push_busy t class item :
  busy (set_scheduler (push root_id (scheduler t) class item) t) ≡ₚ
  background_root (request_command (q_request item)) ++ busy t.
Proof.
  unfold busy, push. cbn [set_scheduler scheduler embed]. rewrite enqueue_items, bind_cons.
  by rewrite app_assoc.
Qed.

Lemma release_root_roots class root texts deadline t :
  background_roots (release_root class root t) =
  background_roots t ∖ list_to_set (background_root (Embed class root texts deadline)).
Proof.
  unfold release_root. destruct class; cbn; [set_solver|]. f_equal. set_solver.
Qed.

Lemma release_root_busy class root t :
  busy (release_root class root t) = busy t ∧ embed_alive (release_root class root t) = embed_alive t.
Proof. unfold release_root. by destruct (bool_decide _). Qed.

Lemma handle_request_roots stream request ms now later t w :
  roots_ok t → roots_ok (handle_request limits not_running stream request ms now later t w).1.
Proof.
  intros Hok. unfold handle_request. destruct request as [request|]; [|done]. cbv zeta.
  destruct (request_command request) as [| |class root texts deadline|root q docs deadline]; [done..| |].
  - destruct (negb _); [done|].
    destruct (bool_decide (class = Background) && bool_decide (root ∈ background_roots t)) eqn:Hbusy; [done|].
    destruct (try_admit _ _ _ _) as [[ticket st]|]; [|done]. cbn [fst].
    set (t' := if bool_decide (class = Background) then _ else t). set (c := {| q_stream := stream |}).
    assert (busy t' = busy t ∧ embed_alive t' = embed_alive t ∧ background_roots t' =
      list_to_set (background_root (Embed class root texts deadline)) ∪ background_roots t)
      as (Hb & Ha & Hr).
    { unfold t'. destruct class; cbn; split_and!; [done|done|set_solver|done|done|]. f_equal. set_solver. }
    apply (roots_ok_add class root texts deadline c t); [done|done| | |exact Hr|exact Ha].
    + intros -> Hin. apply andb_false_iff in Hbusy as [Hb0|Hb0]; by apply bool_decide_eq_false in Hb0.
    + rewrite push_busy, Hb. done.
  - by destruct (rerank_admit _ _ _ _ _ _ _ _ _ _).
Qed.

Lemma process_at_roots item ms now t t0 w :
  roots_ok t0 → busy t0 ≡ₚ background_root (request_command (q_request item)) ++ busy t →
  background_roots t0 = background_roots t → embed_alive t0 = embed_alive t →
  roots_ok (process_at item ms now t w).1.
Proof.
  intros Hok Hb Hr Ha. unfold process_at.
  destruct (request_command (q_request item)) as [| |class root texts deadline|] eqn:Hc;
    try (by eapply roots_ok_same; [exact Hok|..]).
  assert (∀ t', embed_alive t' = embed_alive t → busy t' = busy t →
    background_roots t' = background_roots t → roots_ok (release_root class root t')) as Hrel.
  { intros t' Ha' Hb' Hr'. destruct (release_root_busy class root t') as [Hb2 Ha2].
    apply (roots_ok_release (Embed class root texts deadline) t0); [done|by rewrite Hb2, Hb'| |].
    - rewrite (release_root_roots _ _ texts deadline), Hr', Hr. done.
    - rewrite Ha2, Ha', Ha. done. }
  destruct (deadline <=? ms)%Z; [by apply Hrel|].
  destruct (cooling_error now (embed t)); [by apply Hrel|].
  destruct (loaded (embed t)); cbn [negb].
  - destruct (begin _ _) as [inflight st]. destruct (send _ _) as [x|] eqn:Hs.
    + eapply roots_ok_same; [exact Hok| |by rewrite Hr|].
      * rewrite Hb. unfold busy. cbn [fst set_embed set_executor set_active scheduler embed executor].
        apply send_outstanding in Hs. rewrite Hs. cbn [execute_of].
        rewrite bind_app, bind_cons. cbn [r_request mbind list_bind]. rewrite Hc. solve_Permutation.
      * rewrite Ha. unfold embed_alive, send in *. destruct (alive (executor (embed t))) eqn:?; [|done].
        by injection Hs as <-.
    + by apply Hrel.
  - set (t' := if negb (loading (embed t)) then _ else t).
    assert (busy t' = busy t ∧ background_roots t' = background_roots t ∧ embed_alive t' = embed_alive t)
      as (Hb' & Hr' & Ha').
    { unfold t'. destruct (negb _); [|done]. unfold busy, embed_alive.
      cbn [embed_start_loader set_embed embed scheduler background_roots]. rewrite start_loader_outstanding.
      split_and!; [done|done|]. unfold start_loader, send. cbn [executor].
      by destruct (alive (executor (embed t))) eqn:Hal; cbn. }
    eapply roots_ok_same; [exact Hok| |by cbn; rewrite Hr'|by rewrite Ha, <-Ha'].
    rewrite Hb. cbn [fst]. rewrite push_busy, Hb', Hc. done.
Qed.
Lemma dispatch_roots ms now t w : roots_ok t → roots_ok (dispatch ms now t w).1.
Proof.
  intros Hok. unfold dispatch. destruct (_ && _); [|done].
  destruct (pop (scheduler t)) as [[item sch]|] eqn:Hp; [|done]. apply pop_items in Hp.
  apply (process_at_roots item ms now _ t); [done| |done|done].
  unfold busy. cbn [set_scheduler scheduler embed]. rewrite Hp, bind_cons. by rewrite app_assoc.
Qed.

Lemma poll_one_roots ms now t w : roots_ok t → roots_ok (poll_one ms now t w).1.
Proof.
  intros Hok. unfold poll_one. destruct (try_recv (executor (embed t))) as [e x| |] eqn:Hr; [|done..].
  set (t' := set_embed _ t).
  assert (embed_alive t' = embed_alive t ∧ background_roots t' = background_roots t) as [Ha Hb].
  { unfold t', embed_alive. cbn [set_embed embed]. rewrite lane_event_executor, set_executor_executor.
    split; [|done]. unfold try_recv in Hr. destruct (events (executor (embed t))).
    - by destruct (alive (executor (embed t))).
    - by injection Hr as _ <-. }
  assert (busy t ≡ₚ (completed_of e ≫= λ c, background_root (request_command (r_request c))) ++ busy t') as Hbusy.
  { unfold busy, t'. cbn [set_embed embed scheduler]. rewrite lane_event_executor, set_executor_executor.
    apply try_recv_outstanding in Hr. rewrite Hr, bind_app. solve_Permutation. }
  destruct e as [o|request stream inflight outcome|]; [by eapply roots_ok_same| |by eapply roots_ok_same].
  cbn [completed_of] in Hbusy. rewrite bind_cons in Hbusy. cbn [r_request mbind list_bind] in Hbusy.
  rewrite app_nil_r in Hbusy.
  destruct (request_command request) as [| |class root texts deadline|] eqn:Hc; cbn [embed_completion fst];
    try (by apply (roots_ok_same t)).
  destruct (release_root_busy class root t') as [Hb2 Ha2].
  apply (roots_ok_release (Embed class root texts deadline) t); [done|by rewrite Hb2| |by rewrite Ha2, Ha].
  rewrite (release_root_roots _ _ texts deadline), Hb. done.
Qed.

Lemma worker_step_roots s s' :
  worker_step limits not_running s s' → lanes_ok (runtime s) → roots_ok (runtime s) → roots_ok (runtime s').
Proof.
  intros Hstep [He _] Hok. destruct Hstep as [stream request ms now later s Hf|ms now s|ms now s|ms now s
    |ms now later s|now s|now s|opened run s Ha|opened run s Ha|s Ha|s Ha];
    rewrite apply_runtime; rewrite ?on_rerank_runtime; cbn [pure fst];
    try (by apply (roots_ok_same (runtime s))).
  - by apply handle_request_roots.
  - by apply poll_one_roots.
  - by apply dispatch_roots.
  - unfold unload_idle. destruct (_ || _); [done|]. apply (roots_ok_same (runtime s)); [done| |done|].
    + unfold busy. cbn [set_embed scheduler embed]. by rewrite lane_unload_outstanding.
    + unfold embed_alive, lane_unload, send. cbn [set_embed embed]. destruct (last_used _); [|done].
      destruct (_ <=? _)%Z; [|done]. cbn [executor].
      destruct (alive (executor (embed (runtime s)))) eqn:Ha; cbn; by rewrite ?Ha.
  - unfold lane_ok in He. rewrite Ha in He.
    destruct (executor_turn_alive opened (embed_infer run) (executor (embed (runtime s)))) as (Ha' & _ & Ho);
      [intros c; by apply lane_state_no_shutdown|done|].
    apply (roots_ok_same (runtime s)); [done| |done|].
    + unfold busy. cbn [on_embed_executor set_embed scheduler embed set_executor executor]. by rewrite Ho.
    + unfold embed_alive. cbn. by rewrite Ha', Ha.
  - apply (roots_ok_subset (runtime s)); [done| |done|done]. unfold busy.
    cbn [on_embed_executor set_embed scheduler embed set_executor executor].
    apply sublist_app; [done|]. rewrite (crash_outstanding (executor (embed (runtime s)))).
    set (rest := commands _ ≫= execute_of). rewrite (bind_app _ _ rest). by apply sublist_inserts_r.
Qed.

Lemma reachable_roots s : worker_reachable limits not_running s → roots_ok (runtime s).
Proof.
  intros (c & cache & h & now & Hs). pose proof (worker_start_lanes (E:=E) (F:=F) c cache h now) as H0.
  assert (roots_ok (runtime (worker_start (E:=E) (F:=F) c cache h now))) as H1.
  { split_and!; [constructor|cbn; set_solver|cbn; set_solver]. }
  induction Hs as [|? ? ? Hstep _ IH]; [done|].
  apply IH; [by eapply worker_step_lanes|by eapply worker_step_roots].
Qed.
End Roots.

(** Background batches: no root ever has two background batches waiting or
    running, and while the embedding thread runs the busy roots are exactly those
    of the outstanding background batches, so a refused root really is busy and
    a finished one is free again. *)
Theorem background_roots_exact {E F} limits not_running (s : System E F) :
  worker_reachable limits not_running s →
  NoDup (busy (runtime s)) ∧
  (alive (executor (embed (runtime s))) = true →
   ∀ root, root ∈ background_roots (runtime s) ↔ root ∈ busy (runtime s)).
Proof.
  intros (Hnd & Hsub & Heq)%reachable_roots. split; [done|]. intros Ha root. split; [by apply Heq|apply Hsub].
Qed.

(** ** Crashes *)

(** The embedding lane, its thread gone with a batch unanswered and no event left. *)
Definition embed_wedged {E F} (t : WorkerRuntime E F) : Prop :=
  alive (executor (embed t)) = false ∧ events (executor (embed t)) = [] ∧ active (embed t) = true.

Lemma wedged_step {E F} limits not_running (s s' : System E F) :
  worker_step limits not_running s s' → embed_wedged (runtime s) →
  embed_wedged (runtime s') ∧
  (∀ c, c ∈ items (scheduler (runtime s)) → c ∈ items (scheduler (runtime s'))).
Proof.
  intros Hstep Hw. pose proof Hw as (Ha & Hev & Hact).
  destruct Hstep as [stream request ms now later s Hf|ms now s|ms now s|ms now s
    |ms now later s|now s|now s|opened run s Ha'|opened run s Ha'|s Ha'|s Ha'];
    rewrite apply_runtime; rewrite ?on_rerank_runtime; cbn [pure fst]; try (by split; [|auto]);
    try congruence.
  - unfold handle_request. destruct request as [request|]; [|by split; [|auto]]. cbv zeta.
    destruct (request_command request) as [| |class root texts deadline|root q docs deadline];
      [by split; [|auto]..| |by destruct (rerank_admit _ _ _ _ _ _ _ _ _ _); split; [|auto]].
    destruct (negb _); [by split; [|auto]|]. destruct (_ && _); [by split; [|auto]|].
    destruct (try_admit _ _ _ _) as [[ticket st]|]; [|by split; [|auto]]. cbn [fst].
    set (t' := if bool_decide (class = Background) then _ else _).
    assert (embed t' = embed (runtime s) ∧ scheduler t' = scheduler (runtime s)) as [He Hs]
      by (unfold t'; destruct (bool_decide (class = Background)); split; reflexivity).
    split; [unfold embed_wedged; cbn [set_scheduler embed]; by rewrite He|].
    intros c Hc. cbn [set_scheduler scheduler]. unfold push. rewrite enqueue_items, Hs. by right.
  - unfold poll_one, try_recv. rewrite Hev, Ha. by split; [|auto].
  - unfold dispatch. rewrite Hact. cbn [negb]. rewrite andb_false_r. cbn [andb]. by split; [|auto].
  - unfold unload_idle. rewrite Hact, orb_true_r. cbn [orb]. by split; [|auto].
Qed.


(** The replies that refuse a queue. *)
Definition refusals (q : list QueuedConnection) : list (nat * WorkerReply) :=
  (λ c, (q_stream c, ReplyError RERANK_EXITED)) <$> q.

(** The reranking lane recovers from a crash of its thread: once the last
    events are drained, the next poll of the channel clears the lane, empties the
    queue, and every request that waited gets exactly one error reply and gives
    its admission back. *)
Theorem rerank_crash_recovers {F} ms now (r : RerankLane F) w :
  alive (executor (rerank r)) = false → events (executor (rerank r)) = [] →
  let '(r', w') := pump_one ms now r w in
  active (rerank r') = false ∧ loaded (rerank r') = false ∧ loading (rerank r') = false ∧
  queue r' = [] ∧ load_error (rerank r') = Some RERANK_EXITED ∧
  replies w' = replies w ++ refusals (queue r) ∧
  admission w' = foldl (λ a c, drop_ticket (q_ticket c) a) (admission w) (queue r).
Proof.
  intros Ha Hev. unfold pump_one. rewrite (proj2 (try_recv_Disconnected _)) by done.
  cbn [drain_queue_with_error set_queue set_rerank rerank queue active loaded loading load_error
    record_load_failure default]. split_and!; [done..| |].
  - generalize (queue r) as q. intros q. revert w. induction q as [|c q IH]; intros w; cbn [foldl].
    + by rewrite app_nil_r.
    + rewrite IH. cbn. by rewrite <-app_assoc.
  - generalize (queue r) as q. intros q. revert w. induction q as [|c q IH]; intros w; cbn [foldl]; [done|].
    by rewrite IH.
Qed.

(** ** The run loop is a sequence of steps *)

Section RunLoop.
Context {E F : Type} (limits : AdmissionLimits) (not_running : InferenceConfig → WorkerStatus).
Implicit Types (t : WorkerRuntime E F) (s : System E F).
Abbreviation steps := (rtc (worker_step (E:=E) (F:=F) limits not_running)).

Definition at_ t (w : World) : System E F := {| runtime := t; world := w |}.

(** A request adds nothing but its own stream to what is answered or live. *)
Lemma rerank_admit_live handshake matching command stream ms now later (r : RerankLane F) w x :
  let '(r', w') := rerank_admit limits handshake matching command stream ms now later r w in
  outstanding (executor (rerank r')) = outstanding (executor (rerank r)) ∧
  (x ∈ (replies w').*1 ++ (q_stream <$> queue r') →
   x = stream ∨ x ∈ (replies w).*1 ++ (q_stream <$> queue r)).
Proof.
  unfold rerank_admit. destruct command; try (by split; [|auto]).
  destruct (negb matching); [split; [done|]; cbn; rewrite fmap_app; set_solver|].
  destruct (_ <=? _)%Z; [by split; [|auto]|].
  destruct (try_admit _ _ _ _) as [[ticket st]|]; [|split; [done|]; cbn; rewrite fmap_app; set_solver].
  destruct (loaded (rerank r)); cbn [negb].
  - split; [done|]. cbn. rewrite fmap_app. set_solver.
  - cbn [replies with_admission write_reply]. destruct (negb (loading (rerank r)) && _);
      cbn [rerank_start_loader set_rerank queue rerank]; rewrite ?start_loader_outstanding;
      (split; [done|]; rewrite fmap_app; set_solver).
Qed.

Lemma handle_request_live stream request ms now later t w x :
  let '(t', w') := handle_request limits not_running stream request ms now later t w in
  x ∈ live_streams (at_ t' w') → x = stream ∨ x ∈ live_streams (at_ t w).
Proof.
  unfold handle_request, live_streams, streams_of, at_. cbn [runtime world].
  destruct request as [request|]; [|cbn; rewrite fmap_app; set_solver]. cbv zeta.
  destruct (request_command request) as [| |class root texts deadline|root q docs deadline];
    [cbn; rewrite fmap_app; set_solver..| |].
  - destruct (negb _); [cbn; rewrite fmap_app; set_solver|].
    destruct (_ && _); [cbn; rewrite fmap_app; set_solver|].
    destruct (try_admit _ _ _ _) as [[ticket st]|]; [|cbn; rewrite fmap_app; set_solver].
    set (t' := if bool_decide (class = Background) then _ else t).
    assert (waiting_connections t' = waiting_connections t ∧ running_connections t' = running_connections t)
      as [Hw Hr] by (unfold t'; destruct (bool_decide (class = Background)); split; reflexivity).
    rewrite push_waiting, Hw. change (running_connections (set_scheduler _ t')) with (running_connections t').
    rewrite Hr. cbn. set_solver.
  - pose proof (rerank_admit_live (worker_handshake t)
      (bool_decide (request_handshake request = worker_handshake t)) (Rerank root q docs deadline)
      stream ms now later (rerank_lane t) w x) as Hl.
    destruct (rerank_admit _ _ _ _ _ _ _ _ _ _) as [r' w']. destruct Hl as [Ho Hx].
    unfold waiting_connections, running_connections. cbn [set_rerank_lane scheduler rerank_lane embed].
    rewrite Ho, !fmap_app. clear -Hx. rewrite !elem_of_app in *. naive_solver.
Qed.

Lemma handle_parsed_steps requests t w :
  NoDup (parsed_stream <$> requests) →
  (∀ q, q ∈ requests → parsed_stream q ∉ live_streams (at_ t w)) →
  let '(t', w') := handle_parsed limits not_running requests t w in steps (at_ t w) (at_ t' w').
Proof.
  unfold handle_parsed. revert t w. induction requests as [|q requests IH]; intros t w Hnd Hf; cbn [foldl].
  { apply rtc_refl. }
  rewrite fmap_cons in Hnd. apply NoDup_cons in Hnd as [Hq Hnd].
  pose proof (StepRequest limits not_running (parsed_stream q) (parsed_request q) (parsed_ms q)
    (parsed_now q) (parsed_later q) (at_ t w) (Hf q ltac:(left))) as Hstep.
  pose proof (handle_request_live (parsed_stream q) (parsed_request q) (parsed_ms q)
    (parsed_now q) (parsed_later q) t w) as Hlive.
  unfold apply in Hstep. cbn [at_ runtime world] in Hstep.
  destruct (handle_request limits not_running _ _ _ _ _ t w) as [t1 w1].
  specialize (IH t1 w1 Hnd). destruct (foldl _ (t1, w1) requests) as [t' w'].
  eapply rtc_l; [exact Hstep|]. apply IH. intros p Hp Hin. destruct (Hlive _ Hin) as [He|Hl].
  - apply Hq. rewrite <-He. by apply list_elem_of_fmap_2.
  - by apply (Hf p); [right|].
Qed.

(** An operation that is one step extends a sequence of steps. *)
Lemma then_step (f : WorkerRuntime E F → World → WorkerRuntime E F * World) s t w :
  worker_step limits not_running (at_ t w) (apply f (at_ t w)) → steps s (at_ t w) →
  let '(t', w') := f t w in steps s (at_ t' w').
Proof. unfold apply. cbn [at_ runtime world]. intros Hf Hs. destruct (f t w). by eapply rtc_r. Qed.

Lemma poll_events_steps fuel clock s t w :
  steps s (at_ t w) → let '(t', w') := poll_events fuel clock t w in steps s (at_ t' w').
Proof.
  revert clock t w. induction fuel as [|fuel IH]; intros clock t w Hs; cbn [poll_events]; [done|].
  pose proof (then_step (poll_one (clock 0).1 (clock 0).2) s t w (StepPoll _ _ _ _ _) Hs) as H1.
  destruct (poll_one _ _ t w) as [t1 w1]. by apply IH.
Qed.

Lemma pump_events_steps fuel clock now s t w :
  steps s (at_ t w) →
  let '(t', w') := on_rerank (pump_events fuel clock now) t w in steps s (at_ t' w').
Proof.
  revert clock t w. induction fuel as [|fuel IH]; intros clock t w Hs; unfold on_rerank; cbn [pump_events].
  { by destruct t. }
  pose proof (then_step (on_rerank (pump_one (clock 0) now)) s t w (StepPump _ _ _ _ _) Hs) as H1.
  unfold on_rerank in H1. destruct (pump_one _ _ _ w) as [r1 w1].
  specialize (IH (λ i, clock (S i)) _ w1 H1). unfold on_rerank in IH. cbn [set_rerank_lane rerank_lane] in IH.
  by destruct (pump_events _ _ _ r1 w1).
Qed.
End RunLoop.

(** The run loop: an iteration of [run] on new streams is a sequence of the
    steps above, so everything proved of interleavings holds of the loop. *)
Theorem run_iteration_steps {E F} limits not_running requests clock (t : WorkerRuntime E F) w :
  NoDup (parsed_stream <$> requests) →
  (∀ q, q ∈ requests → parsed_stream q ∉ live_streams {| runtime := t; world := w |}) →
  let '(t', w') := run_iteration limits not_running requests clock t w in
  rtc (worker_step limits not_running) {| runtime := t; world := w |} {| runtime := t'; world := w' |}.
Proof.
  intros Hnd Hf. unfold run_iteration. set (s := {| runtime := t; world := w |}).
  pose proof (handle_parsed_steps limits not_running requests t w Hnd Hf) as H1.
  destruct (handle_parsed _ _ requests t w) as [t1 w1].
  pose proof (poll_events_steps limits not_running (S (length (events (executor (embed t1)))))
    (poll_clock clock) s t1 w1 H1) as H2. unfold poll_executor. destruct (poll_events _ _ t1 w1) as [t2 w2].
  pose proof (pump_events_steps limits not_running (S (length (events (executor (rerank (rerank_lane t2))))))
    (pump_clock clock) (pump_now clock) s t2 w2 H2) as H3.
  change (on_rerank (pump (pump_clock clock) (pump_now clock)) t2 w2) with (on_rerank (pump_events
    (S (length (events (executor (rerank (rerank_lane t2)))))) (pump_clock clock) (pump_now clock)) t2 w2).
  destruct (on_rerank (pump_events _ _ _) t2 w2) as [t3 w3].
  pose proof (then_step limits not_running _ s t3 w3
    (StepDispatch _ _ (dispatch_ms clock) (dispatch_now clock) _) H3) as H4.
  destruct (dispatch _ _ t3 w3) as [t4 w4].
  set (polled := if negb (stopping t4) then _ else _).
  assert (let '(t', w') := polled in rtc (worker_step limits not_running) s (at_ t' w')) as H5.
  { unfold polled. destruct (negb (stopping t4)); [|exact H4].
    exact (then_step limits not_running _ s t4 w4
      (StepRerankPoll _ _ (rerank_ms clock) (rerank_now clock) (rerank_later clock) _) H4). }
  destruct polled as [t5 w5].
  pose proof (then_step limits not_running _ s t5 w5 (StepUnload _ _ (unload_now clock) _) H5) as H6.
  cbn [pure] in H6.
  exact (then_step limits not_running _ s _ w5 (StepRerankUnload _ _ (rerank_unload_now clock) _) H6).
Qed.

(** ** Witnesses *)

Module WorkerExample.
Definition handshake : Handshake :=
  {| protocol := 1; build := lit "b"; handshake_config := lit "c"; handshake_model := lit "m" |}.
Definition stopped (c : InferenceConfig) : WorkerStatus :=
  {| state := NotRunning; status_provider := provider_text (provider c); status_gpu_uuid := gpu_uuid c;
     status_pending := 0; status_loaded := false; config_fingerprint := lit "c";
     model_fingerprint := lit "m"; handshake_match := true; status_error := None;
     rerank_loaded := false; status_rerank_gpu_uuid := None; rerank_error := None; rerank_pending := 0 |}.
Definition background (root : string) : result WorkerRequest :=
  Ok {| request_handshake := handshake;
        request_command := Embed Background (lit root) [lit "fn main() {}"] 1000 |}.
Abbreviation step := (worker_step (E:=unit) (F:=unit) limits_default stopped).
Definition s0 : System unit unit := worker_start config_default (lit "cache") handshake 0.
(** A batch is admitted, starts the loader, and waits; the engine loads; the
    batch is dispatched; another root's batch is admitted. *)
Definition s1 := apply (handle_request limits_default stopped 1 (background "a") 0 0 0) s0.
Definition s2 := apply (dispatch 1 1) s1.
Definition s3 := apply (pure (on_embed_executor (executor_turn (Ok tt) (embed_infer (λ e _, (Ok [], e)))))) s2.
Definition s4 := apply (poll_one 2 2) s3.
Definition s5 := apply (dispatch 3 3) s4.
Definition s6 := apply (handle_request limits_default stopped 2 (background "b") 4 4 4) s5.
(** The thread crashes with the first batch. *)
Definition s7 := apply (λ t w, (on_embed_executor crash t, crash_world (executor (embed t)) w)) s6.

Lemma limits_default_ok : limits_ok limits_default.
Proof. by vm_compute. Qed.

Lemma s6_steps : step s0 s1 ∧ step s1 s2 ∧ step s2 s3 ∧ step s3 s4 ∧ step s4 s5 ∧ step s5 s6.
Proof.
  split_and!.
  - unfold s1. apply StepRequest. apply (bool_decide_unpack _). vm_compute. exact I.
  - unfold s2. apply StepDispatch.
  - unfold s3. apply StepInference. reflexivity.
  - unfold s4. apply StepPoll.
  - unfold s5. apply StepDispatch.
  - unfold s6. apply StepRequest. apply (bool_decide_unpack _). vm_compute. exact I.
Qed.

Lemma s6_reachable : worker_reachable limits_default stopped s6.
Proof.
  exists config_default, (lit "cache"), handshake, 0%Z. fold s0.
  destruct s6_steps as (H1 & H2 & H3 & H4 & H5 & H6).
  exact (rtc_l _ _ _ _ H1 (rtc_l _ _ _ _ H2 (rtc_l _ _ _ _ H3
    (rtc_l _ _ _ _ H4 (rtc_l _ _ _ _ H5 (rtc_once _ _ H6)))))).
Qed.


Definition dispatched : RunningConnection :=
  {| r_request := {| request_handshake := handshake;
       request_command := Embed Background (lit "a") [lit "fn main() {}"] 1000 |};
     r_stream := 1; r_inflight := {| inflight_bytes := 12 |} |}.

Lemma dispatch_finds_engine_witness :
  active (embed (runtime s6)) = true ∧ is_Some (engine (executor (embed (runtime s6)))).
Proof.
  split; [vm_compute; reflexivity|].
  assert (alive (executor (embed (runtime s6))) = true) as Ha by (vm_compute; reflexivity).
  assert (commands (executor (embed (runtime s6))) = [Execute dispatched]) as Hc
    by (vm_compute; reflexivity).
  exact (proj2 (proj1 (dispatch_finds_engine limits_default stopped s6 s6_reachable) Ha) dispatched [] Hc).
Defined.

Lemma background_roots_exact_witness :
  lit "b" ∈ background_roots (runtime s6) ∧ lit "b" ∈ busy (runtime s6).
Proof.
  assert (lit "b" ∈ background_roots (runtime s6)) as Hb
    by (apply (bool_decide_unpack _); vm_compute; exact I).
  split; [exact Hb|].
  assert (alive (executor (embed (runtime s6))) = true) as Ha by (vm_compute; reflexivity).
  exact (proj1 (proj2 (background_roots_exact limits_default stopped s6 s6_reachable) Ha (lit "b")) Hb).
Defined.


Definition waiting_rerank : QueuedConnection :=
  {| q_request := {| request_handshake := handshake; request_command := Rerank (lit "a") [] [] 1000 |};
     q_stream := 9; q_ticket := {| ticket_bytes := 0; started := false |} |}.
Definition dead_lane : RerankLane unit :=
  {| rerank_config := config_default; queue := [waiting_rerank];
     rerank := set_executor (crash spawn) (set_active true lane_default) |}.

Lemma rerank_crash_recovers_witness :
  (pump_one 1 1 dead_lane (world s6)).2.(replies) = [(9, ReplyError RERANK_EXITED)].
Proof.
  pose proof (rerank_crash_recovers 1 1 dead_lane (world s6) eq_refl eq_refl) as H.
  destruct (pump_one 1 1 dead_lane (world s6)) as [r' w'].
  destruct H as (_ & _ & _ & _ & _ & Hr & _). exact Hr.
Defined.

Definition next_requests : list ParsedRequest :=
  [{| parsed_stream := 3; parsed_request := background "c"; parsed_ms := 5; parsed_now := 5; parsed_later := 5 |}].
Definition next_clock : IterationClock :=
  {| poll_clock := λ _, (5, 5)%Z; pump_clock := λ _, 5%Z; pump_now := 5; dispatch_ms := 5; dispatch_now := 5;
     rerank_ms := 5; rerank_now := 5; rerank_later := 5; unload_now := 5; rerank_unload_now := 5 |}.

Lemma run_iteration_steps_witness :
  let '(t, w) := run_iteration limits_default stopped next_requests next_clock (runtime s6) (world s6) in
  rtc step {| runtime := runtime s6; world := world s6 |} {| runtime := t; world := w |}.
Proof.
  assert (NoDup (parsed_stream <$> next_requests)) as Hnd by apply NoDup_singleton.
  assert (∀ q, q ∈ next_requests →
    parsed_stream q ∉ live_streams {| runtime := runtime s6; world := world s6 |}) as Hf.
  { intros q Hq. apply list_elem_of_singleton in Hq. subst q.
    apply (bool_decide_unpack _). vm_compute. exact I. }
  exact (run_iteration_steps limits_default stopped next_requests next_clock (runtime s6) (world s6) Hnd Hf).
Defined.
End WorkerExample.
