(* ===== verification/Snippets.v ===== *)
(** * Hit previews

    Models [src/src/search/snippets.rs]: the preview terms of a query, the best
    line of a span, its bounded one-line text, and attaching previews to the
    leading hits through a cache of the stored sources. *)
From Stdlib Require Import Ascii String ZArith Lia Permutation.
From stdpp Require Import base numbers list gmap strings.
From S2P Require Import Prelude Order Text Hits QueryShape.

Definition SNIPPET_HITS : nat := 200.
Definition SNIPPET_CHARS : nat := 120.
Definition SCAN_LINES : nat := 2000.
Definition newline : ascii := chr 10.

(** ** Text of the standard library *)

(** The length of the maximal invalid sequence [from_utf8] reports at the front. *)
Definition invalid_len (s : str) : nat :=
  match s with
  | a :: b :: rest =>
      let third := match rest with c :: _ => is_cont c | [] => false end in
      if (in_range 224 224 a && in_range 160 191 b) || (in_range 225 236 a && is_cont b)
         || (in_range 237 237 a && in_range 128 159 b) || (in_range 238 239 a && is_cont b) then 2
      else if (in_range 240 240 a && in_range 144 191 b) || (in_range 241 243 a && is_cont b)
              || (in_range 244 244 a && in_range 128 143 b) then if third then 3 else 2
      else 1
  | _ => 1
  end.
Definition REPLACEMENT : str := [chr 239; chr 191; chr 189].

(** [String::from_utf8_lossy]; every turn consumes at least one byte. *)
Fixpoint from_utf8_lossy_go (fuel : nat) (s : str) : str :=
  match fuel, s with
  | S fuel, _ :: _ =>
      match utf8_char_len s with
      | Some n => take n s ++ from_utf8_lossy_go fuel (drop n s)
      | None => REPLACEMENT ++ from_utf8_lossy_go fuel (drop (invalid_len s) s)
      end
  | _, _ => []
  end.
Definition from_utf8_lossy (s : str) : str := from_utf8_lossy_go (length s) s.

(** [char::is_control]: the general category Cc. *)
Definition is_control (c : str) : bool :=
  match c with
  | [a] => in_range 0 31 a || in_range 127 127 a
  | [a; b] => in_range 194 194 a && in_range 128 159 b
  | _ => false
  end.

Section Preview.
Context `{UnicodeTables}.

(** ** Terms *)

Fixpoint push_distinct (terms candidates : list str) : list str :=
  match candidates with
  | [] => terms
  | term :: candidates =>
      push_distinct (if bool_decide (term ∈ terms) then terms else terms ++ [term]) candidates
  end.
Definition preview_terms (text : str) : list str :=
  push_distinct []
    (to_lowercase <$> List.filter (λ term, 2 <=? length term)
       (split_class (λ c, negb (is_alphanumeric c) && negb (c =s lit "_")) (chars text))).

(** ** The best line of a span *)

(** [(Reverse(evidence), class)]. *)
Record PreviewRank := { evidence : nat; class : nat }.
Definition rank_lt (a b : PreviewRank) : bool :=
  (evidence b <? evidence a) || ((evidence a =? evidence b) && (class a <? class b)).

Definition line_matched (terms : list str) (line : str) : nat :=
  length (List.filter (λ term, contains term (to_lowercase (from_utf8_lossy line))) terms).
Definition line_blank (line : str) : bool := trim_start (from_utf8_lossy line) =s [].
Definition line_comment (line : str) : bool :=
  existsb (λ marker, starts_with (lit marker) (trim_start (from_utf8_lossy line)))
    ["//"; "/*"; "*"; "#"; "--"; ";"]%string.
Definition line_named (name line : str) : bool :=
  nonempty name && contains name (to_lowercase (from_utf8_lossy line)).

Definition line_class (matched : nat) (named comment : bool) : nat :=
  match 0 <? matched, named, comment with
  | true, _, false => 0
  | false, true, false => 1
  | true, _, true => 2
  | false, true, true => 3
  | false, false, false => 4
  | false, false, true => 5
  end.
Definition line_rank (terms : list str) (name line : str) : PreviewRank :=
  let matched := line_matched terms line in
  let comment := line_comment line in
  {| evidence := 2 * matched + (if (0 <? matched) && negb comment then 3 else 0);
     class := line_class matched (line_named name line) comment |}.

(** The loop over the lines from [offset] on; [position] is where the line starts. *)
Fixpoint scan_lines (lines : list str) (offset position stop first_line : nat) (terms : list str)
    (name : str) (best : option (PreviewRank * nat * str)) : option (PreviewRank * nat * str) :=
  match lines with
  | [] => best
  | line :: lines =>
      if (0 <? offset) && (stop <=? position) then best
      else
        let position := position + length line + 1 in
        if line_blank line then scan_lines lines (S offset) position stop first_line terms name best
        else
          let rank := line_rank terms name line in
          if match best with None => true | Some (old, _, _) => rank_lt rank old end then
            let best := Some (rank, first_line + offset, line) in
            if (line_matched terms line =? length terms) && (class rank =? 0) then best
            else scan_lines lines (S offset) position stop first_line terms name best
          else scan_lines lines (S offset) position stop first_line terms name best
  end.

Definition snippet (line : nat) (text : str) : Snippet :=
  let clean := (λ ch, if is_control ch then lit " " else ch) <$> chars (trim text) in
  let kept := concat (take SNIPPET_CHARS clean) in
  {| snippet_line := line;
     snippet_text := if SNIPPET_CHARS <? length clean then kept ++ [chr 226; chr 128; chr 166] else kept |}.

(** [rposition] of the newline before [start]. *)
Definition line_begin (bytes : str) (start : nat) : nat :=
  match rsplit_once newline (take start bytes) with
  | Some (before, _) => length before + 1
  | None => 0
  end.

Definition preview (bytes : str) (start end_ first_line : nat) (terms : list str) (name : str)
    : option Snippet :=
  let start := Nat.min start (length bytes) in
  let begin := line_begin bytes start in
  let stop := Nat.min (Nat.max end_ start) (length bytes) in
  match scan_lines (take SCAN_LINES (split_char newline (drop begin bytes))) 0 begin stop first_line
          terms (to_lowercase name) None with
  | Some (_, number, line) => Some (snippet number (from_utf8_lossy line))
  | None => None
  end.
End Preview.

(** ** Attaching previews *)

Section Attach.
Context `{UnicodeTables}.
(** [SELECT bytes FROM contents WHERE revision=?1], with [optional()]. *)
Context (contents : str → result (option str)).

Definition with_snippet (hit : Hit) (s : option Snippet) : Hit :=
  {| hit_handle := hit_handle hit; hit_path := hit_path hit; hit_revision := hit_revision hit;
     hit_start := hit_start hit; hit_end := hit_end hit; hit_start_line := hit_start_line hit;
     hit_end_line := hit_end_line hit; hit_name := hit_name hit; hit_kind := hit_kind hit;
     hit_container := hit_container hit; hit_provenance := hit_provenance hit;
     hit_resolution := hit_resolution hit; hit_candidates := hit_candidates hit;
     hit_target := hit_target hit; hit_snippet := s; hit_repeats := hit_repeats hit |}.

Definition hit_preview (terms : list str) (hit : Hit) (bytes : str) : option Snippet :=
  preview bytes (hit_start hit) (hit_end hit) (hit_start_line hit) terms (hit_name hit).

(** The loop over the hits taken, with the sources read so far. *)
Fixpoint attach_go (terms : list str) (sources : gmap str (option str)) (hits : list Hit)
    : result (list Hit) :=
  match hits with
  | [] => Ok []
  | hit :: hits =>
      match hit_snippet hit, hit_revision hit with
      | Some _, _ | None, None => rest ← attach_go terms sources hits; Ok (hit :: rest)
      | None, Some revision =>
          sources ← match sources !! revision with
                    | Some _ => Ok sources
                    | None => bytes ← contents revision; Ok (<[revision := bytes]> sources)
                    end;
          let hit := match sources !! revision with
                     | Some (Some bytes) => with_snippet hit (hit_preview terms hit bytes)
                     | _ => hit
                     end in
          rest ← attach_go terms sources hits; Ok (hit :: rest)
      end
  end.
Definition attach (terms : list str) (hits : list Hit) : result (list Hit) :=
  leading ← attach_go terms ∅ (take SNIPPET_HITS hits);
  Ok (leading ++ drop SNIPPET_HITS hits).

(** The same without the cache: each hit reads its own source. *)
Definition attach_one (terms : list str) (hit : Hit) : result Hit :=
  match hit_snippet hit, hit_revision hit with
  | None, Some revision =>
      bytes ← contents revision;
      Ok (match bytes with
          | Some bytes => with_snippet hit (hit_preview terms hit bytes)
          | None => hit
          end)
  | _, _ => Ok hit
  end.

Lemma attach_go_eq terms sources hits :
  (∀ revision bytes, sources !! revision = Some bytes → contents revision = Ok bytes) →
  attach_go terms sources hits = try_map (attach_one terms) hits.
Proof.
  revert sources. induction hits as [|hit hits IH]; intros sources Hs; [done|].
  cbn [attach_go try_map].
  assert (attach_one terms hit = match hit_snippet hit, hit_revision hit with
    | None, Some revision =>
        bytes ← contents revision;
        Ok (match bytes with Some bytes => with_snippet hit (hit_preview terms hit bytes) | None => hit end)
    | _, _ => Ok hit end) as -> by done.
  destruct (hit_snippet hit); [by rewrite (IH _ Hs)|].
  destruct (hit_revision hit) as [revision|]; [|by rewrite (IH _ Hs)].
  destruct (sources !! revision) as [bytes|] eqn:Hl.
  - rewrite (Hs _ _ Hl). cbn [mbind result_bind]. rewrite Hl, (IH _ Hs). by destruct bytes.
  - destruct (contents revision) as [bytes|e] eqn:Hc; [|done]. cbn [mbind result_bind].
    rewrite lookup_insert_eq, IH; [by destruct bytes|].
    intros r b. rewrite lookup_insert. case_decide; naive_solver.
Qed.

(** Previews: reading each revision once changes nothing: the leading 200 hits
    without a preview get the preview of their own source, the others are left,
    and a failing read is reported. *)
Theorem attach_uncached terms hits :
  attach terms hits =
    (leading ← try_map (attach_one terms) (take SNIPPET_HITS hits);
     Ok (leading ++ drop SNIPPET_HITS hits)).
Proof. unfold attach. by rewrite attach_go_eq. Qed.
End Attach.

(** ** The best line *)

Section Best.
Context `{UnicodeTables} (terms : list str) (name : str).

(** The lines the scan may show: in the span, not blank; with their offsets. *)
Fixpoint candidate_lines (lines : list str) (offset position stop : nat) : list (nat * str) :=
  match lines with
  | [] => []
  | line :: lines =>
      if (0 <? offset) && (stop <=? position) then []
      else
        let rest := candidate_lines lines (S offset) (position + length line + 1) stop in
        if line_blank line then rest else (offset, line) :: rest
  end.

Definition rank_of (c : nat * str) : PreviewRank := line_rank terms name c.2.
(** No candidate ranks before [c]. *)
Definition best_among (cs : list (nat * str)) (c : nat * str) : bool :=
  forallb (λ d, negb (rank_lt (rank_of d) (rank_of c))) cs.

Definition pick (best : option (nat * str)) (c : nat * str) : option (nat * str) :=
  match best with
  | None => Some c
  | Some b => if rank_lt (rank_of c) (rank_of b) then Some c else best
  end.

Lemma rank_lt_true a b :
  rank_lt a b = true ↔ evidence b < evidence a ∨ evidence a = evidence b ∧ class a < class b.
Proof.
  unfold rank_lt. rewrite orb_true_iff, andb_true_iff, !Nat.ltb_lt, Nat.eqb_eq. done.
Qed.
Lemma rank_lt_false a b :
  rank_lt a b = false ↔ ¬ (evidence b < evidence a ∨ evidence a = evidence b ∧ class a < class b).
Proof. rewrite <-rank_lt_true. by destruct (rank_lt a b). Qed.

(** A code line with every term outranks nothing that follows. *)
Lemma full_match_best line d :
  line_matched terms line = length terms → class (line_rank terms name line) = 0 →
  rank_lt (rank_of d) (line_rank terms name line) = false.
Proof.
  intros Hm Hc. apply rank_lt_false. unfold rank_of, line_rank in *.
  cbn [evidence class] in *. rewrite Hm in *. rewrite Hc.
  assert (line_matched terms d.2 ≤ length terms) as Hle
    by (unfold line_matched; apply List.filter_length_le).
  assert ((0 <? length terms) = true ∧ line_comment line = false) as [-> ->].
  { unfold line_class in Hc. by destruct (0 <? length terms), (line_named name line), (line_comment line). }
  cbn [andb negb]. destruct (_ && _); lia.
Qed.

Lemma pick_fixed b cs :
  (∀ d, rank_lt (rank_of d) (rank_of b) = false) → foldl pick (Some b) cs = Some b.
Proof. intros Hb. induction cs as [|c cs IH]; [done|]. cbn [foldl pick]. by rewrite Hb. Qed.

Definition entry_line (first_line : nat) (c : nat * str) : PreviewRank * nat * str :=
  (rank_of c, first_line + c.1, c.2).

Lemma scan_lines_pick lines offset position stop first_line best :
  scan_lines lines offset position stop first_line terms name (entry_line first_line <$> best) =
  entry_line first_line <$> foldl pick best (candidate_lines lines offset position stop).
Proof.
  revert offset position best. induction lines as [|line lines IH]; intros offset position best;
    cbn [scan_lines candidate_lines]; [done|].
  destruct ((0 <? offset) && (stop <=? position)); [done|].
  destruct (line_blank line); [apply IH|]. cbn [foldl].
  assert (match entry_line first_line <$> best with
    | None => true | Some (old, _, _) => rank_lt (line_rank terms name line) old end =
    match best with None => true | Some b => rank_lt (rank_of (offset, line)) (rank_of b) end) as ->
    by by destruct best.
  destruct (match best with None => true | Some b => _ end) eqn:Hb.
  - assert (pick best (offset, line) = Some (offset, line)) as ->.
    { destruct best; cbn [pick] in *; [by rewrite Hb|done]. }
    destruct ((line_matched terms line =? length terms) && _) eqn:Hf; [|apply (IH _ _ (Some (offset, line)))].
    bool_to_prop. rewrite pick_fixed; [done|]. intros d. by apply full_match_best.
  - assert (pick best (offset, line) = best) as ->; [|apply IH].
    destruct best; cbn [pick] in *; [by rewrite Hb|done].
Qed.

Lemma best_among_spec cs c :
  best_among cs c = true ↔ ∀ d, d ∈ cs → rank_lt (rank_of d) (rank_of c) = false.
Proof.
  unfold best_among. rewrite forallb_forall. split; intros Hd d Hin.
  - apply negb_true_iff, Hd. by apply list_elem_of_In.
  - apply negb_true_iff, Hd. by apply list_elem_of_In.
Qed.

Lemma pick_some cs b : is_Some (foldl pick (Some b) cs).
Proof.
  revert b. induction cs as [|x cs IH]; intros b; cbn [foldl pick]; [by eexists|].
  destruct (rank_lt _ _); apply IH.
Qed.

Lemma pick_split cs b :
  foldl pick None cs = Some b →
  ∃ before after, cs = before ++ b :: after ∧
    (∀ d, d ∈ cs → rank_lt (rank_of d) (rank_of b) = false) ∧
    (∀ d, d ∈ before → rank_lt (rank_of b) (rank_of d) = true).
Proof.
  revert b. induction cs as [|c cs IH] using rev_ind; intros b; [done|]. rewrite foldl_app. cbn [foldl].
  destruct (foldl pick None cs) as [b'|] eqn:Hl; cbn [pick].
  - destruct (IH b' eq_refl) as (before & after & -> & Hmin & Hbef). clear IH Hl.
    destruct (rank_lt (rank_of c) (rank_of b')) eqn:Hc; intros H1; injection H1 as <-.
    + apply rank_lt_true in Hc. exists (before ++ b' :: after), []. split_and!; [done|..].
      * intros d [Hd|Hd]%elem_of_app; [|apply list_elem_of_singleton in Hd; subst d; apply rank_lt_false; lia].
        specialize (Hmin d Hd). apply rank_lt_false in Hmin. apply rank_lt_false. lia.
      * intros d Hd. specialize (Hmin d Hd). apply rank_lt_false in Hmin. apply rank_lt_true. lia.
    + exists before, (after ++ [c]). split_and!; [by rewrite <-app_assoc| |done].
      intros d [Hd|Hd]%elem_of_app; [by apply Hmin|]. apply list_elem_of_singleton in Hd. by subst d.
  - intros H1. injection H1 as <-. destruct cs as [|c0 cs0].
    + exists [], []. split_and!; [done| |by intros d ?%elem_of_nil].
      intros d Hd. apply list_elem_of_singleton in Hd. subst d. apply rank_lt_false. lia.
    + cbn [foldl pick] in Hl. destruct (pick_some cs0 c0). congruence.
Qed.

Lemma find_split {A} (f : A → bool) before b after :
  f b = true → (∀ d, d ∈ before → f d = false) → find f (before ++ b :: after) = Some b.
Proof.
  intros Hb. induction before as [|x before IH]; intros Hbef; cbn [app find]; [by rewrite Hb|].
  rewrite (Hbef x) by left. apply IH. intros d Hd. apply Hbef. by right.
Qed.

(** Keeping the earlier of equals, one pass finds the first best candidate. *)
Lemma pick_first_best cs : foldl pick None cs = find (best_among cs) cs.
Proof.
  destruct (foldl pick None cs) as [b|] eqn:Hf.
  - destruct (pick_split cs b Hf) as (before & after & Hcs & Hmin & Hbef).
    assert (best_among cs b = true) as Hb by by apply best_among_spec.
    rewrite Hcs at 2. symmetry. apply find_split; [done|]. intros d Hd.
    destruct (best_among cs d) eqn:Hd'; [|done].
    apply best_among_spec with (d := b) in Hd'; [|rewrite Hcs; set_solver]. by rewrite Hbef in Hd'.
  - destruct cs as [|c cs]; [done|]. cbn [foldl pick] in Hf. destruct (pick_some cs c). congruence.
Qed.
End Best.

(** Preview choice: the preview of a span is the first, among the non-blank
    lines of the first 2,000 that start inside it, that no other outranks: most
    evidence first, then the line class; leaving the scan early at a code line
    with every term changes nothing. *)
Theorem preview_first_best `{UnicodeTables} bytes start end_ first_line terms name :
  let begin := line_begin bytes (Nat.min start (length bytes)) in
  let stop := Nat.min (Nat.max end_ (Nat.min start (length bytes))) (length bytes) in
  let cs := candidate_lines (take SCAN_LINES (split_char newline (drop begin bytes))) 0 begin stop in
  preview bytes start end_ first_line terms name =
  match find (best_among terms (to_lowercase name) cs) cs with
  | Some (offset, line) => Some (snippet (first_line + offset) (from_utf8_lossy line))
  | None => None
  end.
Proof.
  cbv zeta. unfold preview.
  pose proof (scan_lines_pick terms (to_lowercase name)
    (take SCAN_LINES (split_char newline (drop (line_begin bytes (Nat.min start (length bytes))) bytes)))
    0 (line_begin bytes (Nat.min start (length bytes)))
    (Nat.min (Nat.max end_ (Nat.min start (length bytes))) (length bytes)) first_line None) as Hs.
  cbn [fmap option_fmap option_map] in Hs. rewrite Hs, pick_first_best.
  by destruct (find _ _) as [[offset line]|].
Qed.

(** The preview text: at most 120 characters, or those and an ellipsis. *)
Lemma snippet_bounded `{UnicodeTables} line text :
  ∃ kept, length kept ≤ SNIPPET_CHARS ∧
    (snippet_text (snippet line text) = concat kept ∨
     snippet_text (snippet line text) = concat kept ++ [chr 226; chr 128; chr 166]) ∧
    Forall (λ ch, is_control ch = false) kept.
Proof.
  unfold snippet. cbn [snippet_text].
  set (clean := (λ ch, if is_control ch then lit " " else ch) <$> chars (trim text)).
  exists (take SNIPPET_CHARS clean). split_and!.
  - rewrite length_take. lia.
  - destruct (_ <? _); auto.
  - apply Forall_take, Forall_fmap, Forall_forall. intros ch _. cbn.
    destruct (is_control ch) eqn:Hc; [done|exact Hc].
Qed.

(** The cases of the module's own tests. *)
Section Examples.
#[local] Existing Instance AsciiTables.tables.
Definition lines_of (ls : list string) : str := join [newline] (lit <$> ls).

Example preview_cases :
  let source := lines_of ["/// Refills tokens."; "#[inline]"; "pub fn refill(&mut self) {";
                          "    self.tokens = self.capacity;"; "}"; ""]%string in
  preview source 0 (length source) 10 (preview_terms (lit "capacity")) (lit "refill") =
    Some {| snippet_line := 13; snippet_text := lit "self.tokens = self.capacity;" |} ∧
  preview source 0 (length source) 10 [] (lit "refill") =
    Some {| snippet_line := 12; snippet_text := lit "pub fn refill(&mut self) {" |} ∧
  preview source 0 (length source) 10 (preview_terms (lit "zzz")) [] =
    Some {| snippet_line := 12; snippet_text := lit "pub fn refill(&mut self) {" |}.
Proof. vm_compute. split_and!; reflexivity. Qed.

Example preview_comment_cases :
  let terms := preview_terms (lit "unknown item slot item") in
  terms = [lit "unknown"; lit "item"; lit "slot"] ∧
  snippet_line <$> preview (lines_of ["// unknown item slot faults"; "let x = item;"]%string) 0 41 1 terms []
    = Some 1 ∧
  snippet_line <$> preview (lines_of ["// unknown item slot"; "let slot = item.slot();"]%string) 0 44 1 terms []
    = Some 2.
Proof. vm_compute. split_and!; reflexivity. Qed.
End Examples.
