(* ===== verification/Pool.v ===== *)
(** * The daemon's request pool

    Models [src/src/daemon/pool.rs]: worker threads draining a bounded channel,
    refusing submissions, and shutdown.  Every atomic operation, channel operation
    and critical section of the code is one action; threads interleave freely.
    The [sender] mutex serialises submissions and the closing of the channel.
    Jobs are numbers; the lists of jobs accepted, taken from the channel, run and
    dropped are history. *)
From Stdlib Require Import Ascii String ZArith Lia Permutation.
From stdpp Require Import base numbers list gmap strings.
From S2P Require Import Prelude.

Record PoolSize := { size_workers : nat; size_queue : nat }.
Definition ROUTER_POOL : PoolSize := {| size_workers := 16; size_queue := 64 |}.
Definition COORDINATOR_POOL : PoolSize := {| size_workers := 8; size_queue := 64 |}.
Definition ROOT_POOL : PoolSize := {| size_workers := 4; size_queue := 64 |}.

(** Where a worker thread is in its loop. *)
Inductive WorkerAt :=
| AtLoop                 (* before the first test of [shutting_down] *)
| Receiving              (* in [queue.recv()] *)
| Got (job : nat)        (* before the second test *)
| Running (job : nat)
| Exited.

Record RequestPool := {
  capacity : nat;
  channel : list nat;          (* jobs in the channel, oldest first *)
  sender_open : bool;          (* [sender] is [Some] *)
  pending : Z;                 (* [AtomicUsize] *)
  shutting_down : bool;
  workers : list WorkerAt;
  submitting : option nat;     (* the job of the submission holding [sender] *)
  accepted : list nat; refused : list nat; taken : list nat; ran : list nat; dropped : list nat;
}.

Definition pool_new (size : PoolSize) : RequestPool :=
  {| capacity := size_queue size; channel := []; sender_open := true; pending := 0;
     shutting_down := false; workers := replicate (Nat.max (size_workers size) 1) AtLoop;
     submitting := None; accepted := []; refused := []; taken := []; ran := []; dropped := [] |}.

(** [fetch_add] and [fetch_sub] wrap at the width of [usize]. *)
Definition wrap (n : Z) : Z := (n mod (USIZE_MAX + 1))%Z.

Definition set_worker (i : nat) (w : WorkerAt) (p : RequestPool) : RequestPool :=
  {| capacity := capacity p; channel := channel p; sender_open := sender_open p; pending := pending p;
     shutting_down := shutting_down p; workers := <[i := w]> (workers p); submitting := submitting p;
     accepted := accepted p; refused := refused p; taken := taken p; ran := ran p; dropped := dropped p |}.

Inductive Action :=
| SubmitStart (job : nat)  (* up to [pending.fetch_add] *)
| SubmitSend               (* [try_send] and, when it fails, [pending.fetch_sub] *)
| WorkerTurn (i : nat)
| ShutdownFlag | ShutdownClose | ShutdownDrain.

(** [submit] up to the increment, or the refusal before it. *)
Definition submit_start (job : nat) (p : RequestPool) : option RequestPool :=
  match submitting p with
  | Some _ => None  (* waits for the mutex *)
  | None =>
      if shutting_down p || negb (sender_open p) then
        Some {| capacity := capacity p; channel := channel p; sender_open := sender_open p;
                pending := pending p; shutting_down := shutting_down p; workers := workers p;
                submitting := None; accepted := accepted p; refused := refused p ++ [job];
                taken := taken p; ran := ran p; dropped := dropped p |}
      else
        Some {| capacity := capacity p; channel := channel p; sender_open := sender_open p;
                pending := wrap (pending p + 1); shutting_down := shutting_down p; workers := workers p;
                submitting := Some job; accepted := accepted p; refused := refused p;
                taken := taken p; ran := ran p; dropped := dropped p |}
  end.

(** [sender.try_send(job)]: the receiver lives as long as the pool. *)
Definition submit_send (p : RequestPool) : option RequestPool :=
  match submitting p with
  | None => None
  | Some job =>
      if length (channel p) <? capacity p then
        Some {| capacity := capacity p; channel := channel p ++ [job]; sender_open := sender_open p;
                pending := pending p; shutting_down := shutting_down p; workers := workers p;
                submitting := None; accepted := accepted p ++ [job]; refused := refused p;
                taken := taken p; ran := ran p; dropped := dropped p |}
      else
        Some {| capacity := capacity p; channel := channel p; sender_open := sender_open p;
                pending := wrap (pending p - 1); shutting_down := shutting_down p; workers := workers p;
                submitting := None; accepted := accepted p; refused := refused p ++ [job];
                taken := taken p; ran := ran p; dropped := dropped p |}
  end.

(** One turn of worker [i]; a job that panics ends like one that returns. *)
Definition worker_turn (i : nat) (p : RequestPool) : option RequestPool :=
  match workers p !! i with
  | Some AtLoop => Some (set_worker i (if shutting_down p then Exited else Receiving) p)
  | Some Receiving =>
      match channel p with
      | job :: rest =>
          Some {| capacity := capacity p; channel := rest; sender_open := sender_open p;
                  pending := pending p; shutting_down := shutting_down p;
                  workers := <[i := Got job]> (workers p); submitting := submitting p;
                  accepted := accepted p; refused := refused p; taken := taken p ++ [job];
                  ran := ran p; dropped := dropped p |}
      | [] => if sender_open p then None else Some (set_worker i Exited p)
      end
  | Some (Got job) =>
      if shutting_down p then
        Some {| capacity := capacity p; channel := channel p; sender_open := sender_open p;
                pending := wrap (pending p - 1); shutting_down := shutting_down p;
                workers := <[i := Exited]> (workers p); submitting := submitting p;
                accepted := accepted p; refused := refused p; taken := taken p; ran := ran p;
                dropped := dropped p ++ [job] |}
      else Some (set_worker i (Running job) p)
  | Some (Running job) =>
      Some {| capacity := capacity p; channel := channel p; sender_open := sender_open p;
              pending := wrap (pending p - 1); shutting_down := shutting_down p;
              workers := <[i := AtLoop]> (workers p); submitting := submitting p;
              accepted := accepted p; refused := refused p; taken := taken p; ran := ran p ++ [job];
              dropped := dropped p |}
  | Some Exited | None => None
  end.

(** [shutdown]: the flag, then the sender, then the jobs left in the channel. *)
Definition shutdown_flag (p : RequestPool) : option RequestPool :=
  Some {| capacity := capacity p; channel := channel p; sender_open := sender_open p; pending := pending p;
          shutting_down := true; workers := workers p; submitting := submitting p;
          accepted := accepted p; refused := refused p; taken := taken p; ran := ran p; dropped := dropped p |}.
Definition shutdown_close (p : RequestPool) : option RequestPool :=
  match shutting_down p, submitting p with
  | true, None =>
      Some {| capacity := capacity p; channel := channel p; sender_open := false; pending := pending p;
              shutting_down := true; workers := workers p; submitting := None;
              accepted := accepted p; refused := refused p; taken := taken p; ran := ran p;
              dropped := dropped p |}
  | _, _ => None
  end.
Definition shutdown_drain (p : RequestPool) : option RequestPool :=
  if sender_open p then None
  else match channel p with
  | job :: rest =>
      Some {| capacity := capacity p; channel := rest; sender_open := false;
              pending := wrap (pending p - 1); shutting_down := shutting_down p; workers := workers p;
              submitting := submitting p; accepted := accepted p; refused := refused p;
              taken := taken p ++ [job]; ran := ran p; dropped := dropped p ++ [job] |}
  | [] => None
  end.

Definition pool_step (a : Action) : RequestPool → option RequestPool :=
  match a with
  | SubmitStart job => submit_start job
  | SubmitSend => submit_send
  | WorkerTurn i => worker_turn i
  | ShutdownFlag => shutdown_flag
  | ShutdownClose => shutdown_close
  | ShutdownDrain => shutdown_drain
  end.
Fixpoint run (actions : list Action) (p : RequestPool) : option RequestPool :=
  match actions with
  | [] => Some p
  | a :: actions => p ← pool_step a p; run actions p
  end.

(** What [drain] tests: nothing is pending. *)
Definition drained (p : RequestPool) : bool := negb (0 <? pending p)%Z.

(** ** Accounting *)

Definition held (w : WorkerAt) : list nat :=
  match w with Got job | Running job => [job] | _ => [] end.
Definition in_hand (p : RequestPool) : list nat := workers p ≫= held.

Record pool_inv (p : RequestPool) : Prop := {
  inv_pending : pending p = Z.of_nat (length (channel p) + length (in_hand p)
                  + match submitting p with Some _ => 1 | None => 0 end);
  inv_capacity : length (channel p) ≤ capacity p;
  inv_fifo : accepted p = taken p ++ channel p;
  inv_taken : taken p ≡ₚ ran p ++ dropped p ++ in_hand p;
  inv_open : sender_open p = true ∨ shutting_down p = true;
  inv_closed_submit : sender_open p = true ∨ submitting p = None;
  inv_running : shutting_down p = false → (Exited ∉ workers p) ∧ dropped p = [];
}.

(** Sizes a [usize] counter can hold. *)
Definition small (p : RequestPool) : Prop :=
  (Z.of_nat (capacity p + length (workers p) + 1) ≤ USIZE_MAX)%Z.

Lemma held_bound ws : length (ws ≫= held) ≤ length ws.
Proof.
  induction ws as [|w ws IH]; [done|]. rewrite bind_cons, length_app. destruct w; simpl; lia.
Qed.

Lemma held_insert ws i old new :
  ws !! i = Some old →
  held new ++ (ws ≫= held) ≡ₚ held old ++ (<[i := new]> ws ≫= held).
Proof.
  intros Hi. rewrite <-(take_drop_middle ws i old Hi) at 1.
  assert (i < length ws) as Hlt by by apply lookup_lt_Some in Hi.
  rewrite (insert_take_drop ws i new Hlt), !bind_app, !bind_cons. solve_Permutation.
Qed.

Lemma wrap_small z : (0 ≤ z ≤ USIZE_MAX)%Z → wrap z = z.
Proof. intros. unfold wrap. apply Z.mod_small. lia. Qed.

(** Replacing one worker's position. *)
Lemma in_hand_worker p i old new :
  workers p !! i = Some old →
  length (in_hand p) + length (held new) = length (<[i := new]> (workers p) ≫= held) + length (held old).
Proof.
  intros Hi. apply held_insert with (new := new) in Hi.
  apply Permutation_length in Hi. rewrite !length_app in Hi. unfold in_hand. lia.
Qed.

Lemma exited_insert (ws : list WorkerAt) i w : w ≠ Exited → Exited ∉ ws → Exited ∉ <[i := w]> ws.
Proof.
  intros Hw Hn Hin. apply list_elem_of_lookup in Hin as [j Hj].
  destruct (decide (i = j)) as [->|Hne].
  - destruct (decide (j < length ws)).
    + rewrite list_lookup_insert_eq in Hj by done. congruence.
    + rewrite list_insert_ge in Hj by lia. apply Hn, list_elem_of_lookup. eauto.
  - rewrite list_lookup_insert_ne in Hj by done. apply Hn, list_elem_of_lookup. eauto.
Qed.

Lemma worker_turn_inv i p p' :
  small p → pool_inv p → worker_turn i p = Some p' → pool_inv p' ∧ small p'.
Proof.
  intros Hs [Hp Hc Hf Ht Ho Hcs Hr] H. unfold worker_turn in H.
  assert (match submitting p with Some _ => 1 | None => 0 end ≤ 1) as Hsub1
    by (destruct (submitting p); lia).
  pose proof (held_bound (workers p)) as Hhb. unfold small, in_hand in *.
  destruct (workers p !! i) as [w|] eqn:Hi; [|done].
  pose proof (λ new, held_insert (workers p) i w new Hi) as Hperm.
  pose proof (λ new, in_hand_worker p i w new Hi) as Hlen. unfold in_hand in Hlen.
  assert (∀ new, length (<[i := new]> (workers p)) = length (workers p)) as Hlw
    by (intros; apply length_insert).
  destruct w as [| |job|job|].
  - injection H as <-. set (w' := if shutting_down p then Exited else Receiving).
    assert (held w' = []) as Hw by (unfold w'; by destruct (shutting_down p)).
    specialize (Hlen w'). specialize (Hperm w'). rewrite Hw in *. cbn [held app length] in *.
    split; [split|cbn; by rewrite Hlw]; cbn [set_worker channel workers submitting pending capacity accepted taken
      ran dropped sender_open shutting_down]; try done; unfold in_hand; cbn [set_worker workers].
    + lia.
    + by rewrite <-Hperm.
    + intros Hsd. destruct (Hr Hsd). split; [|done]. apply exited_insert; [|done]. unfold w'. by rewrite Hsd.
  - destruct (channel p) as [|job rest] eqn:Hq.
    + destruct (sender_open p) eqn:Hop; [done|]. injection H as <-.
      specialize (Hlen Exited). specialize (Hperm Exited). cbn [held app length] in *.
      split; [split|cbn; by rewrite Hlw]; cbn; rewrite ?Hq, ?Hop; try done; unfold in_hand; cbn.
      * lia.
      * by rewrite <-Hperm.
      * intros Hsd. destruct Ho; congruence.
    + injection H as <-. specialize (Hlen (Got job)). specialize (Hperm (Got job)).
      cbn [held app length] in *.
      split; [split|cbn; by rewrite Hlw]; cbn; try done; unfold in_hand; cbn.
      * lia.
      * lia.
      * by rewrite Hf, <-app_assoc.
      * rewrite Ht, <-Hperm. solve_Permutation.
      * intros Hsd. destruct (Hr Hsd). split; [|done]. by apply exited_insert.
  - specialize (Hlen Exited) as Hlen1. specialize (Hperm Exited) as Hperm1.
    specialize (Hlen (Running job)). specialize (Hperm (Running job)). cbn [held app length] in *.
    destruct (shutting_down p) eqn:Hsd; injection H as <-.
    + split; [split|cbn; by rewrite Hlw]; cbn; try done; unfold in_hand; cbn.
      * rewrite wrap_small; lia.
      * rewrite Ht, Hperm1. solve_Permutation.
    + split; [split|cbn; by rewrite Hlw]; cbn; rewrite ?Hsd; try done; unfold in_hand; cbn.
      * lia.
      * rewrite Ht. by apply Permutation_cons_inv in Hperm as <-.
      * intros _. destruct (Hr eq_refl). split; [|done]. by apply exited_insert.
  - injection H as <-. specialize (Hlen AtLoop). specialize (Hperm AtLoop). cbn [held app length] in *.
    split; [split|cbn; by rewrite Hlw]; cbn; try done; unfold in_hand; cbn.
    + rewrite wrap_small; lia.
    + rewrite Ht, Hperm. solve_Permutation.
    + intros Hsd. destruct (Hr Hsd). split; [|done]. by apply exited_insert.
  - done.
Qed.

Lemma pool_step_inv a p p' :
  small p → pool_inv p → pool_step a p = Some p' → pool_inv p' ∧ small p'.
Proof.
  intros Hs Hinv H. pose proof (held_bound (workers p)) as Hhb.
  assert (match submitting p with Some _ => 1 | None => 0 end ≤ 1) as Hsub1
    by (destruct (submitting p); lia).
  destruct a as [job| |i| | |]; cbn [pool_step] in H; [..| by eapply worker_turn_inv| | |];
    destruct Hinv as [Hp Hc Hf Ht Ho Hcs Hr]; unfold small in *.
  - unfold submit_start in H. destruct (submitting p) eqn:Hsub; [done|].
    destruct (shutting_down p || negb (sender_open p)) eqn:Href; injection H as <-.
    + split; [split|]; cbn; try done; by rewrite Hp.
    + apply orb_false_elim in Href as [Hsd Hop]. rewrite negb_false_iff in Hop.
      split; [split|]; cbn; try done; [|by left]. unfold in_hand in *. cbn. rewrite wrap_small; lia.
  - unfold submit_send in H. destruct (submitting p) as [job|] eqn:Hsub; [|done].
    destruct (length (channel p) <? capacity p) eqn:Hl; injection H as <-; bool_to_prop.
    + split; [split|]; cbn; try done; [| | |by right].
      * rewrite length_app. unfold in_hand in *. cbn. lia.
      * rewrite length_app. cbn. lia.
      * by rewrite Hf, <-app_assoc.
    + split; [split|]; cbn; try done; [|by right]. unfold in_hand in *. cbn. rewrite wrap_small; lia.
  - injection H as <-. split; [split|]; cbn; try done. by right.
  - unfold shutdown_close in H. destruct (shutting_down p) eqn:Hsd; [|done].
    destruct (submitting p) eqn:Hsub; [done|]. injection H as <-.
    split; [split|]; cbn; try done; by right.
  - unfold shutdown_drain in H. destruct (sender_open p) eqn:Hop; [done|].
    destruct (channel p) as [|job rest] eqn:Hq; [done|]. injection H as <-.
    cbn [length] in *. split; [split|]; cbn; try done; unfold in_hand in *; cbn.
    + rewrite wrap_small; lia.
    + lia.
    + by rewrite Hf, <-app_assoc.
    + rewrite Ht. solve_Permutation.
    + intros Hsd. destruct Ho; congruence.
Qed.

Lemma run_inv actions p p' :
  small p → pool_inv p → run actions p = Some p' → pool_inv p' ∧ small p'.
Proof.
  revert p. induction actions as [|a actions IH]; intros p Hs Hinv H; cbn [run] in H.
  { by injection H as <-. }
  destruct (pool_step a p) as [p1|] eqn:Ha; [|done]. cbn in H.
  destruct (pool_step_inv a p p1 Hs Hinv Ha). by eapply IH.
Qed.

Definition size_ok (size : PoolSize) : Prop :=
  (Z.of_nat (size_queue size + Nat.max (size_workers size) 1 + 1) ≤ USIZE_MAX)%Z.

Lemma pool_new_inv size : size_ok size → pool_inv (pool_new size) ∧ small (pool_new size).
Proof.
  intros Hs. assert (in_hand (pool_new size) = []) as Hh.
  { unfold in_hand, pool_new. cbn. generalize (Nat.max (size_workers size) 1) as n. induction n; done. }
  split; [split|]; rewrite ?Hh; cbn; try done; [lia|by left|by left| |].
  - intros _. split; [|done]. intros Hin. by apply elem_of_replicate in Hin as [? _].
  - unfold small. cbn. by rewrite length_replicate.
Qed.

(** C20. Request pool: in every interleaving of submissions, workers and shutdown,
    [pending] is exactly the number of jobs in the channel, in a worker's hands or
    being submitted, and never wraps; the channel never exceeds its bound; jobs
    leave it in the order they were accepted; and every accepted job is in the
    channel or with one worker, or was run once, or was dropped by a shutdown. *)
Theorem pool_accounts_jobs size actions p :
  size_ok size → run actions (pool_new size) = Some p →
  pending p = Z.of_nat (length (channel p) + length (in_hand p)
                + match submitting p with Some _ => 1 | None => 0 end) ∧
  length (channel p) ≤ size_queue size ∧
  accepted p = taken p ++ channel p ∧
  taken p ≡ₚ ran p ++ dropped p ++ in_hand p ∧
  (shutting_down p = false → dropped p = []).
Proof.
  intros Hs Hrun. destruct (pool_new_inv size Hs) as [Hinv Hsm].
  destruct (run_inv actions _ p Hsm Hinv Hrun) as [[Hp Hc Hf Ht _ _ Hr] _].
  assert (capacity p = size_queue size) as Hcap.
  { clear -Hrun. change (size_queue size) with (capacity (pool_new size)).
    generalize dependent (pool_new size). induction actions as [|a actions IH]; intros q Hrun; cbn [run] in Hrun.
    { by injection Hrun as <-. }
    destruct (pool_step a q) as [q1|] eqn:Ha; [|done]. cbn in Hrun. rewrite (IH q1 Hrun). clear Hrun IH.
    destruct a; cbn in Ha; unfold submit_start, submit_send, worker_turn, shutdown_flag, shutdown_close,
      shutdown_drain in Ha; repeat case_match; simplify_eq; done. }
  rewrite Hcap in Hc. split_and!; try done. intros Hsd. by apply Hr.
Qed.

(** [drain] answers [true] only when every accepted job has been run or dropped. *)
Lemma drained_complete p :
  pool_inv p → drained p = true → accepted p ≡ₚ ran p ++ dropped p.
Proof.
  intros [Hp _ Hf Ht _ _ _] Hd. unfold drained in Hd. bool_to_prop.
  assert (channel p = [] ∧ in_hand p = []) as [Hc Hi].
  { destruct (channel p), (in_hand p); cbn in Hp; split; try done; lia. }
  by rewrite Hf, Hc, Ht, Hi, !app_nil_r.
Qed.

(** ** Progress *)

Fixpoint turns (n i : nat) (p : RequestPool) : option RequestPool :=
  match n with 0 => Some p | S n => p ← worker_turn i p; turns n i p end.

(** One turn from each position while the pool runs; [advanced] is what later
    turns rely on. *)
Definition advanced (i : nat) (w : WorkerAt) (jobs done_ : list nat) (p : RequestPool) : Prop :=
  workers p !! i = Some w ∧ channel p = jobs ∧ ran p = done_ ∧ shutting_down p = false.

Lemma turn_from i w jobs done_ p :
  advanced i w jobs done_ p →
  ∃ p', match w, jobs with
        | AtLoop, _ => worker_turn i p = Some p' ∧ advanced i Receiving jobs done_ p'
        | Receiving, job :: rest => worker_turn i p = Some p' ∧ advanced i (Got job) rest done_ p'
        | Got job, _ => worker_turn i p = Some p' ∧ advanced i (Running job) jobs done_ p'
        | Running job, _ => worker_turn i p = Some p' ∧ advanced i AtLoop jobs (done_ ++ [job]) p'
        | _, _ => True
        end.
Proof.
  intros (Hw & Hc & Hr & Hs). assert (i < length (workers p)) as Hl by by apply lookup_lt_Some in Hw.
  unfold worker_turn, advanced. rewrite Hw, Hs.
  destruct w as [| |job|job|]; [| destruct jobs as [|job rest]; rewrite ?Hc| | |];
    try (by exists p); (eexists; split; [reflexivity|]; cbn; rewrite list_lookup_insert_eq by done);
    rewrite ?Hr; done.
Qed.

Lemma turns_from_loop i job rest done_ p :
  advanced i AtLoop (job :: rest) done_ p →
  ∃ p', turns 3 i p = Some p' ∧ advanced i (Running job) rest done_ p'.
Proof.
  intros (p1 & H1 & (p2 & H2 & (p3 & H3 & Ha)%turn_from)%turn_from)%turn_from.
  exists p3. split; [|done]. cbn [turns]. rewrite H1. cbn [mbind option_bind]. rewrite H2.
  cbn [mbind option_bind]. by rewrite H3.
Qed.

(** Progress: while the pool runs, no worker has exited, and every worker left
    to itself runs the oldest job of the channel after finishing its own, within
    five turns, whatever the state of the others. *)
Theorem worker_serves_oldest size actions p i w job rest :
  size_ok size → run actions (pool_new size) = Some p → shutting_down p = false →
  workers p !! i = Some w → channel p = job :: rest →
  ∃ n p', n ≤ 5 ∧ turns n i p = Some p' ∧ workers p' !! i = Some (Running job) ∧
    ran p' = ran p ++ held w ∧ channel p' = rest.
Proof.
  intros Hs Hrun Hsd Hi Hq. destruct (pool_new_inv size Hs) as [Hinv Hsm].
  destruct (run_inv actions _ p Hsm Hinv Hrun) as [[_ _ _ _ _ _ Hr] _]. destruct (Hr Hsd) as [Hne _].
  assert (advanced i w (job :: rest) (ran p) p) as Ha by done. clear Hs Hrun Hinv Hsm Hr.
  destruct w as [| |own|own|]; cbn [held].
  - apply turns_from_loop in Ha as (p' & Ht & ? & ? & ? & _). exists 3, p'.
    rewrite app_nil_r. split_and!; [lia|done..].
  - apply turn_from in Ha as (p1 & H1 & (p2 & H2 & ? & ? & ? & _)%turn_from). exists 2, p2.
    rewrite app_nil_r. split_and!; [lia| |done..]. cbn [turns]. rewrite H1. cbn [mbind option_bind]. by rewrite H2.
  - apply turn_from in Ha as (p1 & H1 & (p2 & H2 & (p3 & H3 & ? & ? & ? & _)%turns_from_loop)%turn_from).
    exists 5, p3. split_and!; [lia| |done..]. cbn [turns]. rewrite H1. cbn [mbind option_bind]. rewrite H2.
    exact H3.
  - apply turn_from in Ha as (p1 & H1 & (p2 & H2 & ? & ? & ? & _)%turns_from_loop).
    exists 4, p2. split_and!; [lia| |done..]. cbn [turns]. rewrite H1. exact H2.
  - destruct Hne. by apply list_elem_of_lookup_2 in Hi.
Qed.

(** ** Witnesses *)

Module PoolExample.
Definition size : PoolSize := {| size_workers := 2; size_queue := 2 |}.
(** Three jobs are accepted while a worker takes the first, a fourth is refused,
    and a shutdown drops what is left. *)
Definition busy_actions : list Action :=
  [SubmitStart 1; SubmitSend; WorkerTurn 0; WorkerTurn 0; WorkerTurn 0; SubmitStart 2; SubmitSend;
   SubmitStart 3; SubmitSend; SubmitStart 4; SubmitSend].
Definition shutdown_actions : list Action :=
  busy_actions ++ [ShutdownFlag; WorkerTurn 0; ShutdownClose; ShutdownDrain; ShutdownDrain; WorkerTurn 0].

Lemma size_is_ok : size_ok size.
Proof. by vm_compute. Qed.

Definition busy_pool : RequestPool := default (pool_new size) (run busy_actions (pool_new size)).
Definition final_pool : RequestPool := default (pool_new size) (run shutdown_actions (pool_new size)).
Lemma busy_run : run busy_actions (pool_new size) = Some busy_pool.
Proof. vm_compute. reflexivity. Qed.
Lemma final_run : run shutdown_actions (pool_new size) = Some final_pool.
Proof. vm_compute. reflexivity. Qed.

Lemma pool_accounts_jobs_witness :
  ran final_pool = [1] ∧ dropped final_pool = [2; 3] ∧ refused final_pool = [4] ∧
  pending final_pool = 0%Z ∧ accepted final_pool = taken final_pool ++ channel final_pool.
Proof.
  split; [vm_compute; reflexivity|]. split; [vm_compute; reflexivity|]. split; [vm_compute; reflexivity|].
  split; [vm_compute; reflexivity|].
  exact (proj1 (proj2 (proj2 (pool_accounts_jobs size shutdown_actions final_pool size_is_ok final_run)))).
Defined.

Lemma worker_serves_oldest_witness :
  ∃ n p', turns n 0 busy_pool = Some p' ∧ n ≤ 5 ∧ workers p' !! 0 = Some (Running 2).
Proof.
  assert (shutting_down busy_pool = false) as Hs by (vm_compute; reflexivity).
  assert (workers busy_pool !! 0 = Some (Running 1)) as Hw by (vm_compute; reflexivity).
  assert (channel busy_pool = [2; 3]) as Hc by (vm_compute; reflexivity).
  destruct (worker_serves_oldest size busy_actions busy_pool 0 (Running 1) 2 [3] size_is_ok busy_run Hs Hw Hc)
    as (n & p' & Hn & Ht & Hr & _).
  exists n, p'. split; [exact Ht|]. split; [exact Hn|exact Hr].
Defined.
End PoolExample.
