(* ===== verification/Spool.v ===== *)
(** * The file spool

    Models [src/src/daemon/spool.rs]: the directory through which clients without
    sockets send requests, as a finite map from file names to contents and
    modification times.  Renames are atomic; writing a file and renaming it into
    place are separate operations.  UUIDs, the JSON codec and the request handler
    are parameters, and the clock is an argument. *)
From Stdlib Require Import Ascii String ZArith Lia Permutation Sorted.
From stdpp Require Import base numbers list gmap strings.
From S2P Require Import Prelude Order Text Identity Timing Frames.

Definition HEARTBEAT : str := lit "heartbeat".
Definition HEARTBEAT_INTERVAL : Z := from_secs 1.
Definition HEARTBEAT_STALE : Z := from_secs 5.
Definition REPLY_WAIT : Z := from_secs 30.
Definition ORPHAN_AGE : Z := from_secs 300.

Record File := { modified : Z; file_bytes : str }.
Abbreviation Directory := (gmap str File).

Definition file_name (id : str) (extension : string) : str := id ++ lit "." ++ lit extension.

(** [SystemTime::now().duration_since(modified).ok()]. *)
Definition age (now : Z) (f : File) : option Z :=
  if (modified f <=? now)%Z then Some (now - modified f)%Z else None.

Definition heartbeat_alive (now : Z) (dir : Directory) : bool :=
  match dir !! HEARTBEAT ≫= age now with
  | Some a => (a <? HEARTBEAT_STALE)%Z
  | None => false
  end.

(** [write_atomic]: the temporary file, then the rename. *)
Definition write_temporary (now : Z) (name bytes : str) (dir : Directory) : Directory :=
  <[name ++ lit ".tmp" := {| modified := now; file_bytes := bytes |}]> dir.
Definition rename (from to : str) (dir : Directory) : option Directory :=
  f ← dir !! from; Some (<[to := f]> (delete from dir)).
Definition write_atomic (now : Z) (name bytes : str) (dir : Directory) : Directory :=
  default dir (rename (name ++ lit ".tmp") name (write_temporary now name bytes dir)).

Section Spool.
Context {uuid : Type} `{UuidCrate uuid}.
Context (request_to_vec : DaemonRequest → str) (request_from_slice : str → result DaemonRequest).
Context (reply_to_vec : DaemonReply → str) (reply_from_slice : str → result DaemonReply).

(** [Path::extension] and [Path::file_stem] of a file name. *)
Definition split_extension (name : str) : option (str * str) :=
  match rsplit_once "." name with
  | Some (stem, extension) => if stem =s [] then None else Some (stem, extension)
  | None => None
  end.

Definition request_id (name : str) (extension : string) : option str :=
  '(stem, e) ← split_extension name;
  if e =s lit extension then uuid_hyphenated <$> uuid_parse_str stem else None.

(** ** The server *)

Record SpoolServer := { heartbeat_at : option Z }.
Record ClaimedSpoolRequest := { claim_path : str; reply_path : str }.

(** [beat]: [touched] is when the file was last refreshed by this server. *)
Definition beat (now : Z) (server : SpoolServer) (dir : Directory) : SpoolServer * Directory :=
  if match heartbeat_at server with
     | Some at_ => (duration_since now at_ <? HEARTBEAT_INTERVAL)%Z
     | None => false
     end then (server, dir)
  else ({| heartbeat_at := Some now |},
        <[HEARTBEAT := {| modified := now;
             file_bytes := match dir !! HEARTBEAT with Some f => file_bytes f | None => [] end |}]> dir).

(** [SpoolServer::open]: the directory is emptied. *)
Definition open_spool (now : Z) (_ : Directory) : SpoolServer * Directory :=
  beat now {| heartbeat_at := None |} ∅.

(** [remove_orphan] keeps a file. *)
Definition keeps (now : Z) (name : str) (f : File) : bool :=
  (name =s HEARTBEAT) || match age now f with Some a => negb (ORPHAN_AGE <? a)%Z | None => true end.

(** The listing: requests in the order of their ids, stray files old enough gone. *)
Definition pending_requests (dir : Directory) : list (str * str) :=
  sort_by (cmp_then (cmp_on fst str_compare) (cmp_on snd str_compare))
    (omap (λ '(name, _), (λ id, (id, name)) <$> request_id name "request") (map_to_list dir)).
Definition is_request (name : str) : bool :=
  match request_id name "request" with Some _ => true | None => false end.
Definition remove_orphans (now : Z) (dir : Directory) : Directory :=
  filter (λ '(name, f), is_request name = true ∨ keeps now name f = true) dir.

Definition claim_one (state : list ClaimedSpoolRequest * Directory) (request : str * str)
    : list ClaimedSpoolRequest * Directory :=
  let '(claimed, dir) := state in
  let '(id, name) := request in
  match rename name (file_name id "claimed") dir with
  | Some dir =>
      (claimed ++ [{| claim_path := file_name id "claimed"; reply_path := file_name id "reply" |}], dir)
  | None => (claimed, dir)
  end.
Definition claim (now : Z) (server : SpoolServer) (dir : Directory)
    : list ClaimedSpoolRequest * SpoolServer * Directory :=
  let '(server, dir) := beat now server dir in
  let pending := pending_requests dir in
  let '(claimed, dir) := foldl claim_one ([], remove_orphans now dir) pending in
  (claimed, server, dir).

(** [DaemonReply::from_result]. *)
Definition reply_of (r : result str) : DaemonReply :=
  match r with Ok output => Success output | Err e => Failure (lit e) end.
Definition publish (now : Z) (c : ClaimedSpoolRequest) (reply : DaemonReply) (dir : Directory) : Directory :=
  write_atomic now (reply_path c) (reply_to_vec reply) (delete (claim_path c) dir).
Definition answer (now : Z) (handler : str → list str → result str) (c : ClaimedSpoolRequest)
    (dir : Directory) : Directory :=
  let result :=
    f ← or_err "read spooled daemon request" (dir !! claim_path c);
    request ← request_from_slice (file_bytes f);
    _ ← daemon_validate request;
    match request with
    | Arguments context args => handler context args
    | StopDaemon => Err "spooled requests cannot stop a daemon"
    end in
  publish now c (reply_of result) dir.
Definition refuse (now : Z) (message : str) (c : ClaimedSpoolRequest) (dir : Directory) : Directory :=
  publish now c (Failure message) dir.

(** ** The client *)

Inductive Outcome := Waiting | Finished (r : result (option str)).

(** [request] up to writing the file; [None] means no daemon drains the spool. *)
Definition request_start (now : Z) (context : str) (args : list str) (dir : Directory)
    : result (option (str * Directory)) :=
  let request := Arguments context args in
  _ ← daemon_validate request;
  if negb (heartbeat_alive now dir) then Ok None
  else
    u ← or_err "invalid request UUID" (uuid_parse_str context);
    let id := uuid_hyphenated u in
    Ok (Some (id, write_atomic now (file_name id "request") (request_to_vec request) dir)).

(** One turn of the polling loop, started before the deadline or after it. *)
Definition poll_reply (now deadline : Z) (id : str) (dir : Directory) : Outcome * Directory :=
  if (deadline <=? now)%Z
  then (Finished (Err "daemon_unavailable: spooled request timed out"), delete (file_name id "request") dir)
  else
    match dir !! file_name id "reply" with
    | Some f =>
        (Finished (reply ← reply_from_slice (file_bytes f);
                   match reply with
                   | Success output => Ok (Some output)
                   | Failure _ => Err "daemon: {message}"
                   end),
         delete (file_name id "reply") dir)
    | None =>
        if negb (heartbeat_alive now dir) then
          match dir !! file_name id "request" with
          | Some _ => (Finished (Ok None), delete (file_name id "request") dir)
          | None =>
              (Finished (Err "daemon_unavailable: router stopped while answering a spooled request"),
               delete (file_name id "claimed") dir)
          end
        else (Waiting, dir)
    end.
End Spool.

(** ** Names *)

Lemma file_name_inj id id' e e' :
  "."%char ∉ lit e → "."%char ∉ lit e' → file_name id e = file_name id' e' → id = id' ∧ lit e = lit e'.
Proof.
  unfold file_name. intros He He' Heq.
  assert (∀ i ext, "."%char ∉ lit ext → rsplit_once "." (i ++ lit "." ++ lit ext) = Some (i, lit ext)) as Hr.
  { intros i ext Hn. apply rsplit_once_Some. done. }
  pose proof (Hr id e He) as H1. rewrite Heq, (Hr id' e' He') in H1. by injection H1 as -> ->.
Qed.

Section Claims.
Context {uuid : Type} `{UuidCrate uuid}.

Lemma request_id_extension name e id :
  request_id name e = Some id → ∃ stem, name = file_name stem e ∧ "."%char ∉ lit e.
Proof.
  unfold request_id, split_extension. destruct (rsplit_once "." name) as [[stem ext]|] eqn:Hr; [|done].
  apply rsplit_once_Some in Hr as [-> Hn]. destruct (stem =s []); [done|]. cbn.
  destruct (ext =s lit e) eqn:He; [|done]. bool_to_prop. subst ext. intros _. by exists stem.
Qed.

(** The claimed and reply names are not requests. *)
Lemma not_request id e :
  "."%char ∉ lit e → lit e ≠ lit "request" → request_id (file_name id e) "request" = None.
Proof.
  intros Hn Hne. destruct (request_id _ _) as [i|] eqn:Hr; [|done].
  apply request_id_extension in Hr as (stem & Heq & Hd).
  apply file_name_inj in Heq as [_ Heq]; done.
Qed.

Lemma elem_of_pending (dir : Directory) id name :
  (id, name) ∈ pending_requests dir ↔ is_Some (dir !! name) ∧ request_id name "request" = Some id.
Proof.
  unfold pending_requests. rewrite elem_of_sort_by, list_elem_of_omap. split.
  - intros ([n f] & Hin & Hr). apply elem_of_map_to_list in Hin.
    destruct (request_id n "request") as [i|] eqn:Hi; [|done]. injection Hr as -> ->. by rewrite Hin.
  - intros [[f Hf] Hr]. exists (name, f). split; [by apply elem_of_map_to_list|]. by rewrite Hr.
Qed.

Lemma pending_names_nodup (dir : Directory) : NoDup (snd <$> pending_requests dir).
Proof.
  unfold pending_requests. rewrite (sort_by_perm _).
  pose proof (NoDup_fst_map_to_list dir) as Hnd. induction (map_to_list dir) as [|[n f] l IH]; [constructor|].
  cbn in *. apply NoDup_cons in Hnd as [Hn Hnd]. specialize (IH Hnd).
  destruct (request_id n "request"); cbn; [|done]. constructor; [|done]. intros Hin. apply Hn.
  apply list_elem_of_fmap in Hin as ([i m] & -> & Hin). apply list_elem_of_omap in Hin as ([m' f'] & Hin & Hr).
  apply list_elem_of_fmap. exists (m', f'). split; [|done]. cbn in *.
  destruct (request_id m' "request"); by simplify_eq/=.
Qed.

Definition claimed_of (id : str) : ClaimedSpoolRequest :=
  {| claim_path := file_name id "claimed"; reply_path := file_name id "reply" |}.

(** Claiming a list of requests that are all present. *)
Lemma claim_all (pending : list (str * str)) (claimed : list ClaimedSpoolRequest) (dir : Directory) :
  NoDup (snd <$> pending) →
  (∀ id name, (id, name) ∈ pending → is_Some (dir !! name) ∧ request_id name "request" = Some id) →
  let '(claimed', dir') := foldl claim_one (claimed, dir) pending in
  claimed' = claimed ++ ((λ p, claimed_of p.1) <$> pending) ∧
  (∀ id name, (id, name) ∈ pending → dir' !! name = None) ∧
  (∀ name, is_request name = true → (∀ id, (id, name) ∉ pending) → dir' !! name = dir !! name).
Proof.
  revert claimed dir. induction pending as [|[id name] pending IH]; intros claimed dir Hnd Hin; cbn [foldl].
  { rewrite app_nil_r. split_and!; [done|by intros ? ? ?%elem_of_nil|done]. }
  rewrite fmap_cons in Hnd. apply NoDup_cons in Hnd as [Hn Hnd].
  destruct (Hin id name ltac:(left)) as [[f Hf] Hr]. cbn [claim_one]. unfold rename. rewrite Hf. cbn [mbind option_bind].
  set (target := file_name id "claimed").
  assert (request_id target "request" = None) as Ht.
  { apply not_request; [|done]. cbn. set_solver. }
  assert (∀ n, is_request n = true → n ≠ name → <[target := f]> (delete name dir) !! n = dir !! n) as Hkeep.
  { intros n Hreq Hne. rewrite lookup_insert_ne, lookup_delete_ne; [done|done|].
    intros <-. unfold is_request in Hreq. by rewrite Ht in Hreq. }
  assert (∀ i n, (i, n) ∈ pending → n ≠ name) as Hdiff.
  { intros i n Hp ->. apply Hn, list_elem_of_fmap. by exists (i, name). }
  specialize (IH (claimed ++ [claimed_of id]) (<[target := f]> (delete name dir)) Hnd).
  destruct (foldl claim_one _ pending) as [claimed' dir']. destruct IH as (Hc & Hgone & Hsame).
  { intros i n Hp. destruct (Hin i n ltac:(by right)) as [Hs Hi]. split; [|done].
    rewrite Hkeep; [done| |by eapply Hdiff]. unfold is_request. by rewrite Hi. }
  assert (is_request name = true) as Hreq by (unfold is_request; by rewrite Hr).
  split_and!.
  - rewrite Hc, <-app_assoc. done.
  - intros i n [[= -> ->]|Hp]%elem_of_cons; [|by apply (Hgone i)].
    rewrite Hsame; [|done|].
    + rewrite lookup_insert_ne, lookup_delete_eq; [done|]. intros He.
      unfold is_request in Hreq. rewrite <-He, Ht in Hreq. done.
    + intros i' Hp. by apply (Hdiff i' name).
  - intros n Hnreq Hnot. rewrite Hsame; [|done|intros i Hp; apply (Hnot i); by right].
    apply Hkeep; [done|]. intros ->. apply (Hnot id). left.
Qed.
End Claims.

Section ClaimTheorems.
Context {uuid : Type} `{UuidCrate uuid}.

(** The content a claim keeps, where one file asks for the id. *)
Lemma claim_all_content (pending : list (str * str)) (claimed : list ClaimedSpoolRequest)
    (dir : Directory) id name f :
  NoDup (snd <$> pending) →
  (∀ id name, (id, name) ∈ pending → is_Some (dir !! name) ∧ request_id name "request" = Some id) →
  (∀ n, (id, n) ∈ pending → n = name) →
  ((id, name) ∈ pending ∧ dir !! name = Some f ∨
   ((id, name) ∉ pending) ∧ dir !! file_name id "claimed" = Some f) →
  (foldl claim_one (claimed, dir) pending).2 !! file_name id "claimed" = Some f.
Proof.
  revert claimed dir. induction pending as [|[i n] pending IH]; intros claimed dir Hnd Hin Huniq Hf; cbn [foldl].
  { destruct Hf as [[Hc _]|[_ Hf]]; [by apply elem_of_nil in Hc|done]. }
  rewrite fmap_cons in Hnd. apply NoDup_cons in Hnd as [Hn Hnd].
  destruct (Hin i n ltac:(left)) as [[g Hg] Hr]. cbn [claim_one]. unfold rename. rewrite Hg. cbn [mbind option_bind].
  assert (∀ e, "."%char ∉ lit e → lit e ≠ lit "request" → file_name i e ≠ n) as Htarget.
  { intros e He Hne <-. rewrite not_request in Hr; done. }
  assert (∀ m, is_Some (dir !! m) → request_id m "request" ≠ None → m ≠ n →
    <[file_name i "claimed" := g]> (delete n dir) !! m = dir !! m) as Hkeep.
  { intros m _ Hm Hmn. rewrite lookup_insert_ne, lookup_delete_ne; [done|done|].
    intros <-. apply Hm, not_request; [cbn; set_solver|done]. }
  assert (∀ i' m, (i', m) ∈ pending → m ≠ n) as Hdiff.
  { intros i' m Hp ->. apply Hn, list_elem_of_fmap. by exists (i', n). }
  apply IH; [done| |intros m Hm; apply Huniq; by right|].
  { intros i' m Hp. destruct (Hin i' m ltac:(by right)) as [Hs Hi]. split; [|done].
    rewrite Hkeep; [done|done|by rewrite Hi|by eapply Hdiff]. }
  destruct (decide (i = id)) as [->|Hi].
  - assert (n = name) as -> by (apply Huniq; left). right. split.
    + intros Hp. by apply (Hdiff id name).
    + rewrite lookup_insert_eq. destruct Hf as [[_ Hf]|[Hnot _]]; [congruence|]. destruct Hnot. left.
  - destruct Hf as [[Hp Hf]|[Hnot Hf]].
    + apply elem_of_cons in Hp as [[= -> ->]|Hp]; [done|]. left. split; [done|].
      rewrite Hkeep; [done|by rewrite Hf| |by eapply Hdiff].
      destruct (Hin id name ltac:(by right)) as [_ Hr']. by rewrite Hr'.
    + right. split; [intros Hp; apply Hnot; by right|].
      rewrite lookup_insert_ne, lookup_delete_ne; [done| |].
      * intros Heq. rewrite Heq in Hr. rewrite not_request in Hr; [done|cbn; set_solver|done].
      * intros Heq. apply file_name_inj in Heq as [? _]; [congruence|cbn; set_solver..].
Qed.

Lemma heartbeat_not_request : request_id HEARTBEAT "request" = None.
Proof. done. Qed.

(** What the listing sees after the heartbeat. *)
Lemma beat_requests (now : Z) (server : SpoolServer) (dir : Directory) (name : str) :
  is_request name = true → (beat now server dir).2 !! name = dir !! name.
Proof.
  intros Hr. unfold beat. destruct (match heartbeat_at server with Some _ => _ | None => _ end); [done|].
  cbn. rewrite lookup_insert_ne; [done|]. intros <-. done.
Qed.

Lemma orphans_requests (now : Z) (dir : Directory) (name : str) :
  is_request name = true → remove_orphans now dir !! name = dir !! name.
Proof.
  intros Hr. unfold remove_orphans. destruct (dir !! name) as [f|] eqn:Hf.
  - apply map_lookup_filter_Some. split; [done|]. by left.
  - apply map_lookup_filter_None. by left.
Qed.

(** What one pass of the server claims, and that it leaves no request. *)
Lemma claim_facts (now : Z) (server : SpoolServer) (dir : Directory) :
  let '(claimed, server', dir') := claim now server dir in
  claimed = (λ p, claimed_of p.1) <$> pending_requests (beat now server dir).2 ∧
  (∀ id name, is_Some (dir !! name) → request_id name "request" = Some id → claimed_of id ∈ claimed) ∧
  (∀ name, is_request name = true → dir' !! name = None).
Proof.
  unfold claim. destruct (beat now server dir) as [server1 dir1] eqn:Hb. cbn [snd].
  assert (∀ name, is_request name = true → dir1 !! name = dir !! name) as Hsame.
  { intros name Hr. pose proof (beat_requests now server dir name Hr) as Hbeat. by rewrite Hb in Hbeat. }
  pose proof (claim_all (pending_requests dir1) [] (remove_orphans now dir1) (pending_names_nodup dir1)) as Hall.
  destruct (foldl claim_one _ (pending_requests dir1)) as [claimed dir'].
  destruct Hall as (Hc & Hgone & Hkeep).
  { intros id name [Hs Hr]%elem_of_pending. split; [|done].
    rewrite orphans_requests; [done|]. unfold is_request. by rewrite Hr. }
  cbn [app] in Hc. split_and!; [done| |].
  - intros id name Hs Hr. rewrite Hc. apply list_elem_of_fmap. exists (id, name). split; [done|].
    apply elem_of_pending. split; [|done]. rewrite Hsame; [done|]. unfold is_request. by rewrite Hr.
  - intros name Hr. destruct (request_id name "request") as [id|] eqn:Hid;
      [|unfold is_request in Hr; by rewrite Hid in Hr].
    destruct (dir1 !! name) as [f|] eqn:Hf.
    + apply (Hgone id). apply elem_of_pending. by rewrite Hf.
    + rewrite Hkeep; [by rewrite orphans_requests|done|].
      intros i [[g Hg] _]%elem_of_pending. congruence.
Qed.

(** A spool without requests has nothing to claim. *)
Lemma claim_nothing (now : Z) (server : SpoolServer) (dir : Directory) :
  (∀ name, is_request name = true → dir !! name = None) → (claim now server dir).1.1 = [].
Proof.
  intros Hnone. pose proof (claim_facts now server dir) as Hfacts.
  destruct (claim now server dir) as [[claimed server'] dir']. destruct Hfacts as (-> & _). cbn.
  destruct (pending_requests _) as [|[id name] l] eqn:Hp; [done|exfalso].
  assert ((id, name) ∈ pending_requests (beat now server dir).2) as [[f Hf] Hr]%elem_of_pending by (rewrite Hp; left).
  assert (is_request name = true) as Hreq by (unfold is_request; by rewrite Hr).
  rewrite (beat_requests now server dir name Hreq), (Hnone name Hreq) in Hf. done.
Qed.

(** Claiming: one pass of the server claims every request in the spool, once,
    in the order of the ids, and leaves no request behind, so that claiming again
    returns nothing: a claimed request is never returned twice. *)
Theorem spool_claims_all (now : Z) (server : SpoolServer) (dir : Directory) :
  let '(claimed, server', dir') := claim now server dir in
  claimed = (λ p, claimed_of p.1) <$> pending_requests (beat now server dir).2 ∧
  StronglySorted (cmp_le (cmp_then (cmp_on fst str_compare) (cmp_on snd str_compare)))
    (pending_requests (beat now server dir).2) ∧
  (∀ id name, is_Some (dir !! name) → request_id name "request" = Some id → claimed_of id ∈ claimed) ∧
  (∀ name, is_request name = true → dir' !! name = None) ∧
  (∀ now', (claim now' server' dir').1.1 = []).
Proof.
  pose proof (claim_facts now server dir) as Hfacts.
  destruct (claim now server dir) as [[claimed server'] dir']. destruct Hfacts as (Hc & Hin & Hnone).
  split_and!; [done|apply sort_by_sorted; apply _|done..|].
  intros now'. by apply claim_nothing.
Qed.
End ClaimTheorems.

(** ** A whole exchange *)

Lemma write_atomic_lookup (now : Z) (name bytes : str) (dir : Directory) (n : str) :
  write_atomic now name bytes dir !! n =
    if decide (n = name) then Some {| modified := now; file_bytes := bytes |}
    else if decide (n = name ++ lit ".tmp") then None else dir !! n.
Proof.
  unfold write_atomic.
  assert (rename (name ++ lit ".tmp") name (write_temporary now name bytes dir) =
    Some (<[name := {| modified := now; file_bytes := bytes |}]>
      (delete (name ++ lit ".tmp") (write_temporary now name bytes dir)))) as ->.
  { unfold rename.
    assert (write_temporary now name bytes dir !! (name ++ lit ".tmp") =
      Some {| modified := now; file_bytes := bytes |}) as ->; [|done].
    unfold write_temporary. by rewrite lookup_insert_eq. }
  cbn [default from_option id]. unfold write_temporary.
  destruct (decide (n = name)) as [->|Hn]; [by rewrite lookup_insert_eq|].
  rewrite lookup_insert_ne by done. destruct (decide (n = name ++ lit ".tmp")) as [->|Ht].
  - by rewrite lookup_delete_eq.
  - rewrite lookup_delete_ne by done. by rewrite lookup_insert_ne.
Qed.

Lemma file_name_tmp id e : file_name id e ++ lit ".tmp" = file_name (file_name id e) "tmp".
Proof. reflexivity. Qed.

(** The extensions the spool uses have no dot. *)
Ltac spool_names :=
  match goal with
  | |- file_name _ _ ≠ file_name _ _ =>
      intros Hspool; apply file_name_inj in Hspool as [? ?]; [done|cbn; set_solver..]
  end.

Section Exchange.
Context {uuid : Type} `{UuidLaws uuid}.
Context (request_to_vec : DaemonRequest → str) (request_from_slice : str → result DaemonRequest).
Context (reply_to_vec : DaemonReply → str) (reply_from_slice : str → result DaemonReply).
Context (request_codec : ∀ r, request_from_slice (request_to_vec r) = Ok r).
Context (reply_codec : ∀ r, reply_from_slice (reply_to_vec r) = Ok r).
Context (hyphenated_nonempty : ∀ u, uuid_hyphenated u ≠ []).

Lemma own_request u : request_id (file_name (uuid_hyphenated u) "request") "request" = Some (uuid_hyphenated u).
Proof.
  unfold request_id, split_extension, file_name.
  assert (rsplit_once "." (uuid_hyphenated u ++ lit "." ++ lit "request") =
    Some (uuid_hyphenated u, lit "request")) as ->.
  { apply rsplit_once_Some. split; [done|]. cbn. set_solver. }
  rewrite bool_decide_eq_false_2 by apply hyphenated_nonempty. cbn [mbind option_bind].
  rewrite bool_decide_eq_true_2 by done. by rewrite uuid_parse_hyphenated.
Qed.

(** What a client may get back for what the handler answered. *)
Definition client_result (r : result str) : result (option str) :=
  match r with Ok output => Ok (Some output) | Err _ => Err "daemon: {message}" end.

(** The directory a claim leaves for a request that alone asks for its id. *)
Lemma claim_own (now : Z) (server : SpoolServer) (dir : Directory) (u : uuid) f :
  let id := uuid_hyphenated u in
  dir !! file_name id "request" = Some f →
  (∀ n, is_Some (dir !! n) → request_id n "request" = Some id → n = file_name id "request") →
  let '(claimed, _, dir') := claim now server dir in dir' !! file_name id "claimed" = Some f.
Proof.
  cbv zeta. set (id := uuid_hyphenated u). intros Hf Huniq. unfold claim.
  destruct (beat now server dir) as [server1 dir1] eqn:Hb.
  assert (∀ name, is_request name = true → dir1 !! name = dir !! name) as Hsame.
  { intros name Hr. pose proof (beat_requests now server dir name Hr) as Hbeat. by rewrite Hb in Hbeat. }
  pose proof (own_request u) as Hown. fold id in Hown.
  assert (is_request (file_name id "request") = true) as Hreq by (unfold is_request; by rewrite Hown).
  pose proof (claim_all_content (pending_requests dir1) [] (remove_orphans now dir1) id
    (file_name id "request") f (pending_names_nodup dir1)) as Hc.
  destruct (foldl claim_one _ _) as [claimed dir']. cbn [snd] in Hc. apply Hc.
  - intros i n [Hs Hr]%elem_of_pending. split; [|done].
    rewrite orphans_requests; [done|]. unfold is_request. by rewrite Hr.
  - intros n [Hs Hr]%elem_of_pending. apply Huniq; [|done]. rewrite <-Hsame; [done|].
    unfold is_request. by rewrite Hr.
  - left. split; [|by rewrite orphans_requests, Hsame].
    apply elem_of_pending. split; [by rewrite Hsame, Hf|done].
Qed.

(** Answering a claimed request, and the client that collects the reply. *)
Lemma answer_collect (now2 now3 deadline : Z) (context : str) (args : list str) (id : str)
    (handler : str → list str → result str) (dir : Directory) f :
  dir !! file_name id "claimed" = Some f → file_bytes f = request_to_vec (Arguments context args) →
  dir !! file_name id "request" = None → daemon_validate (Arguments context args) = Ok tt →
  (now3 < deadline)%Z →
  ∃ dir', poll_reply reply_from_slice now3 deadline id
      (answer request_from_slice reply_to_vec now2 handler (claimed_of id) dir) =
      (Finished (client_result (handler context args)), dir') ∧
    dir' !! file_name id "request" = None ∧ dir' !! file_name id "claimed" = None ∧
    dir' !! file_name id "reply" = None.
Proof.
  intros Hf Hbytes Hnoreq Hvalid Htime.
  unfold answer, publish, claimed_of. cbn [claim_path reply_path]. rewrite Hf.
  cbn [or_err mbind result_bind]. rewrite Hbytes, request_codec. cbn [mbind result_bind].
  rewrite Hvalid. cbn [mbind result_bind].
  eexists. unfold poll_reply. rewrite (proj2 (Z.leb_gt _ _)) by done.
  rewrite write_atomic_lookup, decide_True by done. cbn [file_bytes]. rewrite reply_codec.
  split; [f_equal; f_equal; by destruct (handler context args)|].
  split_and!; [| |by rewrite lookup_delete_eq].
  - rewrite lookup_delete_ne by spool_names. rewrite write_atomic_lookup, decide_False by spool_names.
    case_decide; [done|]. by rewrite lookup_delete_ne by spool_names.
  - rewrite lookup_delete_ne by spool_names. rewrite write_atomic_lookup, decide_False by spool_names.
    case_decide; [done|]. by rewrite lookup_delete_eq.
Qed.

End Exchange.

(** ** A concrete exchange *)

(** A codec that satisfies the laws: the binary digits of a number that encodes
    the value. *)
Module SpoolExample.
Fixpoint digits (p : positive) : str :=
  match p with
  | xI p => "1"%char :: digits p
  | xO p => "0"%char :: digits p
  | xH => []
  end.
Fixpoint number (s : str) : positive :=
  match s with
  | [] => xH
  | c :: s => if Ascii.eqb c "1" then xI (number s) else xO (number s)
  end.
Lemma number_digits p : number (digits p) = p.
Proof. induction p as [p IH|p IH|]; cbn; [by rewrite IH..|done]. Qed.

Section Codec.
Context {A : Type} `{Countable A}.
Definition to_vec (a : A) : str := digits (encode a).
Definition from_slice (s : str) : result A := or_err "invalid digits" (decode (number s)).
Lemma codec a : from_slice (to_vec a) = Ok a.
Proof. unfold from_slice, to_vec. by rewrite number_digits, decode_encode. Qed.
End Codec.

#[global] Instance request_eq_dec : EqDecision DaemonRequest.
Proof. solve_decision. Defined.
#[global] Instance request_countable : Countable DaemonRequest.
Proof.
  refine (inj_countable' (A := option (str * list str))
    (λ r, match r with Arguments c a => Some (c, a) | StopDaemon => None end)
    (λ o, match o with Some (c, a) => Arguments c a | None => StopDaemon end) _).
  by intros [].
Defined.
#[global] Instance reply_eq_dec : EqDecision DaemonReply.
Proof. solve_decision. Defined.
#[global] Instance reply_countable : Countable DaemonReply.
Proof.
  refine (inj_countable' (A := str + str)
    (λ r, match r with Success o => inl o | Failure m => inr m end)
    (λ s, match s with inl o => Success o | inr m => Failure m end) _).
  by intros [].
Defined.

Definition server : SpoolServer := {| heartbeat_at := Some 0%Z |}.
Definition dir : Directory := {[HEARTBEAT := {| modified := 0; file_bytes := [] |}]}.
Definition context : str := uuid_simple SimpleUuid.nil.
Definition args : list str := [lit "search"].
Definition dir1 : Directory :=
  write_atomic 1 (file_name context "request") (to_vec (Arguments context args)) dir.
Definition handler (_ : str) (args : list str) : result str := Ok (concat args).

Lemma started : request_start (uuid := SimpleUuid.t) to_vec 1 context args dir = Ok (Some (context, dir1)).
Proof.
  assert (daemon_validate (uuid := SimpleUuid.t) (Arguments context args) = Ok tt) as Hvalid
    by (vm_compute; reflexivity).
  assert (heartbeat_alive 1 dir = true) as Halive by (vm_compute; reflexivity).
  assert (uuid_parse_str context = Some SimpleUuid.nil) as Hparse by apply SimpleUuid.parse_text.
  unfold request_start. by rewrite Hvalid, Halive, Hparse.
Qed.

Lemma fresh n : is_Some (dir !! n) → request_id (uuid := SimpleUuid.t) n "request" ≠ Some context.
Proof. unfold dir. intros [f [<- _]%lookup_singleton_Some]. vm_compute. discriminate. Qed.

Lemma nonempty (u : SimpleUuid.t) : uuid_hyphenated u ≠ [].
Proof. destruct u as [[|c s] Hs]; [discriminate Hs|discriminate]. Qed.

End SpoolExample.
