(* ===== verification/Batches.v ===== *)
(** * Batches of preparation inputs

    Models [src/src/semantic/preparation/worker.rs]: the [EmbeddingWorker] trait
    and its three implementations, the planning of batches under the count and
    padding limits, and the bisection of a batch that fails as a whole.  A worker
    is a state that each call replaces; the sink of the outcomes is a function on
    the caller's state. *)
From Stdlib Require Import Ascii String ZArith Lia.
From stdpp Require Import base numbers list strings.
From S2P Require Import Prelude Order Text Ranking EmbeddingCache.

Definition MAX_BATCH : nat := 8.
Definition MAX_MODEL_TOKENS : Z := 4096.
Definition MAX_PADDED_TOKENS : Z := 8192.

Record EmbeddingInput := { input_key : str; input_text : str; token_count : Z }.
#[export] Instance input_eq_dec : EqDecision EmbeddingInput.
Proof. solve_decision. Defined.

Definition estimate_tokens (text : str) : Z := Z.max (Z.of_nat (div_ceil (length text) 4)) 1.

(** ** Workers *)

Class EmbeddingWorker (W : Type) := {
  embed_batch : W → list EmbeddingInput → result (list (result Embedding)) * W;
  is_retryable_batch_error : W → string → bool;
  batch_error_is_unit_failure : W → string → bool;
}.

Section Errors.
(** Whether a cause in the error's chain is an [io::Error]. *)
Context (is_io_error : string → bool).

Definition input_markers : list string :=
  ["input at batch index"; "inference failed for batch inputs"; "model returned";
   "invalid model output"; "raw inputs exceed"]%string.
Definition runtime_markers : list string :=
  ["semantic_loading"; "semantic_busy"; "semantic_root_busy"; "semantic_worker_busy";
   "semantic_worker_unavailable"; "semantic_worker:"; "semantic_admission"; "handshake_mismatch";
   "protocol:"; "busy"; "disconnected"; "unexpected end of worker frame"; "connection reset";
   "broken pipe"; "no such file"; "deadline"; "timed out"; "timeout"; "connection refused";
   "worker is starting"; "runtime unavailable"; "runtime_unavailable"; "provider unavailable";
   "cuda_unavailable"; "inference_config"; "semantic_unavailable"]%string.
Definition has_marker (markers : list string) (message : str) : bool :=
  existsb (λ marker, contains (lit marker) message) markers.

Definition is_runtime_batch_error (error : string) : bool :=
  if is_io_error error then true
  else
    let message := to_ascii_lowercase (lit error) in
    if has_marker input_markers message then false else has_marker runtime_markers message.
End Errors.

(** The vectors of a provider that answers a whole batch, one per input. *)
Definition per_input (mismatch : string) (inputs : list EmbeddingInput)
    (answer : result (list Embedding)) : result (list (result Embedding)) :=
  match answer with
  | Ok vectors => if length vectors =? length inputs then Ok (Ok <$> vectors) else Err mismatch
  | Err e => Err e
  end.

Record ClosureWorker (F : Type) := { closure : F }.
Record SharedWorker (P : Type) := { shared_provider : P }.
Record ForegroundWorker (P : Type) := { session : P }.
Arguments closure {F}.
Arguments shared_provider {P}.
Arguments session {P}.

Section Workers.
Context (is_io_error : string → bool).
(** A closure with its captured state, and the providers behind the other two:
    the shared worker process and the session of this process. *)
Context {F : Type} (call : F → list EmbeddingInput → result (list (result Embedding)) * F).
Context {P : Type} (embed : P → list str → result (list Embedding) * P).

#[export] Instance closure_worker : EmbeddingWorker (ClosureWorker F) := {|
  embed_batch w inputs := let '(r, f) := call (closure w) inputs in (r, {| closure := f |});
  is_retryable_batch_error _ := is_runtime_batch_error is_io_error;
  batch_error_is_unit_failure _ _ := true;
|}.
#[export] Instance shared_worker : EmbeddingWorker (SharedWorker P) := {|
  embed_batch w inputs :=
    let '(r, p) := embed (shared_provider w) (input_text <$> inputs) in
    (per_input "preparation_worker_failed: worker returned {} vectors for {} inputs" inputs r,
     {| shared_provider := p |});
  is_retryable_batch_error _ := is_runtime_batch_error is_io_error;
  batch_error_is_unit_failure _ _ := false;
|}.
#[export] Instance foreground_worker : EmbeddingWorker (ForegroundWorker P) := {|
  embed_batch w inputs :=
    let '(r, p) := embed (session w) (input_text <$> inputs) in
    (per_input "preparation_worker_failed: foreground returned {} vectors for {} inputs" inputs r,
     {| session := p |});
  is_retryable_batch_error _ := is_runtime_batch_error is_io_error;
  batch_error_is_unit_failure _ _ := false;
|}.
End Workers.

(** ** Planning *)

(** The loop of [next_batch_end]; [fuel] bounds the inputs it looks at. *)
Fixpoint batch_end_go (fuel : nat) (inputs : list EmbeddingInput) (start end_ : nat) (max_tokens : Z) : nat :=
  match fuel with
  | 0 => Nat.max end_ (start + 1)
  | S fuel =>
      match inputs !! end_ with
      | Some input =>
          if end_ - start <? MAX_BATCH then
            let tokens := token_count input in
            if (MAX_MODEL_TOKENS <? tokens)%Z then end_ + 1
            else
              let next_max := Z.max max_tokens tokens in
              if (start <? end_)
                 && (MAX_PADDED_TOKENS <? saturating_mul USIZE_MAX next_max (Z.of_nat (end_ + 1 - start)))%Z
              then Nat.max end_ (start + 1)
              else batch_end_go fuel inputs start (end_ + 1) next_max
          else Nat.max end_ (start + 1)
      | None => Nat.max end_ (start + 1)
      end
  end.
Definition next_batch_end (inputs : list EmbeddingInput) (start : nat) : nat :=
  batch_end_go (length inputs) inputs start start 0.

(** ** Running *)

Section Run.
Context {W : Type} `{EmbeddingWorker W} {S : Type}.
Context (complete : list EmbeddingInput → list (result Embedding) → S → result unit * S).

Definition RESULT_MISMATCH : string :=
  "preparation_worker_failed: worker returned {} results for {} inputs".

Definition handle_batch_error (run : list EmbeddingInput → W → S → result unit * W * S)
    (batch : list EmbeddingInput) (error : string) (w : W) (s : S) : result unit * W * S :=
  if is_retryable_batch_error w error then (Err error, w, s)
  else if batch_error_is_unit_failure w error || (length batch =? 1) then
    let '(r, s) := complete batch (replicate (length batch) (Err error)) s in (r, w, s)
  else
    let middle := length batch / 2 in
    match run (take middle batch) w s with
    | (Ok _, w, s) => run (drop middle batch) w s
    | (Err e, w, s) => (Err e, w, s)
    end.

(** Each bisection halves the batch, so its length is fuel enough. *)
Fixpoint run_one_batch (fuel : nat) (batch : list EmbeddingInput) (w : W) (s : S)
    : result unit * W * S :=
  match fuel with
  | 0 => (Err "out of fuel", w, s)
  | Datatypes.S fuel =>
      let '(answer, w) := embed_batch w batch in
      match answer with
      | Ok results =>
          if length results =? length batch
          then let '(r, s) := complete batch results s in (r, w, s)
          else handle_batch_error (run_one_batch fuel) batch RESULT_MISMATCH w s
      | Err e => handle_batch_error (run_one_batch fuel) batch e w s
      end
  end.

Fixpoint run_batches_go (fuel : nat) (inputs : list EmbeddingInput) (start : nat) (w : W) (s : S)
    : result unit * W * S :=
  if start <? length inputs then
    match fuel with
    | 0 => (Err "out of fuel", w, s)
    | Datatypes.S fuel =>
        let end_ := next_batch_end inputs start in
        let batch := take (end_ - start) (drop start inputs) in
        match run_one_batch (length batch) batch w s with
        | (Ok _, w, s) => run_batches_go fuel inputs end_ w s
        | (Err e, w, s) => (Err e, w, s)
        end
    end
  else (Ok tt, w, s).
Definition run_batches_grouped (inputs : list EmbeddingInput) (w : W) (s : S) : result unit * W * S :=
  run_batches_go (length inputs) inputs 0 w s.
End Run.

(** ** Batch limits *)

Definition slice {A} (i j : nat) (l : list A) : list A := take (j - i) (drop i l).
Definition max_tokens_of (batch : list EmbeddingInput) : Z := foldr Z.max 0%Z (token_count <$> batch).
(** The tokens of a batch padded to its longest input. *)
Definition padded (batch : list EmbeddingInput) : Z := (max_tokens_of batch * Z.of_nat (length batch))%Z.
Definition oversized (input : EmbeddingInput) : Prop := (MAX_MODEL_TOKENS < token_count input)%Z.

Lemma slice_snoc {A} (l : list A) i j x :
  i ≤ j → l !! j = Some x → slice i (j + 1) l = slice i j l ++ [x].
Proof.
  intros Hij Hx. unfold slice. replace (j + 1 - i) with (S (j - i)) by lia.
  apply take_S_r. by rewrite lookup_drop, Nat.add_sub_assoc, Nat.add_comm, Nat.add_sub by lia.
Qed.
Lemma slice_length {A} (l : list A) i j : i ≤ j ≤ length l → length (slice i j l) = j - i.
Proof. intros. unfold slice. rewrite length_take, length_drop. lia. Qed.

Lemma max_tokens_snoc batch x :
  max_tokens_of (batch ++ [x]) = Z.max (max_tokens_of batch) (token_count x).
Proof.
  unfold max_tokens_of. rewrite fmap_app. cbn. generalize (token_count <$> batch). intros l.
  induction l as [|y l IH]; cbn; lia.
Qed.

(** A batch within the padding limit, or one whose last input is oversized. *)
Definition batch_ok (batch : list EmbeddingInput) : Prop :=
  (padded batch ≤ MAX_PADDED_TOKENS)%Z ∧ (∀ x, x ∈ batch → ¬ oversized x) ∨
  ∃ init x, batch = init ++ [x] ∧ oversized x ∧ (padded init ≤ MAX_PADDED_TOKENS)%Z ∧
    ∀ y, y ∈ init → ¬ oversized y.

Lemma batch_end_go_spec fuel inputs start end_ max_tokens :
  start ≤ end_ ≤ length inputs → start < length inputs → length inputs ≤ end_ + fuel →
  end_ - start ≤ MAX_BATCH → max_tokens = max_tokens_of (slice start end_ inputs) →
  (padded (slice start end_ inputs) ≤ MAX_PADDED_TOKENS)%Z →
  (∀ x, x ∈ slice start end_ inputs → ¬ oversized x) →
  let e := batch_end_go fuel inputs start end_ max_tokens in
  start < e ≤ length inputs ∧ e - start ≤ MAX_BATCH ∧ batch_ok (slice start e inputs).
Proof.
  revert end_ max_tokens. induction fuel as [|fuel IH]; intros end_ max_tokens Hle Hs Hfuel Hb Hm Hp Ho;
    cbn [batch_end_go]; cbv zeta.
  { replace (Nat.max end_ (start + 1)) with end_ by lia. split_and!; try lia. by left. }
  destruct (inputs !! end_) as [input|] eqn:Hin.
  2: { apply lookup_ge_None in Hin. replace (Nat.max end_ (start + 1)) with end_ by lia.
       split_and!; try lia. by left. }
  pose proof (lookup_lt_Some _ _ _ Hin) as Hlt.
  destruct (end_ - start <? MAX_BATCH) eqn:Hbatch; bool_to_prop.
  2: { unfold MAX_BATCH in *. replace (Nat.max end_ (start + 1)) with end_ by lia.
       split_and!; try lia. by left. }
  destruct (MAX_MODEL_TOKENS <? token_count input)%Z eqn:Hover; bool_to_prop.
  { unfold MAX_BATCH in *. split_and!; try lia. right. exists (slice start end_ inputs), input.
    rewrite (slice_snoc _ _ _ input) by (done || lia). done. }
  assert (slice start (end_ + 1) inputs = slice start end_ inputs ++ [input]) as Hsnoc
    by (apply slice_snoc; [lia|done]).
  destruct (_ && _) eqn:Hpad; bool_to_prop.
  { replace (Nat.max end_ (start + 1)) with end_ by lia. split_and!; try lia. by left. }
  apply IH; try lia; rewrite Hsnoc.
  - by rewrite max_tokens_snoc, <-Hm.
  - unfold padded. rewrite max_tokens_snoc, <-Hm, length_app, slice_length by lia. cbn [length].
    unfold saturating_mul, MAX_PADDED_TOKENS, MAX_MODEL_TOKENS, USIZE_MAX in *.
    destruct (start <? end_) eqn:Hfirst; bool_to_prop.
    + cbn [andb] in Hpad. apply Z.ltb_ge in Hpad.
      replace (end_ - start + 1) with (end_ + 1 - start) by lia.
      revert Hpad. generalize (Z.max max_tokens (token_count input) * Z.of_nat (end_ + 1 - start))%Z. lia.
    + assert (end_ = start) as -> by lia. rewrite Nat.sub_diag. change (Z.of_nat (0 + 1)) with 1%Z. rewrite Z.mul_1_r.
      unfold slice, max_tokens_of in Hm. rewrite Nat.sub_diag, take_0 in Hm. cbn in Hm. lia.
  - intros x [Hx|Hx]%elem_of_app; [by apply Ho|]. apply list_elem_of_singleton in Hx as ->.
    unfold oversized. lia.
Qed.

Lemma next_batch_spec inputs start :
  start < length inputs →
  let e := next_batch_end inputs start in
  start < e ≤ length inputs ∧ e - start ≤ MAX_BATCH ∧ batch_ok (slice start e inputs).
Proof.
  intros Hs. unfold next_batch_end. apply batch_end_go_spec; unfold MAX_BATCH; try lia.
  all: unfold slice; rewrite Nat.sub_diag, take_0; try done. by intros x Hx%elem_of_nil.
Qed.

(** Batch limits: from every position the planner takes at least one and at
    most eight of the remaining inputs, and a batch stays within the padding
    limit unless its last input alone exceeds the model; every input before an
    oversized one is within the limits. *)
Theorem next_batch_bounds (inputs : list EmbeddingInput) (start : nat) :
  start < length inputs →
  let e := next_batch_end inputs start in
  start < e ≤ length inputs ∧ e - start ≤ MAX_BATCH ∧ batch_ok (slice start e inputs).
Proof. apply next_batch_spec. Qed.

(** The batch a run takes next. *)
Lemma next_batch_range inputs start :
  start < length inputs →
  let end_ := next_batch_end inputs start in
  let batch := take (end_ - start) (drop start inputs) in
  start < end_ ≤ length inputs ∧ length batch = end_ - start ∧
  drop start inputs = batch ++ drop end_ inputs.
Proof.
  intros Hlt. cbv zeta.
  destruct (next_batch_spec inputs start Hlt) as (Hb & _).
  split_and!; [lia..| |].
  - rewrite length_take, length_drop. lia.
  - rewrite <-(take_drop (next_batch_end inputs start - start) (drop start inputs)) at 1.
    rewrite drop_drop. do 2 f_equal. lia.
Qed.

Lemma next_batch_count inputs start :
  start < length inputs → next_batch_end inputs start - start ≤ MAX_BATCH.
Proof. intros Hlt. by destruct (next_batch_spec inputs start Hlt) as (_ & ? & _). Qed.

(** The halves of a batch of two or more. *)
Lemma halves {A} (l : list A) :
  l ≠ [] → length l ≠ 1 →
  let middle := length l / 2 in
  take middle l ≠ [] ∧ drop middle l ≠ [] ∧ length (take middle l) < length l ∧ length (drop middle l) < length l.
Proof.
  intros Hne Hone. assert (2 ≤ length l) as Htwo by (destruct l as [|? [|? ?]]; [done|cbn in *; lia..]).
  pose proof (Nat.div_lt (length l) 2 ltac:(lia) ltac:(lia)).
  pose proof (Nat.Div0.div_le_mono 2 (length l) 2 Htwo) as Hhalf. change (2 / 2) with 1 in Hhalf.
  assert (∀ l : list A, 1 ≤ length l → l ≠ []) as Hnil by (intros [|]; cbn; [lia|done]).
  cbv zeta. set (middle := length l / 2) in *.
  split_and!; [apply Hnil|apply Hnil|..]; rewrite ?length_take, ?length_drop; lia.
Qed.

(** ** Accounting *)

Section Account.
Context {W : Type} `{EmbeddingWorker W} {S : Type}.
Context (complete : list EmbeddingInput → list (result Embedding) → S → result unit * S).

Abbreviation Event := (list EmbeddingInput * list (result Embedding))%type.

(** The calls of the sink one after the other, up to the first that fails. *)
Fixpoint replay (events : list Event) (s : S) : result unit * S :=
  match events with
  | [] => (Ok tt, s)
  | (batch, results) :: events =>
      match complete batch results s with
      | (Ok _, s) => replay events s
      | (Err e, s) => (Err e, s)
      end
  end.

(** One outcome per input. *)
Definition paired (e : Event) : Prop := e.1 ≠ [] ∧ length e.2 = length e.1.

(** What running a batch from [s] did: every input was given to the sink once,
    in order; or the run stopped, at an error to retry or at one of the sink. *)
Inductive accounted (batch : list EmbeddingInput) (s : S) : result unit → S → Prop :=
| AllGiven events s' :
    replay events s = (Ok tt, s') → Forall paired events → concat events.*1 = batch →
    accounted batch s (Ok tt) s'
| RetryLater events rest e (w : W) s' :
    replay events s = (Ok tt, s') → Forall paired events → concat events.*1 ++ rest = batch →
    is_retryable_batch_error w e = true → accounted batch s (Err e) s'
| SinkFailed events rest e s' :
    replay events s = (Err e, s') → Forall paired events → concat events.*1 ++ rest = batch →
    accounted batch s (Err e) s'.

Lemma replay_app events events' s s' :
  replay events s = (Ok tt, s') → replay (events ++ events') s = replay events' s'.
Proof.
  revert s. induction events as [|[b rs] events IH]; intros s; cbn [replay app].
  { by intros [= ->]. }
  destruct (complete b rs s) as [[[]|e] s1]; [apply IH|done].
Qed.

Lemma accounted_one batch results s :
  batch ≠ [] → length results = length batch →
  accounted batch s (complete batch results s).1 (complete batch results s).2.
Proof.
  intros Hne Hl. assert (Forall paired [(batch, results)]) as Hp by (repeat constructor; done).
  destruct (complete batch results s) as [[[]|e] s'] eqn:Hc.
  - eapply (AllGiven _ _ [(batch, results)]); cbn; [by rewrite Hc|done|by rewrite app_nil_r].
  - eapply (SinkFailed _ _ [(batch, results)] []); cbn; [by rewrite Hc|done|by rewrite !app_nil_r].
Qed.

Lemma accounted_app b1 b2 s s1 r s2 :
  accounted b1 s (Ok tt) s1 → accounted b2 s1 r s2 → accounted (b1 ++ b2) s r s2.
Proof.
  intros H1 H2. inversion H1 as [ev1 ? Hr1 Hp1 Hc1| |]; subst.
  destruct H2 as [ev2 s2 Hr2 Hp2 Hc2|ev2 rest e w s2 Hr2 Hp2 Hc2 Hw|ev2 rest e s2 Hr2 Hp2 Hc2]; subst.
  - eapply (AllGiven _ _ (ev1 ++ ev2)); [by rewrite (replay_app _ _ _ _ Hr1)|by apply Forall_app|].
    by rewrite fmap_app, concat_app.
  - eapply (RetryLater _ _ (ev1 ++ ev2) rest); [by rewrite (replay_app _ _ _ _ Hr1)|by apply Forall_app| |done].
    by rewrite fmap_app, concat_app, <-app_assoc.
  - eapply (SinkFailed _ _ (ev1 ++ ev2) rest); [by rewrite (replay_app _ _ _ _ Hr1)|by apply Forall_app|].
    by rewrite fmap_app, concat_app, <-app_assoc.
Qed.

Lemma accounted_stop b1 b2 s e s1 : accounted b1 s (Err e) s1 → accounted (b1 ++ b2) s (Err e) s1.
Proof.
  intros H1. inversion H1 as [|ev rest ? w ? Hr Hp Hc Hw|ev rest ? ? Hr Hp Hc]; subst.
  - by eapply (RetryLater _ _ ev (rest ++ b2)); [done|done|by rewrite app_assoc|].
  - by eapply (SinkFailed _ _ ev (rest ++ b2)); [done|done|by rewrite app_assoc].
Qed.

Lemma run_one_batch_accounted fuel batch w s :
  batch ≠ [] → length batch ≤ fuel →
  let '(r, _, s') := run_one_batch complete fuel batch w s in accounted batch s r s'.
Proof.
  revert batch w s. induction fuel as [|fuel IH]; intros batch w s Hne Hf; cbn [run_one_batch].
  { by destruct batch; [|cbn in Hf; lia]. }
  assert (∀ error w, let '(r, _, s') := handle_batch_error complete (run_one_batch complete fuel) batch error w s in
    accounted batch s r s') as Herror.
  { clear w. intros error w. unfold handle_batch_error.
    destruct (is_retryable_batch_error w error) eqn:Hw.
    { by eapply (RetryLater _ _ [] batch); [done|constructor|done|]. }
    destruct (_ || _) eqn:Hunit.
    { pose proof (accounted_one batch (replicate (length batch) (Err error)) s Hne) as Hone.
      destruct (complete batch _ s) as [r s']. apply Hone. by rewrite length_replicate. }
    bool_to_prop. destruct (halves batch Hne ltac:(done)) as (Hn1 & Hn2 & Hl1 & Hl2).
    set (middle := length batch / 2) in *.
    pose proof (IH (take middle batch) w s) as Hl.
    destruct (run_one_batch complete fuel (take middle batch) w s) as [[[[]|e] w1] s1].
    - pose proof (IH (drop middle batch) w1 s1) as Hr.
      destruct (run_one_batch complete fuel (drop middle batch) w1 s1) as [[r w2] s2].
      rewrite <-(take_drop middle batch). eapply accounted_app.
      + apply Hl; [done|lia].
      + apply Hr; [done|lia].
    - rewrite <-(take_drop middle batch). apply accounted_stop. apply Hl; [done|lia]. }
  destruct (embed_batch w batch) as [[results|e] w']; [|apply Herror].
  destruct (length results =? length batch) eqn:Hl; [|apply Herror]. bool_to_prop.
  pose proof (accounted_one batch results s Hne Hl) as Hone. by destruct (complete batch results s).
Qed.

Lemma run_batches_go_accounted fuel inputs start w s :
  start ≤ length inputs → length inputs ≤ start + fuel →
  let '(r, _, s') := run_batches_go complete fuel inputs start w s in accounted (drop start inputs) s r s'.
Proof.
  revert start w s. induction fuel as [|fuel IH]; intros start w s Hs Hf; cbn [run_batches_go].
  all: destruct (start <? length inputs) eqn:Hlt; bool_to_prop;
    [|rewrite drop_ge by lia; by apply (AllGiven _ _ [])].
  { lia. }
  destruct (next_batch_range inputs start Hlt) as (Hb & Hlen & Hsplit). cbv zeta.
  set (end_ := next_batch_end inputs start) in *.
  set (batch := take (end_ - start) (drop start inputs)) in *. rewrite Hsplit.
  pose proof (run_one_batch_accounted (length batch) batch w s) as Hone.
  destruct (run_one_batch complete (length batch) batch w s) as [[[[]|e] w1] s1].
  - pose proof (IH end_ w1 s1 ltac:(lia) ltac:(lia)) as Hrest.
    destruct (run_batches_go complete fuel inputs end_ w1 s1) as [[r w2] s2].
    eapply accounted_app; [|done]. apply Hone; [|done]. intros Hn. rewrite Hn in Hlen. cbn in Hlen. lia.
  - apply accounted_stop. apply Hone; [|done]. intros Hn. rewrite Hn in Hlen. cbn in Hlen. lia.
Qed.

(** What every call of the sink preserves, a run preserves. *)
Lemma accounted_invariant (P : S → Prop) batch s r s' :
  (∀ b rs s, P s → P (complete b rs s).2) → accounted batch s r s' → P s → P s'.
Proof.
  intros Hc Ha Hs. assert (∀ events s r s', replay events s = (r, s') → P s → P s') as Hreplay.
  { clear -Hc. induction events as [|[b rs] events IH]; intros s r s'; cbn [replay]; [by intros [= _ <-]|].
    pose proof (Hc b rs s) as Hb. destruct (complete b rs s) as [[[]|e] s1]; [|intros [= _ <-]; auto].
    intros He Hs. by eapply IH; [|apply Hb]. }
  inversion Ha; subst; by eapply Hreplay.
Qed.
Lemma run_batches_invariant (P : S → Prop) inputs w s :
  (∀ b rs s, P s → P (complete b rs s).2) → P s → P (run_batches_grouped complete inputs w s).2.
Proof.
  intros Hc Hs. pose proof (run_batches_go_accounted (length inputs) inputs 0 w s) as Ha.
  unfold run_batches_grouped. destruct (run_batches_go complete (length inputs) inputs 0 w s) as [[r w'] s'].
  cbn. eapply accounted_invariant; [done|apply Ha; lia|done].
Qed.

(** Accounting: whatever the worker answers, running the inputs gives each of
    them to the sink once, with one outcome, in order; it stops early only at an
    error the worker calls retryable or at an error of the sink, and then what was
    given is a prefix of the inputs.  The bisection always ends. *)
Theorem run_batches_account_inputs (inputs : list EmbeddingInput) (w : W) (s : S) :
  let '(r, _, s') := run_batches_grouped complete inputs w s in accounted inputs s r s'.
Proof. apply (run_batches_go_accounted (length inputs) inputs 0); lia. Qed.
End Account.

(** ** Isolation *)

Section Isolate.
Context {W : Type} `{EmbeddingWorker W}.
(** A worker that rejects a batch exactly when it holds a bad input, with an error
    that is neither to retry nor a failure of every input. *)
Context (bad : EmbeddingInput → bool) (value : EmbeddingInput → Embedding) (e : string).
Context (Hembed : ∀ w batch, (embed_batch w batch).1 =
  if existsb bad batch then Err e else Ok ((λ i, Ok (value i)) <$> batch)).
Context (Hretry : ∀ w, is_retryable_batch_error w e = false).
Context (Hunit : ∀ w, batch_error_is_unit_failure w e = false).

Definition record_outcomes (batch : list EmbeddingInput) (results : list (result Embedding))
    (s : list (EmbeddingInput * result Embedding)) : result unit * list (EmbeddingInput * result Embedding) :=
  (Ok tt, s ++ zip batch results).
Definition outcome (i : EmbeddingInput) : EmbeddingInput * result Embedding :=
  (i, if bad i then Err e else Ok (value i)).

Lemma good_outcomes batch :
  existsb bad batch = false → zip batch ((λ i, Ok (value i)) <$> batch) = outcome <$> batch.
Proof.
  induction batch as [|i batch IH]; [done|]. cbn [existsb]. intros [Hi Hb]%orb_false_elim.
  cbn. unfold outcome at 1. rewrite Hi, <-IH by done. done.
Qed.

Lemma run_one_batch_isolates fuel batch w s :
  batch ≠ [] → length batch ≤ fuel →
  ∃ w', run_one_batch record_outcomes fuel batch w s = (Ok tt, w', s ++ (outcome <$> batch)).
Proof.
  revert batch w s. induction fuel as [|fuel IH]; intros batch w s Hne Hf.
  { by destruct batch; [|cbn in Hf; lia]. }
  cbn [run_one_batch]. pose proof (Hembed w batch) as Hb.
  destruct (embed_batch w batch) as [answer w1]. cbn [fst] in Hb. subst answer.
  destruct (existsb bad batch) eqn:Hbad.
  2: { rewrite length_fmap, Nat.eqb_refl. cbn. rewrite good_outcomes by done. by exists w1. }
  unfold handle_batch_error. rewrite Hretry, Hunit. cbn [orb].
  destruct (length batch =? 1) eqn:Hone; bool_to_prop.
  { destruct batch as [|i [|? ?]]; [done| |done]. exists w1. cbn in *. unfold outcome.
    apply orb_true_iff in Hbad as [-> |?]; done. }
  destruct (halves batch Hne Hone) as (Hn1 & Hn2 & Hl1 & Hl2). set (middle := length batch / 2) in *.
  destruct (IH (take middle batch) w1 s) as [w2 ->]; [done|lia|].
  destruct (IH (drop middle batch) w2 (s ++ (outcome <$> take middle batch))) as [w3 ->]; [done|lia|].
  exists w3. by rewrite <-app_assoc, <-fmap_app, take_drop.
Qed.

Lemma run_batches_go_isolates fuel inputs start w s :
  start ≤ length inputs → length inputs ≤ start + fuel →
  ∃ w', run_batches_go record_outcomes fuel inputs start w s =
    (Ok tt, w', s ++ (outcome <$> drop start inputs)).
Proof.
  revert start w s. induction fuel as [|fuel IH]; intros start w s Hs Hf; cbn [run_batches_go].
  all: destruct (start <? length inputs) eqn:Hlt; bool_to_prop;
    [|rewrite drop_ge by lia; exists w; by rewrite app_nil_r].
  { lia. }
  destruct (next_batch_range inputs start Hlt) as (Hb & Hlen & Hsplit). cbv zeta.
  set (end_ := next_batch_end inputs start) in *.
  set (batch := take (end_ - start) (drop start inputs)) in *.
  destruct (run_one_batch_isolates (length batch) batch w s) as [w1 ->]; [|done|].
  { intros Hn. rewrite Hn in Hlen. cbn in Hlen. lia. }
  destruct (IH end_ w1 (s ++ (outcome <$> batch)) ltac:(lia) ltac:(lia)) as [w2 ->].
  exists w2. by rewrite Hsplit, fmap_app, app_assoc.
Qed.

(** C22. Isolation: when a worker rejects every batch that holds a bad input, the
    bisection gives every good input its vector and only the bad inputs the
    error, in the order of the inputs. *)
Theorem bisect_isolates (inputs : list EmbeddingInput) (w : W) :
  ∃ w', run_batches_grouped record_outcomes inputs w [] = (Ok tt, w', outcome <$> inputs).
Proof. apply (run_batches_go_isolates (length inputs) inputs 0 w []); lia. Qed.
End Isolate.

(** ** Concrete batches *)

Module BatchesExample.
Definition input (key : string) (tokens : Z) : EmbeddingInput :=
  {| input_key := lit key; input_text := lit key; token_count := tokens |}.
Definition inputs : list EmbeddingInput :=
  [input "a" 4096; input "b" 4096; input "c" 1; input "d" 5000; input "e" 2].

Lemma next_batch_bounds_witness :
  next_batch_end inputs 0 = 2 ∧ batch_ok (slice 0 2 inputs) ∧ batch_ok (slice 2 4 inputs).
Proof.
  split; [vm_compute; reflexivity|].
  split; [exact (proj2 (proj2 (next_batch_bounds inputs 0 ltac:(cbn; lia))))|].
  exact (proj2 (proj2 (next_batch_bounds inputs 2 ltac:(cbn; lia)))).
Defined.

(** A provider that rejects a batch with the text ["d"]. *)
Definition reject : string := "inference failed for batch inputs".
Definition provider (p : nat) (texts : list str) : result (list Embedding) * nat :=
  (if existsb (λ t, t =s lit "d") texts then Err reject else Ok ((λ _, [f32_of_Z 1]) <$> texts), S p).
#[local] Instance worker : EmbeddingWorker (SharedWorker nat) := shared_worker (λ _, false) provider.
Definition bad (i : EmbeddingInput) : bool := input_text i =s lit "d".
Definition value (_ : EmbeddingInput) : Embedding := [f32_of_Z 1].

Lemma rejects (w : SharedWorker nat) batch :
  (embed_batch w batch).1 = if existsb bad batch then Err reject else Ok ((λ i, Ok (value i)) <$> batch).
Proof.
  unfold embed_batch, worker, shared_worker, provider, per_input. cbn [fst].
  assert (existsb (λ t, t =s lit "d") (input_text <$> batch) = existsb bad batch) as ->.
  { induction batch as [|i batch IH]; [done|]. cbn [fmap list_fmap existsb]. by rewrite IH. }
  destruct (existsb bad batch); [done|]. cbn. rewrite !length_fmap, Nat.eqb_refl.
  by rewrite <-!list_fmap_compose.
Qed.

Lemma bisect_isolates_witness :
  ∃ w', run_batches_grouped record_outcomes inputs {| shared_provider := 0 |} [] =
    (Ok tt, w', [(input "a" 4096, Ok [f32_of_Z 1]); (input "b" 4096, Ok [f32_of_Z 1]);
      (input "c" 1, Ok [f32_of_Z 1]); (input "d" 5000, Err reject); (input "e" 2, Ok [f32_of_Z 1])]).
Proof.
  exact (bisect_isolates bad value reject rejects (λ _, eq_refl) (λ _, eq_refl) inputs {| shared_provider := 0 |}).
Defined.

(** The comment in [next_batch_end] says that an oversized input is kept as a
    batch of its own; it is the last of the batch that reaches it. *)
Example oversized_shares_batch :
  next_batch_end inputs 2 = 4 ∧ oversized (input "d" 5000) ∧ slice 2 4 inputs = [input "c" 1; input "d" 5000].
Proof. split_and!; [vm_compute; reflexivity|by vm_compute|reflexivity]. Qed.
End BatchesExample.
