(* ===== verification/Preparation.v ===== *)
(** * Background preparation of one source generation

    Models [src/src/semantic/preparation.rs] and [preparation/cache.rs]: the
    persistent record of runs and completions, and the sweep that embeds the
    regions of one committed generation, resumes after a restart and ends in an
    explicit outcome.

    The index is read in separate transactions while another process may publish
    a new generation: [index n] is what the n-th read sees.  Time is read from a
    clock and advanced by sleeping.  The vectors live in a cache behind the
    [VectorCache] interface, which the embedding cache implements; the columns
    [updated_ms] and [completed_ms], which no code reads, are left out, and the
    preparation database itself does not fail. *)
From Stdlib Require Import Ascii String ZArith Lia Permutation Sorted.
From stdpp Require Import base numbers list gmap strings.
From S2P Require Import Prelude Order Text Timing Ranking EmbeddingCache Batches.

Definition SNAPSHOT_WINDOW : nat := 256.
Definition RETRY_WINDOW : Z := from_secs 60.
Definition FIRST_RETRY_DELAY : Z := from_millis 50.
Definition MAX_RETRY_DELAY : Z := from_secs 1.
Definition RUN_RETENTION : nat := 256.

(** ** States and records *)

Inductive PreparationState := Idle | Running | Completed | Superseded | Failed | Capacity.
#[export] Instance preparation_state_eq_dec : EqDecision PreparationState.
Proof. solve_decision. Defined.

Definition as_str (s : PreparationState) : str :=
  lit match s with
      | Idle => "idle" | Running => "running" | Completed => "completed"
      | Superseded => "superseded" | Failed => "failed" | Capacity => "capacity"
      end.
Definition terminal (s : PreparationState) : bool :=
  match s with Completed | Superseded | Failed | Capacity => true | Idle | Running => false end.
Definition state_from_str (value : str) : result PreparationState :=
  if value =s lit "idle" then Ok Idle
  else if value =s lit "running" then Ok Running
  else if value =s lit "completed" then Ok Completed
  else if value =s lit "superseded" then Ok Superseded
  else if value =s lit "failed" then Ok Failed
  else if value =s lit "capacity" then Ok Capacity
  else Err "unknown preparation state".

Record PreparationStatus := {
  st_generation : Z; st_state : PreparationState; st_cursor : Z; st_total : Z; st_cached : Z;
  st_missing : Z; st_failures : Z; st_error : option str;
}.
Record ScheduleReceipt := { captured_generation : Z; coalesced : bool }.
Record PreparationWait := { wait_generation : Z; wait_state : PreparationState; wait_status : PreparationStatus }.
Definition is_terminal (w : PreparationWait) : bool := terminal (wait_state w).

(** A row of [preparation_runs], and the record read from it. *)
Record RunRow := {
  row_state : str; row_cursor : Z; row_total : Z; row_cached : Z; row_missing : Z; row_failures : Z;
  row_error : option str;
}.
Record RunRecord := {
  state : PreparationState; cursor : Z; total : Z; cached : Z; missing : Z; failures : Z;
  error : option str;
}.
(** A row of [preparation_completions]; the column is checked to be one of two. *)
Inductive CompletionOutcome := CompleteOutcome | FailedOutcome.
Record Completion := { outcome_column : CompletionOutcome; completion_error : option str }.

(** ** The preparation database *)

(** The vectors as the sweep uses them. *)
Class VectorCache (C : Type) := {
  is_cached : C → str → bool;
  store_many : C → list (str * Embedding) → result unit * C;
}.

(** [as i64], and [try_into] back to [usize]. *)
Definition as_i64 (n : Z) : Z := if (n <=? I64_MAX)%Z then n else (n - (U64_MAX + 1))%Z.
Definition to_usize (message : string) (n : Z) : result Z := if (0 <=? n)%Z then Ok n else Err message.

Section Cache.
Context {C : Type} `{VectorCache C}.

Record PreparationCache := {
  requested : Z; runs : gmap Z RunRow; completions : gmap str Completion; vectors : C;
}.
Definition set_runs (r : gmap Z RunRow) (p : PreparationCache) : PreparationCache :=
  {| requested := requested p; runs := r; completions := completions p; vectors := vectors p |}.
Definition set_completions (m : gmap str Completion) (p : PreparationCache) : PreparationCache :=
  {| requested := requested p; runs := runs p; completions := m; vectors := vectors p |}.
Definition set_vectors (c : C) (p : PreparationCache) : PreparationCache :=
  {| requested := requested p; runs := runs p; completions := completions p; vectors := c |}.

Definition request (generation : Z) : SR PreparationCache bool := λ p,
  if (generation <=? 0)%Z then (Err "preparation_unavailable: no published source generation", p)
  else (Ok (generation <=? requested p)%Z,
        {| requested := Z.max (requested p) generation; runs := runs p;
           completions := completions p; vectors := vectors p |}).

Definition read_row (r : RunRow) : result RunRecord :=
  state ← state_from_str (row_state r);
  cursor ← to_usize "negative preparation cursor" (row_cursor r);
  total ← to_usize "invalid preparation total" (row_total r);
  cached ← to_usize "invalid cached count" (row_cached r);
  missing ← to_usize "invalid missing count" (row_missing r);
  failures ← to_usize "invalid failure count" (row_failures r);
  Ok {| state := state; cursor := cursor; total := total; cached := cached; missing := missing;
        failures := failures; error := row_error r |}.
Definition run (generation : Z) (p : PreparationCache) : result (option RunRecord) :=
  match runs p !! generation with
  | Some r => Some <$> read_row r
  | None => Ok None
  end.
Definition persisted_run (generation : Z) (p : PreparationCache) : result RunRecord :=
  r ← run generation p; or_err "preparation run was not persisted" r.

Definition fresh_row (total : Z) : RunRow :=
  {| row_state := as_str Running; row_cursor := 0; row_total := total; row_cached := 0; row_missing := 0;
     row_failures := 0; row_error := None |}.

(** [DELETE ... WHERE generation NOT IN (SELECT ... ORDER BY generation DESC LIMIT 256)]. *)
Definition newest_generations (p : PreparationCache) : list Z :=
  take RUN_RETENTION (sort_by (cmp_rev Z.compare) (map_to_list (runs p)).*1).
Definition prune_runs (p : PreparationCache) : PreparationCache :=
  set_runs (filter (λ '(g, _), g ∈ newest_generations p) (runs p)) p.

Definition terminal_text (s : str) : bool :=
  (s =s lit "completed") || (s =s lit "superseded") || (s =s lit "failed") || (s =s lit "capacity").
Definition not_failed (c : Completion) : bool :=
  match outcome_column c with FailedOutcome => false | CompleteOutcome => true end.
Definition reset_terminal_run (generation : Z) (total : option Z) (p : PreparationCache)
    : bool * PreparationCache :=
  match runs p !! generation with
  | Some r =>
      if terminal_text (row_state r) then
        (true, {| requested := requested p;
                  runs := <[generation := fresh_row (default (row_total r) (as_i64 <$> total))]> (runs p);
                  completions := filter (λ '(_, c), not_failed c = true) (completions p);
                  vectors := vectors p |})
      else (false, p)
  | None => (false, p)
  end.
Definition reset_terminal (generation : Z) (p : PreparationCache) : bool * PreparationCache :=
  reset_terminal_run generation None p.

Definition begin_run (generation total : Z) (reset : bool) : SR PreparationCache RunRecord := λ p,
  match run generation p with
  | Err e => (Err e, p)
  | Ok (Some existing) =>
      if reset && terminal (state existing) then
        let p := (reset_terminal_run generation (Some total) p).2 in (persisted_run generation p, p)
      else (Ok existing, p)
  | Ok None =>
      let p := prune_runs (set_runs (<[generation := fresh_row (as_i64 total)]> (runs p)) p) in
      (persisted_run generation p, p)
  end.

(** [UPDATE preparation_runs ... WHERE generation=?1]. *)
Definition update_run (generation : Z) (row : RunRow) (p : PreparationCache) : PreparationCache :=
  set_runs (alter (λ _, row) generation (runs p)) p.
Definition progress (generation cursor total cached missing failures : Z) (p : PreparationCache)
    : PreparationCache :=
  update_run generation
    {| row_state := as_str Running; row_cursor := as_i64 cursor; row_total := as_i64 total;
       row_cached := as_i64 cached; row_missing := as_i64 missing; row_failures := as_i64 failures;
       row_error := None |} p.
Definition finish (generation : Z) (state : PreparationState) (cursor total cached missing failures : Z)
    (error : option str) (p : PreparationCache) : PreparationCache :=
  update_run generation
    {| row_state := as_str state; row_cursor := as_i64 cursor; row_total := as_i64 total;
       row_cached := as_i64 cached; row_missing := as_i64 missing; row_failures := as_i64 failures;
       row_error := error |} p.

Definition with_state (s : PreparationState) (error : option str) (r : RunRow) : RunRow :=
  {| row_state := as_str s; row_cursor := row_cursor r; row_total := row_total r; row_cached := row_cached r;
     row_missing := row_missing r; row_failures := row_failures r; row_error := error |}.
Definition supersede_older (generation : Z) (p : PreparationCache) : PreparationCache :=
  set_runs (map_imap (λ g r, Some (
    if (g <? generation)%Z && (row_state r =s lit "running")
    then with_state Superseded (Some (default (lit "source generation superseded") (row_error r))) r
    else r)) (runs p)) p.
Definition supersede_generation (generation total : Z) (error : string) (p : PreparationCache)
    : PreparationCache :=
  set_runs (<[generation :=
    match runs p !! generation with
    | Some r => if row_state r =s lit "running" then with_state Superseded (Some (lit error)) r else r
    | None =>
        {| row_state := as_str Superseded; row_cursor := 0; row_total := as_i64 total; row_cached := 0;
           row_missing := 0; row_failures := 0; row_error := Some (lit error) |}
    end]> (runs p)) p.

(** [INSERT OR IGNORE]. *)
Definition insert_completion (key : str) (c : Completion) (p : PreparationCache) : PreparationCache :=
  match completions p !! key with
  | Some _ => p
  | None => set_completions (<[key := c]> (completions p)) p
  end.
Definition complete_many (entries : list (str * Embedding)) : SR PreparationCache unit := λ p,
  match entries with
  | [] => (Ok tt, p)
  | _ =>
      let '(r, c) := store_many (vectors p) entries in
      let p := set_vectors c p in
      match r with
      | Err e => (Err e, p)
      | Ok _ =>
          (Ok tt, foldl (λ p e, insert_completion e.1 {| outcome_column := CompleteOutcome; completion_error := None |} p)
                    p entries)
      end
  end.
Definition fail (key : str) (error : string) (p : PreparationCache) : PreparationCache :=
  insert_completion key {| outcome_column := FailedOutcome; completion_error := Some (lit error) |} p.
Definition prune_completions (keys : gset str) (p : PreparationCache) : PreparationCache :=
  set_completions (filter (λ '(k, _), k ∈ keys) (completions p)) p.
Definition completion (key : str) (p : PreparationCache) : option bool := not_failed <$> completions p !! key.
Definition failed_key (p : PreparationCache) (key : str) : bool :=
  match completion key p with Some done => negb done | None => false end.

Definition record_worker_error (generation : Z) (message : string) (p : PreparationCache) : PreparationCache :=
  set_runs (<[generation :=
    match runs p !! generation with
    | Some r =>
        {| row_state := as_str Failed; row_cursor := row_cursor r; row_total := row_total r;
           row_cached := row_cached r; row_missing := row_missing r;
           row_failures := Z.max (row_failures r) 1; row_error := Some (lit message) |}
    | None =>
        {| row_state := as_str Failed; row_cursor := 0; row_total := 0; row_cached := 0; row_missing := 0;
           row_failures := 1; row_error := Some (lit message) |}
    end]> (runs p)) p.
Definition record_worker_error_in_cache (message : string) (p : PreparationCache) : PreparationCache :=
  if (0 <? requested p)%Z then record_worker_error (requested p) message p else p.

Definition CAPACITY_ERROR : string := "embedding cache capacity cannot retain all content".
Definition counts_for_status (generation total cached missing failures : Z) (p : PreparationCache)
    : result PreparationStatus :=
  r ← run generation p;
  let '(s, cursor, run_failures, error) :=
    match r with
    | Some r => (state r, Preparation.cursor r, Preparation.failures r, Preparation.error r)
    | None => (Idle, 0%Z, 0%Z, None)
    end in
  let '(s, error) :=
    if bool_decide (s = Completed) && (0 <? missing)%Z
    then (Capacity, match error with Some e => Some e | None => Some (lit CAPACITY_ERROR) end)
    else (s, error) in
  Ok {| st_generation := generation; st_state := s; st_cursor := cursor; st_total := total;
        st_cached := cached; st_missing := missing; st_failures := Z.max failures run_failures;
        st_error := error |}.

(** ** Windows of units *)

Fixpoint pending_go (p : PreparationCache) (seen : gset str) (units : list EmbeddingInput)
    : list EmbeddingInput :=
  match units with
  | [] => []
  | u :: units =>
      if is_cached (vectors p) (input_key u) || failed_key p (input_key u) then pending_go p seen units
      else if bool_decide (input_key u ∈ seen) then pending_go p seen units
      else u :: pending_go p ({[input_key u]} ∪ seen) units
  end.
Definition pending_inputs (p : PreparationCache) (units : list EmbeddingInput) : list EmbeddingInput :=
  pending_go p ∅ units.

Record Counts := { n_cached : Z; n_missing : Z; n_failures : Z }.
Definition no_counts : Counts := {| n_cached := 0; n_missing := 0; n_failures := 0 |}.
Definition count_unit (p : PreparationCache) (n : Counts) (u : EmbeddingInput) : Counts :=
  if is_cached (vectors p) (input_key u)
  then {| n_cached := n_cached n + 1; n_missing := n_missing n; n_failures := n_failures n |}
  else if failed_key p (input_key u)
  then {| n_cached := n_cached n; n_missing := n_missing n; n_failures := n_failures n + 1 |}
  else {| n_cached := n_cached n; n_missing := n_missing n + 1; n_failures := n_failures n |}.
Definition classify_units (p : PreparationCache) (units : list EmbeddingInput) : Counts :=
  foldl (count_unit p) no_counts units.

(** The outcomes of one batch: failures are recorded one by one, then the vectors
    of the others are stored together. *)
Fixpoint record_failures (batch : list EmbeddingInput) (results : list (result Embedding))
    (completed : list (str * Embedding)) (p : PreparationCache) : list (str * Embedding) * PreparationCache :=
  match batch, results with
  | i :: batch, r :: results =>
      match r with
      | Ok v => record_failures batch results (completed ++ [(input_key i, v)]) p
      | Err e => record_failures batch results completed (fail (input_key i) e p)
      end
  | _, _ => (completed, p)
  end.
Definition complete_batch (batch : list EmbeddingInput) (results : list (result Embedding))
    : SR PreparationCache unit := λ p,
  let '(completed, p) := record_failures batch results [] p in complete_many completed p.
End Cache.
Arguments PreparationCache C : clear implicits.

(** ** The sweep *)

(** A committed state of the index: its generation, and the bodies of the regions
    of current files in the order of the query. *)
Record Index := { index_generation : Z; bodies : list str }.

Section Sweep.
Context {C : Type} `{VectorCache C} {W : Type} `{EmbeddingWorker W}.
Context (content_key : str → str) (index : nat → Index) (clock : nat → Z).

(** [reads] and [ticks] count the reads of the index and of the clock so far. *)
Record Sys := { reads : nat; ticks : nat; slept : Z; prep : PreparationCache C; worker : W }.

Definition read_index : SR Sys Index := λ s,
  (Ok (index (reads s)),
   {| reads := S (reads s); ticks := ticks s; slept := slept s; prep := prep s; worker := worker s |}).
Definition instant_now : SR Sys Z := λ s,
  (Ok (clock (ticks s) + slept s)%Z,
   {| reads := reads s; ticks := S (ticks s); slept := slept s; prep := prep s; worker := worker s |}).
Definition sleep (d : Z) : SR Sys unit := λ s,
  (Ok tt, {| reads := reads s; ticks := ticks s; slept := slept s + d; prep := prep s; worker := worker s |}).
Definition set_prep (p : PreparationCache C) (s : Sys) : Sys :=
  {| reads := reads s; ticks := ticks s; slept := slept s; prep := p; worker := worker s |}.
Definition on_prep {A} (f : SR (PreparationCache C) A) : SR Sys A := λ s,
  let '(r, p) := f (prep s) in (r, set_prep p s).
Definition update_prep (f : PreparationCache C → PreparationCache C) : SR Sys unit := λ s,
  (Ok tt, set_prep (f (prep s)) s).
Definition query_prep {A} (f : PreparationCache C → result A) : SR Sys A := λ s, (f (prep s), s).

Definition read_generation : SR Sys Z := i ← read_index; mret (index_generation i).
Definition unit_of (text : str) : EmbeddingInput :=
  {| input_key := content_key text; input_text := text; token_count := estimate_tokens text |}.

Definition snapshot_size (expected : Z) : SR Sys (Z * Z) :=
  i ← read_index;
  if (index_generation i =? expected)%Z
  then mret (index_generation i, Z.of_nat (length (bodies i)))
  else mret (index_generation i, 0%Z).
Definition snapshot_units (expected : Z) (offset : nat) : SR Sys (Z * list EmbeddingInput) :=
  i ← read_index;
  mret (index_generation i,
    if (index_generation i =? expected)%Z
    then unit_of <$> take SNAPSHOT_WINDOW (drop offset (bodies i)) else []).

(** The loops that walk the windows take one turn per window and one more. *)
Fixpoint snapshot_content_keys (fuel : nat) (expected : Z) (offset : nat) (keys : gset str)
    : SR Sys (Z * gset str) :=
  match fuel with
  | 0 => throw "out of fuel"
  | S fuel =>
      '(observed, units) ← snapshot_units expected offset;
      if negb (observed =? expected)%Z then mret (observed, keys)
      else if (length units =? 0) then mret (expected, keys)
      else snapshot_content_keys fuel expected (offset + length units)
             (keys ∪ list_to_set (input_key <$> units))
  end.

Fixpoint current_counts (fuel : nat) (generation : Z) (offset : nat) (total : Z) (n : Counts)
    : SR Sys (Z * Z * Counts) :=
  match fuel with
  | 0 => throw "out of fuel"
  | S fuel =>
      '(observed, units) ← snapshot_units generation offset;
      if negb (observed =? generation)%Z then mret (observed, 0%Z, no_counts)
      else if (length units =? 0) then mret (generation, total, n)
      else
        p ← gets prep;
        let w := classify_units p units in
        current_counts fuel generation (offset + length units) (total + Z.of_nat (length units))
          {| n_cached := n_cached n + n_cached w; n_missing := n_missing n + n_missing w;
             n_failures := n_failures n + n_failures w |}
  end.

(** The counters of a sweep under way. *)
Record Progress := { at_cursor : nat; counts : Counts }.
Definition finish_run (generation : Z) (s : PreparationState) (total : Z) (at_ : Progress) (error : option str)
    : SR Sys (option RunRecord) :=
  _ ← update_prep (finish generation s (Z.of_nat (at_cursor at_)) total (n_cached (counts at_))
        (n_missing (counts at_)) (n_failures (counts at_)) error);
  query_prep (run generation).

Definition infer (pending : list EmbeddingInput) : SR Sys unit := λ s,
  let '(r, w, p) := run_batches_grouped complete_batch pending (worker s) (prep s) in
  (r, {| reads := reads s; ticks := ticks s; slept := slept s; prep := p; worker := w |}).

(** The delays double from 50 ms to one second, so the window of 60 s ends the
    loop within 70 turns. *)
Definition RETRY_FUEL : nat := 70.
Fixpoint retry_loop (fuel : nat) (generation total : Z) (at_ : Progress) (pending : list EmbeddingInput)
    (started delay : Z) : SR Sys (option (option RunRecord)) :=
  match fuel with
  | 0 => throw "out of fuel"
  | S fuel =>
      inference ← attempt (infer pending);
      match inference with
      | Ok _ => mret None
      | Err e =>
          w ← gets worker;
          if is_retryable_batch_error w e then
            now ← instant_now;
            if (RETRY_WINDOW <=? duration_since now started)%Z then
              r ← finish_run generation Failed total at_
                    (Some (lit "preparation_worker_timeout: retry window exhausted"));
              mret (Some r)
            else
              _ ← sleep delay;
              retry_loop fuel generation total at_ pending started (Z.min (delay * 2) MAX_RETRY_DELAY)
          else if batch_error_is_unit_failure w e then
            _ ← update_prep (λ p, foldl (λ p i, fail (input_key i) e p) p pending);
            mret None
          else
            r ← finish_run generation Failed total at_ (Some (lit e));
            mret (Some r)
      end
  end.

Definition add_counts (n w : Counts) : Counts :=
  {| n_cached := saturating_add USIZE_MAX (n_cached n) (n_cached w);
     n_missing := saturating_add USIZE_MAX (n_missing n) (n_missing w);
     n_failures := saturating_add USIZE_MAX (n_failures n) (n_failures w) |}.

(** The [while] loop, with the cursor as a count of regions: it ends with its counters or with the outcome to return. *)
Fixpoint sweep (fuel : nat) (generation : Z) (total : nat) (at_ : Progress)
    : SR Sys (Progress + option RunRecord) :=
  if at_cursor at_ <? total then
    match fuel with
    | 0 => throw "out of fuel"
    | S fuel =>
        g ← read_generation;
        if negb (g =? generation)%Z then
          r ← finish_run generation Superseded (Z.of_nat total) at_
                (Some (lit "source generation superseded during preparation"));
          mret (inr r)
        else
          '(observed, units) ← snapshot_units generation (at_cursor at_);
          if negb (observed =? generation)%Z then
            r ← finish_run generation Superseded (Z.of_nat total) at_
                  (Some (lit "source generation superseded during snapshot"));
            mret (inr r)
          else if (length units =? 0) then mret (inl at_)
          else
            p ← gets prep;
            let pending := pending_inputs p units in
            started ← instant_now;
            stopped ← retry_loop RETRY_FUEL generation (Z.of_nat total) at_ pending started FIRST_RETRY_DELAY;
            match stopped with
            | Some r => mret (inr r)
            | None =>
                p ← gets prep;
                let n := add_counts (counts at_) (classify_units p units) in
                let c := at_cursor at_ + length units in
                _ ← update_prep (progress generation (Z.of_nat c) (Z.of_nat total) (n_cached n) (n_missing n)
                      (n_failures n));
                sweep fuel generation total {| at_cursor := c; counts := n |}
            end
    end
  else mret (inl at_).

Definition SUPERSEDED_BEFORE : string := "source generation changed before preparation started".
Definition supersede_before (generation total : Z) : SR Sys (option RunRecord) :=
  _ ← update_prep (supersede_generation generation total SUPERSEDED_BEFORE);
  query_prep (run generation).

(** Completions of content that left the source are dropped when a sweep starts;
    [false] if the generation changed meanwhile. *)
Definition prune_for_sweep (fuel : nat) (generation : Z) : SR Sys bool :=
  '(observed, keys) ← snapshot_content_keys fuel generation 0 ∅;
  if negb (observed =? generation)%Z then mret false
  else _ ← update_prep (prune_completions keys); mret true.

Definition final_state (n : Counts) : PreparationState :=
  if (0 <? n_failures n)%Z then Failed else if (0 <? n_missing n)%Z then Capacity else Completed.
Definition final_error (s : PreparationState) : option str :=
  match s with
  | Capacity => Some (lit CAPACITY_ERROR)
  | Failed => Some (lit "one or more content units failed inference")
  | _ => None
  end.

(** The counts of a finished sweep are taken again over the whole generation. *)
Definition conclude (fuel : nat) (generation : Z) (total : Z) (at_ : Progress) : SR Sys (option RunRecord) :=
  '(observed, _, n) ← current_counts fuel generation 0 0 no_counts;
  if negb (observed =? generation)%Z then
    finish_run generation Superseded total at_ (Some (lit "source generation superseded after inference"))
  else
    let s := final_state n in
    finish_run generation s total {| at_cursor := at_cursor at_; counts := n |} (final_error s).

Definition progress_of (r : RunRecord) (total : Z) : Progress :=
  {| at_cursor := Z.to_nat (Z.min (cursor r) total);
     counts := {| n_cached := cached r; n_missing := missing r; n_failures := failures r |} |}.

(** From the persisted run on: a terminal run is the one sweep of its generation. *)
Definition run_sweep (fuel : nat) (generation total : Z) (reset : bool) : SR Sys (option RunRecord) :=
  r ← on_prep (begin_run generation total reset);
  if terminal (state r) then mret (Some r)
  else
    stopped ← sweep fuel generation (Z.to_nat total) (progress_of r total);
    match stopped with
    | inr outcome => mret outcome
    | inl at_ => conclude fuel generation total at_
    end.

Definition prepare_generation (fuel : nat) (generation : Z) (reset : bool) : SR Sys (option RunRecord) :=
  '(observed, total) ← snapshot_size generation;
  if negb (observed =? generation)%Z then supersede_before generation total
  else
    existing ← query_prep (run generation);
    fresh ← (if reset || match existing with Some r => negb (terminal (state r)) | None => true end
             then prune_for_sweep fuel generation else mret true);
    if negb fresh then supersede_before generation total
    else run_sweep fuel generation total reset.

(** One turn per generation that supersedes the one before. *)
Fixpoint process_pending_context (turns fuel : nat) (reset : bool) : SR Sys unit :=
  match turns with
  | 0 => throw "out of fuel"
  | S turns =>
      current ← read_generation;
      if (current <=? 0)%Z then mret tt
      else
        _ ← update_prep (supersede_older current);
        p ← gets prep;
        let generation := Z.min (Z.max (requested p) current) current in
        r ← prepare_generation fuel generation reset;
        match r with
        | Some r => if bool_decide (state r = Superseded) then process_pending_context turns fuel false
                    else mret tt
        | None => mret tt
        end
  end.

(** A command of the persistent thread, for the root whose lease it holds. *)
Definition serve_schedule (turns fuel : nat) (reset : bool) : SR Sys unit :=
  r ← attempt (process_pending_context turns fuel reset);
  match r with
  | Ok _ => mret tt
  | Err e => update_prep (record_worker_error_in_cache e)
  end.

Definition request_schedule (reset : bool) : SR Sys ScheduleReceipt :=
  generation ← read_generation;
  if (generation <=? 0)%Z then throw "preparation_unavailable: no published source generation"
  else
    previous ← on_prep (request generation);
    was_reset ← (if reset then on_prep (λ p, let '(b, p) := reset_terminal generation p in (Ok b, p))
                 else mret false);
    mret {| captured_generation := generation; coalesced := previous && negb was_reset |}.

Fixpoint current_status (turns fuel : nat) : SR Sys PreparationStatus :=
  match turns with
  | 0 => throw "out of fuel"
  | S turns =>
      generation ← read_generation;
      if (generation <=? 0)%Z then
        mret {| st_generation := generation; st_state := Idle; st_cursor := 0; st_total := 0; st_cached := 0;
                st_missing := 0; st_failures := 0; st_error := None |}
      else
        '(observed, total, n) ← current_counts fuel generation 0 0 no_counts;
        if negb (observed =? generation)%Z then current_status turns fuel
        else query_prep (counts_for_status generation total (n_cached n) (n_missing n) (n_failures n))
  end.

(** [lease] tells whether no other process holds the sweep. *)
Definition run_foreground (lease : bool) (turns fuel : nat) : SR Sys PreparationStatus :=
  generation ← read_generation;
  if (generation <=? 0)%Z then throw "preparation_unavailable: no published source generation"
  else if negb lease then throw "preparation_busy: another process owns the preparation sweep"
  else
    _ ← prepare_generation fuel generation true;
    current_status turns fuel.
End Sweep.
Arguments Sys C W : clear implicits.

(** ** Waiting *)

Definition wait_from_run (generation : Z) (r : RunRecord) : PreparationWait :=
  {| wait_generation := generation; wait_state := state r;
     wait_status := {| st_generation := generation; st_state := state r; st_cursor := cursor r;
       st_total := total r; st_cached := cached r; st_missing := missing r; st_failures := failures r;
       st_error := error r |} |}.
Definition superseded_status (generation : Z) (r : option RunRecord) : PreparationStatus :=
  {| st_generation := generation; st_state := Superseded;
     st_cursor := default 0%Z (cursor <$> r); st_total := default 0%Z (total <$> r);
     st_cached := default 0%Z (cached <$> r); st_missing := default 0%Z (missing <$> r);
     st_failures := default 0%Z (failures <$> r); st_error := r ≫= error |}.
Definition timeout_wait (generation : Z) : PreparationWait :=
  {| wait_generation := generation; wait_state := Failed;
     wait_status := {| st_generation := generation; st_state := Failed; st_cursor := 0; st_total := 0;
       st_cached := 0; st_missing := 0; st_failures := 0; st_error := Some (lit "preparation_wait_timeout") |} |}.

(** One turn of the polling loop of [wait_timeout]: the generation and the run it
    reads, and the time since it started; [None] sleeps and polls again. *)
Definition wait_turn (captured current elapsed timeout : Z) (r : result (option RunRecord))
    : option (result PreparationWait) :=
  if (captured <=? 0)%Z then Some (Err "preparation_unavailable: invalid captured source generation")
  else if (captured <? current)%Z then
    Some (Ok {| wait_generation := captured; wait_state := Superseded;
                wait_status := superseded_status captured (ok r ≫= id) |})
  else
    match r with
    | Err e => Some (Err e)
    | Ok r =>
        match r with
        | Some run => if terminal (state run) then Some (Ok (wait_from_run captured run)) else None
        | None => None
        end ∪ if (current <? captured)%Z
              then Some (Err "preparation_unavailable: captured generation is ahead of index generation")
              else if (timeout <=? elapsed)%Z then Some (Ok (timeout_wait captured)) else None
    end.

(** ** Reading what was written *)

Lemma state_text s : state_from_str (as_str s) = Ok s.
Proof. by destruct s. Qed.

Lemma state_text_inj text s : state_from_str text = Ok s → text = as_str s.
Proof.
  unfold state_from_str. intros Hs. repeat match type of Hs with
  | (if ?b then _ else _) = _ => destruct b eqn:?; [bool_to_prop; by injection Hs as <-|]
  end. done.
Qed.
Lemma terminal_text_state s : terminal_text (as_str s) = terminal s.
Proof. by destruct s. Qed.

Lemma as_i64_small n : (0 ≤ n ≤ I64_MAX)%Z → as_i64 n = n.
Proof. intros [_ Hn]. unfold as_i64. by rewrite (proj2 (Z.leb_le _ _)). Qed.
Lemma to_usize_Ok message n m : to_usize message n = Ok m ↔ m = n ∧ (0 ≤ n)%Z.
Proof. unfold to_usize. destruct (0 <=? n)%Z eqn:Hn; bool_to_prop; split; try naive_solver lia. Qed.

(** Counts that can still grow by [k] units without leaving [i64]. *)
Record roomy (n : Counts) (k : nat) : Prop := {
  roomy_cached : (0 ≤ n_cached n ≤ I64_MAX - Z.of_nat k)%Z;
  roomy_missing : (0 ≤ n_missing n ≤ I64_MAX - Z.of_nat k)%Z;
  roomy_failures : (0 ≤ n_failures n ≤ I64_MAX - Z.of_nat k)%Z;
}.

Lemma roomy_weaken n k k' : k' ≤ k → roomy n k → roomy n k'.
Proof. intros Hk [? ? ?]. split; lia. Qed.

Lemma read_row_Ok r rec :
  read_row r = Ok rec →
  state_from_str (row_state r) = Ok (state rec) ∧ row_cursor r = cursor rec ∧ row_total r = total rec ∧
  row_cached r = cached rec ∧ row_missing r = missing rec ∧ row_failures r = failures rec ∧
  row_error r = error rec ∧ (0 ≤ cursor rec)%Z ∧ (0 ≤ total rec)%Z ∧ (0 ≤ cached rec)%Z ∧
  (0 ≤ missing rec)%Z ∧ (0 ≤ failures rec)%Z.
Proof.
  unfold read_row. intros Hr. result_inv.
  repeat match goal with Hu : to_usize _ _ = Ok _ |- _ => apply to_usize_Ok in Hu as [-> ?] end.
  cbn. by split_and!.
Qed.

(** A row that [progress] or [finish] writes is read back as it was. *)
Definition written_row (s : PreparationState) (cursor total : Z) (n : Counts) (error : option str) : RunRow :=
  {| row_state := as_str s; row_cursor := as_i64 cursor; row_total := as_i64 total;
     row_cached := as_i64 (n_cached n); row_missing := as_i64 (n_missing n);
     row_failures := as_i64 (n_failures n); row_error := error |}.
Lemma read_written_row s c t n e :
  (0 ≤ c ≤ I64_MAX)%Z → (0 ≤ t ≤ I64_MAX)%Z → roomy n 0 →
  read_row (written_row s c t n e) =
    Ok {| state := s; cursor := c; total := t; cached := n_cached n; missing := n_missing n;
          failures := n_failures n; error := e |}.
Proof.
  intros Hc Ht [? ? ?]. unfold read_row. cbn [row_state row_cursor row_total row_cached row_missing row_failures
    row_error written_row]. rewrite state_text. cbn [mbind result_bind].
  rewrite !as_i64_small by lia. unfold to_usize. rewrite !(proj2 (Z.leb_le _ _)) by lia. done.
Qed.

(** ** Counting *)

Section Tally.
Context {C : Type} `{VectorCache C}.
Implicit Types (p : PreparationCache C) (u : EmbeddingInput).

Definition sum_counts (n w : Counts) : Counts :=
  {| n_cached := n_cached n + n_cached w; n_missing := n_missing n + n_missing w;
     n_failures := n_failures n + n_failures w |}.
Lemma sum_counts_assoc a b c : sum_counts (sum_counts a b) c = sum_counts a (sum_counts b c).
Proof. unfold sum_counts. f_equal; cbn; lia. Qed.
Lemma sum_counts_zero n : sum_counts n no_counts = n.
Proof. destruct n. unfold sum_counts. cbn. f_equal; lia. Qed.
Lemma sum_counts_zero_l n : sum_counts no_counts n = n.
Proof. destruct n. unfold sum_counts. cbn. f_equal; lia. Qed.

Lemma classify_from p n units :
  foldl (count_unit p) n units = sum_counts n (classify_units p units).
Proof.
  unfold classify_units. revert n. induction units as [|u units IH]; intros n; cbn [foldl].
  { by rewrite sum_counts_zero. }
  rewrite IH, (IH (count_unit p no_counts u)), <-sum_counts_assoc. f_equal.
  unfold count_unit, sum_counts. destruct (is_cached _ _); [|destruct (failed_key _ _)]; cbn; f_equal; lia.
Qed.
Lemma classify_app p us us' :
  classify_units p (us ++ us') = sum_counts (classify_units p us) (classify_units p us').
Proof. unfold classify_units at 1. rewrite foldl_app. apply classify_from. Qed.
Lemma classify_cons p u us :
  classify_units p (u :: us) = sum_counts (count_unit p no_counts u) (classify_units p us).
Proof. apply (classify_from p (count_unit p no_counts u)). Qed.

(** Every unit is counted once, in exactly one way. *)
Lemma classify_total p us :
  let n := classify_units p us in
  (n_cached n + n_missing n + n_failures n = Z.of_nat (length us) ∧
   0 ≤ n_cached n ∧ 0 ≤ n_missing n ∧ 0 ≤ n_failures n)%Z.
Proof.
  induction us as [|u us IH]; [done|]. rewrite classify_cons. cbn zeta in *.
  unfold count_unit, sum_counts. cbn [length].
  destruct (is_cached _ _); [|destruct (failed_key _ _)]; cbn; lia.
Qed.

Lemma classify_all_cached p us :
  let n := classify_units p us in
  (n_missing n ≤ 0)%Z → (n_failures n ≤ 0)%Z → ∀ u, u ∈ us → is_cached (vectors p) (input_key u) = true.
Proof.
  induction us as [|u us IH]; [by intros ? ? ? ? ?%elem_of_nil|].
  rewrite classify_cons. cbn zeta in *. pose proof (classify_total p us) as Ht. cbn zeta in Ht.
  unfold count_unit, sum_counts. intros Hm Hf v [->|Hv]%elem_of_cons.
  - destruct (is_cached _ _); [done|]. destruct (failed_key _ _); cbn in *; lia.
  - apply IH; [..|done]; destruct (is_cached _ _); try destruct (failed_key _ _); cbn in *; lia.
Qed.

Lemma classify_cached p us :
  (∀ u, u ∈ us → is_cached (vectors p) (input_key u) = true) →
  classify_units p us = {| n_cached := Z.of_nat (length us); n_missing := 0; n_failures := 0 |}.
Proof.
  induction us as [|u us IH]; intros Hall; [done|]. rewrite classify_cons, IH by (intros; apply Hall; by right).
  unfold count_unit. rewrite Hall by left. unfold sum_counts. cbn. f_equal; lia.
Qed.

Lemma roomy_add n p us k :
  roomy n (length us + k) → add_counts n (classify_units p us) = sum_counts n (classify_units p us) ∧
    roomy (sum_counts n (classify_units p us)) k.
Proof.
  intros [? ? ?]. pose proof (classify_total p us) as (? & ? & ? & ?).
  split; [|split; cbn; unfold I64_MAX in *; lia].
  unfold add_counts, sum_counts, saturating_add, USIZE_MAX, I64_MAX in *. f_equal; lia.
Qed.
End Tally.

(** ** What the steps of a sweep leave alone *)

Section Frame.
Context {C : Type} `{VectorCache C}.
Implicit Types (p : PreparationCache C).

Lemma insert_completion_runs k c p : runs (insert_completion k c p) = runs p.
Proof. unfold insert_completion. by destruct (_ !! _). Qed.
Lemma insert_completion_vectors k c p : vectors (insert_completion k c p) = vectors p.
Proof. unfold insert_completion. by destruct (_ !! _). Qed.

Lemma complete_entries_runs (entries : list (str * Embedding)) c p :
  runs (foldl (λ p e, insert_completion e.1 c p) p entries) = runs p ∧
  vectors (foldl (λ p e, insert_completion e.1 c p) p entries) = vectors p.
Proof.
  revert p. induction entries as [|e entries IH]; intros p; cbn [foldl]; [done|].
  destruct (IH (insert_completion e.1 c p)) as [-> ->].
  by rewrite insert_completion_runs, insert_completion_vectors.
Qed.

Lemma record_failures_frame batch results completed p :
  let p' := (record_failures batch results completed p).2 in runs p' = runs p ∧ vectors p' = vectors p.
Proof.
  revert results completed p. induction batch as [|i batch IH]; intros [|[v|e] results] completed p; try done.
  - apply IH.
  - cbn [record_failures]. destruct (IH results completed (fail (input_key i) e p)) as [Hr Hv].
    cbn zeta in *. rewrite Hr, Hv. unfold fail. by rewrite insert_completion_runs, insert_completion_vectors.
Qed.

Lemma complete_batch_runs batch results p : runs (complete_batch batch results p).2 = runs p.
Proof.
  unfold complete_batch. pose proof (record_failures_frame batch results [] p) as [Hr _].
  destruct (record_failures batch results [] p) as [completed p1]. cbn in Hr. rewrite <-Hr.
  unfold complete_many. destruct completed as [|e completed]; [done|].
  destruct (store_many _ _) as [[[]|err] c]; [|done]. cbn [snd].
  by destruct (complete_entries_runs (e :: completed) {| outcome_column := CompleteOutcome; completion_error := None |}
    (set_vectors c p1)) as [-> _].
Qed.

Lemma fail_all_frame e pending p :
  let p' := foldl (λ p i, fail (input_key i) e p) p pending in runs p' = runs p ∧ vectors p' = vectors p.
Proof.
  revert p. induction pending as [|i pending IH]; intros p; [done|]. cbn [foldl].
  destruct (IH (fail (input_key i) e p)) as [Hr Hv]. cbn zeta in *. rewrite Hr, Hv. unfold fail.
  by rewrite insert_completion_runs, insert_completion_vectors.
Qed.

(** *** Rows of the run *)

Lemma finish_lookup g s c t a m f e p :
  runs (finish g s c t a m f e p) !! g =
    (λ _, written_row s c t {| n_cached := a; n_missing := m; n_failures := f |} e) <$> runs p !! g.
Proof. unfold finish, update_run. cbn. by rewrite lookup_alter_eq. Qed.
Lemma progress_lookup g c t a m f p :
  runs (progress g c t a m f p) !! g =
    (λ _, written_row Running c t {| n_cached := a; n_missing := m; n_failures := f |} None) <$> runs p !! g.
Proof. unfold progress, update_run. cbn. by rewrite lookup_alter_eq. Qed.

Lemma newest_kept g p :
  is_Some (runs p !! g) → (∀ g', is_Some (runs p !! g') → (g' ≤ g)%Z) → g ∈ newest_generations p.
Proof.
  intros [r Hr] Hmax. unfold newest_generations.
  assert (∀ x, x ∈ sort_by (cmp_rev Z.compare) (map_to_list (runs p)).*1 ↔ is_Some (runs p !! x)) as Hin.
  { intros x. rewrite elem_of_sort_by, list_elem_of_fmap. split.
    - intros ([y v] & -> & Hy%elem_of_map_to_list). by exists v.
    - intros [v Hv]. exists (x, v). by rewrite elem_of_map_to_list. }
  pose proof (sort_by_sorted (cmp_rev Z.compare) (map_to_list (runs p)).*1) as Hs.
  destruct (sort_by _ _) as [|x l]; [exfalso; by apply (elem_of_nil g), Hin; exists r|].
  assert (x = g) as ->; [|left].
  assert (x ≤ g)%Z by (apply Hmax, Hin; left).
  assert (g ∈ x :: l) as [->|Hg]%elem_of_cons by (apply Hin; by exists r); [done|].
  apply StronglySorted_inv in Hs as [_ Hs]. rewrite Forall_forall in Hs. specialize (Hs g Hg).
  unfold cmp_le, cmp_rev in Hs. rewrite Z.compare_le_iff in Hs. lia.
Qed.

Lemma prune_runs_lookup p g :
  g ∈ newest_generations p → runs (prune_runs p) !! g = runs p !! g.
Proof.
  intros Hg. unfold prune_runs. cbn. destruct (runs p !! g) as [r|] eqn:Hr.
  - apply map_lookup_filter_Some. done.
  - apply map_lookup_filter_None. by left.
Qed.
End Frame.

(** ** Sequencing *)

Lemma bind_run {S A B} (m : SR S A) (f : A → SR S B) s :
  (m ≫= f) s = match m s with (Ok a, s) => f a s | (Err e, s) => (Err e, s) end.
Proof. done. Qed.

(** ** Every sweep of a stable index ends in an outcome *)

Definition fresh_record (total : Z) : RunRecord :=
  {| state := Running; cursor := 0; total := total; cached := 0; missing := 0; failures := 0; error := None |}.

Lemma read_fresh_row t : (0 ≤ t)%Z → read_row (fresh_row t) = Ok (fresh_record t).
Proof.
  intros Ht. unfold read_row. cbn [fresh_row row_state row_cursor row_total row_cached row_missing row_failures
    row_error]. rewrite state_text. cbn [mbind result_bind]. unfold to_usize.
  by rewrite (proj2 (Z.leb_le _ _) Ht).
Qed.

Section Outcome.
Context {C : Type} `{VectorCache C} {W : Type} `{EmbeddingWorker W}.
Context (content_key : str → str) (index : nat → Index) (clock : nat → Z).
Implicit Types (p : PreparationCache C) (s : Sys C W).
Abbreviation prepare_generation := (prepare_generation content_key index clock).
Abbreviation sweep := (sweep content_key index clock).
Abbreviation retry_loop := (retry_loop clock).
Abbreviation current_counts := (current_counts content_key index).

Definition reopened (g t : Z) p : PreparationCache C :=
  {| requested := requested p; runs := <[g := fresh_row t]> (runs p);
     completions := filter (λ '(_, c), not_failed c = true) (completions p); vectors := vectors p |}.
Lemma reset_run_spec g t p ex :
  run g p = Ok (Some ex) → terminal (state ex) = true → (0 ≤ t ≤ I64_MAX)%Z →
  reset_terminal_run g (Some t) p = (true, reopened g t p) ∧
  run g (reopened g t p) = Ok (Some (fresh_record t)).
Proof.
  intros Hrun Hterm Ht. split.
  2: { unfold run, reopened. cbn [runs]. rewrite lookup_insert_eq, read_fresh_row by lia. done. }
  unfold run in Hrun. unfold reset_terminal_run. destruct (runs p !! g) as [row|]; [|done].
  destruct (read_row row) as [rec|] eqn:Hrec; [|done]. injection Hrun as ->.
  apply read_row_Ok in Hrec as (Hst & _). apply state_text_inj in Hst as ->.
  rewrite terminal_text_state, Hterm. cbn [fmap option_fmap option_map default from_option id].
  by rewrite as_i64_small.
Qed.

(** What [begin] returns: the run that is there, or one that starts afresh. *)
Lemma begin_run_spec g t reset p existing :
  (∀ g', is_Some (runs p !! g') → (g' ≤ g)%Z) → run g p = Ok existing → (0 ≤ t ≤ I64_MAX)%Z →
  ∃ r p', begin_run g t reset p = (Ok r, p') ∧ vectors p' = vectors p ∧ run g p' = Ok (Some r) ∧
    (existing = Some r ∧ p' = p ∧ reset && terminal (state r) = false ∨
     r = fresh_record t ∧ match existing with Some _ => p' = reopened g t p | None => completions p' = completions p end).
Proof.
  intros Hmax Hrun Ht. unfold begin_run. rewrite Hrun. destruct existing as [ex|].
  - destruct (reset && terminal (state ex)) eqn:Hreset.
    2: { exists ex, p. split_and!; [done..|]. left. done. }
    apply andb_prop in Hreset as [-> Hterm].
    destruct (reset_run_spec g t p ex Hrun Hterm Ht) as [-> Hnew]. cbn [snd].
    exists (fresh_record t), (reopened g t p). split_and!; [|done|done|by right].
    unfold persisted_run. by rewrite Hnew.
  - set (p1 := prune_runs _).
    assert (run g p1 = Ok (Some (fresh_record t))) as Hnew.
    { unfold run, p1. rewrite prune_runs_lookup; cbn [runs set_runs].
      - rewrite lookup_insert_eq, as_i64_small, read_fresh_row by lia. done.
      - apply newest_kept; cbn [runs set_runs]; [rewrite lookup_insert_eq; by eexists|].
        intros g' Hg'. destruct (decide (g' = g)) as [->|Hne]; [lia|].
        rewrite lookup_insert_ne in Hg' by done. by apply Hmax. }
    exists (fresh_record t), p1. split_and!; [|done|done|by right].
    unfold persisted_run. by rewrite Hnew.
Qed.

Lemma begin_run_terminal g t reset p r p' :
  begin_run g t reset p = (Ok r, p') → terminal (state r) = true → run g p = Ok (Some r).
Proof.
  unfold begin_run.
  assert (∀ q : PreparationCache C, persisted_run g q = Ok r → (∀ row, runs q !! g = Some row → row_state row = as_str Running) →
    terminal (state r) = true → False) as Hfresh.
  { intros q Hq Hrow. unfold persisted_run, run in Hq. destruct (runs q !! g) as [row|]; [|done].
    unfold fmap, result_fmap in Hq. destruct (read_row row) as [rec|] eqn:Hrec; [|done]. injection Hq as ->.
    apply read_row_Ok in Hrec as (Hst & _). rewrite (Hrow _ eq_refl), state_text in Hst. injection Hst as <-. done. }
  destruct (run g p) as [[ex|]|] eqn:Hrun; [| |done].
  - destruct (reset && terminal (state ex)) eqn:Hreset; [|by intros [= -> <-]].
    apply andb_prop in Hreset as [_ Hterm]. intros [= Hp <-] Ht. exfalso.
    eapply Hfresh; [exact Hp| |done]. intros row. unfold reset_terminal_run.
    unfold run in Hrun. destruct (runs p !! g) as [row0|] eqn:Hrow; [|done].
    unfold fmap, result_fmap in Hrun. destruct (read_row row0) as [rec|] eqn:Hrec; [|done]. injection Hrun as ->.
    apply read_row_Ok in Hrec as (Hst & _). apply state_text_inj in Hst as ->.
    rewrite terminal_text_state, Hterm. cbn. rewrite lookup_insert_eq. by intros [= <-].
  - intros [= Hp <-] Ht. exfalso. eapply Hfresh; [exact Hp| |done]. intros row.
    unfold prune_runs. cbn [runs set_runs]. rewrite map_lookup_filter_Some, lookup_insert_eq. by intros [[= <-] _].
Qed.

(** Where [finish] writes over a row, the outcome is what was written. *)
Lemma finish_run_spec g st t (at_ : Progress) e s :
  is_Some (runs (prep s) !! g) → (0 ≤ t ≤ I64_MAX)%Z → (Z.of_nat (at_cursor at_) ≤ I64_MAX)%Z →
  roomy (counts at_) 0 →
  ∃ s', finish_run g st t at_ e s =
    (Ok (Some {| state := st; cursor := Z.of_nat (at_cursor at_); total := t; cached := n_cached (counts at_);
        missing := n_missing (counts at_); failures := n_failures (counts at_); error := e |}), s') ∧
    s' = set_prep (finish g st (Z.of_nat (at_cursor at_)) t (n_cached (counts at_)) (n_missing (counts at_))
      (n_failures (counts at_)) e (prep s)) s.
Proof.
  intros [row Hrow] Ht Hc Hroom. eexists. split; [|reflexivity].
  unfold finish_run, mbind, sr_bind, update_prep, query_prep. cbn [prep set_prep]. f_equal.
  unfold run. rewrite finish_lookup, Hrow. cbn [fmap option_fmap option_map].
  rewrite read_written_row; [done|lia|done|by destruct Hroom].
Qed.

Lemma infer_frame pending s :
  let s' := (infer pending s).2 in
  reads s' = reads s ∧ ticks s' = ticks s ∧ slept s' = slept s ∧ runs (prep s') = runs (prep s).
Proof.
  unfold infer.
  pose proof (run_batches_invariant complete_batch (λ p, runs p = runs (prep s)) pending (worker s) (prep s)) as Hinv.
  destruct (run_batches_grouped _ _ _ _) as [[r w] p]. cbn in *. split_and!; try done.
  apply Hinv; [|done]. intros b rs q Hq. by rewrite complete_batch_runs.
Qed.
(** The sleep that [n] retries from a delay add up to. *)
Fixpoint total_delay (n : nat) (delay : Z) : Z :=
  match n with 0 => 0%Z | S n => (delay + total_delay n (Z.min (delay * 2) MAX_RETRY_DELAY))%Z end.
Lemma retry_fuel_enough : (RETRY_WINDOW ≤ total_delay (RETRY_FUEL - 1) FIRST_RETRY_DELAY)%Z.
Proof. by vm_compute. Qed.

(** The clock never goes back. *)
Definition monotone_clock : Prop := ∀ n m, n ≤ m → (clock n ≤ clock m)%Z.

(** A run whose row is there and whose counters fit its columns. *)
Definition writable (g t : Z) (at_ : Progress) (s : Sys C W) : Prop :=
  is_Some (runs (prep s) !! g) ∧ (0 ≤ t ≤ I64_MAX)%Z ∧ (Z.of_nat (at_cursor at_) ≤ I64_MAX)%Z ∧
  roomy (counts at_) 0.

Lemma retry_loop_spec fuel g t at_ pending (t0 : nat) (slept0 delay : Z) s :
  monotone_clock → writable g t at_ s → t0 ≤ ticks s →
  (RETRY_WINDOW ≤ slept s - slept0 + total_delay (fuel - 1) delay)%Z → 1 ≤ fuel →
  ∃ out s', retry_loop fuel g t at_ pending (clock t0 + slept0)%Z delay s = (Ok out, s') ∧
    reads s' = reads s ∧ ticks s ≤ ticks s' ∧
    match out with
    | None => runs (prep s') = runs (prep s)
    | Some o => ∃ r, o = Some r ∧ state r = Failed
    end.
Proof.
  intros Hclock. revert delay s. induction fuel as [|fuel IH]; intros delay s Hw Ht0 Hfuel H1; [lia|].
  destruct Hw as (Hrow & Ht & Hc & Hroom).
  cbn [Preparation.retry_loop]. rewrite bind_run. unfold attempt at 1.
  pose proof (infer_frame pending s) as Hframe.
  destruct (infer pending s) as [[[]|e] s1]; cbn zeta in Hframe; cbn [snd] in Hframe;
    destruct Hframe as (Hreads & Hticks & Hslept & Hruns).
  { exists None, s1. unfold mret, sr_ret. split_and!; [done|done|lia|done]. }
  rewrite bind_run. unfold gets at 1.
  assert (∀ st e' s2, runs (prep s2) = runs (prep s) → ∃ r s3, finish_run g st t at_ e' s2 = (Ok (Some r), s3) ∧
    state r = st ∧ reads s3 = reads s2 ∧ ticks s3 = ticks s2) as Hfinish.
  { intros st e' s2 Hr. destruct (finish_run_spec g st t at_ e' s2) as (s3 & Heq & ->); [by rewrite Hr|done..|].
    rewrite Heq. by eexists _, _. }
  destruct (is_retryable_batch_error (worker s1) e).
  - rewrite bind_run. unfold instant_now at 1.
    destruct (RETRY_WINDOW <=? _)%Z eqn:Hwin.
    + rewrite bind_run.
      edestruct (Hfinish Failed) as (r & s3 & -> & Hst & Hr3 & Ht3); [|].
      2: { eexists (Some (Some r)), s3. unfold mret, sr_ret. cbn in *.
           split_and!; [done|congruence|lia|by eexists]. }
      done.
    + bool_to_prop. rewrite bind_run. unfold sleep at 1. cbn [reads ticks slept prep worker].
      pose proof (Hclock t0 (ticks s1) ltac:(lia)) as Hmono. unfold duration_since, saturating_sub in Hwin.
      destruct fuel as [|fuel]; [cbn in Hfuel; lia|].
      match goal with |- context [retry_loop (S fuel) g t at_ pending _ _ ?s2] =>
        destruct (IH (Z.min (delay * 2) MAX_RETRY_DELAY) s2) as (out & s' & -> & Hr' & Hk' & Hout) end.
      { by rewrite <-Hruns in Hrow. }
      { cbn. lia. }
      { cbn [slept]. replace (S (S fuel) - 1) with (S (S fuel - 1)) in Hfuel by lia. cbn [total_delay] in Hfuel.
        lia. }
      { lia. }
      exists out, s'. cbn in *. split_and!; [done|congruence|lia|].
      destruct out; [done|congruence].
  - destruct (batch_error_is_unit_failure (worker s1) e).
    + rewrite bind_run. unfold update_prep at 1.
      eexists None, _. unfold mret, sr_ret. split; [done|]. cbn.
      destruct (fail_all_frame e pending (prep s1)) as [-> _]. split_and!; [done|lia|done].
    + rewrite bind_run.
      destruct (Hfinish Failed (Some (lit e)) s1 Hruns) as (r & s3 & -> & Hst & Hr3 & Ht3).
      eexists (Some (Some r)), s3. unfold mret, sr_ret. split_and!; [done|congruence|lia|by eexists].
Qed.
(** *** Reading the index *)

Definition at_reads (k : nat) s : Sys C W :=
  {| reads := k; ticks := ticks s; slept := slept s; prep := prep s; worker := worker s |}.
Abbreviation units_of B := (unit_of content_key <$> B).

Lemma snapshot_units_run g off s :
  let i := index (reads s) in
  snapshot_units content_key index g off s =
    (Ok (index_generation i,
       if (index_generation i =? g)%Z then units_of (take SNAPSHOT_WINDOW (drop off (bodies i))) else []),
     at_reads (S (reads s)) s).
Proof. done. Qed.

(** The regions of a generation do not change while it is current. *)
Definition published (g : Z) (B : list str) : Prop := ∀ n, index_generation (index n) = g → bodies (index n) = B.
(** From now on the generation stays current. *)
Definition stable (g : Z) (B : list str) s : Prop :=
  ∀ n, reads s ≤ n → index n = {| index_generation := g; bodies := B |}.

Lemma stable_later g B s s' : stable g B s → reads s ≤ reads s' → stable g B s'.
Proof. intros Hst Hle n Hn. apply Hst. lia. Qed.

(** A window, and what is left after it. *)
Lemma window_split off (B : list str) :
  let u := units_of (take SNAPSHOT_WINDOW (drop off B)) in
  units_of (drop off B) = u ++ units_of (drop (off + length u) B).
Proof.
  cbv zeta. rewrite length_fmap, <-fmap_app. f_equal.
  rewrite <-(take_drop SNAPSHOT_WINDOW (drop off B)) at 1. f_equal. rewrite length_take, drop_drop, length_drop.
  destruct (decide (SNAPSHOT_WINDOW ≤ length B - off)); [f_equal; lia|].
  rewrite !drop_ge; [done|lia..].
Qed.
Lemma window_empty off (B : list str) :
  length (units_of (take SNAPSHOT_WINDOW (drop off B))) = 0 ↔ length B ≤ off.
Proof. rewrite length_fmap, length_take, length_drop. unfold SNAPSHOT_WINDOW. lia. Qed.
Lemma window_length off (B : list str) :
  length (units_of (take SNAPSHOT_WINDOW (drop off B))) ≤ length B - off.
Proof. rewrite length_fmap, length_take, length_drop. lia. Qed.

Lemma current_counts_value fuel g B off tot n s obs tot' n' s' :
  published g B → current_counts fuel g off tot n s = (Ok (obs, tot', n'), s') →
  s' = at_reads (reads s') s ∧ reads s ≤ reads s' ∧
  (obs = g → n' = sum_counts n (classify_units (prep s) (units_of (drop off B)))).
Proof.
  intros Hpub. revert off tot n s. induction fuel as [|fuel IH]; intros off tot n s; [done|].
  cbn [Preparation.current_counts]. rewrite bind_run, snapshot_units_run. cbv zeta.
  destruct (index_generation (index (reads s)) =? g)%Z eqn:Hg; cbn [negb].
  2: { intros [= <- <- <- <-]. bool_to_prop. split_and!; [done|cbn; lia|done]. }
  bool_to_prop. rewrite (Hpub _ Hg).
  destruct (length _ =? 0) eqn:Hempty; bool_to_prop.
  { intros [= <- <- <- <-]. split_and!; [done|cbn; lia|]. intros _.
    apply window_empty in Hempty. rewrite drop_ge by done. by rewrite sum_counts_zero. }
  rewrite bind_run. unfold gets at 1. intros Hrest.
  destruct (IH _ _ _ _ Hrest) as (Hs' & Hle & Hn'). cbn [prep reads at_reads] in *. split_and!; [done|lia|].
  intros Ho. rewrite (Hn' Ho), (window_split off B), classify_app, <-sum_counts_assoc. done.
Qed.

Lemma current_counts_total fuel g B off tot n s :
  stable g B s → length B - off < fuel →
  ∃ tot' k, current_counts fuel g off tot n s =
    (Ok (g, tot', sum_counts n (classify_units (prep s) (units_of (drop off B)))), at_reads k s).
Proof.
  revert off tot n s. induction fuel as [|fuel IH]; intros off tot n s Hst Hfuel; [lia|].
  cbn [Preparation.current_counts]. rewrite bind_run, snapshot_units_run. cbv zeta.
  rewrite (Hst (reads s)) by done. cbn [index_generation bodies]. rewrite Z.eqb_refl. cbn [negb].
  destruct (length _ =? 0) eqn:Hempty; bool_to_prop.
  { apply window_empty in Hempty. rewrite (drop_ge B) by done. rewrite sum_counts_zero. by eexists _, _. }
  rewrite bind_run. unfold gets at 1.
  assert (¬ length B ≤ off) as Hoff by (by rewrite <-window_empty).
  match goal with |- context [current_counts fuel g ?off' ?t ?m ?s1] =>
    destruct (IH off' t m s1) as (tot' & k & ->); [|lia|] end.
  { apply (stable_later g B s); [done|cbn; lia]. }
  rewrite (window_split off B), classify_app, <-sum_counts_assoc. by eexists _, _.
Qed.

Lemma content_keys_total fuel g B off keys s :
  stable g B s → length B - off < fuel → ∃ keys' s',
    snapshot_content_keys content_key index fuel g off keys s = (Ok (g, keys'), s') ∧
    s' = at_reads (reads s') s ∧ reads s ≤ reads s'.
Proof.
  revert off keys s. induction fuel as [|fuel IH]; intros off keys s Hst Hfuel; [lia|].
  cbn [snapshot_content_keys]. rewrite bind_run, snapshot_units_run. cbv zeta.
  rewrite (Hst (reads s)) by done. cbn [index_generation bodies]. rewrite Z.eqb_refl. cbn [negb].
  destruct (length _ =? 0) eqn:Hempty; bool_to_prop; [eexists _, _; split_and!; [done|done|cbn; lia]|].
  assert (¬ length B ≤ off) as Hoff by (by rewrite <-window_empty).
  match goal with |- context [snapshot_content_keys _ _ fuel g ?off' ?ks ?s1] =>
    destruct (IH off' ks s1) as (keys' & s' & -> & Hs' & Hle); [|lia|] end.
  { apply (stable_later g B s); [done|cbn; lia]. }
  exists keys', s'. cbn in *. split_and!; [done|done|lia].
Qed.
(** *** The sweep *)

Lemma read_generation_run s :
  read_generation index s = (Ok (index_generation (index (reads s))), at_reads (S (reads s)) s).
Proof. done. Qed.

Lemma sweep_total fuel g B (at_ : Progress) s :
  monotone_clock → stable g B s → is_Some (runs (prep s) !! g) → (Z.of_nat (length B) ≤ I64_MAX)%Z →
  at_cursor at_ ≤ length B → roomy (counts at_) (length B - at_cursor at_) → length B - at_cursor at_ ≤ fuel →
  ∃ out s', sweep fuel g (length B) at_ s = (Ok out, s') ∧ reads s ≤ reads s' ∧
    match out with
    | inl at' => at_cursor at' = length B ∧ is_Some (runs (prep s') !! g) ∧ roomy (counts at') 0
    | inr o => ∃ r, o = Some r ∧ state r = Failed
    end.
Proof.
  intros Hclock. revert at_ s. induction fuel as [|fuel IH]; intros at_ s Hst Hrow Hlen Hcur Hroom Hfuel.
  all: cbn [Preparation.sweep]; destruct (at_cursor at_ <? length B) eqn:Hlt; bool_to_prop;
    [|exists (inl at_), s; unfold mret, sr_ret; split_and!; [done|done|lia|done|];
      by eapply roomy_weaken; [|exact Hroom]; lia].
  { lia. }
  rewrite bind_run, read_generation_run, (Hst (reads s)) by done. cbn [index_generation].
  rewrite Z.eqb_refl. cbn [negb]. rewrite bind_run, snapshot_units_run. cbv zeta.
  rewrite (Hst (reads (at_reads (S (reads s)) s))) by (cbn; lia). cbn [index_generation bodies].
  rewrite Z.eqb_refl. cbn [negb].
  destruct (length _ =? 0) eqn:Hempty; bool_to_prop; [apply window_empty in Hempty; lia|].
  pose proof (window_length (at_cursor at_) B) as Hwin.
  set (u := units_of (take SNAPSHOT_WINDOW (drop (at_cursor at_) B))) in *.
  rewrite bind_run. unfold gets at 1. rewrite bind_run. unfold instant_now at 1.
  rewrite bind_run. cbn [ticks slept at_reads reads prep worker].
  match goal with |- context [retry_loop RETRY_FUEL g _ at_ ?pending _ _ ?s1] =>
    destruct (retry_loop_spec RETRY_FUEL g (Z.of_nat (length B)) at_ pending (ticks s) (slept s) FIRST_RETRY_DELAY s1)
      as (out & s2 & Heq & Hr2 & Ht2 & Hout); [done|split_and!; [done|lia|lia|lia|]|cbn; lia| |unfold RETRY_FUEL; lia|] end.
  { by eapply roomy_weaken; [|exact Hroom]; lia. }
  { pose proof retry_fuel_enough. cbn [slept at_reads]. lia. }
  rewrite Heq. clear Heq.
  destruct out as [o|].
  { exists (inr o), s2. unfold mret, sr_ret. cbn in *. split_and!; [done|lia|done]. }
  rewrite bind_run. unfold gets at 1. rewrite bind_run. unfold update_prep at 1.
  destruct (roomy_add (counts at_) (prep s2) u (length B - (at_cursor at_ + length u))) as [Hadd Hroom'].
  { by eapply roomy_weaken; [|exact Hroom]; lia. }
  rewrite Hadd.
  match goal with |- context [sweep fuel g _ ?at' ?s3] =>
    destruct (IH at' s3) as (out & s4 & -> & Hr4 & Hout4) end.
  - apply (stable_later g B s); [done|cbn in *; lia].
  - cbn [prep set_prep]. rewrite progress_lookup, Hout. cbn [prep at_reads]. destruct Hrow as [row ->]. by eexists.
  - done.
  - cbn [at_cursor]. lia.
  - done.
  - cbn [at_cursor]. lia.
  - exists out, s4. cbn in *. split_and!; [done|lia|done].
Qed.
(** *** What the outcome says *)

Lemma finish_run_state g st t at_ e s r s' :
  finish_run g st t at_ e s = (Ok (Some r), s') → state r = st ∧ vectors (prep s') = vectors (prep s).
Proof.
  unfold finish_run. rewrite bind_run. unfold update_prep, query_prep, run. cbn [prep set_prep].
  rewrite finish_lookup. destruct (runs (prep s) !! g); [|done]. cbn [fmap option_fmap option_map].
  intros [= Hr <-]. split; [|done]. unfold fmap, result_fmap in Hr.
  destruct (read_row _) as [rec|] eqn:Hrec; [|done]. injection Hr as ->.
  apply read_row_Ok in Hrec as (Hst & _). cbn in Hst. rewrite state_text in Hst. by injection Hst.
Qed.

Lemma retry_loop_stops fuel g t at_ pending started delay s r s' :
  retry_loop fuel g t at_ pending started delay s = (Ok (Some (Some r)), s') → state r = Failed.
Proof.
  revert delay s. induction fuel as [|fuel IH]; intros delay s; [done|].
  cbn [Preparation.retry_loop]. rewrite bind_run. unfold attempt at 1.
  destruct (infer pending s) as [[[]|e] s1]; [done|]. rewrite bind_run. unfold gets at 1.
  assert (∀ e' s2, (r0 ← finish_run g Failed t at_ e'; mret (Some r0)) s2 = (Ok (Some (Some r)), s') →
    state r = Failed) as Hfinish.
  { intros e' s2. rewrite bind_run. destruct (finish_run _ _ _ _ _ s2) as [[o|]s3] eqn:Hf; [|done].
    intros [= -> ->]. by apply finish_run_state in Hf as [-> _]. }
  destruct (is_retryable_batch_error _ e).
  - rewrite bind_run. unfold instant_now at 1. destruct (_ <=? _)%Z; [apply Hfinish|].
    rewrite bind_run. unfold sleep at 1. apply IH.
  - destruct (batch_error_is_unit_failure _ e); [done|apply Hfinish].
Qed.

Lemma sweep_stops fuel g t at_ s r s' :
  sweep fuel g t at_ s = (Ok (inr (Some r)), s') → state r ≠ Completed.
Proof.
  revert at_ s. induction fuel as [|fuel IH]; intros at_ s; cbn [Preparation.sweep];
    destruct (_ <? _); try done.
  assert (∀ e s2, (r0 ← finish_run g Superseded (Z.of_nat t) at_ e; mret (inr r0)) s2 =
    (Ok (inr (Some r) : Progress + option RunRecord), s') → state r ≠ Completed) as Hfinish.
  { intros e s2. rewrite bind_run. destruct (finish_run _ _ _ _ _ s2) as [[o|]s3] eqn:Hf; [|done].
    intros [= -> ->]. by apply finish_run_state in Hf as [-> _]. }
  rewrite bind_run, read_generation_run. destruct (negb _); [apply Hfinish|].
  rewrite bind_run, snapshot_units_run. cbv zeta. destruct (negb _); [apply Hfinish|].
  destruct (length _ =? 0); [done|]. rewrite bind_run. unfold gets at 1. rewrite bind_run. unfold instant_now at 1.
  rewrite bind_run. destruct (retry_loop _ _ _ _ _ _ _ _) as [[[o|]|] s1] eqn:Hretry; [| |done].
  { intros [= -> ->]. by rewrite (retry_loop_stops _ _ _ _ _ _ _ _ _ _ Hretry). }
  rewrite bind_run. unfold gets at 1. rewrite bind_run. unfold update_prep at 1. apply IH.
Qed.

Lemma conclude_completed fuel g B t at_ s r s' :
  published g B → conclude content_key index fuel g t at_ s = (Ok (Some r), s') → state r = Completed →
  ∀ text, text ∈ B → is_cached (vectors (prep s')) (content_key text) = true.
Proof.
  intros Hpub. unfold conclude. rewrite bind_run.
  destruct (current_counts fuel g 0 0 no_counts s) as [[[[obs tot] n]|] s1] eqn:Hc; [|done].
  destruct (current_counts_value _ _ _ _ _ _ _ _ _ _ _ Hpub Hc) as (Hs1 & _ & Hn).
  destruct (obs =? g)%Z eqn:Hobs; cbn [negb]; bool_to_prop.
  2: { intros Hf Hr. apply finish_run_state in Hf as [Hst _]. congruence. }
  intros Hf Hr text Htext. apply finish_run_state in Hf as [Hst ->]. rewrite Hr in Hst.
  rewrite Hs1. cbn [prep at_reads]. rewrite (Hn Hobs), sum_counts_zero_l, drop_0 in Hst.
  unfold final_state in Hst. destruct (0 <? _)%Z eqn:Hfail; [done|].
  destruct (0 <? n_missing _)%Z eqn:Hmiss; [done|]. bool_to_prop.
  apply (classify_all_cached (prep s) (units_of B) Hmiss Hfail (unit_of content_key text)).
  by apply list_elem_of_fmap_2.
Qed.

Lemma supersede_before_state g t s r s' :
  supersede_before g t s = (Ok (Some r), s') → state r = Completed →
  ∃ ex, run g (prep s) = Ok (Some ex) ∧ state ex = Completed.
Proof.
  unfold supersede_before. rewrite bind_run. unfold update_prep, query_prep, run, supersede_generation.
  cbn [prep set_prep runs set_runs]. rewrite lookup_insert_eq. unfold fmap, result_fmap.
  destruct (runs (prep s) !! g) as [row|]; [destruct (row_state row =s _)|].
  all: intros [= Hr _]; destruct (read_row _) as [rec|] eqn:Hrec; [injection Hr as ->|done].
  2: { intros Hst. by exists r. }
  all: apply read_row_Ok in Hrec as (Hst & _); cbn [row_state with_state] in Hst; rewrite state_text in Hst; congruence.
Qed.

(** The start of a sweep reads the index and drops completions; then it is
    superseded or runs. *)
Lemma content_keys_frame fuel g off keys s :
  ∃ res k, snapshot_content_keys content_key index fuel g off keys s = (res, at_reads k s) ∧ reads s ≤ k.
Proof.
  revert off keys s. induction fuel as [|fuel IH]; intros off keys s; [by eexists _, (reads s); destruct s|].
  cbn [snapshot_content_keys]. rewrite bind_run, snapshot_units_run. cbv zeta.
  destruct (negb _); [eexists _, _; split; [done|lia]|].
  destruct (length _ =? 0); [eexists _, _; split; [done|lia]|].
  match goal with |- context [snapshot_content_keys _ _ fuel g ?off' ?ks ?s1] =>
    destruct (IH off' ks s1) as (res & k & -> & Hk) end.
  eexists _, _. split; [done|]. cbn in Hk. lia.
Qed.

Lemma prepare_cases fuel g reset s out s' :
  prepare_generation fuel g reset s = (Ok out, s') →
  ∃ s1, runs (prep s1) = runs (prep s) ∧ vectors (prep s1) = vectors (prep s) ∧ reads s < reads s1 ∧
    ((∃ t, supersede_before g t s1 = (Ok out, s')) ∨
     run_sweep content_key index clock fuel g (Z.of_nat (length (bodies (index (reads s))))) reset s1 = (Ok out, s') ∧
     index_generation (index (reads s)) = g).
Proof.
  unfold Preparation.prepare_generation. rewrite bind_run. unfold snapshot_size at 1. rewrite bind_run.
  unfold read_index at 1. set (s1 := {| reads := S (reads s) |}).
  destruct (index_generation _ =? g)%Z eqn:Hg; unfold mret, sr_ret; rewrite ?Hg; cbn [negb].
  2: { intros Hs. exists s1. split_and!; [done|done|cbn; lia|]. left. by eexists. }
  bool_to_prop. rewrite bind_run. unfold query_prep at 1.
  destruct (run g (prep s1)) as [existing|] eqn:Hrun; [|done]. rewrite bind_run.
  destruct (_ || _).
  2: { cbn [negb]. intros Hs. exists s1. split_and!; [done|done|cbn; lia|]. by right. }
  unfold prune_for_sweep. rewrite bind_run.
  destruct (content_keys_frame fuel g 0 ∅ s1) as (res & k & -> & Hk). cbn in Hk.
  destruct res as [[obs keys]|]; [|done]. destruct (negb _).
  { unfold mret, sr_ret. cbn [negb]. intros Hs. eexists. split_and!; [| | |left; by eexists]; [done|done|cbn; lia]. }
  rewrite bind_run. unfold update_prep at 1, mret, sr_ret. cbn [negb]. intros Hs.
  eexists. split_and!; [| | |right; split; [exact Hs|done]]; [done|done|cbn; lia].
Qed.

(** C5. Completed means cached: if the sweep of a generation answers that the run
    is completed, and it was not before, then every region of that generation has
    a verified vector in the cache, whatever was published, failed or evicted
    meanwhile. *)
Theorem completed_means_cached fuel g B reset s r s' :
  published g B → (∀ ex, run g (prep s) = Ok (Some ex) → state ex ≠ Completed) →
  prepare_generation fuel g reset s = (Ok (Some r), s') → state r = Completed →
  ∀ text, text ∈ B → is_cached (vectors (prep s')) (content_key text) = true.
Proof.
  intros Hpub Hnot (s1 & Hruns & _ & _ & [[t Hs]|[Hs _]])%prepare_cases Hst; unfold run in Hnot;
    rewrite <-Hruns in Hnot; fold (run g (prep s1)) in Hnot.
  { destruct (supersede_before_state _ _ _ _ _ Hs Hst) as (ex & Hex & Hc). by destruct (Hnot ex). }
  unfold run_sweep in Hs. rewrite bind_run in Hs. unfold on_prep in Hs.
  destruct (begin_run g _ reset (prep s1)) as [[r0|] p1] eqn:Hbegin; [|done].
  destruct (terminal (state r0)) eqn:Hterm.
  { injection Hs as -> <-. apply begin_run_terminal in Hbegin; [|done]. by destruct (Hnot r). }
  rewrite bind_run in Hs. destruct (sweep _ _ _ _ _) as [[[at_|o]|] s2] eqn:Hsweep; [| |done].
  - by eapply conclude_completed.
  - injection Hs as -> ->. by apply sweep_stops in Hsweep.
Qed.

(** *** The outcome is reached *)

Definition outcome_record (p : PreparationCache C) (B : list str) (c : nat) : RunRecord :=
  let n := classify_units p (units_of B) in
  {| state := final_state n; cursor := Z.of_nat c; total := Z.of_nat (length B); cached := n_cached n;
     missing := n_missing n; failures := n_failures n; error := final_error (final_state n) |}.

Lemma final_state_terminal n : terminal (final_state n) = true.
Proof. unfold final_state. by destruct (_ <? _)%Z; [|destruct (_ <? _)%Z]. Qed.

Lemma conclude_total fuel g B (at_ : Progress) s :
  stable g B s → is_Some (runs (prep s) !! g) → (Z.of_nat (length B) ≤ I64_MAX)%Z →
  at_cursor at_ ≤ length B → length B < fuel →
  ∃ s', conclude content_key index fuel g (Z.of_nat (length B)) at_ s =
    (Ok (Some (outcome_record (prep s) B (at_cursor at_))), s') ∧ vectors (prep s') = vectors (prep s).
Proof.
  intros Hst Hrow Hlen Hcur Hfuel. unfold conclude. rewrite bind_run.
  destruct (current_counts_total fuel g B 0 0 no_counts s Hst ltac:(lia)) as (tot & k & ->).
  rewrite Z.eqb_refl, sum_counts_zero_l, drop_0. cbn [negb].
  destruct (classify_total (prep s) (units_of B)) as (Hsum & Ha & Hm & Hf). rewrite length_fmap in Hsum.
  match goal with |- context [finish_run g ?st ?t ?a ?e ?s1] =>
    destruct (finish_run_spec g st t a e s1) as (s' & -> & ->); [done|lia|cbn; lia|split; cbn; lia|] end.
  eexists. split; [done|]. done.
Qed.

Definition counts_of (r : RunRecord) : Counts :=
  {| n_cached := cached r; n_missing := missing r; n_failures := failures r |}.

Lemma progress_of_bounds r (B : list str) :
  (0 ≤ cursor r)%Z → roomy (counts_of r) (length B) →
  at_cursor (progress_of r (Z.of_nat (length B))) ≤ length B ∧
  roomy (counts (progress_of r (Z.of_nat (length B))))
    (length B - at_cursor (progress_of r (Z.of_nat (length B)))).
Proof.
  intros Hc Hr. cbn [at_cursor progress_of counts]. split; [lia|].
  by eapply roomy_weaken; [|exact Hr]; lia.
Qed.

(** A run as the sweeps leave it: readable, with counters that fit. *)
Definition resumable (g : Z) (B : list str) (p : PreparationCache C) : Prop :=
  (∀ g', is_Some (runs p !! g') → (g' ≤ g)%Z) ∧
  match run g p with
  | Ok (Some r) => roomy (counts_of r) (length B)
  | Ok None => True
  | Err _ => False
  end.

Lemma run_sweep_total fuel g B reset s :
  monotone_clock → stable g B s → resumable g B (prep s) → (Z.of_nat (length B) ≤ I64_MAX)%Z →
  length B < fuel →
  ∃ r s', run_sweep content_key index clock fuel g (Z.of_nat (length B)) reset s = (Ok (Some r), s') ∧
    terminal (state r) = true.
Proof.
  intros Hclock Hst [Hmax Hres] Hlen Hfuel. destruct (run g (prep s)) as [existing|] eqn:Hrun; [|done].
  destruct (begin_run_spec g (Z.of_nat (length B)) reset (prep s) existing Hmax Hrun ltac:(lia))
    as (r & p1 & Hbegin & _ & Hrun1 & Hcases).
  unfold run_sweep. rewrite bind_run. unfold on_prep at 1. rewrite Hbegin.
  destruct (terminal (state r)) eqn:Hterm; [by eexists _, _|].
  assert (0 ≤ cursor r ∧ roomy (counts_of r) (length B))%Z as [Hcur Hroom].
  { destruct Hcases as [(-> & _ & _)|(-> & _)].
    - split; [|done]. unfold run in Hrun. destruct (runs (prep s) !! g) as [row|]; [|done].
      unfold fmap, result_fmap in Hrun. destruct (read_row row) as [rec|] eqn:Hrec; [|done]. injection Hrun as ->.
      by apply read_row_Ok in Hrec as (_ & _ & _ & _ & _ & _ & _ & ? & _).
    - split; [done|]. split; cbn; lia. }
  destruct (progress_of_bounds r B Hcur Hroom) as [Hle Hroom'].
  rewrite bind_run, Nat2Z.id.
  destruct (sweep_total fuel g B (progress_of r (Z.of_nat (length B))) (set_prep p1 s) Hclock)
    as (out & s2 & -> & Hr2 & Hout); [done| |done|done|done|lia|].
  { cbn [prep set_prep]. unfold run in Hrun1. by destruct (runs p1 !! g). }
  destruct out as [at'|o].
  - destruct Hout as (Hc & Hrow & _).
    destruct (conclude_total fuel g B at' s2) as (s3 & -> & _); [|done|done|lia|done|].
    { apply (stable_later g B s); [done|]. by cbn in Hr2. }
    eexists _, _. split; [done|]. apply final_state_terminal.
  - destruct Hout as (r' & -> & Hst'). eexists _, _. split; [done|]. by rewrite Hst'.
Qed.

Lemma prepare_starts fuel g B reset s :
  stable g B s → resumable g B (prep s) → length B < fuel →
  ∃ s1, prepare_generation fuel g reset s =
      run_sweep content_key index clock fuel g (Z.of_nat (length B)) reset s1 ∧
    stable g B s1 ∧ runs (prep s1) = runs (prep s) ∧ vectors (prep s1) = vectors (prep s) ∧
    worker s1 = worker s ∧ (∀ k, failed_key (prep s) k = false → failed_key (prep s1) k = false).
Proof.
  intros Hst Hres Hfuel. unfold Preparation.prepare_generation. rewrite bind_run. unfold snapshot_size at 1.
  rewrite bind_run. unfold read_index at 1. rewrite (Hst (reads s)) by done. cbn [index_generation bodies].
  rewrite Z.eqb_refl. unfold mret, sr_ret. rewrite Z.eqb_refl. cbn [negb]. set (s0 := {| reads := S (reads s) |}).
  assert (stable g B s0) as Hst0 by (apply (stable_later g B s); [done|cbn; lia]).
  rewrite bind_run. unfold query_prep at 1. destruct Hres as [_ Hres]. change (prep s0) with (prep s).
  destruct (run g (prep s)) as [existing|]; [|done]. rewrite bind_run.
  destruct (_ || _); [|by exists s0].
  unfold prune_for_sweep. rewrite bind_run.
  destruct (content_keys_total fuel g B 0 ∅ s0 Hst0 ltac:(lia)) as (keys & s2 & -> & Hs2 & Hle).
  rewrite Z.eqb_refl. cbn [negb]. rewrite bind_run. unfold update_prep at 1, mret, sr_ret. cbn [negb].
  eexists. split; [done|]. split_and!; [|by rewrite Hs2..|].
  - by apply (stable_later g B s0).
  - intros k. rewrite Hs2. cbn [prep set_prep at_reads]. unfold failed_key, completion, prune_completions.
    cbn [completions set_completions]. rewrite map_lookup_filter. destruct (completions (prep s0) !! k) as [c|] eqn:Hk.
    + change (prep s0) with (prep s) in Hk. rewrite Hk. cbn. case_guard; done.
    + done.
Qed.

(** C21. Every sweep ends: while the generation stays current, a sweep returns a
    terminal outcome, whatever the worker and the cache answer: retries stop with
    the retry window, every other error is an outcome, and each window moves the
    cursor. *)
Theorem sweep_reaches_outcome fuel g B reset s :
  monotone_clock → stable g B s → resumable g B (prep s) → (Z.of_nat (length B) ≤ I64_MAX)%Z →
  length B < fuel →
  ∃ r s', prepare_generation fuel g reset s = (Ok (Some r), s') ∧ terminal (state r) = true.
Proof.
  intros Hclock Hst Hres Hlen Hfuel.
  destruct (prepare_starts fuel g B reset s Hst Hres Hfuel) as (s1 & -> & Hst1 & Hruns & _).
  apply (run_sweep_total fuel g B); try done. unfold resumable, run in *. by rewrite Hruns.
Qed.
End Outcome.

(** ** What the sweep needs of the cache and the worker to complete *)

Class VectorCacheLaws (C : Type) `{VectorCache C} := {
  (** The implementation's invariant, the keys it holds, and how many it may. *)
  cache_ok : C → Prop;
  held : C → gset str;
  limit : C → nat;
  storable : Embedding → Prop;
  (** A batch of valid vectors that fits is stored and displaces nothing. *)
  store_fits : ∀ c batch, cache_ok c → batch ≠ [] → NoDup batch.*1 → Forall (λ e, storable e.2) batch →
    length batch ≤ MAX_BATCH_ENTRIES → size (held c ∪ list_to_set batch.*1) ≤ limit c →
    ∃ c', store_many c batch = (Ok tt, c') ∧ cache_ok c' ∧ limit c' = limit c ∧
      held c' = held c ∪ list_to_set batch.*1 ∧ (∀ k, k ∈ batch.*1 → is_cached c' k = true) ∧
      (∀ k, is_cached c k = true → is_cached c' k = true);
}.

Section Completes.
Context {C : Type} `{VectorCacheLaws C} {W : Type} `{EmbeddingWorker W}.
Context (content_key : str → str) (index : nat → Index) (clock : nat → Z).
Implicit Types (p : PreparationCache C) (s : Sys C W).

(** A worker that answers every batch with one valid vector per input. *)
Definition good_worker : Prop := ∀ (w : W) batch, ∃ vs w', embed_batch w batch = (Ok (Ok <$> vs), w') ∧
  length vs = length batch ∧ Forall storable vs.

Record advanced p p' (keys : list str) : Prop := {
  adv_ok : cache_ok (vectors p');
  adv_limit : limit (vectors p') = limit (vectors p);
  adv_held : held (vectors p') = held (vectors p) ∪ list_to_set keys;
  adv_new : ∀ k, k ∈ keys → is_cached (vectors p') k = true;
  adv_old : ∀ k, is_cached (vectors p) k = true → is_cached (vectors p') k = true;
  adv_failed : ∀ k, failed_key p k = false → failed_key p' k = false;
  adv_runs : runs p' = runs p;
}.

Lemma advanced_refl p : cache_ok (vectors p) → advanced p p [].
Proof. intros Hok. split; try done; [by rewrite list_to_set_nil, (right_id_L ∅ (∪))|by intros k ?%elem_of_nil]. Qed.

Lemma advanced_trans p p1 p2 k1 k2 : advanced p p1 k1 → advanced p1 p2 k2 → advanced p p2 (k1 ++ k2).
Proof.
  intros [ok1 lim1 held1 new1 old1 f1 r1] [ok2 lim2 held2 new2 old2 f2 r2].
  split; [done|congruence| | |auto|auto|congruence].
  - by rewrite list_to_set_app_L, held2, held1, (assoc_L (∪)).
  - intros k [Hk|Hk]%elem_of_app; auto.
Qed.

Lemma insert_complete_failed k k' p :
  failed_key p k' = false →
  failed_key (insert_completion k {| outcome_column := CompleteOutcome; completion_error := None |} p) k' = false.
Proof.
  intros Hf. unfold insert_completion. destruct (completions p !! k) eqn:Hk; [done|].
  unfold failed_key, completion in *. cbn [completions set_completions].
  destruct (decide (k = k')) as [->|Hne]; [by rewrite lookup_insert_eq|by rewrite lookup_insert_ne].
Qed.

Lemma complete_batch_good batch (vs : list Embedding) p :
  batch ≠ [] → length vs = length batch → length batch ≤ MAX_BATCH_ENTRIES → NoDup (input_key <$> batch) →
  Forall storable vs → cache_ok (vectors p) →
  size (held (vectors p) ∪ list_to_set (input_key <$> batch)) ≤ limit (vectors p) →
  ∃ p', complete_batch batch (Ok <$> vs) p = (Ok tt, p') ∧ advanced p p' (input_key <$> batch).
Proof.
  intros Hne Hlen Hmax Hnd Hvs Hok Hsize. set (entries := zip (input_key <$> batch) vs).
  assert (entries.*1 = input_key <$> batch) as Hkeys by (apply fst_zip; rewrite length_fmap; lia).
  assert (entries.*2 = vs) as Hvals by (apply snd_zip; rewrite length_fmap; lia).
  assert (∀ b vs acc, length vs = length b →
    record_failures b (Ok <$> vs) acc p = (acc ++ zip (input_key <$> b) vs, p)) as Hrecord.
  { clear. induction b as [|i b IH]; intros [|v vs] acc Hl; cbn in *; try lia; [by rewrite app_nil_r|].
    rewrite IH by lia. by rewrite <-app_assoc. }
  unfold complete_batch. rewrite Hrecord by done. cbn [app]. fold entries.
  assert (entries ≠ []) as Hne'.
  { intros He. rewrite He in Hkeys. by destruct batch. }
  destruct (store_fits (vectors p) entries) as (c' & Hstore & Hok' & Hlim & Hheld & Hnew & Hold);
    [done|done|by rewrite Hkeys|by apply (Forall_fmap snd storable); rewrite Hvals| |by rewrite Hkeys|].
  { rewrite <-(length_fmap fst), Hkeys, length_fmap. lia. }
  unfold complete_many. destruct entries as [|e es] eqn:He; [done|]. rewrite <-He in *. rewrite Hstore.
  eexists. split; [done|].
  destruct (complete_entries_runs entries {| outcome_column := CompleteOutcome; completion_error := None |}
    (set_vectors c' p)) as [Hr Hv].
  split; rewrite ?Hv, ?Hr; cbn [vectors runs set_vectors]; rewrite <-?Hkeys; try done.
  intros k Hf. assert (failed_key (set_vectors c' p) k = false) as Hf' by done. revert Hf'. clear.
  generalize (set_vectors c' p). intros q. revert q.
  induction entries as [|e es IH]; intros q Hq; cbn [foldl]; [done|]. apply IH. by apply insert_complete_failed.
Qed.

Lemma run_batches_good fuel inputs start (w : W) p :
  good_worker → start ≤ length inputs → length inputs ≤ start + fuel → NoDup (input_key <$> drop start inputs) →
  cache_ok (vectors p) →
  size (held (vectors p) ∪ list_to_set (input_key <$> drop start inputs)) ≤ limit (vectors p) →
  ∃ w' p', run_batches_go complete_batch fuel inputs start w p = (Ok tt, w', p') ∧
    advanced p p' (input_key <$> drop start inputs).
Proof.
  intros Hgood. revert start w p. induction fuel as [|fuel IH]; intros start w p Hs Hf Hnd Hok Hsize;
    cbn [run_batches_go].
  all: destruct (start <? length inputs) eqn:Hlt; bool_to_prop;
    [|rewrite drop_ge by lia; exists w, p; split; [done|by apply advanced_refl]].
  { lia. }
  destruct (next_batch_range inputs start Hlt) as (Hb & Hlen & Hsplit). cbv zeta.
  pose proof (next_batch_count inputs start Hlt) as Hcount.
  set (end_ := next_batch_end inputs start) in *.
  set (batch := take (end_ - start) (drop start inputs)) in *.
  rewrite Hsplit, fmap_app in Hnd, Hsize. rewrite list_to_set_app_L in Hsize. apply NoDup_app in Hnd as (Hnd1 & Hdisj & Hnd2).
  destruct (Hgood w batch) as (vs & w1 & Hembed & Hvs & Hst).
  assert (batch ≠ []) as Hne by (intros Hn; rewrite Hn in Hlen; cbn in Hlen; lia).
  destruct (complete_batch_good batch vs p) as (p1 & Hc & Hadv); try done.
  { unfold MAX_BATCH_ENTRIES, MAX_BATCH in *. lia. }
  { etransitivity; [apply subseteq_size|exact Hsize]. apply union_mono_l, union_subseteq_l. }
  assert (run_one_batch complete_batch (length batch) batch w p = (Ok tt, w1, p1)) as ->.
  { destruct (length batch) as [|m] eqn:Hm; [by destruct batch|]. cbn [run_one_batch]. rewrite Hembed.
    rewrite length_fmap, Hvs, Hm, Nat.eqb_refl. by rewrite Hc. }
  destruct (IH end_ w1 p1) as (w2 & p2 & -> & Hadv2); [lia|lia|done|by destruct Hadv| |].
  { destruct Hadv as [_ -> -> _ _ _ _]. by rewrite <-(assoc_L (∪)). }
  exists w2, p2. split; [done|]. rewrite Hsplit, fmap_app. by eapply advanced_trans.
Qed.

Lemma pending_spec p seen units :
  let ps := pending_go p seen units in
  NoDup (input_key <$> ps) ∧ (∀ k, k ∈ input_key <$> ps → (k ∉ seen) ∧ k ∈ input_key <$> units) ∧
  (∀ u, u ∈ units → is_cached (vectors p) (input_key u) = true ∨ failed_key p (input_key u) = true ∨
    input_key u ∈ seen ∨ input_key u ∈ input_key <$> ps).
Proof.
  revert seen. induction units as [|u units IH]; intros seen; cbv zeta; cbn [pending_go].
  { split_and!; [constructor|set_solver|by intros ? ?%elem_of_nil]. }
  assert (∀ v, v ∈ u :: units → v = u ∨ v ∈ units) as Hcons by (intros v; by rewrite elem_of_cons).
  destruct (is_cached _ _ || failed_key _ _) eqn:Hskip; [|case_bool_decide as Hseen].
  - destruct (IH seen) as (Hnd & Hin & Hcov). split_and!; [done| |].
    + intros k Hk. destruct (Hin k Hk) as [? ?]. split; [done|by right].
    + intros v [->|Hv]%Hcons; [apply orb_true_iff in Hskip; tauto|auto].
  - destruct (IH seen) as (Hnd & Hin & Hcov). split_and!; [done| |].
    + intros k Hk. destruct (Hin k Hk) as [? ?]. split; [done|by right].
    + intros v [->|Hv]%Hcons; [tauto|auto].
  - destruct (IH ({[input_key u]} ∪ seen)) as (Hnd & Hin & Hcov). rewrite fmap_cons. split_and!.
    + constructor; [|done]. intros Hk. destruct (Hin _ Hk) as [Hn _]. set_solver.
    + intros k [->|Hk]%elem_of_cons; [split; [done|by left]|].
      destruct (Hin k Hk) as [Hn ?]. split; [set_solver|by right].
    + intros v [->|Hv]%Hcons; [do 3 right; by left|].
      destruct (Hcov v Hv) as [?|[?|[Hs|?]]]; [tauto|tauto| |do 3 right; by right].
      apply elem_of_union in Hs as [->%elem_of_singleton|?]; [do 3 right; by left|tauto].
Qed.

(** The state of a sweep whose first [c] regions are cached. *)
Record ready (g : Z) (B : list str) (c : nat) p : Prop := {
  ready_ok : cache_ok (vectors p);
  ready_size : size (held (vectors p) ∪ list_to_set (content_key <$> B)) ≤ limit (vectors p);
  ready_failed : ∀ text, text ∈ B → failed_key p (content_key text) = false;
  ready_cached : ∀ text, text ∈ take c B → is_cached (vectors p) (content_key text) = true;
  ready_run : is_Some (runs p !! g);
}.

Lemma unit_keys (B : list str) : input_key <$> (unit_of content_key <$> B) = content_key <$> B.
Proof. rewrite <-list_fmap_compose. done. Qed.

Lemma elem_of_take_elem {A} n (l : list A) x : x ∈ take n l → x ∈ l.
Proof. intros Hx. rewrite <-(take_drop n l). apply elem_of_app. by left. Qed.
Lemma elem_of_drop_elem {A} n (l : list A) x : x ∈ drop n l → x ∈ l.
Proof. intros Hx. rewrite <-(take_drop n l). apply elem_of_app. by right. Qed.
Lemma elem_of_take_le {A} n m (l : list A) x : n ≤ m → x ∈ take n l → x ∈ take m l.
Proof. intros Hle Hx. replace n with (Nat.min n m) in Hx by lia. rewrite <-take_take in Hx. by eapply elem_of_take_elem. Qed.

(** One window. *)
Lemma window_good g B c (w : W) p :
  good_worker → ready g B c p →
  let u := unit_of content_key <$> take SNAPSHOT_WINDOW (drop c B) in
  ∃ w' p', run_batches_grouped complete_batch (pending_inputs p u) w p = (Ok tt, w', p') ∧
    ready g B (c + length u) p'.
Proof.
  intros Hgood [Hok Hsize Hfail Hcached Hrun] u.
  destruct (pending_spec p ∅ u) as (Hnd & Hin & Hcov). fold (pending_inputs p u) in *.
  set (ps := pending_inputs p u) in *.
  assert (∀ k, k ∈ input_key <$> ps → k ∈ content_key <$> B) as Hsub.
  { intros k Hk. destruct (Hin k Hk) as [_ Hu]. unfold u in Hu. rewrite unit_keys in Hu.
    apply list_elem_of_fmap in Hu as (text & -> & Ht). apply list_elem_of_fmap_2.
    eapply elem_of_drop_elem, elem_of_take_elem, Ht. }
  assert ((list_to_set (input_key <$> ps) : gset str) ⊆ list_to_set (content_key <$> B)) as Hsub'.
  { intros k. rewrite !elem_of_list_to_set. apply Hsub. }
  destruct (run_batches_good (length ps) ps 0 w p Hgood) as (w' & p' & Hrun' & Hadv); [lia|lia|done|done| |].
  { etransitivity; [apply subseteq_size|exact Hsize]. by apply union_mono_l. }
  exists w', p'. split; [exact Hrun'|]. rewrite drop_0 in Hadv.
  destruct Hadv as [ok' lim' held' new' old' f' r']. split.
  - done.
  - rewrite held', lim', <-(assoc_L (∪)), (subseteq_union_1_L _ _ Hsub'). done.
  - intros text Ht. by apply f', Hfail.
  - intros text Ht. rewrite <-take_take_drop in Ht. apply elem_of_app in Ht as [Ht|Ht]; [by apply old', Hcached|].
    assert (unit_of content_key text ∈ u) as Hu.
    { unfold u. apply list_elem_of_fmap_2. eapply elem_of_take_le, Ht. unfold u. rewrite length_fmap, length_take. lia. }
    destruct (Hcov _ Hu) as [Hk|[Hk|[Hk|Hk]]]; [by apply old'| | |by apply new'].
    + cbn [input_key unit_of] in Hk. rewrite Hfail in Hk; [done|]. eapply elem_of_drop_elem, elem_of_take_elem, Ht.
    + by apply elem_of_empty in Hk.
  - by rewrite r'.
Qed.

Lemma sweep_good fuel g B (at_ : Progress) s :
  good_worker → stable index g B s → ready g B (at_cursor at_) (prep s) → at_cursor at_ ≤ length B →
  length B - at_cursor at_ ≤ fuel →
  ∃ at' s', sweep content_key index clock fuel g (length B) at_ s = (Ok (inl at'), s') ∧
    at_cursor at' = length B ∧ reads s ≤ reads s' ∧ ready g B (length B) (prep s').
Proof.
  intros Hgood. revert at_ s. induction fuel as [|fuel IH]; intros at_ s Hst Hready Hcur Hfuel.
  all: cbn [sweep]; destruct (at_cursor at_ <? length B) eqn:Hlt; bool_to_prop;
    [|assert (at_cursor at_ = length B) as Heq by lia; rewrite Heq in Hready; by exists at_, s].
  { lia. }
  rewrite bind_run, read_generation_run, (Hst (reads s)) by done. cbn [index_generation].
  rewrite Z.eqb_refl. cbn [negb]. rewrite bind_run, snapshot_units_run. cbv zeta.
  rewrite (Hst (reads (at_reads (S (reads s)) s))) by (cbn; lia). cbn [index_generation bodies].
  rewrite Z.eqb_refl. cbn [negb].
  destruct (length _ =? 0) eqn:Hempty; bool_to_prop; [apply window_empty in Hempty; lia|].
  pose proof (window_length content_key (at_cursor at_) B) as Hwin.
  rewrite bind_run. unfold gets at 1. rewrite bind_run. unfold instant_now at 1. rewrite bind_run.
  cbn [ticks slept at_reads reads prep worker].
  destruct (window_good g B (at_cursor at_) (worker s) (prep s) Hgood Hready) as (w' & p' & Hrun & Hready').
  set (u := unit_of content_key <$> take SNAPSHOT_WINDOW (drop (at_cursor at_) B)) in *.
  unfold RETRY_FUEL at 1. cbn [retry_loop]. rewrite bind_run. unfold attempt at 1, infer at 1.
  cbn [worker prep]. rewrite Hrun. unfold mret at 1, sr_ret at 1. rewrite bind_run. unfold gets at 1.
  rewrite bind_run. unfold update_prep at 1.
  match goal with |- context [sweep _ _ _ fuel g _ ?at2 ?s2] =>
    destruct (IH at2 s2) as (at3 & s3 & -> & Hc3 & Hr3 & Hready3) end.
  - apply (stable_later index g B s); [done|cbn; lia].
  - cbn [prep set_prep at_cursor]. destruct Hready' as [ok' size' fail' cached' run']. split; try done.
    rewrite progress_lookup. cbn [prep]. by destruct run' as [row ->]; eexists.
  - cbn [at_cursor]. lia.
  - cbn [at_cursor]. lia.
  - exists at3, s3. cbn in Hr3. split_and!; [done|done|lia|done].
Qed.

Lemma outcome_completed B p c :
  (∀ text, text ∈ B → is_cached (vectors p) (content_key text) = true) →
  state (outcome_record content_key p B c) = Completed ∧
  cached (outcome_record content_key p B c) = Z.of_nat (length B).
Proof.
  intros Hall. unfold outcome_record. rewrite classify_cached, length_fmap; [done|].
  intros u (text & -> & Ht)%list_elem_of_fmap. by apply Hall.
Qed.

(** C17. A sweep completes: if the generation stays current, no content of it is
    marked as failed, the worker embeds every batch, and the cache has room for
    the contents of the generation beside what it holds, then a sweep that starts
    afresh ends completed with every region cached. *)
Theorem sweep_completes fuel g B s :
  good_worker → stable index g B s → (Z.of_nat (length B) ≤ I64_MAX)%Z → length B < fuel →
  (∀ g', is_Some (runs (prep s) !! g') → (g' < g)%Z) → cache_ok (vectors (prep s)) →
  size (held (vectors (prep s)) ∪ list_to_set (content_key <$> B)) ≤ limit (vectors (prep s)) →
  (∀ text, text ∈ B → failed_key (prep s) (content_key text) = false) →
  ∃ r s', prepare_generation content_key index clock fuel g false s = (Ok (Some r), s') ∧
    state r = Completed ∧ cached r = Z.of_nat (length B) ∧
    ∀ text, text ∈ B → is_cached (vectors (prep s')) (content_key text) = true.
Proof.
  intros Hgood Hst Hlen Hfuel Hruns Hok Hsize Hfail.
  assert (runs (prep s) !! g = None) as Hnone.
  { destruct (runs (prep s) !! g) as [row|] eqn:Hrow; [|done]. specialize (Hruns g ltac:(by rewrite Hrow)). lia. }
  assert (resumable g B (prep s)) as Hres.
  { split; [intros g' Hg'; specialize (Hruns g' Hg'); lia|]. unfold run. by rewrite Hnone. }
  destruct (prepare_starts content_key index clock fuel g B false s Hst Hres Hfuel)
    as (s1 & -> & Hst1 & Hruns1 & Hvec1 & _ & Hfail1).
  destruct (begin_run_spec g (Z.of_nat (length B)) false (prep s1) None) as (r & p1 & Hbegin & Hvec & Hrun1 & Hcases).
  { rewrite Hruns1. intros g' Hg'. specialize (Hruns g' Hg'). lia. }
  { unfold run. by rewrite Hruns1, Hnone. }
  { lia. }
  destruct Hcases as [(? & _)|(-> & Hcomp)]; [done|].
  unfold run_sweep. rewrite bind_run. unfold on_prep at 1. rewrite Hbegin. cbn [terminal state fresh_record].
  rewrite bind_run, Nat2Z.id.
  destruct (sweep_good fuel g B (progress_of (fresh_record (Z.of_nat (length B))) (Z.of_nat (length B)))
    (set_prep p1 s1) Hgood) as (at' & s2 & -> & Hc2 & Hr2 & Hready2); [done| |cbn; lia|cbn; lia|].
  { cbn [prep set_prep]. split; rewrite ?Hvec, ?Hvec1; try done.
    - intros text Ht. unfold failed_key, completion. rewrite Hcomp. by apply Hfail1, Hfail.
    - replace (at_cursor _) with 0 by (cbn; lia). by intros text ?%elem_of_nil.
    - unfold run in Hrun1. by destruct (runs p1 !! g). }
  destruct (conclude_total content_key index fuel g B at' s2) as (s3 & -> & Hvec3);
    [by apply (stable_later index g B s1)|by destruct Hready2|done|lia|done|].
  assert (∀ text, text ∈ B → is_cached (vectors (prep s2)) (content_key text) = true) as Hall.
  { intros text Ht. destruct Hready2 as [_ _ _ Hcached _]. apply Hcached. by rewrite firstn_all. }
  destruct (outcome_completed B (prep s2) (at_cursor at') Hall) as [Hstate Hcount].
  eexists _, s3. split_and!; [done|done|done|]. intros text Ht. rewrite Hvec3. by apply Hall.
Qed.
End Completes.

(** ** Terminal runs and repeated failures *)

Section Repeats.
Context {C : Type} `{VectorCache C} {W : Type} `{EmbeddingWorker W}.
Context (content_key : str → str) (index : nat → Index) (clock : nat → Z).
Implicit Types (p : PreparationCache C) (s : Sys C W).

(** A terminal run is the one sweep of its generation: preparing it again without
    a reset reads the index once, and calls neither the worker nor the cache. *)
Lemma terminal_run_kept fuel g r s :
  index_generation (index (reads s)) = g → run g (prep s) = Ok (Some r) → terminal (state r) = true →
  prepare_generation content_key index clock fuel g false s = (Ok (Some r), at_reads (S (reads s)) s).
Proof.
  intros Hg Hrun Hterm. unfold prepare_generation. rewrite bind_run. unfold snapshot_size at 1.
  rewrite bind_run. unfold read_index at 1. rewrite Hg, Z.eqb_refl. unfold mret, sr_ret.
  rewrite Z.eqb_refl. cbn [negb]. rewrite bind_run. unfold query_prep at 1. cbn [prep].
  rewrite Hrun, bind_run, Hterm. cbn [orb negb]. unfold run_sweep. rewrite bind_run. unfold on_prep at 1, begin_run.
  cbn [prep]. rewrite Hrun. cbn [andb]. by rewrite Hterm.
Qed.

(** Content that was completed once, lost its vector to eviction and now fails is
    not recorded as failed, and the sweep reports a lack of capacity. *)
Lemma evicted_failure_is_capacity u c e p :
  completions p !! input_key u = Some c → outcome_column c = CompleteOutcome →
  is_cached (vectors p) (input_key u) = false →
  final_state (classify_units (fail (input_key u) e p) [u]) = Capacity.
Proof.
  intros Hc Ho Hcached. unfold fail, insert_completion. rewrite Hc.
  unfold classify_units. cbn [foldl]. unfold count_unit, failed_key, completion.
  rewrite Hcached, Hc. cbn [fmap option_fmap option_map]. unfold not_failed. by rewrite Ho.
Qed.

(** At most 256 runs are kept. *)
Lemma prune_runs_bound p : size (runs (prune_runs p)) ≤ RUN_RETENTION.
Proof.
  unfold prune_runs. cbn [runs set_runs].
  set (l := newest_generations p).
  assert (length l ≤ RUN_RETENTION) as Hl by (unfold l, newest_generations; rewrite length_take; lia).
  etransitivity; [|exact Hl]. rewrite <-size_dom. transitivity (size (list_to_set l : gset Z)); [|].
  2: { rewrite size_list_to_set; [done|]. unfold l, newest_generations.
       eapply sublist_NoDup; [|apply sublist_take]. rewrite (sort_by_perm _). apply NoDup_fst_map_to_list. }
  apply subseteq_size. intros g [r [_ Hg]%map_lookup_filter_Some]%elem_of_dom. by apply elem_of_list_to_set.
Qed.
End Repeats.
