(* ===== verification/PreparedCache.v ===== *)
(** * The embedding cache behind the preparation sweep

    Models the calls of [src/src/semantic/preparation/cache.rs] into the embedding
    cache, [is_cached_in] and the store of [complete_many], and discharges the
    [VectorCache] interface of the sweep with the cache's own lemmas. *)
From Stdlib Require Import Ascii String ZArith Lia Floats.SpecFloat.
From stdpp Require Import base numbers list gmap strings.
From S2P Require Import Prelude Order Text Timing Ranking EmbeddingCache Batches Preparation.

(** An open cache with its database; [disk] holds the errors SQLite will report
    for the next transactions. *)
Record StoredVectors := { handle : EmbeddingCache; database : Database; disk : list (option string) }.

#[export] Instance stored_vectors : VectorCache StoredVectors := {|
  is_cached c k := match (get (handle c) (database c) k).1 with Some _ => true | None => false end;
  store_many c entries :=
    let '(r, db) := put_many (handle c) (default None (head (disk c))) (database c) entries in
    (r, {| handle := handle c; database := db; disk := tail (disk c) |});
|}.

Definition valid_vector (v : Embedding) : Prop :=
  ∃ n, from_values v = Ok n ∧ Forall valid_f32 n ∧ validate_values n = Ok tt.

Record stored_ok (c : StoredVectors) : Prop := {
  ok_capacity : capacity_ok (handle c);
  ok_cache : cache_inv (database c);
  ok_rows : countable_rows (database c);
  ok_disk : Forall (λ e, e = None) (disk c);
}.
Definition stored_keys (c : StoredVectors) : gset str := list_to_set (key <$> embeddings (database c)).

Lemma latest_writes_id ws : NoDup (write_key <$> ws) → latest_writes ws = ws.
Proof.
  induction ws as [|w ws IH]; [done|]. rewrite fmap_cons. intros [Hn Hnd]%NoDup_cons.
  cbn [latest_writes foldr]. fold (latest_writes ws). rewrite IH by done. by rewrite bool_decide_eq_false_2.
Qed.

(** The writes of a batch of valid vectors. *)
Lemma encode_valid (batch : list (str * Embedding)) :
  Forall (λ e, valid_vector e.2) batch →
  ∃ ws, try_map encode_entry batch = Ok ws ∧ write_key <$> ws = batch.*1 ∧
    ∀ w, w ∈ ws → ∃ n, bytes w = vector_bytes n ∧ length n = DIMENSIONS ∧ Forall valid_f32 n ∧ validate_values n = Ok tt.
Proof.
  induction 1 as [|[k v] batch (n & Hn & Hvalid & Hval) _ (ws & Hws & Hkeys & Hall)].
  { exists []. split_and!; [done|done|by intros w ?%elem_of_nil]. }
  exists ({| write_key := k; bytes := vector_bytes n |} :: ws). cbn [try_map]. cbn [snd] in Hn.
  assert (encode_entry (k, v) = Ok {| write_key := k; bytes := vector_bytes n |}) as ->.
  { unfold encode_entry, encode. cbn [snd fst]. by rewrite Hn. }
  rewrite Hws. split_and!; [done|by rewrite !fmap_cons, Hkeys|].
  intros w [->|Hw]%elem_of_cons; [|auto]. exists n. split_and!; try done. by eapply from_values_length.
Qed.

Lemma filter_keys_size (rows : list EmbeddingRow) (keys : list str) :
  NoDup (key <$> rows) → NoDup keys →
  size ((list_to_set (key <$> rows) : gset str) ∪ list_to_set keys) =
    length (filter (λ r, key r ∉ keys) rows) + length keys.
Proof.
  intros Hr Hk. rewrite (union_comm_L (list_to_set _)), size_union_alt, (size_list_to_set keys) by done.
  rewrite Nat.add_comm. f_equal.
  rewrite <-(length_fmap key), <-(size_list_to_set (C := gset str)) by (by apply nodup_filter_keys).
  f_equal. apply set_eq. intros k. rewrite elem_of_difference, !elem_of_list_to_set, !list_elem_of_fmap.
  setoid_rewrite list_elem_of_filter. naive_solver.
Qed.

(** What storing a batch that fits leaves in the tables. *)
Record stored (c : EmbeddingCache) (db : Database) (batch : list (str * Embedding)) (ws : list CacheWrite)
    (db' : Database) : Prop := {
  stored_put : put_many c None db batch = (Ok tt, db');
  stored_writes : collect_writes [] batch = Ok ws;
  stored_latest : latest_writes ws = ws;
  stored_count : (Z.of_nat (length ws) ≤ max_entries c)%Z;
  stored_write_keys : write_key <$> ws = batch.*1;
  stored_bytes : ∀ w, w ∈ ws → ∃ n, bytes w = vector_bytes n ∧ length n = DIMENSIONS ∧ Forall valid_f32 n ∧
    validate_values n = Ok tt;
  stored_rows : ∃ news, embeddings db' = filter (λ r, key r ∉ write_key <$> ws) (embeddings db) ++ news ∧
    key <$> news = write_key <$> ws ∧
    embedding_provenance db' = filter (λ p, p.1 ∉ write_key <$> ws) (embedding_provenance db) ++
      ((λ r, (key r, current_provenance (cache_manifest c))) <$> news);
}.

Lemma put_fits c db batch :
  capacity_ok c → cache_inv db → batch ≠ [] → NoDup batch.*1 → Forall (λ e, valid_vector e.2) batch →
  length batch ≤ MAX_BATCH_ENTRIES →
  size ((list_to_set (key <$> embeddings db) : gset str) ∪ list_to_set batch.*1) ≤ Z.to_nat (max_entries c) →
  ∃ ws db', stored c db batch ws db'.
Proof.
  intros Hcap Hinv Hne Hnd Hvalid Hmax Hsize.
  destruct (encode_valid batch Hvalid) as (ws & Htry & Hkeys & Hall).
  assert (collect_writes [] batch = Ok ws) as Hc.
  { apply collect_writes_Ok; [cbn; lia|]. split; [done|]. by exists ws. }
  assert (NoDup (write_key <$> ws)) as Hndw by (by rewrite Hkeys).
  rewrite filter_keys_size in Hsize by (done || by destruct Hinv). rewrite <-Hkeys, length_fmap in Hsize.
  unfold capacity_ok in Hcap.
  destruct (transact_fits (max_entries c) (cache_manifest c) ws db) as (tick & Hrows & Hprov); [done|done|lia|lia|].
  exists ws, (transact (max_entries c) (cache_manifest c) ws db). split; try done; [|by apply latest_writes_id|lia|].
  - rewrite (put_many_Ok _ _ _ ws), latest_writes_id by done. by rewrite Nat.min_r, Nat.sub_diag, drop_0 by lia.
  - exists (new_rows tick ws). split_and!; [done|apply new_rows_keys|done].
Qed.

Lemma stored_new c db batch ws db' k :
  capacity_ok c → cache_inv db → countable_rows db → stored c db batch ws db' → k ∈ batch.*1 →
  ∃ n, get c db' k = (Some n, c).
Proof.
  intros Hcap Hinv Hcount [Hput Hc Hl Hn Hkeys Hall _] Hk. rewrite <-Hkeys in Hk.
  apply list_elem_of_fmap in Hk as ([k' b] & -> & Hw). destruct (Hall _ Hw) as (n & Hb & Hlen & Hv & Hval).
  cbn [bytes write_key] in *. subst b.
  destruct (put_many_stores c db batch ws db' k' (vector_bytes n)) as [(row & Hr & Hvec) Hp];
    [done..|by rewrite Hl|by rewrite Hl|done|].
  exists n. by apply (get_stored_row _ _ _ row).
Qed.

Lemma stored_old c db batch ws db' k :
  stored c db batch ws db' → k ∉ batch.*1 → get c db' k = get c db k.
Proof.
  intros [_ _ _ _ Hkeys _ (news & Hrows & Hnk & Hprov)] Hk. rewrite <-Hkeys in Hk.
  assert (∀ r, r ∈ news → key r ∈ write_key <$> ws) as Hnews
    by (intros r Hr; rewrite <-Hnk; by apply list_elem_of_fmap_2).
  assert (select_row db' k = select_row db k) as Hrow.
  { unfold select_row. rewrite Hrows. by apply (find_other key). }
  assert (select_provenance db' k = select_provenance db k) as Hp.
  { unfold select_provenance. rewrite Hprov, (find_other fst); [done|done|].
    intros x (r & -> & Hr)%list_elem_of_fmap. by apply Hnews. }
  unfold get. by rewrite Hrow, Hp.
Qed.

Lemma stored_held c db batch ws db' :
  stored c db batch ws db' →
  (list_to_set (key <$> embeddings db') : gset str) =
    list_to_set (key <$> embeddings db) ∪ list_to_set batch.*1.
Proof.
  intros [_ _ _ _ Hkeys _ (news & Hrows & Hnk & _)]. rewrite Hrows, fmap_app, Hnk.
  apply set_eq. intros k. rewrite elem_of_union, !elem_of_list_to_set, elem_of_app.
  assert (k ∈ write_key <$> ws ↔ k ∈ batch.*1) as Hk by (by rewrite Hkeys).
  destruct (decide (k ∈ batch.*1)) as [Hin|Hin]; [tauto|].
  assert (k ∈ key <$> filter (λ r, key r ∉ write_key <$> ws) (embeddings db) ↔ k ∈ key <$> embeddings db) as ->;
    [|tauto].
  rewrite !list_elem_of_fmap. setoid_rewrite list_elem_of_filter. rewrite Hkeys. naive_solver.
Qed.

Lemma stored_store_fits (c : StoredVectors) (batch : list (str * Embedding)) :
  stored_ok c → batch ≠ [] → NoDup batch.*1 → Forall (λ e, valid_vector e.2) batch →
  length batch ≤ MAX_BATCH_ENTRIES →
  size (stored_keys c ∪ list_to_set batch.*1) ≤ Z.to_nat (max_entries (handle c)) →
  ∃ c', store_many c batch = (Ok tt, c') ∧ stored_ok c' ∧
    Z.to_nat (max_entries (handle c')) = Z.to_nat (max_entries (handle c)) ∧
    stored_keys c' = stored_keys c ∪ list_to_set batch.*1 ∧ (∀ k, k ∈ batch.*1 → is_cached c' k = true) ∧
    (∀ k, is_cached c k = true → is_cached c' k = true).
Proof.
  intros [Hcap Hinv Hcount Hdisk] Hne Hnd Hvalid Hmax Hsize.
  destruct (put_fits (handle c) (database c) batch) as (ws & db' & Hstored); [done..|].
  assert (default None (head (disk c)) = None) as Hd by (by destruct Hdisk as [|? ? ->]).
  pose proof (put_many_step (handle c) None (database c) batch Hcap Hinv Hcount) as Hstep.
  rewrite (stored_put _ _ _ _ _ Hstored) in Hstep. destruct Hstep as (Hinv' & Hcount' & _).
  exists {| handle := handle c; database := db'; disk := tail (disk c) |}.
  assert (∀ k, k ∈ batch.*1 → is_cached {| handle := handle c; database := db'; disk := tail (disk c) |} k = true)
    as Hnew.
  { intros k Hk. destruct (stored_new _ _ _ _ _ k Hcap Hinv Hcount Hstored Hk) as [n Hn].
    unfold is_cached, stored_vectors. cbn [handle database]. by rewrite Hn. }
  split_and!; [|split; try done; by destruct Hdisk|done|by eapply stored_held|done|].
  - unfold store_many, stored_vectors. by rewrite Hd, (stored_put _ _ _ _ _ Hstored).
  - intros k Hk. destruct (decide (k ∈ batch.*1)) as [Hin|Hin]; [by apply Hnew|].
    unfold is_cached, stored_vectors in *. cbn [handle database] in *.
    by rewrite (stored_old _ _ _ _ _ k Hstored Hin).
Qed.

(** The embedding cache keeps the promises the sweep relies on. *)
#[export] Instance stored_vectors_laws : VectorCacheLaws StoredVectors := {|
  cache_ok := stored_ok;
  held := stored_keys;
  limit c := Z.to_nat (max_entries (handle c));
  storable := valid_vector;
  store_fits := stored_store_fits;
|}.

(** ** A concrete sweep *)

Module SweepExample.
Definition key_of (text : str) : str := content_key (lit "manifest") (λ s, s) text.
Definition texts : list str := [lit "x"; lit "y"; lit "x"].
Definition index (_ : nat) : Index := {| index_generation := 7; bodies := texts |}.
Definition clock (n : nat) : Z := Z.of_nat n.

Definition cache : StoredVectors :=
  {| handle := from_existing (lit "digest") 40; database := EmbeddingCacheExample.db; disk := [] |}.
Definition preparation : PreparationCache StoredVectors :=
  {| requested := 7; runs := ∅; completions := ∅; vectors := cache |}.

(** A worker that answers with one vector per input, and one that is always busy. *)
Definition embed_all (calls : nat) (inputs : list EmbeddingInput) : result (list (result Embedding)) * nat :=
  (Ok (Ok <$> replicate (length inputs) (EmbeddingCacheExample.axis 0)), S calls).
Definition busy (calls : nat) (inputs : list EmbeddingInput) : result (list (result Embedding)) * nat :=
  (Err "semantic_busy: no capacity", S calls).
Definition good : EmbeddingWorker (ClosureWorker nat) := closure_worker (λ _, false) embed_all.
Definition stuck : EmbeddingWorker (ClosureWorker nat) := closure_worker (λ _, false) busy.
Definition start : Sys StoredVectors (ClosureWorker nat) :=
  {| reads := 0; ticks := 0; slept := 0; prep := preparation; worker := {| closure := 0 |} |}.

Lemma axis_valid : valid_vector (EmbeddingCacheExample.axis 0).
Proof.
  exists EmbeddingCacheExample.unit_axis. split_and!; [vm_compute; reflexivity| |vm_compute; reflexivity].
  unfold EmbeddingCacheExample.unit_axis. constructor; [by vm_compute|]. apply Forall_replicate. by vm_compute.
Qed.
Lemma good_is_good : @good_worker StoredVectors _ _ (ClosureWorker nat) good.
Proof.
  intros w batch. eexists (replicate (length batch) (EmbeddingCacheExample.axis 0)), _.
  split_and!; [reflexivity|by rewrite length_replicate|]. apply Forall_replicate, axis_valid.
Qed.
Lemma is_stable : stable index 7 texts start.
Proof. by intros n _. Qed.
Lemma cache_is_ok : stored_ok cache.
Proof. split; [by vm_compute|apply EmbeddingCacheExample.db_inv|by vm_compute|constructor]. Qed.
Lemma cache_fits : size (stored_keys cache ∪ list_to_set (key_of <$> texts)) ≤ limit cache.
Proof. apply (bool_decide_unpack _). vm_compute. exact I. Qed.

Lemma sweep_completes_witness :
  ∃ r s', @prepare_generation StoredVectors _ (ClosureWorker nat) good key_of index clock 4 7 false start =
      (Ok (Some r), s') ∧
    state r = Completed ∧ cached r = 3%Z ∧
    ∀ text, text ∈ texts → is_cached (vectors (prep s')) (key_of text) = true.
Proof.
  apply (@sweep_completes StoredVectors _ _ (ClosureWorker nat) good key_of index clock 4 7 texts start);
    [exact good_is_good|exact is_stable|by vm_compute|cbn; lia| |exact cache_is_ok|exact cache_fits|].
  - intros g' [row Hrow]. discriminate Hrow.
  - intros text _. reflexivity.
Defined.

Definition outcome : result (option RunRecord) * Sys StoredVectors (ClosureWorker nat) :=
  @prepare_generation StoredVectors _ (ClosureWorker nat) good key_of index clock 4 7 false start.
Definition completed_run : RunRecord :=
  {| state := Completed; cursor := 3; total := 3; cached := 3; missing := 0; failures := 0; error := None |}.

Lemma completed_means_cached_witness :
  outcome.1 = Ok (Some completed_run) ∧ is_cached (vectors (prep outcome.2)) (key_of (lit "y")) = true.
Proof.
  assert (outcome.1 = Ok (Some completed_run)) as Hout by (vm_compute; reflexivity).
  split; [exact Hout|].
  apply (@completed_means_cached StoredVectors _ (ClosureWorker nat) good key_of index clock 4 7 texts false start
    completed_run outcome.2).
  - by intros n _.
  - intros ex Hex. discriminate Hex.
  - change (outcome = (Ok (Some completed_run), outcome.2)). rewrite <-Hout. apply surjective_pairing.
  - reflexivity.
  - right. left.
Defined.

Lemma sweep_reaches_outcome_witness :
  ∃ r s', @prepare_generation StoredVectors _ (ClosureWorker nat) stuck key_of index clock 4 7 false start =
      (Ok (Some r), s') ∧ terminal (state r) = true.
Proof.
  apply (@sweep_reaches_outcome StoredVectors _ (ClosureWorker nat) stuck key_of index clock 4 7 texts false start).
  - intros n m Hle. unfold clock. lia.
  - exact is_stable.
  - split; [intros g' [row Hrow]; discriminate Hrow|exact I].
  - by vm_compute.
  - cbn; lia.
Defined.
End SweepExample.
