(* ===== verification/Extract.v ===== *)
(** * What extraction produces

    Models the data of [src/src/extract.rs]: the facts extracted from one source
    file, and the language a path's extension selects. *)
From Stdlib Require Import Ascii String ZArith Lia.
From stdpp Require Import base numbers list gmap strings.
From S2P Require Import Prelude Order Text.

(** [extract::Definition]; offsets are [usize] bytes of the source. *)
Record DefinitionFact := MkDef {
  df_name : str;
  df_kind : str;
  df_start : nat;
  df_end : nat;
  df_container : option str;
}.

(** [extract::Occurrence]; [oc_target] and [oc_candidates] index definitions. *)
Record Occurrence := MkOcc {
  oc_name : str;
  oc_start : nat;
  oc_end : nat;
  oc_role : str;
  oc_target : option nat;
  oc_candidates : list nat;
  oc_provenance : str;
}.

(** [extract::Relationship]. *)
Record RelationshipFact := MkRel {
  re_source : nat;
  re_target : option nat;
  re_kind : str;
  re_evidence_start : nat;
  re_evidence_end : nat;
  re_provenance : str;
}.

(** [extract::Extraction]. *)
Record FileExtraction := MkExt {
  ex_language : str;
  ex_status : str;
  ex_definitions : list DefinitionFact;
  ex_occurrences : list Occurrence;
  ex_relationships : list RelationshipFact;
}.

Definition language_extensions : list (list string * string) :=
  [(["rs"], "rust");
   (["ts"; "tsx"; "mts"; "cts"], "typescript");
   (["js"; "jsx"; "mjs"; "cjs"], "javascript");
   (["cs"], "csharp");
   (["php"; "phtml"], "php");
   (["luau"; "lua"], "luau");
   (["dm"; "dme"; "dmf"], "dreammaker")]%string.

(** [path.rsplit('.').next().unwrap_or("")]. *)
Definition extension (path : str) : str := default [] (last (split_char "."%char path)).

Definition language (path : str) : str :=
  match find (λ row, existsb (λ e, extension path =s lit e) row.1) language_extensions with
  | Some row => lit row.2
  | None => lit "text"
  end.

(** The arm of [extract] for text without a parser. *)
Definition text_extraction : FileExtraction :=
  MkExt (lit "text") (lit "lexical_only") [] [] [].

Example language_of_rust : language (lit "src/main.rs") = lit "rust".
Proof. reflexivity. Qed.
Example language_of_bare : language (lit "rs") = lit "rust".
Proof. reflexivity. Qed.
