(* ===== verification/Regions.v ===== *)
(** * Cutting a source into regions

    Models [src/src/store/regions.rs]: the indexed regions of a source, cut at
    declarations and lines so that small declarations stay whole, the
    declaration that owns each region, and the expansion of identifiers for the
    full-text index. *)
From Stdlib Require Import Ascii String ZArith Lia Permutation Sorted.
From stdpp Require Import base numbers list gmap strings sorting.
From S2P Require Import Prelude Order Text QueryShape Snippets Extract.

Definition REGION_BYTES : nat := 4096.

Record RegionSpan := MkRegion { rg_start : nat; rg_end : nat; rg_definition : option nat }.
Record DefinitionSpan := MkSpan { sp_definition : nat; sp_start : nat; sp_end : nat }.
Inductive DefinitionNode := Node (span : DefinitionSpan) (children : list DefinitionNode).
Definition node_span (n : DefinitionNode) : DefinitionSpan := match n with Node s _ => s end.
Definition node_children (n : DefinitionNode) : list DefinitionNode := match n with Node _ c => c end.

(** ** Boundaries *)

(** [source[offset] & 0xc0 != 0x80]: not a continuation byte. *)
Definition is_utf8_boundary (source : str) (offset : nat) : bool :=
  (offset =? 0) || (offset =? length source)
  || match source !! offset with
     | Some c => negb (Z.land (bval c) 192 =? 128)%Z
     | None => false
     end.

(** [slice.iter().rposition(..)]. *)
Definition rposition {A} (f : A → bool) (l : list A) : option nat :=
  match list_find (λ x, f x = true) (reverse l) with
  | Some (i, _) => Some (length l - 1 - i)
  | None => None
  end.

(** [while candidate > start && !is_utf8_boundary(candidate) { candidate -= 1 }]. *)
Fixpoint back_to_boundary (source : str) (start candidate : nat) : nat :=
  match candidate with
  | O => O
  | S previous =>
      if (start <? candidate) && negb (is_utf8_boundary source candidate)
      then back_to_boundary source start previous
      else candidate
  end.

Definition split_boundary (source : str) (start limit : nat) : nat :=
  let newline := (λ offset, start + offset + 1) <$>
    rposition (λ byte, byte =c Snippets.newline) (take (limit - start) (drop start source)) in
  let boundary := default limit newline in
  if (boundary =? length source) || is_utf8_boundary source boundary then boundary
  else back_to_boundary source start boundary.

(** ** Declarations *)

Definition span_compare : DefinitionSpan → DefinitionSpan → comparison :=
  cmp_then (cmp_on sp_start Nat.compare)
    (cmp_then (cmp_rev (cmp_on sp_end Nat.compare)) (cmp_on sp_definition Nat.compare)).

(** [Vec::dedup_by_key] on [(start, end)]: equal neighbours keep the first. *)
Fixpoint dedup_spans (spans : list DefinitionSpan) : list DefinitionSpan :=
  match spans with
  | [] => []
  | a :: rest =>
      match dedup_spans rest with
      | b :: rest' =>
          if (sp_start a =? sp_start b) && (sp_end a =? sp_end b) then a :: rest' else a :: b :: rest'
      | [] => [a]
      end
  end.

Definition valid_span (source : str) (value : DefinitionFact) : bool :=
  (df_start value <? df_end value) && (df_end value <=? length source)
  && is_utf8_boundary source (df_start value) && is_utf8_boundary source (df_end value).

Definition candidate_spans (source : str) (definitions : list DefinitionFact) : list DefinitionSpan :=
  omap (λ '(definition, value),
    if valid_span source value then Some (MkSpan definition (df_start value) (df_end value)) else None)
    (imap pair definitions).

Definition valid_definition_spans (source : str) (definitions : list DefinitionFact) : list DefinitionSpan :=
  dedup_spans (sort_by span_compare (candidate_spans source definitions)).

(** Pops the open nodes whose span satisfies [closed] from the top of the stack;
    a popped node is attached to the one below it, or becomes a root.  [popped]
    is the node just popped, not yet attached. *)
Fixpoint close_nodes (closed : DefinitionSpan → bool) (roots popped stack : list DefinitionNode)
    : list DefinitionNode * list DefinitionNode :=
  match stack with
  | [] => (roots ++ popped, [])
  | Node span children :: stack =>
      let node := Node span (children ++ popped) in
      if closed span then close_nodes closed roots [node] stack else (roots, node :: stack)
  end.

(** The loop over the sorted spans; the stack holds its top first. *)
Fixpoint forest_loop (roots stack : list DefinitionNode) (spans : list DefinitionSpan)
    : list DefinitionNode * list DefinitionNode :=
  match spans with
  | [] => (roots, stack)
  | span :: spans =>
      let '(roots, stack) := close_nodes (λ top, sp_end top <=? sp_start span) roots [] stack in
      let crosses := match stack with node :: _ => sp_end (node_span node) <? sp_end span | [] => false end in
      forest_loop roots (if crosses then stack else Node span [] :: stack) spans
  end.

Definition definition_forest (spans : list DefinitionSpan) : list DefinitionNode :=
  let '(roots, stack) := forest_loop [] [] spans in
  (close_nodes (λ _, true) roots [] stack).1.

Definition span_size (s : DefinitionSpan) : nat := sp_end s - sp_start s.

Fixpoint collect_preferred_spans (node : DefinitionNode) : list RegionSpan :=
  match node with
  | Node span children =>
      if span_size span <=? REGION_BYTES
      then [MkRegion (sp_start span) (sp_end span) (Some (sp_definition span))]
      else flat_map collect_preferred_spans children
  end.

Definition region_compare : RegionSpan → RegionSpan → comparison :=
  cmp_then (cmp_on rg_start Nat.compare) (cmp_on rg_end Nat.compare).

Definition preferred_spans (spans : list DefinitionSpan) : list RegionSpan :=
  sort_by region_compare (flat_map collect_preferred_spans (definition_forest spans)).

(** [min_by_key(|span| (span.end - span.start, span.definition))]. *)
Fixpoint min_span (best : DefinitionSpan) (spans : list DefinitionSpan) : DefinitionSpan :=
  match spans with
  | [] => best
  | s :: spans =>
      let smaller := (span_size s <? span_size best)
                     || (span_size s =? span_size best) && (sp_definition s <? sp_definition best) in
      min_span (if smaller then s else best) spans
  end.

Definition containing_definition (start end_ : nat) (spans : list DefinitionSpan) : option nat :=
  match List.filter (λ s, (sp_start s <=? start) && (end_ <=? sp_end s)) spans with
  | [] => None
  | s :: rest => Some (sp_definition (min_span s rest))
  end.

(** ** Packing *)

(** [while preferred_index < len && preferred[preferred_index].end <= cursor]; the
    remaining spans stand for the index. *)
Fixpoint skip_closed (cursor : nat) (preferred : list RegionSpan) : list RegionSpan :=
  match preferred with
  | [] => []
  | span :: rest => if rg_end span <=? cursor then skip_closed cursor rest else preferred
  end.

(** The loop over [next_preferred]: the end reached and the spans left. *)
Fixpoint pack (source : str) (cursor limit end_ : nat) (preferred : list RegionSpan)
    : nat * list RegionSpan :=
  match preferred with
  | [] => (end_, [])
  | span :: rest =>
      if rg_start span <? cursor then pack source cursor limit end_ rest
      else if limit <=? rg_start span then (split_boundary source end_ limit, preferred)
      else if limit <? rg_end span then (rg_start span, preferred)
      else if rg_end span =? limit then (rg_end span, rest)
      else pack source cursor limit (rg_end span) rest
  end.

(** The end of the region that starts at [cursor]. *)
Definition region_end (source : str) (cursor : nat) (preferred : list RegionSpan) : nat :=
  let limit := Nat.min (cursor + REGION_BYTES) (length source) in
  let '(end_, next) := pack source cursor limit cursor preferred in
  let end_ :=
    if end_ =? cursor then split_boundary source cursor limit
    else if (end_ <? limit) && match next with [] => true | _ => false end
         then split_boundary source end_ limit
         else end_ in
  if (length source <? end_) || (end_ <=? cursor)
  then Nat.min (Nat.max limit (cursor + 1)) (length source)
  else end_.

(** The main loop; each region takes at least one byte, so a source of [n] bytes
    has at most [n] regions. *)
Fixpoint partition_loop (fuel : nat) (source : str) (spans : list DefinitionSpan) (cursor : nat)
    (preferred : list RegionSpan) : list RegionSpan :=
  match fuel with
  | O => []
  | S fuel =>
      if cursor <? length source then
        let preferred := skip_closed cursor preferred in
        let end_ := region_end source cursor preferred in
        MkRegion cursor end_ (containing_definition cursor end_ spans)
          :: partition_loop fuel source spans end_ preferred
      else []
  end.

Definition partition_source (source : str) (definitions : list DefinitionFact) : list RegionSpan :=
  match source with
  | [] => []
  | _ =>
      let spans := valid_definition_spans source definitions in
      partition_loop (length source) source spans 0 (preferred_spans spans)
  end.

(** ** Rows *)

Section rows.
Context `{UnicodeTables}.

(** The single character of a [char] value's decimal-digit test. *)
Definition is_digit_char (c : str) : bool := match c with [a] => is_ascii_digit a | _ => false end.

(** The loop of [expand_identifiers]. *)
Fixpoint expand_go (previous : str) (cs : list str) : str :=
  match cs with
  | [] => []
  | current :: rest =>
      (if (current =s lit "_") || negb (is_alphanumeric current) then lit " "
       else
         (if is_uppercase current
             && (is_lowercase previous || is_digit_char previous
                 || (is_uppercase previous
                     && match rest with next :: _ => is_lowercase next | [] => false end))
          then lit " " else [])
         ++ to_lowercase current)
      ++ expand_go current rest
  end.
Definition expand_identifiers (source : str) : str := expand_go (lit " ") (chars source).

(** A row of [regions] with its row of [documents]. *)
Record RegionRow := MkRegionRow {
  row_start : nat; row_end : nat; row_name : str; row_kind : str; row_body : str; row_expanded : str;
}.

(** The two [INSERT]s for one region; [path] names a region no declaration owns. *)
Definition region_row (path source : str) (definitions : list DefinitionFact) (region : RegionSpan)
    : RegionRow :=
  let '(name, kind) :=
    match rg_definition region with
    | Some index => match definitions !! index with
                    | Some d => (df_name d, df_kind d)
                    | None => (path, lit "file")
                    end
    | None => (path, lit "file")
    end in
  let body := from_utf8_lossy (take (rg_end region - rg_start region) (drop (rg_start region) source)) in
  MkRegionRow (rg_start region) (rg_end region) name kind body
    (expand_identifiers (name ++ lit " " ++ body)).

Definition insert_regions (path source : str) (definitions : list DefinitionFact) : list RegionRow :=
  region_row path source definitions <$> partition_source source definitions.

End rows.

(** ** Boundaries *)

Lemma rposition_bounds {A} (f : A → bool) l i :
  rposition f l = Some i → ∃ x, l !! i = Some x ∧ f x = true.
Proof.
  unfold rposition. destruct (list_find _ (reverse l)) as [[j x]|] eqn:E; [|done]. intros [= <-].
  apply list_find_Some in E as (Hj & Hf & _). exists x. split; [|done].
  apply reverse_lookup_Some in Hj as [Hj Hlt]. replace (length l - 1 - j) with (length l - S j) by lia. done.
Qed.

Lemma back_to_boundary_bounds source start candidate :
  start ≤ candidate →
  start ≤ back_to_boundary source start candidate ≤ candidate ∧
  (back_to_boundary source start candidate = start ∨
   is_utf8_boundary source (back_to_boundary source start candidate) = true) ∧
  ∀ k, back_to_boundary source start candidate < k ≤ candidate → is_utf8_boundary source k = false.
Proof.
  induction candidate as [|p IH]; intros Hle; cbn [back_to_boundary].
  { split_and!; [lia|lia|auto with lia|lia]. }
  destruct (start <? S p) eqn:Hs, (is_utf8_boundary source (S p)) eqn:Hb; simpl; bool_to_prop;
    try (split_and!; [lia|lia|by right|lia]); try (split_and!; [lia|lia|left; lia|lia]).
  destruct IH as (? & ? & Hk); [lia|]. split_and!; [lia|lia|done|].
  intros k Hle'. destruct (decide (k = S p)) as [->|]; [done|]. apply Hk. lia.
Qed.

Lemma split_boundary_bounds source start limit :
  start ≤ limit → limit ≤ length source → start ≤ split_boundary source start limit ≤ limit.
Proof.
  intros Hs Hl. unfold split_boundary. cbv zeta.
  set (boundary := default limit _).
  assert (start ≤ boundary ≤ limit) as Hb.
  { unfold boundary. destruct (rposition _ _) as [i|] eqn:E; simpl; [|lia].
    apply rposition_bounds in E as (x & Hx%lookup_lt_Some & _).
    rewrite length_take, length_drop in Hx. lia. }
  destruct (_ || _); [done|].
  destruct (back_to_boundary_bounds source start boundary) as [? _]; lia.
Qed.

Lemma split_boundary_is_boundary source start limit :
  start ≤ limit → limit ≤ length source → is_utf8_boundary source start = true →
  is_utf8_boundary source (split_boundary source start limit) = true.
Proof.
  intros Hs Hl Hstart. pose proof (split_boundary_bounds source start limit Hs Hl) as Hb.
  revert Hb. unfold split_boundary. cbv zeta. set (boundary := default limit _).
  destruct (boundary =? length source) eqn:He; simpl; bool_to_prop.
  { intros _. unfold is_utf8_boundary. rewrite He, (proj2 (Nat.eqb_eq _ (length source)) eq_refl).
    by rewrite orb_true_r. }
  destruct (is_utf8_boundary source boundary) eqn:E; [done|]. intros Hb.
  assert (start ≤ boundary) as Hle.
  { unfold boundary. destruct (rposition _ _); simpl; lia. }
  destruct (back_to_boundary_bounds source start boundary Hle) as (_ & [-> | ?] & _); done.
Qed.

(** ** A region is not empty and not too long *)

Lemma pack_bounds source cursor limit end_ preferred :
  end_ ≤ limit → limit ≤ length source → (pack source cursor limit end_ preferred).1 ≤ limit.
Proof.
  intros He Hl. revert end_ He. induction preferred as [|span rest IH]; intros end_ He; simpl; [done|].
  pose proof (split_boundary_bounds source end_ limit).
  destruct (rg_start span <? cursor) eqn:?; [by apply IH|].
  destruct (limit <=? rg_start span) eqn:?; [simpl; lia|].
  destruct (limit <? rg_end span) eqn:?; bool_to_prop; [simpl; lia|].
  destruct (rg_end span =? limit) eqn:?; bool_to_prop; simpl; [lia|by apply IH].
Qed.

Lemma region_end_bounds source cursor preferred :
  cursor < length source →
  cursor < region_end source cursor preferred ≤ length source ∧
  region_end source cursor preferred ≤ cursor + REGION_BYTES.
Proof.
  intros Hc. unfold region_end. cbv zeta.
  set (limit := Nat.min (cursor + REGION_BYTES) (length source)).
  assert (cursor < limit ≤ length source ∧ limit ≤ cursor + REGION_BYTES) as Hl.
  { subst limit. unfold REGION_BYTES. lia. }
  pose proof (pack_bounds source cursor limit cursor preferred) as Hp.
  destruct (pack source cursor limit cursor preferred) as [end_ next]. simpl in Hp.
  pose proof (split_boundary_bounds source cursor limit).
  pose proof (split_boundary_bounds source end_ limit).
  clearbody limit. unfold REGION_BYTES in *.
  destruct (end_ =? cursor) eqn:?; [|destruct ((end_ <? limit) && _) eqn:?]; simpl;
    destruct (_ || _) eqn:?; bool_to_prop; lia.
Qed.

(** The regions cover [start] to [stop] one after another, each with one to
    [REGION_BYTES] bytes. *)
Fixpoint tiles (start stop : nat) (regions : list RegionSpan) : Prop :=
  match regions with
  | [] => start = stop
  | r :: rest =>
      rg_start r = start ∧ start < rg_end r ≤ start + REGION_BYTES ∧ rg_end r ≤ stop ∧
      tiles (rg_end r) stop rest
  end.

Lemma partition_loop_tiles fuel source spans cursor preferred :
  cursor ≤ length source → length source - cursor ≤ fuel →
  tiles cursor (length source) (partition_loop fuel source spans cursor preferred).
Proof.
  revert cursor preferred. induction fuel as [|fuel IH]; intros cursor preferred Hc Hf; simpl; [lia|].
  destruct (cursor <? length source) eqn:Hlt; bool_to_prop; simpl; [|lia].
  pose proof (region_end_bounds source cursor (skip_closed cursor preferred) Hlt) as Hb.
  split_and!; [done|lia|lia|lia|]. apply IH; lia.
Qed.

(** ** Text boundaries *)

Lemma boundary_byte c : negb (Z.land (bval c) 192 =? 128)%Z = negb (is_cont c).
Proof. by_byte c. Qed.

Lemma is_utf8_boundary_spec source i :
  is_utf8_boundary source i = true ↔
  i = 0 ∨ i = length source ∨ ∃ c, source !! i = Some c ∧ is_cont c = false.
Proof.
  unfold is_utf8_boundary. rewrite !orb_true_iff, !Nat.eqb_eq. destruct (source !! i) as [c|] eqn:E.
  - rewrite boundary_byte, negb_true_iff. naive_solver.
  - naive_solver.
Qed.

Lemma Utf8_first c s : Utf8 (c :: s) → is_cont c = false.
Proof.
  intros H. inversion H as [|ch t Hc Ht Heq]. destruct (utf8_char_shape _ Hc) as (a & u & -> & Ha & _).
  by simplify_eq/=.
Qed.

(** Well-formed text splits at a boundary into well-formed texts. *)
Lemma Utf8_split s i :
  Utf8 s → is_utf8_boundary s i = true → Utf8 (take i s) ∧ Utf8 (drop i s).
Proof.
  intros H. revert i. induction H as [|c s Hc Hs IH]; intros i Hi.
  { rewrite take_nil, drop_nil. split; constructor. }
  destruct (decide (i = 0)) as [->|Hi0]; [rewrite take_0, drop_0; split; constructor; done|].
  destruct (decide (i < length c)) as [Hlt|Hge].
  - exfalso. destruct (utf8_char_shape _ Hc) as (a & t & -> & _ & Ht).
    apply is_utf8_boundary_spec in Hi as [?|[Hi|(b & Hb & Hcont)]]; [done|rewrite length_app in Hi; lia|].
    rewrite lookup_app_l in Hb by done. destruct i as [|i]; [done|]. simpl in Hb.
    rewrite Forall_lookup in Ht. rewrite (Ht _ _ Hb) in Hcont. done.
  - destruct (IH (i - length c)) as [Ht Hd].
    { apply is_utf8_boundary_spec. apply is_utf8_boundary_spec in Hi as [?|[Hi|(b & Hb & Hcont)]]; [done| |].
      - rewrite length_app in Hi. right. left. lia.
      - right. right. exists b. by rewrite lookup_app_r in Hb by lia. }
    rewrite take_app_ge, drop_app_ge by lia. split; [by constructor|done].
Qed.

(** A byte below 128 is a character: the text may be cut after it. *)
Lemma boundary_after_ascii s i c :
  Utf8 s → s !! i = Some c → in_range 0 127 c = true → is_utf8_boundary s (i + 1) = true.
Proof.
  intros Hs Hi Hc.
  assert (is_utf8_boundary s i = true) as Hb.
  { apply is_utf8_boundary_spec. right. right. exists c. split; [done|].
    revert Hc. unfold is_cont, in_range. rewrite andb_true_iff, andb_false_iff, !Z.leb_le, !Z.leb_gt. lia. }
  destruct (Utf8_split s i Hs Hb) as [_ Hd]. rewrite (drop_S _ _ _ Hi) in Hd.
  inversion Hd as [|ch t Hch Ht Heq]. destruct ch as [|a ch]; [done|]. simplify_eq/=.
  assert (ch = []) as ->.
  { unfold utf8_char_len in Hch. rewrite Hc in Hch. by destruct ch. }
  assert (t = drop (S i) s) as Hdrop by done.
  apply is_utf8_boundary_spec. destruct t as [|d t].
  - right. left. apply (f_equal length) in Hdrop. rewrite length_drop in Hdrop. simpl in Hdrop.
    apply lookup_lt_Some in Hi. lia.
  - right. right. exists d. split; [|by apply Utf8_first in Ht].
    rewrite <-(Nat.add_0_r (i + 1)), <-lookup_drop, Nat.add_1_r.
    by rewrite <-Hdrop.
Qed.

(** A character has at most four bytes: a boundary follows within four. *)
Lemma boundary_within_four s start limit :
  Utf8 s → is_utf8_boundary s start = true → start + 4 ≤ limit → limit ≤ length s →
  ∃ k, start < k ≤ limit ∧ is_utf8_boundary s k = true.
Proof.
  intros Hs Hb Hlim Hlen. destruct (Utf8_split s start Hs Hb) as [_ Hd].
  inversion Hd as [Hnil|c t Hc Ht Heq].
  { apply (f_equal length) in Hnil. rewrite length_drop in Hnil. simpl in Hnil. lia. }
  pose proof (utf8_char_len_bounds _ _ Hc) as [Hb4 _].
  exists (start + length c). split; [lia|]. apply is_utf8_boundary_spec.
  destruct t as [|d t].
  - right. left. apply (f_equal length) in Heq. rewrite length_app, length_drop in Heq. simpl in Heq. lia.
  - right. right. exists d. split; [|by apply Utf8_first in Ht].
    rewrite <-lookup_drop, <-Heq. by rewrite lookup_app_r, Nat.sub_diag by done.
Qed.

Lemma split_boundary_progress source start limit :
  Utf8 source → is_utf8_boundary source start = true → start < limit → limit ≤ length source →
  start + 4 ≤ limit ∨ limit = length source →
  start < split_boundary source start limit.
Proof.
  intros Hu Hb Hlt Hlen Hroom. unfold split_boundary. cbv zeta.
  destruct (rposition _ _) as [i|] eqn:E; cbn [fmap option_fmap option_map default from_option id].
  - apply rposition_bounds in E as (c & Hc & Hnl%bool_decide_eq_true).
    assert (is_utf8_boundary source (start + i + 1) = true) as ->; [|rewrite orb_true_r; lia].
    pose proof (lookup_lt_Some _ _ _ Hc) as Hi. rewrite length_take in Hi.
    rewrite lookup_take_lt, lookup_drop in Hc by lia.
    apply (boundary_after_ascii _ _ c); [done|done|]. by subst c.
  - change (default limit None) with limit.
    destruct ((limit =? length source) || is_utf8_boundary source limit) eqn:Hl; [done|].
    apply orb_false_iff in Hl as [Hl%Nat.eqb_neq Hl2].
    destruct Hroom as [Hroom | ?]; [|done].
    destruct (boundary_within_four source start limit Hu Hb Hroom Hlen) as (k & Hk & Hkb).
    destruct (back_to_boundary_bounds source start limit ltac:(lia)) as (Hr & _ & Hnone).
    destruct (decide (start < back_to_boundary source start limit)) as [|Hge]; [done|].
    rewrite (Hnone k) in Hkb by lia. done.
Qed.

(** ** The declaration forest is well nested *)

Abbreviation n_start n := (sp_start (node_span n)).
Abbreviation n_end n := (sp_end (node_span n)).

(** A node's children follow one another inside its span. *)
Inductive wf_node : DefinitionNode → Prop :=
| wf_Node span children :
    sp_start span < sp_end span → siblings (sp_start span) children (sp_end span) →
    wf_node (Node span children)
with siblings : nat → list DefinitionNode → nat → Prop :=
| siblings_nil lo hi : lo ≤ hi → siblings lo [] hi
| siblings_cons lo node rest hi :
    lo ≤ n_start node → wf_node node → siblings (n_end node) rest hi →
    siblings lo (node :: rest) hi.

Scheme wf_node_rec := Minimality for wf_node Sort Prop
  with siblings_rec := Minimality for siblings Sort Prop.
Combined Scheme wf_nodes_ind from wf_node_rec, siblings_rec.

Lemma wf_node_span n : wf_node n → n_start n < n_end n.
Proof. by destruct 1. Qed.

Lemma siblings_le lo nodes hi : siblings lo nodes hi → lo ≤ hi.
Proof.
  induction nodes as [|n nodes IH] in lo |- *; intros H; inversion H; subst; [done|].
  pose proof (wf_node_span n ltac:(done)). specialize (IH (n_end n) ltac:(done)). lia.
Qed.

(** Appending a last sibling. *)
Lemma siblings_snoc lo nodes node hi :
  siblings lo nodes hi → wf_node node → lo ≤ n_start node → n_end node ≤ hi →
  Forall (λ n, n_end n ≤ n_start node) nodes →
  siblings lo (nodes ++ [node]) hi.
Proof.
  induction nodes as [|n nodes IH] in lo |- *; intros Hs Hw Hlo Hhi Hb; simpl.
  { constructor; [done|done|]. by constructor. }
  inversion Hs; subst. apply Forall_cons in Hb as [Hn Hb].
  constructor; [done|done|]. by apply IH.
Qed.

(** Replacing the last sibling by one with the same span. *)
Lemma siblings_replace lo nodes n n' hi :
  node_span n = node_span n' → wf_node n' →
  siblings lo (nodes ++ [n]) hi → siblings lo (nodes ++ [n']) hi.
Proof.
  intros Hsp Hw. induction nodes as [|m nodes IH] in lo |- *; simpl; intros H; inversion H; subst.
  - constructor; [by rewrite <-Hsp|done|]. by rewrite <-Hsp.
  - constructor; auto.
Qed.

(** The state of the forest: attaching every open node gives well-nested roots. *)
Fixpoint open_ok (hi : nat) (roots popped stack : list DefinitionNode) : Prop :=
  match stack with
  | [] => siblings 0 (roots ++ popped) hi
  | Node span children :: rest =>
      wf_node (Node span (children ++ popped)) ∧ open_ok hi roots [Node span (children ++ popped)] rest
  end.

Lemma close_nodes_open hi closed roots popped stack :
  open_ok hi roots popped stack →
  let '(roots', stack') := close_nodes closed roots popped stack in open_ok hi roots' [] stack'.
Proof.
  induction stack as [|[span children] rest IH] in popped |- *; simpl; [by rewrite app_nil_r|].
  intros [Hw Ho]. destruct (closed span); [by apply IH|]. simpl. by rewrite app_nil_r.
Qed.

Lemma open_ok_replace hi roots n n' stack :
  node_span n = node_span n' → wf_node n' → open_ok hi roots [n] stack → open_ok hi roots [n'] stack.
Proof.
  induction stack as [|[span children] rest IH] in n, n' |- *; simpl; intros Hsp Hw.
  - by apply siblings_replace.
  - intros [Hwn Ho].
    assert (wf_node (Node span (children ++ [n']))) as Hw'.
    { inversion Hwn; subst. constructor; [done|]. by eapply siblings_replace. }
    split; [done|]. by apply (IH (Node span (children ++ [n]))).
Qed.

(** Everything attached so far ends by [pos], and open nodes start by it. *)
Definition placed_before (pos : nat) (roots stack : list DefinitionNode) : Prop :=
  Forall (λ n, n_end n ≤ pos) roots ∧
  Forall (λ n, n_start n ≤ pos ∧ Forall (λ c, n_end c ≤ pos) (node_children n)) stack.

Lemma close_nodes_placed pos pos' roots popped stack :
  pos ≤ pos' → placed_before pos roots stack → Forall (λ n, n_end n ≤ pos') popped →
  let '(roots', stack') := close_nodes (λ top, sp_end top <=? pos') roots popped stack in
  placed_before pos' roots' stack' ∧
  match stack' with n :: _ => pos' < n_end n | [] => True end.
Proof.
  intros Hle [Hr Hs] Hp. revert popped Hp.
  assert (Forall (λ n, n_end n ≤ pos') roots) as Hr' by (eapply Forall_impl; [exact Hr|]; simpl; lia).
  induction Hs as [|[span children] rest [Hst Hch] Hrest IH]; intros popped Hp; simpl.
  { split; [|done]. split; [by apply Forall_app|constructor]. }
  destruct (sp_end span <=? pos') eqn:Hc; bool_to_prop.
  - apply IH. by constructor.
  - split; [|done]. split; [done|]. constructor.
    + simpl in *. split; [lia|]. apply Forall_app. split; [|done].
      eapply Forall_impl; [exact Hch|]. simpl. lia.
    + eapply Forall_impl; [exact Hrest|]. intros n [??]. split; [lia|].
      eapply Forall_impl; [done|]. simpl. lia.
Qed.

(** Pushing a span that the top contains. *)
Lemma open_ok_push hi roots stack span :
  open_ok hi roots [] stack → placed_before (sp_start span) roots stack →
  sp_start span < sp_end span → sp_end span ≤ hi →
  match stack with n :: _ => sp_end span ≤ n_end n | [] => True end →
  open_ok hi roots [] (Node span [] :: stack).
Proof.
  intros Ho [Hr Hs] Hlt Hhi Htop. simpl.
  assert (wf_node (Node span [])) as Hw by (constructor; [done|]; constructor; lia).
  split; [done|]. destruct stack as [|[s children] rest]; simpl in *.
  - rewrite app_nil_r in Ho. apply siblings_snoc; simpl; [done|done|lia|done|done].
  - destruct Ho as [Hwt Ho]. apply Forall_cons in Hs as [[Hst Hch] _]. simpl in *.
    rewrite app_nil_r in *. inversion Hwt; subst.
    assert (wf_node (Node s (children ++ [Node span []]))) as Hw2.
    { constructor; [done|]. by apply siblings_snoc. }
    split; [done|]. by apply (open_ok_replace _ _ (Node s children)).
Qed.

(** Spans by start, and the longer one first. *)
Definition span_before (a b : DefinitionSpan) : Prop :=
  sp_start a < sp_start b ∨ (sp_start a = sp_start b ∧ sp_end b ≤ sp_end a).

Lemma forest_loop_open hi pos roots stack spans :
  open_ok hi roots [] stack → placed_before pos roots stack →
  Forall (λ s, pos ≤ sp_start s ∧ sp_start s < sp_end s ∧ sp_end s ≤ hi) spans →
  StronglySorted span_before spans →
  let '(roots', stack') := forest_loop roots stack spans in open_ok hi roots' [] stack'.
Proof.
  induction spans as [|span spans IH] in pos, roots, stack |- *; intros Ho Hp Hb Hsort; simpl; [done|].
  apply Forall_cons in Hb as [(Hpos & Hlt & Hhi) Hb]. apply StronglySorted_inv in Hsort as [Hsort Hall].
  pose proof (close_nodes_open hi (λ top, sp_end top <=? sp_start span) roots [] stack Ho) as Ho'.
  pose proof (close_nodes_placed pos (sp_start span) roots [] stack Hpos Hp ltac:(constructor)) as Hp'.
  destruct (close_nodes _ roots [] stack) as [roots' stack']. destruct Hp' as [Hp' _].
  assert (Forall (λ s, sp_start span ≤ sp_start s ∧ sp_start s < sp_end s ∧ sp_end s ≤ hi) spans) as Hb'.
  { rewrite Forall_forall in Hb, Hall |- *. intros s Hs. destruct (Hb s Hs) as (? & ? & ?), (Hall s Hs); lia. }
  apply (IH (sp_start span)); [| |done|done].
  - destruct stack' as [|n rest]; [by apply open_ok_push|].
    destruct (n_end n <? sp_end span) eqn:Hc; [done|]. bool_to_prop. by apply open_ok_push.
  - destruct Hp' as [Hr Hs]. split; [done|].
    destruct (match stack' with [] => false | _ => _ end); [done|]. constructor; [|done]. simpl. split; [done|constructor].
Qed.

Lemma close_all_empty roots popped stack : (close_nodes (λ _, true) roots popped stack).2 = [].
Proof. induction stack as [|[??] ? IH] in popped |- *; simpl; [done|apply IH]. Qed.

Lemma definition_forest_wf hi spans :
  Forall (λ s, sp_start s < sp_end s ∧ sp_end s ≤ hi) spans → StronglySorted span_before spans →
  siblings 0 (definition_forest spans) hi.
Proof.
  intros Hb Hs. unfold definition_forest.
  pose proof (forest_loop_open hi 0 [] [] spans) as H.
  destruct (forest_loop [] [] spans) as [roots stack].
  assert (open_ok hi roots [] stack) as Ho.
  { apply H; [simpl; constructor; lia|by split; constructor| |done].
    eapply Forall_impl; [exact Hb|]. simpl. intros; lia. }
  pose proof (close_nodes_open hi (λ _, true) roots [] stack Ho) as Hc.
  pose proof (close_all_empty roots [] stack) as Hn.
  destruct (close_nodes (λ _, true) roots [] stack) as [r st]. simpl in *. subst st. simpl in Hc.
  by rewrite app_nil_r in Hc.
Qed.

(** ** What the forest holds *)

Fixpoint flatten (n : DefinitionNode) : list DefinitionSpan :=
  match n with Node span children => span :: flat_map flatten children end.
Definition spans_of (nodes : list DefinitionNode) : list DefinitionSpan := flat_map flatten nodes.

#[local] Arguments spans_of : simpl never.

Lemma elem_of_flat_map {A B} (f : A → list B) l x : x ∈ flat_map f l ↔ ∃ y, y ∈ l ∧ x ∈ f y.
Proof. rewrite list_elem_of_In, in_flat_map. setoid_rewrite list_elem_of_In. naive_solver. Qed.

Lemma spans_of_app a b x : x ∈ spans_of (a ++ b) ↔ x ∈ spans_of a ∨ x ∈ spans_of b.
Proof. unfold spans_of. by rewrite flat_map_app, elem_of_app. Qed.

Lemma spans_of_cons span children rest x :
  x ∈ spans_of (Node span children :: rest) ↔ x = span ∨ x ∈ spans_of children ∨ x ∈ spans_of rest.
Proof. unfold spans_of. simpl. rewrite elem_of_cons, elem_of_app. done. Qed.

Lemma spans_of_nil x : x ∈ spans_of [] ↔ False.
Proof. unfold spans_of. simpl. by rewrite elem_of_nil. Qed.

Create Rewrite HintDb forest_rw.
#[local] Hint Rewrite spans_of_app spans_of_cons spans_of_nil : forest_rw.

Lemma close_nodes_spans closed roots popped stack x :
  let '(roots', stack') := close_nodes closed roots popped stack in
  x ∈ spans_of roots' ∨ x ∈ spans_of stack' ↔
  x ∈ spans_of roots ∨ x ∈ spans_of popped ∨ x ∈ spans_of stack.
Proof.
  induction stack as [|[span children] rest IH] in popped |- *; simpl.
  { autorewrite with forest_rw. tauto. }
  destruct (closed span).
  - specialize (IH [Node span (children ++ popped)]). destruct (close_nodes _ _ _ rest).
    rewrite IH. autorewrite with forest_rw. tauto.
  - autorewrite with forest_rw. tauto.
Qed.

(** Two declarations cross when each holds one end of the other. *)
Definition crossing (a b : DefinitionSpan) : Prop :=
  sp_start a < sp_start b ∧ sp_start b < sp_end a ∧ sp_end a < sp_end b.

Lemma forest_loop_sound roots stack spans x :
  let '(roots', stack') := forest_loop roots stack spans in
  x ∈ spans_of roots' ∨ x ∈ spans_of stack' → x ∈ spans_of roots ∨ x ∈ spans_of stack ∨ x ∈ spans.
Proof.
  induction spans as [|span spans IH] in roots, stack |- *; simpl; [tauto|].
  pose proof (close_nodes_spans (λ top, sp_end top <=? sp_start span) roots [] stack x) as Hc.
  destruct (close_nodes _ roots [] stack) as [roots' stack']. rewrite spans_of_nil in Hc.
  set (crosses := match stack' with [] => false | _ => _ end).
  specialize (IH roots' (if crosses then stack' else Node span [] :: stack')).
  destruct (forest_loop _ _ spans) as [roots'' stack'']. intros Hx. apply IH in Hx.
  rewrite elem_of_cons. destruct crosses; [tauto|].
  revert Hx. autorewrite with forest_rw. tauto.
Qed.

Lemma forest_loop_complete pos roots stack spans :
  placed_before pos roots stack →
  (∀ a b, (a ∈ spans_of roots ∨ a ∈ spans_of stack ∨ a ∈ spans) → b ∈ spans → ¬ crossing a b) →
  (∀ a, a ∈ stack → Forall (span_before (node_span a)) spans) →
  Forall (λ s, pos ≤ sp_start s) spans → StronglySorted span_before spans →
  ∀ x, x ∈ spans_of roots ∨ x ∈ spans_of stack ∨ x ∈ spans →
  let '(roots', stack') := forest_loop roots stack spans in x ∈ spans_of roots' ∨ x ∈ spans_of stack'.
Proof.
  induction spans as [|span spans IH] in pos, roots, stack |- *; simpl; intros Hp Hcross Hst Hpos Hsort x Hx.
  { rewrite elem_of_nil in Hx. tauto. }
  apply Forall_cons in Hpos as [Hpos Hposs]. apply StronglySorted_inv in Hsort as [Hsort Hall].
  pose proof (close_nodes_placed pos (sp_start span) roots [] stack Hpos Hp ltac:(constructor)) as Hp'.
  pose proof (close_nodes_spans (λ top, sp_end top <=? sp_start span) roots [] stack) as Hc.
  assert (∀ n, n ∈ (close_nodes (λ top, sp_end top <=? sp_start span) roots [] stack).2 →
    ∃ m, m ∈ stack ∧ node_span m = node_span n) as Hsub.
  { clear. generalize (@nil DefinitionNode). induction stack as [|[s ch] rest IH]; intros popped n; simpl.
    { by intros ?%elem_of_nil. }
    destruct (sp_end s <=? sp_start span).
    - intros Hn. apply IH in Hn as (m & ? & ?). exists m. split; [by right|done].
    - intros [-> | Hn]%elem_of_cons; [exists (Node s ch); split; [by left|done]|exists n; split; [by right|done]]. }
  destruct (close_nodes _ roots [] stack) as [roots' stack']. destruct Hp' as [Hp' Htop]. simpl in Hsub.
  setoid_rewrite spans_of_nil in Hc.
  assert (match stack' with n :: _ => n_end n <? sp_end span | [] => false end = false) as ->.
  { destruct stack' as [|[s ch] rest]; [done|]. apply Nat.ltb_ge. simpl in *.
    destruct (Hsub (Node s ch)) as (m & Hm & Hms); [by left|]. simpl in Hms.
    specialize (Hst m Hm). rewrite Hms in Hst. apply Forall_cons in Hst as [Hb _].
    assert (s ∈ spans_of stack) as Hin.
    { destruct m as [ms mch]. simpl in Hms. subst ms. unfold spans_of. rewrite elem_of_flat_map.
      exists (Node s mch). split; [done|]. simpl. by left. }
    pose proof (Hcross s span ltac:(auto) ltac:(by left)) as Hnc. unfold crossing in Hnc.
    destruct Hb; lia. }
  apply (IH (sp_start span)); [| | | |done|].
  - destruct Hp' as [Hr Hs]. split; [done|]. constructor; [|done]. simpl. split; [done|constructor].
  - intros a b Ha Hb. apply Hcross; [|by right]. rewrite spans_of_cons, !spans_of_nil in Ha.
    specialize (Hc a). rewrite elem_of_cons. tauto.
  - intros a [-> | Ha]%elem_of_cons; [done|]. destruct (Hsub a Ha) as (m & Hm & <-).
    by apply Hst in Hm as [_ ?]%Forall_cons.
  - eapply Forall_impl; [exact Hall|]. intros s [?|[? ?]]; lia.
  - rewrite spans_of_cons, !spans_of_nil. specialize (Hc x). rewrite elem_of_cons in Hx. tauto.
Qed.

Lemma definition_forest_sound spans x : x ∈ spans_of (definition_forest spans) → x ∈ spans.
Proof.
  unfold definition_forest. pose proof (forest_loop_sound [] [] spans x) as H.
  destruct (forest_loop [] [] spans) as [roots stack].
  pose proof (close_nodes_spans (λ _, true) roots [] stack x) as Hc.
  destruct (close_nodes _ roots [] stack) as [r st]. simpl.
  rewrite !spans_of_nil in *. tauto.
Qed.

Lemma definition_forest_complete spans x :
  (∀ a b, a ∈ spans → b ∈ spans → ¬ crossing a b) → StronglySorted span_before spans →
  x ∈ spans → x ∈ spans_of (definition_forest spans).
Proof.
  intros Hcross Hsort Hx. unfold definition_forest.
  pose proof (forest_loop_complete 0 [] [] spans) as H.
  destruct (forest_loop [] [] spans) as [roots stack].
  assert (x ∈ spans_of roots ∨ x ∈ spans_of stack) as Hin.
  { apply H; [by split; constructor| |by intros a ?%elem_of_nil| |done|auto].
    - intros a b Ha. rewrite !spans_of_nil in Ha. apply Hcross. tauto.
    - apply Forall_forall. lia. }
  pose proof (close_nodes_spans (λ _, true) roots [] stack x) as Hc.
  pose proof (close_all_empty roots [] stack) as Hn.
  destruct (close_nodes _ roots [] stack) as [r st]. simpl in *. subst st.
  rewrite !spans_of_nil in Hc. tauto.
Qed.

(** ** Preferred spans *)

(** Regions that follow one another from [lo] to [hi], each small. *)
Fixpoint ordered_in (lo : nat) (l : list RegionSpan) (hi : nat) : Prop :=
  match l with
  | [] => lo ≤ hi
  | p :: rest =>
      lo ≤ rg_start p ∧ rg_start p < rg_end p ≤ rg_start p + REGION_BYTES ∧ ordered_in (rg_end p) rest hi
  end.

Lemma ordered_in_weaken lo lo' l hi hi' :
  lo' ≤ lo → hi ≤ hi' → ordered_in lo l hi → ordered_in lo' l hi'.
Proof. induction l as [|p l IH] in lo, lo' |- *; simpl; [lia|]. intros ?? (? & ? & ?). split_and!; try lia. by eapply IH. Qed.

Lemma ordered_in_le lo l hi : ordered_in lo l hi → lo ≤ hi.
Proof. induction l as [|p l IH] in lo |- *; simpl; [done|]. intros (? & ? & H%IH). lia. Qed.

Lemma ordered_in_app lo a mid b hi : ordered_in lo a mid → ordered_in mid b hi → ordered_in lo (a ++ b) hi.
Proof.
  induction a as [|p a IH] in lo |- *; simpl; intros Ha Hb; [by eapply ordered_in_weaken|].
  destruct Ha as (? & ? & ?). split_and!; try lia. by apply IH.
Qed.

Lemma ordered_in_elem lo l hi p :
  ordered_in lo l hi → p ∈ l →
  lo ≤ rg_start p ∧ rg_start p < rg_end p ≤ rg_start p + REGION_BYTES ∧ rg_end p ≤ hi.
Proof.
  induction l as [|q l IH] in lo |- *; simpl; [by intros ? ?%elem_of_nil|].
  intros (? & ? & Ho) [-> | Hp]%elem_of_cons.
  - apply ordered_in_le in Ho. lia.
  - destruct (IH _ Ho Hp) as (? & ? & ?). lia.
Qed.

Lemma collect_ordered :
  (∀ n, wf_node n → ordered_in (n_start n) (collect_preferred_spans n) (n_end n)) ∧
  (∀ lo nodes hi, siblings lo nodes hi → ordered_in lo (flat_map collect_preferred_spans nodes) hi).
Proof.
  apply wf_nodes_ind.
  - intros span children Hlt _ IH. simpl.
    destruct (span_size span <=? REGION_BYTES) eqn:Hs; [|done].
    unfold span_size in Hs. bool_to_prop. simpl. lia.
  - done.
  - intros lo [span children] rest hi Hlo _ IHn _ IHr. simpl in *.
    eapply ordered_in_app; [|exact IHr]. eapply ordered_in_weaken; [exact Hlo|reflexivity|exact IHn].
Qed.

Lemma flatten_within :
  (∀ n, wf_node n → ∀ s, s ∈ flatten n → n_start n ≤ sp_start s ∧ sp_end s ≤ n_end n) ∧
  (∀ lo nodes hi, siblings lo nodes hi → ∀ s, s ∈ spans_of nodes → lo ≤ sp_start s ∧ sp_end s ≤ hi).
Proof.
  apply wf_nodes_ind.
  - intros span children Hlt _ IH s [-> | Hs]%elem_of_cons; [simpl; lia|]. by apply IH.
  - intros lo hi _ s Hs. by apply spans_of_nil in Hs.
  - intros lo n rest hi Hlo Hn IHn Hr IHr s Hs. unfold spans_of in Hs. simpl in Hs.
    apply siblings_le in Hr. apply wf_node_span in Hn.
    apply elem_of_app in Hs as [Hs | Hs]; [apply IHn in Hs|apply IHr in Hs]; lia.
Qed.

(** A small declaration of the forest lies in a preferred span. *)
Lemma collect_covers :
  (∀ n, wf_node n → ∀ s, s ∈ flatten n → span_size s ≤ REGION_BYTES →
    ∃ p, p ∈ collect_preferred_spans n ∧ rg_start p ≤ sp_start s ∧ sp_end s ≤ rg_end p) ∧
  (∀ lo nodes hi, siblings lo nodes hi → ∀ s, s ∈ spans_of nodes → span_size s ≤ REGION_BYTES →
    ∃ p, p ∈ flat_map collect_preferred_spans nodes ∧ rg_start p ≤ sp_start s ∧ sp_end s ≤ rg_end p).
Proof.
  apply wf_nodes_ind.
  - intros span children Hlt Hsib IH s Hs Hsize.
    pose proof (proj1 flatten_within (Node span children) (wf_Node _ _ Hlt Hsib) s Hs) as Hw.
    simpl. destruct (span_size span <=? REGION_BYTES) eqn:Hsp; bool_to_prop.
    + eexists. split; [by left|]. done.
    + apply elem_of_cons in Hs as [-> | Hs]; [lia|]. by apply IH.
  - intros lo hi _ s Hs. by apply spans_of_nil in Hs.
  - intros lo n rest hi Hlo Hn IHn Hr IHr s Hs Hsize. unfold spans_of in Hs. simpl in *.
    setoid_rewrite elem_of_app.
    apply elem_of_app in Hs as [Hs | Hs]; [destruct (IHn s Hs Hsize) as (p & ? & ?)|
      destruct (IHr s Hs Hsize) as (p & ? & ?)]; eauto.
Qed.

Lemma ordered_region_sorted lo l hi : ordered_in lo l hi → StronglySorted (cmp_le region_compare) l.
Proof.
  induction l as [|p l IH] in lo |- *; simpl; [constructor|]. intros (? & ? & Ho).
  constructor; [by eapply IH|]. apply Forall_forall. intros q Hq.
  destruct (ordered_in_elem _ _ _ _ Ho Hq) as (? & ? & ?).
  unfold cmp_le, region_compare, cmp_then, cmp_on, then_with.
  destruct (Nat.compare_spec (rg_start p) (rg_start q)); [lia|done|lia].
Qed.

#[export] Instance region_comparator : Comparator region_compare.
Proof. unfold region_compare. apply _. Qed.
#[export] Instance span_comparator : Comparator span_compare.
Proof. unfold span_compare. apply _. Qed.

(** ** The valid spans *)

Lemma elem_of_candidate_spans source definitions s :
  s ∈ candidate_spans source definitions ↔
  ∃ d, definitions !! sp_definition s = Some d ∧ valid_span source d = true ∧
       sp_start s = df_start d ∧ sp_end s = df_end d.
Proof.
  unfold candidate_spans. rewrite list_elem_of_omap. split.
  - intros ([i d] & Hin & Hs). destruct (valid_span source d) eqn:Hv; [|done]. simplify_eq/=.
    apply list_elem_of_lookup in Hin as [j Hj]. rewrite list_lookup_imap, fmap_Some in Hj.
    destruct Hj as (d' & Hd & [= -> ->]). eauto.
  - intros (d & Hd & Hv & Hst & Hen). exists (sp_definition s, d). split.
    + apply list_elem_of_lookup. exists (sp_definition s). by rewrite list_lookup_imap, Hd.
    + rewrite Hv. destruct s; simpl in *. by subst.
Qed.

Lemma dedup_spans_subset spans s : s ∈ dedup_spans spans → s ∈ spans.
Proof.
  induction spans as [|a rest IH]; simpl; [done|].
  destruct (dedup_spans rest) as [|b rest'] eqn:E; [set_solver|]. case_match; set_solver.
Qed.

Lemma dedup_spans_covers spans s :
  s ∈ spans → ∃ s', s' ∈ dedup_spans spans ∧ sp_start s' = sp_start s ∧ sp_end s' = sp_end s.
Proof.
  induction spans as [|a rest IH]; [by intros ?%elem_of_nil|]. intros [-> | Hs]%elem_of_cons; simpl.
  - destruct (dedup_spans rest) as [|b rest']; [exists a; set_solver|]. case_match; exists a; set_solver.
  - destruct (IH Hs) as (s' & Hs' & H1 & H2).
    destruct (dedup_spans rest) as [|b rest']; [by apply elem_of_nil in Hs'|].
    destruct (_ && _) eqn:E; bool_to_prop; [|exists s'; set_solver].
    apply elem_of_cons in Hs' as [-> | Hs']; [exists a; split; [by left|lia]|exists s'; set_solver].
Qed.

Lemma dedup_spans_sorted {R : DefinitionSpan → DefinitionSpan → Prop} spans :
  StronglySorted R spans → StronglySorted R (dedup_spans spans).
Proof.
  induction 1 as [|a rest Hr IH Ha]; simpl; [constructor|].
  assert (Forall (R a) (dedup_spans rest)) as Ha'.
  { rewrite Forall_forall in *. intros s Hs%dedup_spans_subset. by apply Ha. }
  destruct (dedup_spans rest) as [|b rest']; [by repeat constructor|].
  case_match; [|by constructor]. apply StronglySorted_inv in IH as [IH _]. apply Forall_cons in Ha' as [_ Ha'].
  by constructor.
Qed.

Lemma span_compare_before a b : cmp_le span_compare a b → span_before a b.
Proof.
  unfold cmp_le, span_compare, cmp_then, cmp_rev, cmp_on, then_with, span_before.
  destruct (Nat.compare_spec (sp_start a) (sp_start b)); [|auto|done].
  destruct (Nat.compare_spec (sp_end b) (sp_end a)); [intros; right; lia..|done].
Qed.

Lemma valid_definition_spans_sorted source definitions :
  StronglySorted span_before (valid_definition_spans source definitions).
Proof.
  apply dedup_spans_sorted.
  pose proof (sort_by_sorted span_compare (candidate_spans source definitions)) as Hs.
  induction Hs as [|a l Hl IH Ha]; constructor; [done|].
  eapply Forall_impl; [exact Ha|]. apply span_compare_before.
Qed.

Lemma valid_definition_spans_sound source definitions s :
  s ∈ valid_definition_spans source definitions →
  ∃ d, definitions !! sp_definition s = Some d ∧ valid_span source d = true ∧
       sp_start s = df_start d ∧ sp_end s = df_end d.
Proof. intros Hs%dedup_spans_subset. rewrite elem_of_sort_by in Hs. by apply elem_of_candidate_spans. Qed.

Lemma valid_definition_spans_covers source definitions d :
  d ∈ definitions → valid_span source d = true →
  ∃ s, s ∈ valid_definition_spans source definitions ∧ sp_start s = df_start d ∧ sp_end s = df_end d.
Proof.
  intros [i Hi]%list_elem_of_lookup Hv.
  apply (dedup_spans_covers _ (MkSpan i (df_start d) (df_end d))).
  rewrite elem_of_sort_by. apply elem_of_candidate_spans. eauto.
Qed.

Lemma valid_span_true source d :
  valid_span source d = true →
  df_start d < df_end d ∧ df_end d ≤ length source ∧
  is_utf8_boundary source (df_start d) = true ∧ is_utf8_boundary source (df_end d) = true.
Proof. unfold valid_span. intros H. bool_to_prop. done. Qed.

Lemma preferred_spans_ordered source definitions :
  let spans := valid_definition_spans source definitions in
  ordered_in 0 (preferred_spans spans) (length source).
Proof.
  intros spans.
  assert (siblings 0 (definition_forest spans) (length source)) as Hw.
  { apply definition_forest_wf; [|apply valid_definition_spans_sorted].
    apply Forall_forall. intros s (d & _ & Hv & -> & ->)%valid_definition_spans_sound.
    apply valid_span_true in Hv. lia. }
  apply (proj2 collect_ordered) in Hw. unfold preferred_spans.
  by rewrite sort_by_id by by eapply ordered_region_sorted.
Qed.

(** ** Small declarations stay whole *)

(** Whether a cut at [k] leaves a region whole. *)
Definition keeps (k : nat) (p : RegionSpan) : Prop := k ≤ rg_start p ∨ rg_end p ≤ k.

Lemma ordered_starts lo l hi : ordered_in lo l hi → Forall (λ p, lo ≤ rg_start p) l.
Proof. intros Ho. apply Forall_forall. intros p Hp. by destruct (ordered_in_elem _ _ _ _ Ho Hp). Qed.

Lemma keeps_before k lo l hi : ordered_in lo l hi → k ≤ lo → Forall (keeps k) l.
Proof. intros Ho Hk. eapply Forall_impl; [by eapply ordered_starts|]. intros p ?. left. simpl in *. lia. Qed.

(** Packing ends between two preferred spans, past those it left behind. *)
Lemma pack_keeps source cursor limit end_ preferred hi :
  ordered_in end_ preferred hi → cursor ≤ end_ ≤ limit → limit ≤ length source →
  let '(e, next) := pack source cursor limit end_ preferred in
  end_ ≤ e ∧ Forall (keeps e) preferred ∧ (next = [] → Forall (λ p, rg_end p ≤ e) preferred).
Proof.
  induction preferred as [|p rest IH] in end_ |- *; simpl; intros Ho Hc Hl; [done|].
  destruct Ho as (Hst & Hsz & Ho).
  assert ((rg_start p <? cursor) = false) as -> by (apply Nat.ltb_ge; lia).
  pose proof (split_boundary_bounds source end_ limit) as Hsp.
  destruct (limit <=? rg_start p) eqn:H1; bool_to_prop.
  { split_and!; [lia| |done]. constructor; [left; lia|]. by apply (keeps_before _ _ _ _ Ho); lia. }
  destruct (limit <? rg_end p) eqn:H2; bool_to_prop.
  { split_and!; [lia| |done]. constructor; [by left|]. apply (keeps_before _ _ _ _ Ho). lia. }
  destruct (rg_end p =? limit) eqn:H3; bool_to_prop.
  { split_and!; [lia| |].
    - constructor; [by right|]. by apply (keeps_before _ _ _ _ Ho).
    - intros ->. by repeat constructor. }
  specialize (IH (rg_end p) Ho ltac:(lia) Hl). destruct (pack _ _ _ _ rest) as [e next].
  destruct IH as (He & Hk & Hn). split_and!; [lia| |].
  - constructor; [by right|done].
  - intros Hnil. constructor; [done|by apply Hn].
Qed.

Lemma region_end_keeps source cursor preferred :
  cursor < length source → ordered_in cursor preferred (length source) →
  Forall (keeps (region_end source cursor preferred)) preferred.
Proof.
  intros Hc Ho. unfold region_end. cbv zeta.
  set (limit := Nat.min (cursor + REGION_BYTES) (length source)).
  assert (cursor < limit ≤ length source ∧ (limit = cursor + REGION_BYTES ∨ limit = length source)) as [Hl Hlim].
  { subst limit. unfold REGION_BYTES. lia. }
  pose proof (pack_keeps source cursor limit cursor preferred (length source) Ho ltac:(lia) ltac:(lia)) as Hp.
  pose proof (pack_bounds source cursor limit cursor preferred ltac:(lia) ltac:(lia)) as Hb.
  assert ((pack source cursor limit cursor preferred).1 = cursor →
    ∀ k, k ≤ limit → Forall (keeps k) preferred) as Hstuck.
  { intros He k Hk. destruct preferred as [|p rest]; [constructor|].
    destruct Ho as (Hst & Hsz & Ho).
    assert (limit ≤ rg_start p) as Hlp.
    { revert He. simpl. assert ((rg_start p <? cursor) = false) as -> by (apply Nat.ltb_ge; lia).
      destruct (limit <=? rg_start p) eqn:H1; bool_to_prop; [done|].
      pose proof (ordered_in_le _ _ _ Ho).
      destruct (limit <? rg_end p) eqn:H2; bool_to_prop; simpl; [lia|].
      destruct (rg_end p =? limit) eqn:H3; bool_to_prop; simpl; [lia|].
      pose proof (pack_keeps source cursor limit (rg_end p) rest (length source) Ho ltac:(lia) ltac:(lia)) as H4.
      destruct (pack _ _ _ _ rest). simpl. lia. }
    constructor; [left; lia|]. apply (keeps_before _ _ _ _ Ho). lia. }
  destruct (pack source cursor limit cursor preferred) as [e next]. simpl in Hb, Hstuck.
  destruct Hp as (He & Hk & Hn).
  destruct (e =? cursor) eqn:Hec; bool_to_prop.
  - subst e. apply Hstuck; [done|].
    pose proof (split_boundary_bounds source cursor limit ltac:(lia) ltac:(lia)).
    destruct (_ || _); lia.
  - destruct ((e <? limit) && match next with [] => true | _ => false end) eqn:Hlast.
    + apply andb_prop in Hlast as [Hlt%Nat.ltb_lt Hnext]. destruct next; [|done].
      pose proof (split_boundary_bounds source e limit ltac:(lia) ltac:(lia)).
      assert (((length source <? split_boundary source e limit) || (split_boundary source e limit <=? cursor)) = false) as ->.
      { apply orb_false_iff. rewrite Nat.ltb_ge, Nat.leb_gt. lia. }
      eapply Forall_impl; [by apply Hn|]. intros p Hp. right. simpl in *. lia.
    + assert (((length source <? e) || (e <=? cursor)) = false) as -> by
        (apply orb_false_iff; rewrite Nat.ltb_ge, Nat.leb_gt; lia). done.
Qed.

Lemma skip_closed_ordered cursor lo preferred hi :
  ordered_in lo preferred hi → Forall (keeps cursor) preferred → cursor ≤ hi →
  ordered_in cursor (skip_closed cursor preferred) hi ∧
  ∀ p, p ∈ preferred → rg_end p ≤ cursor ∨ p ∈ skip_closed cursor preferred.
Proof.
  intros Ho Hk Hc. induction preferred as [|p rest IH] in lo, Ho, Hk |- *; simpl; [split; [done|by intros ? ?%elem_of_nil]|].
  destruct Ho as (? & ? & Ho). apply Forall_cons in Hk as [Hp Hk].
  destruct (rg_end p <=? cursor) eqn:E; bool_to_prop.
  - destruct (IH _ Ho Hk) as [? Hin]. split; [done|].
    intros q [-> | Hq]%elem_of_cons; [by left|by apply Hin].
  - split; [|by right]. simpl. destruct Hp; [|lia]. done.
Qed.

Lemma partition_loop_after fuel source spans cursor preferred r :
  r ∈ partition_loop fuel source spans cursor preferred → cursor ≤ rg_end r.
Proof.
  induction fuel as [|fuel IH] in cursor, preferred |- *; simpl; [by intros ?%elem_of_nil|].
  destruct (cursor <? length source) eqn:Hlt; bool_to_prop; [|by intros ?%elem_of_nil].
  pose proof (region_end_bounds source cursor (skip_closed cursor preferred) Hlt).
  intros [-> | Hr]%elem_of_cons; [simpl; lia|]. apply IH in Hr. lia.
Qed.

Lemma partition_loop_keeps fuel source spans cursor preferred lo :
  cursor ≤ length source →
  ordered_in lo preferred (length source) → Forall (keeps cursor) preferred →
  ∀ r, r ∈ partition_loop fuel source spans cursor preferred → Forall (keeps (rg_end r)) preferred.
Proof.
  induction fuel as [|fuel IH] in cursor, preferred, lo |- *; simpl; intros Hc Ho Hk r; [by intros ?%elem_of_nil|].
  destruct (cursor <? length source) eqn:Hlt; bool_to_prop; [|by intros ?%elem_of_nil].
  destruct (skip_closed_ordered cursor lo preferred _ Ho Hk ltac:(lia)) as [Ho' Hsub].
  pose proof (region_end_keeps source cursor _ Hlt Ho') as Hk'.
  pose proof (region_end_bounds source cursor (skip_closed cursor preferred) Hlt) as Hb.
  set (e := region_end source cursor (skip_closed cursor preferred)) in *.
  assert (∀ k, cursor ≤ k → Forall (keeps k) (skip_closed cursor preferred) → Forall (keeps k) preferred) as Hall.
  { intros k Hck Hf. rewrite Forall_forall in *. intros p Hp.
    destruct (Hsub p Hp) as [?|?]; [right; lia|by apply Hf]. }
  intros [-> | Hr]%elem_of_cons; [simpl; apply Hall; [lia|done]|].
  pose proof (partition_loop_after _ _ _ _ _ _ Hr) as Her.
  apply Hall; [lia|]. eapply IH; [|exact Ho'|exact Hk'|exact Hr]. lia.
Qed.

(** A cover with no cut inside [a, b) has a region that holds it. *)
Lemma tiles_holds start stop regions a b :
  tiles start stop regions → start ≤ a → a < b ≤ stop →
  (∀ r, r ∈ regions → rg_end r ≤ a ∨ b ≤ rg_end r) →
  ∃ r, r ∈ regions ∧ rg_start r ≤ a ∧ b ≤ rg_end r.
Proof.
  induction regions as [|r rest IH] in start |- *; simpl; [lia|].
  intros (Hst & Hsz & Hle & Ht) Ha Hab Hcut.
  destruct (Hcut r ltac:(by left)) as [Hr|Hr].
  - destruct (IH (rg_end r) Ht Hr Hab) as (q & ? & ?); [intros q Hq; apply Hcut; by right|].
    exists q. split; [by right|done].
  - exists r. split; [by left|]. lia.
Qed.

Lemma partition_source_tiles source definitions : tiles 0 (length source) (partition_source source definitions).
Proof.
  unfold partition_source. destruct source as [|c source0] eqn:E; [done|]. rewrite <-E.
  apply partition_loop_tiles; lia.
Qed.

Lemma partition_source_keeps source definitions r :
  r ∈ partition_source source definitions →
  Forall (keeps (rg_end r)) (preferred_spans (valid_definition_spans source definitions)).
Proof.
  pose proof (preferred_spans_ordered source definitions) as Ho. cbv zeta in Ho.
  unfold partition_source. destruct source as [|c source'] eqn:E; [by intros ?%elem_of_nil|].
  rewrite <-E in *. apply (partition_loop_keeps _ _ _ _ _ 0); [lia|exact Ho|].
  eapply keeps_before; [exact Ho|lia].
Qed.

(** No two valid declarations of a source cross. *)
Definition laminar (source : str) (definitions : list DefinitionFact) : Prop :=
  ∀ a b, a ∈ definitions → b ∈ definitions → valid_span source a = true → valid_span source b = true →
  ¬ (df_start a < df_start b ∧ df_start b < df_end a ∧ df_end a < df_end b).

(** Regions, declarations stay whole: when declarations nest properly,
    every declaration of at most 4096 bytes lies inside a single region. *)
Theorem small_definitions_whole (source : str) (definitions : list DefinitionFact) (d : DefinitionFact) :
  laminar source definitions → d ∈ definitions → valid_span source d = true →
  df_end d - df_start d ≤ REGION_BYTES →
  ∃ r, r ∈ partition_source source definitions ∧ rg_start r ≤ df_start d ∧ df_end d ≤ rg_end r.
Proof.
  intros Hlam Hd Hv Hsize. pose proof (valid_span_true _ _ Hv) as (Hlt & Hle & _ & _).
  set (spans := valid_definition_spans source definitions).
  destruct (valid_definition_spans_covers source definitions d Hd Hv) as (s & Hs & Hss & Hse).
  assert (∃ p, p ∈ preferred_spans spans ∧ rg_start p ≤ sp_start s ∧ sp_end s ≤ rg_end p)
    as (p & Hp & Hps & Hpe).
  { assert (siblings 0 (definition_forest spans) (length source)) as Hw.
    { apply definition_forest_wf; [|apply valid_definition_spans_sorted].
      apply Forall_forall. intros t (e & _ & Ht & -> & ->)%valid_definition_spans_sound.
      apply valid_span_true in Ht. lia. }
    setoid_rewrite elem_of_sort_by.
    apply (proj2 collect_covers _ _ _ Hw); [|unfold span_size; lia].
    apply definition_forest_complete; [|apply valid_definition_spans_sorted|done].
    intros a b (da & Ha & Hva & Has & Hae)%valid_definition_spans_sound
      (db & Hb & Hvb & Hbs & Hbe)%valid_definition_spans_sound.
    unfold crossing. rewrite Has, Hae, Hbs, Hbe.
    apply Hlam; try done; by eapply list_elem_of_lookup_2. }
  apply (tiles_holds 0 (length source)); [apply partition_source_tiles|lia|lia|].
  intros r Hr%partition_source_keeps. rewrite Forall_forall in Hr. destruct (Hr p Hp); lia.
Qed.

Lemma small_definitions_whole_witness :
  let source := lit "fn a() {}" in
  let d := MkDef (lit "a") (lit "function") 0 9 None in
  ∃ r, r ∈ partition_source source [d] ∧ rg_start r ≤ 0 ∧ 9 ≤ rg_end r.
Proof.
  intros source d. apply (small_definitions_whole source [d] d).
  - intros a b ->%list_elem_of_singleton ->%list_elem_of_singleton _ _. lia.
  - by apply list_elem_of_singleton.
  - vm_compute. reflexivity.
  - vm_compute. lia.
Defined.

(** ** Regions of well-formed text *)

Lemma preferred_spans_sound spans p :
  p ∈ preferred_spans spans → ∃ s, s ∈ spans ∧ rg_start p = sp_start s ∧ rg_end p = sp_end s.
Proof.
  unfold preferred_spans. rewrite elem_of_sort_by. intros Hp.
  assert (∀ n, ∀ p, p ∈ collect_preferred_spans n →
    ∃ s, s ∈ flatten n ∧ rg_start p = sp_start s ∧ rg_end p = sp_end s) as Hn.
  { fix go 1. intros [span children] q. simpl. destruct (span_size span <=? REGION_BYTES).
    - intros ->%list_elem_of_singleton. exists span. split; [by left|done].
    - intros Hq. cut (∃ s, s ∈ flat_map flatten children ∧ rg_start q = sp_start s ∧ rg_end q = sp_end s).
      { intros (s & ? & ?). exists s. split; [by right|done]. }
      revert q Hq. induction children as [|n children IH]; intros q; simpl; [by intros ?%elem_of_nil|].
      setoid_rewrite elem_of_app. intros [Hq|Hq].
      + destruct (go n q Hq) as (s & ? & ?). eauto.
      + destruct (IH q Hq) as (s & ? & ?). eauto. }
  apply elem_of_flat_map in Hp as (n & Hnf & Hp). destruct (Hn n p Hp) as (s & Hs & ?).
  exists s. split; [|done]. apply definition_forest_sound. unfold spans_of. apply elem_of_flat_map. eauto.
Qed.

Lemma preferred_boundaries source definitions p :
  p ∈ preferred_spans (valid_definition_spans source definitions) →
  is_utf8_boundary source (rg_start p) = true ∧ is_utf8_boundary source (rg_end p) = true.
Proof.
  intros (s & (d & _ & Hv & -> & ->)%valid_definition_spans_sound & -> & ->)%preferred_spans_sound.
  by apply valid_span_true in Hv as (_ & _ & ? & ?).
Qed.

Definition cut_ok (source : str) (p : RegionSpan) : Prop :=
  is_utf8_boundary source (rg_start p) = true ∧ is_utf8_boundary source (rg_end p) = true.

Lemma pack_boundary source cursor limit end_ preferred :
  is_utf8_boundary source end_ = true → end_ ≤ limit → limit ≤ length source →
  Forall (cut_ok source) preferred →
  is_utf8_boundary source (pack source cursor limit end_ preferred).1 = true.
Proof.
  intros Hb He Hl Hp. induction Hp as [|p rest [Hps Hpe] _ IH] in end_, Hb, He |- *; simpl; [done|].
  destruct (rg_start p <? cursor); [by apply IH|].
  destruct (limit <=? rg_start p); [by apply split_boundary_is_boundary|].
  destruct (limit <? rg_end p) eqn:H; bool_to_prop; [done|].
  destruct (rg_end p =? limit) eqn:H2; [done|]. by apply IH.
Qed.

Lemma region_end_boundary source cursor preferred :
  Utf8 source → is_utf8_boundary source cursor = true → cursor < length source →
  ordered_in cursor preferred (length source) → Forall (cut_ok source) preferred →
  is_utf8_boundary source (region_end source cursor preferred) = true.
Proof.
  intros Hu Hb Hc Ho Hp. unfold region_end. cbv zeta.
  set (limit := Nat.min (cursor + REGION_BYTES) (length source)).
  assert (cursor < limit ≤ length source ∧ (cursor + 4 ≤ limit ∨ limit = length source)) as [Hl Hlim].
  { subst limit. unfold REGION_BYTES. lia. }
  pose proof (pack_boundary source cursor limit cursor preferred Hb ltac:(lia) ltac:(lia) Hp) as He.
  pose proof (pack_bounds source cursor limit cursor preferred ltac:(lia) ltac:(lia)) as Hle.
  pose proof (pack_keeps source cursor limit cursor preferred _ Ho ltac:(lia) ltac:(lia)) as Hge.
  destruct (pack source cursor limit cursor preferred) as [e next]. simpl in He, Hle. destruct Hge as [Hge _].
  set (e' := if e =? cursor then _ else _).
  assert (is_utf8_boundary source e' = true ∧ cursor < e' ≤ length source) as [Hb' He'].
  { subst e'. destruct (e =? cursor) eqn:Hec; bool_to_prop; [|destruct (_ && _)].
    - pose proof (split_boundary_bounds source cursor limit ltac:(lia) ltac:(lia)).
      pose proof (split_boundary_progress source cursor limit Hu Hb ltac:(lia) ltac:(lia) Hlim).
      split; [apply split_boundary_is_boundary; [lia|lia|done]|lia].
    - pose proof (split_boundary_bounds source e limit ltac:(lia) ltac:(lia)).
      split; [apply split_boundary_is_boundary; [lia|lia|done]|lia].
    - split; [done|lia]. }
  assert (((length source <? e') || (e' <=? cursor)) = false) as ->; [|done].
  apply orb_false_iff. rewrite Nat.ltb_ge, Nat.leb_gt. lia.
Qed.

Lemma skip_closed_subset cursor preferred p : p ∈ skip_closed cursor preferred → p ∈ preferred.
Proof. induction preferred as [|q rest IH]; simpl; [done|]. case_match; set_solver. Qed.

Lemma partition_loop_boundary fuel source spans cursor preferred lo :
  Utf8 source → is_utf8_boundary source cursor = true → cursor ≤ length source →
  ordered_in lo preferred (length source) → Forall (keeps cursor) preferred →
  Forall (cut_ok source) preferred →
  Forall (cut_ok source) (partition_loop fuel source spans cursor preferred).
Proof.
  intros Hu. induction fuel as [|fuel IH] in cursor, preferred, lo |- *; simpl; intros Hb Hc Ho Hk Hp; [constructor|].
  destruct (cursor <? length source) eqn:Hlt; bool_to_prop; [|constructor].
  destruct (skip_closed_ordered cursor lo preferred _ Ho Hk ltac:(lia)) as [Ho' _].
  assert (Forall (cut_ok source) (skip_closed cursor preferred)) as Hp'.
  { rewrite Forall_forall in *. intros p Hin%skip_closed_subset. by apply Hp. }
  pose proof (region_end_boundary source cursor _ Hu Hb Hlt Ho' Hp') as He.
  pose proof (region_end_bounds source cursor (skip_closed cursor preferred) Hlt).
  constructor; [done|]. apply (IH _ _ cursor); [done|lia|done|by apply region_end_keeps|done].
Qed.

Lemma partition_source_boundaries source definitions :
  Utf8 source → Forall (cut_ok source) (partition_source source definitions).
Proof.
  intros Hu. pose proof (preferred_spans_ordered source definitions) as Ho. cbv zeta in Ho.
  unfold partition_source. destruct source as [|c source'] eqn:E; [constructor|]. rewrite <-E in *.
  apply (partition_loop_boundary _ _ _ _ _ 0); [done|done|lia|exact Ho|by eapply keeps_before; [exact Ho|lia]|].
  apply Forall_forall. intros p. apply preferred_boundaries.
Qed.

Definition region_bytes (source : str) (r : RegionSpan) : str :=
  take (rg_end r - rg_start r) (drop (rg_start r) source).

Lemma Utf8_slice source a b :
  Utf8 source → a ≤ b → b ≤ length source →
  is_utf8_boundary source a = true → is_utf8_boundary source b = true →
  Utf8 (take (b - a) (drop a source)).
Proof.
  intros Hu Hab Hbl Ha Hb. destruct (Utf8_split source a Hu Ha) as [_ Hd].
  apply (Utf8_split _ (b - a)) in Hd as [Hd _]; [done|].
  apply is_utf8_boundary_spec. rewrite length_drop.
  apply is_utf8_boundary_spec in Hb as [->|[->|(c & Hc & Hcont)]]; [left; lia|right; left; lia|].
  right. right. exists c. rewrite lookup_drop. by replace (a + (b - a)) with b by lia.
Qed.

(** Decoding well-formed bytes changes nothing. *)
Lemma from_utf8_lossy_valid s : Utf8 s → from_utf8_lossy s = s.
Proof.
  intros Hs. unfold from_utf8_lossy.
  assert (∀ fuel, length s ≤ fuel → from_utf8_lossy_go fuel s = s) as Hgo; [|by apply Hgo].
  induction Hs as [|c s Hc Hs IH]; intros fuel Hf; [by destruct fuel|].
  pose proof (utf8_char_len_bounds _ _ Hc). rewrite length_app in Hf.
  destruct fuel as [|fuel]; [lia|]. destruct c as [|a c]; [done|].
  change ((a :: c) ++ s) with (a :: (c ++ s)) at 1. cbn [from_utf8_lossy_go].
  change (a :: (c ++ s)) with ((a :: c) ++ s). rewrite utf8_char_len_app by done.
  rewrite take_app_length, drop_app_length. f_equal. apply IH. simpl in *. lia.
Qed.

Lemma tiles_bytes source start regions :
  tiles start (length source) regions → start ≤ length source →
  concat (region_bytes source <$> regions) = drop start source.
Proof.
  induction regions as [|r rest IH] in start |- *; csimpl; intros Ht Hs.
  { subst start. by rewrite drop_all. }
  destruct Ht as (Hst & Hsz & Hle & Ht). rewrite (IH (rg_end r)) by done.
  unfold region_bytes. rewrite Hst.
  rewrite <-(take_drop (rg_end r - start) (drop start source)) at 2. f_equal.
  rewrite drop_drop. f_equal. lia.
Qed.

(** C23. Regions, coverage: the regions of any source follow one another from
    its first byte to its last, each with 1 to 4096 bytes; a well-formed text is
    cut only between characters, so the indexed bodies, read in order, are
    exactly the source. *)
Theorem regions_cover_source `{UnicodeTables} (path source : str) (definitions : list DefinitionFact) :
  tiles 0 (length source) (partition_source source definitions) ∧
  concat (region_bytes source <$> partition_source source definitions) = source ∧
  (utf8_valid source = true →
   Forall (λ r, utf8_valid (region_bytes source r) = true) (partition_source source definitions) ∧
   concat (row_body <$> insert_regions path source definitions) = source).
Proof.
  pose proof (partition_source_tiles source definitions) as Ht.
  assert (concat (region_bytes source <$> partition_source source definitions) = source) as Hc
    by (by rewrite (tiles_bytes _ 0) by (done || lia)).
  split_and!; [done|done|]. intros Hu%utf8_valid_iff.
  assert (Forall (λ r, Utf8 (region_bytes source r)) (partition_source source definitions)) as Hall.
  { pose proof (partition_source_boundaries source definitions Hu) as Hb. rewrite Forall_forall in *.
    intros r Hr. destruct (Hb r Hr) as [Hs He].
    assert (rg_start r < rg_end r ≤ length source) as Hle.
    { clear -Ht Hr. revert Ht Hr. generalize 0. induction (partition_source source definitions) as [|q rest IH];
        intros lo; simpl; [by intros _ ?%elem_of_nil|]. intros (Hst & Hsz & Hle & Ht) [-> | Hr]%elem_of_cons; [lia|by eapply IH]. }
    apply Utf8_slice; [done|lia|lia|done|done]. }
  split; [by eapply Forall_impl; [exact Hall|]; intros; apply utf8_valid_iff|].
  rewrite <-Hc at 2. f_equal. unfold insert_regions. rewrite <-list_fmap_compose.
  apply list_fmap_ext. intros i r Hr. rewrite Forall_lookup in Hall. specialize (Hall i r Hr).
  unfold compose, region_row. destruct (match rg_definition r with Some _ => _ | None => _ end). simpl.
  by apply from_utf8_lossy_valid.
Qed.

(** ** The owner of a region *)

Lemma min_span_spec best spans :
  min_span best spans ∈ best :: spans ∧ ∀ s, s ∈ best :: spans → span_size (min_span best spans) ≤ span_size s.
Proof.
  induction spans as [|a spans IH] in best |- *; simpl.
  { split; [by left|]. by intros s ->%list_elem_of_singleton. }
  set (smaller := _ || _). destruct (IH (if smaller then a else best)) as [Hin Hmin].
  assert (span_size (if smaller then a else best) ≤ span_size a ∧
          span_size (if smaller then a else best) ≤ span_size best) as [Ha Hb].
  { subst smaller. destruct (span_size a <? span_size best) eqn:E; bool_to_prop; simpl; [lia|].
    destruct (span_size a =? span_size best) eqn:E2; bool_to_prop; simpl; [destruct (_ <? _); lia|lia]. }
  split.
  - destruct smaller; set_solver.
  - intros s [-> | [-> | Hs]%elem_of_cons]%elem_of_cons.
    + etrans; [apply Hmin; by left|done].
    + etrans; [apply Hmin; by left|done].
    + apply Hmin. by right.
Qed.

Definition holds_region (d : DefinitionFact) (r : RegionSpan) : Prop :=
  df_start d ≤ rg_start r ∧ rg_end r ≤ df_end d.

Lemma containing_definition_spec source definitions r :
  match containing_definition (rg_start r) (rg_end r) (valid_definition_spans source definitions) with
  | None => ∀ d, d ∈ definitions → valid_span source d = true → ¬ holds_region d r
  | Some index => ∃ d, definitions !! index = Some d ∧ valid_span source d = true ∧ holds_region d r ∧
      ∀ d', d' ∈ definitions → valid_span source d' = true → holds_region d' r →
        df_end d - df_start d ≤ df_end d' - df_start d'
  end.
Proof.
  unfold containing_definition, holds_region.
  set (spans := valid_definition_spans source definitions).
  set (f := λ s, (sp_start s <=? rg_start r) && (rg_end r <=? sp_end s)).
  assert (∀ s, s ∈ List.filter f spans ↔ s ∈ spans ∧ sp_start s ≤ rg_start r ∧ rg_end r ≤ sp_end s) as Hf.
  { intros s. rewrite list_elem_of_In, filter_In, <-list_elem_of_In. unfold f.
    by rewrite andb_true_iff, !Nat.leb_le. }
  assert (∀ d, d ∈ definitions → valid_span source d = true →
    df_start d ≤ rg_start r ∧ rg_end r ≤ df_end d →
    ∃ s, s ∈ List.filter f spans ∧ sp_start s = df_start d ∧ sp_end s = df_end d) as Hcover.
  { intros d Hd Hv Hh. destruct (valid_definition_spans_covers source definitions d Hd Hv) as (s & Hs & Hss & Hse).
    exists s. rewrite Hf, Hss, Hse. done. }
  destruct (List.filter f spans) as [|s rest].
  - intros d Hd Hv Hh. destruct (Hcover d Hd Hv Hh) as (s & Hs & _). by apply elem_of_nil in Hs.
  - destruct (min_span_spec s rest) as [Hin Hmin]. apply Hf in Hin as (Hin & Hss & Hse).
    apply valid_definition_spans_sound in Hin as (d & Hd & Hv & Hds & Hde).
    exists d. rewrite <-Hds, <-Hde. split_and!; [done..|].
    intros d' Hd' Hv' Hh'. destruct (Hcover d' Hd' Hv' Hh') as (s' & Hs' & <- & <-). by apply Hmin.
Qed.

(** Regions, ownership: a region's row is named by the smallest valid
    declaration that holds all of it, and by the file when none does. *)
Theorem region_owner_innermost (source : str) (definitions : list DefinitionFact) (r : RegionSpan) :
  r ∈ partition_source source definitions →
  match rg_definition r with
  | None => ∀ d, d ∈ definitions → valid_span source d = true → ¬ holds_region d r
  | Some index => ∃ d, definitions !! index = Some d ∧ valid_span source d = true ∧ holds_region d r ∧
      ∀ d', d' ∈ definitions → valid_span source d' = true → holds_region d' r →
        df_end d - df_start d ≤ df_end d' - df_start d'
  end.
Proof.
  intros Hr.
  assert (rg_definition r = containing_definition (rg_start r) (rg_end r) (valid_definition_spans source definitions))
    as ->; [|apply containing_definition_spec].
  unfold partition_source in Hr. destruct source as [|c source']; [by apply elem_of_nil in Hr|].
  revert Hr. generalize (length (c :: source')) at 1, 0, (preferred_spans (valid_definition_spans (c :: source') definitions)).
  induction n as [|fuel IH]; intros cursor preferred; simpl; [by intros ?%elem_of_nil|].
  case_match; [|by intros ?%elem_of_nil]. intros [-> | Hr]%elem_of_cons; [done|by eapply IH].
Qed.

Lemma region_owner_innermost_witness :
  let source := lit "fn a() {}" in
  let d := MkDef (lit "a") (lit "function") 0 9 None in
  ∃ e, [d] !! 0 = Some e ∧ valid_span source e = true.
Proof.
  intros source d.
  destruct (region_owner_innermost source [d] (MkRegion 0 9 (Some 0))) as (e & He & Hv & _); [|by exists e].
  apply list_elem_of_singleton. vm_compute. reflexivity.
Defined.
