(* ===== verification/FilterDiagnosis.v ===== *)
(** * Explaining an empty filtered result

    Models [src/src/search/path_filter/filter_diagnosis.rs]: how many indexed
    paths each [file:] value matched, the nearest names when it matched none, a
    [lang:] value no file has, and filters that only fail together.  The [files]
    table is the list of its rows; SQLite's [lower] folds ASCII, its [length]
    counts characters and its text order is the byte order. *)
From Stdlib Require Import Ascii String ZArith Lia Permutation Sorted.
From stdpp Require Import base numbers list gmap strings sorting.
From S2P Require Import Prelude Order Text Paths PathFilter QueryShape Hits Diff.

Definition NEAREST_PATHS : nat := 3.
Definition NEAREST_CANDIDATES : nat := 400.
Definition NEAREST_KEY_CHARS : nat := 4.

(** A row of [files]: its path and its language. *)
Record FileRow := MkFileRow { row_path : str; row_language : str }.

(** ** Edit distance: two rows of the Levenshtein table *)

(** The inner loop, writing [current[column + 1]] from the row above and the
    cell to the left. *)
Fixpoint distance_columns (previous : list nat) (byte : ascii) (column : nat) (right_ : str)
    (current : list nat) : list nat :=
  match right_ with
  | [] => current
  | other :: right_ =>
      let substitution := previous !!! column + (if byte =c other then 0 else 1) in
      let cell := Nat.min (Nat.min substitution (previous !!! (column + 1) + 1))
                          (current !!! column + 1) in
      distance_columns previous byte (column + 1) right_ (<[column + 1 := cell]> current)
  end.

(** The outer loop; the rows are swapped after each byte of [left]. *)
Fixpoint distance_rows (right_ : str) (row : nat) (left_ : str) (previous current : list nat) : list nat :=
  match left_ with
  | [] => previous
  | byte :: left_ =>
      let current := distance_columns previous byte 0 right_ (<[0 := row + 1]> current) in
      distance_rows right_ (row + 1) left_ current previous
  end.

Definition edit_distance (left_ right_ : str) : nat :=
  distance_rows right_ 0 left_ (seq 0 (length right_ + 1)) (replicate (length right_ + 1) 0)
    !!! length right_.

(** ** Names *)

(** [trim_end_matches] with a set of bytes. *)
Definition trim_end_set (set : list ascii) (s : str) : str :=
  reverse (drop_while (λ c, bool_decide (c ∈ set)) (reverse s)).

Definition name_stem (name : str) : str :=
  trim_end_set ["_"%char; "-"%char]
    (match split_once "."%char name with Some (stem, _) => stem | None => name end).

(** How a component's name relates to the stem: it contains it, is contained in
    it, or starts with the same characters. *)
Definition relation_strength (name stem key : str) : option nat :=
  if contains stem name then Some 0
  else if (NEAREST_KEY_CHARS <=? length name) && contains name stem then Some 1
  else if starts_with key name then Some 2
  else None.

(** The loop over [path.rsplit('/').enumerate()]; [end_] is the end of the
    component being looked at. *)
Fixpoint related_prefix_go (path stem key : str) (depth end_ : nat) (components : list str)
    : option ((nat * nat * nat) * str) :=
  match components with
  | [] => None
  | component :: components =>
      let start := end_ - length component in
      let name := to_ascii_lowercase (name_stem component) in
      match relation_strength name stem key with
      | None => related_prefix_go path stem key (depth + 1) (start - 1) components
      | Some strength =>
          let shown := if depth =? 0 then path else take (end_ + 1) path in
          Some ((strength, edit_distance name stem, depth), shown)
      end
  end.

Definition related_prefix (path stem key : str) : option ((nat * nat * nat) * str) :=
  related_prefix_go path stem key 0 (length path) (reverse (split_char "/"%char path)).

(** ** The nearest paths *)

(** The tuple [(strength, distance, depth, shown.len())] and its order. *)
Record Rank := MkRank { r_strength : nat; r_distance : nat; r_depth : nat; r_len : nat }.
Definition rank_compare : Rank → Rank → comparison :=
  cmp_then (cmp_on r_strength Nat.compare)
    (cmp_then (cmp_on r_distance Nat.compare)
      (cmp_then (cmp_on r_depth Nat.compare) (cmp_on r_len Nat.compare))).
Definition rank_leb (a b : Rank) : bool := match rank_compare a b with Gt => false | _ => true end.

Definition rank_of (strength distance depth : nat) (shown : str) : Rank :=
  MkRank strength distance depth (length shown).

(** The body of the loop over the candidate rows. *)
Definition nearest_step (stem key : str) (ranked : list (Rank * str)) (path : str) : list (Rank * str) :=
  match related_prefix path stem key with
  | None => ranked
  | Some ((strength, distance, depth), shown) =>
      if existsb (λ known, known.2 =s shown) ranked then ranked
      else
        let rank := rank_of strength distance depth shown in
        let position := partition_point (λ known, rank_leb known.1 rank) ranked in
        if position <? NEAREST_PATHS
        then take NEAREST_PATHS (take position ranked ++ (rank, shown) :: drop position ranked)
        else ranked
  end.

(** [SELECT path FROM files WHERE instr(lower(path),key)>0
    ORDER BY length(path),path LIMIT 400]. *)
Definition nearest_candidates (files : list FileRow) (key : str) : list str :=
  take NEAREST_CANDIDATES
    (sort_by (cmp_then (cmp_on chars_count Nat.compare) str_compare)
      (List.filter (λ path, contains key (to_ascii_lowercase path)) (row_path <$> files))).

(** [value.rsplit('/').find(|segment| !segment.is_empty()).unwrap_or(value)]. *)
Definition last_segment (value : str) : str :=
  match find (λ segment, negb (segment =s [])) (reverse (split_char "/"%char value)) with
  | Some segment => segment
  | None => value
  end.

Definition nearest_stem (value : str) : str := to_ascii_lowercase (name_stem (last_segment value)).
Definition nearest_key (stem : str) : str := concat (take NEAREST_KEY_CHARS (chars stem)).

Definition nearest_paths (files : list FileRow) (value : str) : list str :=
  let stem := nearest_stem value in
  if stem =s [] then []
  else
    let key := nearest_key stem in
    snd <$> foldl (nearest_step stem key) [] (nearest_candidates files key).

(** ** The explanation *)

(** The number of rows of [files] the clauses select. *)
Definition count_files (files : list FileRow) (filter : BoundPathFilter) (language : str)
    (with_language : bool) : nat :=
  length (List.filter (λ row,
    clause_eval filter (row_path row) &&
    (negb (with_language && negb (language =s [])) || (row_language row =s language))) files).

(** The text for one [file:] value and whether it matched. *)
Definition value_part (files : list FileRow) (language : str) (needle : PathNeedle) : bool * str :=
  let matched := count_files files (MkBound [needle] []) language false in
  let noun := if matched =? 1 then lit "path" else lit "paths" in
  let part := lit "file:" ++ needle_value needle ++ lit " matched " ++ show_nat matched
              ++ lit " indexed " ++ noun in
  (0 <? matched,
   if matched =? 0 then
     match nearest_paths files (needle_value needle) with
     | [] => part
     | nearest => part ++ lit " (nearest: " ++ join (lit ", ") nearest ++ lit ")"
     end
   else part).

Definition language_known (files : list FileRow) (language : str) : bool :=
  (language =s []) || existsb (λ row, row_language row =s language) files.

(** What is said when every value and the language matched something. *)
Definition combined_part (files : list FileRow) (filter : BoundPathFilter) (language : str) : list str :=
  let unexcluded := MkBound (b_include filter) [] in
  let filters := length (b_include filter) + (if language =s [] then 0 else 1) in
  let combined_unexcluded := count_files files unexcluded language true in
  if (combined_unexcluded =? 0) && (1 <? filters)
  then [lit "filters matched 0 files together"]
  else if (0 <? combined_unexcluded)
          && match b_exclude filter with [] => false | _ => true end
          && (count_files files filter language true =? 0)
  then [lit "-file: excluded all " ++ show_nat combined_unexcluded ++ lit " matching files"]
  else [].

Definition diagnosis_parts (files : list FileRow) (filter : BoundPathFilter) (language : str) : list str :=
  let values := value_part files language <$> b_include filter in
  let every_value_matched := forallb fst values in
  let language_matched := language_known files language in
  (snd <$> values)
  ++ (if language_matched then [] else [lit "lang:" ++ language ++ lit " matched 0 files"])
  ++ (if every_value_matched && language_matched then combined_part files filter language else []).

Definition diagnose_empty_filters (files : list FileRow) (filter : BoundPathFilter) (language : str)
    : option str :=
  if bound_is_empty filter && (language =s []) then None
  else match diagnosis_parts files filter language with
       | [] => None
       | parts => Some (join (lit "; ") parts)
       end.

Example nearest_example :
  nearest_paths [MkFileRow (lit "src/module_config.rs") (lit "rust");
                 MkFileRow (lit "src/module_resolver.rs") (lit "rust");
                 MkFileRow (lit "modules/a.rs") (lit "rust")] (lit "src/module_confg.rs")
  = [lit "src/module_config.rs"; lit "modules/"; lit "src/module_resolver.rs"].
Proof. vm_compute. reflexivity. Qed.

Example distance_example : edit_distance (lit "kitten") (lit "sitting") = 3.
Proof. vm_compute. reflexivity. Qed.

(** ** Edit scripts, the specification of the distance *)

Inductive Edit := Keep (c : ascii) | Subst (a b : ascii) | Delete (a : ascii) | Insert (b : ascii).
Definition edit_source (e : Edit) : str :=
  match e with Keep c => [c] | Subst a _ => [a] | Delete a => [a] | Insert _ => [] end.
Definition edit_target (e : Edit) : str :=
  match e with Keep c => [c] | Subst _ b => [b] | Delete _ => [] | Insert b => [b] end.
Definition edit_cost (e : Edit) : nat := match e with Keep _ => 0 | _ => 1 end.

(** A script rewrites its source text into its target text, byte by byte. *)
Definition script_source (es : list Edit) : str := es ≫= edit_source.
Definition script_target (es : list Edit) : str := es ≫= edit_target.
Definition script_cost (es : list Edit) : nat := sum_list (edit_cost <$> es).

(** The recursive Levenshtein distance. *)
Fixpoint lev (l : str) : str → nat :=
  match l with
  | [] => length
  | a :: l' =>
      fix go r :=
        match r with
        | [] => S (length l')
        | b :: r' => Nat.min (Nat.min (lev l' r' + (if a =c b then 0 else 1)) (lev l' r + 1)) (go r' + 1)
        end
  end.

Lemma lev_nil_r l : lev l [] = length l.
Proof. by destruct l. Qed.

Lemma lev_cons a l b r :
  lev (a :: l) (b :: r) =
  Nat.min (Nat.min (lev l r + (if a =c b then 0 else 1)) (lev l (b :: r) + 1)) (lev (a :: l) r + 1).
Proof. done. Qed.

Lemma lev_drop_l a l r : lev (a :: l) r ≤ lev l r + 1.
Proof. destruct r as [|b r]; [rewrite !lev_nil_r; simpl; lia|rewrite lev_cons; lia]. Qed.

Lemma lev_drop_r b l r : lev l (b :: r) ≤ lev l r + 1.
Proof. destruct l as [|a l]; [simpl; lia|rewrite lev_cons; lia]. Qed.

Lemma lev_lower es : lev (script_source es) (script_target es) ≤ script_cost es.
Proof.
  induction es as [|e es IH]; [done|].
  change (script_cost (e :: es)) with (edit_cost e + script_cost es).
  destruct e as [c|a b|a|b]; unfold script_source, script_target in *; cbn [mbind list_bind edit_source edit_target app edit_cost].
  - rewrite lev_cons, bool_decide_eq_true_2 by done. lia.
  - rewrite lev_cons. case_bool_decide; lia.
  - etrans; [apply lev_drop_l|]. lia.
  - etrans; [apply lev_drop_r|]. lia.
Qed.

Lemma script_deletes l :
  script_source (Delete <$> l) = l ∧ script_target (Delete <$> l) = [] ∧
  script_cost (Delete <$> l) = length l.
Proof.
  unfold script_source, script_target, script_cost.
  induction l as [|c l (Hs & Ht & Hc)]; csimpl; [done|]. by rewrite Hs, Ht, Hc.
Qed.

Lemma script_inserts r :
  script_source (Insert <$> r) = [] ∧ script_target (Insert <$> r) = r ∧
  script_cost (Insert <$> r) = length r.
Proof.
  unfold script_source, script_target, script_cost.
  induction r as [|c r (Hs & Ht & Hc)]; csimpl; [done|]. by rewrite Hs, Ht, Hc.
Qed.

Lemma lev_script l r :
  ∃ es, script_source es = l ∧ script_target es = r ∧ script_cost es = lev l r.
Proof.
  revert r. induction l as [|a l IHl]; intros r.
  { exists (Insert <$> r). apply script_inserts. }
  induction r as [|b r IHr].
  { exists (Delete <$> a :: l). apply script_deletes. }
  rewrite lev_cons.
  destruct (IHl r) as (e1 & Hs1 & Ht1 & Hc1), (IHl (b :: r)) as (e2 & Hs2 & Ht2 & Hc2),
    IHr as (e3 & Hs3 & Ht3 & Hc3). rewrite <-Hc1, <-Hc2, <-Hc3.
  set (d := if a =c b then 0 else 1).
  destruct (decide (script_cost e2 + 1 ≤ script_cost e1 + d ∧ script_cost e2 ≤ script_cost e3)) as [H2|H2].
  { exists (Delete a :: e2). unfold script_source, script_target, script_cost in *. csimpl.
    rewrite Hs2, Ht2. split_and!; [done|done|lia]. }
  destruct (decide (script_cost e3 + 1 ≤ script_cost e1 + d)) as [H3|H3].
  { exists (Insert b :: e3). unfold script_source, script_target, script_cost in *. csimpl.
    rewrite Hs3, Ht3. split_and!; [done|done|lia]. }
  exists ((if a =c b then Keep a else Subst a b) :: e1).
  unfold script_source, script_target, script_cost in *. csimpl. rewrite Hs1, Ht1.
  subst d. case_bool_decide; subst; csimpl; split_and!; [done|done|lia|done|done|lia].
Qed.

(** ** The table holds the distances of prefixes *)

Definition prefix_lev (pre right_ : str) (column : nat) : nat :=
  lev (reverse pre) (reverse (take column right_)).

Lemma prefix_lev_nil right_ k : k ≤ length right_ → prefix_lev [] right_ k = k.
Proof. intros. unfold prefix_lev. simpl. rewrite length_reverse, length_take. lia. Qed.

Lemma prefix_lev_zero pre right_ : prefix_lev pre right_ 0 = length pre.
Proof. unfold prefix_lev. by rewrite take_0, lev_nil_r, length_reverse. Qed.

Lemma prefix_lev_step pre byte right_ column other :
  right_ !! column = Some other →
  prefix_lev (pre ++ [byte]) right_ (column + 1) =
  Nat.min (Nat.min (prefix_lev pre right_ column + (if byte =c other then 0 else 1))
                   (prefix_lev pre right_ (column + 1) + 1))
          (prefix_lev (pre ++ [byte]) right_ column + 1).
Proof.
  intros Ho. unfold prefix_lev. rewrite Nat.add_1_r, (take_S_r _ _ _ Ho), !reverse_snoc.
  apply lev_cons.
Qed.

Lemma distance_columns_spec pre byte right_ previous rest column current :
  drop column right_ = rest → column ≤ length right_ →
  length current = length right_ + 1 →
  (∀ k, k ≤ length right_ → previous !!! k = prefix_lev pre right_ k) →
  (∀ k, k ≤ column → current !!! k = prefix_lev (pre ++ [byte]) right_ k) →
  let row := distance_columns previous byte column rest current in
  length row = length right_ + 1 ∧
  ∀ k, k ≤ length right_ → row !!! k = prefix_lev (pre ++ [byte]) right_ k.
Proof.
  revert column current. induction rest as [|other rest IH]; intros column current Hd Hc Hl Hp Hk; cbn.
  { split; [done|]. intros k Hle. apply Hk.
    apply (f_equal length) in Hd. rewrite length_drop in Hd. simpl in Hd. lia. }
  pose proof (f_equal length Hd) as Hlen. rewrite length_drop in Hlen. simpl in Hlen.
  assert (right_ !! column = Some other) as Ho.
  { rewrite <-(Nat.add_0_r column), <-lookup_drop, Hd. done. }
  apply IH; [|lia|by rewrite length_insert|done|].
  { by rewrite <-drop_drop, Hd. }
  intros k Hle. destruct (decide (k = column + 1)) as [->|Hne].
  - rewrite list_lookup_total_insert_eq by lia.
    rewrite (prefix_lev_step _ _ _ _ _ Ho), !Hp, Hk by lia. done.
  - rewrite list_lookup_total_insert_ne by done. apply Hk. lia.
Qed.

Lemma distance_rows_spec right_ left_ pre previous current :
  length previous = length right_ + 1 → length current = length right_ + 1 →
  (∀ k, k ≤ length right_ → previous !!! k = prefix_lev pre right_ k) →
  ∀ k, k ≤ length right_ →
  distance_rows right_ (length pre) left_ previous current !!! k = prefix_lev (pre ++ left_) right_ k.
Proof.
  revert pre previous current.
  induction left_ as [|byte left_ IH]; intros pre previous current Hp Hc Hk k Hle; cbn.
  { rewrite app_nil_r. auto. }
  edestruct (distance_columns_spec pre byte right_ previous right_ 0) as [Hl Hrow];
    [done|lia| |done| |].
  3: { replace (length pre + 1) with (length (pre ++ [byte])) in * by (rewrite length_app; done).
       rewrite (IH (pre ++ [byte])); [by rewrite <-app_assoc|exact Hl|done|exact Hrow|done]. }
  - by rewrite length_insert.
  - intros j Hj. replace j with 0 by lia. rewrite list_lookup_total_insert_eq by lia.
    by rewrite prefix_lev_zero, length_app.
Qed.

Lemma edit_distance_lev left_ right_ : edit_distance left_ right_ = lev (reverse left_) (reverse right_).
Proof.
  unfold edit_distance. rewrite (distance_rows_spec right_ left_ []);
    [|by rewrite length_seq|by rewrite length_replicate| |lia].
  - unfold prefix_lev. by rewrite firstn_all.
  - intros k Hk. rewrite prefix_lev_nil by done. rewrite list_lookup_total_alt, lookup_seq_lt by lia. done.
Qed.

Lemma script_reverse es :
  script_source (reverse es) = reverse (script_source es) ∧
  script_target (reverse es) = reverse (script_target es) ∧
  script_cost (reverse es) = script_cost es.
Proof.
  unfold script_source, script_target, script_cost.
  split_and!; [| |by rewrite fmap_reverse, reverse_Permutation].
  all: induction es as [|e es IH]; [done|]; rewrite reverse_cons, bind_app, IH; csimpl;
    rewrite reverse_app; f_equal; by destruct e.
Qed.

(** Explaining an empty filter, edit distance: the two-row table computes
    the least number of byte insertions, deletions and substitutions that turn
    one name into the other; a script of that cost exists and none is cheaper. *)
Theorem edit_distance_optimal (left_ right_ : str) :
  (∃ es, script_source es = left_ ∧ script_target es = right_ ∧
         script_cost es = edit_distance left_ right_) ∧
  ∀ es, script_source es = left_ → script_target es = right_ →
        edit_distance left_ right_ ≤ script_cost es.
Proof.
  rewrite edit_distance_lev. split.
  - destruct (lev_script (reverse left_) (reverse right_)) as (es & Hs & Ht & Hc).
    exists (reverse es). destruct (script_reverse es) as (-> & -> & ->).
    by rewrite Hs, Ht, !reverse_involutive.
  - intros es <- <-. destruct (script_reverse es) as (Hs & Ht & Hc).
    rewrite <-Hs, <-Ht, <-Hc. apply lev_lower.
Qed.

(** ** What a shown path says of its candidate *)

Lemma split_char_app c a b : split_char c (a ++ c :: b) = split_char c a ++ split_char c b.
Proof.
  induction a as [|d a IH]; cbn.
  { by rewrite bool_decide_eq_true_2. }
  rewrite IH. case_bool_decide; [done|].
  pose proof (split_char_nonempty c a) as Hne. by destruct (split_char c a).
Qed.

Lemma join_snoc sep ps p : ps ≠ [] → join sep (ps ++ [p]) = join sep ps ++ sep ++ p.
Proof.
  intros Hne. induction ps as [|q ps IH]; [done|]. destruct ps as [|r ps]; [done|].
  cbn [join app] in *. rewrite IH by done. by rewrite <-!app_assoc.
Qed.

(** The text before a component: nothing, or up to a slash. *)
Definition directory (pre : str) : Prop := pre = [] ∨ ∃ p, pre = p ++ ["/"%char].

Lemma last_segment_spec pre component tail :
  directory pre → component ≠ [] → "/"%char ∉ component → tail = [] ∨ tail = ["/"%char] →
  last_segment (pre ++ component ++ tail) = component.
Proof.
  intros Hpre Hne Hsl Ht. unfold last_segment.
  assert (∃ front, reverse (split_char "/"%char (pre ++ component)) = component :: front) as [front Hf].
  { destruct Hpre as [-> | [p ->]]; [by rewrite split_char_single by done; exists []|].
    rewrite <-app_assoc. simpl. rewrite split_char_app, (split_char_single _ component) by done.
    rewrite reverse_snoc. eauto. }
  assert (negb (component =s []) = true) as Hc by (by rewrite bool_decide_eq_false_2).
  destruct Ht as [-> | ->].
  - rewrite app_nil_r, Hf. cbn [find]. by rewrite Hc.
  - rewrite (app_assoc pre), split_char_app, reverse_app, Hf. cbn. by rewrite Hc.
Qed.

Section relation.
Context (stem key : str) (Hstem : stem ≠ []) (Hkey : key ≠ []).

Definition shown_relation (shown : str) : option nat * nat :=
  let name := to_ascii_lowercase (name_stem (last_segment shown)) in
  (relation_strength name stem key, edit_distance name stem).

Lemma relation_strength_nil : relation_strength [] stem key = None.
Proof using Hstem Hkey.
  unfold relation_strength, contains. cbn [length].
  destruct stem as [|c s]; [done|]. by destruct key.
Qed.

Lemma related_prefix_go_spec path depth end_ components rank shown tail :
  path = join (lit "/") (reverse components) ++ tail →
  end_ = length (join (lit "/") (reverse components)) →
  Forall (λ c, "/"%char ∉ c) components →
  (if depth =? 0 then tail = [] else ∃ tail', tail = "/"%char :: tail') →
  related_prefix_go path stem key depth end_ components = Some (rank, shown) →
  shown_relation shown = (Some rank.1.1, rank.1.2) ∧ ∃ rest, path = shown ++ rest.
Proof using Hstem Hkey.
  revert depth end_ tail. induction components as [|c cs IH]; intros depth end_ tail Hp He Hcs Ht; [done|].
  apply Forall_cons in Hcs as [Hc Hcs]. cbn [related_prefix_go]. cbv zeta.
  assert (∃ pre, directory pre ∧ join (lit "/") (reverse (c :: cs)) = pre ++ c ∧
    (cs ≠ [] → pre = join (lit "/") (reverse cs) ++ lit "/")) as (pre & Hdir & Hj & Hpre).
  { rewrite reverse_cons. destruct (decide (cs = [])) as [-> | Hne].
    - exists []. split_and!; [by left|done|done].
    - exists (join (lit "/") (reverse cs) ++ lit "/"). split_and!; [right; eauto| |done].
      assert (reverse cs ≠ []) as Hr.
      { intros H%(f_equal reverse). rewrite reverse_involutive in H. done. }
      by rewrite join_snoc, app_assoc by done. }
  rewrite Hj in *. subst end_.
  destruct (relation_strength _ _ _) as [strength|] eqn:Hs.
  - intros [= <- <-]. cbn.
    assert (c ≠ []) as Hne.
    { intros ->. change (to_ascii_lowercase (name_stem [])) with (@nil ascii) in Hs.
      by rewrite relation_strength_nil in Hs. }
    destruct (depth =? 0).
    + subst tail. rewrite app_nil_r in Hp. split; [|exists []; by rewrite app_nil_r].
      unfold shown_relation. rewrite Hp, <-(app_nil_r c) at 1 2.
      rewrite last_segment_spec by (try done; by left). by rewrite Hs.
    + destruct Ht as [tail' ->].
      assert (take (length (pre ++ c) + 1) path = pre ++ c ++ ["/"%char]) as ->.
      { rewrite Hp, (cons_middle "/"%char), app_assoc, take_app_length'; [by rewrite <-app_assoc|].
        rewrite !length_app. simpl. lia. }
      split; [|exists tail'; by rewrite Hp, <-!app_assoc].
      unfold shown_relation. rewrite last_segment_spec by (try done; by right). by rewrite Hs.
  - assert (length (pre ++ c) - length c = length pre) as -> by (rewrite length_app; lia).
    destruct (decide (cs = [])) as [-> | Hne]; [done|]. specialize (Hpre Hne). subst pre.
    apply (IH _ _ ("/"%char :: c ++ tail)).
    + by rewrite Hp, <-!app_assoc.
    + rewrite length_app. simpl. lia.
    + done.
    + rewrite (proj2 (Nat.eqb_neq _ _)) by lia. eauto.
Qed.

Lemma related_prefix_spec path strength distance depth shown :
  related_prefix path stem key = Some ((strength, distance, depth), shown) →
  shown_relation shown = (Some strength, distance) ∧ ∃ rest, path = shown ++ rest.
Proof using Hstem Hkey.
  intros H. apply (related_prefix_go_spec _ _ _ _ ((strength, distance, depth)) _ [] ) in H; [done|..].
  - change (lit "/") with ["/"%char]. by rewrite app_nil_r, reverse_involutive, join_split_char.
  - change (lit "/") with ["/"%char]. by rewrite reverse_involutive, join_split_char.
  - apply Forall_forall. intros c Hc. rewrite elem_of_reverse in Hc. by apply split_char_no_sep in Hc.
  - done.
Qed.

End relation.

(** ** The kept paths *)

(** Relation strength, then edit distance: the part of a rank the shown path
    itself determines. *)
Definition relation_compare : Rank → Rank → comparison :=
  cmp_then (cmp_on r_strength Nat.compare) (cmp_on r_distance Nat.compare).

#[export] Instance rank_comparator : Comparator rank_compare.
Proof. unfold rank_compare. apply _. Qed.
#[export] Instance relation_comparator : Comparator relation_compare.
Proof. unfold relation_compare. apply _. Qed.

Lemma rank_leb_le a b : rank_leb a b = true ↔ cmp_le rank_compare a b.
Proof. unfold rank_leb, cmp_le. by destruct (rank_compare a b). Qed.

Lemma rank_le_relation a b : cmp_le rank_compare a b → cmp_le relation_compare a b.
Proof.
  unfold cmp_le, rank_compare, relation_compare, cmp_then, then_with, cmp_on.
  repeat case_match; done.
Qed.

(** Inserting at the partition point of a sorted list keeps it sorted. *)
Lemma insert_partition_sorted {A} (cmp : A → A → comparison) `{!Comparator cmp} (f : A → bool) x l :
  (∀ y, f y = true ↔ cmp_le cmp y x) → StronglySorted (cmp_le cmp) l →
  let position := partition_point f l in
  StronglySorted (cmp_le cmp) (take position l ++ x :: drop position l).
Proof.
  intros Hf. induction 1 as [|y l Hl IH Hy]; cbn.
  { repeat constructor. }
  destruct (f y) eqn:Hfy; cbn.
  - constructor; [done|]. rewrite Forall_forall in *.
    intros z [Hz | [-> | Hz]%elem_of_cons]%elem_of_app; [|by apply Hf|].
    + apply Hy. by apply subseteq_take in Hz.
    + apply Hy. by apply subseteq_drop in Hz.
  - assert (cmp_le cmp x y) as Hxy.
    { destruct (cmp_le_total cmp x y) as [|Hyx%Hf]; [done|]. congruence. }
    constructor; [by constructor|]. constructor; [done|].
    rewrite Forall_forall in *. intros z Hz. etrans; [apply Hxy|]. by apply Hy.
Qed.

Lemma partition_point_full {A} (f : A → bool) l k :
  k ≤ partition_point f l → Forall (λ y, f y = true) (take k l).
Proof.
  revert k. induction l as [|y l IH]; intros [|k]; cbn; try constructor; destruct (f y); try lia; auto with lia.
Qed.

Section nearest.
Context (stem key : str) (Hstem : stem ≠ []) (Hkey : key ≠ []).

(** A candidate row's shown path and rank. *)
Definition candidate_rank (path : str) : option (Rank * str) :=
  match related_prefix path stem key with
  | Some ((strength, distance, depth), shown) => Some (rank_of strength distance depth shown, shown)
  | None => None
  end.

Lemma candidate_same_shown p q a b shown :
  candidate_rank p = Some (a, shown) → candidate_rank q = Some (b, shown) →
  cmp_le relation_compare a b.
Proof using Hstem Hkey.
  unfold candidate_rank.
  destruct (related_prefix p stem key) as [[[[s1 d1] dep1] ?]|] eqn:Hp; [|done].
  destruct (related_prefix q stem key) as [[[[s2 d2] dep2] ?]|] eqn:Hq; [|done].
  intros [= <- ->] [= <- ->].
  apply related_prefix_spec in Hp as [Hp _], Hq as [Hq _]; try done.
  rewrite Hp in Hq. simplify_eq. unfold cmp_le, relation_compare, cmp_then, cmp_on, then_with. simpl.
  by rewrite !Nat.compare_refl.
Qed.

(** After the candidates [seen], the kept paths are sorted, distinct and at most
    three, and every candidate is shown or no closer than the three kept. *)
Record nearest_inv (seen : list str) (ranked : list (Rank * str)) : Prop := {
  near_bound : length ranked ≤ NEAREST_PATHS;
  near_nodup : NoDup ranked.*2;
  near_sorted : StronglySorted (cmp_le (cmp_on fst rank_compare)) ranked;
  near_sound : ∀ r, r ∈ ranked → ∃ p, p ∈ seen ∧ candidate_rank p = Some r;
  near_best : ∀ p rank shown, p ∈ seen → candidate_rank p = Some (rank, shown) →
    shown ∈ ranked.*2 ∨
    (length ranked = NEAREST_PATHS ∧ ∀ r, r ∈ ranked → cmp_le relation_compare r.1 rank);
}.

Lemma nearest_step_candidate ranked path :
  nearest_step stem key ranked path =
  match candidate_rank path with
  | None => ranked
  | Some (rank, shown) =>
      if existsb (λ known, known.2 =s shown) ranked then ranked
      else
        let position := partition_point (λ known, rank_leb known.1 rank) ranked in
        if position <? NEAREST_PATHS
        then take NEAREST_PATHS (take position ranked ++ (rank, shown) :: drop position ranked)
        else ranked
  end.
Proof.
  unfold nearest_step, candidate_rank. by destruct (related_prefix path stem key) as [[[[? ?] ?] ?]|].
Qed.

Lemma nearest_inv_more seen ranked path :
  nearest_inv seen ranked →
  (∀ rank shown, candidate_rank path = Some (rank, shown) → shown ∈ ranked.*2 ∨
    (length ranked = NEAREST_PATHS ∧ ∀ r, r ∈ ranked → cmp_le relation_compare r.1 rank)) →
  nearest_inv (seen ++ [path]) ranked.
Proof.
  intros [Hb Hn Hs Hso Hbe] Hp. split; try done.
  - intros r (p & ? & ?)%Hso. exists p. set_solver.
  - intros p rank shown [Hin | ->%list_elem_of_singleton]%elem_of_app; eauto.
Qed.

Lemma sorted_take_drop_le {A} (R : A → A → Prop) k l x y :
  StronglySorted R l → x ∈ take k l → y ∈ drop k l → R x y.
Proof. rewrite <-(take_drop k l) at 1. apply StronglySorted_app_1_elem_of. Qed.

Lemma nearest_inv_insert seen ranked path rank shown :
  nearest_inv seen ranked → candidate_rank path = Some (rank, shown) → shown ∉ ranked.*2 →
  let position := partition_point (λ known, rank_leb known.1 rank) ranked in
  nearest_inv (seen ++ [path])
    (take NEAREST_PATHS (take position ranked ++ (rank, shown) :: drop position ranked)).
Proof using Hstem Hkey.
  intros [Hb Hn Hs Hso Hbe] Hc Hnew position.
  set (ins := take position ranked ++ (rank, shown) :: drop position ranked).
  assert (ins ≡ₚ (rank, shown) :: ranked) as Hperm.
  { unfold ins. by rewrite <-Permutation_middle, take_drop. }
  assert (StronglySorted (cmp_le (cmp_on fst rank_compare)) ins) as Hsort.
  { apply (insert_partition_sorted (cmp_on fst rank_compare)); [|exact Hs]. intros y. apply rank_leb_le. }
  assert (NoDup ins.*2) as Hnd by (rewrite Hperm; by constructor).
  assert (∀ r, r ∈ ins → ∃ p, p ∈ seen ++ [path] ∧ candidate_rank p = Some r) as Hsound.
  { intros r. rewrite Hperm. intros [-> | (p & ? & ?)%Hso]%elem_of_cons; [exists path|exists p]; set_solver. }
  split.
  - rewrite length_take. lia.
  - rewrite fmap_take. rewrite <-(take_drop NEAREST_PATHS), NoDup_app in Hnd. apply Hnd.
  - rewrite <-(take_drop NEAREST_PATHS ins) in Hsort. by apply StronglySorted_app_1_l in Hsort.
  - intros r Hr%subseteq_take. by apply Hsound.
  - intros p rk sh Hp Hpc.
    assert (∀ r, r ∈ drop NEAREST_PATHS ins → cmp_le relation_compare r.1 rk →
      length (take NEAREST_PATHS ins) = NEAREST_PATHS ∧
      ∀ r, r ∈ take NEAREST_PATHS ins → cmp_le relation_compare r.1 rk) as Hdrop.
    { intros r Hr Hle. split.
      - rewrite length_take. apply list_elem_of_lookup in Hr as [i Hi%lookup_lt_Some].
        rewrite length_drop in Hi. lia.
      - intros r' Hr'. etrans; [|exact Hle]. apply rank_le_relation.
        by apply (sorted_take_drop_le _ _ _ _ _ Hsort Hr' Hr). }
    assert (∀ r, r ∈ ins → cmp_le relation_compare r.1 rk → r ∈ take NEAREST_PATHS ins ∨
      (length (take NEAREST_PATHS ins) = NEAREST_PATHS ∧
       ∀ r, r ∈ take NEAREST_PATHS ins → cmp_le relation_compare r.1 rk)) as Hins.
    { intros r Hr Hle. rewrite <-(take_drop NEAREST_PATHS ins) in Hr.
      apply elem_of_app in Hr as [Hr | Hr]; [by left|right; by apply (Hdrop r)]. }
    assert (∀ r, r ∈ ins → r.2 = sh → sh ∈ (take NEAREST_PATHS ins).*2 ∨
      (length (take NEAREST_PATHS ins) = NEAREST_PATHS ∧
       ∀ r, r ∈ take NEAREST_PATHS ins → cmp_le relation_compare r.1 rk)) as Hsame.
    { intros [a b] Hr <-. destruct (Hsound _ Hr) as (q & _ & Hq).
      destruct (Hins _ Hr (candidate_same_shown _ _ _ _ _ Hq Hpc)) as [?|?]; [left|by right].
      by apply (list_elem_of_fmap_2 snd _ (a, b)). }
    apply elem_of_app in Hp as [Hp | ->%list_elem_of_singleton].
    + destruct (Hbe p rk sh Hp Hpc) as [([a b] & -> & Hr)%list_elem_of_fmap | [Hl Hall]].
      { apply (Hsame (a, b)); [|done]. rewrite Hperm. by right. }
      right. assert (length ins = S (length ranked)) as Hlen by (by rewrite Hperm).
      destruct (drop NEAREST_PATHS ins) as [|r l] eqn:Hd.
      { apply (f_equal length) in Hd. rewrite length_drop in Hd. simpl in Hd. lia. }
      assert (r ∈ ins) as Hr.
      { apply (subseteq_drop NEAREST_PATHS). rewrite Hd. by left. }
      assert (length (take NEAREST_PATHS ins) = NEAREST_PATHS) as Hfull by (rewrite length_take; lia).
      split; [done|]. intros r' Hr'. pose proof (subseteq_take _ _ _ Hr') as Hr'i.
      rewrite Hperm in Hr'i, Hr. apply elem_of_cons in Hr'i as [-> | Hr'i]; [|by apply Hall].
      apply elem_of_cons in Hr as [-> | Hr].
      * rewrite <-(take_drop NEAREST_PATHS ins), fmap_app, NoDup_app in Hnd.
        destruct Hnd as (_ & Hnd & _). destruct (Hnd shown).
        { by apply (list_elem_of_fmap_2 snd _ (rank, shown)). }
        rewrite Hd. by left.
      * by apply (Hdrop r); [left|apply Hall|].
    + rewrite Hpc in Hc. simplify_eq. apply (Hsame (rank, shown)); [|done]. rewrite Hperm. by left.
Qed.

Lemma nearest_step_inv seen ranked path :
  nearest_inv seen ranked → nearest_inv (seen ++ [path]) (nearest_step stem key ranked path).
Proof using Hstem Hkey.
  intros Hi. rewrite nearest_step_candidate.
  destruct (candidate_rank path) as [[rank shown]|] eqn:Hc; [|apply nearest_inv_more; naive_solver].
  destruct (existsb _ ranked) eqn:He.
  { apply nearest_inv_more; [done|]. intros r sh Hr. left. rewrite Hr in Hc. simplify_eq.
    apply existsb_exists in He as ([a b] & Hin%list_elem_of_In & Hb%bool_decide_eq_true). simpl in Hb. subst b.
    by apply (list_elem_of_fmap_2 snd _ (a, shown)). }
  cbv zeta. case_match eqn:Hpos.
  - apply nearest_inv_insert; [done..|]. intros ([a b] & -> & Hin)%list_elem_of_fmap.
    assert (existsb (λ known, known.2 =s b) ranked = true) as Ht; [|simpl in He; congruence].
    apply existsb_exists. exists (a, b). rewrite <-list_elem_of_In. split; [done|]. by apply bool_decide_eq_true.
  - apply nearest_inv_more; [done|]. intros r sh Hr. right. rewrite Hr in Hc. simplify_eq.
    bool_to_prop. destruct Hi as [Hb _ _ _ _]. unfold NEAREST_PATHS in *.
    pose proof (partition_point_full (λ known : Rank * str, rank_leb known.1 rank) ranked 3 Hpos) as Hall.
    assert (length ranked = 3) as Hlen.
    { clear -Hpos Hb. enough (∀ (f : Rank * str → bool), partition_point f ranked ≤ length ranked) by
        (specialize (H (λ known, rank_leb known.1 rank)); lia).
      intros f. clear. induction ranked; simpl; [lia|]. case_match; lia. }
    split; [done|]. intros x Hx. rewrite firstn_all2 in Hall by lia. rewrite Forall_forall in Hall.
    apply rank_le_relation. apply rank_leb_le. by apply (Hall x).
Qed.

Lemma nearest_fold_inv candidates :
  nearest_inv candidates (foldl (nearest_step stem key) [] candidates).
Proof using Hstem Hkey.
  induction candidates as [|path candidates IH] using rev_ind; [split; simpl; first [by constructor|unfold NEAREST_PATHS; lia|set_solver]|].
  rewrite foldl_app. by apply nearest_step_inv.
Qed.

End nearest.

Lemma chars_first c s : ∃ ch cs, chars (c :: s) = (c :: ch) :: cs.
Proof. cbn [chars]. destruct (chars s) as [|[|d ch] cs]; [eauto..|]. destruct (is_cont d); eauto. Qed.

Lemma nearest_key_nonempty stem : stem ≠ [] → nearest_key stem ≠ [].
Proof.
  destruct stem as [|c s]; [done|]. intros _. unfold nearest_key.
  by destruct (chars_first c s) as (ch & cs & ->).
Qed.

Lemma nearest_candidates_sound files key path :
  path ∈ nearest_candidates files key →
  path ∈ row_path <$> files ∧ contains key (to_ascii_lowercase path) = true.
Proof.
  unfold nearest_candidates. intros Hp%subseteq_take. rewrite elem_of_sort_by in Hp.
  by apply list_elem_of_In, filter_In in Hp as [?%list_elem_of_In ?].
Qed.

Lemma candidate_rank_relation stem key path rank shown :
  stem ≠ [] → key ≠ [] → candidate_rank stem key path = Some (rank, shown) →
  shown_relation stem key shown = (Some (r_strength rank), r_distance rank) ∧
  ∃ rest, path = shown ++ rest.
Proof.
  intros ??. unfold candidate_rank.
  destruct (related_prefix path stem key) as [[[[s d] dep] ?]|] eqn:Hp; [|done].
  intros [= <- ->]. by apply related_prefix_spec in Hp.
Qed.

Lemma relation_le_lex a b :
  cmp_le relation_compare a b →
  r_strength a < r_strength b ∨ (r_strength a = r_strength b ∧ r_distance a ≤ r_distance b).
Proof.
  unfold cmp_le, relation_compare, cmp_then, cmp_on, then_with.
  destruct (Nat.compare_spec (r_strength a) (r_strength b)); [|auto|done].
  destruct (Nat.compare_spec (r_distance a) (r_distance b)); [lia..|done].
Qed.

(** Explaining an empty filter, nearest names: at most three distinct
    prefixes of indexed paths are shown, each related to the value's name, and a
    related candidate that is not shown is related no more strongly, and no
    nearer in edit distance, than each of the three that are. *)
Theorem nearest_paths_best (files : list FileRow) (value : str) :
  let stem := nearest_stem value in
  let key := nearest_key stem in
  let shown := nearest_paths files value in
  stem ≠ [] →
  length shown ≤ NEAREST_PATHS ∧ NoDup shown ∧
  (∀ s, s ∈ shown → ∃ path rest strength distance,
     path ∈ row_path <$> files ∧ path = s ++ rest ∧
     shown_relation stem key s = (Some strength, distance)) ∧
  ∀ path strength distance depth s,
    path ∈ nearest_candidates files key →
    related_prefix path stem key = Some ((strength, distance, depth), s) →
    s ∈ shown ∨
    (length shown = NEAREST_PATHS ∧
     ∀ s', s' ∈ shown → ∃ strength' distance',
       shown_relation stem key s' = (Some strength', distance') ∧
       (strength' < strength ∨ (strength' = strength ∧ distance' ≤ distance))).
Proof.
  intros stem key shown Hstem. unfold shown, nearest_paths. fold stem.
  rewrite bool_decide_eq_false_2 by done. fold key.
  assert (key ≠ []) as Hkey by by apply nearest_key_nonempty.
  destruct (nearest_fold_inv stem key Hstem Hkey (nearest_candidates files key)) as [Hb Hn _ Hso Hbe].
  set (ranked := foldl (nearest_step stem key) [] (nearest_candidates files key)) in *.
  split_and!; [by rewrite length_fmap|done| |].
  - intros s ([rank ?] & -> & Hin)%list_elem_of_fmap.
    destruct (Hso _ Hin) as (path & Hp & Hr).
    apply candidate_rank_relation in Hr as [Hr [rest Hrest]]; [|done..].
    apply nearest_candidates_sound in Hp as [Hp _]. eauto 10.
  - intros path strength distance depth s Hp Hr.
    destruct (Hbe path (rank_of strength distance depth s) s Hp) as [?|[Hl Hall]];
      [unfold candidate_rank; by rewrite Hr|by left|right].
    rewrite length_fmap. split; [done|].
    intros s' ([rank ?] & -> & Hin)%list_elem_of_fmap. pose proof (Hall _ Hin) as Hle.
    destruct (Hso _ Hin) as (q & _ & Hq). apply candidate_rank_relation in Hq as [Hq _]; [|done..].
    exists (r_strength rank), (r_distance rank). split; [done|]. by apply relation_le_lex in Hle.
Qed.

Lemma nearest_paths_best_witness :
  let files := [MkFileRow (lit "src/module_config.rs") (lit "rust");
                MkFileRow (lit "src/module_resolver.rs") (lit "rust");
                MkFileRow (lit "modules/a.rs") (lit "rust")] in
  length (nearest_paths files (lit "src/module_confg.rs")) ≤ 3.
Proof.
  intros files. apply (nearest_paths_best files (lit "src/module_confg.rs")). vm_compute. done.
Defined.

(** ** What the explanation says *)

(** A file the filter and the language let through. *)
Definition passes (filter : BoundPathFilter) (language : str) (row : FileRow) : bool :=
  bound_matches filter (row_path row) && ((language =s []) || (row_language row =s language)).

Definition needles_ok (filter : BoundPathFilter) : Prop :=
  Forall (λ n, value_ok (needle_value n)) (b_include filter) ∧
  Forall (λ n, value_ok (needle_value n)) (b_exclude filter).

Lemma clause_eval_matches filter path : needles_ok filter → clause_eval filter path = bound_matches filter path.
Proof.
  intros [Hi He]. unfold clause_eval, bound_matches.
  rewrite forallb_negb_existsb, (existsb_ext_Forall _ _ _ _ He (λ n, predicate_needle n path)). f_equal.
  destruct (b_include filter) as [|n ns]; [done|].
  apply (existsb_ext_Forall _ _ _ _ Hi). intros m. apply predicate_needle.
Qed.

Lemma count_files_language files filter language :
  needles_ok filter → count_files files filter language true = length (List.filter (passes filter language) files).
Proof.
  intros Hok. unfold count_files. f_equal. apply filter_ext. intros row. unfold passes.
  rewrite clause_eval_matches by done. by destruct (language =s []).
Qed.

Lemma count_files_value files needle language :
  value_ok (needle_value needle) →
  count_files files (MkBound [needle] []) language false
  = length (List.filter (λ row, needle_matches needle (row_path row)) files).
Proof.
  intros Hok. unfold count_files. f_equal. apply filter_ext. intros row.
  rewrite clause_eval_matches by (split; simpl; [by apply Forall_singleton|by apply Forall_nil]). unfold bound_matches. simpl.
  by rewrite !orb_false_r, !andb_true_r.
Qed.

Lemma filter_length_zero {A} (f : A → bool) l :
  length (List.filter f l) = 0 ↔ ∀ x, x ∈ l → f x = false.
Proof.
  induction l as [|x l IH]; simpl; [split; [set_solver|done]|].
  destruct (f x) eqn:Hf; simpl.
  - split; [done|]. intros H. specialize (H x). rewrite H in Hf; [done|by left].
  - rewrite IH. split; [intros H y [-> | ?]%elem_of_cons; auto|intros H y ?; apply H; by right].
Qed.

Lemma value_part_matched files language needle :
  value_ok (needle_value needle) →
  (value_part files language needle).1 = true ↔
  ∃ row, row ∈ files ∧ needle_matches needle (row_path row) = true.
Proof.
  intros Hok. unfold value_part. cbv zeta. simpl fst. rewrite count_files_value by done.
  rewrite Nat.ltb_lt. destruct (List.filter _ files) as [|row rows] eqn:E; simpl.
  - split; [lia|]. intros (row & Hr & Hm).
    pose proof (proj1 (filter_length_zero _ files) (f_equal length E) row Hr). simpl in *. congruence.
  - split; [|lia]. intros _. assert (row ∈ List.filter (λ row, needle_matches needle (row_path row)) files) as Hin
      by (rewrite E; by left).
    apply list_elem_of_In, filter_In in Hin as [?%list_elem_of_In ?]. eauto.
Qed.

Lemma language_known_spec files language :
  language_known files language = false ↔ language ≠ [] ∧ ∀ row, row ∈ files → row_language row ≠ language.
Proof.
  unfold language_known. rewrite orb_false_iff, bool_decide_eq_false. f_equiv.
  rewrite <-not_true_iff_false, existsb_exists. split.
  - intros Hn row Hr <-. apply Hn. exists row. rewrite <-list_elem_of_In, bool_decide_eq_true. done.
  - intros Hn (row & Hr%list_elem_of_In & Hb%bool_decide_eq_true). by eapply Hn.
Qed.

(** Why no file passes: what one of the explanation's parts says. *)
Inductive Reason (files : list FileRow) (filter : BoundPathFilter) (language : str) : str → Prop :=
| value_unmatched needle :
    needle ∈ b_include filter →
    (∀ row, row ∈ files → needle_matches needle (row_path row) = false) →
    Reason files filter language (value_part files language needle).2
| language_unmatched :
    language ≠ [] → (∀ row, row ∈ files → row_language row ≠ language) →
    Reason files filter language (lit "lang:" ++ language ++ lit " matched 0 files")
| only_together :
    (∀ row, row ∈ files → passes (MkBound (b_include filter) []) language row = false) →
    Reason files filter language (lit "filters matched 0 files together")
| all_excluded n :
    n = length (List.filter (passes (MkBound (b_include filter) []) language) files) → 0 < n →
    b_exclude filter ≠ [] →
    Reason files filter language (lit "-file: excluded all " ++ show_nat n ++ lit " matching files").

Lemma combined_part_reason files filter language :
  needles_ok filter → files ≠ [] → bound_is_empty filter = false ∨ language ≠ [] →
  (∀ row, row ∈ files → passes filter language row = false) →
  forallb fst (value_part files language <$> b_include filter) = true →
  language_known files language = true →
  ∃ part, part ∈ combined_part files filter language ∧ Reason files filter language part.
Proof.
  intros Hok Hne Hsome Hnone Hvalues Hlang.
  assert (needles_ok (MkBound (b_include filter) [])) as Hok' by (split; [apply Hok|constructor]).
  unfold combined_part. cbv zeta. rewrite !count_files_language by done.
  rewrite (proj2 (Nat.eqb_eq (length (List.filter (passes filter language) files)) 0))
    by (by apply filter_length_zero).
  destruct (length (List.filter (passes (MkBound (b_include filter) []) language) files)) as [|n] eqn:Hn.
  - pose proof (proj1 (filter_length_zero _ _) Hn) as Hall. simpl.
    destruct (1 <? _) eqn:Hcount.
    { exists (lit "filters matched 0 files together"). split; [by left|]. by constructor. }
    exfalso. apply Nat.ltb_ge in Hcount. destruct (b_include filter) as [|needle needles] eqn:Hi.
    + destruct (decide (language = [])) as [-> | Hl].
      * destruct files as [|row files]; [done|]. specialize (Hall row). unfold passes in Hall. simpl in Hall.
        assert (true = false) as Hf by (apply Hall; by left). discriminate Hf.
      * apply not_false_iff_true in Hlang. apply Hlang, language_known_spec. split; [done|].
        intros row Hr He. specialize (Hall row Hr). unfold passes in Hall. simpl in Hall.
        rewrite He, bool_decide_eq_false_2, bool_decide_eq_true_2 in Hall by done. done.
    + simpl in Hcount. case_bool_decide as Hl; [|lia]. destruct needles; [|simpl in Hcount; lia].
      simpl in Hvalues. apply andb_prop in Hvalues as [Hv _].
      apply value_part_matched in Hv as (row & Hr & Hm); [|destruct Hok as [Hk _]; rewrite Hi in Hk; by inversion Hk].
      specialize (Hall row Hr). unfold passes, bound_matches in Hall. simpl in Hall.
      rewrite Hm, Hl in Hall. done.
  - simpl. destruct (b_exclude filter) as [|e es] eqn:He; simpl.
    + exfalso. assert (filter = MkBound (b_include filter) []) as Hf by (destruct filter; simpl in *; by subst).
      rewrite <-Hf in Hn. rewrite (proj2 (filter_length_zero _ files)) in Hn; done.
    + eexists. split; [by left|]. apply all_excluded; [by rewrite Hn|lia|by rewrite He].
Qed.

(** C38. Explaining an empty filter: when no file of a non-empty index passes a
    filter, the search is told so, and one of the parts of the explanation is a
    true reason: a value no indexed path matches, a language no file has,
    filters that fail only together, or exclusions that remove every match. *)
Theorem empty_filter_explained (files : list FileRow) (f : PathFilter) (language : str) :
  let filter := bind f (row_path <$> files) in
  filter_ok f → files ≠ [] → bound_is_empty filter = false ∨ language ≠ [] →
  (∀ row, row ∈ files → passes filter language row = false) →
  ∃ part, part ∈ diagnosis_parts files filter language ∧ Reason files filter language part ∧
    diagnose_empty_filters files filter language
    = Some (join (lit "; ") (diagnosis_parts files filter language)).
Proof.
  intros filter Hf Hne Hsome Hnone.
  assert (needles_ok filter) as Hok by (by apply bind_ok).
  assert (∃ part, part ∈ diagnosis_parts files filter language ∧ Reason files filter language part)
    as (part & Hp & Hr).
  { unfold diagnosis_parts. cbv zeta.
    destruct (forallb fst (value_part files language <$> b_include filter)) eqn:Hvalues.
    - destruct (language_known files language) eqn:Hlang.
      + destruct (combined_part_reason files filter language) as (part & Hp & Hr); try done.
        exists part. split; [|done]. rewrite !elem_of_app. auto.
      + exists (lit "lang:" ++ language ++ lit " matched 0 files"). split; [rewrite !elem_of_app; right; left; by left|].
        apply language_known_spec in Hlang as [??]. by constructor.
    - assert (∃ needle, needle ∈ b_include filter ∧ (value_part files language needle).1 = false)
        as (needle & Hn & Hv).
      { clear -Hvalues. induction (b_include filter) as [|n ns IH]; [done|]. rewrite fmap_cons in Hvalues.
        cbn [forallb] in Hvalues. apply andb_false_iff in Hvalues as [Hv | (m & ? & ?)%IH];
          [exists n|exists m]; split; try done; [by left|by right]. }
      exists (value_part files language needle).2. split.
      { rewrite !elem_of_app. left. by apply (list_elem_of_fmap_2 snd), list_elem_of_fmap_2. }
      constructor; [done|]. intros row Hrow. apply not_true_is_false. intros Hm.
      assert ((value_part files language needle).1 = true) as Ht; [|congruence].
      apply value_part_matched; [|eauto]. destruct Hok as [Hi _]. rewrite Forall_forall in Hi. by apply Hi. }
  exists part. split_and!; [done|done|]. unfold diagnose_empty_filters.
  replace (bound_is_empty filter && (language =s [])) with false.
  - destruct (diagnosis_parts files filter language); [by apply not_elem_of_nil in Hp|done].
  - destruct Hsome as [-> | Hl]; [done|]. rewrite bool_decide_eq_false_2 by done. by rewrite andb_false_r.
Qed.

Lemma empty_filter_explained_witness :
  let files := [MkFileRow (lit "src/a.rs") (lit "rust")] in
  let f := filter_exclude (filter_include filter_default (lit "src")) (lit "a.rs") in
  ∃ part, part ∈ diagnosis_parts files (bind f (row_path <$> files)) (lit "rust").
Proof.
  intros files f.
  destruct (empty_filter_explained files f (lit "rust")) as (part & Hp & _).
  - apply filter_exclude_ok, filter_include_ok. split; constructor.
  - done.
  - by right.
  - intros row ->%list_elem_of_singleton. vm_compute. reflexivity.
  - by exists part.
Defined.
