(* ===== verification/DmLex.v ===== *)
(** * DreamMaker tokens

    Models [src/src/extract/dreammaker/dm_lex.rs]: the byte-preserving tokenizer
    of DreamMaker sources.  Comments nest and cross lines, [{"..."}] strings
    cross lines, a quoted string left open continues on the next line, and lines
    over 16 KiB update that state without publishing tokens. *)
From Stdlib Require Import Ascii String ZArith Lia.
From stdpp Require Import base numbers list gmap strings.
From S2P Require Import Prelude Order Text Snippets.

Record DmToken := MkToken { tk_text : str; tk_start : nat; tk_end : nat; tk_quoted : bool }.

(** [DmToken::identifier]. *)
Definition identifier (t : DmToken) : bool :=
  negb (tk_quoted t) &&
  match tk_text t with byte :: _ => is_ascii_alphabetic byte || (byte =c "_"%char) | [] => false end.

Record DmLine := MkLine { ln_indent : nat; ln_end : nat; ln_tokens : list DmToken }.

Definition LINE_BYTES : nat := 16 * 1024.
Definition MAX_TOKENS : Z := 250000.

Definition quote_char : ascii := chr 34.
Definition backslash : ascii := chr 92.
Definition byte_at (source : str) (index : nat) (c : ascii) : bool :=
  match source !! index with Some b => b =c c | None => false end.

(** The variables of [tokenize] that outlive a line. *)
Record LexState := MkLex {
  comment_depth : nat;
  multiline_quote : bool;
  continued_quote : option ascii;
  lex_complete : bool;
}.
Definition set_comment (d : nat) (s : LexState) : LexState :=
  MkLex d (multiline_quote s) (continued_quote s) (lex_complete s).
Definition set_multiline (b : bool) (s : LexState) : LexState :=
  MkLex (comment_depth s) b (continued_quote s) (lex_complete s).
Definition set_continued (q : option ascii) (s : LexState) : LexState :=
  MkLex (comment_depth s) (multiline_quote s) q (lex_complete s).
Definition set_complete (b : bool) (s : LexState) : LexState :=
  MkLex (comment_depth s) (multiline_quote s) (continued_quote s) b.

(** The indentation of a line: tabs count four. *)
Fixpoint read_indent (fuel : nat) (source : str) (line_end indent index : nat) : nat * nat :=
  match fuel with
  | O => (indent, index)
  | S fuel =>
      if (index <? line_end) && (byte_at source index " "%char || byte_at source index (chr 9))
      then read_indent fuel source line_end (indent + (if byte_at source index (chr 9) then 4 else 1)) (index + 1)
      else (indent, index)
  end.

(** The scan inside a quoted token: an escape skips a byte of the line. *)
Fixpoint scan_quoted (fuel : nat) (source : str) (line_end : nat) (quote : ascii) (index : nat) : nat :=
  match fuel with
  | O => index
  | S fuel =>
      if (index <? line_end) && negb (byte_at source index quote) && negb (byte_at source index newline)
      then scan_quoted fuel source line_end quote
             (index + (if byte_at source index backslash && (index + 1 <? line_end) then 2 else 1))
      else index
  end.

Definition word_byte (c : ascii) : bool := is_ascii_alphanumeric c || (c =c "_"%char).

Fixpoint scan_word (fuel : nat) (source : str) (line_end index : nat) : nat :=
  match fuel with
  | O => index
  | S fuel =>
      if (index <? line_end) && match source !! index with Some c => word_byte c | None => false end
      then scan_word fuel source line_end (index + 1)
      else index
  end.

(** What one turn of the inner loop does. *)
Inductive Turn :=
| Break
| Skip (s : LexState) (index : nat)
| Token (s : LexState) (start index : nat) (quoted : bool).

(** A turn outside comments and open strings. *)
Definition lex_code (source : str) (line_end : nat) (s : LexState) (index : nat) (byte : ascii) : Turn :=
  let next c := byte_at source (index + 1) c in
  if is_ascii_whitespace byte then Skip s (index + 1)
  else if (byte =c "/"%char) && next "/"%char then Break
  else if (byte =c "/"%char) && next "*"%char then Skip (set_comment 1 s) (index + 2)
  else if (byte =c "{"%char) && next quote_char then Skip (set_multiline true s) (index + 2)
  else if (byte =c quote_char) || (byte =c chr 39) then
    let stop := scan_quoted (length source) source line_end byte (index + 1) in
    if byte_at source stop byte then Token s index (stop + 1) true
    else Token (set_continued (Some byte) (set_complete false s)) index stop true
  else if word_byte byte then Token s index (scan_word (length source) source line_end (index + 1)) false
  else Token s index (index + 1) false.

Definition lex_turn (source : str) (line_end : nat) (s : LexState) (index : nat) : Turn :=
  match source !! index with
  | None => Break
  | Some byte =>
      let next c := byte_at source (index + 1) c in
      match continued_quote s with
      | Some quote =>
          if byte =c backslash then Skip s (Nat.min (index + 2) line_end)
          else Skip (if byte =c quote then set_continued None s else s) (index + 1)
      | None =>
          if 0 <? comment_depth s then
            if (byte =c "/"%char) && next "*"%char then Skip (set_comment (comment_depth s + 1) s) (index + 2)
            else if (byte =c "*"%char) && next "/"%char then Skip (set_comment (comment_depth s - 1) s) (index + 2)
            else Skip s (index + 1)
          else if multiline_quote s then
            if byte =c backslash then Skip s (Nat.min (index + 2) line_end)
            else if (byte =c quote_char) && next "}"%char then Skip (set_multiline false s) (index + 2)
            else Skip s (index + 1)
          else lex_code source line_end s index byte
      end
  end.

(** The inner loop over one line. *)
Fixpoint lex_line (fuel : nat) (source : str) (line_end : nat) (bounded : bool) (s : LexState) (index : nat)
    (tokens : list DmToken) : LexState * list DmToken :=
  match fuel with
  | O => (s, tokens)
  | S fuel =>
      if index <? line_end then
        match lex_turn source line_end s index with
        | Break => (s, tokens)
        | Skip s index => lex_line fuel source line_end bounded s index tokens
        | Token s start index quoted =>
            let token := MkToken (from_utf8_lossy (take (index - start) (drop start source))) start index quoted in
            lex_line fuel source line_end bounded s index (if bounded then tokens ++ [token] else tokens)
        end
      else (s, tokens)
  end.

(** [source[offset..].iter().position(newline).map_or(len, |n| offset + n + 1)]. *)
Definition line_end_of (source : str) (offset : nat) : nat :=
  match list_find (λ c, c = newline) (drop offset source) with
  | Some (n, _) => offset + n + 1
  | None => length source
  end.

(** The outer loop over the lines. *)
Fixpoint lex_lines (fuel : nat) (source : str) (offset : nat) (s : LexState) (token_count : Z)
    (lines : list DmLine) : LexState * list DmLine :=
  match fuel with
  | O => (s, lines)
  | S fuel =>
      if offset <? length source then
        let line_end := line_end_of source offset in
        let '(indent, index) := read_indent (line_end - offset) source line_end 0 offset in
        let bounded := line_end - offset <=? LINE_BYTES in
        let s := set_complete (lex_complete s && bounded) s in
        let '(s, tokens) := lex_line (line_end - index) source line_end bounded s index [] in
        let token_count := (token_count + Z.of_nat (length tokens))%Z in
        if (MAX_TOKENS <? token_count)%Z then (set_complete false s, lines)
        else lex_lines fuel source line_end s token_count (lines ++ [MkLine indent line_end tokens])
      else (s, lines)
  end.

(** The length of a UTF-8 byte order mark at the front. *)
Definition bom_length (source : str) : nat :=
  if starts_with [chr 239; chr 187; chr 191] source then 3 else 0.

Definition tokenize (source : str) : list DmLine * bool :=
  let '(s, lines) :=
    lex_lines (length source) source (bom_length source) (MkLex 0 false None true) 0 [] in
  (lines, lex_complete s && (comment_depth s =? 0) && negb (multiline_quote s)
          && match continued_quote s with None => true | Some _ => false end).

Example tokenize_example :
  (λ l, (ln_indent l, tk_text <$> ln_tokens l)) <$>
    (tokenize (lit "/mob/proc/a() // x" ++ [newline; chr 9] ++ lit "b = 'c' /* d */")).1
  = [(0, lit <$> ["/"; "mob"; "/"; "proc"; "/"; "a"; "("; ")"]); (4, lit <$> ["b"; "="; "'c'"])]%string.
Proof. vm_compute. reflexivity. Qed.

(** ** Progress: the loops stop by themselves *)

Lemma byte_at_length source i c : byte_at source i c = true → i < length source.
Proof. unfold byte_at. destruct (source !! i) eqn:E; [|done]. intros _. by eapply lookup_lt_Some. Qed.

Lemma scan_quoted_bounds fuel source line_end quote index :
  index ≤ line_end → index ≤ scan_quoted fuel source line_end quote index ≤ line_end.
Proof.
  induction fuel as [|fuel IH] in index |- *; simpl; intros Hi; [done|].
  destruct (index <? line_end) eqn:E; simpl; bool_to_prop; [|done].
  destruct (_ && _); [|done].
  set (step := if _ && _ then 2 else 1).
  assert (1 ≤ step ∧ index + step ≤ line_end) as [? ?].
  { subst step. destruct (byte_at source index backslash); simpl; [|lia].
    destruct (index + 1 <? line_end) eqn:E2; bool_to_prop; lia. }
  specialize (IH (index + step)). lia.
Qed.

Lemma scan_quoted_stops fuel source line_end quote index :
  line_end - index ≤ fuel →
  let stop := scan_quoted fuel source line_end quote index in
  line_end ≤ stop ∨ byte_at source stop quote = true ∨ byte_at source stop newline = true.
Proof.
  induction fuel as [|fuel IH] in index |- *; simpl; intros Hf; [left; lia|].
  destruct (index <? line_end) eqn:E; simpl; bool_to_prop; [|by left].
  destruct (byte_at source index quote) eqn:Hq; simpl; [by auto|].
  destruct (byte_at source index newline) eqn:Hn; simpl; [by auto|].
  apply IH. destruct (_ && _); lia.
Qed.

Lemma scan_word_bounds fuel source line_end index :
  index ≤ line_end → index ≤ scan_word fuel source line_end index ≤ line_end.
Proof.
  induction fuel as [|fuel IH] in index |- *; simpl; intros Hi; [done|].
  destruct (index <? line_end) eqn:E; simpl; bool_to_prop; [|done].
  destruct (match source !! index with Some _ => _ | None => _ end); [|done].
  specialize (IH (index + 1)). lia.
Qed.

Lemma read_indent_bounds fuel source line_end indent index :
  index ≤ line_end → index ≤ (read_indent fuel source line_end indent index).2 ≤ line_end.
Proof.
  induction fuel as [|fuel IH] in indent, index |- *; simpl; intros Hi; [done|].
  destruct (index <? line_end) eqn:E; simpl; bool_to_prop; [|done].
  destruct (_ || _); [|done]. specialize (IH (indent + (if byte_at source index (chr 9) then 4 else 1)) (index + 1)). lia.
Qed.

(** Where a turn can go: forward, and past the line only when a quoted token is
    closed by the first byte of the next line. *)
Lemma lex_turn_progress source line_end s index :
  index < line_end → line_end ≤ length source →
  match lex_turn source line_end s index with
  | Break => True
  | Skip _ next => index < next
  | Token _ start next quoted =>
      start = index ∧ index < next ≤ length source ∧ (next ≤ line_end ∨ next = line_end + 1 ∧ quoted = true)
  end.
Proof.
  intros Hi Hl. unfold lex_turn, lex_code. cbv zeta.
  destruct (source !! index) as [byte|] eqn:Hb; [|done].
  pose proof (scan_quoted_bounds (length source) source line_end byte (index + 1) ltac:(lia)) as Hq.
  pose proof (scan_word_bounds (length source) source line_end (index + 1) ltac:(lia)) as Hw.
  repeat match goal with
  | |- context [if ?b then _ else _] => lazymatch b with
      | byte_at _ (scan_quoted _ _ _ _ _) _ => destruct b eqn:?
      | _ => destruct b
      end
  | |- context [match ?x with Some _ => _ | None => _ end] => destruct x
  end; try done; try lia.
  all: match goal with H : byte_at _ _ _ = true |- _ => apply byte_at_length in H end.
  all: split; [done|]; split; [lia|].
  all: match goal with |- ?x ≤ _ ∨ _ => destruct (decide (x ≤ line_end)); [by left|right; split; [lia|done]] end.
Qed.

(** More fuel than bytes left changes nothing. *)
Lemma lex_line_fuel fuel source line_end bounded s index tokens :
  line_end ≤ length source → line_end - index ≤ fuel →
  lex_line fuel source line_end bounded s index tokens
  = lex_line (line_end - index) source line_end bounded s index tokens.
Proof.
  intros Hl. remember (line_end - index) as n eqn:Hn.
  revert fuel s index tokens Hn. induction n as [n IH] using lt_wf_ind. intros fuel s index tokens Hn Hf.
  destruct (decide (index < line_end)) as [Hi|Hi].
  2: { assert ((index <? line_end) = false) as E by (apply Nat.ltb_ge; lia).
       destruct fuel, n; simpl; rewrite ?E; done. }
  destruct fuel as [|fuel]; [lia|]. destruct n as [|n]; [lia|]. cbn [lex_line].
  rewrite (proj2 (Nat.ltb_lt _ _) Hi).
  pose proof (lex_turn_progress source line_end s index Hi Hl) as Ht.
  destruct (lex_turn source line_end s index) as [|s' next|s' start next quoted]; [done|..].
  - rewrite (IH (line_end - next) ltac:(lia) fuel), (IH (line_end - next) ltac:(lia) n); done || lia.
  - destruct Ht as (_ & ? & _).
    rewrite (IH (line_end - next) ltac:(lia) fuel), (IH (line_end - next) ltac:(lia) n); done || lia.
Qed.

(** ** Tokens in order *)

(** A token reads its bytes: a quoted text, a word, or one other byte. *)
Definition reads (source : str) (t : DmToken) : Prop :=
  tk_text t = from_utf8_lossy (take (tk_end t - tk_start t) (drop (tk_start t) source)).

Fixpoint tokens_ok (source : str) (lo line_end : nat) (tokens : list DmToken) : Prop :=
  match tokens with
  | [] => True
  | t :: rest =>
      lo ≤ tk_start t ∧ tk_start t < tk_end t ≤ length source ∧ tk_start t < line_end ∧
      (tk_end t ≤ line_end ∨ tk_end t = line_end + 1 ∧ tk_quoted t = true ∧ rest = []) ∧
      reads source t ∧ tokens_ok source (tk_end t) line_end rest
  end.

Lemma tokens_ok_snoc source lo line_end tokens t index :
  tokens_ok source lo line_end tokens → Forall (λ u, tk_end u ≤ index) tokens → index ≤ tk_start t →
  lo ≤ index → tk_start t < tk_end t ≤ length source → tk_start t < line_end →
  (tk_end t ≤ line_end ∨ tk_end t = line_end + 1 ∧ tk_quoted t = true) → reads source t →
  tokens_ok source lo line_end (tokens ++ [t]).
Proof.
  induction tokens as [|u rest IH] in lo |- *; simpl; intros Hok Hends Hst Hlo Ht Hline Hend Hr.
  { split_and!; try done; try lia. tauto. }
  destruct Hok as (H1 & H2 & H3 & H4 & H5 & H6). apply Forall_cons in Hends as [Hu Hrest].
  split; [done|]. split; [done|]. split; [done|]. split; [left; lia|]. split; [done|].
  apply IH; try done; lia.
Qed.

Lemma lex_line_tokens fuel source line_end bounded s lo index tokens :
  line_end ≤ length source → lo ≤ index →
  tokens_ok source lo line_end tokens → Forall (λ t, tk_end t ≤ index) tokens →
  tokens_ok source lo line_end (lex_line fuel source line_end bounded s index tokens).2.
Proof.
  intros Hl. induction fuel as [|fuel IH] in s, index, tokens |- *; simpl; intros Hlo Hok Hends; [done|].
  destruct (index <? line_end) eqn:Hi; bool_to_prop; [|done].
  pose proof (lex_turn_progress source line_end s index Hi Hl) as Ht.
  destruct (lex_turn source line_end s index) as [|s' next|s' start next quoted]; [done|..].
  - apply IH; [lia|done|]. eapply Forall_impl; [exact Hends|]. simpl. lia.
  - destruct Ht as (-> & Hn & Hq). assert (Forall (λ t, tk_end t ≤ next) tokens) as Hnext.
    { eapply Forall_impl; [exact Hends|]. simpl. lia. }
    destruct bounded; [|apply IH; [lia|done|done]].
    apply IH; [lia| |apply Forall_app; split; [done|by constructor]].
    apply (tokens_ok_snoc _ _ _ _ _ index); simpl; done || lia.
Qed.

(** Lines that follow one another from [lo] to [hi]; an oversized line has no tokens. *)
Fixpoint lines_ok (source : str) (lo : nat) (lines : list DmLine) (hi : nat) : Prop :=
  match lines with
  | [] => lo = hi
  | l :: rest =>
      lo < ln_end l ≤ length source ∧ ln_end l = line_end_of source lo ∧
      tokens_ok source lo (ln_end l) (ln_tokens l) ∧
      (LINE_BYTES < ln_end l - lo → ln_tokens l = []) ∧
      lines_ok source (ln_end l) rest hi
  end.

Lemma lines_ok_snoc source lo lines mid l :
  lines_ok source lo lines mid →
  mid < ln_end l ≤ length source → ln_end l = line_end_of source mid →
  tokens_ok source mid (ln_end l) (ln_tokens l) →
  (LINE_BYTES < ln_end l - mid → ln_tokens l = []) →
  lines_ok source lo (lines ++ [l]) (ln_end l).
Proof.
  induction lines as [|m rest IH] in lo |- *; simpl; [by intros ->|].
  intros (? & ? & ? & ? & ?) **. split_and!; try done; lia || by apply IH.
Qed.

Lemma line_end_of_bounds source offset :
  offset < length source → offset < line_end_of source offset ≤ length source.
Proof.
  intros Ho. unfold line_end_of. destruct (list_find _ (drop offset source)) as [[n c]|] eqn:E; [|lia].
  apply list_find_Some in E as (Hn%lookup_lt_Some & _). rewrite length_drop in Hn. lia.
Qed.

Lemma lex_line_unbounded fuel source line_end s index tokens :
  (lex_line fuel source line_end false s index tokens).2 = tokens.
Proof.
  induction fuel as [|fuel IH] in s, index |- *; simpl; [done|]. destruct (index <? line_end); [|done].
  destruct (lex_turn source line_end s index); auto.
Qed.

Definition tokens_count (lines : list DmLine) : nat := sum_list ((λ l, length (ln_tokens l)) <$> lines).

Lemma tokens_count_snoc lines l : tokens_count (lines ++ [l]) = tokens_count lines + length (ln_tokens l).
Proof.
  unfold tokens_count. induction lines as [|m rest IH]; csimpl; [lia|]. rewrite IH. lia.
Qed.

Lemma lex_lines_ok fuel source lo offset s token_count lines :
  lines_ok source lo lines offset → offset ≤ length source →
  token_count = Z.of_nat (tokens_count lines) → (token_count ≤ MAX_TOKENS)%Z → length source - offset ≤ fuel →
  let '(s', lines') := lex_lines fuel source offset s token_count lines in
  (Z.of_nat (tokens_count lines') ≤ MAX_TOKENS)%Z ∧
  ∃ hi, lines_ok source lo lines' hi ∧ (lex_complete s' = true → hi = length source).
Proof.
  induction fuel as [|fuel IH] in offset, s, token_count, lines |- *; intros Hok Ho Hcount Hmax Hf; cbn [lex_lines].
  { split; [lia|]. exists offset. split; [done|lia]. }
  destruct (offset <? length source) eqn:Hlt; bool_to_prop.
  2: { split; [lia|]. exists offset. split; [done|lia]. }
  cbv zeta. pose proof (line_end_of_bounds source offset Hlt) as Hend.
  set (line_end := line_end_of source offset) in *.
  pose proof (read_indent_bounds (line_end - offset) source line_end 0 offset ltac:(lia)) as Hi.
  destruct (read_indent _ source line_end 0 offset) as [indent index]. simpl in Hi.
  set (bounded := line_end - offset <=? LINE_BYTES).
  pose proof (lex_line_tokens (line_end - index) source line_end bounded
    (set_complete (lex_complete s && bounded) s) offset index [] ltac:(lia) ltac:(lia) I ltac:(constructor)) as Htok.
  assert (LINE_BYTES < line_end - offset →
    (lex_line (line_end - index) source line_end bounded (set_complete (lex_complete s && bounded) s) index []).2 = [])
    as Hbig.
  { intros Hb. assert (bounded = false) as -> by (apply Nat.leb_gt; lia). apply lex_line_unbounded. }
  destruct (lex_line _ source line_end bounded _ index []) as [s' tokens]. simpl in Htok, Hbig.
  destruct (MAX_TOKENS <? _)%Z eqn:Hover; bool_to_prop.
  { split; [lia|]. exists offset. split; done. }
  apply IH; [|lia| |done|lia].
  - change line_end with (ln_end (MkLine indent line_end tokens)) at 2. by apply (lines_ok_snoc _ _ _ offset).
  - rewrite tokens_count_snoc. simpl. lia.
Qed.

Lemma bom_length_bound source : bom_length source ≤ length source.
Proof.
  unfold bom_length. destruct (starts_with _ source) eqn:E; [|lia].
  apply starts_with_true in E as [r ->]. simpl. lia.
Qed.

(** DreamMaker tokens: the tokens of each line stand in order without
    overlapping, inside the line except that a last quoted token may take one
    byte of the next; each carries the text of its bytes, oversized lines carry
    none, at most 250000 are kept, and a complete run covers the whole source. *)
Theorem tokenize_tokens_ordered (source : str) :
  let '(lines, complete) := tokenize source in
  (Z.of_nat (tokens_count lines) ≤ MAX_TOKENS)%Z ∧
  ∃ hi, lines_ok source (bom_length source) lines hi ∧ (complete = true → hi = length source).
Proof.
  unfold tokenize.
  pose proof (lex_lines_ok (length source) source (bom_length source) (bom_length source)
    (MkLex 0 false None true) 0%Z [] eq_refl (bom_length_bound source) eq_refl ltac:(done) ltac:(lia)) as H.
  destruct (lex_lines _ source (bom_length source) _ 0%Z []) as [s lines]. destruct H as (Hc & hi & Hok & Hhi).
  split; [done|]. exists hi. split; [done|]. intros Hcomp. bool_to_prop. by apply Hhi.
Qed.

(** A string continued by a backslash whose next line starts with the closing
    quote: the quote ends the first token and is read again as an opening one,
    so the tokens of the two lines overlap and the rest is taken for a string. *)
Example quote_read_twice :
  let source := lit "a = " ++ [quote_char] ++ lit "x" ++ [backslash; newline; quote_char] ++ lit " b" ++ [newline] in
  ((λ l, (λ t, (tk_start t, tk_end t)) <$> ln_tokens l) <$> (tokenize source).1
   = [[(0, 1); (2, 3); (4, 9)]; [(8, 11)]]) ∧ (tokenize source).2 = false.
Proof. vm_compute. done. Qed.
