(* ===== verification/DmExtract.v ===== *)
(** * DreamMaker recovery

    Models [src/src/extract/dreammaker.rs] and its [dm_declarations.rs],
    [dm_candidates.rs] and [dm_resolve.rs]: declarations recovered from token
    lines by indentation and braces, the lookup tables over them, and the
    resolution of overrides, parent calls, bindings and references. *)
From Stdlib Require Import Ascii String ZArith Lia.
From stdpp Require Import base numbers list gmap strings.
From S2P Require Import Prelude Order Text QueryShape Snippets Diff Extract DmLex.

Definition MAX_FACTS : nat := 50 * 1000.
Definition MAX_CANDIDATES : nat := 64.

Record DmDefinition := MkDm {
  dm_path : str;
  dm_conditional : bool;
  dm_local_owner : option nat;
  dm_scope_end : Z;
  dm_name_start : nat;
  dm_name_end : nat;
}.

Record DmFrame := MkFrame {
  fr_path : str;
  fr_indent : nat;
  fr_brace : option nat;
  fr_definition : option nat;
  fr_procedure : option nat;
}.

Record DmEvidence := MkEvidence {
  ev_tokens : list DmToken;
  ev_procedure : option nat;
  ev_conditional : bool;
}.

(** The variables of [extract]; the stacks hold their top first.  A binding is
    its definition, its indentation and its brace depth. *)
Record Recovery := MkRecovery {
  rc_status : str;
  rc_facts : list DefinitionFact;
  rc_occurrences : list Occurrence;
  rc_relationships : list RelationshipFact;
  rc_definitions : list DmDefinition;
  rc_frames : list DmFrame;
  rc_evidence : list DmEvidence;
  rc_parents : gmap str str;
  rc_braces : nat;
  rc_conditional_depth : nat;
  rc_includes : bool;
  rc_bindings : list (nat * nat * nat);
}.

Definition text_is (t : DmToken) (s : string) : bool := tk_text t =s lit s.
Definition text_in (s : str) (words : list string) : bool := existsb (λ w, s =s lit w) words.

(** ** [dm_declarations.rs] *)

(** [add_definition]; the new definition's index is the number there were. *)
Definition add_definition (token : DmToken) (end_ : nat) (kind : string) (path : str)
    (container : option str) (conditional : bool) (local_owner : option nat) (st : Recovery)
    : nat * Recovery :=
  (length (rc_facts st),
   MkRecovery (rc_status st)
     (rc_facts st ++ [MkDef (tk_text token) (lit kind) (tk_start token) end_ container])
     (rc_occurrences st) (rc_relationships st)
     (rc_definitions st ++ [MkDm path conditional local_owner USIZE_MAX (tk_start token) (tk_end token)])
     (rc_frames st) (rc_evidence st) (rc_parents st) (rc_braces st) (rc_conditional_depth st)
     (rc_includes st) (rc_bindings st)).

(** The loop over [a/b/c]: the parts with their token indices, and the index after. *)
Fixpoint path_parts (index : nat) (tokens : list DmToken) : option (list (str * nat) * nat) :=
  match tokens with
  | [] => None
  | token :: rest =>
      if identifier token then
        match rest with
        | slash :: rest' =>
            if text_is slash "/" then
              match path_parts (index + 2) rest' with
              | Some (parts, stop) => Some ((tk_text token, index) :: parts, stop)
              | None => None
              end
            else Some ([(tk_text token, index)], index + 1)
        | [] => Some ([(tk_text token, index)], index + 1)
        end
      else None
  end.

(** [trim_end_matches] with a string. *)
Fixpoint trim_end_str (fuel : nat) (suffix s : str) : str :=
  match fuel with
  | O => s
  | S fuel => match strip_suffix suffix s with Some s => trim_end_str fuel suffix s | None => s end
  end.
Definition trim_end_text (suffix : string) (s : str) : str := trim_end_str (length s) (lit suffix) s.

Definition statement_words : list string :=
  ["return"; "if"; "else"; "for"; "while"; "switch"; "break"; "continue"; "spawn"; "set"]%string.

(** The path a declaration's parts spell under [base]. *)
Definition declared_path (base : str) (absolute namespace : bool) (parts : list str) : str :=
  let start := if absolute then [] else
    trim_end_text "/var" (trim_end_text "/verb" (trim_end_text "/proc" base)) in
  foldl (λ path part,
    if negb namespace && text_in part ["proc"; "verb"; "var"]%string then path
    else path ++ lit "/" ++ part) start parts.

(** [declaration]: the path, the name's token, the token after and the kind. *)
Definition declaration (tokens : list DmToken) (base : str) (in_proc : bool)
    : option (str * nat * nat * string) :=
  match tokens with
  | [] => None
  | first :: _ =>
      let absolute := text_is first "/" in
      match path_parts (if absolute then 1 else 0) (drop (if absolute then 1 else 0) tokens) with
      | None => None
      | Some (parts, index) =>
          let next := tk_text <$> tokens !! index in
          let variable := existsb (λ p, p.1 =s lit "var") parts || ends_with (lit "/var") base in
          let namespace := match last parts with
                           | Some p => text_in p.1 ["proc"; "verb"; "var"]%string | None => false end in
          let callable := match next with Some t => t =s lit "(" | None => false end in
          if in_proc && negb variable then None
          else if negb callable && negb variable
                  && match next with Some t => negb (text_in t ["{"; "}"; ";"]%string) | None => false end
          then None
          else if match parts with p :: _ => text_in p.1 statement_words | [] => false end then None
          else
            let kind :=
              (if namespace then "namespace"
               else if variable then if in_proc then "binding" else "field"
               else if callable then
                 if existsb (λ p, p.1 =s lit "verb") parts || ends_with (lit "/verb") base
                 then "verb" else "proc"
               else "type")%string in
            match last parts with
            | Some p => Some (declared_path base absolute namespace (fst <$> parts), p.2, index, kind)
            | None => None
            end
      end
  end.

(** [slice.split(pred)]. *)
Fixpoint split_tokens (f : DmToken → bool) (tokens : list DmToken) : list (list DmToken) :=
  match tokens with
  | [] => [[]]
  | t :: rest =>
      if f t then [] :: split_tokens f rest
      else match split_tokens f rest with
           | piece :: pieces => (t :: piece) :: pieces
           | [] => [[t]]
           end
  end.

(** [slice.iter().position(pred)]. *)
Fixpoint position (f : DmToken → bool) (tokens : list DmToken) : option nat :=
  match tokens with
  | [] => None
  | t :: rest => if f t then Some 0 else S <$> position f rest
  end.

Definition parameter_name (parameter : list DmToken) : option DmToken :=
  find identifier (reverse (default [] (head (split_tokens (λ t, text_is t "=") parameter)))).

Definition recover_parameter (owner : nat) (conditional : bool) (st : Recovery) (parameter : list DmToken)
    : Recovery :=
  match parameter_name parameter, rc_definitions st !! owner with
  | Some name, Some d =>
      (add_definition name (tk_end name) "parameter" (dm_path d ++ lit "/" ++ tk_text name)
         (Some (dm_path d)) conditional (Some owner) st).2
  | _, _ => st
  end.

Definition recover_parameters (tokens : list DmToken) (open owner : nat) (conditional : bool) (st : Recovery)
    : Recovery :=
  match position (λ t, text_is t ")") (drop open tokens) with
  | None => st
  | Some n =>
      foldl (recover_parameter owner conditional) st
        (split_tokens (λ t, text_is t ",") (take (n - 1) (drop (open + 1) tokens)))
  end.

(** ** [dreammaker.rs] *)

Section updates.
Context (st : Recovery).
Definition with_status (s : str) : Recovery :=
  MkRecovery s (rc_facts st) (rc_occurrences st) (rc_relationships st) (rc_definitions st) (rc_frames st)
    (rc_evidence st) (rc_parents st) (rc_braces st) (rc_conditional_depth st) (rc_includes st) (rc_bindings st).
Definition with_facts (l : list DefinitionFact) : Recovery :=
  MkRecovery (rc_status st) l (rc_occurrences st) (rc_relationships st) (rc_definitions st) (rc_frames st)
    (rc_evidence st) (rc_parents st) (rc_braces st) (rc_conditional_depth st) (rc_includes st) (rc_bindings st).
Definition push_occurrence (o : Occurrence) : Recovery :=
  MkRecovery (rc_status st) (rc_facts st) (rc_occurrences st ++ [o]) (rc_relationships st) (rc_definitions st)
    (rc_frames st) (rc_evidence st) (rc_parents st) (rc_braces st) (rc_conditional_depth st) (rc_includes st)
    (rc_bindings st).
Definition push_relationship (r : RelationshipFact) : Recovery :=
  MkRecovery (rc_status st) (rc_facts st) (rc_occurrences st) (rc_relationships st ++ [r]) (rc_definitions st)
    (rc_frames st) (rc_evidence st) (rc_parents st) (rc_braces st) (rc_conditional_depth st) (rc_includes st)
    (rc_bindings st).
Definition with_scopes (definitions : list DmDefinition) (bindings : list (nat * nat * nat)) : Recovery :=
  MkRecovery (rc_status st) (rc_facts st) (rc_occurrences st) (rc_relationships st) definitions (rc_frames st)
    (rc_evidence st) (rc_parents st) (rc_braces st) (rc_conditional_depth st) (rc_includes st) bindings.
Definition with_frames (facts : list DefinitionFact) (frames : list DmFrame) : Recovery :=
  MkRecovery (rc_status st) facts (rc_occurrences st) (rc_relationships st) (rc_definitions st) frames
    (rc_evidence st) (rc_parents st) (rc_braces st) (rc_conditional_depth st) (rc_includes st) (rc_bindings st).
Definition push_evidence (e : DmEvidence) : Recovery :=
  MkRecovery (rc_status st) (rc_facts st) (rc_occurrences st) (rc_relationships st) (rc_definitions st)
    (rc_frames st) (rc_evidence st ++ [e]) (rc_parents st) (rc_braces st) (rc_conditional_depth st)
    (rc_includes st) (rc_bindings st).
Definition insert_parent (child parent : str) : Recovery :=
  MkRecovery (rc_status st) (rc_facts st) (rc_occurrences st) (rc_relationships st) (rc_definitions st)
    (rc_frames st) (rc_evidence st) (<[child := parent]> (rc_parents st)) (rc_braces st)
    (rc_conditional_depth st) (rc_includes st) (rc_bindings st).
Definition with_braces (n : nat) : Recovery :=
  MkRecovery (rc_status st) (rc_facts st) (rc_occurrences st) (rc_relationships st) (rc_definitions st)
    (rc_frames st) (rc_evidence st) (rc_parents st) n (rc_conditional_depth st) (rc_includes st) (rc_bindings st).
Definition with_depth (n : nat) : Recovery :=
  MkRecovery (rc_status st) (rc_facts st) (rc_occurrences st) (rc_relationships st) (rc_definitions st)
    (rc_frames st) (rc_evidence st) (rc_parents st) (rc_braces st) n (rc_includes st) (rc_bindings st).
Definition with_includes : Recovery :=
  MkRecovery (rc_status st) (rc_facts st) (rc_occurrences st) (rc_relationships st) (rc_definitions st)
    (rc_frames st) (rc_evidence st) (rc_parents st) (rc_braces st) (rc_conditional_depth st) true (rc_bindings st).
End updates.

Definition set_end (end_ : nat) (d : DefinitionFact) : DefinitionFact :=
  MkDef (df_name d) (df_kind d) (df_start d) end_ (df_container d).
Definition set_start (start : nat) (d : DefinitionFact) : DefinitionFact :=
  MkDef (df_name d) (df_kind d) start (df_end d) (df_container d).
Definition set_scope_end (end_ : nat) (d : DmDefinition) : DmDefinition :=
  MkDm (dm_path d) (dm_conditional d) (dm_local_owner d) (Z.of_nat end_) (dm_name_start d) (dm_name_end d).

(** [close_frame], while the top frame is [closed]. *)
Fixpoint close_frames (closed : DmFrame → bool) (end_ : nat) (facts : list DefinitionFact)
    (frames : list DmFrame) : list DefinitionFact * list DmFrame :=
  match frames with
  | frame :: rest =>
      if closed frame then
        close_frames closed end_
          (match fr_definition frame with Some index => alter (set_end end_) index facts | None => facts end) rest
      else (facts, frames)
  | [] => (facts, [])
  end.

(** The bindings whose indentation or braces have closed end their scope here. *)
Fixpoint close_bindings (indent braces start : nat) (definitions : list DmDefinition)
    (bindings : list (nat * nat * nat)) : list DmDefinition * list (nat * nat * nat) :=
  match bindings with
  | (index, at_indent, depth) :: rest =>
      if (indent <? at_indent) || (braces <? depth)
      then close_bindings indent braces start (alter (set_scope_end start) index definitions) rest
      else (definitions, bindings)
  | [] => (definitions, [])
  end.

(** The text without the quotes around it. *)
Definition trim_quotes (s : str) : str :=
  reverse (drop_while (λ c, c =c quote_char) (reverse (drop_while (λ c, c =c quote_char) s))).

(** A preprocessor line. *)
Definition directive_step (tokens : list DmToken) (line_end : nat) (st : Recovery) : Recovery :=
  let directive := match tokens !! 1 with Some t => tk_text t | None => [] end in
  let st :=
    if text_in directive ["if"; "ifdef"; "ifndef"]%string then with_depth st (rc_conditional_depth st + 1)
    else if directive =s lit "endif" then with_depth st (rc_conditional_depth st - 1)
    else if directive =s lit "include" then
      let st := with_includes st in
      match tokens !! 2 with
      | Some path => push_occurrence st
          (MkOcc (trim_quotes (tk_text path)) (tk_start path) (tk_end path) (lit "include") None []
             (lit "dm-recovery:include;preprocessor-not-evaluated"))
      | None => st
      end
    else if directive =s lit "define" then
      match tokens !! 2 with
      | Some name =>
          if identifier name
          then (add_definition name line_end "macro" (tk_text name) None
                  (0 <? rc_conditional_depth st) None st).2
          else st
      | None => st
      end
    else st in
  if text_in directive ["if"; "ifdef"; "ifndef"; "define"; "undef"]%string
  then push_evidence st (MkEvidence (drop (2 + (if directive =s lit "define" then 1 else 0)) tokens) None true)
  else st.

(** A [parent_type] line. *)
Definition parent_type_step (tokens : list DmToken) (base : str) (conditional : bool) (st : Recovery) : Recovery :=
  match position (λ t, text_is t "=") tokens with
  | None => st
  | Some eq =>
      let after := drop (eq + 1) tokens in
      let spelled := take_while (λ t, identifier t || text_is t "/") after in
      let parent := concat (tk_text <$> spelled) in
      if starts_with (lit "/") parent then
        let start := match head after with Some t => tk_start t | None => 0 end in
        let parent_end := match last spelled with
                          | Some t => tk_end t
                          | None => match head after with Some t => tk_end t | None => 0 end end in
        let st := push_occurrence st
          (MkOcc parent start parent_end (lit "parent_type") None []
             (lit "dm-recovery:explicit-parent-type;preprocessor-not-evaluated")) in
        let st := match head (rc_frames st) ≫= fr_definition with
                  | Some owner => push_relationship st
                      (MkRel owner None (lit "inheritance") start parent_end
                         (lit "dm-recovery:explicit-parent-type"))
                  | None => st
                  end in
        if negb conditional then insert_parent st base parent else st
      else st
  end.

Definition count_text (s : string) (tokens : list DmToken) : nat :=
  length (List.filter (λ t, text_is t s) tokens).

(** The frame a header opens, when its braces leave it open. *)
Definition open_frame (path : str) (line : DmLine) (index : nat) (procedure : option nat) (st : Recovery) : Recovery :=
  let open := count_text "{" (ln_tokens line) in
  let close := count_text "}" (ln_tokens line) in
  if (open =? 0) || (close <? open)
  then with_frames st (rc_facts st)
         (MkFrame path (ln_indent line) (if 0 <? open then Some (rc_braces st + 1) else None)
            (Some index) procedure :: rc_frames st)
  else st.

(** A recognised declaration. *)
Definition declaration_step (line : DmLine) (first : DmToken) (procedure : option nat) (conditional : bool)
    (path : str) (name_index path_end : nat) (kind : string) (st : Recovery) : Recovery :=
  let tokens := ln_tokens line in
  let container := match rsplit_once "/"%char path with
                   | Some (parent, _) => if parent =s [] then None else Some parent
                   | None => None end in
  let local := if String.eqb kind "binding" then procedure else None in
  match tokens !! name_index with
  | None => st
  | Some name =>
      let '(index, st) := add_definition name (ln_end line) kind path container conditional local st in
      let st := with_facts st (alter (set_start (tk_start first)) index (rc_facts st)) in
      let st := if String.eqb kind "binding"
                then with_scopes st (rc_definitions st) ((index, ln_indent line, rc_braces st) :: rc_bindings st)
                else st in
      if String.eqb kind "proc" || String.eqb kind "verb" then
        let st := open_frame path line index (Some index) st in
        let st := recover_parameters tokens path_end index conditional st in
        let tail := match position (λ t, text_is t ")") tokens with Some n => n + 1 | None => length tokens end in
        push_evidence st (MkEvidence (drop tail tokens) (Some index) conditional)
      else if String.eqb kind "type" || String.eqb kind "namespace" then open_frame path line index None st
      else push_evidence st (MkEvidence (drop path_end tokens) procedure conditional)
  end.

Definition count_braces (braces : nat) (tokens : list DmToken) : nat :=
  foldl (λ braces t, if text_is t "{" then braces + 1 else if text_is t "}" then braces - 1 else braces)
    braces tokens.

Definition fact_count (st : Recovery) : nat :=
  length (rc_facts st) + length (rc_occurrences st) + length (rc_relationships st).

Definition INCOMPLETE : str := lit "recovered_incomplete".

(** The part of a line's step after the preprocessor lines. *)
Definition code_step (line : DmLine) (first : DmToken) (effective_braces : nat) (st : Recovery) : Recovery :=
  let tokens := ln_tokens line in
  let '(facts, frames) :=
    close_frames (λ frame, match fr_brace frame with
                           | Some depth => effective_braces <? depth
                           | None => ln_indent line <=? fr_indent frame
                           end) (tk_start first) (rc_facts st) (rc_frames st) in
  let st := with_frames st facts frames in
  let procedure := head (omap fr_procedure frames) in
  let base := match head frames with Some f => fr_path f | None => [] end in
  let conditional := 0 <? rc_conditional_depth st in
  let in_proc := match procedure with Some _ => true | None => false end in
  let st :=
    if negb in_proc && text_is first "parent_type" then parent_type_step tokens base conditional st
    else match declaration tokens base in_proc with
         | Some (path, name_index, path_end, kind) =>
             declaration_step line first procedure conditional path name_index path_end kind st
         | None => push_evidence st (MkEvidence tokens procedure conditional)
         end in
  with_braces st (count_braces (rc_braces st) tokens).

(** The body of the loop over the lines; [None] is the [break] at the fact limit. *)
Definition line_step (line : DmLine) (st : Recovery) : option Recovery :=
  let tokens := ln_tokens line in
  match tokens with
  | [] => Some st
  | first :: _ =>
      if MAX_FACTS <? fact_count st + length tokens + 2 then None
      else
        let closing := length (take_while (λ t, text_is t "}") tokens) in
        let effective_braces := rc_braces st - closing in
        let '(definitions, bindings) :=
          close_bindings (ln_indent line) effective_braces (tk_start first) (rc_definitions st) (rc_bindings st) in
        let st := with_scopes st definitions bindings in
        Some (if text_is first "#" then directive_step tokens (ln_end line) st
              else code_step line first effective_braces st)
  end.

Fixpoint lines_loop (lines : list DmLine) (st : Recovery) : Recovery :=
  match lines with
  | [] => st
  | line :: lines =>
      match line_step line st with
      | Some st => lines_loop lines st
      | None => with_status st INCOMPLETE
      end
  end.

Definition recovery_start (complete : bool) : Recovery :=
  MkRecovery (if complete then lit "recovered" else INCOMPLETE) [] [] [] [] [] [] ∅ 0 0 false [].

(** [extract] up to the call of [resolve]. *)
Definition recover (source : str) : Recovery :=
  let '(lines, complete) := tokenize source in
  let st := lines_loop lines (recovery_start complete) in
  let st := with_frames st (close_frames (λ _, true) (length source) (rc_facts st) (rc_frames st)).1 [] in
  if 0 <? rc_conditional_depth st then with_status st INCOMPLETE else st.

(** ** [dm_candidates.rs] *)

Record DmLookup := MkLookup {
  lk_names : gmap str (list nat);
  lk_paths : gmap str (list nat);
  lk_bindings : gmap (nat * str) (list nat);
}.

(** [map.entry(key).or_default().push(index)]. *)
Definition push_entry {K} `{Countable K} (key : K) (index : nat) (m : gmap K (list nat)) : gmap K (list nat) :=
  <[key := default [] (m !! key) ++ [index]]> m.

Definition is_procedure (d : DefinitionFact) : bool := text_in (df_kind d) ["proc"; "verb"]%string.

Definition lookup_add (lookup : DmLookup) (index : nat) (fact : DefinitionFact) (definition : DmDefinition)
    : DmLookup :=
  MkLookup
    (if length (default [] (lk_names lookup !! df_name fact)) <=? MAX_CANDIDATES
     then push_entry (df_name fact) index (lk_names lookup) else lk_names lookup)
    (if is_procedure fact then push_entry (dm_path definition) index (lk_paths lookup) else lk_paths lookup)
    (match dm_local_owner definition with
     | Some owner => push_entry (owner, df_name fact) index (lk_bindings lookup)
     | None => lk_bindings lookup
     end).

Fixpoint lookup_from (index : nat) (facts : list DefinitionFact) (definitions : list DmDefinition)
    (lookup : DmLookup) : DmLookup :=
  match facts, definitions with
  | fact :: facts, definition :: definitions =>
      lookup_from (index + 1) facts definitions (lookup_add lookup index fact definition)
  | _, _ => lookup
  end.
Definition lookup_new (facts : list DefinitionFact) (definitions : list DmDefinition) : DmLookup :=
  lookup_from 0 facts definitions (MkLookup ∅ ∅ ∅).

Definition candidates (lookup : DmLookup) (name : str) : list nat * bool :=
  let entries := default [] (lk_names lookup !! name) in
  (take MAX_CANDIDATES entries, MAX_CANDIDATES <? length entries).

Section tables.
Context (facts : list DefinitionFact) (definitions : list DmDefinition) (parents : gmap str str).

Definition conditional_at (i : nat) : bool :=
  match definitions !! i with Some d => dm_conditional d | None => true end.
Definition path_at (i : nat) : str := match definitions !! i with Some d => dm_path d | None => [] end.

(** [DmLookup::binding]: the innermost binding in scope, blocked when conditional. *)
Definition binding (lookup : DmLookup) (owner : option nat) (name : str) (start : nat) : option nat * bool :=
  match owner ≫= λ owner, lk_bindings lookup !! (owner, name) with
  | None => (None, false)
  | Some entries =>
      let end_ := partition_point (λ i, match definitions !! i with
                                        | Some d => dm_name_start d <=? start | None => false end) entries in
      let target := find (λ i, match definitions !! i with
                               | Some d => (Z.of_nat start <? dm_scope_end d)%Z | None => false end)
                      (take MAX_CANDIDATES (reverse (take end_ entries))) in
      (match target with Some i => if conditional_at i then None else Some i | None => None end,
       (MAX_CANDIDATES <? end_) && match target with None => true | Some _ => false end)
  end.

(** The walk up the declared parents; at most [MAX_CANDIDATES] are visited, so
    one more turn than that is enough. *)
Fixpoint parent_walk (fuel : nat) (lookup : DmLookup) (name ancestor : str) (visited : list str)
    : list nat * bool :=
  match fuel with
  | O => ([], false)
  | S fuel =>
      match parents !! ancestor with
      | None => ([], false)
      | Some parent =>
          if bool_decide (parent ∈ visited) then ([], false)
          else if length visited =? MAX_CANDIDATES then ([], true)
          else match lk_paths lookup !! (parent ++ lit "/" ++ name) with
               | Some entries => (take MAX_CANDIDATES entries, MAX_CANDIDATES <? length entries)
               | None => parent_walk fuel lookup name parent (visited ++ [parent])
               end
      end
  end.

(** [DmLookup::parent_candidates]. *)
Definition parent_candidates (lookup : DmLookup) (owner : nat) : list nat * bool :=
  let entries := default [] (lk_paths lookup !! path_at owner) in
  let end_ := partition_point (λ i, i <? owner) entries in
  let same := drop (end_ - MAX_CANDIDATES) (take end_ entries) in
  let truncated := MAX_CANDIDATES <? end_ in
  match same with
  | _ :: _ => (same, truncated)
  | [] =>
      match facts !! owner ≫= df_container with
      | None => (same, truncated)
      | Some ancestor =>
          let name := match facts !! owner with Some f => df_name f | None => [] end in
          let '(found, more) := parent_walk (MAX_CANDIDATES + 1) lookup name ancestor [] in
          (found, truncated || more)
      end
  end.

(** ** [dm_resolve.rs] *)

Definition annotate_truncation (provenance : str) (truncated : bool) : str :=
  if truncated then provenance ++ lit ";candidates-truncated" else provenance.

Definition keyword (name : str) : bool :=
  text_in name ["return"; "if"; "else"; "for"; "while"; "switch"; "break"; "continue"; "spawn"; "set";
                "var"; "new"; "del"; "in"; "as"; "null"; "TRUE"; "FALSE"]%string.

(** What [resolve] collects, with [fact_limit]. *)
Record Resolved := MkResolved {
  rs_occurrences : list Occurrence;
  rs_relationships : list RelationshipFact;
  rs_limit : bool;
}.
Definition rs_push (r : Resolved) (o : Occurrence) : Resolved :=
  MkResolved (rs_occurrences r ++ [o]) (rs_relationships r) (rs_limit r).
Definition rs_relate (r : Resolved) (x : RelationshipFact) : Resolved :=
  MkResolved (rs_occurrences r) (rs_relationships r ++ [x]) (rs_limit r).
Definition rs_stop (r : Resolved) : Resolved := MkResolved (rs_occurrences r) (rs_relationships r) true.
Definition rs_count (r : Resolved) : nat := length (rs_occurrences r) + length (rs_relationships r).

Context (complete includes : bool) (base_count : nat).

(** One override: the previous procedure of the same path. *)
Definition override (r : Resolved) (index previous : nat) (definition : DmDefinition) : Resolved :=
  let target :=
    if complete && negb includes && negb (dm_conditional definition) && negb (conditional_at previous)
    then Some previous else None in
  let name := match facts !! index with Some f => df_name f | None => [] end in
  rs_relate
    (rs_push r (MkOcc name (dm_name_start definition) (dm_name_end definition) (lit "override") target [previous]
                  (lit "dm-recovery:same-type-override-order")))
    (MkRel index target (lit "override") (dm_name_start definition) (dm_name_end definition)
       (lit "dm-recovery:same-type-override-order")).

(** The loop over the definitions from [index] on. *)
Fixpoint override_loop (index : nat) (rest : list DmDefinition) (prior : gmap str nat) (r : Resolved) : Resolved :=
  match rest with
  | [] => r
  | definition :: rest =>
      if MAX_FACTS <? base_count + rs_count r + 2 then rs_stop r
      else if match facts !! index with Some f => is_procedure f | None => false end then
        let r := match prior !! dm_path definition with
                 | Some previous => override r index previous definition
                 | None => r
                 end in
        override_loop (index + 1) rest (<[dm_path definition := index]> prior) r
      else override_loop (index + 1) rest prior r
  end.

(** [..()] inside [owner]: a call of the parent procedure. *)
Definition parent_call (lookup : DmLookup) (conditional : bool) (owner start end_ : nat) (r : Resolved) : Resolved :=
  let '(found, truncated) := parent_candidates lookup owner in
  let target :=
    match last found with
    | Some i =>
        if complete && negb truncated && negb includes && negb conditional
           && negb (conditional_at owner) && negb (conditional_at i)
           && (path_at i =s path_at owner) && (i <? owner)
           && forallb (λ n, negb (conditional_at n)) found
        then Some i else None
    | None => None
    end in
  let provenance := annotate_truncation
    (match target with
     | Some _ => lit "dm-recovery:same-type-override-order"
     | None => lit "dm-recovery:parent;project-order-or-inheritance-unverified"
     end) truncated in
  rs_relate
    (rs_push r (MkOcc (lit "..") start end_ (lit "parent_call") target found provenance))
    (MkRel owner target (lit "parent_call") start end_ provenance).

(** [recover_signal_argument]: the second argument at depth one. *)
Fixpoint signal_argument (depth argument : nat) (tokens : list DmToken) : option DmToken :=
  match tokens with
  | [] => None
  | t :: rest =>
      if text_is t "(" then signal_argument (depth + 1) argument rest
      else if text_is t ")" then
        if depth - 1 =? 0 then None else signal_argument (depth - 1) argument rest
      else if text_is t "," && (depth =? 1) then signal_argument depth (argument + 1) rest
      else if (depth =? 1) && (argument =? 1) && (tk_quoted t || identifier t) then Some t
      else signal_argument depth argument rest
  end.
Definition recover_signal_argument (r : Resolved) (rest : list DmToken) : Resolved :=
  match signal_argument 0 0 (take MAX_CANDIDATES rest) with
  | Some t => rs_push r (MkOcc (trim_quotes (tk_text t)) (tk_start t) (tk_end t) (lit "signal") None []
                           (lit "dm-recovery:observed-signal-argument"))
  | None => r
  end.

(** A reference, call or signal by name. *)
Definition reference (lookup : DmLookup) (site : DmEvidence) (previous : option str) (token : DmToken)
    (rest : list DmToken) (r : Resolved) : Resolved :=
  let '(found, truncated) := candidates lookup (tk_text token) in
  let '(bound, truncated) :=
    if complete && negb (ev_conditional site)
       && match previous with Some p => negb (text_in p ["."; ":"; "/"]%string) | None => true end
    then let '(bound, limited) := binding lookup (ev_procedure site) (tk_text token) (tk_start token) in
         (bound, truncated || limited)
    else (None, truncated) in
  let call := match rest with t :: _ => text_is t "(" | [] => false end in
  let signal := text_in (tk_text token) ["SEND_SIGNAL"; "RegisterSignal"; "UnregisterSignal"]%string in
  let macro_reference :=
    existsb (λ i, match facts !! i with Some f => df_kind f =s lit "macro" | None => false end) found in
  let role := lit (if signal then "signal_call" else if call then "call"
                   else if macro_reference then "macro_reference" else "reference")%string in
  let provenance := annotate_truncation
    (match bound with
     | Some _ => lit "dm-recovery:lexical-binding"
     | None => if signal then lit "dm-recovery:observed-signal-pattern"
               else lit "dm-recovery:name-candidates;preprocessor-not-evaluated"
     end) truncated in
  let r := rs_push r (MkOcc (tk_text token) (tk_start token) (tk_end token) role bound found provenance) in
  let r := match call, ev_procedure site with
           | true, Some owner =>
               rs_relate r (MkRel owner bound role (tk_start token) (tk_end token) provenance)
           | _, _ => r
           end in
  if signal then recover_signal_argument r rest else r.

(** The loop over a site's tokens; [previous] is the token before. *)
Fixpoint site_loop (lookup : DmLookup) (site : DmEvidence) (previous : option str) (tokens : list DmToken)
    (r : Resolved) : Resolved :=
  match tokens with
  | [] => r
  | token :: rest =>
      if MAX_FACTS <? base_count + rs_count r + 3 then rs_stop r
      else
        let r :=
          match text_is token ".", rest with
          | true, dot :: open :: _ =>
              if text_is dot "." && text_is open "(" then
                match ev_procedure site with
                | Some owner => parent_call lookup (ev_conditional site) owner (tk_start token) (tk_end dot) r
                | None => r
                end
              else if negb (identifier token) || keyword (tk_text token) then r
              else reference lookup site previous token rest r
          | _, _ =>
              if negb (identifier token) || keyword (tk_text token) then r
              else reference lookup site previous token rest r
          end in
        site_loop lookup site (Some (tk_text token)) rest r
  end.

(** The loop over the sites; the limit ends it. *)
Fixpoint sites_loop (lookup : DmLookup) (sites : list DmEvidence) (r : Resolved) : Resolved :=
  match sites with
  | [] => r
  | site :: sites =>
      let before := rs_limit r in
      let r := site_loop lookup site None (ev_tokens site) (MkResolved (rs_occurrences r) (rs_relationships r) false) in
      if rs_limit r then r
      else sites_loop lookup sites (MkResolved (rs_occurrences r) (rs_relationships r) before)
  end.

End tables.

Definition blank_occurrence (o : Occurrence) : Occurrence :=
  MkOcc (oc_name o) (oc_start o) (oc_end o) (oc_role o) None (oc_candidates o)
    (oc_provenance o ++ lit ";incomplete-extraction").
Definition blank_relationship (r : RelationshipFact) : RelationshipFact :=
  MkRel (re_source r) None (re_kind r) (re_evidence_start r) (re_evidence_end r)
    (re_provenance r ++ lit ";incomplete-extraction").

(** [resolve], from the state [extract] hands to it. *)
Definition resolve (st : Recovery) : FileExtraction :=
  let complete := rc_status st =s lit "recovered" in
  let facts := rc_facts st in
  let definitions := rc_definitions st in
  let lookup := lookup_new facts definitions in
  let base_count := fact_count st in
  let r := override_loop facts definitions complete (rc_includes st) base_count 0 definitions ∅
             (MkResolved [] [] false) in
  let r := sites_loop facts definitions (rc_parents st) complete (rc_includes st) base_count lookup
             (rc_evidence st) r in
  let occurrences := rc_occurrences st ++ rs_occurrences r in
  let relationships := rc_relationships st ++ rs_relationships r in
  let status := if rs_limit r then INCOMPLETE else rc_status st in
  if status =s lit "recovered"
  then MkExt (lit "dreammaker") status facts occurrences relationships
  else MkExt (lit "dreammaker") status facts (blank_occurrence <$> occurrences)
         (blank_relationship <$> relationships).

(** [dreammaker::extract]. *)
Definition extract (source : str) : FileExtraction := resolve (recover source).

Definition nl_tab (n : nat) : str := newline :: replicate n (chr 9).

(** The scope of an indented local ends with its block. *)
Example block_local :
  let source := lit "/proc/run()" ++ nl_tab 1 ++ lit "if(TRUE)" ++ nl_tab 2 ++ lit "var/item = 1" ++ nl_tab 2
    ++ lit "consume(item)" ++ nl_tab 1 ++ lit "consume(item)" ++ nl_tab 0 in
  oc_target <$> List.filter (λ o, oc_name o =s lit "item") (ex_occurrences (extract source)) = [Some 1; None].
Proof. vm_compute. reflexivity. Qed.

(** A second procedure of a type overrides the first, unless the first is conditional. *)
Example override_order :
  let source := lit "/obj/proc/run()" ++ nl_tab 1 ++ lit "return 1" ++ nl_tab 0 ++ lit "/obj/run()" ++ nl_tab 1
    ++ lit "return ..()" ++ nl_tab 0 in
  (λ r, (re_kind r, re_source r, re_target r)) <$> ex_relationships (extract source)
  = [(lit "override", 1, Some 0); (lit "parent_call", 1, Some 0)].
Proof. vm_compute. reflexivity. Qed.

(** ** The bound on facts *)

#[local] Opaque MAX_FACTS MAX_CANDIDATES.

Section bound.
Implicit Types st : Recovery.

Lemma fact_count_add token end_ kind path container conditional owner st :
  fact_count (add_definition token end_ kind path container conditional owner st).2 = fact_count st + 1.
Proof. unfold fact_count. simpl. rewrite length_app. simpl. lia. Qed.

Lemma close_frames_length closed end_ facts frames :
  length (close_frames closed end_ facts frames).1 = length facts.
Proof.
  induction frames as [|f rest IH] in facts |- *; simpl; [done|]. destruct (closed f); [|done].
  rewrite IH. destruct (fr_definition f); [apply length_alter|done].
Qed.

Lemma close_bindings_length indent braces start definitions bindings :
  length (close_bindings indent braces start definitions bindings).1 = length definitions.
Proof.
  induction bindings as [|[[i ind] dep] rest IH] in definitions |- *; simpl; [done|].
  destruct (_ || _); [|done]. by rewrite IH, length_alter.
Qed.

(** The pieces of a split hold its tokens. *)
Definition named (pieces : list (list DmToken)) : nat :=
  length (List.filter (λ p, match p with [] => false | _ => true end) pieces).

Lemma split_tokens_named f tokens : named (split_tokens f tokens) ≤ length tokens.
Proof.
  enough (named (split_tokens f tokens) ≤ length tokens ∧
    (match split_tokens f tokens with [] :: rest => named rest + 1 ≤ length tokens + 1 | _ => True end))
    as [? _] by done.
  induction tokens as [|t rest [IH1 IH2]]; simpl; [unfold named; simpl; lia|].
  destruct (f t).
  - unfold named in *. simpl. lia.
  - destruct (split_tokens f rest) as [|[|u p] pieces]; unfold named in *; simpl in *; lia.
Qed.

Lemma recover_parameter_count owner conditional st parameter :
  fact_count (recover_parameter owner conditional st parameter)
  ≤ fact_count st + (match parameter with [] => 0 | _ => 1 end).
Proof.
  unfold recover_parameter. destruct parameter as [|t p]; [unfold parameter_name; simpl; lia|].
  destruct (parameter_name _); [|lia]. destruct (rc_definitions st !! owner); [|lia].
  rewrite fact_count_add. lia.
Qed.

Lemma recover_parameters_count tokens open owner conditional st :
  fact_count (recover_parameters tokens open owner conditional st) ≤ fact_count st + length tokens.
Proof.
  unfold recover_parameters. destruct (position _ _) as [n|]; [|lia].
  set (slice := take (n - 1) (drop (open + 1) tokens)).
  assert (length slice ≤ length tokens) as Hs by (subst slice; rewrite length_take, length_drop; lia).
  pose proof (split_tokens_named (λ t, text_is t ",") slice) as Hn.
  enough (∀ pieces st, fact_count (foldl (recover_parameter owner conditional) st pieces) ≤ fact_count st + named pieces) as H
    by (specialize (H (split_tokens (λ t, text_is t ",") slice) st); lia).
  clear. induction pieces as [|p pieces IH]; intros st; simpl; [unfold named; simpl; lia|].
  pose proof (IH (recover_parameter owner conditional st p)). pose proof (recover_parameter_count owner conditional st p).
  unfold named in *. simpl. destruct p; simpl; lia.
Qed.

Lemma open_frame_count path line index procedure st :
  fact_count (open_frame path line index procedure st) = fact_count st.
Proof. unfold open_frame. by destruct (_ || _). Qed.

Lemma declaration_step_count line first procedure conditional path name_index path_end kind st :
  fact_count (declaration_step line first procedure conditional path name_index path_end kind st)
  ≤ fact_count st + length (ln_tokens line) + 1.
Proof.
  unfold declaration_step. cbv zeta. destruct (ln_tokens line !! name_index) as [name|]; [|lia].
  destruct (add_definition _ _ _ _ _ _ _ st) as [index st1] eqn:Hadd.
  assert (fact_count st1 = fact_count st + 1) as H1 by (change st1 with (index, st1).2; rewrite <-Hadd; apply fact_count_add).
  set (st2 := with_facts st1 _).
  assert (fact_count st2 = fact_count st + 1) as H2.
  { subst st2. unfold fact_count in *. simpl. by rewrite length_alter. }
  clearbody st2.
  set (st3 := if String.eqb kind "binding" then _ else st2).
  assert (fact_count st3 = fact_count st + 1) as H3 by (subst st3; by destruct (String.eqb kind "binding")).
  clearbody st3. destruct (_ || _).
  - change (fact_count (push_evidence ?s _)) with (fact_count s).
    etrans; [apply recover_parameters_count|]. rewrite open_frame_count. lia.
  - destruct (_ || _); [rewrite open_frame_count; lia|].
    change (fact_count (push_evidence ?s _)) with (fact_count s). lia.
Qed.

Lemma fact_count_occurrence st o : fact_count (push_occurrence st o) = fact_count st + 1.
Proof. unfold fact_count. simpl. rewrite length_app. simpl. lia. Qed.
Lemma fact_count_relationship st r : fact_count (push_relationship st r) = fact_count st + 1.
Proof. unfold fact_count. simpl. rewrite length_app. simpl. lia. Qed.

Lemma parent_type_step_count tokens base conditional st :
  fact_count (parent_type_step tokens base conditional st) ≤ fact_count st + 2.
Proof.
  unfold parent_type_step. destruct (position _ tokens); [|lia]. cbv zeta. destruct (starts_with _ _); [|lia].
  set (st1 := push_occurrence st _).
  assert (fact_count st1 = fact_count st + 1) as H1 by apply fact_count_occurrence. clearbody st1.
  set (st2 := match head (rc_frames st1) ≫= fr_definition with Some _ => _ | None => _ end).
  assert (fact_count st2 ≤ fact_count st + 2) as H2.
  { subst st2. destruct (head (rc_frames st1) ≫= fr_definition); [rewrite fact_count_relationship|]; lia. }
  clearbody st2. by destruct (negb conditional).
Qed.

Lemma directive_step_count tokens line_end st : fact_count (directive_step tokens line_end st) ≤ fact_count st + 1.
Proof.
  unfold directive_step. cbv zeta.
  set (st1 := if text_in _ _ then with_depth st _ else _).
  assert (fact_count st1 ≤ fact_count st + 1) as H.
  { subst st1. destruct (text_in _ _); [unfold fact_count; simpl; lia|].
    destruct (_ =s _); [unfold fact_count; simpl; lia|].
    destruct (_ =s _).
    { destruct (tokens !! 2); [rewrite fact_count_occurrence|]; unfold fact_count; simpl; lia. }
    destruct (_ =s _); [|lia]. destruct (tokens !! 2) as [name|]; [|lia].
    destruct (identifier name); [rewrite fact_count_add|]; lia. }
  clearbody st1. by destruct (text_in _ _).
Qed.

Lemma line_step_count line st st' :
  line_step line st = Some st' → fact_count st ≤ MAX_FACTS → fact_count st' ≤ MAX_FACTS.
Proof.
  unfold line_step. destruct (ln_tokens line) as [|first rest] eqn:Ht; [by intros [= ->]|].
  rewrite <-Ht. destruct (MAX_FACTS <? _) eqn:Hmax; [done|]. apply Nat.ltb_ge in Hmax.
  destruct (close_bindings _ _ _ _ _) as [definitions bindings]. intros [= <-] _.
  set (st1 := with_scopes st definitions bindings).
  assert (fact_count st1 = fact_count st) as H1 by done. clearbody st1.
  destruct (text_is first "#").
  { etrans; [apply directive_step_count|]. lia. }
  unfold code_step. cbv zeta.
  pose proof (close_frames_length (λ frame, match fr_brace frame with
    | Some depth => rc_braces st - length (take_while (λ t, text_is t "}") (ln_tokens line)) <? depth
    | None => ln_indent line <=? fr_indent frame end) (tk_start first) (rc_facts st1) (rc_frames st1)) as Hc.
  destruct (close_frames _ _ (rc_facts st1) (rc_frames st1)) as [facts frames]. simpl in Hc.
  set (st2 := with_frames st1 facts frames).
  assert (fact_count st2 = fact_count st) as H2 by (unfold fact_count in *; simpl; lia). clearbody st2.
  change (fact_count (with_braces ?s _)) with (fact_count s).
  destruct (_ && _); [etrans; [apply parent_type_step_count|]; lia|].
  destruct (declaration _ _ _) as [[[[path name_index] path_end] kind]|].
  - etrans; [apply declaration_step_count|]. lia.
  - change (fact_count (push_evidence ?s _)) with (fact_count s). lia.
Qed.

Lemma recover_count source : fact_count (recover source) ≤ MAX_FACTS.
Proof.
  unfold recover. destruct (tokenize source) as [lines complete]. cbv zeta.
  assert (∀ lines st, fact_count st ≤ MAX_FACTS → fact_count (lines_loop lines st) ≤ MAX_FACTS) as Hloop.
  { clear. induction lines as [|line lines IH]; intros st Hst; simpl; [done|].
    destruct (line_step line st) as [st'|] eqn:E; [|done]. apply IH. by eapply line_step_count. }
  specialize (Hloop lines (recovery_start complete) (Nat.le_0_l MAX_FACTS)).
  set (st := lines_loop lines _) in *. clearbody st.
  set (st' := with_frames st _ []).
  assert (fact_count st' ≤ MAX_FACTS) as H.
  { unfold fact_count in *. simpl. by rewrite close_frames_length. }
  by destruct (0 <? _).
Qed.

End bound.

(** ** Recovered indices are definitions *)

Definition below (n : nat) (o : option nat) : Prop := match o with Some i => i < n | None => True end.

Record rc_ok (st : Recovery) : Prop := {
  ok_length : length (rc_definitions st) = length (rc_facts st);
  ok_frames : Forall (λ f, below (length (rc_facts st)) (fr_definition f) ∧
                           below (length (rc_facts st)) (fr_procedure f)) (rc_frames st);
  ok_evidence : Forall (λ e, below (length (rc_facts st)) (ev_procedure e)) (rc_evidence st);
  ok_occurrences : Forall (λ o, oc_target o = None ∧ oc_candidates o = []) (rc_occurrences st);
  ok_relationships : Forall (λ r, re_target r = None ∧ re_source r < length (rc_facts st)) (rc_relationships st);
}.

Lemma below_mono n m o : n ≤ m → below n o → below m o.
Proof. destruct o; simpl; lia. Qed.

(** Adding facts keeps the indices valid. *)
Lemma rc_ok_grow st st' :
  rc_ok st → length (rc_facts st) ≤ length (rc_facts st') →
  length (rc_definitions st') = length (rc_facts st') →
  rc_frames st' = rc_frames st → rc_evidence st' = rc_evidence st →
  rc_occurrences st' = rc_occurrences st → rc_relationships st' = rc_relationships st → rc_ok st'.
Proof.
  intros [Hl Hf He Ho Hr] Hle Hl' Ef Ee Eo Er. split; rewrite ?Ef, ?Ee, ?Eo, ?Er; try done.
  - eapply Forall_impl; [exact Hf|]. simpl. intros f [??]. split; by eapply below_mono.
  - eapply Forall_impl; [exact He|]. simpl. intros e ?. by eapply below_mono.
  - eapply Forall_impl; [exact Hr|]. simpl. intros r [??]. split; [done|lia].
Qed.

Section preserved.
Implicit Types st : Recovery.

Lemma add_definition_ok token end_ kind path container conditional owner st :
  rc_ok st → rc_ok (add_definition token end_ kind path container conditional owner st).2.
Proof.
  intros H. apply (rc_ok_grow st); try done; simpl; rewrite !length_app; simpl; [lia|]. by rewrite (ok_length _ H).
Qed.

Lemma recover_parameter_ok owner conditional st p :
  rc_ok st → rc_ok (recover_parameter owner conditional st p) ∧
  length (rc_facts st) ≤ length (rc_facts (recover_parameter owner conditional st p)).
Proof.
  intros H. unfold recover_parameter. destruct (parameter_name p); [|done].
  destruct (rc_definitions st !! owner); [|done]. split; [by apply add_definition_ok|].
  simpl. rewrite length_app. lia.
Qed.

Lemma recover_parameters_ok tokens open owner conditional st :
  rc_ok st → rc_ok (recover_parameters tokens open owner conditional st) ∧
  length (rc_facts st) ≤ length (rc_facts (recover_parameters tokens open owner conditional st)).
Proof.
  unfold recover_parameters. destruct (position _ _) as [n|]; [|done].
  generalize (split_tokens (λ t, text_is t ",") (take (n - 1) (drop (open + 1) tokens))) as pieces.
  induction pieces as [|p pieces IH] in st |- *; intros H; simpl; [done|].
  destruct (recover_parameter_ok owner conditional st p H) as [H1 H2].
  destruct (IH _ H1) as [H3 H4]. split; [done|lia].
Qed.

Lemma push_evidence_ok st e : rc_ok st → below (length (rc_facts st)) (ev_procedure e) → rc_ok (push_evidence st e).
Proof. intros [? ? ? ? ?] He. split; simpl; try done. apply Forall_app. split; [done|by constructor]. Qed.

Lemma open_frame_ok path line index procedure st :
  rc_ok st → index < length (rc_facts st) → below (length (rc_facts st)) procedure →
  rc_ok (open_frame path line index procedure st) ∧
  length (rc_facts (open_frame path line index procedure st)) = length (rc_facts st).
Proof.
  intros [? ? ? ? ?] Hi Hp. unfold open_frame. destruct (_ || _); [|done]. split; [|done].
  split; simpl; try done. by constructor.
Qed.

Lemma declaration_step_ok line first procedure conditional path name_index path_end kind st :
  rc_ok st → below (length (rc_facts st)) procedure →
  rc_ok (declaration_step line first procedure conditional path name_index path_end kind st).
Proof.
  intros H Hp. unfold declaration_step. cbv zeta. destruct (ln_tokens line !! name_index) as [name|]; [|done].
  pose proof (add_definition_ok name (ln_end line) kind path
    (match rsplit_once "/"%char path with
     | Some (parent, _) => if parent =s [] then None else Some parent | None => None end) conditional
    (if String.eqb kind "binding" then procedure else None) st H) as H1.
  destruct (add_definition _ _ _ _ _ _ _ st) as [index st1] eqn:Hadd. simpl in H1.
  assert (index = length (rc_facts st) ∧ length (rc_facts st1) = length (rc_facts st) + 1) as [Hi Hl1].
  { unfold add_definition in Hadd. simplify_eq/=. by rewrite length_app. }
  set (st2 := with_facts st1 _).
  assert (rc_ok st2 ∧ length (rc_facts st2) = length (rc_facts st) + 1) as [H2 Hl2].
  { split; [apply (rc_ok_grow st1); try done; simpl; rewrite length_alter; [lia|apply H1]|].
    subst st2. simpl. rewrite length_alter. done. }
  clearbody st2.
  set (st3 := if String.eqb kind "binding" then _ else st2).
  assert (rc_ok st3 ∧ length (rc_facts st3) = length (rc_facts st) + 1) as [H3 Hl3].
  { subst st3. destruct (String.eqb kind "binding"); [|done]. split; [|done].
    apply (rc_ok_grow st2); try done. apply H2. }
  clearbody st3. destruct (_ || _).
  - destruct (open_frame_ok path line index (Some index) st3 H3) as [H4 Hl4]; [lia|simpl; lia|].
    destruct (recover_parameters_ok (ln_tokens line) path_end index conditional _ H4) as [H5 Hl5].
    apply push_evidence_ok; [done|]. simpl. lia.
  - destruct (_ || _); [apply open_frame_ok; [done|lia|done]|].
    apply push_evidence_ok; [done|]. simpl. eapply below_mono; [|done]. lia.
Qed.

Lemma push_occurrence_ok st o :
  rc_ok st → oc_target o = None → oc_candidates o = [] → rc_ok (push_occurrence st o).
Proof. intros [? ? ? ? ?] ? ?. split; simpl; try done. apply Forall_app. split; [done|by constructor]. Qed.

Lemma parent_type_step_ok tokens base conditional st :
  rc_ok st → rc_ok (parent_type_step tokens base conditional st).
Proof.
  intros H. unfold parent_type_step. destruct (position _ tokens); [|done]. cbv zeta. destruct (starts_with _ _); [|done].
  set (st1 := push_occurrence st _).
  assert (rc_ok st1) as H1 by (by apply push_occurrence_ok). clearbody st1.
  set (st2 := match head (rc_frames st1) ≫= fr_definition with Some _ => _ | None => _ end).
  assert (rc_ok st2) as H2.
  { subst st2. destruct (head (rc_frames st1) ≫= fr_definition) as [owner|] eqn:E; [|done].
    assert (owner < length (rc_facts st1)) as Ho.
    { pose proof (ok_frames _ H1) as Hf. destruct (rc_frames st1) as [|f fs]; [done|]. simpl in E.
      apply Forall_cons in Hf as [[Hf _] _]. by rewrite E in Hf. }
    destruct H1 as [? ? ? ? ?]. split; simpl; try done. apply Forall_app. split; [done|by repeat constructor]. }
  clearbody st2. destruct (negb conditional); [|done]. apply (rc_ok_grow st2); try done. apply H2.
Qed.

Lemma directive_step_ok tokens line_end st : rc_ok st → rc_ok (directive_step tokens line_end st).
Proof.
  intros H. unfold directive_step. cbv zeta.
  assert (∀ st', rc_facts st' = rc_facts st → rc_definitions st' = rc_definitions st → rc_frames st' = rc_frames st →
    rc_evidence st' = rc_evidence st → rc_occurrences st' = rc_occurrences st →
    rc_relationships st' = rc_relationships st → rc_ok st') as Hsame.
  { intros st' Ef Ed **. apply (rc_ok_grow st); try done; rewrite ?Ef, ?Ed; [lia|apply H]. }
  set (st1 := if text_in _ _ then with_depth st _ else _).
  assert (rc_ok st1) as H1.
  { subst st1. destruct (text_in _ _); [by apply Hsame|]. destruct (_ =s _); [by apply Hsame|].
    destruct (_ =s _); [destruct (tokens !! 2); [apply push_occurrence_ok|]; try done; by apply Hsame|].
    destruct (_ =s _); [|done]. destruct (tokens !! 2) as [name|]; [|done].
    destruct (identifier name); [by apply add_definition_ok|done]. }
  clearbody st1. destruct (text_in _ _); [by apply push_evidence_ok|done].
Qed.

Lemma close_frames_subset closed end_ facts frames f :
  f ∈ (close_frames closed end_ facts frames).2 → f ∈ frames.
Proof.
  induction frames as [|g rest IH] in facts |- *; simpl; [done|]. destruct (closed g); [|done].
  intros Hf%IH. by right.
Qed.

Lemma with_frames_ok closed end_ st :
  rc_ok st →
  let '(facts, frames) := close_frames closed end_ (rc_facts st) (rc_frames st) in rc_ok (with_frames st facts frames).
Proof.
  intros [H1 H2 H3 H4 H5]. pose proof (close_frames_length closed end_ (rc_facts st) (rc_frames st)) as Hl.
  pose proof (close_frames_subset closed end_ (rc_facts st) (rc_frames st)) as Hs.
  destruct (close_frames closed end_ _ _) as [facts frames]. simpl in *.
  split; simpl; rewrite ?Hl; try done. rewrite Forall_forall in *. intros f Hf. by apply H2, Hs.
Qed.

Lemma head_procedure_below n frames :
  Forall (λ f, below n (fr_definition f) ∧ below n (fr_procedure f)) frames →
  below n (head (omap fr_procedure frames)).
Proof. induction 1 as [|f fs [_ Hf] _ IH]; csimpl; [done|]. by destruct (fr_procedure f). Qed.

Lemma line_step_ok line st st' : line_step line st = Some st' → rc_ok st → rc_ok st'.
Proof.
  unfold line_step. destruct (ln_tokens line) as [|first rest] eqn:Ht; [by intros [= ->]|].
  rewrite <-Ht. destruct (MAX_FACTS <? _); [done|].
  pose proof (close_bindings_length (ln_indent line)
    (rc_braces st - length (take_while (λ t, text_is t "}") (ln_tokens line))) (tk_start first)
    (rc_definitions st) (rc_bindings st)) as Hb.
  destruct (close_bindings _ _ _ _ _) as [definitions bindings]. simpl in Hb. intros [= <-] H.
  set (st1 := with_scopes st definitions bindings).
  assert (rc_ok st1) as H1.
  { apply (rc_ok_grow st); try done. simpl. rewrite Hb. apply H. }
  clearbody st1. destruct (text_is first "#"); [by apply directive_step_ok|].
  unfold code_step. cbv zeta.
  pose proof (with_frames_ok (λ frame, match fr_brace frame with
    | Some depth => rc_braces st - length (take_while (λ t, text_is t "}") (ln_tokens line)) <? depth
    | None => ln_indent line <=? fr_indent frame end) (tk_start first) st1 H1) as H2.
  destruct (close_frames _ _ (rc_facts st1) (rc_frames st1)) as [facts frames].
  set (st2 := with_frames st1 facts frames) in *.
  assert (below (length (rc_facts st2)) (head (omap fr_procedure frames))) as Hp
    by (apply head_procedure_below, (ok_frames _ H2)).
  clearbody st2. set (procedure := head (omap fr_procedure frames)) in *. clearbody procedure.
  set (st3 := if _ && _ then _ else _).
  assert (rc_ok st3) as H3.
  { subst st3. destruct (_ && _); [by apply parent_type_step_ok|].
    destruct (declaration _ _ _) as [[[[path name_index] path_end] kind]|]; [by apply declaration_step_ok|].
    by apply push_evidence_ok. }
  clearbody st3. apply (rc_ok_grow st3); try done. apply H3.
Qed.

Lemma recover_ok source : rc_ok (recover source).
Proof.
  unfold recover. destruct (tokenize source) as [lines complete]. cbv zeta.
  assert (∀ lines st, rc_ok st → rc_ok (lines_loop lines st)) as Hloop.
  { clear. induction lines as [|line lines IH]; intros st Hst; simpl; [done|].
    destruct (line_step line st) as [st'|] eqn:E; [apply IH; by eapply line_step_ok|].
    apply (rc_ok_grow st); try done. apply Hst. }
  specialize (Hloop lines (recovery_start complete) ltac:(by split; constructor)).
  set (st := lines_loop lines _) in *. clearbody st.
  set (st' := with_frames st _ []).
  assert (rc_ok st') as H.
  { destruct Hloop. split; simpl; rewrite ?close_frames_length; try done. }
  destruct (0 <? _); [|done]. apply (rc_ok_grow st'); try done. apply H.
Qed.

End preserved.

(** ** The lookup tables *)

Section tables_facts.
Context (facts : list DefinitionFact) (definitions : list DmDefinition).

Record lookup_ok (lookup : DmLookup) : Prop := {
  ok_names : ∀ name entries i, lk_names lookup !! name = Some entries → i ∈ entries →
    ∃ f, facts !! i = Some f ∧ df_name f = name;
  ok_paths : ∀ path entries i, lk_paths lookup !! path = Some entries → i ∈ entries →
    ∃ f d, facts !! i = Some f ∧ definitions !! i = Some d ∧ is_procedure f = true ∧ dm_path d = path;
  ok_bindings : ∀ owner name entries i, lk_bindings lookup !! (owner, name) = Some entries → i ∈ entries →
    ∃ f d, facts !! i = Some f ∧ definitions !! i = Some d ∧ df_name f = name ∧ dm_local_owner d = Some owner;
}.

Lemma push_entry_Some {K} `{Countable K} (key k : K) index (m : gmap K (list nat)) entries i :
  push_entry key index m !! k = Some entries → i ∈ entries →
  (k = key ∧ i = index) ∨ ∃ old, m !! k = Some old ∧ i ∈ old.
Proof.
  unfold push_entry. destruct (decide (key = k)) as [->|Hne].
  - rewrite lookup_insert_eq. intros [= <-] [Hi | ->%list_elem_of_singleton]%elem_of_app; [|by left].
    destruct (m !! k) as [old|] eqn:E; [by right; exists old|by apply elem_of_nil in Hi].
  - rewrite lookup_insert_ne by done. intros. right. eauto.
Qed.

Lemma lookup_add_ok lookup index fact definition :
  lookup_ok lookup → facts !! index = Some fact → definitions !! index = Some definition →
  lookup_ok (lookup_add lookup index fact definition).
Proof.
  intros [Hn Hp Hb] Hf Hd. split; simpl.
  - intros name entries i. destruct (_ <=? _); [|apply Hn]. intros He Hi.
    destruct (push_entry_Some _ _ _ _ _ _ He Hi) as [[-> ->]|(old & ? & ?)]; eauto.
  - intros path entries i. destruct (is_procedure fact) eqn:Hk; [|apply Hp]. intros He Hi.
    destruct (push_entry_Some _ _ _ _ _ _ He Hi) as [[-> ->]|(old & ? & ?)]; eauto 10.
  - intros owner name entries i. destruct (dm_local_owner definition) as [o|] eqn:Ho; [|apply Hb]. intros He Hi.
    destruct (push_entry_Some _ _ _ _ _ _ He Hi) as [[? ->]|(old & ? & ?)]; simplify_eq; eauto 10.
Qed.

Lemma lookup_from_ok index rest_f rest_d lookup :
  drop index facts = rest_f → drop index definitions = rest_d →
  lookup_ok lookup → lookup_ok (lookup_from index rest_f rest_d lookup).
Proof.
  induction rest_f as [|f fs IH] in index, rest_d, lookup |- *; intros Hf Hd Hok; simpl; [done|].
  destruct rest_d as [|d ds]; [done|].
  assert (facts !! index = Some f ∧ definitions !! index = Some d) as [Hfi Hdi].
  { split; [rewrite <-(Nat.add_0_r index), <-lookup_drop, Hf|rewrite <-(Nat.add_0_r index), <-lookup_drop, Hd]; done. }
  apply IH; [by rewrite <-drop_drop, Hf|by rewrite <-drop_drop, Hd|]. by apply lookup_add_ok.
Qed.

Lemma lookup_new_ok : lookup_ok (lookup_new facts definitions).
Proof. apply lookup_from_ok; [done|done|]. split; simpl; intros *; by rewrite lookup_empty. Qed.

Context (lookup : DmLookup) (Hok : lookup_ok lookup).

Lemma candidates_ok name :
  Forall (λ i, i < length facts) (candidates lookup name).1 ∧ length (candidates lookup name).1 ≤ MAX_CANDIDATES.
Proof.
  unfold candidates. simpl. split; [|rewrite length_take; lia].
  apply Forall_forall. intros i Hi%subseteq_take.
  destruct (lk_names lookup !! name) as [entries|] eqn:E; [|by apply elem_of_nil in Hi].
  destruct (ok_names _ Hok _ _ _ E Hi) as (f & Hf & _). by eapply lookup_lt_Some.
Qed.

(** What a resolved binding is: a definition of that name, local to the
    procedure, unconditional and in scope. *)
Definition binds (owner : option nat) (name : str) (start i : nat) : Prop :=
  ∃ f d, facts !! i = Some f ∧ definitions !! i = Some d ∧ df_name f = name ∧
    dm_local_owner d = owner ∧ owner ≠ None ∧ dm_conditional d = false ∧
    (Z.of_nat start < dm_scope_end d)%Z.

Lemma binding_ok owner name start i limited :
  binding definitions lookup owner name start = (Some i, limited) → binds owner name start i.
Proof.
  unfold binding. destruct owner as [o|]; simpl; [|done].
  destruct (lk_bindings lookup !! (o, name)) as [entries|] eqn:E; [|done].
  destruct (find _ _) as [j|] eqn:Hfind; [|done].
  destruct (conditional_at definitions j) eqn:Hcond; intros [= <- <-].
  apply find_some in Hfind as [Hin Hscope]. apply list_elem_of_In, subseteq_take in Hin.
  rewrite elem_of_reverse in Hin. apply subseteq_take in Hin.
  destruct (ok_bindings _ Hok _ _ _ _ E Hin) as (f & d & Hf & Hd & Hn & Ho).
  unfold conditional_at in Hcond. rewrite Hd in Hcond, Hscope. exists f, d. bool_to_prop. done.
Qed.

Lemma parent_walk_ok parents fuel name ancestor visited :
  Forall (λ i, i < length facts) (parent_walk parents fuel lookup name ancestor visited).1 ∧
  length (parent_walk parents fuel lookup name ancestor visited).1 ≤ MAX_CANDIDATES.
Proof.
  induction fuel as [|fuel IH] in ancestor, visited |- *; simpl; [split; [done|lia]|].
  destruct (parents !! ancestor) as [parent|]; [|split; [done|simpl; lia]].
  case_bool_decide; [split; [done|simpl; lia]|]. destruct (_ =? _); [split; [done|simpl; lia]|].
  destruct (lk_paths lookup !! _) as [entries|] eqn:E; [|apply IH]. simpl.
  split; [|rewrite length_take; lia]. apply Forall_forall. intros i Hi%subseteq_take.
  destruct (ok_paths _ Hok _ _ _ E Hi) as (f & d & Hf & _). by eapply lookup_lt_Some.
Qed.

Lemma parent_candidates_ok parents owner :
  Forall (λ i, i < length facts) (parent_candidates facts definitions parents lookup owner).1 ∧
  length (parent_candidates facts definitions parents lookup owner).1 ≤ MAX_CANDIDATES.
Proof.
  unfold parent_candidates. cbv zeta.
  set (entries := default [] (lk_paths lookup !! path_at definitions owner)).
  set (end_ := partition_point _ entries).
  destruct (drop (end_ - MAX_CANDIDATES) (take end_ entries)) as [|j same] eqn:E.
  - destruct (facts !! owner ≫= df_container); [|split; [done|simpl; lia]].
    destruct (parent_walk _ _ _ _ _ _) as [found more] eqn:Ew. simpl.
    change found with (found, more).1. rewrite <-Ew. apply parent_walk_ok.
  - simpl fst. rewrite <-E. split.
    + apply Forall_forall. intros i Hi%subseteq_drop%subseteq_take. unfold entries in Hi.
      destruct (lk_paths lookup !! _) as [es|] eqn:Ep; [|by apply elem_of_nil in Hi].
      destruct (ok_paths _ Hok _ _ _ Ep Hi) as (f & d & Hf & _). by eapply lookup_lt_Some.
    + rewrite length_drop, length_take. lia.
Qed.

End tables_facts.

(** ** Resolution *)

Section resolution.
Context (facts : list DefinitionFact) (definitions : list DmDefinition) (parents : gmap str str).
Context (complete includes : bool) (base_count : nat) (lookup : DmLookup).
Hypothesis (Hlookup : lookup_ok facts definitions lookup).
Hypothesis (Hlength : length definitions = length facts).
Let n := length facts.

(** [i] is an earlier procedure of the same path and neither is conditional. *)
Definition overrides (source i : nat) : Prop :=
  i < source ∧ path_at definitions i = path_at definitions source ∧
  conditional_at definitions i = false ∧ conditional_at definitions source = false ∧
  complete = true ∧ includes = false.

Definition by_order (role : str) : bool := text_in role ["override"; "parent_call"]%string.

Definition occurrence_ok (o : Occurrence) : Prop :=
  below n (oc_target o) ∧ Forall (λ i, i < n) (oc_candidates o) ∧ length (oc_candidates o) ≤ MAX_CANDIDATES ∧
  ∀ i, oc_target o = Some i →
    if by_order (oc_role o) then conditional_at definitions i = false ∧ complete = true ∧ includes = false
    else complete = true ∧ ∃ owner, binds facts definitions owner (oc_name o) (oc_start o) i.

Definition relationship_ok (r : RelationshipFact) : Prop :=
  re_source r < n ∧ below n (re_target r) ∧
  ∀ i, re_target r = Some i → by_order (re_kind r) = true → overrides (re_source r) i.

Record res_ok (r : Resolved) : Prop := {
  ok_occs : Forall occurrence_ok (rs_occurrences r);
  ok_rels : Forall relationship_ok (rs_relationships r);
  ok_count : base_count + rs_count r ≤ MAX_FACTS;
}.

Lemma conditional_at_below i : conditional_at definitions i = false → i < n.
Proof using Hlength.
  unfold conditional_at. destruct (definitions !! i) eqn:E; [|done]. intros _.
  apply lookup_lt_Some in E. unfold n. lia.
Qed.

Lemma one_candidate (i : nat) : length [i] ≤ MAX_CANDIDATES.
Proof. vm_compute. lia. Qed.

Lemma rs_count_push r o : rs_count (rs_push r o) = rs_count r + 1.
Proof. unfold rs_count. simpl. rewrite length_app. simpl. lia. Qed.
Lemma rs_count_relate r x : rs_count (rs_relate r x) = rs_count r + 1.
Proof. unfold rs_count. simpl. rewrite length_app. simpl. lia. Qed.

Lemma res_ok_push r o :
  res_ok r → occurrence_ok o → base_count + rs_count r + 1 ≤ MAX_FACTS → res_ok (rs_push r o).
Proof.
  intros [? ? ?] ? ?. split; [apply Forall_app; split; [done|by constructor]|done|]. rewrite rs_count_push. lia.
Qed.
Lemma res_ok_relate r x :
  res_ok r → relationship_ok x → base_count + rs_count r + 1 ≤ MAX_FACTS → res_ok (rs_relate r x).
Proof.
  intros [? ? ?] ? ?. split; [done|apply Forall_app; split; [done|by constructor]|]. rewrite rs_count_relate. lia.
Qed.
Lemma res_ok_stop r : res_ok r → res_ok (rs_stop r).
Proof. intros [? ? ?]. by split. Qed.

Lemma override_ok r index previous definition :
  res_ok r → definitions !! index = Some definition → previous < index →
  path_at definitions previous = dm_path definition →
  base_count + rs_count r + 2 ≤ MAX_FACTS → res_ok (override facts definitions complete includes r index previous definition).
Proof using Hlength.
  intros Hr Hd Hlt Hpath Hmax. unfold override. cbv zeta.
  assert (index < n) as Hi by (apply lookup_lt_Some in Hd; unfold n; lia).
  set (target := if complete && _ && _ && _ then _ else _).
  assert (∀ i, target = Some i → i = previous ∧ overrides index i) as Htarget.
  { subst target. intros i. destruct (complete && _ && _ && _) eqn:E; [|done]. bool_to_prop. intros [= <-].
    split; [done|]. unfold overrides, conditional_at, path_at in *. rewrite Hd. done. }
  clearbody target.
  assert (below n target) as Hb.
  { destruct target as [i|]; [|done]. destruct (Htarget i eq_refl) as [-> _]. simpl. lia. }
  apply res_ok_relate; [apply res_ok_push; [done| |lia]| |rewrite rs_count_push; lia].
  - split_and!; simpl; [done|apply Forall_singleton; lia|apply (one_candidate previous)|].
    intros i Ht. destruct (Htarget i Ht) as [_ (? & ? & ? & ? & ? & ?)]. done.
  - split_and!; simpl; [done|done|]. intros i Ht _. by apply Htarget.
Qed.

Lemma override_loop_ok index rest prior r :
  drop index definitions = rest →
  (∀ path p, prior !! path = Some p → p < index ∧ path_at definitions p = path) →
  res_ok r → res_ok (override_loop facts definitions complete includes base_count index rest prior r).
Proof using Hlength.
  induction rest as [|d rest IH] in index, prior, r |- *; intros Hdrop Hprior Hr; simpl; [done|].
  destruct (MAX_FACTS <? _) eqn:Hmax; [by apply res_ok_stop|]. apply Nat.ltb_ge in Hmax.
  assert (definitions !! index = Some d) as Hd.
  { rewrite <-(Nat.add_0_r index), <-lookup_drop, Hdrop. done. }
  assert (drop (index + 1) definitions = rest) as Hdrop' by (by rewrite <-drop_drop, Hdrop).
  destruct (match facts !! index with Some f => is_procedure f | None => false end).
  - apply IH; [done| |].
    + intros path p. destruct (decide (path = dm_path d)) as [->|Hne].
      * rewrite lookup_insert_eq. intros [= <-]. split; [lia|]. unfold path_at. by rewrite Hd.
      * rewrite lookup_insert_ne by done. intros Hp%Hprior. split; [lia|apply Hp].
    + destruct (prior !! dm_path d) as [previous|] eqn:E; [|done].
      destruct (Hprior _ _ E) as [Hlt Hpath]. by apply override_ok.
  - apply IH; [done| |done]. intros path p Hp%Hprior. split; [lia|apply Hp].
Qed.

Lemma last_elem {A} (l : list A) x : last l = Some x → x ∈ l.
Proof. intros H. rewrite last_lookup in H. by eapply list_elem_of_lookup_2. Qed.

Lemma parent_call_ok conditional owner start end_ r :
  res_ok r → owner < n → base_count + rs_count r + 2 ≤ MAX_FACTS →
  res_ok (parent_call facts definitions parents complete includes lookup conditional owner start end_ r).
Proof using Hlookup Hlength.
  intros Hr Ho Hmax. unfold parent_call.
  pose proof (parent_candidates_ok facts definitions lookup Hlookup parents owner) as [Hc Hl].
  destruct (parent_candidates _ _ _ _ _) as [found truncated]. simpl in Hc, Hl.
  set (target := match last found with Some _ => _ | None => _ end).
  assert (∀ i, target = Some i → i ∈ found ∧ overrides owner i) as Htarget.
  { subst target. intros i. destruct (last found) as [j|] eqn:El; [|done].
    destruct (complete && _ && _ && _ && _ && _ && _ && _ && _) eqn:E; [|done]. bool_to_prop. intros [= <-].
    split; [by apply last_elem|]. unfold overrides. done. }
  clearbody target.
  assert (below n target) as Hb.
  { destruct target as [i|]; [|done]. destruct (Htarget i eq_refl) as [Hi _].
    rewrite Forall_forall in Hc. by apply Hc. }
  apply res_ok_relate; [apply res_ok_push; [done| |lia]| |rewrite rs_count_push; lia].
  - split_and!; simpl; [done|done|done|].
    intros i Ht. destruct (Htarget i Ht) as [_ (? & ? & ? & ? & ? & ?)]. done.
  - split_and!; simpl; [done|done|]. intros i Ht _. by apply Htarget.
Qed.

Lemma signal_ok r rest :
  res_ok r → base_count + rs_count r + 1 ≤ MAX_FACTS → res_ok (recover_signal_argument r rest).
Proof.
  intros Hr Hmax. unfold recover_signal_argument. destruct (signal_argument _ _ _); [|done].
  apply res_ok_push; [done| |done]. split_and!; simpl; [done|done|lia|done].
Qed.

Lemma reference_ok site previous token rest r :
  res_ok r → below n (ev_procedure site) → base_count + rs_count r + 3 ≤ MAX_FACTS →
  res_ok (reference facts definitions complete lookup site previous token rest r).
Proof using Hlookup Hlength.
  intros Hr Hsite Hmax. unfold reference.
  pose proof (candidates_ok facts definitions lookup Hlookup (tk_text token)) as [Hc Hl].
  destruct (candidates lookup (tk_text token)) as [found truncated]. simpl in Hc, Hl.
  set (pair := if _ && _ && _ then _ else (None, truncated)).
  assert (∀ i, pair.1 = Some i →
    complete = true ∧ binds facts definitions (ev_procedure site) (tk_text token) (tk_start token) i) as Hbound.
  { subst pair. intros i. destruct (_ && _ && _) eqn:E; [|done]. bool_to_prop.
    destruct (binding definitions lookup _ _ _) as [bound limited] eqn:Hb. simpl. intros ->.
    split; [done|]. by eapply binding_ok. }
  destruct pair as [bound truncated']. simpl in Hbound.
  set (call := match rest with t :: _ => text_is t "(" | [] => false end).
  set (role := lit _).
  assert (by_order role = false) as Hrole by (subst role; by repeat case_match).
  clearbody role call.
  assert (below n bound) as Hb.
  { destruct bound as [i|]; [|done]. destruct (Hbound i eq_refl) as [_ (f & d & Hf & _)].
    simpl. by eapply lookup_lt_Some. }
  set (r1 := rs_push r _).
  assert (res_ok r1) as H1.
  { apply res_ok_push; [done| |lia]. split_and!; simpl; [done|done|done|].
    intros i Hi. rewrite Hrole. destruct (Hbound i Hi). eauto. }
  assert (rs_count r1 = rs_count r + 1) as Hc1 by apply rs_count_push. clearbody r1.
  set (r2 := if call then match ev_procedure site with Some _ => _ | None => _ end else r1).
  assert (res_ok r2 ∧ rs_count r2 ≤ rs_count r + 2) as [H2 Hc2].
  { subst r2. destruct call; [|split; [done|lia]].
    destruct (ev_procedure site) as [owner|] eqn:Eo; [|split; [done|lia]].
    rewrite rs_count_relate. split; [|lia]. apply res_ok_relate; [done| |lia].
    split_and!; simpl; [done|done|]. intros i _. by rewrite Hrole. }
  clearbody r2. destruct (text_in _ _); [|done]. apply signal_ok; [done|lia].
Qed.

Lemma site_loop_ok site previous tokens r :
  res_ok r → below n (ev_procedure site) →
  res_ok (site_loop facts definitions parents complete includes base_count lookup site previous tokens r).
Proof using Hlookup Hlength.
  intros Hr Hsite. induction tokens as [|token rest IH] in previous, r, Hr |- *; simpl; [done|].
  destruct (MAX_FACTS <? _) eqn:Hmax; [by apply res_ok_stop|]. apply Nat.ltb_ge in Hmax.
  apply IH.
  assert (res_ok (if negb (identifier token) || keyword (tk_text token) then r
                  else reference facts definitions complete lookup site previous token rest r)) as Href.
  { destruct (_ || _); [done|]. by apply reference_ok. }
  destruct (text_is token "."); [|done]. destruct rest as [|dot [|open rest]]; [done..|].
  destruct (_ && _); [|done]. destruct (ev_procedure site) as [owner|] eqn:E; [|done].
  apply parent_call_ok; [done|done|lia].
Qed.

Lemma sites_loop_ok sites r :
  res_ok r → Forall (λ s, below n (ev_procedure s)) sites →
  res_ok (sites_loop facts definitions parents complete includes base_count lookup sites r).
Proof using Hlookup Hlength.
  intros Hr Hs. induction Hs as [|site sites Hsite _ IH] in r, Hr |- *; simpl; [done|].
  set (r1 := site_loop _ _ _ _ _ _ _ _ _ _ _).
  assert (res_ok r1) as H1 by (apply site_loop_ok; [by destruct Hr; split|done]). clearbody r1.
  destruct (rs_limit r1); [done|]. apply IH. by destruct H1; split.
Qed.

End resolution.

(** The facts of an extraction before incomplete ones are blanked. *)
Lemma resolve_parts source :
  let st := recover source in
  let n := length (rc_facts st) in
  ∃ r,
    res_ok (rc_facts st) (rc_definitions st) (rc_status st =s lit "recovered") (rc_includes st) (fact_count st) r ∧
    let status := if rs_limit r then INCOMPLETE else rc_status st in
    extract source =
      if status =s lit "recovered"
      then MkExt (lit "dreammaker") status (rc_facts st)
             (rc_occurrences st ++ rs_occurrences r) (rc_relationships st ++ rs_relationships r)
      else MkExt (lit "dreammaker") status (rc_facts st)
             (blank_occurrence <$> rc_occurrences st ++ rs_occurrences r)
             (blank_relationship <$> rc_relationships st ++ rs_relationships r).
Proof.
  intros st n. pose proof (recover_ok source) as Hok. fold st in Hok.
  unfold extract, resolve. fold st. eexists. split; [|reflexivity].
  apply sites_loop_ok; [apply lookup_new_ok|apply Hok| |apply Hok].
  apply override_loop_ok; [apply Hok|done|by intros *; rewrite lookup_empty|].
  split; simpl; [constructor|constructor|]. unfold rs_count. simpl.
  pose proof (recover_count source). fold st in H. lia.
Qed.

Lemma recovered_occurrence_ok source o :
  let st := recover source in
  o ∈ rc_occurrences st → oc_target o = None ∧ oc_candidates o = [].
Proof. intros st Ho. pose proof (ok_occurrences _ (recover_ok source)) as H. rewrite Forall_forall in H. by apply H. Qed.

(** C37. DreamMaker extraction is well formed: at most 50000 facts, every index
    names a definition, no reference lists more than 64 candidates, and an
    incomplete extraction resolves nothing. *)
Theorem extract_well_formed (source : str) :
  let e := extract source in
  let n := length (ex_definitions e) in
  n + length (ex_occurrences e) + length (ex_relationships e) ≤ MAX_FACTS ∧
  Forall (λ o, below n (oc_target o) ∧ Forall (λ i, i < n) (oc_candidates o) ∧
               length (oc_candidates o) ≤ MAX_CANDIDATES) (ex_occurrences e) ∧
  Forall (λ r, re_source r < n ∧ below n (re_target r)) (ex_relationships e) ∧
  (ex_status e ≠ lit "recovered" →
   Forall (λ o, oc_target o = None) (ex_occurrences e) ∧ Forall (λ r, re_target r = None) (ex_relationships e)).
Proof.
  intros e n. destruct (resolve_parts source) as (r & [Hoccs Hrels Hcount] & He). cbv zeta in He.
  fold e in He. pose proof (recover_ok source) as [_ _ _ Ho Hr].
  set (st := recover source) in *.
  assert (n = length (rc_facts st)) as Hn by (unfold n; rewrite He; clear; by case_match).
  assert (Forall (λ o, below n (oc_target o) ∧ Forall (λ i, i < n) (oc_candidates o) ∧
    length (oc_candidates o) ≤ MAX_CANDIDATES) (rc_occurrences st ++ rs_occurrences r)) as HO.
  { rewrite Hn. apply Forall_app. split.
    - eapply Forall_impl; [exact Ho|]. intros o [-> ->]. split_and!; [done|done|simpl; lia].
    - eapply Forall_impl; [exact Hoccs|]. intros o (? & ? & ? & _). done. }
  assert (Forall (λ r, re_source r < n ∧ below n (re_target r)) (rc_relationships st ++ rs_relationships r)) as HR.
  { rewrite Hn. apply Forall_app. split.
    - eapply Forall_impl; [exact Hr|]. intros x [-> ?]. done.
    - eapply Forall_impl; [exact Hrels|]. intros x (? & ? & _). done. }
  unfold fact_count, rs_count in Hcount. clearbody n. rewrite He.
  destruct ((if rs_limit r then INCOMPLETE else rc_status st) =s lit "recovered") eqn:Hs; simpl; rewrite ?length_fmap, ?length_app.
  - split; [lia|]. split; [done|]. split; [done|]. bool_to_prop. done.
  - split; [lia|]. split; [|split].
    + apply Forall_fmap. eapply Forall_impl; [exact HO|]. intros o (? & ? & ?). done.
    + apply Forall_fmap. eapply Forall_impl; [exact HR|]. intros o (? & ?). done.
    + intros _. split; apply Forall_fmap, Forall_true; intros ?; reflexivity.
Qed.

(** DreamMaker targets are justified: a resolved override or parent call
    names an earlier procedure of the same path, both unconditional, in a
    source without includes; any other resolved name is an unconditional local
    of the enclosing procedure, of that name, whose scope has not ended. *)
Theorem extract_targets_justified (source : str) :
  let e := extract source in
  let st := recover source in
  let definitions := rc_definitions st in
  (∀ o i, o ∈ ex_occurrences e → oc_target o = Some i →
     ex_status e = lit "recovered" ∧
     if by_order (oc_role o) then conditional_at definitions i = false ∧ rc_includes st = false
     else ∃ owner, binds (ex_definitions e) definitions owner (oc_name o) (oc_start o) i) ∧
  (∀ r i, r ∈ ex_relationships e → re_target r = Some i → by_order (re_kind r) = true →
     i < re_source r ∧ path_at definitions i = path_at definitions (re_source r) ∧
     conditional_at definitions i = false ∧ conditional_at definitions (re_source r) = false ∧
     rc_includes st = false).
Proof.
  intros e st definitions. destruct (resolve_parts source) as (r & [Hoccs Hrels _] & He). cbv zeta in He.
  fold e in He. fold st in He, Hoccs, Hrels. fold definitions in Hoccs, Hrels.
  pose proof (recover_ok source) as [_ _ _ Ho Hr]. fold st in Ho, Hr.
  rewrite He. rewrite Forall_forall in Ho, Hoccs. rewrite Forall_forall in Hr, Hrels.
  destruct ((if rs_limit r then INCOMPLETE else rc_status st) =s lit "recovered") eqn:Hs; simpl; bool_to_prop.
  - split.
    + intros o i [Hin | Hin]%elem_of_app Ht; [destruct (Ho _ Hin); congruence|].
      destruct (Hoccs _ Hin) as (_ & _ & _ & Hj). specialize (Hj i Ht). split; [done|].
      destruct (by_order (oc_role o)); naive_solver.
    + intros x i [Hin | Hin]%elem_of_app Ht Hk; [destruct (Hr _ Hin); congruence|].
      destruct (Hrels _ Hin) as (_ & _ & Hj). destruct (Hj i Ht Hk) as (? & ? & ? & ? & ? & ?). done.
  - split; intros x i (y & -> & Hy)%list_elem_of_fmap; done.
Qed.
