(* ===== verification/Modules.v ===== *)
(** * Module paths and their resolution

    Models [src/src/store/module_config.rs] and [src/src/store/module_resolver.rs]:
    lexical normalisation of paths, JSON with comments, the TypeScript, Luau and
    Rojo mappings, and the pass that links [require], [import] and [include]
    occurrences to module definitions.  A path is its bytes; [components] and
    [join] are those of [std::path] on Unix. *)
From Stdlib Require Import Ascii String ZArith Lia Permutation Sorted.
From stdpp Require Import base numbers list gmap strings sorting.
From S2P Require Import Prelude Order Text Paths Hits Snippets.

Definition slash : ascii := "/"%char.

(** ** [std::path] *)

Inductive Component := RootDir | CurDir | ParentDir | Normal (part : str).

Fixpoint components_go (pieces : list str) : list Component :=
  match pieces with
  | [] => []
  | piece :: rest =>
      if (piece =s []) || (piece =s lit ".") then components_go rest
      else (if piece =s lit ".." then ParentDir else Normal piece) :: components_go rest
  end.

(** [Path::components]: a leading dot stays, other dots and empty pieces vanish. *)
Definition components (path : str) : list Component :=
  let pieces := split_char slash path in
  (if starts_with [slash] path then [RootDir]
   else match pieces with piece :: _ => if piece =s lit "." then [CurDir] else [] | [] => [] end)
  ++ components_go pieces.

(** [Path::join]. *)
Definition join_path (base path : str) : str :=
  if starts_with [slash] path then path
  else if (base =s []) || ends_with [slash] base then base ++ path
  else base ++ [slash] ++ path.

(** [Path::parent] of a path without empty or dot components, as stored and
    normalised paths are. *)
Definition path_parent (path : str) : option str :=
  match path with
  | [] => None
  | _ => match rsplit_once slash path with Some (directory, _) => Some directory | None => Some [] end
  end.

(** The last component and what comes before it. *)
Definition split_name (path : str) : str * str :=
  match rsplit_once slash path with
  | Some (directory, name) => (directory ++ [slash], name)
  | None => ([], path)
  end.

(** [Path::extension]: after the last dot, unless it is the first byte of the name. *)
Definition path_extension (path : str) : option str :=
  match rsplit_once "."%char (split_name path).2 with
  | Some ([], _) | None => None
  | Some (_, extension) => Some extension
  end.

(** [Path::with_extension]; a path without a name is left alone. *)
Definition with_extension (path : str) (extension : string) : str :=
  let '(directory, name) := split_name path in
  match name with
  | [] => path
  | _ =>
      let stem := match rsplit_once "."%char name with
                  | Some ([], _) | None => name
                  | Some (stem, _) => stem
                  end in
      directory ++ stem ++ lit "." ++ lit extension
  end.

(** ** [module_config.rs] *)

(** The loop of [normalized]: the components kept, the last one first. *)
Fixpoint normalized_go (result : list str) (cs : list Component) : option (list str) :=
  match cs with
  | [] => Some result
  | Normal part :: cs => normalized_go (part :: result) cs
  | CurDir :: cs => normalized_go result cs
  | ParentDir :: cs => match result with _ :: result => normalized_go result cs | [] => None end
  | RootDir :: _ => None
  end.

Definition normalized (path : str) : option str :=
  (λ result, join [slash] (reverse result)) <$> normalized_go [] (components path).

(** The string state of the two passes of [json_with_comments]. *)
Record Quoting := MkQuoting { q_quoted : bool; q_escaped : bool }.
Definition unquoted : Quoting := MkQuoting false false.

Definition quote_step (q : Quoting) (byte : ascii) : Quoting :=
  if q_quoted q then
    if q_escaped q then MkQuoting true false
    else if byte =c chr 92 then MkQuoting true true
    else if byte =c chr 34 then MkQuoting false false
    else q
  else if byte =c chr 34 then MkQuoting true (q_escaped q)
  else q.

(** A line comment is blanked up to the newline. *)
Fixpoint blank_line (s : str) : str * str :=
  match s with
  | c :: rest => if c =c newline then ([], s)
                 else let '(blank, rest) := blank_line rest in (" "%char :: blank, rest)
  | [] => ([], [])
  end.

(** A block comment is blanked up to its end, which must be there. *)
Fixpoint blank_block (s : str) : option (str * str) :=
  match s with
  | a :: ((b :: rest') as rest) =>
      if (a =c "*"%char) && (b =c slash) then Some ([" "; " "]%char, rest')
      else match blank_block rest with
           | Some (blank, rest) => Some (" "%char :: blank, rest)
           | None => None
           end
  | _ => None
  end.

(** The first pass: comments become spaces. *)
Fixpoint strip_comments (fuel : nat) (q : Quoting) (s : str) : option str :=
  match fuel with
  | O => Some []
  | S fuel =>
      match s with
      | [] => Some []
      | byte :: rest =>
          if negb (q_quoted q) && (byte =c slash) && match rest with c :: _ => c =c slash | [] => false end then
            let '(blank, rest) := blank_line s in
            app blank <$> strip_comments fuel q rest
          else if negb (q_quoted q) && (byte =c slash) && match rest with c :: _ => c =c "*"%char | [] => false end
          then match blank_block (drop 1 rest) with
               | Some (blank, rest) => app (" "%char :: " "%char :: blank) <$> strip_comments fuel q rest
               | None => None
               end
          else cons byte <$> strip_comments fuel (quote_step q byte) rest
      end
  end.

(** The second pass: a comma before a closing bracket becomes a space. *)
Fixpoint strip_commas (q : Quoting) (s : str) : str :=
  match s with
  | [] => []
  | byte :: rest =>
      let closes := match drop_while is_ascii_whitespace rest with
                    | c :: _ => (c =c "]"%char) || (c =c "}"%char)
                    | [] => false
                    end in
      (if negb (q_quoted q) && (byte =c ","%char) && closes then " "%char else byte)
        :: strip_commas (quote_step q byte) rest
  end.

(** The cleaned bytes [json_with_comments] gives to the parser. *)
Definition clean_json (bytes : str) : option str :=
  strip_commas unquoted <$> strip_comments (length bytes) unquoted bytes.

(** [serde_json::Value] members by text. *)
Definition member (value : Json) (key : str) : Json :=
  match value with JObj m => default JNull (obj_get m key) | _ => JNull end.

(** The tables the pass reads and writes. *)
Record ModuleFile := MkModuleFile { mf_id : Z; mf_path : str; mf_language : str; mf_bytes : str }.
Record ModuleDefinition := MkModuleDefinition { md_id : Z; md_file : Z; md_kind : str }.
Record ModuleOccurrence := MkModuleOccurrence {
  mo_id : Z; mo_file : Z; mo_name : str; mo_role : str; mo_provenance : str;
  mo_start : Z; mo_end : Z; mo_target : option Z; mo_candidates : list Z;
}.
Record ModuleRelation := MkModuleRelation {
  mr_source : Z; mr_target : Z; mr_kind : str; mr_file : Z; mr_start : Z; mr_end : Z; mr_provenance : str;
}.
Record ModuleTables := MkTables {
  tb_files : list ModuleFile;
  tb_definitions : list ModuleDefinition;
  tb_occurrences : list ModuleOccurrence;
  tb_relations : list ModuleRelation;
}.

Section config.
(** [serde_json::from_slice] on the cleaned bytes. *)
Context (parse_json : str → option Json).

Definition json_with_comments (bytes : str) : option Json := clean_json bytes ≫= parse_json.

Definition file_at (tables : ModuleTables) (path : str) : option ModuleFile :=
  find (λ f, mf_path f =s encode_path path) (tb_files tables).

Definition read (tables : ModuleTables) (path : str) : option Json :=
  f ← file_at tables path; json_with_comments (mf_bytes f).

(** [nearest]: the walk up from a directory; a path of [n] bytes has at most [n]
    parents. *)
Fixpoint nearest_go (fuel : nat) (tables : ModuleTables) (directory filename : str) : option (str * Json) :=
  match fuel with
  | O => None
  | S fuel =>
      let path := join_path directory filename in
      match file_at tables path with
      | Some _ => pair directory <$> read tables path
      | None => match path_parent directory with
                | Some parent => nearest_go fuel tables parent filename
                | None => None
                end
      end
  end.
Definition nearest (tables : ModuleTables) (directory filename : str) : option (str * Json) :=
  nearest_go (S (length directory)) tables directory filename.

(** The text a pattern's wildcard stands for in a name. *)
Definition wildcard_of (pattern name : str) : option str :=
  match split_once "*"%char pattern with
  | Some (prefix, suffix) =>
      if bool_decide ("*"%char ∈ suffix) then None
      else strip_prefix prefix name ≫= strip_suffix suffix
  | None => if pattern =s name then Some [] else None
  end.

(** [text.replace('*', with)]. *)
Definition replace_star (with_ text : str) : str := text ≫= λ c, if c =c "*"%char then with_ else [c].

Definition replacement_path (base wildcard replacement : str) : option str :=
  if 1 <? length (List.filter (λ c, c =c "*"%char) replacement) then None
  else normalized (join_path base (replace_star wildcard replacement)).

Definition typescript (tables : ModuleTables) (directory name : str) : list str :=
  let config := match nearest tables directory (lit "tsconfig.json") with
                | Some config => Some config
                | None => nearest tables directory (lit "jsconfig.json")
                end in
  match config with
  | None => []
  | Some (directory, config) =>
      match (match config with JObj m => obj_get m (lit "extends") | _ => None end) with
      | Some _ => []
      | None =>
          let options := member config (lit "compilerOptions") in
          let base := join_path directory (default (lit ".") (as_str (member options (lit "baseUrl")))) in
          let mapping := match member options (lit "paths") with JObj m => m | _ => [] end in
          (mapping ≫= λ '(pattern, replacements),
             match wildcard_of pattern name with
             | Some wildcard =>
                 omap (replacement_path base wildcard)
                   (take 32 (omap as_str (default [] (as_array replacements))))
             | None => []
             end)
          ++ match as_str (member options (lit "baseUrl")) with
             | Some _ => option_list (normalized (join_path base name))
             | None => []
             end
      end
  end.

Definition luau (tables : ModuleTables) (directory name : str) : list str :=
  match nearest tables directory (lit ".luaurc"), strip_prefix (lit "@") name with
  | Some (directory, config), Some name =>
      let '(alias, tail) := default (name, []) (split_once slash name) in
      match as_str (member (member config (lit "aliases")) alias) with
      | Some mapping => option_list (normalized (join_path (join_path directory mapping) tail))
      | None => []
      end
  | _, _ => []
  end.

(** The walk down the project tree; a node with a [$path] maps the segments that
    are left. *)
Fixpoint rojo_walk (directory : str) (node : Json) (segments : list str) (matched : option str) : option str :=
  match segments with
  | [] => matched
  | segment :: segments =>
      let node := member node segment in
      match node with
      | JNull => matched
      | _ =>
          let matched := match as_str (member node (lit "$path")) with
                         | Some path => normalized (foldl join_path (join_path directory path) segments)
                         | None => matched
                         end in
          rojo_walk directory node segments matched
      end
  end.

Definition rojo (tables : ModuleTables) (name : str) : list str :=
  option_list (
    config ← read tables (lit "trufflepig.json");
    project ← as_str (member config (lit "rojo_project")) ≫= normalized;
    project_config ← read tables project;
    let directory := default [] (path_parent project) in
    let name := default name (strip_prefix (lit "game.") name) in
    let name := (λ c, if c =c "."%char then slash else c) <$> name in
    rojo_walk directory (member project_config (lit "tree")) (split_char slash name) None).

(** ** [module_resolver.rs] *)

Definition luau_extensions : list string := ["luau"; "lua"]%string.
Definition script_extensions : list string := ["ts"; "tsx"; "js"; "jsx"; "mts"; "cts"; "mjs"; "cjs"]%string.

Definition variants (path language : str) : list str :=
  if language =s lit "dreammaker" then [path]
  else
    let luau := language =s lit "luau" in
    path ::
    match path_extension path with
    | None =>
        (if luau then luau_extensions else script_extensions) ≫= λ extension,
          [with_extension path extension;
           with_extension (join_path path (if luau then lit "init" else lit "index")) extension]
    | Some extension =>
        if negb luau && ((extension =s lit "js") || (extension =s lit "jsx"))
        then [with_extension path "ts"; with_extension path "tsx"] else []
    end.

(** The module definition of the file at a path. *)
Definition module_at (tables : ModuleTables) (path : str) : option Z :=
  f ← file_at tables path;
  md_id <$> find (λ d, (md_file d =? mf_id f)%Z && (md_kind d =s lit "module")) (tb_definitions tables).

(** The paths an occurrence may name, and how they were found. *)
Definition module_paths (tables : ModuleTables) (directory name language role : str) : list str * string :=
  if role =s lit "include" then
    let include := (λ c, if c =c chr 92 then slash else c) <$> name in
    (option_list (normalized (join_path directory include)) ++ option_list (normalized include),
     "observed_include_path"%string)
  else if starts_with (lit "./") name || starts_with (lit "../") name then
    (option_list (normalized (join_path directory name)), "relative_module_path"%string)
  else if language =s lit "luau" then
    if starts_with (lit "@") name then (luau tables directory name, "luaurc_alias"%string)
    else (rojo tables name, "configured_rojo_mapping"%string)
  else if (language =s lit "typescript") || (language =s lit "javascript") then
    (typescript tables directory name, "typescript_paths"%string)
  else ([], "relative_module_path"%string).

(** [candidates.sort_unstable(); candidates.dedup()]. *)
Fixpoint dedup_sorted (l : list Z) : list Z :=
  match l with
  | [] => []
  | x :: rest => match dedup_sorted rest with
                 | y :: rest' => if (x =? y)%Z then x :: rest' else x :: y :: rest'
                 | [] => [x]
                 end
  end.
Definition module_candidates (tables : ModuleTables) (language : str) (paths : list str) : list Z :=
  dedup_sorted (sort_by Z.compare
    (take 64 paths ≫= λ path, omap (module_at tables) (variants path language))).

Definition exact_target (tables : ModuleTables) (directory name : str) : option Z :=
  normalized (join_path directory name) ≫= module_at tables.

(** The target of a row with [candidates]. *)
Definition module_target (tables : ModuleTables) (directory name role : str) (provenance : string)
    (candidates : list Z) : option Z :=
  match candidates with
  | [candidate] =>
      if (role =s lit "import_path") && String.eqb provenance "relative_module_path"
         && bool_decide (exact_target tables directory name = Some candidate)
      then Some candidate else None
  | _ => None
  end.

(** What the loop computes for one occurrence: its target, candidates and
    provenance, or [None] when the row is left alone; a stored path that does
    not decode ends the pass. *)
Definition resolve_row (tables : ModuleTables) (o : ModuleOccurrence)
    : result (option (option Z * list Z * string)) :=
  match find (λ f, (mf_id f =? mo_file o)%Z) (tb_files tables) with
  | None => Ok None
  | Some f =>
      let name := mo_name o in
      let role := mo_role o in
      if (bool_decide (chr 92 ∈ name) && negb (role =s lit "include")) || bool_decide (chr 0 ∈ name)
      then Ok None
      else
        source ← decode_path (mf_path f);
        let directory := default [] (path_parent source) in
        let '(paths, provenance) := module_paths tables directory name (mf_language f) role in
        let candidates := module_candidates tables (mf_language f) paths in
        let target := module_target tables directory name role provenance candidates in
        Ok (match candidates with [] => None | _ => Some (target, candidates, provenance) end)
  end.

Definition update_occurrence (o : ModuleOccurrence) (target : option Z) (candidates : list Z) (provenance : string)
    : ModuleOccurrence :=
  MkModuleOccurrence (mo_id o) (mo_file o) (mo_name o) (mo_role o)
    (mo_provenance o ++ lit ";" ++ lit provenance) (mo_start o) (mo_end o) target candidates.

(** The relationships of one candidate, from each module definition of the file. *)
Definition relations_for (tables : ModuleTables) (o : ModuleOccurrence) (target : option Z) (candidate : Z)
    : list ModuleRelation :=
  let kind := if mo_role o =s lit "include" then "include_candidate"
              else match target with Some _ => "import" | None => "import_candidate" end in
  (λ d, MkModuleRelation (md_id d) candidate (lit kind%string) (mo_file o) (mo_start o) (mo_end o) (mo_provenance o))
    <$> List.filter (λ d, (md_file d =? mo_file o)%Z && (md_kind d =s lit "module")) (tb_definitions tables).

(** The UPDATE and INSERTs of one row. *)
Definition apply_row (tables : ModuleTables) (o : ModuleOccurrence) (row : option Z * list Z * string)
    : ModuleTables :=
  let '(target, candidates, provenance) := row in
  let o' := update_occurrence o target candidates provenance in
  MkTables (tb_files tables) (tb_definitions tables)
    ((λ p, if (mo_id p =? mo_id o)%Z then o' else p) <$> tb_occurrences tables)
    (tb_relations tables ++ (candidates ≫= relations_for tables o' target)).

Definition module_role (role : str) : bool :=
  (role =s lit "require") || (role =s lit "import_path") || (role =s lit "include").

Fixpoint resolve_rows (rows : list ModuleOccurrence) (tables : ModuleTables) : result ModuleTables :=
  match rows with
  | [] => Ok tables
  | o :: rows =>
      row ← resolve_row tables o;
      resolve_rows rows (match row with Some row => apply_row tables o row | None => tables end)
  end.

(** [resolve]: in one transaction, so an error changes nothing. *)
Definition resolve (tables : ModuleTables) : result ModuleTables :=
  resolve_rows (List.filter (λ o, module_role (mo_role o)) (tb_occurrences tables)) tables.

End config.

(** ** Normalised paths stay inside the root *)

(** A name that stands for itself. *)
Definition plain_name (s : str) : Prop := s ≠ [] ∧ s ≠ lit "." ∧ s ≠ lit ".." ∧ slash ∉ s.
Definition names_in (cs : list Component) : nat :=
  length (List.filter (λ c, match c with Normal _ => true | _ => false end) cs).
Definition parents_in (cs : list Component) : nat :=
  length (List.filter (λ c, match c with ParentDir => true | _ => false end) cs).

Lemma split_char_join c ps :
  ps ≠ [] → Forall (λ p, c ∉ p) ps → split_char c (join [c] ps) = ps.
Proof.
  intros Hne Hps. induction Hps as [|p ps Hp Hps IH]; [done|].
  destruct ps as [|q ps]; [by apply split_char_single|].
  transitivity (p :: split_char c (join [c] (q :: ps))); [exact (split_char_cons c p _ Hp)|by rewrite IH].
Qed.

Lemma components_go_plain pieces part :
  Forall (λ p, slash ∉ p) pieces → Normal part ∈ components_go pieces → plain_name part.
Proof.
  induction 1 as [|p ps Hp Hps IH]; cbn [components_go]; [by intros ?%elem_of_nil|].
  destruct ((p =s []) || (p =s lit ".")) eqn:E; [exact IH|].
  apply orb_false_iff in E as [E1 E2]. bool_to_prop.
  intros [Hq|?]%elem_of_cons; [|by apply IH]. case_bool_decide; [done|]. by simplify_eq.
Qed.

Lemma components_plain p part : Normal part ∈ components p → plain_name part.
Proof.
  unfold components. intros [Hp|Hp]%elem_of_app.
  - destruct (starts_with _ p); [set_solver|]. destruct (split_char slash p) as [|q ?]; [set_solver|].
    case_bool_decide; set_solver.
  - apply components_go_plain in Hp; [done|]. apply Forall_forall. intros q. apply split_char_no_sep.
Qed.

Lemma components_go_names ps : Forall plain_name ps → components_go ps = Normal <$> ps.
Proof.
  induction 1 as [|p ps (H1 & H2 & H3 & _) Hps IH]; [done|]. cbn [components_go].
  by rewrite !bool_decide_eq_false_2, IH by done.
Qed.

Lemma components_join ps : Forall plain_name ps → components (join [slash] ps) = Normal <$> ps.
Proof.
  intros Hps. destruct ps as [|p ps]; [done|].
  unfold components. rewrite split_char_join; [|done|].
  2: { eapply Forall_impl; [exact Hps|]. by intros q (_ & _ & _ & ?). }
  rewrite (components_go_names (p :: ps)) by done. apply Forall_cons in Hps as [(H1 & H2 & _ & H4) _].
  assert (starts_with [slash] (join [slash] (p :: ps)) = false) as ->.
  { destruct p as [|c p]; [done|]. destruct (starts_with _ _) eqn:E; [|done].
    apply starts_with_true in E as [r Hr]. destruct ps as [|q ps]; cbn [join app] in Hr; simplify_eq; set_solver. }
  by rewrite bool_decide_eq_false_2.
Qed.

Lemma normalized_go_names result ps : normalized_go result (Normal <$> ps) = Some (reverse ps ++ result).
Proof.
  induction ps as [|p ps IH] in result |- *; csimpl; [done|]. rewrite IH. by rewrite reverse_cons, <-app_assoc.
Qed.

Lemma normalized_go_Some result cs out :
  normalized_go result cs = Some out →
  (Forall plain_name result → (∀ part, Normal part ∈ cs → plain_name part) → Forall plain_name out) ∧
  (RootDir ∉ cs) ∧ ∀ k, parents_in (take k cs) ≤ names_in (take k cs) + length result.
Proof.
  induction cs as [|c cs IH] in result |- *; simpl.
  { intros [= ->]. split_and!; [done|set_solver|]. intros k. rewrite take_nil. unfold parents_in. simpl. lia. }
  unfold parents_in, names_in in *. destruct c as [| | |part]; [done|..]; intros H.
  - apply IH in H as (H1 & H2 & H3). split_and!; [|set_solver|].
    + intros Hr Hn. apply H1; [done|]. intros q Hq. apply Hn. by right.
    + intros [|k]; simpl; [lia|]. apply H3.
  - destruct result as [|r result]; [done|]. apply IH in H as (H1 & H2 & H3). split_and!; [|set_solver|].
    + intros [_ Hr]%Forall_cons Hn. apply H1; [done|]. intros q Hq. apply Hn. by right.
    + intros [|k]; simpl; [lia|]. specialize (H3 k). simpl. lia.
  - apply IH in H as (H1 & H2 & H3). split_and!; [|set_solver|].
    + intros Hr Hn. apply H1; [constructor; [apply Hn; by left|done]|]. intros q Hq. apply Hn. by right.
    + intros [|k]; simpl; [lia|]. specialize (H3 k). simpl in H3. lia.
Qed.

Lemma normalized_go_None result cs :
  normalized_go result cs = None →
  RootDir ∈ cs ∨ ∃ k, names_in (take k cs) + length result < parents_in (take k cs).
Proof.
  unfold parents_in, names_in.
  induction cs as [|c cs IH] in result |- *; simpl; [done|]. destruct c as [| | |part]; [left; by left|..]; intros H.
  - destruct (IH _ H) as [?|[k Hk]]; [left; by right|right; exists (S k); done].
  - destruct result as [|r result].
    + right. exists 1. simpl. lia.
    + destruct (IH _ H) as [?|[k Hk]]; [left; by right|right; exists (S k); simpl; lia].
  - destruct (IH _ H) as [?|[k Hk]]; [left; by right|right; exists (S k); simpl in *; lia].
Qed.

Lemma components_rooted p : RootDir ∈ components p ↔ starts_with [slash] p = true.
Proof.
  unfold components. rewrite elem_of_app.
  assert (RootDir ∉ components_go (split_char slash p)) as Hgo.
  { induction (split_char slash p) as [|q ps IH]; cbn [components_go]; [set_solver|].
    destruct (_ || _); [done|]. case_bool_decide; set_solver. }
  destruct (starts_with _ p); [split; [done|]; intros _; left; by left|].
  split; [|done]. intros [H|?]; [|done]. destruct (split_char slash p); [set_solver|]. case_bool_decide; set_solver.
Qed.

(** Module paths, confinement: a normalised path consists of plain names
    (no empty, dot or parent component), normalises to itself, and exists
    exactly when the path is relative and no prefix of it climbs above the root
    with more parent components than names. *)
Theorem normalized_inside (p : str) :
  match normalized p with
  | Some q =>
      (q = [] ∨ Forall plain_name (split_char slash q)) ∧ normalized q = Some q ∧
      starts_with [slash] p = false ∧
      ∀ k, parents_in (take k (components p)) ≤ names_in (take k (components p))
  | None =>
      starts_with [slash] p = true ∨
      ∃ k, names_in (take k (components p)) < parents_in (take k (components p))
  end.
Proof.
  unfold normalized. destruct (normalized_go [] (components p)) as [out|] eqn:E; simpl.
  - apply normalized_go_Some in E as (Hplain & Hroot & Hk).
    assert (Forall plain_name (reverse out)) as Hout.
    { apply Forall_reverse, Hplain; [constructor|]. apply components_plain. }
    split_and!.
    + destruct (reverse out) as [|o os] eqn:Ho; [by left|right]. rewrite split_char_join; [done|done|].
      eapply Forall_impl; [exact Hout|]. by intros q (_ & _ & _ & ?).
    + rewrite components_join by done. rewrite normalized_go_names, app_nil_r. simpl. by rewrite reverse_involutive.
    + destruct (starts_with [slash] p) eqn:Hs; [|done]. by apply components_rooted in Hs.
    + intros k. specialize (Hk k). simpl in Hk. lia.
  - apply normalized_go_None in E as [?|[k Hk]]; [left; by apply components_rooted|right].
    exists k. simpl in Hk. lia.
Qed.

(** ** Comments become spaces, strings stay *)

Inductive StringItem := PlainItem (c : ascii) | EscapedItem (c : ascii).
Definition item_text (i : StringItem) : str :=
  match i with PlainItem c => [c] | EscapedItem c => [chr 92; c] end.
Definition item_ok (i : StringItem) : Prop :=
  match i with PlainItem c => c ≠ chr 92 ∧ c ≠ chr 34 | EscapedItem _ => True end.

(** The pieces of a JSON document with comments. *)
Inductive Piece :=
| Other (c : ascii)
| Literal (items : list StringItem)
| LineComment (body : str)
| BlockComment (body : str).

(** No [*/] in a comment's body. *)
Fixpoint no_close (body : str) : Prop :=
  match body with
  | a :: rest => (match rest with b :: _ => ¬ (a = "*"%char ∧ b = slash) | [] => True end) ∧ no_close rest
  | [] => True
  end.
Definition piece_ok (p : Piece) : Prop :=
  match p with
  | Other c => c ≠ chr 34 ∧ c ≠ slash
  | Literal items => Forall item_ok items
  | LineComment body => newline ∉ body
  | BlockComment body => no_close body
  end.
Definition piece_text (p : Piece) : str :=
  match p with
  | Other c => [c]
  | Literal items => chr 34 :: (items ≫= item_text) ++ [chr 34]
  | LineComment body => slash :: slash :: body ++ [newline]
  | BlockComment body => slash :: "*"%char :: body ++ ["*"%char; slash]
  end.
Definition piece_blank (p : Piece) : str :=
  match p with
  | LineComment body => replicate (2 + length body) " "%char ++ [newline]
  | BlockComment body => replicate (4 + length body) " "%char
  | _ => piece_text p
  end.

Lemma blank_line_body body rest :
  newline ∉ body → blank_line (body ++ newline :: rest) = (replicate (length body) " "%char, newline :: rest).
Proof.
  induction body as [|c body IH]; intros Hn; cbn [blank_line app length replicate].
  { by rewrite bool_decide_eq_true_2. }
  rewrite bool_decide_eq_false_2 by set_solver. rewrite IH by set_solver. done.
Qed.

Lemma blank_block_body body rest :
  no_close body →
  blank_block (body ++ "*"%char :: slash :: rest) = Some (replicate (length body + 2) " "%char, rest).
Proof.
  induction body as [|a body IH]; cbn [no_close]; intros Hn; [done|]. destruct Hn as [Ha Hn].
  specialize (IH Hn). cbn [app blank_block length Nat.add replicate].
  destruct body as [|b body]; cbn [app] in *.
  - assert ((a =c "*"%char) && ("*"%char =c slash) = false) as -> by (by rewrite andb_false_r).
    by rewrite IH.
  - assert ((a =c "*"%char) && (b =c slash) = false) as ->.
    { apply not_true_iff_false. rewrite andb_true_iff, !bool_decide_eq_true. done. }
    by rewrite IH.
Qed.

Lemma strip_plain fuel q c rest :
  q_quoted q = true ∨ c ≠ slash →
  strip_comments (S fuel) q (c :: rest) = cons c <$> strip_comments fuel (quote_step q c) rest.
Proof.
  intros H. cbn [strip_comments].
  assert (negb (q_quoted q) && (c =c slash) = false) as ->; [|done].
  destruct H as [-> | H]; [done|]. rewrite bool_decide_eq_false_2 by done. apply andb_false_r.
Qed.

Lemma strip_items fuel items rest r :
  Forall item_ok items → length (items ≫= item_text) + 1 + length rest ≤ fuel →
  (∀ fuel, length rest ≤ fuel → strip_comments fuel unquoted rest = Some r) →
  strip_comments fuel (MkQuoting true false) ((items ≫= item_text) ++ chr 34 :: rest)
  = Some ((items ≫= item_text) ++ chr 34 :: r).
Proof.
  intros Hok. induction Hok as [|i items Hi Hok IH] in fuel |- *; intros Hf Hr; csimpl in *.
  { destruct fuel as [|fuel]; [lia|]. rewrite strip_plain by (by left). by rewrite Hr by lia. }
  destruct i as [c|c]; csimpl in *.
  - destruct fuel as [|fuel]; [lia|]. rewrite strip_plain by (by left).
    destruct Hi as [H1 H2]. unfold quote_step. cbn [q_quoted q_escaped].
    rewrite !bool_decide_eq_false_2 by done. by rewrite IH by (done || lia).
  - destruct fuel as [|[|fuel]]; [lia|lia|]. rewrite strip_plain by (by left).
    rewrite strip_plain by (by left).
    change (quote_step (quote_step (MkQuoting true false) (chr 92)) c) with (MkQuoting true false).
    by rewrite IH by (done || lia).
Qed.

Lemma strip_comments_pieces pieces fuel :
  Forall piece_ok pieces → length (pieces ≫= piece_text) ≤ fuel →
  strip_comments fuel unquoted (pieces ≫= piece_text) = Some (pieces ≫= piece_blank).
Proof.
  intros Hok. induction Hok as [|p pieces Hp Hok IH] in fuel |- *; intros Hf; csimpl in *; [by destruct fuel|].
  rewrite length_app in Hf. set (rest := pieces ≫= piece_text) in *. set (r := pieces ≫= piece_blank) in *.
  destruct p as [c|items|body|body]; cbn [piece_text piece_blank app] in *.
  - destruct Hp as [H1 H2]. simpl in Hf. destruct fuel as [|fuel]; [lia|]. rewrite strip_plain by (by right).
    unfold quote_step. simpl. rewrite bool_decide_eq_false_2 by done. by rewrite IH by lia.
  - rewrite <-!app_assoc. simpl in Hf. rewrite length_app in Hf. simpl in Hf.
    destruct fuel as [|fuel]; [lia|]. rewrite strip_plain by (by right).
    change (quote_step unquoted (chr 34)) with (MkQuoting true false). simpl app.
    rewrite (strip_items _ _ rest r); [done|done|lia|]. intros f Hfl. by apply IH.
  - simpl in Hf. rewrite length_app in Hf. simpl in Hf. rewrite <-app_assoc. simpl app.
    destruct fuel as [|fuel]; [lia|]. cbn [strip_comments].
    assert (blank_line (slash :: slash :: body ++ newline :: rest)
      = (replicate (2 + length body) " "%char, newline :: rest)) as Hb.
    { pose proof (blank_line_body (slash :: slash :: body) rest ltac:(set_solver)) as Hb. exact Hb. }
    cbn [q_quoted unquoted negb andb]. rewrite !bool_decide_eq_true_2 by done. cbn [andb]. rewrite Hb.
    destruct fuel as [|fuel]; [lia|]. rewrite strip_plain by (by right).
    change (quote_step unquoted newline) with unquoted. rewrite IH by lia. simpl. by rewrite <-app_assoc.
  - simpl in Hf. rewrite length_app in Hf. simpl in Hf. rewrite <-app_assoc. simpl app.
    destruct fuel as [|fuel]; [lia|]. cbn [strip_comments drop].
    cbn [q_quoted unquoted negb andb]. rewrite (bool_decide_eq_true_2 (slash = slash)) by done. cbn [andb].
    rewrite (bool_decide_eq_false_2 ("*"%char = slash)) by done.
    rewrite (bool_decide_eq_true_2 ("*"%char = "*"%char)) by done. cbn [andb].
    rewrite drop_0, blank_block_body by done. rewrite IH by lia. cbn [fmap option_fmap option_map].
    f_equal. cbn [app]. do 2 f_equal. by rewrite Nat.add_comm.
Qed.

(** Every byte is kept or blanked. *)
Definition kept_or_blank (a b : ascii) : Prop := b = a ∨ b = " "%char.

Lemma strip_commas_kept q s : Forall2 kept_or_blank s (strip_commas q s).
Proof.
  induction s as [|c s IH] in q |- *; simpl; constructor; [|apply IH].
  unfold kept_or_blank. destruct (_ && _ && _); auto.
Qed.

(** Configuration with comments: in a document made of strings, comments
    and other bytes, exactly the comments are blanked before commas are looked
    at, escapes and all; the second pass keeps every byte or blanks it, so the
    offsets of the cleaned text are those of the file. *)
Theorem clean_json_pieces (pieces : list Piece) :
  Forall piece_ok pieces →
  let bytes := pieces ≫= piece_text in
  let blank := pieces ≫= piece_blank in
  clean_json bytes = Some (strip_commas unquoted blank) ∧
  length blank = length bytes ∧ Forall2 kept_or_blank blank (strip_commas unquoted blank).
Proof.
  intros Hok bytes blank. split_and!.
  - unfold clean_json. subst bytes blank. by rewrite strip_comments_pieces.
  - subst bytes blank. clear Hok. induction pieces as [|p pieces IH]; csimpl; [done|].
    rewrite !length_app, IH. f_equal. destruct p; simpl; rewrite ?length_app, ?length_replicate; simpl; lia.
  - apply strip_commas_kept.
Qed.

Lemma clean_json_pieces_witness :
  let pieces := [Other "["%char; Literal [PlainItem slash; PlainItem slash; EscapedItem (chr 34)]; Other ","%char;
                 LineComment (lit "x"); BlockComment (lit "* y"); Other "]"%char] in
  clean_json (pieces ≫= piece_text) = Some (strip_commas unquoted (pieces ≫= piece_blank)).
Proof.
  intros pieces. apply (clean_json_pieces pieces).
  repeat (constructor; [simpl; repeat constructor; try done; set_solver|]). constructor.
Defined.

(** ** What the pass writes *)

Section resolver_facts.
Context (parse_json : str → option Json).

Lemma dedup_sorted_elem l x : x ∈ dedup_sorted l ↔ x ∈ l.
Proof.
  induction l as [|y l IH]; simpl; [done|].
  destruct (dedup_sorted l) as [|z r] eqn:E; [set_solver|].
  destruct (y =? z)%Z eqn:Hyz; bool_to_prop; set_solver.
Qed.

Lemma dedup_sorted_lt l : StronglySorted Z.le l → StronglySorted Z.lt (dedup_sorted l).
Proof.
  induction 1 as [|y l Hl IH Hy]; simpl; [constructor|].
  assert (Forall (Z.le y) (dedup_sorted l)) as Hy'.
  { apply Forall_forall. intros x Hx. rewrite dedup_sorted_elem in Hx. rewrite Forall_forall in Hy. exact (Hy x Hx). }
  destruct (dedup_sorted l) as [|z r]; [by repeat constructor|].
  apply StronglySorted_inv in IH as [Hr Hz]. apply Forall_cons in Hy' as [Hyz Hyr].
  destruct (y =? z)%Z eqn:E; bool_to_prop.
  - subst z. constructor; [done|]. done.
  - constructor; [by constructor|]. constructor; [lia|]. eapply Forall_impl; [exact Hz|]. simpl. lia.
Qed.

Lemma Z_compare_le l : StronglySorted (cmp_le Z.compare) l → StronglySorted Z.le l.
Proof.
  induction 1 as [|x l Hl IH Hx]; constructor; [done|]. eapply Forall_impl; [exact Hx|].
  intros y Hy. exact Hy.
Qed.

Lemma module_candidates_spec tables language paths :
  StronglySorted Z.lt (module_candidates tables language paths) ∧
  ∀ c, c ∈ module_candidates tables language paths ↔
    ∃ path variant, path ∈ take 64 paths ∧ variant ∈ variants path language ∧ module_at tables variant = Some c.
Proof.
  unfold module_candidates. split.
  - apply dedup_sorted_lt, Z_compare_le, sort_by_sorted. apply _.
  - intros c. rewrite dedup_sorted_elem, elem_of_sort_by, list_elem_of_bind.
    setoid_rewrite list_elem_of_omap. naive_solver.
Qed.

(** C24. Module links are justified: the candidates of a linked occurrence are
    exactly the module definitions of the variants of the paths it may name, in
    increasing order; a target is set only for an import of a relative path with
    one candidate, which the path names exactly. *)
Theorem module_links_justified (tables : ModuleTables) (o : ModuleOccurrence) (f : ModuleFile) (source : str)
    (target : option Z) (found : list Z) (provenance : string) :
  find (λ f, (mf_id f =? mo_file o)%Z) (tb_files tables) = Some f →
  decode_path (mf_path f) = Ok source →
  resolve_row parse_json tables o = Ok (Some (target, found, provenance)) →
  let directory := default [] (path_parent source) in
  let paths := module_paths parse_json tables directory (mo_name o) (mf_language f) (mo_role o) in
  found ≠ [] ∧ provenance = paths.2 ∧ StronglySorted Z.lt found ∧
  (∀ c, c ∈ found ↔ ∃ path variant, path ∈ take 64 paths.1 ∧
     variant ∈ variants path (mf_language f) ∧ module_at tables variant = Some c) ∧
  ∀ t, target = Some t →
    found = [t] ∧ mo_role o = lit "import_path" ∧ provenance = "relative_module_path"%string ∧
    ∃ path, normalized (join_path directory (mo_name o)) = Some path ∧ module_at tables path = Some t.
Proof.
  intros Hf Hs. unfold resolve_row. rewrite Hf. case_match; [done|]. rewrite Hs. cbn [mbind result_bind].
  set (directory := default [] (path_parent source)).
  destruct (module_paths parse_json tables directory (mo_name o) (mf_language f) (mo_role o)) as [paths prov].
  destruct (module_candidates_spec tables (mf_language f) paths) as [Hsorted Hin].
  destruct (module_candidates tables (mf_language f) paths) as [|c rest] eqn:Hc; [done|].
  intros [= <- <- <-]. cbn [fst snd]. split_and!; [done|done|done|done|].
  unfold module_target. destruct rest as [|d rest]; [|done]. intros t.
  destruct (_ && _ && _) eqn:E; [|done]. bool_to_prop. intros [= <-].
  split; [done|]. split; [done|]. split; [by apply String.eqb_eq|].
  unfold exact_target in *. destruct (normalized _) as [path|]; [|done]. by exists path.
Qed.

(** The row an occurrence ends with. *)
Definition resolved_occurrence (tables : ModuleTables) (o : ModuleOccurrence) : ModuleOccurrence :=
  if module_role (mo_role o) then
    match resolve_row parse_json tables o with
    | Ok (Some (target, found, provenance)) => update_occurrence o target found provenance
    | _ => o
    end
  else o.

(** A row's result reads only files and definitions. *)
Lemma resolve_row_tables files definitions occs1 rels1 occs2 rels2 o :
  resolve_row parse_json (MkTables files definitions occs1 rels1) o
  = resolve_row parse_json (MkTables files definitions occs2 rels2) o.
Proof.
  assert (∀ path, read parse_json (MkTables files definitions occs1 rels1) path
    = read parse_json (MkTables files definitions occs2 rels2) path) as Hread by done.
  assert (∀ fuel directory name, nearest_go parse_json fuel (MkTables files definitions occs1 rels1) directory name
    = nearest_go parse_json fuel (MkTables files definitions occs2 rels2) directory name) as Hnear.
  { induction fuel as [|fuel IH]; intros directory name; [done|]. cbn [nearest_go]. rewrite <-Hread.
    change (file_at (MkTables files definitions occs1 rels1)) with (file_at (MkTables files definitions occs2 rels2)).
    destruct (file_at _ _); [done|]. by destruct (path_parent directory). }
  unfold resolve_row. cbn [tb_files]. destruct (find _ files) as [f|]; [|done]. case_match; [done|].
  destruct (decode_path (mf_path f)) as [source|]; [|done]. cbn [mbind result_bind].
  assert (∀ directory, module_paths parse_json (MkTables files definitions occs1 rels1) directory (mo_name o)
      (mf_language f) (mo_role o)
    = module_paths parse_json (MkTables files definitions occs2 rels2) directory (mo_name o) (mf_language f)
      (mo_role o)) as ->; [|done].
  intros directory. unfold module_paths, luau, typescript, nearest. by rewrite !Hnear.
Qed.

Lemma fmap_unchanged (f : ModuleOccurrence → ModuleOccurrence) (l : list ModuleOccurrence) :
  (∀ o, f o = o) → f <$> l = l.
Proof. intros Hf. induction l as [|o l IH]; csimpl; [done|]. by rewrite Hf, IH. Qed.

Lemma resolve_rows_exact rows tables tables' :
  NoDup (mo_id <$> tb_occurrences tables) → NoDup (mo_id <$> rows) →
  (∀ o, o ∈ rows → o ∈ tb_occurrences tables ∧ module_role (mo_role o) = true) →
  resolve_rows parse_json rows tables = Ok tables' →
  tb_files tables' = tb_files tables ∧ tb_definitions tables' = tb_definitions tables ∧
  tb_occurrences tables'
  = (λ p, if bool_decide (mo_id p ∈ mo_id <$> rows) then resolved_occurrence tables p else p)
      <$> tb_occurrences tables.
Proof.
  induction rows as [|o rows IH] in tables |- *; intros Hnd Hndr Hrows; cbn [resolve_rows].
  { intros [= <-]. split_and!; [done|done|]. symmetry. apply fmap_unchanged.
    intros p. by rewrite bool_decide_eq_false_2 by apply not_elem_of_nil. }
  intros H. apply bind_Ok in H as (row & Hrow & H).
  rewrite fmap_cons in Hndr. apply NoDup_cons in Hndr as [Hfresh Hndr].
  destruct (Hrows o ltac:(by left)) as [Ho Hrole].
  set (tables1 := match row with Some row => apply_row tables o row | None => tables end) in *.
  assert (tb_files tables1 = tb_files tables ∧ tb_definitions tables1 = tb_definitions tables ∧
    tb_occurrences tables1
    = (λ p, if (mo_id p =? mo_id o)%Z then resolved_occurrence tables o else p) <$> tb_occurrences tables)
    as (Hf & Hd & Hocc).
  { unfold resolved_occurrence. rewrite Hrole, Hrow. subst tables1.
    destruct row as [[[target found] provenance]|]; [done|]. split_and!; [done|done|].
    rewrite <-(list_fmap_id (tb_occurrences tables)) at 1. apply list_fmap_ext. intros i p Hp.
    destruct (mo_id p =? mo_id o)%Z eqn:E; [|done]. bool_to_prop. unfold id.
    apply (elem_of_same_key mo_id (tb_occurrences tables)); [done|by eapply list_elem_of_lookup_2|done|done]. }
  assert (mo_id <$> tb_occurrences tables1 = mo_id <$> tb_occurrences tables) as Hids.
  { rewrite Hocc, <-list_fmap_compose. apply list_fmap_ext. intros i p _. unfold compose.
    destruct (mo_id p =? mo_id o)%Z eqn:E; [|done]. bool_to_prop. rewrite E. unfold resolved_occurrence.
    repeat case_match; done. }
  assert (∀ p, resolved_occurrence tables1 p = resolved_occurrence tables p) as Hres.
  { intros p. unfold resolved_occurrence.
    assert (resolve_row parse_json tables1 p = resolve_row parse_json tables p) as ->; [|done].
    clear -Hf Hd. destruct tables1, tables. simpl in *. subst. apply resolve_row_tables. }
  apply (IH tables1) in H as (Hf' & Hd' & Hocc'); [|by rewrite Hids|done|].
  - split_and!; [congruence|congruence|]. rewrite Hocc', Hocc, <-list_fmap_compose. apply list_fmap_ext.
    intros i p Hp. unfold compose. cbv beta. rewrite Hres.
    destruct (mo_id p =? mo_id o)%Z eqn:E; bool_to_prop.
    + assert (p = o) as ->.
      { apply (elem_of_same_key mo_id (tb_occurrences tables)); [done|by eapply list_elem_of_lookup_2|done|done]. }
      rewrite (bool_decide_eq_true_2 (mo_id o ∈ mo_id <$> o :: rows)) by (rewrite fmap_cons; by left).
      rewrite bool_decide_eq_false_2; [done|].
      assert (mo_id (resolved_occurrence tables o) = mo_id o) as ->; [|done].
      unfold resolved_occurrence. repeat case_match; done.
    + assert (bool_decide (mo_id p ∈ mo_id <$> o :: rows) = bool_decide (mo_id p ∈ mo_id <$> rows)) as ->; [|done].
      apply bool_decide_ext. rewrite fmap_cons, elem_of_cons. naive_solver.
  - intros p Hp. destruct (Hrows p ltac:(by right)) as [Hpin Hprole]. split; [|done].
    rewrite Hocc. apply list_elem_of_fmap. exists p. split; [|done].
    assert (mo_id p ≠ mo_id o) as Hne.
    { intros He. apply Hfresh. rewrite <-He. by apply list_elem_of_fmap_2. }
    by rewrite (proj2 (Z.eqb_neq _ _) Hne).
Qed.

(** The module pass is exact: when it succeeds, files and definitions are
    untouched and each occurrence is the one its own row determines, whatever
    the other rows wrote before it. *)
Theorem resolve_modules_exact (tables tables' : ModuleTables) :
  NoDup (mo_id <$> tb_occurrences tables) →
  resolve parse_json tables = Ok tables' →
  tb_files tables' = tb_files tables ∧ tb_definitions tables' = tb_definitions tables ∧
  tb_occurrences tables' = resolved_occurrence tables <$> tb_occurrences tables.
Proof.
  intros Hnd H. unfold resolve in H.
  apply resolve_rows_exact in H as (Hf & Hd & Ho); [|done| |].
  - split_and!; [done|done|]. rewrite Ho. apply list_fmap_ext. intros i p Hp.
    case_bool_decide as Hin; [done|]. unfold resolved_occurrence.
    destruct (module_role (mo_role p)) eqn:Hr; [|done]. destruct Hin. apply list_elem_of_fmap_2.
    apply list_elem_of_In, filter_In. split; [|done]. by eapply list_elem_of_In, list_elem_of_lookup_2.
  - revert Hnd. generalize (tb_occurrences tables). induction l as [|p l IH]; csimpl; [constructor|].
    intros [Hp Hl]%NoDup_cons. destruct (module_role (mo_role p)); [|by apply IH]. csimpl.
    apply NoDup_cons. split; [|by apply IH]. contradict Hp.
    apply list_elem_of_fmap in Hp as (q & -> & [Hq _]%list_elem_of_In%filter_In). apply list_elem_of_fmap_2.
    by apply list_elem_of_In.
  - intros o [Ho Hr]%list_elem_of_In%filter_In. split; [by apply list_elem_of_In|done].
Qed.

End resolver_facts.

(** ** A concrete index *)

Definition demo_tables : ModuleTables :=
  MkTables
    [MkModuleFile 1 (lit "src/a.ts") (lit "typescript") []; MkModuleFile 2 (lit "src/b.ts") (lit "typescript") []]
    [MkModuleDefinition 10 1 (lit "module"); MkModuleDefinition 20 2 (lit "module")]
    [MkModuleOccurrence 5 1 (lit "./b.ts") (lit "import_path") (lit "p") 0 6 None [];
     MkModuleOccurrence 6 1 (lit "./b") (lit "import_path") (lit "p") 7 10 None []] [].

Example demo_resolved :
  (λ tables, (λ o, (mo_target o, mo_candidates o)) <$> tb_occurrences tables)
    <$> ok (resolve (λ _, None) demo_tables)
  = Some [(Some 20%Z, [20%Z]); (None, [20%Z])].
Proof. vm_compute. reflexivity. Qed.

Lemma module_links_justified_witness :
  let o := MkModuleOccurrence 5 1 (lit "./b.ts") (lit "import_path") (lit "p") 0 6 None [] in
  ∃ path, normalized (join_path (lit "src") (lit "./b.ts")) = Some path ∧ module_at demo_tables path = Some 20%Z.
Proof.
  intros o.
  pose proof (module_links_justified (λ _, None) demo_tables o
    (MkModuleFile 1 (lit "src/a.ts") (lit "typescript") []) (lit "src/a.ts") (Some 20%Z) [20%Z]
    "relative_module_path" ltac:(vm_compute; reflexivity) ltac:(vm_compute; reflexivity)
    ltac:(vm_compute; reflexivity)) as H.
  destruct H as (_ & _ & _ & _ & Ht). destruct (Ht 20%Z eq_refl) as (_ & _ & _ & Hp). exact Hp.
Defined.

Lemma resolve_modules_exact_witness :
  ∃ tables, resolve (λ _, None) demo_tables = Ok tables ∧
    tb_occurrences tables = resolved_occurrence (λ _, None) demo_tables <$> tb_occurrences demo_tables.
Proof.
  destruct (resolve (λ _, None) demo_tables) as [tables|e] eqn:E; [|vm_compute in E; discriminate E].
  exists tables. split; [reflexivity|].
  apply (resolve_modules_exact (λ _, None) demo_tables tables); [|exact E].
  apply NoDup_cons. split; [|apply NoDup_singleton]. simpl. intros H%list_elem_of_singleton. discriminate H.
Defined.
