(* ===== verification/Hierarchy.v ===== *)
(** * The PHP class hierarchy

    Models [src/src/store/inheritance.rs],
    [store/php_resolver/hierarchy_index.rs] and [php_resolver/parent_lookup.rs]:
    the budget of derived facts, the class, method and parent facts of an index
    with their lookups by name, and the bounded search for the nearest
    declaration of a method along parent edges.  A [HashMap] is a finite map,
    since the code only looks keys up. *)
From Stdlib Require Import Ascii String ZArith Lia Permutation Sorted.
From stdpp Require Import base numbers list gmap strings sorting.
From S2P Require Import Prelude Order Text Collections QueryShape.

(** ** [DerivedBudget] *)

Definition MAX_DERIVED_ITEMS : Z := 200000.

(** The budget is its [used] counter; an error ends the pass that charges it. *)
Definition charge (used count : Z) : result Z :=
  let used := saturating_add USIZE_MAX used count in
  _ ← ensure (used <=? MAX_DERIVED_ITEMS)%Z "derived inheritance fact limit exceeded";
  Ok used.

(** ** Facts *)

Inductive PhpClassKind := CkClass | CkInterface | CkTrait | CkEnum | CkUnknown.
Inductive PhpClassRole := CrOrdinary | CrProxy | CrUnknown.
Inductive PhpVisibility := PvPublic | PvProtected | PvPrivate | PvUnknown.
Inductive PhpParentKind := PkExtends | PkXfcpProxy | PkUnknown.
Inductive PhpParentStatus :=
  PsCandidates | PsMissing | PsAmbiguous | PsConditional | PsIncomplete | PsUnsupported.
#[export] Instance class_kind_eq_dec : EqDecision PhpClassKind.
Proof. solve_decision. Defined.
#[export] Instance class_role_eq_dec : EqDecision PhpClassRole.
Proof. solve_decision. Defined.
#[export] Instance php_visibility_eq_dec : EqDecision PhpVisibility.
Proof. solve_decision. Defined.
#[export] Instance parent_kind_eq_dec : EqDecision PhpParentKind.
Proof. solve_decision. Defined.
#[export] Instance parent_status_eq_dec : EqDecision PhpParentStatus.
Proof. solve_decision. Defined.

Record PhpClassFact := MkClassFact {
  cf_id : Z;
  cf_file : Z;
  cf_path : str;
  cf_fqcn : str;
  cf_canonical : option str;
  cf_kind : PhpClassKind;
  cf_role : PhpClassRole;
  cf_complete : bool;
  cf_conditional : bool;
  cf_trait_use : bool;
  cf_trait_conditional : bool;
}.
Record PhpMethodFact := MkMethodFact {
  pm_id : Z;
  pm_owner : Z;
  pm_file : Z;
  pm_path : str;
  pm_name : str;
  pm_visibility : PhpVisibility;
  pm_abstract : bool;
  pm_complete : bool;
  pm_conditional : bool;
}.
Record PhpParentCandidate := MkParentCandidate {
  pp_child : Z;
  pp_declared : str;
  pp_resolved : option str;
  pp_canonical : option str;
  pp_start : Z;
  pp_end : Z;
  pp_kind : PhpParentKind;
  pp_ids : list Z;
  pp_status : PhpParentStatus;
  pp_conditional : bool;
  pp_order : option Z;
  pp_tie : option Z;
}.
Record PhpHierarchyIndex := MkHierarchy {
  hi_classes : list PhpClassFact;
  hi_raw : gmap str (list nat);
  hi_canonical : gmap str (list nat);
  hi_position : gmap Z nat;
  hi_methods : list PhpMethodFact;
  hi_method_positions : gmap (Z * str) (list nat);
  hi_parents : gmap Z (list PhpParentCandidate);
}.

(** ** Names *)

Definition backslash : ascii := chr 92.
(** [name.trim_start_matches('\\')] *)
Definition trim_backslashes (name : str) : str := drop_while (λ c, c =c backslash) name.
Definition eq_ignore_ascii_case (a b : str) : bool := to_ascii_lowercase a =s to_ascii_lowercase b.
(** [str::get(..n)] *)
Definition get_to (n : nat) (s : str) : option str :=
  if is_char_boundary s n then Some (take n s) else None.

Definition is_xfcp_name (name : str) : bool :=
  existsb (λ part, match get_to 5 part with
                   | Some prefix => eq_ignore_ascii_case prefix (lit "XFCP_")
                   | None => false
                   end) (split_char backslash name).

Section Index.
Context `{UnicodeTables}.

Definition normalized_class_name (name : str) : option str :=
  match trim_backslashes (trim name) with
  | [] => None
  | name => Some (to_ascii_lowercase name)
  end.

Definition insert_class_position (positions_by_name : gmap str (list nat)) (name : str) (position : nat)
    : gmap str (list nat) :=
  match normalized_class_name name with
  | None => positions_by_name
  | Some key =>
      if bool_decide (position ∈ default [] (positions_by_name !! key)) then positions_by_name
      else push_position positions_by_name key position
  end.

(** A class that names nothing: a generated proxy. *)
Definition unnamed (class : PhpClassFact) : bool :=
  bool_decide (cf_role class = CrProxy) || is_xfcp_name (cf_fqcn class).

(** One turn of the loop over the classes; the maps are raw, canonical and by id. *)
Definition class_step (maps : gmap str (list nat) * gmap str (list nat) * gmap Z nat)
    (e : nat * PhpClassFact) : gmap str (list nat) * gmap str (list nat) * gmap Z nat :=
  let '(raw, canonical, position_by_id) := maps in
  let '(position, class) := e in
  let position_by_id := <[cf_id class := position]> position_by_id in
  if unnamed class then (raw, canonical, position_by_id)
  else
    (insert_class_position raw (cf_fqcn class) position,
     match cf_canonical class with
     | Some name => insert_class_position canonical name position
     | None => canonical
     end, position_by_id).

Definition method_key (owner : Z) (name : str) : Z * str := (owner, to_ascii_lowercase name).
Definition method_step (m : gmap (Z * str) (list nat)) (e : nat * PhpMethodFact) : gmap (Z * str) (list nat) :=
  push_position m (method_key (pm_owner e.2) (pm_name e.2)) e.1.

Definition add_parent (m : gmap Z (list PhpParentCandidate)) (candidate : PhpParentCandidate)
    : gmap Z (list PhpParentCandidate) :=
  <[pp_child candidate := default [] (m !! pp_child candidate) ++ [candidate]]> m.
Definition with_parents (index : PhpHierarchyIndex) (m : gmap Z (list PhpParentCandidate))
    : PhpHierarchyIndex :=
  MkHierarchy (hi_classes index) (hi_raw index) (hi_canonical index) (hi_position index)
    (hi_methods index) (hi_method_positions index) m.
Definition add_parent_candidate (index : PhpHierarchyIndex) (candidate : PhpParentCandidate)
    : PhpHierarchyIndex :=
  with_parents index (add_parent (hi_parents index) candidate).

Definition from_facts (classes : list PhpClassFact) (methods : list PhpMethodFact)
    (parents : list PhpParentCandidate) : PhpHierarchyIndex :=
  let '(raw, canonical, position) := foldl class_step (∅, ∅, ∅) (imap pair classes) in
  let index := MkHierarchy classes raw canonical position methods
                 (foldl method_step ∅ (imap pair methods)) ∅ in
  foldl add_parent_candidate index parents.

(** ** Lookups *)

Definition raw_class_candidates (index : PhpHierarchyIndex) (name : str) : list PhpClassFact :=
  at_positions (hi_classes index) (normalized_class_name name ≫= λ key, hi_raw index !! key).
Definition canonical_class_candidates (index : PhpHierarchyIndex) (name : str) : list PhpClassFact :=
  at_positions (hi_classes index) (normalized_class_name name ≫= λ key, hi_canonical index !! key).
Definition class_candidates (index : PhpHierarchyIndex) (raw_or_canonical : str) : list PhpClassFact :=
  at_positions (hi_classes index)
    (normalized_class_name raw_or_canonical ≫= λ key,
       match hi_raw index !! key with
       | Some positions => Some positions
       | None => hi_canonical index !! key
       end).
Definition class_fact (index : PhpHierarchyIndex) (definition_id : Z) : option PhpClassFact :=
  hi_position index !! definition_id ≫= λ position, hi_classes index !! position.
Definition direct_methods (index : PhpHierarchyIndex) (owner : Z) (name : str) : list PhpMethodFact :=
  at_positions (hi_methods index) (hi_method_positions index !! method_key owner name).
Definition parent_candidates (index : PhpHierarchyIndex) (child : Z) : list PhpParentCandidate :=
  default [] (hi_parents index !! child).

(** [replace_proxy_parent_candidates] *)
Definition same_evidence (start end_ : Z) (candidate : PhpParentCandidate) : bool :=
  bool_decide (pp_kind candidate = PkXfcpProxy) && (pp_start candidate =? start)%Z
  && (pp_end candidate =? end_)%Z.
Definition replace_proxy_parent_candidates (index : PhpHierarchyIndex) (child start end_ : Z)
    (replacements : list PhpParentCandidate) : PhpHierarchyIndex :=
  let candidates := default [] (hi_parents index !! child) in
  with_parents index
    (<[child := List.filter (λ c, negb (same_evidence start end_ c)) candidates ++ replacements]>
       (hi_parents index)).
End Index.

(** ** Looking a method up in the parents *)

Definition MAX_PARENT_LOOKUP_VISITED : nat := 64.
Definition MAX_PARENT_LOOKUP_CANDIDATES : nat := 64.

Inductive ParentLookupIssueKind :=
| MissingParent | AmbiguousParent | ConditionalParent | IncompleteParent | UnsupportedParent
| IncompleteClass | ConditionalClass | TraitUse | ConditionalTraitUse | AmbiguousMethod
| PrivateMethod | AbstractMethod | ConditionalMethod | IncompleteMethod | UnknownMethodVisibility
| MissingMethod | OrdinaryParentCycle | VisitLimit | CandidateLimit.
#[export] Instance issue_kind_eq_dec : EqDecision ParentLookupIssueKind.
Proof. solve_decision. Defined.

Definition issue_code (kind : ParentLookupIssueKind) : str :=
  lit match kind with
      | MissingParent => "missing_parent" | AmbiguousParent => "ambiguous_parent"
      | ConditionalParent => "conditional_parent" | IncompleteParent => "incomplete_parent"
      | UnsupportedParent => "unsupported_parent" | IncompleteClass => "incomplete_class"
      | ConditionalClass => "conditional_class" | TraitUse => "trait_use"
      | ConditionalTraitUse => "conditional_trait_use" | AmbiguousMethod => "ambiguous_method"
      | PrivateMethod => "private_method" | AbstractMethod => "abstract_method"
      | ConditionalMethod => "conditional_method" | IncompleteMethod => "incomplete_method"
      | UnknownMethodVisibility => "unknown_method_visibility" | MissingMethod => "missing_method"
      | OrdinaryParentCycle => "ordinary_parent_cycle" | VisitLimit => "visit_limit"
      | CandidateLimit => "candidate_limit"
      end.
(** The derived order: the order of the constructors. *)
Definition issue_rank (kind : ParentLookupIssueKind) : nat :=
  match kind with
  | MissingParent => 0 | AmbiguousParent => 1 | ConditionalParent => 2 | IncompleteParent => 3
  | UnsupportedParent => 4 | IncompleteClass => 5 | ConditionalClass => 6 | TraitUse => 7
  | ConditionalTraitUse => 8 | AmbiguousMethod => 9 | PrivateMethod => 10 | AbstractMethod => 11
  | ConditionalMethod => 12 | IncompleteMethod => 13 | UnknownMethodVisibility => 14
  | MissingMethod => 15 | OrdinaryParentCycle => 16 | VisitLimit => 17 | CandidateLimit => 18
  end.

(** [ParentLookupIssue]: its class and kind. *)
Abbreviation ParentLookupIssue := (option Z * ParentLookupIssueKind)%type.
Definition issue_compare : ParentLookupIssue → ParentLookupIssue → comparison :=
  cmp_then (cmp_on fst (option_compare Z.compare)) (cmp_on (issue_rank ∘ snd) Nat.compare).

Record ParentLookup := MkParentLookup {
  pl_candidates : list Z;
  pl_issues : list ParentLookupIssue;
  pl_truncated : bool;
}.

Definition push_issue (result : ParentLookup) (issue : ParentLookupIssue) : ParentLookup :=
  if bool_decide (issue ∈ pl_issues result) then result
  else if length (pl_issues result) =? MAX_PARENT_LOOKUP_CANDIDATES then
    MkParentLookup (pl_candidates result) (pl_issues result) true
  else MkParentLookup (pl_candidates result) (pl_issues result ++ [issue]) (pl_truncated result).
Definition add_issue (result : ParentLookup) (class_id : Z) (kind : ParentLookupIssueKind) : ParentLookup :=
  push_issue result (Some class_id, kind).
(** [result.truncated = true] before an issue. *)
Definition truncate_with (result : ParentLookup) (class_id : Z) (kind : ParentLookupIssueKind)
    : ParentLookup :=
  add_issue (MkParentLookup (pl_candidates result) (pl_issues result) true) class_id kind.

Definition class_issue (class : PhpClassFact) : option ParentLookupIssueKind :=
  if cf_conditional class then Some ConditionalClass
  else if negb (cf_complete class) then Some IncompleteClass
  else None.

Definition method_blocker (m : PhpMethodFact) : option ParentLookupIssueKind :=
  if negb (pm_complete m) then Some IncompleteMethod
  else if pm_conditional m then Some ConditionalMethod
  else if bool_decide (pm_visibility m = PvPrivate) then Some PrivateMethod
  else if pm_abstract m then Some AbstractMethod
  else if bool_decide (pm_visibility m = PvUnknown) then Some UnknownMethodVisibility
  else None.
Definition record_method (result : ParentLookup) (class_id : Z) (m : PhpMethodFact) : ParentLookup :=
  match method_blocker m with
  | Some kind => add_issue result class_id kind
  | None =>
      if length (pl_candidates result) =? MAX_PARENT_LOOKUP_CANDIDATES then
        truncate_with result class_id CandidateLimit
      else match pm_visibility m with
           | PvPublic | PvProtected =>
               MkParentLookup (pl_candidates result ++ [pm_id m]) (pl_issues result) (pl_truncated result)
           | _ => add_issue result class_id UnknownMethodVisibility
           end
  end.

(** What the loop in [enqueue_parents] mutates: the result, the queue of pending
    classes with their paths, and the visited classes with their count. *)
Record LookupState := MkLookupState {
  lk_result : ParentLookup;
  lk_pending : list (Z * list Z);
  lk_visited : gset Z;
  lk_count : nat;
}.
Definition on_result (f : ParentLookup → ParentLookup) (st : LookupState) : LookupState :=
  MkLookupState (f (lk_result st)) (lk_pending st) (lk_visited st) (lk_count st).

(** Why a parent edge is not followed. *)
Definition parent_blocker (parent : PhpParentCandidate) : option ParentLookupIssueKind :=
  if pp_conditional parent then Some ConditionalParent
  else match pp_status parent with
       | PsMissing => Some MissingParent
       | PsAmbiguous => Some AmbiguousParent
       | PsConditional => Some ConditionalParent
       | PsIncomplete => Some IncompleteParent
       | PsUnsupported => Some UnsupportedParent
       | PsCandidates =>
           if bool_decide (pp_kind parent = PkUnknown) then Some UnsupportedParent
           else match pp_ids parent with [] => Some MissingParent | _ => None end
       end.

(** One candidate id of a followed edge. *)
Definition candidate_step (class_id : Z) (path : list Z) (parent : PhpParentCandidate)
    (candidate_id : Z) (st : LookupState) : LookupState :=
  if bool_decide (candidate_id ∈ path) then
    if bool_decide (pp_kind parent = PkExtends) && bool_decide (pp_tie parent = None) then
      on_result (λ r, add_issue r class_id OrdinaryParentCycle) st
    else st
  else if bool_decide (candidate_id ∈ lk_visited st) then st
  else if lk_count st =? MAX_PARENT_LOOKUP_VISITED then
    on_result (λ r, truncate_with r class_id VisitLimit) st
  else
    MkLookupState (lk_result st) (lk_pending st ++ [(candidate_id, path ++ [candidate_id])])
      ({[candidate_id]} ∪ lk_visited st) (S (lk_count st)).

(** The loop over the candidate ids; [inr] is its early return. *)
Fixpoint enqueue_ids (class_id : Z) (path : list Z) (parent : PhpParentCandidate) (ids : list Z)
    (candidate_count : nat) (st : LookupState) : (nat * LookupState) + LookupState :=
  match ids with
  | [] => inl (candidate_count, st)
  | candidate_id :: ids =>
      if candidate_count =? MAX_PARENT_LOOKUP_CANDIDATES then
        inr (on_result (λ r, truncate_with r class_id CandidateLimit) st)
      else enqueue_ids class_id path parent ids (S candidate_count)
             (candidate_step class_id path parent candidate_id st)
  end.

Fixpoint enqueue_loop (class_id : Z) (path : list Z) (parents : list PhpParentCandidate)
    (expanded_edges candidate_count : nat) (st : LookupState) : LookupState :=
  match parents with
  | [] => st
  | parent :: parents =>
      if expanded_edges =? MAX_PARENT_LOOKUP_CANDIDATES then
        on_result (λ r, truncate_with r class_id CandidateLimit) st
      else match parent_blocker parent with
           | Some kind =>
               enqueue_loop class_id path parents (S expanded_edges) candidate_count
                 (on_result (λ r, add_issue r class_id kind) st)
           | None =>
               match enqueue_ids class_id path parent (pp_ids parent) candidate_count st with
               | inl (candidate_count, st) =>
                   enqueue_loop class_id path parents (S expanded_edges) candidate_count st
               | inr st => st
               end
           end
  end.

Definition enqueue_parents (index : PhpHierarchyIndex) (class_id : Z) (path : list Z) (caller : bool)
    (st : LookupState) : LookupState :=
  match parent_candidates index class_id with
  | [] => on_result (λ r, add_issue r class_id (if caller then MissingParent else MissingMethod)) st
  | parents => enqueue_loop class_id path parents 0 0 st
  end.

(** One turn of the search, for the class taken from the queue. *)
Definition visit_class (index : PhpHierarchyIndex) (name : str) (current : Z * list Z) (st : LookupState)
    : LookupState :=
  let '(class_id, path) := current in
  match class_fact index class_id with
  | None => on_result (λ r, add_issue r class_id IncompleteClass) st
  | Some class =>
      match class_issue class with
      | Some kind => on_result (λ r, add_issue r class_id kind) st
      | None =>
          match take 2 (direct_methods index class_id name) with
          | [] =>
              if cf_trait_conditional class then on_result (λ r, add_issue r class_id ConditionalTraitUse) st
              else if cf_trait_use class then on_result (λ r, add_issue r class_id TraitUse) st
              else enqueue_parents index class_id path false st
          | [m] => on_result (λ r, record_method r class_id m) st
          | _ => on_result (λ r, add_issue r class_id AmbiguousMethod) st
          end
      end
  end.

(** [while let Some(current) = pending.pop_front()] *)
Fixpoint lookup_loop (fuel : nat) (index : PhpHierarchyIndex) (name : str) (st : LookupState)
    : LookupState :=
  match fuel with
  | O => st
  | S fuel =>
      match lk_pending st with
      | [] => st
      | current :: pending =>
          lookup_loop fuel index name
            (visit_class index name current
               (MkLookupState (lk_result st) pending (lk_visited st) (lk_count st)))
      end
  end.

Definition start_lookup (index : PhpHierarchyIndex) (caller : Z) : LookupState :=
  enqueue_parents index caller [caller] true
    (MkLookupState (MkParentLookup [] [] false) [] {[caller]} 1).

(** A class is enqueued at most once and at most 64 are visited. *)
Definition lookup_parent_method (index : PhpHierarchyIndex) (caller_class_id : Z) (method_name : str)
    : ParentLookup :=
  let nothing := MkParentLookup [] [] false in
  match class_fact index caller_class_id with
  | None => add_issue nothing caller_class_id IncompleteClass
  | Some caller =>
      match class_issue caller with
      | Some kind => add_issue nothing caller_class_id kind
      | None =>
          let result := lk_result (lookup_loop MAX_PARENT_LOOKUP_VISITED index method_name
                                     (start_lookup index caller_class_id)) in
          MkParentLookup (sort_dedup Z.compare (pl_candidates result))
            (dedup (sort_by issue_compare (pl_issues result))) (pl_truncated result)
      end
  end.

(** ** The index answers like a scan of its facts *)

Section IndexSpec.
Context `{UnicodeTables}.

Definition same_name (a : option str) (b : str) : bool :=
  match a with Some a => a =s b | None => false end.
(** What a class is found under: its raw and its canonical name. *)
Definition raw_named (key : str) (class : PhpClassFact) : bool :=
  negb (unnamed class) && same_name (normalized_class_name (cf_fqcn class)) key.
Definition canonical_named (key : str) (class : PhpClassFact) : bool :=
  negb (unnamed class) && same_name (cf_canonical class ≫= normalized_class_name) key.
Definition has_key (key : Z * str) (m : PhpMethodFact) : bool :=
  bool_decide (method_key (pm_owner m) (pm_name m) = key).

Lemma imap_pair_snoc {A} (l : list A) x : imap pair (l ++ [x]) = imap pair l ++ [(length l, x)].
Proof. rewrite imap_app. cbn. by rewrite Nat.add_0_r. Qed.

Lemma insert_class_position_spec (sel : str → PhpClassFact → bool) m l class name :
  (∀ key, sel key class = same_name (normalized_class_name name) key) →
  indexes sel m l →
  indexes sel (insert_class_position m name (length l)) (l ++ [class]).
Proof.
  intros Hsel Hm. unfold insert_class_position, same_name in *.
  destruct (normalized_class_name name) as [key|].
  - rewrite bool_decide_false.
    + apply indexes_push; [rewrite Hsel; by apply bool_decide_eq_true| |done].
      intros k'. rewrite Hsel. intros Hk%bool_decide_eq_true. done.
    + specialize (Hm key). destruct (m !! key) as [ps|]; cbn; [|apply not_elem_of_nil].
      destruct Hm as (_ & Hps & _). rewrite Forall_forall in Hps. intros Hp%Hps. lia.
  - apply indexes_skip; [done|done].
Qed.

(** The maps built over the classes. *)
Lemma class_steps classes :
  let maps := foldl class_step (∅, ∅, ∅) (imap pair classes) in
  indexes raw_named maps.1.1 classes ∧ indexes canonical_named maps.1.2 classes ∧
  ∀ id, (maps.2 !! id ≫= λ p, classes !! p) = last (List.filter (λ c, (cf_id c =? id)%Z) classes) ∧
        (∀ p, maps.2 !! id = Some p → p < length classes).
Proof.
  induction classes as [|class classes IH] using rev_ind; cbn zeta.
  { split_and!; [apply indexes_nil|apply indexes_nil|]. intros id. cbn. by rewrite lookup_empty. }
  rewrite imap_pair_snoc, foldl_app. cbn [foldl].
  destruct (foldl class_step (∅, ∅, ∅) (imap pair classes)) as [[raw canonical] position].
  cbn in IH. destruct IH as (Hr & Hc & Hp).
  assert (∀ id, (<[cf_id class := length classes]> position !! id ≫= λ p, (classes ++ [class]) !! p)
            = last (List.filter (λ c, (cf_id c =? id)%Z) (classes ++ [class])) ∧
          (∀ p, <[cf_id class := length classes]> position !! id = Some p →
                p < length (classes ++ [class]))) as Hp'.
  { intros id. destruct (Hp id) as [Hl Hb]. rewrite List.filter_app. cbn [List.filter].
    destruct (decide (cf_id class = id)) as [<-|Hne].
    - rewrite lookup_insert_eq, Z.eqb_refl, last_snoc. cbn. rewrite list_lookup_middle by done.
      split; [done|]. intros p [= <-]. rewrite length_app. cbn. lia.
    - rewrite lookup_insert_ne by done. rewrite (proj2 (Z.eqb_neq _ _) Hne), app_nil_r, <- Hl.
      split; [|intros p Hp'; apply Hb in Hp'; rewrite length_app; lia].
      destruct (position !! id) as [p|] eqn:E; [|done]. cbn. rewrite lookup_app_l by (by apply Hb). done. }
  unfold class_step. destruct (unnamed class) eqn:Hu; cbn [fst snd].
  - split_and!; [apply indexes_skip; [|done]|apply indexes_skip; [|done]|exact Hp'].
    + intros k. unfold raw_named. by rewrite Hu.
    + intros k. unfold canonical_named. by rewrite Hu.
  - split_and!; [| |done].
    + apply insert_class_position_spec; [|done]. intros k. unfold raw_named. by rewrite Hu.
    + destruct (cf_canonical class) as [name|] eqn:En.
      * apply insert_class_position_spec; [|done]. intros k. unfold canonical_named. by rewrite Hu, En.
      * apply indexes_skip; [|done]. intros k. unfold canonical_named. by rewrite Hu, En.
Qed.

Lemma method_steps methods : indexes has_key (foldl method_step ∅ (imap pair methods)) methods.
Proof.
  induction methods as [|m methods IH] using rev_ind; [apply indexes_nil|].
  rewrite imap_pair_snoc, foldl_app. apply indexes_push; [|intros k' Hk|done].
  - unfold has_key. by apply bool_decide_eq_true.
  - by apply bool_decide_eq_true in Hk.
Qed.

Lemma add_parents_fold index parents :
  foldl add_parent_candidate index parents =
  with_parents index (foldl add_parent (hi_parents index) parents).
Proof.
  revert index. induction parents as [|p parents IH]; intros index; cbn; [by destruct index|].
  by rewrite IH.
Qed.
Lemma add_parent_lookup parents child :
  default [] (foldl add_parent ∅ parents !! child) = List.filter (λ p, (pp_child p =? child)%Z) parents.
Proof.
  induction parents as [|p parents IH] using rev_ind; [done|].
  rewrite foldl_app, List.filter_app. cbn [foldl List.filter].
  set (m := foldl add_parent ∅ parents) in *. unfold add_parent.
  destruct (decide (pp_child p = child)) as [->|Hne].
  - rewrite lookup_insert_eq, Z.eqb_refl. cbn [default]. by rewrite IH.
  - by rewrite lookup_insert_ne, IH, (proj2 (Z.eqb_neq _ _) Hne), app_nil_r by done.
Qed.

Lemma class_fact_scan classes methods parents id :
  class_fact (from_facts classes methods parents) id = last (List.filter (λ c, (cf_id c =? id)%Z) classes).
Proof.
  unfold from_facts. pose proof (class_steps classes) as (_ & _ & Hp).
  destruct (foldl class_step (∅, ∅, ∅) (imap pair classes)) as [[raw canonical] position]. cbn in Hp.
  rewrite add_parents_fold. apply Hp.
Qed.

(** Each lookup of an index built from facts is a scan of the facts in their
    order: a class by its definition is the last fact with that id, a class by
    name is a named class whose raw name, or when no raw name matches canonical
    name, is the same up to case, methods are those of the owner with the name
    up to case, and parents are those declared for the child. *)
Theorem index_is_scan classes methods parents :
  let index := from_facts classes methods parents in
  (∀ id, class_fact index id = last (List.filter (λ c, (cf_id c =? id)%Z) classes)) ∧
  (∀ owner name, direct_methods index owner name =
     List.filter (λ m, (pm_owner m =? owner)%Z && eq_ignore_ascii_case (pm_name m) name) methods) ∧
  (∀ child, parent_candidates index child = List.filter (λ p, (pp_child p =? child)%Z) parents) ∧
  ∀ name key, normalized_class_name name = Some key →
    raw_class_candidates index name = List.filter (raw_named key) classes ∧
    canonical_class_candidates index name = List.filter (canonical_named key) classes ∧
    class_candidates index name =
      match List.filter (raw_named key) classes with
      | [] => List.filter (canonical_named key) classes
      | raw => raw
      end.
Proof.
  cbn zeta. split; [apply class_fact_scan|].
  unfold from_facts. pose proof (class_steps classes) as (Hr & Hc & _).
  destruct (foldl class_step (∅, ∅, ∅) (imap pair classes)) as [[raw canonical] position]. cbn in Hr, Hc.
  rewrite add_parents_fold. split_and!.
  - intros owner name. unfold direct_methods. cbn.
    rewrite (indexes_lookup _ _ _ _ (method_steps methods)). apply List.filter_ext. intros m.
    unfold has_key, method_key, eq_ignore_ascii_case. destruct (Z.eqb_spec (pm_owner m) owner) as [->|Hne]; cbn.
    + apply bool_decide_ext. split; [by intros [=]|by intros ->].
    + apply bool_decide_false. by intros [=].
  - intros child. apply add_parent_lookup.
  - intros name key Hk. unfold raw_class_candidates, canonical_class_candidates, class_candidates.
    cbn [with_parents hi_classes hi_raw hi_canonical]. rewrite Hk. cbn [mbind option_bind].
    rewrite (indexes_lookup _ _ _ _ Hr), (indexes_lookup _ _ _ _ Hc).
    split_and!; [done..|]. pose proof (indexes_lookup _ _ _ key Hr) as Hl.
    pose proof (indexes_None _ _ _ key Hr) as Hn. destruct (raw !! key) as [ps|].
    + rewrite Hl. destruct (List.filter (raw_named key) classes); [|done].
      specialize (proj2 Hn eq_refl). done.
    + rewrite (proj1 Hn eq_refl). by apply indexes_lookup.
Qed.
End IndexSpec.

(** ** The search finds what is inherited *)

Section Lookup.
Context (index : PhpHierarchyIndex) (caller : Z) (name : str).

(** A parent edge that the search follows. *)
Definition safe_edge (c d : Z) : Prop :=
  ∃ p, p ∈ parent_candidates index c ∧ parent_blocker p = None ∧ d ∈ pp_ids p.
(** A certain class that does not declare the method itself, nor through a trait. *)
Definition passes (c : Z) : Prop :=
  ∃ f, class_fact index c = Some f ∧ class_issue f = None ∧ direct_methods index c name = [] ∧
       cf_trait_conditional f = false ∧ cf_trait_use f = false.
(** A certain class whose only declaration of the method can be called. *)
Definition declares (c m : Z) : Prop :=
  ∃ f pm, class_fact index c = Some f ∧ class_issue f = None ∧
          direct_methods index c name = [pm] ∧ method_blocker pm = None ∧ m = pm_id pm.
(** The classes above the caller up to the first that decides the method. *)
Inductive reached : Z → Prop :=
| reached_parent d : safe_edge caller d → d ≠ caller → reached d
| reached_up c d : reached c → passes c → safe_edge c d → d ≠ caller → reached d.
Definition inherits (m : Z) : Prop :=
  (∃ f, class_fact index caller = Some f ∧ class_issue f = None) ∧ ∃ c, reached c ∧ declares c m.

(** *** What enqueueing changes *)

Definition on_path (path : list Z) (st : LookupState) : Prop := ∀ x, x ∈ path → x ∈ lk_visited st.
Definition truncated (st : LookupState) : bool := pl_truncated (lk_result st).

Record grows (P : Z → Prop) (st st' : LookupState) : Prop := {
  grows_candidates : pl_candidates (lk_result st') = pl_candidates (lk_result st);
  grows_truncated : truncated st = true → truncated st' = true;
  grows_new : ∃ new, (lk_pending st' = lk_pending st ++ new) ∧
    (∀ x, x ∈ lk_visited st' ↔ x ∈ lk_visited st ∨ x ∈ new.*1) ∧
    lk_count st' = lk_count st + length new ∧
    ∀ e, e ∈ new → P e.1 ∧ ¬ (e.1 ∈ lk_visited st) ∧ on_path e.2 st';
  grows_count : lk_count st ≤ MAX_PARENT_LOOKUP_VISITED → lk_count st' ≤ MAX_PARENT_LOOKUP_VISITED;
}.

Lemma push_issue_candidates r i : pl_candidates (push_issue r i) = pl_candidates r.
Proof. unfold push_issue. by repeat case_match. Qed.
Lemma push_issue_truncated r i : pl_truncated r = true → pl_truncated (push_issue r i) = true.
Proof. unfold push_issue. by repeat case_match. Qed.

Lemma grows_result P st f :
  pl_candidates (f (lk_result st)) = pl_candidates (lk_result st) →
  (truncated st = true → pl_truncated (f (lk_result st)) = true) →
  grows P st (on_result f st).
Proof.
  intros Hc Ht. split; [done|done| |done]. exists []. rewrite app_nil_r. cbn.
  split_and!; [done| |lia|intros e He; by apply not_elem_of_nil in He].
  intros x. split; [by left|]. intros [?|Hx]; [done|by apply not_elem_of_nil in Hx].
Qed.
Lemma grows_issue P st class_id kind : grows P st (on_result (λ r, add_issue r class_id kind) st).
Proof. apply grows_result; [apply push_issue_candidates|apply push_issue_truncated]. Qed.
Lemma grows_truncate P st class_id kind : grows P st (on_result (λ r, truncate_with r class_id kind) st).
Proof.
  apply grows_result; unfold truncate_with, add_issue; [by rewrite push_issue_candidates|].
  intros _. by apply push_issue_truncated.
Qed.
Lemma truncate_with_truncated st class_id kind :
  truncated (on_result (λ r, truncate_with r class_id kind) st) = true.
Proof. by apply push_issue_truncated. Qed.

Lemma grows_refl P st : grows P st st.
Proof. pose proof (grows_result P st (λ r, r) eq_refl (λ H, H)) as Hg. by destruct st. Qed.
Lemma grows_visited P st st' x : grows P st st' → x ∈ lk_visited st → x ∈ lk_visited st'.
Proof. intros [_ _ (new & _ & Hv & _) _] Hx. apply Hv. by left. Qed.
Lemma grows_path P st st' path : grows P st st' → on_path path st → on_path path st'.
Proof. intros Hg Hp x Hx. eapply grows_visited; [done|by apply Hp]. Qed.
Lemma grows_trans P st1 st2 st3 : grows P st1 st2 → grows P st2 st3 → grows P st1 st3.
Proof.
  intros H12 H23. pose proof H12 as [Hc1 Ht1 (n1 & Hp1 & Hv1 & Hn1 & He1) Hb1].
  pose proof H23 as [Hc2 Ht2 (n2 & Hp2 & Hv2 & Hn2 & He2) Hb2].
  split; [by rewrite Hc2|by intros; apply Ht2, Ht1| |by intros; apply Hb2, Hb1].
  exists (n1 ++ n2). rewrite app_assoc, <- Hp1, <- Hp2. split_and!; [done| | |].
  - intros x. rewrite Hv2, Hv1, fmap_app, elem_of_app. tauto.
  - rewrite length_app. lia.
  - intros e [He|He]%elem_of_app.
    + destruct (He1 e He) as (? & ? & ?). split_and!; [done..|by eapply grows_path].
    + destruct (He2 e He) as (? & Hn & ?). split_and!; [done| |done].
      contradict Hn. apply Hv1. by left.
Qed.
Lemma grows_mono (P Q : Z → Prop) st st' : (∀ x, P x → Q x) → grows P st st' → grows Q st st'.
Proof.
  intros HPQ [Hc Ht (n & Hp & Hv & Hn & He) Hb]. split; [done|done| |done].
  exists n. split_and!; [done..|]. intros e H. destruct (He e H) as (? & ? & ?). auto.
Qed.

(** *** Every followed edge is enqueued, visited or reported as cut *)

Definition covered (ids : list Z) (st : LookupState) : Prop :=
  truncated st = true ∨ ∀ d, d ∈ ids → d ∈ lk_visited st.
Lemma covered_grows P ids st st' : grows P st st' → covered ids st → covered ids st'.
Proof.
  intros Hg [Ht|Hv]; [left; by apply (grows_truncated _ _ _ Hg)|].
  right. intros d Hd. eapply grows_visited; [done|by apply Hv].
Qed.
Lemma covered_truncated ids st : truncated st = true → covered ids st.
Proof. by left. Qed.

Lemma candidate_step_spec class_id path parent d st :
  on_path path st →
  grows (λ x, x = d) st (candidate_step class_id path parent d st) ∧
  covered [d] (candidate_step class_id path parent d st).
Proof.
  intros Hpath. unfold candidate_step. case_bool_decide as Hd.
  { assert (covered [d] st) as Hc by (right; intros x ->%list_elem_of_singleton; by apply Hpath).
    destruct (_ && _); [|split; [apply grows_refl|done]].
    assert (grows (λ x, x = d) st (on_result (λ r, add_issue r class_id OrdinaryParentCycle) st)) as Hg
      by apply grows_issue.
    split; [done|by eapply covered_grows]. }
  case_bool_decide as Hv.
  { split; [apply grows_refl|]. right. by intros x ->%list_elem_of_singleton. }
  destruct (Nat.eqb_spec (lk_count st) MAX_PARENT_LOOKUP_VISITED) as [Hn|Hn].
  { split; [apply grows_truncate|]. apply covered_truncated, truncate_with_truncated. }
  split.
  - split; [done|done| |cbn; lia]. exists [(d, path ++ [d])]. cbn. split_and!; [done| |lia|].
    + intros x. rewrite elem_of_union, elem_of_singleton, list_elem_of_singleton. tauto.
    + intros e ->%list_elem_of_singleton. cbn. split_and!; [done|done|].
      intros x. cbn. rewrite elem_of_union, elem_of_singleton.
      intros [?%Hpath| ->%list_elem_of_singleton]%elem_of_app; tauto.
  - right. intros x ->%list_elem_of_singleton. cbn. apply elem_of_union. left. by apply elem_of_singleton.
Qed.

Lemma covered_cons d ids st : covered [d] st → covered ids st → covered (d :: ids) st.
Proof.
  intros [?|Hd]; [by left|]. intros [?|Hi]; [by left|]. right.
  intros x [->|Hx]%elem_of_cons; [apply Hd, list_elem_of_here|by apply Hi].
Qed.

Lemma enqueue_ids_spec class_id path parent ids n st :
  on_path path st →
  let st' := match enqueue_ids class_id path parent ids n st with inl (_, st') => st' | inr st' => st' end in
  grows (λ x, x ∈ ids) st st' ∧ covered ids st' ∧
  match enqueue_ids class_id path parent ids n st with inl _ => True | inr st' => truncated st' = true end.
Proof.
  revert n st. induction ids as [|d ids IH]; intros n st Hpath; cbn.
  { split_and!; [apply grows_refl| |done]. right. intros x Hx. by apply not_elem_of_nil in Hx. }
  destruct (n =? MAX_PARENT_LOOKUP_CANDIDATES).
  { split_and!; [apply grows_truncate|apply covered_truncated|]; apply truncate_with_truncated. }
  destruct (candidate_step_spec class_id path parent d st Hpath) as [Hg Hc].
  destruct (IH (S n) (candidate_step class_id path parent d st)) as (Hg' & Hc' & Ht);
    [by eapply grows_path|].
  split_and!; [|apply covered_cons; [by eapply covered_grows|done]|done].
  eapply grows_trans; [eapply grows_mono; [|exact Hg]|eapply grows_mono; [|exact Hg']].
  - intros x ->. by left.
  - intros x Hx. by right.
Qed.

(** The ids of the edges that [parents] lets pass. *)
Definition safe_ids (parents : list PhpParentCandidate) : list Z :=
  parents ≫= λ p, match parent_blocker p with None => pp_ids p | Some _ => [] end.

Lemma enqueue_loop_spec class_id path parents e n st :
  on_path path st →
  let st' := enqueue_loop class_id path parents e n st in
  grows (λ x, x ∈ safe_ids parents) st st' ∧ covered (safe_ids parents) st'.
Proof.
  revert e n st. induction parents as [|p parents IH]; intros e n st Hpath; cbn [enqueue_loop].
  { split; [apply grows_refl|]. right. intros x Hx. by apply not_elem_of_nil in Hx. }
  destruct (e =? MAX_PARENT_LOOKUP_CANDIDATES).
  { split; [apply grows_truncate|apply covered_truncated, truncate_with_truncated]. }
  change (safe_ids (p :: parents))
    with (match parent_blocker p with None => pp_ids p | Some _ => [] end ++ safe_ids parents).
  destruct (parent_blocker p) as [kind|].
  - pose proof (grows_issue (λ x, x ∈ safe_ids parents) st class_id kind) as Hg.
    destruct (IH (S e) n (on_result (λ r, add_issue r class_id kind) st)) as [Hg' Hc];
      [by eapply grows_path|].
    split; [by eapply grows_trans|done].
  - destruct (enqueue_ids_spec class_id path p (pp_ids p) n st Hpath) as (Hg & Hc & Ht).
    destruct (enqueue_ids class_id path p (pp_ids p) n st) as [[n' st']|st'].
    + destruct (IH (S e) n' st') as [Hg' Hc']; [by eapply grows_path|].
      split.
      * eapply grows_trans; (eapply grows_mono; [|done]); intros x Hx; apply elem_of_app; tauto.
      * eapply (covered_grows _ (pp_ids p)) in Hc; [|exact Hg'].
        destruct Hc as [?|Hc]; [by left|]. destruct Hc' as [?|Hc']; [by left|].
        right. intros x [Hx|Hx]%elem_of_app; [by apply Hc|by apply Hc'].
    + split; [|by apply covered_truncated].
      eapply grows_mono; [|exact Hg]. intros x Hx. apply elem_of_app. tauto.
Qed.

Lemma safe_ids_edge c d : d ∈ safe_ids (parent_candidates index c) ↔ safe_edge c d.
Proof.
  unfold safe_ids, safe_edge. rewrite list_elem_of_bind. split.
  - intros (p & Hd & Hp). exists p. destruct (parent_blocker p); [by apply not_elem_of_nil in Hd|done].
  - intros (p & Hp & Hb & Hd). exists p. by rewrite Hb.
Qed.

Lemma enqueue_parents_spec class_id path b st :
  on_path path st →
  let st' := enqueue_parents index class_id path b st in
  grows (safe_edge class_id) st st' ∧
  (truncated st' = true ∨ ∀ d, safe_edge class_id d → d ∈ lk_visited st').
Proof.
  intros Hpath. unfold enqueue_parents. pose proof (safe_ids_edge class_id) as Hs.
  destruct (parent_candidates index class_id) as [|p ps].
  - split; [apply grows_issue|]. right. intros d Hd%Hs. by apply not_elem_of_nil in Hd.
  - destruct (enqueue_loop_spec class_id path (p :: ps) 0 0 st Hpath) as [Hg Hc]. split.
    + eapply grows_mono; [|exact Hg]. intros x. by rewrite Hs.
    + destruct Hc as [?|Hc]; [by left|]. right. intros d Hd%Hs. by apply Hc.
Qed.

(** *** The search loop *)

(** Nothing is left to find through [c]. *)
Definition processed (st : LookupState) (c : Z) : Prop :=
  (passes c → ∀ d, safe_edge c d → d ∈ lk_visited st) ∧
  ∀ m, declares c m → m ∈ pl_candidates (lk_result st).

Record lookup_inv (st : LookupState) : Prop := {
  li_caller : caller ∈ lk_visited st;
  li_pending : ∀ e, e ∈ lk_pending st → e.1 ∈ lk_visited st ∧ e.1 ≠ caller ∧ on_path e.2 st;
  li_reached : ∀ c, c ∈ lk_visited st → c ≠ caller → reached c;
  li_sound : ∀ m, m ∈ pl_candidates (lk_result st) → ∃ c, reached c ∧ declares c m;
  li_length : length (pl_candidates (lk_result st)) ≤ MAX_PARENT_LOOKUP_CANDIDATES;
  li_complete : truncated st = false →
    (∀ d, safe_edge caller d → d ∈ lk_visited st) ∧
    ∀ c, c ∈ lk_visited st → c ≠ caller → c ∈ (lk_pending st).*1 ∨ processed st c;
}.

(** The state after taking [current] from the queue. *)
Definition popped (st : LookupState) (pending : list (Z * list Z)) : LookupState :=
  MkLookupState (lk_result st) pending (lk_visited st) (lk_count st).

Lemma not_both c m : declares c m → ¬ passes c.
Proof. intros (f & pm & _ & _ & Hd & _) (g & _ & _ & Hn & _). by rewrite Hd in Hn. Qed.

(** A turn that only changes the result. *)
Lemma visit_result st current pending r :
  lookup_inv st → lk_pending st = current :: pending →
  (∀ m, m ∈ pl_candidates (lk_result st) → m ∈ pl_candidates r) →
  (∀ m, m ∈ pl_candidates r → m ∈ pl_candidates (lk_result st) ∨ declares current.1 m) →
  length (pl_candidates r) ≤ MAX_PARENT_LOOKUP_CANDIDATES →
  (truncated st = true → pl_truncated r = true) →
  (pl_truncated r = false → ¬ passes current.1 ∧ ∀ m, declares current.1 m → m ∈ pl_candidates r) →
  lookup_inv (MkLookupState r pending (lk_visited st) (lk_count st)).
Proof.
  intros [Hcaller Hpend Hreach Hsound Hlen Hcomp] Hp Hkeep Hnew Hl Ht Hdone.
  destruct (Hpend current) as (Hv & Hne & _); [rewrite Hp; by left|].
  split; cbn; [done| |done| |done|].
  - intros e He. apply Hpend. rewrite Hp. by right.
  - intros m [Hm|Hm]%Hnew; [by apply Hsound|]. exists current.1. split; [by apply Hreach|done].
  - intros Hr. destruct (Hdone Hr) as [Hnp Hall].
    destruct Hcomp as [Hc Hpr].
    { destruct (truncated st); [|done]. specialize (Ht eq_refl). unfold truncated in Hr. cbn in Hr. congruence. }
    split; [done|]. intros c Hcv Hcne. destruct (Hpr c Hcv Hcne) as [Hin|[Hpa Hde]].
    + rewrite Hp, fmap_cons in Hin. apply elem_of_cons in Hin as [->|Hin]; [|by left].
      right. split; [intros Hpass; by destruct (Hnp Hpass)|done].
    + right. split; [done|]. intros m Hm. by apply Hkeep, Hde.
Qed.

(** A turn that ends a branch with an issue. *)
Lemma visit_issue st current pending kind :
  lookup_inv st → lk_pending st = current :: pending → ¬ passes current.1 →
  (∀ m, ¬ declares current.1 m) →
  lookup_inv (on_result (λ r, add_issue r current.1 kind) (popped st pending)).
Proof.
  intros Hi Hp Hnp Hnd. pose proof (li_length _ Hi).
  apply (visit_result st current pending); cbn; unfold add_issue; rewrite ?push_issue_candidates;
    try done; [tauto| |].
  - apply push_issue_truncated.
  - intros _. split; [done|]. intros m Hm. by destruct (Hnd m).
Qed.

Lemma record_method_inv st current pending f pm :
  lookup_inv st → lk_pending st = current :: pending →
  class_fact index current.1 = Some f → class_issue f = None →
  direct_methods index current.1 name = [pm] →
  lookup_inv (on_result (λ r, record_method r current.1 pm) (popped st pending)).
Proof.
  intros Hi Hp Hf Hcl Hd.
  assert (¬ passes current.1) as Hnp by (intros (g & _ & _ & Hn & _); by rewrite Hd in Hn).
  unfold record_method. destruct (method_blocker pm) as [kind|] eqn:Hb.
  { apply visit_issue; try done. intros m (g & pm' & _ & _ & Hd' & Hb' & _).
    rewrite Hd in Hd'. injection Hd' as <-. congruence. }
  assert (∀ m, declares current.1 m → m = pm_id pm) as Huniq.
  { intros m (g & pm' & _ & _ & Hd' & _ & ->). rewrite Hd in Hd'. by injection Hd' as <-. }
  assert (declares current.1 (pm_id pm)) as Hdec by (by exists f, pm).
  pose proof (li_length _ Hi). unfold on_result. cbn [lk_result lk_pending lk_visited lk_count popped].
  destruct (Nat.eqb_spec (length (pl_candidates (lk_result st))) MAX_PARENT_LOOKUP_CANDIDATES).
  { apply (visit_result st current pending); unfold truncate_with, add_issue;
      cbn; rewrite ?push_issue_candidates; cbn; try done; [tauto|..].
    - intros _. by apply push_issue_truncated.
    - rewrite push_issue_truncated by done. done. }
  destruct (pm_visibility pm) eqn:Hvis; cycle 2.
  1, 2: unfold method_blocker in Hb; rewrite Hvis in Hb; repeat case_match; bool_to_prop; done.
  all: apply (visit_result st current pending); cbn; try done.
  1, 5: intros m Hm; apply elem_of_app; by left.
  1, 4: intros m [Hm| ->%list_elem_of_singleton]%elem_of_app; [by left|by right].
  1, 3: rewrite length_app; cbn; lia.
  all: intros _; split; [done|]; intros m ->%Huniq; apply elem_of_app; right; by apply list_elem_of_singleton.
Qed.

(** A turn that goes on to the parents of [current]. *)
Lemma visit_grows st st' current pending :
  lookup_inv st → lk_pending st = current :: pending → passes current.1 →
  grows (safe_edge current.1) (popped st pending) st' →
  (truncated st' = true ∨ ∀ d, safe_edge current.1 d → d ∈ lk_visited st') →
  lookup_inv st'.
Proof.
  intros [Hcaller Hpend Hreach Hsound Hlen Hcomp] Hp Hpass Hg Hcov.
  destruct (Hpend current) as (Hv & Hne & Hpath); [rewrite Hp; by left|].
  pose proof Hg as [Hc Ht (new & Hq & Hvis & Hn & He) Hb]. cbn in Hc, Ht, Hq, Hvis, Hn, Hb.
  split.
  - apply Hvis. by left.
  - intros e. rewrite Hq. intros [Hin|Hin]%elem_of_app.
    + destruct (Hpend e) as (Hev & Hene & Hep); [rewrite Hp; by right|].
      split_and!; [apply Hvis; by left|done|]. eapply (grows_path _ (popped st pending)); done.
    + destruct (He e Hin) as (Hs & Hnv & Hep). split_and!; [|intros E; apply Hnv; by rewrite E|done].
      apply Hvis. right. by apply list_elem_of_fmap_2.
  - intros c [Hcv|Hcn]%Hvis Hcne; [by apply Hreach|].
    apply list_elem_of_fmap in Hcn as (e & -> & Hin). destruct (He e Hin) as (Hs & _).
    apply (reached_up current.1); [by apply Hreach|done..].
  - rewrite Hc. done.
  - by rewrite Hc.
  - intros Hr. destruct Hcov as [?|Hcov]; [congruence|].
    destruct Hcomp as [Hcc Hpr].
    { destruct (truncated st) eqn:E; [|done]. rewrite (Ht E) in Hr. done. }
    split; [intros d Hd; apply Hvis; left; by apply Hcc|].
    intros c [Hcv|Hcn]%Hvis Hcne; rewrite Hq, fmap_app.
    + destruct (Hpr c Hcv Hcne) as [Hin|[Hpa Hde]].
      * rewrite Hp, fmap_cons in Hin. apply elem_of_cons in Hin as [->|Hin].
        -- right. split; [done|]. intros m Hm. by destruct (not_both _ _ Hm).
        -- left. apply elem_of_app. by left.
      * right. split; [intros H d Hd; apply Hvis; left; by apply Hpa|]. by rewrite Hc.
    + left. apply elem_of_app. by right.
Qed.

Lemma visit_class_inv st current pending :
  lookup_inv st → lk_pending st = current :: pending →
  lookup_inv (visit_class index name current (popped st pending)).
Proof.
  intros Hi Hp. destruct current as [c path]. unfold visit_class.
  pose proof (visit_issue st (c, path) pending) as Hissue. cbn [fst] in Hissue.
  destruct (class_fact index c) as [f|] eqn:Hf.
  2: { apply Hissue; [done|done|intros (g & Hg & _)|intros m (g & pm & Hg & _)]; congruence. }
  destruct (class_issue f) as [kind|] eqn:Hcl.
  { apply Hissue; [done|done|intros (g & Hg & Hi' & _)|intros m (g & pm & Hg & Hi' & _)]; congruence. }
  destruct (direct_methods index c name) as [|m [|m' ms]] eqn:Hd; cbn [take].
  - destruct (cf_trait_conditional f) eqn:Htc.
    { apply Hissue; [done|done|intros (g & Hg & _ & _ & Ht & _)|intros m (g & pm & _ & _ & Hd' & _)]; congruence. }
    destruct (cf_trait_use f) eqn:Htu.
    { apply Hissue; [done|done|intros (g & Hg & _ & _ & _ & Ht)|intros m (g & pm & _ & _ & Hd' & _)]; congruence. }
    destruct (enqueue_parents_spec c path false (popped st pending)) as [Hg Hc].
    { destruct (li_pending _ Hi (c, path)) as (_ & _ & Hpath); [rewrite Hp; by left|done]. }
    by apply (visit_grows st _ (c, path) pending); [| |exists f| |].
  - by apply (record_method_inv st (c, path) pending f).
  - apply Hissue; [done|done|intros (g & Hg & _ & Hd' & _)|intros x (g & pm & _ & _ & Hd' & _)]; congruence.
Qed.

(** The measure of the search: classes not yet counted and classes in the queue. *)
Definition remaining (st : LookupState) : nat :=
  MAX_PARENT_LOOKUP_VISITED - lk_count st + length (lk_pending st).

Lemma grows_remaining P st st' :
  lk_count st ≤ MAX_PARENT_LOOKUP_VISITED → grows P st st' →
  lk_count st' ≤ MAX_PARENT_LOOKUP_VISITED ∧ remaining st' = remaining st.
Proof.
  intros Hb [_ _ (new & Hq & _ & Hn & _) Hc]. specialize (Hc Hb). split; [done|].
  unfold remaining. rewrite Hq, length_app. lia.
Qed.

Lemma visit_class_remaining st current pending :
  lk_count st ≤ MAX_PARENT_LOOKUP_VISITED → lookup_inv st → lk_pending st = current :: pending →
  let st' := visit_class index name current (popped st pending) in
  lk_count st' ≤ MAX_PARENT_LOOKUP_VISITED ∧ S (remaining st') = remaining st.
Proof.
  intros Hb Hi Hp. destruct current as [c path]. unfold visit_class.
  assert (S (remaining (popped st pending)) = remaining st) as Hr
    by (unfold remaining; rewrite Hp; cbn; lia).
  assert (on_path path (popped st pending)) as Hpath
    by (destruct (li_pending _ Hi (c, path)) as (_ & _ & Hpath); [rewrite Hp; by left|done]).
  pose proof (grows_remaining (safe_edge c) (popped st pending) _ Hb
                (proj1 (enqueue_parents_spec c path false (popped st pending) Hpath))) as [Hb' Hr'].
  repeat case_match; (split; [first [exact Hb'|exact Hb]|]); first [exact Hr|by rewrite Hr'].
Qed.

Lemma lookup_loop_inv fuel st :
  lk_count st ≤ MAX_PARENT_LOOKUP_VISITED → lookup_inv st → remaining st ≤ fuel →
  let st' := lookup_loop fuel index name st in lookup_inv st' ∧ lk_pending st' = [].
Proof.
  revert st. induction fuel as [|fuel IH]; intros st Hb Hi Hr; cbn [lookup_loop].
  { split; [done|]. unfold remaining in Hr. destruct (lk_pending st); [done|cbn in Hr; lia]. }
  destruct (lk_pending st) as [|current pending] eqn:Hp; [done|].
  destruct (visit_class_remaining st current pending Hb Hi Hp) as [Hb' Hr'].
  apply IH; [done|by apply visit_class_inv|]. unfold popped in *. lia.
Qed.

Lemma start_lookup_inv :
  let st := start_lookup index caller in
  lookup_inv st ∧ lk_count st ≤ MAX_PARENT_LOOKUP_VISITED ∧ remaining st = 63.
Proof.
  set (st0 := MkLookupState (MkParentLookup [] [] false) [] {[caller]} 1).
  assert (∀ x, x ∈ lk_visited st0 ↔ x = caller) as Hv0
    by (intros x; unfold st0; cbn [lk_visited]; apply elem_of_singleton).
  destruct (enqueue_parents_spec caller [caller] true st0) as [Hg Hcov].
  { intros x ->%list_elem_of_singleton. by apply Hv0. }
  change (enqueue_parents index caller [caller] true st0) with (start_lookup index caller) in *.
  cbn zeta. split; [|by apply (grows_remaining _ st0) in Hg; [|unfold MAX_PARENT_LOOKUP_VISITED; cbn; lia]].
  pose proof Hg as [Hc Ht (new & Hq & Hvis & _ & He) Hb]. cbn in Hq. split.
  - apply Hvis. left. by apply Hv0.
  - intros e. rewrite Hq. intros Hin. destruct (He e Hin) as (_ & Hn & Hp). split_and!; [| |done].
    + apply Hvis. right. by apply list_elem_of_fmap_2.
    + intros E. apply Hn. by apply Hv0.
  - intros c [?%Hv0|Hcn]%Hvis Hne; [done|]. apply list_elem_of_fmap in Hcn as (e & -> & Hin).
    apply reached_parent; [by apply He|done].
  - rewrite Hc. intros m Hm. by apply not_elem_of_nil in Hm.
  - rewrite Hc. cbn. lia.
  - intros Hr. destruct Hcov as [?|Hcov]; [congruence|]. split; [done|].
    intros c [?%Hv0|Hcn]%Hvis Hne; [done|]. left. by rewrite Hq.
Qed.
End Lookup.

Lemma search_spec (index : PhpHierarchyIndex) (caller : Z) (name : str) st :
  st = lookup_loop MAX_PARENT_LOOKUP_VISITED index name (start_lookup index caller) →
  (∀ m, m ∈ pl_candidates (lk_result st) → ∃ c, reached index caller name c ∧ declares index name c m) ∧
  (truncated st = false → ∀ c m, reached index caller name c → declares index name c m →
     m ∈ pl_candidates (lk_result st)) ∧
  length (pl_candidates (lk_result st)) ≤ MAX_PARENT_LOOKUP_CANDIDATES.
Proof.
  intros Hst. pose proof (start_lookup_inv index caller name) as (Hi & Hb & Hr).
  destruct (lookup_loop_inv index caller name MAX_PARENT_LOOKUP_VISITED (start_lookup index caller) Hb Hi)
    as [[_ _ Hreach Hsound Hlen Hcomp] Hp]; [rewrite Hr; unfold MAX_PARENT_LOOKUP_VISITED; lia|].
  rewrite <- Hst in *. clear Hst Hi Hb Hr. split_and!; [done| |done].
  intros Ht c m Hc Hd. destruct (Hcomp Ht) as [Hroot Hall].
  assert (∀ d, reached index caller name d → d ∈ lk_visited st) as Hvis.
  { clear c Hc Hd. induction 1 as [d Hs Hne|c d Hc IH Hpass Hs Hne]; [by apply Hroot|].
    destruct (decide (c = caller)) as [->|Hcne]; [by apply Hroot|].
    destruct (Hall c IH Hcne) as [Hin|[Hpr _]]; [|by apply Hpr].
    rewrite Hp in Hin. by apply not_elem_of_nil in Hin. }
  assert (c ≠ caller) as Hne by (by destruct Hc).
  destruct (Hall c (Hvis c Hc) Hne) as [Hin|[_ Hde]]; [|by apply Hde].
  rewrite Hp in Hin. by apply not_elem_of_nil in Hin.
Qed.

Lemma lookup_parent_method_spec (index : PhpHierarchyIndex) (caller : Z) (name : str) :
  let result := lookup_parent_method index caller name in
  (∀ m, m ∈ pl_candidates result → inherits index caller name m) ∧
  (pl_truncated result = false → ∀ m, inherits index caller name m → m ∈ pl_candidates result) ∧
  StronglySorted Z.lt (pl_candidates result) ∧
  length (pl_candidates result) ≤ MAX_PARENT_LOOKUP_CANDIDATES.
Proof.
  unfold lookup_parent_method, inherits. destruct (class_fact index caller) as [f|] eqn:Hf; cbn zeta.
  2: { split_and!; cbn; [intros m Hm; by apply not_elem_of_nil in Hm| |constructor|apply Nat.le_0_l].
       intros _ m [(g & Hg & _) _]. done. }
  destruct (class_issue f) as [kind|] eqn:Hcl.
  { split_and!; cbn; [intros m Hm; by apply not_elem_of_nil in Hm| |constructor|apply Nat.le_0_l].
    intros _ m [(g & [= <-] & Hg) _]. congruence. }
  pose proof (search_spec index caller name _ eq_refl) as Hs. revert Hs.
  generalize (lookup_loop MAX_PARENT_LOOKUP_VISITED index name (start_lookup index caller)).
  intros st (Hsound & Hcomp & Hlen). cbn [pl_candidates pl_truncated]. split_and!.
  - intros m Hm%elem_of_sort_dedup. split; [by exists f|by apply Hsound].
  - intros Ht m [_ (c & Hc & Hd)]. apply elem_of_sort_dedup. by apply (Hcomp Ht c).
  - apply (sort_dedup_lt Z.compare).
  - etrans; [apply sort_dedup_length|done].
Qed.

(** C30. The method lookup is sound and, unless it reports that it was cut,
    complete: its candidates are exactly the methods a call through [parent::]
    can be bound to, the only callable declaration of the name (up to case) in a
    class reached over certain parent edges, through certain classes that
    neither declare the method nor use a trait, and never through the caller
    again.  They are at most 64 in increasing order, whatever cycles the facts
    contain. *)
Theorem parent_lookup_exact (index : PhpHierarchyIndex) (caller : Z) (name : str) :
  let result := lookup_parent_method index caller name in
  (∀ m, m ∈ pl_candidates result → inherits index caller name m) ∧
  (pl_truncated result = false → ∀ m, inherits index caller name m → m ∈ pl_candidates result) ∧
  StronglySorted Z.lt (pl_candidates result) ∧
  length (pl_candidates result) ≤ MAX_PARENT_LOOKUP_CANDIDATES.
Proof. apply lookup_parent_method_spec. Qed.
