(* ===== verification/Aliases.v ===== *)
(** * XenForo class aliases

    Models [src/src/store/php_resolver/xenforo/alias_names.rs] and
    [xenforo/alias_source.rs]: the literal alias rules that the indexed [XF]
    class declares, and the canonical class names they give.  What the
    tree-sitter parser returns is a tree of nodes, a parameter; a cursor's walk
    is the pre-order of the tree. *)
From Stdlib Require Import Ascii String ZArith Lia.
From stdpp Require Import base numbers list gmap strings.
From S2P Require Import Prelude Order Text Collections PhpMarkers Hierarchy.

(** ** Rules *)

Record AliasableNamespace := MkAliasable { al_namespace : str; al_suffix : str }.
Inductive AliasSourceIssue :=
| SourceTooLarge | InvalidEncoding | ParseCancelled | ParseError | DepthLimit
| AliasableHookUnsupported | UnaliasableHookUnsupported.
#[export] Instance alias_issue_eq_dec : EqDecision AliasSourceIssue.
Proof. solve_decision. Defined.
Record AliasSource := MkAliasSource {
  aliasable_namespaces : list AliasableNamespace;
  unaliasable_namespaces : list str;
  alias_issues : list AliasSourceIssue;
}.

(** ** Canonical names *)

Definition begins_with_namespace (class namespace : str) : bool :=
  match get_to (length namespace) class with
  | None => false
  | Some remainder =>
      eq_ignore_ascii_case remainder namespace &&
      match class !! length namespace with Some byte => byte =c backslash | None => false end
  end.

(** [class.as_bytes().windows(n).any(..)] *)
Fixpoint any_window (n : nat) (f : str → bool) (s : str) : bool :=
  if length s <? n then false
  else f (take n s) || match s with [] => false | _ :: s => any_window n f s end.
Definition contains_namespace (class namespace : str) : bool :=
  if namespace =s [] then false
  else
    let needle := [backslash] ++ namespace ++ [backslash] in
    any_window (length needle) (λ window, eq_ignore_ascii_case window needle) class.

Definition ends_with_ascii_case_insensitive (value suffix : str) : bool :=
  eq_ignore_ascii_case (drop (length value - length suffix) value) suffix.

Definition has_backslash (class : str) : bool := bool_decide (backslash ∈ class).

Fixpoint needs_suffix_in (mappings : list AliasableNamespace) (class : str) : bool :=
  match mappings with
  | [] => false
  | mapping :: mappings =>
      if contains_namespace class (al_namespace mapping)
      then negb (ends_with_ascii_case_insensitive class (al_suffix mapping))
      else needs_suffix_in mappings class
  end.
Definition needs_aliasable_suffix (class : str) (source : AliasSource) : bool :=
  needs_suffix_in (aliasable_namespaces source) class.

(** An issue of the whole source. *)
Definition global_issue (issue : AliasSourceIssue) : bool :=
  match issue with
  | SourceTooLarge | InvalidEncoding | ParseCancelled | ParseError | DepthLimit => true
  | _ => false
  end.
Definition needs_alias_resolution (raw : str) (source : AliasSource) : bool :=
  let class := trim_backslashes raw in
  if negb (has_backslash class) then false
  else if existsb global_issue (alias_issues source) then true
  else
    let aliasable_hook_unknown := bool_decide (AliasableHookUnsupported ∈ alias_issues source) in
    let unaliasable_hook_unknown := bool_decide (UnaliasableHookUnsupported ∈ alias_issues source) in
    if unaliasable_hook_unknown && needs_aliasable_suffix class source then true
    else if aliasable_hook_unknown then
      let vendor_exclusion_is_complete :=
        negb unaliasable_hook_unknown &&
        existsb (begins_with_namespace class) (unaliasable_namespaces source) in
      negb vendor_exclusion_is_complete
    else false.

(** The loop over the mappings: the first whose namespace the class contains. *)
Fixpoint apply_mapping (mappings : list AliasableNamespace) (class : str) : str :=
  match mappings with
  | [] => class
  | mapping :: mappings =>
      if negb (contains_namespace class (al_namespace mapping)) then apply_mapping mappings class
      else if ends_with_ascii_case_insensitive class (al_suffix mapping) then class
      else class ++ al_suffix mapping
  end.
Definition canonicalize_class_name (raw : str) (source : AliasSource) : option str :=
  let class := trim_backslashes raw in
  let issues := negb (length (alias_issues source) =? 0) in
  if issues && needs_alias_resolution class source then None
  else if class =s [] then Some []
  else if issues then Some class
  else if existsb (begins_with_namespace class) (unaliasable_namespaces source) then Some class
  else if negb (has_backslash class) then Some class
  else Some (apply_mapping (aliasable_namespaces source) class).

(** ** PHP string literals *)

Definition squote : ascii := chr 39.
Definition dquote_char : ascii := chr 34.
Definition is_octal (c : ascii) : bool := in_range 48 55 c.
(** [u8::from_str_radix] of at most two hexadecimal digits. *)
Definition hex_value (digits : str) : option Z :=
  foldl (λ acc c, v ← acc; d ← hex_digit c; Some (v * 16 + d)%Z) (Some 0%Z) digits.
(** [u8::from_str_radix] of octal digits, which fails above 255. *)
Definition octal_value (digits : str) : option Z :=
  let v := foldl (λ v c, (v * 8 + (bval c - 48))%Z) 0%Z digits in
  if (v <=? 255)%Z then Some v else None.

(** The escape after a backslash in double quotes: what it decodes to and how
    many of the bytes from [next] on it takes. *)
Definition decode_escape (next : ascii) (content : str) : option (str * nat) :=
  if (next =c backslash) || (next =c dquote_char) || (next =c "$"%char) then Some ([next], 1)
  else if next =c "n"%char then Some ([chr 10], 1)
  else if next =c "r"%char then Some ([chr 13], 1)
  else if next =c "t"%char then Some ([chr 9], 1)
  else if next =c "v"%char then Some ([chr 11], 1)
  else if next =c "e"%char then Some ([chr 27], 1)
  else if next =c "f"%char then Some ([chr 12], 1)
  else if next =c "x"%char then
    let digits := take_while is_ascii_hexdigit (take 2 content) in
    match digits with
    | [] => Some (lit "\x", 1)
    | _ => v ← hex_value digits; Some ([chr v], S (length digits))
    end
  else if is_octal next then
    let digits := take_while is_octal (take 3 (next :: content)) in
    v ← octal_value digits; Some ([chr v], length digits)
  else Some ([backslash; next], 1).

(** The loop over the content; every turn takes a byte. *)
Fixpoint decode_content (fuel : nat) (quote : ascii) (content : str) : option str :=
  match fuel, content with
  | _, [] => Some []
  | O, _ => None
  | S fuel, byte :: content =>
      if negb (byte =c backslash) then
        decoded ← decode_content fuel quote content; Some (byte :: decoded)
      else
        match content with
        | [] => None
        | next :: content' =>
            if quote =c squote then
              decoded ← decode_content fuel quote content';
              Some ((if (next =c backslash) || (next =c squote) then [next] else [backslash; next]) ++ decoded)
            else
              '(bytes, taken) ← decode_escape next content';
              decoded ← decode_content fuel quote (drop taken content);
              Some (bytes ++ decoded)
        end
  end.
Definition decode_php_string (raw : str) : option str :=
  match raw with
  | [] => None
  | quote :: rest =>
      match last rest with
      | None => None
      | Some close =>
          if (close =c quote) && ((quote =c squote) || (quote =c dquote_char)) then
            let content := take (length rest - 1) rest in
            decoded ← decode_content (length content) quote content;
            if utf8_valid decoded then Some decoded else None
          else None
      end
  end.

Definition valid_identifier (value : str) : bool :=
  match value with
  | [] => false
  | first :: rest =>
      (is_ascii_alphabetic first || (first =c "_"%char)) &&
      forallb (λ byte, is_ascii_alphanumeric byte || (byte =c "_"%char)) rest
  end.
Definition valid_namespace (value : str) : bool :=
  negb (value =s []) && negb (starts_with [backslash] value) && negb (ends_with [backslash] value) &&
  forallb valid_identifier (split_char backslash value).
Definition valid_suffix (value : str) : bool := valid_identifier value.

(** ** The syntax tree *)

Definition MAX_ALIAS_SOURCE_BYTES : nat := Z.to_nat 2097152.
Definition MAX_ALIAS_ENTRIES : nat := 4096.
Definition MAX_ALIAS_PARSE_DEPTH : nat := 256.

(** A node as the parser's bindings show it: its kind, whether it is named, the
    field it fills in its parent, its bytes and its children. *)
Inductive Node := MkNode {
  nd_kind : str;
  nd_named : bool;
  nd_field : option str;
  nd_start : nat;
  nd_end : nat;
  nd_children : list Node;
}.

Definition named_children (n : Node) : list Node := List.filter nd_named (nd_children n).
Definition child_by_field_name (field : string) (n : Node) : option Node :=
  find (λ c, bool_decide (nd_field c = Some (lit field))) (nd_children n).
Definition utf8_text (source : str) (n : Node) : option str :=
  let text := take (nd_end n - nd_start n) (drop (nd_start n) source) in
  if utf8_valid text then Some text else None.

(** Pre-order, each node with its ancestors, the nearest first. *)
Fixpoint walk (ancestors : list Node) (n : Node) : list (list Node * Node) :=
  (ancestors, n) :: flat_map (walk (n :: ancestors)) (nd_children n).
Fixpoint height (n : Node) : nat :=
  foldr (λ c h, Nat.max (S (height c)) h) 0 (nd_children n).
Definition bounded_tree (root : Node) : bool := height root <=? MAX_ALIAS_PARSE_DEPTH.

Inductive LiteralArrayKey := KeyString (key : str) | KeyNonString.

Section Hooks.
Context (source : str).

(** [is_none_or(str::is_empty)] of a namespace's name. *)
Definition unnamed_namespace (n : Node) : bool :=
  match child_by_field_name "name" n ≫= utf8_text source with
  | None | Some [] => true
  | _ => false
  end.
Definition is_namespace (n : Node) : bool := nd_kind n =s lit "namespace_definition".
(** The last namespace without a body before [class_start], by its start. *)
Definition latest_step (class_start : nat) (latest : option (nat * bool)) (n : Node) : option (nat * bool) :=
  if is_namespace n && bool_decide (child_by_field_name "body" n = None) && (nd_start n <? class_start)
     && match latest with None => true | Some (start, _) => start <? nd_start n end
  then Some (nd_start n, unnamed_namespace n) else latest.
Definition is_global_class (root : Node) (ancestors : list Node) (class : Node) : bool :=
  match find is_namespace ancestors with
  | Some n => unnamed_namespace n
  | None =>
      match foldl (latest_step (nd_start class)) None ((walk [] root).*2) with
      | None => true
      | Some (_, global) => global
      end
  end.

Fixpoint return_of (statements : list Node) (return_expression : option Node) : option (option Node) :=
  match statements with
  | [] => Some return_expression
  | statement :: statements =>
      if nd_kind statement =s lit "comment" then return_of statements return_expression
      else if negb (nd_kind statement =s lit "return_statement")
              || bool_decide (is_Some (nd_kind <$> return_expression)) then None
      else match named_children statement with
           | [expression] => return_of statements (Some expression)
           | _ => None
           end
  end.
Definition literal_return_array (method : Node) : option Node :=
  body ← child_by_field_name "body" method;
  expression ← return_of (named_children body) None;
  expression ← expression;
  if nd_kind expression =s lit "array_creation_expression" then Some expression else None.

(** A string of decimal digits without leading zeros that fits an [i64] is an
    integer key in PHP. *)
Definition integer_key (value : str) : bool :=
  negb (value =s []) && forallb is_ascii_digit value
  && ((value =s lit "0") || negb (starts_with (lit "0") value))
  && match parse_digits 0 value with Some n => (n <=? I64_MAX)%Z | None => false end.
Definition literal_array_key (n : Node) : option LiteralArrayKey :=
  if nd_kind n =s lit "string" then
    text ← utf8_text source n;
    value ← decode_php_string text;
    if integer_key value then Some KeyNonString else Some (KeyString value)
  else if existsb (λ kind, nd_kind n =s lit kind) ["integer"; "float"; "boolean"; "null"]%string
  then Some KeyNonString else None.
Definition literal_name (n : Node) (namespace : bool) : option str :=
  if negb (nd_kind n =s lit "string") then None
  else
    text ← utf8_text source n;
    value ← decode_php_string text;
    if (if namespace then valid_namespace value else valid_suffix value) then Some value else None.

(** The loop over the elements: entries and the positions of explicit keys. *)
Definition entry_of (initializer : Node) : option (str * str * option str) :=
  if negb (nd_kind initializer =s lit "array_element_initializer") then None
  else match named_children initializer with
       | [value_node] => value ← literal_name value_node false; Some (value, value, None)
       | [key; value_node] =>
           value ← literal_name value_node false;
           key ← literal_array_key key;
           Some (match key with
                 | KeyString key => (key, value, Some key)
                 | KeyNonString => (value, value, None)
                 end)
       | _ => None
       end.
Fixpoint aliasable_entries (initializers : list Node) (entries : list AliasableNamespace)
    (keyed_positions : gmap str nat) : option (list AliasableNamespace) :=
  match initializers with
  | [] => Some entries
  | initializer :: initializers =>
      if length entries =? MAX_ALIAS_ENTRIES then None
      else
        '(namespace, suffix, explicit_string_key) ← entry_of initializer;
        if negb (valid_namespace namespace) then None
        else match explicit_string_key with
             | Some key =>
                 match keyed_positions !! key with
                 | Some position =>
                     aliasable_entries initializers
                       (alter (λ e, MkAliasable (al_namespace e) suffix) position entries) keyed_positions
                 | None =>
                     aliasable_entries initializers (entries ++ [MkAliasable namespace suffix])
                       (<[key := length entries]> keyed_positions)
                 end
             | None =>
                 aliasable_entries initializers (entries ++ [MkAliasable namespace suffix]) keyed_positions
             end
  end.
Definition parse_aliasable_hook (method : Node) : option (list AliasableNamespace) :=
  array ← literal_return_array method;
  aliasable_entries (named_children array) [] ∅.

Fixpoint unaliasable_entries (initializers : list Node) (namespaces : list str) : option (list str) :=
  match initializers with
  | [] => Some namespaces
  | initializer :: initializers =>
      if length namespaces =? MAX_ALIAS_ENTRIES then None
      else if negb (nd_kind initializer =s lit "array_element_initializer") then None
      else match named_children initializer with
           | [value_node] =>
               namespace ← literal_name value_node true;
               unaliasable_entries initializers (namespaces ++ [namespace])
           | _ => None
           end
  end.
Definition parse_unaliasable_hook (method : Node) : option (list str) :=
  array ← literal_return_array method;
  unaliasable_entries (named_children array) [].
End Hooks.

(** [HookParse]: how often a hook is declared and its value if once. *)
Record HookParse (T : Type) := MkHook { hk_count : nat; hk_value : option T }.
Arguments MkHook {T}.
Arguments hk_count {T}.
Arguments hk_value {T}.
Definition hook_add {T} (hook : HookParse T) (value : option T) : HookParse T :=
  MkHook (S (hk_count hook)) (if hk_count hook =? 0 then value else None).
(** [finish_hook]: what replaces the destination, and an issue. *)
Definition finish_hook {T} (hook : HookParse T) (unsupported : AliasSourceIssue) (destination : T)
    (issues : list AliasSourceIssue) : T * list AliasSourceIssue :=
  if hk_count hook =? 0 then (destination, issues)
  else match hk_value hook with
       | Some value => (value, issues)
       | None => (destination, issues ++ [unsupported])
       end.

Abbreviation Hooks := (HookParse (list AliasableNamespace) * HookParse (list str))%type.
Definition hook_step (source : str) (hooks : Hooks) (method : Node) : Hooks :=
  if negb (nd_kind method =s lit "method_declaration") then hooks
  else match child_by_field_name "name" method ≫= utf8_text source with
       | None => hooks
       | Some name =>
           if eq_ignore_ascii_case name (lit "getAliasableNamespaces") then
             (hook_add hooks.1 (parse_aliasable_hook source method), hooks.2)
           else if eq_ignore_ascii_case name (lit "getUnaliasableNamespaces") then
             (hooks.1, hook_add hooks.2 (parse_unaliasable_hook source method))
           else hooks
       end.
Definition collect_xf_hooks (source : str) (hooks : Hooks) (class : Node) : Hooks :=
  match child_by_field_name "body" class with
  | None => hooks
  | Some body => foldl (hook_step source) hooks (named_children body)
  end.
(** One node of the walk. *)
Definition is_xf_class (source : str) (root : Node) (e : list Node * Node) : bool :=
  (nd_kind e.2 =s lit "class_declaration") && is_global_class source root e.1 e.2 &&
  match child_by_field_name "name" e.2 ≫= utf8_text source with
  | Some name => eq_ignore_ascii_case name (lit "XF")
  | None => false
  end.

(** What the parser does with the source: no language, no tree within the time
    allowed, or a tree with its error flag. *)
Inductive ParseOutcome := LanguageError | Cancelled | Parsed (root : Node) (has_error : bool).

Definition no_rules (issue : AliasSourceIssue) : AliasSource := MkAliasSource [] [] [issue].
Definition parse_aliases (parse_php : str → ParseOutcome) (source : str) : AliasSource :=
  if MAX_ALIAS_SOURCE_BYTES <? length source then no_rules SourceTooLarge
  else if negb (utf8_valid source) then no_rules InvalidEncoding
  else match parse_php source with
       | LanguageError => no_rules ParseError
       | Cancelled => no_rules ParseCancelled
       | Parsed root has_error =>
           if has_error then no_rules ParseError
           else if negb (bounded_tree root) then no_rules DepthLimit
           else
             let '(aliasable, unaliasable) :=
               foldl (λ hooks e, if is_xf_class source root e then collect_xf_hooks source hooks e.2 else hooks)
                 (MkHook 0 None, MkHook 0 None) (walk [] root) in
             let '(a, issues) := finish_hook aliasable AliasableHookUnsupported [] [] in
             let '(u, issues) := finish_hook unaliasable UnaliasableHookUnsupported [] issues in
             MkAliasSource a u issues
       end.

(** ** What the rules of a source look like *)

Definition no_backslash (s : str) : Prop := backslash ∉ s.
Definition well_formed_mapping (m : AliasableNamespace) : Prop :=
  valid_namespace (al_namespace m) = true ∧ valid_suffix (al_suffix m) = true.
Definition well_formed_rules (rules : AliasSource) : Prop :=
  Forall well_formed_mapping (aliasable_namespaces rules) ∧
  Forall (λ ns, valid_namespace ns = true) (unaliasable_namespaces rules) ∧
  length (aliasable_namespaces rules) ≤ MAX_ALIAS_ENTRIES ∧
  length (unaliasable_namespaces rules) ≤ MAX_ALIAS_ENTRIES.

Lemma valid_identifier_no_backslash s : valid_identifier s = true → no_backslash s.
Proof.
  destruct s as [|c s]; [done|]. unfold no_backslash. simpl.
  intros [Hc Hs]%andb_prop [Hin|Hin]%elem_of_cons.
  - subst c. vm_compute in Hc. done.
  - rewrite forallb_forall in Hs. apply list_elem_of_In, Hs in Hin. vm_compute in Hin. done.
Qed.

Lemma literal_name_valid source n namespace value :
  literal_name source n namespace = Some value →
  (if namespace then valid_namespace value else valid_suffix value) = true.
Proof.
  unfold literal_name. destruct (negb _); [done|]. intros H.
  destruct (utf8_text source n) as [text|]; [|done]. simpl in H.
  destruct (decode_php_string text) as [v|]; [|done]. simpl in H.
  destruct (if namespace then _ else _) eqn:E; [|done]. by simplify_eq.
Qed.

Lemma entry_of_suffix source n namespace suffix key :
  entry_of source n = Some (namespace, suffix, key) → valid_suffix suffix = true.
Proof.
  unfold entry_of. destruct (negb _); [done|]. intros H.
  destruct (named_children n) as [|a [|b [|? ?]]]; [done|..|done].
  - destruct (literal_name source a false) eqn:E; [|done]. simplify_eq/=. by apply literal_name_valid in E.
  - destruct (literal_name source b false) eqn:E; [|done]. simpl in H.
    destruct (literal_array_key source a) as [[k|]|]; simplify_eq/=; by apply literal_name_valid in E.
Qed.

Lemma aliasable_entries_valid source ns entries keyed result :
  Forall well_formed_mapping entries → length entries ≤ MAX_ALIAS_ENTRIES →
  aliasable_entries source ns entries keyed = Some result →
  Forall well_formed_mapping result ∧ length result ≤ MAX_ALIAS_ENTRIES.
Proof.
  revert entries keyed. induction ns as [|n ns IH]; intros entries keyed He Hl H; [by simplify_eq/=|].
  cbn in H. destruct (length entries =? MAX_ALIAS_ENTRIES) eqn:El; [done|].
  apply Nat.eqb_neq in El. destruct (entry_of source n) as [[[namespace suffix] key]|] eqn:E; [|done].
  apply entry_of_suffix in E. simpl in H.
  destruct (valid_namespace namespace) eqn:Hn; [|done]. simpl in H.
  assert (Forall well_formed_mapping (entries ++ [MkAliasable namespace suffix])) as Happ.
  { apply Forall_app. split; [done|]. by repeat constructor. }
  assert (length (entries ++ [MkAliasable namespace suffix]) ≤ MAX_ALIAS_ENTRIES) as Hlen.
  { rewrite length_app; simpl; lia. }
  destruct key as [key|]; [|by eapply IH].
  destruct (keyed !! key) as [position|]; [|by eapply IH].
  eapply IH; [..|exact H]; [|by rewrite length_alter].
  apply Forall_alter; [done|]. intros e _ [Hv _]. done.
Qed.

Lemma unaliasable_entries_valid source ns entries result :
  Forall (λ n, valid_namespace n = true) entries → length entries ≤ MAX_ALIAS_ENTRIES →
  unaliasable_entries source ns entries = Some result →
  Forall (λ n, valid_namespace n = true) result ∧ length result ≤ MAX_ALIAS_ENTRIES.
Proof.
  revert entries. induction ns as [|n ns IH]; intros entries He Hl H; [by simplify_eq/=|].
  cbn in H. destruct (length entries =? MAX_ALIAS_ENTRIES) eqn:El; [done|].
  apply Nat.eqb_neq in El. destruct (negb _); [done|].
  destruct (named_children n) as [|v [|? ?]]; [done| |done].
  destruct (literal_name source v true) as [value|] eqn:E; [|done]. simpl in H.
  apply literal_name_valid in E. eapply IH; [..|exact H].
  - apply Forall_app. split; [done|]. by repeat constructor.
  - rewrite length_app; simpl; lia.
Qed.

(** The values of the two hooks, if any, are well formed. *)
Definition hooks_valid (hooks : Hooks) : Prop :=
  (∀ v, hk_value hooks.1 = Some v → Forall well_formed_mapping v ∧ length v ≤ MAX_ALIAS_ENTRIES) ∧
  (∀ v, hk_value hooks.2 = Some v → Forall (λ n, valid_namespace n = true) v ∧ length v ≤ MAX_ALIAS_ENTRIES).

Lemma hook_step_valid source hooks method : hooks_valid hooks → hooks_valid (hook_step source hooks method).
Proof.
  intros [Ha Hu]. unfold hook_step. destruct (negb _); [done|].
  destruct (child_by_field_name _ method ≫= _); [|done].
  destruct (eq_ignore_ascii_case _ _); [|destruct (eq_ignore_ascii_case _ _); [|done]].
  - split; [|done]. simpl. intros v. destruct (hk_count hooks.1 =? 0); [|done].
    unfold parse_aliasable_hook. destruct (literal_return_array method); [|done]. simpl.
    intros H. eapply aliasable_entries_valid; [..|exact H]; [by constructor|simpl; lia].
  - split; [done|]. simpl. intros v. destruct (hk_count hooks.2 =? 0); [|done].
    unfold parse_unaliasable_hook. destruct (literal_return_array method); [|done]. simpl.
    intros H. eapply unaliasable_entries_valid; [..|exact H]; [by constructor|simpl; lia].
Qed.

Lemma foldl_preserves {A B} (P : A → Prop) (f : A → B → A) l a :
  (∀ a b, P a → P (f a b)) → P a → P (foldl f a l).
Proof. intros Hf. revert a. induction l; simpl; eauto. Qed.

Lemma parsed_rules_valid parse_php source : well_formed_rules (parse_aliases parse_php source).
Proof.
  assert (∀ issue, well_formed_rules (no_rules issue)) as Hno.
  { intros issue. repeat split; simpl; first [by constructor|lia]. }
  unfold parse_aliases. repeat (case_match; [apply Hno|]); try apply Hno.
  destruct (parse_php source) as [| |root has_error]; [apply Hno..|].
  repeat (case_match; [apply Hno|]).
  set (hooks := foldl _ _ _).
  assert (hooks_valid hooks) as [Ha Hu].
  { apply foldl_preserves; [|done]. intros hs e Hhs. destruct (is_xf_class _ _ _); [|done].
    unfold collect_xf_hooks. destruct (child_by_field_name _ _); [|done].
    apply foldl_preserves; [|done]. intros. by apply hook_step_valid. }
  destruct hooks as [[na va] [nu vu]]; simpl in *. unfold finish_hook; simpl.
  destruct (na =? 0), (nu =? 0), va as [va|], vu as [vu|]; simpl;
    try destruct (Ha _ eq_refl); try destruct (Hu _ eq_refl); repeat split; simpl; try done; lia.
Qed.

(** ** Names up to case *)

Abbreviation lower := to_ascii_lowercase.
Lemma lower_app a b : lower (a ++ b) = lower a ++ lower b.
Proof. apply fmap_app. Qed.
Lemma lower_byte_backslash c : to_ascii_lowercase_byte c = backslash ↔ c = backslash.
Proof. by_byte c. Qed.
Lemma elem_of_lower s : backslash ∈ lower s ↔ backslash ∈ s.
Proof.
  unfold to_ascii_lowercase. rewrite list_elem_of_fmap. split.
  - intros (c & Hc & Hin). symmetry in Hc. apply (proj1 (lower_byte_backslash c)) in Hc. by subst.
  - intros Hin. exists backslash. by split.
Qed.
Lemma eq_ic a b : eq_ignore_ascii_case a b = true ↔ lower a = lower b.
Proof. apply bool_decide_eq_true. Qed.

Lemma take_lower n s : lower (take n s) = take n (lower s).
Proof. apply fmap_take. Qed.
Lemma is_cont_lower c : is_cont (to_ascii_lowercase_byte c) = is_cont c.
Proof. by_byte c. Qed.
Lemma is_char_boundary_lower s i : is_char_boundary (lower s) i = is_char_boundary s i.
Proof.
  unfold is_char_boundary, to_ascii_lowercase. rewrite list_lookup_fmap, length_fmap.
  destruct (i =? 0), (s !! i); simpl; try done. by rewrite is_cont_lower.
Qed.

(** Two spellings that differ in case only. *)
Definition same_spelling (a b : str) : Prop := lower a = lower b.

Lemma trim_cons_true s : trim_backslashes (backslash :: s) = trim_backslashes s.
Proof. reflexivity. Qed.
Lemma trim_cons_false c s : c ≠ backslash → trim_backslashes (c :: s) = c :: s.
Proof. intros Hc. unfold trim_backslashes. cbn [drop_while]. by rewrite bool_decide_false. Qed.
Lemma same_spelling_trim a b : same_spelling a b → same_spelling (trim_backslashes a) (trim_backslashes b).
Proof.
  revert b. unfold same_spelling. induction a as [|c a IH]; intros [|d b] H; try done.
  injection H as Hc H. simpl.
  destruct (decide (c = backslash)) as [->|Hnc].
  - assert (d = backslash) as -> by (apply lower_byte_backslash; by rewrite <-Hc). rewrite !trim_cons_true. by apply IH.
  - rewrite !trim_cons_false; [exact (f_equal2 cons Hc H)| |done].
    intros ->. by apply Hnc, lower_byte_backslash.
Qed.
Lemma same_spelling_backslash a b : same_spelling a b → has_backslash a = has_backslash b.
Proof.
  intros H. unfold has_backslash. apply bool_decide_ext. by rewrite <-(elem_of_lower a), <-(elem_of_lower b), H.
Qed.
Lemma begins_lower a ns :
  begins_with_namespace a ns =
  is_char_boundary a (length ns) && bool_decide (take (length ns) (lower a) = lower ns)
  && bool_decide (lower a !! length ns = Some backslash).
Proof.
  unfold begins_with_namespace, get_to. destruct (is_char_boundary a _); [|done]. simpl.
  unfold eq_ignore_ascii_case. rewrite take_lower. f_equal.
  unfold to_ascii_lowercase. rewrite list_lookup_fmap. destruct (a !! length ns) as [c|]; [|done].
  simpl. apply bool_decide_ext. split; [intros ->; done|]. intros [= Hc]. by apply lower_byte_backslash.
Qed.
Lemma same_spelling_begins a b ns :
  same_spelling a b → begins_with_namespace a ns = begins_with_namespace b ns.
Proof.
  intros H. rewrite !begins_lower, <-(is_char_boundary_lower a), <-(is_char_boundary_lower b).
  by rewrite H.
Qed.

(** A window of the text that equals a needle. *)
Lemma any_window_true n f s :
  any_window n f s = true ↔ ∃ a w b, s = a ++ w ++ b ∧ length w = n ∧ f w = true.
Proof.
  induction s as [|c s IH]; simpl.
  - destruct n; simpl; [|split; [done|]; intros (a & w & b & H & Hw & _)].
    + rewrite orb_false_r. split; [by intros; exists [], [], []|].
      intros (a & w & b & H & _ & Hf). symmetry in H. apply app_eq_nil in H as [_ [-> _]%app_eq_nil]. done.
    + symmetry in H. apply app_eq_nil in H as [_ [-> _]%app_eq_nil]. done.
  - assert (∀ a w b, c :: s = a ++ w ++ b → length w = n → (S (length s) <? n) = false) as Hlen.
    { intros a w b H Hw. apply Nat.ltb_ge. apply (f_equal length) in H. rewrite !length_app in H. simpl in H. lia. }
    destruct (S (length s) <? n) eqn:El.
    { split; [done|]. intros (a & w & b & H & Hw & _). by specialize (Hlen a w b H Hw). }
    rewrite orb_true_iff, IH. split.
    + intros [Hf|(a & w & b & -> & Hw & Hf)].
      * exists [], (take n (c :: s)), (drop n (c :: s)). rewrite length_take. apply Nat.ltb_ge in El.
        split_and!; [by rewrite app_nil_l, take_drop|simpl; lia|done].
      * by exists (c :: a), w, b.
    + intros ([|d a] & w & b & H & Hw & Hf); simplify_eq/=.
      * left. by rewrite H, take_app_length.
      * right. by exists a, w, b.
Qed.

Definition needle (ns : str) : str := [backslash] ++ ns ++ [backslash].
Lemma contains_lower a ns :
  contains_namespace a ns = true ↔ ns ≠ [] ∧ ∃ x y, lower a = x ++ lower (needle ns) ++ y.
Proof.
  unfold contains_namespace. case_bool_decide as Hns; [by naive_solver|].
  fold (needle ns). rewrite any_window_true. split.
  - intros (x & w & y & -> & _ & Hw%eq_ic). split; [done|]. exists (lower x), (lower y).
    by rewrite !lower_app, Hw.
  - intros [_ (x & y & H)]. apply fmap_app_inv in H as (x' & z & -> & H & ->).
    symmetry in H. apply fmap_app_inv in H as (w & y' & Hw & -> & ->).
    exists x', w, y'. split_and!; [done| |by apply eq_ic].
    apply (f_equal length) in Hw. unfold to_ascii_lowercase in Hw. by rewrite !length_fmap in Hw.
Qed.
Lemma same_spelling_contains a b ns :
  same_spelling a b → contains_namespace a ns = contains_namespace b ns.
Proof. intros H. apply eq_true_iff_eq. by rewrite !contains_lower, H. Qed.
Lemma ends_lower a suffix :
  ends_with_ascii_case_insensitive a suffix =
  bool_decide (drop (length (lower a) - length suffix) (lower a) = lower suffix).
Proof.
  unfold ends_with_ascii_case_insensitive, eq_ignore_ascii_case. apply bool_decide_ext.
  unfold to_ascii_lowercase. by rewrite fmap_drop, length_fmap.
Qed.
Lemma same_spelling_ends a b suffix :
  same_spelling a b → ends_with_ascii_case_insensitive a suffix = ends_with_ascii_case_insensitive b suffix.
Proof. intros H. by rewrite !ends_lower, H. Qed.

(** ** Appending a suffix *)

Lemma begins_suffix a suffix ns :
  no_backslash suffix → begins_with_namespace (a ++ suffix) ns = begins_with_namespace a ns.
Proof.
  intros Hs. rewrite !begins_lower, lower_app.
  destruct (decide (length ns < length a)) as [Hlt|Hge].
  - rewrite take_app_le, lookup_app_l by (unfold to_ascii_lowercase; rewrite length_fmap; lia).
    f_equal. f_equal. unfold is_char_boundary. destruct (length ns =? 0); [done|].
    rewrite lookup_app_l by done. destruct (lookup_lt_is_Some_2 a (length ns) Hlt) as [c ->]. done.
  - rewrite (bool_decide_false ((lower a ++ lower suffix) !! _ = _)), (bool_decide_false (lower a !! _ = _)).
    + by rewrite !andb_false_r.
    + rewrite lookup_ge_None_2; [done|]. unfold to_ascii_lowercase; rewrite length_fmap; lia.
    + rewrite lookup_app_r by (unfold to_ascii_lowercase; rewrite length_fmap; lia).
      intros H%list_elem_of_lookup_2. by apply Hs, elem_of_lower.
Qed.

Lemma contains_suffix a suffix ns :
  no_backslash suffix → contains_namespace (a ++ suffix) ns = contains_namespace a ns.
Proof.
  intros Hs. apply eq_true_iff_eq. rewrite !contains_lower, lower_app.
  split; intros [Hns (x & y & H)]; (split; [done|]); [|by exists x, (y ++ lower suffix); rewrite H, <-!app_assoc].
  assert (∃ m, lower (needle ns) = m ++ [backslash]) as [m Hm].
  { exists (lower ([backslash] ++ ns)). unfold needle. by rewrite app_assoc, lower_app. }
  rewrite Hm, <-app_assoc in H. rewrite Hm.
  assert (lower a ++ lower suffix = (x ++ m ++ [backslash]) ++ y) as H' by (rewrite H, <-!app_assoc; done).
  apply app_eq_inv in H' as [(k & Hk & ->)|(k & Hk & Hsuf)].
  - exists x, k. rewrite Hk. by rewrite <-!app_assoc.
  - exists x, []. rewrite app_nil_r. destruct k as [|c k _] using rev_ind.
    { by rewrite app_nil_r in Hk. }
    exfalso. rewrite !app_assoc in Hk. apply app_inj_tail in Hk as [_ <-].
    apply Hs, elem_of_lower. rewrite Hsuf. set_solver.
Qed.

Lemma ends_suffix a suffix : ends_with_ascii_case_insensitive (a ++ suffix) suffix = true.
Proof.
  rewrite ends_lower. apply bool_decide_true. rewrite lower_app, length_app.
  replace (length suffix) with (length (lower suffix)) by apply length_fmap.
  by rewrite Nat.add_sub, drop_app_length.
Qed.

Lemma apply_mapping_stable mappings class :
  Forall (λ m, no_backslash (al_suffix m)) mappings →
  apply_mapping mappings (apply_mapping mappings class) = apply_mapping mappings class.
Proof.
  intros Hm. cut (∀ ms c, Forall (λ m, no_backslash (al_suffix m)) ms →
    apply_mapping ms c = c ∨ ∃ s, no_backslash s ∧ apply_mapping ms c = c ++ s ∧ apply_mapping ms (c ++ s) = c ++ s).
  { intros Hc. destruct (Hc mappings class Hm) as [E|(s & _ & E & E')]; rewrite E; [done|by rewrite E']. }
  clear. induction ms as [|m ms IH]; intros c Hm; [by left|]. inversion Hm as [|? ? Hs Hms]; subst. simpl.
  destruct (contains_namespace c (al_namespace m)) eqn:Ec; simpl.
  - destruct (ends_with_ascii_case_insensitive c (al_suffix m)) eqn:Ee; [by left|].
    right. exists (al_suffix m). rewrite contains_suffix, Ec, ends_suffix by done. done.
  - destruct (IH c Hms) as [E|(s & Hns & E & E')]; [by left|]. right. exists s.
    rewrite contains_suffix, Ec by done. done.
Qed.

Lemma apply_mapping_extends mappings class :
  Forall (λ m, no_backslash (al_suffix m)) mappings →
  ∃ s, no_backslash s ∧ apply_mapping mappings class = class ++ s.
Proof.
  induction 1 as [|m ms Hs _ IH]; simpl.
  - exists []. rewrite app_nil_r. split; [apply not_elem_of_nil|done].
  - destruct (contains_namespace _ _); simpl; [|done].
    destruct (ends_with_ascii_case_insensitive _ _); [|by eexists].
    exists []. rewrite app_nil_r. split; [apply not_elem_of_nil|done].
Qed.

Lemma apply_mapping_spelling mappings a b :
  same_spelling a b → same_spelling (apply_mapping mappings a) (apply_mapping mappings b).
Proof.
  intros H. induction mappings as [|m ms IH]; simpl; [done|].
  rewrite (same_spelling_contains a b), (same_spelling_ends a b) by done.
  destruct (contains_namespace _ _); simpl; [|done]. destruct (ends_with_ascii_case_insensitive _ _); [done|].
  unfold same_spelling in *. by rewrite !lower_app, H.
Qed.

(** ** Canonical names *)

Lemma trim_no_leading s : match trim_backslashes s with c :: _ => c ≠ backslash | [] => True end.
Proof.
  induction s as [|c s IH]; [done|]. destruct (decide (c = backslash)) as [->|Hc].
  - by rewrite trim_cons_true.
  - by rewrite trim_cons_false.
Qed.
Lemma trim_idem s : trim_backslashes (trim_backslashes s) = trim_backslashes s.
Proof.
  pose proof (trim_no_leading s) as H. destruct (trim_backslashes s) as [|c t]; [done|]. by apply trim_cons_false.
Qed.
Lemma trim_app s suffix :
  trim_backslashes s ≠ [] → trim_backslashes (trim_backslashes s ++ suffix) = trim_backslashes s ++ suffix.
Proof.
  pose proof (trim_no_leading s) as H. destruct (trim_backslashes s) as [|c t]; [done|]. intros _.
  by apply trim_cons_false.
Qed.

(** What the resolver makes of a trimmed name when no issue stands in the way. *)
Definition settled (rules : AliasSource) (class : str) : str :=
  if existsb (begins_with_namespace class) (unaliasable_namespaces rules) then class
  else if negb (has_backslash class) then class
  else apply_mapping (aliasable_namespaces rules) class.
Lemma settled_no_backslash rules class : has_backslash class = false → settled rules class = class.
Proof. unfold settled. intros ->. by destruct (existsb _ _). Qed.

Lemma canonicalize_unfold raw rules :
  canonicalize_class_name raw rules =
  let class := trim_backslashes raw in
  match alias_issues rules with
  | [] => Some (settled rules class)
  | _ => if needs_alias_resolution class rules then None else Some class
  end.
Proof.
  unfold canonicalize_class_name, settled. destruct (alias_issues rules) as [|i issues]; simpl.
  - case_bool_decide as E; [rewrite E; simpl; by destruct (existsb _ _)|].
    destruct (existsb _ _); [done|]. by destruct (has_backslash _).
  - destruct (needs_alias_resolution _ _); [done|]. case_bool_decide as E; [by rewrite E|done].
Qed.

Lemma settled_extends rules class :
  Forall (λ m, no_backslash (al_suffix m)) (aliasable_namespaces rules) →
  ∃ s, no_backslash s ∧ settled rules class = class ++ s ∧ (class = [] → s = []).
Proof.
  intros Hm. unfold settled.
  assert (∃ s, no_backslash s ∧ class = class ++ s ∧ (class = [] → s = [])) as Hid.
  { exists []. rewrite app_nil_r. split; [apply not_elem_of_nil|done]. }
  destruct (existsb _ _); [done|]. destruct (has_backslash class) eqn:Eb; [|done]. simpl.
  destruct (apply_mapping_extends _ class Hm) as (s & Hs & E). exists s. split_and!; [done|done|].
  intros ->. done.
Qed.
Lemma settled_stable rules class :
  Forall (λ m, no_backslash (al_suffix m)) (aliasable_namespaces rules) →
  settled rules (settled rules class) = settled rules class.
Proof.
  intros Hm. destruct (settled_extends rules class Hm) as (s & Hs & E & _).
  unfold settled at 1. destruct (existsb _ (unaliasable_namespaces rules)) eqn:Eu; [done|].
  destruct (has_backslash (settled rules class)) eqn:Eb; [|done]. simpl. revert E Eu Eb. unfold settled.
  destruct (existsb (begins_with_namespace class) _) eqn:Eu'; [intros _; by rewrite Eu'|].
  destruct (has_backslash class) eqn:Ec; [|intros _ _; simpl; by rewrite Ec]. simpl. intros _ _ _.
  by apply apply_mapping_stable.
Qed.

Lemma needs_suffix_spelling mappings a b :
  same_spelling a b → needs_suffix_in mappings a = needs_suffix_in mappings b.
Proof.
  intros H. induction mappings as [|m ms IH]; [done|]. simpl.
  by rewrite (same_spelling_contains a b), (same_spelling_ends a b), IH.
Qed.
Lemma begins_any_spelling namespaces a b :
  same_spelling a b →
  existsb (begins_with_namespace a) namespaces = existsb (begins_with_namespace b) namespaces.
Proof.
  intros H. induction namespaces as [|ns nss IH]; [done|]. simpl. by rewrite IH, (same_spelling_begins a b).
Qed.
Lemma needs_spelling rules a b :
  same_spelling a b → needs_alias_resolution a rules = needs_alias_resolution b rules.
Proof.
  intros H%same_spelling_trim. unfold needs_alias_resolution, needs_aliasable_suffix.
  by rewrite (same_spelling_backslash _ _ H), (needs_suffix_spelling _ _ _ H), (begins_any_spelling _ _ _ H).
Qed.
Lemma settled_spelling rules a b : same_spelling a b → same_spelling (settled rules a) (settled rules b).
Proof.
  intros H. unfold settled. rewrite (begins_any_spelling _ _ _ H), (same_spelling_backslash _ _ H).
  destruct (existsb _ _); [done|]. destruct (negb _); [done|]. by apply apply_mapping_spelling.
Qed.

(** A canonical class name is a fixed point: for the rules of any source,
    whatever the parser makes of it, the canonical name of a name is the name
    without its leading backslashes and at most one suffix more, its canonical
    name is itself, and every spelling of the name that differs in case only
    has a canonical name that differs in case only, so that PHP's names get one
    lookup key each. *)
Theorem canonical_names_stable (parse_php : str → ParseOutcome) (source raw canonical : str) :
  canonicalize_class_name raw (parse_aliases parse_php source) = Some canonical →
  (∃ suffix, canonical = trim_backslashes raw ++ suffix ∧ no_backslash suffix) ∧
  canonicalize_class_name canonical (parse_aliases parse_php source) = Some canonical ∧
  ∀ raw', same_spelling raw' raw →
    ∃ canonical', canonicalize_class_name raw' (parse_aliases parse_php source) = Some canonical' ∧
                  same_spelling canonical' canonical.
Proof.
  pose proof (parsed_rules_valid parse_php source) as (Hm & _).
  generalize dependent (parse_aliases parse_php source). intros rules Hm.
  assert (Forall (λ m, no_backslash (al_suffix m)) (aliasable_namespaces rules)) as Hs.
  { eapply Forall_impl; [exact Hm|]. intros m [_ H]. by apply valid_identifier_no_backslash. }
  rewrite (canonicalize_unfold raw) in *. simpl.
  destruct (alias_issues rules) as [|i issues] eqn:Ei.
  - intros [= <-]. destruct (settled_extends rules (trim_backslashes raw) Hs) as (s & Hns & E & Hnil).
    split_and!; [by exists s| |].
    + rewrite canonicalize_unfold, Ei. simpl. f_equal. rewrite E.
      destruct (decide (trim_backslashes raw = [])) as [En|En].
      * rewrite (Hnil En) in *. rewrite app_nil_r in *. by rewrite trim_idem.
      * rewrite trim_app by done. rewrite <-E. by apply settled_stable.
    + intros raw' Hr. rewrite canonicalize_unfold, Ei. simpl. eexists. split; [done|].
      by apply settled_spelling, same_spelling_trim.
  - destruct (needs_alias_resolution _ rules) eqn:En; [done|]. intros [= <-]. split_and!.
    + exists []. rewrite app_nil_r. split; [done|apply not_elem_of_nil].
    + rewrite canonicalize_unfold, Ei. simpl. by rewrite trim_idem, En.
    + intros raw' Hr%same_spelling_trim. rewrite canonicalize_unfold, Ei. simpl.
      rewrite (needs_spelling rules _ _ Hr), En. eexists. by split.
Qed.

(** ** Sources that are understood in part *)

(** [full] is what a source would give if [partial]'s issues were resolved: a
    hook without an issue keeps its value. *)
Definition completes (partial full : AliasSource) : Prop :=
  alias_issues full = [] ∧
  (existsb global_issue (alias_issues partial) = false →
   (AliasableHookUnsupported ∉ alias_issues partial →
    aliasable_namespaces full = aliasable_namespaces partial) ∧
   (UnaliasableHookUnsupported ∉ alias_issues partial →
    unaliasable_namespaces full = unaliasable_namespaces partial)).

Lemma needs_suffix_false mappings class : needs_suffix_in mappings class = false → apply_mapping mappings class = class.
Proof.
  induction mappings as [|m ms IH]; [done|]. simpl. destruct (contains_namespace _ _); simpl; [|done].
  by destruct (ends_with_ascii_case_insensitive _ _).
Qed.


(** ** Literals *)

(** A string in PHP's single quotes. *)
Definition escape_single (c : ascii) : str :=
  if (c =c backslash) || (c =c squote) then [backslash; c] else [c].
Definition single_quoted (s : str) : str := [squote] ++ (s ≫= escape_single) ++ [squote].

Lemma decode_one fuel c rest :
  1 ≤ fuel → decode_content fuel squote (escape_single c ++ rest) =
  (decoded ← decode_content (pred fuel) squote rest; Some (c :: decoded)).
Proof.
  destruct fuel as [|fuel]; [lia|]. intros _. unfold escape_single.
  destruct (decide (c = backslash)) as [->|Hb]; [done|].
  destruct (decide (c = squote)) as [->|Hq]; [done|].
  rewrite !bool_decide_false by done. cbn [orb app decode_content pred].
  by rewrite bool_decide_false.
Qed.
Lemma decode_escaped s fuel :
  length (s ≫= escape_single) ≤ fuel → decode_content fuel squote (s ≫= escape_single) = Some s.
Proof.
  revert fuel. induction s as [|c s IH]; intros fuel Hf; [by destruct fuel|].
  rewrite bind_cons in *. rewrite length_app in Hf.
  assert (1 ≤ length (escape_single c)) by (unfold escape_single; destruct (_ || _); simpl; lia).
  rewrite decode_one by lia. by rewrite IH by lia.
Qed.

(** A literal in single quotes is read as PHP writes it: escaping the
    backslashes and quotes of any well-formed text and decoding the literal
    gives the text back. *)
Theorem single_quoted_decoded (s : str) : utf8_valid s = true → decode_php_string (single_quoted s) = Some s.
Proof.
  intros Hs. unfold single_quoted, decode_php_string. cbn [app]. rewrite last_snoc.
  rewrite bool_decide_true by done. cbn [andb orb].
  rewrite length_app. cbn [length]. rewrite Nat.add_sub, take_app_length. simpl.
  rewrite decode_escaped by lia. cbn. by rewrite Hs.
Qed.

Module AliasesExample.

(** [getAliasableNamespaces] of a small [XF] class and its tree. *)
Definition source : str :=
  lit "<?php class XF { static function getAliasableNamespaces() { return ['Finder' => 'Finder']; } }".
Definition at_text (text : string) : nat := default 0 (find_sub (lit text) source).
Definition leaf (kind : string) (field : option string) (text : string) : Node :=
  MkNode (lit kind) true (lit <$> field) (at_text text) (at_text text + String.length text) [].
Definition over (kind : string) (field : option string) (children : list Node) : Node :=
  MkNode (lit kind) true (lit <$> field) 6 (length source) children.
Definition tree : Node :=
  over "program" None
    [over "class_declaration" None
      [leaf "name" (Some "name") "XF";
       over "declaration_list" (Some "body")
         [over "method_declaration" None
           [leaf "name" (Some "name") "getAliasableNamespaces";
            over "compound_statement" (Some "body")
              [over "return_statement" None
                [over "array_creation_expression" None
                  [over "array_element_initializer" None
                    [leaf "string" None "'Finder'"; leaf "string" None "'Finder'"]]]]]]]].
Definition parse_php (_ : str) : ParseOutcome := Parsed tree false.
Definition rules : AliasSource := parse_aliases parse_php source.

Example rules_found : rules = MkAliasSource [MkAliasable (lit "Finder") (lit "Finder")] [] [].
Proof. vm_compute. reflexivity. Qed.
Example suffix_added : canonicalize_class_name (lit "\XF\Finder\User") rules = Some (lit "XF\Finder\UserFinder").
Proof. vm_compute. reflexivity. Qed.

Lemma canonical_names_stable_witness :
  canonicalize_class_name (lit "XF\Finder\UserFinder") rules = Some (lit "XF\Finder\UserFinder").
Proof.
  destruct (canonical_names_stable parse_php source (lit "\XF\Finder\User") (lit "XF\Finder\UserFinder"))
    as (_ & H & _); [vm_compute; reflexivity|]. exact H.
Defined.

(** A class whose [getUnaliasableNamespaces] is computed. *)
Definition partial : AliasSource := MkAliasSource (aliasable_namespaces rules) [] [UnaliasableHookUnsupported].

Lemma single_quoted_decoded_witness :
  decode_php_string (lit "'It\'s'") = Some (lit "It's").
Proof. apply (single_quoted_decoded (lit "It's")). vm_compute. reflexivity. Defined.

End AliasesExample.
