(* ===== verification/PhpNames.v ===== *)
(** * PHP class names across files

    Models [src/src/store/php_resolver/php_names.rs]: the index of PHP classes
    by qualified name, and the pass that adds the classes a name may mean to its
    occurrences, in batches by id.  A table is the list of its rows; the JSON
    text of the candidate column stands for the list it encodes. *)
From Stdlib Require Import Ascii String ZArith Lia Permutation Sorted.
From stdpp Require Import base numbers list gmap strings sorting.
From S2P Require Import Prelude Order Text Collections QueryShape Hierarchy.

(** ** The tables of the index that PHP resolution reads and writes *)

(** A row of [files] with its bytes in [contents], if they are stored. *)
Record PhpFile := MkPhpFile {
  pf_id : Z;
  pf_path : str;
  pf_language : str;
  pf_status : str;
  pf_bytes : option str;
}.
Record DefinitionEntry := MkDefinitionEntry {
  de_id : Z;
  de_file : Z;
  de_name : str;
  de_kind : str;
  de_start : Z;
  de_end : Z;
  de_container : option str;
}.
Record OccurrenceEntry := MkOccurrenceEntry {
  oe_id : Z;
  oe_file : Z;
  oe_name : str;
  oe_start : Z;
  oe_end : Z;
  oe_role : str;
  oe_target : option Z;
  oe_candidates : list Z;
  oe_provenance : str;
}.
Record RelationEntry := MkRelationEntry {
  rl_source : Z;
  rl_target : option Z;
  rl_kind : str;
  rl_file : Z;
  rl_start : Z;
  rl_end : Z;
  rl_provenance : str;
}.
Record PhpTables := MkPhpTables {
  ph_files : list PhpFile;
  ph_definitions : list DefinitionEntry;
  ph_occurrences : list OccurrenceEntry;
  ph_relations : list RelationEntry;
}.

(** [JOIN files f ON f.id=... WHERE f.language='php'] *)
Definition php_file (files : list PhpFile) (id : Z) : option PhpFile :=
  find (λ f, (pf_id f =? id)%Z && (pf_language f =s lit "php")) files.
Definition join_php {A} (files : list PhpFile) (file_of : A → Z) (rows : list A) : list (A * PhpFile) :=
  omap (λ r, f ← php_file files (file_of r); Some (r, f)) rows.
(** [ORDER BY d.id] *)
Definition by_id : DefinitionEntry → DefinitionEntry → comparison := cmp_on de_id Z.compare.
Definition kind_among (kinds : list string) (kind : str) : bool := existsb (λ k, kind =s lit k) kinds.
Definition CLASS_KINDS : list string := ["class"; "interface"; "trait"; "enum"]%string.
Definition php_definitions (tables : PhpTables) (kinds : list string) : list (DefinitionEntry * PhpFile) :=
  join_php (ph_files tables) de_file
    (sort_by by_id (List.filter (λ d, kind_among kinds (de_kind d)) (ph_definitions tables))).

(** ** Names *)

Definition definition_fqcn (namespace : option str) (name : str) : option str :=
  let name := trim_backslashes name in
  if name =s [] then None
  else if bool_decide (backslash ∈ name) then Some name
  else
    let namespace := match trim_backslashes <$> namespace with
                     | Some [] | None => None
                     | Some namespace => Some namespace
                     end in
    Some (match namespace with Some namespace => namespace ++ [backslash] ++ name | None => name end).

Definition normalized_fqcn (name : str) : option str :=
  match trim_backslashes name with
  | [] => None
  | name => Some (to_ascii_lowercase name)
  end.

(** ** The class index *)

Definition MAX_CANDIDATES : nat := 64.
Definition OCCURRENCE_BATCH : nat := 512.

Record PhpClassCandidate := MkClassCandidate { pc_id : Z; pc_file : Z; pc_path : str }.
(** [PhpClassIndex]: its [by_fqcn]. *)
Abbreviation PhpClassIndex := (gmap str (list PhpClassCandidate)).

Definition candidates (index : PhpClassIndex) (fqcn : str) : list PhpClassCandidate :=
  default [] (normalized_fqcn fqcn ≫= λ key, index !! key).

(** What the loop pushes for one class row. *)
Definition class_entry (row : DefinitionEntry * PhpFile) : option (str * PhpClassCandidate) :=
  let '(d, f) := row in
  fqcn ← definition_fqcn (de_container d) (de_name d);
  if is_xfcp_name fqcn then None
  else key ← normalized_fqcn fqcn; Some (key, MkClassCandidate (de_id d) (de_file d) (pf_path f)).
Definition class_index (tables : PhpTables) : PhpClassIndex :=
  foldl (λ m row, match class_entry row with Some (k, v) => push_entry m k v | None => m end) ∅
    (php_definitions tables CLASS_KINDS).

(** ** The pass over the occurrences *)

Definition name_eligible (tables : PhpTables) (o : OccurrenceEntry) : bool :=
  bool_decide (is_Some (php_file (ph_files tables) (oe_file o)))
  && (((oe_role o =s lit "type") && (oe_provenance o =s lit "php_fqcn"))
      || ((oe_role o =s lit "import") && (oe_provenance o =s lit "php_import"))).

(** What one occurrence becomes: its candidates, the targets of its new
    relationships, and its provenance; [None] leaves the row alone. *)
Definition name_row (classes : PhpClassIndex) (o : OccurrenceEntry) : option (list Z * list Z * str) :=
  if (oe_provenance o =s lit "xenforo_generated_placeholder") || is_xfcp_name (oe_name o) then None
  else
    key ← normalized_fqcn (oe_name o);
    match candidates classes key with
    | [] => None
    | indexed =>
        let cross_file_candidates :=
          pc_id <$> take (MAX_CANDIDATES + 1) (List.filter (λ c, negb (pc_file c =? oe_file o)%Z) indexed) in
        let all_candidates := sort_dedup Z.compare (oe_candidates o ++ cross_file_candidates) in
        let truncated := (MAX_CANDIDATES <? length cross_file_candidates)
                         || (MAX_CANDIDATES <? length all_candidates) in
        let all_candidates := take MAX_CANDIDATES all_candidates in
        if bool_decide (all_candidates = []) && negb truncated then None
        else
          Some (all_candidates, take MAX_CANDIDATES cross_file_candidates,
                oe_provenance o ++ lit ";php_fqcn_candidate_lookup" ++
                (if truncated then lit ";php_candidates_truncated" else []))
    end.

(** The smallest definition around a span. *)
Definition owner_order : DefinitionEntry → DefinitionEntry → comparison :=
  cmp_then (cmp_on (λ d, de_end d - de_start d)%Z Z.compare) by_id.
Definition owner_of (tables : PhpTables) (file start end_ : Z) : option Z :=
  de_id <$> head (sort_by owner_order
    (List.filter (λ d, (de_file d =? file)%Z && (de_start d <=? start)%Z && (end_ <=? de_end d)%Z)
       (ph_definitions tables))).

Definition name_relations (tables : PhpTables) (o : OccurrenceEntry) (cross : list Z) (provenance : str)
    : list RelationEntry :=
  match owner_of tables (oe_file o) (oe_start o) (oe_end o) with
  | None => []
  | Some owner =>
      let kind := if oe_role o =s lit "import" then "php_import_candidate" else "php_type_candidate" in
      (λ candidate, MkRelationEntry owner (Some candidate) (lit kind%string) (oe_file o)
                      (oe_start o) (oe_end o) provenance) <$> cross
  end.

(** [UPDATE occurrences SET candidates=?1,provenance=?2 WHERE id=?3] *)
Definition set_candidates (o : OccurrenceEntry) (cs : list Z) (provenance : str) : OccurrenceEntry :=
  MkOccurrenceEntry (oe_id o) (oe_file o) (oe_name o) (oe_start o) (oe_end o) (oe_role o) (oe_target o)
    cs provenance.
Definition update_row (id : Z) (f : OccurrenceEntry → OccurrenceEntry) (rows : list OccurrenceEntry)
    : list OccurrenceEntry :=
  (λ p, if (oe_id p =? id)%Z then f p else p) <$> rows.

Definition apply_name (classes : PhpClassIndex) (tables : PhpTables) (o : OccurrenceEntry) : PhpTables :=
  match name_row classes o with
  | None => tables
  | Some (all_candidates, cross, provenance) =>
      MkPhpTables (ph_files tables) (ph_definitions tables)
        (update_row (oe_id o) (λ p, set_candidates p all_candidates provenance) (ph_occurrences tables))
        (ph_relations tables ++ name_relations tables o cross provenance)
  end.

Definition occurrence_order : OccurrenceEntry → OccurrenceEntry → comparison := cmp_on oe_id Z.compare.
Definition name_batch (tables : PhpTables) (last_id : Z) : list OccurrenceEntry :=
  take OCCURRENCE_BATCH (sort_by occurrence_order
    (List.filter (λ o, (last_id <? oe_id o)%Z && name_eligible tables o) (ph_occurrences tables))).
Definition last_of (batch : list OccurrenceEntry) (last_id : Z) : Z :=
  match last batch with Some o => oe_id o | None => last_id end.

(** The loop over the batches; each has an occurrence of its own. *)
Fixpoint resolve_batches (fuel : nat) (classes : PhpClassIndex) (last_id : Z) (tables : PhpTables)
    : PhpTables :=
  match fuel with
  | O => tables
  | S fuel =>
      match name_batch tables last_id with
      | [] => tables
      | batch => resolve_batches fuel classes (last_of batch last_id) (foldl (apply_name classes) tables batch)
      end
  end.
Definition resolve_names (tables : PhpTables) (classes : PhpClassIndex) : PhpTables :=
  resolve_batches (S (length (ph_occurrences tables))) classes 0 tables.

(** ** The class index holds the classes of a name *)

(** A class row that a name, in its normal form, can mean. *)
Definition row_named (key : str) (row : DefinitionEntry * PhpFile) : bool :=
  match definition_fqcn (de_container row.1) (de_name row.1) with
  | Some fqcn => negb (is_xfcp_name fqcn) && same_name (normalized_fqcn fqcn) key
  | None => false
  end.
Definition candidate_of (row : DefinitionEntry * PhpFile) : PhpClassCandidate :=
  MkClassCandidate (de_id row.1) (de_file row.1) (pf_path row.2).

Lemma class_entry_named key row :
  row_named key row = match class_entry row with Some (k, _) => bool_decide (k = key) | None => false end ∧
  ∀ k v, class_entry row = Some (k, v) → v = candidate_of row.
Proof.
  destruct row as [d f]. unfold row_named, class_entry. cbn [fst].
  destruct (definition_fqcn (de_container d) (de_name d)) as [n|]; cbn; [|done].
  destruct (is_xfcp_name n); cbn; [done|]. destruct (normalized_fqcn n) as [k|]; cbn; [|done].
  split; [done|]. by intros ? ? [= _ <-].
Qed.

Lemma candidates_scan tables fqcn :
  candidates (class_index tables) fqcn =
  match normalized_fqcn fqcn with
  | Some key => candidate_of <$> List.filter (row_named key) (php_definitions tables CLASS_KINDS)
  | None => []
  end.
Proof.
  unfold candidates, class_index. destruct (normalized_fqcn fqcn) as [key|]; cbn; [|done].
  rewrite push_entries_lookup.
  induction (php_definitions tables CLASS_KINDS) as [|row rows IH]; [done|].
  cbn [omap list_omap List.filter]. rewrite IH. destruct (class_entry_named key row) as [-> Hv].
  destruct (class_entry row) as [[k v]|]; [|done]. rewrite (Hv k v eq_refl).
  case_decide; [rewrite bool_decide_true by done|rewrite bool_decide_false by done]; done.
Qed.

(** ** The batches are one pass *)

Definition resolved_row (classes : PhpClassIndex) (o : OccurrenceEntry) : OccurrenceEntry :=
  match name_row classes o with
  | Some (cs, _, provenance) => set_candidates o cs provenance
  | None => o
  end.
Definition row_relations (tables : PhpTables) (classes : PhpClassIndex) (o : OccurrenceEntry)
    : list RelationEntry :=
  match name_row classes o with
  | Some (_, cross, provenance) => name_relations tables o cross provenance
  | None => []
  end.

Section Pass.
Context (tables : PhpTables) (classes : PhpClassIndex).
Hypothesis ids_distinct : NoDup (oe_id <$> ph_occurrences tables).
Hypothesis ids_positive : Forall (λ o, (0 < oe_id o)%Z) (ph_occurrences tables).

(** The rows of the pass, and the tables after the rows [done] of it. *)
Definition pass_rows : list OccurrenceEntry :=
  sort_by occurrence_order (List.filter (name_eligible tables) (ph_occurrences tables)).
Definition resolve_in (done : list OccurrenceEntry) (o : OccurrenceEntry) : OccurrenceEntry :=
  if bool_decide (oe_id o ∈ oe_id <$> done) then resolved_row classes o else o.
Definition after (done : list OccurrenceEntry) : PhpTables :=
  MkPhpTables (ph_files tables) (ph_definitions tables) (resolve_in done <$> ph_occurrences tables)
    (ph_relations tables ++ (done ≫= row_relations tables classes)).

Lemma resolve_in_id done o : oe_id (resolve_in done o) = oe_id o.
Proof. unfold resolve_in, resolved_row. by repeat case_match. Qed.
Lemma pass_rows_elem o : o ∈ pass_rows → o ∈ ph_occurrences tables.
Proof. unfold pass_rows. rewrite elem_of_sort_by, !list_elem_of_In, List.filter_In. tauto. Qed.
Lemma occurrence_order_sorted l :
  NoDup (oe_id <$> l) → StronglySorted (cmp_le occurrence_order) l →
  StronglySorted (λ a b, oe_id a < oe_id b)%Z l.
Proof.
  intros Hnd Hs. induction Hs as [|x l Hl IH Hx]; [constructor|].
  rewrite fmap_cons in Hnd. apply NoDup_cons in Hnd as [Hx' Hnd].
  constructor; [by apply IH|]. rewrite Forall_forall in Hx. apply Forall_forall. intros y Hy.
  assert (oe_id x ≠ oe_id y) by (intros E; apply Hx'; rewrite E; by apply list_elem_of_fmap_2).
  specialize (Hx y Hy). unfold cmp_le, occurrence_order, cmp_on in Hx.
  rewrite Z.compare_gt_iff in Hx. lia.
Qed.
Lemma pass_rows_sorted : StronglySorted (λ a b, oe_id a < oe_id b)%Z pass_rows.
Proof.
  apply occurrence_order_sorted; [|apply sort_by_sorted, _].
  unfold pass_rows. rewrite (sort_by_perm occurrence_order).
  by apply NoDup_fmap_filter.
Qed.

(** A prefix of the pass ends below the rows after it. *)
Lemma last_of_between done rest :
  pass_rows = done ++ rest →
  (∀ o, o ∈ done → (oe_id o ≤ last_of done 0)%Z) ∧ (∀ o, o ∈ rest → (last_of done 0 < oe_id o)%Z).
Proof.
  intros Hp. pose proof pass_rows_sorted as Hs. rewrite Hp in Hs.
  induction done as [|z done' _] using rev_ind; unfold last_of.
  - split; [intros o Ho; by apply not_elem_of_nil in Ho|]. intros o Ho. cbn.
    assert (o ∈ ph_occurrences tables) as Hin by (apply pass_rows_elem; by rewrite Hp).
    rewrite Forall_forall in ids_positive. by apply ids_positive.
  - rewrite last_snoc. rewrite <- app_assoc in Hs. split; intros o Ho.
    + apply elem_of_app in Ho as [Ho| ->%list_elem_of_singleton]; [|lia].
      apply Z.lt_le_incl.
      pose proof (StronglySorted_app_1_elem_of _ _ _ o z Hs Ho ltac:(by left)) as Hlt. exact Hlt.
    + apply StronglySorted_app_1_r, StronglySorted_inv in Hs as [_ Hz].
      rewrite Forall_forall in Hz. by apply Hz.
Qed.

Lemma batch_after done rest :
  pass_rows = done ++ rest → name_batch (after done) (last_of done 0) = take OCCURRENCE_BATCH rest.
Proof.
  intros Hp. destruct (last_of_between done rest Hp) as [Hdone Hrest]. unfold name_batch. f_equal.
  cbn [ph_occurrences after]. rewrite filter_fmap_same.
  - rewrite filter_andb, <- sort_by_filter by apply _.
    change (List.filter (λ o, (last_of done 0 <? oe_id o)%Z) pass_rows = rest).
    rewrite Hp. apply filter_split; intros o Ho.
    + apply Z.ltb_ge. by apply Hdone.
    + apply Z.ltb_lt. by apply Hrest.
  - intros o. destruct (Z.ltb_spec (last_of done 0) (oe_id o)) as [Hlt|Hge].
    + assert (resolve_in done o = o) as ->; [|by rewrite (proj2 (Z.ltb_lt _ _) Hlt)].
      unfold resolve_in. rewrite bool_decide_false; [done|].
      intros (x & Hx & Hin%Hdone)%list_elem_of_fmap. lia.
    + rewrite resolve_in_id, (proj2 (Z.ltb_ge _ _) Hge). done.
Qed.

Lemma apply_after done o :
  o ∈ ph_occurrences tables → oe_id o ∉ oe_id <$> done →
  apply_name classes (after done) o = after (done ++ [o]).
Proof.
  intros Ho Hnew.
  assert (∀ p, p ∈ ph_occurrences tables → oe_id p = oe_id o → p = o) as Huniq
    by (intros p Hp; by apply (elem_of_same_key oe_id (ph_occurrences tables))).
  assert (∀ p, p ∈ ph_occurrences tables →
    resolve_in (done ++ [o]) p = if (oe_id p =? oe_id o)%Z then resolved_row classes o else resolve_in done p)
    as Hsnoc.
  { intros p Hp. unfold resolve_in. destruct (Z.eqb_spec (oe_id p) (oe_id o)) as [E|E].
    - rewrite (Huniq p Hp E), bool_decide_true; [done|]. rewrite fmap_app. apply elem_of_app. right. by left.
    - assert (bool_decide (oe_id p ∈ oe_id <$> done ++ [o]) = bool_decide (oe_id p ∈ oe_id <$> done)) as ->; [|done].
      apply bool_decide_ext. rewrite fmap_app, elem_of_app. cbn. rewrite list_elem_of_singleton. tauto. }
  assert (resolve_in done o = o) as Hsame by (unfold resolve_in; by rewrite bool_decide_false).
  unfold apply_name, after. rewrite bind_app, app_assoc. cbn. rewrite app_nil_r.
  unfold row_relations. unfold resolved_row in Hsnoc.
  destruct (name_row classes o) as [[[cs cross] provenance]|]; f_equal.
  - unfold update_row. rewrite <- list_fmap_compose. apply Forall_fmap_ext, Forall_forall.
    intros p Hp. cbn. rewrite Hsnoc, resolve_in_id by done.
    destruct (Z.eqb_spec (oe_id p) (oe_id o)) as [E|E]; [|done]. by rewrite (Huniq p Hp E), Hsame.
  - apply Forall_fmap_ext, Forall_forall. intros p Hp. rewrite Hsnoc by done.
    destruct (Z.eqb_spec (oe_id p) (oe_id o)) as [E|E]; [|done]. by rewrite (Huniq p Hp E), Hsame.
  - by rewrite app_nil_r.
Qed.

Lemma batch_applied b done rest :
  pass_rows = done ++ b ++ rest → foldl (apply_name classes) (after done) b = after (done ++ b).
Proof.
  revert done. induction b as [|o b IH]; intros done Hp; cbn; [by rewrite app_nil_r|].
  rewrite apply_after.
  - rewrite IH; rewrite <- app_assoc; done.
  - apply pass_rows_elem. rewrite Hp. apply elem_of_app. right. by left.
  - intros (x & Hx & Hin)%list_elem_of_fmap. pose proof pass_rows_sorted as Hs. rewrite Hp in Hs.
    assert (oe_id x < oe_id o)%Z; [|lia].
    exact (StronglySorted_app_1_elem_of _ _ _ x o Hs Hin ltac:(by left)).
Qed.

Lemma batches_after fuel done rest :
  pass_rows = done ++ rest → length rest < fuel →
  resolve_batches fuel classes (last_of done 0) (after done) = after pass_rows.
Proof.
  revert done rest. induction fuel as [|fuel IH]; intros done rest Hp Hf; [lia|]. cbn [resolve_batches].
  rewrite (batch_after done rest Hp).
  destruct rest as [|o rest]; [by rewrite Hp, app_nil_r|].
  rewrite <- (take_drop OCCURRENCE_BATCH (o :: rest)) in Hp.
  remember (take OCCURRENCE_BATCH (o :: rest)) as b eqn:Hb. destruct b as [|x b]; [done|].
  assert (last_of (x :: b) (last_of done 0) = last_of (done ++ x :: b) 0) as ->.
  { unfold last_of. rewrite last_app. destruct (last (x :: b)) eqn:E; [done|]. by apply last_None in E. }
  rewrite (batch_applied (x :: b) done (drop OCCURRENCE_BATCH (o :: rest))) by done.
  rewrite app_assoc in Hp. apply (IH _ _ Hp). rewrite length_drop. unfold OCCURRENCE_BATCH. cbn [length] in *. lia.
Qed.
End Pass.

(** C33. Reading the occurrences in batches by id, while the rows change, is one pass
    over them: every occurrence of a type or import name becomes what its stored
    row and the class index determine, the others stay, and the relationships
    are appended in the order of the ids.  Each row is visited once, and the
    loop ends. *)
Theorem names_resolved_once (tables : PhpTables) (classes : PhpClassIndex) :
  NoDup (oe_id <$> ph_occurrences tables) → Forall (λ o, (0 < oe_id o)%Z) (ph_occurrences tables) →
  resolve_names tables classes =
  MkPhpTables (ph_files tables) (ph_definitions tables)
    ((λ o, if name_eligible tables o then resolved_row classes o else o) <$> ph_occurrences tables)
    (ph_relations tables ++ (pass_rows tables ≫= row_relations tables classes)).
Proof.
  intros Hnd Hpos. unfold resolve_names.
  assert (after tables classes [] = tables) as Hnil.
  { unfold after. rewrite app_nil_r. destruct tables as [fs ds os rs]. cbn.
    by rewrite (list_fmap_ext _ id), list_fmap_id. }
  rewrite <- Hnil at 2. change 0%Z with (last_of [] 0).
  rewrite (batches_after tables classes Hnd Hpos _ [] (pass_rows tables)); [|done|].
  - unfold after. f_equal. apply Forall_fmap_ext, Forall_forall. intros o Ho. unfold resolve_in.
    destruct (name_eligible tables o) eqn:E; [rewrite bool_decide_true|rewrite bool_decide_false]; try done.
    + apply list_elem_of_fmap_2. unfold pass_rows.
      apply elem_of_sort_by, list_elem_of_In, List.filter_In. split; [by apply list_elem_of_In|done].
    + intros (x & Hx & Hin)%list_elem_of_fmap.
      unfold pass_rows in Hin. apply elem_of_sort_by, list_elem_of_In, List.filter_In in Hin as [Hin Hel].
      apply list_elem_of_In in Hin.
      rewrite (elem_of_same_key oe_id (ph_occurrences tables) o x) in E; done || congruence.
  - unfold pass_rows. rewrite sort_by_length. pose proof (List.filter_length_le (name_eligible tables) (ph_occurrences tables)). lia.
Qed.

(** ** What a name is given *)

Lemma lowercase_backslash c : to_ascii_lowercase_byte c = backslash → c = backslash.
Proof. by_byte c. Qed.
Lemma normalized_fqcn_idem name key : normalized_fqcn name = Some key → normalized_fqcn key = Some key.
Proof.
  unfold normalized_fqcn. destruct (trim_backslashes name) as [|c t] eqn:E; [done|]. intros [= <-].
  assert (c ≠ backslash) as Hc.
  { intros ->. assert (∀ s r, trim_backslashes s ≠ backslash :: r) as Ht; [|by apply (Ht name t)].
    clear. induction s as [|d s IH]; intros r; [done|]. cbn.
    case_bool_decide as Hd; [apply IH|]. by intros [= ? _]. }
  cbn. rewrite bool_decide_false by (intros H; by apply Hc, lowercase_backslash).
  f_equal. apply (to_ascii_lowercase_idemp (c :: t)).
Qed.

(** The classes of a name declared in other files, in the order of their ids. *)
Definition classes_elsewhere (tables : PhpTables) (key : str) (file : Z) : list Z :=
  (λ row, de_id row.1) <$>
    List.filter (λ row, negb (de_file row.1 =? file)%Z)
      (List.filter (row_named key) (php_definitions tables CLASS_KINDS)).

Lemma elsewhere_candidates tables key file :
  pc_id <$> List.filter (λ c, negb (pc_file c =? file)%Z)
    (candidate_of <$> List.filter (row_named key) (php_definitions tables CLASS_KINDS))
  = classes_elsewhere tables key file.
Proof.
  unfold classes_elsewhere. induction (List.filter (row_named key) _) as [|row rows IH]; [done|].
  cbn. destruct (negb (de_file row.1 =? file)%Z); cbn; by rewrite IH.
Qed.

(** A name is given only the candidates it had and the classes, interfaces,
    traits and enums with its qualified name, up to case and leading
    backslashes, that other files declare and that are not generated
    placeholders; at most 64, in increasing order, and all of them unless the
    provenance says that they were truncated. *)
Theorem name_candidates_justified (tables : PhpTables) (o : OccurrenceEntry)
    (cs cross : list Z) (provenance : str) :
  name_row (class_index tables) o = Some (cs, cross, provenance) →
  ∃ key, normalized_fqcn (oe_name o) = Some key ∧ is_xfcp_name (oe_name o) = false ∧
    let others := classes_elsewhere tables key (oe_file o) in
    cross = take MAX_CANDIDATES others ∧
    StronglySorted Z.lt cs ∧ length cs ≤ MAX_CANDIDATES ∧
    (∀ c, c ∈ cs → c ∈ oe_candidates o ∨ c ∈ others) ∧
    (provenance = oe_provenance o ++ lit ";php_fqcn_candidate_lookup" →
     cross = others ∧ ∀ c, c ∈ oe_candidates o ∨ c ∈ others → c ∈ cs).
Proof.
  unfold name_row. destruct (_ || is_xfcp_name (oe_name o)) eqn:Hx; [done|].
  apply orb_false_elim in Hx as [_ Hx].
  destruct (normalized_fqcn (oe_name o)) as [key|] eqn:Hk; [|done]. cbn [mbind option_bind].
  rewrite candidates_scan, (normalized_fqcn_idem _ _ Hk). intros Hr. exists key. do 2 (split; [done|]).
  pose proof (elsewhere_candidates tables key (oe_file o)) as He.
  destruct (candidate_of <$> _) as [|c0 indexed] eqn:Ei; [done|].
  rewrite <- Ei, fmap_take, elsewhere_candidates in Hr. clear Ei He.
  set (others := classes_elsewhere tables key (oe_file o)) in *. cbn zeta.
  set (all := sort_dedup Z.compare (oe_candidates o ++ take (MAX_CANDIDATES + 1) others)) in *.
  destruct (_ && _); [done|]. injection Hr as <- <- Hp.
  pose proof (sort_dedup_lt Z.compare (oe_candidates o ++ take (MAX_CANDIDATES + 1) others)) as Hs.
  assert (∀ c, c ∈ all ↔ c ∈ oe_candidates o ∨ c ∈ take (MAX_CANDIDATES + 1) others) as Hall
    by (intros c; unfold all; by rewrite elem_of_sort_dedup, elem_of_app).
  split_and!.
  - by rewrite take_take, Nat.min_l by (unfold MAX_CANDIDATES; lia).
  - fold all in Hs. rewrite <- (take_drop MAX_CANDIDATES all) in Hs. by apply StronglySorted_app_1_l in Hs.
  - rewrite length_take. lia.
  - intros c Hc%elem_of_take. destruct Hc as (i & Hc & _). apply list_elem_of_lookup_2, Hall in Hc.
    destruct Hc as [?|Hc]; [by left|]. right. apply elem_of_take in Hc as (j & Hc & _).
    by eapply list_elem_of_lookup_2.
  - intros Hnot.
    assert ((MAX_CANDIDATES <? length (take (MAX_CANDIDATES + 1) others)) = false ∧
            (MAX_CANDIDATES <? length all) = false) as [Ho Ha].
    { apply orb_false_elim. destruct (_ || _); [|done]. rewrite <- Hp in Hnot.
      apply (f_equal length) in Hnot. rewrite !length_app in Hnot. cbn in Hnot. lia. }
    bool_to_prop. rewrite length_take in Ho. unfold MAX_CANDIDATES in *.
    assert (length others ≤ 64) as Hlen by lia.
    split; [by rewrite take_take, take_ge by lia|]. intros c Hc. rewrite take_ge by lia. apply Hall.
    by rewrite (take_ge others) by lia.
Qed.

Module PhpNamesExample.
(** A class of one file, and a type and an import of it in another. *)
Definition files : list PhpFile :=
  [MkPhpFile 1 (lit "src/Base.php") (lit "php") (lit "complete") None;
   MkPhpFile 2 (lit "src/Child.php") (lit "php") (lit "complete") None].
Definition definitions : list DefinitionEntry :=
  [MkDefinitionEntry 7 1 (lit "Base") (lit "class") 10 90 (Some (lit "App"));
   MkDefinitionEntry 8 2 (lit "Child") (lit "class") 40 200 (Some (lit "App"))].
Definition type_reference : OccurrenceEntry :=
  MkOccurrenceEntry 3 2 (lit "\app\BASE") 60 69 (lit "type") None [] (lit "php_fqcn").
Definition import_name : OccurrenceEntry :=
  MkOccurrenceEntry 4 2 (lit "App\Base") 20 28 (lit "import") None [] (lit "php_import").
Definition tables : PhpTables := MkPhpTables files definitions [import_name; type_reference] [].
Definition resolved : PhpTables := resolve_names tables (class_index tables).

Example both_found : oe_candidates <$> ph_occurrences resolved = [[7]; [7]]%Z.
Proof. vm_compute. reflexivity. Qed.
(** Only the type lies inside a definition, so it alone relates two. *)
Example one_relation : (λ r, (rl_source r, rl_target r)) <$> ph_relations resolved = [(8, Some 7)]%Z.
Proof. vm_compute. reflexivity. Qed.
End PhpNamesExample.

Lemma names_resolved_once_witness :
  let tables := PhpNamesExample.tables in
  resolve_names tables (class_index tables) =
  MkPhpTables (ph_files tables) (ph_definitions tables)
    ((λ o, if name_eligible tables o then resolved_row (class_index tables) o else o) <$> ph_occurrences tables)
    (ph_relations tables ++ (pass_rows tables ≫= row_relations tables (class_index tables))).
Proof.
  apply names_resolved_once.
  - apply (bool_decide_unpack _). vm_compute. exact I.
  - repeat constructor.
Defined.

Lemma name_candidates_justified_witness :
  ∃ key, normalized_fqcn (oe_name PhpNamesExample.type_reference) = Some key ∧ 7%Z ∈ classes_elsewhere PhpNamesExample.tables key 2.
Proof.
  destruct (name_candidates_justified PhpNamesExample.tables PhpNamesExample.type_reference [7]%Z [7]%Z
              (lit "php_fqcn;php_fqcn_candidate_lookup") eq_refl) as (key & Hk & _ & _ & _ & _ & Hin & _).
  exists key. split; [exact Hk|]. destruct (Hin 7%Z) as [H|H]; [by left|by inversion H|exact H].
Defined.
