(* ===== verification/PhpParents.v ===== *)
(** * PHP parents and parent calls

    Models [src/src/store/php_resolver/php_parents.rs] with its
    [php_parents/projection.rs], and [php_resolver/parent_projection.rs]: the
    class hierarchy built from the markers that extraction stored, the
    relationships of [extends] clauses, and the candidates of
    [parent::method()] calls.  [canonicalize] is the alias lookup of the
    caller. *)
From Stdlib Require Import Ascii String ZArith Lia Permutation Sorted.
From stdpp Require Import base numbers list gmap strings sorting.
From S2P Require Import Prelude Order Text Collections QueryShape Snippets PhpMarkers Hierarchy PhpNames.

Definition MAX_PARENT_CANDIDATES : nat := 64.

(** ** Rows *)

(** [PhpDefinitionRow] is a definition with its file; these are its derived fields. *)
Definition php_class_kind (kind : str) : PhpClassKind :=
  if kind =s lit "class" then CkClass
  else if kind =s lit "interface" then CkInterface
  else if kind =s lit "trait" then CkTrait
  else if kind =s lit "enum" then CkEnum
  else CkUnknown.
Definition file_complete (f : PhpFile) : bool := pf_status f =s lit "complete".
Definition parent_definitions (tables : PhpTables) : list (DefinitionEntry * PhpFile) :=
  php_definitions tables ["class"; "interface"; "trait"; "enum"; "method"]%string.

Record StoredMarker := MkStoredMarker {
  sm_complete : bool;
  sm_decoded : DecodedMarker;
  sm_raw : option str;
}.

(** [ORDER BY r.file_id,r.source,r.start] *)
Definition marker_order : RelationEntry → RelationEntry → comparison :=
  cmp_then (cmp_on rl_file Z.compare) (cmp_then (cmp_on rl_source Z.compare) (cmp_on rl_start Z.compare)).
(** The bytes of the clause, for a parent marker of a file with stored bytes;
    a decoded marker has a valid span. *)
Definition raw_evidence (r : RelationEntry) (f : PhpFile) : option str :=
  if starts_with (lit "php_fact_v1:parent:") (rl_provenance r) then
    (λ bytes, take (Z.to_nat (rl_end r - rl_start r)) (drop (Z.to_nat (rl_start r)) bytes)) <$> pf_bytes f
  else None.
Definition stored_marker (row : RelationEntry * PhpFile) : option StoredMarker :=
  let '(r, f) := row in
  decoded ← decode_fields MARKER_KIND (rl_provenance r) (rl_source r) (rl_target r) (rl_start r) (rl_end r);
  Some (MkStoredMarker (file_complete f) decoded (raw_evidence r f)).
Definition markers (tables : PhpTables) : list StoredMarker :=
  omap stored_marker
    (join_php (ph_files tables) rl_file
       (sort_by marker_order (List.filter (λ r, rl_kind r =s MARKER_KIND) (ph_relations tables)))).

(** ** Conversions *)

Definition php_class_role (role : ClassRole) : PhpClassRole :=
  match role with RoleOrdinary => CrOrdinary | RoleProxy => CrProxy | RoleUnknown => CrUnknown end.
Definition php_parent_kind (kind : ParentKind) : PhpParentKind :=
  match kind with KindOrdinary => PkExtends | KindProxy => PkXfcpProxy | KindUnknown => PkUnknown end.
Definition php_visibility (visibility : Visibility) : PhpVisibility :=
  match visibility with
  | Public => PvPublic | Protected => PvProtected | Private => PvPrivate | VisUnknown => PvUnknown
  end.

(** ** Facts of the markers *)

(** The maps of the first loop, by the source of the marker. *)
Definition class_marker (m : StoredMarker) : option (Z * (ClassRole * bool)) :=
  match dec_marker (sm_decoded m) with
  | MClass role conditional => Some (dec_source (sm_decoded m), (role, conditional))
  | _ => None
  end.
Definition method_marker (m : StoredMarker) : option (Z * (Z * Visibility * bool * bool)) :=
  match dec_marker (sm_decoded m) with
  | MMethod visibility abstract_method conditional =>
      owner ← dec_target (sm_decoded m);
      Some (dec_source (sm_decoded m), (owner, visibility, abstract_method, conditional))
  | _ => None
  end.
Definition trait_step (m : gmap Z (bool * bool)) (s : StoredMarker) : gmap Z (bool * bool) :=
  match dec_marker (sm_decoded s) with
  | MTraitUse conditional =>
      let state := default (false, false) (m !! dec_source (sm_decoded s)) in
      <[dec_source (sm_decoded s) := (true, state.2 || conditional)]> m
  | _ => m
  end.
Definition collect_markers {V} (select : StoredMarker → option (Z * V)) (ms : list StoredMarker)
    : gmap Z (list V) :=
  foldl (λ m s, match select s with Some (k, v) => push_entry m k v | None => m end) ∅ ms.
Definition is_parent_marker (m : StoredMarker) : bool :=
  match dec_marker (sm_decoded m) with MParent _ _ _ => true | _ => false end.

Section Build.
Context `{UnicodeTables} (canonicalize : str → option str).

(** The class fact of a definition: certain only when its file is complete and
    exactly one class marker names it. *)
Definition class_fact_of (class_markers : gmap Z (list (ClassRole * bool))) (trait_uses : gmap Z (bool * bool))
    (row : DefinitionEntry * PhpFile) : option PhpClassFact :=
  let '(d, f) := row in
  if bool_decide (php_class_kind (de_kind d) = CkUnknown) then None
  else
    fqcn ← definition_fqcn (de_container d) (de_name d);
    let '(role, conditional, marker_complete) :=
      match class_markers !! de_id d with
      | Some [(role, conditional)] => (php_class_role role, conditional, true)
      | _ => (CrUnknown, false, false)
      end in
    let '(has_trait_use, trait_use_conditional) := default (false, false) (trait_uses !! de_id d) in
    Some (MkClassFact (de_id d) (de_file d) (pf_path f) fqcn (canonicalize fqcn)
            (php_class_kind (de_kind d)) role (file_complete f && marker_complete) conditional
            has_trait_use trait_use_conditional).
(** [class_completeness] *)
Definition completeness_of (classes : list PhpClassFact) : gmap Z (bool * bool * PhpClassRole) :=
  foldl (λ m c, <[cf_id c := (cf_complete c, cf_conditional c, cf_role c)]> m) ∅ classes.

Definition method_facts_of (method_markers : gmap Z (list (Z * Visibility * bool * bool)))
    (definition_ids : list Z) (completeness : gmap Z (bool * bool * PhpClassRole))
    (row : DefinitionEntry * PhpFile) : list PhpMethodFact :=
  let '(d, f) := row in
  if negb (de_kind d =s lit "method") then []
  else
    default [] (method_markers !! de_id d) ≫= λ '(owner, visibility, abstract_method, conditional),
      if bool_decide (owner ∈ definition_ids) then
        let owner_complete := match completeness !! owner with Some (c, _, _) => c | None => false end in
        [MkMethodFact (de_id d) owner (de_file d) (pf_path f) (de_name d) (php_visibility visibility)
           abstract_method (file_complete f && owner_complete) conditional]
      else [].

Definition parent_status (kind : ParentKind) (conditional marker_complete source_class_complete
    source_class_conditional : bool) (source_class_role : PhpClassRole) (has_canonical_name
    candidates_truncated : bool) (candidate_class_ids : list Z) (index : PhpHierarchyIndex)
    : PhpParentStatus :=
  match kind with
  | KindUnknown => PsUnsupported
  | _ =>
      if conditional || source_class_conditional then PsConditional
      else if negb marker_complete || negb source_class_complete then PsIncomplete
      else if negb has_canonical_name then PsUnsupported
      else if bool_decide (source_class_role = CrUnknown) then PsUnsupported
      else if candidates_truncated then PsIncomplete
      else match candidate_class_ids with
           | [] => PsMissing
           | _ :: _ :: _ => PsAmbiguous
           | [id] =>
               match class_fact index id with
               | None => PsIncomplete
               | Some parent_class =>
                   if cf_conditional parent_class then PsConditional
                   else if negb (cf_complete parent_class) then PsIncomplete
                   else if bool_decide (cf_role parent_class = CrUnknown) then PsUnsupported
                   else PsCandidates
               end
           end
  end.

Definition raw_name (raw : option str) (fallback : option str) : str :=
  match (λ value, trim (from_utf8_lossy value)) <$> raw with
  | Some ((_ :: _) as value) => value
  | _ => default [] (trim_backslashes <$> fallback)
  end.

(** One turn of the loop over the parent markers. *)
Definition parent_candidate (completeness : gmap Z (bool * bool * PhpClassRole)) (index : PhpHierarchyIndex)
    (stored : StoredMarker) : option PhpParentCandidate :=
  let decoded := sm_decoded stored in
  match dec_marker decoded with
  | MParent kind conditional None =>
      Some (MkParentCandidate (dec_source decoded) (raw_name (sm_raw stored) None) None None
              (dec_start decoded) (dec_end decoded) (php_parent_kind kind) []
              (match kind with KindUnknown => PsUnsupported | _ => PsIncomplete end)
              conditional None None)
  | MParent kind conditional (Some parent_fqcn) =>
      let canonical := match kind with KindOrdinary => Some parent_fqcn | _ => None end in
      let candidates :=
        match kind with
        | KindOrdinary => take (MAX_PARENT_CANDIDATES + 1) (cf_id <$> raw_class_candidates index parent_fqcn)
        | _ => []
        end in
      let candidates_truncated := MAX_PARENT_CANDIDATES <? length candidates in
      let candidate_class_ids := take MAX_PARENT_CANDIDATES candidates in
      let '(source_complete, source_conditional, source_role) :=
        default (false, false, CrUnknown) (completeness !! dec_source decoded) in
      let status :=
        parent_status kind conditional (sm_complete stored) source_complete source_conditional source_role
          (match kind with KindUnknown => false | _ => true end)
          candidates_truncated candidate_class_ids index in
      Some (MkParentCandidate (dec_source decoded) (raw_name (sm_raw stored) (Some parent_fqcn))
              (Some parent_fqcn) canonical (dec_start decoded) (dec_end decoded) (php_parent_kind kind)
              candidate_class_ids status conditional None None)
  | _ => None
  end.
Definition add_stored_parent (completeness : gmap Z (bool * bool * PhpClassRole)) (index : PhpHierarchyIndex)
    (stored : StoredMarker) : PhpHierarchyIndex :=
  match parent_candidate completeness index stored with
  | Some candidate => add_parent_candidate index candidate
  | None => index
  end.

Definition build_index (tables : PhpTables) : PhpHierarchyIndex :=
  let definitions := parent_definitions tables in
  let ms := markers tables in
  let class_markers := collect_markers class_marker ms in
  let trait_uses := foldl trait_step ∅ ms in
  let method_markers := collect_markers method_marker ms in
  let classes := omap (class_fact_of class_markers trait_uses) definitions in
  let completeness := completeness_of classes in
  let methods := definitions ≫= method_facts_of method_markers ((λ r, de_id r.1) <$> definitions) completeness in
  foldl (add_stored_parent completeness) (from_facts classes methods []) (List.filter is_parent_marker ms).

(** ** [php_parents/projection.rs] *)

Definition MAX_PHP_PARENT_CANDIDATES : nat := 64.

Definition parent_issue_code (status : PhpParentStatus) (conditional no_candidates : bool) : string :=
  if conditional then "conditional"
  else match status with
       | PsCandidates => if no_candidates then "missing" else "incomplete"
       | PsMissing => "missing"
       | PsAmbiguous => "ambiguous"
       | PsConditional => "conditional"
       | PsIncomplete => "incomplete"
       | PsUnsupported => "unsupported"
       end.
Definition stage_issue (child : PhpClassFact) (parent : PhpParentCandidate) (code : string) : RelationEntry :=
  MkRelationEntry (cf_id child) None (lit "inheritance_issue") (cf_file child) (pp_start parent) (pp_end parent)
    (lit (String.append "php_parent_issue:" code)).
(** What is staged for one parent of a child. *)
Definition staged_parent (child : PhpClassFact) (parent : PhpParentCandidate) : list RelationEntry :=
  match pp_kind parent with
  | PkXfcpProxy => []
  | PkUnknown => [stage_issue child parent "unsupported"]
  | PkExtends =>
      let targets := sort_dedup Z.compare (pp_ids parent) in
      if bool_decide (pp_status parent = PsCandidates) && negb (pp_conditional parent)
         && negb (length targets =? 0) && (length targets <=? MAX_PHP_PARENT_CANDIDATES) then
        (λ target, MkRelationEntry (cf_id child) (Some target) (lit "php_extends_candidate") (cf_file child)
                     (pp_start parent) (pp_end parent) (lit "php_parent_source;candidate_only")) <$> targets
      else
        [stage_issue child parent
           (parent_issue_code (pp_status parent) (pp_conditional parent) (length targets =? 0))]
  end.
(** The loop that charges one for each staged row. *)
Fixpoint charge_each {A} (rows : list A) (used : Z) : result Z :=
  match rows with
  | [] => Ok used
  | _ :: rows => used ← charge used 1; charge_each rows used
  end.
Definition staged_children (index : PhpHierarchyIndex) : list RelationEntry :=
  hi_classes index ≫= λ child,
    if bool_decide (cf_role child = CrProxy) then []
    else parent_candidates index (cf_id child) ≫= staged_parent child.
Definition add_relations (tables : PhpTables) (rows : list RelationEntry) : PhpTables :=
  MkPhpTables (ph_files tables) (ph_definitions tables) (ph_occurrences tables) (ph_relations tables ++ rows).
(** [php_parents::project]; charging ends the pass before anything is written. *)
Definition project_parents (index : PhpHierarchyIndex) (tables : PhpTables) (used : Z)
    : result (PhpTables * Z) :=
  let staged := staged_children index in
  used ← charge_each staged used;
  Ok (add_relations tables staged, used).
End Build.

(** ** The parents of the built hierarchy *)

Section Certain.
Context `{UnicodeTables} (canonicalize : str → option str) (tables : PhpTables).

(** A class whose declaration is known completely. *)
Definition certain (c : PhpClassFact) : Prop :=
  cf_complete c = true ∧ cf_conditional c = false ∧ cf_role c ≠ CrUnknown.

(** The classes of [build_index]. *)
Definition built_classes : list PhpClassFact :=
  omap (class_fact_of canonicalize (collect_markers class_marker (markers tables))
          (foldl trait_step ∅ (markers tables))) (parent_definitions tables).
Definition class_state (c : PhpClassFact) : bool * bool * PhpClassRole :=
  (cf_complete c, cf_conditional c, cf_role c).

Lemma completeness_of_lookup classes id :
  completeness_of classes !! id = class_state <$> last (List.filter (λ c, (cf_id c =? id)%Z) classes).
Proof.
  unfold completeness_of. induction classes as [|c classes IH] using rev_ind; [done|].
  rewrite foldl_app, List.filter_app. cbn [foldl List.filter].
  destruct (decide (cf_id c = id)) as [->|Hne].
  - by rewrite lookup_insert_eq, Z.eqb_refl, last_snoc.
  - by rewrite lookup_insert_ne, IH, (proj2 (Z.eqb_neq _ _) Hne), app_nil_r by done.
Qed.

Lemma add_stored_parents completeness index stored m :
  foldl (add_stored_parent completeness) (with_parents index m) stored =
  with_parents index (foldl add_parent m (omap (parent_candidate completeness index) stored)).
Proof.
  revert m. induction stored as [|s stored IH]; intros m; [done|].
  cbn [foldl omap list_omap]. unfold add_stored_parent at 2.
  change (parent_candidate completeness (with_parents index m) s) with (parent_candidate completeness index s).
  destruct (parent_candidate completeness index s) as [p|]; [|apply IH].
  cbn [foldl]. rewrite <- IH. done.
Qed.

Lemma built_index_facts :
  let index := build_index canonicalize tables in
  (∀ id, class_fact index id = last (List.filter (λ c, (cf_id c =? id)%Z) built_classes)) ∧
  ∀ c, parent_candidates index c =
    List.filter (λ p, (pp_child p =? c)%Z)
      (omap (parent_candidate (completeness_of built_classes) index)
         (List.filter is_parent_marker (markers tables))).
Proof.
  unfold build_index. fold built_classes.
  set (methods := parent_definitions tables ≫= _).
  pose proof (class_fact_scan built_classes methods []) as Hc.
  set (index0 := from_facts built_classes methods []) in *.
  assert (index0 = with_parents index0 ∅) as Hi0.
  { unfold index0, from_facts. by destruct (foldl class_step _ _) as [[raw canonical] position]. }
  rewrite Hi0, add_stored_parents. split.
  - intros id. apply Hc.
  - intros c. apply add_parent_lookup.
Qed.
End Certain.

Section CertainEdges.
Context `{UnicodeTables} (canonicalize : str → option str) (tables : PhpTables).

Lemma parent_status_candidates kind conditional complete source_complete source_conditional role canonical
    truncated ids index :
  parent_status kind conditional complete source_complete source_conditional role canonical truncated ids index
    = PsCandidates →
  kind ≠ KindUnknown ∧ conditional = false ∧ complete = true ∧
  source_complete = true ∧ source_conditional = false ∧ role ≠ CrUnknown ∧ truncated = false ∧
  ∃ d parent, ids = [d] ∧ class_fact index d = Some parent ∧ certain parent.
Proof.
  intros Hs. unfold parent_status in Hs. unfold certain.
  destruct kind; [| |done];
    destruct conditional, source_conditional, complete, source_complete, canonical, truncated; try done;
    cbn in Hs; case_bool_decide; try done;
    destruct ids as [|d [|? ?]]; try done; destruct (class_fact index d) as [parent|] eqn:Hp; try done;
    destruct (cf_conditional parent) eqn:?, (cf_complete parent) eqn:?; try done; cbn in Hs;
    case_bool_decide; try done; split_and!; try done; by exists d, parent.
Qed.

End CertainEdges.
