(* ===== verification/ParentCalls.v ===== *)
(** * Calls to a parent's method

    Models [src/src/store/php_resolver/parent_projection.rs]: the markers of
    literal [parent::method()] calls, the occurrence each marks, and the bounded
    candidates and issues that the lookup in the hierarchy gives it. *)
From Stdlib Require Import Ascii String ZArith Lia Permutation Sorted.
From stdpp Require Import base numbers list gmap strings sorting.
From S2P Require Import Prelude Order Text Collections QueryShape PhpMarkers Hierarchy PhpNames PhpParents.

Definition MAX_PARENT_CALL_MARKERS : nat := Z.to_nat 200000.
Definition MAX_PARENT_CALL_CANDIDATES : nat := 64.

Record ParentCallMarker := MkParentCallMarker {
  cm_caller : Z;
  cm_owner : Z;
  cm_file : Z;
  cm_start : Z;
  cm_end : Z;
}.
#[export] Instance call_marker_eq_dec : EqDecision ParentCallMarker.
Proof. solve_decision. Defined.
(** The derived order of the struct. *)
Definition call_marker_compare : ParentCallMarker → ParentCallMarker → comparison :=
  cmp_then (cmp_on cm_caller Z.compare) (cmp_then (cmp_on cm_owner Z.compare)
    (cmp_then (cmp_on cm_file Z.compare) (cmp_then (cmp_on cm_start Z.compare) (cmp_on cm_end Z.compare)))).

(** [ORDER BY file_id,start,source] *)
Definition call_row_order : RelationEntry → RelationEntry → comparison :=
  cmp_then (cmp_on rl_file Z.compare) (cmp_then (cmp_on rl_start Z.compare) (cmp_on rl_source Z.compare)).

Fixpoint load_calls (rows : list RelationEntry) (markers : list ParentCallMarker)
    : result (list ParentCallMarker) :=
  match rows with
  | [] => Ok markers
  | r :: rows =>
      match decode_fields (rl_kind r) (rl_provenance r) (rl_source r) (rl_target r) (rl_start r) (rl_end r) with
      | Some (MkDecoded source target start end_ MParentCall) =>
          owner ← or_err "PHP parent-call marker has no owner class" target;
          _ ← ensure (length markers <? MAX_PARENT_CALL_MARKERS) "PHP parent-call marker limit exceeded";
          load_calls rows (markers ++ [MkParentCallMarker source owner (rl_file r) start end_])
      | _ => load_calls rows markers
      end
  end.
Definition load_parent_call_markers (tables : PhpTables) : result (list ParentCallMarker) :=
  markers ← load_calls
    (sort_by call_row_order (List.filter (λ r, rl_kind r =s MARKER_KIND) (ph_relations tables))) [];
  Ok (sort_dedup call_marker_compare markers).

Definition call_at (file start end_ : Z) (o : OccurrenceEntry) : bool :=
  (oe_file o =? file)%Z && (oe_start o =? start)%Z && (oe_end o =? end_)%Z && (oe_role o =s lit "call").
Definition indexed_call (tables : PhpTables) (m : ParentCallMarker) : result OccurrenceEntry :=
  match sort_by occurrence_order
          (List.filter (call_at (cm_file m) (cm_start m) (cm_end m)) (ph_occurrences tables)) with
  | [] => Err "PHP parent-call marker has no indexed call occurrence"
  | o :: rest =>
      _ ← ensure (bool_decide (oe_target o = None)) "PHP parent-call occurrence has a concrete target";
      _ ← ensure (negb (oe_name o =s [])) "PHP parent-call occurrence has no token name";
      _ ← ensure (length rest =? 0) "PHP parent-call marker matches multiple indexed call occurrences";
      Ok o
  end.

Record ParentCallProjection := MkProjection {
  pj_occurrence : Z;
  pj_candidates : list Z;
  pj_provenance : str;
  pj_relations : list RelationEntry;
}.

Definition code_compare : option Z * str → option Z * str → comparison :=
  pair_compare (option_compare Z.compare) str_compare.
(** The codes of the issues, with what the projection adds to them. *)
Definition issue_codes (m : ParentCallMarker) (candidates : list Z) (candidate_limit : bool) (lookup : ParentLookup)
    : list (option Z * str) :=
  let codes := (λ i : ParentLookupIssue, (i.1, issue_code i.2)) <$> pl_issues lookup in
  let has_limit_issue :=
    existsb (λ c : option Z * str, (c.2 =s lit "candidate_limit") || (c.2 =s lit "visit_limit")) codes in
  let codes := if candidate_limit || (pl_truncated lookup && negb has_limit_issue)
               then codes ++ [(None, lit "candidate_limit")] else codes in
  let codes := if (length candidates =? 0) && (length codes =? 0)
               then codes ++ [(Some (cm_owner m), lit "missing_method")] else codes in
  sort_dedup code_compare codes.
Definition call_provenance (candidates : list Z) (codes : list (option Z * str)) : str :=
  let limitations := join (lit ",") (snd <$> codes) in
  (if length candidates =? 0 then lit "php_parent_call_unresolved" else lit "php_parent_call_candidate")
  ++ lit ";candidate_only"
  ++ (if limitations =s [] then [] else lit ";limitations=" ++ limitations).
Definition candidate_relation (m : ParentCallMarker) (provenance : str) (candidate : Z) : RelationEntry :=
  MkRelationEntry (cm_caller m) (Some candidate) (lit "php_parent_call_candidate") (cm_file m)
    (cm_start m) (cm_end m) provenance.
Definition issue_relation (m : ParentCallMarker) (issue : option Z * str) : RelationEntry :=
  MkRelationEntry (cm_caller m) None (lit "inheritance_issue") (cm_file m) (cm_start m) (cm_end m)
    (lit "php_parent_call;incomplete_inheritance=" ++ issue.2 ++ lit ";class_id=" ++
     match issue.1 with None => lit "unknown" | Some id => show_i64 id end).
(** Two charges for each candidate and one for each issue. *)
Definition call_charges {A B} (candidates : list A) (codes : list B) (used : Z) : result Z :=
  used ← charge_each candidates used;
  used ← charge_each candidates used;
  charge_each codes used.
Definition project_call (m : ParentCallMarker) (call : OccurrenceEntry) (lookup : ParentLookup) (used : Z)
    : result (ParentCallProjection * Z) :=
  let candidates := sort_dedup Z.compare (pl_candidates lookup) in
  let candidate_limit := MAX_PARENT_CALL_CANDIDATES <? length candidates in
  let candidates := take MAX_PARENT_CALL_CANDIDATES candidates in
  let codes := issue_codes m candidates candidate_limit lookup in
  let provenance := call_provenance candidates codes in
  used ← call_charges candidates codes used;
  Ok (MkProjection (oe_id call) candidates provenance
        ((candidate_relation m provenance <$> candidates) ++ (issue_relation m <$> codes)), used).

Section Resolve.
Context (hierarchy : PhpHierarchyIndex).

Fixpoint project_calls (tables : PhpTables) (markers : list ParentCallMarker) (used : Z)
    : result (list ParentCallProjection * Z) :=
  match markers with
  | [] => Ok ([], used)
  | m :: markers =>
      call ← indexed_call tables m;
      '(p, used) ← project_call m call (lookup_parent_method hierarchy (cm_owner m) (oe_name call)) used;
      '(ps, used) ← project_calls tables markers used;
      Ok (p :: ps, used)
  end.

(** The UPDATE, which must change one row, and the INSERTs of a projection. *)
Definition updatable (id : Z) (o : OccurrenceEntry) : bool :=
  (oe_id o =? id)%Z && (oe_role o =s lit "call") && bool_decide (oe_target o = None).
Definition apply_projection (tables : PhpTables) (p : ParentCallProjection) : result PhpTables :=
  _ ← ensure (length (List.filter (updatable (pj_occurrence p)) (ph_occurrences tables)) =? 1)
        "PHP parent-call occurrence changed during projection";
  Ok (MkPhpTables (ph_files tables) (ph_definitions tables)
        ((λ o, if updatable (pj_occurrence p) o
               then set_candidates o (pj_candidates p) (pj_provenance p) else o) <$> ph_occurrences tables)
        (ph_relations tables ++ pj_relations p)).
Fixpoint apply_projections (ps : list ParentCallProjection) (tables : PhpTables) : result PhpTables :=
  match ps with
  | [] => Ok tables
  | p :: ps => tables ← apply_projection tables p; apply_projections ps tables
  end.

Definition resolve_parent_calls (tables : PhpTables) (used : Z) : result (PhpTables * Z) :=
  markers ← load_parent_call_markers tables;
  '(projections, used) ← project_calls tables markers used;
  tables ← apply_projections projections tables;
  Ok (tables, used).
End Resolve.

(** ** What the pass writes *)

(** The marker of a stored row. *)
Definition call_of (r : RelationEntry) : option ParentCallMarker :=
  match decode_fields (rl_kind r) (rl_provenance r) (rl_source r) (rl_target r) (rl_start r) (rl_end r) with
  | Some (MkDecoded source (Some owner) start end_ MParentCall) =>
      Some (MkParentCallMarker source owner (rl_file r) start end_)
  | _ => None
  end.
Definition stored_call (tables : PhpTables) (m : ParentCallMarker) : Prop :=
  ∃ r, r ∈ ph_relations tables ∧ rl_kind r = MARKER_KIND ∧ call_of r = Some m.
(** The occurrence a marker stands for. *)
Definition marked (tables : PhpTables) (m : ParentCallMarker) (o : OccurrenceEntry) : Prop :=
  o ∈ ph_occurrences tables ∧ call_at (cm_file m) (cm_start m) (cm_end m) o = true ∧
  oe_target o = None ∧ oe_name o ≠ [].

Lemma load_calls_Ok rows acc ms : load_calls rows acc = Ok ms → ms = acc ++ omap call_of rows.
Proof.
  revert acc. induction rows as [|r rows IH]; intros acc; cbn; [intros [= <-]; by rewrite app_nil_r|].
  unfold call_of at 1. destruct (decode_fields _ _ _ _ _ _) as [[source target start end_ [| | | |]]|];
    cbn; try apply IH; [by destruct target; apply IH..|].
  intros Hl. result_inv. destruct target as [owner|]; [|done].
  repeat match goal with H : Some _ = Some _ |- _ => injection H as -> end.
  match goal with H : load_calls _ _ = _ |- _ => apply IH in H; rewrite H end. by rewrite <- app_assoc.
Qed.

Lemma load_markers_Ok tables ms :
  load_parent_call_markers tables = Ok ms → ∀ m, m ∈ ms ↔ stored_call tables m.
Proof.
  unfold load_parent_call_markers. intros Hl m. result_inv.
  match goal with H : load_calls _ _ = _ |- _ => apply load_calls_Ok in H; subst end.
  rewrite app_nil_l, (elem_of_sort_dedup call_marker_compare), list_elem_of_omap. unfold stored_call.
  split; intros (r & Hr & Hm); exists r.
  - rewrite elem_of_sort_by, list_elem_of_In, List.filter_In, <- list_elem_of_In in Hr.
    destruct Hr as [? ?%bool_decide_eq_true]. done.
  - destruct Hm as [Hk Hm]. split; [|done].
    rewrite elem_of_sort_by, list_elem_of_In, List.filter_In, <- list_elem_of_In.
    split; [done|by apply bool_decide_eq_true].
Qed.

Lemma indexed_call_Ok tables m o : indexed_call tables m = Ok o → marked tables m o.
Proof.
  unfold indexed_call, marked. destruct (sort_by _ _) as [|x rest] eqn:E; [done|]. intros Hi. result_inv.
  assert (o ∈ o :: rest) as Hin by (by left). rewrite <- E in Hin.
  rewrite elem_of_sort_by, list_elem_of_In, List.filter_In, <- list_elem_of_In in Hin. bool_to_prop. tauto.
Qed.

Lemma charge_Ok used count used' :
  (0 ≤ used)%Z → (0 ≤ count)%Z → charge used count = Ok used' →
  used' = (used + count)%Z ∧ (used' ≤ MAX_DERIVED_ITEMS)%Z.
Proof.
  intros Hu Hc. unfold charge, saturating_add. intros H. result_inv. bool_to_prop.
  unfold MAX_DERIVED_ITEMS, USIZE_MAX in *. lia.
Qed.

(** The candidates of a lookup are already in the form the projection keeps. *)
Lemma lookup_candidates_kept hierarchy caller name :
  let lookup := lookup_parent_method hierarchy caller name in
  take MAX_PARENT_CALL_CANDIDATES (sort_dedup Z.compare (pl_candidates lookup)) = pl_candidates lookup.
Proof.
  destruct (lookup_parent_method_spec hierarchy caller name) as (_ & _ & Hs & Hl). cbn zeta.
  rewrite sort_dedup_id by (by apply sorted_Z_lt || apply _). by apply take_ge.
Qed.

(** Every call has a row: a candidate, or an issue that says why there is none. *)
Lemma issue_codes_nonempty m limit lookup : issue_codes m [] limit lookup ≠ [].
Proof.
  unfold issue_codes. intros E.
  set (codes := if limit || _ then _ else _) in E. cbn [length Nat.eqb andb] in E.
  assert (∀ l, sort_dedup code_compare l = [] → l = []) as Hnil.
  { intros l Hl. destruct l as [|x l]; [done|].
    assert (x ∈ sort_dedup code_compare (x :: l)) as Hx by (apply (elem_of_sort_dedup code_compare); by left).
    rewrite Hl in Hx. by apply not_elem_of_nil in Hx. }
  apply Hnil in E. destruct codes; [|done]. cbn in E. done.
Qed.

Section Justified.
Context (hierarchy : PhpHierarchyIndex).

(** What one call is projected to. *)
Definition projected (m : ParentCallMarker) (o : OccurrenceEntry) (p : ParentCallProjection) : Prop :=
  let lookup := lookup_parent_method hierarchy (cm_owner m) (oe_name o) in
  pj_occurrence p = oe_id o ∧ pj_candidates p = pl_candidates lookup ∧
  ∃ codes, (pl_candidates lookup = [] → codes ≠ []) ∧
    pj_provenance p = call_provenance (pl_candidates lookup) codes ∧
    pj_relations p = (candidate_relation m (pj_provenance p) <$> pl_candidates lookup) ++
                     (issue_relation m <$> codes).

Lemma project_call_Ok m o used p used' :
  project_call m o (lookup_parent_method hierarchy (cm_owner m) (oe_name o)) used = Ok (p, used') →
  projected m o p.
Proof.
  unfold project_call, projected. rewrite lookup_candidates_kept. intros H. result_inv.
  cbn [pj_occurrence pj_candidates pj_provenance pj_relations]. split_and!; [done|done|].
  eexists. split_and!; [|done|done]. intros ->. apply issue_codes_nonempty.
Qed.

Lemma project_calls_Ok tables ms used ps used' :
  project_calls hierarchy tables ms used = Ok (ps, used') →
  Forall2 (λ m p, ∃ o, marked tables m o ∧ projected m o p) ms ps.
Proof.
  revert used ps used'. induction ms as [|m ms IH]; intros used ps used' H; cbn in H; [by simplify_eq|].
  apply bind_Ok in H as (o & Ho & H). apply bind_Ok in H as ([p u] & Hp & H).
  apply bind_Ok in H as ([qs u'] & Hq & H). simplify_eq.
  constructor; [|by eapply IH]. exists o. split; [by apply indexed_call_Ok|by eapply project_call_Ok].
Qed.

Lemma updatable_set id o cs provenance : updatable id (set_candidates o cs provenance) = updatable id o.
Proof. done. Qed.

Lemma apply_projections_Ok ps tables tables' :
  apply_projections ps tables = Ok tables' →
  ph_files tables' = ph_files tables ∧ ph_definitions tables' = ph_definitions tables ∧
  ph_relations tables' = ph_relations tables ++ (ps ≫= pj_relations) ∧
  Forall2 (λ o o', o' = o ∨ ∃ p, p ∈ ps ∧ updatable (pj_occurrence p) o = true ∧
                             o' = set_candidates o (pj_candidates p) (pj_provenance p))
    (ph_occurrences tables) (ph_occurrences tables').
Proof.
  revert tables. induction ps as [|p ps IH]; intros tables H; cbn in H.
  { simplify_eq. rewrite app_nil_r. split_and!; try done. apply Forall_Forall2_diag, Forall_true. by left. }
  apply bind_Ok in H as (t & Ht & H). apply IH in H as (Hf & Hd & Hr & Ho). clear IH.
  unfold apply_projection in Ht. result_inv. cbn [ph_files ph_definitions ph_relations ph_occurrences] in *.
  split_and!; [done|done|by rewrite Hr, bind_cons, app_assoc|].
  rewrite Forall2_fmap_l in Ho. eapply Forall2_impl; [exact Ho|]. cbn. intros o o' Hcase.
  destruct (updatable (pj_occurrence p) o) eqn:Hu.
  - destruct Hcase as [->|(q & Hq & Huq & ->)]; right; [exists p|exists q]; split_and!; try done; [by left|by right].
  - destruct Hcase as [->|(q & Hq & Huq & ->)]; [by left|]. right. exists q. split_and!; try done. by right.
Qed.
End Justified.

Definition about_call (m : ParentCallMarker) (r : RelationEntry) : Prop :=
  rl_source r = cm_caller m ∧ rl_file r = cm_file m ∧ rl_start r = cm_start m ∧ rl_end r = cm_end m.

(** Parent calls are resolved to what the class hierarchy lets them mean: a
    new relationship with a target leads from the calling method to a method
    that the calling class inherits under the called name; every stored call
    gets a relationship, to each inherited method unless the lookup was cut; and
    only the marked call occurrences change, to those candidates. *)
Theorem parent_calls_justified (hierarchy : PhpHierarchyIndex) (tables tables' : PhpTables) (used used' : Z) :
  NoDup (oe_id <$> ph_occurrences tables) →
  resolve_parent_calls hierarchy tables used = Ok (tables', used') →
  ph_files tables' = ph_files tables ∧ ph_definitions tables' = ph_definitions tables ∧
  ∃ new, ph_relations tables' = ph_relations tables ++ new ∧
    (∀ r t, r ∈ new → rl_target r = Some t →
       ∃ m o, stored_call tables m ∧ marked tables m o ∧ about_call m r ∧
              inherits hierarchy (cm_owner m) (oe_name o) t) ∧
    (∀ m, stored_call tables m →
       ∃ o, marked tables m o ∧ (∃ r, r ∈ new ∧ about_call m r) ∧
         (pl_truncated (lookup_parent_method hierarchy (cm_owner m) (oe_name o)) = false →
          ∀ t, inherits hierarchy (cm_owner m) (oe_name o) t →
          ∃ r, r ∈ new ∧ about_call m r ∧ rl_target r = Some t)) ∧
    Forall2 (λ o o', o' = o ∨ ∃ m provenance, stored_call tables m ∧ marked tables m o ∧
               o' = set_candidates o
                      (pl_candidates (lookup_parent_method hierarchy (cm_owner m) (oe_name o))) provenance)
      (ph_occurrences tables) (ph_occurrences tables').
Proof.
  intros Hnd H. unfold resolve_parent_calls in H. apply bind_Ok in H as (ms & Hms & H).
  apply bind_Ok in H as ([ps u] & Hps & H). apply bind_Ok in H as (t & Ht & H). simplify_eq.
  pose proof (load_markers_Ok _ _ Hms) as Hstored. apply project_calls_Ok in Hps.
  apply apply_projections_Ok in Ht as (Hf & Hd & Hr & Ho). split_and!; [done|done|].
  assert (∀ p, p ∈ ps → ∃ m o, stored_call tables m ∧ marked tables m o ∧ projected hierarchy m o p) as Hfrom.
  { intros p (i & Hi)%list_elem_of_lookup. destruct (Forall2_lookup_r _ _ _ _ _ Hps Hi) as (m & Hm & o & ? & ?).
    exists m, o. split; [apply Hstored; by eapply list_elem_of_lookup_2|done]. }
  exists (ps ≫= pj_relations). split_and!; [done| | |].
  - intros r x (p & Hrp & Hp)%list_elem_of_bind Hx.
    destruct (Hfrom p Hp) as (m & o & Hm & Hmo & _ & _ & codes & _ & _ & Hrel). exists m, o.
    rewrite Hrel in Hrp. apply elem_of_app in Hrp as [Hc|Hi].
    + apply list_elem_of_fmap in Hc as (c & -> & Hc). injection Hx as ->. split_and!; [done..|].
      by apply (lookup_parent_method_spec hierarchy (cm_owner m) (oe_name o)).
    + by apply list_elem_of_fmap in Hi as (c & -> & _).
  - intros m Hm. apply Hstored, list_elem_of_lookup in Hm as (i & Hi).
    destruct (Forall2_lookup_l _ _ _ _ _ Hps Hi) as (p & Hp & o & Hmo & _ & _ & codes & Hne & _ & Hrel).
    apply list_elem_of_lookup_2 in Hp. exists o. split_and!; [done| |].
    + assert (∃ r, r ∈ pj_relations p ∧ about_call m r) as (r & Hr' & Ha).
      { rewrite Hrel. destruct (pl_candidates _) as [|c cs].
        - destruct codes as [|i0 codes]; [by destruct Hne|]. exists (issue_relation m i0).
          split; [apply elem_of_app; right; by left|done].
        - eexists. split; [apply elem_of_app; left; by left|done]. }
      exists r. split; [|done]. apply list_elem_of_bind. by exists p.
    + intros Htr x Hx. exists (candidate_relation m (pj_provenance p) x). split; [|done].
      apply list_elem_of_bind. exists p. split; [|done]. rewrite Hrel. apply elem_of_app. left.
      apply list_elem_of_fmap_2. by apply (lookup_parent_method_spec hierarchy (cm_owner m) (oe_name o)).
  - eapply Forall2_impl; [apply Forall2_same_length_lookup; split;
      [by eapply Forall2_length|]|intros ? ? Hq; exact Hq].
    intros i o o' Hi Hi'. destruct (Forall2_lookup_lr _ _ _ _ _ _ Ho Hi Hi') as [->|(p & Hp & Hu & ->)]; [by left|].
    right. destruct (Hfrom p Hp) as (m & o1 & Hm & Hmo & Hid & Hc & _).
    assert (o1 = o) as ->.
    { apply (elem_of_same_key oe_id (ph_occurrences tables)); [done|apply Hmo|by eapply list_elem_of_lookup_2|].
      unfold updatable in Hu. bool_to_prop. congruence. }
    exists m, (pj_provenance p). by rewrite Hc.
Qed.

Module ParentCallsExample.
(** [class Child extends Base { function run() { parent::run(); } }] over two files. *)
Definition marker (source : Z) (target : option Z) (file start end_ : Z) (m : Marker) : RelationEntry :=
  let r := encode_marker source target start end_ m in
  MkRelationEntry (rel_source r) (rel_target r) (rel_kind r) file (evidence_start r) (evidence_end r) (provenance r).
Definition files : list PhpFile :=
  [MkPhpFile 1 (lit "Base.php") (lit "php") (lit "complete") None;
   MkPhpFile 2 (lit "Child.php") (lit "php") (lit "complete") None].
Definition definitions : list DefinitionEntry :=
  [MkDefinitionEntry 10 1 (lit "Base") (lit "class") 0 90 (Some (lit "App"));
   MkDefinitionEntry 11 1 (lit "Run") (lit "method") 20 80 (Some (lit "App\Base"));
   MkDefinitionEntry 20 2 (lit "Child") (lit "class") 0 120 (Some (lit "App"));
   MkDefinitionEntry 21 2 (lit "run") (lit "method") 30 110 (Some (lit "App\Child"))].
Definition call : OccurrenceEntry :=
  MkOccurrenceEntry 5 2 (lit "run") 60 63 (lit "call") None [] (lit "php_call").
Definition relations : list RelationEntry :=
  [marker 10 None 1 0 90 (MClass RoleOrdinary false);
   marker 11 (Some 10) 1 20 80 (MMethod Protected false false);
   marker 20 None 2 0 120 (MClass RoleOrdinary false);
   marker 20 None 2 20 24 (MParent KindOrdinary false (Some (lit "App\Base")));
   marker 21 (Some 20) 2 30 110 (MMethod Public false false);
   marker 21 (Some 20) 2 60 63 MParentCall]%Z.
Definition tables : PhpTables := MkPhpTables files definitions [call] relations.
#[local] Existing Instance AsciiTables.tables.
Definition hierarchy : PhpHierarchyIndex := build_index Some tables.

Example base_method_found :
  lookup_parent_method hierarchy 20 (lit "run") = MkParentLookup [11%Z] [] false.
Proof. vm_compute. reflexivity. Qed.
Example call_resolved :
  match resolve_parent_calls hierarchy tables 0 with
  | Ok (tables', used) => (oe_candidates <$> ph_occurrences tables', used)
  | Err _ => ([], 0%Z)
  end = ([[11]], 2)%Z.
Proof. vm_compute. reflexivity. Qed.
Example extends_projected :
  match project_parents hierarchy tables 0 with
  | Ok (tables', used) => (rl_target <$> drop 6 (ph_relations tables'), used)
  | Err _ => ([], 0%Z)
  end = ([Some 10], 1)%Z.
Proof. vm_compute. reflexivity. Qed.
End ParentCallsExample.

Lemma parent_calls_justified_witness :
  ∃ tables' used', resolve_parent_calls ParentCallsExample.hierarchy ParentCallsExample.tables 0 = Ok (tables', used') ∧
    ph_files tables' = ph_files ParentCallsExample.tables.
Proof.
  destruct (resolve_parent_calls ParentCallsExample.hierarchy ParentCallsExample.tables 0) as [[tables' used']|e] eqn:E.
  - exists tables', used'. split; [reflexivity|].
    apply (parent_calls_justified ParentCallsExample.hierarchy ParentCallsExample.tables tables' 0 used'); [|exact E].
    apply (bool_decide_unpack _). vm_compute. exact I.
  - vm_compute in E. discriminate E.
Defined.

