(* ===== verification/Manifest.v ===== *)
(** * Add-on manifests

    Models [src/src/store/php_resolver/xenforo/manifest.rs]: the tokens of an
    [addon.json], the members of its objects, and the requirements it declares
    with the spans of their keys.  [serde_json] is a parameter: what it makes of
    a document and of a string literal. *)
From Stdlib Require Import Ascii String ZArith Lia Sorted.
From stdpp Require Import base numbers list gmap strings.
From S2P Require Import Prelude Order Text Hits Collections Hierarchy.

Definition MAX_JSON_TOKENS : nat := Z.to_nat 100000.
Definition MAX_METADATA_SOURCE_BYTES : nat := Z.to_nat 2097152.

(** ** Tokens *)

Inductive JsonTokenKind :=
| ObjectStart | ObjectEnd | ArrayStart | ArrayEnd | Colon | Comma | StringToken | Scalar.
#[export] Instance token_kind_eq_dec : EqDecision JsonTokenKind.
Proof. solve_decision. Defined.
Record JsonToken := MkToken {
  tk_kind : JsonTokenKind;
  tk_start : nat;
  tk_end : nat;
  tk_value : option str;
}.
Record ManifestRequirement := MkRequirement {
  rq_name : str;
  rq_start : nat;
  rq_end : nat;
  rq_duplicate : bool;
}.

Definition quote : ascii := chr 34.
Definition structural (c : ascii) : option JsonTokenKind :=
  if c =c "{"%char then Some ObjectStart
  else if c =c "}"%char then Some ObjectEnd
  else if c =c "["%char then Some ArrayStart
  else if c =c "]"%char then Some ArrayEnd
  else if c =c ":"%char then Some Colon
  else if c =c ","%char then Some Comma
  else None.
Definition scalar_byte (c : ascii) : bool :=
  negb (is_ascii_whitespace c) && bool_decide (structural c = None).

(** The bytes that the loop over a string takes after its opening quote. *)
Fixpoint string_length (s : str) : nat :=
  match s with
  | [] => 0
  | c :: rest =>
      if c =c backslash then match rest with [] => 1 | _ :: rest => 2 + string_length rest end
      else if c =c quote then 1
      else S (string_length rest)
  end.

Definition slice_of (source : str) (start end_ : nat) : str := take (end_ - start) (drop start source).

Section Tokens.
Context (parse_string : str → result str) (source : str).

Definition token_at (cursor : nat) (c : ascii) : result JsonToken :=
  match structural c with
  | Some kind => Ok (MkToken kind cursor (S cursor) None)
  | None =>
      if c =c quote then
        let end_ := S cursor + string_length (drop (S cursor) source) in
        _ ← ensure (bool_decide (source !! (end_ - 1) = Some quote)) "unterminated JSON string";
        value ← parse_string (slice_of source cursor end_);
        Ok (MkToken StringToken cursor end_ (Some value))
      else
        let end_ := cursor + length (take_while scalar_byte (drop cursor source)) in
        _ ← ensure (cursor <? end_) "invalid JSON token";
        Ok (MkToken Scalar cursor end_ None)
  end.

(** The loop over the source; every turn takes a byte at least. *)
Fixpoint tokenize_from (fuel cursor : nat) (tokens : list JsonToken) : result (list JsonToken) :=
  match source !! cursor with
  | None => Ok tokens
  | Some c =>
      match fuel with
      | O => Err "unreachable: a token without a byte"
      | S fuel =>
          if is_ascii_whitespace c then tokenize_from fuel (S cursor) tokens
          else
            token ← token_at cursor c;
            let tokens := tokens ++ [token] in
            _ ← ensure (length tokens <=? MAX_JSON_TOKENS) "JSON token limit exceeded";
            tokenize_from fuel (tk_end token) tokens
      end
  end.
Definition tokenize_json : result (list JsonToken) := tokenize_from (length source) 0 [].
End Tokens.

(** ** Objects *)

Definition kind_at (tokens : list JsonToken) (index : nat) : option JsonTokenKind :=
  tk_kind <$> tokens !! index.

(** The loop of [value_end] over the tokens after an opening bracket. *)
Fixpoint close_at (stack : list JsonTokenKind) (index : nat) (rest : list JsonToken) : result nat :=
  match rest with
  | [] => Err "unterminated JSON value"
  | next :: rest =>
      match tk_kind next with
      | ObjectStart | ArrayStart => close_at (tk_kind next :: stack) (S index) rest
      | ObjectEnd =>
          match stack with
          | ObjectStart :: stack =>
              if length stack =? 0 then Ok index else close_at stack (S index) rest
          | _ => Err "mismatched JSON object"
          end
      | ArrayEnd =>
          match stack with
          | ArrayStart :: stack =>
              if length stack =? 0 then Ok index else close_at stack (S index) rest
          | _ => Err "mismatched JSON array"
          end
      | _ => close_at stack (S index) rest
      end
  end.
Definition value_end (tokens : list JsonToken) (start : nat) : result nat :=
  token ← or_err "missing JSON value" (tokens !! start);
  match tk_kind token with
  | ObjectStart | ArrayStart => close_at [tk_kind token] (S start) (drop (S start) tokens)
  | ObjectEnd | ArrayEnd | Colon | Comma => Err "invalid JSON value"
  | StringToken | Scalar => Ok start
  end.

(** The loop over the members; every turn takes a key. *)
Fixpoint members_from (fuel : nat) (tokens : list JsonToken) (cursor : nat) (members : list (nat * nat * nat))
    : result (list (nat * nat * nat)) :=
  match kind_at tokens cursor, fuel with
  | None, _ => Err "unterminated JSON object"
  | Some ObjectEnd, _ => Ok members
  | Some _, O => Err "unreachable: a member without a token"
  | Some kind, S fuel =>
      _ ← ensure (bool_decide (kind = StringToken)) "expected JSON object key";
      _ ← ensure (bool_decide (kind_at tokens (S cursor) = Some Colon)) "expected JSON colon";
      let value_start := S (S cursor) in
      end_ ← value_end tokens value_start;
      let members := members ++ [(cursor, value_start, end_)] in
      if bool_decide (kind_at tokens (S end_) = Some Comma)
      then members_from fuel tokens (S (S end_)) members
      else
        _ ← ensure (bool_decide (kind_at tokens (S end_) = Some ObjectEnd)) "expected JSON object end";
        Ok members
  end.
Definition object_members (tokens : list JsonToken) (object_start : nat) : result (list (nat * nat * nat)) :=
  _ ← ensure (bool_decide (kind_at tokens object_start = Some ObjectStart)) "expected JSON object";
  members_from (length tokens) tokens (S object_start) [].

(** ** Requirements *)

Definition value_at (tokens : list JsonToken) (key : nat) : option str := tokens !! key ≫= tk_value.
(** What the filter over the members keeps of a key. *)
Definition requirement (tokens : list JsonToken) (names : list str) (key : nat) : option ManifestRequirement :=
  token ← tokens !! key;
  name ← tk_value token;
  Some (MkRequirement name (tk_start token) (tk_end token)
          (1 <? length (List.filter (λ n, n =s name) names))).

Section Manifest.
Context (parse_value : str → result Json) (parse_string : str → result str).

Definition parse_manifest (source : str) : result (list ManifestRequirement) :=
  _ ← ensure (length source <=? MAX_METADATA_SOURCE_BYTES) "manifest exceeds source limit";
  value ← parse_value source;
  root ← or_err "add-on manifest root is not an object" (match value with JObj root => Some root | _ => None end);
  match obj_get root (lit "require") with
  | None => Ok []
  | Some require =>
      tokens ← tokenize_json parse_string source;
      root_members ← object_members tokens 0;
      match List.filter (λ m, bool_decide (value_at tokens m.1.1 = Some (lit "require"))) root_members with
      | [(_, value_start, value_end)] =>
          match require with
          | JArr [] =>
              _ ← ensure (bool_decide (kind_at tokens value_start = Some ArrayStart
                                       ∧ kind_at tokens value_end = Some ArrayEnd))
                    "unsupported empty add-on require shape";
              Ok []
          | JObj _ =>
              _ ← ensure (bool_decide (kind_at tokens value_start = Some ObjectStart
                                       ∧ kind_at tokens value_end = Some ObjectEnd))
                    "unsupported add-on require shape";
              members ← object_members tokens value_start;
              let keys := (λ m : nat * nat * nat, m.1.1) <$> members in
              let names := (λ key, default [] (value_at tokens key)) <$> keys in
              Ok (omap (requirement tokens names) keys)
          | _ => Err "add-on require field is not an object"
          end
      | _ => Err "duplicate require field"
      end
  end.
End Manifest.

(** ** Tokens are where they say *)

Definition located (parse_string : str → result str) (source : str) (t : JsonToken) : Prop :=
  tk_start t < tk_end t ∧ tk_end t ≤ length source ∧
  (tk_kind t = StringToken →
   ∃ v, tk_value t = Some v ∧ parse_string (slice_of source (tk_start t) (tk_end t)) = Ok v).
Definition before (a b : JsonToken) : Prop := tk_end a ≤ tk_start b.

Lemma string_length_le s : string_length s ≤ length s.
Proof.
  remember (length s) as n eqn:Hn. revert s Hn.
  induction n as [n IH] using lt_wf_ind. intros [|c s] ->; [cbn; lia|]. cbn [string_length].
  destruct (c =c backslash).
  - destruct s as [|d s]; [cbn; lia|]. specialize (IH (length s) ltac:(cbn; lia) s eq_refl). cbn. lia.
  - destruct (c =c quote); [cbn; lia|]. specialize (IH (length s) ltac:(cbn; lia) s eq_refl). cbn [length]. lia.
Qed.

Lemma token_at_located parse_string source cursor c t :
  source !! cursor = Some c → token_at parse_string source cursor c = Ok t →
  located parse_string source t ∧ tk_start t = cursor.
Proof.
  intros Hc. apply lookup_lt_Some in Hc as Hlt. unfold token_at.
  destruct (structural c) as [kind|] eqn:E.
  { intros [= <-]. split; [|done]. split; [cbn; lia|]. split; [cbn; lia|]. cbn.
    unfold structural in E. repeat case_bool_decide; intros ->; simplify_eq. }
  case_bool_decide.
  - intros (u & Hq & (v & Hv & [= <-])%bind_Ok)%bind_Ok. split; [|done].
    pose proof (string_length_le (drop (S cursor) source)) as Hl. rewrite length_drop in Hl.
    repeat split; cbn; [lia|lia|]. intros _. by exists v.
  - intros (u & Hq%ensure_Ok & [= <-])%bind_Ok. apply Nat.ltb_lt in Hq. split; [|done].
    pose proof (f_equal length (take_drop_while scalar_byte (drop cursor source))) as Hl.
    rewrite length_app, length_drop in Hl. repeat split; cbn; [lia|lia|done].
Qed.

Lemma tokenize_from_located parse_string source fuel cursor tokens result :
  tokenize_from parse_string source fuel cursor tokens = Ok result →
  ∃ new, result = tokens ++ new ∧ Forall (located parse_string source) new ∧
         StronglySorted before new ∧ Forall (λ t, cursor ≤ tk_start t) new.
Proof.
  revert cursor tokens. induction fuel as [|fuel IH]; intros cursor tokens; cbn [tokenize_from].
  all: destruct (source !! cursor) as [c|] eqn:Hc;
    [|intros [= <-]; exists []; rewrite app_nil_r; repeat constructor].
  { done. }
  destruct (is_ascii_whitespace c).
  - intros (new & -> & Hl & Hs & Hm)%IH. exists new. split_and!; [done..|].
    eapply Forall_impl; [exact Hm|]. intros t Ht. cbn in Ht. lia.
  - intros (t & Ht & (u & _ & (new & -> & Hl & Hs & Hm)%IH)%bind_Ok)%bind_Ok.
    destruct (token_at_located _ _ _ _ _ Hc Ht) as [Hloc Hstart].
    exists (t :: new). rewrite <-app_assoc. split_and!; [done|by constructor| |].
    + constructor; [done|exact Hm].
    + constructor; [lia|]. eapply Forall_impl; [exact Hm|]. intros t' Ht'. cbn in Ht'.
      destruct Hloc. lia.
Qed.

(** The fuel is enough: the loop never runs out. *)
Lemma token_at_no_fuel parse_string source cursor c msg :
  (∀ s, parse_string s ≠ Err msg) → msg ≠ "unterminated JSON string"%string → msg ≠ "invalid JSON token"%string →
  token_at parse_string source cursor c ≠ Err msg.
Proof.
  intros Hp H1 H2. unfold token_at. destruct (structural c); [done|]. case_bool_decide.
  - destruct (ensure _ _) as [|e] eqn:E; cbn; [|unfold ensure in E; destruct (bool_decide _); congruence].
    destruct (parse_string _) eqn:Es; cbn; [done|]. intros [= ->]. by apply Hp in Es.
  - unfold ensure. destruct (_ <? _); cbn; congruence.
Qed.

Lemma tokenize_total parse_string source fuel cursor tokens :
  (∀ s, parse_string s ≠ Err "unreachable: a token without a byte") → length source - cursor ≤ fuel →
  tokenize_from parse_string source fuel cursor tokens ≠ Err "unreachable: a token without a byte".
Proof.
  intros Hp. revert cursor tokens. induction fuel as [|fuel IH]; intros cursor tokens Hf; cbn [tokenize_from].
  all: destruct (source !! cursor) as [c|] eqn:Hc; [|done]; apply lookup_lt_Some in Hc as Hlt.
  { lia. }
  destruct (is_ascii_whitespace c); [apply IH; lia|].
  pose proof (token_at_no_fuel parse_string source cursor c _ Hp ltac:(done) ltac:(done)) as Hno.
  destruct (token_at _ _ _ _) as [t|e] eqn:Ht; cbn; [|intros [= ->]; done].
  destruct (token_at_located _ _ _ _ _ Hc Ht) as [[Hlt' _] Hst].
  unfold ensure. destruct (_ <=? _); cbn; [|done]. apply IH. lia.
Qed.

(** ** Members are what the object holds *)

(** Tokens with matched brackets, and the tokens of one value. *)
Definition leaf_kind (k : JsonTokenKind) : Prop := k ∈ [Colon; Comma; StringToken; Scalar].
Inductive Balanced : list JsonTokenKind → Prop :=
| bal_nil : Balanced []
| bal_leaf k b : leaf_kind k → Balanced b → Balanced (k :: b)
| bal_object inner b : Balanced inner → Balanced b → Balanced (ObjectStart :: inner ++ ObjectEnd :: b)
| bal_array inner b : Balanced inner → Balanced b → Balanced (ArrayStart :: inner ++ ArrayEnd :: b).
Inductive ValueTokens : list JsonTokenKind → Prop :=
| value_leaf k : k = StringToken ∨ k = Scalar → ValueTokens [k]
| value_object inner : Balanced inner → ValueTokens (ObjectStart :: inner ++ [ObjectEnd])
| value_array inner : Balanced inner → ValueTokens (ArrayStart :: inner ++ [ArrayEnd]).

Lemma close_balanced b : Balanced b → ∀ ts stack index rest,
  tk_kind <$> ts = b → stack ≠ [] →
  close_at stack index (ts ++ rest) = close_at stack (index + length b) rest.
Proof.
  induction 1 as [|k b Hk Hb IH|inner b Hi IHi Hb IHb|inner b Hi IHi Hb IHb];
    intros ts stack index rest Hts Hne.
  - apply fmap_nil_inv in Hts as ->. by rewrite Nat.add_0_r.
  - apply fmap_cons_inv in Hts as (t & ts' & -> & -> & ->). cbn.
    rewrite Nat.add_succ_r, <-Nat.add_succ_l, <-(IH ts' stack) by done.
    unfold leaf_kind in Hk. rewrite !elem_of_cons, elem_of_nil in Hk.
    destruct (tk_kind t); try done; by destruct Hk as [?|[?|[?|[?|?]]]].
  - apply fmap_cons_inv in Hts as (t & ts' & Ht & Hts' & ->).
    symmetry in Hts'. apply fmap_app_inv in Hts' as (ti & tb & -> & Htb & ->).
    symmetry in Htb. apply fmap_cons_inv in Htb as (te & tb' & Hte & -> & ->). cbn. rewrite <-Ht.
    rewrite <-app_assoc, (IHi ti (ObjectStart :: stack)) by done. cbn. rewrite <-Hte.
    destruct stack as [|s stack]; [done|]. cbn. rewrite (IHb tb') by done. f_equal.
    rewrite length_app. cbn. rewrite !length_fmap. lia.
  - apply fmap_cons_inv in Hts as (t & ts' & Ht & Hts' & ->).
    symmetry in Hts'. apply fmap_app_inv in Hts' as (ti & tb & -> & Htb & ->).
    symmetry in Htb. apply fmap_cons_inv in Htb as (te & tb' & Hte & -> & ->). cbn. rewrite <-Ht.
    rewrite <-app_assoc, (IHi ti (ArrayStart :: stack)) by done. cbn. rewrite <-Hte.
    destruct stack as [|s stack]; [done|]. cbn. rewrite (IHb tb') by done. f_equal.
    rewrite length_app. cbn. rewrite !length_fmap. lia.
Qed.

Lemma lookup_split {A} (pre : list A) x post : (pre ++ x :: post) !! length pre = Some x.
Proof. by rewrite lookup_app_r, Nat.sub_diag. Qed.

Lemma value_end_exact pre ts post v :
  ValueTokens v → tk_kind <$> ts = v →
  value_end (pre ++ ts ++ post) (length pre) = Ok (length pre + length v - 1).
Proof.
  assert (∀ open inner close,
    (open = ObjectStart ∧ close = ObjectEnd ∨ open = ArrayStart ∧ close = ArrayEnd) →
    Balanced inner → tk_kind <$> ts = open :: inner ++ [close] →
    value_end (pre ++ ts ++ post) (length pre) = Ok (length pre + length (open :: inner ++ [close]) - 1)) as Hb.
  { intros open inner close Hoc Hi Hts.
    apply fmap_cons_inv in Hts as (t & ts' & Ht & Hts' & ->).
    symmetry in Hts'. apply fmap_app_inv in Hts' as (ti & tc & Hti & Htc & ->).
    symmetry in Htc. apply fmap_cons_inv in Htc as (tcl & ? & Hcl & Hnil & ->).
    symmetry in Hnil; apply fmap_nil_inv in Hnil as ->. unfold value_end. cbn [app]. rewrite lookup_split. cbn.
    rewrite drop_app_ge, Nat.sub_succ_l, Nat.sub_diag by lia. cbn [drop]. rewrite <-app_assoc.
    rewrite drop_0.
    destruct Hoc as [[-> ->]|[-> ->]]; rewrite <-Ht, (close_balanced inner Hi) by done;
      cbn; rewrite <-Hcl, length_app; cbn; f_equal; lia. }
  intros Hv Hts. destruct Hv as [k Hk|inner Hi|inner Hi]; [|eapply Hb; eauto..].
  apply fmap_cons_inv in Hts as (t & ts' & -> & Hnil & ->). symmetry in Hnil; apply fmap_nil_inv in Hnil as ->.
  unfold value_end. cbn [app]. rewrite lookup_split. cbn.
  destruct Hk as [->| ->]; f_equal; lia.
Qed.

(** The body of an object with these values, and the members it holds. *)
Fixpoint body_kinds (values : list (list JsonTokenKind)) : list JsonTokenKind :=
  match values with
  | [] => []
  | [v] => StringToken :: Colon :: v
  | v :: vs => StringToken :: Colon :: v ++ Comma :: body_kinds vs
  end.
Fixpoint member_positions (start : nat) (values : list (list JsonTokenKind)) : list (nat * nat * nat) :=
  match values with
  | [] => []
  | v :: vs => (start, start + 2, start + 1 + length v) :: member_positions (start + 3 + length v) vs
  end.

Lemma kind_at_app pre ts i : kind_at (pre ++ ts) (length pre + i) = kind_at ts i.
Proof. unfold kind_at. by rewrite lookup_app_r, Nat.add_sub_swap, Nat.sub_diag by lia. Qed.
Lemma value_nonempty v : ValueTokens v → 1 ≤ length v.
Proof. by destruct 1; cbn; lia. Qed.

Lemma members_exact values : Forall ValueTokens values → ∀ pre body close post fuel acc,
  tk_kind <$> body = body_kinds values → tk_kind close = ObjectEnd → length values ≤ fuel →
  members_from fuel (pre ++ body ++ close :: post) (length pre) acc =
  Ok (acc ++ member_positions (length pre) values).
Proof.
  induction 1 as [|v vs Hv Hvs IH]; intros pre body close post fuel acc Hb Hc Hf.
  { apply fmap_nil_inv in Hb as ->. rewrite app_nil_r.
    assert (kind_at (pre ++ close :: post) (length pre) = Some ObjectEnd) as Hk.
    { unfold kind_at. by rewrite lookup_split, <-Hc. }
    destruct fuel; cbn; by rewrite Hk. }
  destruct fuel as [|fuel]; [cbn in Hf; lia|].
  assert (∃ rest, body_kinds (v :: vs) = StringToken :: Colon :: v ++ rest) as [rest Hrest].
  { destruct vs; [exists []; by rewrite app_nil_r|by eexists]. }
  pose proof Hb as Hb'. rewrite Hrest in Hb'.
  apply fmap_cons_inv in Hb' as (tk & b1 & Htk & Hb' & ->).
  symmetry in Hb'. apply fmap_cons_inv in Hb' as (tc & b2 & Htc & Hb' & ->).
  symmetry in Hb'. apply fmap_app_inv in Hb' as (tv & tr & Htv & Htr & ->).
  assert (length tv = length v) as Hlv by (by rewrite Htv, length_fmap).
  cbn [app] in *. rewrite !fmap_cons in Hb. 
  set (tokens := pre ++ _).
  assert (tokens = (pre ++ [tk; tc]) ++ tv ++ tr ++ close :: post) as Htokens.
  { unfold tokens. by rewrite <-!app_assoc. }
  assert (kind_at tokens (length pre) = Some StringToken) as K0.
  { unfold tokens. rewrite <-(Nat.add_0_r (length pre)), kind_at_app. cbn. by rewrite <-Htk. }
  assert (kind_at tokens (S (length pre)) = Some Colon) as K1.
  { unfold tokens. rewrite <-(Nat.add_1_r (length pre)), kind_at_app. cbn. by rewrite <-Htc. }
  assert (value_end tokens (S (S (length pre))) = Ok (length pre + 1 + length v)) as Kv.
  { rewrite Htokens. replace (S (S (length pre))) with (length (pre ++ [tk; tc])) by (rewrite length_app; cbn; lia).
    rewrite (value_end_exact _ _ _ v) by done. rewrite length_app. cbn. f_equal. pose proof (value_nonempty v Hv). lia. }
  assert (∀ i, kind_at tokens (length pre + 2 + length v + i) = kind_at (tr ++ close :: post) i) as Kr.
  { intros i. rewrite Htokens, app_assoc. rewrite <-(kind_at_app ((pre ++ [tk; tc]) ++ tv) (tr ++ close :: post) i). f_equal; rewrite ?length_app; cbn; lia. }
  cbn [members_from]. rewrite K0. unfold ensure at 1. cbn. rewrite K1. cbn. rewrite Kv. cbn [mbind result_bind].
  replace (S (length pre + 1 + length v)) with (length pre + 2 + length v + 0) by lia. rewrite Kr.
  destruct vs as [|w vs].
  - assert (tr = []) as ->.
    { cbn in Hrest. injection Hrest as Hr. apply (f_equal length) in Hr.
      rewrite length_app, Htr, length_fmap in Hr. destruct tr; [done|cbn in Hr; lia]. }
    cbn. rewrite Hc. cbn. by replace (S (S (length pre))) with (length pre + 2) by lia.
  - assert (rest = Comma :: body_kinds (w :: vs)) as ->.
    { cbn [body_kinds] in Hrest. injection Hrest as Hr. by apply app_inv_head in Hr. }
    symmetry in Htr. apply fmap_cons_inv in Htr as (tm & tr' & Htm & Htr & ->).
    assert (kind_at (tm :: tr' ++ close :: post) 0 = Some Comma) as K2 by (unfold kind_at; cbn; by rewrite <-Htm).
    cbn [app]. rewrite K2, !bool_decide_true by done. cbn [ensure mbind result_bind].
    assert (tokens = (pre ++ [tk; tc] ++ tv ++ [tm]) ++ tr' ++ close :: post) as ->.
    { rewrite Htokens. by rewrite <-!app_assoc. }
    replace (S (length pre + 2 + length v + 0)) with (length (pre ++ [tk; tc] ++ tv ++ [tm]))
      by (rewrite !length_app; cbn; lia).
    rewrite IH by (try done; cbn in Hf |- *; lia).
    rewrite <-app_assoc. cbn [app member_positions].
    replace (S (S (length pre))) with (length pre + 2) by lia.
    replace (length (pre ++ tk :: tc :: tv ++ [tm])) with (length pre + 3 + length v) by (rewrite !length_app; cbn; rewrite length_app; cbn; lia). done.
Qed.

(** The members of an object are read exactly: in a token stream that holds, from
    some position on, an object whose members are keys with well-bracketed
    values of any depth, separated by commas, [object_members] gives the position
    of every key with the first and last token of its value, in order, and
    never runs out of fuel. *)
Theorem object_members_exact (pre body post : list JsonToken) (open close : JsonToken)
    (values : list (list JsonTokenKind)) :
  Forall ValueTokens values → tk_kind open = ObjectStart → tk_kind <$> body = body_kinds values →
  tk_kind close = ObjectEnd →
  object_members (pre ++ open :: body ++ close :: post) (length pre) =
  Ok (member_positions (S (length pre)) values).
Proof.
  intros Hv Ho Hb Hc. unfold object_members.
  rewrite bool_decide_true by (unfold kind_at; rewrite lookup_split; cbn; by rewrite Ho). cbn [ensure mbind result_bind].
  assert (pre ++ open :: body ++ close :: post = (pre ++ [open]) ++ body ++ close :: post) as -> by (by rewrite <-app_assoc).
  replace (S (length pre)) with (length (pre ++ [open])) by (rewrite length_app; cbn; lia).
  rewrite (members_exact values) by (try done; 
    assert (length values ≤ length body) by (rewrite <-(length_fmap tk_kind), Hb; clear; 
      induction values as [|v [|w vs] IH]; cbn in *; [lia|lia|rewrite length_app; cbn; lia]);
    rewrite !length_app; cbn; lia).
  done.
Qed.

(** ** Requirements are where they are declared *)

Lemma close_at_after stack index rest end_ : close_at stack index rest = Ok end_ → index ≤ end_.
Proof.
  revert stack index. induction rest as [|t rest IH]; intros stack index; cbn; [done|].
  destruct (tk_kind t); try (intros H%IH; lia).
  all: destruct stack as [|[] stack]; try done.
  all: destruct (length stack =? 0); [by intros [= ->]|intros H%IH; lia].
Qed.
Lemma value_end_after tokens start end_ : value_end tokens start = Ok end_ → start ≤ end_.
Proof.
  unfold value_end. intros (t & _ & H)%bind_Ok. destruct (tk_kind t); try done.
  1,2: apply close_at_after in H; lia. all: by simplify_eq.
Qed.

Lemma members_from_keys tokens fuel cursor acc members :
  members_from fuel tokens cursor acc = Ok members →
  ∃ new, members = acc ++ new ∧
    Forall (λ m : nat * nat * nat, cursor ≤ m.1.1 ∧ kind_at tokens m.1.1 = Some StringToken) new ∧
    StronglySorted (λ a b : nat * nat * nat, a.1.1 < b.1.1) new.
Proof.
  revert cursor acc. induction fuel as [|fuel IH]; intros cursor acc; cbn [members_from].
  { destruct (kind_at tokens cursor) as [[]|]; try done. intros [= <-].
    exists []. rewrite app_nil_r. repeat constructor. }
  assert (∀ kind, kind_at tokens cursor = Some kind → kind ≠ ObjectEnd →
    (_ ← ensure (bool_decide (kind = StringToken)) "expected JSON object key";
     _ ← ensure (bool_decide (kind_at tokens (S cursor) = Some Colon)) "expected JSON colon";
     end_ ← value_end tokens (S (S cursor));
     if bool_decide (kind_at tokens (S end_) = Some Comma)
     then members_from fuel tokens (S (S end_)) (acc ++ [(cursor, S (S cursor), end_)])
     else
       _ ← ensure (bool_decide (kind_at tokens (S end_) = Some ObjectEnd)) "expected JSON object end";
       Ok (acc ++ [(cursor, S (S cursor), end_)])) = Ok members →
    ∃ new, members = acc ++ new ∧
      Forall (λ m : nat * nat * nat, cursor ≤ m.1.1 ∧ kind_at tokens m.1.1 = Some StringToken) new ∧
      StronglySorted (λ a b : nat * nat * nat, a.1.1 < b.1.1) new) as Hmember.
  { intros kind Hk _ (u1 & Hkey%ensure_Ok & (u2 & _ & (end_ & He%value_end_after & H)%bind_Ok)%bind_Ok)%bind_Ok.
    apply bool_decide_eq_true in Hkey as ->. case_bool_decide.
    - apply IH in H as (new & -> & Hf & Hs). exists ((cursor, S (S cursor), end_) :: new).
      rewrite <-app_assoc. split_and!; [done| |].
      + constructor; [done|]. eapply Forall_impl; [exact Hf|]. intros m [Hm ?]. split; [lia|done].
      + constructor; [done|]. eapply Forall_impl; [exact Hf|]. cbn. intros m [Hm ?]. lia.
    - apply bind_Ok in H as (u3 & _ & [= <-]). eexists. split; [done|]. repeat constructor. done. }
  destruct (kind_at tokens cursor) as [[]|] eqn:Hk; try done; try (by apply Hmember).
  intros [= <-]. exists []. rewrite app_nil_r. repeat constructor.
Qed.

Lemma object_members_keys tokens start members :
  object_members tokens start = Ok members →
  Forall (λ m : nat * nat * nat, kind_at tokens m.1.1 = Some StringToken) members ∧
  StronglySorted (λ a b : nat * nat * nat, a.1.1 < b.1.1) members.
Proof.
  unfold object_members. intros (u & _ & (new & -> & Hf & Hs)%members_from_keys)%bind_Ok.
  split; [|done]. eapply Forall_impl; [exact Hf|]. by intros m [].
Qed.

Section Located.
Context (parse_string : str → result str) (source : str).

(** A requirement stands at the bytes of its key. *)
Definition requirement_located (r : ManifestRequirement) : Prop :=
  rq_start r < rq_end r ∧ rq_end r ≤ length source ∧
  parse_string (slice_of source (rq_start r) (rq_end r)) = Ok (rq_name r).

Lemma requirement_total tokens names key :
  Forall (located parse_string source) tokens → kind_at tokens key = Some StringToken →
  ∃ t name, tokens !! key = Some t ∧ value_at tokens key = Some name ∧
    requirement tokens names key =
      Some (MkRequirement name (tk_start t) (tk_end t) (1 <? length (List.filter (λ n, n =s name) names))) ∧
    tk_start t < tk_end t ∧ tk_end t ≤ length source ∧
    parse_string (slice_of source (tk_start t) (tk_end t)) = Ok name.
Proof.
  intros Hl Hk. unfold kind_at in Hk. destruct (tokens !! key) as [t|] eqn:Ht; [|done].
  injection Hk as Hk. rewrite Forall_lookup in Hl. destruct (Hl _ _ Ht) as (H1 & H2 & H3).
  destruct (H3 Hk) as (name & Hv & Hp). exists t, name.
  unfold value_at, requirement. rewrite Ht. cbn. by rewrite Hv.
Qed.

Lemma requirements_located tokens names keys :
  Forall (located parse_string source) tokens → StronglySorted before tokens →
  Forall (λ key, kind_at tokens key = Some StringToken) keys → StronglySorted lt keys →
  let requirements := omap (requirement tokens names) keys in
  Forall requirement_located requirements ∧
  StronglySorted (λ a b, rq_end a ≤ rq_start b) requirements ∧
  rq_name <$> requirements = (λ key, default [] (value_at tokens key)) <$> keys ∧
  Forall (λ r, rq_duplicate r = (1 <? length (List.filter (λ n, n =s rq_name r) names))) requirements.
Proof.
  intros Hl Hs Hk Hlt. induction keys as [|key keys IH]; cbn; [repeat constructor|].
  inversion Hk as [|? ? Hkey Hks]; subst. inversion Hlt as [|? ? Hlts Hall]; subst.
  destruct (requirement_total tokens names key Hl Hkey) as (t & name & Ht & Hv & -> & H1 & H2 & H3).
  destruct (IH Hks Hlts) as (IH1 & IH2 & IH3 & IH4). cbn. rewrite Hv. cbn. split_and!.
  - by constructor.
  - constructor; [done|]. apply Forall_forall. intros r (k & Hkin & Hr)%list_elem_of_omap. cbn.
    rewrite Forall_forall in Hks, Hall.
    destruct (requirement_total tokens names k Hl (Hks k Hkin)) as (t' & n' & Ht' & _ & Hr' & _).
    rewrite Hr' in Hr. injection Hr as <-. cbn. specialize (Hall k Hkin).
    assert (∀ (l : list JsonToken) i j a b, StronglySorted before l → l !! i = Some a → l !! j = Some b → i < j → before a b) as Hsl.
    { clear. induction l as [|x l IHl]; intros i j a b Hl Hi Hj Hij; [done|]. inversion Hl as [|? ? Hl' Hx]; subst.
      destruct j as [|j]; [lia|]. destruct i as [|i]; cbn in Hi, Hj; [|by eapply (IHl i j); try done; lia].
      injection Hi as ->. rewrite Forall_lookup in Hx. by eapply Hx. }
    by eapply (Hsl tokens key k).
  - by rewrite IH3.
  - by constructor.
Qed.
End Located.

(** What a manifest is read as: every requirement is the key of the bytes at its
    span, as [serde_json] decodes them; the spans lie in the source, in order and
    without overlap; and a requirement is marked a duplicate exactly when the
    manifest gives its name more than once. *)
Theorem manifest_requirements_located (parse_value : str → result Json) (parse_string : str → result str)
    (source : str) (requirements : list ManifestRequirement) :
  parse_manifest parse_value parse_string source = Ok requirements →
  Forall (requirement_located parse_string source) requirements ∧
  StronglySorted (λ a b, rq_end a ≤ rq_start b) requirements ∧
  Forall (λ r, rq_duplicate r = (1 <? length (List.filter (λ n, n =s rq_name r) (rq_name <$> requirements))))
    requirements.
Proof.
  unfold parse_manifest. intros (u & _ & (value & _ & (root & _ & H)%bind_Ok)%bind_Ok)%bind_Ok.
  destruct (obj_get root (lit "require")) as [require|]; [|injection H as <-; repeat constructor].
  apply bind_Ok in H as (tokens & Ht & (members & _ & H)%bind_Ok).
  unfold tokenize_json in Ht. apply tokenize_from_located in Ht as (new & -> & Hl & Hs & _). cbn [app] in H.
  destruct (List.filter _ members) as [|[[key value_start] value_end] [|]]; [done| |done].
  destruct require as [| | | |[|]|]; try done.
  { apply bind_Ok in H as (? & _ & [= <-]). repeat constructor. }
  apply bind_Ok in H as (? & _ & (inner & [Hk Hlt]%object_members_keys & [= <-])%bind_Ok).
  set (keys := (λ m : nat * nat * nat, m.1.1) <$> inner).
  destruct (requirements_located parse_string source new ((λ key, default [] (value_at new key)) <$> keys) keys)
    as (H1 & H2 & H3 & H4); [done|done|by apply Forall_fmap| |by rewrite H3].
  unfold keys. clear -Hlt. induction Hlt as [|m ms _ IH Hm]; cbn; constructor; [done|].
  by apply Forall_fmap.
Qed.

Module ManifestExample.

(** A string literal without escapes, and the document of the example. *)
Definition parse_string (s : str) : result str := Ok (removelast (tail s)).
(** Text with its apostrophes as double quotes. *)
Definition json (s : string) : str := (λ c, if c =c chr 39 then quote else c) <$> lit s.
Definition source : str := json "{'title': 1, 'require': {'XF': [2, '*'], 'Vendor': {}}}".
Definition parse_value (_ : str) : result Json :=
  Ok (JObj [(lit "require", JObj [(lit "Vendor", JObj []); (lit "XF", JArr [JNum 2; JStr (lit "*")])]);
            (lit "title", JNum 1)]).

Example requirements_found :
  parse_manifest parse_value parse_string source =
  Ok [MkRequirement (lit "XF") 25 29 false; MkRequirement (lit "Vendor") 41 49 false].
Proof. vm_compute. reflexivity. Qed.

Lemma manifest_requirements_located_witness :
  Forall (requirement_located parse_string source)
    [MkRequirement (lit "XF") 25 29 false; MkRequirement (lit "Vendor") 41 49 false].
Proof.
  apply (manifest_requirements_located parse_value parse_string source). vm_compute. reflexivity.
Defined.

(** The tokens of [{"a":[{}],"b":0}]. *)
Definition token (kind : JsonTokenKind) : JsonToken := MkToken kind 0 1 None.
Lemma object_members_exact_witness :
  object_members (token ObjectStart :: (token <$> [StringToken; Colon; ArrayStart; ObjectStart; ObjectEnd;
    ArrayEnd; Comma; StringToken; Colon; Scalar]) ++ token ObjectEnd :: []) 0 = Ok [(1, 3, 6); (8, 10, 10)].
Proof.
  apply (object_members_exact [] _ [] (token ObjectStart) (token ObjectEnd)
    [[ArrayStart; ObjectStart; ObjectEnd; ArrayEnd]; [Scalar]]); [|done..].
  constructor; [|constructor; [apply value_leaf; by right|constructor]].
  apply (value_array [ObjectStart; ObjectEnd]). apply (bal_object [] []); constructor.
Defined.
End ManifestExample.
