(* ===== verification/Extensions.v ===== *)
(** * XenForo class extensions

    Models [src/src/store/php_resolver/xenforo/class_extensions.rs]: the rows of a
    [class_extensions.xml] with the spans of their attribute values.  The XML
    reader is a parameter: the events of a document with the position after
    each, and what it decodes an element's attributes to. *)
From Stdlib Require Import Ascii String ZArith Lia Sorted.
From stdpp Require Import base numbers list gmap strings.
From S2P Require Import Prelude Order Text Collections Hierarchy Manifest.

Definition MAX_METADATA_FACTS : nat := Z.to_nat 200000.

(** ** What the reader gives *)

Record XmlAttribute := MkAttribute { xa_key : str; xa_value : result str }.
Record XmlElement := MkElement { xe_name : str; xe_attributes : list (result XmlAttribute) }.
(** The end of the document is the end of the list of events. *)
Inductive XmlEvent :=
| EvStart (element : XmlElement)
| EvEmpty (element : XmlElement)
| EvEnd (name : str)
| EvText (text : str)
| EvCData (text : str)
| EvDocType | EvGeneralRef
| EvComment | EvDecl | EvPI.

(** ** Rows *)

Abbreviation Span := (nat * nat)%type.
Record ClassExtension := MkExtension {
  ce_from : str;
  ce_from_span : Span;
  ce_to : str;
  ce_to_span : Span;
  ce_tag_span : Span;
  ce_active : option bool;
  ce_order : option Z;
  ce_duplicate : bool;
}.

Definition class_key (name : str) : str := to_ascii_lowercase (trim_backslashes name).

Definition valid_segment (segment : str) : bool :=
  negb (segment =s []) && forallb (λ byte, is_ascii_alphanumeric byte || (byte =c "_"%char)) segment
  && match segment with [] => false | byte :: _ => is_ascii_alphabetic byte || (byte =c "_"%char) end.
Definition valid_class_name (name : str) : bool :=
  let name := default name (strip_prefix [backslash] name) in
  negb (name =s []) && forallb valid_segment (split_char backslash name).

(** [str::parse::<i64>] *)
Definition parse_i64 (s : str) : option Z :=
  match s with
  | [] => None
  | c :: digits =>
      if c =c "-"%char then
        v ← match digits with [] => None | _ => parse_digits 0 digits end;
        if (v <=? I64_MAX + 1)%Z then Some (- v)%Z else None
      else
        v ← parse_usize s;
        if (v <=? I64_MAX)%Z then Some v else None
  end.

(** ** Spans of the attribute values in a tag *)

Definition is_quote (c : ascii) : bool := (c =c chr 39) || (c =c quote).
Definition tag_end_byte (c : ascii) : bool := (c =c "/"%char) || (c =c ">"%char).
Definition tag_name_byte (c : ascii) : bool := negb (is_ascii_whitespace c) && negb (tag_end_byte c).
Definition attribute_name_byte (c : ascii) : bool := tag_name_byte c && negb (c =c "="%char).

(** [while cursor < tag.len() && f(tag[cursor]) { cursor += 1 }] *)
Definition skip_bytes (f : ascii → bool) (tag : str) (cursor : nat) : nat :=
  cursor + length (take_while f (drop cursor tag)).

(** One turn of the loop over the attributes; every turn takes a byte. *)
Definition attribute_span (tag : str) (cursor : nat) : result (str * Span) :=
  let name_start := cursor in
  let cursor := skip_bytes attribute_name_byte tag cursor in
  _ ← ensure (name_start <? cursor) "invalid XML attribute name";
  let name := slice_of tag name_start cursor in
  _ ← ensure (utf8_valid name) "invalid utf-8 sequence";
  let cursor := skip_bytes is_ascii_whitespace tag cursor in
  _ ← ensure (bool_decide (tag !! cursor = Some "="%char)) "missing XML attribute equals";
  let cursor := skip_bytes is_ascii_whitespace tag (S cursor) in
  q ← or_err "missing XML attribute value" (tag !! cursor);
  _ ← ensure (is_quote q) "unquoted XML attribute";
  let value_start := S cursor in
  let cursor := skip_bytes (λ c, negb (c =c q)) tag value_start in
  _ ← ensure (cursor <? length tag) "unterminated XML attribute";
  Ok (name, (value_start, cursor)).
Fixpoint attribute_spans_from (fuel : nat) (tag : str) (cursor : nat) (spans : gmap str Span)
    : result (gmap str Span) :=
  let cursor := skip_bytes is_ascii_whitespace tag cursor in
  match tag !! cursor with
  | None => Ok spans
  | Some c =>
      if tag_end_byte c then Ok spans
      else match fuel with
           | O => Err "unreachable: an attribute without a byte"
           | S fuel =>
               '(name, (value_start, value_end)) ← attribute_span tag cursor;
               attribute_spans_from fuel tag (S value_end) (<[name := (value_start, value_end)]> spans)
           end
  end.
Definition attribute_value_spans (tag : str) : result (gmap str Span) :=
  _ ← ensure (bool_decide (head tag = Some "<"%char)) "invalid XML tag bytes";
  attribute_spans_from (length tag) tag (skip_bytes tag_name_byte tag 1) ∅.

(** The tag that ends at a position: from the last [<] before it. *)
Definition event_tag_span (source : str) (end_ : nat) : result Span :=
  _ ← ensure ((1 <? end_) && bool_decide (source !! (end_ - 1) = Some ">"%char)) "invalid XML event span";
  let back := length (take_while (λ c, negb (c =c "<"%char)) (reverse (take end_ source))) in
  _ ← ensure (back <? end_) "missing XML tag start";
  Ok (end_ - back - 1, end_).

(** ** One element *)

Definition known_attribute (key : str) : bool :=
  existsb (λ k, key =s lit k) ["from_class"; "to_class"; "active"; "execute_order"]%string.
Fixpoint attribute_values (attributes : list (result XmlAttribute)) (values : gmap str str)
    : result (gmap str str) :=
  match attributes with
  | [] => Ok values
  | attribute :: attributes =>
      a ← attribute;
      _ ← ensure (utf8_valid (xa_key a)) "invalid utf-8 sequence";
      if known_attribute (xa_key a) then
        value ← xa_value a;
        attribute_values attributes (<[xa_key a := value]> values)
      else attribute_values attributes values
  end.
Definition active_value (value : option str) : option bool :=
  match value with
  | None => None
  | Some value => if value =s lit "1" then Some true else if value =s lit "0" then Some false else None
  end.
Definition parse_extension_element (element : XmlElement) (source : str) (event_end : nat)
    : result ClassExtension :=
  tag_span ← event_tag_span source event_end;
  let raw_tag := slice_of source tag_span.1 tag_span.2 in
  spans ← attribute_value_spans raw_tag;
  values ← attribute_values (xe_attributes element) ∅;
  from_class ← or_err "missing from_class" (values !! lit "from_class");
  to_class ← or_err "missing to_class" (values !! lit "to_class");
  _ ← ensure (valid_class_name from_class && valid_class_name to_class) "invalid class name in extension metadata";
  from_offset ← or_err "missing from_class span" (spans !! lit "from_class");
  to_offset ← or_err "missing to_class span" (spans !! lit "to_class");
  let absolute := tag_span.1 in
  let at_ (offset : Span) := (absolute + offset.1, absolute + offset.2) in
  Ok (MkExtension from_class (at_ from_offset) to_class (at_ to_offset) tag_span
        (active_value (values !! lit "active")) (values !! lit "execute_order" ≫= parse_i64) false).

(** ** The document *)

Record XmlState := MkXmlState {
  xs_saw_root : bool;
  xs_root_closed : bool;
  xs_depth : nat;
  xs_extensions : list ClassExtension;
}.
Definition check_root (element : XmlElement) : result unit :=
  _ ← ensure (xe_name element =s lit "class_extensions") "unexpected class extension root";
  ensure (length (xe_attributes element) =? 0) "unexpected class extension root attributes".
Definition inside_root (st : XmlState) : bool :=
  xs_saw_root st && negb (xs_root_closed st) && (xs_depth st =? 1).

Definition event_step (source : str) (st : XmlState) (event : XmlEvent) (event_end : nat) : result XmlState :=
  match event with
  | EvStart element =>
      if negb (xs_saw_root st) && (xs_depth st =? 0) then
        _ ← check_root element;
        Ok (MkXmlState true (xs_root_closed st) 1 (xs_extensions st))
      else Err "class extension entries must be empty elements"
  | EvEmpty element =>
      if negb (xs_saw_root st) && (xs_depth st =? 0) then
        _ ← check_root element;
        Ok (MkXmlState true true (xs_depth st) (xs_extensions st))
      else
        _ ← ensure (inside_root st) "class extension outside root";
        _ ← ensure (xe_name element =s lit "extension") "unexpected class extension child";
        _ ← ensure (negb (length (xs_extensions st) =? MAX_METADATA_FACTS)) "class extension row limit exceeded";
        extension ← parse_extension_element element source event_end;
        Ok (MkXmlState (xs_saw_root st) (xs_root_closed st) (xs_depth st) (xs_extensions st ++ [extension]))
  | EvEnd name =>
      _ ← ensure (inside_root st) "unexpected class extension closing tag";
      _ ← ensure (name =s lit "class_extensions") "unexpected class extension closing tag";
      Ok (MkXmlState (xs_saw_root st) true 0 (xs_extensions st))
  | EvText text | EvCData text =>
      _ ← ensure (forallb is_ascii_whitespace text) "unexpected class extension text";
      Ok st
  | EvDocType | EvGeneralRef => Err "DTD/entity is not accepted in class extension XML"
  | EvComment | EvDecl | EvPI => Ok st
  end.
Fixpoint event_loop (source : str) (events : list (result (XmlEvent * nat))) (st : XmlState) : result XmlState :=
  match events with
  | [] => Ok st
  | event :: events =>
      '(event, event_end) ← event;
      st ← event_step source st event event_end;
      event_loop source events st
  end.

Definition row_key (extension : ClassExtension) : str * str :=
  (class_key (ce_from extension), class_key (ce_to extension)).
Definition occurrences_of (extensions : list ClassExtension) (key : str * str) : nat :=
  length (List.filter (λ e, bool_decide (row_key e = key)) extensions).
Definition mark_duplicate (extensions : list ClassExtension) (e : ClassExtension) : ClassExtension :=
  MkExtension (ce_from e) (ce_from_span e) (ce_to e) (ce_to_span e) (ce_tag_span e) (ce_active e) (ce_order e)
    (1 <? occurrences_of extensions (row_key e)).

Section Document.
Context (read_events : str → list (result (XmlEvent * nat))).
Definition parse_class_extensions (source : str) : result (list ClassExtension) :=
  _ ← ensure (length source <=? MAX_METADATA_SOURCE_BYTES) "class extension XML exceeds source limit";
  _ ← ensure (utf8_valid source) "class extension XML is not UTF-8";
  st ← event_loop source (read_events source) (MkXmlState false false 0 []);
  _ ← ensure (xs_saw_root st && xs_root_closed st) "incomplete class extension XML";
  Ok (mark_duplicate (xs_extensions st) <$> xs_extensions st).
End Document.

(** ** Spans are the quoted values *)

Lemma skip_bytes_le f tag cursor : cursor ≤ skip_bytes f tag cursor.
Proof. unfold skip_bytes. lia. Qed.
Lemma take_while_all {A} (f : A → bool) l : Forall (λ x, f x = true) (take_while f l).
Proof. induction l as [|x l IH]; cbn; [done|]. destruct (f x) eqn:E; by constructor. Qed.
Lemma take_while_stop {A} (f : A → bool) l x :
  l !! length (take_while f l) = Some x → f x = false.
Proof.
  induction l as [|y l IH]; cbn; [done|]. destruct (f y) eqn:E; cbn; [done|]. by intros [= <-].
Qed.
Lemma take_while_split {A} (f : A → bool) w rest :
  Forall (λ x, f x = true) w → (∀ x, head rest = Some x → f x = false) → take_while f (w ++ rest) = w.
Proof.
  induction 1 as [|x w Hx _ IH]; intros Hr; cbn; [|by rewrite Hx, IH].
  destruct rest as [|x rest]; [done|]. cbn. by rewrite (Hr x).
Qed.
Lemma take_while_prefix {A} (f : A → bool) l : take (length (take_while f l)) l = take_while f l.
Proof. rewrite <-(take_drop_while f l) at 2. apply take_app_length. Qed.

Lemma skip_bytes_stop f tag cursor x :
  tag !! skip_bytes f tag cursor = Some x → f x = false.
Proof.
  unfold skip_bytes. rewrite <-lookup_drop. apply take_while_stop.
Qed.

(** A span of a text between two equal quotes, without that quote inside. *)
Definition quoted (text : str) (span : Span) : Prop :=
  ∃ q, is_quote q = true ∧ 1 ≤ span.1 ≤ span.2 ∧ text !! (span.1 - 1) = Some q ∧ text !! span.2 = Some q ∧
       (q ∉ slice_of text span.1 span.2).

Lemma attribute_span_quoted tag cursor name span :
  attribute_span tag cursor = Ok (name, span) → quoted tag span ∧ cursor < span.2 < length tag.
Proof.
  unfold attribute_span. intros (u0 & Hn%ensure_Ok%Nat.ltb_lt & (u & _ & (u1 & _ & (q & Hq%or_err_Ok &
    (u2 & Hquote%ensure_Ok & (u3 & Hend%ensure_Ok & [= <- <-])%bind_Ok)%bind_Ok)%bind_Ok)%bind_Ok)%bind_Ok)%bind_Ok.
  revert Hq Hend. set (c3 := skip_bytes is_ascii_whitespace tag (S _)).
  assert (cursor < c3) as Hc3.
  { unfold c3. pose proof (skip_bytes_le is_ascii_whitespace tag (skip_bytes attribute_name_byte tag cursor)).
    pose proof (skip_bytes_le is_ascii_whitespace tag
      (S (skip_bytes is_ascii_whitespace tag (skip_bytes attribute_name_byte tag cursor)))). lia. }
  intros Hq Hend%Nat.ltb_lt. set (stop := λ c, negb (c =c q)) in *.
  pose proof (skip_bytes_le stop tag (S c3)) as Hle. split; [|cbn [fst snd]; lia].
  exists q. cbn [fst snd]. split_and!; [done|lia|done|by rewrite Nat.sub_succ, Nat.sub_0_r| |].
  - destruct (lookup_lt_is_Some_2 tag (skip_bytes stop tag (S c3)) Hend) as [x Hx]. rewrite Hx.
    apply skip_bytes_stop in Hx. unfold stop in Hx. apply negb_false_iff, bool_decide_eq_true in Hx. by subst.
  - unfold slice_of, skip_bytes.
    replace (S c3 + length (take_while stop (drop (S c3) tag)) - S c3)
      with (length (take_while stop (drop (S c3) tag))) by lia.
    rewrite take_while_prefix. pose proof (take_while_all stop (drop (S c3) tag)) as Hall.
    rewrite Forall_forall in Hall. intros Hin%Hall. unfold stop in Hin. by rewrite bool_decide_true in Hin.
Qed.

Lemma attribute_spans_from_quoted fuel tag cursor spans result :
  attribute_spans_from fuel tag cursor spans = Ok result →
  map_Forall (λ _ span, quoted tag span) spans → map_Forall (λ _ span, quoted tag span) result.
Proof.
  revert cursor spans. induction fuel as [|fuel IH]; intros cursor spans; cbn.
  all: destruct (tag !! _) as [c|]; [destruct (tag_end_byte c)|]; try (by intros [= <-]); try done.
  intros ([name [a b]] & Hs%attribute_span_quoted & H)%bind_Ok Hall.
  eapply IH; [exact H|]. by apply map_Forall_insert_2; [destruct Hs|].
Qed.
Lemma attribute_value_spans_quoted tag spans name span :
  attribute_value_spans tag = Ok spans → spans !! name = Some span → quoted tag span.
Proof.
  unfold attribute_value_spans. intros (u & _ & H)%bind_Ok Hn.
  eapply attribute_spans_from_quoted in H; [by eapply H|]. apply map_Forall_empty.
Qed.

(** The loop has fuel enough: every attribute takes a byte. *)
Lemma attribute_span_no_fuel tag cursor : attribute_span tag cursor ≠ Err "unreachable: an attribute without a byte".
Proof.
  unfold attribute_span, ensure, or_err, mbind, result_bind. repeat (case_match; simplify_eq/=); done.
Qed.
Lemma attribute_spans_total fuel tag cursor spans :
  length tag - cursor ≤ fuel →
  attribute_spans_from fuel tag cursor spans ≠ Err "unreachable: an attribute without a byte".
Proof.
  revert cursor spans. induction fuel as [|fuel IH]; intros cursor spans Hf; cbn.
  all: pose proof (skip_bytes_le is_ascii_whitespace tag cursor).
  all: destruct (tag !! _) as [c|] eqn:Hc; [apply lookup_lt_Some in Hc; destruct (tag_end_byte c)|]; try done.
  { lia. }
  pose proof (attribute_span_no_fuel tag (skip_bytes is_ascii_whitespace tag cursor)) as Hno.
  destruct (attribute_span tag _) as [[name [a b]]|] eqn:Hs; cbn; [|congruence].
  apply attribute_span_quoted in Hs as [_ Hb]. cbn in Hb. apply IH. lia.
Qed.

(** ** Rows are where they are declared *)

Definition extension_located (source : str) (e : ClassExtension) : Prop :=
  valid_class_name (ce_from e) = true ∧ valid_class_name (ce_to e) = true ∧
  source !! (ce_tag_span e).1 = Some "<"%char ∧ source !! ((ce_tag_span e).2 - 1) = Some ">"%char ∧
  (∀ span, span = ce_from_span e ∨ span = ce_to_span e →
     quoted source span ∧ (ce_tag_span e).1 < span.1 ∧ span.2 < (ce_tag_span e).2).

Lemma event_tag_span_Ok source end_ span :
  event_tag_span source end_ = Ok span →
  span.1 < end_ ∧ span.2 = end_ ∧ end_ ≤ length source ∧
  source !! span.1 = Some "<"%char ∧ source !! (end_ - 1) = Some ">"%char.
Proof.
  unfold event_tag_span. intros (u & He%ensure_Ok & (u2 & Hb%ensure_Ok & [= <-])%bind_Ok)%bind_Ok.
  apply andb_prop in He as [He%Nat.ltb_lt Hgt%bool_decide_eq_true].
  apply lookup_lt_Some in Hgt as Hlt. cbn. split_and!; [lia|done|lia| |done].
  set (l := reverse (take end_ source)) in *. set (f := λ c, negb (c =c "<"%char)) in *.
  assert (length l = end_) as Hl by (unfold l; rewrite length_reverse, length_take; lia).
  apply Nat.ltb_lt in Hb.
  destruct (lookup_lt_is_Some_2 l (length (take_while f l)) ltac:(lia)) as [x Hx].
  pose proof (take_while_stop f l x Hx) as Hf. unfold f in Hf.
  apply negb_false_iff, bool_decide_eq_true in Hf as ->.
  assert (reverse (take end_ source) !! length (take_while f l) = Some "<"%char) as Hx' by exact Hx.
  rewrite reverse_lookup in Hx' by (rewrite length_take; lia).
  rewrite length_take, Nat.min_l, lookup_take_lt in Hx' by lia. rewrite <-Hx'. f_equal. lia.
Qed.

Lemma lookup_slice source a b i : b ≤ length source → i < b - a → slice_of source a b !! i = source !! (a + i).
Proof. intros Hb Hi. unfold slice_of. by rewrite lookup_take_lt, lookup_drop by lia. Qed.
Lemma slice_slice source a b i j : j ≤ b - a → slice_of (slice_of source a b) i j = slice_of source (a + i) (a + j).
Proof.
  intros Hj. unfold slice_of. rewrite skipn_firstn_comm, drop_drop, take_take. f_equal; lia.
Qed.

Lemma quoted_in_tag source a b span :
  b ≤ length source → quoted (slice_of source a b) span →
  quoted source (a + span.1, a + span.2) ∧ a < a + span.1 ∧ a + span.2 < b.
Proof.
  intros Hb (q & Hq & H1 & Ha & Hz & Hin). apply lookup_lt_Some in Hz as Hlt. unfold slice_of in Hlt at 1.
  rewrite length_take, length_drop in Hlt. rewrite lookup_slice in Ha, Hz by lia.
  split; [|lia]. exists q. cbn [fst snd]. split_and!; [done|lia|lia|by replace (a + span.1 - 1) with (a + (span.1 - 1)) by lia|done|].
  rewrite slice_slice in Hin by lia. done.
Qed.

Lemma parse_extension_element_located element source event_end e :
  parse_extension_element element source event_end = Ok e → extension_located source e.
Proof.
  unfold parse_extension_element.
  intros (tag & Ht%event_tag_span_Ok & (spans & Hs & (values & _ & (from & _ & (to & _ & (u & Hv%ensure_Ok &
    (fo & Hfo%or_err_Ok & (to_ & Hto%or_err_Ok & [= <-])%bind_Ok)%bind_Ok)%bind_Ok)%bind_Ok)%bind_Ok)%bind_Ok)%bind_Ok)%bind_Ok.
  apply andb_prop in Hv as [Hf Hto']. destruct Ht as (Hlt & Hend & Hlen & Hopen & Hclose).
  unfold extension_located. cbn. rewrite Hend in *. split_and!; [done..|].
  pose proof (attribute_value_spans_quoted _ _ _ _ Hs Hfo) as Hq1.
  pose proof (attribute_value_spans_quoted _ _ _ _ Hs Hto) as Hq2.
  intros span [-> | ->]; by apply quoted_in_tag.
Qed.

Lemma event_step_located source st event event_end st' :
  event_step source st event event_end = Ok st' →
  Forall (extension_located source) (xs_extensions st) ∧ length (xs_extensions st) ≤ MAX_METADATA_FACTS →
  Forall (extension_located source) (xs_extensions st') ∧ length (xs_extensions st') ≤ MAX_METADATA_FACTS.
Proof.
  intros H Hst. destruct event as [el|el|name|text|text| | | | |]; cbn in H; try done; try (by simplify_eq).
  - destruct (_ && _); [|done]. by apply bind_Ok in H as (u & _ & [= <-]).
  - destruct (_ && _); [by apply bind_Ok in H as (u & _ & [= <-])|].
    apply bind_Ok in H as (u1 & _ & (u2 & _ & (u3 & Hl%ensure_Ok & (e & He & [= <-])%bind_Ok)%bind_Ok)%bind_Ok).
    destruct Hst as [Hf Hlen]. apply negb_true_iff, Nat.eqb_neq in Hl. split; cbn.
    + apply Forall_app. split; [done|]. repeat constructor; by eapply parse_extension_element_located.
    + rewrite length_app. cbn. lia.
  - by apply bind_Ok in H as (u1 & _ & (u2 & _ & [= <-])%bind_Ok).
  - by apply bind_Ok in H as (u & _ & [= <-]).
  - by apply bind_Ok in H as (u & _ & [= <-]).
Qed.
Lemma event_loop_located source events st st' :
  event_loop source events st = Ok st' →
  Forall (extension_located source) (xs_extensions st) ∧ length (xs_extensions st) ≤ MAX_METADATA_FACTS →
  Forall (extension_located source) (xs_extensions st') ∧ length (xs_extensions st') ≤ MAX_METADATA_FACTS.
Proof.
  revert st. induction events as [|event events IH]; intros st; cbn; [by intros [= <-]|].
  intros ([ev end_] & _ & (st1 & H1 & H)%bind_Ok)%bind_Ok Hst. eapply IH; [done|]. by eapply event_step_located.
Qed.

Lemma occurrences_marked all l key :
  occurrences_of (mark_duplicate all <$> l) key = occurrences_of l key.
Proof.
  unfold occurrences_of. induction l as [|x l IH]; [done|]. rewrite fmap_cons. cbn [List.filter].
  change (row_key (mark_duplicate all x)) with (row_key x). destruct (bool_decide _); cbn [length]; by rewrite IH.
Qed.

(** What a [class_extensions.xml] is read as: every row has two valid class names,
    its tag is the bytes from a [<] to a [>] of the source, the spans of both
    names lie inside the tag between two equal quotes with no such quote
    within, there are at most 200,000 rows, and a row is marked a duplicate
    exactly when another row extends the same class by the same class, up to
    case and leading backslashes. *)
Theorem extensions_located (read_events : str → list (result (XmlEvent * nat))) (source : str)
    (extensions : list ClassExtension) :
  parse_class_extensions read_events source = Ok extensions →
  Forall (extension_located source) extensions ∧ length extensions ≤ MAX_METADATA_FACTS ∧
  Forall (λ e, ce_duplicate e = (1 <? occurrences_of extensions (row_key e))) extensions.
Proof.
  unfold parse_class_extensions.
  intros (u1 & _ & (u2 & _ & (st & H & (u3 & _ & [= <-])%bind_Ok)%bind_Ok)%bind_Ok)%bind_Ok.
  apply event_loop_located in H as [Hf Hl]; [|split; [constructor|cbn; lia]].
  split_and!; [|by rewrite length_fmap|].
  - apply Forall_fmap. eapply Forall_impl; [exact Hf|]. intros e He. exact He.
  - apply Forall_fmap, Forall_forall. intros e _. cbn.
    by rewrite occurrences_marked.
Qed.

(** ** Tags are read as they are written *)

Record TagAttribute := MkTagAttribute {
  ta_pad : str;
  ta_name : str;
  ta_before : str;
  ta_after : str;
  ta_quote : ascii;
  ta_value : str;
}.
Definition all_bytes (f : ascii → bool) (s : str) : Prop := Forall (λ c, f c = true) s.
Definition well_formed_attribute (a : TagAttribute) : Prop :=
  all_bytes is_ascii_whitespace (ta_pad a) ∧ ta_pad a ≠ [] ∧
  all_bytes attribute_name_byte (ta_name a) ∧ ta_name a ≠ [] ∧ utf8_valid (ta_name a) = true ∧
  all_bytes is_ascii_whitespace (ta_before a) ∧ all_bytes is_ascii_whitespace (ta_after a) ∧
  is_quote (ta_quote a) = true ∧ all_bytes (λ c, negb (c =c ta_quote a)) (ta_value a).
Definition render_attribute (a : TagAttribute) : str :=
  ta_pad a ++ ta_name a ++ ta_before a ++ ["="%char] ++ ta_after a ++ [ta_quote a] ++ ta_value a ++ [ta_quote a].
Definition value_offset (a : TagAttribute) : nat :=
  length (ta_pad a) + length (ta_name a) + length (ta_before a) + 1 + length (ta_after a) + 1.
(** The spans of the attributes of a tag whose text is at a position. *)
Fixpoint rendered_spans (position : nat) (attributes : list TagAttribute) (spans : gmap str Span) : gmap str Span :=
  match attributes with
  | [] => spans
  | a :: attributes =>
      let start := position + value_offset a in
      rendered_spans (start + length (ta_value a) + 1) attributes
        (<[ta_name a := (start, start + length (ta_value a))]> spans)
  end.

Lemma skip_bytes_at f tag pre w rest cursor :
  tag = pre ++ w ++ rest → cursor = length pre → all_bytes f w → (∀ x, head rest = Some x → f x = false) →
  skip_bytes f tag cursor = cursor + length w.
Proof. intros -> -> Hw Hr. unfold skip_bytes. by rewrite drop_app_length, take_while_split. Qed.
Lemma byte_at (tag pre : str) c rest cursor : tag = pre ++ c :: rest → cursor = length pre → tag !! cursor = Some c.
Proof. intros -> ->. apply lookup_split. Qed.
Lemma head_stops f (w rest : str) c :
  all_bytes (λ x, negb (f x)) w → f c = false → ∀ x, head (w ++ c :: rest) = Some x → f x = false.
Proof.
  intros Hw Hc x. destruct w as [|d w]; cbn; [by intros [= <-]|]. intros [= <-].
  inversion Hw as [|? ? Hd]; subst. by apply negb_true_iff.
Qed.
Lemma all_bytes_mono (f g : ascii → bool) s : (∀ c, f c = true → g c = true) → all_bytes f s → all_bytes g s.
Proof. intros Hfg H. eapply Forall_impl; [exact H|]. intros c. apply Hfg. Qed.

Lemma white_no_name c : is_ascii_whitespace c = true → negb (attribute_name_byte c) = true.
Proof. by_byte c. Qed.
Lemma quote_no_white c : is_quote c = true → is_ascii_whitespace c = false.
Proof. by_byte c. Qed.
Lemma name_no_white c : attribute_name_byte c = true → is_ascii_whitespace c = false ∧ tag_end_byte c = false.
Proof. by_byte c. Qed.

(** Both sides are the same concatenation. *)
Ltac by_assoc := repeat (progress (rewrite <-?app_assoc; cbn [app])); done.
Lemma attribute_span_exact pre a rest :
  well_formed_attribute a →
  attribute_span (pre ++ render_attribute a ++ rest) (length pre + length (ta_pad a)) =
  Ok (ta_name a, (length pre + value_offset a, length pre + value_offset a + length (ta_value a))).
Proof.
  intros (Hpad & _ & Hname & Hne & Hu & Hb & Ha & Hq & Hv). destruct a as [pad name before after q value].
  unfold render_attribute, value_offset. cbn [ta_pad ta_name ta_before ta_after ta_quote ta_value] in *.
  set (tag := pre ++ _). set (c0 := length pre + length pad).
  assert (skip_bytes attribute_name_byte tag c0 = c0 + length name) as E1.
  { eapply (skip_bytes_at _ _ (pre ++ pad) name (before ++ "="%char :: after ++ q :: value ++ q :: rest));
      [unfold tag; by_assoc|by rewrite length_app|done|].
    apply head_stops; [|reflexivity]. eapply all_bytes_mono; [|exact Hb]. apply white_no_name. }
  assert (skip_bytes is_ascii_whitespace tag (c0 + length name) = c0 + length name + length before) as E2.
  { eapply (skip_bytes_at _ _ (pre ++ pad ++ name) before ("="%char :: after ++ q :: value ++ q :: rest));
      [unfold tag; by_assoc|unfold c0; rewrite !length_app; lia|done|by intros x [= <-]]. }
  assert (tag !! (c0 + length name + length before) = Some "="%char) as E3.
  { eapply (byte_at _ (pre ++ pad ++ name ++ before) _ (after ++ q :: value ++ q :: rest));
      [unfold tag; by_assoc|unfold c0; rewrite !length_app; lia]. }
  set (c1 := S (c0 + length name + length before)).
  assert (skip_bytes is_ascii_whitespace tag c1 = c1 + length after) as E4.
  { eapply (skip_bytes_at _ _ (pre ++ pad ++ name ++ before ++ ["="%char]) after (q :: value ++ q :: rest));
      [unfold tag; by_assoc|unfold c1, c0; rewrite !length_app; cbn; lia|done|].
    intros x [= <-]. by apply quote_no_white. }
  assert (tag !! (c1 + length after) = Some q) as E5.
  { eapply (byte_at _ (pre ++ pad ++ name ++ before ++ ["="%char] ++ after) _ (value ++ q :: rest));
      [unfold tag; by_assoc|unfold c1, c0; rewrite !length_app; cbn; lia]. }
  set (c2 := S (c1 + length after)).
  assert (skip_bytes (λ c, negb (c =c q)) tag c2 = c2 + length value) as E6.
  { eapply (skip_bytes_at _ _ (pre ++ pad ++ name ++ before ++ ["="%char] ++ after ++ [q]) value (q :: rest));
      [unfold tag; by_assoc|unfold c2, c1, c0; rewrite !length_app; cbn; lia|done|].
    intros x [= <-]. by rewrite bool_decide_true. }
  assert (c2 + length value < length tag) as E7.
  { unfold tag, c2, c1, c0. repeat (progress (rewrite ?length_app; cbn [length app])). lia. }
  assert (slice_of tag c0 (c0 + length name) = name) as E8.
  { unfold slice_of, tag, c0. rewrite Nat.add_comm, Nat.add_sub.
    rewrite <-length_app, <-!app_assoc, (app_assoc pre pad), drop_app_length. apply take_app_length. }
  assert (0 < length name) as E9 by (destruct name; [done|cbn; lia]).
  unfold attribute_span. rewrite E1, E8, Hu, E2, E3, bool_decide_true by done.
  rewrite (proj2 (Nat.ltb_lt _ _)) by lia. cbn [ensure mbind result_bind].
  fold c1. rewrite E4, E5. cbn [or_err mbind result_bind]. rewrite Hq. cbn [ensure mbind result_bind].
  fold c2. rewrite E6, (proj2 (Nat.ltb_lt _ _)) by done. cbn [ensure mbind result_bind].
  do 2 f_equal. unfold c2, c1, c0. f_equal; lia.
Qed.

Lemma render_length a : length (render_attribute a) = value_offset a + length (ta_value a) + 1.
Proof. unfold render_attribute, value_offset. rewrite !length_app. cbn. lia. Qed.

Lemma attribute_spans_exact_from attributes : Forall well_formed_attribute attributes →
  ∀ pre pad close fuel spans,
  all_bytes is_ascii_whitespace pad → (∃ c rest, close = c :: rest ∧ tag_end_byte c = true) →
  length attributes ≤ fuel →
  attribute_spans_from fuel (pre ++ (attributes ≫= render_attribute) ++ pad ++ close) (length pre) spans =
  Ok (rendered_spans (length pre) attributes spans).
Proof.
  induction 1 as [|a attributes Ha Has IH]; intros pre pad close fuel spans Hpad (c & rest & -> & Hc) Hf.
  { cbn [mbind list_bind app rendered_spans]. set (tag := pre ++ pad ++ c :: rest).
    assert (skip_bytes is_ascii_whitespace tag (length pre) = length pre + length pad) as E1.
    { eapply (skip_bytes_at _ _ pre pad (c :: rest)); [done..|]. intros x [= <-]. clear -Hc. revert Hc. by_byte c. }
    assert (tag !! (length pre + length pad) = Some c) as E2.
    { eapply (byte_at _ (pre ++ pad) _ rest); [unfold tag; by_assoc|by rewrite length_app]. }
    destruct fuel; cbn [attribute_spans_from]; by rewrite E1, E2, Hc. }
  destruct fuel as [|fuel]; [cbn in Hf; lia|]. cbn [attribute_spans_from].
  rewrite bind_cons, <-app_assoc. set (rest' := (attributes ≫= render_attribute) ++ pad ++ c :: rest).
  pose proof Ha as (Hp & Hpne & Hn & Hnne & _).
  destruct (ta_name a) as [|n name] eqn:En; [done|].
  assert (is_ascii_whitespace n = false ∧ tag_end_byte n = false) as [Hw He].
  { apply name_no_white. by inversion Hn. }
  assert (skip_bytes is_ascii_whitespace (pre ++ render_attribute a ++ rest') (length pre) =
          length pre + length (ta_pad a)) as E1.
  { eapply (skip_bytes_at _ _ pre (ta_pad a)); [unfold render_attribute; rewrite En; by_assoc|done|done|].
    by intros x [= <-]. }
  assert ((pre ++ render_attribute a ++ rest') !! (length pre + length (ta_pad a)) = Some n) as E2.
  { eapply (byte_at _ (pre ++ ta_pad a)); [unfold render_attribute; rewrite En; by_assoc|by rewrite length_app]. }
  rewrite E1, E2, He, attribute_span_exact by done. cbn [mbind result_bind].
  assert (pre ++ render_attribute a ++ rest' = (pre ++ render_attribute a) ++ rest') as -> by by_assoc.
  assert (S (length pre + value_offset a + length (ta_value a)) = length (pre ++ render_attribute a)) as ->.
  { rewrite length_app, render_length. lia. }
  unfold rest'. rewrite IH; [|done|by exists c, rest|cbn in Hf; lia].
  cbn [rendered_spans]. f_equal. f_equal. rewrite length_app, render_length. lia.
Qed.

Lemma render_nonempty attributes : Forall well_formed_attribute attributes →
  length attributes ≤ length (attributes ≫= render_attribute).
Proof.
  induction 1 as [|a attributes Ha _ IH]; [done|]. rewrite bind_cons, length_app, render_length. cbn. lia.
Qed.

Lemma element_ends attributes pad close x :
  Forall well_formed_attribute attributes → all_bytes is_ascii_whitespace pad →
  (∃ c rest, close = c :: rest ∧ tag_end_byte c = true) →
  head ((attributes ≫= render_attribute) ++ pad ++ close) = Some x → tag_name_byte x = false.
Proof.
  assert (is_ascii_whitespace x = true → tag_name_byte x = false) as Hwhite.
  { unfold tag_name_byte. by intros ->. }
  intros Ha Hp (c & rest & -> & Hc) Hx. destruct attributes as [|a attributes].
  - destruct pad as [|p pad]; injection Hx as <-.
    + unfold tag_name_byte. by rewrite Hc, andb_false_r.
    + apply Hwhite. by inversion Hp.
  - inversion Ha as [|? ? (Hw & Hne & _) _]; subst. rewrite bind_cons in Hx. unfold render_attribute in Hx.
    destruct (ta_pad a) as [|p ps]; [done|]. injection Hx as <-. apply Hwhite. by inversion Hw.
Qed.

(** The spans of a tag are exactly those of its attribute values: for any tag
    written as an element name, attributes with any white space around their
    names and equals signs and values in either quotes, and the end of the tag,
    each name is given the span of the value it has last in the tag. *)
Theorem attribute_spans_exact (element : str) (attributes : list TagAttribute) (pad close : str) :
  all_bytes tag_name_byte element → Forall well_formed_attribute attributes →
  all_bytes is_ascii_whitespace pad → (∃ c rest, close = c :: rest ∧ tag_end_byte c = true) →
  attribute_value_spans (["<"%char] ++ element ++ (attributes ≫= render_attribute) ++ pad ++ close) =
  Ok (rendered_spans (1 + length element) attributes ∅).
Proof.
  intros He Ha Hp Hc. unfold attribute_value_spans. cbn [app head].
  rewrite bool_decide_true by done. cbn [ensure mbind result_bind].
  change ("<"%char :: element ++ (attributes ≫= render_attribute) ++ pad ++ close)
    with (["<"%char] ++ element ++ (attributes ≫= render_attribute) ++ pad ++ close).
  rewrite (skip_bytes_at _ _ ["<"%char] element ((attributes ≫= render_attribute) ++ pad ++ close) 1);
    [|done|done|done|intros x; by apply element_ends].
  assert (["<"%char] ++ element ++ (attributes ≫= render_attribute) ++ pad ++ close =
          (["<"%char] ++ element) ++ (attributes ≫= render_attribute) ++ pad ++ close) as -> by by_assoc.
  assert (1 + length element = length (["<"%char] ++ element)) as -> by done.
  apply attribute_spans_exact_from; try done.
  rewrite !length_app. pose proof (render_nonempty attributes Ha). lia.
Qed.

Module ExtensionsExample.

(** Text with its apostrophes as double quotes, and a document of two rows. *)
Definition xml (s : string) : str := (λ c, if c =c chr 39 then quote else c) <$> lit s.
Definition attribute (name value : string) : TagAttribute :=
  MkTagAttribute [" "%char] (lit name) [] [] quote (lit value).
Definition row : str :=
  xml "<extension from_class='XF\Entity\User' to_class='Vendor\Entity\User' active='1' execute_order='10'/>".
Definition source : str := lit "<class_extensions>" ++ row ++ row ++ lit "</class_extensions>".
Definition element : XmlElement :=
  MkElement (lit "extension")
    [Ok (MkAttribute (lit "from_class") (Ok (lit "XF\Entity\User")));
     Ok (MkAttribute (lit "to_class") (Ok (lit "Vendor\Entity\User")));
     Ok (MkAttribute (lit "active") (Ok (lit "1"))); Ok (MkAttribute (lit "execute_order") (Ok (lit "10")))].
Definition read_events (_ : str) : list (result (XmlEvent * nat)) :=
  [Ok (EvStart (MkElement (lit "class_extensions") []), 18);
   Ok (EvEmpty element, 18 + length row); Ok (EvEmpty element, 18 + 2 * length row);
   Ok (EvEnd (lit "class_extensions"), length source)].
Definition rows : list ClassExtension :=
  (λ start, MkExtension (lit "XF\Entity\User") (start + 23, start + 37) (lit "Vendor\Entity\User")
     (start + 49, start + 67) (start, start + length row) (Some true) (Some 10%Z) true) <$> [18; 18 + length row].

Lemma extensions_located_witness : Forall (extension_located source) rows.
Proof. apply (extensions_located read_events source). vm_compute. reflexivity. Defined.

Lemma attribute_spans_exact_witness :
  attribute_value_spans (xml "<extension active='0' active='1'/>") =
  Ok (<[lit "active" := (30, 31)]> (<[lit "active" := (19, 20)]> ∅)).
Proof.
  apply (attribute_spans_exact (lit "extension") [attribute "active" "0"; attribute "active" "1"] [] (lit "/>")).
  - by repeat constructor.
  - repeat constructor; done.
  - constructor.
  - by exists "/"%char, [">"%char].
Defined.
End ExtensionsExample.
