(* ===== verification/ChainFacts.v ===== *)
(** * Facts of an extension chain

    Models [src/src/store/php_resolver/xenforo/chain_adapter.rs] with
    [chain_adapter/proxy_validation.rs] and [chain_adapter/chain_facts.rs]: what a
    chain of registrations publishes for one base class, as predecessor edges,
    updates of placeholders, edges of the hierarchy and issues. *)
From Stdlib Require Import Ascii String ZArith Lia Sorted.
From stdpp Require Import base numbers list gmap strings.
From S2P Require Import Prelude Order Text Collections Chains Hierarchy Manifest Extensions.

(** [MAX_CANDIDATES] of [xenforo.rs] *)
Definition MAX_XF_CANDIDATES : nat := 64.

(** ** Data *)

Record ExtensionFile := MkExtensionFile {
  ef_file : Z;
  ef_addon : str;
  ef_directory : str;
  ef_extensions : list ClassExtension;
}.

Record PreparedParentEdge := MkParentEdge {
  pe_child : Z;
  pe_predecessor : Z;
  pe_file : Z;
  pe_span : Span;
  pe_provenance : str;
}.
Record PreparedPlaceholderUpdate := MkPlaceholder {
  pu_occurrence : Z;
  pu_file : Z;
  pu_span : Span;
  pu_targets : list Z;
  pu_provenance : str;
}.
Record PreparedClassOccurrenceUpdate := MkClassOccurrence {
  co_file : Z;
  co_span : Span;
  co_role : str;
  co_name : str;
  co_classes : list Z;
  co_tag_span : Span;
  co_provenance : str;
}.
(** [extension_definition_id] is never set by the adapter. *)
Record PreparedChainIssue := MkChainIssue {
  ci_child : option Z;
  ci_extension : option Z;
  ci_file : Z;
  ci_span : Span;
  ci_provenance : str;
}.
Record PreparedChainProjection := MkPrepared {
  pc_parent_edges : list PreparedParentEdge;
  pc_placeholders : list PreparedPlaceholderUpdate;
  pc_class_occurrences : list PreparedClassOccurrenceUpdate;
  pc_hierarchy_edges : list PhpParentCandidate;
  pc_issues : list PreparedChainIssue;
}.
Definition empty_projection : PreparedChainProjection := MkPrepared [] [] [] [] [].

Record PendingRow := MkPending {
  pr_file : ExtensionFile;
  pr_index : nat;
  pr_extension : ClassExtension;
  pr_base : option str;
  pr_implementation : option str;
  pr_proxy : str;
  pr_issues : list str;
}.
Record RegistrationEvidence := MkEvidence {
  re_file : Z;
  re_row : nat;
  re_tag_span : Span;
  re_base : str;
  re_implementation : str;
  re_raw_lookup : str;
  re_lookup : str;
  re_proxy : str;
  re_priority : Z;
}.
Record ImplementationClass := MkImplementation {
  ic_id : Z;
  ic_file : Z;
  ic_kind : PhpClassKind;
  ic_role : PhpClassRole;
  ic_complete : bool;
  ic_conditional : bool;
  ic_parent : option PhpParentCandidate;
  ic_occurrence : option (Z * Span);
  ic_matches : bool;
}.
Record ImplementationLookup := MkImplLookup { il_classes : list ImplementationClass; il_truncated : bool }.
Record ClassTarget := MkTarget {
  ct_id : Z;
  ct_kind : PhpClassKind;
  ct_role : PhpClassRole;
  ct_complete : bool;
  ct_conditional : bool;
}.
Abbreviation ImplementationCache := (gmap (str * str * str) ImplementationLookup).
Abbreviation BaseCache := (gmap str (list ClassTarget * bool)).

(** ** [proxy_validation.rs] *)

Definition expected_proxy_name (raw_to_class : str) : result str :=
  let raw_to_class := trim_backslashes raw_to_class in
  let '(namespace, leaf) :=
    match rsplit_once backslash raw_to_class with
    | Some (namespace, leaf) => (Some namespace, leaf)
    | None => (None, raw_to_class)
    end in
  _ ← ensure (negb (leaf =s [])) "empty XFCP implementation class leaf";
  Ok (match namespace with
      | Some ((_ :: _) as namespace) => namespace ++ [backslash] ++ lit "XFCP_" ++ leaf
      | _ => lit "XFCP_" ++ leaf
      end).

Definition parent_names (parent : PhpParentCandidate) (proxy : str) : bool :=
  match pp_resolved parent with Some name => class_key name =s class_key proxy | None => false end.
Definition when (b : bool) (reason : string) : list str := if b then [lit reason] else [].
Definition proxy_readiness_issues (implementation : ImplementationClass) (expected_proxy : str) : list str :=
  when (negb (bool_decide (ic_kind implementation = CkClass))) "implementation_not_class" ++
  when (negb (bool_decide (ic_role implementation = CrOrdinary))) "implementation_not_ordinary_class" ++
  when (negb (ic_complete implementation)) "implementation_class_incomplete" ++
  when (ic_conditional implementation) "implementation_class_conditional" ++
  match ic_parent implementation with
  | None => [lit "expected_proxy_parent_missing_or_ambiguous"]
  | Some parent =>
      when (negb (parent_names parent expected_proxy)) "declared_proxy_parent_mismatch" ++
      (if pp_conditional parent || bool_decide (pp_status parent = PsConditional)
       then [lit "proxy_parent_conditional"]
       else when (bool_decide (pp_status parent = PsIncomplete ∨ pp_status parent = PsUnsupported))
              "proxy_parent_incomplete")
  end ++
  when (ic_matches implementation && bool_decide (ic_occurrence implementation = None))
    "proxy_type_occurrence_missing".
Definition join_reasons (reasons : list str) : str := join (lit ",") (sort_dedup str_compare reasons).

(** ** Provenance *)

Definition show_option {A} (f : A → str) (o : option A) : str :=
  match o with Some a => f a | None => lit "unknown" end.
Definition show_active (active : bool) : str := if active then lit "1" else lit "0".
Definition registration_provenance (e : RegistrationEvidence) : str :=
  lit "xenforo_class_extensions_xml;active=1;execute_order=" ++ show_i64 (re_priority e) ++
  lit ";addon_enabled=unknown;source_assumption=registration_and_addon_applicable_enabled;runtime_order_unverified;row_file_id=" ++
  show_i64 (re_file e) ++ lit ";row_index=" ++ show_nat (re_row e) ++ lit ";base=" ++ re_base e ++
  lit ";implementation=" ++ re_implementation e.
Definition issue_provenance (pending : PendingRow) (reason : str) : str :=
  lit "active=" ++ show_option show_active (ce_active (pr_extension pending)) ++
  lit ";execute_order=" ++ show_option show_i64 (ce_order (pr_extension pending)) ++
  lit ";addon_enabled=unknown;source_assumption=registration_and_addon_applicable_enabled;reason=" ++ reason.
Definition edge_provenance (child : RegistrationEvidence) (predecessor : option RegistrationEvidence)
    (tie_priority : option Z) : str :=
  registration_provenance child ++
  match predecessor with
  | Some p => lit ";predecessor_order=" ++ show_i64 (re_priority p) ++
              lit ";predecessor_to_class=" ++ re_implementation p
  | None => lit ";predecessor=declared_base"
  end ++
  match tie_priority with Some priority => lit ";priority_tie=" ++ show_i64 priority | None => [] end.
Definition incomplete (e : RegistrationEvidence) (reason : str) : str :=
  registration_provenance e ++ lit ";incomplete=" ++ reason.

(** ** Parts of a projection *)

Definition implementation_cache_key (e : RegistrationEvidence) : str * str * str :=
  (re_raw_lookup e, re_lookup e, class_key (re_proxy e)).

(** What is pushed to each part; a projection grows by concatenation. *)
Definition append_projection (a b : PreparedChainProjection) : PreparedChainProjection :=
  MkPrepared (pc_parent_edges a ++ pc_parent_edges b) (pc_placeholders a ++ pc_placeholders b)
    (pc_class_occurrences a ++ pc_class_occurrences b) (pc_hierarchy_edges a ++ pc_hierarchy_edges b)
    (pc_issues a ++ pc_issues b).
Definition projection_of_edge (e : PreparedParentEdge) : PreparedChainProjection := MkPrepared [e] [] [] [] [].
Definition projection_of_update (u : PreparedPlaceholderUpdate) : PreparedChainProjection :=
  MkPrepared [] [u] [] [] [].
Definition projection_of_hierarchy (p : PhpParentCandidate) : PreparedChainProjection := MkPrepared [] [] [] [p] [].
Definition projection_of_issue (i : PreparedChainIssue) : PreparedChainProjection := MkPrepared [] [] [] [] [i].

Definition push_issue_row (child : option Z) (pending : PendingRow) (provenance : str) : PreparedChainProjection :=
  projection_of_issue (MkChainIssue child None (ef_file (pr_file pending)) (ce_tag_span (pr_extension pending))
    (lit "xenforo_class_extensions_xml;incomplete;" ++ provenance)).
Definition push_registration_issue (child : option Z) (e : RegistrationEvidence) (provenance : str)
    : PreparedChainProjection :=
  projection_of_issue (MkChainIssue child None (re_file e) (re_tag_span e) (provenance ++ lit ";incomplete")).

Definition updated_proxy_parent (implementation : ImplementationClass) (expected_proxy : str) (ids : list Z)
    (status : PhpParentStatus) (priority : Z) (tie_priority : option Z) : PhpParentCandidate :=
  let parent := default (MkParentCandidate (ic_id implementation) expected_proxy None None 0 0 PkXfcpProxy []
                           PsIncomplete false None None) (ic_parent implementation) in
  MkParentCandidate (pp_child parent) (pp_declared parent) (pp_resolved parent) (pp_canonical parent)
    (pp_start parent) (pp_end parent) PkXfcpProxy ids status (pp_conditional parent)
    (Some priority) tie_priority.
Definition or_conditional (parent : PhpParentCandidate) (b : bool) : PhpParentCandidate :=
  MkParentCandidate (pp_child parent) (pp_declared parent) (pp_resolved parent) (pp_canonical parent)
    (pp_start parent) (pp_end parent) (pp_kind parent) (pp_ids parent) (pp_status parent)
    (pp_conditional parent || b) (pp_order parent) (pp_tie parent).
(** The update of the placeholder of a class that declares its proxy. *)
Definition placeholder_of (implementation : ImplementationClass) (ids : list Z) (provenance : str)
    : PreparedChainProjection :=
  match ic_matches implementation, ic_occurrence implementation with
  | true, Some (occurrence, span) =>
      projection_of_update (MkPlaceholder occurrence (ic_file implementation) span ids provenance)
  | _, _ => empty_projection
  end.

Definition add_incomplete_proxy_edge (implementation : ImplementationClass) (pending : PendingRow) (reason : str)
    (ids : list Z) (tie_priority : option Z) : PreparedChainProjection :=
  append_projection
    (projection_of_hierarchy
       (or_conditional
          (updated_proxy_parent implementation (pr_proxy pending) ids PsIncomplete
             (default 0%Z (ce_order (pr_extension pending))) tie_priority)
          (ic_conditional implementation)))
  (append_projection
    (placeholder_of implementation ids
       (lit "xenforo_generated_placeholder;" ++ issue_provenance pending reason ++ lit ";incomplete"))
    (push_issue_row (Some (ic_id implementation)) pending (issue_provenance pending reason))).
Definition add_incomplete_registration (implementation : ImplementationClass) (e : RegistrationEvidence)
    (reason : str) (tie_priority : option Z) : PreparedChainProjection :=
  append_projection
    (projection_of_hierarchy
       (updated_proxy_parent implementation (re_proxy e) [] PsIncomplete (re_priority e) tie_priority))
  (append_projection
    (placeholder_of implementation []
       (lit "xenforo_generated_placeholder;" ++ reason ++ lit ";runtime_order_unverified"))
    (push_registration_issue (Some (ic_id implementation)) e reason)).

(** ** The graph of one base *)

Record ChildProjection := MkChild {
  ch_targets : list Z;
  ch_incomplete : bool;
  ch_conditional : bool;
  ch_tie : option Z;
}.
Definition no_child : ChildProjection := MkChild [] false false None.

Definition or_else {A} (a b : option A) : option A := match a with Some _ => a | None => b end.

(** The state of the loop over the edges. *)
Record EdgeState := MkEdgeState {
  es_children : gmap Z ChildProjection;
  es_edges : gset (Z * Z * Z * nat * nat);
  es_issues : gset (Z * nat * nat * str);
  es_prepared : PreparedChainProjection;
}.

Section Graph.
Context (registrations : list (Registration RegistrationEvidence))
        (implementation_cache : ImplementationCache) (base_cache : BaseCache).

Definition registration_at (msg : string) (index : nat) : result RegistrationEvidence :=
  r ← or_err msg (registrations !! index); Ok (evidence r).
Definition lookup_of (msg : string) (e : RegistrationEvidence) : result ImplementationLookup :=
  or_err msg (implementation_cache !! implementation_cache_key e).

Definition target_of (class : ImplementationClass) : ClassTarget :=
  MkTarget (ic_id class) (ic_kind class) (ic_role class) (ic_complete class) (ic_conditional class).

(** What an edge can lead to: the classes, whether they were cut, whether they
    are ambiguous, and the registration they come from. *)
Definition edge_targets (edge : CandidateEdge RegistrationEvidence)
    : result (list ClassTarget * bool * bool * option RegistrationEvidence) :=
  match edge_predecessor edge with
  | CandBase =>
      '(targets, truncated) ← or_err "ordered chain base class lookup is missing"
                                (base_cache !! class_key (edge_base edge));
      Ok (targets, truncated, 1 <? length targets, None)
  | CandRegistration index =>
      predecessor ← registration_at "ordered chain predecessor registration is missing" index;
      lookup ← lookup_of "ordered chain predecessor implementation lookup is missing" predecessor;
      Ok (target_of <$> List.filter ic_matches (il_classes lookup), il_truncated lookup,
          1 <? length (il_classes lookup), Some predecessor)
  end.

Definition target_issues (edge : CandidateEdge RegistrationEvidence) (targets : list ClassTarget)
    (truncated ambiguous : bool) : list str :=
  when ambiguous "predecessor_class_identity_ambiguous" ++
  when truncated "predecessor_candidates_truncated" ++
  match targets with
  | [] => [lit (match edge_predecessor edge with
                | CandBase => "declared_base_class_missing"
                | CandRegistration _ => "immediate_predecessor_class_missing"
                end)]
  | [target] =>
      when (negb (bool_decide (ct_kind target = CkClass)) || negb (bool_decide (ct_role target = CrOrdinary)))
        "predecessor_not_ordinary_class" ++
      (if ct_conditional target then [lit "predecessor_class_conditional"]
       else when (negb (ct_complete target)) "predecessor_class_incomplete")
  | _ => []
  end.

(** The only class of an implementation. *)
Definition child_class_of (lookup : ImplementationLookup) : option ImplementationClass :=
  match il_classes lookup with
  | [class] => if il_truncated lookup then None else Some class
  | _ => None
  end.
Definition child_issues (lookup : ImplementationLookup) (child : RegistrationEvidence) : list str :=
  when ((1 <? length (il_classes lookup)) || il_truncated lookup) "implementation_class_identity_ambiguous" ++
  when (length (il_classes lookup) =? 0) "implementation_class_missing" ++
  match child_class_of lookup with
  | None => []
  | Some implementation =>
      proxy_readiness_issues implementation (re_proxy child) ++
      when (negb (bool_decide (ic_kind implementation = CkClass))
            || negb (bool_decide (ic_role implementation = CrOrdinary))) "implementation_not_ordinary_class" ++
      (if ic_conditional implementation then [lit "implementation_class_conditional"]
       else when (negb (ic_complete implementation)) "implementation_class_incomplete")
  end.

(** The candidate of an edge and the reasons against it. *)
Definition edge_candidate (targets : list ClassTarget) (reasons : list str)
    (child_class : option ImplementationClass) : list Z * list str :=
  let ids := match reasons with
             | [] => match targets with target :: _ => [ct_id target] | [] => [] end
             | _ => []
             end in
  match child_class with
  | Some implementation =>
      if bool_decide (ic_id implementation ∈ ids)
      then ([], reasons ++ [lit "implementation_is_its_own_predecessor"]) else (ids, reasons)
  | None => (ids, reasons)
  end.

Definition push_reason (child : RegistrationEvidence) (child_id : option Z) (st : EdgeState) (reason : str) : EdgeState :=
  let identity := (default 0%Z child_id, (re_tag_span child).1, (re_tag_span child).2, reason) in
  if bool_decide (identity ∈ es_issues st) then st
  else MkEdgeState (es_children st) (es_edges st) ({[identity]} ∪ es_issues st)
         (append_projection (es_prepared st) (push_registration_issue child_id child (incomplete child reason))).

(** What an edge adds to the state of its child, with the published edge. *)
Definition note_child (child : RegistrationEvidence) (implementation : ImplementationClass)
    (targets : list ClassTarget) (candidate_ids : list Z) (reasons : list str) (tie_priority : option Z)
    (provenance : str) (st : EdgeState) : EdgeState :=
  let old := default no_child (es_children st !! ic_id implementation) in
  let new := MkChild (ch_targets old ++ candidate_ids)
               (ch_incomplete old || negb (length reasons =? 0))
               (ch_conditional old || ic_conditional implementation || existsb ct_conditional targets)
               (or_else (ch_tie old) tie_priority) in
  let st := MkEdgeState (<[ic_id implementation := new]> (es_children st)) (es_edges st) (es_issues st)
              (es_prepared st) in
  match reasons, candidate_ids with
  | [], target_id :: _ =>
      let identity := (ic_id implementation, target_id, re_file child, (re_tag_span child).1, (re_tag_span child).2) in
      if bool_decide (identity ∈ es_edges st) then st
      else MkEdgeState (es_children st) ({[identity]} ∪ es_edges st) (es_issues st)
             (append_projection (es_prepared st)
                (projection_of_edge (MkParentEdge (ic_id implementation) target_id (re_file child)
                   (re_tag_span child) provenance)))
  | _, _ => st
  end.

(** One turn of the loop over the edges. *)
Definition edge_step (tied_priorities : gmap nat Z) (edge : CandidateEdge RegistrationEvidence) (st : EdgeState)
    : result EdgeState :=
  child ← registration_at "ordered chain child registration is missing" (edge_child edge);
  child_lookup ← lookup_of "ordered chain child implementation lookup is missing" child;
  '(targets, truncated, ambiguous, predecessor) ← edge_targets edge;
  let tie_priority :=
    or_else (tied_priorities !! edge_child edge)
      (match edge_predecessor edge with
       | CandRegistration index => tied_priorities !! index
       | CandBase => None
       end) in
  let child_class := child_class_of child_lookup in
  let reasons := target_issues edge targets truncated ambiguous ++ child_issues child_lookup child in
  let '(candidate_ids, reasons) := edge_candidate targets reasons child_class in
  let candidate_ids := sort_dedup Z.compare candidate_ids in
  let provenance :=
    edge_provenance child predecessor tie_priority ++
    match reasons with
    | [] => lit ";immediate_parent_candidate"
    | _ => lit ";incomplete=" ++ join_reasons reasons
    end in
  let st := match child_class with
            | Some implementation =>
                note_child child implementation targets candidate_ids reasons tie_priority provenance st
            | None => st
            end in
  Ok (foldl (push_reason child (ic_id <$> child_class)) st reasons).
Fixpoint edge_loop (tied_priorities : gmap nat Z) (edges : list (CandidateEdge RegistrationEvidence)) (st : EdgeState)
    : result EdgeState :=
  match edges with
  | [] => Ok st
  | edge :: edges => st ← edge_step tied_priorities edge st; edge_loop tied_priorities edges st
  end.

(** ** What each registration publishes *)

Definition child_status (implementation : ImplementationClass) (conditional ambiguous incomplete_ : bool)
    (ids : list Z) : PhpParentStatus :=
  if ambiguous then PsAmbiguous
  else if ic_conditional implementation || conditional then PsConditional
  else if incomplete_ then PsIncomplete
  else if length ids =? 0 then PsIncomplete
  else PsCandidates.
Definition child_projection (e : RegistrationEvidence) (lookup : ImplementationLookup)
    (implementation : ImplementationClass) (state : ChildProjection) (tied : option Z) : PreparedChainProjection :=
  let ambiguous := 1 <? length (il_classes lookup) in
  let targets := if ambiguous || il_truncated lookup then [] else ch_targets state in
  let targets := sort_dedup Z.compare targets in
  let candidate_limit := MAX_XF_CANDIDATES <? length targets in
  let targets := take MAX_XF_CANDIDATES targets in
  let readiness := proxy_readiness_issues implementation (re_proxy e) in
  let incomplete_ :=
    ch_incomplete state || il_truncated lookup || candidate_limit || negb (length readiness =? 0) in
  let status := child_status implementation (ch_conditional state) ambiguous incomplete_ targets in
  let tie_priority := or_else (ch_tie state) tied in
  append_projection
    (if candidate_limit then
       push_registration_issue (Some (ic_id implementation)) e (incomplete e (lit "predecessor_candidates_truncated"))
     else empty_projection)
  (append_projection
    (if (length targets =? 0) && negb incomplete_ then
       push_registration_issue (Some (ic_id implementation)) e (incomplete e (lit "predecessor_class_missing"))
     else empty_projection)
    (if ic_matches implementation then
       append_projection
         (projection_of_hierarchy
            (updated_proxy_parent implementation (re_proxy e) targets status (re_priority e) tie_priority))
         (placeholder_of implementation targets
            (lit "xenforo_generated_placeholder;" ++ registration_provenance e ++
             lit ";framework_parent_candidate;runtime_order_unverified"))
     else
       add_incomplete_registration implementation e (incomplete e (lit "proxy_parent_unverified")) tie_priority)).

(** The loops over the classes of a registration and over the registrations;
    each class takes its state out of the map. *)
Definition classes_step (e : RegistrationEvidence) (lookup : ImplementationLookup) (tied : option Z)
    (acc : gmap Z ChildProjection * PreparedChainProjection) (implementation : ImplementationClass)
    : gmap Z ChildProjection * PreparedChainProjection :=
  let '(children, prepared) := acc in
  let state := default no_child (children !! ic_id implementation) in
  (delete (ic_id implementation) children,
   append_projection prepared (child_projection e lookup implementation state tied)).
Fixpoint registrations_loop (tied_priorities : gmap nat Z) (indices : list nat)
    (children : gmap Z ChildProjection) (prepared : PreparedChainProjection) : result PreparedChainProjection :=
  match indices with
  | [] => Ok prepared
  | index :: indices =>
      e ← registration_at "ordered chain registration is missing" index;
      lookup ← lookup_of "ordered chain implementation lookup is missing" e;
      if length (il_classes lookup) =? 0 then
        registrations_loop tied_priorities indices children
          (append_projection prepared
             (push_registration_issue None e (incomplete e (lit "implementation_class_missing"))))
      else
        let '(children, prepared) :=
          foldl (classes_step e lookup (tied_priorities !! index)) (children, prepared) (il_classes lookup) in
        registrations_loop tied_priorities indices children prepared
  end.

Definition fatal_reason (issues : list ChainIssue) : option string :=
  head (omap (λ issue, match issue with
                       | ClassLimitExceeded _ _ _ => Some "class_limit_exceeded"%string
                       | CandidateLimitExceeded _ _ _ _ => Some "candidate_limit_exceeded"%string
                       | PriorityTie _ _ _ => None
                       end) issues).
Definition tied_of (issues : list ChainIssue) : gmap nat Z :=
  foldl (λ m issue, match issue with
                    | PriorityTie _ priority tied => foldl (λ m index, <[index := priority]> m) m tied
                    | _ => m
                    end) ∅ issues.
(** A chain that is too long: every registration is incomplete. *)
Definition fatal_projection (reason : string) (index : nat) : result PreparedChainProjection :=
  e ← registration_at "ordered chain returned an unknown registration" index;
  lookup ← lookup_of "ordered chain implementation lookup is missing" e;
  Ok (match il_classes lookup with
      | [] => push_registration_issue None e (incomplete e (lit reason))
      | classes =>
          foldl (λ p implementation,
                   append_projection p (add_incomplete_registration implementation e (incomplete e (lit reason)) None))
            empty_projection classes
      end).

Definition project_base_graph (graph : ChainGraph RegistrationEvidence) (indices : list nat)
    : result PreparedChainProjection :=
  let tied_priorities := tied_of (issues graph) in
  match fatal_reason (issues graph) with
  | Some reason =>
      ps ← try_map (fatal_projection reason) indices;
      Ok (foldl append_projection empty_projection ps)
  | None =>
      st ← edge_loop tied_priorities (edges graph) (MkEdgeState ∅ ∅ ∅ empty_projection);
      registrations_loop tied_priorities indices (es_children st) (es_prepared st)
  end.
End Graph.

(** ** Appending and coalescing *)

Definition charge_and_append (target additions : PreparedChainProjection) (used : Z)
    : result (PreparedChainProjection * Z) :=
  let candidate_ids := sum_list_with (λ u, length (pu_targets u)) (pc_placeholders additions) in
  let cost := length (pc_parent_edges additions) + length (pc_hierarchy_edges additions) +
              length (pc_issues additions) + candidate_ids in
  used ← charge used (Z.of_nat cost);
  Ok (MkPrepared (pc_parent_edges target ++ pc_parent_edges additions)
        (pc_placeholders target ++ pc_placeholders additions) (pc_class_occurrences target)
        (pc_hierarchy_edges target ++ pc_hierarchy_edges additions)
        (pc_issues target ++ pc_issues additions), used).

(** Two updates of one occurrence: their candidates if they agree, none otherwise. *)
Definition coalesce (previous update : PreparedPlaceholderUpdate) : PreparedPlaceholderUpdate :=
  let previous_candidates := sort_dedup Z.compare (pu_targets previous) in
  let new_candidates := sort_dedup Z.compare (pu_targets update) in
  if bool_decide (previous_candidates = new_candidates)
  then MkPlaceholder (pu_occurrence previous) (pu_file previous) (pu_span previous) previous_candidates
         (pu_provenance previous)
  else MkPlaceholder (pu_occurrence previous) (pu_file previous) (pu_span previous) []
         (pu_provenance previous ++ lit ";incomplete=multiple_registration_evidence").
(** The map from an occurrence to its position is a search of the updates kept. *)
Definition position_of (occurrence : Z) (unique : list PreparedPlaceholderUpdate) : option (nat * PreparedPlaceholderUpdate) :=
  list_find (λ u, pu_occurrence u = occurrence) unique.
Fixpoint coalesce_loop (updates unique : list PreparedPlaceholderUpdate) : result (list PreparedPlaceholderUpdate) :=
  match updates with
  | [] => Ok unique
  | update :: updates =>
      match position_of (pu_occurrence update) unique with
      | None => coalesce_loop updates (unique ++ [update])
      | Some (position, previous) =>
          _ ← ensure (bool_decide (pu_file previous = pu_file update ∧ pu_span previous = pu_span update))
                "one XenForo placeholder occurrence maps to conflicting source evidence";
          coalesce_loop updates (<[position := coalesce previous update]> unique)
      end
  end.
Definition coalesce_placeholder_updates (prepared : PreparedChainProjection) : result PreparedChainProjection :=
  unique ← coalesce_loop (pc_placeholders prepared) [];
  Ok (MkPrepared (pc_parent_edges prepared) unique (pc_class_occurrences prepared) (pc_hierarchy_edges prepared)
        (pc_issues prepared)).

(** ** Published edges are certain *)

Lemma when_nil b reason : when b reason = [] ↔ b = false.
Proof. unfold when. by destruct b. Qed.

(** A class that stands in a chain without doubt, and a target that does. *)
Definition ready (implementation : ImplementationClass) (proxy : str) : Prop :=
  ic_kind implementation = CkClass ∧ ic_role implementation = CrOrdinary ∧ ic_complete implementation = true ∧
  ic_conditional implementation = false ∧
  (∃ parent, ic_parent implementation = Some parent ∧ parent_names parent proxy = true ∧
     pp_conditional parent = false ∧ pp_status parent ∉ [PsConditional; PsIncomplete; PsUnsupported]) ∧
  (ic_matches implementation = true → is_Some (ic_occurrence implementation)).
Definition certain_target (t : ClassTarget) : Prop :=
  ct_kind t = CkClass ∧ ct_role t = CrOrdinary ∧ ct_complete t = true ∧ ct_conditional t = false.

Lemma readiness_nil implementation proxy :
  proxy_readiness_issues implementation proxy = [] ↔ ready implementation proxy.
Proof.
  unfold proxy_readiness_issues, ready. rewrite !app_nil, !when_nil.
  rewrite !negb_false_iff, !bool_decide_eq_true. 
  assert (ic_matches implementation && bool_decide (ic_occurrence implementation = None) = false ↔
          (ic_matches implementation = true → is_Some (ic_occurrence implementation))) as ->.
  { destruct (ic_matches implementation), (ic_occurrence implementation); cbn; naive_solver. }
  assert (match ic_parent implementation with
    | None => [lit "expected_proxy_parent_missing_or_ambiguous"]
    | Some parent =>
        when (negb (parent_names parent proxy)) "declared_proxy_parent_mismatch" ++
        (if pp_conditional parent || bool_decide (pp_status parent = PsConditional)
         then [lit "proxy_parent_conditional"]
         else when (bool_decide (pp_status parent = PsIncomplete ∨ pp_status parent = PsUnsupported))
                "proxy_parent_incomplete")
    end = [] ↔ ∃ parent, ic_parent implementation = Some parent ∧ parent_names parent proxy = true ∧
     pp_conditional parent = false ∧ pp_status parent ∉ [PsConditional; PsIncomplete; PsUnsupported]) as ->; [|tauto].
  destruct (ic_parent implementation) as [parent|]; [|split; [done|by intros (? & ? & _)]].
  rewrite app_nil, when_nil, negb_false_iff.
  split.
  - intros [Hn H]. exists parent. destruct (pp_conditional parent); [done|]. cbn in H.
    case_bool_decide as Hs; [done|]. apply when_nil, bool_decide_eq_false in H.
    split_and!; [done..|]. rewrite !not_elem_of_cons. split_and!; [done|tauto|tauto|apply not_elem_of_nil].
  - intros (p & [= <-] & Hn & Hc & H). rewrite !not_elem_of_cons in H. destruct H as (H1 & H2 & H3 & _). split; [done|]. rewrite Hc. cbn.
    rewrite bool_decide_false by done. apply when_nil, bool_decide_false. tauto.
Qed.

Section Certain.
Context (registrations : list (Registration RegistrationEvidence))
        (implementation_cache : ImplementationCache) (base_cache : BaseCache).
Abbreviation registered := (λ index e, ∃ r, registrations !! index = Some r ∧ evidence r = e).

(** The one class an edge leads to. *)
Definition leads_to (edge : CandidateEdge RegistrationEvidence) (t : ClassTarget) : Prop :=
  match edge_predecessor edge with
  | CandBase => base_cache !! class_key (edge_base edge) = Some ([t], false)
  | CandRegistration index =>
      ∃ e class, registered index e ∧
        implementation_cache !! implementation_cache_key e = Some (MkImplLookup [class] false) ∧
        ic_matches class = true ∧ t = target_of class
  end.
(** An edge that is certain from its child's only class to its target. *)
Definition certain_edge (edge : CandidateEdge RegistrationEvidence) (child : RegistrationEvidence)
    (implementation : ImplementationClass) (t : ClassTarget) : Prop :=
  registered (edge_child edge) child ∧
  implementation_cache !! implementation_cache_key child = Some (MkImplLookup [implementation] false) ∧
  ready implementation (re_proxy child) ∧ leads_to edge t ∧ certain_target t ∧ ic_id implementation ≠ ct_id t.
Definition published_as (child : RegistrationEvidence) (implementation : ImplementationClass) (t : ClassTarget)
    (p : PreparedParentEdge) : Prop :=
  pe_child p = ic_id implementation ∧ pe_predecessor p = ct_id t ∧ pe_file p = re_file child ∧
  pe_span p = re_tag_span child.

Lemma child_class_Some lookup implementation :
  child_class_of lookup = Some implementation ↔ lookup = MkImplLookup [implementation] false.
Proof.
  unfold child_class_of. destruct lookup as [[|c [|]] []]; cbn; try done; by split; intros [= ->].
Qed.

Lemma edge_targets_Ok edge targets truncated ambiguous predecessor :
  edge_targets registrations implementation_cache base_cache edge = Ok (targets, truncated, ambiguous, predecessor) →
  (ambiguous = false → length targets ≤ 1) ∧
  ∀ t, (targets = [t] ∧ truncated = false ∧ ambiguous = false) ↔ leads_to edge t.
Proof.
  unfold edge_targets, leads_to. destruct (edge_predecessor edge) as [index|].
  - intros (e & (r & Hr%or_err_Ok & [= <-])%bind_Ok & (lookup & Hl%or_err_Ok & [= <- <- <- <-])%bind_Ok)%bind_Ok.
    split.
    { intros Ha%Nat.ltb_ge. rewrite length_fmap. pose proof (List.filter_length_le ic_matches (il_classes lookup)). lia. }
    intros t. split.
    + intros (Ht & Htr & Ha%Nat.ltb_ge). destruct lookup as [classes tr]. cbn in *. subst tr.
      destruct classes as [|c [|? ?]]; [done| |cbn in Ha; lia]. cbn in Ht. destruct (ic_matches c) eqn:Em; [|done].
      injection Ht as <-. exists (evidence r), c. split_and!; [by exists r|done..].
    + intros (e & c & (r' & Hr' & <-) & Hc & Hm & ->). simplify_eq. cbn. by rewrite Hm.
  - intros ([ts tr] & Hb%or_err_Ok & [= <- <- <- <-])%bind_Ok. split; [by intros ?%Nat.ltb_ge|].
    intros t. rewrite Hb. split; [by intros (-> & -> & _)|by intros [= -> ->]].
Qed.

(** The reasons of an edge are empty exactly for a certain one. *)
Lemma edge_candidate_certain edge child lookup implementation targets truncated ambiguous predecessor ids :
  edge_targets registrations implementation_cache base_cache edge = Ok (targets, truncated, ambiguous, predecessor) →
  child_class_of lookup = Some implementation →
  edge_candidate targets (target_issues edge targets truncated ambiguous ++ child_issues lookup child)
    (child_class_of lookup) = (ids, []) ↔
  ∃ t, leads_to edge t ∧ certain_target t ∧ ready implementation (re_proxy child) ∧
       ic_id implementation ≠ ct_id t ∧ ids = [ct_id t].
Proof.
  intros He Hc. destruct (edge_targets_Ok _ _ _ _ _ He) as [Hone Hleads]. pose proof Hc as Hl.
  apply child_class_Some in Hl as ->. unfold edge_candidate, child_issues. rewrite Hc. cbn [il_classes il_truncated length].
  cbn [Nat.ltb Nat.leb orb when app Nat.eqb].
  split.
  - destruct (target_issues edge targets truncated ambiguous ++ _) as [|x l] eqn:E; cbn.
    2: { case_bool_decide; intros [=]; done. }
    apply app_nil in E as [Et Er]. apply app_nil in Er as [Er _]. apply readiness_nil in Er.
    unfold target_issues in Et. apply app_nil in Et as [Ea%when_nil Et]. apply app_nil in Et as [Etr%when_nil Et].
    specialize (Hone Ea). destruct targets as [|t [|? ?]]; [done| |cbn in Hone; lia].
    apply app_nil in Et as [Ek%when_nil Et]. apply orb_false_iff in Ek as [Ek1 Ek2].
    apply negb_false_iff, bool_decide_eq_true in Ek1, Ek2.
    destruct (ct_conditional t) eqn:Econd; [done|]. apply when_nil, negb_false_iff in Et.
    case_bool_decide as Hin; intros [= <-]. exists t.
    split_and!; [by apply Hleads|done|done| |done]. intros Heq. apply Hin. rewrite Heq. by left.
  - intros (t & Hlt & (Hk & Hr & Hco & Hcd) & Hready & Hne & ->).
    apply Hleads in Hlt as (-> & -> & ->). unfold target_issues. cbn.
    rewrite Hk, Hr, Hcd, Hco. cbn. pose proof Hready as (Hk' & Hr' & Hco' & Hcd' & _).
    apply readiness_nil in Hready as ->. rewrite Hk', Hr', Hcd', Hco'. cbn.
    rewrite bool_decide_false; [done|]. by intros ?%list_elem_of_singleton.
Qed.
End Certain.

Section Loop.
Context (registrations : list (Registration RegistrationEvidence))
        (implementation_cache : ImplementationCache) (base_cache : BaseCache).
Abbreviation certain := (certain_edge registrations implementation_cache base_cache).

Lemma edge_candidate_reasons targets reasons child_class ids rs :
  edge_candidate targets reasons child_class = (ids, rs) → rs ≠ [] → ids = [].
Proof.
  unfold edge_candidate. destruct child_class as [c|].
  - case_bool_decide; intros [= <- <-]; [done|]. by destruct reasons.
  - intros [= <- <-]. by destruct reasons.
Qed.

(** Pushing reasons adds issues only. *)
Definition same_but_issues (a b : EdgeState) : Prop :=
  es_children a = es_children b ∧ es_edges a = es_edges b ∧
  pc_parent_edges (es_prepared a) = pc_parent_edges (es_prepared b) ∧
  pc_placeholders (es_prepared a) = pc_placeholders (es_prepared b) ∧
  pc_hierarchy_edges (es_prepared a) = pc_hierarchy_edges (es_prepared b).
Lemma push_reasons_same child id reasons st : same_but_issues (foldl (push_reason child id) st reasons) st.
Proof.
  revert st. induction reasons as [|r reasons IH]; intros st; cbn [foldl]; [done|].
  destruct (IH (push_reason child id st r)) as (H1 & H2 & H3 & H4 & H5).
  unfold same_but_issues. rewrite H1, H2, H3, H4, H5. unfold push_reason. destruct (bool_decide _); [done|].
  cbn. by rewrite !app_nil_r.
Qed.

Definition has_edge (prepared : PreparedChainProjection) (child target : Z) : Prop :=
  ∃ p, p ∈ pc_parent_edges prepared ∧ pe_child p = child ∧ pe_predecessor p = target.

Record edges_inv (done : list (CandidateEdge RegistrationEvidence)) (st : EdgeState) : Prop := {
  ei_justified : ∀ p, p ∈ pc_parent_edges (es_prepared st) →
    ∃ edge child implementation t, edge ∈ done ∧ certain edge child implementation t ∧
      published_as child implementation t p;
  ei_published : ∀ edge child implementation t, edge ∈ done → certain edge child implementation t →
    ∃ p, p ∈ pc_parent_edges (es_prepared st) ∧ published_as child implementation t p;
  ei_seen : ∀ c t f a b, (c, t, f, a, b) ∈ es_edges st →
    ∃ p, p ∈ pc_parent_edges (es_prepared st) ∧ pe_child p = c ∧ pe_predecessor p = t ∧ pe_file p = f ∧
         pe_span p = (a, b);
  ei_children : ∀ id s t, es_children st !! id = Some s → t ∈ ch_targets s → has_edge (es_prepared st) id t;
  ei_placeholders : pc_placeholders (es_prepared st) = [];
  ei_hierarchy : pc_hierarchy_edges (es_prepared st) = [];
}.

Lemma edges_inv_same done st st' : same_but_issues st' st → edges_inv done st → edges_inv done st'.
Proof.
  intros (H1 & H2 & H3 & H4 & H5) [I1 I2 I3 I4 I5 I6].
  split; unfold has_edge; rewrite ?H1, ?H2, ?H3, ?H4, ?H5; done.
Qed.

Lemma edges_inv_more done edge st :
  edges_inv done st →
  (∀ child implementation t, certain edge child implementation t →
     ∃ p, p ∈ pc_parent_edges (es_prepared st) ∧ published_as child implementation t p) →
  edges_inv (done ++ [edge]) st.
Proof.
  intros [I1 I2 I3 I4 I5 I6] He. split; try done.
  - intros p Hp. destruct (I1 p Hp) as (e & c & i & t & Hin & H). exists e, c, i, t. split; [set_solver|done].
  - intros e c i t [Hin| ->%list_elem_of_singleton]%elem_of_app H; [by eapply I2|by apply He].
Qed.

Lemma note_child_reasons child implementation targets reasons tie provenance done st :
  reasons ≠ [] → edges_inv done st →
  edges_inv done (note_child child implementation targets [] reasons tie provenance st).
Proof.
  intros Hr [I1 I2 I3 I4 I5 I6]. unfold note_child. destruct reasons; [done|]. split; try done.
  intros id s t. cbn [es_children]. destruct (decide (id = ic_id implementation)) as [->|Hne].
  - rewrite lookup_insert_eq. intros [= <-]. cbn. rewrite app_nil_r.
    destruct (es_children st !! ic_id implementation) as [old|] eqn:E; [by apply I4|].
    cbn. intros Hin. by apply not_elem_of_nil in Hin.
  - rewrite lookup_insert_ne by done. apply I4.
Qed.

Lemma note_child_edge child implementation t targets tie provenance done st edge :
  certain edge child implementation t →
  (∀ c i x, certain edge c i x → c = child ∧ i = implementation ∧ ct_id x = ct_id t) → edges_inv done st →
  edges_inv (done ++ [edge]) (note_child child implementation targets [ct_id t] [] tie provenance st).
Proof.
  intros Hc Hone [I1 I2 I3 I4 I5 I6]. unfold note_child.
  set (identity := (ic_id implementation, ct_id t, re_file child, (re_tag_span child).1, (re_tag_span child).2)).
  set (children := <[ic_id implementation := _]> _). cbn [es_edges].
  assert (∀ edges' : list PreparedParentEdge, (∀ p, p ∈ pc_parent_edges (es_prepared st) → p ∈ edges') →
    (∃ p, p ∈ edges' ∧ published_as child implementation t p) →
    ∀ id s x, children !! id = Some s → x ∈ ch_targets s →
    ∃ p, p ∈ edges' ∧ pe_child p = id ∧ pe_predecessor p = x) as Hchildren.
  { intros edges' Hsub (p & Hp & Hp1 & Hp2 & _) id s x. unfold children.
    destruct (decide (id = ic_id implementation)) as [->|Hne].
    - rewrite lookup_insert_eq. intros [= <-]. cbn. intros [Hx|Hx]%elem_of_app.
      + destruct (es_children st !! ic_id implementation) as [old|] eqn:E; [|by apply not_elem_of_nil in Hx].
        destruct (I4 _ _ _ E Hx) as (q & Hq & ?). exists q. split; [by apply Hsub|done].
      + apply list_elem_of_singleton in Hx as ->. by exists p.
    - rewrite lookup_insert_ne by done. intros Hl Hx. destruct (I4 _ _ _ Hl Hx) as (q & Hq & ?).
      exists q. split; [by apply Hsub|done]. }
  case_bool_decide as Hseen.
  - destruct (I3 _ _ _ _ _ Hseen) as (p & Hp & H1 & H2 & H3 & H4).
    assert (published_as child implementation t p) as Hpub by (split_and!; [done..|by rewrite H4; destruct (re_tag_span child)]).
    apply edges_inv_more.
    + split; cbn; try done. intros id s x Hl Hx.
      apply (Hchildren (pc_parent_edges (es_prepared st)) ltac:(done) ltac:(by exists p) id s x Hl Hx).
    + intros c i x (-> & -> & Hx)%Hone. exists p. split; [done|]. unfold published_as. by rewrite Hx.
  - set (p := MkParentEdge _ _ _ _ _).
    assert (published_as child implementation t p) as Hpub by done.
    split; cbn.
    + intros q [Hq| ->%list_elem_of_singleton]%elem_of_app.
      * destruct (I1 q Hq) as (e & c & i & x & He & H). exists e, c, i, x. split; [set_solver|done].
      * exists edge, child, implementation, t. split; [set_solver|done].
    + intros e c i x [He| ->%list_elem_of_singleton]%elem_of_app Hce.
      * destruct (I2 e c i x He Hce) as (q & Hq & ?). exists q. split; [set_solver|done].
      * apply Hone in Hce as (-> & -> & Hx). exists p. split; [set_solver|]. unfold published_as. by rewrite Hx.
    + intros c x f a b [H|H]%elem_of_union.
      * apply elem_of_singleton in H. unfold identity in H. simplify_eq. exists p.
        split; [set_solver|]. split_and!; try done. cbn. by destruct (re_tag_span child).
      * destruct (I3 _ _ _ _ _ H) as (q & Hq & ?). exists q. split; [set_solver|done].
    + intros id s x Hl Hx.
      apply (Hchildren (pc_parent_edges (es_prepared st) ++ [p]) ltac:(set_solver) ltac:(exists p; split; [set_solver|done]) id s x Hl Hx).
    + by rewrite I5.
    + by rewrite I6.
Qed.

Lemma edge_step_inv tied edge done st st' :
  edge_step registrations implementation_cache base_cache tied edge st = Ok st' →
  edges_inv done st → edges_inv (done ++ [edge]) st'.
Proof.
  unfold edge_step. intros (child & (r & Hr%or_err_Ok & [= <-])%bind_Ok & (lookup & Hl%or_err_Ok &
    ([[[targets truncated] ambiguous] predecessor] & Ht & H)%bind_Ok)%bind_Ok)%bind_Ok Hinv.
  destruct (edge_candidate _ _ _) as [ids reasons] eqn:Ec. injection H as <-.
  eapply edges_inv_same; [apply push_reasons_same|].
  assert (∀ child' implementation t, certain edge child' implementation t →
    child' = evidence r ∧ lookup = MkImplLookup [implementation] false) as Huniq.
  { intros child' i t ((r' & Hr' & <-) & Hi & _). simplify_eq. done. }
  destruct (child_class_of lookup) as [implementation|] eqn:Hcl.
  2: { apply edges_inv_more; [done|]. intros c i t Hc. destruct (Huniq c i t Hc) as [-> ->]. discriminate Hcl. }
  pose proof Hcl as Hlookup. apply child_class_Some in Hlookup as ->. rewrite <-Hcl in Ec.
  assert (∀ c i t, certain edge c i t → reasons = [] ∧ i = implementation ∧ c = evidence r ∧ ids = [ct_id t]) as Hcertain.
  { intros c i t Hc. destruct (Huniq c i t Hc) as [-> [= ->]]. destruct Hc as (_ & _ & H1 & H2 & H3 & H4).
    assert (edge_candidate targets (target_issues edge targets truncated ambiguous ++ child_issues (MkImplLookup [i] false) (evidence r))
      (child_class_of (MkImplLookup [i] false)) = ([ct_id t], [])) as E.
    { eapply edge_candidate_certain; [done..|]. by exists t. }
    rewrite E in Ec. by injection Ec as <- <-. }
  destruct (decide (reasons = [])) as [->|Hne].
  - eapply edge_candidate_certain in Ec as (t & H1 & H2 & H3 & H4 & ->); [|done..].
    assert (certain edge (evidence r) implementation t) as Hc by (split; [by exists r|]; split_and!; done).
    change (sort_dedup Z.compare [ct_id t]) with [ct_id t].
    apply note_child_edge; [done| |done].
    intros c i x Hx. destruct (Hcertain c i x Hx) as (_ & -> & -> & [= ->]). done.
  - rewrite (edge_candidate_reasons _ _ _ _ _ Ec Hne).
    apply edges_inv_more; [by apply note_child_reasons|].
    intros c i x Hx. by destruct (Hcertain c i x Hx).
Qed.

Lemma edge_loop_inv tied todo done st st' :
  edge_loop registrations implementation_cache base_cache tied todo st = Ok st' →
  edges_inv done st → edges_inv (done ++ todo) st'.
Proof.
  revert done st. induction todo as [|edge todo IH]; intros done st; cbn.
  - intros [= <-]. by rewrite app_nil_r.
  - intros (st1 & H1 & H)%bind_Ok Hinv. replace (done ++ edge :: todo) with ((done ++ [edge]) ++ todo) by by rewrite <-app_assoc.
    eapply IH; [done|]. by eapply edge_step_inv.
Qed.
End Loop.

Section Published.
Context (registrations : list (Registration RegistrationEvidence))
        (implementation_cache : ImplementationCache) (base_cache : BaseCache)
        (indices : list nat) (published : list PreparedParentEdge).
Abbreviation registered := (λ index e, ∃ r, registrations !! index = Some r ∧ evidence r = e).

(** A class that a registration of the chain names. *)
Definition in_chain (e : RegistrationEvidence) (lookup : ImplementationLookup) (class : ImplementationClass) : Prop :=
  (∃ index, index ∈ indices ∧ registered index e) ∧
  implementation_cache !! implementation_cache_key e = Some lookup ∧ class ∈ il_classes lookup.
(** Every id is the predecessor of a published edge of the class. *)
Definition supported (class : ImplementationClass) (ids : list Z) : Prop :=
  ∀ t, t ∈ ids → ∃ p, p ∈ published ∧ pe_child p = ic_id class ∧ pe_predecessor p = t.
Definition hierarchy_edge_ok (h : PhpParentCandidate) : Prop :=
  ∃ e lookup class, in_chain e lookup class ∧ pp_kind h = PkXfcpProxy ∧
    pp_child h = match ic_parent class with Some parent => pp_child parent | None => ic_id class end ∧
    supported class (pp_ids h) ∧
    (pp_status h = PsCandidates →
     lookup = MkImplLookup [class] false ∧ ready class (re_proxy e) ∧ pp_ids h ≠ []).
Definition placeholder_ok (u : PreparedPlaceholderUpdate) : Prop :=
  ∃ e lookup class, in_chain e lookup class ∧ pu_file u = ic_file class ∧
    ic_occurrence class = Some (pu_occurrence u, pu_span u) ∧ supported class (pu_targets u).
Definition sound_part (part : PreparedChainProjection) : Prop :=
  pc_parent_edges part = [] ∧ Forall hierarchy_edge_ok (pc_hierarchy_edges part) ∧
  Forall placeholder_ok (pc_placeholders part).

Lemma sound_empty : sound_part empty_projection.
Proof. by repeat constructor. Qed.
Lemma sound_append a b : sound_part a → sound_part b → sound_part (append_projection a b).
Proof.
  intros (H1 & H2 & H3) (H4 & H5 & H6). unfold sound_part. cbn. rewrite H1, H4.
  split; [done|]. by rewrite !Forall_app.
Qed.
Lemma sound_issue child e provenance : sound_part (push_registration_issue child e provenance).
Proof. by repeat constructor. Qed.
Lemma sound_if (b : bool) part : sound_part part → sound_part (if b then part else empty_projection).
Proof. destruct b; [done|]. intros _. apply sound_empty. Qed.

Lemma sound_hierarchy e lookup class ids status priority tie :
  in_chain e lookup class → supported class ids →
  (status = PsCandidates → lookup = MkImplLookup [class] false ∧ ready class (re_proxy e) ∧ ids ≠ []) →
  sound_part (projection_of_hierarchy (updated_proxy_parent class (re_proxy e) ids status priority tie)).
Proof.
  intros Hc Hs Hst. split; [done|]. split; [|by constructor]. repeat constructor.
  exists e, lookup, class. split_and!; try done. unfold updated_proxy_parent. cbn. by destruct (ic_parent class).
Qed.
Lemma sound_placeholder e lookup class ids provenance :
  in_chain e lookup class → supported class ids → sound_part (placeholder_of class ids provenance).
Proof.
  intros Hc Hs. unfold placeholder_of. destruct (ic_matches class); [|apply sound_empty].
  destruct (ic_occurrence class) as [[occurrence span]|] eqn:Eo; [|apply sound_empty].
  split; [done|]. split; [by constructor|]. repeat constructor. by exists e, lookup, class.
Qed.
Lemma supported_nil class : supported class [].
Proof. intros t Ht. by apply not_elem_of_nil in Ht. Qed.

Lemma sound_incomplete e lookup class reason tie :
  in_chain e lookup class → sound_part (add_incomplete_registration class e reason tie).
Proof.
  intros Hc. unfold add_incomplete_registration. repeat apply sound_append; [|eapply sound_placeholder; [done|]|apply sound_issue].
  - eapply sound_hierarchy; [done| |done]. apply supported_nil.
  - apply supported_nil.
Qed.

Lemma sound_child e lookup class state tied :
  in_chain e lookup class → supported class (ch_targets state) →
  sound_part (child_projection e lookup class state tied).
Proof.
  intros Hc Hs. unfold child_projection.
  set (ambiguous := 1 <? length (il_classes lookup)).
  set (targets := if ambiguous || il_truncated lookup then [] else ch_targets state).
  assert (supported class (take MAX_XF_CANDIDATES (sort_dedup Z.compare targets))) as Ht.
  { intros t Hi%subseteq_take%elem_of_sort_dedup.
    apply Hs. unfold targets in Hi. destruct (_ || _); [by apply not_elem_of_nil in Hi|done]. }
  repeat apply sound_append; try (apply sound_if, sound_issue).
  destruct (ic_matches class); [|by eapply sound_incomplete].
  apply sound_append; [|by eapply sound_placeholder].
  eapply sound_hierarchy; [done|done|]. unfold child_status.
  destruct ambiguous eqn:Ea; [done|]. destruct (_ || ch_conditional state) eqn:Ec; [done|].
  destruct (ch_incomplete state); [done|]. destruct (il_truncated lookup) eqn:Etr; [done|]. cbn [orb].
  destruct (MAX_XF_CANDIDATES <? _); [done|]. destruct (length (proxy_readiness_issues _ _) =? 0) eqn:Er; [|done]. cbn [negb orb].
  destruct (length (take _ _) =? 0) eqn:El; [done|]. intros _. split_and!.
  - destruct Hc as (_ & _ & Hin). unfold ambiguous in Ea. apply Nat.ltb_ge in Ea.
    destruct lookup as [[|c [|? ?]] tr]; cbn in *; [by apply not_elem_of_nil in Hin| |lia].
    apply list_elem_of_singleton in Hin as ->. by rewrite Etr.
  - apply readiness_nil. apply Nat.eqb_eq in Er. by destruct (proxy_readiness_issues _ _).
  - intros E. by rewrite E in El.
Qed.

Lemma sound_fold {A} (f : A → PreparedChainProjection) l acc :
  sound_part acc → (∀ x, x ∈ l → sound_part (f x)) →
  sound_part (foldl (λ p x, append_projection p (f x)) acc l).
Proof.
  revert acc. induction l as [|x l IH]; intros acc Hacc Hl; cbn [foldl]; [done|].
  apply IH; [apply sound_append; [done|apply Hl; by left]|intros y Hy; apply Hl; by right].
Qed.
Lemma sound_fatal reason index p :
  index ∈ indices → fatal_projection registrations implementation_cache reason index = Ok p → sound_part p.
Proof.
  intros Hin (e & (r & Hr%or_err_Ok & [= <-])%bind_Ok & (lookup & Hl%or_err_Ok & [= <-])%bind_Ok)%bind_Ok.
  destruct (il_classes lookup) as [|c cs] eqn:Ecl; [apply sound_issue|].
  apply (sound_fold (λ c, add_incomplete_registration c (evidence r) (incomplete (evidence r) (lit reason)) None) (c :: cs));
    [apply sound_empty|].
  intros d Hd. eapply sound_incomplete. split; [exists index; split; [done|by exists r]|].
  split; [done|by rewrite Ecl].
Qed.
Lemma sound_fatals reason todo ps :
  (∀ i, i ∈ todo → i ∈ indices) →
  try_map (fatal_projection registrations implementation_cache reason) todo = Ok ps →
  sound_part (foldl append_projection empty_projection ps).
Proof.
  intros Hin Hps. apply (sound_fold (λ p, p)); [apply sound_empty|].
  revert ps Hps. induction todo as [|i todo IH]; cbn; intros ps.
  - intros [= <-] p Hp. by apply not_elem_of_nil in Hp.
  - intros (q & Hq & (qs & Hqs & [= <-])%bind_Ok)%bind_Ok p [->|Hp]%elem_of_cons.
    + eapply sound_fatal; [|done]. apply Hin. by left.
    + eapply IH; [|done..]. intros j Hj. apply Hin. by right.
Qed.

Definition children_supported (children : gmap Z ChildProjection) : Prop :=
  ∀ id s t, children !! id = Some s → t ∈ ch_targets s →
    ∃ p, p ∈ published ∧ pe_child p = id ∧ pe_predecessor p = t.
(** What a loop adds to a projection is sound. *)
Definition extends_soundly (prepared prepared' : PreparedChainProjection) : Prop :=
  ∃ part, prepared' = append_projection prepared part ∧ sound_part part.

Lemma append_assoc a b c : append_projection (append_projection a b) c = append_projection a (append_projection b c).
Proof. unfold append_projection. cbn. by rewrite !app_assoc. Qed.
Lemma append_empty a : append_projection a empty_projection = a.
Proof. destruct a. unfold append_projection. cbn. by rewrite !app_nil_r. Qed.
Lemma append_empty_l a : append_projection empty_projection a = a.
Proof. by destruct a. Qed.
Lemma extends_refl prepared : extends_soundly prepared prepared.
Proof. exists empty_projection. split; [by rewrite append_empty|apply sound_empty]. Qed.
Lemma extends_trans a b c : extends_soundly a b → extends_soundly b c → extends_soundly a c.
Proof.
  intros (x & -> & Hx) (y & -> & Hy). exists (append_projection x y). split; [by rewrite append_assoc|by apply sound_append].
Qed.
Lemma extends_part prepared part : sound_part part → extends_soundly prepared (append_projection prepared part).
Proof. by exists part. Qed.

Lemma classes_loop e lookup tied classes children prepared children' prepared' :
  (∀ c, c ∈ classes → in_chain e lookup c) → children_supported children →
  foldl (classes_step e lookup tied) (children, prepared) classes = (children', prepared') →
  children_supported children' ∧ extends_soundly prepared prepared'.
Proof.
  revert children prepared. induction classes as [|c classes IH]; intros children prepared Hin Hs; cbn.
  { intros [= <- <-]. split; [done|apply extends_refl]. }
  intros H. apply IH in H as [H1 H2].
  - split; [done|]. eapply extends_trans; [|exact H2]. apply extends_part, sound_child; [apply Hin; by left|].
    intros t Ht. destruct (children !! ic_id c) as [s|] eqn:E; [by eapply Hs|]. by apply not_elem_of_nil in Ht.
  - intros d Hd. apply Hin. by right.
  - intros id s t Hl. apply lookup_delete_Some in Hl as [_ Hl]. by apply Hs.
Qed.

Lemma registrations_loop_sound tied todo children prepared prepared' :
  (∀ i, i ∈ todo → i ∈ indices) → children_supported children →
  registrations_loop registrations implementation_cache tied todo children prepared = Ok prepared' →
  extends_soundly prepared prepared'.
Proof.
  revert children prepared. induction todo as [|index todo IH]; intros children prepared Hin Hs; cbn.
  { intros [= <-]. apply extends_refl. }
  intros (e & (r & Hr%or_err_Ok & [= <-])%bind_Ok & (lookup & Hl%or_err_Ok & H)%bind_Ok)%bind_Ok.
  assert (∀ i, i ∈ todo → i ∈ indices) as Hin' by (intros i Hi; apply Hin; by right).
  destruct (length (il_classes lookup) =? 0).
  - apply IH in H; [|done..]. eapply extends_trans; [|exact H]. apply extends_part, sound_issue.
  - destruct (foldl _ _ _) as [children1 prepared1] eqn:E. apply classes_loop in E as [H1 H2]; [|..|done].
    + eapply extends_trans; [exact H2|]. by eapply IH.
    + intros c Hc. split; [|done]. exists index. split; [apply Hin; by left|by exists r].
Qed.
End Published.

Lemma projection_parts registrations implementation_cache base_cache graph indices prepared :
  project_base_graph registrations implementation_cache base_cache graph indices = Ok prepared →
  ∃ done st part, edges_inv registrations implementation_cache base_cache done st ∧
    (fatal_reason (issues graph) = None → done = edges graph) ∧ done ⊆ edges graph ∧
    prepared = append_projection (es_prepared st) part ∧
    sound_part registrations implementation_cache indices (pc_parent_edges (es_prepared st)) part.
Proof.
  assert (edges_inv registrations implementation_cache base_cache [] (MkEdgeState ∅ ∅ ∅ empty_projection)) as Hinit.
  { split; cbn; try done; try (intros ? ? ? ? H'; by apply not_elem_of_nil in H').
    intros p Hp. by apply not_elem_of_nil in Hp. }
  unfold project_base_graph. destruct (fatal_reason (issues graph)) as [reason|].
  - intros (ps & Hps & [= <-])%bind_Ok. eexists [], _, _. split; [exact Hinit|]. cbn [es_prepared].
    split_and!; [done|by intros ? ?%not_elem_of_nil| |].
    + symmetry. apply append_empty_l.
    + by eapply sound_fatals.
  - intros (st & Hloop & H)%bind_Ok. apply (edge_loop_inv _ _ _ _ _ []) in Hloop; [|done].
    pose proof Hloop as [_ _ _ I4 _ _].
    apply (registrations_loop_sound _ _ indices (pc_parent_edges (es_prepared st))) in H as (part & -> & Hpart); [|done|done].
    by exists (edges graph), st, part.
Qed.

(** C32. What a chain publishes is certain.  Each predecessor edge comes from an edge
    of the chain between the only class of the child's registration, a plain,
    complete and unconditional class that declares the expected proxy as its
    parent, and the only class of the base or of the predecessor's registration,
    likewise plain, complete and unconditional; and unless the chain is too
    long, every such edge of the chain is published.  No edge of the hierarchy
    and no placeholder names a class without a published edge to it, and a
    hierarchy edge offers candidates only for the one class of its registration
    that is ready. *)
Theorem chain_projection_certain (registrations : list (Registration RegistrationEvidence))
    (implementation_cache : ImplementationCache) (base_cache : BaseCache)
    (graph : ChainGraph RegistrationEvidence) (indices : list nat) (prepared : PreparedChainProjection) :
  project_base_graph registrations implementation_cache base_cache graph indices = Ok prepared →
  (∀ p, p ∈ pc_parent_edges prepared →
    ∃ edge child implementation t, edge ∈ edges graph ∧
      certain_edge registrations implementation_cache base_cache edge child implementation t ∧
      published_as child implementation t p) ∧
  (fatal_reason (issues graph) = None → ∀ edge child implementation t, edge ∈ edges graph →
    certain_edge registrations implementation_cache base_cache edge child implementation t →
    ∃ p, p ∈ pc_parent_edges prepared ∧ published_as child implementation t p) ∧
  Forall (hierarchy_edge_ok registrations implementation_cache indices (pc_parent_edges prepared))
    (pc_hierarchy_edges prepared) ∧
  Forall (placeholder_ok registrations implementation_cache indices (pc_parent_edges prepared))
    (pc_placeholders prepared).
Proof.
  intros (done & st & part & [I1 I2 _ _ I5 I6] & Hall & Hsub & -> & H1 & H2 & H3)%projection_parts.
  cbn. rewrite H1, app_nil_r, I5, I6. split_and!; [|intros Hf; rewrite <-(Hall Hf); done|done|done].
  intros p (edge & child & implementation & t & Hedge & Hp)%I1. exists edge, child, implementation, t.
  split; [by apply Hsub|done].
Qed.

Module ChainFactsExample.
(** [XF\Pub\Page] extended by [Add\Page], whose parent is [Add\XFCP_Page]. *)
Definition base_key : str := lit "xf\pub\page".
Definition proxy : str := lit "add\XFCP_Page".
Definition row : RegistrationEvidence :=
  MkEvidence 7 0 (10, 90) base_key (lit "Add\Page") (lit "add\page") (lit "add\page") proxy 10.
Definition registrations : list (Registration RegistrationEvidence) :=
  [MkRegistration _ (lit "7:0:add\page") base_key (lit "add\page") 10 row].
Definition parent : PhpParentCandidate :=
  MkParentCandidate 2 proxy (Some proxy) None 40 52 PkXfcpProxy [] PsCandidates false None None.
Definition page_class : ImplementationClass :=
  MkImplementation 2 8 CkClass CrOrdinary true false (Some parent) (Some (5%Z, (40, 52))) true.
Definition implementation_cache : ImplementationCache :=
  {[ implementation_cache_key row := MkImplLookup [page_class] false ]}.
Definition base_cache : BaseCache := {[ base_key := ([MkTarget 1 CkClass CrOrdinary true false], false) ]}.
Definition graph : ChainGraph RegistrationEvidence :=
  match build_chain_for_base base_key [0] registrations with Ok g => g | Err _ => MkGraph [] [] end.
Definition one_prepared : PreparedChainProjection :=
  match project_base_graph registrations implementation_cache base_cache graph [0] with
  | Ok p => p
  | Err _ => empty_projection
  end.
Lemma graph_ok :
  project_base_graph registrations implementation_cache base_cache graph [0] = Ok one_prepared ∧
  (λ p, (pe_child p, pe_predecessor p, pe_span p)) <$> pc_parent_edges one_prepared = [(2, 1, (10%nat, 90%nat))]%Z ∧
  (λ h, (pp_ids h, pp_status h)) <$> pc_hierarchy_edges one_prepared = [([1%Z], PsCandidates)] ∧
  (λ u, (pu_occurrence u, pu_targets u)) <$> pc_placeholders one_prepared = [(5, [1])]%Z ∧ pc_issues one_prepared = [].
Proof. by vm_compute. Qed.

Lemma chain_projection_certain_witness :
  pc_parent_edges one_prepared ≠ [] ∧
  ∀ p, p ∈ pc_parent_edges one_prepared →
    ∃ edge child implementation t, edge ∈ edges graph ∧
      certain_edge registrations implementation_cache base_cache edge child implementation t ∧
      published_as child implementation t p.
Proof.
  split; [by vm_compute|].
  exact (proj1 (chain_projection_certain registrations implementation_cache base_cache graph [0] one_prepared (proj1 graph_ok))).
Defined.
End ChainFactsExample.
