(* ===== verification/ChainRows.v ===== *)
(** * The rows of an extension chain

    Models [src/src/store/php_resolver/xenforo/chain_adapter/registration_lookup.rs]:
    from the rows of the extension files to the registrations of each base class,
    with the classes that the hierarchy holds for their names, and the chains
    built from them.  The rows of the files are read in order; a [HashMap] whose
    values the code visits is visited in the order of its keys, since each visit
    touches rows of its own. *)
From Stdlib Require Import Ascii String ZArith Lia Sorted.
From stdpp Require Import base numbers list gmap strings.
From S2P Require Import Prelude Order Text Collections QueryShape Chains Hierarchy Aliases PhpNames Extensions ChainFacts.

(** [MAX_METADATA_FACTS] of [xenforo.rs], as the limit of the source candidates. *)
Definition charge_source_candidates (total : Z) (count : nat) : result Z :=
  let total := saturating_add USIZE_MAX total (Z.of_nat count) in
  _ ← ensure (total <=? Z.of_nat MAX_METADATA_FACTS)%Z "XenForo class candidate fact limit exceeded";
  Ok total.

(** [for value in values] with an early return on an error. *)
Fixpoint try_foldl {A B} (f : B → A → result B) (b : B) (l : list A) : result B :=
  match l with
  | [] => Ok b
  | x :: l => b ← f b x; try_foldl f b l
  end.

Section Rows.
Context `{UnicodeTables} (aliases : AliasSource).

(** ** The first pass: rows and shared proxies *)

Definition metadata_issues (extension : ClassExtension) (base implementation : option str) : list str :=
  when (bool_decide (ce_active extension = None)) "active_state_unknown" ++
  match ce_order extension with
  | None => [lit "execute_order_unknown"]
  | Some order => when (order <? 0)%Z "execute_order_invalid_negative"
  end ++
  when (ce_duplicate extension) "duplicate_declaration" ++
  when (bool_decide (base = None) || bool_decide (implementation = None)) "alias_source_unresolved".
Definition read_row (file : ExtensionFile) (row_index : nat) (extension : ClassExtension)
    : result (list PendingRow) :=
  if bool_decide (ce_active extension = Some false) then Ok []
  else
    let base := canonicalize_class_name (ce_from extension) aliases in
    let implementation := canonicalize_class_name (ce_to extension) aliases in
    expected_proxy ← expected_proxy_name (ce_to extension);
    Ok [MkPending file row_index extension base implementation expected_proxy
          (metadata_issues extension base implementation)].
Definition read_rows (files : list ExtensionFile) : result (list PendingRow) :=
  rows ← try_map (λ e, read_row e.1 e.2.1 e.2.2)
           (files ≫= λ file, pair file <$> imap pair (ef_extensions file));
  Ok (concat rows).

Definition base_key (row : PendingRow) : option str := class_key <$> pr_base row.
Definition proxy_key (row : PendingRow) : str := class_key (pr_proxy row).
Definition add_row_issue (reason : string) (row : PendingRow) : PendingRow :=
  MkPending (pr_file row) (pr_index row) (pr_extension row) (pr_base row) (pr_implementation row)
    (pr_proxy row) (pr_issues row ++ [lit reason]).

(** The rows with the bases that are blocked. *)
Record RowState := MkRows { rs_rows : list PendingRow; rs_blocked : gset str }.

Definition block_key (key : option str) (blocked : gset str) : gset str :=
  match key with Some key => {[key]} ∪ blocked | None => blocked end.
(** Blocks the base of a row and notes the reason on it. *)
Definition block_row (reason : string) (st : RowState) (owner : nat) : result RowState :=
  row ← or_err "index out of bounds" (rs_rows st !! owner);
  Ok (MkRows (<[owner := add_row_issue reason row]> (rs_rows st)) (block_key (base_key row) (rs_blocked st))).

Definition proxy_owners (rows : list PendingRow) : gmap str (list nat) :=
  foldl (λ m e, push_position m (proxy_key e.2) e.1) ∅ (imap pair rows).
Definition blocked_by_metadata (rows : list PendingRow) : gset str :=
  list_to_set (omap (λ row, match pr_issues row with [] => None | _ => base_key row end) rows).
Definition first_pass (files : list ExtensionFile) : result RowState :=
  rows ← read_rows files;
  try_foldl (block_row "proxy_identity_reused") (MkRows rows (blocked_by_metadata rows))
    (concat (List.filter (λ owners, 2 <=? length owners) (snd <$> map_to_list (proxy_owners rows)))).

(** ** Lookups of classes *)

Section Lookups.
Context (tables : PhpTables) (hierarchy : PhpHierarchyIndex).

Definition type_at (file : Z) (span : Span) (o : OccurrenceEntry) : bool :=
  (oe_file o =? file)%Z && (oe_start o =? Z.of_nat span.1)%Z && (oe_end o =? Z.of_nat span.2)%Z
  && (oe_role o =s lit "type").
Definition find_type_occurrence (file : Z) (span : Span) : result (option Z) :=
  match sort_by (cmp_on oe_id Z.compare) (List.filter (type_at file span) (ph_occurrences tables)) with
  | [] => Ok None
  | o :: rest =>
      _ ← ensure (length rest =? 0) "XFCP parent token matches multiple PHP type occurrences";
      Ok (if (oe_provenance o =s lit "xenforo_generated_placeholder") || starts_with (lit "php_fqcn") (oe_provenance o)
          then Some (oe_id o) else None)
  end.

(** [usize::try_from] of an [i64]. *)
Definition usize_of (n : Z) : result nat :=
  if (n <? 0)%Z then Err "out of range integral type conversion attempted" else Ok (Z.to_nat n).

(** [(parent_facts.len() == 1).then(..)] over the proxy edges of a class. *)
Definition proxy_parent_of (id : Z) : option PhpParentCandidate :=
  match List.filter (λ parent, bool_decide (pp_kind parent = PkXfcpProxy)) (parent_candidates hierarchy id) with
  | [parent] => Some parent
  | _ => None
  end.
(** The occurrence of the token that names the proxy. *)
Definition proxy_occurrence_of (file : Z) (parent : PhpParentCandidate) : result (option (Z * Span)) :=
  start ← usize_of (pp_start parent);
  end_ ← usize_of (pp_end parent);
  occurrence ← find_type_occurrence file (start, end_);
  Ok (option_map (λ id, (id, (start, end_))) occurrence).
Definition implementation_class (expected_proxy : str) (candidate : PhpClassFact) : result ImplementationClass :=
  let proxy_parent := proxy_parent_of (cf_id candidate) in
  let proxy_matches :=
    match proxy_parent with Some parent => parent_names parent expected_proxy | None => false end in
  proxy_occurrence ←
    match proxy_matches, proxy_parent with
    | true, Some parent => proxy_occurrence_of (cf_file candidate) parent
    | _, _ => Ok None
    end;
  Ok (MkImplementation (cf_id candidate) (cf_file candidate) (cf_kind candidate) (cf_role candidate)
        (cf_complete candidate) (cf_conditional candidate) proxy_parent proxy_occurrence proxy_matches).

(** The classes a row's implementation may be: by its raw name, or else by its canonical name. *)
Definition implementation_candidates (raw : str) (canonical : option str) : list PhpClassFact :=
  match take (MAX_XF_CANDIDATES + 1) (raw_class_candidates hierarchy raw), canonical with
  | [], Some canonical => take (MAX_XF_CANDIDATES + 1) (canonical_class_candidates hierarchy canonical)
  | candidates, _ => candidates
  end.
Definition implementation_lookup (raw : str) (canonical : option str) (expected_proxy : str) (count : Z)
    : result (ImplementationLookup * Z) :=
  let candidates := implementation_candidates raw canonical in
  let truncated := MAX_XF_CANDIDATES <? length candidates in
  let candidates := take MAX_XF_CANDIDATES candidates in
  count ← charge_source_candidates count (length candidates);
  classes ← try_map (implementation_class expected_proxy) candidates;
  Ok (MkImplLookup classes truncated, count).

Definition class_target (candidate : PhpClassFact) : ClassTarget :=
  MkTarget (cf_id candidate) (cf_kind candidate) (cf_role candidate) (cf_complete candidate) (cf_conditional candidate).
Definition base_lookup (canonical_base : str) (count : Z) : result (list ClassTarget * bool * Z) :=
  let classes := class_target <$> take (MAX_XF_CANDIDATES + 1) (class_candidates hierarchy canonical_base) in
  let truncated := MAX_XF_CANDIDATES <? length classes in
  let classes := take MAX_XF_CANDIDATES classes in
  count ← charge_source_candidates count (length classes);
  Ok (classes, truncated, count).

(** The two caches with the count of the source candidates. *)
Record Caches := MkCaches {
  cc_implementations : ImplementationCache;
  cc_bases : BaseCache;
  cc_count : Z;
}.

Definition row_cache_key (row : PendingRow) : str * str * str :=
  (class_key (ce_to (pr_extension row)), default [] (class_key <$> pr_implementation row), proxy_key row).
Definition cached_implementation (row : PendingRow) (c : Caches) : result (ImplementationLookup * Caches) :=
  let key := row_cache_key row in
  match cc_implementations c !! key with
  | Some lookup => Ok (lookup, c)
  | None =>
      '(lookup, count) ← implementation_lookup (ce_to (pr_extension row)) (pr_implementation row) (pr_proxy row)
                           (cc_count c);
      Ok (lookup, MkCaches (<[key := lookup]> (cc_implementations c)) (cc_bases c) count)
  end.
Definition cached_base (base : str) (c : Caches) : result (list ClassTarget * bool * Caches) :=
  let key := class_key base in
  match cc_bases c !! key with
  | Some lookup => Ok (lookup, c)
  | None =>
      '(classes, truncated, count) ← base_lookup base (cc_count c);
      Ok (classes, truncated, MkCaches (cc_implementations c) (<[key := (classes, truncated)]> (cc_bases c)) count)
  end.

(** ** The second pass: the classes of each row *)

(** The caches, the rows, which implementations are base classes, and the rows
    and proxies of each implementation class. *)
Record LinkState := MkLink {
  ls_caches : Caches;
  ls_rows : RowState;
  ls_is_base : list nat;
  ls_owners : gmap Z (list (nat * str));
}.

Definition link_row (st : LinkState) (owner : nat) : result LinkState :=
  row ← or_err "index out of bounds" (rs_rows (ls_rows st) !! owner);
  match pr_implementation row, pr_base row with
  | Some _, Some base =>
      '(lookup, caches) ← cached_implementation row (ls_caches st);
      '(base_classes, base_truncated, caches) ← cached_base base caches;
      rows ← (if (1 <? length base_classes) || base_truncated
              then block_row "base_class_identity_ambiguous" (ls_rows st) owner
              else Ok (ls_rows st));
      let is_base := existsb (λ class, bool_decide (ic_id class ∈ ct_id <$> base_classes)) (il_classes lookup) in
      let rows := if is_base then MkRows (rs_rows rows) (block_key (base_key row) (rs_blocked rows)) else rows in
      Ok (MkLink caches rows
            (ls_is_base st ++ if is_base then [owner] else [])
            (match child_class_of lookup with
             | Some class => push_entry (ls_owners st) (ic_id class) (owner, proxy_key row)
             | None => ls_owners st
             end))
  | _, _ => Ok st
  end.

(** [rows[i].metadata_issues.push(..)] *)
Definition note_row (reason : string) (st : RowState) (owner : nat) : result RowState :=
  row ← or_err "index out of bounds" (rs_rows st !! owner);
  Ok (MkRows (<[owner := add_row_issue reason row]> (rs_rows st)) (rs_blocked st)).
Definition conflicting (owners : list (nat * str)) : bool :=
  2 <=? size (list_to_set (snd <$> owners) : gset str).
Definition second_pass (rows : RowState) : result (RowState * Caches) :=
  st ← try_foldl link_row (MkLink (MkCaches ∅ ∅ 0) rows [] ∅) (seq 0 (length (rs_rows rows)));
  rows ← try_foldl (note_row "implementation_is_base_class") (ls_rows st) (ls_is_base st);
  rows ← try_foldl (block_row "implementation_proxy_identity_conflict") rows
           (fst <$> concat (List.filter conflicting (snd <$> map_to_list (ls_owners st))));
  Ok (rows, ls_caches st).

(** ** The third pass: what each row publishes, and the registrations *)

Record PrepareState := MkPrepare {
  ps_caches : Caches;
  ps_prepared : PreparedChainProjection;
  ps_seen : gset (Z * nat * nat * str);
  ps_registrations : list (Registration RegistrationEvidence);
  ps_by_base : gmap str (list nat);
  ps_used : Z;
}.

Definition BASE_ROLE : str := lit "xenforo_extension_base".
Definition IMPLEMENTATION_ROLE : str := lit "xenforo_extension_implementation".
Definition add_class_occurrence (prepared : PreparedChainProjection) (u : PreparedClassOccurrenceUpdate)
    : PreparedChainProjection :=
  MkPrepared (pc_parent_edges prepared) (pc_placeholders prepared) (pc_class_occurrences prepared ++ [u])
    (pc_hierarchy_edges prepared) (pc_issues prepared).
Definition push_class_occurrence_update (row : PendingRow) (role name : str) (class_ids : list Z) (was_truncated : bool)
    (st : PrepareState) : result PrepareState :=
  let extension := pr_extension row in
  let span := if role =s BASE_ROLE then ce_from_span extension else ce_to_span extension in
  let identity := (ef_file (pr_file row), span.1, span.2, role) in
  _ ← ensure (negb (bool_decide (identity ∈ ps_seen st))) "duplicate XenForo class metadata occurrence update";
  let candidates := take MAX_XF_CANDIDATES (sort_dedup Z.compare class_ids) in
  let was_truncated := was_truncated || (MAX_XF_CANDIDATES <? length class_ids) in
  used ← charge (ps_used st) (Z.of_nat (length candidates + (length candidates `max` 1)));
  let provenance :=
    lit "xenforo_class_extensions_xml;" ++ issue_provenance row (lit "metadata_candidate") ++
    lit ";runtime_order_unverified" ++ (if was_truncated then lit ";xenforo_candidates_truncated" else []) in
  Ok (MkPrepare (ps_caches st)
        (add_class_occurrence (ps_prepared st)
           (MkClassOccurrence (ef_file (pr_file row)) span role name candidates (ce_tag_span extension) provenance))
        ({[identity]} ∪ ps_seen st) (ps_registrations st) (ps_by_base st) used).

Definition with_caches (c : Caches) (st : PrepareState) : PrepareState :=
  MkPrepare c (ps_prepared st) (ps_seen st) (ps_registrations st) (ps_by_base st) (ps_used st).
(** The updates of the names of the implementation and of the base. *)
Definition publish_names (row : PendingRow) (st : PrepareState) : result (ImplementationLookup * PrepareState) :=
  '(lookup, caches) ← cached_implementation row (ps_caches st);
  st ← push_class_occurrence_update row IMPLEMENTATION_ROLE (ce_to (pr_extension row)) (ic_id <$> il_classes lookup)
         (il_truncated lookup) (with_caches caches st);
  match pr_base row with
  | None => Ok (lookup, st)
  | Some base =>
      '(classes, truncated, caches) ← cached_base base (ps_caches st);
      st ← push_class_occurrence_update row BASE_ROLE (ce_from (pr_extension row)) (ct_id <$> classes) truncated
             (with_caches caches st);
      Ok (lookup, st)
  end.

Definition row_reasons (row : PendingRow) (base_blocked : bool) (lookup : ImplementationLookup) : list str :=
  let reasons := pr_issues row ++ when (bool_decide (pr_base row = None)) "base_lookup_unavailable" in
  reasons ++
  when (base_blocked && (length reasons =? 0)) "canonical_base_chain_blocked" ++
  when (bool_decide (pr_implementation row = None)) "implementation_lookup_unavailable" ++
  when (length (il_classes lookup) =? 0) "implementation_class_missing" ++
  when (il_truncated lookup) "implementation_candidates_truncated".
Definition blocked_row_projection (row : PendingRow) (reasons : list str) (classes : list ImplementationClass)
    : PreparedChainProjection :=
  append_projection
    (foldl (λ p class,
        append_projection p
          (add_incomplete_proxy_edge class row
             (join_reasons (reasons ++ proxy_readiness_issues class (pr_proxy row))) [] None))
       empty_projection classes)
    (if forallb (λ class, negb (ic_matches class) || bool_decide (ic_occurrence class = None)) classes
     then push_issue_row None row (join_reasons reasons) else empty_projection).

Definition registration_of (row : PendingRow) (base implementation : str) (priority : Z)
    : Registration RegistrationEvidence :=
  let extension := pr_extension row in
  MkRegistration _
    (show_i64 (ef_file (pr_file row)) ++ lit ":" ++ show_nat (pr_index row) ++ lit ":" ++ implementation)
    (class_key base) (class_key implementation) priority
    (MkEvidence (ef_file (pr_file row)) (pr_index row) (ce_tag_span extension) base (ce_to extension)
       (class_key (ce_to extension)) (class_key implementation) (pr_proxy row) priority).
Definition register (r : Registration RegistrationEvidence) (st : PrepareState) : PrepareState :=
  MkPrepare (ps_caches st) (ps_prepared st) (ps_seen st) (ps_registrations st ++ [r])
    (push_position (ps_by_base st) (reg_base r) (length (ps_registrations st))) (ps_used st).

(** What keeps a row out of the chain of its base. *)
Definition base_blocked (blocked : gset str) (row : PendingRow) : bool :=
  match base_key row with Some key => bool_decide (key ∈ blocked) | None => false end.
Definition publish_row (blocked : gset str) (st : PrepareState) (row : PendingRow) : result PrepareState :=
  '(lookup, st) ← publish_names row st;
  match pr_base row, pr_issues row, base_blocked blocked row with
  | Some base, [], false =>
      match ce_order (pr_extension row) with
      | None => Ok st
      | Some priority =>
          if negb (bool_decide (ce_active (pr_extension row) = Some true)) || ce_duplicate (pr_extension row)
          then Ok st
          else
            implementation ← or_err "validated XenForo implementation key disappeared" (pr_implementation row);
            Ok (register (registration_of row base implementation priority) st)
      end
  | _, _, _ =>
      let reasons := row_reasons row (base_blocked blocked row) lookup in
      '(prepared, used) ← charge_and_append (ps_prepared st) (blocked_row_projection row reasons (il_classes lookup))
                            (ps_used st);
      Ok (MkPrepare (ps_caches st) prepared (ps_seen st) (ps_registrations st) (ps_by_base st) used)
  end.

(** ** [prepare] *)

(** The chain of one base. *)
Definition publish_base (registrations : list (Registration RegistrationEvidence)) (c : Caches)
    (acc : PreparedChainProjection * Z) (entry : str * list nat) : result (PreparedChainProjection * Z) :=
  let '(prepared, used) := acc in
  let '(base, indices) := entry in
  graph ← build_chain_for_base base indices registrations;
  local ← project_base_graph registrations (cc_implementations c) (cc_bases c) graph indices;
  charge_and_append prepared local used.
Definition prepare (files : list ExtensionFile) (used : Z) : result (PreparedChainProjection * Z) :=
  rows ← first_pass files;
  '(rows, caches) ← second_pass rows;
  st ← try_foldl (publish_row (rs_blocked rows)) (MkPrepare caches empty_projection ∅ [] ∅ used) (rs_rows rows);
  '(prepared, used) ← try_foldl (publish_base (ps_registrations st) (ps_caches st)) (ps_prepared st, ps_used st)
                        (sort_by (cmp_on fst str_compare) (map_to_list (ps_by_base st)));
  prepared ← coalesce_placeholder_updates prepared;
  Ok (prepared, used).
End Lookups.
End Rows.

(** ** What the lookups find *)

Lemma try_foldl_inv {A B} (P : B → Prop) (f : B → A → result B) l b b' :
  P b → (∀ b x b', x ∈ l → P b → f b x = Ok b' → P b') → try_foldl f b l = Ok b' → P b'.
Proof.
  revert b. induction l as [|x l IH]; intros b Hb Hf; cbn; [by intros [= <-]|].
  intros (b1 & H1 & H)%bind_Ok. eapply (IH b1); [|intros; eapply Hf; [by right|done..]|done].
  eapply Hf; [by left|done..].
Qed.

Section Found.
Context `{UnicodeTables} (tables : PhpTables) (hierarchy : PhpHierarchyIndex).

(** A class as the hierarchy has it. *)
Definition class_of_fact (f : PhpClassFact) (class : ImplementationClass) : Prop :=
  ic_id class = cf_id f ∧ ic_kind class = cf_kind f ∧ ic_role class = cf_role f ∧
  ic_complete class = cf_complete f ∧ ic_conditional class = cf_conditional f.
(** The classes that a pair of folded names may stand for. *)
Definition implements (raw_key canonical_key : str) (f : PhpClassFact) : Prop :=
  ∃ raw canonical, class_key raw = raw_key ∧ default [] (class_key <$> canonical) = canonical_key ∧
    f ∈ implementation_candidates hierarchy raw canonical.
Definition declares_base (key : str) (f : PhpClassFact) : Prop :=
  ∃ name, class_key name = key ∧ f ∈ class_candidates hierarchy name.
Record caches_ok (c : Caches) : Prop := {
  co_implementations : ∀ raw canonical proxy lookup class,
    cc_implementations c !! (raw, canonical, proxy) = Some lookup → class ∈ il_classes lookup →
    ∃ f, implements raw canonical f ∧ class_of_fact f class;
  co_bases : ∀ key targets truncated t, cc_bases c !! key = Some (targets, truncated) → t ∈ targets →
    ∃ f, declares_base key f ∧ t = class_target f;
}.

Lemma implementation_class_fact proxy f class :
  implementation_class tables hierarchy proxy f = Ok class → class_of_fact f class.
Proof. unfold implementation_class. by intros (occurrence & _ & [= <-])%bind_Ok. Qed.

Lemma cached_implementation_ok row c lookup c' :
  cached_implementation tables hierarchy row c = Ok (lookup, c') → caches_ok c → caches_ok c'.
Proof.
  intros Hl [H1 H2]. unfold cached_implementation in Hl.
  destruct (cc_implementations c !! row_cache_key row); [by injection Hl as _ <-|].
  apply bind_Ok in Hl as ([lookup' count] & Hl & E). simplify_eq.
  split; [|done]. cbn. intros raw canonical proxy l class.
  destruct (decide ((raw, canonical, proxy) = row_cache_key row)) as [[= -> -> ->]|Hne].
  - change (row_cache_key row) with (row_cache_key row) at 1. rewrite lookup_insert_eq. intros [= <-] Hc.
    unfold implementation_lookup in Hl.
    apply bind_Ok in Hl as (n & _ & (classes & Hclasses & [= <- _])%bind_Ok).
    destruct (try_map_elem _ _ _ _ Hclasses Hc) as (f & Hf%subseteq_take & Hcf%implementation_class_fact).
    exists f. split; [|done]. by exists (ce_to (pr_extension row)), (pr_implementation row).
  - rewrite lookup_insert_ne by done. by apply H1.
Qed.
Lemma cached_base_ok base c targets truncated c' :
  cached_base hierarchy base c = Ok (targets, truncated, c') → caches_ok c → caches_ok c'.
Proof.
  intros Hl [H1 H2]. unfold cached_base in Hl.
  destruct (cc_bases c !! class_key base) as [[ts tr]|]; [by simplify_eq|].
  apply bind_Ok in Hl as ([[classes tr] count] & Hl & E). simplify_eq.
  split; [done|]. cbn. intros key ts tr' t.
  destruct (decide (key = class_key base)) as [->|Hne].
  - rewrite lookup_insert_eq. intros [= <- <-] Ht. unfold base_lookup in Hl.
    apply bind_Ok in Hl as (n & _ & [= <- _ _]).
    apply subseteq_take, list_elem_of_fmap in Ht as (f & -> & Hf%subseteq_take).
    exists f. split; [|done]. by exists base.
  - rewrite lookup_insert_ne by done. by apply H2.
Qed.
End Found.

(** ** Rows only gain reasons *)

(** A row at a later point. *)
Definition later (a b : PendingRow) : Prop :=
  pr_file b = pr_file a ∧ pr_index b = pr_index a ∧ pr_extension b = pr_extension a ∧ pr_base b = pr_base a ∧
  pr_implementation b = pr_implementation a ∧ pr_proxy b = pr_proxy a ∧ pr_issues a `prefix_of` pr_issues b.
#[export] Instance later_preorder : PreOrder later.
Proof.
  split; [by intros x|]. intros a b c (?&?&?&?&?&?&Hab) (?&?&?&?&?&?&Hbc).
  split_and!; try congruence. by trans (pr_issues b).
Qed.
Definition rows_later (a b : list PendingRow) : Prop := Forall2 later a b.

Lemma later_issue reason row : later row (add_row_issue reason row).
Proof. split_and!; try done. by eexists. Qed.
Lemma rows_later_insert rows owner reason row :
  rows !! owner = Some row → rows_later rows (<[owner := add_row_issue reason row]> rows).
Proof.
  intros Hr. unfold rows_later. rewrite <-(list_insert_id rows owner row Hr) at 1.
  apply Forall2_insert; [|apply later_issue]. apply Forall_Forall2_diag, Forall_true. done.
Qed.
Lemma block_row_later reason st owner st' :
  block_row reason st owner = Ok st' →
  rows_later (rs_rows st) (rs_rows st') ∧ rs_blocked st ⊆ rs_blocked st' ∧
  ∃ row, rs_rows st' !! owner = Some row ∧ pr_issues row ≠ [].
Proof.
  intros (row & Hr%or_err_Ok & [= <-])%bind_Ok. cbn. split_and!.
  - by apply rows_later_insert.
  - unfold block_key. destruct (base_key row); set_solver.
  - exists (add_row_issue reason row). rewrite list_lookup_insert_eq by (by eapply lookup_lt_Some).
    split; [done|]. cbn. by destruct (pr_issues row).
Qed.
Lemma note_row_later reason st owner st' :
  note_row reason st owner = Ok st' → rows_later (rs_rows st) (rs_rows st').
Proof. intros (row & Hr%or_err_Ok & [= <-])%bind_Ok. by apply rows_later_insert. Qed.

Lemma rows_later_lookup rows rows' k r' :
  rows_later rows rows' → rows' !! k = Some r' → ∃ r, rows !! k = Some r ∧ later r r'.
Proof. intros Hall Hk. by apply (Forall2_lookup_r _ _ _ _ _ Hall) in Hk. Qed.
Lemma later_clean a b : later a b → pr_issues b = [] → pr_issues a = [].
Proof. intros (_&_&_&_&_&_&[extra He]) Hb. rewrite Hb in He. by apply (eq_sym) , app_nil in He as [-> _]. Qed.
Lemma later_same_proxy a b : later a b → proxy_key b = proxy_key a.
Proof. intros (_&_&_&_&_&Hp&_). unfold proxy_key. by rewrite Hp. Qed.
#[export] Instance rows_later_preorder : PreOrder rows_later.
Proof. change (PreOrder (Forall2 later)). apply _. Qed.

(** ** Registrations come from clean rows *)

Lemma class_key_idem name : class_key (class_key name) = class_key name.
Proof.
  unfold class_key. pose proof (trim_no_leading name) as Hc. destruct (trim_backslashes name) as [|c rest]; [done|].
  change (lower (c :: rest)) with (to_ascii_lowercase_byte c :: lower rest).
  rewrite trim_cons_false by by rewrite lower_byte_backslash.
  change (lower (lower (c :: rest)) = lower (c :: rest)). apply to_ascii_lowercase_idemp.
Qed.

Lemma block_rows_mark reason owners st st' :
  try_foldl (block_row reason) st owners = Ok st' →
  rows_later (rs_rows st) (rs_rows st') ∧
  ∀ o, o ∈ owners → ∃ row, rs_rows st' !! o = Some row ∧ pr_issues row ≠ [].
Proof.
  revert st. induction owners as [|o owners IH]; intros st; cbn.
  - intros [= <-]. split; [done|]. by intros o ?%not_elem_of_nil.
  - intros (st1 & (Hl & _ & (row & Hrow & Hne))%block_row_later & [Hl2 Hall]%IH)%bind_Ok.
    split; [by trans (rs_rows st1)|]. intros o' [->|Ho]%elem_of_cons; [|by apply Hall].
    destruct (Forall2_lookup_l _ _ _ _ _ Hl2 Hrow) as (row' & Hrow' & Hlater). exists row'. split; [done|].
    intros Hnil. apply Hne. by eapply later_clean.
Qed.

Lemma elem_of_proxy_owners rows key k :
  k ∈ default [] (proxy_owners rows !! key) ↔ ∃ row, rows !! k = Some row ∧ proxy_key row = key.
Proof.
  unfold proxy_owners. induction rows as [|row rows IH] using rev_ind.
  - cbn. rewrite lookup_empty. cbn. rewrite elem_of_nil. naive_solver.
  - rewrite imap_pair_snoc, foldl_app. cbn [foldl fst snd]. unfold push_position at 1.
    assert ((∃ r, (rows ++ [row]) !! k = Some r ∧ proxy_key r = key) ↔
            (∃ r, rows !! k = Some r ∧ proxy_key r = key) ∨ k = length rows ∧ proxy_key row = key) as ->.
    { setoid_rewrite lookup_app_Some. setoid_rewrite list_lookup_singleton_Some.
      split.
      - intros (r & [Hr|(Hk & Hk' & <-)] & Hp); [left; by exists r|right; split; [lia|done]].
      - intros [(r & Hr & Hp)|[-> Hp]]; [exists r; split; [by left|done]|].
        exists row. split; [right; split_and!; [lia|lia|done]|done]. }
    destruct (decide (proxy_key row = key)) as [<-|Hne].
    + rewrite lookup_insert_eq. cbn [default from_option id]. rewrite elem_of_app, IH, list_elem_of_singleton. tauto.
    + rewrite lookup_insert_ne by done. rewrite IH. tauto.
Qed.

Section Justified.
Context `{UnicodeTables} (aliases : AliasSource) (tables : PhpTables) (hierarchy : PhpHierarchyIndex).

Definition sole_proxy (rows : list PendingRow) (k : nat) (row : PendingRow) : Prop :=
  ∀ k' row', rows !! k' = Some row' → proxy_key row' = proxy_key row → k' = k.

Lemma first_pass_clean files st :
  first_pass aliases files = Ok st →
  ∃ rows, read_rows aliases files = Ok rows ∧ rows_later rows (rs_rows st) ∧
    ∀ k row, rs_rows st !! k = Some row → pr_issues row = [] → sole_proxy rows k row.
Proof.
  intros (rows & Hrows & [Hl Hmark]%block_rows_mark)%bind_Ok. exists rows. split_and!; [done|done|].
  intros k row Hk Hclean k' row' Hk' Hp. destruct (decide (k' = k)) as [|Hne]; [done|exfalso].
  destruct (rows_later_lookup _ _ _ _ Hl Hk) as (row0 & Hk0 & Hlater%later_same_proxy).
  assert (k ∈ default [] (proxy_owners rows !! proxy_key row)) as H1 by (apply elem_of_proxy_owners; by exists row0).
  assert (k' ∈ default [] (proxy_owners rows !! proxy_key row)) as H2 by (apply elem_of_proxy_owners; by exists row').
  destruct (proxy_owners rows !! proxy_key row) as [owners|] eqn:Eo; cbn in H1, H2; [|by apply not_elem_of_nil in H1].
  destruct (Hmark k) as (r & Hr & Hr').
  - apply list_elem_of_In, in_concat. exists owners. split; [|by apply list_elem_of_In].
    apply filter_In. split.
    + apply list_elem_of_In, list_elem_of_fmap. exists (proxy_key row, owners). split; [done|]. by apply elem_of_map_to_list.
    + apply Nat.leb_le. destruct owners as [|a [|b owners]]; cbn; [by apply not_elem_of_nil in H1| |lia].
      apply list_elem_of_singleton in H1, H2. congruence.
  - rewrite Hk in Hr. by injection Hr as <-.
Qed.

Lemma second_pass_ok rows rows' c :
  second_pass tables hierarchy rows = Ok (rows', c) →
  rows_later (rs_rows rows) (rs_rows rows') ∧ caches_ok hierarchy c.
Proof.
  intros (st & Hlink & (r1 & Hnote & (r2 & [Hblock _]%block_rows_mark & [= <- <-])%bind_Ok)%bind_Ok)%bind_Ok.
  assert (rows_later (rs_rows rows) (rs_rows (ls_rows st)) ∧ caches_ok hierarchy (ls_caches st)) as [Hl Hc].
  { revert Hlink. apply (try_foldl_inv (λ st, rows_later (rs_rows rows) (rs_rows (ls_rows st)) ∧ caches_ok hierarchy (ls_caches st))).
    { split; [done|]. split; intros *; cbn; by rewrite lookup_empty. }
    intros st0 o st1 _ [Hl0 Hc0] (row & Hrow%or_err_Ok & Hlink)%bind_Ok.
    destruct (pr_implementation row); [|by injection Hlink as <-].
    destruct (pr_base row); [|by injection Hlink as <-].
    apply bind_Ok in Hlink as ([lookup c1] & Hc1%cached_implementation_ok & Hlink); [|done].
    apply bind_Ok in Hlink as ([[ts tr] c2] & Hc2%cached_base_ok & Hlink); [|done].
    apply bind_Ok in Hlink as (rs & Hrs & [= <-]). cbn. split; [|done].
    trans (rs_rows rs); [|by destruct (existsb _ _)].
    destruct (_ || tr); [|by injection Hrs as <-]. apply block_row_later in Hrs as [Hrs _]. by trans (rs_rows (ls_rows st0)). }
  split; [|done]. trans (rs_rows (ls_rows st)); [done|]. trans (rs_rows r1); [|done].
  revert Hnote. apply (try_foldl_inv (λ r, rows_later (rs_rows (ls_rows st)) (rs_rows r))); [done|].
  intros r o r' _ Hr Hr'%note_row_later. by trans (rs_rows r).
Qed.

(** A registration made of a row without reasons against it. *)
Definition row_registration (row : PendingRow) (r : Registration RegistrationEvidence) : Prop :=
  ∃ base implementation priority,
    pr_base row = Some base ∧ pr_implementation row = Some implementation ∧
    ce_order (pr_extension row) = Some priority ∧ ce_active (pr_extension row) = Some true ∧
    ce_duplicate (pr_extension row) = false ∧ r = registration_of row base implementation priority.
Record publish_inv (rows : list PendingRow) (st : PrepareState) : Prop := {
  pi_caches : caches_ok hierarchy (ps_caches st);
  pi_edges : pc_parent_edges (ps_prepared st) = [];
  pi_registrations : ∀ r, r ∈ ps_registrations st → ∃ row, row ∈ rows ∧ pr_issues row = [] ∧ row_registration row r;
  pi_by_base : ∀ base indices i, ps_by_base st !! base = Some indices → i ∈ indices →
    ∃ r, ps_registrations st !! i = Some r ∧ reg_base r = base;
}.

Lemma push_class_occurrence_inv rows row role name ids truncated st st' :
  push_class_occurrence_update row role name ids truncated st = Ok st' → publish_inv rows st → publish_inv rows st'.
Proof.
  intros (u & _ & (used & _ & [= <-])%bind_Ok)%bind_Ok [H1 H2 H3 H4]. by split.
Qed.
Lemma with_caches_inv rows c st : caches_ok hierarchy c → publish_inv rows st → publish_inv rows (with_caches c st).
Proof. intros Hc [H1 H2 H3 H4]. by split. Qed.
Lemma publish_names_inv rows row st lookup st' :
  publish_names tables hierarchy row st = Ok (lookup, st') → publish_inv rows st → publish_inv rows st'.
Proof.
  intros Hp Hinv. apply bind_Ok in Hp as ([l c] & Hc%cached_implementation_ok & Hp); [|apply Hinv].
  apply bind_Ok in Hp as (st1 & Hst1%(push_class_occurrence_inv rows) & Hp); [|by apply with_caches_inv].
  destruct (pr_base row); [|by simplify_eq].
  apply bind_Ok in Hp as ([[ts tr] c2] & Hc2%cached_base_ok & Hp); [|apply Hst1].
  apply bind_Ok in Hp as (st2 & Hst2%(push_class_occurrence_inv rows) & Hp); [by simplify_eq|by apply with_caches_inv].
Qed.

Lemma blocked_row_no_edges row reasons classes : pc_parent_edges (blocked_row_projection row reasons classes) = [].
Proof.
  unfold blocked_row_projection. cbn [append_projection pc_parent_edges].
  match goal with |- ?a ++ ?b = [] => assert (a = []) as -> end.
  2: { by destruct (forallb _ classes). }
  assert (pc_parent_edges empty_projection = []) as Hacc by done. revert Hacc. generalize empty_projection.
  induction classes as [|class classes IH]; intros acc Hacc; cbn [foldl]; [done|]. apply IH. cbn. rewrite Hacc.
  unfold placeholder_of. destruct (ic_matches class); [|done]. by destruct (ic_occurrence class) as [[? ?]|].
Qed.

Lemma register_inv rows row r st :
  row ∈ rows → pr_issues row = [] → row_registration row r → publish_inv rows st → publish_inv rows (register r st).
Proof.
  intros Hrow Hclean Hr [H1 H2 H3 H4]. split; cbn; [done|done| |].
  - intros r' [Hr'| ->%list_elem_of_singleton]%elem_of_app; [by apply H3|by exists row].
  - intros base indices i. unfold push_position. destruct (decide (base = reg_base r)) as [->|Hne].
    + rewrite lookup_insert_eq. intros [= <-] [Hi| ->%list_elem_of_singleton]%elem_of_app.
      * destruct (ps_by_base st !! reg_base r) as [old|] eqn:E; [|by apply not_elem_of_nil in Hi].
        destruct (H4 _ _ _ E Hi) as (r' & Hr' & Hb). exists r'. split; [by apply lookup_app_l_Some|done].
      * exists r. split; [by rewrite list_lookup_middle|done].
    + rewrite lookup_insert_ne by done. intros Hb Hi. destruct (H4 _ _ _ Hb Hi) as (r' & Hr' & Hb').
      exists r'. split; [by apply lookup_app_l_Some|done].
Qed.

Lemma publish_row_inv rows blocked st row st' :
  row ∈ rows → publish_inv rows st → publish_row tables hierarchy blocked st row = Ok st' → publish_inv rows st'.
Proof.
  intros Hrow Hinv Hp. apply bind_Ok in Hp as ([lookup st1] & Hst1%(publish_names_inv rows) & Hp); [|done].
  assert (∀ reasons classes st2,
    ('(prepared, used) ← charge_and_append (ps_prepared st1) (blocked_row_projection row reasons classes) (ps_used st1);
     Ok (MkPrepare (ps_caches st1) prepared (ps_seen st1) (ps_registrations st1) (ps_by_base st1) used)) = Ok st2 →
    publish_inv rows st2) as Hblocked.
  { intros reasons classes st2 ([prepared used] & (u & _ & E)%bind_Ok & [= <-])%bind_Ok. simplify_eq.
    destruct Hst1 as [H1 H2 H3 H4]. split; [done| |done|done].
    change (pc_parent_edges (ps_prepared st1) ++ pc_parent_edges (blocked_row_projection row reasons classes) = []).
    by rewrite H2, blocked_row_no_edges. }
  destruct (pr_base row) as [base|] eqn:Eb; [|by eapply Hblocked].
  destruct (pr_issues row) eqn:Ei; [|by eapply Hblocked].
  destruct (base_blocked blocked row); [by eapply Hblocked|].
  destruct (ce_order (pr_extension row)) as [priority|] eqn:Eo; [|by simplify_eq].
  destruct (negb (bool_decide (ce_active (pr_extension row) = Some true)) || ce_duplicate (pr_extension row)) eqn:Ea;
    [by simplify_eq|].
  apply orb_false_iff in Ea as [Ea%negb_false_iff%bool_decide_eq_true Ed].
  apply bind_Ok in Hp as (implementation & Himpl%or_err_Ok & [= <-]).
  apply (register_inv rows row); [done|done| |done]. by exists base, implementation, priority.
Qed.

(** ** Every published edge has its rows *)

Section Edges.
Context (files : list ExtensionFile) (rows : list PendingRow).

Definition declared_in (row : PendingRow) : Prop :=
  pr_file row ∈ files ∧ ef_extensions (pr_file row) !! pr_index row = Some (pr_extension row).
(** A row that says all it has to say. *)
Definition applicable (row : PendingRow) : Prop :=
  ∃ base implementation priority,
    pr_base row = Some base ∧ pr_implementation row = Some implementation ∧
    ce_order (pr_extension row) = Some priority ∧ (0 ≤ priority)%Z ∧
    ce_active (pr_extension row) = Some true ∧ ce_duplicate (pr_extension row) = false.
Definition stands_alone (row : PendingRow) : Prop :=
  declared_in row ∧ applicable row ∧ ∃ k, rows !! k = Some row ∧ sole_proxy rows k row.
Definition plain (f : PhpClassFact) : Prop :=
  cf_kind f = CkClass ∧ cf_role f = CrOrdinary ∧ cf_complete f = true ∧ cf_conditional f = false.
Definition implemented_by (row : PendingRow) (f : PhpClassFact) : Prop :=
  implements hierarchy (class_key (ce_to (pr_extension row))) (default [] (class_key <$> pr_implementation row)) f.
(** What may come before a row: its base class, or the class of a row of the same base. *)
Definition precedes (row : PendingRow) (g : PhpClassFact) : Prop :=
  (∃ key, base_key row = Some key ∧ declares_base hierarchy key g) ∨
  ∃ row', stands_alone row' ∧ base_key row' = base_key row ∧ implemented_by row' g.
Definition justified (p : PreparedParentEdge) : Prop :=
  ∃ row f g, stands_alone row ∧ pe_file p = ef_file (pr_file row) ∧ pe_span p = ce_tag_span (pr_extension row) ∧
    implemented_by row f ∧ plain f ∧ precedes row g ∧ plain g ∧
    pe_child p = cf_id f ∧ pe_predecessor p = cf_id g ∧ cf_id f ≠ cf_id g.

Lemma read_rows_declared row :
  read_rows aliases files = Ok rows → row ∈ rows →
  declared_in row ∧ pr_issues row = metadata_issues (pr_extension row) (pr_base row) (pr_implementation row).
Proof.
  intros (rs & Hrs & [= <-])%bind_Ok Hrow. apply list_elem_of_In, in_concat in Hrow as (l & Hl & Hrow).
  apply list_elem_of_In in Hl, Hrow. destruct (try_map_elem _ _ _ _ Hrs Hl) as ([file [i e]] & Hin & Hr).
  apply list_elem_of_bind in Hin as (file' & Hin & Hfile). apply list_elem_of_fmap in Hin as ([i' e'] & [= -> -> ->] & Hin).
  apply elem_of_lookup_imap in Hin as (j & x & [= -> ->] & Hx).
  unfold read_row in Hr. cbn [fst snd] in Hr. case_bool_decide; [injection Hr as <-; by apply not_elem_of_nil in Hrow|].
  apply bind_Ok in Hr as (proxy & _ & [= <-]). apply list_elem_of_singleton in Hrow as ->. done.
Qed.
Lemma later_clean_eq a b : later a b → pr_issues b = [] → b = a.
Proof.
  intros Hl Hb. pose proof (later_clean _ _ Hl Hb) as Ha. destruct Hl as (?&?&?&?&?&?&_). destruct a, b; cbn in *; congruence.
Qed.

Context (final : list PendingRow)
        (Hclean : ∀ row, row ∈ final → pr_issues row = [] → ∃ k, rows !! k = Some row ∧ sole_proxy rows k row)
        (Hread : read_rows aliases files = Ok rows).

Lemma registration_stands row r :
  row ∈ final → pr_issues row = [] → row_registration row r → stands_alone row.
Proof.
  intros Hrow Hnil (base & implementation & priority & Hb & Hi & Ho & Ha & Hd & _).
  destruct (Hclean row Hrow Hnil) as (k & Hk & Hsole).
  destruct (read_rows_declared row Hread) as [Hdecl Hissues]; [by eapply list_elem_of_lookup_2|].
  split_and!; [done| |by exists k]. exists base, implementation, priority. split_and!; try done.
  rewrite Hnil in Hissues. unfold metadata_issues in Hissues. rewrite Ho in Hissues.
  apply eq_sym, app_nil in Hissues as [_ Hissues]. apply app_nil in Hissues as [Hissues _].
  apply when_nil in Hissues. lia.
Qed.

Context (st : PrepareState) (Hst : publish_inv final st).
Abbreviation registered := (λ index e, ∃ r, ps_registrations st !! index = Some r ∧ evidence r = e).

(** The row behind a registration of a base, and the class in its cache entry. *)
Lemma registered_row base indices index e class :
  ps_by_base st !! base = Some indices → index ∈ indices → registered index e →
  cc_implementations (ps_caches st) !! implementation_cache_key e = Some (MkImplLookup [class] false) →
  ∃ row f, stands_alone row ∧ base_key row = Some base ∧ re_file e = ef_file (pr_file row) ∧
    re_tag_span e = ce_tag_span (pr_extension row) ∧ implemented_by row f ∧ class_of_fact f class.
Proof.
  intros Hbase Hindex (r & Hr & <-) Hcache. destruct (pi_by_base _ _ Hst _ _ _ Hbase Hindex) as (r' & Hr' & Hb).
  rewrite Hr in Hr'. injection Hr' as <-.
  destruct (pi_registrations _ _ Hst r) as (row & Hrow & Hnil & Hreg); [by eapply list_elem_of_lookup_2|].
  pose proof (registration_stands row r Hrow Hnil Hreg) as Halone.
  destruct Hreg as (b & implementation & priority & Eb & Ei & _ & _ & _ & ->). cbn in *.
  destruct (co_implementations _ _ (pi_caches _ _ Hst) _ _ _ _ class Hcache) as (f & Hf & Hc); [by left|].
  exists row, f. split_and!; try done.
  - unfold base_key. by rewrite Eb, <-Hb.
  - unfold implemented_by. by rewrite Ei.
Qed.

Lemma publish_base_justified base indices acc acc' :
  ps_by_base st !! base = Some indices →
  publish_base (ps_registrations st) (ps_caches st) acc (base, indices) = Ok acc' →
  (∀ p, p ∈ pc_parent_edges acc.1 → justified p) → ∀ p, p ∈ pc_parent_edges acc'.1 → justified p.
Proof.
  intros Hbase Hp Hacc p Hin. destruct acc as [prepared used].
  apply bind_Ok in Hp as (graph & Hgraph & (local & Hlocal & (u & _ & [= <-])%bind_Ok)%bind_Ok).
  cbn in Hin. apply elem_of_app in Hin as [Hin|Hin]; [by apply Hacc|].
  apply projection_parts in Hlocal as (done_ & es & part & Hinv & _ & Hsub & -> & Hpart & _).
  cbn in Hin. rewrite Hpart, app_nil_r in Hin.
  destruct (ei_justified _ _ _ _ _ Hinv p Hin) as (edge & child & implementation & t & Hedge & Hcert & Hpub).
  apply Hsub in Hedge. destruct (build_chain_within _ _ _ _ _ Hgraph Hedge) as (Eb & Hc & Hpred).
  destruct Hcert as (Hreg & Hcache & Hready & Hleads & Hplain & Hne).
  destruct (registered_row _ _ _ _ _ Hbase Hc Hreg Hcache) as (row & f & Hrow & Hkey & Hfile & Hspan & Hf & Hff).
  destruct Hpub as (P1 & P2 & P3 & P4). destruct Hff as (F1 & F2 & F3 & F4 & F5).
  destruct Hready as (R1 & R2 & R3 & R4 & _). destruct Hplain as (T1 & T2 & T3 & T4).
  assert (∃ g, precedes row g ∧ ct_id t = cf_id g ∧ ct_kind t = cf_kind g ∧ ct_role t = cf_role g ∧
            ct_complete t = cf_complete g ∧ ct_conditional t = cf_conditional g) as (g & Hg & G1 & G2 & G3 & G4 & G5).
  { unfold leads_to in Hleads. destruct (edge_predecessor edge) as [index|] eqn:Ep.
    - destruct Hleads as (e & class & Hreg' & Hcache' & _ & ->).
      destruct (registered_row _ _ _ _ _ Hbase (Hpred index eq_refl) Hreg' Hcache')
        as (row' & g & Hrow' & Hkey' & _ & _ & Hg & G1 & G2 & G3 & G4 & G5).
      exists g. split; [|done]. right. exists row'. by rewrite Hkey, Hkey'.
    - rewrite Eb in Hleads. destruct (co_bases _ _ (pi_caches _ _ Hst) _ _ _ t Hleads) as (g & Hg & ->); [by left|].
      exists g. split; [|done]. left. exists base. split; [done|].
      unfold base_key in Hkey. destruct (pr_base row) as [b|]; [|done]. injection Hkey as <-.
      by rewrite class_key_idem in Hg. }
  exists row, f, g. unfold plain. split_and!; try done; congruence.
Qed.
End Edges.
End Justified.

(** Every predecessor edge that is published comes from the rows of the files.
    It is at the tag of an enabled row, declared once, with a known order of at
    least zero and with both names resolved, whose proxy no other enabled row
    claims; it leads from a class that the hierarchy has for the name of the
    row's implementation to one it has for the name of the row's base, or of the
    implementation of another such row of the same base; and both are plain,
    complete and unconditional classes, and not the same one. *)
Theorem prepared_edges_justified `{UnicodeTables} (aliases : AliasSource) (tables : PhpTables)
    (hierarchy : PhpHierarchyIndex) (files : list ExtensionFile) (rows : list PendingRow) (used used' : Z)
    (prepared : PreparedChainProjection) :
  read_rows aliases files = Ok rows →
  prepare aliases tables hierarchy files used = Ok (prepared, used') →
  Forall (justified hierarchy files rows) (pc_parent_edges prepared).
Proof.
  intros Hread Hp. apply bind_Ok in Hp as (first & Hfirst & Hp).
  destruct (first_pass_clean _ _ _ Hfirst) as (rows' & Hread' & Hl1 & Hsole). rewrite Hread in Hread'. injection Hread' as <-.
  apply bind_Ok in Hp as ([second caches] & [Hl2 Hcaches]%second_pass_ok & Hp).
  assert (∀ row, row ∈ rs_rows second → pr_issues row = [] → ∃ k, rows !! k = Some row ∧ sole_proxy rows k row) as Hclean.
  { intros row [k Hk]%list_elem_of_lookup Hnil. exists k.
    destruct (rows_later_lookup _ _ _ _ Hl2 Hk) as (row1 & Hk1 & Hlater%later_clean_eq); [|done]. subst row1.
    destruct (rows_later_lookup _ _ _ _ Hl1 Hk1) as (row0 & Hk0 & Hlater%later_clean_eq); [|done]. subst row0.
    split; [done|by apply Hsole]. }
  apply bind_Ok in Hp as (st & Hst & Hp).
  apply (try_foldl_inv (publish_inv hierarchy (rs_rows second))) in Hst.
  2: { split; cbn; [done|done|by intros ? ?%not_elem_of_nil|by intros ? ? ? ?%lookup_empty_Some]. }
  2: { intros b row b' Hrow Hb. by apply publish_row_inv. }
  apply bind_Ok in Hp as ([prepared1 used1] & Hbases & (prepared2 & (unique & _ & [= <-])%bind_Ok & [= <- <-])%bind_Ok).
  apply Forall_forall. cbn [pc_parent_edges].
  change prepared1 with (prepared1, used1).1. revert Hbases.
  apply (try_foldl_inv (λ acc, ∀ p, p ∈ pc_parent_edges acc.1 → justified hierarchy files rows p)).
  - cbn. rewrite (pi_edges _ _ _ Hst). by intros p ?%not_elem_of_nil.
  - intros acc [base indices] acc' Hentry Hacc Hpub. rewrite elem_of_sort_by in Hentry. apply elem_of_map_to_list in Hentry.
    eapply publish_base_justified; done.
Qed.

Module ChainRowsExample.
#[local] Existing Instance AsciiTables.tables.
(** [XF\Pub\Page] extended by [Add\Page] and then by [More\Page], whose parents
    are [Add\XFCP_Page] and [More\XFCP_Page]. *)
Definition extension (to_class : string) (at_ : nat) (order : Z) : ClassExtension :=
  MkExtension (lit "XF\Pub\Page") (at_ + 20, at_ + 31) (lit to_class) (at_ + 40, at_ + 50) (at_, at_ + 90)
    (Some true) (Some order) false.
Definition file (id : Z) (addon to_class : string) (order : Z) : ExtensionFile :=
  MkExtensionFile id (lit addon) (lit "src/addons/" ++ lit addon) [extension to_class 10 order].
Definition files : list ExtensionFile := [file 7 "Add" "Add\Page" 10; file 8 "More" "More\Page" 20].
Definition class (id file_ : Z) (fqcn : string) : PhpClassFact :=
  MkClassFact id file_ (lit "Page.php") (lit fqcn) (Some (lit fqcn)) CkClass CrOrdinary true false false false.
Definition proxy_parent (child : Z) (proxy : string) : PhpParentCandidate :=
  MkParentCandidate child (lit proxy) (Some (lit proxy)) None 40 52 PkXfcpProxy [] PsCandidates false None None.
Definition hierarchy : PhpHierarchyIndex :=
  from_facts [class 1 1 "XF\Pub\Page"; class 2 2 "Add\Page"; class 3 3 "More\Page"] []
    [proxy_parent 2 "Add\XFCP_Page"; proxy_parent 3 "More\XFCP_Page"].
Definition parent_name (id file_ : Z) (name : string) : OccurrenceEntry :=
  MkOccurrenceEntry id file_ (lit name) 40 52 (lit "type") None [] (lit "php_fqcn").
Definition tables : PhpTables :=
  MkPhpTables [] [] [parent_name 5 2 "Add\XFCP_Page"; parent_name 6 3 "More\XFCP_Page"] [].
Definition aliases : AliasSource := MkAliasSource [] [] [].
Definition rows : list PendingRow := default [] (ok (read_rows aliases files)).
Definition two_prepared : PreparedChainProjection :=
  from_option fst empty_projection (ok (prepare aliases tables hierarchy files 0)).

(** The first extends the base, the second the first. *)
Example chain_linked :
  (λ p, (pe_child p, pe_predecessor p, pe_file p)) <$> pc_parent_edges two_prepared = [(2, 1, 7); (3, 2, 8)]%Z ∧
  (λ u, (pu_occurrence u, pu_targets u)) <$> pc_placeholders two_prepared = [(5, [1]); (6, [2])]%Z ∧
  (λ u, (co_file u, co_classes u)) <$> pc_class_occurrences two_prepared = [(7, [2]); (7, [1]); (8, [3]); (8, [1])]%Z ∧
  (λ h, (pp_child h, pp_ids h, pp_status h)) <$> pc_hierarchy_edges two_prepared =
    [(2, [1], PsCandidates); (3, [2], PsCandidates)]%Z ∧
  pc_issues two_prepared = [].
Proof. vm_compute. done. Qed.
(** Two rows for one proxy are left out of the chain, which is blocked whole. *)
Example shared_proxy_blocked :
  match prepare aliases tables hierarchy (files ++ [file 9 "Add" "Add\Page" 30]) 0 with
  | Ok (p, _) => (pc_parent_edges p, length (pc_issues p))
  | Err _ => ([], 0)
  end = ([], 3).
Proof. vm_compute. done. Qed.

Lemma prepared_edges_justified_witness :
  length (pc_parent_edges two_prepared) = 2 ∧ Forall (justified hierarchy files rows) (pc_parent_edges two_prepared).
Proof.
  split; [by vm_compute|].
  apply (prepared_edges_justified aliases tables hierarchy files rows 0
           (from_option snd 0%Z (ok (prepare aliases tables hierarchy files 0)))).
  - vm_compute. reflexivity.
  - vm_compute. reflexivity.
Defined.
End ChainRowsExample.
