(* ===== verification/Xenforo.v ===== *)
(** * XenForo add-ons and their class extensions

    Models [src/src/store/php_resolver/xenforo.rs]: the metadata files of the
    add-ons, what is published for their requirements and class extensions, and
    the pass that turns the extensions into chains.  The tables are those of
    [PhpNames]; a new row takes the next row id of SQLite. *)
From Stdlib Require Import Ascii String ZArith Lia Sorted.
From stdpp Require Import base numbers list gmap strings.
From S2P Require Import Prelude Order Text Paths Hits Collections QueryShape Hierarchy Aliases PhpMarkers PhpNames PhpParents ParentCalls.
From S2P Require Import Manifest Extensions ChainFacts ChainRows.

Definition MAX_METADATA_FILES : nat := Z.to_nat 10000.

(** ** Data *)

Record AddonManifest := MkManifest {
  am_file : Z;
  am_directory : str;
  am_id : str;
  am_len : nat;
  am_requirements : list ManifestRequirement;
  am_definition : Z;
}.
Record ExtensionFileIssue := MkFileIssue {
  xi_file : Z;
  xi_directory : str;
  xi_len : nat;
  xi_code : string;
}.
Record AddonOwner := MkOwner { ao_id : str; ao_definition : Z }.

(** ** [LIKE] *)

Inductive LikeToken := LkByte (c : ascii) | LkOne | LkMany.
Fixpoint like_pattern (escape : option ascii) (pattern : str) : list LikeToken :=
  match pattern with
  | [] => []
  | c :: rest =>
      if bool_decide (escape = Some c) then
        match rest with d :: rest => LkByte d :: like_pattern escape rest | [] => [] end
      else (if c =c "%"%char then LkMany else if c =c "_"%char then LkOne else LkByte c) :: like_pattern escape rest
  end.
(** A byte matches in either case of ASCII; [_] is one character. *)
Fixpoint like (pattern : list LikeToken) (s : str) : bool :=
  match pattern with
  | [] => s =s []
  | LkByte c :: pattern =>
      match s with
      | d :: s => (to_ascii_lowercase_byte c =c to_ascii_lowercase_byte d) && like pattern s
      | [] => false
      end
  | LkOne :: pattern =>
      match s with d :: s => like pattern (drop_while is_cont s) | [] => false end
  | LkMany :: pattern =>
      (fix tails (s : str) : bool := like pattern s || match s with [] => false | _ :: s => tails s end) s
  end.
Definition manifest_path (path : str) : bool := like (like_pattern None (lit "src/addons/%/addon.json")) path.
Definition extensions_path (path : str) : bool :=
  like (like_pattern (Some "!"%char) (lit "src/addons/%/!_data/class_extensions.xml")) path.

(** ** Loading *)

Definition metadata_file_count (tables : PhpTables) : nat :=
  length (List.filter (λ f, manifest_path (pf_path f) || extensions_path (pf_path f)) (ph_files tables)).
(** [files JOIN contents ... ORDER BY f.path] *)
Definition stored_files (tables : PhpTables) (selected : str → bool) : list (PhpFile * str) :=
  omap (λ f, bytes ← pf_bytes f; Some (f, bytes))
    (sort_by (cmp_on pf_path str_compare) (List.filter (λ f, selected (pf_path f)) (ph_files tables))).

Definition dot_component (component : str) : bool :=
  (component =s []) || (component =s lit ".") || (component =s lit "..").
Definition addon_location (path suffix : str) : option (str * str) :=
  tail ← strip_prefix (lit "src/addons/") path;
  tail ← strip_suffix suffix tail;
  if (tail =s []) || starts_with (lit "/") tail || ends_with (lit "/") tail
     || existsb dot_component (split_char "/"%char tail)
  then None
  else
    decoded ← ok (decode_path tail);
    if utf8_valid decoded then Some (decoded, lit "src/addons/" ++ tail) else None.
Definition MANIFEST_SUFFIX : str := lit "/addon.json".
Definition EXTENSIONS_SUFFIX : str := lit "/_data/class_extensions.xml".

Section Load.
Context (parse_value : str → result Json) (parse_string : str → result str)
        (read_events : str → list (result (XmlEvent * nat))).

Fixpoint manifests_from (rows : list (PhpFile * str)) (scanned total : nat) (manifests : list AddonManifest)
    : result (list AddonManifest) :=
  match rows with
  | [] => Ok manifests
  | (f, source) :: rows =>
      let scanned := S scanned in
      if MAX_METADATA_FILES <? scanned then Err "XenForo metadata file limit exceeded"
      else if MAX_METADATA_SOURCE_BYTES <? length source then manifests_from rows scanned total manifests
      else match addon_location (pf_path f) MANIFEST_SUFFIX, parse_manifest parse_value parse_string source with
           | Some (id, directory), Ok requirements =>
               let total := total + length requirements in
               _ ← ensure (total <=? MAX_METADATA_FACTS) "XenForo manifest fact limit exceeded";
               manifests_from rows scanned total
                 (manifests ++ [MkManifest (pf_id f) directory id (length source) requirements 0])
           | _, _ => manifests_from rows scanned total manifests
           end
  end.
Definition load_manifests (tables : PhpTables) : result (list AddonManifest) :=
  manifests_from (stored_files tables manifest_path) 0 0 [].

Fixpoint extension_files_from (rows : list (PhpFile * str)) (scanned total : nat)
    (files : list ExtensionFile) (issues : list ExtensionFileIssue)
    : result (list ExtensionFile * list ExtensionFileIssue) :=
  match rows with
  | [] => Ok (files, issues)
  | (f, source) :: rows =>
      let scanned := S scanned in
      if MAX_METADATA_FILES <? scanned then Err "XenForo metadata file limit exceeded"
      else match addon_location (pf_path f) EXTENSIONS_SUFFIX with
           | None => extension_files_from rows scanned total files issues
           | Some (addon_id, directory) =>
               let issue code := issues ++ [MkFileIssue (pf_id f) directory (length source) code] in
               if MAX_METADATA_SOURCE_BYTES <? length source then
                 extension_files_from rows scanned total files (issue "extension_metadata_too_large"%string)
               else match parse_class_extensions read_events source with
                    | Err _ =>
                        extension_files_from rows scanned total files (issue "malformed_extension_metadata"%string)
                    | Ok extensions =>
                        let total := total + length extensions in
                        _ ← ensure (total <=? MAX_METADATA_FACTS) "XenForo extension fact limit exceeded";
                        extension_files_from rows scanned total
                          (files ++ [MkExtensionFile (pf_id f) addon_id directory extensions]) issues
                    end
           end
  end.
Definition load_extension_files (tables : PhpTables) : result (list ExtensionFile * list ExtensionFileIssue) :=
  extension_files_from (stored_files tables extensions_path) 0 0 [] [].
End Load.

(** ** Publishing

    The tables with the count of the rows changed since the baseline. *)

Record Publication := MkPublication { pb_tables : PhpTables; pb_changes : nat }.

Definition next_id (ids : list Z) : Z := foldr Z.max 0%Z ids + 1.
Definition insert_definition (file : Z) (name kind : str) (container : option str) (span : Span) (p : Publication)
    : Z * Publication :=
  let t := pb_tables p in
  let id := next_id (de_id <$> ph_definitions t) in
  (id, MkPublication
         (MkPhpTables (ph_files t)
            (ph_definitions t ++ [MkDefinitionEntry id file name kind (Z.of_nat span.1) (Z.of_nat span.2) container])
            (ph_occurrences t) (ph_relations t))
         (S (pb_changes p))).
Definition insert_occurrence (file : Z) (name : str) (span : Span) (role : str) (target : option Z)
    (candidates : list Z) (provenance : str) (p : Publication) : Publication :=
  let t := pb_tables p in
  let id := next_id (oe_id <$> ph_occurrences t) in
  MkPublication
    (MkPhpTables (ph_files t) (ph_definitions t)
       (ph_occurrences t ++
        [MkOccurrenceEntry id file name (Z.of_nat span.1) (Z.of_nat span.2) role target candidates provenance])
       (ph_relations t))
    (S (pb_changes p)).
Definition insert_relationship (source : Z) (target : option Z) (kind : str) (file : Z) (span : Span)
    (provenance : str) (p : Publication) : Publication :=
  MkPublication
    (add_relations (pb_tables p)
       [MkRelationEntry source target kind file (Z.of_nat span.1) (Z.of_nat span.2) provenance])
    (S (pb_changes p)).
Definition ensure_fact_budget (p : Publication) : result Publication :=
  _ ← ensure (pb_changes p <=? MAX_METADATA_FACTS) "XenForo metadata fact limit exceeded";
  Ok p.
(** One relationship for each target, or one without a target. *)
Definition insert_targets (source : Z) (kind unresolved : str) (file : Z) (span : Span) (provenance : str)
    (targets : list Z) (p : Publication) : Publication :=
  match targets with
  | [] => insert_relationship source None unresolved file span provenance p
  | targets =>
      foldl (λ p target, insert_relationship source (Some target) kind file span provenance p) p
        (take MAX_XF_CANDIDATES targets)
  end.

(** ** What is published *)

Abbreviation AddonIds := (gmap str (list Z)).
Abbreviation AddonDirectories := (gmap str AddonOwner).

Definition truncation_note (b : bool) : str := if b then lit ";xenforo_candidates_truncated" else [].

(** The definitions of the add-ons, and the add-ons by id and by directory. *)
Definition define_addon (acc : list AddonManifest * AddonIds * AddonDirectories * Publication) (m : AddonManifest)
    : result (list AddonManifest * AddonIds * AddonDirectories * Publication) :=
  let '(manifests, addon_ids, addon_directories, p) := acc in
  let '(id, p) := insert_definition (am_file m) (am_id m) (lit "addon") None (0, am_len m) p in
  p ← ensure_fact_budget p;
  Ok (manifests ++ [MkManifest (am_file m) (am_directory m) (am_id m) (am_len m) (am_requirements m) id],
      push_entry addon_ids (am_id m) id, <[am_directory m := MkOwner (am_id m) id]> addon_directories, p).

Definition is_platform (name : str) : bool := (name =s lit "XF") || (name =s lit "php").
Definition REQUIREMENT : str := lit "xenforo_addon_requirement".
Definition publish_requirement (addon_ids : AddonIds) (m : AddonManifest) (p : Publication)
    (r : ManifestRequirement) : result Publication :=
  let matches := default [] (addon_ids !! rq_name r) in
  let candidates := if is_platform (rq_name r) || rq_duplicate r then [] else matches in
  let provenance :=
    (if rq_duplicate r then lit "xenforo_addon_json_require;duplicate_requirement_key"
     else if is_platform (rq_name r) then lit "xenforo_addon_json_require;platform_requirement"
     else if length candidates =? 0 then lit "xenforo_addon_json_require;target_missing"
     else lit "xenforo_addon_json_require;declared_requirement") ++
    truncation_note ((MAX_XF_CANDIDATES <? length matches) && negb (is_platform (rq_name r)) && negb (rq_duplicate r)) in
  let candidates := take MAX_XF_CANDIDATES candidates in
  let span := (rq_start r, rq_end r) in
  ensure_fact_budget
    (insert_targets (am_definition m) (REQUIREMENT ++ lit "_candidate") REQUIREMENT (am_file m) span provenance candidates
       (insert_occurrence (am_file m) (rq_name r) span REQUIREMENT None candidates provenance p)).
Definition publish_requirements (manifests : list AddonManifest) (addon_ids : AddonIds) (p : Publication)
    : result Publication :=
  try_foldl (λ p m, try_foldl (publish_requirement addon_ids m) p (am_requirements m)) p manifests.

(** [package_directory_for_file]: each turn drops a component. *)
Fixpoint package_loop (fuel : nat) (addon_directories : AddonDirectories) (path : str) : option str :=
  match fuel with
  | O => None
  | S fuel =>
      match rsplit_once "/"%char path with
      | None => None
      | Some (directory, _) =>
          if bool_decide (is_Some (addon_directories !! directory)) then Some directory
          else package_loop fuel addon_directories directory
      end
  end.
Definition package_directory_for_file (file_path : str) (addon_directories : AddonDirectories) : option str :=
  package_loop (S (length file_path)) addon_directories file_path.

Definition class_candidate_ids (candidates : list PhpClassCandidate) : list Z :=
  pc_id <$> take MAX_XF_CANDIDATES candidates.
(** [insert_class_candidates]; the unresolved kind has no [_candidate] at its end. *)
Definition insert_class_candidates (source file : Z) (span : Span) (unresolved : string) (provenance : str)
    (candidates : list Z) (p : Publication) : Publication :=
  insert_targets source (lit unresolved ++ lit "_candidate") (lit unresolved) file span provenance candidates p.

Section Extension.
Context (classes : PhpClassIndex) (addon_ids : AddonIds) (addon_directories : AddonDirectories).

(** The definitions of the other add-ons that the base classes belong to, by add-on. *)
Definition target_step (source_addon : AddonOwner) (targets : gmap str (list Z)) (candidate : PhpClassCandidate)
    : gmap str (list Z) :=
  match package_directory_for_file (pc_path candidate) addon_directories with
  | None => targets
  | Some directory =>
      match addon_directories !! directory with
      | None => targets
      | Some target =>
          if ao_id target =s ao_id source_addon then targets
          else <[ao_id target := default [] (targets !! ao_id target) ++ default [] (addon_ids !! ao_id target)]> targets
      end
  end.
Definition publish_target (source_addon : AddonOwner) (file : Z) (span : Span) (provenance : str) (p : Publication)
    (entry : str * list Z) : Publication :=
  let '(target_id, definitions) := entry in
  let unique := sort_dedup Z.compare definitions in
  let relation_provenance :=
    provenance ++ lit ";cross_addon_target=" ++ target_id ++ lit ";declared_extension_only" ++
    truncation_note (MAX_XF_CANDIDATES <? length unique) in
  insert_targets (ao_definition source_addon) (lit "xenforo_addon_extension_dependency_candidate")
    (lit "xenforo_addon_extension_dependency") file span relation_provenance unique p.

Definition publish_addon_extension_candidates (file : ExtensionFile) (extension : ClassExtension)
    (implementations bases : list PhpClassCandidate) (provenance : str) (p : Publication) : Publication :=
  match addon_directories !! ef_directory file with
  | None => p
  | Some source_addon =>
      match take 2 (List.filter (λ c, bool_decide (package_directory_for_file (pc_path c) addon_directories
                                                   = Some (ef_directory file)))
                      (take (MAX_XF_CANDIDATES + 1) implementations)) with
      | [implementation] =>
          let bases := take MAX_XF_CANDIDATES bases in
          let p := foldl (λ p candidate,
                     insert_relationship (pc_id implementation) (Some (pc_id candidate))
                       (lit "xenforo_class_extension_candidate") (ef_file file) (ce_tag_span extension)
                       (provenance ++ lit ";implementation_to_declared_base") p) p bases in
          foldl (publish_target source_addon (ef_file file) (ce_tag_span extension) provenance) p
            (map_to_list (foldl (target_step source_addon) ∅ bases))
      | _ => p
      end
  end.

Definition extension_state (extension : ClassExtension) : str :=
  lit "active=" ++ show_option show_active (ce_active extension) ++
  lit ";execute_order=" ++ show_option show_i64 (ce_order extension) ++ lit ";" ++
  (if ce_duplicate extension then lit "duplicate_declaration"
   else if bool_decide (ce_active extension = Some false) then lit "declared_disabled"
   else lit "runtime_xfcp_chain_unresolved").
Definition publish_extension (file : ExtensionFile) (p : Publication) (extension : ClassExtension)
    : result Publication :=
  let active := bool_decide (ce_active extension = Some true) && negb (ce_duplicate extension) in
  let provenance := lit "xenforo_class_extensions_xml;" ++ extension_state extension in
  let '(definition, p) :=
    insert_definition (ef_file file) (ce_to extension) (lit "xenforo_class_extension") (Some (ef_addon file))
      (ce_tag_span extension) p in
  let bases := if active then candidates classes (ce_from extension) else [] in
  let implementations := if active then candidates classes (ce_to extension) else [] in
  let base_candidates := class_candidate_ids bases in
  let implementation_candidates := class_candidate_ids implementations in
  let base_provenance := provenance ++ truncation_note (MAX_XF_CANDIDATES <? length bases) in
  let implementation_provenance := provenance ++ truncation_note (MAX_XF_CANDIDATES <? length implementations) in
  let p := insert_occurrence (ef_file file) (ce_from extension) (ce_from_span extension) BASE_ROLE None
             base_candidates base_provenance p in
  let p := insert_occurrence (ef_file file) (ce_to extension) (ce_to_span extension) IMPLEMENTATION_ROLE None
             implementation_candidates implementation_provenance p in
  let p := insert_class_candidates definition (ef_file file) (ce_tag_span extension)
             "xenforo_class_extension" base_provenance base_candidates p in
  let p := insert_class_candidates definition (ef_file file) (ce_tag_span extension)
             "xenforo_class_extension_implementation" implementation_provenance implementation_candidates p in
  ensure_fact_budget
    (if active
     then publish_addon_extension_candidates file extension implementations bases base_provenance p
     else p).
Definition publish_extensions (files : list ExtensionFile) (p : Publication) : result Publication :=
  try_foldl (λ p file, try_foldl (publish_extension file) p (ef_extensions file)) p files.

Definition publish_file_issue (p : Publication) (issue : ExtensionFileIssue) : result Publication :=
  match addon_directories !! xi_directory issue with
  | None => Ok p
  | Some owner =>
      ensure_fact_budget
        (insert_relationship (ao_definition owner) None (lit "inheritance_issue") (xi_file issue) (0, xi_len issue)
           (lit "xenforo_class_extensions_xml;" ++ lit (xi_code issue)) p)
  end.
Definition publish_extension_file_issues (issues : list ExtensionFileIssue) (p : Publication) : result Publication :=
  try_foldl publish_file_issue p issues.
End Extension.

(** ** [chain_projection.rs] *)

Definition relate (t : PhpTables) (source : Z) (target : option Z) (kind : str) (file : Z) (span : Span)
    (provenance : str) : PhpTables :=
  add_relations t [MkRelationEntry source target kind file (Z.of_nat span.1) (Z.of_nat span.2) provenance].
Definition EXTENSION_KIND : str := lit "xenforo_class_extension".
Definition PARENT_KIND : str := lit "framework_parent_candidate".
Definition located (file : Z) (span : Span) : bool := (0 <? file)%Z && (span.1 <? span.2).

Definition project_edge (t : PhpTables) (e : PreparedParentEdge) : result PhpTables :=
  _ ← ensure ((0 <? pe_child e)%Z && (0 <? pe_predecessor e)%Z && located (pe_file e) (pe_span e))
        "invalid source in prepared XenForo parent edge";
  Ok (relate t (pe_child e) (Some (pe_predecessor e)) PARENT_KIND (pe_file e) (pe_span e) (pe_provenance e)).

(** The count and the id of the declaration with a span. *)
Definition extension_definition (t : PhpTables) (file : Z) (span : Span) : option Z :=
  match List.filter (λ d, (de_file d =? file)%Z && (de_kind d =s EXTENSION_KIND)
                          && (de_start d =? Z.of_nat span.1)%Z && (de_end d =? Z.of_nat span.2)%Z) (ph_definitions t) with
  | [d] => Some (de_id d)
  | _ => None
  end.
Definition project_issue (t : PhpTables) (i : PreparedChainIssue) : result PhpTables :=
  _ ← ensure (located (ci_file i) (ci_span i)) "invalid evidence in prepared XenForo inheritance issue";
  source ←
    match ci_child i with
    | Some child => Ok child
    | None =>
        extension ← or_err "XenForo inheritance issue has no unique XML declaration"
                      (extension_definition t (ci_file i) (ci_span i));
        _ ← ensure (match ci_extension i with Some expected => (expected =? extension)%Z | None => true end)
              "XenForo inheritance issue definition does not match its XML span";
        Ok extension
    end;
  _ ← ensure (0 <? source)%Z "invalid source ID in XenForo inheritance issue";
  Ok (relate t source None (lit "inheritance_issue") (ci_file i) (ci_span i) (ci_provenance i)).

(** An [UPDATE] that has to change one row. *)
Definition update_one (selected : OccurrenceEntry → bool) (f : OccurrenceEntry → OccurrenceEntry) (msg : string)
    (t : PhpTables) : result PhpTables :=
  _ ← ensure (length (List.filter selected (ph_occurrences t)) =? 1) msg;
  Ok (MkPhpTables (ph_files t) (ph_definitions t) ((λ o, if selected o then f o else o) <$> ph_occurrences t)
        (ph_relations t)).
Definition set_untargeted (candidates : list Z) (provenance : str) (o : OccurrenceEntry) : OccurrenceEntry :=
  MkOccurrenceEntry (oe_id o) (oe_file o) (oe_name o) (oe_start o) (oe_end o) (oe_role o) None candidates provenance.
Definition valid_candidates (candidates : list Z) : bool :=
  (length candidates <=? MAX_XF_CANDIDATES) && forallb (λ c, 0 <? c)%Z candidates.
Definition occurrence_spanned (file : Z) (span : Span) (role : str) (o : OccurrenceEntry) : bool :=
  (oe_file o =? file)%Z && (oe_start o =? Z.of_nat span.1)%Z && (oe_end o =? Z.of_nat span.2)%Z && (oe_role o =s role).

Definition extension_kinds (role : str) : option (str * str) :=
  if role =s BASE_ROLE then Some (EXTENSION_KIND ++ lit "_candidate", EXTENSION_KIND)
  else if role =s IMPLEMENTATION_ROLE then
    Some (EXTENSION_KIND ++ lit "_implementation_candidate", EXTENSION_KIND ++ lit "_implementation")
  else None.
Definition relation_at (source file : Z) (span : Span) (kinds : list str) (r : RelationEntry) : bool :=
  (rl_source r =? source)%Z && (rl_file r =? file)%Z && (rl_start r =? Z.of_nat span.1)%Z
  && (rl_end r =? Z.of_nat span.2)%Z && existsb (λ k, rl_kind r =s k) kinds.
Definition project_class_occurrence (acc : PhpTables * gset (Z * nat * nat * str)) (u : PreparedClassOccurrenceUpdate)
    : result (PhpTables * gset (Z * nat * nat * str)) :=
  let '(t, seen) := acc in
  _ ← ensure (located (co_file u) (co_span u)) "invalid XenForo class occurrence update evidence";
  let identity := (co_file u, (co_span u).1, (co_span u).2, co_role u) in
  _ ← ensure (negb (bool_decide (identity ∈ seen))) "duplicate XenForo class occurrence update";
  let candidates := sort_dedup Z.compare (co_classes u) in
  _ ← ensure (valid_candidates candidates) "invalid XenForo class occurrence candidates";
  t ← update_one (λ o, occurrence_spanned (co_file u) (co_span u) (co_role u) o && (oe_name o =s co_name u))
        (set_untargeted candidates (co_provenance u)) "prepared XenForo class occurrence is missing or changed" t;
  extension ← or_err "XenForo class occurrence has no unique extension declaration"
                (extension_definition t (co_file u) (co_tag_span u));
  '(candidate_kind, unresolved_kind) ← or_err "unsupported XenForo class occurrence role" (extension_kinds (co_role u));
  let kept := List.filter (λ r, negb (relation_at extension (co_file u) (co_tag_span u) [candidate_kind; unresolved_kind] r))
                (ph_relations t) in
  let row kind target := MkRelationEntry extension target kind (co_file u) (Z.of_nat (co_tag_span u).1)
                           (Z.of_nat (co_tag_span u).2) (co_provenance u) in
  let rows := match candidates with
              | [] => [row unresolved_kind None]
              | _ => (λ target, row candidate_kind (Some target)) <$> candidates
              end in
  Ok (MkPhpTables (ph_files t) (ph_definitions t) (ph_occurrences t) (kept ++ rows), {[identity]} ∪ seen).

Definition project_placeholder (acc : PhpTables * gset Z) (u : PreparedPlaceholderUpdate)
    : result (PhpTables * gset Z) :=
  let '(t, seen) := acc in
  _ ← ensure (negb (bool_decide (pu_occurrence u ∈ seen))) "duplicate XenForo placeholder update";
  _ ← ensure (0 <? pu_occurrence u)%Z "invalid placeholder occurrence ID";
  _ ← ensure (0 <? pu_file u)%Z "invalid placeholder source file ID";
  _ ← ensure ((pu_span u).1 <? (pu_span u).2) "invalid placeholder source span";
  _ ← ensure (negb (pu_provenance u =s [])) "placeholder provenance is empty";
  let candidates := sort_dedup Z.compare (pu_targets u) in
  _ ← ensure (length candidates <=? MAX_XF_CANDIDATES) "XenForo placeholder candidate limit exceeded";
  _ ← ensure (forallb (λ c, 0 <? c)%Z candidates) "invalid class ID in XenForo placeholder candidates";
  t ← update_one (λ o, (oe_id o =? pu_occurrence u)%Z && occurrence_spanned (pu_file u) (pu_span u) (lit "type") o)
        (λ o, set_untargeted candidates (oe_provenance o ++ lit ";" ++ pu_provenance u) o)
        "prepared XenForo placeholder occurrence is missing or changed" t;
  Ok (t, {[pu_occurrence u]} ∪ seen).

Definition project (t : PhpTables) (prepared : PreparedChainProjection) : result PhpTables :=
  t ← try_foldl project_edge t (pc_parent_edges prepared);
  t ← try_foldl project_issue t (pc_issues prepared);
  '(t, _) ← try_foldl project_class_occurrence (t, ∅) (pc_class_occurrences prepared);
  '(t, _) ← try_foldl project_placeholder (t, ∅) (pc_placeholders prepared);
  Ok t.

(** ** The passes *)

Definition evidence_key (p : PhpParentCandidate) : Z * Z * Z := (pp_child p, pp_start p, pp_end p).
(** [parents_by_evidence], a [BTreeMap], and the replacements it makes. *)
Definition parents_by_evidence (edges : list PhpParentCandidate) : list (Z * Z * Z * list PhpParentCandidate) :=
  sort_by (cmp_on fst (pair_compare (pair_compare Z.compare Z.compare) Z.compare))
    (map_to_list (foldl (λ m p, push_entry m (evidence_key p) p) ∅ edges)).
Definition replace_parents (hierarchy : PhpHierarchyIndex) (edges : list PhpParentCandidate) : PhpHierarchyIndex :=
  foldl (λ h entry, let '((child, start, end_), replacements) := entry in
                    replace_proxy_parent_candidates h child start end_ replacements)
    hierarchy (parents_by_evidence edges).

Section Passes.
Context (parse_value : str → result Json) (parse_string : str → result str)
        (read_events : str → list (result (XmlEvent * nat))) `{UnicodeTables}.

(** What the pass publishes before the chains, with the files of the extensions. *)
Definition publish_metadata (classes : PhpClassIndex) (tables : PhpTables)
    : result (list ExtensionFile * Publication) :=
  _ ← ensure (metadata_file_count tables <=? MAX_METADATA_FILES) "XenForo metadata file limit exceeded";
  manifests ← load_manifests parse_value parse_string tables;
  '(extensions, extension_issues) ← load_extension_files read_events tables;
  let parsed_facts := sum_list_with (λ m, length (am_requirements m)) manifests +
                      sum_list_with (λ f, length (ef_extensions f)) extensions in
  _ ← ensure (parsed_facts <=? MAX_METADATA_FACTS) "XenForo metadata fact limit exceeded";
  '(manifests, addon_ids, addon_directories, p) ← try_foldl define_addon ([], ∅, ∅, MkPublication tables 0) manifests;
  p ← publish_requirements manifests addon_ids p;
  p ← publish_extensions classes addon_ids addon_directories extensions p;
  p ← publish_extension_file_issues addon_directories extension_issues p;
  Ok (extensions, p).

(** [xenforo::resolve]; its transaction is dropped on an error. *)
Definition resolve_xenforo (classes : PhpClassIndex) (hierarchy : PhpHierarchyIndex) (aliases : AliasSource)
    (tables : PhpTables) (used : Z) : result (PhpTables * PhpHierarchyIndex * Z) :=
  '(extensions, p) ← publish_metadata classes tables;
  '(prepared, used) ← prepare aliases (pb_tables p) hierarchy extensions used;
  tables ← project (pb_tables p) prepared;
  Ok (tables, replace_parents hierarchy (pc_hierarchy_edges prepared), used).

Context (parse_php : str → ParseOutcome).
Definition load_alias_source (tables : PhpTables) : AliasSource :=
  parse_aliases parse_php
    (default [] (head (omap pf_bytes (List.filter (λ f, (pf_path f =s lit "src/XF.php") && (pf_language f =s lit "php"))
                                        (ph_files tables))))).

(** [php_resolver::resolve] *)
Definition resolve_php (tables : PhpTables) : result PhpTables :=
  let classes := class_index tables in
  let tables := resolve_names tables classes in
  let aliases := load_alias_source tables in
  let hierarchy := build_index (λ name, canonicalize_class_name name aliases) tables in
  '(tables, used) ← project_parents hierarchy tables 0;
  '(tables, hierarchy, used) ← resolve_xenforo classes hierarchy aliases tables used;
  '(tables, used) ← resolve_parent_calls hierarchy tables used;
  Ok (MkPhpTables (ph_files tables) (ph_definitions tables) (ph_occurrences tables)
        (List.filter (λ r, negb (rl_kind r =s MARKER_KIND)) (ph_relations tables))).
End Passes.

(** ** What the passes leave as it was *)

(** The kinds of relationships that the passes may take away again. *)
Definition passing_kinds : list str :=
  [MARKER_KIND; EXTENSION_KIND; EXTENSION_KIND ++ lit "_candidate"; EXTENSION_KIND ++ lit "_implementation";
   EXTENSION_KIND ++ lit "_implementation_candidate"].
Definition added_kinds : list str := [lit "addon"; EXTENSION_KIND].
(** What an occurrence is, apart from what it resolves to. *)
Definition occurrence_key (o : OccurrenceEntry) : Z * Z * str * Z * Z * str :=
  (oe_id o, oe_file o, oe_name o, oe_start o, oe_end o, oe_role o).

Record grown (t t' : PhpTables) : Prop := {
  gr_files : ph_files t' = ph_files t;
  gr_definitions : ∃ added, ph_definitions t' = ph_definitions t ++ added ∧
    Forall (λ d, de_kind d ∈ added_kinds) added;
  gr_occurrences : (occurrence_key <$> ph_occurrences t) `prefix_of` (occurrence_key <$> ph_occurrences t');
  gr_relations : ∀ r, r ∈ ph_relations t → rl_kind r ∉ passing_kinds → r ∈ ph_relations t';
}.
#[export] Instance grown_preorder : PreOrder grown.
Proof.
  split.
  - intros t. split; [done| |done|done]. exists []. by rewrite app_nil_r.
  - intros a b c [F1 (d1 & D1 & K1) O1 R1] [F2 (d2 & D2 & K2) O2 R2]. split.
    + congruence.
    + exists (d1 ++ d2). rewrite D2, D1, app_assoc. split; [done|]. by apply Forall_app.
    + by trans (occurrence_key <$> ph_occurrences b).
    + auto.
Qed.
(** Growth without a new predecessor edge. *)
Definition quiet (t t' : PhpTables) : Prop :=
  grown t t' ∧ ∀ r, rl_kind r = PARENT_KIND → r ∈ ph_relations t' → r ∈ ph_relations t.
#[export] Instance quiet_preorder : PreOrder quiet.
Proof. split; [by intros t|]. intros a b c [G1 P1] [G2 P2]. split; [by trans b|]. auto. Qed.

Lemma grown_relations t rows : grown t (add_relations t rows).
Proof.
  split; cbn; [done|exists []; by rewrite app_nil_r|done|]. intros r Hr _. apply elem_of_app. by left.
Qed.
Lemma quiet_relations t rows : Forall (λ r, rl_kind r ≠ PARENT_KIND) rows → quiet t (add_relations t rows).
Proof.
  intros Hk. split; [apply grown_relations|]. intros r Hr [Hin|Hin]%elem_of_app; [done|].
  rewrite Forall_forall in Hk. by destruct (Hk r Hin).
Qed.
(** Rewriting what occurrences resolve to, and dropping rows of a passing kind. *)
Lemma quiet_rewrite t (f : OccurrenceEntry → OccurrenceEntry) (P : RelationEntry → bool) :
  (∀ o, occurrence_key (f o) = occurrence_key o) → (∀ r, P r = false → rl_kind r ∈ passing_kinds) →
  quiet t (MkPhpTables (ph_files t) (ph_definitions t) (f <$> ph_occurrences t) (List.filter P (ph_relations t))).
Proof.
  intros Hf HP. split.
  - split; cbn; [done|exists []; by rewrite app_nil_r| |].
    + replace (occurrence_key <$> (f <$> ph_occurrences t)) with (occurrence_key <$> ph_occurrences t); [done|].
      rewrite <-list_fmap_compose. apply list_fmap_ext. intros i o _. by rewrite <-Hf.
    + intros r Hr Hk. apply list_elem_of_In, filter_In. split; [by apply list_elem_of_In|].
      destruct (P r) eqn:E; [done|]. by destruct Hk; apply HP.
  - cbn. intros r _ Hr. by apply list_elem_of_In, filter_In in Hr as [Hr%list_elem_of_In _].
Qed.
Lemma filter_true {A} (l : list A) : List.filter (λ _, true) l = l.
Proof. induction l; cbn; congruence. Qed.
Lemma quiet_occurrences t (f : OccurrenceEntry → OccurrenceEntry) :
  (∀ o, occurrence_key (f o) = occurrence_key o) →
  quiet t (MkPhpTables (ph_files t) (ph_definitions t) (f <$> ph_occurrences t) (ph_relations t)).
Proof. intros Hf. pose proof (quiet_rewrite t f (λ _, true) Hf) as Hq. rewrite filter_true in Hq. by apply Hq. Qed.

(** A loop of growing steps grows. *)
Lemma try_foldl_preorder {A B} (R : B → B → Prop) `{!PreOrder R} (f : B → A → result B) l b b' :
  (∀ b x b', x ∈ l → f b x = Ok b' → R b b') → try_foldl f b l = Ok b' → R b b'.
Proof.
  intros Hf. apply (try_foldl_inv (R b)); [done|]. intros b1 x b2 Hx H1 H2. trans b1; [done|by eapply Hf].
Qed.
Lemma foldl_preorder {A B} (R : B → B → Prop) `{!PreOrder R} (f : B → A → B) l b :
  (∀ b x, R b (f b x)) → R b (foldl f b l).
Proof. intros Hf. revert b. induction l as [|x l IH]; intros b; cbn; [done|]. trans (f b x); [done|apply IH]. Qed.

(** *** Publishing *)

Definition quietly (p p' : Publication) : Prop := quiet (pb_tables p) (pb_tables p').
#[export] Instance quietly_preorder : PreOrder quietly.
Proof. split; [by intros p|]. intros a b c ? ?. unfold quietly. by trans (pb_tables b). Qed.

Lemma insert_definition_quietly file name kind container span p :
  kind ∈ added_kinds → quietly p (insert_definition file name kind container span p).2.
Proof.
  intros Hk. split; [|by cbn]. split; cbn; [done| |done|done].
  eexists. split; [done|]. by apply Forall_singleton.
Qed.
Lemma insert_occurrence_quietly file name span role target candidates provenance p :
  quietly p (insert_occurrence file name span role target candidates provenance p).
Proof.
  split; [|by cbn]. split; cbn; [done|exists []; by rewrite app_nil_r| |done].
  rewrite fmap_app. by eexists.
Qed.
Lemma insert_relationship_quietly source target kind file span provenance p :
  kind ≠ PARENT_KIND → quietly p (insert_relationship source target kind file span provenance p).
Proof. intros Hk. apply quiet_relations. by apply Forall_singleton. Qed.
Lemma insert_targets_quietly source kind unresolved file span provenance targets p :
  kind ≠ PARENT_KIND → unresolved ≠ PARENT_KIND →
  quietly p (insert_targets source kind unresolved file span provenance targets p).
Proof.
  intros Hk Hu. unfold insert_targets. destruct targets as [|t ts]; [by apply insert_relationship_quietly|].
  apply (foldl_preorder quietly). intros p' x. by apply insert_relationship_quietly.
Qed.
Lemma ensure_budget_Ok p p' : ensure_fact_budget p = Ok p' → p' = p.
Proof. by intros (u & _ & [= <-])%bind_Ok. Qed.

Lemma define_addon_quietly acc m acc' : define_addon acc m = Ok acc' → quietly acc.2 acc'.2.
Proof.
  destruct acc as [[[ms ids] dirs] p]. unfold define_addon. intros (p' & ->%ensure_budget_Ok & [= <-])%bind_Ok.
  apply (insert_definition_quietly (am_file m) (am_id m) (lit "addon") None (0, am_len m) p). by left.
Qed.
Lemma publish_requirements_quietly manifests ids p p' :
  publish_requirements manifests ids p = Ok p' → quietly p p'.
Proof.
  apply (try_foldl_preorder quietly). intros p1 m p2 _. apply (try_foldl_preorder quietly).
  intros q1 r q2 _ ->%ensure_budget_Ok. etrans; [|by apply insert_targets_quietly]. apply insert_occurrence_quietly.
Qed.

Section Quiet.
Context (classes : PhpClassIndex) (addon_ids : AddonIds) (addon_directories : AddonDirectories).

Lemma publish_candidates_quietly file extension implementations bases provenance p :
  quietly p (publish_addon_extension_candidates addon_ids addon_directories file extension implementations bases provenance p).
Proof.
  unfold publish_addon_extension_candidates. destruct (addon_directories !! ef_directory file); [|done].
  destruct (take 2 _) as [|i [|? ?]]; [done| |done]. cbn zeta.
  match goal with |- quietly p (foldl _ ?q _) => trans q end.
  - apply (foldl_preorder quietly). intros q c. by apply insert_relationship_quietly.
  - apply (foldl_preorder quietly). intros q [id ds]. by apply insert_targets_quietly.
Qed.
Lemma publish_extension_quietly file p extension p' :
  publish_extension classes addon_ids addon_directories file p extension = Ok p' → quietly p p'.
Proof.
  unfold publish_extension. destruct (insert_definition _ _ _ _ _ _) as [definition p1] eqn:E1.
  assert (quietly p p1) as H1.
  { change p1 with (definition, p1).2. rewrite <-E1. apply insert_definition_quietly. right. by left. }
  intros ->%ensure_budget_Ok. set (p2 := insert_occurrence _ _ _ BASE_ROLE _ _ _ _).
  set (p3 := insert_occurrence _ _ _ IMPLEMENTATION_ROLE _ _ _ _).
  set (p4 := insert_class_candidates _ _ _ "xenforo_class_extension" _ _ _).
  set (p5 := insert_class_candidates _ _ _ "xenforo_class_extension_implementation" _ _ _).
  assert (quietly p p5) as H5.
  { trans p1; [done|]. trans p2; [apply insert_occurrence_quietly|]. trans p3; [apply insert_occurrence_quietly|].
    trans p4; by apply insert_targets_quietly. }
  destruct (_ && _); [|done]. trans p5; [done|]. apply publish_candidates_quietly.
Qed.
Lemma publish_extensions_quietly files p p' :
  publish_extensions classes addon_ids addon_directories files p = Ok p' → quietly p p'.
Proof.
  apply (try_foldl_preorder quietly). intros p1 f p2 _. apply (try_foldl_preorder quietly).
  intros q1 e q2 _. apply publish_extension_quietly.
Qed.
Lemma publish_issues_quietly issues p p' :
  publish_extension_file_issues addon_directories issues p = Ok p' → quietly p p'.
Proof.
  apply (try_foldl_preorder quietly). intros p1 i p2 _. unfold publish_file_issue.
  destruct (addon_directories !! xi_directory i); [|by intros [= <-]].
  intros ->%ensure_budget_Ok. by apply insert_relationship_quietly.
Qed.
End Quiet.

Lemma publish_metadata_quiet parse_value parse_string read_events classes tables extensions p :
  publish_metadata parse_value parse_string read_events classes tables = Ok (extensions, p) →
  load_extension_files read_events tables = Ok (extensions, default [] (ok (snd <$> load_extension_files read_events tables))) ∧
  quiet tables (pb_tables p).
Proof.
  intros (u & _ & (manifests & _ & ([files issues] & Hfiles & (u' & _ & H)%bind_Ok)%bind_Ok)%bind_Ok)%bind_Ok.
  apply bind_Ok in H as ([[[ms ids] dirs] p1] & H1 & H).
  apply bind_Ok in H as (p2 & H2%publish_requirements_quietly & H).
  apply bind_Ok in H as (p3 & H3%publish_extensions_quietly & H).
  apply bind_Ok in H as (p4 & H4%publish_issues_quietly & [= <- <-]).
  split; [by rewrite Hfiles|].
  assert (quietly (MkPublication tables 0) p1) as H1'.
  { revert H1. apply (try_foldl_inv (λ acc, quietly (MkPublication tables 0) acc.2)); [done|].
    intros acc m acc' _ Hacc Hm%define_addon_quietly. by trans acc.2. }
  change (quietly (MkPublication tables 0) p4). trans p1; [done|]. trans p2; [done|]. by trans p3.
Qed.

(** *** Projecting *)

Lemma project_edge_grown t e t' : project_edge t e = Ok t' →
  t' = relate t (pe_child e) (Some (pe_predecessor e)) PARENT_KIND (pe_file e) (pe_span e) (pe_provenance e).
Proof. by intros (u & _ & [= <-])%bind_Ok. Qed.
Lemma project_issue_quiet t i t' : project_issue t i = Ok t' → quiet t t'.
Proof.
  intros (u & _ & (source & _ & (u' & _ & [= <-])%bind_Ok)%bind_Ok)%bind_Ok. apply quiet_relations.
  by apply Forall_singleton.
Qed.
Lemma update_one_quiet selected f msg t t' :
  update_one selected f msg t = Ok t' → (∀ o, occurrence_key (f o) = occurrence_key o) → quiet t t'.
Proof.
  intros (u & _ & [= <-])%bind_Ok Hf. apply quiet_occurrences. intros o. by destruct (selected o).
Qed.
Lemma extension_kinds_passing role a b :
  extension_kinds role = Some (a, b) →
  (∀ k, k ∈ [a; b] → k ∈ passing_kinds) ∧ a ≠ PARENT_KIND ∧ b ≠ PARENT_KIND.
Proof.
  unfold extension_kinds, passing_kinds. destruct (role =s BASE_ROLE).
  - intros [= <- <-]. split; [|done]. set_solver.
  - destruct (role =s IMPLEMENTATION_ROLE); [|done]. intros [= <- <-]. split; [|done]. set_solver.
Qed.
Lemma project_class_occurrence_quiet acc u acc' : project_class_occurrence acc u = Ok acc' → quiet acc.1 acc'.1.
Proof.
  destruct acc as [t seen]. cbn [fst]. intros (u1 & _ & (u2 & _ & (u3 & _ & H)%bind_Ok)%bind_Ok)%bind_Ok.
  apply bind_Ok in H as (t1 & H1 & (extension & _ & ([a b] & Hk%or_err_Ok & [= <-])%bind_Ok)%bind_Ok).
  apply update_one_quiet in H1; [|done]. apply extension_kinds_passing in Hk as (Hpass & Ha & Hb).
  trans t1; [done|]. cbn [fst].
  match goal with |- quiet _ (MkPhpTables _ _ _ (?kept ++ ?rows)) =>
    set (t2 := MkPhpTables (ph_files t1) (ph_definitions t1) (ph_occurrences t1) kept);
    trans t2; [|apply (quiet_relations t2 rows)]
  end.
  - pose proof (quiet_rewrite t1 id) as Hq. rewrite list_fmap_id in Hq. apply Hq; [done|].
    intros r Hr%negb_false_iff. unfold relation_at in Hr. apply andb_true_iff in Hr as [_ Hr].
    apply existsb_exists in Hr as (k & Hk%list_elem_of_In & ->%bool_decide_eq_true). by apply Hpass.
  - destruct (sort_dedup Z.compare (co_classes u)); [by apply Forall_singleton|].
    apply Forall_fmap, Forall_true. done.
Qed.
Lemma project_placeholder_quiet acc u acc' : project_placeholder acc u = Ok acc' → quiet acc.1 acc'.1.
Proof.
  destruct acc as [t seen]. cbn [fst]. unfold project_placeholder. intros H.
  do 7 (apply bind_Ok in H as (? & _ & H)). apply bind_Ok in H as (t1 & H1 & [= <-]).
  by eapply update_one_quiet.
Qed.

(** The relationship of a predecessor edge, and growth in which the only new
    relationships of its kind are those of some edges. *)
Definition edge_row (e : PreparedParentEdge) : RelationEntry :=
  MkRelationEntry (pe_child e) (Some (pe_predecessor e)) PARENT_KIND (pe_file e)
    (Z.of_nat (pe_span e).1) (Z.of_nat (pe_span e).2) (pe_provenance e).
Definition grown_by (added : list PreparedParentEdge) (t t' : PhpTables) : Prop :=
  grown t t' ∧ ∀ r, rl_kind r = PARENT_KIND → r ∈ ph_relations t' →
    r ∈ ph_relations t ∨ ∃ e, e ∈ added ∧ r = edge_row e.
Lemma grown_by_quiet added a b c : grown_by added a b → quiet b c → grown_by added a c.
Proof. intros [G1 P1] [G2 P2]. split; [by trans b|]. auto. Qed.
Lemma quiet_grown_by added a b c : quiet a b → grown_by added b c → grown_by added a c.
Proof. intros [G1 P1] [G2 P2]. split; [by trans b|]. intros r Hk Hr. destruct (P2 r Hk Hr); [left|right]; auto. Qed.

Lemma project_parts t prepared t' : project t prepared = Ok t' → grown_by (pc_parent_edges prepared) t t'.
Proof.
  intros (t1 & H1 & (t2 & H2 & ([t3 s3] & H3 & ([t4 s4] & H4 & [= <-])%bind_Ok)%bind_Ok)%bind_Ok)%bind_Ok.
  apply (grown_by_quiet _ _ t1).
  - revert H1. apply (try_foldl_inv (grown_by (pc_parent_edges prepared) t)); [split; [done|by left]|].
    intros b e b' He [Hg Hb] ->%project_edge_grown. split; [trans b; [done|apply grown_relations]|].
    intros r Hk [Hin| ->%list_elem_of_singleton]%elem_of_app; [by apply Hb|]. right. by exists e.
  - trans t2; [|trans t3].
    + revert H2. apply (try_foldl_preorder quiet). intros b x b' _. apply project_issue_quiet.
    + change t3 with (t3, s3).1. revert H3. apply (try_foldl_inv (λ acc, quiet t2 acc.1)); [done|].
      intros acc x acc' _ Hacc H%project_class_occurrence_quiet. by trans acc.1.
    + change t4 with (t4, s4).1. revert H4. apply (try_foldl_inv (λ acc, quiet t3 acc.1)); [done|].
      intros acc x acc' _ Hacc H%project_placeholder_quiet. by trans acc.1.
Qed.

(** *** The files of the extensions *)

Section Stored.
Context (read_events : str → list (result (XmlEvent * nat))).
(** An extension file as it is stored: at a path of an add-on, with its rows. *)
Definition stored_extensions (tables : PhpTables) (file : ExtensionFile) : Prop :=
  ∃ f bytes, f ∈ ph_files tables ∧ pf_id f = ef_file file ∧ pf_bytes f = Some bytes ∧
    addon_location (pf_path f) EXTENSIONS_SUFFIX = Some (ef_addon file, ef_directory file) ∧
    parse_class_extensions read_events bytes = Ok (ef_extensions file).

Lemma stored_files_elem tables selected f bytes :
  (f, bytes) ∈ stored_files tables selected → f ∈ ph_files tables ∧ pf_bytes f = Some bytes.
Proof.
  unfold stored_files. intros (g & Hg & Hb)%list_elem_of_omap. apply bind_Some in Hb as (b & Hb & [= <- <-]).
  rewrite elem_of_sort_by in Hg. by apply list_elem_of_In, filter_In in Hg as [Hg%list_elem_of_In _].
Qed.
Lemma extension_files_stored tables rows scanned total files issues files' issues' :
  (∀ f bytes, (f, bytes) ∈ rows → f ∈ ph_files tables ∧ pf_bytes f = Some bytes) →
  extension_files_from read_events rows scanned total files issues = Ok (files', issues') →
  Forall (stored_extensions tables) files → Forall (stored_extensions tables) files'.
Proof.
  revert scanned total files issues. induction rows as [|[f source] rows IH]; intros scanned total files issues Hrows.
  { by intros [= <- _]. }
  cbn [extension_files_from]. assert (∀ g b, (g, b) ∈ rows → g ∈ ph_files tables ∧ pf_bytes g = Some b) as Hrows'.
  { intros g b Hg. apply Hrows. by right. }
  destruct (MAX_METADATA_FILES <? S scanned); [done|].
  destruct (addon_location (pf_path f) EXTENSIONS_SUFFIX) as [[addon directory]|] eqn:El; [|by apply IH].
  destruct (MAX_METADATA_SOURCE_BYTES <? length source); [by apply IH|].
  destruct (parse_class_extensions read_events source) as [extensions|e] eqn:Ep; [|by apply IH].
  intros (u & _ & H)%bind_Ok Hall. eapply IH; [done|exact H|]. apply Forall_app. split; [done|]. apply Forall_singleton.
  destruct (Hrows f source) as [Hf Hb]; [by left|]. by exists f, source.
Qed.
Lemma load_extensions_stored tables files issues :
  load_extension_files read_events tables = Ok (files, issues) → Forall (stored_extensions tables) files.
Proof.
  intros H. eapply extension_files_stored; [|exact H|constructor]. intros f bytes. apply stored_files_elem.
Qed.
End Stored.

(** ** Every published predecessor edge is justified *)


(** ** The whole resolution *)

Lemma quiet_update t f rows :
  (∀ o, occurrence_key (f o) = occurrence_key o) → Forall (λ r, rl_kind r ≠ PARENT_KIND) rows →
  quiet t (MkPhpTables (ph_files t) (ph_definitions t) (f <$> ph_occurrences t) (ph_relations t ++ rows)).
Proof. intros Hf Hrows. etrans; [by apply quiet_occurrences|]. by eapply (quiet_relations (MkPhpTables _ _ _ _)). Qed.

Lemma apply_name_quiet classes t o : quiet t (apply_name classes t o).
Proof.
  unfold apply_name. destruct (name_row classes o) as [[[all cross] provenance]|]; [|done]. apply quiet_update.
  - intros p. by destruct (oe_id p =? oe_id o)%Z.
  - unfold name_relations. destruct (owner_of _ _ _ _); [|constructor].
    destruct (oe_role o =s lit "import"); by apply Forall_fmap, Forall_true.
Qed.
Lemma resolve_names_quiet t classes : quiet t (resolve_names t classes).
Proof.
  unfold resolve_names. generalize (S (length (ph_occurrences t))), 0%Z. intros fuel. revert t.
  induction fuel as [|fuel IH]; intros t last_id; [done|]. cbn [resolve_batches].
  destruct (name_batch t last_id) as [|o batch]; [done|]. etrans; [|apply IH].
  apply (foldl_preorder quiet (apply_name classes) (o :: batch)). intros b x. apply apply_name_quiet.
Qed.
Lemma staged_parent_kinds child parent : Forall (λ r, rl_kind r ≠ PARENT_KIND) (staged_parent child parent).
Proof.
  unfold staged_parent. destruct (pp_kind parent); [|constructor|by apply Forall_singleton].
  destruct (_ && _); [by apply Forall_fmap, Forall_true|by apply Forall_singleton].
Qed.
Lemma Forall_bind {A B} (P : B → Prop) (f : A → list B) l : (∀ x, Forall P (f x)) → Forall P (l ≫= f).
Proof. intros Hf. apply Forall_forall. intros y (x & Hy & _)%list_elem_of_bind. by eapply Forall_forall in Hy. Qed.
Lemma project_parents_quiet hierarchy t used t' used' :
  project_parents hierarchy t used = Ok (t', used') → quiet t t'.
Proof.
  intros (u & _ & [= <- _])%bind_Ok. apply quiet_relations. apply Forall_bind. intros child.
  destruct (bool_decide (cf_role child = CrProxy)); [constructor|]. apply Forall_bind. intros parent. apply staged_parent_kinds.
Qed.
Definition call_relations_ok (p : ParentCallProjection) : Prop :=
  Forall (λ r, rl_kind r ≠ PARENT_KIND) (pj_relations p).
Lemma project_calls_ok hierarchy t markers used ps used' :
  project_calls hierarchy t markers used = Ok (ps, used') → Forall call_relations_ok ps.
Proof.
  revert used ps. induction markers as [|m markers IH]; intros used ps; cbn; [by intros [= <- _]|].
  intros (call & _ & ([p used1] & Hp & ([qs used2] & Hqs & [= <- <-])%bind_Ok)%bind_Ok)%bind_Ok.
  constructor; [|by eapply IH]. apply bind_Ok in Hp as (u & _ & [= <- _]).
  unfold call_relations_ok. cbn. apply Forall_app.
  split; apply Forall_fmap, Forall_true; intros c; cbn [compose rl_kind candidate_relation issue_relation]; by vm_compute.
Qed.
Lemma resolve_parent_calls_quiet hierarchy t used t' used' :
  resolve_parent_calls hierarchy t used = Ok (t', used') → quiet t t'.
Proof.
  intros (ms & _ & ([ps used1] & Hps%project_calls_ok & (t1 & Ht & [= <- _])%bind_Ok)%bind_Ok)%bind_Ok.
  revert t Ht. induction Hps as [|p ps Hp Hps IH]; intros t; cbn; [by intros [= <-]|].
  intros (t2 & (u & _ & [= <-])%bind_Ok & Ht)%bind_Ok. etrans; [|by apply IH]. apply quiet_update; [|done].
  intros o. by destruct (updatable (pj_occurrence p) o).
Qed.

(** C8. Resolution leaves what was extracted in place.  The files stay, the
    definitions stay in front of the new ones, which are all add-ons or class
    extensions, and every occurrence keeps its id, file, name, span and role;
    relationships of kinds that no pass takes away are all kept, and no marker
    is left. *)
Theorem php_resolution_grows (parse_value : str → result Json) (parse_string : str → result str)
    (read_events : str → list (result (XmlEvent * nat))) `{UnicodeTables} (parse_php : str → ParseOutcome)
    (tables tables' : PhpTables) :
  resolve_php parse_value parse_string read_events parse_php tables = Ok tables' →
  grown tables tables' ∧ ∀ r, r ∈ ph_relations tables' → rl_kind r ≠ MARKER_KIND.
Proof.
  unfold resolve_php. set (named := resolve_names tables (class_index tables)).
  intros ([t1 u1] & Ht1%project_parents_quiet & Hrest)%bind_Ok.
  apply bind_Ok in Hrest as ([[t2 h2] u2] & Ht2 & ([t3 u3] & Ht3%resolve_parent_calls_quiet & [= <-])%bind_Ok).
  split.
  - trans named; [apply resolve_names_quiet|]. trans t1; [apply Ht1|]. trans t2.
    + apply bind_Ok in Ht2 as ([files p] & [_ Hq]%publish_metadata_quiet & Ht2).
      apply bind_Ok in Ht2 as ([prepared u] & _ & (t & Ht%project_parts & [= <- _ _])%bind_Ok).
      apply (quiet_grown_by _ _ _ _ Hq Ht).
    + trans t3; [apply Ht3|]. pose proof (quiet_rewrite t3 id (λ r, negb (rl_kind r =s MARKER_KIND))) as Hq.
      rewrite list_fmap_id in Hq. apply Hq; [done|]. intros r ->%negb_false_iff%bool_decide_eq_true. by left.
  - cbn. intros r Hr. apply list_elem_of_In, filter_In in Hr as [_ Hk%negb_true_iff%bool_decide_eq_false]. done.
Qed.

(** ** The nearest package, and the replaced parents *)

Lemma rsplit_once_None c s : rsplit_once c s = None → c ∉ s.
Proof.
  unfold rsplit_once. intros H%fmap_None Hc. apply split_once_None in H. by rewrite elem_of_reverse in H.
Qed.
Lemma package_loop_spec fuel dirs path d :
  length path < fuel →
  package_loop fuel dirs path = Some d ↔
  (is_Some (dirs !! d) ∧ ∃ rest, path = d ++ "/"%char :: rest) ∧
  ∀ d' rest, is_Some (dirs !! d') → path = d' ++ "/"%char :: rest → length d' ≤ length d.
Proof.
  revert path. induction fuel as [|fuel IH]; intros path Hf; [lia|]. cbn [package_loop].
  destruct (rsplit_once "/"%char path) as [[directory rest]|] eqn:E.
  2: { split; [done|]. intros [[_ (rest & ->)] _]. apply rsplit_once_None in E. set_solver. }
  apply rsplit_once_Some in E as [-> Hrest].
  assert (∀ d' rest', directory ++ "/"%char :: rest = d' ++ "/"%char :: rest' →
    d' = directory ∨ ∃ rest2, directory = d' ++ "/"%char :: rest2) as Hsplit.
  { intros d' rest' Heq. apply app_eq_inv in Heq as [(k & Hk1 & Hk2)|(k & Hk1 & Hk2)].
    - destruct k as [|c k]; simplify_eq/=; [left; by rewrite app_nil_r|right; by exists k].
    - destruct k as [|c k]; simplify_eq/=; [left; by rewrite app_nil_r|set_solver]. }
  case_bool_decide as Hd.
  - split.
    + intros [= <-]. split; [by split; [done|exists rest]|].
      intros d' rest' _ [->|(rest2 & ->)]%Hsplit; [done|]. rewrite length_app. lia.
    + intros [[Hd' (rest' & Heq)] Hmax]. f_equal. destruct (Hsplit _ _ Heq) as [->|(rest2 & Hdir)]; [done|].
      specialize (Hmax directory rest Hd eq_refl). rewrite Hdir, length_app in Hmax. cbn in Hmax. lia.
  - rewrite IH by (rewrite length_app in Hf; cbn in Hf; lia). split.
    + intros [[Hd' (rest2 & Hdir)] Hmax]. split; [split; [done|]|].
      * exists (rest2 ++ "/"%char :: rest). by rewrite Hdir, <-app_assoc.
      * intros d2 rest' Hd2 [->|(rest3 & Hdir')]%Hsplit; [done|]. by eapply Hmax.
    + intros [[Hd' (rest' & Heq)] Hmax]. split; [split; [done|]|].
      * destruct (Hsplit _ _ Heq) as [->|?]; done.
      * intros d2 rest2 Hd2 ->. apply (Hmax d2 (rest2 ++ "/"%char :: rest)); [done|]. by rewrite <-app_assoc.
Qed.
(** A file belongs to the nearest add-on directory above it. *)
Theorem package_directory_nearest (path : str) (dirs : AddonDirectories) (d : str) :
  package_directory_for_file path dirs = Some d ↔
  (is_Some (dirs !! d) ∧ ∃ rest, path = d ++ "/"%char :: rest) ∧
  ∀ d' rest, is_Some (dirs !! d') → path = d' ++ "/"%char :: rest → length d' ≤ length d.
Proof. apply package_loop_spec. lia. Qed.

Module XenforoExample.
#[local] Existing Instance AsciiTables.tables.
(** The add-on [Vendor] extends the class [XF\Sub\User] by [Vendor\Sub\User]. *)
Definition row : str :=
  ExtensionsExample.xml "<extension from_class='XF\Sub\User' to_class='Vendor\Sub\User' active='1' execute_order='10'/>".
Definition document : str := lit "<class_extensions>" ++ row ++ lit "</class_extensions>".
Definition element : XmlElement :=
  MkElement (lit "extension")
    [Ok (MkAttribute (lit "from_class") (Ok (lit "XF\Sub\User")));
     Ok (MkAttribute (lit "to_class") (Ok (lit "Vendor\Sub\User")));
     Ok (MkAttribute (lit "active") (Ok (lit "1"))); Ok (MkAttribute (lit "execute_order") (Ok (lit "10")))].
Definition read_events (_ : str) : list (result (XmlEvent * nat)) :=
  [Ok (EvStart (MkElement (lit "class_extensions") []), 18); Ok (EvEmpty element, 18 + length row);
   Ok (EvEnd (lit "class_extensions"), length document)].
Definition files : list PhpFile :=
  [MkPhpFile 1 (lit "src/XF.php") (lit "php") (lit "complete") (Some AliasesExample.source);
   MkPhpFile 2 (lit "src/XF/Sub/User.php") (lit "php") (lit "complete") None;
   MkPhpFile 3 (lit "src/addons/Vendor/Sub/User.php") (lit "php") (lit "complete") None;
   MkPhpFile 4 (lit "src/addons/Vendor/addon.json") (lit "json") (lit "complete") (Some ManifestExample.source);
   MkPhpFile 5 (lit "src/addons/Vendor/_data/class_extensions.xml") (lit "xml") (lit "complete") (Some document)].
Definition definitions : list DefinitionEntry :=
  [MkDefinitionEntry 10 2 (lit "User") (lit "class") 0 90 (Some (lit "XF\Sub"));
   MkDefinitionEntry 20 3 (lit "User") (lit "class") 0 120 (Some (lit "Vendor\Sub"))].
Definition proxy_name : OccurrenceEntry :=
  MkOccurrenceEntry 5 3 (lit "Vendor\Sub\XFCP_User") 20 29 (lit "type") None [] (lit "php_fqcn").
Definition relations : list RelationEntry :=
  [ParentCallsExample.marker 10 None 2 0 90 (MClass RoleOrdinary false);
   ParentCallsExample.marker 20 None 3 0 120 (MClass RoleOrdinary false);
   ParentCallsExample.marker 20 None 3 20 29 (MParent KindProxy false (Some (lit "Vendor\Sub\XFCP_User")))].
Definition tables : PhpTables := MkPhpTables files definitions [proxy_name] relations.
Definition resolved : PhpTables :=
  default tables (ok (resolve_php ManifestExample.parse_value ManifestExample.parse_string read_events
                        AliasesExample.parse_php tables)).

Example add_on_resolved :
  (λ r, (rl_source r, rl_target r)) <$> List.filter (λ r, rl_kind r =s PARENT_KIND) (ph_relations resolved) =
    [(20, Some 10)]%Z ∧
  (λ r, (rl_source r, rl_target r)) <$> List.filter (λ r, rl_kind r =s REQUIREMENT ++ lit "_candidate") (ph_relations resolved) =
    [(21, Some 21)]%Z ∧
  oe_candidates <$> ph_occurrences resolved = [[10]; []; [21]; [10]; [20]]%Z.
Proof. vm_compute. done. Qed.
Lemma php_resolution_grows_witness :
  resolved ≠ tables ∧ grown tables resolved ∧ ∀ r, r ∈ ph_relations resolved → rl_kind r ≠ MARKER_KIND.
Proof.
  split; [by vm_compute|].
  apply (php_resolution_grows ManifestExample.parse_value ManifestExample.parse_string read_events AliasesExample.parse_php).
  vm_compute. reflexivity.
Defined.

Definition aliases : AliasSource := load_alias_source AliasesExample.parse_php tables.
Definition hierarchy : PhpHierarchyIndex := build_index (λ name, canonicalize_class_name name aliases) tables.
Definition extended : PhpTables * PhpHierarchyIndex * Z :=
  default (tables, hierarchy, 0%Z)
    (ok (resolve_xenforo ManifestExample.parse_value ManifestExample.parse_string read_events (class_index tables)
           hierarchy aliases tables 0)).
End XenforoExample.
