(* ===== verification/Inference.v ===== *)
(** * Batches of the inference engine

    Models [src/src/semantic/inference/batch.rs] with the limits of
    [semantic/inference.rs]: the check of the inputs' lengths, the plan of the
    calls of the model, and inference with and without the isolation of inputs
    that fail.  The tokenizer and the model are parameters; the model is a state
    that each call may change. *)
From Stdlib Require Import Ascii String ZArith Lia.
From stdpp Require Import base numbers list strings.
From S2P Require Import Prelude Order Text Ranking EmbeddingCache.

Definition MAX_BATCH_INPUTS : nat := 8.
Definition MAX_BATCH_PADDED_TOKENS : Z := 8192.
Definition MAX_INPUT_TOKENS : Z := 4096.

(** ** The plan *)

(** The inner loop: how many inputs the batch takes. *)
Fixpoint fill_batch (rest : list Z) (count : nat) (padded_tokens : Z) : nat :=
  match rest with
  | [] => count
  | length :: rest =>
      if count <? MAX_BATCH_INPUTS then
        let candidate_max := Z.max padded_tokens length in
        if (MAX_BATCH_PADDED_TOKENS <? saturating_mul USIZE_MAX candidate_max (Z.of_nat (S count)))%Z then count
        else fill_batch rest (S count) candidate_max
      else count
  end.
Fixpoint plan_from (fuel : nat) (token_lengths : list Z) (start : nat) : result (list (nat * nat)) :=
  if length token_lengths <=? start then Ok []
  else match fuel with
       | O => Err "unreachable: a batch without an input"
       | S fuel =>
           let end_ := start + fill_batch (drop start token_lengths) 0 0 in
           _ ← ensure (negb (end_ =? start)) "semantic_unavailable: input cannot fit the padded token limit";
           ranges ← plan_from fuel token_lengths end_;
           Ok ((start, end_) :: ranges)
       end.
Definition plan_batch_ranges (token_lengths : list Z) : result (list (nat * nat)) :=
  _ ← ensure (forallb (λ length, length <=? MAX_INPUT_TOKENS)%Z token_lengths)
        "semantic_unavailable: input exceeds the model tokens";
  plan_from (length token_lengths) token_lengths 0.

(** ** Inference *)

Definition lift {S A} (r : result A) : SR S A := λ s, (r, s).
(** [with_context] *)
Definition with_context {S A} (message : string) (m : SR S A) : SR S A := λ s,
  match m s with
  | (Ok a, s) => (Ok a, s)
  | (Err _, s) => (Err message, s)
  end.
Definition slice_range {A} (l : list A) (range : nat * nat) : list A := take (range.2 - range.1) (drop range.1 l).

Section Model.
Context {M : Type} (encode : str → result Z) (embed : list str → SR M (list Embedding)).

Definition token_length (text : str) : result Z :=
  length ← encode text;
  _ ← ensure (length <=? MAX_INPUT_TOKENS)%Z "semantic_unavailable: input exceeds the model tokens";
  Ok length.

Definition valid_output (vector : Embedding) : result Embedding :=
  match from_values vector with
  | Ok v => Ok v
  | Err _ => Err "semantic_unavailable: invalid model output for batch input"
  end.
Definition infer_one_planned_batch (texts : list str) : SR M (list Embedding) :=
  batch ← with_context "semantic_unavailable: inference failed for batch inputs" (embed texts);
  _ ← lift (ensure (length batch =? length texts) "semantic_unavailable: model returned embeddings for inputs");
  lift (try_map valid_output batch).

(** The loop over the ranges; its body does what [infer_one_planned_batch] does. *)
Fixpoint infer_ranges (texts : list str) (ranges : list (nat * nat)) (embeddings : list Embedding)
    : SR M (list Embedding) :=
  match ranges with
  | [] => mret embeddings
  | range :: ranges =>
      batch ← infer_one_planned_batch (slice_range texts range);
      infer_ranges texts ranges (embeddings ++ batch)
  end.
Definition infer_batch (texts : list str) : SR M (list Embedding) :=
  match texts with
  | [] => mret []
  | _ =>
      token_lengths ← lift (try_map token_length texts);
      ranges ← lift (plan_batch_ranges token_lengths);
      infer_ranges texts ranges []
  end.
Definition infer (text : str) : SR M Embedding :=
  embeddings ← infer_batch [text];
  lift (or_err "semantic_unavailable: missing model output" (last embeddings)).

(** ** Isolation *)

(** The results so far, one place for each input. *)
Abbreviation Results := (list (option (result Embedding))).

Definition set_results (indices : list nat) (values : list (result Embedding)) (results : Results) : Results :=
  foldl (λ rs e, <[e.1 := Some e.2]> rs) results (zip indices values).
(** Halving: a range of one input needs no more than one turn, any other one
    less than its length for each half. *)
Fixpoint isolate_batch (fuel : nat) (texts : list str) (valid : list (nat * Z)) (range : nat * nat) (results : Results)
    (model : M) : Results * M :=
  match fuel with
  | O => (results, model)
  | S fuel =>
      let original_indices := fst <$> slice_range valid range in
      let batch := omap (λ index, texts !! index) original_indices in
      match infer_one_planned_batch batch model with
      | (Ok embeddings, model) => (set_results original_indices (Ok <$> embeddings) results, model)
      | (Err error, model) =>
          if range.2 - range.1 =? 1 then (set_results (take 1 original_indices) [Err error] results, model)
          else
            let middle := range.1 + (range.2 - range.1) / 2 in
            let '(results, model) := isolate_batch fuel texts valid (range.1, middle) results model in
            isolate_batch fuel texts valid (middle, range.2) results model
      end
  end.
Fixpoint isolate_ranges (texts : list str) (valid : list (nat * Z)) (ranges : list (nat * nat)) (results : Results)
    (model : M) : Results * M :=
  match ranges with
  | [] => (results, model)
  | range :: ranges =>
      let '(results, model) := isolate_batch (range.2 - range.1) texts valid range results model in
      isolate_ranges texts valid ranges results model
  end.

(** The inputs of an acceptable length, and the errors of the others. *)
Definition classify (e : nat * str) : (nat * Z) + (nat * string) :=
  match token_length e.2 with
  | Ok length => inl (e.1, length)
  | Err error => inr (e.1, error)
  end.
Definition valid_inputs (texts : list str) : list (nat * Z) :=
  omap (λ e, match classify e with inl v => Some v | inr _ => None end) (imap pair texts).
Definition length_errors (texts : list str) : Results :=
  (λ e, match classify e with inl _ => None | inr (_, error) => Some (Err error) end) <$> imap pair texts.
(** [results.map(|result| result.expect(..))]; a missing result panics. *)
Definition every_result (results : Results) : result (list (result Embedding)) :=
  try_map (or_err "every batch input has a result") results.
Definition infer_batch_isolated (texts : list str) (model : M) : result (list (result Embedding)) * M :=
  let results := length_errors texts in
  let valid := valid_inputs texts in
  match plan_batch_ranges (snd <$> valid) with
  | Err error => (every_result (set_results (fst <$> valid) ((λ _, Err error) <$> valid) results), model)
  | Ok ranges =>
      let '(results, model) := isolate_ranges texts valid ranges results model in
      (every_result results, model)
  end.
End Model.

(** ** What the plan promises *)

(** The padded size of a batch: its longest input times its inputs. *)
Definition padded_size (lengths : list Z) : Z := (foldr Z.max 0 lengths * Z.of_nat (length lengths))%Z.
(** The ranges cover [start, stop) in order without a gap or an overlap. *)
Fixpoint tiles (start : nat) (ranges : list (nat * nat)) (stop : nat) : Prop :=
  match ranges with
  | [] => start = stop
  | range :: ranges => range.1 = start ∧ start < range.2 ∧ tiles range.2 ranges stop
  end.
Definition batch_fits (lengths : list Z) : Prop :=
  length lengths ≤ MAX_BATCH_INPUTS ∧ (padded_size lengths ≤ MAX_BATCH_PADDED_TOKENS)%Z.
(** A batch that batch_fits, to which the next input could not have been added. *)
Definition full_batch (lengths : list Z) (range : nat * nat) : Prop :=
  range.2 ≤ length lengths ∧ batch_fits (slice_range lengths range) ∧
  (range.2 < length lengths → ¬ batch_fits (slice_range lengths (range.1, S range.2))).

Lemma foldr_max_app (l : list Z) x : foldr Z.max 0%Z (l ++ [x]) = Z.max (foldr Z.max 0%Z l) (Z.max x 0).
Proof. induction l as [|y l IH]; cbn [app foldr]; [lia|]. rewrite IH. lia. Qed.
Lemma saturating_exceeds (a : Z) (n : nat) (limit : Z) :
  (limit < USIZE_MAX)%Z → (limit <? saturating_mul USIZE_MAX a (Z.of_nat n))%Z = (limit <? a * Z.of_nat n)%Z.
Proof. intros Hl. unfold saturating_mul. apply eq_true_iff_eq. rewrite !Z.ltb_lt. lia. Qed.

(** The inner loop extends a batch that batch_fits as far as it can. *)
Lemma fill_batch_spec (rest batch : list Z) :
  Forall (λ x, 0 ≤ x)%Z rest → batch_fits batch →
  let n := fill_batch rest (length batch) (foldr Z.max 0%Z batch) - length batch in
  length batch ≤ fill_batch rest (length batch) (foldr Z.max 0%Z batch) ∧ n ≤ length rest ∧
  batch_fits (batch ++ take n rest) ∧ (n < length rest → ¬ batch_fits (batch ++ take (S n) rest)).
Proof.
  revert batch. induction rest as [|x rest IH]; intros batch Hpos Hfit; cbn [fill_batch length].
  { rewrite Nat.sub_diag, take_nil, app_nil_r. split_and!; [lia..|done|lia]. }
  apply Forall_cons in Hpos as [Hx Hpos].
  assert (Hpad : padded_size (batch ++ [x]) = (Z.max (foldr Z.max 0 batch) x * Z.of_nat (S (length batch)))%Z).
  { unfold padded_size. rewrite foldr_max_app, length_app. cbn [length].
    rewrite (Z.max_l x 0), Nat.add_1_r by lia. done. }
  case_match eqn:Hc.
  2: { apply Nat.ltb_ge in Hc. cbv zeta. rewrite Nat.sub_diag. cbn [take].
       rewrite app_nil_r. split_and!; [lia..|done|]. intros _ [Hl _]. rewrite length_app in Hl. cbn [length] in Hl. lia. }
  apply Nat.ltb_lt in Hc. cbv zeta. rewrite saturating_exceeds by done.
  case_match eqn:Hp.
  - apply Z.ltb_lt in Hp. rewrite Nat.sub_diag. cbn [take]. rewrite app_nil_r.
    split_and!; [lia..|done|]. intros _ [_ Hl].
    rewrite take_0, Hpad in Hl. lia.
  - apply Z.ltb_ge in Hp.
    assert (Hfit' : batch_fits (batch ++ [x])).
    { split; [rewrite length_app; cbn [length]; lia|lia]. }
    specialize (IH (batch ++ [x]) Hpos Hfit'). rewrite foldr_max_app, length_app in IH. cbn [length] in IH.
    rewrite (Z.max_l x 0), Nat.add_1_r in IH by lia. cbv zeta in IH.
    set (k := fill_batch rest (S (length batch)) (Z.max (foldr Z.max 0 batch) x)%Z) in *.
    destruct IH as (H1 & H2 & H3 & H4).
    replace (k - length batch) with (S (k - S (length batch))) by lia. cbn [take].
    rewrite <-!app_assoc in *. cbn [app] in *. split_and!; [lia..|done|]. intros Hk. apply H4. lia.
Qed.

Lemma slice_at_end {A} (l : list A) start n : slice_range l (start, start + n) = take n (drop start l).
Proof. unfold slice_range. cbn [fst snd]. by replace (start + n - start) with n by lia. Qed.

Lemma plan_from_spec fuel lengths start :
  Forall (λ x, 0 ≤ x ≤ MAX_INPUT_TOKENS)%Z lengths → start ≤ length lengths → length lengths - start ≤ fuel →
  ∃ ranges, plan_from fuel lengths start = Ok ranges ∧ tiles start ranges (length lengths) ∧
    Forall (full_batch lengths) ranges.
Proof.
  intros Hall. revert start. induction fuel as [|fuel IH]; intros start Hs Hfuel; cbn [plan_from].
  { rewrite (proj2 (Nat.leb_le _ _)) by lia. exists []. split_and!; [done|cbn; lia|constructor]. }
  case_match eqn:Hend.
  { apply Nat.leb_le in Hend. exists []. split_and!; [done|cbn; lia|constructor]. }
  apply Nat.leb_gt in Hend. cbv zeta.
  assert (Hpos : Forall (λ x, 0 ≤ x)%Z (drop start lengths)).
  { apply Forall_drop. eapply Forall_impl; [exact Hall|]. cbn beta. lia. }
  assert (Hnil : batch_fits []) by (split; [cbn; lia|done]).
  pose proof (fill_batch_spec (drop start lengths) [] Hpos Hnil) as (_ & Hle & Hfit & Hmax).
  cbn [length foldr app] in Hle, Hfit, Hmax. rewrite Nat.sub_0_r in Hle, Hfit, Hmax.
  set (n := fill_batch (drop start lengths) 0 0) in *. rewrite length_drop in Hle, Hmax.
  assert (Hn : 0 < n).
  { destruct n as [|n]; [|lia]. exfalso. apply Hmax; [lia|].
    destruct (lookup_lt_is_Some_2 lengths start Hend) as [x Hx].
    rewrite (drop_S _ _ _ Hx). cbn [take]. rewrite take_0. rewrite Forall_lookup in Hall. specialize (Hall _ _ Hx). cbn beta in Hall.
    split; [cbn; unfold MAX_BATCH_INPUTS; lia|]. unfold padded_size. cbn [foldr length].
    unfold MAX_BATCH_PADDED_TOKENS. unfold MAX_INPUT_TOKENS in Hall. lia. }
  destruct (IH (start + n)) as (ranges & -> & Ht & Hf); [lia..|].
  rewrite (proj2 (Nat.eqb_neq _ _)) by lia. cbn [ensure negb].
  exists ((start, start + n) :: ranges). split_and!; [done| |].
  - cbn [tiles fst snd]. split_and!; [done|lia|done].
  - constructor; [|done]. unfold full_batch. cbn [fst snd]. rewrite slice_at_end. split_and!; [lia|done|].
    intros Hlt. rewrite <-Nat.add_succ_r, slice_at_end. apply Hmax. lia.
Qed.

Lemma plan_batch_ok lengths :
  Forall (λ x, 0 ≤ x ≤ MAX_INPUT_TOKENS)%Z lengths →
  ∃ ranges, plan_batch_ranges lengths = Ok ranges ∧ tiles 0 ranges (length lengths) ∧
    Forall (full_batch lengths) ranges.
Proof.
  intros Hall. unfold plan_batch_ranges.
  rewrite (proj2 (forallb_forall _ _)).
  2: { intros x Hx%list_elem_of_In. rewrite Forall_forall in Hall. specialize (Hall _ Hx). lia. }
  cbn [ensure]. apply plan_from_spec; [done|lia|lia].
Qed.

(** ** Isolation *)

(** The results of [indices] are set, each as [Q] allows, and no other one changes. *)
Definition answered (Q : nat → result Embedding → Prop) (indices : list nat) (before after : list (option (result Embedding))) : Prop :=
  length after = length before ∧ (∀ i, i ∉ indices → after !! i = before !! i) ∧
  ∀ i, i ∈ indices → ∃ r, after !! i = Some (Some r) ∧ Q i r.

Lemma answered_nil Q results : answered Q [] results results.
Proof. split_and!; [done..|]. by intros i Hi%elem_of_nil. Qed.
Lemma answered_app Q l1 l2 a b c : answered Q l1 a b → answered Q l2 b c → answered Q (l1 ++ l2) a c.
Proof.
  intros (L1 & N1 & S1) (L2 & N2 & S2). split_and!; [congruence| |].
  - intros i Hi. rewrite elem_of_app in Hi. rewrite N2, N1 by tauto. done.
  - intros i Hi. destruct (decide (i ∈ l2)) as [H2|H2]; [by apply S2|].
    apply elem_of_app in Hi as [Hi|Hi]; [|done]. rewrite N2 by done. by apply S1.
Qed.
Lemma answered_one (Q : nat → result Embedding → Prop) i r results :
  i < length results → Q i r → answered Q [i] results (<[i := Some r]> results).
Proof.
  intros Hi HQ. split_and!; [by rewrite length_insert| |].
  - intros j Hj. rewrite list_lookup_insert_ne; [done|]. intros ->. apply Hj. by apply list_elem_of_singleton.
  - intros j Hj%list_elem_of_singleton. subst j. exists r. by rewrite list_lookup_insert_eq.
Qed.
Lemma set_results_answered (Q : nat → result Embedding → Prop) indices values results :
  Forall2 Q indices values → Forall (λ i, i < length results) indices →
  answered Q indices results (set_results indices values results).
Proof.
  unfold set_results. intros H2. revert results. induction H2 as [|i r indices values HQ H2 IH]; intros results Hlen.
  { apply answered_nil. }
  apply Forall_cons in Hlen as [Hi Hlen]. cbn [zip zip_with foldl fst snd].
  apply (answered_app Q [i]) with (b := <[i := Some r]> results); [by apply answered_one|].
  apply IH. by rewrite length_insert.
Qed.

Lemma slice_range_app {A} (l : list A) a m b :
  a ≤ m ≤ b → slice_range l (a, b) = slice_range l (a, m) ++ slice_range l (m, b).
Proof.
  intros Hm. unfold slice_range. cbn [fst snd].
  replace (b - a) with ((m - a) + (b - m)) by lia. rewrite <-take_take_drop, drop_drop.
  by replace (a + (m - a)) with m by lia.
Qed.
Lemma slice_range_length {A} (l : list A) a b : a ≤ b ≤ length l → length (slice_range l (a, b)) = b - a.
Proof. intros Hl. unfold slice_range. cbn [fst snd]. rewrite length_take, length_drop. lia. Qed.
Lemma slice_range_subset {A} (l : list A) range x : x ∈ slice_range l range → x ∈ l.
Proof. intros Hx%subseteq_take%subseteq_drop. done. Qed.
Lemma tiles_le start ranges stop : tiles start ranges stop → start ≤ stop.
Proof.
  revert start. induction ranges as [|range ranges IH]; intros start; cbn [tiles]; [lia|].
  intros (_ & Hlt & Ht%IH). lia.
Qed.

Lemma try_map_length {A B} (f : A → result B) l l' : try_map f l = Ok l' → length l' = length l.
Proof.
  revert l'. induction l as [|x l IH]; intros l' Hl; cbn [try_map] in Hl; result_inv; [done|].
  cbn [length]. f_equal. by apply IH.
Qed.

Section Isolation.
Context {M : Type} (encode : str → result Z) (embed : list str → SR M (list Embedding)).
Context (texts : list str) (Q : nat → result Embedding → Prop).

(** What the outcome of one call says of its inputs. *)
Definition call_answers (valid : list (nat * Z)) : Prop :=
  ∀ range model, let indices := fst <$> slice_range valid range in
  match (infer_one_planned_batch embed (omap (λ index, texts !! index) indices) model).1 with
  | Ok embeddings => Forall2 Q indices (Ok <$> embeddings)
  | Err error => ∀ i, indices = [i] → Q i (Err error)
  end.

Lemma isolate_batch_answers fuel valid range results model :
  call_answers valid → Forall (λ v, v.1 < length results) valid →
  range.1 ≤ range.2 ≤ length valid → range.2 - range.1 ≤ fuel →
  answered Q (fst <$> slice_range valid range) results (isolate_batch embed fuel texts valid range results model).1.
Proof.
  intros HQ. revert range results model. induction fuel as [|fuel IH]; intros [a b] results model Hlen Hr Hf;
    cbn [fst snd] in *; cbn [isolate_batch].
  { unfold slice_range. cbn [fst snd]. replace (b - a) with 0 by lia. rewrite take_0. apply answered_nil. }
  assert (Hlens : Forall (λ i, i < length results) (fst <$> slice_range valid (a, b))).
  { apply Forall_forall. intros i (v & -> & Hv)%list_elem_of_fmap.
    rewrite Forall_forall in Hlen. apply Hlen. by eapply slice_range_subset. }
  pose proof (HQ (a, b) model) as Hcall. cbv zeta in Hcall |- *.
  destruct (infer_one_planned_batch _ _ _) as [[embeddings|error] model'] eqn:Hi; cbn [fst] in Hcall.
  { cbn [fst]. by apply set_results_answered. }
  cbn [fst snd]. case_match eqn:H1.
  - apply Nat.eqb_eq in H1. pose proof (slice_range_length valid a b ltac:(lia)) as Hl.
    destruct (slice_range valid (a, b)) as [|v [|]]; cbn [length] in Hl; [lia| |lia].
    cbn [fst]. change (fst <$> [v]) with [v.1] in *. rewrite take_ge by (cbn; lia).
    apply set_results_answered; [|done]. constructor; [by apply Hcall|constructor].
  - apply Nat.eqb_neq in H1. set (m := a + (b - a) / 2).
    assert (Hm : a ≤ m ≤ b ∧ m - a ≤ fuel ∧ b - m ≤ fuel).
    { unfold m. pose proof (Nat.div_mod_eq (b - a) 2). pose proof (Nat.mod_upper_bound (b - a) 2). lia. }
    pose proof (IH (a, m) results model' Hlen ltac:(cbn; lia) ltac:(cbn; lia)) as Hleft.
    destruct (isolate_batch embed fuel texts valid (a, m) results model') as [results1 model1]. cbn [fst] in Hleft.
    rewrite (slice_range_app _ a m b) by lia. rewrite fmap_app. eapply answered_app; [exact Hleft|].
    apply IH; [|cbn; lia..]. destruct Hleft as (-> & _). done.
Qed.

Lemma isolate_ranges_answers valid ranges start results model :
  call_answers valid → Forall (λ v, v.1 < length results) valid → tiles start ranges (length valid) →
  answered Q (fst <$> drop start valid) results (isolate_ranges embed texts valid ranges results model).1.
Proof.
  intros HQ. revert start results model. induction ranges as [|[a b] ranges IH]; intros start results model Hlen Ht;
    cbn [tiles fst snd] in Ht; cbn [isolate_ranges fst snd].
  { subst start. rewrite drop_all. apply answered_nil. }
  destruct Ht as (-> & Hlt & Ht). pose proof (tiles_le _ _ _ Ht).
  pose proof (isolate_batch_answers (b - start) valid (start, b) results model HQ Hlen
    ltac:(cbn; lia) ltac:(cbn; lia)) as Hfst.
  destruct (isolate_batch embed (b - start) texts valid (start, b) results model) as [results1 model1].
  cbn [fst] in Hfst. rewrite <-(take_drop (b - start) (drop start valid)), fmap_app, drop_drop.
  replace (start + (b - start)) with b by lia. eapply answered_app; [exact Hfst|].
  apply IH; [|done]. destruct Hfst as (-> & _). done.
Qed.

(** *** The inputs of acceptable length *)
Lemma valid_inputs_elem i n :
  (i, n) ∈ valid_inputs encode texts ↔ ∃ text, texts !! i = Some text ∧ token_length encode text = Ok n.
Proof.
  unfold valid_inputs. rewrite list_elem_of_omap. split.
  - intros ([j text] & Hin & Hc). apply elem_of_lookup_imap in Hin as (k & text' & Heq & Hk). simplify_eq.
    unfold classify in Hc. cbn [fst snd] in Hc. destruct (token_length encode text') eqn:Ht; simplify_eq. by exists text'.
  - intros (text & Ht & Hn). exists (i, text). split; [apply elem_of_lookup_imap; by exists i, text|].
    unfold classify. cbn [fst snd]. by rewrite Hn.
Qed.
Lemma length_errors_lookup i text :
  texts !! i = Some text →
  length_errors encode texts !! i =
    Some match token_length encode text with Ok _ => None | Err error => Some (Err error) end.
Proof.
  intros Ht. unfold length_errors. rewrite list_lookup_fmap, list_lookup_imap, Ht. cbn.
  unfold classify. cbn [fst snd]. by destruct (token_length encode text).
Qed.
Lemma length_errors_length : length (length_errors encode texts) = length texts.
Proof. unfold length_errors. by rewrite length_fmap, length_imap. Qed.

Lemma token_length_bound text n : token_length encode text = Ok n → encode text = Ok n ∧ (n ≤ MAX_INPUT_TOKENS)%Z.
Proof. unfold token_length. intros H1. result_inv. split; [congruence|lia]. Qed.

Lemma every_result_ok results :
  (∀ i, i < length results → ∃ r, results !! i = Some (Some r)) →
  ∃ l, every_result results = Ok l ∧ length l = length results ∧
    ∀ i r, results !! i = Some (Some r) → l !! i = Some r.
Proof.
  unfold every_result. induction results as [|x results IH]; intros Hall.
  { exists []. split_and!; [done..|]. by intros i r; rewrite lookup_nil. }
  destruct (Hall 0 ltac:(cbn; lia)) as [r Hr]. cbn in Hr. simplify_eq.
  destruct IH as (l & Hl & Hlen & Hlook).
  { intros i Hi. apply (Hall (S i)). cbn. lia. }
  exists (r :: l). cbn [try_map or_err]. cbn. rewrite Hl. split_and!; [done|cbn; congruence|].
  intros [|i] r' Hi; cbn in *; [congruence|by apply Hlook].
Qed.

(** Every input gets a result, its length error or what a call says of it. *)
Lemma isolated_answers model :
  (∀ text n, encode text = Ok n → 0 ≤ n)%Z → call_answers (valid_inputs encode texts) →
  ∃ l, (infer_batch_isolated encode embed texts model).1 = Ok l ∧ length l = length texts ∧
    ∀ i text, texts !! i = Some text → ∃ r, l !! i = Some r ∧
      match token_length encode text with Ok _ => Q i r | Err error => r = Err error end.
Proof.
  intros Hpos HQ. unfold infer_batch_isolated. cbv zeta.
  set (valid := valid_inputs encode texts) in *.
  assert (Hshort : Forall (λ x, 0 ≤ x ≤ MAX_INPUT_TOKENS)%Z (snd <$> valid)).
  { apply Forall_forall. intros n ([i n'] & -> & (text & _ & Hn)%valid_inputs_elem)%list_elem_of_fmap.
    apply token_length_bound in Hn as [He Hn]. split; [by eapply Hpos|done]. }
  destruct (plan_batch_ok _ Hshort) as (ranges & -> & Ht & _). rewrite length_fmap in Ht.
  assert (Hlen : Forall (λ v, v.1 < length (length_errors encode texts)) valid).
  { apply Forall_forall. intros [i n] (text & Hi & _)%valid_inputs_elem. rewrite length_errors_length.
    by eapply lookup_lt_Some. }
  pose proof (isolate_ranges_answers valid ranges 0 (length_errors encode texts) model HQ Hlen Ht) as Hans.
  destruct (isolate_ranges _ _ _ _ _ _) as [results model']. cbn [fst] in *. rewrite drop_0 in Hans.
  destruct Hans as (Hl & Hout & Hin). rewrite length_errors_length in Hl.
  assert (Hall : ∀ i text, texts !! i = Some text → ∃ r, results !! i = Some (Some r) ∧
      match token_length encode text with Ok _ => Q i r | Err error => r = Err error end).
  { intros i text Hi. destruct (token_length encode text) as [n|error] eqn:Hn.
    - apply Hin. apply list_elem_of_fmap. exists (i, n). split; [done|]. apply valid_inputs_elem. by exists text.
    - exists (Err error). split; [|done]. rewrite Hout, (length_errors_lookup i text), Hn; [done..|].
      intros ([j n] & -> & (text' & Hj & Hn')%valid_inputs_elem)%list_elem_of_fmap. cbn in *. congruence. }
  destruct (every_result_ok results) as (l & -> & Hll & Hlook).
  { intros i Hi. rewrite Hl in Hi. apply lookup_lt_is_Some_2 in Hi as [text Hi]. destruct (Hall i text Hi) as (r & Hr & _). by exists r. }
  exists l. split_and!; [done|congruence|]. intros i text Hi. destruct (Hall i text Hi) as (r & Hr & HQr).
  exists r. split; [by apply Hlook|done].
Qed.
End Isolation.

(** ** The properties *)

(** The plan of the calls: exactly when every input is within the model's
    tokens there is a plan, and it takes the inputs in order, each one once, in
    batches of at most eight inputs and at most 8192 padded tokens, none of
    which could have taken the input after it. *)
Theorem batch_plan_exact (lengths : list Z) (Hpos : Forall (λ x, 0 ≤ x)%Z lengths) :
  if forallb (λ x, x <=? MAX_INPUT_TOKENS)%Z lengths
  then ∃ ranges, plan_batch_ranges lengths = Ok ranges ∧ tiles 0 ranges (length lengths) ∧
         Forall (full_batch lengths) ranges
  else is_ok (plan_batch_ranges lengths) = false.
Proof.
  case_match eqn:Hall.
  - apply plan_batch_ok. apply Forall_forall. intros x Hx. rewrite Forall_forall in Hpos.
    pose proof (proj1 (forallb_forall _ _) Hall x (proj1 (list_elem_of_In _ _) Hx)).
    specialize (Hpos x Hx). cbn beta in *. lia.
  - unfold plan_batch_ranges. by rewrite Hall.
Qed.

Section Properties.
Context {M : Type} (encode : str → result Z) (embed : list str → SR M (list Embedding)).
(** The tokenizer counts tokens. *)
Hypothesis encode_pos : ∀ text n, encode text = Ok n → (0 ≤ n)%Z.

(** A model that embeds each text by itself and fails when one text fails. *)
Definition pointwise (f : str → result Embedding) : Prop :=
  ∀ texts model, match (embed texts model).1 with
                 | Ok vectors => try_map f texts = Ok vectors
                 | Err _ => is_ok (try_map f texts) = false
                 end.
(** What the model says of a text alone. *)
Definition alone (f : str → result Embedding) (text : str) : result Embedding :=
  match f text with
  | Ok vector => valid_output vector
  | Err _ => Err "semantic_unavailable: inference failed for batch inputs"
  end.
Definition own_outcome (f : str → result Embedding) (text : str) : result Embedding :=
  _ ← token_length encode text; alone f text.

Lemma try_map_forall2 {A B} (f : A → result B) l l' : try_map f l = Ok l' → Forall2 (λ x y, f x = Ok y) l l'.
Proof.
  revert l'. induction l as [|x l IH]; intros l' Hl; cbn [try_map] in Hl; result_inv; [constructor|].
  constructor; [done|by apply IH].
Qed.
Lemma one_batch_ok batch model embeddings :
  (infer_one_planned_batch embed batch model).1 = Ok embeddings →
  ∃ vectors, (embed batch model).1 = Ok vectors ∧ length vectors = length batch ∧
    try_map valid_output vectors = Ok embeddings.
Proof.
  unfold infer_one_planned_batch, with_context, lift, mbind, sr_bind.
  destruct (embed batch model) as [[vectors|] model']; cbn; [|done].
  destruct (ensure _ _) eqn:He; cbn; [|done]. apply ensure_Ok in He. bool_to_prop. by exists vectors.
Qed.

Lemma pointwise_answers f texts :
  pointwise f →
  call_answers embed texts (λ i r, ∃ text, texts !! i = Some text ∧ r = alone f text) (valid_inputs encode texts).
Proof.
  intros Hf range model. cbv zeta.
  assert (Hin : Forall (λ i, is_Some (texts !! i)) (fst <$> slice_range (valid_inputs encode texts) range)).
  { apply Forall_forall. intros i ([j n] & -> & Hv%slice_range_subset)%list_elem_of_fmap.
    apply valid_inputs_elem in Hv as (text & Ht & _). by exists text. }
  set (indices := fst <$> _) in *. set (batch := omap _ indices).
  destruct (infer_one_planned_batch embed batch model).1 as [embeddings|error] eqn:Hi.
  - apply one_batch_ok in Hi as (vectors & Hv & _ & Hout). specialize (Hf batch model). rewrite Hv in Hf.
    apply try_map_forall2 in Hf, Hout. subst batch. clearbody indices. clear Hv.
    revert vectors embeddings Hf Hout. induction Hin as [|i indices [text Ht] Hin IH]; intros vectors embeddings Hf Hout.
    { cbn in Hf. apply Forall2_nil_inv_l in Hf as ->. apply Forall2_nil_inv_l in Hout as ->. constructor. }
    cbn [omap list_omap] in Hf. rewrite Ht in Hf. apply Forall2_cons_inv_l in Hf as (v & vs & Hv & Hvs & ->).
    apply Forall2_cons_inv_l in Hout as (e & es & He & Hes & ->). cbn. constructor; [|by eapply IH].
    exists text. split; [done|]. unfold alone. by rewrite Hv, He.
  - intros i Hi1. rewrite Hi1 in Hin. apply Forall_inv in Hin as [text Ht]. exists text. split; [done|].
    subst batch. rewrite Hi1 in Hi. cbn [omap list_omap] in Hi. rewrite Ht in Hi.
    unfold infer_one_planned_batch, with_context, lift, mbind, sr_bind in Hi.
    specialize (Hf [text] model). unfold alone.
    destruct (embed [text] model) as [[vectors|] model']; cbn in Hf, Hi.
    + destruct (f text) as [v|]; [|done]. unfold mbind, result_bind in Hf. simplify_eq. cbn in Hi.
      unfold mbind, result_bind in Hi. destruct (valid_output v); by simplify_eq.
    + destruct (f text) as [v|]; [done|]. by simplify_eq.
Qed.

(** Isolation of failures: when the model embeds each text by itself, the
    isolated batch gives every input exactly its own outcome, the one of its
    length, of the model on it alone and of the check of its vector, whatever
    the other inputs of its batch are; a result is never missing. *)
Theorem isolated_batch_exact (f : str → result Embedding) (texts : list str) (model : M) (Hf : pointwise f) :
  (infer_batch_isolated encode embed texts model).1 = Ok (own_outcome f <$> texts).
Proof.
  destruct (isolated_answers encode embed texts _ model encode_pos (pointwise_answers f texts Hf)) as (l & -> & Hlen & Hl).
  f_equal. apply list_eq. intros i. rewrite list_lookup_fmap. destruct (texts !! i) as [text|] eqn:Ht; cbn.
  - destruct (Hl i text Ht) as (r & -> & Hr). unfold own_outcome. f_equal.
    destruct (token_length encode text); [|done]. destruct Hr as (text' & Ht' & ->). by simplify_eq.
  - apply lookup_ge_None in Ht. apply lookup_ge_None. lia.
Qed.

(** No input is lost: with any model, whatever it answers, the isolated
    batch gives one result for each input and to an input that is too long its
    own error. *)
Theorem isolated_batch_total (texts : list str) (model : M) :
  ∃ results, (infer_batch_isolated encode embed texts model).1 = Ok results ∧ length results = length texts ∧
    ∀ i text error, texts !! i = Some text → token_length encode text = Err error → results !! i = Some (Err error).
Proof.
  destruct (isolated_answers encode embed texts (λ _ _, True) model encode_pos) as (l & -> & Hlen & Hl).
  { intros range m. cbv zeta.
    destruct (infer_one_planned_batch _ _ m).1 as [embeddings|error] eqn:Hi; [|done].
    assert (Hin : ∀ indices, Forall (λ i, is_Some (texts !! i)) indices →
        length (omap (λ i, texts !! i) indices) = length indices).
    { induction 1 as [|i indices [t Ht] _ IH]; [done|]. cbn [omap list_omap]. rewrite Ht. cbn. by rewrite <-IH. }
    apply one_batch_ok in Hi as (vectors & _ & Hlen & Hout%try_map_length).
    rewrite Hin in Hlen.
    2: { apply Forall_forall. intros i ([j n] & -> & Hv%slice_range_subset)%list_elem_of_fmap.
         apply valid_inputs_elem in Hv as (text & Ht & _). by exists text. }
    apply Forall2_same_length_lookup_2; [by rewrite (length_fmap Ok embeddings), Hout|done]. }
  exists l. split_and!; [done|done|]. intros i text error Ht Herr. destruct (Hl i text Ht) as (r & -> & Hr).
  rewrite Herr in Hr. by subst r.
Qed.
End Properties.

(** ** Isolation agrees with the plain batch *)

Section Agreement.
Context {M : Type} (encode : str → result Z) (embed : list str → SR M (list Embedding)).

Lemma set_results_fill (before after : list (option (result Embedding))) (values : list (result Embedding)) :
  length values ≤ length after →
  set_results (seq (length before) (length values)) values (before ++ after) =
    before ++ (Some <$> values) ++ drop (length values) after.
Proof.
  unfold set_results. revert before after. induction values as [|v values IH]; intros before after Hl; [done|].
  destruct after as [|x after]; cbn [length] in Hl; [lia|]. cbn [length seq zip zip_with foldl fst snd drop].
  rewrite insert_app_r_alt, Nat.sub_diag by done. cbn [insert list_insert].
  specialize (IH (before ++ [Some v]) after ltac:(lia)).
  rewrite length_app in IH. cbn [length] in IH. rewrite Nat.add_1_r in IH.
  rewrite <-!app_assoc in IH. exact IH.
Qed.

Lemma one_batch_length batch (model model' : M) embeddings :
  infer_one_planned_batch embed batch model = (Ok embeddings, model') → length embeddings = length batch.
Proof.
  intros Hi. destruct (one_batch_ok embed batch model embeddings) as (vectors & _ & <- & Ho).
  { by rewrite Hi. }
  by apply try_map_length in Ho.
Qed.

(** When every input has an acceptable length, [valid] numbers them all. *)
Lemma valid_inputs_all texts lengths :
  try_map (token_length encode) texts = Ok lengths → valid_inputs encode texts = imap pair lengths.
Proof.
  intros H2%try_map_forall2. unfold valid_inputs.
  change (imap pair texts) with (imap (λ i x, pair (0 + i) x) texts).
  change (imap pair lengths) with (imap (λ i x, pair (0 + i) x) lengths).
  generalize 0. induction H2 as [|t n texts lengths Ht _ IH]; intros k; [done|].
  cbn [imap omap list_omap]. unfold classify. cbn [fst snd]. rewrite Ht. f_equal.
  etransitivity; [|etransitivity; [apply (IH (S k))|]].
  - f_equal. apply imap_ext. intros. cbn. by rewrite Nat.add_succ_r.
  - apply imap_ext. intros. cbn. by rewrite Nat.add_succ_r.
Qed.
Lemma fst_imap_pair {A} (l : list A) : fst <$> imap pair l = seq 0 (length l).
Proof.
  apply list_eq. intros i. rewrite list_lookup_fmap, list_lookup_imap.
  destruct (l !! i) eqn:Hi; cbn.
  - apply lookup_lt_Some in Hi. symmetry. apply lookup_seq. lia.
  - apply lookup_ge_None in Hi. symmetry. apply lookup_ge_None. rewrite length_seq. lia.
Qed.
Lemma slice_fmap {A B} (f : A → B) (l : list A) range : f <$> slice_range l range = slice_range (f <$> l) range.
Proof. unfold slice_range. by rewrite fmap_take, fmap_drop. Qed.
Lemma slice_seq n a b : a ≤ b ≤ n → slice_range (seq 0 n) (a, b) = seq a (b - a).
Proof. intros Hl. unfold slice_range. cbn [fst snd]. rewrite drop_seq, take_seq. f_equal; lia. Qed.
Lemma texts_of_slice (texts : list str) a b :
  a ≤ b ≤ length texts → omap (λ i, texts !! i) (seq a (b - a)) = slice_range texts (a, b).
Proof.
  intros Hl. unfold slice_range. cbn [fst snd]. remember (b - a) as k eqn:Hk. revert a Hl Hk.
  induction k as [|k IH]; intros a Hl Hk; [by rewrite take_0|].
  destruct (lookup_lt_is_Some_2 texts a ltac:(lia)) as [t Ht]. cbn [seq omap list_omap]. rewrite Ht.
  rewrite (drop_S _ _ _ Ht). cbn [take]. f_equal. apply IH; lia.
Qed.

Lemma isolate_ranges_agrees texts lengths ranges done_ model embeddings model' :
  length lengths = length texts → tiles (length done_) ranges (length texts) →
  infer_ranges embed texts ranges done_ model = (Ok embeddings, model') →
  isolate_ranges embed texts (imap pair lengths) ranges
    (((λ e, Some (Ok e)) <$> done_) ++ replicate (length texts - length done_) None) model =
  ((λ e, Some (Ok e)) <$> embeddings, model').
Proof.
  intros Hlen. revert done_ model. induction ranges as [|[a b] ranges IH]; intros done_ model Ht Hi;
    cbn [tiles fst snd] in Ht; cbn [infer_ranges] in Hi; cbn [isolate_ranges fst snd].
  { rewrite Ht, Nat.sub_diag. cbn [replicate]. rewrite app_nil_r. unfold mret, sr_ret in Hi. by simplify_eq. }
  destruct Ht as (-> & Hlt & Ht). pose proof (tiles_le _ _ _ Ht).
  unfold mbind, sr_bind in Hi.
  destruct (infer_one_planned_batch embed (slice_range texts (length done_, b)) model) as [[batch|] model1] eqn:Hb;
    [|done].
  pose proof (one_batch_length _ _ _ _ Hb) as Hbl. rewrite slice_range_length in Hbl by lia.
  replace (b - length done_) with (S (b - S (length done_))) at 1 by lia. cbn [isolate_batch].
  rewrite slice_fmap, fst_imap_pair, Hlen, slice_seq by lia. rewrite texts_of_slice, Hb by lia.
  pose proof (set_results_fill ((λ e, Some (Ok e)) <$> done_) (replicate (length texts - length done_) None) (Ok <$> batch)) as Hs.
  rewrite !length_fmap, length_replicate, Hbl in Hs. rewrite Hs by lia.
  rewrite drop_replicate. rewrite <-list_fmap_compose, app_assoc, <-fmap_app.
  specialize (IH (done_ ++ batch) model1). rewrite length_app, Hbl in IH.
  replace (length done_ + (b - length done_)) with b in IH by lia.
  replace (length texts - length done_ - (b - length done_)) with (length texts - b) by lia.
  by apply IH.
Qed.

Lemma every_result_all (embeddings : list Embedding) :
  every_result ((λ e, Some (Ok e)) <$> embeddings) = Ok (Ok <$> embeddings).
Proof. unfold every_result. induction embeddings as [|e l IH]; [done|]. cbn. cbn in IH. by rewrite IH. Qed.

(** The two ways to infer agree: with any model, when the plain batch
    succeeds the isolated batch makes the same calls, ends in the same state of
    the model and gives the same embeddings. *)
Theorem isolated_batch_agrees (texts : list str) (model model' : M) (embeddings : list Embedding)
    (encode_pos : ∀ text n, encode text = Ok n → (0 ≤ n)%Z)
    (Hi : infer_batch encode embed texts model = (Ok embeddings, model')) :
  infer_batch_isolated encode embed texts model = (Ok (Ok <$> embeddings), model').
Proof.
  destruct texts as [|text texts'] eqn:Ht; [cbn in Hi; unfold mret, sr_ret in Hi; by simplify_eq|].
  unfold infer_batch in Hi. rewrite <-Ht in *. clear Ht text texts'. unfold mbind, sr_bind, lift in Hi.
  destruct (try_map (token_length encode) texts) as [lengths|] eqn:Hl; [|done].
  pose proof (try_map_length _ _ _ Hl) as Hlen. unfold infer_batch_isolated. cbv zeta.
  rewrite (valid_inputs_all _ _ Hl).
  assert (Hsnd : snd <$> imap pair lengths = lengths).
  { apply list_eq. intros i. rewrite list_lookup_fmap, list_lookup_imap. by destruct (lengths !! i). }
  rewrite Hsnd. destruct (plan_batch_ok lengths) as (ranges & Hp & Htiles & _).
  { apply Forall_lookup. intros i n Hn. apply try_map_forall2 in Hl.
    destruct (Forall2_lookup_r _ _ _ _ _ Hl Hn) as (t & _ & Htl). apply token_length_bound in Htl as [He ?].
    split; [by eapply encode_pos|done]. }
  rewrite Hp in Hi |- *. rewrite Hlen in Htiles.
  assert (Hnone : length_errors encode texts = replicate (length texts - 0) None).
  { rewrite Nat.sub_0_r. apply list_eq. intros i. destruct (texts !! i) as [t|] eqn:Hti.
    - rewrite (length_errors_lookup encode texts i t Hti). apply try_map_forall2 in Hl.
      destruct (Forall2_lookup_l _ _ _ _ _ Hl Hti) as (n & _ & ->).
      symmetry. apply lookup_replicate_2. by eapply lookup_lt_Some.
    - apply lookup_ge_None in Hti. rewrite !(proj2 (lookup_ge_None _ _)); [done|..];
        rewrite ?length_replicate, ?length_errors_length; lia. }
  pose proof (isolate_ranges_agrees texts lengths ranges [] model embeddings model' Hlen Htiles Hi) as Ha.
  cbn [fmap list_fmap app length] in Ha. rewrite Hnone, Ha. by rewrite every_result_all.
Qed.
End Agreement.

Module InferenceExample.
Definition text (s : string) : str := list_ascii_of_string s.
(** One token for each byte; nothing that starts with [?] is text. *)
Definition encode (t : str) : result Z :=
  match t with
  | ("?"%char :: _) => Err "not text"
  | _ => Ok (Z.of_nat (length t))
  end.
Definition axis : Embedding := f32_of_Z 1 :: replicate (DIMENSIONS - 1) (f32_of_Z 0).
(** The model rejects [bad], and answers a zero vector for [null]; it counts its calls. *)
Definition vector_of (t : str) : result Embedding :=
  if decide (t = text "bad") then Err "out of memory"
  else if decide (t = text "null") then Ok (replicate DIMENSIONS (f32_of_Z 0))
  else Ok axis.
Definition embed (texts : list str) : SR nat (list Embedding) := λ calls, (try_map vector_of texts, S calls).
Definition texts : list str := [text "a"; text "bad"; text "?"; text "b"; text "null"].

Lemma encode_pos t n : encode t = Ok n → (0 ≤ n)%Z.
Proof. unfold encode. intros Hn. assert (n = Z.of_nat (length t)) by (repeat case_match; congruence). lia. Qed.
Lemma embed_pointwise : pointwise embed vector_of.
Proof. intros ts model. cbn. by destruct (try_map vector_of ts). Qed.

Example plan_splits :
  plan_batch_ranges (replicate 9 10%Z ++ [4000; 4000; 2000]%Z) = Ok [(0, 8); (8, 10); (10, 12)].
Proof. vm_compute. reflexivity. Qed.
Lemma batch_plan_exact_witness :
  Forall (λ x, 0 ≤ x)%Z [4096; 4096; 1]%Z ∧
  ∃ ranges, plan_batch_ranges [4096; 4096; 1]%Z = Ok ranges ∧ tiles 0 ranges 3 ∧
    Forall (full_batch [4096; 4096; 1]%Z) ranges.
Proof.
  assert (Hpos : Forall (λ x, 0 ≤ x)%Z [4096; 4096; 1]%Z) by (repeat constructor; lia).
  split; [exact Hpos|exact (batch_plan_exact _ Hpos)].
Defined.

(** Seven calls for four texts: one of four, then two of two, then the halves. *)
Example isolation_calls : (infer_batch_isolated encode embed texts 0).2 = 7.
Proof. vm_compute. reflexivity. Qed.
Lemma isolated_batch_exact_witness :
  (infer_batch_isolated encode embed texts 0).1 = Ok (own_outcome encode vector_of <$> texts) ∧
  (is_ok <$> (own_outcome encode vector_of <$> texts)) = [true; false; false; true; false].
Proof.
  split; [exact (isolated_batch_exact encode embed encode_pos vector_of texts 0 embed_pointwise)|].
  vm_compute. reflexivity.
Defined.
Lemma isolated_batch_total_witness :
  ∃ results, (infer_batch_isolated encode embed texts 0).1 = Ok results ∧ length results = 5.
Proof.
  destruct (isolated_batch_total encode embed encode_pos texts 0) as (results & Hr & Hl & _).
  exists results. split; [exact Hr|exact Hl].
Defined.
Lemma isolated_batch_agrees_witness :
  infer_batch encode embed [text "a"; text "b"] 0 = (Ok [axis; axis], 1) ∧
  infer_batch_isolated encode embed [text "a"; text "b"] 0 = (Ok [Ok axis; Ok axis], 1).
Proof.
  assert (Hi : infer_batch encode embed [text "a"; text "b"] 0 = (Ok [axis; axis], 1)) by (vm_compute; reflexivity).
  split; [exact Hi|exact (isolated_batch_agrees encode embed _ 0 1 [axis; axis] encode_pos Hi)].
Defined.
End InferenceExample.
