(* ===== verification/InheritanceContext.v ===== *)
(** * Inheritance context of a hit

    Models [src/src/search/inheritance_context.rs] and [context_entry] with
    [definition_target] of [search/navigation.rs]: the classes around a hit, the
    bounded search of the candidate relationships above them, and the response
    that fits a budget.  A table is the list of its rows; the JSON text of a
    candidate column stands for the list it encodes. *)
From Stdlib Require Import Ascii String ZArith Lia.
From stdpp Require Import base numbers list gmap strings.
From S2P Require Import Prelude Order Text Collections Hits Pages Hierarchy PhpNames.

Definition MAX_VISITED : nat := 64.
Definition MAX_EMITTED : nat := 100.
Definition MAX_PENDING : nat := MAX_VISITED + MAX_EMITTED.
Definition MAX_SEED_WORK : nat := MAX_PENDING.

(** ** The tables *)

Record IndexedFile := MkIndexedFile { ix_id : Z; ix_path : str; ix_revision : option str }.
Record IndexTables := MkIndexTables {
  ix_generation : Z;
  ix_files : list IndexedFile;
  ix_definitions : list DefinitionEntry;
  ix_occurrences : list OccurrenceEntry;
  ix_relations : list RelationEntry;
}.
Record RelationshipRow := MkRelationshipRow {
  rr_kind : str;
  rr_provenance : str;
  rr_path : str;
  rr_start : Z;
  rr_end : Z;
  rr_source : Z;
  rr_target : option Z;
}.
#[export] Instance relationship_row_eq_dec : EqDecision RelationshipRow.
Proof. solve_decision. Defined.

(** [x as usize] of an [i64] and [n as i64] of a [usize]. *)
Definition as_usize (x : Z) : Z := (x mod 2 ^ 64)%Z.
Definition as_i64 (n : nat) : Z := if (Z.of_nat n <? 2 ^ 63)%Z then Z.of_nat n else (Z.of_nat n - 2 ^ 64)%Z.

Definition file_row (tables : IndexTables) (id : Z) : option IndexedFile :=
  find (λ f, (ix_id f =? id)%Z) (ix_files tables).
Definition definition_row (tables : IndexTables) (id : Z) : option DefinitionEntry :=
  find (λ d, (de_id d =? id)%Z) (ix_definitions tables).
(** [f.path=?1 AND f.revision=?2] of the joined file; a null equals nothing. *)
Definition in_revision (tables : IndexTables) (file : Z) (path : str) (revision : option str) : bool :=
  match file_row tables file, revision with
  | Some f, Some revision =>
      (ix_path f =s path) && match ix_revision f with Some r => r =s revision | None => false end
  | _, _ => false
  end.
Definition definition_target (tables : IndexTables) (id : Z) : result DefinitionTarget :=
  d ← or_err "Query returned no rows" (definition_row tables id);
  f ← or_err "Query returned no rows" (file_row tables (de_file d));
  revision ← or_err "Invalid column type Null" (ix_revision f);
  Ok {| target_path := ix_path f; target_revision := revision; target_start := Z.to_nat (as_usize (de_start d));
        target_end := Z.to_nat (as_usize (de_end d)); target_name := de_name d |}.

(** ** The classes a search starts from *)

Record SeedCollection := MkSeeds { ids : list Z; known : gset Z; work : nat; seeds_truncated : bool }.
Definition new_seeds : SeedCollection := MkSeeds [] ∅ 0 false.
Definition truncate_seeds (s : SeedCollection) : SeedCollection := MkSeeds (ids s) (known s) (work s) true.

Definition add_class (id : Z) (s : SeedCollection) : SeedCollection :=
  if bool_decide (id ∈ known s) then s
  else if length (ids s) =? MAX_VISITED then truncate_seeds s
  else MkSeeds (ids s ++ [id]) ({[id]} ∪ known s) (work s) (seeds_truncated s).
(** The smallest class that encloses a member. *)
Definition encloses (member owner : DefinitionEntry) : bool :=
  (de_file owner =? de_file member)%Z && kind_among CLASS_KINDS (de_kind owner) &&
  (de_start owner <=? de_start member)%Z && (de_end member <=? de_end owner)%Z.
Definition span_length (d : DefinitionEntry) : Z := (de_end d - de_start d)%Z.
Definition owner_of (tables : IndexTables) (member : DefinitionEntry) : option Z :=
  de_id <$> head (sort_by (cmp_then (cmp_on span_length Z.compare) by_id)
                    (List.filter (encloses member) (ix_definitions tables))).
(** Whether there is work left, and the seeds. *)
Definition add_definition (tables : IndexTables) (id : Z) (s : SeedCollection) : bool * SeedCollection :=
  if work s =? MAX_SEED_WORK then (false, truncate_seeds s)
  else
    let s := MkSeeds (ids s) (known s) (S (work s)) (seeds_truncated s) in
    (true,
      match definition_row tables id with
      | Some d =>
          if kind_among CLASS_KINDS (de_kind d) then add_class id s
          else if de_kind d =s lit "method" then
            match owner_of tables d with Some owner => add_class owner s | None => s end
          else s
      | None => s
      end).
(** A [for] over ids that breaks when no work is left. *)
Fixpoint add_definitions (tables : IndexTables) (new : list Z) (s : SeedCollection) : SeedCollection :=
  match new with
  | [] => s
  | id :: new =>
      let '(more, s) := add_definition tables id s in
      if more : bool then add_definitions tables new s else s
  end.

Definition encloses_hit (tables : IndexTables) (hit : Hit) (d : DefinitionEntry) : bool :=
  in_revision tables (de_file d) (hit_path hit) (hit_revision hit) &&
  (de_start d <=? as_i64 (hit_start hit))%Z && (as_i64 (hit_end hit) <=? de_end d)%Z &&
  kind_among CLASS_KINDS (de_kind d).
Definition enclosing_order : DefinitionEntry → DefinitionEntry → comparison :=
  cmp_then (cmp_on span_length Z.compare) (cmp_then (cmp_on de_start Z.compare) by_id).
Definition enclosing_classes (tables : IndexTables) (hit : Hit) : list Z :=
  de_id <$> take (MAX_VISITED + 1)
    (sort_by enclosing_order (List.filter (encloses_hit tables hit) (ix_definitions tables))).
Fixpoint add_hit_classes (new : list Z) (hit_classes : nat) (s : SeedCollection) : SeedCollection :=
  match new with
  | [] => s
  | id :: new =>
      if hit_classes =? MAX_VISITED then truncate_seeds s
      else add_hit_classes new (S hit_classes) (add_class id s)
  end.

Definition is_target (tables : IndexTables) (target : DefinitionTarget) (d : DefinitionEntry) : bool :=
  in_revision tables (de_file d) (target_path target) (Some (target_revision target)) &&
  (de_start d =? as_i64 (target_start target))%Z && (de_end d =? as_i64 (target_end target))%Z &&
  (de_name d =s target_name target).
Definition target_definition_ids (tables : IndexTables) (target : DefinitionTarget) : list Z :=
  de_id <$> take (MAX_VISITED + 1) (sort_by by_id (List.filter (is_target tables target) (ix_definitions tables))).
Definition add_target (tables : IndexTables) (target : DefinitionTarget) (s : SeedCollection) : SeedCollection :=
  let target_ids := target_definition_ids tables target in
  let s := if MAX_VISITED <? length target_ids then truncate_seeds s else s in
  add_definitions tables (take MAX_VISITED target_ids) s.
Fixpoint add_targets (tables : IndexTables) (targets : list DefinitionTarget) (target_count : nat)
    (s : SeedCollection) : SeedCollection :=
  match targets with
  | [] => s
  | target :: targets =>
      if (target_count =? MAX_SEED_WORK) || (work s =? MAX_SEED_WORK) then truncate_seeds s
      else add_targets tables targets (S target_count) (add_target tables target s)
  end.

Definition touches_hit (tables : IndexTables) (hit : Hit) (o : OccurrenceEntry) : bool :=
  in_revision tables (oe_file o) (hit_path hit) (hit_revision hit) &&
  (oe_role o =s lit "xenforo_extension_implementation") &&
  (oe_start o <? as_i64 (hit_end hit))%Z && (as_i64 (hit_start hit) <? oe_end o)%Z.
Definition occurrence_order : OccurrenceEntry → OccurrenceEntry → comparison :=
  cmp_then (cmp_on oe_start Z.compare) (cmp_then (cmp_on oe_end Z.compare) (cmp_on oe_id Z.compare)).
Definition extension_occurrences (tables : IndexTables) (hit : Hit) : list OccurrenceEntry :=
  take (MAX_SEED_WORK + 1) (sort_by occurrence_order (List.filter (touches_hit tables hit) (ix_occurrences tables))).
(** The definitions of one occurrence; when the target takes the last work the
    loop over the rows ends, as the Rust [break] does. *)
Fixpoint add_occurrences (tables : IndexTables) (rows : list OccurrenceEntry) (occurrence_count : nat)
    (s : SeedCollection) : SeedCollection :=
  match rows with
  | [] => s
  | row :: rows =>
      if (occurrence_count =? MAX_SEED_WORK) || (work s =? MAX_SEED_WORK) then truncate_seeds s
      else
        let '(more, s) := match oe_target row with
                          | Some target => add_definition tables target s
                          | None => (true, s)
                          end in
        if more : bool then add_occurrences tables rows (S occurrence_count) (add_definitions tables (oe_candidates row) s)
        else s
  end.
Definition class_seeds (tables : IndexTables) (hit : Hit) : SeedCollection :=
  let s := add_hit_classes (enclosing_classes tables hit) 0 new_seeds in
  let targets := match hit_target hit with Some target => [target] | None => [] end ++ hit_candidates hit in
  let s := add_targets tables targets 0 s in
  add_occurrences tables (extension_occurrences tables hit) 0 s.

(** ** The relationships of a class *)

Definition qualified_class (tables : IndexTables) (class_id : Z) : result str :=
  d ← or_err "Query returned no rows" (definition_row tables class_id);
  Ok match de_container d with
     | Some namespace => if namespace =s [] then de_name d else namespace ++ [backslash] ++ de_name d
     | None => de_name d
     end.
(** The methods of a class: in its file and span, with its name as container. *)
Definition method_of (owner : DefinitionEntry) (qualified : str) (d : DefinitionEntry) : bool :=
  (de_kind d =s lit "method") && (de_file d =? de_file owner)%Z &&
  (de_start owner <=? de_start d)%Z && (de_start d <=? de_end owner)%Z && (de_end d <=? de_end owner)%Z &&
  match de_container d with
  | Some container => to_ascii_lowercase container =s to_ascii_lowercase qualified
  | None => false
  end.
Definition method_ids (tables : IndexTables) (class_id : Z) (qualified : str) : list Z :=
  match definition_row tables class_id with
  | Some owner => de_id <$> List.filter (method_of owner qualified) (ix_definitions tables)
  | None => []
  end.
Definition of_class (tables : IndexTables) (class_id : Z) (qualified : str) (r : RelationEntry) : bool :=
  let from_method := bool_decide (rl_source r ∈ method_ids tables class_id qualified) in
  let source := (rl_source r =? class_id)%Z in
  (rl_kind r =s lit "framework_parent_candidate") && (source || bool_decide (rl_target r = Some class_id)) ||
  (rl_kind r =s lit "php_extends_candidate") && source ||
  (rl_kind r =s lit "inheritance_issue") && (source || from_method) ||
  (rl_kind r =s lit "php_parent_call_candidate") && from_method.
Definition row_of (tables : IndexTables) (r : RelationEntry) : option RelationshipRow :=
  f ← file_row tables (rl_file r);
  Some (MkRelationshipRow (rl_kind r) (rl_provenance r) (ix_path f) (as_usize (rl_start r)) (as_usize (rl_end r))
          (rl_source r) (rl_target r)).
(** [ORDER BY f.path,r.start,r.end,r.kind,r.source,r.target], over the stored values. *)
Definition relation_order : RelationEntry * str → RelationEntry * str → comparison :=
  cmp_then (cmp_on snd str_compare)
    (cmp_then (cmp_on (rl_start ∘ fst) Z.compare)
      (cmp_then (cmp_on (rl_end ∘ fst) Z.compare)
        (cmp_then (cmp_on (rl_kind ∘ fst) str_compare)
          (cmp_then (cmp_on (rl_source ∘ fst) Z.compare)
            (cmp_on (rl_target ∘ fst) (option_compare Z.compare)))))).
Definition joined (tables : IndexTables) (rows : list RelationEntry) : list (RelationEntry * str) :=
  omap (λ r, option_map (λ f, (r, ix_path f)) (file_row tables (rl_file r))) rows.
(** The rows of a class before the limit of the query. *)
Definition class_rows (tables : IndexTables) (class_id : Z) (qualified : str) : list RelationshipRow :=
  omap (λ e, row_of tables e.1)
    (sort_by relation_order (joined tables (List.filter (of_class tables class_id qualified) (ix_relations tables)))).
Definition relationships_for_class (tables : IndexTables) (class_id : Z) (qualified : str) : list RelationshipRow :=
  take (MAX_EMITTED + 1) (class_rows tables class_id qualified).

(** ** Their values *)

Definition target_value (t : DefinitionTarget) : Json :=
  JObj [(lit "end", jnat (target_end t)); (lit "name", JStr (target_name t)); (lit "path", JStr (target_path t));
        (lit "revision", JStr (target_revision t)); (lit "start", jnat (target_start t))].
(** [target.map(|id| definition_target(store, id)).transpose()?] *)
Definition optional_target (tables : IndexTables) (target : option Z) : result Json :=
  match target with
  | Some id => t ← definition_target tables id; Ok (target_value t)
  | None => Ok JNull
  end.
Definition edge_value (kind resolution provenance path : str) (start end_ : Z) (source target : Json) : Json :=
  JObj [(lit "end", JNum end_); (lit "kind", JStr kind); (lit "path", JStr path);
        (lit "provenance", JStr provenance); (lit "resolution", JStr resolution); (lit "source", source);
        (lit "start", JNum start); (lit "target", target)].
Definition relationship_value (tables : IndexTables) (edge : RelationshipRow) : result Json :=
  let resolution := if ends_with (lit "_candidate") (rr_kind edge) then lit "candidate" else lit "unresolved" in
  source ← definition_target tables (rr_source edge);
  target ← optional_target tables (rr_target edge);
  Ok (edge_value (rr_kind edge) resolution (rr_provenance edge) (rr_path edge) (rr_start edge) (rr_end edge)
        (target_value source) target).

(** ** The search *)

Record InheritanceContext := MkInheritance { relationships : list Json; truncated : bool }.
Record SearchState := MkSearch {
  queue : list Z;
  pending : gset Z;
  visited : gset Z;
  emitted : list RelationshipRow;  (* a set: the order is of no account *)
  context : InheritanceContext;
}.
Definition truncate_context (c : InheritanceContext) : InheritanceContext := MkInheritance (relationships c) true.
Definition set_context (c : InheritanceContext) (s : SearchState) : SearchState :=
  MkSearch (queue s) (pending s) (visited s) (emitted s) c.
Definition truncate_search (s : SearchState) : SearchState := set_context (truncate_context (context s)) s.

(** How the loop over the edges of a class goes on. *)
Inductive EdgeFlow :=
| Proceed (s : SearchState)   (* the next edge *)
| Break (s : SearchState)     (* no more edges of this class *)
| Return (s : SearchState).   (* the search ends *)

Definition next_class (class_id : Z) (edge : RelationshipRow) : option Z :=
  if rr_kind edge =s lit "framework_parent_candidate" then
    if (rr_source edge =? class_id)%Z then rr_target edge
    else if bool_decide (rr_target edge = Some class_id) then Some (rr_source edge)
    else None
  else if (rr_kind edge =s lit "php_extends_candidate") && (rr_source edge =? class_id)%Z then rr_target edge
  else None.
(** [if let Some(next) = next && ..] *)
Definition push_next (next : option Z) (s : SearchState) : EdgeFlow :=
  match next with
  | Some next =>
      if bool_decide (next ∈ visited s) || bool_decide (next ∈ pending s) then Proceed s
      else if size (pending s) + size (visited s) =? MAX_PENDING then Break (truncate_search s)
      else Proceed (MkSearch (queue s ++ [next]) ({[next]} ∪ pending s) (visited s) (emitted s) (context s))
  | None => Proceed s
  end.
Definition edge_step (tables : IndexTables) (class_id : Z) (edge : RelationshipRow) (s : SearchState) : result EdgeFlow :=
  if bool_decide (edge ∈ emitted s) then Ok (push_next (next_class class_id edge) s)
  else
    let s := MkSearch (queue s) (pending s) (visited s) (emitted s ++ [edge]) (context s) in
    if length (relationships (context s)) =? MAX_EMITTED then Ok (Return (truncate_search s))
    else
      value ← relationship_value tables edge;
      Ok (push_next (next_class class_id edge)
            (set_context (MkInheritance (relationships (context s) ++ [value]) (truncated (context s))) s)).
Fixpoint edge_loop (tables : IndexTables) (class_id : Z) (edges : list RelationshipRow) (s : SearchState)
    : result EdgeFlow :=
  match edges with
  | [] => Ok (Break s)
  | edge :: edges =>
      flow ← edge_step tables class_id edge s;
      match flow with
      | Proceed s => edge_loop tables class_id edges s
      | Break _ | Return _ => Ok flow
      end
  end.
Fixpoint search_loop (fuel : nat) (tables : IndexTables) (s : SearchState) : result SearchState :=
  match queue s with
  | [] => Ok s
  | class_id :: rest =>
      let s := MkSearch rest (pending s ∖ {[class_id]}) (visited s) (emitted s) (context s) in
      match fuel with
      | O => Err "unreachable: the search ends"
      | S fuel =>
          if bool_decide (class_id ∈ visited s) then search_loop fuel tables s
          else if size (visited s) =? MAX_VISITED then Ok (truncate_search s)
          else
            let s := MkSearch (queue s) (pending s) ({[class_id]} ∪ visited s) (emitted s) (context s) in
            qualified ← qualified_class tables class_id;
            flow ← edge_loop tables class_id (relationships_for_class tables class_id qualified) s;
            match flow with
            | Return s => Ok s
            | Proceed s | Break s =>
                if (size (visited s) =? MAX_VISITED) && negb (bool_decide (queue s = [])) then Ok (truncate_search s)
                else search_loop fuel tables s
            end
      end
  end.
(** The search visits at most [MAX_VISITED] classes and then ends. *)
Definition SEARCH_FUEL : nat := MAX_VISITED + 1.
Definition initial_search (seeds : SeedCollection) : SearchState :=
  MkSearch (ids seeds) (list_to_set (ids seeds)) ∅ [] (MkInheritance [] (seeds_truncated seeds)).
Definition collect (tables : IndexTables) (hit : Hit) : result InheritanceContext :=
  let seeds := class_seeds tables hit in
  if bool_decide (ids seeds = []) then Ok (MkInheritance [] (seeds_truncated seeds))
  else s ← search_loop SEARCH_FUEL tables (initial_search seeds); Ok (context s).

(** ** The rows of a class *)

Lemma joined_row tables e : (e ∈ joined tables (ix_relations tables)) → ∃ row, row_of tables e.1 = Some row.
Proof.
  unfold joined. intros (r & _ & Hr)%list_elem_of_omap. destruct (file_row tables (rl_file r)) as [f|] eqn:Hf; [|done].
  cbn in Hr. simplify_eq. cbn [fst]. unfold row_of. rewrite Hf. by eexists.
Qed.
Lemma omap_joined tables rows :
  omap (λ e, row_of tables e.1) (joined tables rows) = omap (row_of tables) rows.
Proof.
  unfold joined. induction rows as [|r rows IH]; [done|]. cbn [omap list_omap]. unfold row_of at 2.
  destruct (file_row tables (rl_file r)) as [f|] eqn:Hf; cbn [option_map mbind option_bind omap list_omap fst]; [|exact IH].
  unfold row_of at 1. rewrite Hf. cbn [mbind option_bind]. by f_equal.
Qed.
Lemma class_rows_perm tables c q :
  class_rows tables c q ≡ₚ omap (row_of tables) (List.filter (of_class tables c q) (ix_relations tables)).
Proof. unfold class_rows. rewrite <-omap_joined. apply omap_Permutation, sort_by_perm. Qed.
Lemma class_rows_elem tables c q row :
  row ∈ class_rows tables c q ↔
  ∃ r, r ∈ ix_relations tables ∧ of_class tables c q r = true ∧ row_of tables r = Some row.
Proof.
  rewrite class_rows_perm, list_elem_of_omap. split.
  - intros (r & Hr & Hrow). exists r. apply list_elem_of_In, filter_In in Hr as [Hr Hc].
    split_and!; [by apply list_elem_of_In|done|done].
  - intros (r & Hr & Hc & Hrow). exists r. split; [|done]. apply list_elem_of_In, filter_In.
    split; [by apply list_elem_of_In|done].
Qed.

(** No two stored relationships give the same row. *)
Definition distinct_relations (tables : IndexTables) : Prop := NoDup (omap (row_of tables) (ix_relations tables)).
Lemma NoDup_omap_filter {A B} (f : A → option B) (g : A → bool) l : NoDup (omap f l) → NoDup (omap f (List.filter g l)).
Proof.
  induction l as [|x l IH]; cbn [omap list_omap List.filter]; [done|]. intros Hnd.
  assert (Hl : NoDup (omap f l)) by (destruct (f x); [by apply NoDup_cons in Hnd as [_ ?]|done]).
  destruct (g x); [|by apply IH]. cbn [omap list_omap]. destruct (f x) as [y|]; [|by apply IH].
  apply NoDup_cons in Hnd as [Hy _]. apply NoDup_cons. split; [|by apply IH].
  intros (z & Hz & Hf)%list_elem_of_omap. apply Hy, list_elem_of_omap. exists z. split; [|done].
  apply list_elem_of_In in Hz. apply filter_In in Hz as [Hz _]. by apply list_elem_of_In.
Qed.
Lemma class_rows_distinct tables c q : distinct_relations tables → NoDup (class_rows tables c q).
Proof. intros Hd. rewrite class_rows_perm. by apply NoDup_omap_filter. Qed.

Section Search.
Context (tables : IndexTables) (seeds : list Z).

(** A class is one of the seeds, or a candidate relationship leads to it. *)
Definition related (c : Z) (row : RelationshipRow) : Prop :=
  ∃ q, qualified_class tables c = Ok q ∧ row ∈ class_rows tables c q.
Inductive reached : Z → Prop :=
| reached_seed c : c ∈ seeds → reached c
| reached_next c row n : reached c → related c row → next_class c row = Some n → reached n.

Definition shows (row : RelationshipRow) (value : Json) : Prop := relationship_value tables row = Ok value.
(** What is shown belongs to reached classes; it is everything unless the
    answer says that it is truncated. *)
Definition context_exact (c : InheritanceContext) : Prop :=
  ∃ rows, Forall2 shows rows (relationships c) ∧ NoDup rows ∧ length rows ≤ MAX_EMITTED ∧
    (∀ row, row ∈ rows → ∃ class, reached class ∧ related class row) ∧
    (truncated c = false → ∀ class row, reached class → related class row → row ∈ rows).

(** *** The invariant *)
Record search_inv (s : SearchState) : Prop := {
  si_pending : pending s = list_to_set (queue s);
  si_queue : NoDup (queue s);
  si_apart : ∀ c, c ∈ queue s → c ∉ visited s;
  si_seeds : ∀ c, c ∈ seeds → c ∈ queue s ∨ c ∈ visited s;
  si_reached : ∀ c, c ∈ queue s ∨ c ∈ visited s → reached c;
  si_values : Forall2 shows (emitted s) (relationships (context s));
  si_emitted : NoDup (emitted s);
  si_bound : length (emitted s) ≤ MAX_EMITTED;
  si_source : ∀ row, row ∈ emitted s → ∃ c, reached c ∧ related c row;
}.
Definition covered (s : SearchState) (c : Z) (rows : list RelationshipRow) : Prop :=
  ∀ row, row ∈ rows → row ∈ emitted s ∧ ∀ n, next_class c row = Some n → n ∈ queue s ∨ n ∈ visited s.
(** A step only adds. *)
Record grows (s s' : SearchState) : Prop := {
  gr_emitted : emitted s ⊆ emitted s';
  gr_classes : ∀ c, c ∈ queue s ∨ c ∈ visited s → c ∈ queue s' ∨ c ∈ visited s';
  gr_visited : visited s' = visited s;
  gr_truncated : truncated (context s') = false → truncated (context s) = false;
}.
#[local] Instance grows_preorder : PreOrder grows.
Proof.
  split; [by constructor|]. intros a b c [? ? Hv ?] [? ? Hv' ?]. constructor; [by etransitivity|auto| |auto].
  by rewrite Hv', Hv.
Qed.
Lemma covered_mono s s' c rows : grows s s' → covered s c rows → covered s' c rows.
Proof. intros [He Hc _ _] Hcov row Hrow. destruct (Hcov row Hrow) as [? Hn]. split; [by apply He|]. intros n Hnx. by apply Hc, Hn. Qed.

Lemma search_inv_context s c :
  search_inv s → relationships c = relationships (context s) → search_inv (set_context c s).
Proof. intros [] Hc. constructor; cbn; try done. by rewrite Hc. Qed.
Lemma grows_truncated_search s : grows s (truncate_search s).
Proof. by constructor. Qed.

Lemma sound_context s : search_inv s → truncated (context s) = true → context_exact (context s).
Proof. intros [] Ht. exists (emitted s). split_and!; [done..|]. congruence. Qed.
Lemma truncate_exact s : search_inv s → context_exact (context (truncate_search s)).
Proof. intros Hs. apply sound_context; [by apply search_inv_context|done]. Qed.

(** *** One edge *)
Lemma push_next_spec c row s :
  search_inv s → reached c → related c row → row ∈ emitted s →
  match push_next (next_class c row) s with
  | Proceed s' => search_inv s' ∧ grows s s' ∧ covered s' c [row]
  | Break s' => search_inv s' ∧ grows s s' ∧ truncated (context s') = true
  | Return _ => False
  end.
Proof.
  intros Hs Hc Hrow Hem. unfold push_next. destruct (next_class c row) as [n|] eqn:Hn.
  2: { split_and!; [done|reflexivity|]. intros row' ->%list_elem_of_singleton. split; [done|]. congruence. }
  assert (Hcov : ∀ s', grows s s' → n ∈ queue s' ∨ n ∈ visited s' → covered s' c [row]).
  { intros s' Hg Hin row' ->%list_elem_of_singleton. split; [by apply (gr_emitted _ _ Hg)|]. intros n' Hn'. congruence. }
  destruct (bool_decide (n ∈ visited s) || _) eqn:Hb.
  - split_and!; [done|reflexivity|]. apply Hcov; [reflexivity|]. apply orb_true_iff in Hb as [Hb|Hb]; bool_to_prop; [by right|].
    rewrite (si_pending s Hs) in Hb. apply elem_of_list_to_set in Hb. by left.
  - apply orb_false_iff in Hb as [Hv Hp]. bool_to_prop.
    rewrite (si_pending s Hs), elem_of_list_to_set in Hp. destruct (_ =? MAX_PENDING).
    { split_and!; [by apply search_inv_context|apply grows_truncated_search|done]. }
    assert (Hg : grows s (MkSearch (queue s ++ [n]) ({[n]} ∪ pending s) (visited s) (emitted s) (context s))).
    { constructor; cbn; [done| |done|done]. intros c'. rewrite elem_of_app. tauto. }
    split_and!; [|exact Hg|apply Hcov; [exact Hg|left; cbn; apply elem_of_app; right; by apply list_elem_of_singleton]].
    destruct Hs. constructor; cbn; try done.
    + rewrite list_to_set_app_L, si_pending0. cbn. set_solver.
    + apply NoDup_app. split_and!; [done| |apply NoDup_singleton]. by intros x Hx ->%list_elem_of_singleton.
    + intros c'. rewrite elem_of_app, list_elem_of_singleton. intros [?| ->]; auto.
    + intros c' Hc'. rewrite elem_of_app. destruct (si_seeds0 c' Hc'); auto.
    + intros c'. rewrite elem_of_app, list_elem_of_singleton. intros [[?| ->]|?]; auto. by eapply reached_next.
Qed.

Lemma edge_step_spec c row s flow :
  search_inv s → reached c → related c row → edge_step tables c row s = Ok flow →
  match flow with
  | Proceed s' => search_inv s' ∧ grows s s' ∧ covered s' c [row]
  | Break s' => search_inv s' ∧ grows s s' ∧ truncated (context s') = true
  | Return s' => context_exact (context s')
  end.
Proof.
  intros Hs Hc Hrow. unfold edge_step. case_bool_decide as Hem.
  { intros Hf. simplify_eq. pose proof (push_next_spec c row s Hs Hc Hrow Hem) as Hp. by destruct (push_next _ s). }
  cbn [context]. destruct (_ =? MAX_EMITTED) eqn:Hl.
  { intros Hf. simplify_eq. apply (truncate_exact s Hs). }
  apply Nat.eqb_neq in Hl. destruct (relationship_value tables row) as [value|] eqn:Hv; [|done].
  cbn [mbind result_bind context]. intros Hf. simplify_eq.
  set (s1 := set_context _ _).
  assert (Hg : grows s s1) by (constructor; cbn; [set_solver|done|done|done]).
  pose proof (Forall2_length _ _ _ (si_values s Hs)) as Hlen.
  assert (Hs1 : search_inv s1).
  { destruct Hs. constructor; cbn; try done.
    - apply Forall2_app; [done|]. by repeat constructor.
    - apply NoDup_app. split_and!; [done| |apply NoDup_singleton]. by intros x Hx ->%list_elem_of_singleton.
    - rewrite length_app. cbn [length]. lia.
    - intros row'. rewrite elem_of_app, list_elem_of_singleton. intros [?| ->]; [auto|]. by exists c. }
  assert (Hin : row ∈ emitted s1) by (cbn; apply elem_of_app; right; by apply list_elem_of_singleton).
  pose proof (push_next_spec c row s1 Hs1 Hc Hrow Hin) as Hp.
  destruct (push_next _ s1) as [s'|s'|s']; [| |done]; destruct Hp as (? & ? & ?); split_and!; try done; by etransitivity.
Qed.

Lemma edge_loop_spec c rows s flow :
  search_inv s → reached c → (∀ row, row ∈ rows → related c row) → edge_loop tables c rows s = Ok flow →
  match flow with
  | Proceed _ => False
  | Break s' => search_inv s' ∧ grows s s' ∧ (truncated (context s') = false → covered s' c rows)
  | Return s' => context_exact (context s')
  end.
Proof.
  revert s. induction rows as [|row rows IH]; intros s Hs Hc Hrows; cbn [edge_loop].
  { intros Hf. simplify_eq. split_and!; [done|reflexivity|]. by intros _ row Hrow%elem_of_nil. }
  destruct (edge_step tables c row s) as [flow1|] eqn:He; [|done]. cbn [mbind result_bind].
  apply edge_step_spec in He; [|done|done|apply Hrows; by left].
  destruct flow1 as [s1|s1|s1].
  - destruct He as (Hs1 & Hg1 & Hcov1). intros Hf.
    apply IH in Hf; [|done|done|intros; apply Hrows; by right].
    destruct flow as [s'|s'|s']; [done| |done]. destruct Hf as (Hs' & Hg' & Hcov').
    split_and!; [done|by etransitivity|]. intros Ht row' [->|Hrow']%elem_of_cons; [|by apply Hcov'].
    eapply covered_mono; [exact Hg'|exact Hcov1|by left].
  - intros Hf. simplify_eq. destruct He as (? & ? & Ht). split_and!; [done..|]. congruence.
  - intros Hf. by simplify_eq.
Qed.

(** *** The whole search *)
(** A class enters the visited ones. *)
Definition visit (c : Z) (rest : list Z) (s : SearchState) : SearchState :=
  MkSearch rest (pending s ∖ {[c]}) ({[c]} ∪ visited s) (emitted s) (context s).
Lemma visit_inv s c rest :
  search_inv s → queue s = c :: rest → search_inv (visit c rest s).
Proof.
  intros [] Hq. rewrite Hq in *. apply NoDup_cons in si_queue0 as [Hc Hnd]. constructor; cbn; try done.
  - rewrite si_pending0. cbn. set_solver.
  - intros c' Hc'. rewrite elem_of_union, elem_of_singleton. intros [->|Hv]; [done|].
    eapply si_apart0; [|exact Hv]. by right.
  - intros c' Hc'. rewrite elem_of_union, elem_of_singleton. destruct (si_seeds0 c' Hc') as [[->|?]%elem_of_cons|?]; auto.
  - intros c'. rewrite elem_of_union, elem_of_singleton. intros [?|[->|?]]; apply si_reached0; auto.
    + left. by right.
    + left. by left.
Qed.
Lemma visit_classes s c rest c' :
  queue s = c :: rest → c' ∈ queue s ∨ c' ∈ visited s → c' ∈ queue (visit c rest s) ∨ c' ∈ visited (visit c rest s).
Proof. intros Hq. rewrite Hq. cbn. rewrite elem_of_cons, elem_of_union, elem_of_singleton. tauto. Qed.
Lemma visit_size s c rest : search_inv s → queue s = c :: rest → size (visited (visit c rest s)) = S (size (visited s)).
Proof.
  intros Hs Hq. cbn. rewrite size_union, size_singleton; [done|]. apply disjoint_singleton_l, (si_apart s Hs). rewrite Hq. by left.
Qed.

(** Every row of the visited classes is emitted, and what it leads to is known. *)
Definition all_covered (s : SearchState) : Prop :=
  ∀ c q, c ∈ visited s → qualified_class tables c = Ok q → covered s c (relationships_for_class tables c q).

(** Under the bound on what is shown, the limit of the query cut nothing. *)
Lemma covered_uncut s c q :
  distinct_relations tables → length (emitted s) ≤ MAX_EMITTED → covered s c (relationships_for_class tables c q) →
  relationships_for_class tables c q = class_rows tables c q.
Proof.
  intros Hd Hb Hcov. unfold relationships_for_class in *. apply take_ge.
  assert (Hle : length (take (MAX_EMITTED + 1) (class_rows tables c q)) ≤ length (emitted s)).
  { apply submseteq_length, NoDup_submseteq.
    - eapply sublist_NoDup; [by apply class_rows_distinct|apply sublist_take].
    - intros row Hrow. by apply Hcov. }
  rewrite length_take in Hle. lia.
Qed.

Lemma search_end s :
  distinct_relations tables → search_inv s → (truncated (context s) = false → all_covered s) → queue s = [] →
  context_exact (context s).
Proof.
  intros Hd Hs Hall Hq. exists (emitted s). split_and!; [apply Hs..|]. intros Ht. specialize (Hall Ht).
  assert (Huncut : ∀ c row, c ∈ visited s → related c row → row ∈ emitted s ∧
      ∀ n, next_class c row = Some n → n ∈ queue s ∨ n ∈ visited s).
  { intros c row Hc (q & Hcq & Hrow). pose proof (Hall c q Hc Hcq) as Hcov.
    rewrite <-(covered_uncut s c q Hd (si_bound s Hs) Hcov) in Hrow. by apply Hcov. }
  assert (Hvis : ∀ c, reached c → c ∈ visited s).
  { induction 1 as [c Hc|c row n Hc IH Hrow Hn].
    - destruct (si_seeds s Hs c Hc) as [Hin|?]; [|done]. rewrite Hq in Hin. by apply elem_of_nil in Hin.
    - destruct (Huncut c row IH Hrow) as [_ Hnx]. destruct (Hnx n Hn) as [Hin|?]; [|done].
      rewrite Hq in Hin. by apply elem_of_nil in Hin. }
  intros c row Hc Hrow. by apply (Huncut c row (Hvis c Hc)).
Qed.

Lemma related_limited c q row :
  qualified_class tables c = Ok q → row ∈ relationships_for_class tables c q → related c row.
Proof. intros Hq Hrow. exists q. split; [done|]. eapply subseteq_take, Hrow. Qed.

Lemma search_loop_spec fuel s s' :
  distinct_relations tables → search_inv s → (truncated (context s) = false → all_covered s) →
  search_loop fuel tables s = Ok s' → context_exact (context s').
Proof.
  intros Hd. revert s. induction fuel as [|fuel IH]; intros s Hs Hall; cbn [search_loop];
    destruct (queue s) as [|c rest] eqn:Hq; cbv zeta; intros Hl; simplify_eq;
    try by eapply search_end.
  cbn [visited] in Hl. rewrite bool_decide_eq_false_2 in Hl by (apply (si_apart s Hs); rewrite Hq; by left).
  destruct (size (visited s) =? MAX_VISITED); [simplify_eq; by apply (truncate_exact s)|].
  cbn [queue pending visited emitted context] in Hl. fold (visit c rest s) in Hl.
  destruct (qualified_class tables c) as [q|] eqn:Hcq; [|done]. cbn [mbind result_bind] in Hl.
  destruct (edge_loop tables c _ _) as [flow|] eqn:He; [|done]. cbn [mbind result_bind] in Hl.
  pose proof (visit_inv s c rest Hs Hq) as Hs1.
  assert (Hc : reached c) by (apply (si_reached s Hs); left; rewrite Hq; by left).
  eapply edge_loop_spec in He; [|exact Hs1|exact Hc|by intros; eapply related_limited].
  destruct flow as [s2|s2|s2]; [done| |by simplify_eq].
  destruct He as (Hs2 & Hg & Hcov).
  destruct (_ && _); [simplify_eq; by apply (truncate_exact s2)|].
  apply IH in Hl; [done|done|]. intros Ht c' q' Hc' Hq'. rewrite (gr_visited _ _ Hg) in Hc'. cbn in Hc'.
  apply elem_of_union in Hc' as [->%elem_of_singleton|Hc'].
  - assert (q' = q) as -> by congruence. by apply Hcov.
  - eapply covered_mono; [exact Hg|]. pose proof (gr_truncated _ _ Hg Ht) as Ht1. cbn in Ht1.
    intros row Hrow. destruct (Hall Ht1 c' q' Hc' Hq' row Hrow) as [He Hn]. split; [done|].
    intros n Hnx. by apply visit_classes, Hn.
Qed.

(** *** It ends, with an answer *)
(** The keys of the relationships are those of stored definitions. *)
Definition foreign_keys : Prop :=
  ∀ r, r ∈ ix_relations tables → is_ok (definition_target tables (rl_source r)) = true ∧
    ∀ target, rl_target r = Some target → is_ok (definition_target tables target) = true.
Definition stored_class (c : Z) : Prop := is_Some (definition_row tables c).

Lemma target_stored id : is_ok (definition_target tables id) = true → stored_class id.
Proof. unfold definition_target, stored_class. destruct (definition_row tables id); cbn; [by eexists|done]. Qed.
Lemma row_keys c q row :
  foreign_keys → row ∈ class_rows tables c q →
  is_ok (definition_target tables (rr_source row)) = true ∧
  ∀ target, rr_target row = Some target → is_ok (definition_target tables target) = true.
Proof.
  intros Hfk (r & Hr & _ & Hrow)%class_rows_elem. unfold row_of in Hrow.
  destruct (file_row tables (rl_file r)); cbn in Hrow; simplify_eq. by apply Hfk.
Qed.
Lemma reached_stored c :
  foreign_keys → (∀ c, c ∈ seeds → stored_class c) → reached c → stored_class c.
Proof.
  intros Hfk Hseeds. induction 1 as [c Hc|c row n _ _ (q & _ & Hrow) Hn]; [by apply Hseeds|].
  destruct (row_keys c q row Hfk Hrow) as [Hsrc Htgt]. apply target_stored. unfold next_class in Hn.
  destruct (_ =s _); [|destruct (_ && _); [by apply Htgt|done]].
  destruct (_ =? _)%Z; [by apply Htgt|]. case_bool_decide; by simplify_eq.
Qed.
Lemma qualified_stored c : stored_class c → ∃ q, qualified_class tables c = Ok q.
Proof. intros [d Hd]. unfold qualified_class. rewrite Hd. by eexists. Qed.

Lemma edge_loop_total c q rows s :
  foreign_keys → search_inv s → reached c → qualified_class tables c = Ok q →
  (∀ row, row ∈ rows → row ∈ class_rows tables c q) → ∃ flow, edge_loop tables c rows s = Ok flow.
Proof.
  intros Hfk. revert s. induction rows as [|row rows IH]; intros s Hs Hc Hq Hrows; cbn [edge_loop]; [by eexists|].
  assert (Hrow : row ∈ class_rows tables c q) by (apply Hrows; by left).
  assert (Hv : ∃ value, relationship_value tables row = Ok value).
  { destruct (row_keys c q row Hfk Hrow) as [Hsrc Htgt]. unfold relationship_value, optional_target.
    destruct (definition_target tables (rr_source row)) as [source|]; [|done].
    destruct (rr_target row) as [t|]; [|by eexists]. specialize (Htgt t eq_refl).
    destruct (definition_target tables t); [|done]. by eexists. }
  destruct (edge_step tables c row s) as [flow|] eqn:He.
  2: { destruct Hv as [v Hv]. unfold edge_step in He. rewrite Hv in He. by repeat case_match. }
  apply (edge_step_spec) in He; [|done..|by exists q]. cbn [mbind result_bind].
  destruct flow as [s'|s'|s']; [|by eexists..]. apply IH; [by destruct He|done..|]. intros; apply Hrows; by right.
Qed.

Lemma search_loop_total fuel s :
  foreign_keys → (∀ c, c ∈ seeds → stored_class c) → search_inv s →
  size (visited s) ≤ MAX_VISITED → MAX_VISITED < size (visited s) + fuel →
  ∃ s', search_loop fuel tables s = Ok s'.
Proof.
  intros Hfk Hseeds. revert s. induction fuel as [|fuel IH]; intros s Hs Hle Hfuel; [lia|]. cbn [search_loop].
  destruct (queue s) as [|c rest] eqn:Hq; cbv zeta; [by eexists|]. cbn [visited].
  rewrite bool_decide_eq_false_2 by (apply (si_apart s Hs); rewrite Hq; by left).
  destruct (_ =? MAX_VISITED) eqn:Hsize; [by eexists|]. apply Nat.eqb_neq in Hsize.
  cbn [queue pending visited emitted context]. fold (visit c rest s).
  assert (Hc : reached c) by (apply (si_reached s Hs); left; rewrite Hq; by left).
  destruct (qualified_stored c) as [q Hcq]; [by apply reached_stored|]. rewrite Hcq. cbn [mbind result_bind].
  pose proof (visit_inv s c rest Hs Hq) as Hs1. pose proof (visit_size s c rest Hs Hq) as Hvs.
  destruct (edge_loop_total c q (relationships_for_class tables c q) (visit c rest s)) as [flow He]; [done..| |].
  { intros row Hrow. eapply subseteq_take, Hrow. }
  rewrite He. cbn [mbind result_bind].
  eapply edge_loop_spec in He; [|exact Hs1|exact Hc|by intros; eapply related_limited].
  destruct flow as [s2|s2|s2]; [done| |by eexists]. destruct He as (Hs2 & Hg & _).
  destruct (_ && _); [by eexists|]. apply IH; [done|rewrite (gr_visited _ _ Hg); lia..].
Qed.
End Search.

(** ** The seeds *)

Section Seeds.
Context (tables : IndexTables) (hit : Hit).

(** The class that a definition counts for. *)
Definition class_of (id : Z) : option Z :=
  d ← definition_row tables id;
  if kind_among CLASS_KINDS (de_kind d) then Some id
  else if de_kind d =s lit "method" then owner_of tables d else None.
Definition hit_targets : list DefinitionTarget :=
  match hit_target hit with Some target => [target] | None => [] end ++ hit_candidates hit.
(** A class around the hit, or one of a definition that the hit or an extension
    in it may mean. *)
Inductive is_seed : Z → Prop :=
| seed_around d : d ∈ ix_definitions tables → encloses_hit tables hit d = true → is_seed (de_id d)
| seed_target target d c :
    target ∈ hit_targets → d ∈ ix_definitions tables → is_target tables target d = true →
    class_of (de_id d) = Some c → is_seed c
| seed_extension o id c :
    o ∈ ix_occurrences tables → touches_hit tables hit o = true → oe_target o = Some id ∨ id ∈ oe_candidates o →
    class_of id = Some c → is_seed c.

Record seeds_inv (s : SeedCollection) : Prop := {
  sd_known : known s = list_to_set (ids s);
  sd_distinct : NoDup (ids s);
  sd_bound : length (ids s) ≤ MAX_VISITED;
}.
(** From [s] to [s'] only classes of [P] are added, and all of them unless the
    seeds are truncated. *)
Record adds (P : Z → Prop) (s s' : SeedCollection) : Prop := {
  ad_inv : seeds_inv s → seeds_inv s';
  ad_keeps : ids s ⊆ ids s';
  ad_sound : ∀ c, c ∈ ids s' → c ∈ ids s ∨ P c;
  ad_truncated : seeds_truncated s' = false → seeds_truncated s = false;
  ad_complete : seeds_inv s → seeds_truncated s' = false → ∀ c, P c → c ∈ ids s';
}.
Lemma adds_none s : adds (λ _, False) s s.
Proof. constructor; auto; done. Qed.
Lemma adds_app P Q s1 s2 s3 : adds P s1 s2 → adds Q s2 s3 → adds (λ c, P c ∨ Q c) s1 s3.
Proof.
  intros [A1 A2 A3 A4 A5] [B1 B2 B3 B4 B5]. constructor; [auto|by etransitivity| |auto|].
  - intros c [[?|?]%A3|?]%B3; auto.
  - intros Hinv Ht c [Hc|Hc]; [|by apply B5; auto]. apply B2, A5; auto.
Qed.
Lemma adds_iff P Q s s' : (∀ c, P c ↔ Q c) → adds P s s' → adds Q s s'.
Proof. intros HPQ [A1 A2 A3 A4 A5]. constructor; auto; intros; [rewrite <-HPQ|apply A5; [..|apply HPQ]]; auto. Qed.
Lemma adds_cut (P Q : Z → Prop) s s' : (∀ c, P c → Q c) → seeds_truncated s' = true → adds P s s' → adds Q s s'.
Proof.
  intros HPQ Ht [A1 A2 A3 A4 A5]. constructor; auto.
  - intros c [?|?]%A3; auto.
  - congruence.
Qed.
Lemma adds_truncate (Q : Z → Prop) s : adds Q s (truncate_seeds s).
Proof. constructor; cbn; auto; try done. by intros []. Qed.

Lemma add_class_adds id s : adds (λ c, c = id) s (add_class id s).
Proof.
  unfold add_class. case_bool_decide as Hk.
  { constructor; auto. intros [Hkn _ _] _ c ->. rewrite Hkn in Hk. by apply elem_of_list_to_set in Hk. }
  destruct (_ =? MAX_VISITED) eqn:Hl; [apply adds_truncate|]. apply Nat.eqb_neq in Hl.
  constructor; cbn; [|set_solver..].
  intros [Hkn Hnd Hb]. rewrite Hkn, elem_of_list_to_set in Hk. constructor; cbn.
  - rewrite Hkn, list_to_set_app_L. cbn. set_solver.
  - apply NoDup_app. split_and!; [done| |apply NoDup_singleton]. by intros x Hx ->%list_elem_of_singleton.
  - rewrite length_app. cbn [length]. lia.
Qed.

Lemma add_definition_adds id s more s' :
  add_definition tables id s = (more, s') →
  adds (λ c, class_of id = Some c) s s' ∧ (more = false → seeds_truncated s' = true).
Proof.
  unfold add_definition. destruct (_ =? MAX_SEED_WORK).
  { intros Heq. simplify_eq. split; [apply adds_truncate|done]. }
  cbv zeta. intros Heq. simplify_eq. split; [|done]. set (s1 := MkSeeds _ _ _ _).
  assert (H1 : adds (λ _, False) s s1) by (constructor; auto; [by intros []|done]).
  assert (Hadd : ∀ id', adds (λ c, Some id' = Some c) s (add_class id' s1)).
  { intros id'. eapply adds_iff; [|exact (adds_app _ _ _ _ _ H1 (add_class_adds id' s1))]. cbn. naive_solver. }
  assert (Hnone : adds (λ c, None = Some c) s s1) by (eapply adds_iff; [|exact H1]; cbn; naive_solver).
  unfold class_of. destruct (definition_row tables id) as [d|]; cbn [mbind option_bind]; [|exact Hnone].
  destruct (kind_among _ _); [apply Hadd|]. destruct (_ =s _); [|exact Hnone].
  destruct (owner_of tables d); [apply Hadd|exact Hnone].
Qed.
Definition class_among (new : list Z) (c : Z) : Prop := ∃ id, id ∈ new ∧ class_of id = Some c.
Lemma add_definitions_adds new s : adds (class_among new) s (add_definitions tables new s).
Proof.
  revert s. induction new as [|id new IH]; intros s; cbn [add_definitions].
  { eapply adds_iff; [|apply adds_none]. unfold class_among. set_solver. }
  destruct (add_definition tables id s) as [more s'] eqn:Ha. apply add_definition_adds in Ha as [Ha Hm].
  destruct more.
  - eapply adds_iff; [|eapply adds_app; [exact Ha|apply IH]]. unfold class_among. set_solver.
  - eapply adds_cut; [|by apply Hm|exact Ha]. unfold class_among. set_solver.
Qed.

Lemma add_hit_classes_adds new hit_classes s :
  adds (λ c, c ∈ new) s (add_hit_classes new hit_classes s) ∧
  (seeds_truncated (add_hit_classes new hit_classes s) = false → hit_classes ≤ MAX_VISITED → hit_classes + length new ≤ MAX_VISITED).
Proof.
  revert hit_classes s. induction new as [|id new IH]; intros hit_classes s; cbn [add_hit_classes length].
  { split; [|lia]. eapply adds_iff; [|apply adds_none]. set_solver. }
  destruct (_ =? MAX_VISITED) eqn:Hl; [split; [apply adds_truncate|done]|]. apply Nat.eqb_neq in Hl.
  destruct (IH (S hit_classes) (add_class id s)) as [Ha Hb]. split.
  - eapply adds_iff; [|eapply adds_app; [apply add_class_adds|exact Ha]]. set_solver.
  - intros Ht Hle. specialize (Hb Ht). lia.
Qed.

Definition target_class (target : DefinitionTarget) (c : Z) : Prop :=
  ∃ d, d ∈ ix_definitions tables ∧ is_target tables target d = true ∧ class_of (de_id d) = Some c.
(** A limited query whose answer is not longer than one less than the limit is whole. *)
Lemma limited_whole {A} (cmp : A → A → comparison) (f : A → bool) (l : list A) n x :
  length (take (n + 1) (sort_by cmp (List.filter f l))) ≤ n →
  x ∈ take (n + 1) (sort_by cmp (List.filter f l)) ↔ x ∈ l ∧ f x = true.
Proof.
  intros Hl. rewrite take_ge by (rewrite length_take in Hl; lia).
  rewrite elem_of_sort_by, list_elem_of_In, filter_In. by rewrite <-list_elem_of_In.
Qed.
Lemma limited_sound {A} (cmp : A → A → comparison) (f : A → bool) (l : list A) n m x :
  x ∈ take m (take n (sort_by cmp (List.filter f l))) → x ∈ l ∧ f x = true.
Proof.
  intros Hx%subseteq_take%subseteq_take. rewrite elem_of_sort_by, list_elem_of_In, filter_In in Hx.
  by rewrite <-list_elem_of_In in Hx.
Qed.

Lemma add_target_adds target s : adds (target_class target) s (add_target tables target s).
Proof.
  unfold add_target. cbv zeta. set (all := target_definition_ids tables target).
  pose proof (add_definitions_adds (take MAX_VISITED all)) as Ha.
  assert (Hsound : ∀ c, class_among (take MAX_VISITED all) c → target_class target c).
  { intros c (id & Hid & Hc). unfold all, target_definition_ids in Hid. rewrite <-fmap_take in Hid.
    apply list_elem_of_fmap in Hid as (d & -> & [Hd Ht]%limited_sound). by exists d. }
  destruct (_ <? length all) eqn:Hlen.
  - specialize (Ha (truncate_seeds s)). pose proof (adds_app _ _ _ _ _ (adds_truncate (λ _, False) s) Ha) as Hb.
    eapply adds_cut; [|by apply not_false_is_true; intros Ht%(ad_truncated _ _ _ Ha)|exact Hb].
    intros c [[]|Hc]. by apply Hsound.
  - apply Nat.ltb_ge in Hlen. eapply adds_iff; [|apply Ha]. intros c. split; [apply Hsound|].
    intros (d & Hd & Ht & Hc). exists (de_id d). split; [|done]. rewrite take_ge by done.
    unfold all, target_definition_ids in Hlen |- *. rewrite length_fmap in Hlen.
    apply list_elem_of_fmap. exists d. split; [done|]. by apply limited_whole.
Qed.
Lemma add_targets_adds targets target_count s :
  adds (λ c, ∃ target, target ∈ targets ∧ target_class target c) s (add_targets tables targets target_count s).
Proof.
  revert target_count s. induction targets as [|target targets IH]; intros target_count s; cbn [add_targets].
  { eapply adds_iff; [|apply adds_none]. set_solver. }
  destruct (_ || _); [apply adds_truncate|].
  eapply adds_iff; [|eapply adds_app; [apply add_target_adds|apply IH]]. set_solver.
Qed.

Definition extension_class (o : OccurrenceEntry) (c : Z) : Prop :=
  ∃ id, (oe_target o = Some id ∨ id ∈ oe_candidates o) ∧ class_of id = Some c.
Lemma add_occurrences_adds rows occurrence_count s :
  adds (λ c, ∃ o, o ∈ rows ∧ extension_class o c) s (add_occurrences tables rows occurrence_count s) ∧
  (seeds_truncated (add_occurrences tables rows occurrence_count s) = false → occurrence_count ≤ MAX_SEED_WORK →
   occurrence_count + length rows ≤ MAX_SEED_WORK).
Proof.
  revert occurrence_count s. induction rows as [|o rows IH]; intros n s; cbn [add_occurrences length].
  { split; [|lia]. eapply adds_iff; [|apply adds_none]. set_solver. }
  destruct (_ || _) eqn:Hl; [split; [apply adds_truncate|done]|]. apply orb_false_iff in Hl as [Hl _]. apply Nat.eqb_neq in Hl.
  assert (Ht : ∀ more s', (match oe_target o with Some target => add_definition tables target s | None => (true, s) end) = (more, s') →
      adds (λ c, ∃ id, oe_target o = Some id ∧ class_of id = Some c) s s' ∧ (more = false → seeds_truncated s' = true)).
  { intros more s'. destruct (oe_target o) as [id|].
    - intros [Ha Hm]%add_definition_adds. split; [|done]. eapply adds_iff; [|exact Ha]. cbn. naive_solver.
    - intros Heq. simplify_eq. split; [|done]. eapply adds_iff; [|apply adds_none]. cbn. naive_solver. }
  destruct (match oe_target o with Some _ => _ | None => _ end) as [more s'] eqn:Hd.
  destruct (Ht more s' eq_refl) as [Ha Hm]. destruct more.
  - destruct (IH (S n) (add_definitions tables (oe_candidates o) s')) as [Hb Hc]. split.
    + eapply adds_iff; [|eapply adds_app; [eapply adds_app; [exact Ha|apply add_definitions_adds]|exact Hb]].
      intros c. unfold extension_class, class_among. split.
      * intros [[(id & ? & ?)|(id & ? & ?)]|(o' & ? & ?)]; [exists o; split; [by left|]; eauto..|].
        exists o'. split; [by right|done].
      * intros (o' & [->|Ho]%elem_of_cons & Hx); [|right; by exists o']. left.
        destruct Hx as (id & [?|?] & ?); [left|right]; by exists id.
    + intros Hf Hle. specialize (Hc Hf). lia.
  - split; [|intros Hf; by rewrite Hm in Hf].
    eapply adds_cut; [|by apply Hm|exact Ha]. intros c (id & ? & ?). exists o. split; [by left|]. exists id. auto.
Qed.

(** The seeds are exactly the classes above, unless they are truncated. *)
Lemma class_seeds_exact :
  seeds_inv (class_seeds tables hit) ∧ (∀ c, c ∈ ids (class_seeds tables hit) → is_seed c) ∧
  (seeds_truncated (class_seeds tables hit) = false → ∀ c, is_seed c → c ∈ ids (class_seeds tables hit)).
Proof.
  unfold class_seeds. cbv zeta. fold hit_targets.
  set (s1 := add_hit_classes (enclosing_classes tables hit) 0 new_seeds).
  destruct (add_hit_classes_adds (enclosing_classes tables hit) 0 new_seeds) as [A1 L1]. fold s1 in A1, L1.
  set (s2 := add_targets tables hit_targets 0 s1).
  pose proof (add_targets_adds hit_targets 0 s1 : adds _ s1 s2) as A2.
  destruct (add_occurrences_adds (extension_occurrences tables hit) 0 s2) as [A3 L3].
  set (s3 := add_occurrences tables _ 0 s2) in *.
  pose proof (adds_app _ _ _ _ _ (adds_app _ _ _ _ _ A1 A2) A3) as A.
  assert (Hnew : seeds_inv new_seeds) by (constructor; cbn; [done|constructor|lia]).
  split_and!; [by apply A| |].
  - intros c [Hc|[[Hc|(target & Ht & d & Hd & Hm & Hc)]|(o & Ho & id & Hid & Hc)]]%(ad_sound _ _ _ A).
    + by apply elem_of_nil in Hc.
    + unfold enclosing_classes in Hc. apply list_elem_of_fmap in Hc as (d & -> & Hd).
      rewrite <-(take_ge (take _ _) (MAX_VISITED + 1)) in Hd by (rewrite length_take; lia).
      apply limited_sound in Hd as [Hd He]. by apply seed_around.
    + by eapply seed_target.
    + unfold extension_occurrences in Ho. rewrite <-(take_ge (take _ _) (MAX_SEED_WORK + 1)) in Ho by (rewrite length_take; lia).
      apply limited_sound in Ho as [Ho Hm]. by eapply seed_extension.
  - intros Ht c Hc. apply (ad_complete _ _ _ A Hnew Ht).
    assert (Ht1 : seeds_truncated s1 = false) by (apply (ad_truncated _ _ _ A2), (ad_truncated _ _ _ A3), Ht).
    specialize (L1 Ht1 ltac:(lia)). specialize (L3 Ht ltac:(lia)).
    unfold enclosing_classes in L1. rewrite length_fmap in L1. unfold extension_occurrences in L3.
    destruct Hc as [d Hd He|target d c Htg Hd Hm Hc|o id c Ho Hm Hid Hc].
    + left. left. apply list_elem_of_fmap. exists d. split; [done|]. apply limited_whole; [lia|done].
    + left. right. exists target. split; [done|]. by exists d.
    + right. exists o. split; [apply limited_whole; [lia|done]|]. by exists id.
Qed.

Lemma definition_stored d : d ∈ ix_definitions tables → stored_class tables (de_id d).
Proof.
  intros Hd. unfold stored_class, definition_row. destruct (find _ _) as [d'|] eqn:Hf; [by eexists|].
  apply list_elem_of_In in Hd. pose proof (find_none _ _ Hf d Hd) as Hn. cbn beta in Hn. by rewrite Z.eqb_refl in Hn.
Qed.
Lemma class_of_stored id c : class_of id = Some c → stored_class tables c.
Proof.
  unfold class_of. destruct (definition_row tables id) as [d|] eqn:Hd; cbn [mbind option_bind]; [|done].
  destruct (kind_among _ _); [intros Hc; simplify_eq; by exists d|]. destruct (_ =s _); [|done].
  unfold owner_of. destruct (sort_by _ _) as [|o l] eqn:Hs; cbn; [done|]. intros Hc. simplify_eq.
  apply definition_stored. assert (Ho : o ∈ o :: l) by left. rewrite <-Hs, elem_of_sort_by, list_elem_of_In, filter_In in Ho.
  by apply list_elem_of_In, Ho.
Qed.
Lemma seed_stored c : is_seed c → stored_class tables c.
Proof. intros [d Hd _|? ? ? _ _ _ Hc|? ? ? _ _ _ Hc]; [by apply definition_stored|by eapply class_of_stored..]. Qed.

Lemma initial_inv seeds : seeds_inv seeds → search_inv tables (ids seeds) (initial_search seeds).
Proof.
  intros [Hk Hnd Hb]. constructor; cbn; try done; try set_solver; try by constructor.
  all: try lia.
  intros c [Hc|Hc]; [by apply reached_seed|]. by apply elem_of_empty in Hc.
Qed.
Lemma initial_covered seeds : all_covered tables (initial_search seeds).
Proof. intros c q Hc. by apply elem_of_empty in Hc. Qed.
End Seeds.

(** *** Truncation is never forgotten *)
Lemma push_next_truncated next s :
  match push_next next s with
  | Proceed s' | Break s' | Return s' => truncated (context s') = false → truncated (context s) = false
  end.
Proof. unfold push_next. by repeat case_match; simplify_eq. Qed.
Lemma edge_step_truncated tables c row s flow :
  edge_step tables c row s = Ok flow →
  match flow with
  | Proceed s' | Break s' | Return s' => truncated (context s') = false → truncated (context s) = false
  end.
Proof.
  unfold edge_step. case_bool_decide.
  { intros Hf. simplify_eq. apply push_next_truncated. }
  cbn [context]. destruct (_ =? MAX_EMITTED); [by intros Hf; simplify_eq|].
  destruct (relationship_value tables row) as [v|]; [|done]. cbn [mbind result_bind]. intros Hf. simplify_eq.
  match goal with |- context [push_next ?n ?s1] => pose proof (push_next_truncated n s1) as Hp end.
  by destruct (push_next _ _).
Qed.
Lemma edge_loop_truncated tables c rows s flow :
  edge_loop tables c rows s = Ok flow →
  match flow with
  | Proceed s' | Break s' | Return s' => truncated (context s') = false → truncated (context s) = false
  end.
Proof.
  revert s. induction rows as [|row rows IH]; intros s; cbn [edge_loop]; [by intros Hf; simplify_eq|].
  destruct (edge_step tables c row s) as [flow1|] eqn:He; [|done]. cbn [mbind result_bind].
  apply edge_step_truncated in He. destruct flow1 as [s1|s1|s1]; intros Hf; [|simplify_eq; exact He..].
  apply IH in Hf. destruct flow; auto.
Qed.
Lemma search_loop_truncated fuel tables s s' :
  search_loop fuel tables s = Ok s' → truncated (context s') = false → truncated (context s) = false.
Proof.
  revert s. induction fuel as [|fuel IH]; intros s; cbn [search_loop]; destruct (queue s) as [|c rest]; cbv zeta;
    cbn [queue pending visited emitted context]; try (intros Hl; by simplify_eq).
  case_bool_decide; [intros Hl Ht; exact (IH _ Hl Ht)|]. destruct (_ =? MAX_VISITED); [by intros Hl; simplify_eq|].
  destruct (qualified_class tables c); [|done]. cbn [mbind result_bind].
  destruct (edge_loop tables c _ _) as [flow|] eqn:He; [|done]. cbn [mbind result_bind].
  apply edge_loop_truncated in He. cbn [context] in He. destruct flow as [s2|s2|s2]; try (intros Hl; simplify_eq; exact He).
  all: destruct (_ && _); [by intros Hl; simplify_eq|]. all: intros Hl Ht; exact (He (IH _ Hl Ht)).
Qed.

(** C31. The inheritance context of a hit: over an index whose relationships
    have stored ends and are distinct, the search ends with an answer within
    its bounds; it starts from the classes around the hit and those the hit and
    the extensions in it may mean, shows distinct stored relationships of
    classes reached from there, and unless it says that it is truncated it
    starts from all of these classes and shows all of these relationships. *)
Theorem inheritance_context_exact (tables : IndexTables) (hit : Hit)
    (Hkeys : foreign_keys tables) (Hdistinct : distinct_relations tables) :
  let seeds := ids (class_seeds tables hit) in
  ∃ answer, collect tables hit = Ok answer ∧ context_exact tables seeds answer ∧
    (∀ c, c ∈ seeds → is_seed tables hit c) ∧
    (truncated answer = false → ∀ c, is_seed tables hit c → c ∈ seeds).
Proof.
  cbv zeta. destruct (class_seeds_exact tables hit) as (Hinv & Hsound & Hcomplete). unfold collect. cbv zeta.
  set (seeds := class_seeds tables hit) in *. pose proof (initial_inv tables seeds Hinv) as Hs.
  case_bool_decide as Hids.
  - eexists. split_and!; [done| |done|exact Hcomplete].
    apply (search_end tables (ids seeds) (initial_search seeds)); [done|done| |exact Hids].
    intros _. apply initial_covered.
  - destruct (search_loop_total tables (ids seeds) SEARCH_FUEL (initial_search seeds)) as [s Hl]; [done| |done|change (size (∅ : gset Z) ≤ MAX_VISITED)|change (MAX_VISITED < size (∅ : gset Z) + SEARCH_FUEL)|];
      [|rewrite size_empty; unfold SEARCH_FUEL, MAX_VISITED; lia..|].
    { intros c Hc. by eapply seed_stored, Hsound. }
    rewrite Hl. exists (context s). split_and!; [done| |done|].
    + eapply search_loop_spec; [done|exact Hs| |exact Hl]. intros _. apply initial_covered.
    + intros Ht. apply Hcomplete. exact (search_loop_truncated _ _ _ _ Hl Ht).
Qed.

(** ** The response *)

(** [Serialize] of a [Hit]: the empty optional parts are left out, except the revision. *)
Definition hit_value (hit : Hit) : Json :=
  let m := if hit_handle hit =s [] then [] else obj_insert [] (lit "handle") (JStr (hit_handle hit)) in
  let m := obj_insert m (lit "path") (JStr (hit_path hit)) in
  let m := obj_insert m (lit "revision") match hit_revision hit with Some r => JStr r | None => JNull end in
  let m := obj_insert m (lit "start") (jnat (hit_start hit)) in
  let m := obj_insert m (lit "end") (jnat (hit_end hit)) in
  let m := obj_insert m (lit "start_line") (jnat (hit_start_line hit)) in
  let m := obj_insert m (lit "end_line") (jnat (hit_end_line hit)) in
  let m := obj_insert m (lit "name") (JStr (hit_name hit)) in
  let m := obj_insert m (lit "kind") (JStr (hit_kind hit)) in
  let m := insert_opt m "container" (hit_container hit) JStr in
  let m := insert_opt m "provenance" (hit_provenance hit) JStr in
  let m := insert_opt m "resolution" (hit_resolution hit) JStr in
  let m := match hit_candidates hit with
           | [] => m
           | candidates => obj_insert m (lit "candidates") (JArr (target_value <$> candidates))
           end in
  let m := insert_opt m "target" (hit_target hit) target_value in
  let m := insert_opt m "snippet" (hit_snippet hit) snippet_value in
  JObj (insert_opt m "repeats" (hit_repeats hit) jnat).

(** The definitions around the hit, in the current revision of its path. *)
Definition spans_hit (tables : IndexTables) (hit : Hit) (d : DefinitionEntry) : bool :=
  match file_row tables (de_file d) with
  | Some f => (ix_path f =s hit_path hit) && (de_start d <=? as_i64 (hit_start hit))%Z && (as_i64 (hit_end hit) <=? de_end d)%Z
  | None => false
  end.
Definition direct_ids (tables : IndexTables) (hit : Hit) : list Z :=
  de_id <$> List.filter (spans_hit tables hit) (ix_definitions tables).
Definition is_direct (tables : IndexTables) (hit : Hit) (r : RelationEntry) : bool :=
  bool_decide (rl_source r ∈ direct_ids tables hit) ||
  match rl_target r with Some target => bool_decide (target ∈ direct_ids tables hit) | None => false end.
(** [ORDER BY f.path,r.start,r.kind,r.source,r.target] *)
Definition direct_order : RelationEntry * str → RelationEntry * str → comparison :=
  cmp_then (cmp_on snd str_compare)
    (cmp_then (cmp_on (rl_start ∘ fst) Z.compare)
      (cmp_then (cmp_on (rl_kind ∘ fst) str_compare)
        (cmp_then (cmp_on (rl_source ∘ fst) Z.compare)
          (cmp_on (rl_target ∘ fst) (option_compare Z.compare))))).
Definition direct_rows (tables : IndexTables) (hit : Hit) : list (RelationEntry * str) :=
  take 101 (sort_by direct_order (joined tables (List.filter (is_direct tables hit) (ix_relations tables)))).
Definition direct_edge (tables : IndexTables) (row : RelationEntry * str) : result Json :=
  let '(r, path) := row in
  let resolution :=
    if rl_kind r =s lit "inheritance_issue" then lit "unresolved"
    else if ends_with (lit "_candidate") (rl_kind r) then lit "candidate"
    else match rl_target r with Some _ => lit "resolved" | None => lit "unresolved" end in
  source ← definition_target tables (rl_source r);
  target ← optional_target tables (rl_target r);
  Ok (edge_value (rl_kind r) resolution (rl_provenance r) path (rl_start r) (rl_end r) (target_value source) target).

(** The revision of a path, null or missing alike. *)
Definition current_revision (tables : IndexTables) (path : str) : option str :=
  f ← find (λ f, ix_path f =s path) (ix_files tables); ix_revision f.

Section Response.
Context `{Rendering}.

(** The first of the values with the same text. *)
Fixpoint dedup_edges (edges : list Json) (seen : list str) : list Json :=
  match edges with
  | [] => []
  | edge :: edges =>
      if bool_decide (json_to_string edge ∈ seen) then dedup_edges edges seen
      else edge :: dedup_edges edges (json_to_string edge :: seen)
  end.
Definition context_response (generation : Z) (hit : Hit) (metadata : list (str * Json)) (edges : list Json)
    (truncated : bool) : result Json :=
  let object := [(lit "generation", JNum generation); (lit "hit", hit_value hit); (lit "relationships", JArr edges);
                 (lit "tokenizer", JStr (lit "o200k_base")); (lit "truncated", JBool truncated)] in
  _ ← ensure (forallb (λ e, negb (bool_decide (is_Some (obj_get object e.1)))) metadata)
        "invalid_metadata: context metadata collides with response identity";
  Ok (JObj (foldl (λ m e, obj_insert m e.1 e.2) object metadata)).
(** The loop that drops the last edge until the response fits; [count] edges are left. *)
Fixpoint fit_context (count : nat) (generation : Z) (hit : Hit) (budget : OutputBudget) (metadata : list (str * Json))
    (edges : list Json) (truncated : bool) : result str :=
  response ← context_response generation hit metadata (take count edges) truncated;
  let text := encode response in
  if fits budget text then Ok text
  else match count with
       | O => Err "budget_too_small: context envelope does not fit"
       | S count => fit_context count generation hit budget metadata edges true
       end.
Definition context_entry (tables : IndexTables) (generation : Z) (hit : Hit) (budget : OutputBudget) (metadata : Json)
    : result str :=
  metadata ← or_err "invalid_metadata: context metadata must be an object"
               match metadata with JObj m => Some m | _ => None end;
  _ ← ensure (generation =? ix_generation tables)%Z "stale_result: graph generation changed; search again";
  let current := current_revision tables (hit_path hit) in
  _ ← ensure (bool_decide (current = hit_revision hit) && bool_decide (is_Some current))
        "stale_result: result source is outside current graph revision; search again";
  inheritance ← collect tables hit;
  direct ← try_map (direct_edge tables) (direct_rows tables hit);
  let edges := dedup_edges (relationships inheritance ++ direct) [] in
  let truncated := truncated inheritance || (100 <? length direct) || (100 <? length edges) in
  let edges := take 100 edges in
  fit_context (length edges) generation hit budget metadata edges truncated.

(** A rendered response keeps a prefix of the edges, the longest that fits, and
    says whether anything was left out. *)
Lemma fit_context_spec count generation hit budget metadata edges truncated text :
  count ≤ length edges →
  fit_context count generation hit budget metadata edges truncated = Ok text →
  ∃ n response, n ≤ count ∧ text = encode response ∧ fits budget text = true ∧
    context_response generation hit metadata (take n edges) (truncated || (n <? count)) = Ok response ∧
    ∀ m response', n < m ≤ count →
      context_response generation hit metadata (take m edges) (truncated || (m <? count)) = Ok response' →
      fits budget (encode response') = false.
Proof.
  revert truncated. induction count as [|count IH]; intros truncated Hc; cbn [fit_context];
    destruct (context_response _ _ _ (take _ edges) truncated) as [response|] eqn:Hr; try done; cbn [mbind result_bind];
    destruct (fits budget (encode response)) eqn:Hfit; try done.
  - intros Ht. simplify_eq. exists 0, response. rewrite orb_false_r. split_and!; [lia|done..|]. lia.
  - intros Ht. simplify_eq. exists (S count), response. rewrite Nat.ltb_irrefl, orb_false_r. split_and!; [lia|done..|]. lia.
  - intros (n & response' & Hn & -> & Hf & Hres & Hmax)%IH; [|lia]. exists n, response'.
    rewrite (proj2 (Nat.ltb_lt n (S count))) by lia. rewrite orb_true_r. split_and!; [lia|done..|].
    intros m r Hm Hmr. destruct (decide (m = S count)) as [->|Hne].
    + rewrite Nat.ltb_irrefl, orb_false_r in Hmr. congruence.
    + apply (Hmax m r); [lia|]. by rewrite (proj2 (Nat.ltb_lt m (S count))), orb_true_r in Hmr by lia.
Qed.

(** The relationships of the response: the search's first, then those of the
    definitions around the hit, each text once. *)
Definition context_edges (tables : IndexTables) (hit : Hit) (inheritance : InheritanceContext) (direct : list Json)
    : list Json := dedup_edges (relationships inheritance ++ direct) [].

(** The answer of [ctx]: it is given only for the hit's own generation and
    stored revision, fits the budget, carries the longest prefix of at most 100
    of the collected relationships that fits with it, and is marked truncated
    exactly when the search was, when the query of the direct relationships
    was, or when some collected relationship is left out. *)
Theorem context_entry_fits (tables : IndexTables) (generation : Z) (hit : Hit) (budget : OutputBudget)
    (metadata : list (str * Json)) (text : str)
    (Hok : context_entry tables generation hit budget (JObj metadata) = Ok text) :
  generation = ix_generation tables ∧ is_Some (hit_revision hit) ∧
  current_revision tables (hit_path hit) = hit_revision hit ∧
  ∃ inheritance direct n response, collect tables hit = Ok inheritance ∧
    try_map (direct_edge tables) (direct_rows tables hit) = Ok direct ∧
    let edges := context_edges tables hit inheritance direct in
    n ≤ Nat.min 100 (length edges) ∧ text = encode response ∧ fits budget text = true ∧
    context_response generation hit metadata (take n edges)
      (truncated inheritance || (100 <? length direct) || (n <? length edges)) = Ok response ∧
    ∀ m response', n < m ≤ Nat.min 100 (length edges) →
      context_response generation hit metadata (take m edges)
        (truncated inheritance || (100 <? length direct) || (m <? length edges)) = Ok response' →
      fits budget (encode response') = false.
Proof.
  unfold context_entry in Hok. cbn [or_err mbind result_bind] in Hok.
  destruct (ensure (_ =? _)%Z _) eqn:He1; [|done]. apply ensure_Ok in He1. cbn [mbind result_bind] in Hok.
  destruct (ensure (_ && _) _) eqn:He2; [|done]. apply ensure_Ok in He2. cbn [mbind result_bind] in Hok.
  apply andb_true_iff in He2 as [Hcur Hsome]. bool_to_prop.
  destruct (collect tables hit) as [inheritance|]; [|done]. cbn [mbind result_bind] in Hok.
  destruct (try_map _ (direct_rows tables hit)) as [direct|]; [|done]. cbn [mbind result_bind] in Hok.
  fold (context_edges tables hit inheritance direct) in Hok. set (edges := context_edges _ _ _ _) in *.
  apply fit_context_spec in Hok as (n & response & Hn & -> & Hf & Hres & Hmax); [|done].
  rewrite length_take in Hn, Hres, Hmax.
  assert (Hflag : ∀ k, k ≤ Nat.min 100 (length edges) →
      truncated inheritance || (100 <? length direct) || (100 <? length edges) || (k <? Nat.min 100 (length edges)) =
      truncated inheritance || (100 <? length direct) || (k <? length edges)).
  { intros k Hk. rewrite <-!orb_assoc. do 2 f_equal. apply eq_true_iff_eq. rewrite orb_true_iff, !Nat.ltb_lt. lia. }
  split_and!; [lia| |done|].
  { by rewrite <-Hcur. }
  exists inheritance, direct, n, response. split; [done|]. split; [done|]. cbv zeta. fold edges.
  split_and!; [lia|done|done| |].
  - rewrite take_take, Hflag in Hres by lia. by rewrite Nat.min_l in Hres by lia.
  - intros m r Hm Hmr. apply (Hmax m r Hm). rewrite take_take, Hflag by lia. by rewrite Nat.min_l by lia.
Qed.
End Response.

Module InheritanceExample.
(** [class A extends B] and [class B extends A] in two files; [C] is the
    framework parent of [B], and a method of [A] calls its parent. *)
Definition definition (id file : Z) (name kind : string) (start end_ : Z) (container : option string) : DefinitionEntry :=
  MkDefinitionEntry id file (lit name) (lit kind) start end_ (lit <$> container).
Definition relation (kind : string) (source : Z) (target : option Z) (file start : Z) : RelationEntry :=
  MkRelationEntry source target (lit kind) file start (start + 1) (lit "php").
Definition tables : IndexTables :=
  MkIndexTables 7
    [MkIndexedFile 1 (lit "a.php") (Some (lit "r1")); MkIndexedFile 2 (lit "b.php") (Some (lit "r2"))]
    [definition 1 1 "A" "class" 0 100 None; definition 2 1 "run" "method" 10 90 (Some "A"%string);
     definition 3 2 "B" "class" 0 50 (Some "Lib"%string); definition 4 2 "C" "class" 60 90 None]
    []
    [relation "php_extends_candidate" 1 (Some 3%Z) 1 5; relation "php_extends_candidate" 3 (Some 1%Z) 2 5;
     relation "framework_parent_candidate" 3 (Some 4%Z) 2 6; relation "php_parent_call_candidate" 2 None 1 20;
     relation "inheritance_issue" 4 None 2 61].
Definition hit : Hit :=
  {| hit_handle := lit "h:1"; hit_path := lit "a.php"; hit_revision := Some (lit "r1"); hit_start := 10; hit_end := 90;
     hit_start_line := 1; hit_end_line := 9; hit_name := lit "run"; hit_kind := lit "method"; hit_container := None;
     hit_provenance := None; hit_resolution := None; hit_candidates := []; hit_target := None; hit_snippet := None;
     hit_repeats := None |}.

Lemma keys : foreign_keys tables.
Proof.
  intros r Hr. cbn in Hr.
  repeat (apply elem_of_cons in Hr as [->|Hr]; [split; [reflexivity|]; intros t Ht; cbn in Ht; simplify_eq; reflexivity|]).
  by apply elem_of_nil in Hr.
Qed.
Lemma distinct : distinct_relations tables.
Proof. unfold distinct_relations. apply (bool_decide_unpack _). vm_compute. exact I. Qed.

Example five_relations :
  option_map (λ c, (length (relationships c), truncated c))
    match collect tables hit with Ok c => Some c | Err _ => None end = Some (5, false).
Proof. vm_compute. reflexivity. Qed.
Lemma inheritance_context_exact_witness :
  ∃ answer, collect tables hit = Ok answer ∧ context_exact tables (ids (class_seeds tables hit)) answer ∧
    ids (class_seeds tables hit) = [1%Z].
Proof.
  destruct (inheritance_context_exact tables hit keys distinct) as (answer & Hc & Hex & _).
  exists answer. split; [exact Hc|]. split; [exact Hex|]. vm_compute. reflexivity.
Defined.

(** A rendering of one byte for each member and each element. *)
Fixpoint dots (v : Json) : str :=
  match v with
  | JArr l => [ascii_of_nat 46] ++ concat (map dots l)
  | JObj m => [ascii_of_nat 46] ++ concat (map (λ e, dots e.2) m)
  | JStr s => s
  | JNum n => replicate (Z.to_nat n) (ascii_of_nat 46)
  | JNull | JBool _ => [ascii_of_nat 46]
  end.
#[local] Instance dotted : Rendering := {|
  token_count := @length ascii; json_to_string := dots; entry_to_value := λ _, JNull |}.
Definition budget (limit : nat) : OutputBudget := budget_new limit.
Example context_texts :
  (is_ok (context_entry tables 7 hit (budget 5000) (JObj [])), is_ok (context_entry tables 7 hit (budget 10) (JObj [])),
   is_ok (context_entry tables 8 hit (budget 5000) (JObj []))) = (true, false, false).
Proof. vm_compute. reflexivity. Qed.
Lemma context_entry_fits_witness :
  ∃ text, context_entry tables 7 hit (budget 500) (JObj []) = Ok text ∧
    (∃ n response, text = encode response ∧ fits (budget 500) text = true ∧ n ≤ 100).
Proof.
  destruct (context_entry tables 7 hit (budget 500) (JObj [])) as [text|] eqn:Ht.
  - exists text. split; [reflexivity|].
    destruct (context_entry_fits tables 7 hit (budget 500) [] text Ht) as
      (_ & _ & _ & inheritance & direct & n & response & _ & _ & Hn & Hr & Hf & _).
    exists n, response. split; [exact Hr|]. split; [exact Hf|]. lia.
  - exfalso. revert Ht. vm_compute. discriminate.
Defined.
End InheritanceExample.
