(* ===== verification/SyntaxTree.v ===== *)
(** * Syntax trees with positions

    The trees that the tree-sitter parsers give, seen through [tree_sitter::Node]
    as the extractors of [src/src/extract/] use it: a node is a place in its
    tree, from which its parent, its siblings and its children are reached.  The
    parser and the grammars are parameters of the extractors. *)
From Stdlib Require Import Ascii String ZArith Lia.
From stdpp Require Import base numbers list strings.
From S2P Require Import Prelude Order Text Collections Hierarchy Aliases.

(** ** Places *)

(** A node and the nodes above it, the nearest first, each with the index of the
    child on the way down. *)
Record Loc := MkLoc { here : Node; above : list (Node * nat) }.

Definition root_loc (root : Node) : Loc := MkLoc root [].
Definition parent (l : Loc) : option Loc :=
  match above l with [] => None | (p, _) :: up => Some (MkLoc p up) end.
(** [Node::id] tells places of one tree apart. *)
Definition same_node (a b : Loc) : bool := bool_decide (snd <$> above a = snd <$> above b).
Definition loc_start (l : Loc) : nat := nd_start (here l).
Definition loc_end (l : Loc) : nat := nd_end (here l).
Definition byte_range (l : Loc) : nat * nat := (loc_start l, loc_end l).
Definition is_kind (kinds : list string) (l : Loc) : bool := existsb (λ k, nd_kind (here l) =s lit k) kinds.

Definition loc_children (l : Loc) : list Loc :=
  imap (λ i c, MkLoc c ((here l, i) :: above l)) (nd_children (here l)).
Definition loc_named (l : Loc) : bool := nd_named (here l).
Definition loc_named_children (l : Loc) : list Loc := List.filter loc_named (loc_children l).
Definition named_child (i : nat) (l : Loc) : option Loc := loc_named_children l !! i.
Definition has_field (field : string) (l : Loc) : bool := bool_decide (nd_field (here l) = Some (lit field)).
(** [child_by_field_name] and [children_by_field_name]. *)
Definition field_child (field : string) (l : Loc) : option Loc := find (has_field field) (loc_children l).
Definition field_children (field : string) (l : Loc) : list Loc := List.filter (has_field field) (loc_children l).
(** [a.or_else(|| b)] of fields, tried in order. *)
Fixpoint first_field (fields : list string) (l : Loc) : option Loc :=
  match fields with
  | [] => None
  | field :: fields => match field_child field l with Some c => Some c | None => first_field fields l end
  end.

(** The named siblings before a node, the nearest first. *)
Definition previous_named (l : Loc) : list Loc :=
  match above l with
  | [] => []
  | (p, i) :: up => reverse (List.filter loc_named (take i (loc_children (MkLoc p up))))
  end.
Definition prev_named_sibling (l : Loc) : option Loc := head (previous_named l).

(** The loops [while let Some(parent) = ..] go through these. *)
Fixpoint places_above (up : list (Node * nat)) : list Loc :=
  match up with [] => [] | (p, _) :: up => MkLoc p up :: places_above up end.
Definition ancestors (l : Loc) : list Loc := places_above (above l).

(** [bindings::text]: the bytes of a node, or nothing when they are not text. *)
Definition text (source : str) (l : Loc) : str := default [] (utf8_text source (here l)).

(** Every place of a tree, in pre-order. *)
Fixpoint places (up : list (Node * nat)) (n : Node) {struct n} : list Loc :=
  MkLoc n up ::
    (fix each (i : nat) (cs : list Node) : list Loc :=
       match cs with
       | [] => []
       | c :: cs => places ((n, i) :: up) c ++ each (S i) cs
       end) 0 (nd_children n).

(** ** Well-formed trees *)

(** A node spans its children, which come in order without an overlap. *)
Fixpoint wf_node (n : Node) : bool :=
  (nd_start n <=? nd_end n) &&
  (fix each (lo : nat) (cs : list Node) : bool :=
     match cs with
     | [] => lo <=? nd_end n
     | c :: cs => (lo <=? nd_start c) && wf_node c && each (nd_end c) cs
     end) (nd_start n) (nd_children n).
Fixpoint ordered_in (lo hi : nat) (cs : list Node) : Prop :=
  match cs with
  | [] => lo ≤ hi
  | c :: cs => lo ≤ nd_start c ∧ ordered_in (nd_end c) hi cs
  end.
Lemma wf_node_inv n :
  wf_node n = true →
  nd_start n ≤ nd_end n ∧ ordered_in (nd_start n) (nd_end n) (nd_children n) ∧
  Forall (λ c, wf_node c = true) (nd_children n).
Proof.
  destruct n as [k nm f a b cs]. cbn [wf_node nd_start nd_end nd_children]. intros [Hab Hcs]%andb_true_iff.
  bool_to_prop. split; [done|]. clear k nm f Hab. revert a Hcs.
  induction cs as [|c cs IH]; intros a Hcs; [bool_to_prop; split; [done|constructor]|].
  apply andb_true_iff in Hcs as [[Ha Hc]%andb_true_iff Hcs]. bool_to_prop. apply IH in Hcs as [Ho Hf].
  cbn [ordered_in]. split_and!; [done..|]. by constructor.
Qed.

(** Induction on a tree and all its children. *)
Lemma node_induction (P : Node → Prop) :
  (∀ n, Forall P (nd_children n) → P n) → ∀ n, P n.
Proof.
  intros IH. fix go 1. intros n. apply IH. destruct n as [k nm f a b cs]. cbn [nd_children].
  induction cs as [|c cs IHcs]; constructor; [apply go|exact IHcs].
Qed.

Lemma ordered_in_span lo hi cs : ordered_in lo hi cs → Forall (λ c, nd_start c ≤ nd_end c) cs → lo ≤ hi.
Proof.
  revert lo. induction cs as [|c cs IH]; intros lo; cbn [ordered_in]; [done|].
  intros [Ha Ho] [Hc Hcs]%Forall_cons. specialize (IH _ Ho Hcs). lia.
Qed.
Lemma ordered_in_lookup lo hi cs i c :
  ordered_in lo hi cs → Forall (λ c, nd_start c ≤ nd_end c) cs → cs !! i = Some c → lo ≤ nd_start c ∧ nd_end c ≤ hi.
Proof.
  revert lo i. induction cs as [|c' cs IH]; intros lo i Ho Hall Hi; [done|].
  cbn [ordered_in] in Ho. destruct Ho as [Ha Ho]. apply Forall_cons in Hall as [Hc' Hcs]. destruct i as [|i]; cbn in Hi.
  - simplify_eq. split; [done|]. exact (ordered_in_span _ _ _ Ho Hcs).
  - destruct (IH _ i Ho Hcs Hi). lia.
Qed.
Lemma ordered_in_apart lo hi cs i j c d :
  ordered_in lo hi cs → Forall (λ c, nd_start c ≤ nd_end c) cs → cs !! i = Some c → cs !! j = Some d → i < j →
  nd_end c ≤ nd_start d.
Proof.
  revert lo i j. induction cs as [|c' cs IH]; intros lo i j Ho Hall Hi Hj Hij; [done|].
  cbn [ordered_in] in Ho. destruct Ho as [Ha Ho]. apply Forall_cons in Hall as [Hc' Hcs].
  destruct j as [|j]; [lia|]. destruct i as [|i]; cbn in Hi, Hj.
  - simplify_eq. by apply (ordered_in_lookup _ hi cs j d).
  - by apply (IH _ i j Ho Hcs Hi Hj ltac:(lia)).
Qed.

(** ** The place at a path *)

Fixpoint node_at (n : Node) (path : list nat) : option Node :=
  match path with
  | [] => Some n
  | i :: path => c ← nd_children n !! i; node_at c path
  end.
Lemma node_at_app n p q : node_at n (p ++ q) = c ← node_at n p; node_at c q.
Proof. revert n. induction p as [|i p IH]; intros n; [done|]. cbn. destruct (nd_children n !! i); [apply IH|done]. Qed.

Lemma wf_children n i c : wf_node n = true → nd_children n !! i = Some c →
  wf_node c = true ∧ nd_start n ≤ nd_start c ∧ nd_start c ≤ nd_end c ∧ nd_end c ≤ nd_end n.
Proof.
  intros (Hn & Ho & Hf)%wf_node_inv Hi. pose proof (Forall_lookup_1 _ _ _ _ Hf Hi) as Hc. cbn beta in Hc.
  assert (Hle : Forall (λ c, nd_start c ≤ nd_end c) (nd_children n)).
  { eapply Forall_impl; [exact Hf|]. intros x Hx. by destruct (wf_node_inv _ Hx). }
  split; [done|]. pose proof (ordered_in_lookup _ _ _ _ _ Ho Hle Hi). apply wf_node_inv in Hc. lia.
Qed.
Lemma wf_node_at n p c : wf_node n = true → node_at n p = Some c →
  wf_node c = true ∧ nd_start n ≤ nd_start c ∧ nd_start c ≤ nd_end c ∧ nd_end c ≤ nd_end n.
Proof.
  revert n. induction p as [|i p IH]; intros n Hn Hc; cbn in Hc.
  { simplify_eq. pose proof (wf_node_inv _ Hn). split; [done|lia]. }
  destruct (nd_children n !! i) as [d|] eqn:Hi; [|done]. cbn in Hc.
  destruct (wf_children n i d Hn Hi) as (Hd & ?). destruct (IH d Hd Hc) as (Hcw & ?). split; [done|lia].
Qed.

Definition contains_pos (pos : nat) (range : nat * nat) : bool := (range.1 <=? pos) && (pos <? range.2).
Definition within (inner outer : nat * nat) : Prop := outer.1 ≤ inner.1 ∧ inner.2 ≤ outer.2.

(** Two nodes around one byte are one below the other. *)
Lemma node_at_laminar n p q a b pos :
  wf_node n = true → node_at n p = Some a → node_at n q = Some b →
  contains_pos pos (nd_start a, nd_end a) = true → contains_pos pos (nd_start b, nd_end b) = true →
  within (nd_start a, nd_end a) (nd_start b, nd_end b) ∨ within (nd_start b, nd_end b) (nd_start a, nd_end a).
Proof.
  revert n q. induction p as [|i p IH]; intros n q Hn Ha Hb Hpa Hpb.
  { cbn in Ha. simplify_eq. right. pose proof (wf_node_at _ _ _ Hn Hb). unfold within; cbn. lia. }
  destruct q as [|j q].
  { cbn in Hb. simplify_eq. left. pose proof (wf_node_at _ _ _ Hn Ha). unfold within; cbn. lia. }
  cbn in Ha, Hb. destruct (nd_children n !! i) as [c|] eqn:Hi; [|done]. destruct (nd_children n !! j) as [d|] eqn:Hj; [|done].
  cbn in Ha, Hb. destruct (wf_children n i c Hn Hi) as (Hc & _). destruct (wf_children n j d Hn Hj) as (Hd & _).
  destruct (decide (i = j)) as [->|Hij].
  { assert (c = d) as -> by congruence. by apply (IH d q). }
  exfalso. pose proof (wf_node_at _ _ _ Hc Ha). pose proof (wf_node_at _ _ _ Hd Hb).
  pose proof (wf_node_inv _ Hn) as (_ & Ho & Hf).
  assert (Hle : Forall (λ c, nd_start c ≤ nd_end c) (nd_children n)).
  { eapply Forall_impl; [exact Hf|]. intros x Hx. by destruct (wf_node_inv _ Hx). }
  unfold contains_pos in Hpa, Hpb. cbn [fst snd] in Hpa, Hpb. bool_to_prop.
  destruct (decide (i < j)) as [Hlt|Hge].
  - pose proof (ordered_in_apart _ _ _ _ _ _ _ Ho Hle Hi Hj Hlt). lia.
  - pose proof (ordered_in_apart _ _ _ _ _ _ _ Ho Hle Hj Hi ltac:(lia)). lia.
Qed.

(** ** The places of a tree *)

Section Places.
Context (root : Node).

(** A place of the tree under [root]. *)
Inductive placed : Loc → Prop :=
| placed_root : placed (root_loc root)
| placed_child l i c : placed l → nd_children (here l) !! i = Some c → placed (MkLoc c ((here l, i) :: above l)).

Lemma placed_node l : placed l → node_at root (reverse (snd <$> above l)) = Some (here l).
Proof.
  induction 1 as [|l i c _ IH Hi]; [done|]. cbn [above here fmap list_fmap snd].
  rewrite reverse_cons, node_at_app. change (list_fmap _ _ snd (above l)) with (snd <$> above l). rewrite IH. cbn. by rewrite Hi.
Qed.
Lemma placed_parent l p : placed l → parent l = Some p → placed p.
Proof. intros [|[c up] i d Hl Hi]; unfold parent; cbn; [done|]. intros Hp. by simplify_eq. Qed.
Lemma placed_ancestors l a : placed l → a ∈ ancestors l → placed a.
Proof.
  unfold ancestors. destruct l as [n up]. cbn [above]. revert n.
  induction up as [|[p i] up IH]; intros n Hl Ha; cbn [places_above] in Ha; [by apply elem_of_nil in Ha|].
  pose proof (placed_parent (MkLoc n ((p, i) :: up)) (MkLoc p up) Hl eq_refl) as Hp.
  apply elem_of_cons in Ha as [->|Ha]; [done|]. by apply (IH p Hp).
Qed.
Lemma placed_children l c : placed l → c ∈ loc_children l → placed c.
Proof. intros Hl. unfold loc_children. intros (i & d & -> & Hd)%elem_of_lookup_imap. by apply placed_child. Qed.
Lemma placed_named_children l c : placed l → c ∈ loc_named_children l → placed c.
Proof. intros Hl [Hc _]%list_elem_of_In%filter_In. eapply placed_children; [done|]. by apply list_elem_of_In. Qed.
Lemma placed_field field l c : placed l → field_child field l = Some c → placed c.
Proof. intros Hl [Hc _]%find_some. eapply placed_children; [done|]. by apply list_elem_of_In. Qed.
Lemma placed_first_field fields l c : placed l → first_field fields l = Some c → placed c.
Proof.
  intros Hl. induction fields as [|field fields IH]; cbn [first_field]; [done|].
  destruct (field_child field l) eqn:Hf; [intros Hc; simplify_eq; exact (placed_field _ _ _ Hl Hf)|exact IH].
Qed.

Lemma places_placed n up l : placed (MkLoc n up) → l ∈ places up n → placed l.
Proof.
  revert up l. induction n as [n IH] using node_induction. intros up l Hn Hl.
  destruct n as [k nm f a b cs]. cbn [places] in Hl. apply elem_of_cons in Hl as [->|Hl]; [done|].
  cbn [nd_children] in *. set (n := MkNode k nm f a b cs) in *.
  match type of Hl with _ ∈ ?each 0 _ => assert (Haux : ∀ ds i0, (∀ i c, ds !! i = Some c → cs !! (i0 + i) = Some c) →
      Forall (λ c, ∀ up l, placed (MkLoc c up) → l ∈ places up c → placed l) ds → l ∈ each i0 ds → placed l) end.
  { intros ds. induction ds as [|d ds IHd]; intros i0 Hi Hf Hin; [by apply elem_of_nil in Hin|].
    apply Forall_cons in Hf as [Hd Hf]. apply elem_of_app in Hin as [Hin|Hin].
    - eapply Hd; [|exact Hin]. apply (placed_child (MkLoc n up)); [done|].
      specialize (Hi 0 d eq_refl). by rewrite Nat.add_0_r in Hi.
    - apply (IHd (S i0)); [|exact Hf|exact Hin]. intros i c Hc. specialize (Hi (S i) c Hc).
      by rewrite Nat.add_succ_r in Hi. }
  by apply (Haux cs 0).
Qed.

Lemma placed_laminar a b pos :
  wf_node root = true → placed a → placed b →
  contains_pos pos (byte_range a) = true → contains_pos pos (byte_range b) = true →
  within (byte_range a) (byte_range b) ∨ within (byte_range b) (byte_range a).
Proof. intros Hwf Ha%placed_node Hb%placed_node. by eapply node_at_laminar. Qed.
Lemma placed_span l :
  wf_node root = true → placed l → nd_start root ≤ loc_start l ∧ loc_start l ≤ loc_end l ∧ loc_end l ≤ nd_end root.
Proof. intros Hwf Hl%placed_node. by apply (wf_node_at _ _ _ Hwf) in Hl as (_ & ?). Qed.
End Places.

(** ** Facts for the extractors *)

Lemma lit_eq a b : (lit a =s lit b) = String.eqb a b.
Proof.
  apply eq_true_iff_eq. rewrite bool_decide_eq_true, String.eqb_eq. split; [|congruence].
  intros He. apply (f_equal string_of_list_ascii) in He. unfold lit in He. by rewrite !string_of_list_ascii_of_string in He.
Qed.
Lemma lit_inj a b : lit a = lit b ↔ a = b.
Proof. by rewrite <-(bool_decide_eq_true (lit a = lit b)), lit_eq, String.eqb_eq. Qed.
Lemma among_kind kind ks : existsb (λ k, lit kind =s lit k) ks = existsb (String.eqb kind) ks.
Proof. induction ks as [|k ks IH]; [done|]. cbn [existsb]. by rewrite IH, lit_eq. Qed.

(** The bytes of a place of the tree. *)
Definition spans (root : Node) (span : nat * nat) : Prop := ∃ l, placed root l ∧ span = byte_range l.
Lemma node_spans root l : placed root l → spans root (byte_range l).
Proof. by exists l. Qed.
Lemma span_in_source {A} (source : list A) (root : Node) (Hwf : wf_node root = true) (Hlen : nd_end root ≤ length source) span :
  spans root span → span.1 ≤ span.2 ≤ length source.
Proof. intros (l & Hl & ->). pose proof (placed_span root l Hwf Hl). cbn [byte_range fst snd]. lia. Qed.
(** A node lies in each node above it. *)
Lemma ancestor_around root l a :
  wf_node root = true → placed root l → a ∈ ancestors l → loc_start a ≤ loc_start l ∧ loc_end l ≤ loc_end a.
Proof.
  intros Hwf. destruct l as [n up]. revert n. induction up as [|[p i] up IH]; intros n Hl Ha; [by apply elem_of_nil in Ha|].
  assert (Hc : nd_children p !! i = Some n ∧ placed root (MkLoc p up)).
  { inversion Hl as [|[m upm] j c Hm Hj Heq]; subst. by split. }
  destruct Hc as [Hi Hp]. assert (Hpw : wf_node p = true).
  { apply placed_node in Hp. cbn [here] in Hp. by apply (wf_node_at _ _ _ Hwf) in Hp as [? _]. }
  destruct (wf_children p i n Hpw Hi) as (_ & ? & ? & ?).
  unfold ancestors in Ha. cbn [above places_above] in Ha. unfold loc_start, loc_end in *. apply elem_of_cons in Ha as [->|Ha].
  - cbn [here]. lia.
  - destruct (IH p Hp Ha). cbn [here] in *. lia.
Qed.
Lemma text_nonempty source l : text source l ≠ [] → loc_start l < loc_end l.
Proof.
  intros Ht. destruct (decide (loc_start l < loc_end l)) as [|Hge]; [done|]. exfalso. apply Ht. unfold text, utf8_text.
  unfold loc_start, loc_end in Hge. replace (nd_end (here l) - nd_start (here l)) with 0 by lia. cbn [take]. by destruct (utf8_valid []).
Qed.
