(* ===== verification/Bindings.v ===== *)
(** * Bindings of a source file

    Models [src/src/extract/syntax_names.rs] and [extract/bindings.rs]: which
    nodes declare a name, the tokens of a pattern, the scope of a binding, and
    the walk that collects the definitions and the bindings of a file. *)
From Stdlib Require Import Ascii String ZArith Lia.
From stdpp Require Import base numbers list gmap strings.
From S2P Require Import Prelude Order Text Collections QueryShape Snippets Extract Aliases SyntaxTree.

Definition FOREIGN_ITEM_CONTAINER : str := lit "extern block".

(** ** Declarations and the names of a pattern *)

Definition declaration_kinds : list (list string * string) :=
  [(["function_item"; "function_declaration"; "generator_function_declaration"; "function_signature";
     "function_signature_item"], "function");
   (["method_definition"; "method_signature"; "abstract_method_signature"], "method");
   (["struct_item"], "struct"); (["enum_item"], "enum"); (["trait_item"], "trait"); (["mod_item"], "module");
   (["class_declaration"; "abstract_class_declaration"], "class"); (["interface_declaration"], "interface");
   (["type_item"; "type_alias_declaration"; "type_definition"], "type");
   (["const_item"; "static_item"], "constant");
   (["field_declaration"; "public_field_definition"; "property_signature"], "field");
   (["enum_variant"], "variant"); (["macro_definition"], "macro");
   (["import_specifier"; "namespace_import"], "import");
   (["let_declaration"], "variable");
   (["parameter"; "required_parameter"; "optional_parameter"], "parameter")]%string.
Definition function_value (value : option Loc) : bool :=
  match value with Some v => is_kind ["arrow_function"; "function_expression"]%string v | None => false end.
(** The kind of a node that names what it declares. *)
Definition declared_kind (node : Loc) : option string :=
  if is_kind ["variable_declarator"]%string node then
    Some (if function_value (field_child "value" node) then "function" else "variable")%string
  else snd <$> find (λ row, is_kind row.1 node) declaration_kinds.
Definition opt_kind (kinds : list string) (l : option Loc) : bool :=
  match l with Some l => is_kind kinds l | None => false end.
(** A function of an [impl] or of a trait. *)
Definition member_function (node : Loc) : bool :=
  opt_kind ["declaration_list"]%string (parent node) &&
  opt_kind ["impl_item"; "trait_item"]%string (parent node ≫= parent).
(** [x.name = function ..]. *)
Definition assigned_function (node : Loc) : option (string * Loc) :=
  left ← field_child "left" node;
  value ← field_child "right" node;
  if negb (is_kind ["member_expression"]%string left) ||
     negb (is_kind ["arrow_function"; "function_expression"]%string value) then None
  else
    property ← field_child "property" left;
    if is_kind ["property_identifier"]%string property then Some ("function"%string, property) else None.
Definition declaration (node : Loc) : option (string * Loc) :=
  if is_kind ["assignment_expression"]%string node then assigned_function node
  else
    kind ← declared_kind node;
    let kind := if String.eqb kind "function" && member_function node then "method"%string else kind in
    name ← match first_field ["alias"; "name"; "pattern"]%string node with
           | Some name => Some name
           | None => if is_kind ["parameter"]%string node then named_child 0 node else None
           end;
    Some (kind, name).

Definition NAME_KINDS : list string :=
  ["identifier"; "type_identifier"; "field_identifier"; "property_identifier";
   "shorthand_property_identifier_pattern"]%string.
Definition GROUP_KINDS : list string :=
  ["tuple_pattern"; "tuple_struct_pattern"; "slice_pattern"; "array_pattern"; "object_pattern"; "mut_pattern";
   "ref_pattern"; "reference_pattern"; "rest_pattern"; "required_parameter"; "optional_parameter"]%string.
Fixpoint name_tokens (n : Node) (up : list (Node * nat)) {struct n} : list Loc :=
  let node := MkLoc n up in
  (** the children and their own tokens *)
  let below :=
    (fix each (i : nat) (cs : list Node) : list (Loc * list Loc) :=
       match cs with
       | [] => []
       | c :: cs => (MkLoc c ((n, i) :: up), name_tokens c ((n, i) :: up)) :: each (S i) cs
       end) 0 (nd_children n) in
  let tokens_of field := snd <$> find (λ e, has_field field e.1) below in
  if is_kind NAME_KINDS node then [node]
  else if is_kind GROUP_KINDS node then concat (snd <$> List.filter (λ e, loc_named e.1) below)
  else if is_kind ["pair_pattern"; "object_assignment_pattern"; "assignment_pattern"]%string node then
    match tokens_of "value"%string, tokens_of "left"%string with
    | Some tokens, _ => tokens
    | None, Some tokens => tokens
    | None, None => []
    end
  else if is_kind ["dot_index_expression"; "method_index_expression"]%string node then
    match first_field ["field"; "method"]%string node with Some field => [field] | None => [] end
  else [].

(** ** Scopes *)

(** The first node above of one of these kinds, or the node itself. *)
Definition enclosing (kinds : list string) (node : Loc) : nat * nat :=
  byte_range (default node (find (is_kind kinds) (ancestors node))).
Definition scope (node : Loc) : nat * nat :=
  enclosing ["block"; "statement_block"; "declaration_list"; "class_body"; "source_file"; "program"; "chunk";
             "function_item"; "function_declaration"; "function_definition"; "function_signature_item";
             "function_signature"; "closure_expression"; "arrow_function"; "function_expression";
             "method_definition"]%string node.
Definition function_scope (node : Loc) : nat * nat :=
  enclosing ["function_item"; "function_declaration"; "function_expression"; "arrow_function"; "method_definition";
             "program"; "source_file"]%string node.
(** Whether a node of this kind is above, with no block in between. *)
Fixpoint kind_above (kind : string) (up : list Loc) : bool :=
  match up with
  | [] => false
  | current :: up =>
      if is_kind [kind] current then true
      else if is_kind ["block"; "statement_block"; "source_file"; "program"; "chunk"]%string current then false
      else kind_above kind up
  end.
Definition ancestor_kind (node : Loc) (kind : string) : bool := kind_above kind (ancestors node).

(** ** Bindings *)

Record Binding := MkBinding {
  bd_definition : nat;
  bd_token : nat * nat;
  bd_scope : nat * nat;
  bd_visible : nat;
  bd_resolvable : bool;
  bd_blocks_before : bool;
  bd_function_boundary : option nat;
  bd_namespaces : Z;
}.
Record Collected := MkCollected { cl_definitions : list DefinitionFact; cl_bindings : list Binding }.

Definition namespaces_of (kind : string) : Z :=
  if existsb (String.eqb kind) ["type"; "trait"; "interface"]%string then 2
  else if existsb (String.eqb kind) ["struct"; "enum"; "class"; "module"]%string then 3
  else if String.eqb kind "macro" then 4
  else if String.eqb kind "import" then 7
  else 1.
Definition HOISTED : list string :=
  ["function"; "struct"; "enum"; "trait"; "type"; "constant"; "module"; "class"; "interface"; "macro"]%string.
Definition COMMENT_OR_STRING : list string :=
  ["comment"; "line_comment"; "block_comment"; "string"; "string_literal"]%string.

Section Collect.
Context `{UnicodeTables} (source language : str).

Definition ecma : bool := (language =s lit "javascript") || (language =s lit "typescript").
Definition take_attributes (l : list Loc) : list Loc := take_while (is_kind ["attribute_item"]%string) l.
(** An attribute with [cfg] before the node or before one above it. *)
Definition conditional (node : Loc) : bool :=
  existsb (λ place, existsb (λ attribute, contains (lit "cfg") (text source attribute))
                      (take_attributes (previous_named place))) (node :: ancestors node) ||
  contains (lit "#[cfg") (text source node).

(** The name is the member of an expression. *)
Definition member_property (name : Loc) : bool :=
  match parent name with
  | Some p =>
      is_kind ["dot_index_expression"; "method_index_expression"]%string p ||
      (is_kind ["member_expression"]%string p &&
       match field_child "property" p with Some property => same_node property name | None => false end)
  | None => false
  end.
Definition binding_of (node name : Loc) (kind : string) (definition : nat) : Binding :=
  let hoisted := existsb (String.eqb kind) HOISTED && negb (is_kind ["variable_declarator"]%string node)
                 && negb (language =s lit "luau") in
  let is_var := ecma && opt_kind ["variable_declaration"]%string (parent node) in
  let scope := if is_var then function_scope node else scope node in
  let member := member_property name in
  MkBinding definition (byte_range name) scope
    (if hoisted || is_var || String.eqb kind "parameter" then scope.1
     else if String.eqb kind "function" then loc_start node else loc_end node)
    (negb (existsb (String.eqb kind) ["method"; "field"; "variant"]%string) && negb member && negb (conditional node))
    (ecma && negb member)
    (if (language =s lit "rust") && existsb (String.eqb kind) ["variable"; "parameter"]%string
     then Some (function_scope node).1 else None)
    (namespaces_of kind).
Definition add_binding (node name : Loc) (kind : string) (container : option str) (st : Collected) : Collected :=
  let name_text := text source name in
  if name_text =s [] then st
  else
    MkCollected
      (cl_definitions st ++ [MkDef name_text (lit kind) (loc_start node) (loc_end node) container])
      (cl_bindings st ++ [binding_of node name kind (length (cl_definitions st))]).

(** ** The walk *)

(** Rust 2024 [unsafe extern] as the pinned grammar parses it; the kind of an
    error node is [ERROR]. *)
Definition is_unsafe_extern_block (node : Loc) : bool :=
  is_kind ["expression_statement"]%string node &&
  match prev_named_sibling node with
  | Some error =>
      is_kind ["ERROR"]%string error &&
      opt_kind ["extern_modifier"]%string (named_child (length (loc_named_children error) - 1) error)
  | None => false
  end.
(** The name nodes of the imports of a [use] argument, each with its import. *)
Fixpoint use_imports (n : Node) (up : list (Node * nat)) {struct n} : list (Loc * Loc) :=
  let node := MkLoc n up in
  let below :=
    (fix each (i : nat) (cs : list Node) : list (Loc * list (Loc * Loc)) :=
       match cs with
       | [] => []
       | c :: cs => (MkLoc c ((n, i) :: up), use_imports c ((n, i) :: up)) :: each (S i) cs
       end) 0 (nd_children n) in
  let name :=
    if is_kind ["identifier"]%string node then Some node
    else if is_kind ["scoped_identifier"]%string node then field_child "name" node
    else if is_kind ["use_as_clause"]%string node then field_child "alias" node
    else None in
  match name with
  | Some name => [(node, name)]
  | None =>
      match find (λ e, has_field "list" e.1) below with
      | Some e => e.2
      | None =>
          if is_kind ["use_list"]%string node then concat (snd <$> List.filter (λ e, loc_named e.1) below) else []
      end
  end.
Definition collect_use (argument : Loc) (container : option str) (st : Collected) : Collected :=
  foldl (λ st e, add_binding e.1 e.2 "import" container st) st (use_imports (here argument) (above argument)).

(** The container of the nodes below. *)
Definition CONTAINER_KINDS : list string :=
  ["function"; "method"; "class"; "struct"; "enum"; "trait"; "module"; "interface"]%string.
Definition next_container (node : Loc) (container : option str) : option str :=
  let outer :=
    if is_kind ["foreign_mod_item"]%string node || is_unsafe_extern_block node then Some FOREIGN_ITEM_CONTAINER
    else if is_kind ["impl_item"]%string node then
      let header_end := match field_child "body" node with Some body => loc_start body | None => loc_end node end in
      Some (trim (from_utf8_lossy (take (header_end - loc_start node) (drop (loc_start node) source))))
    else container in
  match declaration node with
  | Some (kind, name) =>
      if existsb (String.eqb kind) CONTAINER_KINDS then
        Some match container with
             | Some parent => parent ++ lit "::" ++ text source name
             | None => text source name
             end
      else outer
  | None => outer
  end.
Definition add_declaration (node : Loc) (container : option str) (st : Collected) : Collected :=
  match declaration node with
  | Some (kind, name) =>
      foldl (λ st token, add_binding node token kind container st) st (name_tokens (here name) (above name))
  | None => st
  end.
Definition add_variable_list (node : Loc) (container : option str) (st : Collected) : Collected :=
  if is_kind ["variable_list"]%string node && ancestor_kind node "variable_declaration" then
    foldl (λ st name,
      if is_kind ["identifier"]%string name
      then add_binding (default node (parent node)) name "variable" container st else st)
      st (field_children "name" node)
  else st.
Definition add_field (node : Loc) (container : option str) (st : Collected) : Collected :=
  match field_child "name" node with
  | Some name =>
      if is_kind ["field"]%string node && is_kind ["identifier"]%string name
      then add_binding node name "field" container st else st
  | None => st
  end.
Definition add_import (node : Loc) (container : option str) (st : Collected) : Collected :=
  if is_kind ["identifier"]%string node && opt_kind ["import_clause"; "namespace_import"]%string (parent node)
  then add_binding node node "import" container st else st.
Definition is_parameter (node : Loc) : bool :=
  is_kind ["identifier"; "object_pattern"; "array_pattern"; "assignment_pattern"; "rest_pattern"]%string node &&
  match parent node with
  | Some p =>
      is_kind ["formal_parameters"; "closure_parameters"]%string p ||
      (is_kind ["arrow_function"]%string p &&
       match field_child "parameter" p with Some parameter => same_node parameter node | None => false end)
  | None => false
  end.
Definition add_parameters (node : Loc) (container : option str) (st : Collected) : Collected :=
  if is_parameter node then
    foldl (λ st name, add_binding node name "parameter" container st) st (name_tokens (here node) (above node))
  else st.
Definition add_use (node : Loc) (container : option str) (st : Collected) : Collected :=
  match field_child "argument" node with
  | Some argument => if is_kind ["use_declaration"]%string node then collect_use argument container st else st
  | None => st
  end.
Definition collect_here (node : Loc) (container : option str) (st : Collected) : Collected :=
  let st := add_declaration node container st in
  let st := add_variable_list node container st in
  let st := add_field node container st in
  let st := add_import node container st in
  let st := add_parameters node container st in
  add_use node container st.
Fixpoint collect (n : Node) (up : list (Node * nat)) (container : option str) (st : Collected) {struct n} : Collected :=
  let node := MkLoc n up in
  if is_kind COMMENT_OR_STRING node then st
  else
    let next := next_container node container in
    let st := collect_here node container st in
    (fix each (i : nat) (cs : list Node) (st : Collected) : Collected :=
       match cs with
       | [] => st
       | c :: cs => each (S i) cs (if nd_named c then collect c ((n, i) :: up) next st else st)
       end) 0 (nd_children n) st.
End Collect.

(** ** What is collected *)

(** The children of a node with what a function gives for each. *)
Definition below {A} (f : Node → list (Node * nat) → A) (n : Node) (up : list (Node * nat)) : list (Loc * A) :=
  imap (λ i c, (MkLoc c ((n, i) :: up), f c ((n, i) :: up))) (nd_children n).

Lemma name_tokens_eq n up :
  name_tokens n up =
    let node := MkLoc n up in
    let below := below name_tokens n up in
    let tokens_of field := snd <$> find (λ e, has_field field e.1) below in
    if is_kind NAME_KINDS node then [node]
    else if is_kind GROUP_KINDS node then concat (snd <$> List.filter (λ e, loc_named e.1) below)
    else if is_kind ["pair_pattern"; "object_assignment_pattern"; "assignment_pattern"]%string node then
      match tokens_of "value"%string, tokens_of "left"%string with
      | Some tokens, _ => tokens
      | None, Some tokens => tokens
      | None, None => []
      end
    else if is_kind ["dot_index_expression"; "method_index_expression"]%string node then
      match first_field ["field"; "method"]%string node with Some field => [field] | None => [] end
    else [].
Proof.
  destruct n as [k nm f a b cs]. cbv zeta. cbn [name_tokens nd_children]. unfold below. cbn [nd_children].
  set (n := MkNode k nm f a b cs).
  assert (Hb : ∀ ds i0, (fix each (i : nat) (cs : list Node) : list (Loc * list Loc) :=
       match cs with
       | [] => []
       | c :: cs => (MkLoc c ((n, i) :: up), name_tokens c ((n, i) :: up)) :: each (S i) cs
       end) i0 ds = imap (λ i c, (MkLoc c ((n, i0 + i) :: up), name_tokens c ((n, i0 + i) :: up))) ds).
  { intros ds. induction ds as [|d ds IH]; intros i0; [done|]. cbn [imap]. rewrite Nat.add_0_r. f_equal.
    rewrite IH. apply imap_ext. intros i c _. cbn. by rewrite Nat.add_succ_r. }
  rewrite (Hb cs 0). reflexivity.
Qed.
Lemma below_elem {A} (f : Node → list (Node * nat) → A) n up e :
  e ∈ below f n up → ∃ i c, nd_children n !! i = Some c ∧ e = (MkLoc c ((n, i) :: up), f c ((n, i) :: up)).
Proof. unfold below. intros (i & c & -> & Hc)%elem_of_lookup_imap. by exists i, c. Qed.

Lemma name_tokens_placed root n up l : placed root (MkLoc n up) → l ∈ name_tokens n up → placed root l.
Proof.
  revert up. induction n as [n IH] using node_induction. intros up Hn. rewrite name_tokens_eq. cbv zeta.
  assert (Hb : ∀ e, e ∈ below name_tokens n up → l ∈ e.2 → placed root l).
  { intros e (i & c & Hc & ->)%below_elem Hl. eapply Forall_lookup_1 in IH; [|exact Hc]. eapply IH; [|exact Hl].
    by apply (placed_child root (MkLoc n up)). }
  assert (Hf : ∀ field tokens, snd <$> find (λ e, has_field field e.1) (below name_tokens n up) = Some tokens →
      l ∈ tokens → placed root l).
  { intros field tokens Ht Hl. destruct (find _ _) as [e|] eqn:He; [|done]. cbn in Ht. simplify_eq.
    apply find_some in He as [He _]. eapply Hb; [by apply list_elem_of_In|done]. }
  destruct (is_kind NAME_KINDS _); [by intros ->%list_elem_of_singleton|].
  destruct (is_kind GROUP_KINDS _).
  { rewrite list_elem_of_In, in_concat. intros (ls & Hls%list_elem_of_In & Hl%list_elem_of_In).
    apply list_elem_of_fmap in Hls as (e & -> & He). apply list_elem_of_In, filter_In in He as [He _].
    eapply Hb; [by apply list_elem_of_In|done]. }
  destruct (is_kind _ _).
  { destruct (snd <$> find _ _) as [tokens|] eqn:Hv; [by eapply Hf|].
    destruct (snd <$> find (λ e, has_field "left" e.1) _) as [tokens|] eqn:Hl; [by eapply Hf|]. by intros ?%elem_of_nil. }
  destruct (is_kind _ _); [|by intros ?%elem_of_nil].
  destruct (first_field _ _) as [field|] eqn:Hl; [|by intros ?%elem_of_nil].
  intros ->%list_elem_of_singleton. by eapply placed_first_field.
Qed.

Lemma enclosing_placed root kinds node : placed root node →
  ∃ a, placed root a ∧ enclosing kinds node = byte_range a ∧ (a = node ∨ a ∈ ancestors node).
Proof.
  intros Hn. unfold enclosing. destruct (find _ _) as [a|] eqn:Ha; cbn [default].
  - apply find_some in Ha as [Ha _]. apply list_elem_of_In in Ha. exists a. split; [by eapply placed_ancestors|]. by split; [|right].
  - exists node. split; [done|]. by split; [|left].
Qed.

(** *** A declaration gives a name below it *)
Lemma declaration_placed root node kind name : placed root node → declaration node = Some (kind, name) → placed root name.
Proof.
  intros Hn. unfold declaration. destruct (is_kind _ _).
  - unfold assigned_function. destruct (field_child "left" node) as [left|] eqn:Hl; cbn [mbind option_bind]; [|done].
    destruct (field_child "right" node); cbn [mbind option_bind]; [|done]. destruct (_ || _); [done|].
    destruct (field_child "property" left) as [p|] eqn:Hp; cbn [mbind option_bind]; [|done].
    destruct (is_kind _ p); [|done]. intros He. simplify_eq. eapply placed_field; [|exact Hp]. by eapply placed_field.
  - destruct (declared_kind node) as [k|]; cbn [mbind option_bind]; [|done].
    destruct (first_field _ node) as [f|] eqn:Hf; cbn [mbind option_bind].
    { intros He. simplify_eq. by eapply placed_first_field. }
    destruct (is_kind _ node); [|done]. destruct (named_child 0 node) as [c|] eqn:Hc; cbn [mbind option_bind]; [|done].
    intros He. simplify_eq. eapply placed_named_children; [exact Hn|]. by eapply list_elem_of_lookup_2.
Qed.

Section Facts.
Context `{UnicodeTables} (source language : str) (root : Node).

Lemma use_imports_eq n up :
  use_imports n up =
    let node := MkLoc n up in
    let below := below use_imports n up in
    let name :=
      if is_kind ["identifier"]%string node then Some node
      else if is_kind ["scoped_identifier"]%string node then field_child "name" node
      else if is_kind ["use_as_clause"]%string node then field_child "alias" node
      else None in
    match name with
    | Some name => [(node, name)]
    | None =>
        match find (λ e, has_field "list" e.1) below with
        | Some e => e.2
        | None => if is_kind ["use_list"]%string node then concat (snd <$> List.filter (λ e, loc_named e.1) below) else []
        end
    end.
Proof.
  destruct n as [k nm f a b cs]. cbv zeta. cbn [use_imports nd_children]. unfold below. cbn [nd_children].
  set (n := MkNode k nm f a b cs).
  assert (Hb : ∀ ds i0, (fix each (i : nat) (cs : list Node) : list (Loc * list (Loc * Loc)) :=
       match cs with
       | [] => []
       | c :: cs => (MkLoc c ((n, i) :: up), use_imports c ((n, i) :: up)) :: each (S i) cs
       end) i0 ds = imap (λ i c, (MkLoc c ((n, i0 + i) :: up), use_imports c ((n, i0 + i) :: up))) ds).
  { intros ds. induction ds as [|d ds IH]; intros i0; [done|]. cbn [imap]. rewrite Nat.add_0_r. f_equal.
    rewrite IH. apply imap_ext. intros i c _. cbn. by rewrite Nat.add_succ_r. }
  rewrite (Hb cs 0). reflexivity.
Qed.
Lemma use_imports_placed n up e :
  placed root (MkLoc n up) → e ∈ use_imports n up → placed root e.1 ∧ placed root e.2.
Proof.
  revert up. induction n as [n IH] using node_induction. intros up Hn. rewrite use_imports_eq. cbv zeta.
  assert (Hb : ∀ b, b ∈ below use_imports n up → e ∈ b.2 → placed root e.1 ∧ placed root e.2).
  { intros b (i & c & Hc & ->)%below_elem Hl. eapply Forall_lookup_1 in IH; [|exact Hc]. eapply IH; [|exact Hl].
    by apply (placed_child root (MkLoc n up)). }
  destruct (if is_kind _ _ then _ else _) as [name|] eqn:Hname.
  { intros ->%list_elem_of_singleton. split; [done|]. cbn [snd]. repeat case_match; simplify_eq; [done|by eapply placed_field..]. }
  destruct (find _ _) as [b|] eqn:Hf.
  { apply find_some in Hf as [Hf _]. intros He. eapply Hb; [by apply list_elem_of_In|done]. }
  destruct (is_kind ["use_list"]%string _); [|by intros ?%elem_of_nil].
  rewrite list_elem_of_In, in_concat. intros (ls & Hls%list_elem_of_In & Hl%list_elem_of_In).
  apply list_elem_of_fmap in Hls as (b & -> & He). apply list_elem_of_In, filter_In in He as [He _].
  eapply Hb; [by apply list_elem_of_In|done].
Qed.

(** A definition and its binding come together, from a node and a name of the tree. *)
Definition bound (definitions : list DefinitionFact) (i : nat) (b : Binding) : Prop :=
  ∃ node name kind container,
    placed root node ∧ placed root name ∧ text source name ≠ [] ∧
    b = binding_of source language node name kind i ∧
    definitions !! i = Some (MkDef (text source name) (lit kind) (loc_start node) (loc_end node) container).
Record collected_ok (st : Collected) : Prop := {
  co_length : length (cl_bindings st) = length (cl_definitions st);
  co_bound : ∀ i b, cl_bindings st !! i = Some b → bound (cl_definitions st) i b;
}.

Lemma add_binding_ok node name kind container st :
  placed root node → placed root name → collected_ok st →
  collected_ok (add_binding source language node name kind container st).
Proof.
  intros Hnode Hname [Hl Hb]. unfold add_binding. cbv zeta. case_bool_decide as Htext; [done|].
  constructor; cbn [cl_bindings cl_definitions].
  - rewrite !length_app. cbn [length]. lia.
  - intros i b Hi. apply lookup_app_Some in Hi as [Hi|[Hge Hi]].
    + destruct (Hb i b Hi) as (nd & nm & k & c & ? & ? & ? & ? & Hd). exists nd, nm, k, c. split_and!; [done..|].
      by apply lookup_app_l_Some.
    + apply list_lookup_singleton_Some in Hi as [Hz <-]. exists node, name, kind, container.
      assert (i = length (cl_definitions st)) as -> by lia. split_and!; [done..|].
      by rewrite lookup_app_r, Nat.sub_diag by lia.
Qed.
Lemma foldl_collected {A} (f : Collected → A → Collected) (l : list A) st :
  (∀ st x, x ∈ l → collected_ok st → collected_ok (f st x)) → collected_ok st → collected_ok (foldl f st l).
Proof.
  revert st. induction l as [|x l IH]; intros st Hf Hst; [done|]. cbn [foldl]. apply IH.
  - intros st' y Hy. apply Hf. by right.
  - apply Hf; [by left|done].
Qed.
Lemma collect_here_ok node container st :
  placed root node → collected_ok st → collected_ok (collect_here source language node container st).
Proof.
  intros Hn Hst. unfold collect_here. cbv zeta.
  assert (Htokens : ∀ l t, placed root l → t ∈ name_tokens (here l) (above l) → placed root t).
  { intros [m up] t Hl Ht. by eapply name_tokens_placed. }
  assert (H1 : collected_ok (add_declaration source language node container st)).
  { unfold add_declaration. destruct (declaration node) as [[kind name]|] eqn:Hd; [|done].
    apply foldl_collected; [|done]. intros st' t Ht. apply add_binding_ok; [done|].
    eapply Htokens; [|exact Ht]. by eapply declaration_placed. }
  set (s1 := add_declaration _ _ _ _ _) in *.
  assert (H2 : collected_ok (add_variable_list source language node container s1)).
  { unfold add_variable_list. destruct (_ && _); [|done]. apply foldl_collected; [|done]. intros st' name Hname Hst'.
    destruct (is_kind _ name); [|done]. apply add_binding_ok; [|  |done].
    - destruct (parent node) as [p|] eqn:Hp; [by eapply placed_parent|done].
    - unfold field_children in Hname. apply list_elem_of_In, filter_In in Hname as [Hname _].
      eapply placed_children; [exact Hn|]. by apply list_elem_of_In. }
  set (s2 := add_variable_list _ _ _ _ _) in *.
  assert (H3 : collected_ok (add_field source language node container s2)).
  { unfold add_field. destruct (field_child "name" node) as [name|] eqn:Hf; [|done]. destruct (_ && _); [|done].
    apply add_binding_ok; [done| |done]. by eapply placed_field. }
  set (s3 := add_field _ _ _ _ _) in *.
  assert (H4 : collected_ok (add_import source language node container s3)).
  { unfold add_import. destruct (_ && _); [|done]. by apply add_binding_ok. }
  set (s4 := add_import _ _ _ _ _) in *.
  assert (H5 : collected_ok (add_parameters source language node container s4)).
  { unfold add_parameters. destruct (is_parameter node); [|done]. apply foldl_collected; [|done].
    intros st' t Ht. apply add_binding_ok; [done|]. by eapply Htokens. }
  set (s5 := add_parameters _ _ _ _ _) in *.
  unfold add_use. destruct (field_child "argument" node) as [argument|] eqn:Hf; [|done]. destruct (is_kind _ node); [|done].
  unfold collect_use. apply foldl_collected; [|done]. intros st' e He.
  pose proof (placed_field _ _ _ _ Hn Hf) as Ha. destruct argument as [m up].
  apply use_imports_placed in He as [? ?]; [|done]. by apply add_binding_ok.
Qed.

Lemma collect_ok n up container st :
  placed root (MkLoc n up) → collected_ok st → collected_ok (collect source language n up container st).
Proof.
  revert up container st. induction n as [n IH] using node_induction. intros up container st Hn Hst.
  pose proof (collect_here_ok (MkLoc n up) container st Hn Hst) as Hhere.
  destruct n as [k nm f a b cs]. cbn [collect nd_children] in *. set (n := MkNode k nm f a b cs) in *.
  destruct (is_kind COMMENT_OR_STRING _); [done|].
  set (s1 := collect_here _ _ _ _ _) in *. set (next := next_container _ _ _) in *. clearbody s1 next. clear Hst.
  match goal with |- collected_ok (?each 0 _ _) => assert (Haux : ∀ ds i0 st,
      (∀ i c, ds !! i = Some c → cs !! (i0 + i) = Some c) →
      Forall (λ c, ∀ up container st, placed root (MkLoc c up) → collected_ok st →
         collected_ok (collect source language c up container st)) ds →
      collected_ok st → collected_ok (each i0 ds st)) end.
  { intros ds. induction ds as [|d ds IHd]; intros i0 st' Hi Hf Hst; [done|]. apply Forall_cons in Hf as [Hd Hf].
    apply (IHd (S i0)); [|exact Hf|].
    - intros i c Hc. specialize (Hi (S i) c Hc). by rewrite Nat.add_succ_r in Hi.
    - destruct (nd_named d); [|done]. apply Hd; [|done]. apply (placed_child root (MkLoc n up)); [done|].
      specialize (Hi 0 d eq_refl). by rewrite Nat.add_0_r in Hi. }
  by apply (Haux cs 0 s1).
Qed.
End Facts.
