(* ===== verification/BindingIndex.v ===== *)
(** * Lexical resolution

    Models [src/src/extract/binding_index.rs]: the index of a file's bindings by
    name, token and owner, and the resolution of a name at a position to the
    innermost visible binding. *)
From Stdlib Require Import Ascii String ZArith Lia.
From stdpp Require Import base numbers list gmap strings.
From S2P Require Import Prelude Order Text Collections QueryShape Extract Aliases SyntaxTree Bindings.

Record BindingIndex := MkIndex {
  bi_bindings : list Binding;
  bi_names : gmap str (list nat);
  bi_tokens : gmap nat nat;
  bi_owners : gmap nat nat;
}.

(** The turn of one binding; its definition is always in range. *)
Definition index_binding (definitions : list DefinitionFact) (index : BindingIndex) (e : nat * Binding) : BindingIndex :=
  let '(i, binding) := e in
  match definitions !! bd_definition binding with
  | Some definition =>
      MkIndex (bi_bindings index) (push_entry (bi_names index) (df_name definition) i)
        (<[(bd_token binding).1 := i]> (bi_tokens index))
        (if (df_kind definition =s lit "function") || (df_kind definition =s lit "method")
         then <[df_start definition := bd_definition binding]> (bi_owners index) else bi_owners index)
  | None => index
  end.
Definition new_index (bindings : list Binding) (definitions : list DefinitionFact) : BindingIndex :=
  foldl (index_binding definitions) (MkIndex bindings ∅ ∅ ∅) (imap pair bindings).

(** [declaration]: the definition whose token is the node. *)
Definition declared_by (index : BindingIndex) (node : Loc) : option nat :=
  i ← bi_tokens index !! loc_start node;
  binding ← bi_bindings index !! i;
  if bool_decide (bd_token binding = byte_range node) then Some (bd_definition binding) else None.
Definition owner (index : BindingIndex) (node : Loc) : option nat :=
  head (omap (λ p, bi_owners index !! loc_start p) (ancestors node)).

(** ** Resolution *)

Definition range_len (r : nat * nat) : nat := r.2 - r.1.
(** [(scope.len(), Reverse(visible))] of one is less than that of the other. *)
Definition closer (a b : Binding) : bool :=
  (range_len (bd_scope a) <? range_len (bd_scope b)) ||
  ((range_len (bd_scope a) =? range_len (bd_scope b)) && (bd_visible b <? bd_visible a)).
Definition same_rank (a b : Binding) : bool :=
  bool_decide (bd_scope a = bd_scope b) && (bd_visible a =? bd_visible b).
Definition in_namespace (namespace : Z) (b : Binding) : bool := negb (Z.land (bd_namespaces b) namespace =? 0)%Z.
Definition eligible (position boundary : nat) (namespace : Z) (b : Binding) : bool :=
  bd_resolvable b && in_namespace namespace b && contains_pos position (bd_scope b) && (bd_visible b <=? position) &&
  match bd_function_boundary b with None => true | Some own => own =? boundary end.
Definition best_step (st : option Binding * bool) (b : Binding) : option Binding * bool :=
  match st.1 with
  | Some previous =>
      if closer previous b then st
      else if same_rank previous b then (Some previous, true)
      else (Some b, false)
  | None => (Some b, false)
  end.
(** A binding that becomes visible only later hides what an outer scope has. *)
Definition blocks (position : nat) (namespace : Z) (best b : Binding) : bool :=
  bd_blocks_before b && in_namespace namespace b && contains_pos position (bd_scope b) &&
  (position <? bd_visible b) && (range_len (bd_scope b) <=? range_len (bd_scope best)).
Definition resolve_among (bindings : list Binding) (position boundary : nat) (namespace : Z) : option nat :=
  let '(best, ambiguous) :=
    foldl best_step (None, false) (List.filter (eligible position boundary namespace) bindings) in
  if ambiguous : bool then None
  else
    best ← best;
    if existsb (blocks position namespace best) bindings then None else Some (bd_definition best).
Definition indexed (index : BindingIndex) (indices : list nat) : list Binding :=
  omap (λ i, bi_bindings index !! i) indices.
(** The target, the candidates and whether there are more of them. *)
Definition resolve (index : BindingIndex) (name : str) (node : Loc) (namespace : Z) : option nat * list nat * bool :=
  match bi_names index !! name with
  | None => (None, [], false)
  | Some indices =>
      (resolve_among (indexed index indices) (loc_start node) (function_scope node).1 namespace,
       bd_definition <$> indexed index (take 64 indices), 64 <? length indices)
  end.

(** ** What resolution finds *)

(** No other eligible binding is as close. *)
Definition nearest (bindings : list Binding) (b : Binding) : Prop :=
  b ∈ bindings ∧ (∀ b', b' ∈ bindings → closer b' b = false) ∧ length (List.filter (same_rank b) bindings) = 1.
(** Scopes around one position are told apart by their length. *)
Definition nested_scopes (bindings : list Binding) : Prop :=
  ∀ a b, a ∈ bindings → b ∈ bindings → range_len (bd_scope a) = range_len (bd_scope b) → bd_scope a = bd_scope b.

Lemma closer_false a b : closer a b = false ↔
  range_len (bd_scope b) < range_len (bd_scope a) ∨
  (range_len (bd_scope a) = range_len (bd_scope b) ∧ bd_visible a ≤ bd_visible b).
Proof. unfold closer. rewrite orb_false_iff, andb_false_iff, !Nat.ltb_ge, Nat.eqb_neq. lia. Qed.
Lemma closer_true a b : closer a b = true ↔
  range_len (bd_scope a) < range_len (bd_scope b) ∨
  (range_len (bd_scope a) = range_len (bd_scope b) ∧ bd_visible b < bd_visible a).
Proof. unfold closer. rewrite orb_true_iff, andb_true_iff, !Nat.ltb_lt, Nat.eqb_eq. lia. Qed.
Lemma same_rank_true a b : same_rank a b = true ↔ bd_scope a = bd_scope b ∧ bd_visible a = bd_visible b.
Proof. unfold same_rank. by rewrite andb_true_iff, bool_decide_eq_true, Nat.eqb_eq. Qed.
Lemma same_rank_false a b : same_rank a b = false ↔ ¬ (bd_scope a = bd_scope b ∧ bd_visible a = bd_visible b).
Proof. rewrite <-same_rank_true. by destruct (same_rank a b). Qed.
Lemma same_rank_refl b : same_rank b b = true.
Proof. by apply same_rank_true. Qed.

(** The fold keeps the first of the closest bindings, and whether it is the only one. *)
Lemma best_fold (es : list Binding) :
  nested_scopes es →
  match foldl best_step (None, false) es with
  | (None, ambiguous) => es = [] ∧ ambiguous = false
  | (Some b, ambiguous) =>
      b ∈ es ∧ (∀ b', b' ∈ es → closer b' b = false) ∧
      ambiguous = (2 <=? length (List.filter (same_rank b) es))
  end.
Proof.
  induction es as [|x es IH] using rev_ind; [done|]. intros Hn. rewrite foldl_app. cbn [foldl].
  specialize (IH ltac:(intros a b Ha Hb; apply Hn; apply elem_of_app; by left)).
  destruct (foldl best_step (None, false) es) as [[b|] ambiguous]; unfold best_step; cbn [fst].
  2: { destruct IH as [-> _]. cbn [app]. split_and!; [by left| |].
       - intros b' ->%list_elem_of_singleton. apply closer_false. right. lia.
       - cbn. by rewrite same_rank_refl. }
  destruct IH as (Hb & Hmin & Hamb).
  assert (Hx : x ∈ es ++ [x]) by (apply elem_of_app; right; by apply list_elem_of_singleton).
  assert (Hb' : b ∈ es ++ [x]) by (apply elem_of_app; by left).
  pose proof (Hn b x Hb' Hx) as Hbx.
  destruct (closer b x) eqn:Hc; [|destruct (same_rank b x) eqn:Hr].
  - apply closer_true in Hc. split_and!; [done| |].
    + intros b' [?| ->%list_elem_of_singleton]%elem_of_app; [by apply Hmin|]. apply closer_false. lia.
    + rewrite List.filter_app, length_app. cbn [List.filter]. assert (same_rank b x = false) as ->.
      { apply same_rank_false. intros [Hs Hv]. unfold range_len in Hc. rewrite Hs in Hc. lia. }
      cbn [length]. by rewrite Nat.add_0_r.
  - apply same_rank_true in Hr as [Hs Hv]. split_and!; [done| |].
    + intros b' [?| ->%list_elem_of_singleton]%elem_of_app; [by apply Hmin|]. apply closer_false. rewrite Hs. lia.
    + rewrite List.filter_app, length_app. cbn [List.filter]. rewrite (proj2 (same_rank_true b x)) by done. cbn [length]. symmetry. apply Nat.leb_le.
      assert (b ∈ List.filter (same_rank b) es) as Hin.
      { apply list_elem_of_In, filter_In. split; [by apply list_elem_of_In|apply same_rank_refl]. }
      destruct (List.filter (same_rank b) es); [by apply elem_of_nil in Hin|]. cbn [length]. lia.
  - apply closer_false in Hc. apply same_rank_false in Hr.
    assert (Hxb : closer x b = true).
    { apply closer_true. destruct Hc as [?|[Hl Hv]]; [by left|]. right. split; [done|]. specialize (Hbx Hl).
      destruct (decide (bd_visible b = bd_visible x)); [exfalso; by apply Hr|lia]. }
    apply closer_true in Hxb. split_and!; [done| |].
    + intros b' [Hin| ->%list_elem_of_singleton]%elem_of_app; apply closer_false; [|lia].
      specialize (Hmin b' Hin). apply closer_false in Hmin. lia.
    + rewrite List.filter_app, length_app. cbn [List.filter]. rewrite same_rank_refl. assert (List.filter (same_rank x) es = []) as ->; [|done].
      destruct (List.filter (same_rank x) es) as [|y l] eqn:Hf; [done|].
      assert (y ∈ y :: l) as Hy by left. rewrite <-Hf in Hy. apply list_elem_of_In, filter_In in Hy as [Hy Hsame].
      apply list_elem_of_In in Hy. apply same_rank_true in Hsame as [Hs Hv].
      specialize (Hmin y Hy). apply closer_false in Hmin. rewrite <-Hs in Hmin. lia.
Qed.

(** Lexical resolution: among the bindings of a name whose scopes around
    the position are nested, the answer is the definition of the one binding
    that is eligible there and closer than every other eligible one, by the
    length of its scope and then by the later position from which it is
    visible, unless a binding of the same name that is declared later in a scope
    as small hides it; without such a binding there is no answer. *)
Theorem resolution_innermost (bindings : list Binding) (position boundary : nat) (namespace : Z) (definition : nat)
    (Hnested : nested_scopes (List.filter (eligible position boundary namespace) bindings)) :
  resolve_among bindings position boundary namespace = Some definition ↔
  ∃ b, nearest (List.filter (eligible position boundary namespace) bindings) b ∧
    (∀ b', b' ∈ bindings → blocks position namespace b b' = false) ∧ bd_definition b = definition.
Proof.
  unfold resolve_among. pose proof (best_fold _ Hnested) as Hb.
  set (es := List.filter _ bindings) in *. destruct (foldl best_step (None, false) es) as [[best|] ambiguous].
  2: { destruct Hb as [-> ->]. cbn. split; [done|]. intros (b & [Hin _] & _). by apply elem_of_nil in Hin. }
  destruct Hb as (Hin & Hmin & ->). cbn [mbind option_bind].
  assert (Hfin : best ∈ List.filter (same_rank best) es).
  { apply list_elem_of_In, filter_In. split; [by apply list_elem_of_In|apply same_rank_refl]. }
  assert (Honly : ∀ b, nearest es b → b = best ∧ length (List.filter (same_rank best) es) = 1).
  { intros b (Hbin & Hbmin & Hone). specialize (Hmin b Hbin). specialize (Hbmin best Hin).
    apply closer_false in Hmin, Hbmin. assert (Hs : bd_scope b = bd_scope best) by (apply Hnested; [done..|lia]).
    assert (Hsame : same_rank b best = true) by (apply same_rank_true; split; [done|lia]).
    assert (best ∈ List.filter (same_rank b) es) as H1
      by (apply list_elem_of_In, filter_In; split; [by apply list_elem_of_In|done]).
    assert (b ∈ List.filter (same_rank b) es) as H2
      by (apply list_elem_of_In, filter_In; split; [by apply list_elem_of_In|apply same_rank_refl]).
    destruct (List.filter (same_rank b) es) as [|y [|]] eqn:Hf; try done.
    apply list_elem_of_singleton in H1, H2. assert (b = best) as -> by congruence. split; [done|]. by rewrite Hf. }
  destruct (2 <=? length _) eqn:Hcount.
  - split; [done|]. intros (b & Hnear & _). apply Honly in Hnear as [_ Hl]. rewrite Hl in Hcount. done.
  - apply Nat.leb_gt in Hcount.
    assert (Hone : length (List.filter (same_rank best) es) = 1).
    { destruct (List.filter (same_rank best) es); [by apply elem_of_nil in Hfin|]. cbn [length] in *. lia. }
    destruct (existsb (blocks position namespace best) bindings) eqn:Hbl.
    + split; [done|]. intros (b & Hnear & Hno & _). apply Honly in Hnear as [-> _].
      apply existsb_exists in Hbl as (x & Hx & Hbx). rewrite Hno in Hbx; [done|]. by apply list_elem_of_In.
    + split.
      * intros Hd. simplify_eq. exists best. split; [done|]. split; [|done]. intros b' Hb'.
        destruct (blocks position namespace best b') eqn:Hx; [|done].
        rewrite (proj2 (existsb_exists _ _)) in Hbl; [done|]. exists b'. split; [by apply list_elem_of_In|done].
      * intros (b & Hnear & _ & <-). by apply Honly in Hnear as [-> _].
Qed.

(** ** The index of a file *)

Definition named (definitions : list DefinitionFact) (name : str) (b : Binding) : bool :=
  match definitions !! bd_definition b with Some d => df_name d =s name | None => false end.

Lemma omap_length_le {A B} (f : A → option B) l : length (omap f l) ≤ length l.
Proof. induction l as [|x l IH]; [done|]. cbn [omap list_omap]. destruct (f x); cbn [length]; lia. Qed.

Section Index.
Context `{UnicodeTables} (source language : str) (root : Node) (collected : Collected).
Context (Hok : collected_ok source language root collected).
Let definitions := cl_definitions collected.
Let bindings := cl_bindings collected.
Let index := new_index bindings definitions.

Lemma bound_definition i b : bindings !! i = Some b →
  bd_definition b = i ∧ ∃ node name kind container,
    placed root node ∧ placed root name ∧ b = binding_of source language node name kind i ∧
    text source name ≠ [] ∧
    definitions !! i = Some (MkDef (text source name) (lit kind) (loc_start node) (loc_end node) container).
Proof.
  intros Hi. destruct (co_bound _ _ _ _ Hok i b Hi) as (node & name & kind & container & ? & ? & ? & -> & ?).
  split; [done|]. by exists node, name, kind, container.
Qed.

Definition name_entry (e : nat * Binding) : option (str * nat) :=
  option_map (λ d, (df_name d, e.1)) (definitions !! bd_definition e.2).
Lemma index_fold (es : list (nat * Binding)) :
  let st := foldl (index_binding definitions) (MkIndex bindings ∅ ∅ ∅) es in
  bi_bindings st = bindings ∧
  bi_names st = foldl (λ m e, match name_entry e with Some (k, v) => push_entry m k v | None => m end) ∅ es ∧
  (∀ s i, bi_tokens st !! s = Some i → ∃ b, (i, b) ∈ es ∧ (bd_token b).1 = s) ∧
  (∀ s d, bi_owners st !! s = Some d → ∃ e def, e ∈ es ∧ bd_definition e.2 = d ∧ definitions !! d = Some def ∧
     (df_kind def = lit "function" ∨ df_kind def = lit "method") ∧ df_start def = s).
Proof.
  cbv zeta. induction es as [|[i b] es IH] using rev_ind; [done|]. rewrite !foldl_app. cbn [foldl].
  set (st := foldl (index_binding definitions) _ es) in *. destruct IH as (Hb & Hn & Ht & Ho).
  unfold index_binding, name_entry. cbn [fst snd]. destruct (definitions !! bd_definition b) as [def|] eqn:Hd; cbn [option_map].
  2: { split_and!; [done|done| |]; [intros s j Hj; destruct (Ht s j Hj) as (b' & ? & ?)|intros s d Hj; destruct (Ho s d Hj) as (e & def & ? & ?)].
       - exists b'. split; [apply elem_of_app; by left|done].
       - exists e, def. split; [apply elem_of_app; by left|done]. }
  cbn [bi_bindings bi_names bi_tokens bi_owners]. split_and!; [done|by rewrite Hn| |].
  - intros s j. destruct (decide ((bd_token b).1 = s)) as [<-|Hne].
    + rewrite lookup_insert_eq. intros Hj. simplify_eq. exists b. split; [apply elem_of_app; right; by left|done].
    + rewrite lookup_insert_ne by done. intros Hj. destruct (Ht s j Hj) as (b' & ? & ?). exists b'.
      split; [apply elem_of_app; by left|done].
  - intros s d. assert (Hold : bi_owners st !! s = Some d → ∃ e def0, e ∈ es ++ [(i, b)] ∧ bd_definition e.2 = d ∧
        definitions !! d = Some def0 ∧ (df_kind def0 = lit "function" ∨ df_kind def0 = lit "method") ∧ df_start def0 = s).
    { intros Hj. destruct (Ho s d Hj) as (e & def0 & ? & ?). exists e, def0. split; [apply elem_of_app; by left|done]. }
    destruct (_ || _) eqn:Hk; [|exact Hold]. destruct (decide (df_start def = s)) as [<-|Hne].
    + rewrite lookup_insert_eq. intros Hj. simplify_eq. exists (i, b), def.
      apply orb_true_iff in Hk. split_and!; [apply elem_of_app; right; by left|done|done| |done].
      destruct Hk as [Hk|Hk]; bool_to_prop; auto.
    + rewrite lookup_insert_ne by done. exact Hold.
Qed.
Lemma index_facts :
  bi_bindings index = bindings ∧
  bi_names index =
    foldl (λ m e, match name_entry e with Some (k, v) => push_entry m k v | None => m end) ∅ (imap pair bindings) ∧
  (∀ s i, bi_tokens index !! s = Some i → ∃ b, (i, b) ∈ imap pair bindings ∧ (bd_token b).1 = s) ∧
  (∀ s d, bi_owners index !! s = Some d → ∃ e def, e ∈ imap pair bindings ∧ bd_definition e.2 = d ∧
     definitions !! d = Some def ∧ (df_kind def = lit "function" ∨ df_kind def = lit "method") ∧ df_start def = s).
Proof. apply (index_fold (imap pair bindings)). Qed.
Lemma numbered_elem i b : (i, b) ∈ imap pair bindings ↔ bindings !! i = Some b.
Proof.
  rewrite elem_of_lookup_imap. split; [|intros Hi; by exists i, b]. intros (j & c & Heq & Hj). by simplify_eq.
Qed.

Lemma indexed_names name :
  indexed index (default [] (bi_names index !! name)) = List.filter (named definitions name) bindings.
Proof.
  destruct index_facts as (Hb & Hn & _).
  unfold indexed. rewrite Hb, Hn, push_entries_lookup.
  assert (Hall : Forall (λ e, bindings !! e.1 = Some e.2) (imap pair bindings)).
  { apply Forall_forall. intros [i b] Hi. by apply numbered_elem in Hi. }
  assert (Hsnd : bindings = snd <$> imap pair bindings).
  { apply list_eq. intros i. rewrite list_lookup_fmap, list_lookup_imap. by destruct (bindings !! i). }
  transitivity (List.filter (named definitions name) (snd <$> imap pair bindings)); [|by rewrite <-Hsnd]. clear Hsnd Hn Hb. induction Hall as [|e es He _ IH]; [done|].
  cbn [omap list_omap fmap list_fmap List.filter]. unfold name_entry, named. cbn [option_map].
  destruct (definitions !! bd_definition e.2) as [d|]; cbn [option_map]; [|exact IH].
  destruct (decide (df_name d = name)) as [Heq|Hne].
  - rewrite bool_decide_eq_true_2 by done. cbn [omap list_omap]. rewrite He. by f_equal.
  - rewrite bool_decide_eq_false_2 by done. exact IH.
Qed.
Lemma indexed_take n indices : ∃ l, indexed index indices = indexed index (take n indices) ++ l.
Proof. exists (indexed index (drop n indices)). unfold indexed. by rewrite <-omap_app, take_drop. Qed.

(** Resolution over the index is resolution among the bindings of the name. *)
Lemma resolve_named name node namespace :
  (resolve index name node namespace).1.1 =
    resolve_among (List.filter (named definitions name) bindings) (loc_start node) (function_scope node).1 namespace.
Proof.
  pose proof (indexed_names name) as Hn. unfold resolve. destruct (bi_names index !! name) as [indices|];
    cbn [fst]; rewrite <-Hn; reflexivity.
Qed.
(** At most 64 candidates, each a definition of the name. *)
Lemma resolve_candidates name node namespace d :
  d ∈ (resolve index name node namespace).1.2 → ∃ def, definitions !! d = Some def ∧ df_name def = name.
Proof.
  pose proof (indexed_names name) as Hn. unfold resolve. destruct (bi_names index !! name) as [indices|]; cbn [fst snd];
    [|by intros Hd%elem_of_nil].
  intros (b & -> & Hb)%list_elem_of_fmap. destruct (indexed_take 64 indices) as [l Hl].
  assert (Hin : b ∈ indexed index indices) by (rewrite Hl; apply elem_of_app; by left).
  change (default [] (Some indices)) with indices in Hn. rewrite Hn in Hin. apply list_elem_of_In, filter_In in Hin as [_ Hname].
  unfold named in Hname. destruct (definitions !! bd_definition b) as [def|] eqn:Hd; [|done]. bool_to_prop. by exists def.
Qed.
Lemma resolve_candidates_length name node namespace : length (resolve index name node namespace).1.2 ≤ 64.
Proof.
  unfold resolve. destruct (bi_names index !! name) as [indices|]; cbn [fst snd length]; [|lia].
  rewrite length_fmap. unfold indexed. etransitivity; [apply omap_length_le|]. rewrite length_take. lia.
Qed.
Lemma resolve_target name node namespace d :
  (resolve index name node namespace).1.1 = Some d → ∃ def, definitions !! d = Some def ∧ df_name def = name.
Proof.
  rewrite resolve_named. unfold resolve_among. destruct (foldl _ _ _) as [[best|] ambiguous] eqn:Hf; destruct ambiguous; try done.
  cbn [mbind option_bind]. destruct (existsb _ _); [done|]. intros Hd. simplify_eq.
  assert (Hin : ∀ es st, (∀ b, st.1 = Some b → named definitions name b = true) → Forall (λ b, named definitions name b = true) es →
      ∀ b, (foldl best_step st es).1 = Some b → named definitions name b = true).
  { intros es. induction es as [|x es IH]; intros st Hst Hes b; cbn [foldl]; [apply Hst|].
    apply Forall_cons in Hes as [Hx Hes]. apply IH; [|done]. unfold best_step. intros b' Hb'.
    destruct (st.1) as [p|] eqn:Hp; [|cbn in Hb'; by simplify_eq].
    destruct (closer p x); [apply Hst; congruence|]. destruct (same_rank p x); cbn in Hb'; simplify_eq; [by apply Hst|done]. }
  assert (Hnm : named definitions name best = true).
  { eapply (Hin _ (None, false)); [done| |by rewrite Hf]. apply Forall_forall. intros x Hx.
    apply list_elem_of_In, filter_In in Hx as [Hx _]. apply filter_In in Hx. by destruct Hx. }
  unfold named in Hnm. destruct (definitions !! bd_definition best) as [def|]; [|done]. bool_to_prop. by exists def.
Qed.

(** The declaration of a node has the node's text as its name. *)
Lemma declared_by_name node d : declared_by index node = Some d →
  ∃ def, definitions !! d = Some def ∧ df_name def = text source node.
Proof.
  unfold declared_by. destruct index_facts as (Hb & _).
  destruct (bi_tokens index !! loc_start node) as [i|]; cbn [mbind option_bind]; [|done]. rewrite Hb.
  destruct (bindings !! i) as [b|] eqn:Hi; cbn [mbind option_bind]; [|done]. case_bool_decide as Ht; [|done]. intros [= <-].
  destruct (bound_definition i b Hi) as (Hdi & nd & name & kind & container & _ & _ & -> & _ & Hdef).
  eexists. split; [rewrite Hdi; exact Hdef|]. cbn [df_name]. unfold binding_of in Ht. cbn [bd_token] in Ht.
  unfold text, utf8_text. unfold byte_range, loc_start, loc_end in Ht. injection Ht as -> ->. done.
Qed.
Lemma owner_function node d : owner index node = Some d →
  ∃ def, definitions !! d = Some def ∧ (df_kind def = lit "function" ∨ df_kind def = lit "method").
Proof.
  unfold owner. intros Hd. destruct (omap _ _) as [|o os] eqn:Ho; [done|]. cbn in Hd. injection Hd as ->.
  assert (Hin : d ∈ d :: os) by left. rewrite <-Ho in Hin. apply list_elem_of_omap in Hin as (p & _ & Hp).
  destruct index_facts as (_ & _ & _ & Howners).
  destruct (Howners (loc_start p) d Hp) as (e & def & _ & _ & ? & ? & _). by exists def.
Qed.

(** The scopes of a tree's bindings around one position are nested. *)
Lemma collected_nested (position boundary : nat) namespace (f : Binding → bool) :
  wf_node root = true →
  nested_scopes (List.filter (eligible position boundary namespace) (List.filter f bindings)).
Proof.
  intros Hwf a b Ha Hb Hlen.
  assert (Hscope : ∀ x, x ∈ List.filter (eligible position boundary namespace) (List.filter f bindings) →
      contains_pos position (bd_scope x) = true ∧ ∃ p, placed root p ∧ bd_scope x = byte_range p).
  { intros x Hx. apply list_elem_of_In, filter_In in Hx as [Hx He]. apply filter_In in Hx as [Hx _].
    unfold eligible in He. rewrite !andb_true_iff in He. split; [apply He|].
    apply list_elem_of_In, list_elem_of_lookup_1 in Hx as [i Hi].
    destruct (bound_definition i x Hi) as (_ & nd & name & kind & container & Hnd & _ & -> & _).
    unfold binding_of. cbn [bd_scope]. unfold function_scope, scope.
    destruct (ecma language && _); match goal with |- context [enclosing ?ks nd] => destruct (enclosing_placed root ks nd Hnd) as (p & ? & -> & _) end; by exists p. }
  destruct (Hscope a Ha) as (Hpa & pa & Hla & Hsa). destruct (Hscope b Hb) as (Hpb & pb & Hlb & Hsb).
  rewrite Hsa, Hsb in *. pose proof (placed_span root pa Hwf Hla). pose proof (placed_span root pb Hwf Hlb).
  destruct (placed_laminar root pa pb position Hwf Hla Hlb Hpa Hpb) as [[Hw1 Hw2]|[Hw1 Hw2]];
    unfold range_len, byte_range in *; cbn [fst snd] in *; f_equal; lia.
Qed.
End Index.
