(* ===== verification/Syntax.v ===== *)
(** * Extraction of a source file through its syntax tree

    Models [src/src/extract/syntax.rs] and [extract/syntax_modules.rs]: the
    observation of every reference of a tree against its bindings, the imported
    and exported modules, and the extraction of Rust, TypeScript, JavaScript and
    Luau sources.  The parser with its time limit and the compilation of a query
    are parameters; the captures of a query of node kinds are the nodes of these
    kinds in pre-order. *)
From Stdlib Require Import Ascii String ZArith Lia Sorted.
From stdpp Require Import base numbers list gmap strings sorting.
From S2P Require Import Prelude Order Text Collections QueryShape Snippets Extract Aliases SyntaxTree Bindings BindingIndex.

(** ** Grammars *)

Inductive Grammar := RustGrammar | TsxGrammar | TypeScriptGrammar | JavaScriptGrammar | LuauGrammar.
(** The grammar of a path; other languages do not come here. *)
Definition grammar (path : str) : option Grammar :=
  let language := language path in
  if language =s lit "rust" then Some RustGrammar
  else if language =s lit "typescript" then Some (if ends_with (lit ".tsx") path then TsxGrammar else TypeScriptGrammar)
  else if language =s lit "javascript" then Some JavaScriptGrammar
  else if language =s lit "luau" then Some LuauGrammar
  else None.
(** The kinds that the query of a grammar captures. *)
Definition reference_kinds (g : Grammar) : list string :=
  match g with
  | RustGrammar => ["identifier"; "type_identifier"; "field_identifier"]
  | TsxGrammar | TypeScriptGrammar =>
      ["identifier"; "type_identifier"; "property_identifier"; "shorthand_property_identifier"]
  | JavaScriptGrammar => ["identifier"; "property_identifier"; "shorthand_property_identifier"]
  | LuauGrammar => ["identifier"]
  end%string.
Definition captures (g : Grammar) (root : Node) : list Loc :=
  List.filter (λ l, loc_named l && is_kind (reference_kinds g) l) (places [] root).
Definition MAX_TREE_DEPTH : nat := 256.
Definition bounded_syntax_tree (root : Node) : bool := height root <=? MAX_TREE_DEPTH.

(** ** References *)

Definition same_as (node : Loc) (o : option Loc) : bool :=
  match o with Some l => same_node l node | None => false end.
Definition qualified_place (node : Loc) : bool :=
  match parent node with
  | Some p =>
      is_kind ["scoped_identifier"; "scoped_type_identifier"]%string p ||
      existsb (λ field, same_as node (field_child field p)) ["field"; "property"; "method"; "key"]%string
  | None => false
  end.
(** The loop of [is_call] over the nodes above [current]. *)
Fixpoint call_above (current : Loc) (up : list Loc) : bool :=
  match up with
  | [] => false
  | p :: up =>
      if is_kind ["call_expression"; "function_call"]%string p then same_as current (first_field ["function"; "name"]%string p)
      else if negb (is_kind ["field_expression"; "member_expression"; "dot_index_expression"; "method_index_expression";
                             "scoped_identifier"; "generic_function"]%string p) then false
      else if same_as current (first_field ["value"; "object"; "table"]%string p) then false
      else call_above p up
  end.
Definition is_call (node : Loc) : bool := call_above node (ancestors node).
Definition role_of (node : Loc) : string :=
  if ancestor_kind node "use_declaration" || ancestor_kind node "import_statement" then "import"
  else if is_kind ["type_identifier"]%string node then "type"
  else if opt_kind ["macro_invocation"]%string (parent node)
          && same_as node (parent node ≫= field_child "macro") then "macro"
  else if is_call node then "call"
  else "read".
Definition namespace_of (role : string) : Z :=
  if String.eqb role "type" then 2 else if String.eqb role "macro" then 4 else 1.

Record Observed := MkObserved { ob_occurrences : list Occurrence; ob_relationships : list RelationshipFact }.
Definition push_occurrence (o : Occurrence) (st : Observed) : Observed :=
  MkObserved (ob_occurrences st ++ [o]) (ob_relationships st).
Definition push_relationship (r : RelationshipFact) (st : Observed) : Observed :=
  MkObserved (ob_occurrences st) (ob_relationships st ++ [r]).

Section Observe.
Context (source status : str) (index : BindingIndex).

Definition provenance_of (role : string) (target : option nat) (candidates : list nat) (limited : bool) : str :=
  lit match target with
      | Some _ => if String.eqb role "call" then "direct_lexical_call" else "lexical_binding"
      | None => if limited then "candidate_name_truncated"
                else match candidates with [] => "observed_syntax" | _ => "candidate_name" end
      end.
(** The part of [observe] after the declarations and the comments. *)
Definition observe_reference (node : Loc) (name : str) (st : Observed) : Observed :=
  let role := role_of node in
  let '(found, candidates, limited) := resolve index name node (namespace_of role) in
  let target :=
    if qualified_place node || String.eqb role "import" || negb (status =s lit "complete") then None else found in
  let provenance := provenance_of role target candidates limited in
  let st :=
    if String.eqb role "call" then
      match owner index node with
      | Some owner =>
          push_relationship (MkRel owner target (lit "calls") (loc_start node) (loc_end node) provenance) st
      | None => st
      end
    else st in
  push_occurrence
    (MkOcc name (loc_start node) (loc_end node) (lit role) target
       match target with Some _ => [] | None => candidates end provenance) st.
Definition observe (node : Loc) (st : Observed) : Observed :=
  let name := text source node in
  if name =s [] then st
  else
    match declared_by index node with
    | Some definition =>
        push_occurrence
          (MkOcc name (loc_start node) (loc_end node) (lit "declaration") (Some definition) []
             (lit "syntax_declaration")) st
    | None =>
        if existsb (is_kind COMMENT_OR_STRING) (ancestors node) then st else observe_reference node name st
    end.
End Observe.

(** ** Modules *)

Section Modules.
Context (source language : str) (definitions : list DefinitionFact).

Definition is_quote (c : ascii) : bool := (c =c chr 39) || (c =c chr 34).
(** One quote off the front and one off the back. *)
Definition strip_quotes (raw : str) : option str :=
  match raw with
  | c :: value =>
      if is_quote c then
        match last value with
        | Some d => if is_quote d then Some (removelast value) else None
        | None => None
        end
      else None
  | [] => None
  end.
Definition callee (call : Loc) : option Loc := first_field ["name"; "function"]%string call.
Definition module_occurrence (node : Loc) (role : string) (st : Observed) : Observed :=
  match strip_quotes (text source node) with
  | Some name =>
      let shadowed :=
        String.eqb role "require" &&
        match (parent node ≫= parent) ≫= callee with
        | Some callee =>
            existsb (λ o, (oc_start o =? loc_start callee) && bool_decide (is_Some (oc_target o))) (ob_occurrences st)
        | None => false
        end in
      push_occurrence
        (MkOcc name (loc_start node) (loc_end node) (lit role) None []
           (lit (if shadowed then "shadowed_require_path" else "literal_module_path"))) st
  | None => st
  end.
Definition add_import_path (node : Loc) (st : Observed) : Observed :=
  match field_child "source" node with
  | Some module => if is_kind ["import_statement"]%string node then module_occurrence module "import_path" st else st
  | None => st
  end.
Definition instance_part (part : str) : bool :=
  negb (part =s []) && forallb (λ byte, is_ascii_alphanumeric byte || (byte =c "_"%char)) part.
Definition add_instance_path (module : Loc) (st : Observed) : Observed :=
  let name := text source module in
  if starts_with (lit "game.") name && forallb instance_part (split_char "."%char name) then
    push_occurrence
      (MkOcc name (loc_start module) (loc_end module) (lit "require") None [] (lit "rojo_instance_path")) st
  else st.
Definition add_require (node : Loc) (st : Observed) : Observed :=
  if is_kind ["function_call"; "call_expression"]%string node
     && match callee node with Some name => text source name =s lit "require" | None => false end then
    match field_child "arguments" node with
    | Some args =>
        match named_child 0 args with
        | Some module =>
            if is_kind ["string"; "string_literal"]%string module then module_occurrence module "require" st
            else if (language =s lit "luau") && is_kind ["dot_index_expression"]%string module
            then add_instance_path module st else st
        | None => st
        end
    | None => st
    end
  else st.
(** The definitions with this name before the node. *)
Definition named_before (name : str) (node : Loc) : list nat :=
  omap (λ e, if (df_name e.2 =s name) && (df_start e.2 <? loc_start node) then Some e.1 else None)
    (imap pair definitions).
Definition add_export (node child : Loc) (st : Observed) : Observed :=
  let value := if is_kind ["expression_list"]%string child then default child (named_child 0 child) else child in
  match named_before (text source value) node with
  | [definition] =>
      push_relationship
        (MkRel definition None (lit "export_candidate") (loc_start value) (loc_end value)
           (lit "observed_return_or_export")) st
  | _ => st
  end.
Definition add_exports (node : Loc) (st : Observed) : Observed :=
  if is_kind ["return_statement"; "export_statement"]%string node
  then foldl (λ st child, add_export node child st) st (loc_named_children node) else st.
Definition modules_here (node : Loc) (st : Observed) : Observed :=
  add_exports node (add_require node (add_import_path node st)).
Fixpoint collect_modules (n : Node) (up : list (Node * nat)) (st : Observed) {struct n} : Observed :=
  let node := MkLoc n up in
  let st := modules_here node st in
  if is_kind COMMENT_OR_STRING node then st
  else
    (fix each (i : nat) (cs : list Node) (st : Observed) : Observed :=
       match cs with
       | [] => st
       | c :: cs => each (S i) cs (if nd_named c then collect_modules c ((n, i) :: up) st else st)
       end) 0 (nd_children n) st.
End Modules.

(** ** The extraction *)

Definition failed (language : str) (status : string) : FileExtraction := MkExt language (lit status) [] [] [].
Definition occurrence_order : Occurrence → Occurrence → comparison :=
  cmp_on (λ o, (oc_start o, oc_end o)) (pair_compare Nat.compare Nat.compare).

Section Extract.
Context `{UnicodeTables} (parse : Grammar → str → ParseOutcome) (query_compiles : Grammar → bool).

Definition extract_tree (language status : str) (g : Grammar) (root : Node) (source : str) : FileExtraction :=
  let collected := collect source language root [] None (MkCollected [] []) in
  let definitions := cl_definitions collected in
  let index := new_index (cl_bindings collected) definitions in
  let st := foldl (λ st node, observe source status index node st) (MkObserved [] []) (captures g root) in
  let st := collect_modules source language definitions root [] st in
  MkExt language status definitions (sort_by occurrence_order (ob_occurrences st)) (ob_relationships st).
Definition extract_syntax (path source : str) : option FileExtraction :=
  let language := language path in
  if negb (utf8_valid source) then Some (failed language "invalid_encoding")
  else
    g ← grammar path;
    Some match parse g source with
         | LanguageError => failed language "incompatible_grammar"
         | Cancelled => failed language "cancelled"
         | Parsed root has_error =>
             if negb (query_compiles g) then failed language "invalid_query"
             else if negb (bounded_syntax_tree root) then failed language "depth_limit"
             else extract_tree language (lit (if has_error then "parse_error" else "complete")) g root source
         end.
End Extract.

(** ** What extraction promises *)

Record sound_definition (source : str) (d : DefinitionFact) : Prop := {
  sdf_name : df_name d ≠ [];
  sdf_span : df_start d ≤ df_end d ≤ length source;
}.
(** A target and a candidate are definitions of the file with the occurrence's name. *)
Record sound_occurrence (source : str) (definitions : list DefinitionFact) (o : Occurrence) : Prop := {
  soc_span : oc_start o ≤ oc_end o ≤ length source;
  soc_target : ∀ d, oc_target o = Some d → oc_candidates o = [] ∧
    ∃ def, definitions !! d = Some def ∧ df_name def = oc_name o;
  soc_candidates : ∀ d, d ∈ oc_candidates o → ∃ def, definitions !! d = Some def ∧ df_name def = oc_name o;
  soc_limit : length (oc_candidates o) ≤ 64;
}.
Record sound_relationship (source : str) (definitions : list DefinitionFact) (r : RelationshipFact) : Prop := {
  srl_span : re_evidence_start r ≤ re_evidence_end r ≤ length source;
  srl_source : ∃ def, definitions !! re_source r = Some def ∧
    (re_kind r = lit "calls" → df_kind def = lit "function" ∨ df_kind def = lit "method");
  srl_target : ∀ d, re_target r = Some d → is_Some (definitions !! d);
}.
Record sound_extraction (source : str) (e : FileExtraction) : Prop := {
  sex_definitions : Forall (sound_definition source) (ex_definitions e);
  sex_occurrences : Forall (sound_occurrence source (ex_definitions e)) (ex_occurrences e);
  sex_sorted : StronglySorted (cmp_le occurrence_order) (ex_occurrences e);
  sex_relationships : Forall (sound_relationship source (ex_definitions e)) (ex_relationships e);
}.

Section Tree.
Context `{UnicodeTables} (source language status : str) (root : Node).
Context (Hwf : wf_node root = true) (Hlen : nd_end root ≤ length source).
Let collected := collect source language root [] None (MkCollected [] []).
Let definitions := cl_definitions collected.
Let bindings := cl_bindings collected.
Let index := new_index bindings definitions.

Lemma tree_collected : collected_ok source language root collected.
Proof. apply collect_ok; [apply placed_root|]. by constructor. Qed.
Lemma tree_span l : placed root l → loc_start l ≤ loc_end l ≤ length source.
Proof. intros Hl. pose proof (placed_span root l Hwf Hl). lia. Qed.

(** *** The occurrences of a walk *)
Definition reference_of (node : Loc) (o : Occurrence) : Prop :=
  let role := role_of node in
  let target :=
    if qualified_place node || String.eqb role "import" || negb (status =s lit "complete") then None
    else (resolve index (text source node) node (namespace_of role)).1.1 in
  oc_name o = text source node ∧ oc_start o = loc_start node ∧ oc_end o = loc_end node ∧ oc_role o = lit role ∧
  oc_target o = target ∧
  oc_candidates o =
    match target with Some _ => [] | None => (resolve index (text source node) node (namespace_of role)).1.2 end.
Definition observed (o : Occurrence) : Prop :=
  ∃ node, placed root node ∧
    ((∃ d, declared_by index node = Some d ∧ o =
        MkOcc (text source node) (loc_start node) (loc_end node) (lit "declaration") (Some d) [] (lit "syntax_declaration")) ∨
     reference_of node o ∨
     (oc_start o = loc_start node ∧ oc_end o = loc_end node ∧ oc_target o = None ∧ oc_candidates o = [] ∧
      (oc_role o = lit "import_path" ∨ oc_role o = lit "require"))).
Definition related_in (r : RelationshipFact) : Prop :=
  ∃ node, placed root node ∧ re_evidence_start r = loc_start node ∧ re_evidence_end r = loc_end node ∧
    (∀ d, re_target r = Some d → is_Some (definitions !! d)) ∧
    ∃ def, definitions !! re_source r = Some def ∧
      (re_kind r = lit "calls" → df_kind def = lit "function" ∨ df_kind def = lit "method").
Record walk_ok (st : Observed) : Prop := {
  wk_occurrences : Forall observed (ob_occurrences st);
  wk_relationships : Forall related_in (ob_relationships st);
}.
Lemma push_occurrence_walk o st : observed o → walk_ok st → walk_ok (push_occurrence o st).
Proof. intros Ho [? ?]. constructor; cbn; [apply Forall_app; split; [done|by constructor]|done]. Qed.
Lemma push_relationship_walk r st : related_in r → walk_ok st → walk_ok (push_relationship r st).
Proof. intros Hr [? ?]. constructor; cbn; [done|apply Forall_app; split; [done|by constructor]]. Qed.

Lemma observe_reference_ok node st :
  placed root node → walk_ok st → walk_ok (observe_reference status index node (text source node) st).
Proof.
  intros Hn Hst. unfold observe_reference. cbv zeta.
  pose proof (resolve_target collected (text source node) node (namespace_of (role_of node))) as Ht.
  fold bindings definitions index in Ht.
  destruct (resolve index (text source node) node (namespace_of (role_of node))) as [[found candidates] limited] eqn:Hr.
  apply push_occurrence_walk.
  { exists node. split; [done|]. right. left. unfold reference_of. cbv zeta. rewrite Hr. by cbn. }
  destruct (String.eqb (role_of node) "call"); [|done]. destruct (owner index node) as [o|] eqn:Ho; [|done].
  apply push_relationship_walk; [|done]. exists node. cbn [re_evidence_start re_evidence_end re_target re_source].
  split_and!; [done..| |].
  - intros d Hd. destruct (_ || _); [done|]. destruct (Ht d Hd) as (def & -> & _). by eexists.
  - destruct (owner_function collected node o Ho) as (def & ? & ?). by exists def.
Qed.
Lemma observe_ok node st : placed root node → walk_ok st → walk_ok (observe source status index node st).
Proof.
  intros Hn Hst. unfold observe. cbv zeta. case_bool_decide; [done|].
  destruct (declared_by index node) as [d|] eqn:Hd.
  - apply push_occurrence_walk; [|done]. exists node. split; [done|]. left. by exists d.
  - destruct (existsb _ _); [done|]. by apply observe_reference_ok.
Qed.

Lemma module_occurrence_ok node role st :
  role = "import_path"%string ∨ role = "require"%string → placed root node → walk_ok st →
  walk_ok (module_occurrence source node role st).
Proof.
  intros Hrole Hn Hst. unfold module_occurrence. destruct (strip_quotes _); [|done]. apply push_occurrence_walk; [|done].
  exists node. split; [done|]. right. right. cbn. split_and!; [done..|]. destruct Hrole as [->| ->]; auto.
Qed.
Lemma add_export_ok node child st : placed root child → walk_ok st → walk_ok (add_export source definitions node child st).
Proof.
  intros Hc Hst. unfold add_export. cbv zeta. set (value := if is_kind _ child then _ else _).
  assert (Hv : placed root value).
  { unfold value. destruct (is_kind _ child); [|done]. destruct (named_child 0 child) as [v|] eqn:Hn; [|done].
    eapply placed_named_children; [exact Hc|]. by eapply list_elem_of_lookup_2. }
  destruct (named_before _ _ _) as [|d [|]] eqn:Hb; try done. apply push_relationship_walk; [|done].
  exists value. cbn [re_evidence_start re_evidence_end re_target re_source re_kind]. split_and!; [done..|].
  assert (Hin : d ∈ [d]) by left. rewrite <-Hb in Hin. unfold named_before in Hin.
  apply list_elem_of_omap in Hin as ([i def] & Hi & Hd). apply elem_of_lookup_imap in Hi as (j & x & Heq & Hj).
  cbn [fst snd] in Hd. destruct (_ && _); [|done]. injection Hd as <-. injection Heq as -> ->.
  exists x. split; [done|]. done.
Qed.
Lemma modules_here_ok node st : placed root node → walk_ok st → walk_ok (modules_here source language definitions node st).
Proof.
  intros Hn Hst. unfold modules_here.
  assert (H1 : walk_ok (add_import_path source node st)).
  { unfold add_import_path. destruct (field_child "source" node) as [m|] eqn:Hm; [|done]. destruct (is_kind _ node); [|done].
    apply module_occurrence_ok; [by left| |done]. by eapply placed_field. }
  set (s1 := add_import_path _ _ _) in *.
  assert (H2 : walk_ok (add_require source language node s1)).
  { unfold add_require. destruct (_ && _); [|done]. destruct (field_child "arguments" node) as [args|] eqn:Ha; [|done].
    destruct (named_child 0 args) as [m|] eqn:Hm; [|done].
    assert (Hpm : placed root m).
    { eapply placed_named_children; [by eapply placed_field|]. by eapply list_elem_of_lookup_2. }
    destruct (is_kind _ m); [apply module_occurrence_ok; [by right|done|done]|]. destruct (_ && _); [|done].
    unfold add_instance_path. cbv zeta. destruct (_ && _); [|done]. apply push_occurrence_walk; [|done].
    exists m. split; [done|]. right. right. cbn. split_and!; auto. }
  unfold add_exports. destruct (is_kind _ node); [|done]. set (s2 := add_require _ _ _ _) in *. clearbody s2.
  assert (Hcs : ∀ c, c ∈ loc_named_children node → placed root c) by (intros c; by apply placed_named_children).
  revert s2 H2. induction (loc_named_children node) as [|c cs IH]; intros s2 H2; [done|]. cbn [foldl].
  apply IH; [intros c' Hc'; apply Hcs; by right|]. apply add_export_ok; [apply Hcs; by left|done].
Qed.
Lemma collect_modules_ok n up st :
  placed root (MkLoc n up) → walk_ok st → walk_ok (collect_modules source language definitions n up st).
Proof.
  revert up st. induction n as [n IH] using node_induction. intros up st Hn Hst.
  pose proof (modules_here_ok (MkLoc n up) st Hn Hst) as Hhere.
  destruct n as [k nm f a b cs]. cbn [collect_modules nd_children] in *. set (n := MkNode k nm f a b cs) in *.
  set (s1 := modules_here _ _ _ _ _) in *. clearbody s1. destruct (is_kind COMMENT_OR_STRING _); [done|].
  match goal with |- walk_ok (?each 0 _ _) => assert (Haux : ∀ ds i0 st,
      (∀ i c, ds !! i = Some c → cs !! (i0 + i) = Some c) →
      Forall (λ c, ∀ up st, placed root (MkLoc c up) → walk_ok st →
         walk_ok (collect_modules source language definitions c up st)) ds →
      walk_ok st → walk_ok (each i0 ds st)) end.
  { intros ds. induction ds as [|d ds IHd]; intros i0 st' Hi Hf Hst'; [done|]. apply Forall_cons in Hf as [Hd Hf].
    apply (IHd (S i0)); [|exact Hf|].
    - intros i c Hc. specialize (Hi (S i) c Hc). by rewrite Nat.add_succ_r in Hi.
    - destruct (nd_named d); [|done]. apply Hd; [|done]. apply (placed_child root (MkLoc n up)); [done|].
      specialize (Hi 0 d eq_refl). by rewrite Nat.add_0_r in Hi. }
  by apply (Haux cs 0 s1).
Qed.

(** Everything that the extraction of a tree records was observed in it. *)
Lemma extract_tree_walk g :
  let e := extract_tree language status g root source in
  ex_definitions e = definitions ∧ Forall observed (ex_occurrences e) ∧ Forall related_in (ex_relationships e) ∧
  StronglySorted (cmp_le occurrence_order) (ex_occurrences e).
Proof.
  cbv zeta. unfold extract_tree. cbv zeta. cbn [ex_definitions ex_occurrences ex_relationships].
  fold collected. fold bindings definitions. fold index.
  assert (Hc : ∀ l, l ∈ captures g root → placed root l).
  { intros l Hl. unfold captures in Hl. apply list_elem_of_In, filter_In in Hl as [Hl _].
    eapply places_placed; [apply placed_root|]. by apply list_elem_of_In. }
  assert (H1 : walk_ok (foldl (λ st node, observe source status index node st) (MkObserved [] []) (captures g root))).
  { assert (Hst : walk_ok (MkObserved [] [])) by (constructor; constructor). revert Hst Hc.
    generalize (MkObserved [] []). induction (captures g root) as [|l ls IH]; intros st Hst Hc; [done|]. cbn [foldl].
    apply IH; [|intros l' Hl'; apply Hc; by right]. apply observe_ok; [apply Hc; by left|done]. }
  apply (collect_modules_ok root []) in H1 as [Ho Hr]; [|apply placed_root]. split_and!; [done| |done|].
  - apply Forall_forall. intros o Hin. rewrite Forall_forall in Ho. apply Ho. by apply elem_of_sort_by in Hin.
  - apply sort_by_sorted. apply _.
Qed.
End Tree.

(** ** The properties *)

Section Properties.
Context `{UnicodeTables} (parse : Grammar → str → ParseOutcome) (query_compiles : Grammar → bool).
(** The parser gives a tree over the source. *)
Definition parses_well : Prop :=
  ∀ g source root has_error, parse g source = Parsed root has_error → wf_node root = true ∧ nd_end root ≤ length source.

Lemma observed_sound source language status root o :
  wf_node root = true → nd_end root ≤ length source →
  observed source language status root o →
  sound_occurrence source (cl_definitions (collect source language root [] None (MkCollected [] []))) o.
Proof.
  intros Hwf Hlen (node & Hn & Ho). pose proof (tree_span source root Hwf Hlen node Hn) as Hspan.
  set (collected := collect _ _ _ _ _ _) in *.
  pose proof (tree_collected source language root) as Hok. fold collected in Hok.
  destruct Ho as [(d & Hd & ->)|[Href|(Hs & He & Ht & Hc & _)]].
  - constructor; cbn; [done| |by intros d' Hd'%elem_of_nil|lia]. intros d' [= <-]. split; [done|].
    by apply (declared_by_name source language root collected Hok node).
  - unfold reference_of in Href. cbv zeta in Href. fold collected in Href.
    set (index := new_index _ _) in Href. destruct Href as (Hname & Hs & He & _ & Ht & Hc).
    pose proof (resolve_candidates collected (text source node) node (namespace_of (role_of node))) as Hcand.
    pose proof (resolve_candidates_length collected (text source node) node (namespace_of (role_of node))) as Hlimit.
    pose proof (resolve_target collected (text source node) node (namespace_of (role_of node))) as Htarget.
    fold index in Hcand, Hlimit, Htarget. rewrite <-Ht in Hc. constructor.
    + by rewrite Hs, He.
    + intros d Hd. rewrite Hd in Hc, Ht. split; [done|]. rewrite Hname. apply Htarget.
      destruct (_ || _); [done|]. by rewrite <-Ht.
    + intros d Hd. rewrite Hc in Hd. rewrite Hname. destruct (oc_target o); [by apply elem_of_nil in Hd|]. by apply Hcand.
    + rewrite Hc. destruct (oc_target o); [cbn; lia|exact Hlimit].
  - constructor; rewrite ?Hs, ?He, ?Ht, ?Hc; [done|done| |cbn; lia]. by intros d Hd%elem_of_nil.
Qed.

(** C10. Extraction is well formed: from a parser that gives trees over its
    source, every definition and every occurrence spans a part of the source,
    targets and candidates are definitions of the file with the name of the
    occurrence, at most 64 and none next to a target, calls come from functions
    or methods, and the occurrences are in the order of the source. *)
Theorem syntax_extraction_sound (path source : str) (e : FileExtraction) (Hparse : parses_well)
    (He : extract_syntax parse query_compiles path source = Some e) :
  sound_extraction source e.
Proof.
  assert (Hfail : ∀ language status, sound_extraction source (failed language status)).
  { intros language status. constructor; constructor. }
  unfold extract_syntax in He. cbv zeta in He. destruct (negb _); [injection He as <-; apply Hfail|].
  destruct (grammar path) as [g|]; cbn [mbind option_bind] in He; [|done]. injection He as <-.
  destruct (parse g source) as [| |root has_error] eqn:Hp; [apply Hfail..|].
  destruct (Hparse g source root has_error Hp) as [Hwf Hlen].
  destruct (negb _); [apply Hfail|]. destruct (negb _); [apply Hfail|].
  destruct (extract_tree_walk source (language path) (lit (if has_error then "parse_error" else "complete")) root g)
    as (Hd & Ho & Hr & Hsort).
  set (e := extract_tree _ _ g root source) in *. constructor.
  - rewrite Hd. apply Forall_lookup. intros i d Hi.
    pose proof (tree_collected source (language path) root) as [Hl Hb].
    destruct (lookup_lt_is_Some_2 (cl_bindings (collect source (language path) root [] None (MkCollected [] []))) i) as [b Hbi].
    { rewrite Hl. by eapply lookup_lt_Some. }
    destruct (Hb i b Hbi) as (node & name & kind & container & Hnode & _ & Htext & _ & Hdef).
    rewrite Hdef in Hi. injection Hi as <-. constructor; cbn; [done|]. by apply (tree_span source root Hwf Hlen).
  - rewrite Hd. eapply Forall_impl; [exact Ho|]. intros o. by apply observed_sound.
  - exact Hsort.
  - rewrite Hd. eapply Forall_impl; [exact Hr|]. intros r (node & Hn & Hs & He' & Ht & def & Hdef & Hk).
    constructor; [rewrite Hs, He'; by apply (tree_span source root Hwf Hlen)|by exists def|exact Ht].
Qed.

(** C9. References resolve lexically: an occurrence of a type, a macro, a call
    or a read stands for a node of the tree, and it has a target exactly when
    the file parsed without an error, the node is not a qualified name, and one
    of the bindings of its name is nearest to it and not hidden; the target is
    that binding's definition. *)
Theorem syntax_references_exact (path source : str) (g : Grammar) (root : Node) (has_error : bool) (e : FileExtraction)
    (o : Occurrence) (Hparse : parses_well) (Hg : grammar path = Some g) (Hp : parse g source = Parsed root has_error)
    (He : extract_syntax parse query_compiles path source = Some e) (Ho : o ∈ ex_occurrences e)
    (Hrole : ∃ role, role ∈ ["type"; "macro"; "call"; "read"]%string ∧ oc_role o = lit role) :
  let collected := collect source (language path) root [] None (MkCollected [] []) in
  let bindings := List.filter (named (cl_definitions collected) (oc_name o)) (cl_bindings collected) in
  ∃ node, placed root node ∧ oc_name o = text source node ∧ oc_start o = loc_start node ∧ oc_end o = loc_end node ∧
    oc_role o = lit (role_of node) ∧
    ∀ d, oc_target o = Some d ↔
      has_error = false ∧ qualified_place node = false ∧
      let namespace := namespace_of (role_of node) in
      ∃ b, nearest (List.filter (eligible (loc_start node) (function_scope node).1 namespace) bindings) b ∧
        (∀ b', b' ∈ bindings → blocks (loc_start node) namespace b b' = false) ∧ bd_definition b = d.
Proof.
  cbv zeta. destruct Hrole as (role & Hrole & Hor). unfold extract_syntax in He. cbv zeta in He.
  assert (Hnone : ∀ st, o ∉ ex_occurrences (failed (language path) st)) by (intros st Hin; by apply elem_of_nil in Hin).
  destruct (negb _); [injection He as <-; by apply Hnone in Ho|].
  rewrite Hg in He. cbn [mbind option_bind] in He. rewrite Hp in He. injection He as <-.
  destruct (Hparse g source root has_error Hp) as [Hwf Hlen].
  destruct (negb _); [by apply Hnone in Ho|]. destruct (negb _); [by apply Hnone in Ho|].
  set (status := lit (if has_error then "parse_error" else "complete")%string) in *.
  destruct (extract_tree_walk source (language path) status root g) as (_ & Hobs & _).
  rewrite Forall_forall in Hobs. destruct (Hobs o Ho) as (node & Hn & Hcase).
  set (collected := collect _ _ _ _ _ _) in *.
  destruct Hcase as [(d & _ & ->)|[Href|(_ & _ & _ & _ & Hmod)]].
  { exfalso. cbn [oc_role] in Hor. revert Hor. set_unfold in Hrole. by destruct Hrole as [->|[->|[->|[->|[]]]]]. }
  2: { exfalso. set_unfold in Hrole. destruct Hrole as [->|[->|[->|[->|[]]]]], Hmod as [Hm|Hm]; rewrite Hm in Hor; discriminate Hor. }
  unfold reference_of in Href. cbv zeta in Href. fold collected in Href. destruct Href as (Hname & Hs & Hen & Hr & Ht & _).
  exists node. split_and!; [done..|]. intros d. rewrite Ht.
  assert (Hst : (status =s lit "complete") = negb has_error) by (unfold status; by destruct has_error).
  assert (Himport : String.eqb (role_of node) "import" = false).
  { apply String.eqb_neq. intros Hi. rewrite Hr, Hi in Hor. set_unfold in Hrole.
    destruct Hrole as [->|[->|[->|[->|[]]]]]; discriminate Hor. }
  rewrite Hst, Himport, orb_false_r, negb_involutive, Hname.
  rewrite (resolve_named collected), <-resolution_innermost.
  2: { eapply collected_nested; [|exact Hwf]. apply tree_collected. }
  destruct (qualified_place node), has_error; cbn [orb]; naive_solver.
Qed.
End Properties.

Module SyntaxExample.
(** A function with a parameter that a [let] shadows and a call of itself. *)
Definition source : str := lit "fn f(x){let x=x;f(x)}".
Definition node (kind : string) (field : option string) (start end_ : nat) (children : list Node) : Node :=
  MkNode (lit kind) true (lit <$> field) start end_ children.
Definition name (field : option string) (start : nat) : Node := node "identifier" field start (S start) [].
Definition tree : Node :=
  node "source_file" None 0 21
    [node "function_item" None 0 21
      [name (Some "name"%string) 3;
       node "parameters" (Some "parameters"%string) 4 7 [node "parameter" None 5 6 [name (Some "pattern"%string) 5]];
       node "block" (Some "body"%string) 7 21
         [node "let_declaration" None 8 16 [name (Some "pattern"%string) 12; name (Some "value"%string) 14];
          node "call_expression" None 16 20
            [name (Some "function"%string) 16; node "arguments" (Some "arguments"%string) 17 20 [name None 18]]]]].
(** The one source the parser knows; others it gives up. *)
Definition parse (g : Grammar) (s : str) : ParseOutcome :=
  if s =s source then Parsed tree false else Cancelled.
Definition compiles (_ : Grammar) : bool := true.
Definition extraction : option FileExtraction := extract_syntax parse compiles (lit "f.rs") source.

Lemma parses : parses_well parse.
Proof.
  intros g s root has_error. unfold parse. case_bool_decide as Hs; [|done]. intros [= <- <-].
  rewrite Hs. split; [vm_compute; reflexivity|]. apply Nat.leb_le. vm_compute. reflexivity.
Qed.
(** The [x] of the [let]'s value is the parameter, the argument is the variable. *)
Example references :
  match extraction with
  | Some e => (λ o, (oc_start o, oc_role o =s lit "declaration", oc_target o)) <$> ex_occurrences e
  | None => []
  end = [(3, true, Some 0); (5, true, Some 1); (12, true, Some 2); (14, false, Some 1); (16, false, Some 0); (18, false, Some 2)].
Proof. vm_compute. reflexivity. Qed.
Lemma syntax_extraction_sound_witness :
  ∃ e, extraction = Some e ∧ sound_extraction source e ∧ length (ex_relationships e) = 1.
Proof.
  destruct extraction as [e|] eqn:He; [|exfalso; revert He; vm_compute; discriminate].
  exists e. split; [reflexivity|]. split; [exact (syntax_extraction_sound parse compiles (lit "f.rs") source e parses He)|].
  revert He. vm_compute. intros [= <-]. reflexivity.
Defined.
Definition argument : Occurrence := MkOcc (lit "x") 18 19 (lit "read") (Some 2) [] (lit "lexical_binding").
Lemma syntax_references_exact_witness :
  ∃ node, placed tree node ∧ loc_start node = 18 ∧ qualified_place node = false.
Proof.
  destruct extraction as [e|] eqn:He; [|exfalso; revert He; vm_compute; discriminate].
  assert (Ho : argument ∈ ex_occurrences e).
  { revert He. vm_compute. intros [= <-]. apply list_elem_of_In. simpl. tauto. }
  destruct (syntax_references_exact parse compiles (lit "f.rs") source RustGrammar tree false e argument parses
    ltac:(vm_compute; reflexivity) ltac:(vm_compute; reflexivity) He Ho
    ltac:(exists "read"%string; split; [apply list_elem_of_In; simpl; tauto|reflexivity]))
    as (node & Hn & _ & Hs & _ & _ & Hd).
  exists node. split; [exact Hn|]. split; [symmetry; exact Hs|]. by apply (Hd 2).
Defined.
End SyntaxExample.
