(* ===== verification/Declarations.v ===== *)
(** * Declarations by name

    Models [src/src/search/declarations.rs], the ordering and naming helpers of
    [src/src/search.rs], [src/src/source/reextraction.rs] and the outline of
    extracted definitions of [src/src/search/navigation/structure_map.rs]: which
    rows answer a [sym:] name, in which order, and the same question asked of the
    bytes a file has now.  The joined rows of the index are a list; extraction,
    confined reads and BLAKE3 are parameters. *)
From Stdlib Require Import Ascii String ZArith Lia Permutation Sorted.
From stdpp Require Import base numbers list gmap strings sorting.
From S2P Require Import Prelude Order Text Ranking Identity Paths Hits PathFilter QueryShape QualifiedName Source Extract.

(** ** Ordering of declarations *)

(** [InvocationDirectory]: root-relative, empty at the root.  The argument of
    [within] is [invocation.strip_prefix(root).ok()]. *)
Abbreviation InvocationDirectory := str.
Definition trim_slashes (s : str) : str :=
  trim_end_slashes (drop_while (λ c, c =c "/"%char) s).
Definition within (relative : option str) : InvocationDirectory :=
  match relative with Some relative => trim_slashes (encode_path relative) | None => [] end.

Fixpoint shared_prefix (a b : list str) : nat :=
  match a, b with
  | x :: a', y :: b' => if x =s y then S (shared_prefix a' b') else 0
  | _, _ => 0
  end.
Definition shared_depth (origin : InvocationDirectory) (path : str) : nat :=
  match origin with
  | [] => 0
  | _ =>
      let directory := match rsplit_once "/" path with Some (directory, _) => directory | None => [] end in
      shared_prefix (split_char "/" origin) (split_char "/" directory)
  end.

Definition declaration_rank (kind : str) : nat :=
  if kind =s lit "module" then 1
  else if bool_decide (kind ∈ lit <$> ["variant"; "field"; "constructor"]%string) then 2
  else if bool_decide (kind ∈ lit <$> ["variable"; "parameter"; "import"]%string) then 3
  else 0.

Definition is_test_site (hit : Hit) : bool :=
  is_test_path (hit_path hit) ||
  match hit_container hit with
  | Some container => existsb (λ segment, (segment =s lit "tests") || (segment =s lit "test"))
                        (split_str (lit "::") container)
  | None => false
  end.

(** The order of [rank_key]: tier, test site, then the deepest shared directory. *)
Definition rank_key_compare (origin : InvocationDirectory) : Hit → Hit → comparison :=
  cmp_then (cmp_on (λ h, declaration_rank (hit_kind h)) Nat.compare)
    (cmp_then (cmp_on is_test_site bool_compare)
       (cmp_rev (cmp_on (λ h, shared_depth origin (hit_path h)) Nat.compare))).
Definition rank_declarations (hits : list Hit) (origin : InvocationDirectory) : list Hit :=
  sort_by (rank_key_compare origin) hits.

Definition span_order : Hit → Hit → comparison :=
  cmp_then (cmp_on hit_path str_compare)
    (cmp_then (cmp_on hit_start Nat.compare) (cmp_on hit_end Nat.compare)).
(** [search::rank_definitions]. *)
Definition rank_definitions (hits : list Hit) (origin : InvocationDirectory) : list Hit :=
  rank_declarations (sort_by span_order hits) origin.

(** ** Index rows *)

(** A row of [definitions] joined with its file and content. *)
Record DefinitionRow := {
  r_id : Z; r_path : str; r_revision : str; r_start : nat; r_end : nat; r_name : str;
  r_kind : str; r_container : option str; r_language : str; r_bytes : str
}.
Definition hit_row (provenance : string) (r : DefinitionRow) : Hit :=
  let lines := line_span (r_bytes r) (r_start r) (r_end r) in
  {| hit_handle := []; hit_path := r_path r; hit_revision := Some (r_revision r);
     hit_start := r_start r; hit_end := r_end r; hit_start_line := lines.1; hit_end_line := lines.2;
     hit_name := r_name r; hit_kind := r_kind r; hit_container := r_container r;
     hit_provenance := Some (lit provenance); hit_resolution := None; hit_candidates := [];
     hit_target := None; hit_snippet := None; hit_repeats := None |}.

Section Qualified.
Context `{UnicodeTables}.

(** The statement's [WHERE] and [ORDER BY]. *)
Definition row_order : DefinitionRow → DefinitionRow → comparison :=
  cmp_then (cmp_on r_path str_compare)
    (cmp_then (cmp_on r_start Nat.compare)
       (cmp_then (cmp_on r_end Nat.compare) (cmp_on r_id Z.compare))).
Definition row_selected (name : QualifiedName) (paths : BoundPathFilter) (language kind : str)
    (r : DefinitionRow) : bool :=
  (r_name r =s QualifiedName.name name) && clause_eval paths (r_path r) &&
  ((language =s []) || (r_language r =s language)) && ((kind =s []) || (r_kind r =s kind)) &&
  ((owner_hint name =s []) ||
   contains (owner_hint name)
     (default [] (r_container r) ++ lit "/" ++ replace_char "-" (lit "_") (r_path r))).
Definition selected_rows (name : QualifiedName) (paths : BoundPathFilter) (language kind : str)
    (max_hits : nat) (rows : list DefinitionRow) : list DefinitionRow :=
  let rows := sort_by row_order (List.filter (row_selected name paths language kind) rows) in
  if is_qualified name then rows else take (max_hits + 1) rows.

(** One row of the loop; [None] for the state after it is the [break]. *)
Definition tier_gt (a b : QualifierMatch) : bool :=
  match a, b with Subsequence, Suffix => true | _, _ => false end.
Record TierState := { t_hits : list Hit; t_best : option QualifierMatch; t_truncated : bool }.
Definition offer_hit (name : QualifiedName) (cap : nat) (tier : QualifierMatch) (hit : Hit)
    (st : TierState) : TierState * bool :=
  if length (t_hits st) =? cap then
    ({| t_hits := t_hits st; t_best := t_best st; t_truncated := true |},
     negb (is_qualified name) || bool_decide (tier = Suffix))
  else ({| t_hits := t_hits st ++ [hit]; t_best := t_best st; t_truncated := t_truncated st |}, false).
Definition tier_step (name : QualifiedName) (cap : nat) (r : DefinitionRow) (st : TierState)
    : TierState * bool :=
  let hit := hit_row "exact_identifier" r in
  match qualified_matches name (hit_path hit) (hit_container hit) with
  | None => (st, false)
  | Some tier =>
      match t_best st with
      | Some previous =>
          if tier_gt tier previous then (st, false)
          else if tier_gt previous tier then
            offer_hit name cap tier hit {| t_hits := []; t_best := Some tier; t_truncated := false |}
          else offer_hit name cap tier hit st
      | None =>
          offer_hit name cap tier hit
            {| t_hits := t_hits st; t_best := Some tier; t_truncated := t_truncated st |}
      end
  end.
Fixpoint tier_loop (name : QualifiedName) (cap : nat) (rows : list DefinitionRow) (st : TierState)
    : TierState :=
  match rows with
  | [] => st
  | r :: rows' =>
      let '(st, stop) := tier_step name cap r st in
      if stop : bool then st else tier_loop name cap rows' st
  end.

Definition qualified_hits_with_limit (name : QualifiedName) (paths : BoundPathFilter)
    (language kind : str) (max_hits : nat) (rows : list DefinitionRow) : LaneHits :=
  let st := tier_loop name (max_hits + 1) (selected_rows name paths language kind max_hits rows)
              {| t_hits := []; t_best := None; t_truncated := false |} in
  {| lane_hits := take max_hits (t_hits st);
     lane_truncated := t_truncated st || (max_hits <? length (t_hits st)) |}.

Definition declaration_hits (query : Query) (paths : BoundPathFilter) (max_hits : nat)
    (rows : list DefinitionRow) : LaneHits :=
  qualified_hits_with_limit (qualified_parse (text query)) paths (QueryShape.language query)
    (kind query) max_hits rows.

(** [search::names_definition]. *)
Definition names_definition (query : Query) (path : str) (d : DefinitionFact) : bool :=
  let name := qualified_parse (text query) in
  (df_name d =s QualifiedName.name name) && ((kind query =s []) || (df_kind d =s kind query)) &&
  (negb (is_qualified name) || bool_decide (is_Some (qualified_matches name path (df_container d)))).
End Qualified.

(** ** Definitions of the bytes a file has now *)

(** A failed read or extraction: the index excludes the file, its definitions are
    unknown, it is gone, or something else. *)
Inductive ReadError := SourceExcluded | ExtractionUnavailable | PathMissing | OtherRead.

Definition usable_extraction (e : FileExtraction) : FileExtraction + ReadError :=
  let factless_failure := bool_decide (ex_definitions e = []) &&
    negb ((ex_status e =s lit "complete") || (ex_status e =s lit "lexical_only")) in
  if (ex_status e =s lit "cancelled") || factless_failure then inr ExtractionUnavailable else inl e.

Definition reextracted_hit (path bytes revision : str) (d : DefinitionFact) : Hit :=
  let lines := line_span bytes (df_start d) (df_end d) in
  {| hit_handle := []; hit_path := path; hit_revision := Some revision; hit_start := df_start d;
     hit_end := df_end d; hit_start_line := lines.1; hit_end_line := lines.2; hit_name := df_name d;
     hit_kind := df_kind d; hit_container := df_container d; hit_provenance := Some (lit "reextracted");
     hit_resolution := None; hit_candidates := []; hit_target := None; hit_snippet := None;
     hit_repeats := None |}.

Definition OUTLINE_KINDS : list string :=
  ["addon"; "module"; "namespace"; "struct"; "class"; "trait"; "type"; "enum"; "impl"; "interface";
   "record"; "delegate"; "xenforo_class_extension"; "function"; "method"; "constructor"; "property";
   "field"; "event"; "constant"; "enum_case"; "variant"; "macro"]%string.
Definition FOLDED_KINDS : list string :=
  ["field"; "enum_case"; "variant"; "property"; "event"; "module"]%string.
(** [extract::FOREIGN_ITEM_CONTAINER]. *)
Definition FOREIGN_ITEM_CONTAINER : str := lit "extern block".
Definition kind_in (kinds : list string) (kind : str) : bool := bool_decide (kind ∈ lit <$> kinds).
Definition outline_extracted (definitions : list DefinitionFact) : list DefinitionFact :=
  sort_by (cmp_then (cmp_on (λ d, kind_in FOLDED_KINDS (df_kind d)) bool_compare) (cmp_on df_start Nat.compare))
    (List.filter (λ d, kind_in OUTLINE_KINDS (df_kind d) &&
                       negb (bool_decide (df_container d = Some FOREIGN_ITEM_CONTAINER))) definitions).

Section Current.
Context `{UnicodeTables, Blake3}.
(** [source::read_contained] of a decoded path and [extract::extract]. *)
Context (read_contained : str → str + ReadError) (extract : str → str → FileExtraction).

Definition read_text (path : str) : str + ReadError :=
  match decode_path path with
  | Err _ => inr OtherRead
  | Ok decoded =>
      match read_contained decoded with
      | inl bytes => if bool_decide (chr 0 ∈ bytes) then inr SourceExcluded else inl bytes
      | inr e => inr e
      end
  end.
Definition extraction_of (path : str) : (str * FileExtraction) + ReadError :=
  match read_text path with
  | inr e => inr e
  | inl bytes =>
      match usable_extraction (extract path bytes) with
      | inl e => inl (bytes, e)
      | inr e => inr e
      end
  end.

(** [worktree_reads::file_definitions] and [reextracted_map]. *)
Definition file_definitions (query : Query) (path : str) : list Hit + ReadError :=
  match extraction_of path with
  | inr e => inr e
  | inl (bytes, e) =>
      let revision := revision_to_hex (revision_of bytes) in
      inl (reextracted_hit path bytes revision <$>
             List.filter (names_definition query path) (ex_definitions e))
  end.
Definition reextracted_map (path : str) : option (list Hit) :=
  match extraction_of path with
  | inr _ => None
  | inl (bytes, e) =>
      Some (reextracted_hit path bytes (revision_to_hex (revision_of bytes)) <$>
              outline_extracted (ex_definitions e))
  end.

(** [reextract_definition]: the same named definition nearest its recorded line. *)
Definition abs_diff (a b : nat) : nat := (a - b) + (b - a).
Definition same_definition (hit : Hit) (d : DefinitionFact) : bool :=
  (df_name d =s hit_name hit) && ((hit_kind hit =s []) || (df_kind d =s hit_kind hit)) &&
  bool_decide (df_container d = hit_container hit).
Definition nearness (hit : Hit) (bytes : str) (d : DefinitionFact) : nat * nat :=
  (abs_diff (line_at bytes (df_start d)) (hit_start_line hit), df_start d).
Definition nearer (hit : Hit) (bytes : str) (a b : DefinitionFact) : bool :=
  let '(da, sa) := nearness hit bytes a in
  let '(db, sb) := nearness hit bytes b in
  (da <? db) || ((da =? db) && (sa <? sb)).
(** [min_by_key]: the first of equal elements. *)
Definition nearest_definition (hit : Hit) (bytes : str) (ds : list DefinitionFact)
    : option DefinitionFact :=
  foldl (λ best d, match best with
                   | None => Some d
                   | Some b => if nearer hit bytes d b then Some d else best
                   end) None ds.
Definition reextract_definition (hit : Hit) : option Hit + ReadError :=
  match extraction_of (hit_path hit) with
  | inr e => inr e
  | inl (bytes, e) =>
      match nearest_definition hit bytes (List.filter (same_definition hit) (ex_definitions e)) with
      | None => inl None
      | Some d =>
          match s ← ByteSpan.new (df_start d) (df_end d); ByteSpan.validate s (length bytes) with
          | Ok _ => inl (Some (reextracted_hit (hit_path hit) bytes (revision_to_hex (revision_of bytes)) d))
          | Err _ => inr OtherRead
          end
      end
  end.
End Current.

(** ** One ordering for index rows and re-extracted definitions *)

Lemma insert_by_then {A} (c d : A → A → comparison) `{!Comparator c, !Comparator d} x l :
  StronglySorted (cmp_le (cmp_then c d)) l → Forall (cmp_le d x) l →
  StronglySorted (cmp_le (cmp_then c d)) (insert_by c x l).
Proof.
  assert (∀ a b, cmp_le (cmp_then c d) a b → cmp_le c a b) as Hfst.
  { intros a b. unfold cmp_le, cmp_then, then_with. by destruct (c a b). }
  assert (∀ a b, cmp_le c a b → cmp_le d a b → cmp_le (cmp_then c d) a b) as Hboth.
  { intros a b. unfold cmp_le, cmp_then, then_with. by destruct (c a b). }
  induction 1 as [|y l Hl IH Hy]; intros Hx; cbn [insert_by]; [by repeat constructor|].
  assert (cmp_le c x y → StronglySorted (cmp_le (cmp_then c d)) (x :: y :: l)) as Hfront.
  { intros Hle. constructor; [by constructor|]. apply Forall_cons in Hx as [Hxy Hx].
    constructor; [by apply Hboth|]. rewrite Forall_forall in *. intros z Hz.
    apply Hboth; [|by apply Hx]. transitivity y; [done|]. by apply Hfst, Hy. }
  destruct (c x y) eqn:E; [apply Hfront; unfold cmp_le; congruence..|].
  apply Forall_cons in Hx as [_ Hx]. constructor; [by apply IH|].
  rewrite insert_by_perm. constructor; [|done].
  unfold cmp_le, cmp_then, then_with. by rewrite (cmp_opp c x y), E.
Qed.

Lemma sort_by_then {A} (c d : A → A → comparison) `{!Comparator c, !Comparator d} l :
  StronglySorted (cmp_le (cmp_then c d)) (sort_by c (sort_by d l)).
Proof.
  pose proof (sort_by_sorted d l) as Hs. revert Hs. generalize (sort_by d l) as s. clear l.
  induction 1 as [|x s Hs IH Hx]; cbn [sort_by]; [constructor|].
  apply (insert_by_then c d); [done|]. by rewrite sort_by_perm.
Qed.

#[export] Instance rank_key_comparator origin : Comparator (rank_key_compare origin).
Proof. unfold rank_key_compare. apply _. Qed.
#[export] Instance span_order_comparator : Comparator span_order.
Proof. unfold span_order. apply _. Qed.

(** [rank_definitions] orders by kind tier, test site, nearness, then path and
    span, whatever order the hits came in. *)
Lemma rank_definitions_sorted hits origin :
  rank_definitions hits origin ≡ₚ hits ∧
  StronglySorted (cmp_le (cmp_then (rank_key_compare origin) span_order)) (rank_definitions hits origin).
Proof.
  split; [unfold rank_definitions, rank_declarations; by rewrite !sort_by_perm|].
  apply (sort_by_then (rank_key_compare origin) span_order).
Qed.

(** ** The closest tier *)

Section TierFacts.
Context `{UnicodeTables} (name : QualifiedName).

Definition row_tier (r : DefinitionRow) : option QualifierMatch :=
  qualified_matches name (r_path r) (r_container r).
Definition tier_rows (tier : QualifierMatch) (rows : list DefinitionRow) : list DefinitionRow :=
  List.filter (λ r, bool_decide (row_tier r = Some tier)) rows.
(** The rows of the closest tier that occurs. *)
Definition best_rows (rows : list DefinitionRow) : list DefinitionRow :=
  match tier_rows Suffix rows with [] => tier_rows Subsequence rows | suffix => suffix end.
Definition best_tier (rows : list DefinitionRow) : option QualifierMatch :=
  match tier_rows Suffix rows, tier_rows Subsequence rows with
  | _ :: _, _ => Some Suffix
  | [], _ :: _ => Some Subsequence
  | [], [] => None
  end.

Lemma unqualified_tier r : is_qualified name = false → row_tier r = Some Suffix.
Proof.
  unfold is_qualified, row_tier, qualified_matches. intros Hq. bool_to_prop.
  rewrite bool_decide_eq_true_2; [done|]. done.
Qed.

Definition hits_of (rows : list DefinitionRow) : list Hit := hit_row "exact_identifier" <$> rows.
Definition state_of (cap : nat) (pre : list DefinitionRow) : TierState :=
  {| t_hits := hits_of (take cap (best_rows pre)); t_best := best_tier pre;
     t_truncated := cap <? length (best_rows pre) |}.

Lemma tier_rows_snoc tier pre r :
  tier_rows tier (pre ++ [r]) = tier_rows tier pre ++ (if bool_decide (row_tier r = Some tier) then [r] else []).
Proof. unfold tier_rows. rewrite List.filter_app. cbn. by case_bool_decide. Qed.

(** Offering a row of the best tier to a state that holds the rows before it. *)
Lemma offer_spec cap tier best r st :
  0 < cap → t_hits st = hits_of (take cap best) → t_truncated st = (cap <? length best) →
  let '(st', stop) := offer_hit name cap tier (hit_row "exact_identifier" r) st in
  t_hits st' = hits_of (take cap (best ++ [r])) ∧ t_best st' = t_best st ∧
  t_truncated st' = (cap <? length (best ++ [r])) ∧
  (stop = true → cap < length (best ++ [r]) ∧ (is_qualified name = false ∨ tier = Suffix)).
Proof.
  intros Hcap Hh Ht. unfold offer_hit. rewrite Hh. unfold hits_of.
  rewrite length_fmap, length_take, length_app. cbn [length].
  destruct (Nat.eqb_spec (Nat.min cap (length best)) cap) as [He|Hne]; cbn [t_hits t_best t_truncated].
  - rewrite take_app_le by lia. split_and!; [done|done|symmetry; apply Nat.ltb_lt; lia|].
    intros Hs. split; [lia|]. apply orb_true_iff in Hs as [Hs|Hs]; bool_to_prop; auto.
  - rewrite !take_ge by (rewrite ?length_app; cbn; lia). rewrite fmap_app. split_and!; [done..| |done].
    rewrite Ht. transitivity false; [apply Nat.ltb_ge; lia|symmetry; apply Nat.ltb_ge; lia].
Qed.

Lemma tier_rows_app tier a b : tier_rows tier (a ++ b) = tier_rows tier a ++ tier_rows tier b.
Proof. apply List.filter_app. Qed.

Lemma best_rows_suffix pre rest :
  best_tier pre = Some Suffix → best_rows (pre ++ rest) = best_rows pre ++ tier_rows Suffix rest.
Proof.
  unfold best_tier, best_rows. rewrite tier_rows_app.
  destruct (tier_rows Suffix pre) as [|x l]; [|done]. by destruct (tier_rows Subsequence pre).
Qed.

(** How one row changes the best rows and their tier. *)
Lemma best_rows_step pre r :
  match row_tier r, best_tier pre with
  | None, _ => best_rows (pre ++ [r]) = best_rows pre ∧ best_tier (pre ++ [r]) = best_tier pre
  | Some Subsequence, Some Suffix =>
      best_rows (pre ++ [r]) = best_rows pre ∧ best_tier (pre ++ [r]) = best_tier pre
  | Some Suffix, Some Subsequence =>
      best_rows (pre ++ [r]) = [r] ∧ best_tier (pre ++ [r]) = Some Suffix
  | Some tier, Some _ =>
      best_rows (pre ++ [r]) = best_rows pre ++ [r] ∧ best_tier (pre ++ [r]) = Some tier
  | Some tier, None => best_rows (pre ++ [r]) = [r] ∧ best_rows pre = [] ∧ best_tier (pre ++ [r]) = Some tier
  end.
Proof.
  unfold best_rows, best_tier. rewrite !tier_rows_snoc.
  destruct (row_tier r) as [[]|]; cbn [bool_decide decide_rel]; 
    repeat (rewrite bool_decide_eq_true_2 by done || rewrite bool_decide_eq_false_2 by done);
    rewrite ?app_nil_r;
    destruct (tier_rows Suffix pre) as [|x l], (tier_rows Subsequence pre) as [|y m]; done.
Qed.

Lemma best_tier_none pre : best_tier pre = None → best_rows pre = [].
Proof.
  unfold best_tier, best_rows. destruct (tier_rows Suffix pre); [|done].
  by destruct (tier_rows Subsequence pre).
Qed.

Lemma tier_step_spec cap pre r :
  0 < cap →
  let '(st, stop) := tier_step name cap r (state_of cap pre) in
  st = state_of cap (pre ++ [r]) ∧
  (stop = true → cap < length (best_rows (pre ++ [r])) ∧ best_tier (pre ++ [r]) = Some Suffix).
Proof.
  intros Hcap. pose proof (best_rows_step pre r) as Hb. unfold tier_step.
  change (qualified_matches name (hit_path (hit_row "exact_identifier" r))
    (hit_container (hit_row "exact_identifier" r))) with (row_tier r).
  assert (∀ tier best st, row_tier r = Some tier →
    t_hits st = hits_of (take cap best) → t_truncated st = (cap <? length best) →
    t_best st = Some tier → best_rows (pre ++ [r]) = best ++ [r] → best_tier (pre ++ [r]) = Some tier →
    let '(st', stop) := offer_hit name cap tier (hit_row "exact_identifier" r) st in
    st' = state_of cap (pre ++ [r]) ∧
    (stop = true → cap < length (best_rows (pre ++ [r])) ∧ best_tier (pre ++ [r]) = Some Suffix)) as Hoffer.
  { intros tier best st Hr Hh Ht Hbest Hrows Htier.
    pose proof (offer_spec cap tier best r st Hcap Hh Ht) as Ho.
    destruct (offer_hit _ _ _ _ st) as [[h b t] stop]. cbn in Ho. destruct Ho as (-> & -> & -> & Hs).
    unfold state_of. rewrite Hrows, Htier, Hbest. split; [done|]. intros Hstop.
    destruct (Hs Hstop) as [Hlt [Hq| ->]]; (split; [done|]); [|done].
    rewrite (unqualified_tier r Hq) in Hr. congruence. }
  destruct (row_tier r) as [tier|] eqn:Hr.
  2: { destruct Hb as [Hb1 Hb2]. unfold state_of. by rewrite Hb1, Hb2. }
  cbn [state_of t_best]. destruct (best_tier pre) as [previous|] eqn:Hp.
  - destruct tier, previous; cbn [tier_gt]; cbn beta iota in Hb.
    + destruct Hb as [Hb1 Hb2]. by apply (Hoffer Suffix (best_rows pre)).
    + destruct Hb as [Hb1 Hb2]. apply (Hoffer Suffix []); rewrite ?take_nil; done.
    + destruct Hb as [Hb1 Hb2]. unfold state_of. by rewrite Hb1, Hb2, Hp.
    + destruct Hb as [Hb1 Hb2]. by apply (Hoffer Subsequence (best_rows pre)).
  - assert (best_rows pre = [] ∧ best_rows (pre ++ [r]) = [r] ∧ best_tier (pre ++ [r]) = Some tier)
      as (Hn & Hb1 & Hb2) by (destruct tier; destruct Hb as (? & ? & ?); done).
    apply (Hoffer tier []); unfold state_of; rewrite ?Hn, ?take_nil; done.
Qed.

Lemma tier_loop_spec cap rows pre :
  0 < cap →
  let out := tier_loop name cap rows (state_of cap pre) in
  t_hits out = hits_of (take cap (best_rows (pre ++ rows))) ∧
  t_truncated out = (cap <? length (best_rows (pre ++ rows))).
Proof.
  intros Hcap. revert pre. induction rows as [|r rows IH]; intros pre; cbn [tier_loop].
  { by rewrite app_nil_r. }
  pose proof (tier_step_spec cap pre r Hcap) as Hstep.
  destruct (tier_step name cap r _) as [st stop]. destruct Hstep as [-> Hstop].
  destruct stop.
  - destruct (Hstop eq_refl) as [Hlen Hbest]. replace (pre ++ r :: rows) with ((pre ++ [r]) ++ rows) by by rewrite <- app_assoc.
    rewrite (best_rows_suffix _ rows) by done. cbn [state_of t_hits t_truncated].
    rewrite take_app_le by lia. split; [done|].
    rewrite length_app, !(proj2 (Nat.ltb_lt _ _)) by lia. done.
  - replace (pre ++ r :: rows) with ((pre ++ [r]) ++ rows) by by rewrite <- app_assoc.
    apply IH.
Qed.
End TierFacts.

(** C28. Looking up a declaration: the hits are the first [max_hits] rows, in path and
    span order, of the closest qualifier tier that any selected row has, and the
    answer is marked truncated exactly when that tier has more rows; the early
    exits of the loop and the statement's limit lose nothing. *)
Theorem qualified_hits_exact `{UnicodeTables} (name : QualifiedName) (paths : BoundPathFilter)
    (language kind : str) (max_hits : nat) (rows : list DefinitionRow) :
  let best := best_rows name (sort_by row_order (List.filter (row_selected name paths language kind) rows)) in
  qualified_hits_with_limit name paths language kind max_hits rows
    = {| lane_hits := hits_of (take max_hits best); lane_truncated := max_hits <? length best |}.
Proof.
  intros best. unfold qualified_hits_with_limit. set (sel := selected_rows _ _ _ _ _ _).
  pose proof (tier_loop_spec name (max_hits + 1) sel [] ltac:(lia)) as [Hh Ht]. cbn [app] in Hh, Ht.
  assert (state_of name (max_hits + 1) [] = {| t_hits := []; t_best := None; t_truncated := false |}) as Hinit
    by (unfold state_of; change (best_rows name []) with (@nil DefinitionRow); by rewrite take_nil).
  rewrite Hinit in Hh, Ht.
  rewrite Hh, Ht. unfold hits_of. rewrite length_fmap, length_take.
  assert (take (max_hits + 1) (best_rows name sel) = take (max_hits + 1) best ∧
    (max_hits <? length (best_rows name sel)) = (max_hits <? length best)) as [Htake Hlen].
  { unfold sel, selected_rows, best. destruct (is_qualified name) eqn:Hq; [done|].
    set (all := sort_by row_order _).
    assert (∀ l, best_rows name l = l) as Hall.
    { intros l. assert (tier_rows name Suffix l = l) as Hl.
      { unfold tier_rows. apply List.forallb_filter_id, List.forallb_forall. intros r _.
        apply bool_decide_eq_true, unqualified_tier, Hq. }
      unfold best_rows. rewrite Hl. destruct l; [|done].
      unfold tier_rows. done. }
    rewrite !Hall, length_take, take_take, Nat.min_id. split; [done|].
    destruct (Nat.ltb_spec max_hits (length all)); [apply Nat.ltb_lt|apply Nat.ltb_ge]; lia. }
  f_equal.
  - rewrite <- fmap_take, Htake, take_take. f_equal. f_equal. lia.
  - rewrite <- Hlen. destruct (Nat.ltb_spec max_hits (length (best_rows name sel))) as [?|?].
    + rewrite (proj2 (Nat.ltb_lt max_hits (Nat.min _ _))) by lia. apply orb_true_r.
    + rewrite (proj2 (Nat.ltb_ge max_hits (Nat.min _ _))) by lia.
      rewrite orb_false_r. apply Nat.ltb_ge. lia.
Qed.

(** ** The nearest definition *)

Lemma nearer_spec hit bytes a b :
  nearer hit bytes a b = true ↔
  (nearness hit bytes a).1 < (nearness hit bytes b).1 ∨
  (nearness hit bytes a).1 = (nearness hit bytes b).1 ∧ (nearness hit bytes a).2 < (nearness hit bytes b).2.
Proof.
  unfold nearer. destruct (nearness hit bytes a) as [da sa], (nearness hit bytes b) as [db sb].
  cbn [fst snd].
  rewrite orb_true_iff, andb_true_iff, !Nat.ltb_lt, Nat.eqb_eq. done.
Qed.

Lemma nearest_definition_spec hit bytes ds d :
  nearest_definition hit bytes ds = Some d →
  d ∈ ds ∧ ∀ o, o ∈ ds → nearer hit bytes o d = false.
Proof.
  unfold nearest_definition. set (step := λ best x, _).
  assert (∀ ds seen best, (best = None → seen = []) →
    (∀ b, best = Some b → b ∈ seen ∧ ∀ o, o ∈ seen → nearer hit bytes o b = false) →
    ∀ d, foldl step best ds = Some d → d ∈ seen ++ ds ∧ ∀ o, o ∈ seen ++ ds → nearer hit bytes o d = false) as Hgo.
  { clear. induction ds as [|x ds IH]; intros seen best Hnone Hsome d Hd; cbn [foldl] in Hd.
    { rewrite app_nil_r. by apply Hsome. }
    rewrite cons_middle, app_assoc. apply (IH (seen ++ [x]) (step best x)); [| |done].
    - unfold step. destruct best as [b|]; [|done]. by destruct (nearer hit bytes x b).
    - intros b Hb. unfold step in Hb. destruct best as [b0|].
      + destruct (Hsome b0 eq_refl) as [Hin Hmin]. destruct (nearer hit bytes x b0) eqn:Hx; injection Hb as <-.
        * split; [set_solver|]. intros o [Ho| ->%list_elem_of_singleton]%elem_of_app.
          -- apply not_true_is_false. specialize (Hmin o Ho). apply not_true_iff_false in Hmin.
             rewrite nearer_spec in *. lia.
          -- apply not_true_is_false. rewrite nearer_spec. lia.
        * split; [set_solver|]. intros o [Ho| ->%list_elem_of_singleton]%elem_of_app; auto.
      + injection Hb as <-. rewrite (Hnone eq_refl). split; [set_solver|].
        intros o Ho%list_elem_of_singleton. subst o. apply not_true_is_false. rewrite nearer_spec. lia. }
  intros Hd. by apply (Hgo ds [] None).
Qed.

(** Re-extracting a definition gives one of the file's current bytes with the
    recorded name, kind and container, the nearest to the recorded line and the
    earliest of equally near ones, with a span inside the bytes. *)
Theorem reextract_nearest `{UnicodeTables, Blake3} (read_contained : str → str + ReadError)
    (extract : str → str → FileExtraction) (hit out : Hit) :
  reextract_definition read_contained extract hit = inl (Some out) →
  ∃ bytes e d, extraction_of read_contained extract (hit_path hit) = inl (bytes, e) ∧
    d ∈ ex_definitions e ∧ same_definition hit d = true ∧
    out = reextracted_hit (hit_path hit) bytes (revision_to_hex (revision_of bytes)) d ∧
    df_start d ≤ df_end d ≤ length bytes ∧
    ∀ o, o ∈ ex_definitions e → same_definition hit o = true → nearer hit bytes o d = false.
Proof.
  unfold reextract_definition. destruct (extraction_of _ _ _) as [[bytes e]|]; [|done].
  destruct (nearest_definition _ _ _) as [d|] eqn:Hn; [|done].
  apply nearest_definition_spec in Hn as [Hin Hmin].
  rewrite list_elem_of_In in Hin. apply List.filter_In in Hin as [Hin Hsame].
  rewrite <- list_elem_of_In in Hin.
  destruct (ByteSpan.new _ _ ≫= _) as [s|] eqn:Hs; [|done]. intros [= <-].
  apply bind_Ok in Hs as (s0 & Hnew & Hval). apply ByteSpan.new_Ok in Hnew as [? ->].
  apply ByteSpan.validate_Ok in Hval as [_ [_ ?]].
  exists bytes, e, d. split_and!; [done..|].
  intros o Ho Hso. apply Hmin. rewrite list_elem_of_In. apply List.filter_In.
  by rewrite <- list_elem_of_In.
Qed.
