(* ===== verification/HomeIndex.v ===== *)
(** * Answering for a linked worktree from its parent's index

    Models [src/src/workspace/home_index/worktree_divergence.rs],
    [hit_verification.rs] and [worktree_reads.rs]: the files a worktree may differ
    in, the bounded hash checks that catch what Git misses, and the completion of
    a parent answer with definitions re-extracted from the worktree's bytes.  Git
    probes, confined reads, extraction, BLAKE3 and the stored JSON are parameters;
    the threads that run the probes concurrently only join their outputs. *)
From Stdlib Require Import Ascii String ZArith Lia Permutation.
From stdpp Require Import base numbers list gmap strings sorting.
From S2P Require Import Prelude Order Text Ranking Identity Paths Hits PathFilter QueryShape QualifiedName Source Extract Declarations.

(** ** Divergence *)

Definition DIVERGENCE_REUSE_MS : Z := 5000.

Record WorktreeDivergence := { dv_paths : gset str; dv_complete : bool }.
Definition dv_contains (d : WorktreeDivergence) (path : str) : bool := bool_decide (path ∈ dv_paths d).
(** The paths in the order of the [BTreeSet]. *)
Definition dv_listed (d : WorktreeDivergence) : list str := sort_by str_compare (elements (dv_paths d)).

Record DivergenceKey := {
  parent_head : str; worktree_head : str; parent_git_index : option (Z * Z * Z);
  worktree_git_index : option (Z * Z * Z); parent_generation : Z
}.
#[export] Instance divergence_key_eq_dec : EqDecision DivergenceKey.
Proof. solve_decision. Defined.
Record StoredDivergence := { sd_key : DivergenceKey; sd_computed_ms : Z; sd_divergence : WorktreeDivergence }.

(** The paths of one probe's output, NUL-separated. *)
Definition probe_paths (output : str) : list str :=
  encode_path <$> List.filter (λ path, negb (path =s [])) (split_char (chr 0) output).
(** [compute], from the outputs of its four probes. *)
Definition compute (listed : list (option str)) : WorktreeDivergence :=
  {| dv_paths := list_to_set (omap id listed ≫= probe_paths);
     dv_complete := forallb (λ output, bool_decide (is_Some output)) listed |}.

Section Divergence.
(** [head_and_index] of the two checkouts and the probes; the first probe runs
    only when the parent's head is known. *)
Context (parent worktree : option (str * option (Z * Z * Z))) (generation now : Z).
Context (probe_diff : str → option str) (probes : list (option str)).

Definition run_probes (head : option str) : WorktreeDivergence :=
  compute ((head ≫= probe_diff) :: probes).
Definition divergence_key : option DivergenceKey :=
  match parent, worktree with
  | Some (ph, pi), Some (wh, wi) =>
      Some {| parent_head := ph; worktree_head := wh; parent_git_index := pi;
              worktree_git_index := wi; parent_generation := generation |}
  | _, _ => None
  end.

(** [load_or_compute] with the stored file, and what it stores. *)
Definition load_or_compute (stored : option StoredDivergence)
    : WorktreeDivergence * option StoredDivergence :=
  match divergence_key with
  | None =>
      ({| dv_paths := dv_paths (run_probes (fst <$> parent)); dv_complete := false |}, stored)
  | Some key =>
      let fresh :=
        let d := run_probes (Some (parent_head key)) in
        (d, Some {| sd_key := key; sd_computed_ms := now; sd_divergence := d |}) in
      match stored with
      | Some s =>
          if bool_decide (sd_key s = key) &&
             (saturating_sub now (sd_computed_ms s) <=? DIVERGENCE_REUSE_MS)%Z
          then (sd_divergence s, stored) else fresh
      | None => fresh
      end
  end.
(** [refresh] never reads the stored file. *)
Definition refresh (stored : option StoredDivergence) : WorktreeDivergence * option StoredDivergence :=
  match divergence_key with
  | None =>
      ({| dv_paths := dv_paths (run_probes (fst <$> parent)); dv_complete := false |}, stored)
  | Some key =>
      let d := run_probes (Some (parent_head key)) in
      (d, Some {| sd_key := key; sd_computed_ms := now; sd_divergence := d |})
  end.
End Divergence.

(** ** Hash checks *)

Definition MAX_VERIFIED_FILES : nat := 128.
Definition MAX_REEXTRACTED_FILES : nat := 64.

Abbreviation WorktreeHashes := (gmap str bool).
Definition reads_current_bytes (hit : Hit) : bool :=
  bool_decide (hit_provenance hit = Some (lit "live_regex")) ||
  bool_decide (hit_provenance hit = Some (lit "reextracted")).

Section Verify.
Context `{UnicodeTables, Blake3}.
Context (read_contained : str → str + ReadError) (extract : str → str → FileExtraction).

Definition worktree_matches (path : str) (revision : option str) : bool :=
  match revision ≫= revision_from_hex with
  | None => false
  | Some expected =>
      match decode_path path with
      | Err _ => false
      | Ok relative =>
          match read_contained relative with
          | inl bytes => revision_of bytes =s expected
          | inr _ => false
          end
      end
  end.

(** [WorktreeHashes::check]. *)
Definition check (path : str) (revision : option str) (h : WorktreeHashes)
    : option bool * WorktreeHashes :=
  match h !! path with
  | Some found => (Some found, h)
  | None =>
      if MAX_VERIFIED_FILES <=? size h then (None, h)
      else
        let found := worktree_matches path revision in
        (Some found, <[path := found]> h)
  end.

(** [ParentFallback::check_hits]. *)
Definition check_hit (divergence : WorktreeDivergence) (st : gset str * WorktreeHashes) (hit : Hit)
    : gset str * WorktreeHashes :=
  if reads_current_bytes hit || bool_decide (hit_path hit ∈ st.1) then st
  else
    let '(found, h) := check (hit_path hit) (hit_revision hit) st.2 in
    let differs := match found with
      | Some found => negb found
      | None => dv_contains divergence (hit_path hit) || negb (dv_complete divergence)
      end in
    (if differs then {[hit_path hit]} ∪ st.1 else st.1, h).
Definition check_hits (divergence : WorktreeDivergence) (hits : list Hit) (h : WorktreeHashes)
    (changed : gset str) : gset str * WorktreeHashes :=
  foldl (check_hit divergence) (changed, h) hits.

(** [DifferingFiles::flags] and [ParentFallback::known_differing]. *)
Definition flags (differing : gset str) (hit : Hit) : bool :=
  negb (reads_current_bytes hit) && bool_decide (hit_path hit ∈ differing).
Definition known_differing (divergence : WorktreeDivergence) (differing : gset str) : option nat :=
  if dv_complete divergence
  then Some (size (dv_paths divergence) + size (differing ∖ dv_paths divergence)) else None.

(** ** Worktree answers to [sym:] *)

Record WorktreeSymbols := {
  sy_hits : list Hit; sy_changed : gset str; sy_incomplete : bool;
  sy_unsearched : nat; sy_exact : bool
}.

Definition query_admits_path (query : Query) (paths : option BoundPathFilter) (path : str) : bool :=
  match paths with Some paths => bound_matches paths path | None => true end &&
  ((QueryShape.language query =s []) || (Extract.language path =s QueryShape.language query)).

(** Choosing the changed files: divergent ones first, then files of parent hits. *)
Record Selection := {
  sl_changed : list str; sl_beyond : gset str; sl_incomplete : bool; sl_unsearched : nat;
  sl_exact : bool; sl_hashes : WorktreeHashes
}.
Definition start_selection (d : WorktreeDivergence) (divergent : list str) (h : WorktreeHashes)
    : Selection :=
  let changed := take MAX_REEXTRACTED_FILES divergent in
  {| sl_changed := changed; sl_beyond := list_to_set (drop MAX_REEXTRACTED_FILES divergent);
     sl_incomplete := negb (dv_complete d) || (length changed <? length divergent);
     sl_unsearched := length divergent - length changed; sl_exact := dv_complete d;
     sl_hashes := h |}.
(** The loop over the parent's hits; [selected] is the set of [sl_changed]. *)
Fixpoint select_hits (parent : list Hit) (s : Selection) : Selection :=
  match parent with
  | [] => s
  | hit :: parent' =>
      if bool_decide (hit_path hit ∈ sl_changed s) then select_hits parent' s
      else
        let '(found, h) := check (hit_path hit) (hit_revision hit) (sl_hashes s) in
        match found with
        | Some false =>
            if length (sl_changed s) <? MAX_REEXTRACTED_FILES then
              select_hits parent'
                {| sl_changed := sl_changed s ++ [hit_path hit]; sl_beyond := sl_beyond s;
                   sl_incomplete := sl_incomplete s; sl_unsearched := sl_unsearched s;
                   sl_exact := sl_exact s; sl_hashes := h |}
            else
              select_hits parent'
                {| sl_changed := sl_changed s; sl_beyond := {[hit_path hit]} ∪ sl_beyond s;
                   sl_incomplete := true;
                   sl_unsearched := sl_unsearched s + (if bool_decide (hit_path hit ∈ sl_beyond s) then 0 else 1);
                   sl_exact := sl_exact s; sl_hashes := h |}
        | Some true =>
            select_hits parent'
              {| sl_changed := sl_changed s; sl_beyond := sl_beyond s; sl_incomplete := sl_incomplete s;
                 sl_unsearched := sl_unsearched s; sl_exact := sl_exact s; sl_hashes := h |}
        | None =>
            {| sl_changed := sl_changed s; sl_beyond := sl_beyond s; sl_incomplete := true;
               sl_unsearched := sl_unsearched s; sl_exact := false; sl_hashes := h |}
        end
  end.

(** Re-extracting them: what replaced the parent's hits, what could not be read,
    and the current definitions. *)
Record Reextraction := { rx_replaced : gset str; rx_failed : gset str; rx_current : list Hit }.
Definition reextract_step (query : Query) (r : Reextraction) (path : str) : Reextraction :=
  match file_definitions read_contained extract query path with
  | inl hits => {| rx_replaced := {[path]} ∪ rx_replaced r; rx_failed := rx_failed r;
                   rx_current := rx_current r ++ hits |}
  | inr PathMissing => {| rx_replaced := {[path]} ∪ rx_replaced r; rx_failed := rx_failed r;
                          rx_current := rx_current r |}
  | inr _ => {| rx_replaced := rx_replaced r; rx_failed := {[path]} ∪ rx_failed r;
                rx_current := rx_current r |}
  end.
Definition reextract_all (query : Query) (changed : list str) : Reextraction :=
  foldl (reextract_step query) {| rx_replaced := ∅; rx_failed := ∅; rx_current := [] |} changed.
(** [unsearched_paths += 1] for each file that failed. *)
Definition searched (query : Query) (path : str) : bool :=
  match file_definitions read_contained extract query path with
  | inl _ | inr PathMissing => true
  | inr _ => false
  end.
Definition failures (query : Query) (changed : list str) : nat :=
  length (List.filter (λ path, negb (searched query path)) changed).

(** [worktree_symbols]; [refreshed] is a fresh divergence for exact misses. *)
Definition answering_divergence (query : Query) (parent : list Hit)
    (divergence refreshed : WorktreeDivergence) : WorktreeDivergence :=
  if exact query && bool_decide (parent = []) then refreshed else divergence.
Definition worktree_symbols (query : Query) (paths : option BoundPathFilter) (origin : InvocationDirectory)
    (divergence refreshed : WorktreeDivergence) (parent : list Hit) (h : WorktreeHashes)
    : WorktreeSymbols * WorktreeHashes :=
  let d := answering_divergence query parent divergence refreshed in
  let divergent := List.filter (query_admits_path query paths) (dv_listed d) in
  let s := select_hits parent (start_selection d divergent h) in
  let r := reextract_all query (sl_changed s) in
  let failed := failures query (sl_changed s) in
  ({| sy_hits := rank_definitions
        (List.filter (λ hit, negb (bool_decide (hit_path hit ∈ rx_replaced r))) parent ++ rx_current r) origin;
      sy_changed := rx_replaced r ∪ rx_failed r;
      sy_incomplete := sl_incomplete s || (0 <? failed);
      sy_unsearched := sl_unsearched s + failed; sy_exact := sl_exact s |}, sl_hashes s).

(** The answer of the parent index, and what [complete_answer] made of it. *)
Record ParentAnswer := {
  pa_hits : list Hit; pa_truncated : bool; pa_detail : option (nat * bool); pa_changed : gset str
}.
Inductive Verb := VerbMap | VerbSearch | VerbOther.
Definition complete_answer (verb : Verb) (word : option str) (query : Query)
    (paths : option BoundPathFilter) (origin : InvocationDirectory)
    (divergence refreshed : WorktreeDivergence) (hits : list Hit) (truncated : bool)
    (h : WorktreeHashes) : ParentAnswer * WorktreeHashes :=
  let same := {| pa_hits := hits; pa_truncated := truncated; pa_detail := None; pa_changed := ∅ |} in
  match verb, word with
  | VerbMap, None => (same, h)
  | VerbMap, Some path =>
      let '(changed, h) :=
        if dv_contains divergence path then (true, h)
        else match List.find (λ hit, hit_path hit =s path) hits with
             | None => (false, h)
             | Some hit =>
                 let '(found, h) := check path (hit_revision hit) h in
                 (bool_decide (found = Some false), h)
             end in
      match (if changed : bool then reextracted_map read_contained extract path else None) with
      | Some hits => ({| pa_hits := hits; pa_truncated := truncated; pa_detail := None;
                         pa_changed := {[path]} |}, h)
      | None => (same, h)
      end
  | VerbSearch, _ =>
      if exact query then
        let '(symbols, h) := worktree_symbols query paths origin divergence refreshed hits h in
        ({| pa_hits := sy_hits symbols;
            pa_truncated := truncated || sy_incomplete symbols;
            pa_detail := if sy_incomplete symbols then Some (sy_unsearched symbols, sy_exact symbols) else None;
            pa_changed := sy_changed symbols |}, h)
      else (same, h)
  | VerbOther, _ => (same, h)
  end.
End Verify.

(** ** Hash checks tell the truth *)

Section VerifyFacts.
Context `{Blake3} (read_contained : str → str + ReadError).
(** The index records one revision per path. *)
Context (revision : str → option str).
Definition indexed (hits : list Hit) : Prop := Forall (λ h, hit_revision h = revision (hit_path h)) hits.
(** The worktree still has the bytes that the index recorded for [path]. *)
Definition unchanged (path : str) : bool := worktree_matches read_contained path (revision path).
Definition hashes_true (h : WorktreeHashes) : Prop := ∀ path b, h !! path = Some b → b = unchanged path.

Lemma check_true path h :
  hashes_true h →
  let '(found, h') := check read_contained path (revision path) h in
  hashes_true h' ∧ h ⊆ h' ∧
  match found with
  | Some b => b = unchanged path ∧ h' !! path = Some b
  | None => h' = h ∧ h !! path = None ∧ MAX_VERIFIED_FILES ≤ size h
  end.
Proof.
  intros Hh. unfold check. destruct (h !! path) as [b|] eqn:Hp.
  { split_and!; [done|done|by apply Hh|done]. }
  destruct (Nat.leb_spec MAX_VERIFIED_FILES (size h)); [done|].
  split_and!; [|by apply insert_subseteq|done|by rewrite lookup_insert_eq].
  intros p b. destruct (decide (p = path)) as [->|Hne].
  - by rewrite lookup_insert_eq; intros [= <-].
  - rewrite lookup_insert_ne by done. apply Hh.
Qed.

Lemma check_hit_spec divergence differing h hit :
  hashes_true h → hit_revision hit = revision (hit_path hit) →
  let '(differing', h') := check_hit read_contained divergence (differing, h) hit in
  hashes_true h' ∧ h ⊆ h' ∧ differing ⊆ differing' ∧
  (∀ p, p ∈ differing' → p ∈ differing ∨ unchanged p = false ∨
     dv_contains divergence p = true ∨ dv_complete divergence = false) ∧
  (reads_current_bytes hit = false → hit_path hit ∉ differing' →
     unchanged (hit_path hit) = true ∨
     MAX_VERIFIED_FILES ≤ size h' ∧ dv_complete divergence = true ∧
     dv_contains divergence (hit_path hit) = false).
Proof.
  intros Hh Hrev. unfold check_hit. cbn [fst snd].
  destruct (reads_current_bytes hit) eqn:Hcur; cbn [orb]; [naive_solver|].
  case_bool_decide as Hin; [naive_solver|]. rewrite Hrev.
  pose proof (check_true (hit_path hit) h Hh) as Hc.
  destruct (check _ _ _ _) as [found h']. destruct Hc as (Hh' & Hsub & Hf).
  set (differs := match found with Some _ => _ | None => _ end).
  assert (differs = true → unchanged (hit_path hit) = false ∨
    dv_contains divergence (hit_path hit) = true ∨ dv_complete divergence = false) as Hd.
  { unfold differs. destruct found as [b|].
    - destruct Hf as [-> _]. rewrite negb_true_iff. auto.
    - rewrite orb_true_iff, negb_true_iff. auto. }
  split_and!; [done|done|destruct differs; set_solver| |].
  - intros p Hp. destruct differs; [|by left]. apply elem_of_union in Hp as [->%elem_of_singleton|Hp]; auto.
  - intros _ Hnot. unfold differs in *. destruct found as [b|].
    + left. destruct Hf as [Hb _]. rewrite <- Hb. destruct b; [done|]. cbn in Hnot. set_solver.
    + destruct Hf as (-> & _ & Hsize). right.
      destruct (dv_contains divergence (hit_path hit)), (dv_complete divergence); cbn in Hnot; [set_solver..| |set_solver].
      done.
Qed.

Lemma check_hits_spec divergence hits differing h :
  hashes_true h → indexed hits →
  let '(differing', h') := check_hits read_contained divergence hits h differing in
  hashes_true h' ∧ h ⊆ h' ∧ differing ⊆ differing' ∧
  (∀ p, p ∈ differing' → p ∈ differing ∨ unchanged p = false ∨
     dv_contains divergence p = true ∨ dv_complete divergence = false) ∧
  (∀ hit, hit ∈ hits → reads_current_bytes hit = false → hit_path hit ∉ differing' →
     unchanged (hit_path hit) = true ∨
     MAX_VERIFIED_FILES ≤ size h' ∧ dv_complete divergence = true ∧
     dv_contains divergence (hit_path hit) = false).
Proof.
  unfold check_hits. revert differing h. induction hits as [|hit hits IH]; intros differing h Hh Hidx; cbn [foldl].
  { split_and!; [done..|auto|]. intros hit Hin. by apply elem_of_nil in Hin. }
  apply Forall_cons in Hidx as [Hrev Hidx].
  pose proof (check_hit_spec divergence differing h hit Hh Hrev) as Hone.
  destruct (check_hit _ _ _ hit) as [d1 h1]. destruct Hone as (Hh1 & Hs1 & Hd1 & Hp1 & Hhit1).
  specialize (IH d1 h1 Hh1 Hidx). destruct (foldl _ _ _) as [d2 h2].
  destruct IH as (Hh2 & Hs2 & Hd2 & Hp2 & Hhit2). split_and!; [done|by etrans|by etrans| |].
  - intros p Hp. destruct (Hp2 p Hp) as [Hp'|]; [|by right]. by apply Hp1.
  - intros hit' [->|Hin]%elem_of_cons Hcur Hnot; [|by apply Hhit2].
    destruct (Hhit1 Hcur) as [?|(Hsize & ? & ?)]; [set_solver|by left|right].
    split_and!; [|done..]. etrans; [exact Hsize|]. by apply map_subseteq_size.
Qed.
End VerifyFacts.

(** Flags of a parent answer: a hit that shows index bytes and is not flagged
    either still has the recorded bytes in the worktree, or the budget of 128
    hashed files is spent and a complete Git divergence does not list its file; and
    a file is flagged only for a failed hash, for its listing, for an incomplete
    divergence, or because the answer already re-read it. *)
Theorem unflagged_hits_verified `{Blake3} (read_contained : str → str + ReadError)
    (revision : str → option str) (divergence : WorktreeDivergence) (hits : list Hit)
    (changed : gset str) (h : WorktreeHashes) :
  hashes_true read_contained revision h → indexed revision hits →
  let '(differing, h') := check_hits read_contained divergence hits h changed in
  (∀ hit, hit ∈ hits → flags differing hit = false →
     reads_current_bytes hit = true ∨ unchanged read_contained revision (hit_path hit) = true ∨
     MAX_VERIFIED_FILES ≤ size h' ∧ dv_complete divergence = true ∧
     dv_contains divergence (hit_path hit) = false) ∧
  (∀ hit, flags differing hit = true →
     hit_path hit ∈ changed ∨ unchanged read_contained revision (hit_path hit) = false ∨
     dv_contains divergence (hit_path hit) = true ∨ dv_complete divergence = false) ∧
  changed ⊆ differing ∧ hashes_true read_contained revision h'.
Proof.
  intros Hh Hidx.
  pose proof (check_hits_spec read_contained revision divergence hits changed h Hh Hidx) as Hc.
  destruct (check_hits _ _ _ _ _) as [differing h']. destruct Hc as (Hh' & _ & Hsub & Hp & Hhit).
  unfold flags. split_and!; [| |done|done].
  - intros hit Hin Hflag. apply andb_false_iff in Hflag as [Hflag|Hflag].
    + left. by apply negb_false_iff.
    + apply bool_decide_eq_false in Hflag. destruct (reads_current_bytes hit) eqn:Hcur; [by left|].
      right. by apply Hhit.
  - intros hit [_ Hin%bool_decide_eq_true]%andb_prop. by apply Hp.
Qed.

(** ** Worktree symbols are current *)

Section SelectionFacts.
Context `{Blake3} (read_contained : str → str + ReadError) (revision : str → option str).
Abbreviation same := (unchanged read_contained revision).

(** A path that differs by a hit passed so far, outside the divergence. *)
Definition hit_differs (divergent : list str) (passed : list Hit) (p : str) : Prop :=
  ∃ hit, hit ∈ passed ∧ hit_path hit = p ∧ (p ∉ divergent) ∧ same p = false.
Lemma hit_differs_snoc divergent passed hit p :
  hit_differs divergent (passed ++ [hit]) p ↔
  hit_differs divergent passed p ∨ hit_path hit = p ∧ (p ∉ divergent) ∧ same p = false.
Proof.
  unfold hit_differs. split.
  - intros (hit' & Hin & Hp). apply elem_of_app in Hin as [Hin| ->%list_elem_of_singleton];
      [left; by exists hit'|by right].
  - intros [(hit' & Hin & Hp)|Hp]; [exists hit'|exists hit]; (split; [apply elem_of_app|done]);
      [by left|right; by apply list_elem_of_singleton].
Qed.

(** What the loop knows of the parent hits it has passed. *)
Definition selected_ok (divergent : list str) (passed : list Hit) (s : Selection) : Prop :=
  NoDup (sl_changed s) ∧ length (sl_changed s) ≤ MAX_REEXTRACTED_FILES ∧
  (∀ p, p ∈ sl_changed s → p ∉ sl_beyond s) ∧
  (sl_beyond s ≠ ∅ → length (sl_changed s) = MAX_REEXTRACTED_FILES ∧ sl_incomplete s = true) ∧
  sl_unsearched s = size (sl_beyond s) ∧ hashes_true read_contained revision (sl_hashes s) ∧
  (∀ p, p ∈ sl_changed s ∨ p ∈ sl_beyond s ↔
     p ∈ divergent ∨ hit_differs divergent passed p).

Lemma start_selection_ok d divergent h :
  NoDup divergent → hashes_true read_contained revision h →
  selected_ok divergent [] (start_selection d divergent h).
Proof.
  intros Hnd Hh. unfold selected_ok, start_selection. cbn [sl_changed sl_beyond sl_incomplete sl_unsearched sl_hashes].
  rewrite <- (take_drop MAX_REEXTRACTED_FILES divergent) in Hnd. apply NoDup_app in Hnd as (Hnt & Hdis & Hndd).
  split_and!.
  - done.
  - rewrite length_take. lia.
  - intros p Hp. rewrite elem_of_list_to_set. by apply Hdis.
  - intros Hne. rewrite length_take.
    assert (drop MAX_REEXTRACTED_FILES divergent ≠ []) as Hd by (intros Hd; rewrite Hd in Hne; done).
    assert (MAX_REEXTRACTED_FILES < length divergent) as Hlt.
    { destruct (Nat.lt_ge_cases MAX_REEXTRACTED_FILES (length divergent)); [done|].
      by rewrite drop_ge in Hd by lia. }
    split; [lia|]. rewrite (proj2 (Nat.ltb_lt _ _)) by lia. apply orb_true_r.
  - rewrite size_list_to_set, length_take, length_drop by done. lia.
  - done.
  - intros p. rewrite elem_of_list_to_set, <- elem_of_app, take_drop.
    split; [by left|]. intros [?|(hit & Hin & _)]; [done|]. by apply elem_of_nil in Hin.
Qed.

(** Passing a hit whose file is already chosen or still has its bytes. *)
Lemma selected_ok_skip divergent passed hit s h' :
  selected_ok divergent passed s → hashes_true read_contained revision h' →
  (hit_path hit ∈ sl_changed s ∨ same (hit_path hit) = true) →
  selected_ok divergent (passed ++ [hit])
    {| sl_changed := sl_changed s; sl_beyond := sl_beyond s; sl_incomplete := sl_incomplete s;
       sl_unsearched := sl_unsearched s; sl_exact := sl_exact s; sl_hashes := h' |}.
Proof.
  intros (Hnd & Hlen & Hdis & Hbey & Hun & Hh & Hmem) Hh' Hskip.
  unfold selected_ok. cbn [sl_changed sl_beyond sl_incomplete sl_unsearched sl_hashes].
  split_and!; [done..|]. intros p. rewrite hit_differs_snoc. split; [rewrite Hmem; tauto|].
  intros [Hp|[Hp|(<- & _ & Hs)]]; [apply Hmem; by left|apply Hmem; by right|].
  destruct Hskip as [?|?]; [by left|congruence].
Qed.

(** A differing hit joins the known paths. *)
Lemma known_step divergent passed hit p (A B : Prop) :
  (A ∨ B ↔ p ∈ divergent ∨ hit_differs divergent passed p) → false = same (hit_path hit) →
  (p ∈ divergent ∨ hit_differs divergent (passed ++ [hit]) p) ↔ (A ∨ p = hit_path hit) ∨ B.
Proof.
  intros HAB Hs. rewrite hit_differs_snoc.
  destruct (decide (p = hit_path hit)) as [->|Hne]; [|split; [intros [?|[?|[? _]]]|intros [[?|?]|?]]; naive_solver].
  split; [auto|intros _]. destruct (decide (hit_path hit ∈ divergent)); auto.
Qed.

Lemma select_hits_spec divergent parent passed s :
  indexed revision parent → selected_ok divergent passed s →
  let out := select_hits read_contained parent s in
  ∃ seen rest, parent = seen ++ rest ∧ selected_ok divergent (passed ++ seen) out ∧
    (sl_exact out = true → sl_exact s = true ∧ rest = []) ∧
    (sl_incomplete out = false → sl_incomplete s = false ∧ rest = []) ∧
    sl_hashes s ⊆ sl_hashes out.
Proof.
  revert passed s. induction parent as [|hit parent IH]; intros passed s Hidx Hok; cbn [select_hits].
  { exists [], []. rewrite (app_nil_r passed). split_and!; auto. }
  apply Forall_cons in Hidx as [Hrev Hidx].
  assert (∀ s', selected_ok divergent (passed ++ [hit]) s' →
    (sl_exact s' = true → sl_exact s = true) → (sl_incomplete s' = false → sl_incomplete s = false) →
    sl_hashes s ⊆ sl_hashes s' →
    let out := select_hits read_contained parent s' in
    ∃ seen rest, hit :: parent = seen ++ rest ∧ selected_ok divergent (passed ++ seen) out ∧
      (sl_exact out = true → sl_exact s = true ∧ rest = []) ∧
      (sl_incomplete out = false → sl_incomplete s = false ∧ rest = []) ∧
      sl_hashes s ⊆ sl_hashes out) as Hstep.
  { intros s' Hok' He Hi Hsub. destruct (IH _ s' Hidx Hok') as (seen & rest & -> & Hout & He' & Hi' & Hs').
    exists (hit :: seen), rest. rewrite <- app_assoc in Hout. split_and!; [done|done|naive_solver..|by etrans]. }
  pose proof Hok as (Hnd & Hlen & Hdis & Hbey & Hun & Hh & Hmem).
  case_bool_decide as Hin.
  { apply (Hstep s); [|done..]. destruct s. apply (selected_ok_skip _ _ _ _ _ Hok Hh). by left. }
  rewrite Hrev. pose proof (check_true read_contained revision (hit_path hit) _ Hh) as Hc.
  destruct (check _ _ _ _) as [found h']. destruct Hc as (Hh' & Hsub & Hf).
  destruct found as [[]|].
  - destruct Hf as [Hsame _]. apply Hstep; cbn [sl_exact sl_incomplete sl_hashes]; [|done..].
    apply (selected_ok_skip _ _ _ _ _ Hok Hh'). by right.
  - destruct Hf as [Hsame _]. destruct (Nat.ltb_spec (length (sl_changed s)) MAX_REEXTRACTED_FILES) as [Hroom|Hfull].
    + apply Hstep; cbn [sl_exact sl_incomplete sl_hashes]; [|done..].
      assert (sl_beyond s = ∅) as Hempty by (apply dec_stable; intros [? _]%Hbey; lia).
      unfold selected_ok. cbn [sl_changed sl_beyond sl_incomplete sl_unsearched sl_hashes].
      rewrite Hempty in *. split_and!; [|rewrite length_app; cbn; lia| |done|done|done|].
      * apply NoDup_app. split_and!; [done| |apply NoDup_singleton].
        intros p Hp ->%list_elem_of_singleton. by apply Hin.
      * intros p _. apply not_elem_of_empty.
      * intros p. rewrite elem_of_app, list_elem_of_singleton.
        rewrite (known_step divergent passed hit p (p ∈ sl_changed s) (p ∈ (∅ : gset str)) (Hmem p) Hsame). tauto.
    + apply Hstep; cbn [sl_exact sl_incomplete sl_hashes]; [|done..].
      unfold selected_ok. cbn [sl_changed sl_beyond sl_incomplete sl_unsearched sl_hashes].
      split_and!; [done|done| |intros _; split; [lia|done]| |done|].
      * intros p Hp [->%elem_of_singleton|Hb]%elem_of_union; [by apply Hin|by apply (Hdis p)].
      * case_bool_decide as Hb; [|rewrite size_union, size_singleton by set_solver; lia].
        rewrite subseteq_union_1_L by set_solver. lia.
      * intros p. rewrite elem_of_union, elem_of_singleton.
        rewrite (known_step divergent passed hit p (p ∈ sl_changed s) (p ∈ sl_beyond s) (Hmem p) Hsame). tauto.
  - destruct Hf as (-> & _ & _). exists [], (hit :: parent).
    split_and!; [done| |done|done|done].
    rewrite app_nil_r. unfold selected_ok. cbn [sl_changed sl_beyond sl_incomplete sl_unsearched sl_hashes].
    split_and!; [done..| |done|done|done]. intros Hne. split; [by apply Hbey|done].
Qed.

Lemma dv_listed_spec d p : p ∈ dv_listed d ↔ p ∈ dv_paths d.
Proof. unfold dv_listed. by rewrite elem_of_sort_by, elem_of_elements. Qed.
Lemma dv_listed_NoDup d : NoDup (dv_listed d).
Proof. unfold dv_listed. rewrite (sort_by_perm str_compare). apply NoDup_elements. Qed.

(** The files known to differ: divergent files the query admits, and files of
    parent hits whose bytes no longer have their revision. *)
Definition divergent_paths (query : Query) (paths : option BoundPathFilter) (d : WorktreeDivergence)
    (p : str) : Prop := p ∈ dv_paths d ∧ query_admits_path query paths p = true.
Definition known_changed (query : Query) (paths : option BoundPathFilter) (d : WorktreeDivergence)
    (parent : list Hit) (p : str) : Prop :=
  divergent_paths query paths d p ∨ ∃ hit, hit ∈ parent ∧ hit_path hit = p ∧ same p = false.

(** The selection of one answer, and what it knows. *)
Lemma worktree_selection query paths d parent h :
  hashes_true read_contained revision h → indexed revision parent →
  let divergent := List.filter (query_admits_path query paths) (dv_listed d) in
  let s := select_hits read_contained parent (start_selection d divergent h) in
  NoDup (sl_changed s) ∧ length (sl_changed s) ≤ MAX_REEXTRACTED_FILES ∧
  (∀ p, p ∈ sl_changed s → p ∉ sl_beyond s) ∧ sl_unsearched s = size (sl_beyond s) ∧
  hashes_true read_contained revision (sl_hashes s) ∧
  (sl_incomplete s = false → dv_complete d = true ∧ sl_beyond s = ∅ ∧
     ∀ p, p ∈ sl_changed s ↔ known_changed query paths d parent p) ∧
  (sl_exact s = true → dv_complete d = true ∧
     ∀ p, p ∈ sl_changed s ∨ p ∈ sl_beyond s ↔ known_changed query paths d parent p).
Proof.
  intros Hh Hidx divergent s.
  assert (∀ p, p ∈ divergent ↔ divergent_paths query paths d p) as Hdiv.
  { intros p. unfold divergent, divergent_paths. rewrite list_elem_of_In, List.filter_In, <- list_elem_of_In.
    by rewrite dv_listed_spec. }
  assert (NoDup divergent) as Hnd by apply NoDup_ListNoDup, List.NoDup_filter, NoDup_ListNoDup, dv_listed_NoDup.
  destruct (select_hits_spec divergent parent [] (start_selection d divergent h) Hidx)
    as (seen & rest & Hparent & Hok & Hexact & Hinc & _); [by apply start_selection_ok|].
  fold s in Hok, Hexact, Hinc.
  destruct Hok as (Hndc & Hlen & Hdis & Hbey & Hun & Hh' & Hmem). cbn [app] in Hmem.
  assert (rest = [] → ∀ p, p ∈ sl_changed s ∨ p ∈ sl_beyond s ↔ known_changed query paths d parent p) as Hknown.
  { intros -> p. rewrite app_nil_r in Hparent. subst seen. rewrite Hmem, Hdiv. unfold known_changed, hit_differs.
    split; [intros [?|(hit & ? & ? & _ & ?)]; eauto|].
    intros [?|(hit & Hin & Hp & Hs)]; [by left|].
    destruct (decide (p ∈ divergent)) as [Hd|Hd]; [left; by apply Hdiv|right; eauto]. }
  split_and!; [done..| |].
  - intros Hi. destruct (Hinc Hi) as [Hstart Hrest]. unfold start_selection in Hstart.
    cbn [sl_incomplete] in Hstart. apply orb_false_iff in Hstart as [Hc _]. apply negb_false_iff in Hc.
    assert (sl_beyond s = ∅) as Hempty by (apply dec_stable; intros [_ Hb]%Hbey; congruence).
    split_and!; [done|done|]. intros p. rewrite <- (Hknown Hrest), Hempty.
    split; [by left|]. intros [?|Hp]; [done|]. by apply elem_of_empty in Hp.
  - intros He. destruct (Hexact He) as [Hstart Hrest]. split; [exact Hstart|by apply Hknown].
Qed.
End SelectionFacts.

Section ReextractFacts.
Context `{UnicodeTables, Blake3}.
Context (read_contained : str → str + ReadError) (extract : str → str → FileExtraction).

Lemma reextract_spec query changed r :
  let out := foldl (reextract_step read_contained extract query) r changed in
  (∀ p, p ∈ rx_replaced out ↔ p ∈ rx_replaced r ∨ p ∈ changed ∧ searched read_contained extract query p = true) ∧
  (∀ p, p ∈ rx_failed out ↔ p ∈ rx_failed r ∨ p ∈ changed ∧ searched read_contained extract query p = false) ∧
  (∀ hit, hit ∈ rx_current out ↔ hit ∈ rx_current r ∨
     ∃ p hits, p ∈ changed ∧ file_definitions read_contained extract query p = inl hits ∧ hit ∈ hits).
Proof.
  revert r. induction changed as [|path changed IH]; intros r; cbn [foldl].
  { split_and!; intros ?; (split; [by left|]); intros [?|Hf]; try done.
    1-2: destruct Hf as [Hf _]; by apply elem_of_nil in Hf.
    destruct Hf as (p & hits & Hf & _). by apply elem_of_nil in Hf. }
  specialize (IH (reextract_step read_contained extract query r path)).
  destruct IH as (Hr & Hf & Hc).
  assert (∀ (P : str → Prop) p, p ∈ path :: changed ∧ P p ↔ p = path ∧ P path ∨ p ∈ changed ∧ P p) as Hcons.
  { intros P p. rewrite elem_of_cons. naive_solver. }
  unfold searched in *.
  split_and!; [intros p; rewrite Hr, (Hcons (λ p, _ = true))|intros p; rewrite Hf, (Hcons (λ p, _ = false))|].
  1-2: unfold reextract_step; destruct (file_definitions _ _ query path) as [hits|[]];
    cbn [rx_replaced rx_failed]; rewrite ?elem_of_union, ?elem_of_singleton; naive_solver.
  intros hit. rewrite Hc. unfold reextract_step.
  assert ((∃ p hits, p ∈ path :: changed ∧ file_definitions read_contained extract query p = inl hits ∧ hit ∈ hits) ↔
    (∃ hits, file_definitions read_contained extract query path = inl hits ∧ hit ∈ hits) ∨
    ∃ p hits, p ∈ changed ∧ file_definitions read_contained extract query p = inl hits ∧ hit ∈ hits) as ->.
  { setoid_rewrite elem_of_cons. naive_solver. }
  destruct (file_definitions _ _ query path) as [hits|[]]; cbn [rx_current]; rewrite ?elem_of_app; naive_solver.
Qed.

Lemma failures_none query changed :
  failures read_contained extract query changed = 0 →
  ∀ p, p ∈ changed → searched read_contained extract query p = true.
Proof.
  unfold failures. intros Hz p Hp. apply nil_length_inv in Hz.
  destruct (searched _ _ query p) eqn:Hs; [done|].
  assert (In p (List.filter (λ path, negb (searched read_contained extract query path)) changed)) as Hin
    by (apply List.filter_In; rewrite <- list_elem_of_In, Hs; done).
  by rewrite Hz in Hin.
Qed.
End ReextractFacts.

(** C25. A complete worktree answer is current: its hits are exactly the parent's hits
    outside the divergence whose files still have the recorded bytes, and the
    definitions that the files known to differ hold now, every one of which was
    read or is gone; they are in the order of index definitions, and Git's
    divergence was complete. *)
Theorem worktree_answer_current `{UnicodeTables, Blake3} (read_contained : str → str + ReadError)
    (extract : str → str → FileExtraction) (revision : str → option str) (query : Query)
    (paths : option BoundPathFilter) (origin : InvocationDirectory)
    (divergence refreshed : WorktreeDivergence) (parent : list Hit) (h : WorktreeHashes) :
  hashes_true read_contained revision h → indexed revision parent →
  let '(answer, h') := worktree_symbols read_contained extract query paths origin divergence refreshed parent h in
  let d := answering_divergence query parent divergence refreshed in
  let changed := known_changed read_contained revision query paths d parent in
  sy_incomplete answer = false →
  dv_complete d = true ∧
  (∀ hit, hit ∈ sy_hits answer ↔
     (hit ∈ parent ∧ unchanged read_contained revision (hit_path hit) = true ∧
      ¬ divergent_paths query paths d (hit_path hit)) ∨
     ∃ p hits, changed p ∧ file_definitions read_contained extract query p = inl hits ∧ hit ∈ hits) ∧
  (∀ p, changed p → searched read_contained extract query p = true ∧ p ∈ sy_changed answer) ∧
  StronglySorted (cmp_le (cmp_then (rank_key_compare origin) span_order)) (sy_hits answer).
Proof.
  intros Hh Hidx. unfold worktree_symbols. set (d := answering_divergence _ _ _ _).
  destruct (worktree_selection read_contained revision query paths d parent h Hh Hidx)
    as (_ & _ & _ & _ & _ & Hinc & _).
  set (s := select_hits _ _ _) in *. cbn [sy_incomplete sy_hits sy_changed].
  intros [Hi Hfail]%orb_false_iff. apply Nat.ltb_ge in Hfail.
  destruct (Hinc Hi) as (Hc & _ & Hchanged).
  pose proof (failures_none read_contained extract query (sl_changed s) ltac:(lia)) as Hall.
  destruct (reextract_spec read_contained extract query (sl_changed s)
    {| rx_replaced := ∅; rx_failed := ∅; rx_current := [] |}) as (Hr & _ & Hcur).
  change (foldl _ _ (sl_changed s)) with (reextract_all read_contained extract query (sl_changed s)) in Hr, Hcur.
  set (r := reextract_all _ _ _ _) in *. cbn [rx_replaced rx_current] in Hr, Hcur.
  assert (∀ p, p ∈ rx_replaced r ↔ known_changed read_contained revision query paths d parent p) as Hrep.
  { intros p. rewrite Hr, <- Hchanged. split; [intros [Hp|[? _]]; [by apply elem_of_empty in Hp|done]|].
    intros Hp. right. auto. }
  split_and!; [done| | |apply rank_definitions_sorted].
  - intros hit. rewrite (proj1 (rank_definitions_sorted _ origin)), elem_of_app.
    rewrite list_elem_of_In, List.filter_In, <- list_elem_of_In, negb_true_iff, bool_decide_eq_false, Hrep, Hcur.
    apply Morphisms_Prop.or_iff_morphism.
    + unfold known_changed. split.
      * intros [Hp Hno]. split_and!; [done| |tauto].
        apply not_false_is_true. intros Hs. apply Hno. right. by exists hit.
      * intros (Hp & Hs & Hno). split; [done|]. intros [?|(hit' & _ & _ & Hs')]; [done|congruence].
    + split; [intros [Hp|(p & hits & Hp & ? & ?)]; [by apply elem_of_nil in Hp|]|
              intros (p & hits & Hp & ? & ?); right]; exists p, hits; (split; [by apply Hchanged|done]).
  - intros p Hp. split; [by apply Hall, Hchanged|]. apply elem_of_union_l, Hrep, Hp.
Qed.

(** The count of an incomplete answer: at most 64 files are re-extracted, and
    when the count is given as exact, it is the number of files known to differ
    that were not searched. *)
Theorem unsearched_count_exact `{UnicodeTables, Blake3} (read_contained : str → str + ReadError)
    (extract : str → str → FileExtraction) (revision : str → option str) (query : Query)
    (paths : option BoundPathFilter) (origin : InvocationDirectory)
    (divergence refreshed : WorktreeDivergence) (parent : list Hit) (h : WorktreeHashes) :
  hashes_true read_contained revision h → indexed revision parent →
  let '(answer, _) := worktree_symbols read_contained extract query paths origin divergence refreshed parent h in
  let d := answering_divergence query parent divergence refreshed in
  size (sy_changed answer) ≤ MAX_REEXTRACTED_FILES ∧
  (sy_exact answer = true →
   ∃ unsearched : gset str, size unsearched = sy_unsearched answer ∧
     ∀ p, p ∈ unsearched ↔ known_changed read_contained revision query paths d parent p ∧
       ¬ (p ∈ sy_changed answer ∧ searched read_contained extract query p = true)).
Proof.
  intros Hh Hidx. unfold worktree_symbols. set (d := answering_divergence _ _ _ _).
  destruct (worktree_selection read_contained revision query paths d parent h Hh Hidx)
    as (Hnd & Hlen & Hdis & Hun & _ & _ & Hexact).
  set (s := select_hits _ _ _) in *. cbn [sy_changed sy_exact sy_unsearched].
  destruct (reextract_spec read_contained extract query (sl_changed s)
    {| rx_replaced := ∅; rx_failed := ∅; rx_current := [] |}) as (Hr & Hf & _).
  change (foldl _ _ (sl_changed s)) with (reextract_all read_contained extract query (sl_changed s)) in Hr, Hf.
  set (r := reextract_all _ _ _ _) in *. cbn [rx_replaced rx_failed] in Hr, Hf.
  setoid_rewrite elem_of_empty in Hr. setoid_rewrite elem_of_empty in Hf.
  set (failed := List.filter (λ path, negb (searched read_contained extract query path)) (sl_changed s)).
  assert (∀ p, p ∈ failed ↔ p ∈ sl_changed s ∧ searched read_contained extract query p = false) as Hfailed.
  { intros p. unfold failed. by rewrite list_elem_of_In, List.filter_In, <- list_elem_of_In, negb_true_iff. }
  split.
  - transitivity (size (list_to_set (sl_changed s) : gset str)); [|by rewrite size_list_to_set].
    apply subseteq_size. intros p. rewrite elem_of_union, Hr, Hf, elem_of_list_to_set. tauto.
  - intros He. destruct (Hexact He) as [_ Hknown].
    exists (sl_beyond s ∪ list_to_set failed). split.
    + rewrite size_union, size_list_to_set, Hun; [done| |].
      * apply NoDup_ListNoDup, List.NoDup_filter, NoDup_ListNoDup, Hnd.
      * intros p Hb [Hp _]%elem_of_list_to_set%Hfailed. by apply (Hdis p).
    + intros p. rewrite elem_of_union, elem_of_list_to_set, Hfailed, <- Hknown, elem_of_union, Hr, Hf.
      specialize (Hdis p). destruct (searched read_contained extract query p); naive_solver.
Qed.

(** One file as indexed and one edited since; both define [f]. *)
Module HomeIndexExample.
Definition read_contained (path : str) : str + ReadError :=
  if path =s lit "a.rs" then inl (lit "fn f") else if path =s lit "b.rs" then inl (lit "new fn f")
  else inr PathMissing.
Definition extract (_ bytes : str) : FileExtraction :=
  {| ex_language := lit "rust"; ex_status := lit "complete";
     ex_definitions := [MkDef (lit "f") (lit "function") 0 (length bytes) None];
     ex_occurrences := []; ex_relationships := [] |}.
Definition indexed_hit (path : string) : Hit :=
  {| hit_handle := []; hit_path := lit path; hit_revision := Some (lit "fn f"); hit_start := 0; hit_end := 4;
     hit_start_line := 1; hit_end_line := 1; hit_name := lit "f"; hit_kind := lit "function";
     hit_container := None; hit_provenance := Some (lit "exact_identifier"); hit_resolution := None;
     hit_candidates := []; hit_target := None; hit_snippet := None; hit_repeats := None |}.
Definition query : Query :=
  
  {| QueryShape.text := lit "f"; QueryShape.path := filter_default; QueryShape.language := [];
     QueryShape.kind := []; QueryShape.exact := true; QueryShape.regex := false |}.
Definition clean : WorktreeDivergence := {| dv_paths := ∅; dv_complete := true |}.
Definition parent : list Hit := [indexed_hit "a.rs"; indexed_hit "b.rs"; indexed_hit "gone.rs"].
Definition revision (_ : str) : option str := Some (lit "fn f").
Lemma parent_indexed : indexed revision parent.
Proof. repeat constructor. Qed.
Lemma no_hashes : hashes_true read_contained revision ∅.
Proof. intros path b Hb. by rewrite lookup_empty in Hb. Qed.
Definition answer : WorktreeSymbols :=
  (worktree_symbols read_contained extract query None [] clean clean parent ∅).1.
(** The edited file's definition replaces the parent's, the missing file's goes. *)
Example answered :
  (λ h, (hit_path h, hit_end h, hit_provenance h)) <$> sy_hits answer
  = [(lit "a.rs", 4, Some (lit "exact_identifier")); (lit "b.rs", 8, Some (lit "reextracted"))] ∧
  sy_incomplete answer = false.
Proof. split; vm_compute; done. Qed.
(** Git listed the edited file but a probe failed: the answer is incomplete. *)
Definition partial : WorktreeDivergence := {| dv_paths := {[lit "b.rs"]}; dv_complete := false |}.
Example incomplete :
  sy_incomplete (worktree_symbols read_contained extract query None [] partial partial parent ∅).1 = true.
Proof. vm_compute. done. Qed.

(** The index keeps only the closest tier of [A::f]; a file of a looser tier
    joins the answer once its bytes change. *)
Definition qualified : Query :=
  {| QueryShape.text := lit "A::f"; QueryShape.path := filter_default; QueryShape.language := [];
     QueryShape.kind := []; QueryShape.exact := true; QueryShape.regex := false |}.
Definition row (path container : string) : DefinitionRow :=
  {| r_id := 1; r_path := lit path; r_revision := lit "fn f"; r_start := 0; r_end := 4;
     r_name := lit "f"; r_kind := lit "function"; r_container := Some (lit container);
     r_language := lit "rust"; r_bytes := lit "fn f" |}.
Definition nested_extract (path bytes : str) : FileExtraction :=
  {| ex_language := lit "rust"; ex_status := lit "complete";
     ex_definitions := [MkDef (lit "f") (lit "function") 0 (length bytes)
                          (Some (if path =s lit "b.rs" then lit "A::B" else lit "A"))];
     ex_occurrences := []; ex_relationships := [] |}.
Example looser_tier_joins :
  let hits := lane_hits (declaration_hits qualified {| b_include := []; b_exclude := [] |} 10
                           [row "a.rs" "A"; row "b.rs" "A::B"]) in
  let edited := {| dv_paths := {[lit "b.rs"]}; dv_complete := true |} in
  hit_path <$> hits = [lit "a.rs"] ∧
  hit_path <$> sy_hits (worktree_symbols read_contained nested_extract qualified None [] edited edited hits ∅).1
    = lit <$> ["a.rs"; "b.rs"]%string.
Proof. split; vm_compute; done. Qed.
End HomeIndexExample.
Import HomeIndexExample.

Lemma worktree_answer_current_witness :
  sy_incomplete answer = false ∧
  ∀ p, known_changed read_contained revision query None clean parent p → p ∈ sy_changed answer.
Proof.
  pose proof (worktree_answer_current read_contained extract revision query None [] clean clean parent ∅
    no_hashes parent_indexed) as Hw.
  unfold answer. destruct (worktree_symbols _ _ _ _ _ _ _ _ _) as [a h] eqn:E. cbn [fst].
  assert (sy_incomplete a = false) as Hi.
  { change a with (a, h).1. rewrite <- E. exact (proj2 answered). }
  split; [exact Hi|]. intros p Hp. destruct (Hw Hi) as (_ & _ & Hk & _). exact (proj2 (Hk p Hp)).
Defined.

Lemma unflagged_hits_verified_witness :
  hit_path <$> List.filter (flags (check_hits read_contained clean parent ∅ ∅).1) parent
    = lit <$> ["b.rs"; "gone.rs"]%string ∧
  hashes_true read_contained revision (check_hits read_contained clean parent ∅ ∅).2.
Proof.
  pose proof (unflagged_hits_verified read_contained revision clean parent ∅ ∅ no_hashes parent_indexed) as Hw.
  split; [vm_compute; reflexivity|].
  destruct (check_hits _ _ _ _ _) as [d h]. exact (proj2 (proj2 (proj2 Hw))).
Defined.

Lemma unsearched_count_exact_witness : size (sy_changed answer) ≤ MAX_REEXTRACTED_FILES.
Proof.
  pose proof (unsearched_count_exact read_contained extract revision query None [] clean clean parent ∅
    no_hashes parent_indexed) as Hw.
  unfold answer. destruct (worktree_symbols _ _ _ _ _ _ _ _ _) as [a h]. exact (proj1 Hw).
Defined.
