(* ===== verification/Members.v ===== *)
(** * Workspace members and the home member

    Models [src/src/workspace/config.rs] and [src/src/workspace/member_root.rs]:
    loading a workspace configuration, resolving its paths, discovering the
    configuration of a directory, and choosing the home member with its linked
    Git worktree.  A path is the sequence of its components, the view under which
    [Path] compares, joins and tests prefixes.  The file system, Git's common
    directory, the TOML parser, BLAKE3 and the environment are parameters. *)
From Stdlib Require Import Ascii String ZArith Lia.
From stdpp Require Import base numbers list gmap strings sorting.
From S2P Require Import Prelude Order Text Identity Paths Hits.

Abbreviation Path := (list Component).
#[export] Instance component_eq_dec : EqDecision Component.
Proof. solve_decision. Defined.

(** [path.starts_with(base)], [path.is_absolute()] and [path.parent()]. *)
Definition path_starts_with (path base : Path) : bool := bool_decide (base `prefix_of` path).
Definition is_absolute (path : Path) : bool := match path with RootDir :: _ => true | _ => false end.
Definition path_parent (path : Path) : option Path :=
  match last path with
  | None | Some RootDir => None
  | Some _ => Some (removelast path)
  end.
(** [path.pop()] and [path.push(component)]. *)
Definition path_pop (path : Path) : Path := default path (path_parent path).
Definition path_push (path : Path) (c : Component) : Path :=
  match c with RootDir => [RootDir] | _ => path ++ [c] end.
(** [base.join(path)]: an absolute operand replaces the base, and a leading [.]
    vanishes behind a base. *)
Definition path_join (base path : Path) : Path :=
  match path with
  | RootDir :: _ => path
  | CurDir :: path' => match base with [] => path | _ => base ++ path' end
  | _ => base ++ path
  end.
(** [path.ancestors()]: the path, its parent and so on. *)
Fixpoint ancestors_go (fuel : nat) (path : Path) : list Path :=
  match fuel with
  | O => []
  | S fuel' =>
      path :: match path_parent path with
              | None => []
              | Some parent => ancestors_go fuel' parent
              end
  end.
Definition ancestors (path : Path) : list Path := ancestors_go (S (length path)) path.
(** [path.file_name()]. *)
Definition file_name (path : Path) : option str :=
  match last path with Some (Normal name) => Some name | _ => None end.

(** ** The file system *)

Inductive FsError := NotFound | OtherError.
Inductive FileKind := IsFile | IsDir | IsOther.
#[export] Instance file_kind_eq_dec : EqDecision FileKind.
Proof. solve_decision. Defined.
Record Metadata := { kind : FileKind; dev : Z; ino : Z }.

Class FileSystem := {
  fs_canonicalize : Path → Path + FsError;
  fs_metadata : Path → Metadata + FsError;
  git_common_dir : Path → option Path  (* history::git::common_dir *)
}.

Record MemberIdentity := { device : Z; inode : Z }.
#[export] Instance member_identity_eq_dec : EqDecision MemberIdentity.
Proof. solve_decision. Defined.
Record Member := { m_name : str; m_root : Path; m_identity : option MemberIdentity }.

Definition identity_of (m : Metadata) : MemberIdentity := {| device := dev m; inode := ino m |}.

Record SemanticConfig := { enabled : bool; rerank : bool }.
Record WorkspaceConfig := {
  w_name : str; w_id : str; w_path : Path; w_members : list Member;
  w_semantic : SemanticConfig; w_budget : option Z
}.
(** The parsed document: [deny_unknown_fields] leaves these. *)
Record ConfigDocument := {
  d_name : str; d_selection : option (list str); d_members : gmap str Path;
  d_semantic : option SemanticConfig; d_budget : option (option Z)
}.

Definition CONFIG_LIMIT : nat := 256 * 1024.
Definition MEMBER_LIMIT : nat := 32.
Definition CONFIG_NAME : str := lit "trufflepig.workspace.toml".
(** [cli::MAX_BUDGET]. *)
Definition MAX_BUDGET : Z := 1000000.

Definition valid_name (name : str) : bool :=
  negb (name =s []) && (length name <=? 64) &&
  forallb (λ byte, is_ascii_alphanumeric byte || (byte =c "_"%char) || (byte =c "-"%char)) name.

(** ** Effective roots: [member_root.rs] *)

Record MemberRoot := {
  mr_member : Member; mr_root : Path; mr_identity : option MemberIdentity;
  mr_worktree : option str; mr_home : bool
}.
Definition root_name (r : MemberRoot) : str := m_name (mr_member r).

(** [MemberRoot::configured]. *)
Definition configured (member : Member) : MemberRoot :=
  {| mr_member := member; mr_root := m_root member; mr_identity := m_identity member;
     mr_worktree := None; mr_home := false |}.

Definition display_name (r : MemberRoot) : str :=
  match mr_worktree r with
  | Some label => root_name r ++ lit "@" ++ label
  | None => root_name r
  end.

Definition fs_ok {A} (msg : string) (r : A + FsError) : result A :=
  match r with inl a => Ok a | inr _ => Err msg end.

Section Roots.
Context `{FileSystem}.

(** [MemberRoot::linked]; a label is the root's file name (taken as UTF-8). *)
Definition linked (member : Member) (root : Path) : result MemberRoot :=
  metadata ← fs_ok "inspect linked worktree root" (fs_metadata root);
  _ ← ensure (bool_decide (kind metadata = IsDir)) "linked worktree root is not a directory";
  label ← or_err "linked worktree root has no UTF-8 name" (file_name root);
  Ok {| mr_member := member; mr_root := root; mr_identity := Some (identity_of metadata);
        mr_worktree := Some label; mr_home := false |}.

(** The checks [Member::verify_identity] and [MemberRoot::verify_identity] share. *)
Definition verify_root (root : Path) (identity : option MemberIdentity) : result unit :=
  metadata ← fs_ok "workspace member unavailable" (fs_metadata root);
  _ ← ensure (bool_decide (kind metadata = IsDir)) "workspace member is not a directory";
  canonical ← fs_ok "canonicalize" (fs_canonicalize root);
  _ ← ensure (bool_decide (canonical = root)) "workspace member canonical path changed";
  identity ← or_err "workspace member was unavailable when captured" identity;
  ensure (bool_decide (device identity = dev metadata) && bool_decide (inode identity = ino metadata))
    "workspace member checkout was replaced".
Definition verify_identity (r : MemberRoot) : result unit :=
  match mr_worktree r with
  | None => verify_root (m_root (mr_member r)) (m_identity (mr_member r))
  | Some _ => verify_root (mr_root r) (mr_identity r)
  end.

(** The loop of [linked_worktree_top] over the ancestors of [start]. *)
Fixpoint worktree_top_go (paths : list Path) : option Path :=
  match paths with
  | [] => None
  | ancestor :: paths' =>
      match fs_metadata (path_join ancestor [Normal (lit ".git")]) with
      | inl metadata => if bool_decide (kind metadata = IsFile) then Some ancestor else None
      | inr _ => worktree_top_go paths'
      end
  end.
Definition linked_worktree_top (start : Path) : option Path := worktree_top_go (ancestors start).

Definition member_common_dir (member : Member) : option Path :=
  let dot_git := path_join (m_root member) [Normal (lit ".git")] in
  match fs_metadata dot_git with
  | inl metadata =>
      if bool_decide (kind metadata = IsDir)
      then match fs_canonicalize dot_git with inl path => Some path | inr _ => None end
      else git_common_dir (m_root member)
  | inr _ => None
  end.

Definition linked_root_of_member (member : Member) (candidate : Path) : option Path :=
  match fs_canonicalize candidate with
  | inr _ => None
  | inl candidate =>
      top ← linked_worktree_top candidate;
      if bool_decide (top ≠ candidate) || bool_decide (candidate = m_root member) then None
      else
        common ← git_common_dir candidate;
        if bool_decide (member_common_dir member = Some common) then Some candidate else None
  end.

(** The second loop of [home_root]: the first member that shares the common
    directory of a worktree outside every member root. *)
Fixpoint sharing_member (members : list Member) (top common : Path) : result (option MemberRoot) :=
  match members with
  | [] => Ok None
  | member :: members' =>
      if bool_decide (member_common_dir member = Some common)
      then root ← linked member top; Ok (Some root)
      else sharing_member members' top common
  end.

Definition home_root (members : list Member) (start : Path) : result (option MemberRoot) :=
  let start := match fs_canonicalize start with inl path => path | inr _ => start end in
  let top := linked_worktree_top start in
  match List.find (λ member, path_starts_with start (m_root member)) members with
  | Some member =>
      match top with
      | Some top =>
          if bool_decide (top ≠ m_root member) &&
             bool_decide (is_Some (linked_root_of_member member top))
          then root ← linked member top; Ok (Some root)
          else Ok (Some (configured member))
      | None => Ok (Some (configured member))
      end
  | None =>
      match top with
      | None => Ok None
      | Some top =>
          match git_common_dir top with
          | None => Ok None
          | Some common => sharing_member members top common
          end
      end
  end.
End Roots.

(** ** Resolving configured paths *)

(** The process environment and the files a configuration is read from. *)
Class ConfigEnv := {
  env_current_dir : result Path;
  env_home : option Path;             (* HOME *)
  env_xdg_config_home : option Path;  (* XDG_CONFIG_HOME *)
  read_file : Path → result str;
  try_exists : Path → result bool;
  parse_config : str → result ConfigDocument;    (* toml::from_str *)
  parse_registry : str → result (list Path);     (* toml::from_str *)
  path_hash : Path → str              (* blake3::hash(path bytes).to_hex() *)
}.

Section Config.
Context `{FileSystem, ConfigEnv}.

Definition expand_home (path : Path) : result Path :=
  match path with
  | Normal name :: rest =>
      if name =s lit "~" then
        home ← or_err "HOME is required to expand ~" env_home;
        Ok (path_join home rest)
      else
        _ ← ensure (negb (starts_with (lit "~") name)) "only ~/ paths support tilde expansion";
        Ok path
  | _ => Ok path
  end.

(** The loop of [resolve_path] over the components of the absolute path. *)
Definition resolve_step (resolved : Path) (c : Component) : result Path :=
  match c with
  | CurDir => Ok resolved
  | ParentDir => Ok (path_pop resolved)
  | other =>
      let resolved := path_push resolved other in
      match fs_canonicalize resolved with
      | inl canonical => Ok canonical
      | inr NotFound => Ok resolved
      | inr OtherError => Err "resolve workspace path"
      end
  end.
Fixpoint resolve_components (resolved : Path) (cs : list Component) : result Path :=
  match cs with
  | [] => Ok resolved
  | c :: cs' => resolved ← resolve_step resolved c; resolve_components resolved cs'
  end.

Definition resolve_path (path base : Path) : result Path :=
  expanded ← expand_home path;
  let absolute := if is_absolute expanded then expanded else path_join base expanded in
  _ ← ensure (is_absolute absolute) "workspace path base must be absolute";
  resolve_components [] absolute.

Definition read_document {T} (parse : str → result T) (path : Path) : result T :=
  contents ← read_file path;
  let bytes := take (CONFIG_LIMIT + 1) contents in
  _ ← ensure (length bytes <=? CONFIG_LIMIT) "workspace configuration exceeds 256 KiB";
  _ ← ensure (utf8_valid bytes) "workspace configuration is not UTF-8";
  parse bytes.

(** ** Loading: [WorkspaceConfig::load] *)

(** The order of the members: the listed one, or the sorted keys. *)
Definition member_names (document : ConfigDocument) : result (list str) :=
  match d_selection document with
  | Some names =>
      _ ← ensure (bool_decide (NoDup names)) "duplicate workspace member selection";
      _ ← ensure (bool_decide (length names = size (d_members document)) &&
                  forallb (λ name, bool_decide (is_Some (d_members document !! name))) names)
            "workspace.members must list every declared member exactly once";
      Ok names
  | None => Ok (sort_by str_compare (map_to_list (d_members document)).*1)
  end.

Definition overlapping (root other : Path) : bool :=
  path_starts_with root other || path_starts_with other root.

Definition load_member (document : ConfigDocument) (base : Path) (members : list Member)
    (name : str) : result Member :=
  _ ← ensure (valid_name name) "invalid workspace member name";
  path ← or_err "panic: no such member" (d_members document !! name);
  root ← resolve_path path base;
  identity ← match fs_metadata root with
             | inl metadata =>
                 _ ← ensure (bool_decide (kind metadata = IsDir)) "workspace member is not a directory";
                 Ok (Some (identity_of metadata))
             | inr NotFound => Ok None
             | inr OtherError => Err "inspect workspace member"
             end;
  _ ← ensure (forallb (λ other, negb (overlapping root (m_root other))) members)
        "workspace members have duplicate or overlapping roots";
  Ok {| m_name := name; m_root := root; m_identity := identity |}.

Fixpoint load_members (document : ConfigDocument) (base : Path) (members : list Member)
    (names : list str) : result (list Member) :=
  match names with
  | [] => Ok members
  | name :: names' =>
      member ← load_member document base members name;
      load_members document base (members ++ [member]) names'
  end.

Definition load (path : Path) : result WorkspaceConfig :=
  cwd ← env_current_dir;
  path ← resolve_path path cwd;
  path ← fs_ok "workspace configuration unavailable" (fs_canonicalize path);
  document ← read_document parse_config path;
  _ ← ensure (valid_name (d_name document)) "invalid workspace name";
  _ ← ensure (negb (bool_decide (d_members document = ∅))) "workspace must contain members";
  _ ← ensure (bool_decide (size (d_members document) ≤ MEMBER_LIMIT)) "workspace exceeds 32 members";
  names ← member_names document;
  base ← or_err "workspace configuration has no parent" (path_parent path);
  members ← load_members document base [] names;
  let budget := mjoin (d_budget document) in
  _ ← match budget with
      | Some budget => ensure ((1 <=? budget)%Z && (budget <=? MAX_BUDGET)%Z)
                         "invalid workspace output budget"
      | None => Ok tt
      end;
  Ok {| w_name := d_name document; w_id := path_hash path; w_path := path; w_members := members;
        w_semantic := default {| enabled := false; rerank := false |} (d_semantic document);
        w_budget := budget |}.

(** [WorkspaceConfig::home_root], [member_roots] and the acceptance of roots. *)
Definition set_home (r : MemberRoot) : MemberRoot :=
  {| mr_member := mr_member r; mr_root := mr_root r; mr_identity := mr_identity r;
     mr_worktree := mr_worktree r; mr_home := true |}.
Definition config_home_root (config : WorkspaceConfig) (start : Path) : result (option MemberRoot) :=
  cwd ← env_current_dir;
  start ← resolve_path start cwd;
  home ← home_root (w_members config) start;
  Ok (set_home <$> (home : option MemberRoot)).

Definition member_roots (config : WorkspaceConfig) (start : Path) : result (list MemberRoot) :=
  home ← config_home_root config start;
  Ok ((λ member,
         match home with
         | Some home => if m_name (mr_member home) =s m_name member then home else configured member
         | None => configured member
         end) <$> w_members config).

Definition accepts_explicit_root (config : WorkspaceConfig) (start : Path) : result bool :=
  if existsb (λ member, bool_decide (m_root member = start)) (w_members config) then Ok true
  else
    home ← config_home_root config start;
    Ok match home with
       | Some home => bool_decide (is_Some (mr_worktree home)) && bool_decide (mr_root home = start)
       | None => false
       end.
Definition accept_root (config : WorkspaceConfig) (start : Path) (explicit_root : bool)
    : result (option WorkspaceConfig) :=
  if explicit_root then
    accepted ← accepts_explicit_root config start;
    Ok (if accepted : bool then Some config else None)
  else Ok (Some config).

(** ** Discovery *)

(** The loop of [discover_registry]; [seen] holds the identities met. *)
Fixpoint registry_loop (base start : Path) (explicit_root : bool) (seen : list str)
    (matched : option WorkspaceConfig) (candidates : list Path) : result (option WorkspaceConfig) :=
  match candidates with
  | [] => Ok matched
  | candidate :: candidates' =>
      path ← resolve_path candidate base;
      config ← load path;
      if bool_decide (w_id config ∈ seen)
      then registry_loop base start explicit_root seen matched candidates'
      else
        let seen := w_id config :: seen in
        home ← config_home_root config start;
        match home with
        | None => registry_loop base start explicit_root seen matched candidates'
        | Some _ =>
            accepted ← accept_root config start explicit_root;
            match accepted with
            | None => registry_loop base start explicit_root seen matched candidates'
            | Some config =>
                match matched with
                | Some _ => Err "ambiguous workspace membership"
                | None => registry_loop base start explicit_root seen (Some config) candidates'
                end
            end
        end
  end.

Definition discover_registry (path start : Path) (explicit_root : bool)
    : result (option WorkspaceConfig) :=
  found ← try_exists path;
  if negb found then Ok None
  else
    candidates ← read_document parse_registry path;
    base ← or_err "workspace registry has no parent" (path_parent path);
    registry_loop base start explicit_root [] None candidates.

(** The loop over the ancestors of [start]: the first that holds a configuration
    decides. *)
Fixpoint discover_ancestor (start : Path) (explicit_root : bool) (paths : list Path)
    : result (option (option WorkspaceConfig)) :=
  match paths with
  | [] => Ok None
  | ancestor :: paths' =>
      let path := path_join ancestor [Normal CONFIG_NAME] in
      found ← try_exists path;
      if found : bool then
        config ← load path;
        accepted ← accept_root config start explicit_root;
        Ok (Some accepted)
      else discover_ancestor start explicit_root paths'
  end.

Definition config_base : option Path :=
  match env_xdg_config_home with
  | Some (_ :: _ as base) => Some base
  | _ => (λ home, path_join home [Normal (lit ".config")]) <$> env_home
  end.

Definition discover (start : Path) (explicit : option Path) (no_workspace explicit_root : bool)
    : result (option WorkspaceConfig) :=
  _ ← ensure (negb (no_workspace && bool_decide (is_Some explicit)))
        "--workspace conflicts with --no-workspace";
  if no_workspace then Ok None
  else
    cwd ← env_current_dir;
    start ← resolve_path start cwd;
    match explicit with
    | Some path =>
        config ← load path;
        accepted ← (if explicit_root then accepts_explicit_root config start else Ok true);
        _ ← ensure accepted "explicit root is not an exact workspace member";
        Ok (Some config)
    | None =>
        found ← discover_ancestor start explicit_root (ancestors start);
        match found with
        | Some accepted => Ok accepted
        | None =>
            match config_base with
            | None => Ok None
            | Some base =>
                discover_registry
                  (path_join base [Normal (lit "trufflepig"); Normal (lit "workspaces.toml")])
                  start explicit_root
            end
        end
    end.
End Config.

(** ** Members of a loaded configuration *)

Lemma path_starts_with_spec path base : path_starts_with path base = true ↔ base `prefix_of` path.
Proof. apply bool_decide_eq_true. Qed.

Lemma forallb_elem {A} (f : A → bool) l : forallb f l = true ↔ ∀ x, x ∈ l → f x = true.
Proof. rewrite forallb_forall. by setoid_rewrite <- list_elem_of_In. Qed.

Lemma overlapping_comm a b : overlapping a b = overlapping b a.
Proof. apply orb_comm. Qed.

(** Two prefixes of one path are comparable. *)
Lemma overlapping_common a b path :
  path_starts_with path a = true → path_starts_with path b = true → overlapping a b = true.
Proof.
  unfold overlapping. rewrite orb_true_iff, !path_starts_with_spec.
  intros Ha Hb. destruct (prefix_weak_total a b path Ha Hb); auto.
Qed.

(** No two members share a part of the file system. *)
Definition disjoint_roots (members : list Member) : Prop :=
  ∀ i j a b, members !! i = Some a → members !! j = Some b → i ≠ j →
    overlapping (m_root a) (m_root b) = false.

Lemma disjoint_roots_snoc members m :
  disjoint_roots members → Forall (λ o, overlapping (m_root m) (m_root o) = false) members →
  disjoint_roots (members ++ [m]).
Proof.
  intros Hd Hm i j a b Ha Hb Hij.
  assert (∀ k x, (members ++ [m]) !! k = Some x →
    members !! k = Some x ∨ k = length members ∧ x = m) as Hsplit.
  { intros k x. rewrite lookup_app_Some, list_lookup_singleton_Some. intros [?|(? & ? & <-)]; [by left|].
    right. split; [lia|done]. }
  rewrite Forall_lookup in Hm.
  destruct (Hsplit _ _ Ha) as [Ha'|[-> ->]], (Hsplit _ _ Hb) as [Hb'|[-> ->]].
  - by eapply Hd.
  - rewrite overlapping_comm. by eapply Hm.
  - by eapply Hm.
  - done.
Qed.

Lemma disjoint_roots_unique members path a b :
  disjoint_roots members → a ∈ members → b ∈ members →
  path_starts_with path (m_root a) = true → path_starts_with path (m_root b) = true → a = b.
Proof.
  intros Hd [i Hi]%list_elem_of_lookup [j Hj]%list_elem_of_lookup Ha Hb.
  destruct (decide (i = j)) as [->|Hij]; [congruence|].
  pose proof (overlapping_common _ _ _ Ha Hb). by rewrite (Hd i j a b) in H.
Qed.

Section ConfigFacts.
Context `{FileSystem, ConfigEnv}.

Lemma load_member_Ok document base members name m :
  load_member document base members name = Ok m →
  m_name m = name ∧ valid_name name = true ∧
  Forall (λ o, overlapping (m_root m) (m_root o) = false) members ∧
  ∃ path, d_members document !! name = Some path ∧ resolve_path path base = Ok (m_root m).
Proof.
  unfold load_member. intros Hm. result_inv. cbn [m_name m_root].
  split_and!; [done|done| |eexists; eauto].
  apply Forall_forall. intros o Ho. apply negb_true_iff.
  match goal with Hf : forallb _ _ = true |- _ => by apply (proj1 (forallb_elem _ _) Hf) end.
Qed.

Lemma load_members_Ok document base members names out :
  load_members document base members names = Ok out →
  disjoint_roots members → Forall (λ m, valid_name (m_name m) = true) members →
  disjoint_roots out ∧ Forall (λ m, valid_name (m_name m) = true) out ∧
  m_name <$> out = (m_name <$> members) ++ names.
Proof.
  revert members. induction names as [|name names IH]; intros members Hout Hd Hv; cbn [load_members] in Hout.
  { result_inv. by rewrite app_nil_r. }
  result_inv. pose proof (load_member_Ok _ _ _ _ _ H1) as (Hn & Hvn & Hf & _).
  apply IH in H2 as (Hd' & Hv' & ->).
  - split_and!; [done..|]. by rewrite fmap_app, <- app_assoc, <- Hn.
  - by apply disjoint_roots_snoc.
  - apply Forall_app. split; [done|]. apply Forall_singleton. by rewrite Hn.
Qed.

Lemma member_names_Ok document names :
  member_names document = Ok names →
  NoDup names ∧ (∀ name, name ∈ names ↔ is_Some (d_members document !! name)) ∧
  length names = size (d_members document).
Proof.
  unfold member_names. assert (∀ name, name ∈ (map_to_list (d_members document)).*1 ↔
    is_Some (d_members document !! name)) as Hkeys.
  { intros name. rewrite list_elem_of_fmap. split.
    - intros ([k v] & -> & Hkv%elem_of_map_to_list). cbn. by rewrite Hkv.
    - intros [v Hv]. exists (name, v). split; [done|]. by apply elem_of_map_to_list. }
  pose proof (NoDup_fst_map_to_list (d_members document)) as Hnd.
  assert (length (map_to_list (d_members document)).*1 = size (d_members document)) as Hlen
    by (by rewrite length_fmap, length_map_to_list).
  destruct (d_selection document) as [listed|]; intros Hn; result_inv.
  - bool_to_prop. split_and!; [done| |done]. intros name. rewrite <- Hkeys.
    assert (names ⊆+ (map_to_list (d_members document)).*1) as Hsub.
    { apply NoDup_submseteq; [done|]. intros k Hx. apply Hkeys.
      match goal with Hf : forallb _ _ = true |- _ =>
        apply (proj1 (forallb_elem _ _) Hf) in Hx; cbn beta in Hx end.
      by apply bool_decide_eq_true in Hx. }
    apply submseteq_length_Permutation in Hsub as Hperm; [|lia]. by rewrite Hperm.
  - pose proof (sort_by_perm str_compare (map_to_list (d_members document)).*1) as Hperm.
    split_and!; [by rewrite Hperm|intros name; by rewrite Hperm|by rewrite Hperm].
Qed.
End ConfigFacts.

(** ** The home member *)

Lemma path_parent_prefix path parent : path_parent path = Some parent → parent `prefix_of` path.
Proof.
  unfold path_parent. destruct path as [|c path _] using rev_ind; [done|].
  rewrite last_snoc, removelast_last. destruct c; try done; intros [= <-]; by eexists.
Qed.

Lemma ancestors_prefix path a : a ∈ ancestors path → a `prefix_of` path.
Proof.
  unfold ancestors. generalize (S (length path)) as fuel. intros fuel.
  revert path. induction fuel as [|fuel IH]; intros path; cbn [ancestors_go]; [by rewrite elem_of_nil|].
  rewrite elem_of_cons. intros [->|Ha]; [done|].
  destruct (path_parent path) as [parent|] eqn:E; [|by rewrite elem_of_nil in Ha].
  etrans; [by apply IH|by apply path_parent_prefix].
Qed.

Section HomeFacts.
Context `{FileSystem}.

Lemma worktree_top_elem paths top :
  worktree_top_go paths = Some top →
  top ∈ paths ∧ ∃ m, fs_metadata (path_join top [Normal (lit ".git")]) = inl m ∧ kind m = IsFile.
Proof.
  induction paths as [|a paths IH]; cbn [worktree_top_go]; [done|].
  destruct (fs_metadata (path_join a _)) as [m|e] eqn:E.
  - case_bool_decide; intros [= <-]. split; [set_solver|by eauto].
  - intros Ht. destruct (IH Ht). split; [set_solver|done].
Qed.

Lemma linked_top_contains start top :
  linked_worktree_top start = Some top → path_starts_with start top = true.
Proof.
  intros [Ha _]%worktree_top_elem. by apply path_starts_with_spec, ancestors_prefix.
Qed.

Lemma linked_Ok member root r :
  linked member root = Ok r →
  mr_member r = member ∧ mr_root r = root ∧ mr_home r = false ∧ is_Some (mr_worktree r).
Proof. unfold linked. intros Hl. result_inv. by eauto. Qed.

(** The worktree at [top] belongs to the member's repository. *)
Definition belongs_to (member : Member) (top : Path) : Prop :=
  is_Some (linked_root_of_member member top) ∨
  ∃ common, git_common_dir top = Some common ∧ member_common_dir member = Some common.

(** What a home root is, for a start directory [at_]. *)
Definition home_of (at_ : Path) (r : MemberRoot) : Prop :=
  path_starts_with at_ (mr_root r) = true ∧
  match mr_worktree r with
  | None => mr_root r = m_root (mr_member r) ∧ mr_identity r = m_identity (mr_member r)
  | Some _ => linked_worktree_top at_ = Some (mr_root r) ∧ belongs_to (mr_member r) (mr_root r)
  end.

Definition canonical_or_self (path : Path) : Path :=
  match fs_canonicalize path with inl c => c | inr _ => path end.

Lemma linked_home start top member r :
  linked_worktree_top start = Some top → belongs_to member top → linked member top = Ok r →
  home_of start r ∧ mr_member r = member ∧ mr_home r = false.
Proof.
  intros Htop Hb (Hm & Hr & Hh & [label Hw])%linked_Ok. unfold home_of.
  rewrite Hw, Hr, Hm. split_and!; eauto using linked_top_contains.
Qed.

Lemma sharing_member_Ok members start top common r :
  linked_worktree_top start = Some top → git_common_dir top = Some common →
  sharing_member members top common = Ok (Some r) →
  home_of start r ∧ mr_member r ∈ members ∧ mr_home r = false.
Proof.
  intros Htop Hc. induction members as [|m members IH]; cbn [sharing_member]; [done|].
  case_bool_decide as Hm.
  - intros Hl. result_inv. destruct (linked_home start top m r) as (? & -> & ?); [done| |done|].
    { right. by eauto. }
    split_and!; [done|set_solver|done].
  - intros Hl. destruct (IH Hl) as (? & ? & ?). split_and!; [done|set_solver|done].
Qed.

Lemma home_root_Ok members start r :
  home_root members start = Ok (Some r) →
  home_of (canonical_or_self start) r ∧ mr_member r ∈ members ∧ mr_home r = false.
Proof.
  unfold home_root. fold (canonical_or_self start). set (at_ := canonical_or_self start).
  destruct (List.find _ members) as [m|] eqn:Hfind.
  - apply List.find_some in Hfind as [Hin Hs]. rewrite <- list_elem_of_In in Hin.
    assert (Ok (Some (configured m)) = Ok (Some r) →
      home_of at_ r ∧ mr_member r ∈ members ∧ mr_home r = false) as Hconf.
    { intros [= <-]. unfold home_of. cbn. by rewrite Hs. }
    destruct (linked_worktree_top at_) as [top|] eqn:Htop.
    + case_bool_decide as Hne; cbn [andb]; [|exact Hconf].
      case_bool_decide as Hl; [|exact Hconf].
      intros Hr. result_inv.
      destruct (linked_home at_ top m r) as (? & -> & ?); [done|by left|done|done].
    + exact Hconf.
  - destruct (linked_worktree_top at_) as [top|] eqn:Htop; [|done].
    destruct (git_common_dir top) as [common|] eqn:Hc; [|done].
    by apply sharing_member_Ok.
Qed.
End HomeFacts.

Section WorkspaceFacts.
Context `{FileSystem, ConfigEnv}.

Lemma load_Ok path config :
  load path = Ok config →
  disjoint_roots (w_members config) ∧ NoDup (m_name <$> w_members config) ∧
  Forall (λ m, valid_name (m_name m) = true) (w_members config) ∧
  1 ≤ length (w_members config) ≤ MEMBER_LIMIT ∧ valid_name (w_name config) = true ∧
  match w_budget config with Some b => (1 ≤ b ≤ MAX_BUDGET)%Z | None => True end.
Proof.
  unfold load. intros Hl. result_inv. cbn [w_members w_name w_budget].
  match goal with Hn : member_names _ = Ok _ |- _ => apply member_names_Ok in Hn as (Hnd & _ & Hlen) end.
  match goal with Hm : load_members _ _ _ _ = Ok _ |- _ =>
    apply load_members_Ok in Hm as (Hd & Hv & Hnames); [|by intros ? ? ? ? [=]|by constructor] end.
  cbn [fmap list_fmap app] in Hnames. rewrite <- Hnames in Hnd, Hlen. rewrite length_fmap in Hlen.
  bool_to_prop.
  match goal with Hne : d_members ?d ≠ ∅ |- _ =>
    assert (size (d_members d) ≠ 0) by by intros ?%map_size_empty_inv end.
  split_and!; [done|done|done|lia|lia|done|].
  destruct (mjoin _); [|done]. result_inv. by bool_to_prop.
Qed.

Lemma config_home_Ok config start r :
  config_home_root config start = Ok (Some r) →
  mr_member r ∈ w_members config ∧ mr_home r = true ∧
  ∃ cwd resolved, env_current_dir = Ok cwd ∧ resolve_path start cwd = Ok resolved ∧
    home_of (canonical_or_self resolved) r.
Proof.
  unfold config_home_root. intros Hr. result_inv.
  match goal with Hh : home_root _ _ = Ok ?o |- _ => destruct o as [home|]; [|done] end.
  match goal with Hs : _ = Some r |- _ => injection Hs as <- end.
  match goal with Hh : home_root _ _ = Ok _ |- _ => apply home_root_Ok in Hh as (Hof & Hin & _) end.
  split_and!; [done|done|]. by eexists _, _.
Qed.
End WorkspaceFacts.

(** C29. Loaded workspaces: a configuration that loads has between one and 32 members
    with distinct, well-formed names, no member root contains another, so any
    directory lies in at most one member, and a configured budget is in range. *)
Theorem loaded_workspace_sound `{FileSystem, ConfigEnv} (path : Path) (config : WorkspaceConfig) :
  load path = Ok config →
  1 ≤ length (w_members config) ≤ MEMBER_LIMIT ∧ NoDup (m_name <$> w_members config) ∧
  Forall (λ m, valid_name (m_name m) = true) (w_members config) ∧
  disjoint_roots (w_members config) ∧
  (∀ dir a b, a ∈ w_members config → b ∈ w_members config →
     path_starts_with dir (m_root a) = true → path_starts_with dir (m_root b) = true → a = b) ∧
  match w_budget config with Some b => (1 ≤ b ≤ MAX_BUDGET)%Z | None => True end.
Proof.
  intros (Hd & Hnd & Hv & Hlen & _ & Hb)%load_Ok. split_and!; [lia|lia|done..| |done].
  intros dir a b. by apply disjoint_roots_unique.
Qed.

(** Effective roots: for every start directory the roots of a loaded workspace
    list its members in order; at most one of them is home, every other one is the
    configured checkout, and the home root contains the start directory: it is the
    member's own root, or the nearest linked worktree, whose repository is the
    member's. *)
Theorem member_roots_one_home `{FileSystem, ConfigEnv} (path start : Path)
    (config : WorkspaceConfig) (roots : list MemberRoot) :
  load path = Ok config → member_roots config start = Ok roots →
  mr_member <$> roots = w_members config ∧
  (∀ r, r ∈ roots → mr_home r = false → r = configured (mr_member r)) ∧
  (∀ i j r r', roots !! i = Some r → roots !! j = Some r' → mr_home r = true → mr_home r' = true →
     i = j) ∧
  (∀ r, r ∈ roots → mr_home r = true →
     ∃ cwd resolved, env_current_dir = Ok cwd ∧ resolve_path start cwd = Ok resolved ∧
       home_of (canonical_or_self resolved) r).
Proof.
  intros (_ & Hnd & _)%load_Ok Hroots. unfold member_roots in Hroots. result_inv.
  match goal with Hh : config_home_root _ _ = Ok ?o |- _ => destruct o as [home|]; rename Hh into Hhome end.
  2: { rewrite <- list_fmap_compose. split_and!.
    - by rewrite list_fmap_id.
    - intros r (m & -> & _)%list_elem_of_fmap. done.
    - intros i j r r' Hr _ Hh. rewrite list_lookup_fmap in Hr.
      destruct (_ !! i); [|done]. by injection Hr as <-.
    - intros r (m & -> & _)%list_elem_of_fmap. done. }
  apply config_home_Ok in Hhome as (Hin & Hhome & Hof).
  assert (∀ m, m ∈ w_members config → m_name (mr_member home) = m_name m → mr_member home = m) as Huniq
    by (intros m Hm Hn; by apply (elem_of_same_key m_name (w_members config))).
  assert (∀ i r, ((λ m, if m_name (mr_member home) =s m_name m then home else configured m)
      <$> w_members config) !! i = Some r →
    ∃ m, w_members config !! i = Some m ∧
      (r = home ∧ mr_member home = m ∨ r = configured m)) as Hlook.
  { intros i r. rewrite list_lookup_fmap. destruct (w_members config !! i) as [m|] eqn:Hm; [|done].
    intros [= <-]. exists m. split; [done|]. case_bool_decide as Hn; [left|by right].
    split; [done|]. apply Huniq; [by eapply list_elem_of_lookup_2|done]. }
  split_and!.
  - apply list_eq. intros i. rewrite list_lookup_fmap.
    destruct ((_ <$> _) !! i) as [r|] eqn:Hr.
    + destruct (Hlook i r Hr) as (m & -> & [[-> <-]| ->]); done.
    + rewrite list_lookup_fmap in Hr. by destruct (w_members config !! i).
  - intros r [i Hr]%list_elem_of_lookup Hh.
    destruct (Hlook i r Hr) as (m & _ & [[-> _]| ->]); congruence || done.
  - intros i j r r' Hr Hr' Hh Hh'.
    destruct (Hlook i r Hr) as (m & Hm & [[-> Hmm]| ->]); [|done].
    destruct (Hlook j r' Hr') as (m' & Hm' & [[-> Hmm']| ->]); [|done]. subst m m'.
    eapply (NoDup_lookup _ i j _ Hnd); rewrite list_lookup_fmap; [by rewrite Hm|by rewrite Hm'].
  - intros r [i Hr]%list_elem_of_lookup Hh.
    by destruct (Hlook i r Hr) as (m & _ & [[-> _]| ->]).
Qed.

(** Discovery stops at the nearest ancestor that holds a configuration, whether
    or not it accepts the start directory. *)
Lemma discover_nearest `{FileSystem, ConfigEnv} start explicit_root pre a post :
  (∀ b, b ∈ pre → try_exists (path_join b [Normal CONFIG_NAME]) = Ok false) →
  try_exists (path_join a [Normal CONFIG_NAME]) = Ok true →
  discover_ancestor start explicit_root (pre ++ a :: post)
    = (config ← load (path_join a [Normal CONFIG_NAME]);
       accepted ← accept_root config start explicit_root; Ok (Some accepted)).
Proof.
  intros Hpre Ha. induction pre as [|b pre IH]; cbn [app discover_ancestor].
  - by rewrite Ha.
  - rewrite Hpre by set_solver. cbn [mbind result_bind]. apply IH. set_solver.
Qed.

(** Resolved paths are absolute and without dot components, when canonical paths
    are. *)
Definition resolved_path (path : Path) : Prop :=
  ∃ names, path = RootDir :: (Normal <$> names).

Lemma resolved_pop path : resolved_path path → resolved_path (path_pop path).
Proof.
  intros [names ->]. unfold path_pop, path_parent.
  destruct names as [|n names _] using rev_ind; [by exists []|].
  rewrite fmap_app, app_comm_cons. cbn [fmap list_fmap]. rewrite last_snoc, removelast_last.
  by exists names.
Qed.

Lemma resolved_push path c : resolved_path path → c ≠ CurDir → c ≠ ParentDir → resolved_path (path_push path c).
Proof.
  intros [names ->] ? ?. destruct c as [| | |n]; try done; [by exists []|].
  exists (names ++ [n]). unfold path_push. by rewrite fmap_app.
Qed.

Lemma resolve_path_absolute `{FileSystem, ConfigEnv} path base out :
  (∀ p c, fs_canonicalize p = inl c → resolved_path c) →
  resolve_path path base = Ok out → resolved_path out.
Proof.
  intros Hcan Hres. unfold resolve_path in Hres. result_inv.
  assert (∀ cs p out, resolved_path p → resolve_components p cs = Ok out → resolved_path out) as Hgo.
  { induction cs as [|c cs IH]; intros p o Hp Ho; cbn [resolve_components] in Ho; result_inv; [done|].
    eapply IH; [|done]. destruct c; cbn [resolve_step] in *; result_inv; [|done|by apply resolved_pop|].
    all: destruct (fs_canonicalize _) as [q|[]] eqn:E; result_inv;
      [by eapply Hcan|first [by exists []|by apply (resolved_push p (Normal part))]]. }
  set (absolute := if is_absolute x then x else path_join base x) in *.
  destruct absolute as [|[] cs]; try done. cbn [resolve_components resolve_step path_push] in *.
  result_inv. eapply Hgo; [|done].
  destruct (fs_canonicalize [RootDir]) as [q|[]] eqn:E; result_inv; [by eapply Hcan|by exists []].
Qed.

(** Two members under [/w], one with a linked worktree beside them. *)
Module MembersExample.
Definition dir (names : list string) : Path := RootDir :: (Normal ∘ lit <$> names).
Definition dirs : list Path :=
  [dir []; dir ["w"]; dir ["w"; "a"]; dir ["w"; "b"]; dir ["w"; "a"; ".git"]; dir ["w"; "b"; ".git"];
   dir ["w"; "wt"]; dir ["w"; "wt"; "src"]]%string.
Definition files : list Path := [dir ["w"; "wt"; ".git"]; dir ["w"; "ws.toml"]]%string.
#[export] Instance fs : FileSystem := {|
  fs_canonicalize p := if bool_decide (p ∈ dirs ++ files) then inl p else inr NotFound;
  fs_metadata p :=
    if bool_decide (p ∈ dirs) then inl {| kind := IsDir; dev := 1; ino := Z.of_nat (length p) |}
    else if bool_decide (p ∈ files) then inl {| kind := IsFile; dev := 1; ino := 9 |}
    else inr NotFound;
  git_common_dir p := if bool_decide (p = dir ["w"; "wt"]%string) then Some (dir ["w"; "a"; ".git"]%string) else None
|}.
Definition document : ConfigDocument :=
  {| d_name := lit "ws"; d_selection := None;
     d_members := {[ lit "b" := dir ["w"; "b"]%string; lit "a" := [Normal (lit "a")] ]};
     d_semantic := None; d_budget := Some (Some 500%Z) |}.
#[export] Instance env : ConfigEnv := {|
  env_current_dir := Ok (dir ["w"]%string); env_home := None; env_xdg_config_home := None;
  read_file _ := Ok (lit "name"); try_exists _ := Ok false;
  parse_config _ := Ok document; parse_registry _ := Ok []; path_hash _ := lit "id"
|}.
Definition config : WorkspaceConfig :=
  {| w_name := lit "ws"; w_id := lit "id"; w_path := dir ["w"; "ws.toml"]%string;
     w_members := [
       {| m_name := lit "a"; m_root := dir ["w"; "a"]%string;
          m_identity := Some {| device := 1; inode := 3 |} |};
       {| m_name := lit "b"; m_root := dir ["w"; "b"]%string;
          m_identity := Some {| device := 1; inode := 3 |} |}];
     w_semantic := {| enabled := false; rerank := false |}; w_budget := Some 500%Z |}.
Lemma loads : load [Normal (lit "ws.toml")] = Ok config.
Proof. vm_compute. done. Qed.
Definition roots : list MemberRoot :=
  match member_roots config (dir ["w"; "wt"; "src"]%string) with Ok roots => roots | Err _ => [] end.
(** The worktree stands in for its member. *)
Example worktree_is_home :
  (λ r, (root_name r, mr_home r, mr_worktree r)) <$> roots
  = [(lit "a", true, Some (lit "wt")); (lit "b", false, None)].
Proof. vm_compute. done. Qed.
End MembersExample.
Import MembersExample.

Lemma loaded_workspace_sound_witness :
  load [Normal (lit "ws.toml")] = Ok MembersExample.config ∧
  disjoint_roots (w_members MembersExample.config).
Proof.
  split; [exact MembersExample.loads|].
  exact (proj1 (proj2 (proj2 (proj2
    (loaded_workspace_sound [Normal (lit "ws.toml")] MembersExample.config MembersExample.loads))))).
Defined.

Lemma member_roots_one_home_witness :
  mr_member <$> MembersExample.roots = w_members MembersExample.config.
Proof.
  exact (proj1 (member_roots_one_home [Normal (lit "ws.toml")]
    (MembersExample.dir ["w"; "wt"; "src"]%string) MembersExample.config MembersExample.roots
    MembersExample.loads eq_refl)).
Defined.
