(* ===== verification/WorkspaceSets.v ===== *)
(** * Result sets of a workspace

    Models [src/src/workspace/result_cache.rs] and
    [src/src/workspace/result_cache/lines.rs]: a set of hits owned by several
    members, its coverage rows, saving with shrinking and eviction, loading with
    its validity checks, and pages over it.  The table [workspace_results] is a
    list of rows; the [uuid] crate, the JSON codec, the tokenizer and the two
    readings of the clock are parameters.  Reopening a member's index
    ([MemberSnapshot::open]) is I/O. *)
From Stdlib Require Import Ascii String ZArith Lia Permutation Sorted.
From stdpp Require Import base numbers list gmap strings sorting.
From S2P Require Import Prelude Order Text Identity Paths Hits Pages ResultStore QueryShape Source.

(** ** JSON rows *)

(** [value[key] = x] on an object (or on null, which becomes one); other values
    panic in the code and are left alone here, since every row is an object. *)
Definition jset (v : Json) (key : string) (x : Json) : Json :=
  match v with
  | JObj m => JObj (obj_insert m (lit key) x)
  | JNull => JObj [(lit key, x)]
  | _ => v
  end.
Definition jstr (s : string) : Json := JStr (lit s).
Definition jstr_opt (o : option str) : Json := match o with Some s => JStr s | None => JNull end.

Lemma jindex_jset_obj m key x k :
  jindex (jset (JObj m) key x) k = if lit key =s lit k then x else jindex (JObj m) k.
Proof. cbn. rewrite obj_get_insert. by case_bool_decide. Qed.

(** ** Owners and entries *)

Record ParentIndexRecord := { pi_root : str; pi_cache : str }.
Record MemberSnapshot := {
  ms_name : str; ms_root : str; ms_cache : str; ms_device : Z; ms_inode : Z;
  ms_index_identity : str; ms_generation : Z; ms_coverage : Json;
  ms_worktree : option str; ms_parent_index : option ParentIndexRecord
}.
(** [MemberSnapshot::metadata]. *)
Definition metadata (m : MemberSnapshot) (workspace : str) : Json :=
  let value := jset (jset (jset JNull "workspace" (JStr workspace)) "member" (JStr (ms_name m)))
                 "repository" (JStr (ms_root m)) in
  let value := match ms_worktree m with Some label => jset value "worktree" (JStr label) | None => value end in
  match ms_parent_index m with
  | Some _ => jset value "served_from" (JStr (ms_name m ++ lit " index"))
  | None => value
  end.

Record OwnedEntry := {
  owner : nat; member_rank : nat; oe_entry : ResultEntry; worktree_differs : bool
}.
Record WorkspaceSet := {
  ws_workspace : str; ws_home : option str; ws_owners : list MemberSnapshot;
  ws_coverage : list Json; ws_hits : list OwnedEntry; ws_truncated : bool; ws_scope : option str
}.
Definition with_ws (set : WorkspaceSet) (coverage : list Json) (hits : list OwnedEntry)
    (truncated : bool) : WorkspaceSet :=
  {| ws_workspace := ws_workspace set; ws_home := ws_home set; ws_owners := ws_owners set;
     ws_coverage := coverage; ws_hits := hits; ws_truncated := truncated;
     ws_scope := ws_scope set |}.
Definition set_entry_handle (e : OwnedEntry) (handle : str) : OwnedEntry :=
  {| owner := owner e; member_rank := member_rank e; oe_entry := handle_mut (oe_entry e) handle;
     worktree_differs := worktree_differs e |}.

(** ** Saving *)

(** [hits] of each owner, and the row of the first coverage of that name. *)
Definition owner_count (hits : list OwnedEntry) (i : nat) : nat :=
  length (filter (λ h, owner h = i) hits).
Definition row_of (name : str) (v : Json) : bool := bool_decide (as_str (jindex v "member") = Some name).
Fixpoint update_first {A} (p : A → bool) (f : A → A) (l : list A) : list A :=
  match l with
  | [] => []
  | x :: l' => if p x then f x :: l' else x :: update_first p f l'
  end.
Definition refresh_row (count : nat) (row : Json) : Json :=
  let row := match as_u64 (jindex row "retained") with
             | Some old => if (Z.of_nat count <? old)%Z then jset row "truncated" (JBool true) else row
             | None => row
             end in
  jset row "retained" (jnat count).
Definition refresh_rows (owners : list MemberSnapshot) (hits : list OwnedEntry)
    (coverage : list Json) : list Json :=
  foldl (λ coverage '(i, owner), update_first (row_of (ms_name owner)) (refresh_row (owner_count hits i)) coverage)
    coverage (imap pair owners).
Definition refresh_retained_counts (set : WorkspaceSet) : WorkspaceSet :=
  with_ws set (refresh_rows (ws_owners set) (ws_hits set) (ws_coverage set)) (ws_hits set)
    (ws_truncated set).

Record WsRow := { wr_id : str; wr_expires : Z; wr_payload : str }.
#[export] Instance ws_row_eq_dec : EqDecision WsRow.
Proof. solve_decision. Defined.
Definition ws_row_compare : WsRow → WsRow → comparison :=
  cmp_then (cmp_on wr_expires Z.compare) (cmp_on wr_id str_compare).
Definition ws_total (rows : list WsRow) : Z := foldr (λ r n, blen (wr_payload r) + n)%Z 0%Z rows.
Definition ws_within_limits (rows : list WsRow) : bool :=
  (length rows <=? 50) && (ws_total rows <=? MAX_BYTES)%Z.
(** [DELETE ... WHERE id=(SELECT id ... WHERE id<>?1 ORDER BY expires,id LIMIT 1)]. *)
Definition ws_delete_oldest (id : str) (rows : list WsRow) : list WsRow :=
  match sort_by ws_row_compare (filter (λ r, wr_id r ≠ id) rows) with
  | [] => rows
  | oldest :: _ => filter (λ r, wr_id r ≠ wr_id oldest) rows
  end.
Fixpoint ws_evict (fuel : nat) (id : str) (rows : list WsRow) : list WsRow :=
  match fuel with
  | O => rows
  | S fuel' => if ws_within_limits rows then rows else ws_evict fuel' id (ws_delete_oldest id rows)
  end.

Section Store.
Context {uuid : Type} `{UuidCrate uuid}.
Context (to_string : WorkspaceSet → str) (from_str : str → result WorkspaceSet).

(** The loop that cuts hits until the payload fits; each turn keeps strictly
    fewer, so the number of hits is enough fuel. *)
Fixpoint ws_shrink (fuel : nat) (set : WorkspaceSet) : WorkspaceSet :=
  match fuel with
  | O => set
  | S fuel' =>
      let payload := to_string set in
      if (MAX_BYTES <? blen payload)%Z && negb (length (ws_hits set) =? 0) then
        let keep := keep_count (length (ws_hits set)) (blen payload) in
        ws_shrink fuel' (refresh_retained_counts
          (with_ws set (ws_coverage set) (take keep (ws_hits set)) true))
      else set
  end.

Definition ws_assign (id : str) (hits : list OwnedEntry) : list OwnedEntry :=
  imap (λ index hit, set_entry_handle hit (id ++ lit ":" ++ show_nat (index + 1))) hits.

(** The set [save] stores. *)
Definition ws_prepared (id : str) (set : WorkspaceSet) : WorkspaceSet :=
  let truncated := ws_truncated set || (MAX_HITS <? length (ws_hits set)) in
  let hits := ws_assign id (take MAX_HITS (ws_hits set)) in
  let set := refresh_retained_counts (with_ws set (ws_coverage set) hits truncated) in
  ws_shrink (length hits) set.

(** [t1] and [t2] are the clock at the deletion and at the insertion. *)
Definition ws_save (rows : list WsRow) (u : uuid) (t1 t2 : Z) (set : WorkspaceSet)
    : result (str * list WsRow) :=
  let id := uuid_simple u in
  let payload := to_string (ws_prepared id set) in
  _ ← ensure (blen payload <=? MAX_BYTES)%Z
        "result_cache_unavailable: workspace metadata exceeds capacity";
  let rows := filter (λ r, (t1 < wr_expires r)%Z) rows in
  if bool_decide (id ∈ wr_id <$> rows) then Err "UNIQUE constraint failed: workspace_results.id"
  else
    let rows := rows ++ [{| wr_id := id; wr_expires := t2 + 600; wr_payload := payload |}] in
    Ok (id, ws_evict (length rows) id rows).

(** ** Loading *)

Definition valid_ownership (set : WorkspaceSet) : bool :=
  (length (ws_owners set) <=? 32) && (length (ws_hits set) <=? MAX_HITS) &&
  forallb (λ hit, owner hit <? length (ws_owners set)) (ws_hits set).

Definition ws_load (rows : list WsRow) (now : Z) (id : str) : result WorkspaceSet :=
  _ ← or_err "invalid_handle: invalid set identifier" (uuid_parse_str id);
  row ← or_err "expired_result: workspace result expired or was evicted; search again"
          (head (filter (λ r, wr_id r = id ∧ (now < wr_expires r)%Z) rows));
  _ ← ensure (blen (wr_payload row) <=? MAX_BYTES)%Z "result_unavailable: oversized workspace result";
  set ← from_str (wr_payload row);
  _ ← ensure (valid_ownership set) "result_unavailable: invalid workspace ownership";
  Ok set.

Definition ws_entry (rows : list WsRow) (now : Z) (handle : str) : result (WorkspaceSet * nat) :=
  handle ← handle_from_str handle;
  set ← ws_load rows now (uuid_simple (handle_set handle));
  _ ← ensure (handle_ordinal handle <=? Z.of_nat (length (ws_hits set)))%Z
        "invalid_handle: ordinal outside result set";
  Ok (set, Z.to_nat (handle_ordinal handle - 1)).
End Store.

(** ** Coverage in pages: [lines.rs] *)

Definition status_rank (status : str) : nat :=
  if status =s lit "ready" then 0 else if status =s lit "pending" then 1
  else if status =s lit "partial" then 2 else 3.

Definition partial_text (value : Json) : str :=
  let kinds := omap as_str (default [] (as_array (jindex value "unsearched_kinds"))) in
  match as_u64 (jindex value "unsearched") with
  | Some count =>
      if (0 <? count)%Z then
        match kinds with
        | [] => lit "partial (" ++ show_usize count ++ lit " unsearched)"
        | _ => lit "partial (" ++ show_usize count ++ lit " unsearched: " ++ join (lit ", ") kinds ++ lit ")"
        end
      else lit "partial"
  | None => lit "partial"
  end.

Definition differs_text (differs : Json) : str :=
  match as_u64 differs with
  | None => lit "differences unknown"
  | Some 0%Z => lit "no files differ"
  | Some 1%Z => lit "1 file differs"
  | Some count => show_usize count ++ lit " files differ"
  end.

Definition member_label (value : Json) : str :=
  let member := default (lit "?") (as_str (jindex value "member")) in
  match as_str (jindex value "worktree") with
  | Some label => member ++ lit "@" ++ label
  | None => member
  end.

(** The summary of one member. *)
Definition state_text (value : Json) : str :=
  let state := default (lit "unknown") (as_str (jindex value "state")) in
  if state =s lit "searched" then
    if negb (is_true (jindex value "partial")) then lit "complete" else partial_text value
  else if state =s lit "parent_fallback" then
    default (lit "warming") (as_str (jindex value "home_state")) ++ lit " → served from " ++
    default (lit "parent index") (as_str (jindex value "served_from")) ++ lit " (" ++
    differs_text (jindex value "differs") ++ lit ")" ++
    (if is_true (jindex value "partial") then lit " " ++ partial_text value else [])
  else if state =s lit "timed_out" then lit "timed out"
  else match as_str (jindex value "reason") with
       | Some reason => state ++ lit " (" ++ reason ++ lit ")"
       | None => state
       end.
Definition member_part (value : Json) : str :=
  member_label value ++ lit " " ++ state_text value ++
  (if is_true (jindex value "truncated") then lit " truncated" else []) ++
  match reference_summary value with Some refs => lit " (" ++ refs ++ lit ")" | None => [] end.

(** The worst semantic status so far, and whether reranking was unavailable. *)
Definition lane_step (state : option str * bool) (value : Json) : option str * bool :=
  let issues := jindex value "issues" in
  let semantic := match as_str (jindex issues "semantic_status") with
    | Some status =>
        if negb (unconfigured (as_str (jindex issues "semantic_reason"))) &&
           match state.1 with Some current => status_rank current <? status_rank status | None => true end
        then Some status else state.1
    | None => state.1
    end in
  (semantic,
   state.2 || (bool_decide (as_str (jindex issues "rerank_status") = Some (lit "unavailable")) &&
               negb (unconfigured (as_str (jindex issues "rerank_reason"))))).

Definition member_coverage_summary (values : list Json) : str :=
  let '(semantic, rerank_unavailable) := foldl lane_step (None, false) values in
  join (lit "; ") (
    (member_part <$> values) ++
    match semantic with
    | Some status => if status =s lit "ready" then [] else [lit "semantic " ++ status]
    | None => []
    end ++
    (if rerank_unavailable : bool then [lit "rerank unavailable"] else [])).

(** Marks the line of each hit whose file may differ. *)
Definition differing_handles (hits : list OwnedEntry) : list str :=
  omap (λ owned, if worktree_differs owned then
                   match oe_entry owned with LiveSource hit => Some (hit_handle hit) | _ => None end
                 else None) hits.
Definition mark_line (differing : list str) (line : str) : str :=
  let body := default line (strip_suffix [nl] line) in
  body ++
  match split_once tab body with
  | Some (handle, _) => if bool_decide (handle ∈ differing) then tab :: lit "differs" else []
  | None => []
  end ++
  (if length body <? length line then [nl] else []).
Definition mark_worktree_differs (text : str) (hits : list OwnedEntry) : str :=
  match differing_handles hits with
  | [] => text
  | differing => split_lines text ≫= mark_line differing
  end.

Definition COMPACT_KEYS : list string :=
  ["member"; "root"; "worktree"; "state"; "home_state"; "served_from"; "differs"; "differing_hits";
   "status"; "available"; "availability"; "pending"; "pending_reason"; "pending_status"; "reason";
   "reasons"; "unavailable_reason"; "error"; "failure"; "generation"; "retained"; "truncated";
   "partial"; "unsearched"; "unsearched_kinds"; "issues"]%string.
Definition REFERENCE_COVERAGE_KEYS : list string :=
  ["reference_sites"; "reference_files"; "reference_sites_truncated"]%string.

(** The first [limit] characters of a longer text, ellipsized. *)
Definition ellipsize (limit : nat) (s : str) : str :=
  if limit <? length (chars s) then mjoin (take limit (chars s)) ++ lit "…" else s.

Definition obj_remove (m : list (str * Json)) (key : str) : list (str * Json) :=
  filter (λ kv, kv.1 ≠ key) m.
Definition obj_copy (from : list (str * Json)) (m : list (str * Json)) (key : string)
    : list (str * Json) :=
  match obj_get from (lit key) with Some v => obj_insert m (lit key) v | None => m end.
Definition compact_issues (issues : list (str * Json)) : list (str * Json) :=
  let issues :=
    if bool_decide (as_str (jindex (JObj issues) "semantic_status") = Some (lit "ready"))
    then foldl obj_remove issues
           (lit <$> ["semantic_scope"; "semantic_regions"; "semantic_total_regions"]%string)
    else issues in
  foldl (λ issues key,
    match obj_get issues (lit key) with
    | Some (JStr reason) => obj_insert issues (lit key) (JStr (ellipsize 120 reason))
    | _ => issues
    end) issues ["semantic_reason"; "semantic_preparation_error"]%string.
Definition compact_row (value : Json) : Json :=
  match value with
  | JObj object =>
      let compact := foldl (obj_copy object) [] (COMPACT_KEYS ++ REFERENCE_COVERAGE_KEYS) in
      match obj_get compact (lit "issues") with
      | Some (JObj issues) => JObj (obj_insert compact (lit "issues") (JObj (compact_issues issues)))
      | _ => JObj compact
      end
  | _ => value
  end.
Definition compact_coverage (values : list Json) : list Json := compact_row <$> values.

(** ** Pages *)

(** [; MEMBER[, MEMBER]: DIAGNOSIS] for each distinct explanation, in the order of
    their first members. *)
Fixpoint group_insert (diagnosis name : str) (grouped : list (str * list str))
    : list (str * list str) :=
  match grouped with
  | [] => [(diagnosis, [name])]
  | (known, members) :: grouped' =>
      if known =s diagnosis then (known, members ++ [name]) :: grouped'
      else (known, members) :: group_insert diagnosis name grouped'
  end.
Definition group_diagnoses (owners : list MemberSnapshot) : list (str * list str) :=
  foldl (λ grouped owner,
    match as_str (jindex (ms_coverage owner) "filter_diagnosis") with
    | Some diagnosis => group_insert diagnosis (ms_name owner) grouped
    | None => grouped
    end) [] owners.
Definition filter_diagnoses (owners : list MemberSnapshot) : str :=
  group_diagnoses owners ≫= λ '(diagnosis, members),
    lit "; " ++ join (lit ", ") members ++ lit ": " ++ diagnosis.

Section Page.
Context `{Rendering}.

Definition ws_entry_value (set : WorkspaceSet) (detail : HitDetail) (owned : OwnedEntry) : result Json :=
  o ← or_err "panic: no such owner" (ws_owners set !! owner owned);
  root ← decode_path (ms_root o);
  entry ← compact_entry_for_page entry_to_value (oe_entry owned) root (Some (ms_name o)) detail true;
  Ok match entry with
     | JObj _ =>
         let entry := jset entry "member" (JStr (ms_name o)) in
         let entry := match oe_entry owned with
                      | LiveSource _ => entry
                      | _ => jset entry "member_rank" (jnat (member_rank owned))
                      end in
         if worktree_differs owned then jset entry "differs" (JBool true) else entry
     | _ => entry
     end.

Definition ws_window (set : WorkspaceSet) (offset count : nat) : list OwnedEntry :=
  take count (drop offset (ws_hits set)).

Definition ws_page_value (set : WorkspaceSet) (id : str) (offset count : nat) (detail : HitDetail)
    : result Json :=
  hits ← try_map (ws_entry_value set detail) (ws_window set offset count);
  let next := if offset + count <? length (ws_hits set)
              then JStr (id ++ lit "@" ++ show_nat (offset + count)) else JNull in
  Ok (JObj [(lit "coverage", JArr (compact_coverage (ws_coverage set))); (lit "hits", JArr hits);
            (lit "home", jstr_opt (ws_home set)); (lit "next", next);
            (lit "scope", jstr_opt (ws_scope set)); (lit "tokenizer", jstr "o200k_base");
            (lit "truncated", JBool (ws_truncated set)); (lit "workspace", JStr (ws_workspace set))]).

Definition coverage_line (set : WorkspaceSet) : str :=
  let line := member_coverage_summary (ws_coverage set) ++
    match ws_scope set with Some scope => lit "; scope " ++ scope | None => [] end in
  match ws_hits set with [] => line ++ filter_diagnoses (ws_owners set) | _ => line end.

Context (set : WorkspaceSet) (id : str) (offset page_limit : nat) (budget : OutputBudget).

Definition ws_available : nat := length (ws_hits set) - offset.
Definition ws_max_count : nat := Nat.min (Nat.min ws_available page_limit) (limit budget).

Definition ws_render_detail (count : nat) (detail : HitDetail) : result str :=
  match format budget with
  | FormatJson => value ← ws_page_value set id offset count detail; Ok (encode value)
  | FormatLines =>
      let cursor := next_cursor id offset count (length (ws_hits set)) in
      entries ← try_map (λ owned,
                  o ← or_err "panic: no such owner" (ws_owners set !! owner owned);
                  Ok (Some (ms_name o), oe_entry owned)) (ws_window set offset count);
      Ok (mark_worktree_differs
            (page_text entries detail (coverage_line set)
               ((λ cursor, more_command cursor offset count page_limit) <$> cursor)
               (ws_truncated set))
            (ws_window set offset count))
  end.
Definition ws_render (count : nat) (names : bool) : result str :=
  ws_render_detail count {| Hits.names := names; snippets := false |}.

(** One turn of [for names in [false, true]]. *)
Definition ws_names_pass (names : bool) : result (option str) :=
  low ← largest_fitting ws_max_count (λ count, text ← ws_render count names; Ok (fits budget text));
  if 0 <? low then
    named ← ws_render low true;
    if fits budget named then Ok (Some named)
    else text ← ws_render low names; Ok (Some text)
  else Ok None.

Definition ws_page_loaded : result str :=
  _ ← ensure (offset <=? length (ws_hits set)) "invalid_cursor: offset outside result set";
  first ← snippet_page ws_max_count budget ws_render_detail;
  match first with
  | Some text => Ok text
  | None =>
      plain ← ws_names_pass false;
      match plain with
      | Some text => Ok text
      | None =>
          named ← ws_names_pass true;
          match named with
          | Some text => Ok text
          | None =>
              let too_small := Err "budget_too_small: workspace coverage and one result do not fit" in
              if ws_available =? 0 then
                text ← ws_render 0 false;
                if fits budget text then Ok text else too_small
              else too_small
          end
      end
  end.
End Page.

Section Commands.
Context {uuid : Type} `{UuidCrate uuid, Rendering}.
Context (from_str : str → result WorkspaceSet).

Definition ws_page (rows : list WsRow) (now : Z) (id : str) (offset limit : nat)
    (budget : OutputBudget) : result str :=
  set ← ws_load from_str rows now id;
  ws_page_loaded set id offset limit budget.
Definition ws_more (rows : list WsRow) (now : Z) (cursor : str) (limit : nat)
    (budget : OutputBudget) : result str :=
  c ← cursor_from_str cursor;
  ws_page rows now (uuid_simple (cursor_set c)) (Z.to_nat (cursor_offset c)) limit budget.
End Commands.

(** ** Eviction is the one of the result sets *)

(** A row as one of [results.sqlite3], ordered by its expiry. *)
Definition as_row (r : WsRow) : Row :=
  {| row_id := wr_id r; created := wr_expires r; expires := wr_expires r; payload := wr_payload r |}.
#[export] Instance as_row_inj : Inj (=) (=) as_row.
Proof. intros [] [] [=]. by subst. Qed.

Lemma sort_by_fmap {A B} (f : A → B) (cmp : B → B → comparison) (l : list A) :
  sort_by cmp (f <$> l) = f <$> sort_by (cmp_on f cmp) l.
Proof.
  induction l as [|x l IH]; [done|]. cbn [fmap list_fmap sort_by]. fold (f <$> l).
  fold (f <$> sort_by (cmp_on f cmp) l). rewrite IH.
  generalize (sort_by (cmp_on f cmp) l) as s. induction s as [|y s IHs]; [done|].
  cbn [fmap list_fmap insert_by]. fold (f <$> s). change (cmp_on f cmp x y) with (cmp (f x) (f y)).
  destruct (cmp (f x) (f y)); [done..|]. cbn [fmap list_fmap]. by rewrite IHs.
Qed.

Lemma filter_as_row (id : str) (rows : list WsRow) :
  filter (λ r, row_id r ≠ id) (as_row <$> rows) = as_row <$> filter (λ r, wr_id r ≠ id) rows.
Proof.
  induction rows as [|r rows IH]; [done|]. rewrite fmap_cons, !filter_cons.
  cbn [as_row row_id]. destruct (decide (wr_id r ≠ id)); rewrite IH; done.
Qed.

Lemma ws_delete_oldest_as_row id (rows : list WsRow) :
  as_row <$> ws_delete_oldest id rows = delete_oldest id (as_row <$> rows).
Proof.
  unfold ws_delete_oldest, delete_oldest. rewrite filter_as_row, sort_by_fmap.
  change (cmp_on as_row row_compare) with ws_row_compare.
  destruct (sort_by ws_row_compare _) as [|r l]; [done|]. cbn [fmap list_fmap].
  by rewrite filter_as_row.
Qed.

Lemma ws_evict_as_row fuel id (rows : list WsRow) : as_row <$> ws_evict fuel id rows = evict fuel id (as_row <$> rows).
Proof.
  revert rows. induction fuel as [|fuel IH]; intros rows; [done|]. cbn [ws_evict evict].
  replace (within_limits (as_row <$> rows)) with (ws_within_limits rows).
  - destruct (ws_within_limits rows); [done|]. by rewrite IH, ws_delete_oldest_as_row.
  - unfold ws_within_limits, within_limits. rewrite length_fmap. f_equal. f_equal.
    induction rows as [|r rows IHr]; [done|]. unfold ws_total, total_payload in *.
    cbn [foldr fmap list_fmap]. fold (as_row <$> rows). by rewrite IHr.
Qed.

Lemma row_ids_as_row (rows : list WsRow) : row_id <$> (as_row <$> rows) = wr_id <$> rows.
Proof. by rewrite <- list_fmap_compose. Qed.

(** The rows left: within the limits and the new one among them. *)
Lemma ws_evict_spec fuel new rows :
  NoDup (wr_id <$> rows) → new ∈ rows → (blen (wr_payload new) ≤ MAX_BYTES)%Z → length rows ≤ fuel →
  let kept := ws_evict fuel (wr_id new) rows in
  ws_within_limits kept = true ∧ new ∈ kept ∧ NoDup (wr_id <$> kept) ∧ (∀ r, r ∈ kept → r ∈ rows).
Proof.
  intros Hnd Hnew Hp Hlen kept.
  destruct (evict_spec fuel (as_row new) (as_row <$> rows)) as (Hl & Hn & Hndk & Hsub & _).
  { by rewrite row_ids_as_row. } { by apply list_elem_of_fmap_2. } { done. } { by rewrite length_fmap. }
  cbn [as_row row_id] in *. rewrite <- ws_evict_as_row in *. fold kept in Hl, Hn, Hndk, Hsub.
  rewrite row_ids_as_row in Hndk. split_and!.
  - revert Hl. unfold within_limits, ws_within_limits. rewrite length_fmap.
    intros Hl. bool_to_prop. apply andb_true_intro. split; [by apply Nat.leb_le|].
    apply Z.leb_le. etrans; [|exact H0]. clear. induction kept as [|r l IH]; [done|].
    unfold total_payload, ws_total in *. cbn [foldr fmap list_fmap]. fold (as_row <$> l). cbn. lia.
  - apply list_elem_of_fmap in Hn as (r & Hr & Hk). by apply (inj as_row) in Hr as ->.
  - done.
  - intros r Hr. apply (list_elem_of_fmap_2 as_row), Hsub, list_elem_of_fmap in Hr as (r' & Hr & Hk).
    by apply (inj as_row) in Hr as ->.
Qed.

(** ** Retained counts *)

Lemma find_update_first_ne {A} (p q : A → bool) f l :
  (∀ x, p x = true → q x = false) → (∀ x, p x = true → p (f x) = true) →
  List.find q (update_first p f l) = List.find q l.
Proof.
  intros Hpq Hf. induction l as [|x l IH]; [done|]. cbn [update_first].
  destruct (p x) eqn:Hp; cbn [List.find].
  - rewrite (Hpq (f x)) by auto. by rewrite (Hpq x).
  - by rewrite IH.
Qed.

Lemma find_update_first_eq {A} (p : A → bool) f (l : list A) :
  (∀ x, p x = true → p (f x) = true) → List.find p (update_first p f l) = f <$> List.find p l.
Proof.
  intros Hf. induction l as [|x l IH]; [done|]. cbn [update_first List.find].
  destruct (p x) eqn:Hp; cbn [List.find]; [by rewrite (Hf x)|by rewrite Hp].
Qed.

Lemma row_of_obj name v : row_of name v = true → ∃ m, v = JObj m.
Proof. unfold row_of. intros H. bool_to_prop. destruct v; cbn in H; try done. eauto. Qed.

Lemma refresh_row_spec count m :
  let row := refresh_row count (JObj m) in
  jindex row "member" = jindex (JObj m) "member" ∧ jindex row "retained" = jnat count ∧
  (jindex (JObj m) "truncated" = JBool true → jindex row "truncated" = JBool true) ∧
  (∀ old, as_u64 (jindex (JObj m) "retained") = Some old → (Z.of_nat count < old)%Z →
     jindex row "truncated" = JBool true).
Proof.
  unfold refresh_row.
  set (mid := match as_u64 _ with Some _ => _ | None => _ end).
  assert (∃ m', mid = JObj m' ∧ jindex mid "member" = jindex (JObj m) "member" ∧
    (jindex (JObj m) "truncated" = JBool true → jindex mid "truncated" = JBool true) ∧
    (∀ old, as_u64 (jindex (JObj m) "retained") = Some old → (Z.of_nat count < old)%Z →
       jindex mid "truncated" = JBool true)) as (m' & -> & Hmem & Ht & Hc).
  { unfold mid. destruct (as_u64 _) as [old|]; [|by eexists].
    destruct (Z.ltb_spec (Z.of_nat count) old).
    - eexists. split; [reflexivity|]. rewrite !jindex_jset_obj. done.
    - exists m. split_and!; [done..|]. intros ? [= <-] ?. lia. }
  cbn zeta. rewrite !jindex_jset_obj. done.
Qed.

Lemma row_of_refresh name n count v : row_of n v = true → row_of name (refresh_row count v) = row_of name v.
Proof.
  intros [m ->]%row_of_obj. unfold row_of.
  by rewrite (proj1 (refresh_row_spec count m)).
Qed.

(** Each owner's row states how many of the hits are its own. *)
Definition counts_ok (set : WorkspaceSet) : Prop :=
  ∀ i o row, ws_owners set !! i = Some o → List.find (row_of (ms_name o)) (ws_coverage set) = Some row →
    jindex row "retained" = jnat (owner_count (ws_hits set) i).

Lemma refresh_rows_other name hits owners coverage :
  Forall (λ p : nat * MemberSnapshot, ms_name p.2 ≠ name) owners →
  List.find (row_of name)
    (foldl (λ coverage '(i, owner), update_first (row_of (ms_name owner)) (refresh_row (owner_count hits i)) coverage)
       coverage owners) = List.find (row_of name) coverage.
Proof.
  revert coverage. induction owners as [|[i o] owners IH]; intros coverage Hne; [done|].
  apply Forall_cons in Hne as [Ho Hne]. cbn [foldl]. rewrite IH by done.
  apply find_update_first_ne.
  - intros v. unfold row_of. intros Hv. bool_to_prop. apply bool_decide_eq_false. cbn in Ho. congruence.
  - intros v Hv. by rewrite (row_of_refresh _ (ms_name o)).
Qed.

Lemma refresh_rows_spec owners hits coverage i o :
  NoDup (ms_name <$> owners) → owners !! i = Some o →
  List.find (row_of (ms_name o)) (refresh_rows owners hits coverage)
    = refresh_row (owner_count hits i) <$> List.find (row_of (ms_name o)) coverage.
Proof.
  unfold refresh_rows. intros Hnd Hi. 
  assert (imap pair owners !! i = Some (i, o)) as Hp by by rewrite list_lookup_imap, Hi.
  apply list_elem_of_split_length in Hp as (pre & post & Heq & Hlen).
  assert (∀ l, Forall (λ p : nat * MemberSnapshot, ms_name p.2 ≠ ms_name o) l ↔
    ms_name o ∉ ms_name <$> l.*2) as Hall.
  { intros l. rewrite Forall_forall. setoid_rewrite list_elem_of_fmap. setoid_rewrite list_elem_of_fmap.
    naive_solver. }
  assert (owners = pre.*2 ++ o :: post.*2) as Howners.
  { transitivity ((imap pair owners).*2); [|by rewrite Heq, fmap_app].
    clear. rewrite fmap_imap. apply list_eq. intros j. rewrite list_lookup_imap. by destruct (owners !! j). }
  rewrite Howners, fmap_app, fmap_cons in Hnd. apply NoDup_app in Hnd as (_ & Hdis & Hpost).
  apply NoDup_cons in Hpost as [Hpost _].
  rewrite Heq, foldl_app. cbn [foldl].
  rewrite refresh_rows_other by by apply Hall.
  rewrite find_update_first_eq.
  - f_equal. apply refresh_rows_other, Hall. intros Hin. apply (Hdis _ Hin), list_elem_of_here.
  - intros v Hv. by rewrite (row_of_refresh _ (ms_name o)).
Qed.

Lemma owner_count_take k hits i : owner_count (take k hits) i ≤ owner_count hits i.
Proof.
  unfold owner_count. apply sublist_length. rewrite <- (take_drop k hits) at 2.
  rewrite filter_app. by apply sublist_inserts_r.
Qed.

(** A row of [set0] that was truncated, or that promised more hits of its owner
    than [set] holds, says so in [set]. *)
Definition flags_ok (set0 set : WorkspaceSet) : Prop :=
  ∀ i o row0 row, ws_owners set0 !! i = Some o →
    List.find (row_of (ms_name o)) (ws_coverage set0) = Some row0 →
    List.find (row_of (ms_name o)) (ws_coverage set) = Some row →
    (jindex row0 "truncated" = JBool true ∨
     ∃ old, as_u64 (jindex row0 "retained") = Some old ∧ (Z.of_nat (owner_count (ws_hits set) i) < old)%Z) →
    jindex row "truncated" = JBool true.

Section ShrinkFacts.
Context (to_string : WorkspaceSet → str).

Lemma refresh_set_ok set :
  NoDup (ms_name <$> ws_owners set) → counts_ok (refresh_retained_counts set).
Proof.
  intros Hnd i o row Ho Hf. cbn [refresh_retained_counts with_ws ws_coverage ws_hits ws_owners] in Ho, Hf.
  rewrite (refresh_rows_spec _ _ _ i o) in Hf by done.
  destruct (List.find _ _) as [v|] eqn:Hv; [|done]. injection Hf as <-.
  apply List.find_some in Hv as [_ [m ->]%row_of_obj].
  apply (refresh_row_spec (owner_count (ws_hits set) i) m).
Qed.

Lemma refresh_flags_ok set :
  NoDup (ms_name <$> ws_owners set) → flags_ok set (refresh_retained_counts set).
Proof.
  intros Hnd i o row0 row Ho H0 Hf Hflag. cbn [refresh_retained_counts with_ws ws_coverage ws_hits ws_owners] in Hf, Hflag.
  rewrite (refresh_rows_spec _ _ _ i o), H0 in Hf by done. injection Hf as <-.
  apply List.find_some in H0 as [_ [m ->]%row_of_obj].
  destruct (refresh_row_spec (owner_count (ws_hits set) i) m) as (_ & _ & Ht & Hc).
  destruct Hflag as [|(old & Hold & Hlt)]; [by apply Ht|by eapply Hc].
Qed.

(** Dropping hits and counting again keeps the flags. *)
Lemma flags_ok_refresh set0 set k truncated :
  NoDup (ms_name <$> ws_owners set) → ws_owners set = ws_owners set0 → counts_ok set →
  flags_ok set0 set →
  flags_ok set0 (refresh_retained_counts (with_ws set (ws_coverage set) (take k (ws_hits set)) truncated)).
Proof.
  intros Hnd Hown Hcounts Hflags i o row0 row Ho H0 Hf Hflag. cbn [refresh_retained_counts with_ws ws_coverage ws_hits ws_owners] in Hf, Hflag.
  rewrite <- Hown in Ho. rewrite (refresh_rows_spec _ _ _ i o) in Hf by done.
  destruct (List.find _ (ws_coverage set)) as [v|] eqn:Hv; [|done]. injection Hf as <-.
  pose proof Hv as [_ [m ->]%row_of_obj]%List.find_some.
  pose proof (Hcounts i o _ Ho Hv) as Hret.
  set (count := owner_count (take k (ws_hits set)) i) in *.
  destruct (refresh_row_spec count m) as (_ & _ & Ht & Hc).
  pose proof (owner_count_take k (ws_hits set) i) as Hle. fold count in Hle.
  rewrite Hown in Ho. specialize (Hflags i o row0 (JObj m) Ho H0 Hv).
  destruct Hflag as [Htrue|(old & Hold & Hlt)]; [apply Ht; tauto|].
  destruct (decide (Z.of_nat (owner_count (ws_hits set) i) < old)%Z) as [?|Hge].
  - apply Ht, Hflags. right. by eexists.
  - apply (Hc (Z.of_nat (owner_count (ws_hits set) i))); [|lia].
    rewrite Hret. unfold jnat, as_u64. by rewrite (proj2 (Z.leb_le _ _)) by lia.
Qed.

(** What every turn of the loop keeps, from the set it starts with. *)
Definition shrinks_to (set0 set : WorkspaceSet) : Prop :=
  ws_workspace set = ws_workspace set0 ∧ ws_home set = ws_home set0 ∧
  ws_owners set = ws_owners set0 ∧ ws_scope set = ws_scope set0 ∧
  counts_ok set ∧ flags_ok set0 set.

Lemma ws_shrink_spec fuel set0 set :
  NoDup (ms_name <$> ws_owners set0) → shrinks_to set0 set → length (ws_hits set) ≤ fuel →
  let out := ws_shrink to_string fuel set in
  ((blen (to_string out) ≤ MAX_BYTES)%Z ∨ ws_hits out = []) ∧ shrinks_to set0 out ∧
  ∃ k, ws_hits out = take k (ws_hits set) ∧
    (out = set ∨ k < length (ws_hits set) ∧ ws_truncated out = true).
Proof.
  intros Hnd. revert set. induction fuel as [|fuel IH]; intros set Hset Hlen.
  { assert (ws_hits set = []) as Hnil by (apply nil_length_inv; lia).
    split_and!; [by right|done|]. exists 0. rewrite Hnil. auto. }
  cbn [ws_shrink]. destruct (Z.ltb_spec MAX_BYTES (blen (to_string set))) as [Hbig|Hok]; cbn [andb].
  2: { split_and!; [by left|done|]. exists (length (ws_hits set)). rewrite firstn_all. auto. }
  destruct (Nat.eqb_spec (length (ws_hits set)) 0) as [Hz|Hnz]; cbn [negb].
  { apply nil_length_inv in Hz. split_and!; [by right|done|]. exists 0. rewrite Hz. auto. }
  pose proof (keep_count_lt _ _ Hnz Hbig) as Hk. set (keep := keep_count _ _) in *.
  set (next := refresh_retained_counts _).
  destruct Hset as (Hw & Hh & Ho & Hs & Hc & Hf).
  destruct (IH next) as (Hend & Hout & k & Hhits & Hcase).
  - unfold shrinks_to. cbn. split_and!; [done..| |].
    + apply refresh_set_ok. cbn. by rewrite Ho.
    + apply flags_ok_refresh; [by rewrite Ho|done..].
  - cbn. rewrite length_take. lia.
  - split_and!; [done..|]. exists (Nat.min k keep). rewrite Hhits. cbn [next refresh_retained_counts with_ws ws_hits].
    rewrite take_take. split; [done|]. right. split; [lia|]. by destruct Hcase as [->|[_ Ht]].
Qed.
End ShrinkFacts.

Lemma ws_assign_take id n hits : ws_assign id (take n hits) = take n (ws_assign id hits).
Proof.
  apply list_eq. intros i. unfold ws_assign. rewrite list_lookup_imap. destruct (decide (i < n)).
  - by rewrite !lookup_take_lt, list_lookup_imap by done.
  - by rewrite !lookup_take_ge by lia.
Qed.

Lemma ws_prepared_spec to_string id set :
  NoDup (ms_name <$> ws_owners set) →
  let out := ws_prepared to_string id set in
  ((blen (to_string out) ≤ MAX_BYTES)%Z ∨ ws_hits out = []) ∧ shrinks_to set out ∧
  ∃ k, k ≤ MAX_HITS ∧ ws_hits out = take k (ws_assign id (ws_hits set)) ∧
    (k < length (ws_hits set) → ws_truncated out = true) ∧
    (ws_truncated set = true → ws_truncated out = true).
Proof.
  intros Hnd. unfold ws_prepared. set (hits := ws_assign id _).
  set (truncated := _ || _). set (start := refresh_retained_counts _).
  assert (hits = take MAX_HITS (ws_assign id (ws_hits set))) as Hhits by apply ws_assign_take.
  assert (length hits = Nat.min MAX_HITS (length (ws_hits set))) as Hlen
    by (rewrite Hhits, length_take; unfold ws_assign; by rewrite length_imap).
  destruct (ws_shrink_spec to_string (length hits) set start) as (Hend & Hout & k & Hk & Hcase); [done| |done|].
  - unfold shrinks_to. cbn. split_and!; [done..| |].
    + by apply refresh_set_ok.
    + intros i o row0 row Ho H0 Hf Hflag. cbn in Hflag.
      eapply (refresh_flags_ok (with_ws set (ws_coverage set) hits truncated)); eauto.
  - split_and!; [done..|]. cbn [start refresh_retained_counts with_ws ws_hits] in Hk, Hcase.
    destruct Hcase as [Heq|[Hlt Ht]].
    + exists MAX_HITS. rewrite Heq. cbn [start refresh_retained_counts with_ws ws_hits ws_truncated].
      split_and!; [done|done| |].
      * intros Hlt. unfold truncated. rewrite (proj2 (Nat.ltb_lt _ _)) by lia. apply orb_true_r.
      * intros Ht. unfold truncated. by rewrite Ht.
    + exists (Nat.min k MAX_HITS). split_and!; [lia| |done|done].
      rewrite Hk, Hhits. apply take_take.
Qed.

(** A stored set passes the checks of [load]. *)
Lemma valid_ownership_prepared to_string id set :
  NoDup (ms_name <$> ws_owners set) → length (ws_owners set) ≤ 32 →
  Forall (λ h, owner h < length (ws_owners set)) (ws_hits set) →
  valid_ownership (ws_prepared to_string id set) = true.
Proof.
  intros Hnd Hlen Hown. destruct (ws_prepared_spec to_string id set Hnd)
    as (_ & (_ & _ & Ho & _) & k & Hk & Hhits & _). unfold valid_ownership. rewrite Ho, Hhits.
  rewrite !andb_true_iff. split_and!; [by apply Nat.leb_le|apply Nat.leb_le; rewrite length_take; lia|].
  apply forallb_forall. intros h Hh. apply list_elem_of_In, elem_of_take in Hh as (i & Hi & _).
  unfold ws_assign in Hi. rewrite list_lookup_imap in Hi.
  destruct (ws_hits set !! i) as [h0|] eqn:H0; [|done]. injection Hi as <-. cbn [set_entry_handle owner].
  apply Nat.ltb_lt. rewrite Forall_lookup in Hown. by apply (Hown i).
Qed.

(** Saving a workspace set: when its id is free of live rows and the owners
    have distinct names, at most 32 of them, a saved set is loaded again until
    ten minutes after its insertion; it has the first hits in order under handles
    [SET:ORDINAL], each coverage row counts the hits of its owner that were kept,
    a row that promised more says so, and a set that lost hits is truncated; the
    table stays within 50 rows and 32 MiB. *)
Theorem workspace_save_load `{UuidLaws uuid} (to_string : WorkspaceSet → str)
    (from_str : str → result WorkspaceSet) (rows rows' : list WsRow) (u : uuid) (t1 t2 t : Z)
    (set : WorkspaceSet) (id : str) :
  from_str (to_string (ws_prepared to_string (uuid_simple u) set))
    = Ok (ws_prepared to_string (uuid_simple u) set) →
  NoDup (wr_id <$> rows) → NoDup (ms_name <$> ws_owners set) → length (ws_owners set) ≤ 32 →
  Forall (λ h, owner h < length (ws_owners set)) (ws_hits set) →
  ws_save to_string rows u t1 t2 set = Ok (id, rows') → (t < t2 + 600)%Z →
  ws_within_limits rows' = true ∧
  ∃ out k, ws_load from_str rows' t id = Ok out ∧
    ws_owners out = ws_owners set ∧ ws_scope out = ws_scope set ∧
    k ≤ MAX_HITS ∧ ws_hits out = take k (ws_assign id (ws_hits set)) ∧
    counts_ok out ∧ flags_ok set out ∧
    (k < length (ws_hits set) → ws_truncated out = true).
Proof.
  intros Hcodec Hrows Hnames Hlen Hown Hsave Ht. unfold ws_save in Hsave.
  apply bind_Ok in Hsave as (? & Hb & Hsave). apply ensure_Ok in Hb. apply Z.leb_le in Hb.
  set (live := filter _ rows) in Hsave. case_bool_decide as Hfree; [done|].
  injection Hsave as <- <-. set (new := {| wr_id := _ |}).
  assert (NoDup (wr_id <$> live ++ [new])) as Hnd.
  { rewrite fmap_app, NoDup_app. split_and!; [|set_solver|apply NoDup_singleton].
    eapply sublist_NoDup; [exact Hrows|]. apply fmap_sublist, sublist_filter. }
  destruct (ws_evict_spec (length (live ++ [new])) new (live ++ [new]))
    as (Hlim & Hnew & Hndk & _); [done|set_solver|done|done|]. cbn [new wr_id] in Hlim, Hnew, Hndk.
  split; [exact Hlim|].
  destruct (ws_prepared_spec to_string (uuid_simple u) set Hnames)
    as (_ & (_ & _ & Ho & Hs & Hc & Hf) & k & Hk & Hhits & Hcut & _).
  eexists _, k. split_and!; [|exact Ho|exact Hs|exact Hk|exact Hhits|exact Hc|exact Hf|exact Hcut].
  set (kept := ws_evict _ _ _) in *.
  unfold ws_load. rewrite uuid_parse_simple. cbn [or_err mbind result_bind].
  assert (head (filter (λ r, wr_id r = uuid_simple u ∧ (t < wr_expires r)%Z) kept) = Some new) as ->.
  { assert (new ∈ filter (λ r, wr_id r = uuid_simple u ∧ (t < wr_expires r)%Z) kept) as Hin
      by (by apply list_elem_of_filter).
    destruct (filter _ kept) as [|r rest] eqn:E; [by rewrite elem_of_nil in Hin|]. cbn [head]. f_equal.
    assert (r ∈ filter (λ r, wr_id r = uuid_simple u ∧ (t < wr_expires r)%Z) kept) as Hr
      by (rewrite E; apply list_elem_of_here).
    apply list_elem_of_filter in Hr as [[Hid _] Hr]. by apply (elem_of_same_key wr_id kept). }
  cbn [or_err mbind result_bind new wr_payload]. rewrite (proj2 (Z.leb_le _ _)) by exact Hb.
  cbn [ensure mbind result_bind]. rewrite Hcodec. cbn [mbind result_bind].
  by rewrite valid_ownership_prepared.
Qed.

(** Pages of a workspace set: a returned page fits the token budget and is the
    rendering of at least one hit and of no more than the limits allow, or, past
    the last hit, of the coverage alone. *)
Theorem workspace_page_fits `{Rendering} (set : WorkspaceSet) (id : str) (offset page_limit : nat)
    (budget : OutputBudget) (text : str) :
  ws_page_loaded set id offset page_limit budget = Ok text →
  fits budget text = true ∧ offset ≤ length (ws_hits set) ∧
  ((∃ count detail, 1 ≤ count ≤ ws_max_count set offset page_limit budget ∧
      ws_render_detail set id offset page_limit budget count detail = Ok text) ∨
   offset = length (ws_hits set) ∧ ws_render set id offset page_limit budget 0 false = Ok text).
Proof.
  set (cap := ws_max_count set offset page_limit budget).
  set (good t := ∃ count detail, 1 ≤ count ≤ cap ∧
    ws_render_detail set id offset page_limit budget count detail = Ok t ∧ fits budget t = true).
  assert (∀ names t, ws_names_pass set id offset page_limit budget names = Ok (Some t) → good t) as Hpass.
  { intros names t Hs. unfold ws_names_pass in Hs. apply bind_Ok in Hs as (low & Hlarge & Hs).
    apply largest_fitting_Ok in Hlarge as (Hle & Hlow & _). fold cap in Hle.
    destruct (Nat.ltb_spec 0 low); [|done]. apply bind_Ok in Hs as (named & Hnamed & Hs).
    destruct (fits budget named) eqn:Hfn; [injection Hs as <-; by eexists low, _|].
    result_inv. destruct Hlow as [->|Hfit]; [lia|]. result_inv.
    eexists low, _. split_and!; [lia..|eassumption|]. congruence. }
  unfold ws_page_loaded. intros Hs. apply bind_Ok in Hs as (? & Hoff & Hs).
  apply ensure_Ok, Nat.leb_le in Hoff.
  assert (∀ t, good t → fits budget t = true ∧ offset ≤ length (ws_hits set) ∧
    ((∃ count detail, 1 ≤ count ≤ cap ∧
       ws_render_detail set id offset page_limit budget count detail = Ok t) ∨
     offset = length (ws_hits set) ∧ ws_render set id offset page_limit budget 0 false = Ok t)) as Hgood.
  { intros t (count & detail & Hc & Hr & Hf). split_and!; [done..|left]. by eexists _, _. }
  apply bind_Ok in Hs as ([t|] & Hfirst & Hs).
  { injection Hs as <-. apply Hgood. unfold snippet_page in Hfirst. fold cap in Hfirst.
    destruct (Nat.eqb_spec (Nat.min cap SNIPPET_PAGE_FLOOR) 0); [done|].
    apply bind_Ok in Hfirst as (count & Hlarge & Hs).
    apply largest_fitting_Ok in Hlarge as (Hle & Hlow & _).
    destruct (Nat.leb_spec (Nat.min cap SNIPPET_PAGE_FLOOR) count); [|done].
    result_inv. destruct Hlow as [->|Hfit]; [lia|]. result_inv.
    eexists count, _. split_and!; [lia..|eassumption|]. congruence. }
  apply bind_Ok in Hs as ([t|] & Hplain & Hs); [injection Hs as <-; by eapply Hgood, Hpass|].
  apply bind_Ok in Hs as ([t|] & Hnamed & Hs); [injection Hs as <-; by eapply Hgood, Hpass|].
  destruct (Nat.eqb_spec (ws_available set offset) 0) as [Ha|]; [|done].
  apply bind_Ok in Hs as (t & Ht & Hs). destruct (fits budget t) eqn:Hft; [|done].
  injection Hs as <-. split_and!; [done..|right]. split; [|done]. unfold ws_available in Ha. lia.
Qed.

(** The reported semantic status is the worst of a configured lane. *)
Definition lane_status (value : Json) : option str :=
  let issues := jindex value "issues" in
  if unconfigured (as_str (jindex issues "semantic_reason")) then None
  else as_str (jindex issues "semantic_status").
Lemma lane_fold_worst values state :
  let out := (foldl lane_step state values).1 in
  (∀ s, state.1 = Some s → ∃ w, out = Some w ∧ status_rank s ≤ status_rank w) ∧
  (∀ v s, v ∈ values → lane_status v = Some s → ∃ w, out = Some w ∧ status_rank s ≤ status_rank w) ∧
  (out = state.1 ∨ ∃ v, v ∈ values ∧ lane_status v = out).
Proof.
  revert state. induction values as [|v values IH]; intros state; cbn [foldl].
  { split_and!; [by eauto|intros ? ?; by rewrite elem_of_nil|by left]. }
  destruct (IH (lane_step state v)) as (Hs & Hv & Ho).
  assert (∀ s, state.1 = Some s → ∃ w, (lane_step state v).1 = Some w ∧ status_rank s ≤ status_rank w) as Hkeep.
  { intros s Hst. unfold lane_step. cbn [fst]. destruct (as_str _) as [x|]; [|by eauto].
    rewrite Hst. destruct (negb _); cbn [andb]; [|by eauto].
    destruct (Nat.ltb_spec (status_rank s) (status_rank x)); eexists; split; [done|lia|done|lia]. }
  assert (∀ s, lane_status v = Some s → ∃ w, (lane_step state v).1 = Some w ∧ status_rank s ≤ status_rank w) as Hnew.
  { intros s. unfold lane_status, lane_step. cbn [fst]. destruct (unconfigured _); [done|].
    intros ->. cbn [negb andb]. destruct state.1 as [c|]; [|by eauto].
    destruct (Nat.ltb_spec (status_rank c) (status_rank s)); eexists; split; [done|lia|done|lia]. }
  split_and!.
  - intros s Hst. destruct (Hkeep s Hst) as (w & Hw & ?). destruct (Hs w Hw) as (w' & ? & ?).
    exists w'. split; [done|lia].
  - intros v' s [->|Hin]%elem_of_cons Hl; [|by eauto].
    destruct (Hnew s Hl) as (w & Hw & ?). destruct (Hs w Hw) as (w' & ? & ?).
    exists w'. split; [done|lia].
  - destruct Ho as [->|(v' & Hin & Hl)]; [|right; exists v'; split; [by right|done]].
    unfold lane_step, lane_status. cbn [fst].
    destruct (as_str _) as [x|] eqn:Hx; [|by left].
    destruct (unconfigured _) eqn:Hu; cbn [negb andb]; [by left|].
    destruct (match state.1 with Some _ => _ | None => _ end); [right|by left].
    exists v. split; [by left|]. unfold lane_status. by rewrite Hu.
Qed.

(** ** Marked lines *)

Lemma split_lines_cons l s : nl ∉ l → split_lines (l ++ nl :: s) = (l ++ [nl]) :: split_lines s.
Proof.
  induction l as [|c l IH]; intros Hl; cbn [app split_lines].
  - unfold is_nl. by rewrite bool_decide_eq_true_2.
  - unfold is_nl. rewrite bool_decide_eq_false_2 by set_solver.
    by rewrite IH by set_solver.
Qed.

Lemma split_lines_last l : nl ∉ l → l ≠ [] → split_lines l = [l].
Proof.
  induction l as [|c l IH]; intros Hl Hne; [done|]. cbn [split_lines].
  unfold is_nl. rewrite bool_decide_eq_false_2 by set_solver.
  destruct l as [|d l]; [done|]. rewrite IH by set_solver. done.
Qed.

(** Text by its first line. *)
Lemma line_cases s :
  s = [] ∨ ((nl ∉ s) ∧ s ≠ []) ∨ ∃ l s', (nl ∉ l) ∧ s = l ++ nl :: s' ∧ length s' < length s.
Proof.
  induction s as [|c s IH]; [by left|]. right. destruct (decide (c = nl)) as [->|Hc].
  - right. exists [], s. split_and!; [set_solver|done|cbn; lia].
  - destruct IH as [->|[[Hs _]|(l & s' & Hl & -> & Hlen)]].
    + left. set_solver.
    + left. set_solver.
    + right. exists (c :: l), s'. split_and!; [set_solver|done|cbn; rewrite !length_app; cbn; lia].
Qed.

Definition mark_of (differing : list str) (body : str) : str :=
  match split_once tab body with
  | Some (handle, _) => if bool_decide (handle ∈ differing) then tab :: lit "differs" else []
  | None => []
  end.
Lemma mark_of_nl differing body : nl ∉ mark_of differing body.
Proof.
  unfold mark_of. destruct (split_once tab body) as [[h r]|]; [|set_solver].
  case_bool_decide; [|set_solver]. apply (bool_decide_unpack _). by vm_compute.
Qed.

Lemma mark_line_nl differing l : nl ∉ l → mark_line differing (l ++ [nl]) = (l ++ mark_of differing l) ++ [nl].
Proof.
  intros Hl. unfold mark_line, mark_of. rewrite (proj2 (strip_suffix_Some [nl] (l ++ [nl]) l) eq_refl).
  cbn [default from_option id].
  rewrite length_app. cbn [length]. rewrite (proj2 (Nat.ltb_lt _ _)) by lia. by rewrite <- app_assoc.
Qed.

Lemma mark_line_last differing l : nl ∉ l → mark_line differing l = l ++ mark_of differing l.
Proof.
  intros Hl. unfold mark_line. destruct (strip_suffix [nl] l) as [b|] eqn:E.
  - apply strip_suffix_Some in E as ->. set_solver.
  - cbn [default from_option id]. rewrite Nat.ltb_irrefl. unfold mark_of. by rewrite app_nil_r.
Qed.

Lemma mark_lines differing s :
  split_lines (split_lines s ≫= mark_line differing) = mark_line differing <$> split_lines s.
Proof.
  remember (length s) as n eqn:Hn. revert s Hn. induction (lt_wf n) as [n _ IH]. intros s ->.
  destruct (line_cases s) as [->|[[Hs Hne]|(l & s' & Hl & -> & Hlen)]]; [done| |].
  - rewrite (split_lines_last s) by done. cbn [mbind list_bind]. rewrite app_nil_r.
    rewrite mark_line_last by done. cbn [fmap list_fmap]. rewrite mark_line_last by done.
    pose proof (mark_of_nl differing s). apply split_lines_last; [set_solver|]. by destruct s.
  - rewrite split_lines_cons by done. rewrite bind_cons, fmap_cons, mark_line_nl, <- app_assoc by done.
    cbn [app]. pose proof (mark_of_nl differing l).
    rewrite split_lines_cons by set_solver. f_equal. by eapply (IH (length s')).
Qed.

(** Marking changes nothing but the lines of hits whose file may differ: the
    marked text has the same lines, each followed by the mark exactly when its
    first field is the handle of such a hit. *)
Theorem marks_only_differing (text : str) (hits : list OwnedEntry) :
  split_lines (mark_worktree_differs text hits)
    = mark_line (differing_handles hits) <$> split_lines text.
Proof.
  unfold mark_worktree_differs. destruct (differing_handles hits) as [|h hs]; [|apply mark_lines].
  rewrite <- mark_lines. f_equal. symmetry. rewrite <- (concat_split_lines text) at 2.
  assert (∀ l, mark_line [] l = l) as Hid.
  { intros l. unfold mark_line. set (body := default l _).
    assert (l = body ++ if length body <? length l then [nl] else []) as Hl.
    { unfold body. destruct (strip_suffix [nl] l) as [b|] eqn:E; cbn [default from_option id].
      - apply strip_suffix_Some in E as ->. rewrite length_app. cbn [length].
        by rewrite (proj2 (Nat.ltb_lt _ _)) by lia.
      - by rewrite Nat.ltb_irrefl, app_nil_r. }
    destruct (split_once tab body) as [[h r]|]; [|by rewrite Hl at 2].
    rewrite bool_decide_eq_false_2 by apply not_elem_of_nil. by rewrite Hl at 2. }
  induction (split_lines text) as [|l ls IH]; [done|]. rewrite bind_cons. cbn [concat].
  by rewrite Hid, IH.
Qed.

(** Two members with one hit each, the first of which promised two. *)
Module WorkspaceSetsExample.
Definition member (name : string) : MemberSnapshot :=
  {| ms_name := lit name; ms_root := lit "/r"; ms_cache := lit "/c"; ms_device := 1; ms_inode := 2;
     ms_index_identity := lit "e"; ms_generation := 3; ms_coverage := JNull; ms_worktree := None;
     ms_parent_index := None |}.
Definition row (name : string) (retained : nat) : Json :=
  JObj [(lit "member", jstr name); (lit "retained", jnat retained)].
Definition hit (i : nat) : OwnedEntry :=
  {| owner := i; member_rank := 1; oe_entry := StoreExample.commit; worktree_differs := false |}.
Definition set : WorkspaceSet :=
  {| ws_workspace := lit "w"; ws_home := None; ws_owners := [member "a"; member "b"];
     ws_coverage := [row "a" 2; row "b" 1]; ws_hits := [hit 0; hit 1]; ws_truncated := false;
     ws_scope := None |}.
Definition to_string (s : WorkspaceSet) : str := show_nat (length (ws_hits s)).
Definition id : str := uuid_simple SimpleUuid.nil.
Definition stored : WorkspaceSet := ws_prepared to_string id set.
Definition from_str (s : str) : result WorkspaceSet := Ok stored.
Definition rows' : list WsRow := [{| wr_id := id; wr_expires := 1301; wr_payload := lit "2" |}].
Lemma set_saved : ws_save to_string [] SimpleUuid.nil 700 701 set = Ok (id, rows').
Proof. vm_compute. done. Qed.
(** The count of a member's row follows its hits, and a lost hit is told. *)
Example counted :
  (λ r, (jindex r "retained", jindex r "truncated")) <$> ws_coverage stored
  = [(jnat 1, JBool true); (jnat 1, JNull)].
Proof. vm_compute. done. Qed.
(** One member searched completely, one whose worktree is served by its parent. *)
Example summary :
  member_coverage_summary [
    JObj [(lit "member", jstr "a"); (lit "state", jstr "searched"); (lit "truncated", JBool true)];
    JObj [(lit "differs", JNum 2); (lit "member", jstr "b"); (lit "served_from", jstr "b index");
          (lit "state", jstr "parent_fallback"); (lit "worktree", jstr "wt")]]
  = lit "a complete truncated; b@wt warming → served from b index (2 files differ)".
Proof. vm_compute. done. Qed.
End WorkspaceSetsExample.

Lemma workspace_save_load_witness :
  ws_save WorkspaceSetsExample.to_string [] SimpleUuid.nil 700 701 WorkspaceSetsExample.set
    = Ok (WorkspaceSetsExample.id, WorkspaceSetsExample.rows') ∧
  ws_within_limits WorkspaceSetsExample.rows' = true.
Proof.
  split; [exact WorkspaceSetsExample.set_saved|].
  refine (proj1 (workspace_save_load WorkspaceSetsExample.to_string WorkspaceSetsExample.from_str []
    WorkspaceSetsExample.rows' SimpleUuid.nil 700 701 1300 WorkspaceSetsExample.set
    WorkspaceSetsExample.id eq_refl _ _ _ _ WorkspaceSetsExample.set_saved eq_refl)).
  - constructor.
  - apply (bool_decide_unpack _). vm_compute. exact I.
  - cbn. lia.
  - apply (bool_decide_unpack _). vm_compute. exact I.
Defined.
