(* ===== verification/Retrieval.v ===== *)
(** * Workspace retrieval

    Models [src/src/workspace/retrieval.rs], [retrieval/member_scope.rs] and
    [retrieval/member_coverage.rs]: which members a query searches, the quotas of
    each member's answer, its coverage row, the widening of an unselected query
    whose home has no hits, and the fair merge of the ranked lists into one saved
    set.  What a member answers (its index, the lanes, the deadline) is an oracle;
    the parsed arguments and the sizes of serialized entries are arguments. *)
From Stdlib Require Import Ascii String ZArith Lia Permutation Sorted.
From stdpp Require Import base numbers list gmap strings sorting.
From S2P Require Import Prelude Order Text Identity Paths Hits Pages ResultStore QueryShape Source Members WorkspaceSets.

(** ** Scope: [member_scope.rs] *)

Record Scope := { sc_members : list nat; sc_words : list str; sc_implicit_home : bool }.

Section Scopes.
Context `{UnicodeTables}.

Definition is_selector (word : str) : bool :=
  starts_with (lit "in:") word || (word =s lit "ws:home") || (word =s lit "ws:all").

(** The loop over the chunks of one argument, and over the arguments. *)
Fixpoint scope_chunks (selection : option str) (remaining : str) (chunks : list str)
    : result (option str * str) :=
  match chunks with
  | [] => Ok (selection, remaining)
  | chunk :: chunks' =>
      let word := trim_end chunk in
      if is_selector word then
        _ ← ensure (match selection with None => true | Some old => old =s word end)
              "invalid_scope: conflicting workspace selectors";
        scope_chunks (Some word) remaining chunks'
      else scope_chunks selection (remaining ++ chunk) chunks'
  end.
Fixpoint scope_words (selection : option str) (words : list str) (arguments : list str)
    : result (option str * list str) :=
  match arguments with
  | [] => Ok (selection, words)
  | argument :: arguments' =>
      '(selection, remaining) ← scope_chunks selection [] (split_inclusive is_whitespace (chars argument));
      let words := if trim remaining =s [] then words else words ++ [trim_end remaining] in
      scope_words selection words arguments'
  end.

Definition home_name (roots : list MemberRoot) : option str :=
  root_name <$> List.find mr_home roots.

(** The order of the members: home first, then by name. *)
Definition member_order (roots : list MemberRoot) : nat → nat → comparison :=
  let name i := root_name <$> roots !! i in
  cmp_then (cmp_on (λ i, negb (bool_decide (name i = home_name roots))) bool_compare)
    (cmp_on (λ i, default [] (name i)) str_compare).

Definition selected_member (roots : list MemberRoot) (selection : option str) : result (option str) :=
  match selection with
  | Some selection =>
      if selection =s lit "ws:home" then
        home ← or_err "member_required: ws:home has no home member" (home_name roots);
        Ok (Some home)
      else if selection =s lit "ws:all" then Ok None
      else name ← or_err "panic: validated selector" (strip_prefix (lit "in:") selection);
           Ok (Some name)
  | None => Ok (home_name roots)
  end.

Definition scope (roots : list MemberRoot) (member : option str) (arguments : list str) : result Scope :=
  '(selection, words) ← scope_words ((λ m, lit "in:" ++ m) <$> member) [] arguments;
  let implicit_home := bool_decide (selection = None) && bool_decide (is_Some (home_name roots)) in
  selected ← selected_member roots selection;
  _ ← ensure (match selected with
              | Some name => existsb (λ m, root_name m =s name) roots
              | None => true
              end) "invalid_member: member is not configured";
  let members := List.filter
    (λ i, match selected, roots !! i with
          | Some name, Some m => root_name m =s name
          | None, Some _ => true
          | _, None => false
          end) (seq 0 (length roots)) in
  Ok {| sc_members := sort_by (member_order roots) members; sc_words := words;
        sc_implicit_home := implicit_home |}.
End Scopes.

Definition plural (others : nat) : str := if others =? 1 then [] else lit "s".
Definition implicit_home_scope (others : nat) (home_answered home_hits : bool) (home_state : str)
    : str * bool :=
  if others =? 0 then (lit "home", false)
  else if negb home_answered then
    (lit "home (" ++ replace_char "_" (lit " ") home_state ++ lit "; ws:all searches " ++
       show_nat others ++ lit " member" ++ plural others ++ lit ")", false)
  else if negb home_hits then (lit "all (no home hits)", true)
  else (lit "home (ws:all adds " ++ show_nat others ++ lit " member" ++ plural others ++ lit ")", false).

(** ** Coverage rows: [member_coverage.rs] *)

Definition UNSEARCHED : list (string * string) :=
  [("walk_failures", "walk_error"); ("truncated_files", "fact_limit");
   ("live_read_failures", "read_error"); ("live_walk_failures", "walk_error")]%string.
Definition REASON_CHARS : nat := 120.

Definition count (coverage : Json) (key : string) : Z := default 0%Z (as_u64 (jindex coverage key)).
Definition partial_coverage (coverage : Json) : bool :=
  existsb (λ '(key, _), 0 <? count coverage key)%Z UNSEARCHED.
(** [u64]'s sum: the counters are numbers of files. *)
Definition unsearched_files (coverage : Json) : Z :=
  foldr (λ '(key, _) total, count coverage key + total)%Z 0%Z UNSEARCHED.
Definition unsearched_kinds (coverage : Json) : list str :=
  foldl (λ kinds '(key, kind),
    if (0 <? count coverage key)%Z && negb (bool_decide (lit kind ∈ kinds))
    then kinds ++ [lit kind] else kinds) [] UNSEARCHED.

Definition COUNTED_ISSUES : list string :=
  ["parse_failures"; "excluded_files"; "walk_failures"; "truncated_files"; "live_read_failures";
   "live_walk_failures"; "live_excluded_files"; "semantic_failures"; "semantic_pending"]%string.
Definition COPIED_ISSUES : list string :=
  ["unsearched_paths"; "semantic_status"; "semantic_reason"; "semantic_preparation_error";
   "rerank_status"; "rerank_reason"]%string.
Definition jget (v : Json) (key : string) : option Json :=
  match v with JObj m => obj_get m (lit key) | _ => None end.
Definition coverage_issues (coverage : Json) : Json :=
  let issues := foldl (λ issues key,
    if (0 <? count coverage key)%Z then jset issues key (jindex coverage key) else issues)
    (JObj []) COUNTED_ISSUES in
  let issues := foldl (λ issues key,
    match jget coverage key with Some value => jset issues key value | None => issues end)
    issues COPIED_ISSUES in
  if bool_decide (is_Some (jget coverage "semantic_total_regions")) then
    foldl (λ issues key, jset issues key (jindex coverage key)) issues
      ["semantic_total_regions"; "semantic_regions"; "semantic_scope"]%string
  else issues.

(** [render_path] prints a root for [encode_path]. *)
Section Rows.
Context (render_path : Path → str).

Definition member_row (member : MemberRoot) (state : string) : Json :=
  let row := jset (jset (JObj []) "member" (JStr (root_name member))) "state" (jstr state) in
  match mr_worktree member with
  | Some label => jset (jset row "root" (JStr (encode_path (render_path (mr_root member)))))
                    "worktree" (JStr label)
  | None => row
  end.
Definition searched_row (member : MemberRoot) (generation : Z) (retained : nat) (truncated : bool)
    (coverage : Json) : Json :=
  let row := member_row member "searched" in
  let row := jset row "generation" (JNum generation) in
  let row := jset row "retained" (jnat retained) in
  let row := jset row "truncated" (JBool truncated) in
  let row := jset row "partial" (JBool (partial_coverage coverage)) in
  let row := jset row "unsearched" (JNum (unsearched_files coverage)) in
  let kinds := unsearched_kinds coverage in
  let row := match kinds with [] => row | _ => jset row "unsearched_kinds" (JArr (JStr <$> kinds)) end in
  jset row "issues" (coverage_issues coverage).
Definition short_reason (full : str) : str := ellipsize REASON_CHARS full.

(** ** One member's answer *)

(** What a parent index answered for a warming worktree: the index's name, the
    flags of its hits, and the number of files known to differ. *)
Record ParentFallback := { fb_served_from : str; fb_flags : Hit → bool; fb_differs : option nat }.
Inductive MemberAnswer :=
| Found (owner : MemberSnapshot) (hits : list Hit) (truncated : bool) (coverage : Json)
    (fallback : option ParentFallback) (map_miss : option str)
| Warming (reason : option str)
| Failed (message : str).

Definition describe (fallback : ParentFallback) (row : Json) (hits : nat) : Json :=
  let row := jset row "state" (jstr "parent_fallback") in
  let row := jset row "home_state" (jstr "warming") in
  let row := jset row "served_from" (JStr (fb_served_from fallback)) in
  let row := jset row "differs" (match fb_differs fallback with Some n => jnat n | None => JNull end) in
  jset row "differing_hits" (jnat hits).

(** [serde_json::to_vec(&entry)?.len()]. *)
Context (entry_bytes : OwnedEntry → Z).

(** The entries within the quotas: the loop stops before the entry that passes
    the byte quota. *)
Fixpoint take_entries (owner rank : nat) (fallback : option ParentFallback) (byte_quota bytes : Z)
    (hits : list Hit) : list OwnedEntry :=
  match hits with
  | [] => []
  | hit :: hits' =>
      let entry := {| owner := owner; member_rank := rank + 1; oe_entry := LiveSource hit;
                      worktree_differs := match fallback with Some f => fb_flags f hit | None => false end |} in
      let bytes := (bytes + entry_bytes entry)%Z in
      if (byte_quota <? bytes)%Z then []
      else entry :: take_entries owner (S rank) fallback byte_quota bytes hits'
  end.

(** The disclosure of an incomplete re-extraction on the row. *)
Definition reextraction_detail (detail row : Json) : Json :=
  let row := jset (jset row "partial" (JBool true)) "truncated" (JBool true) in
  let row := match as_u64 (jindex detail "unsearched_paths") with
    | Some unsearched =>
        if is_true (jindex detail "unsearched_paths_exact") then
          let known := default 0%Z (as_u64 (jindex row "unsearched")) in
          let row := jset row "unsearched" (JNum (saturating_add U64_MAX known unsearched)) in
          if (0 <? unsearched)%Z then
            let kinds := default [] (as_array (jindex row "unsearched_kinds")) in
            jset row "unsearched_kinds"
              (JArr (if existsb (λ k, bool_decide (as_str k = Some (lit "worktree_reextraction"))) kinds
                     then kinds else kinds ++ [jstr "worktree_reextraction"]))
          else row
        else row
    | None => row
    end in
  jset row "issues" (jset (jindex row "issues") "worktree_reextraction" detail).

Definition found_row (member : MemberRoot) (generation : Z) (entries : list OwnedEntry)
    (truncated : bool) (coverage : Json) (fallback : option ParentFallback) : Json :=
  let row := searched_row member generation (length entries) truncated coverage in
  let row := match jget coverage "worktree_reextraction" with
             | Some detail => reextraction_detail detail row | None => row end in
  let row := match fallback with
             | Some f => describe f row (length (List.filter worktree_differs entries))
             | None => row end in
  foldl (λ row key, match jget coverage key with Some value => jset row key value | None => row end)
    row REFERENCE_COVERAGE_KEYS.

(** ** The loop over the members *)

Record Gathered := {
  g_owners : list MemberSnapshot; g_coverage : list Json; g_truncated : bool;
  g_lists : list (list OwnedEntry); g_map_miss : option str; g_scope : option str
}.
Definition gathered_nothing : Gathered :=
  {| g_owners := []; g_coverage := []; g_truncated := false; g_lists := []; g_map_miss := None;
     g_scope := None |}.
Definition with_coverage (owner : MemberSnapshot) (coverage : Json) : MemberSnapshot :=
  {| ms_name := ms_name owner; ms_root := ms_root owner; ms_cache := ms_cache owner;
     ms_device := ms_device owner; ms_inode := ms_inode owner; ms_index_identity := ms_index_identity owner;
     ms_generation := ms_generation owner; ms_coverage := coverage; ms_worktree := ms_worktree owner;
     ms_parent_index := ms_parent_index owner |}.

(** [is_index_warming] and [is_timed_out] of an error's message. *)
Definition failed_state (message : str) : string :=
  if starts_with (lit "index_warming:") message then "warming"
  else if starts_with (lit "timed_out:") message then "timed_out"
  else "unavailable".

(** One member of a queue of [n]; also the state a scope line reports. *)
Definition visit (member : MemberRoot) (answer : MemberAnswer) (n : nat) (g : Gathered)
    : Gathered * string :=
  match answer with
  | Found owner hits truncated coverage fallback map_miss =>
      let owner := with_coverage owner coverage in
      let entries := take_entries (length (g_owners g)) 0 fallback (MAX_BYTES / Z.of_nat n)%Z 0
                       (take (MAX_HITS / n) hits) in
      let truncated := truncated || (length entries <? length hits) in
      ({| g_owners := g_owners g ++ [owner];
          g_coverage := g_coverage g ++
            [found_row member (ms_generation owner) entries truncated coverage fallback];
          g_truncated := g_truncated g || truncated; g_lists := g_lists g ++ [entries];
          g_map_miss := match g_map_miss g with Some miss => Some miss | None => map_miss end;
          g_scope := g_scope g |}, "searched"%string)
  | Warming reason =>
      let row := member_row member "warming" in
      let row := match reason with Some reason => jset row "reason" (JStr reason) | None => row end in
      ({| g_owners := g_owners g; g_coverage := g_coverage g ++ [row]; g_truncated := g_truncated g;
          g_lists := g_lists g; g_map_miss := g_map_miss g; g_scope := g_scope g |}, "warming"%string)
  | Failed message =>
      let state := failed_state message in
      let row := member_row member state in
      let row := if String.eqb state "unavailable"
                 then jset row "reason" (JStr (short_reason message)) else row in
      ({| g_owners := g_owners g; g_coverage := g_coverage g ++ [row]; g_truncated := g_truncated g;
          g_lists := g_lists g; g_map_miss := g_map_miss g; g_scope := g_scope g |}, state)
  end.

(** After the implicit home: the scope line and whether to widen. *)
Definition incomplete_fallback (g : Gathered) : bool :=
  match last (g_coverage g) with
  | Some row => bool_decide (as_str (jindex (jindex (jindex row "issues") "worktree_reextraction") "status")
                             = Some (lit "incomplete"))
  | None => false
  end.
Definition home_scope (others : nat) (state : string) (g : Gathered) : str * bool :=
  let home_hits := match g_lists g with list :: _ => negb (length list =? 0) | [] => false end in
  let home_answered := negb (length (g_lists g) =? 0) && negb (incomplete_fallback g) in
  implicit_home_scope others home_answered home_hits
    (if incomplete_fallback g then lit "incomplete" else lit state).
Definition set_scope (scope : str) (g : Gathered) : Gathered :=
  {| g_owners := g_owners g; g_coverage := g_coverage g; g_truncated := g_truncated g;
     g_lists := g_lists g; g_map_miss := g_map_miss g; g_scope := Some scope |}.

Context (roots : list MemberRoot) (answers : nat → MemberAnswer).

(** The members at [queue] from [position] on; [n] is the queue's length. *)
Definition visit_index (n : nat) (g : Gathered) (index : nat) : Gathered * string :=
  match roots !! index with
  | Some member => visit member (answers index) n g
  | None => (g, "panic"%string)
  end.
Definition visit_all (n : nat) (g : Gathered) (queue : list nat) : Gathered :=
  foldl (λ g index, (visit_index n g index).1) g queue.

(** The whole loop: an implicit home is visited alone, and the others join the
    queue only when the scope widens. *)
Definition gather (sc : Scope) : Gathered :=
  if sc_implicit_home sc then
    match sc_members sc with
    | [] => gathered_nothing
    | index :: rest =>
        let n := length (sc_members sc) in
        let '(g, state) := visit_index n gathered_nothing index in
        let '(line, widen) := home_scope (length roots - 1) state g in
        let rest := rest ++ (if widen then List.filter (λ i, negb (i =? index)) (seq 0 (length roots)) else []) in
        visit_all (1 + length rest) (set_scope line g) rest
    end
  else visit_all (length (sc_members sc)) gathered_nothing (sc_members sc).

(** ** Merging *)

Abbreviation Lists := (list (list OwnedEntry)).
(** One round takes the next entry of every list. *)
Definition heads (lists : Lists) : list OwnedEntry := omap head lists.
Fixpoint merge_loop (fuel : nat) (lists : Lists) : list OwnedEntry :=
  match fuel with
  | O => []
  | S fuel' =>
      match heads lists with
      | [] => []
      | round => round ++ merge_loop fuel' (tail <$> lists)
      end
  end.
Definition merge (lists : Lists) : list OwnedEntry := merge_loop (S (length (mjoin lists))) lists.

Definition check_answered (implicit_home : bool) (g : Gathered) : result unit :=
  _ ← match g_map_miss g with
      | Some miss => ensure (negb (forallb (λ list : list OwnedEntry, length list =? 0) (g_lists g)))
                       "no_indexed_path"
      | None => Ok tt
      end;
  _ ← ensure (negb (length (g_owners g) =? 0) ||
              negb (existsb (λ row, bool_decide (as_str (jindex row "state") = Some (lit "timed_out")))
                      (g_coverage g)))
        "timed_out: query deadline expired before any member answered";
  ensure (negb (length (g_owners g) =? 0) || implicit_home)
    "workspace_unavailable: no selected member has an available published index".

(** [search_with_policy] up to the saved set. *)
Definition search_set (workspace : str) (sc : Scope) : result WorkspaceSet :=
  let g := gather sc in
  _ ← check_answered (sc_implicit_home sc) g;
  Ok {| ws_workspace := workspace; ws_home := home_name roots; ws_owners := g_owners g;
        ws_coverage := g_coverage g; ws_hits := merge (g_lists g); ws_truncated := g_truncated g;
        ws_scope := g_scope g |}.
End Rows.

(** ** The merge is fair *)

(** Two lists in key order with the same elements of each key, in the same order,
    are equal. *)
Lemma sorted_classes_unique {A} (key : A → nat) (l1 l2 : list A) :
  StronglySorted (cmp_le (cmp_on key Nat.compare)) l1 → StronglySorted (cmp_le (cmp_on key Nat.compare)) l2 →
  (∀ k, List.filter (λ x, key x =? k) l1 = List.filter (λ x, key x =? k) l2) → l1 = l2.
Proof.
  assert (∀ a b, cmp_le (cmp_on key Nat.compare) a b → key a ≤ key b) as Hle.
  { intros a b. unfold cmp_le, cmp_on. destruct (Nat.compare_spec (key a) (key b)); [lia|lia|done]. }
  assert (∀ l l' : list A, (∀ k, List.filter (λ x, key x =? k) l = List.filter (λ x, key x =? k) l') →
    ∀ x, x ∈ l → x ∈ l') as Hin.
  { intros l l' Hf x Hx. rewrite list_elem_of_In in *.
    apply (List.filter_In (λ y, key y =? key x)). rewrite <- Hf. apply List.filter_In.
    by rewrite Nat.eqb_refl. }
  intros H1. revert l2. induction H1 as [|x l1 H1 IH Hx]; intros l2 H2 Hf.
  { destruct l2 as [|y l2]; [done|]. specialize (Hf (key y)). cbn in Hf. by rewrite Nat.eqb_refl in Hf. }
  destruct l2 as [|y l2].
  { specialize (Hf (key x)). cbn in Hf. by rewrite Nat.eqb_refl in Hf. }
  apply StronglySorted_inv in H2 as [H2 Hy]. rewrite Forall_forall in Hx, Hy.
  assert (key x = key y) as Hk.
  { apply Nat.le_antisymm.
    - assert (y ∈ x :: l1) as Hy1 by (apply (Hin (y :: l2)); [done|apply list_elem_of_here]).
      apply elem_of_cons in Hy1 as [->|?]; [done|by apply Hle, Hx].
    - assert (x ∈ y :: l2) as Hx2 by (apply (Hin (x :: l1)); [done|apply list_elem_of_here]).
      apply elem_of_cons in Hx2 as [->|?]; [done|by apply Hle, Hy]. }
  assert (x = y) as ->.
  { specialize (Hf (key x)). cbn [List.filter] in Hf. rewrite <- Hk, Nat.eqb_refl in Hf. congruence. }
  f_equal. apply IH; [done|]. intros k. specialize (Hf k). cbn [List.filter] in Hf.
  destruct (key y =? k); congruence.
Qed.

(** The lists hold the ranks [r + 1], [r + 2] and so on, in order. *)
Definition ranked (r : nat) (lists : list (list OwnedEntry)) : Prop :=
  Forall (λ l, ∀ i e, l !! i = Some e → member_rank e = r + i + 1) lists.

Lemma ranked_tail r lists : ranked r lists → ranked (S r) (tail <$> lists).
Proof.
  unfold ranked. rewrite !Forall_forall. intros H l (l0 & -> & Hl0)%list_elem_of_fmap i e He.
  rewrite lookup_tail in He. rewrite (H l0 Hl0 (S i) e He). lia.
Qed.

Lemma heads_rank r lists : ranked r lists → Forall (λ e, member_rank e = S r) (heads lists).
Proof.
  unfold ranked, heads. rewrite !Forall_forall. intros H e (l & Hl & He)%list_elem_of_omap.
  destruct l as [|x l]; [done|]. injection He as ->. rewrite (H _ Hl 0 e eq_refl). lia.
Qed.

Lemma heads_nil (lists : list (list OwnedEntry)) : heads lists = [] → ∀ l, l ∈ lists → l = [].
Proof.
  intros Hh l Hl. destruct l as [|x l]; [done|].
  assert (x ∈ heads lists) as Hx by (apply list_elem_of_omap; by exists (x :: l)).
  rewrite Hh in Hx. by apply elem_of_nil in Hx.
Qed.

Lemma merge_loop_rank fuel r lists :
  ranked r lists → Forall (λ e, S r ≤ member_rank e) (merge_loop fuel lists).
Proof.
  revert r lists. induction fuel as [|fuel IH]; intros r lists H; cbn [merge_loop]; [constructor|].
  destruct (heads lists) as [|x round] eqn:E; [constructor|]. rewrite <- E. apply Forall_app. split.
  - eapply Forall_impl; [by apply heads_rank|]. intros e ->. lia.
  - eapply Forall_impl; [by apply (IH (S r)), ranked_tail|]. intros e He. cbn in He. lia.
Qed.

Lemma merge_loop_sorted fuel r lists :
  ranked r lists → StronglySorted (cmp_le (cmp_on member_rank Nat.compare)) (merge_loop fuel lists).
Proof.
  revert r lists. induction fuel as [|fuel IH]; intros r lists H; cbn [merge_loop]; [constructor|].
  pose proof (heads_rank r lists H) as Hr.
  destruct (heads lists) as [|x round] eqn:E; [constructor|].
  assert (∀ a b, member_rank a ≤ member_rank b → cmp_le (cmp_on member_rank Nat.compare) a b) as Hle.
  { intros a b Hab. unfold cmp_le, cmp_on. by rewrite Nat.compare_gt_iff, Nat.nlt_ge. }
  rewrite Forall_forall in Hr.
  pose proof (merge_loop_rank fuel (S r) (tail <$> lists) ltac:(by apply ranked_tail)) as Hlater.
  rewrite Forall_forall in Hlater.
  apply StronglySorted_app_2; [| |by apply (IH (S r)), ranked_tail].
  - intros a b Ha Hb. apply Hle. rewrite (Hr a Ha). specialize (Hlater b Hb). lia.
  - assert (∀ l : list OwnedEntry, (∀ e, e ∈ l → member_rank e = S r) →
      StronglySorted (cmp_le (cmp_on member_rank Nat.compare)) l) as Hs; [|by apply Hs].
    induction l as [|a l IHl]; intros Hl; constructor.
    + apply IHl. intros e He. apply Hl. by right.
    + apply Forall_forall. intros b Hb. apply Hle.
      rewrite (Hl a), (Hl b); [done|by right|by left].
Qed.

Definition of_rank (k : nat) (e : OwnedEntry) : bool := member_rank e =? k.

Lemma of_rank_none k l : (∀ e, e ∈ l → member_rank e ≠ k) → List.filter (of_rank k) l = [].
Proof.
  induction l as [|x l IH]; intros Hl; [done|]. cbn [List.filter]. unfold of_rank at 1.
  rewrite (proj2 (Nat.eqb_neq _ _)) by (apply Hl; by left). apply IH. intros e He. apply Hl. by right.
Qed.

(** One round and the rest hold the classes of the lists. *)
Lemma heads_tails_class r k lists :
  ranked r lists →
  List.filter (of_rank k) (heads lists) ++ List.filter (of_rank k) (mjoin (tail <$> lists))
    = List.filter (of_rank k) (mjoin lists).
Proof.
  intros Hr. induction lists as [|l lists IH]; [done|].
  apply Forall_cons in Hr as [Hl Hr]. specialize (IH Hr).
  change (mjoin (l :: lists)) with (l ++ mjoin lists).
  change (mjoin (tail <$> l :: lists)) with (tail l ++ mjoin (tail <$> lists)).
  rewrite !List.filter_app, <- IH. destruct l as [|x l]; cbn [tail].
  - done.
  - change (heads ((x :: l) :: lists)) with (x :: heads lists). cbn [List.filter].
    assert (member_rank x = S r) as Hx by (rewrite (Hl 0 x eq_refl); lia).
    replace (of_rank k x) with (S r =? k) by (unfold of_rank; by rewrite Hx).
    destruct (Nat.eqb_spec (S r) k) as [<-|Hne].
    + assert (List.filter (of_rank (S r)) l = []) as ->.
      { apply of_rank_none. intros e [i Hi]%list_elem_of_lookup. rewrite (Hl (S i) e Hi). lia. }
      done.
    + rewrite (of_rank_none k (heads lists)); [done|].
      intros e He. pose proof (heads_rank r lists Hr) as Hh. rewrite Forall_forall in Hh.
      by rewrite (Hh e He).
Qed.

Lemma merge_loop_class fuel r k lists :
  ranked r lists → (∀ l, l ∈ lists → length l < fuel) →
  List.filter (of_rank k) (merge_loop fuel lists) = List.filter (of_rank k) (mjoin lists).
Proof.
  revert r lists. induction fuel as [|fuel IH]; intros r lists Hr Hlen; cbn [merge_loop].
  { destruct lists as [|l lists]; [done|]. specialize (Hlen l (list_elem_of_here _ _)). lia. }
  rewrite <- (heads_tails_class r k lists Hr). destruct (heads lists) as [|x round] eqn:E.
  - rewrite (of_rank_none k (mjoin (tail <$> lists))); [done|]. intros e (l & Hl & Hel)%list_elem_of_join.
    apply list_elem_of_fmap in Hel as (l0 & -> & Hl0). apply (heads_nil lists E) in Hl0 as ->.
    by apply elem_of_nil in Hl.
  - rewrite List.filter_app. f_equal. apply (IH (S r)); [by apply ranked_tail|].
    assert (1 ≤ fuel).
    { assert (x ∈ heads lists) as Hx by (rewrite E; apply list_elem_of_here).
      apply list_elem_of_omap in Hx as (l1 & Hl1 & Hx). specialize (Hlen l1 Hl1).
      destruct l1; [done|]. cbn in Hlen. lia. }
    intros l (l0 & -> & Hl0)%list_elem_of_fmap. specialize (Hlen l0 Hl0).
    destruct l0; cbn in *; lia.
Qed.

Lemma merge_class r k lists :
  ranked r lists → List.filter (of_rank k) (merge lists) = List.filter (of_rank k) (mjoin lists).
Proof.
  intros Hr. apply (merge_loop_class _ r); [done|]. intros l Hl.
  induction lists as [|l0 lists IH]; [by apply elem_of_nil in Hl|].
  change (mjoin (l0 :: lists)) with (l0 ++ mjoin lists). rewrite length_app.
  apply elem_of_cons in Hl as [->|Hl]; [lia|].
  apply Forall_cons in Hr as [_ Hr]. specialize (IH Hr Hl). lia.
Qed.

(** The merge is the stable sort of all entries by rank. *)
Lemma merge_sorted r lists :
  ranked r lists → merge lists = sort_by (cmp_on member_rank Nat.compare) (mjoin lists).
Proof.
  intros Hr. apply (sorted_classes_unique member_rank).
  - by apply (merge_loop_sorted _ r).
  - apply (sort_by_sorted (cmp_on member_rank Nat.compare)).
  - intros k. change (λ x, member_rank x =? k) with (of_rank k). rewrite (merge_class r) by done.
    symmetry. apply sort_by_stable. intros a b Ha Hb. unfold of_rank in *. bool_to_prop.
    unfold cmp_on. apply Nat.compare_eq_iff. congruence.
Qed.

(** ** Quotas *)

Section GatherFacts.
Context (render_path : Path → str) (entry_bytes : OwnedEntry → Z).
#[local] Opaque MAX_HITS MAX_BYTES.

Definition total_bytes (entries : list OwnedEntry) : Z := foldr (λ e n, entry_bytes e + n)%Z 0%Z entries.
Lemma total_bytes_app a b : total_bytes (a ++ b) = (total_bytes a + total_bytes b)%Z.
Proof. induction a as [|x a IH]; [done|]. unfold total_bytes in *. cbn. lia. Qed.

Lemma total_bytes_perm a b : a ≡ₚ b → total_bytes a = total_bytes b.
Proof. unfold total_bytes. induction 1; cbn; lia. Qed.

Lemma take_entries_spec owner rank fallback quota bytes hits :
  (bytes ≤ quota)%Z →
  let entries := take_entries entry_bytes owner rank fallback quota bytes hits in
  (bytes + total_bytes entries ≤ quota)%Z ∧ length entries ≤ length hits ∧
  Forall (λ e, WorkspaceSets.owner e = owner) entries ∧
  (∀ i e, entries !! i = Some e → member_rank e = rank + i + 1 ∧
     LiveSource <$> hits !! i = Some (oe_entry e)).
Proof.
  revert rank bytes. induction hits as [|hit hits IH]; intros rank bytes Hb; cbn [take_entries].
  { split_and!; [cbn; lia|done|constructor|done]. }
  set (entry := {| owner := _ |}). destruct (Z.ltb_spec quota (bytes + entry_bytes entry)) as [?|Hok].
  { split_and!; [cbn; lia|cbn; lia|constructor|done]. }
  destruct (IH (S rank) (bytes + entry_bytes entry)%Z Hok) as (Hsum & Hlen & Hown & Hrank).
  split_and!; [cbn [total_bytes foldr] in *; unfold total_bytes in Hsum; lia|cbn; lia|by constructor|].
  intros [|i] e He; [injection He as <-; cbn; split; [lia|done]|].
  destruct (Hrank i e He) as [-> Hh]. split; [lia|done].
Qed.

(** The lists belong to the owners by position and are ranked from one. *)
Definition gathered_ok (g : Gathered) : Prop :=
  ranked 0 (g_lists g) ∧ length (g_lists g) = length (g_owners g) ∧
  (∀ j l e, g_lists g !! j = Some l → e ∈ l → owner e = j).
Definition used_hits (g : Gathered) : nat := length (mjoin (g_lists g)).
Definition used_bytes (g : Gathered) : Z := total_bytes (mjoin (g_lists g)).

Lemma visit_spec member answer n g :
  gathered_ok g →
  let g' := (visit render_path entry_bytes member answer n g).1 in
  gathered_ok g' ∧ used_hits g' ≤ used_hits g + MAX_HITS / n ∧
  (used_bytes g' ≤ used_bytes g + MAX_BYTES / Z.of_nat n)%Z ∧
  length (g_coverage g') = length (g_coverage g) + 1 ∧ g_scope g' = g_scope g ∧
  match answer with
  | Found owner _ _ coverage _ _ => g_owners g' = g_owners g ++ [with_coverage owner coverage]
  | _ => g_owners g' = g_owners g ∧ g_lists g' = g_lists g
  end.
Proof.
  intros (Hrank & Hlen & Hown). assert (0 ≤ MAX_BYTES / Z.of_nat n)%Z as Hq.
  { destruct n; [by rewrite Z.div_0_r|]. apply Z.div_pos; [by vm_compute|lia]. }
  destruct answer as [own hits truncated coverage fallback miss|reason|message]; cbn [visit fst].
  - set (entries := take_entries _ _ _ _ _ _ _).
    destruct (take_entries_spec (length (g_owners g)) 0 fallback (MAX_BYTES / Z.of_nat n) 0
      (take (MAX_HITS / n) hits)) as (Hsum & Hle & Hone & Hr); [done|]. fold entries in Hsum, Hle, Hone, Hr.
    rewrite length_take in Hle. unfold gathered_ok, used_hits, used_bytes.
    cbn [g_lists g_owners g_coverage g_scope].
    assert (mjoin (g_lists g ++ [entries]) = mjoin (g_lists g) ++ entries) as Hjoin
      by (rewrite join_app; cbn; by rewrite app_nil_r).
    rewrite Hjoin, !length_app, total_bytes_app. cbn [length].
    split_and!; [|lia| |lia|lia|done|done|done].
    + apply Forall_app. split; [done|]. apply Forall_singleton. intros i e He. by apply Hr.
    + intros j l e [Hj|(Hj & Hl)]%lookup_app_Some; [by eapply Hown|].
      apply list_lookup_singleton_Some in Hl as [Hz <-]. intros He.
      rewrite Forall_forall in Hone. rewrite (Hone e He). lia.
  - unfold gathered_ok, used_hits, used_bytes. cbn [g_lists g_owners g_coverage g_scope].
    rewrite length_app. cbn [length]. split_and!; done || lia.
  - unfold gathered_ok, used_hits, used_bytes. cbn [g_lists g_owners g_coverage g_scope].
    rewrite length_app. cbn [length]. split_and!; done || lia.
Qed.
Context (roots : list MemberRoot) (answers : nat → MemberAnswer).
(** [MemberSnapshot::capture] records the member's name. *)
Definition captured : Prop :=
  ∀ i m owner hits truncated coverage fallback miss, roots !! i = Some m →
    answers i = Found owner hits truncated coverage fallback miss → ms_name owner = root_name m.
Definition names_of (queue : list nat) : list str := omap (λ i, root_name <$> roots !! i) queue.
Definition in_roots (queue : list nat) : Prop := Forall (λ i, i < length roots) queue.

Abbreviation step := (visit_index render_path entry_bytes roots answers).
Abbreviation steps := (visit_all render_path entry_bytes roots answers).

(** What a visit of [queue] keeps and adds. *)
Definition gathers (n : nat) (g g' : Gathered) (queue : list nat) : Prop :=
  gathered_ok g' ∧ used_hits g' ≤ used_hits g + length queue * (MAX_HITS / n) ∧
  (used_bytes g' ≤ used_bytes g + Z.of_nat (length queue) * (MAX_BYTES / Z.of_nat n))%Z ∧
  length (g_coverage g') = length (g_coverage g) + length queue ∧ g_scope g' = g_scope g ∧
  ∃ new, g_owners g' = g_owners g ++ new ∧ ms_name <$> new `sublist_of` names_of queue.

Lemma gathers_trans n g g1 g2 a b : gathers n g g1 a → gathers n g1 g2 b → gathers n g g2 (a ++ b).
Proof.
  intros (_ & Hh & Hb & Hc & Hs & new & Ho & Hn) (Hok & Hh' & Hb' & Hc' & Hs' & new' & Ho' & Hn').
  unfold gathers. rewrite length_app. split_and!; [done|lia|lia|lia|congruence|].
  exists (new ++ new'). rewrite Ho', Ho, <- app_assoc, fmap_app. split; [done|].
  unfold names_of. rewrite omap_app. by apply sublist_app.
Qed.

Lemma visit_index_spec n g i :
  captured → i < length roots → gathered_ok g → gathers n g (step n g i).1 [i].
Proof.
  intros Hcap Hi Hok. unfold visit_index. destruct (roots !! i) as [m|] eqn:Hm;
    [|apply lookup_ge_None in Hm; lia].
  destruct (visit_spec m (answers i) n g Hok) as (Hok' & Hh & Hb & Hc & Hs & Ho).
  unfold gathers. cbn [length]. split_and!; [done|lia|lia|lia|done|].
  assert (names_of [i] = [root_name m]) as -> by (unfold names_of; cbn; by rewrite Hm).
  destruct (answers i) as [own hits tr cov fb miss| |] eqn:Ha.
  - exists [with_coverage own cov]. split; [done|]. cbn. rewrite (Hcap i m own hits tr cov fb miss); done.
  - exists []. rewrite app_nil_r. split; [apply Ho|apply sublist_nil_l].
  - exists []. rewrite app_nil_r. split; [apply Ho|apply sublist_nil_l].
Qed.

Lemma visit_all_spec n g queue :
  captured → in_roots queue → gathered_ok g → gathers n g (steps n g queue) queue.
Proof.
  intros Hcap. revert g. induction queue as [|i queue IH]; intros g Hin Hok; cbn [visit_all foldl].
  { unfold gathers. cbn. split_and!; [apply Hok..|lia|lia|lia|done|]. exists []. by rewrite app_nil_r. }
  apply Forall_cons in Hin as [Hi Hin].
  change (i :: queue) with ([i] ++ queue). eapply gathers_trans; [by apply visit_index_spec|].
  apply IH; [done|]. by apply (visit_index_spec n g i).
Qed.

(** The members an implicit home adds. *)
Definition others_of (index : nat) : list nat :=
  List.filter (λ i, negb (i =? index)) (seq 0 (length roots)).
Lemma others_in_roots index : in_roots (others_of index).
Proof.
  apply Forall_forall. intros i Hi. unfold others_of in Hi.
  rewrite list_elem_of_In, List.filter_In, List.in_seq in Hi. lia.
Qed.

Lemma others_length index : index < length roots → length (others_of index) = length roots - 1.
Proof.
  intros Hi. unfold others_of.
  assert (∀ l : list nat, (∀ i, i ∈ l → i ≠ index) → List.filter (λ i, negb (i =? index)) l = l) as Hid.
  { intros l Hl. apply List.forallb_filter_id, List.forallb_forall. intros i Hin.
    apply negb_true_iff, Nat.eqb_neq, Hl. by apply list_elem_of_In. }
  replace (seq 0 (length roots)) with (seq 0 index ++ index :: seq (S index) (length roots - S index)).
  2: { change (index :: seq (S index) (length roots - S index))
         with (seq (0 + index) (S (length roots - S index))).
       rewrite <- (seq_app index (S (length roots - S index)) 0). f_equal. lia. }
  rewrite List.filter_app. cbn [List.filter]. rewrite Nat.eqb_refl. cbn [negb].
  rewrite !Hid by (intros i; rewrite list_elem_of_In, List.in_seq; lia).
  rewrite length_app, !length_seq. lia.
Qed.

Lemma nothing_ok : gathered_ok gathered_nothing.
Proof. split_and!; [constructor|done|intros j l e [=]]. Qed.
End GatherFacts.

(** ** Scopes *)

#[export] Instance member_order_comparator roots : Comparator (member_order roots).
Proof. unfold member_order. apply _. Qed.

Lemma scope_Ok `{UnicodeTables} roots member arguments sc :
  scope roots member arguments = Ok sc →
  ∃ selected, NoDup (sc_members sc) ∧ in_roots roots (sc_members sc) ∧
    StronglySorted (cmp_le (member_order roots)) (sc_members sc) ∧
    (∀ i, i ∈ sc_members sc ↔ ∃ m, roots !! i = Some m ∧
       match selected with Some name => root_name m = name | None => True end) ∧
    (∀ name, selected = Some name → ∃ m, m ∈ roots ∧ root_name m = name) ∧
    (sc_implicit_home sc = true → selected = home_name roots ∧ is_Some selected).
Proof.
  unfold scope. intros Hsc. apply bind_Ok in Hsc as ([selection words] & Hw & Hsc).
  apply bind_Ok in Hsc as (selected & Hsel & Hsc). apply bind_Ok in Hsc as (? & Hex & Hsc).
  apply ensure_Ok in Hex. injection Hsc as <-. cbn [sc_members sc_implicit_home].
  set (keep := λ i : nat, match selected with Some _ => _ | None => _ end).
  assert (∀ i, keep i = true ↔ ∃ m, roots !! i = Some m ∧
       match selected with Some name => root_name m = name | None => True end) as Hkeep.
  { intros i. unfold keep. destruct selected as [name|], (roots !! i) as [m|].
    - rewrite bool_decide_eq_true. naive_solver.
    - naive_solver.
    - naive_solver.
    - naive_solver. }
  assert (∀ i, i ∈ sort_by (member_order roots) (List.filter keep (seq 0 (length roots))) ↔
    keep i = true) as Hmem.
  { intros i. rewrite elem_of_sort_by, list_elem_of_In, List.filter_In, List.in_seq.
    split; [tauto|]. intros Hk. split; [|done]. apply Hkeep in Hk as (m & Hm & _).
    apply lookup_lt_Some in Hm. lia. }
  exists selected. split_and!.
  - rewrite (sort_by_perm (member_order roots)).
    apply NoDup_ListNoDup, List.NoDup_filter, List.seq_NoDup.
  - apply Forall_forall. intros i Hi. apply Hmem, Hkeep in Hi as (m & Hm & _). by eapply lookup_lt_Some.
  - apply (sort_by_sorted (member_order roots)).
  - intros i. by rewrite Hmem, Hkeep.
  - intros name ->. apply existsb_exists in Hex as (m & Hm & Hn). bool_to_prop.
    exists m. by rewrite list_elem_of_In.
  - intros Hi. apply andb_prop in Hi as [Hn Hh]. bool_to_prop. subst selection. cbn in Hsel.
    injection Hsel as <-. done.
Qed.

(** An implicit home is the only member at first. *)
Lemma implicit_home_alone `{UnicodeTables} roots member arguments sc :
  NoDup (root_name <$> roots) →
  scope roots member arguments = Ok sc → sc_implicit_home sc = true →
  ∃ home m, sc_members sc = [home] ∧ roots !! home = Some m ∧ Some (root_name m) = home_name roots.
Proof.
  intros Hnd Hsc Hi. apply scope_Ok in Hsc as (selected & Hndm & Hin & _ & Hmem & Hex & Himp).
  destruct (Himp Hi) as [Hsel [name ->]]. destruct (Hex name eq_refl) as (m & Hm & Hn).
  apply list_elem_of_lookup in Hm as [home Hm]. exists home, m. split_and!; [|done|congruence].
  assert (∀ i, i ∈ sc_members sc → i = home) as Hall.
  { intros i (m' & Hm' & Hn')%Hmem.
    eapply (NoDup_lookup _ i home name Hnd); rewrite list_lookup_fmap; [by rewrite Hm', <- Hn'|by rewrite Hm, <- Hn]. }
  assert (home ∈ sc_members sc) as Hhome by (apply Hmem; by exists m).
  destruct (sc_members sc) as [|a [|b rest]]; [by apply elem_of_nil in Hhome|f_equal; apply Hall; by left|].
  exfalso. apply NoDup_cons in Hndm as [Ha _]. apply Ha.
  rewrite (Hall a), (Hall b); [by left|right; by left|by left].
Qed.

Section SearchFacts.
Context `{UnicodeTables} (render_path : Path → str) (entry_bytes : OwnedEntry → Z).
Context (roots : list MemberRoot) (answers : nat → MemberAnswer).
#[local] Opaque MAX_HITS MAX_BYTES.
Abbreviation step := (visit_index render_path entry_bytes roots answers).
Abbreviation gathering := (gather render_path entry_bytes roots answers).

(** Whether the implicit home's own visit lets the others in. *)
Definition home_is_silent (g : Gathered) : Prop :=
  g_lists g = [[]] ∧ incomplete_fallback g = false ∧ 1 < length roots.

Lemma home_scope_widens state g :
  length (g_lists g) ≤ 1 →
  (home_scope (length roots - 1) state g).2 = true ↔ home_is_silent g.
Proof.
  intros Hlen. unfold home_scope, implicit_home_scope, home_is_silent.
  destruct (Nat.eqb_spec (length roots - 1) 0); cbn [snd]; [split; [done|lia]|].
  destruct (g_lists g) as [|[|e l] [|]]; cbn in Hlen |- *; try lia.
  - split; [done|]. by intros [? _].
  - destruct (incomplete_fallback g); cbn; split; try done; [by intros (_ & ? & _)|].
    intros _. split_and!; [done..|lia].
  - destruct (incomplete_fallback g); cbn; (split; [done|by intros [? _]]).
Qed.

Lemma single_visit n i : length (g_lists (step n gathered_nothing i).1) ≤ 1.
Proof. unfold visit_index. destruct (roots !! i); [|cbn; lia]. destruct (answers i); cbn; lia. Qed.

(** What the loop gathers, for a scope that lists known members. *)
Lemma gather_spec sc :
  captured roots answers → in_roots roots (sc_members sc) →
  (sc_implicit_home sc = true → ∃ home, sc_members sc = [home]) →
  let g := gathering sc in
  gathered_ok g ∧ used_hits g ≤ MAX_HITS ∧ (used_bytes entry_bytes g ≤ MAX_BYTES)%Z ∧
  ∃ queue new, g_owners g = new ∧ ms_name <$> new `sublist_of` names_of roots queue ∧
    length (g_coverage g) = length queue ∧
    (sc_implicit_home sc = false → queue = sc_members sc) ∧
    (∀ home, sc_implicit_home sc = true → sc_members sc = [home] →
       let g0 := (step 1 gathered_nothing home).1 in
       home_is_silent g0 ∧ queue = home :: others_of roots home ∨
       ¬ home_is_silent g0 ∧ queue = [home] ∧ g_lists g = g_lists g0 ∧ g_owners g = g_owners g0).
Proof.
  intros Hcap Hin Himp.
  assert (∀ k n : nat, k ≤ n → k * (MAX_HITS / n) ≤ MAX_HITS) as Hhits.
  { intros k n Hkn. destruct n as [|n]; [replace k with 0 by lia; lia|].
    pose proof (Nat.Div0.mul_div_le MAX_HITS (S n)). nia. }
  assert (0 ≤ MAX_BYTES)%Z as Hpos by by vm_compute.
  assert (∀ k n : nat, k ≤ n → (Z.of_nat k * (MAX_BYTES / Z.of_nat n) ≤ MAX_BYTES)%Z) as Hbytes.
  { intros k n Hkn. destruct n as [|n]; [replace k with 0 by lia; lia|].
    pose proof (Z.mul_div_le MAX_BYTES (Z.of_nat (S n)) ltac:(lia)).
    pose proof (Z.div_pos MAX_BYTES (Z.of_nat (S n)) ltac:(lia) ltac:(lia)). nia. }
  unfold gather. destruct (sc_implicit_home sc) eqn:Hi.
  2: { destruct (visit_all_spec render_path entry_bytes roots answers (length (sc_members sc))
         gathered_nothing (sc_members sc) Hcap Hin nothing_ok) as (Hok & Hh & Hb & Hc & _ & new & Ho & Hn).
    cbn [used_hits used_bytes gathered_nothing g_lists mjoin list_join length total_bytes foldr g_coverage] in Hh, Hb, Hc.
    split_and!; [apply Hok..| | |].
    - etrans; [exact Hh|]. by apply Hhits.
    - etrans; [exact Hb|]. by apply Hbytes.
    - exists (sc_members sc), new. by split_and!. }
  destruct (Himp eq_refl) as [home Hmem]. rewrite Hmem in Hin |- *. cbn [length app].
  apply (proj1 (Forall_singleton (λ i, i < length roots) home)) in Hin.
  pose proof (visit_index_spec render_path entry_bytes roots answers 1 gathered_nothing home Hcap Hin
    nothing_ok) as Hfirst.
  pose proof (single_visit 1 home) as Hone.
  destruct (step 1 gathered_nothing home) as [g0 state] eqn:Hg0. cbn [fst] in Hfirst, Hone.
  pose proof (home_scope_widens state g0 Hone) as Hwiden.
  destruct (home_scope (length roots - 1) state g0) as [line widen]. cbn [snd] in Hwiden.
  destruct Hfirst as (Hok0 & Hh0 & Hb0 & Hc0 & _ & new0 & Ho0 & Hn0).
  cbn [used_hits used_bytes gathered_nothing g_lists mjoin list_join length total_bytes foldr g_coverage] in Hh0, Hb0, Hc0.
  assert (gathered_ok (set_scope line g0)) as Hok0' by exact Hok0.
  destruct widen.
  - destruct (proj1 Hwiden eq_refl) as (Hl & Hinc & Hroots).
    destruct (visit_all_spec render_path entry_bytes roots answers (1 + length (others_of roots home))
      (set_scope line g0) (others_of roots home) Hcap (others_in_roots roots home) Hok0')
      as (Hok & Hh & Hb & Hc & _ & new & Ho & Hn).
    assert (used_hits (set_scope line g0) = 0) as Hu by (unfold used_hits; cbn; by rewrite Hl).
    assert (used_bytes entry_bytes (set_scope line g0) = 0%Z) as Hub by (unfold used_bytes; cbn; by rewrite Hl).
    fold (others_of roots home).
    split_and!; [apply Hok..| | |].
    + etrans; [exact Hh|]. rewrite Hu. apply Hhits. lia.
    + etrans; [exact Hb|]. rewrite Hub. apply Hbytes. lia.
    + exists (home :: others_of roots home), (new0 ++ new). split_and!.
      * etransitivity; [exact Ho|]. cbn [set_scope g_owners]. by rewrite Ho0.
      * rewrite fmap_app. change (home :: others_of roots home) with ([home] ++ others_of roots home).
        unfold names_of. rewrite omap_app. by apply sublist_app.
      * etransitivity; [exact Hc|]. cbn [set_scope g_coverage length]. rewrite Hc0. done.
      * done.
      * intros home' _ [= <-]. left. split; [|done]. rewrite Hg0. by apply Hwiden.
  - cbn [visit_all foldl length].
    split_and!; [apply Hok0..| | |].
    + etrans; [exact Hh0|]. by apply (Hhits 1 1).
    + etrans; [exact Hb0|]. by apply (Hbytes 1 1).
    + exists [home], new0. split_and!; [exact Ho0|exact Hn0|exact Hc0|done|].
      intros home' _ [= <-]. right. rewrite Hg0. split_and!; [|done..]. intros Hs. by apply Hwiden in Hs.
Qed.

Lemma search_set_Ok workspace sc set :
  search_set render_path entry_bytes roots answers workspace sc = Ok set →
  let g := gathering sc in
  ws_hits set = merge (g_lists g) ∧ ws_owners set = g_owners g ∧ ws_coverage set = g_coverage g ∧
  ws_scope set = g_scope g ∧ (g_owners g ≠ [] ∨ sc_implicit_home sc = true).
Proof.
  unfold search_set. intros Hs. apply bind_Ok in Hs as (? & Hc & Hs). injection Hs as <-. cbn.
  unfold check_answered in Hc. apply bind_Ok in Hc as (? & _ & Hc). apply bind_Ok in Hc as (? & _ & Hc).
  apply ensure_Ok, orb_true_iff in Hc. split_and!; [done..|].
  destruct Hc as [Hc|Hc]; [left|by right]. apply negb_true_iff, Nat.eqb_neq in Hc. intros Hn. by rewrite Hn in Hc.
Qed.

Lemma merge_members lists e : ranked 0 lists → e ∈ merge lists ↔ e ∈ mjoin lists.
Proof. intros Hr. by rewrite (merge_sorted 0 lists Hr), elem_of_sort_by. Qed.

Lemma merge_total lists :
  ranked 0 lists →
  length (merge lists) = length (mjoin lists) ∧
  total_bytes entry_bytes (merge lists) = total_bytes entry_bytes (mjoin lists).
Proof.
  intros Hr. rewrite (merge_sorted 0 lists Hr). rewrite sort_by_length. split; [done|].
  apply total_bytes_perm, sort_by_perm.
Qed.
End SearchFacts.


(** Widening beyond home: a search without a selector, in a workspace with a home
    member, asks the other members exactly when the home answered completely and
    kept no hit; otherwise its coverage has the home's row alone, and all owners
    and hits are the home's. *)
Theorem home_widens_without_hits `{UnicodeTables} (render_path : Path → str) (entry_bytes : OwnedEntry → Z)
    (roots : list MemberRoot) (answers : nat → MemberAnswer) (member : option str)
    (arguments : list str) (workspace : str) (sc : Scope) (set : WorkspaceSet) :
  captured roots answers → NoDup (root_name <$> roots) → scope roots member arguments = Ok sc →
  sc_implicit_home sc = true →
  search_set render_path entry_bytes roots answers workspace sc = Ok set →
  ∃ home m, roots !! home = Some m ∧ Some (root_name m) = home_name roots ∧
    let alone := (visit render_path entry_bytes m (answers home) 1 gathered_nothing).1 in
    (home_is_silent roots alone → length (ws_coverage set) = length roots) ∧
    (¬ home_is_silent roots alone →
       length (ws_coverage set) = 1 ∧ ws_owners set = g_owners alone ∧
       ws_hits set = merge (g_lists alone) ∧ length (ws_owners set) ≤ 1).
Proof.
  intros Hcap Hnd Hsc Hi Hset. pose proof (scope_Ok _ _ _ _ Hsc) as (_ & _ & Hin & _).
  destruct (implicit_home_alone _ _ _ _ Hnd Hsc Hi) as (home & m & Hmem & Hm & Hname).
  destruct (gather_spec render_path entry_bytes roots answers sc Hcap Hin)
    as (Hok & _ & _ & queue & new & _ & _ & Hcov & _ & Hcase); [by exists home|].
  destruct (search_set_Ok _ _ _ _ _ _ _ Hset) as (Hhits & Ho & Hc & _).
  exists home, m. split_and!; [done|done|]. specialize (Hcase home Hi Hmem).
  assert (visit_index render_path entry_bytes roots answers 1 gathered_nothing home
    = visit render_path entry_bytes m (answers home) 1 gathered_nothing) as Hv by (unfold visit_index; by rewrite Hm).
  rewrite Hv in Hcase. set (alone := (visit _ _ _ _ _ _).1) in *. rewrite Hc, Hcov.
  destruct Hcase as [[Hs ->]|(Hs & -> & Hl & Hown)]; (split; [intros Hs'|intros Hs']); try done.
  - cbn [length]. rewrite others_length by by eapply lookup_lt_Some.
    apply lookup_lt_Some in Hm. lia.
  - split_and!; [done|by rewrite Ho|by rewrite Hhits, Hl|]. rewrite Ho, Hown.
    unfold alone. destruct (answers home); cbn; lia.
Qed.

(** C27. A searched workspace reads back: what a search found is saved under a free
    id with its owners and the first hits in merged order, passes the ownership
    checks when loaded within ten minutes, and its rows count the hits that were
    kept. *)
Theorem searched_set_loads `{UnicodeTables, UuidLaws uuid} (render_path : Path → str)
    (entry_bytes : OwnedEntry → Z) (to_string : WorkspaceSet → str) (from_str : str → result WorkspaceSet)
    (roots : list MemberRoot) (answers : nat → MemberAnswer) (member : option str)
    (arguments : list str) (workspace : str) (sc : Scope) (set : WorkspaceSet)
    (rows rows' : list WsRow) (u : uuid) (t1 t2 t : Z) (id : str) :
  captured roots answers → NoDup (root_name <$> roots) → length roots ≤ MEMBER_LIMIT →
  scope roots member arguments = Ok sc →
  search_set render_path entry_bytes roots answers workspace sc = Ok set →
  from_str (to_string (ws_prepared to_string (uuid_simple u) set))
    = Ok (ws_prepared to_string (uuid_simple u) set) →
  NoDup (wr_id <$> rows) → ws_save to_string rows u t1 t2 set = Ok (id, rows') → (t < t2 + 600)%Z →
  ws_within_limits rows' = true ∧
  ∃ out k, ws_load from_str rows' t id = Ok out ∧ ws_owners out = ws_owners set ∧
    ws_hits out = take k (ws_assign id (ws_hits set)) ∧ counts_ok out ∧ flags_ok set out ∧
    (k < length (ws_hits set) → ws_truncated out = true).
Proof.
  intros Hcap Hnd Hlen Hsc Hset Hcodec Hrows Hsave Ht.
  pose proof (scope_Ok _ _ _ _ Hsc) as (_ & Hndm & Hin & _).
  assert (sc_implicit_home sc = true → ∃ home, sc_members sc = [home]) as Himp.
  { intros Hi. destruct (implicit_home_alone _ _ _ _ Hnd Hsc Hi) as (home & m & Hm & _). by exists home. }
  destruct (gather_spec render_path entry_bytes roots answers sc Hcap Hin Himp)
    as ((Hrank & Hll & Hown) & _ & _ & queue & new & Hnew & Hsub & _ & Hq & Hcase).
  destruct (search_set_Ok _ _ _ _ _ _ _ Hset) as (Hhits & Ho & _).
  set (g := gather _ _ _ _ _) in *. subst new.
  assert (NoDup queue ∧ in_roots roots queue) as [Hndq Hinq].
  { destruct (sc_implicit_home sc) eqn:Hi; [|by rewrite (Hq eq_refl)].
    destruct (Himp eq_refl) as [home Hm]. rewrite Hm in Hin.
    apply (proj1 (Forall_singleton (λ i, i < length roots) home)) in Hin.
    destruct (Hcase home eq_refl Hm) as [[_ ->]|(_ & -> & _)].
    - split; [|constructor; [done|apply others_in_roots]]. apply NoDup_cons. split.
      + unfold others_of. rewrite list_elem_of_In, List.filter_In, Nat.eqb_refl. by intros [_ ?].
      + apply NoDup_ListNoDup, List.NoDup_filter, List.seq_NoDup.
    - split; [apply NoDup_singleton|by apply Forall_singleton]. }
  assert (NoDup (names_of roots queue) ∧ length (names_of roots queue) ≤ length roots) as [Hndn Hlenn].
  { assert (names_of roots queue = (λ i, default [] (root_name <$> roots !! i)) <$> queue) as ->.
    { clear -Hinq. unfold names_of. induction Hinq as [|i queue Hi _ IH]; [done|].
      destruct (lookup_lt_is_Some_2 roots i Hi) as [m Hm]. cbn. rewrite Hm. cbn. by rewrite IH. }
    split.
    - apply NoDup_fmap_2_strong; [|done]. intros i j Hi Hj. unfold in_roots in Hinq. rewrite Forall_forall in Hinq.
      destruct (lookup_lt_is_Some_2 roots i (Hinq i Hi)) as [m Hm].
      destruct (lookup_lt_is_Some_2 roots j (Hinq j Hj)) as [m' Hm']. rewrite Hm, Hm'. cbn. intros Hn.
      eapply (NoDup_lookup _ i j (root_name m) Hnd); rewrite list_lookup_fmap; [by rewrite Hm|by rewrite Hm', Hn].
    - rewrite length_fmap. rewrite <- (length_seq (length roots) 0).
      apply submseteq_length, NoDup_submseteq; [done|]. intros i Hi. unfold in_roots in Hinq.
      rewrite Forall_forall in Hinq. rewrite list_elem_of_In. apply List.in_seq. specialize (Hinq i Hi). lia. }
  destruct (workspace_save_load to_string from_str rows rows' u t1 t2 t set id Hcodec Hrows)
    as (Hlim & out & k & Hload & Hoo & _ & _ & Hk & Hc & Hf & Hcut).
  - rewrite Ho. by eapply sublist_NoDup.
  - rewrite Ho. apply sublist_length in Hsub. rewrite length_fmap in Hsub. unfold MEMBER_LIMIT in Hlen. lia.
  - rewrite Hhits, Ho. apply Forall_forall. intros e He. apply (merge_members _ e Hrank) in He.
    apply list_elem_of_join in He as (l & Hl & He). apply list_elem_of_lookup in He as [j Hj].
    rewrite (Hown j l e Hj Hl), <- Hll. by eapply lookup_lt_Some.
  - exact Hsave.
  - exact Ht.
  - split; [done|]. exists out, k. by split_and!.
Qed.

(** A home without hits and another member with two; the other way round. *)
Module RetrievalExample.
Definition root (name : string) (home : bool) : MemberRoot :=
  {| mr_member := {| m_name := lit name; m_root := [RootDir; Normal (lit name)]; m_identity := None |};
     mr_root := [RootDir; Normal (lit name)]; mr_identity := None; mr_worktree := None; mr_home := home |}.
Definition roots : list MemberRoot := [root "b" false; root "a" true].
Definition hit (path : string) : Hit :=
  {| hit_handle := []; hit_path := lit path; hit_revision := None; hit_start := 0; hit_end := 0;
     hit_start_line := 1; hit_end_line := 1; hit_name := lit "f"; hit_kind := lit "function";
     hit_container := None; hit_provenance := None; hit_resolution := None; hit_candidates := [];
     hit_target := None; hit_snippet := None; hit_repeats := None |}.
Definition render_path (_ : Path) : str := [].
Definition entry_bytes (_ : OwnedEntry) : Z := 10%Z.
Definition found (name : string) (paths : list string) : MemberAnswer :=
  Found (WorkspaceSetsExample.member name) (hit <$> paths) false (JObj []) None None.
Definition silent_home (i : nat) : MemberAnswer :=
  match i with 0 => found "b" ["x"; "y"]%string | _ => found "a" [] end.
Definition two_members (i : nat) : MemberAnswer :=
  match i with 0 => found "b" ["x"; "y"]%string | _ => found "a" ["z"]%string end.
Lemma names : NoDup (root_name <$> roots).
Proof. apply (bool_decide_unpack _). by vm_compute. Qed.
Lemma silent_captured : captured roots silent_home.
Proof. intros [|[|i]] m own hits tr cov fb miss [= <-] [=]; by subst. Qed.
Lemma two_captured : captured roots two_members.
Proof. intros [|[|i]] m own hits tr cov fb miss [= <-] [=]; by subst. Qed.
Definition home_scoped : Scope := {| sc_members := [1]; sc_words := [lit "find f"]; sc_implicit_home := true |}.
Lemma scoped : scope roots None [lit "find f"] = Ok home_scoped.
Proof. vm_compute. done. Qed.
Definition all : Scope := {| sc_members := [1; 0]; sc_words := [lit "find f"]; sc_implicit_home := false |}.
Lemma all_scoped : scope roots None (lit <$> ["ws:all"; "find f"]%string) = Ok all.
Proof. vm_compute. done. Qed.
(** Selectors that disagree are refused. *)
Example conflicting : scope roots (Some (lit "a")) [lit "find ws:all f"]
  = Err "invalid_scope: conflicting workspace selectors".
Proof. vm_compute. done. Qed.
Definition empty_set : WorkspaceSet := with_ws WorkspaceSetsExample.set [] [] false.
Definition run (answers : nat → MemberAnswer) (sc : Scope) : WorkspaceSet :=
  match search_set render_path entry_bytes roots answers (lit "w") sc with
  | Ok set => set | Err _ => empty_set
  end.
Definition paths (set : WorkspaceSet) : list str :=
  (λ e, match oe_entry e with LiveSource h => hit_path h | _ => [] end) <$> ws_hits set.
Example widened :
  paths (run silent_home home_scoped) = lit <$> ["x"; "y"]%string ∧
  ws_scope (run silent_home home_scoped) = Some (lit "all (no home hits)").
Proof. vm_compute. done. Qed.
Example interleaved : paths (run two_members all) = lit <$> ["z"; "x"; "y"]%string.
Proof. vm_compute. done. Qed.
Lemma silent_run : search_set render_path entry_bytes roots silent_home (lit "w") home_scoped
  = Ok (run silent_home home_scoped).
Proof. vm_compute. done. Qed.
Lemma all_run : search_set render_path entry_bytes roots two_members (lit "w") all = Ok (run two_members all).
Proof. vm_compute. done. Qed.
Definition set : WorkspaceSet := run two_members all.
Definition id : str := uuid_simple SimpleUuid.nil.
Definition to_string (s : WorkspaceSet) : str := show_nat (length (ws_hits s)).
Definition from_str (s : str) : result WorkspaceSet := Ok (ws_prepared to_string id set).
Definition rows' : list WsRow := [{| wr_id := id; wr_expires := 1301; wr_payload := lit "3" |}].
Lemma search_saved : ws_save to_string [] SimpleUuid.nil 700 701 set = Ok (id, rows').
Proof. vm_compute. done. Qed.
End RetrievalExample.
Import RetrievalExample.


Lemma home_widens_without_hits_witness :
  length (ws_coverage (run silent_home home_scoped)) = 2.
Proof.
  destruct (home_widens_without_hits render_path entry_bytes roots silent_home None [lit "find f"]
    (lit "w") home_scoped (run silent_home home_scoped) silent_captured names scoped eq_refl silent_run)
    as (home & m & Hm & Hn & Hsilent & _).
  destruct home as [|[|home]]; [exfalso; injection Hm as <-; discriminate Hn| |discriminate Hm].
  injection Hm as <-. apply Hsilent. vm_compute. split; [reflexivity|]. split; [reflexivity|]. apply le_n.
Defined.

Lemma searched_set_loads_witness :
  ws_within_limits rows' = true ∧ ∃ out, ws_load from_str rows' 1300 id = Ok out ∧ counts_ok out.
Proof.
  destruct (searched_set_loads render_path entry_bytes to_string from_str roots two_members None
    (lit <$> ["ws:all"; "find f"]%string) (lit "w") all set [] rows' SimpleUuid.nil 700 701 1300 id
    two_captured names ltac:(vm_compute; lia) all_scoped all_run eq_refl
    ltac:(constructor) search_saved eq_refl) as (Hl & out & k & Ho & _ & _ & Hc & _).
  split; [exact Hl|]. exists out. split; [exact Ho|exact Hc].
Defined.

(** A row is partial exactly when it counts unsearched files, and then names at
    least one kind of them, without repeats. *)
Lemma unsearched_consistent coverage :
  (partial_coverage coverage = true ↔ (0 < unsearched_files coverage)%Z) ∧
  (partial_coverage coverage = true ↔ unsearched_kinds coverage ≠ []) ∧
  NoDup (unsearched_kinds coverage).
Proof.
  assert (∀ key, 0 ≤ count coverage key)%Z as Hpos.
  { intros key. unfold count. destruct (jindex coverage key); cbn; try lia.
    destruct (Z.leb_spec 0 n); cbn; lia. }
  unfold partial_coverage, unsearched_files, unsearched_kinds, UNSEARCHED. cbn [existsb foldr foldl].
  pose proof (Hpos "walk_failures"%string). pose proof (Hpos "truncated_files"%string).
  pose proof (Hpos "live_read_failures"%string). pose proof (Hpos "live_walk_failures"%string).
  destruct (Z.ltb_spec 0 (count coverage "walk_failures")), (Z.ltb_spec 0 (count coverage "truncated_files")),
    (Z.ltb_spec 0 (count coverage "live_read_failures")), (Z.ltb_spec 0 (count coverage "live_walk_failures"));
    (split_and!; [|cbn; naive_solver|apply (bool_decide_unpack _); by vm_compute]);
    cbn [orb]; split; intros; try done; lia.
Qed.
