(* ===== verification/PhpScopes.v ===== *)
(** * PHP names, namespaces and imports of a file

    Models [src/src/extract/php/names.rs], [php/scopes.rs] and [php/imports.rs]:
    the regions of the namespaces, the [use] imports with their scopes, and the
    canonical spelling of a name. *)
From Stdlib Require Import Ascii String ZArith Lia.
From stdpp Require Import base numbers list strings.
From S2P Require Import Prelude Order Text Collections QueryShape Hierarchy Aliases SyntaxTree Bindings.

(** ** The walks over a tree *)

(** The nodes that a walk through the named children visits, in pre-order;
    nothing of the kinds [skip]. *)
Fixpoint named_walk (skip : list string) (n : Node) (up : list (Node * nat)) {struct n} : list Loc :=
  let node := MkLoc n up in
  if is_kind skip node then []
  else
    node ::
      (fix each (i : nat) (cs : list Node) : list Loc :=
         match cs with
         | [] => []
         | c :: cs => (if nd_named c then named_walk skip c ((n, i) :: up) else []) ++ each (S i) cs
         end) 0 (nd_children n).

(** [ancestor]: the node itself or the first one above it of these kinds. *)
Definition ancestor (node : Loc) (kinds : list string) : option Loc := find (is_kind kinds) (node :: ancestors node).
Definition function_scope (node : Loc) : nat * nat :=
  byte_range (default node (ancestor node
    ["method_declaration"; "function_definition"; "anonymous_function"; "arrow_function"]%string)).
Definition class_node (node : Loc) : option Loc :=
  ancestor node ["class_declaration"; "interface_declaration"; "trait_declaration"; "enum_declaration";
                 "anonymous_class"]%string.
Definition is_name_node (node : Loc) : bool := is_kind ["name"; "qualified_name"; "relative_name"]%string node.
(** The last name of a qualified name. *)
Fixpoint terminal_name (n : Node) (up : list (Node * nat)) {struct n} : option Loc :=
  let node := MkLoc n up in
  let below :=
    (fix each (i : nat) (cs : list Node) : list (Loc * option Loc) :=
       match cs with
       | [] => []
       | c :: cs => (MkLoc c ((n, i) :: up), terminal_name c ((n, i) :: up)) :: each (S i) cs
       end) 0 (nd_children n) in
  if is_kind ["name"]%string node then Some node
  else if is_kind ["qualified_name"; "relative_name"; "namespace_name"]%string node then
    e ← last (List.filter (λ e, loc_named e.1) below); e.2
  else None.

(** ** Names *)

Record PhpImport := MkImport {
  im_namespace : str;
  im_scope : nat * nat;
  im_alias : str;
  im_target : str;
  im_kind : str;
  im_alias_span : nat * nat;
  im_target_span : nat * nat;
  im_clause_span : nat * nat;
}.
Definition import_matches (import : PhpImport) (requested : string) : bool :=
  if String.eqb requested "function" then im_kind import =s lit "function"
  else if String.eqb requested "constant" then im_kind import =s lit "const"
  else im_kind import =s lit "class".
Definition join (namespace name : str) : str :=
  if namespace =s [] then name else if name =s [] then namespace else namespace ++ [backslash] ++ name.
Definition trim_end_backslashes (s : str) : str := reverse (drop_while (λ c, c =c backslash) (reverse s)).
Definition final_segment (name : str) : str :=
  default name (last (split_char backslash (trim_end_backslashes name))).
Definition has_xfcp_prefix (name : str) : bool :=
  match get_to 5 name with Some prefix => eq_ignore_ascii_case prefix (lit "XFCP_") | None => false end.

Section Names.
Context `{UnicodeTables}.

Definition names_import (imports : list PhpImport) (namespace head : str) (kind : string) (position : nat) : list PhpImport :=
  List.filter (λ import,
    eq_ignore_ascii_case (im_namespace import) namespace &&
    (if String.eqb kind "constant" then im_alias import =s head else eq_ignore_ascii_case (im_alias import) head) &&
    contains_pos position (im_scope import) && import_matches import kind) imports.
(** The canonical name and whether it is resolved. *)
Definition canonical (raw namespace : str) (imports : list PhpImport) (kind : string) (position : nat) : str * bool :=
  let raw := trim raw in
  if raw =s [] then ([], false)
  else if starts_with [backslash] raw then (raw, true)
  else if existsb (λ k, to_ascii_lowercase raw =s lit k) ["self"; "static"; "parent"]%string then (raw, false)
  else if match get_to 10 raw with Some prefix => eq_ignore_ascii_case prefix (lit "namespace\") | None => false end
  then (join namespace (drop 10 raw), true)
  else
    let '(head, tail) := default (raw, []) (split_once backslash raw) in
    match names_import imports namespace head kind position with
    | [] => (join namespace raw, true)
    | [import] => (if tail =s [] then im_target import else join (im_target import) tail, true)
    | _ => (raw, false)
    end.
End Names.

(** ** Namespaces *)

Record NamespaceRegion := MkRegion { ns_range : nat * nat; ns_name : str }.
Definition namespace_region_at (regions : list NamespaceRegion) (position : nat) : option NamespaceRegion :=
  head (sort_by (cmp_on (λ r, (ns_range r).2 - (ns_range r).1) Nat.compare)
          (List.filter (λ r, contains_pos position (ns_range r)) regions)).
Definition namespace_at (regions : list NamespaceRegion) (position : nat) : str :=
  match namespace_region_at regions position with Some region => ns_name region | None => [] end.
Definition region_order : NamespaceRegion → NamespaceRegion → comparison :=
  cmp_on (λ r, ((ns_range r).1, (ns_range r).2 - (ns_range r).1)) (pair_compare Nat.compare Nat.compare).

Section Imports.
Context `{UnicodeTables} (source : str).

Definition qualified (node : Loc) : str := trim (text source node).
(** The turn of one named child of the root; [rest] are the children after it. *)
Definition is_namespace_definition (child : Loc) : bool := is_kind ["namespace_definition"]%string child.
Definition namespace_name (child : Loc) : str :=
  match field_child "name" child with Some name => qualified name | None => [] end.
Fixpoint regions_loop (root_end : nat) (children : list Loc) (regions : list NamespaceRegion) (active_namespace : str)
    (active_start : nat) : list NamespaceRegion * str * nat :=
  match children with
  | [] => (regions, active_namespace, active_start)
  | child :: rest =>
      if negb (is_namespace_definition child) then regions_loop root_end rest regions active_namespace active_start
      else
        let name := namespace_name child in
        match field_child "body" child with
        | Some body => regions_loop root_end rest (regions ++ [MkRegion (byte_range body) name]) active_namespace active_start
        | None =>
            let regions :=
              if active_start <? loc_start child
              then regions ++ [MkRegion (active_start, loc_start child) active_namespace] else regions in
            let active_start := loc_end child in
            let next_start :=
              match find is_namespace_definition rest with Some node => loc_start node | None => root_end end in
            let regions := regions ++ [MkRegion (byte_range child) name] in
            let regions :=
              if next_start =? root_end then regions ++ [MkRegion (active_start, root_end) name] else regions in
            regions_loop root_end rest regions name active_start
        end
  end.
Definition namespace_regions (root : Loc) : list NamespaceRegion :=
  let '(regions, active_namespace, active_start) :=
    regions_loop (loc_end root) (loc_named_children root) [] [] (loc_start root) in
  let regions :=
    if (active_start <? loc_end root) && negb (existsb (λ r, (ns_range r).1 =? active_start) regions)
    then regions ++ [MkRegion (active_start, loc_end root) active_namespace] else regions in
  let regions := match regions with [] => [MkRegion (byte_range root) []] | _ => regions end in
  sort_by region_order regions.

(** ** Imports *)

Definition import_kind (default_kind : str) (node : Loc) : str :=
  match field_child "type" node with
  | Some kind =>
      let kind := text source kind in
      if kind =s lit "function" then lit "function" else if kind =s lit "const" then lit "const" else lit "class"
  | None => default_kind
  end.
Definition clause_import (prefix default_kind namespace : str) (scope : nat * nat) (clause : Loc) : option PhpImport :=
  let alias_node := field_child "alias" clause in
  path ← find (λ child, match alias_node with Some alias => negb (same_node alias child) | None => true end)
           (loc_named_children clause);
  let path_text := qualified path in
  let target :=
    if (prefix =s []) || starts_with [backslash] path_text then path_text else prefix ++ [backslash] ++ path_text in
  let alias := match alias_node with Some alias => text source alias | None => final_segment target end in
  let alias_span := byte_range
    match alias_node with
    | Some alias => alias
    | None => default path (terminal_name (here path) (above path))
    end in
  Some (MkImport namespace scope alias target (import_kind default_kind clause) alias_span (byte_range path)
          (byte_range clause)).
Definition declared_imports (regions : list NamespaceRegion) (node : Loc) : list PhpImport :=
  let namespace := namespace_at regions (loc_start node) in
  let scope := match namespace_region_at regions (loc_start node) with Some r => ns_range r | None => byte_range node end in
  let default_kind := import_kind (lit "class") node in
  let group := field_child "body" node in
  let prefix :=
    match group with
    | Some _ =>
        match find (is_kind ["namespace_name"]%string) (loc_named_children node) with
        | Some child => qualified child
        | None => []
        end
    | None => []
    end in
  omap (λ clause,
    if is_kind ["namespace_use_clause"]%string clause
    then clause_import prefix default_kind namespace scope clause else None)
    (loc_named_children (default node group)).
Definition collect_imports (regions : list NamespaceRegion) (root : Loc) : list PhpImport :=
  concat ((λ node, if is_kind ["namespace_use_declaration"]%string node then declared_imports regions node else []) <$>
          named_walk ["comment"]%string (here root) (above root)).
End Imports.
