(* ===== verification/PhpExtract.v ===== *)
(** * Extraction of a PHP file

    Models [src/src/extract/php.rs], [php/declarations.rs], [php/references.rs] and
    [php/inheritance_facts.rs]: the definitions of a tree with their symbols, the
    marker rows of its classes, and its references.  The parser is a parameter,
    and so is [Node::has_error], which tells whether a part of a tree has an
    error. *)
From Stdlib Require Import Ascii String ZArith Lia Sorted.
From stdpp Require Import base numbers list gmap strings sorting.
From S2P Require Import Prelude Order Text Collections QueryShape Extract PhpMarkers Hierarchy Aliases SyntaxTree Bindings PhpScopes.

(** ** The catalog of a file *)

Record Symbol := MkSymbol {
  sy_definition : nat;
  sy_qualified_name : str;
  sy_kind : str;
  sy_scope : nat * nat;
  sy_function_scope : nat * nat;
  sy_resolvable : bool;
}.
Record Catalog := MkCatalog {
  ct_regions : list NamespaceRegion;
  ct_imports : list PhpImport;
  ct_declarations : list (nat * nat);
  ct_symbols : list Symbol;
  ct_class_definitions : gmap nat nat;
  ct_owners : gmap nat nat;
  ct_uncertain_globals : list ((nat * nat) * str);
}.
(** The facts of [Extraction] that grow. *)
Record Facts := MkFacts {
  fa_definitions : list DefinitionFact;
  fa_occurrences : list Occurrence;
  fa_relationships : list RelationshipFact;
}.
Definition PhpState : Type := Catalog * Facts.

Definition occurrence (name : str) (span : nat * nat) (role : string) (target : option nat) (candidates : list nat)
    (provenance : string) : Occurrence :=
  MkOcc name span.1 span.2 (lit role) target candidates (lit provenance).
Definition add_occurrence (o : Occurrence) (f : Facts) : Facts :=
  MkFacts (fa_definitions f) (fa_occurrences f ++ [o]) (fa_relationships f).
Definition add_relationship (r : RelationshipFact) (f : Facts) : Facts :=
  MkFacts (fa_definitions f) (fa_occurrences f) (fa_relationships f ++ [r]).
(** [usize::MAX], the index of a definition that has no name. *)
Abbreviation NO_DEFINITION := (Z.to_nat USIZE_MAX).
Definition nonempty (value : str) : option str := if value =s [] then None else Some value.

(** Changes of one part of a catalog. *)
Definition push_symbol (token : nat * nat) (s : Symbol) (c : Catalog) : Catalog :=
  MkCatalog (ct_regions c) (ct_imports c) (ct_declarations c ++ [token]) (ct_symbols c ++ [s]) (ct_class_definitions c)
    (ct_owners c) (ct_uncertain_globals c).
Definition push_declaration (token : nat * nat) (c : Catalog) : Catalog :=
  MkCatalog (ct_regions c) (ct_imports c) (ct_declarations c ++ [token]) (ct_symbols c) (ct_class_definitions c)
    (ct_owners c) (ct_uncertain_globals c).
Definition insert_class (start definition : nat) (c : Catalog) : Catalog :=
  MkCatalog (ct_regions c) (ct_imports c) (ct_declarations c) (ct_symbols c)
    (<[start := definition]> (ct_class_definitions c)) (ct_owners c) (ct_uncertain_globals c).
Definition insert_owner (start definition : nat) (c : Catalog) : Catalog :=
  MkCatalog (ct_regions c) (ct_imports c) (ct_declarations c) (ct_symbols c) (ct_class_definitions c)
    (<[start := definition]> (ct_owners c)) (ct_uncertain_globals c).
Definition push_globals (globals : list ((nat * nat) * str)) (c : Catalog) : Catalog :=
  MkCatalog (ct_regions c) (ct_imports c) (ct_declarations c) (ct_symbols c) (ct_class_definitions c) (ct_owners c)
    (ct_uncertain_globals c ++ globals).

(** ** Declarations *)

Definition QUALIFIED_KINDS : list string :=
  ["class"; "interface"; "trait"; "enum"; "function"; "method"; "property"; "constant"; "enum_case"]%string.
Definition SUPERGLOBALS : list string :=
  ["$GLOBALS"; "$_SERVER"; "$_GET"; "$_POST"; "$_FILES"; "$_COOKIE"; "$_SESSION"; "$_REQUEST"; "$_ENV"]%string.
Definition among (names : list string) (s : str) : bool := existsb (λ n, s =s lit n) names.
Definition trim_dollars (s : str) : str := drop_while (λ c, c =c "$"%char) s.

Section Declarations.
Context `{UnicodeTables} (source status : str).

Definition namespace_scope (node : Loc) (c : Catalog) : nat * nat :=
  match namespace_region_at (ct_regions c) (loc_start node) with Some r => ns_range r | None => byte_range node end.
Definition class_range (node : Loc) : nat * nat := byte_range (default node (class_node node)).
Definition class_fqcn (node : Loc) (c : Catalog) : str :=
  match class_node node with
  | Some class =>
      match field_child "name" class with
      | Some name => join (namespace_at (ct_regions c) (loc_start class)) (text source name)
      | None => []
      end
  | None => []
  end.
(** The index of the definition, and the state. *)
Definition add_definition (node token : Loc) (spelling : str) (kind : string) (container : option str)
    (scope : nat * nat) (resolvable : bool) (st : PhpState) : nat * PhpState :=
  if spelling =s [] then (NO_DEFINITION, st)
  else
    let '(catalog, facts) := st in
    let definition := length (fa_definitions facts) in
    let token_range := byte_range token in
    let qualified_name :=
      if existsb (String.eqb kind) QUALIFIED_KINDS then join (default [] container) spelling else spelling in
    let facts :=
      MkFacts
        (fa_definitions facts ++ [MkDef spelling (lit kind) (loc_start node) (loc_end node) container])
        (fa_occurrences facts ++ [occurrence spelling token_range "declaration" (Some definition) [] "syntax_declaration"])
        (fa_relationships facts) in
    let symbol :=
      MkSymbol definition qualified_name (lit kind) scope (function_scope node)
        (resolvable && (status =s lit "complete")) in
    (definition, (push_symbol token_range symbol catalog, facts)).

Definition add_namespace (node : Loc) (st : PhpState) : PhpState :=
  match field_child "name" node with
  | Some name =>
      let spelling := trim (text source name) in
      (add_definition node name spelling "namespace" None (namespace_scope node st.1) false st).2
  | None => st
  end.
Definition add_named_type (node : Loc) (kind : string) (st : PhpState) : PhpState :=
  match field_child "name" node with
  | Some name =>
      let namespace := namespace_at (ct_regions st.1) (loc_start node) in
      let '(definition, st) :=
        add_definition node name (text source name) kind (nonempty namespace) (namespace_scope node st.1) false st in
      (insert_class (loc_start node) definition st.1, st.2)
  | None => st
  end.
Definition add_function (node : Loc) (st : PhpState) : PhpState :=
  match field_child "name" node with
  | Some name =>
      let container := namespace_at (ct_regions st.1) (loc_start node) in
      let '(definition, st) :=
        add_definition node name (text source name) "function" (nonempty container) (namespace_scope node st.1) false st in
      (insert_owner (loc_start node) definition st.1, st.2)
  | None => st
  end.
Definition add_method (node : Loc) (st : PhpState) : PhpState :=
  match field_child "name" node with
  | Some name =>
      let container := class_fqcn node st.1 in
      let '(definition, st) :=
        add_definition node name (text source name) "method" (nonempty container) (class_range node) false st in
      (insert_owner (loc_start node) definition st.1, st.2)
  | None => st
  end.

(** [occurrences.last_mut()]: the last occurrence is moved to the alias. *)
Definition move_last (name : str) (span : nat * nat) (os : list Occurrence) : list Occurrence :=
  match last os with
  | Some o =>
      removelast os ++ [MkOcc name span.1 span.2 (oc_role o) (oc_target o) (oc_candidates o) (oc_provenance o)]
  | None => os
  end.
(** [source.get(span).unwrap_or_default()] as text. *)
Definition alias_spelling (import : PhpImport) : str :=
  let span := im_alias_span import in
  let token :=
    if (span.1 <=? span.2) && (span.2 <=? length source) then take (span.2 - span.1) (drop span.1 source) else [] in
  if utf8_valid token then token else im_alias import.
Definition import_provenance (import : PhpImport) : string :=
  if im_kind import =s lit "function" then "php_function_import"
  else if im_kind import =s lit "const" then "php_const_import" else "php_import".
Definition add_import (node : Loc) (st : PhpState) : PhpState :=
  match find (λ import, bool_decide (im_clause_span import = byte_range node)) (ct_imports st.1) with
  | Some import =>
      let '(definition, (catalog, facts)) :=
        add_definition node node (im_alias import) "import" (nonempty (im_namespace import)) (im_scope import) false st in
      let occurrences := move_last (alias_spelling import) (im_alias_span import) (fa_occurrences facts) in
      let target_span := im_target_span import in
      (push_declaration (im_alias_span import) catalog,
       MkFacts (fa_definitions facts)
         (occurrences ++ [occurrence (im_target import) target_span "import" None [] (import_provenance import)])
         (fa_relationships facts ++
            [MkRel definition None (lit "imports") target_span.1 target_span.2 (lit "php_import")]))
  | None => st
  end.
Definition add_property (node : Loc) (st : PhpState) : PhpState :=
  match field_child "name" node with
  | Some name =>
      (add_definition node name (trim_dollars (text source name)) "property" (nonempty (class_fqcn node st.1))
         (class_range node) false st).2
  | None => st
  end.
Definition add_constant (node : Loc) (st : PhpState) : PhpState :=
  match find (is_kind ["name"]%string) (loc_named_children node) with
  | Some name =>
      let '(container, scope) :=
        match class_node node with
        | Some class => (nonempty (class_fqcn node st.1), byte_range class)
        | None => (nonempty (namespace_at (ct_regions st.1) (loc_start node)), namespace_scope node st.1)
        end in
      (add_definition node name (text source name) "constant" container scope false st).2
  | None => st
  end.
Definition add_enum_case (node : Loc) (st : PhpState) : PhpState :=
  match field_child "name" node with
  | Some name =>
      (add_definition node name (text source name) "enum_case" (nonempty (class_fqcn node st.1)) (class_range node)
         false st).2
  | None => st
  end.
Definition add_parameter (node : Loc) (st : PhpState) : PhpState :=
  match field_child "name" node with
  | Some name =>
      let name_text := text source name in
      let '(_, st) := add_definition node name name_text "parameter" None (function_scope node) true st in
      if is_kind ["property_promotion_parameter"]%string node then
        (add_definition node name (trim_dollars name_text) "property" (nonempty (class_fqcn node st.1))
           (class_range node) false st).2
      else st
  | None => st
  end.
Definition add_variable (node : Loc) (st : PhpState) : PhpState :=
  let name := text source node in
  if (name =s lit "$this") || among SUPERGLOBALS name then st
  else (add_definition node node name "variable" None (function_scope node) false st).2.
Definition add_global_names (node : Loc) (st : PhpState) : PhpState :=
  let globals :=
    omap (λ name, if is_kind ["variable_name"]%string name then Some (function_scope node, text source name) else None)
      (loc_named_children node) in
  (push_globals globals st.1, st.2).

Definition is_field (field : string) (parent node : Loc) : bool :=
  match field_child field parent with Some child => same_node child node | None => false end.
(** [foreach_target_contains], for a node below [target] with this path. *)
Fixpoint target_contains (n : Node) (up : list (Node * nat)) (variable : Loc) {struct n} : bool :=
  let target := MkLoc n up in
  let below :=
    (fix each (i : nat) (cs : list Node) : list (Loc * bool) :=
       match cs with
       | [] => []
       | c :: cs => (MkLoc c ((n, i) :: up), target_contains c ((n, i) :: up) variable) :: each (S i) cs
       end) 0 (nd_children n) in
  let named := List.filter (λ e, loc_named e.1) below in
  if is_kind ["by_ref"]%string target then match named with [] => false | e :: _ => e.2 end
  else if is_kind ["pair"]%string target then existsb snd named
  else if is_kind ["list_literal"]%string target then
    (loc_start target <=? loc_start variable) && (loc_end variable <=? loc_end target)
  else same_node target variable.
Definition is_variable_binding (node : Loc) : bool :=
  let in_kind kinds := opt_kind kinds (parent node) in
  let as_field field := match parent node with Some p => is_field field p node | None => false end in
  if in_kind ["simple_parameter"; "variadic_parameter"; "property_promotion_parameter"; "property_element";
              "global_declaration"; "anonymous_function_use_clause"]%string then false
  else if in_kind ["member_access_expression"; "nullsafe_member_access_expression";
                   "scoped_property_access_expression"]%string && as_field "name" then false
  else if in_kind ["assignment_expression"]%string && as_field "left" then true
  else if in_kind ["static_variable_declaration"]%string && as_field "name" then true
  else if in_kind ["catch_clause"]%string && as_field "name" then true
  else match ancestor node ["foreach_statement"]%string ≫= named_child 1 with
       | Some target => target_contains (here target) (above target) node
       | None => false
       end.

(** The turn of one node of the walk. *)
Definition declare (node : Loc) (st : PhpState) : PhpState :=
  if is_kind ["namespace_definition"]%string node then add_namespace node st
  else if is_kind ["class_declaration"]%string node then add_named_type node "class" st
  else if is_kind ["interface_declaration"]%string node then add_named_type node "interface" st
  else if is_kind ["trait_declaration"]%string node then add_named_type node "trait" st
  else if is_kind ["enum_declaration"]%string node then add_named_type node "enum" st
  else if is_kind ["function_definition"]%string node then add_function node st
  else if is_kind ["method_declaration"]%string node then add_method node st
  else if is_kind ["namespace_use_clause"]%string node then add_import node st
  else if is_kind ["property_element"]%string node then add_property node st
  else if is_kind ["const_element"]%string node then add_constant node st
  else if is_kind ["enum_case"]%string node then add_enum_case node st
  else if is_kind ["simple_parameter"; "variadic_parameter"; "property_promotion_parameter"]%string node
  then add_parameter node st
  else if is_kind ["global_declaration"]%string node then add_global_names node st
  else if is_kind ["variable_name"]%string node && is_variable_binding node then add_variable node st
  else st.
Definition SKIPPED : list string := ["comment"; "php_tag"; "text"]%string.
(** A parameter that its function declares global does not resolve. *)
Definition settle_symbol (globals : list ((nat * nat) * str)) (s : Symbol) : Symbol :=
  if (sy_kind s =s lit "parameter") && bool_decide ((sy_function_scope s, sy_qualified_name s) ∈ globals)
  then MkSymbol (sy_definition s) (sy_qualified_name s) (sy_kind s) (sy_scope s) (sy_function_scope s) false
  else s.
Definition collect_declarations (root : Loc) : PhpState :=
  let regions := namespace_regions source root in
  let imports := collect_imports source regions root in
  let '(c, facts) :=
    foldl (λ st node, declare node st) (MkCatalog regions imports [] [] ∅ ∅ [], MkFacts [] [] [])
      (named_walk SKIPPED (here root) (above root)) in
  (MkCatalog (ct_regions c) (ct_imports c)
     (sort_by (pair_compare Nat.compare Nat.compare) (ct_declarations c))
     (settle_symbol (ct_uncertain_globals c) <$> ct_symbols c) (ct_class_definitions c) (ct_owners c)
     (ct_uncertain_globals c), facts).
End Declarations.

(** ** The marker rows of the classes *)

Definition DYNAMIC_KINDS : list string :=
  ["if_statement"; "else_clause"; "else_if_clause"; "switch_statement"; "case_statement"; "while_statement";
   "do_statement"; "for_statement"; "foreach_statement"; "try_statement"; "catch_clause"; "finally_clause";
   "function_definition"; "method_declaration"; "anonymous_function"; "arrow_function"]%string.
Fixpoint dynamic_above (stop : option Loc) (up : list Loc) : bool :=
  match up with
  | [] => false
  | parent :: up =>
      if match stop with Some boundary => same_node boundary parent | None => false end then false
      else is_kind DYNAMIC_KINDS parent || dynamic_above stop up
  end.
Definition has_dynamic_ancestor (node : Loc) (stop : option Loc) : bool := dynamic_above stop (ancestors node).
Definition class_is_conditional (class : Loc) : bool := has_dynamic_ancestor class None.
Definition conditional_between (node owner : Loc) : bool := has_dynamic_ancestor node (Some owner).

(** [encode] *)
Definition marker_row (source : nat) (target : option nat) (span : nat * nat) (marker : Marker) : RelationshipFact :=
  MkRel source target MARKER_KIND span.1 span.2 (encode_payload marker).

Section Markers.
Context `{UnicodeTables} (has_error : Loc → bool) (source : str) (catalog : Catalog) (uncertain_file : bool).

Definition add_parent_fact (class clause : Loc) (definition : nat) (f : Facts) : Facts :=
  match List.filter is_name_node (loc_named_children clause) with
  | [parent] =>
      let '(canonical_name, resolved) :=
        canonical (text source parent) (namespace_at (ct_regions catalog) (loc_start parent)) (ct_imports catalog)
          "class" (loc_start parent) in
      let resolved_name := if resolved && negb (canonical_name =s []) then Some canonical_name else None in
      let unknown := has_error parent || bool_decide (resolved_name = None) in
      let kind :=
        if unknown then KindUnknown
        else if has_xfcp_prefix (final_segment canonical_name) then KindProxy else KindOrdinary in
      add_relationship
        (marker_row definition None (byte_range (if unknown && has_error clause then clause else parent))
           (MParent kind (uncertain_file || class_is_conditional class) resolved_name)) f
  | _ =>
      add_relationship
        (marker_row definition None (byte_range clause)
           (MParent KindUnknown (uncertain_file || class_is_conditional class || has_error clause) None)) f
  end.
Definition add_class_facts (class : Loc) (f : Facts) : Facts :=
  match ct_class_definitions catalog !! loc_start class with
  | Some definition =>
      let role :=
        match fa_definitions f !! definition with
        | Some d => if has_xfcp_prefix (df_name d) then RoleProxy else RoleOrdinary
        | None => RoleUnknown
        end in
      let f :=
        add_relationship
          (marker_row definition None (byte_range class) (MClass role (uncertain_file || class_is_conditional class))) f in
      match find (is_kind ["base_clause"]%string) (loc_named_children class) with
      | Some clause => add_parent_fact class clause definition f
      | None => f
      end
  | None => f
  end.
Definition add_trait_use_facts (use_node : Loc) (f : Facts) : Facts :=
  match class_node use_node with
  | Some owner =>
      match ct_class_definitions catalog !! loc_start owner with
      | Some definition =>
          let conditional := uncertain_file || class_is_conditional owner || conditional_between use_node owner in
          foldl (λ f name,
            if trim (text source name) =s [] then f
            else add_relationship (marker_row definition None (byte_range name) (MTraitUse conditional)) f)
            f (List.filter is_name_node (loc_named_children use_node))
      | None => f
      end
  | None => f
  end.
Definition method_visibility (method : Loc) : Visibility :=
  match List.filter (is_kind ["visibility_modifier"]%string) (loc_named_children method) with
  | [] => Public
  | [modifier] =>
      let word := trim (text source modifier) in
      if word =s lit "public" then Public
      else if word =s lit "protected" then Protected
      else if word =s lit "private" then Private
      else VisUnknown
  | _ => VisUnknown
  end.
Definition add_method_fact (method : Loc) (f : Facts) : Facts :=
  match (owner ← class_node method;
         owner_definition ← ct_class_definitions catalog !! loc_start owner;
         method_definition ← ct_owners catalog !! loc_start method;
         Some (owner, owner_definition, method_definition)) with
  | Some (owner, owner_definition, method_definition) =>
      let abstract_method :=
        existsb (is_kind ["abstract_modifier"]%string) (loc_named_children method)
        || bool_decide (field_child "body" method = None)
        || is_kind ["interface_declaration"]%string owner in
      let conditional := uncertain_file || class_is_conditional owner || conditional_between method owner in
      add_relationship
        (marker_row method_definition (Some owner_definition) (byte_range method)
           (MMethod (method_visibility method) abstract_method conditional)) f
  | None => f
  end.
Definition mark (node : Loc) (f : Facts) : Facts :=
  if is_kind ["class_declaration"]%string node then add_class_facts node f
  else if is_kind ["use_declaration"]%string node then add_trait_use_facts node f
  else if is_kind ["method_declaration"]%string node then add_method_fact node f
  else f.
Definition collect_markers (root : Loc) (f : Facts) : Facts :=
  foldl (λ f node, mark node f) f (named_walk [] (here root) (above root)).
End Markers.

(** ** References *)

Definition CALLS : list string :=
  ["function_call_expression"; "member_call_expression"; "nullsafe_member_call_expression"; "scoped_call_expression"]%string.
(** Whether a node is within the bytes of another. *)
Definition inside (node outer : Loc) : bool := (loc_start outer <=? loc_start node) && (loc_end node <=? loc_end outer).
Fixpoint type_above (node child : Loc) (up : list Loc) : bool :=
  match up with
  | [] => false
  | p :: up =>
      if is_kind ["attribute"]%string p then
        match named_child 0 p with Some first => same_node first child | None => false end
      else if is_kind ["cast_expression"]%string p then
        match field_child "type" p with Some type_node => inside node type_node | None => false end
      else if is_kind ["type"; "named_type"; "base_clause"; "class_interface_clause"; "type_list";
                       "instanceof_expression"]%string p then true
      else if is_kind ["function_call_expression"; "member_call_expression"; "scoped_call_expression";
                       "object_creation_expression"; "namespace_use_declaration"; "use_declaration";
                       "class_constant_access_expression"]%string p then false
      else type_above node p up
  end.
Definition is_type_context (node : Loc) : bool := type_above node node (ancestors node).
Definition has_ancestor (node : Loc) (kinds : list string) : bool := bool_decide (is_Some (ancestor node kinds)).
Definition is_constant_context (node : Loc) : bool :=
  if has_ancestor node ["named_label_statement"]%string then false
  else if match parent node with
          | Some p => is_kind ["argument"]%string p && is_field "name" p node
          | None => false
          end then false
  else negb (has_ancestor node
    ["function_call_expression"; "member_call_expression"; "nullsafe_member_call_expression"; "scoped_call_expression";
     "object_creation_expression"; "namespace_use_declaration"; "use_declaration"; "class_constant_access_expression";
     "member_access_expression"; "nullsafe_member_access_expression"; "scoped_property_access_expression";
     "variable_name"]%string).
Definition is_nested_name_component (node : Loc) : bool :=
  match ancestor node ["qualified_name"; "relative_name"; "namespace_name"]%string with
  | Some p => negb (same_node p node)
  | None => false
  end.
Definition in_import_or_trait_use (node : Loc) : bool :=
  has_ancestor node ["namespace_use_declaration"; "use_declaration"]%string.
Definition in_call_name (node : Loc) : bool :=
  match find (is_kind CALLS) (ancestors node) with
  | Some call =>
      match first_field ["function"; "name"]%string call with Some field => inside node field | None => false end
  | None => false
  end.
Definition in_object_name (node : Loc) : bool := has_ancestor node ["object_creation_expression"]%string.
Definition is_member_name (node : Loc) : bool :=
  match parent node with
  | Some p =>
      is_kind ["member_access_expression"; "nullsafe_member_access_expression";
               "scoped_property_access_expression"]%string p && is_field "name" p node
  | None => false
  end.
(** The name under parentheses. *)
Fixpoint static_name (n : Node) (up : list (Node * nat)) {struct n} : option Loc :=
  let node := MkLoc n up in
  let below :=
    (fix each (i : nat) (cs : list Node) : list (Loc * option Loc) :=
       match cs with
       | [] => []
       | c :: cs => (MkLoc c ((n, i) :: up), static_name c ((n, i) :: up)) :: each (S i) cs
       end) 0 (nd_children n) in
  if is_name_node node then Some node
  else if is_kind ["parenthesized_expression"]%string node then
    e ← head (List.filter (λ e, loc_named e.1) below); e.2
  else None.

Section References.
Context `{UnicodeTables} (source status : str) (catalog : Catalog).

Definition is_suppressed_name (node : Loc) : bool :=
  existsb (λ range, (range.1 <=? loc_start node) && (loc_end node <=? range.2)) (ct_declarations catalog).
Definition canonical_at (node : Loc) (kind : string) : str * bool :=
  canonical (text source node) (namespace_at (ct_regions catalog) (loc_start node)) (ct_imports catalog) kind
    (loc_start node).

(** *** Candidates *)
Definition candidates_of (f : Symbol → bool) : list nat :=
  take 64 (sy_definition <$> List.filter f (ct_symbols catalog)).
Definition type_candidate (name : str) (s : Symbol) : bool :=
  among ["class"; "interface"; "trait"; "enum"]%string (sy_kind s) &&
  eq_ignore_ascii_case (trim_backslashes (sy_qualified_name s)) name.
Definition candidates_for_type (name : str) : list nat := candidates_of (type_candidate (trim_backslashes name)).
Definition call_candidate (name : str) (container : option str) (s : Symbol) : bool :=
  if sy_kind s =s lit "function" then eq_ignore_ascii_case (trim_backslashes (sy_qualified_name s)) name
  else if sy_kind s =s lit "method" then
    eq_ignore_ascii_case (final_segment (sy_qualified_name s)) name &&
    match container with
    | None => true
    | Some container =>
        match rsplit_once backslash (sy_qualified_name s) with
        | Some (owner, _) => eq_ignore_ascii_case owner container
        | None => false
        end
    end
  else false.
Definition candidates_for_call (name : str) (container : option str) : list nat :=
  candidates_of (call_candidate (trim_backslashes name) container).
Definition candidates_for_constant (name : str) : list nat :=
  let name := trim_backslashes name in
  candidates_of (λ s, (sy_kind s =s lit "constant") && (trim_backslashes (sy_qualified_name s) =s name)).

(** *** Owners *)
Definition class_definition (class : Loc) : option nat := ct_class_definitions catalog !! loc_start class.
Definition inheritance_owner (node : Loc) : option (nat * string) :=
  p ← ancestor node ["base_clause"; "class_interface_clause"]%string;
  class ← class_node p;
  source ← class_definition class;
  Some (source, if is_kind ["base_clause"]%string p then "extends" else "implements")%string.
Fixpoint adaptation_above (use_node : Loc) (up : list Loc) : bool :=
  match up with
  | [] => true
  | p :: up =>
      if same_node p use_node then false
      else is_kind ["use_list"; "use_as_clause"; "use_instead_of_clause"]%string p || adaptation_above use_node up
  end.
Definition is_trait_adaptation (node use_node : Loc) : bool := adaptation_above use_node (ancestors node).
Definition trait_owner (node : Loc) : option nat :=
  use_node ← ancestor node ["use_declaration"]%string;
  if is_trait_adaptation node use_node then None
  else class ← class_node use_node; class_definition class.
Definition function_owner (node : Loc) : option nat :=
  function ← ancestor node ["method_declaration"; "function_definition"]%string;
  ct_owners catalog !! loc_start function.
(** The method around a [parent::] call and its class. *)
Definition parent_call_owner (expression : Loc) : option (nat * nat) :=
  method ← ancestor expression ["method_declaration"; "function_definition"; "anonymous_function"; "arrow_function"]%string;
  if negb (is_kind ["method_declaration"]%string method) then None
  else
    class ← class_node method;
    if negb (is_kind ["class_declaration"]%string class) then None
    else
      caller ← ct_owners catalog !! loc_start method;
      owner ← class_definition class;
      Some (caller, owner).

(** *** Observations *)
Definition is_xfcp_placeholder (name : str) : bool := has_xfcp_prefix (final_segment name).
Definition observe_type (node : Loc) (f : Facts) : Facts :=
  let raw := text source node in
  let namespace := namespace_at (ct_regions catalog) (loc_start node) in
  let '(canonical_name, resolved) := canonical_at node "class" in
  let raw_placeholder := is_xfcp_placeholder raw in
  let placeholder := raw_placeholder || (resolved && is_xfcp_placeholder canonical_name) in
  let imported_placeholder_alias :=
    raw_placeholder && negb (bool_decide (backslash ∈ raw)) && resolved
    && negb (canonical_name =s join namespace raw) in
  let name := if raw_placeholder && negb imported_placeholder_alias then raw else canonical_name in
  let candidates := if resolved && negb placeholder then candidates_for_type name else [] in
  let provenance :=
    if placeholder then "xenforo_generated_placeholder" else if resolved then "php_fqcn" else "php_ambiguous_import" in
  let f := add_occurrence (occurrence name (byte_range node) "type" None candidates provenance) f in
  match inheritance_owner node with
  | Some (definition, kind) =>
      add_relationship
        (MkRel definition None (lit kind) (loc_start node) (loc_end node) (lit "unresolved_inheritance")) f
  | None =>
      match trait_owner node with
      | Some definition =>
          add_relationship
            (MkRel definition None (lit "uses_trait") (loc_start node) (loc_end node) (lit "unresolved_trait_use")) f
      | None => f
      end
  end.
(** A name that is called, of a function or of a method ([container] is its class). *)
Definition push_call (node expression : Loc) (name : str) (candidates : list nat) (resolved : bool) (f : Facts) : Facts :=
  let f :=
    add_occurrence
      (occurrence name (byte_range node) "call" None candidates (if resolved then "php_call" else "php_ambiguous_import")) f in
  match function_owner expression with
  | Some definition =>
      add_relationship (MkRel definition None (lit "calls") (loc_start node) (loc_end node) (lit "php_call")) f
  | None => f
  end.
Definition observe_function_call (node expression : Loc) (f : Facts) : Facts :=
  if is_suppressed_name node then f
  else
    let '(name, resolved) := canonical_at node "function" in
    push_call node expression name (if resolved then candidates_for_call name None else []) resolved f.
Definition method_container (expression : Loc) : option str :=
  scope ← field_child "scope" expression;
  if negb (is_name_node scope) then None
  else let '(name, resolved) := canonical_at scope "class" in if resolved : bool then Some name else None.
Definition observe_method_call (node expression : Loc) (f : Facts) : Facts :=
  if is_suppressed_name node then f
  else
    let raw := text source node in
    push_call node expression raw (candidates_for_call raw (method_container expression)) true f.

Definition is_parent_scope (scope : Loc) : bool :=
  (is_kind ["relative_scope"]%string scope || is_name_node scope) &&
  eq_ignore_ascii_case (text source scope) (lit "parent").
Definition observe_parent_call (name expression : Loc) (f : Facts) : Facts :=
  match (if is_kind ["name"]%string name then parent_call_owner expression else None) with
  | Some (caller_method, owner_class) =>
      add_relationship (marker_row caller_method (Some owner_class) (byte_range name) MParentCall)
        (add_occurrence (occurrence (text source name) (byte_range name) "call" None [] "php_parent_call") f)
  | None =>
      add_occurrence (occurrence (text source name) (byte_range name) "call" None [] "php_parent_call_unresolved") f
  end.
Definition observe_scoped_call (node : Loc) (f : Facts) : Facts :=
  let scope := if is_kind ["scoped_call_expression"]%string node then field_child "scope" node else None in
  if match scope with Some scope => is_parent_scope scope | None => false end then
    match field_child "name" node with Some name => observe_parent_call name node f | None => f end
  else
    match field_child "name" node with
    | Some name =>
        let f := if is_name_node name then observe_method_call name node f else f in
        match scope with
        | Some scope => if is_name_node scope then observe_type scope f else f
        | None => f
        end
    | None => f
    end.
Definition observe_constant (node : Loc) (f : Facts) : Facts :=
  if is_suppressed_name node then f
  else if among ["true"; "false"; "null"]%string (to_ascii_lowercase (text source node)) then f
  else
    let '(name, resolved) := canonical_at node "constant" in
    add_occurrence
      (occurrence name (byte_range node) "read" None (if resolved then candidates_for_constant name else [])
         (if resolved then "php_constant" else "php_ambiguous_import")) f.
Definition observe_when_name (o : option Loc) (f : Facts) : Facts :=
  match o with Some name => if is_name_node name then observe_type name f else f | None => f end.
Definition observe_object_creation (node : Loc) (f : Facts) : Facts :=
  observe_when_name (find is_name_node (loc_named_children node)) f.
Definition observe_class_constant (node : Loc) (f : Facts) : Facts :=
  let f := observe_when_name (named_child 0 node) f in
  match c ← named_child 1 node; terminal_name (here c) (above c) with
  | Some constant => observe_constant constant f
  | None => f
  end.
Definition observe_member_name (node : Loc) (f : Facts) : Facts :=
  if is_suppressed_name node then f
  else
    let name := trim_dollars (text source node) in
    if name =s [] then f
    else add_occurrence (occurrence name (byte_range node) "read" None [] "php_member_name") f.
Definition observe_member_access (node : Loc) (f : Facts) : Facts :=
  match field_child "name" node with Some name => observe_member_name name f | None => f end.
Definition observe_scoped_property (node : Loc) (f : Facts) : Facts :=
  observe_member_access node (observe_when_name (field_child "scope" node) f).
Definition observe_trait_use (node : Loc) (f : Facts) : Facts :=
  foldl (λ f child, if is_name_node child then observe_type child f else f) f (loc_named_children node).

(** The bindings of a variable in its function. *)
Definition binds (name : str) (scope : nat * nat) (position : nat) (s : Symbol) : bool :=
  among ["parameter"; "variable"]%string (sy_kind s) && (sy_qualified_name s =s name) &&
  bool_decide (sy_function_scope s = scope) && contains_pos position (sy_scope s).
Definition bindings_of (node : Loc) : list Symbol :=
  List.filter (binds (text source node) (function_scope node) (loc_start node)) (ct_symbols catalog).
(** The one parameter that a variable stands for. *)
Definition local_target (matching : list Symbol) : option nat :=
  match matching with
  | [s] =>
      if (status =s lit "complete") && (sy_kind s =s lit "parameter") && sy_resolvable s then Some (sy_definition s)
      else None
  | _ => None
  end.
Definition observe_variable (node : Loc) (f : Facts) : Facts :=
  if is_suppressed_name node || is_member_name node then f
  else
    let matching := bindings_of node in
    match local_target matching with
    | Some target =>
        add_occurrence (occurrence (text source node) (byte_range node) "read" (Some target) [] "php_local_binding") f
    | None =>
        add_occurrence
          (occurrence (text source node) (byte_range node) "read" None (sy_definition <$> matching) "candidate_name") f
    end.
Definition observe_named_reference (node : Loc) (f : Facts) : Facts :=
  if is_suppressed_name node || is_nested_name_component node then f
  else if in_import_or_trait_use node || in_call_name node || in_object_name node then f
  else if is_type_context node then observe_type node f
  else if is_constant_context node then observe_constant node f
  else f.
(** The turn of one node of the walk. *)
Definition refer (node : Loc) (f : Facts) : Facts :=
  if is_kind ["function_call_expression"]%string node then
    match function ← field_child "function" node; static_name (here function) (above function) with
    | Some name => observe_function_call name node f
    | None => f
    end
  else if is_kind ["member_call_expression"; "nullsafe_member_call_expression"; "scoped_call_expression"]%string node
  then observe_scoped_call node f
  else if is_kind ["object_creation_expression"]%string node then observe_object_creation node f
  else if is_kind ["class_constant_access_expression"]%string node then observe_class_constant node f
  else if is_kind ["scoped_property_access_expression"]%string node then observe_scoped_property node f
  else if is_kind ["member_access_expression"; "nullsafe_member_access_expression"]%string node
  then observe_member_access node f
  else if is_kind ["use_declaration"]%string node then observe_trait_use node f
  else if is_kind ["variable_name"]%string node then observe_variable node f
  else if is_name_node node then observe_named_reference node f
  else f.
Definition collect_references (root : Loc) (f : Facts) : Facts :=
  foldl (λ f node, refer node f) f (named_walk SKIPPED (here root) (above root)).
End References.

(** ** The extraction *)

Definition relationship_order : RelationshipFact → RelationshipFact → comparison :=
  cmp_on (λ r, ((re_evidence_start r, re_evidence_end r), re_source r))
    (pair_compare (pair_compare Nat.compare Nat.compare) Nat.compare).
Definition span_order : Occurrence → Occurrence → comparison :=
  cmp_on (λ o, (oc_start o, oc_end o)) (pair_compare Nat.compare Nat.compare).

Section Extract.
Context `{UnicodeTables} (parse_php : str → ParseOutcome) (has_error : Loc → bool).

Definition php_failed (status : string) : FileExtraction := MkExt (lit "php") (lit status) [] [] [].
Definition extract_php_tree (status : str) (root : Node) (source : str) : FileExtraction :=
  let uncertain_file := negb (status =s lit "complete") in
  let '(catalog, facts) := collect_declarations source status (root_loc root) in
  let facts := collect_markers has_error source catalog uncertain_file (root_loc root) facts in
  let facts := collect_references source status catalog (root_loc root) facts in
  MkExt (lit "php") status (fa_definitions facts) (sort_by span_order (fa_occurrences facts))
    (sort_by relationship_order (fa_relationships facts)).
(** [budget] is what is left of the time, in any unit. *)
Definition extract_php (budget : nat) (source : str) : FileExtraction :=
  if negb (utf8_valid source) then php_failed "invalid_encoding"
  else if budget =? 0 then php_failed "cancelled"
  else match parse_php source with
       | LanguageError => php_failed "incompatible_grammar"
       | Cancelled => php_failed "cancelled"
       | Parsed root error =>
           if negb (height root <=? 256) then php_failed "depth_limit"
           else extract_php_tree (lit (if error then "parse_error" else "complete")) root source
       end.
End Extract.
