(* ===== verification/PhpReferences.v ===== *)
(** * What the extraction of a PHP file promises

    Theorems about [PhpScopes] and [PhpExtract]: everything that is extracted lies
    in the source and refers to definitions of the file, a variable resolves
    exactly to the one parameter that binds it in its function, and the
    candidates of a type are the classes of its canonical name. *)
From Stdlib Require Import Ascii String ZArith Lia Sorted.
From stdpp Require Import base numbers list gmap strings sorting.
From S2P Require Import Prelude Order Text Collections QueryShape Extract PhpMarkers Hierarchy Aliases SyntaxTree Bindings PhpScopes PhpExtract.

(** ** Promises *)

(** The index of a definition, or the index of none ([usize::MAX]). *)
Definition indexes (definitions : list DefinitionFact) (d : nat) : Prop :=
  d < length definitions ∨ d = Z.to_nat USIZE_MAX.
Definition qualified_name_of (d : DefinitionFact) : str :=
  if existsb (λ k, df_kind d =s lit k) QUALIFIED_KINDS then join (default [] (df_container d)) (df_name d) else df_name d.

Record definition_sound (root : Node) (d : DefinitionFact) : Prop := {
  dfs_name : df_name d ≠ [];
  dfs_span : spans root (df_start d, df_end d);
}.
Record occurrence_sound (root : Node) (definitions : list DefinitionFact) (o : Occurrence) : Prop := {
  ocs_span : spans root (oc_start o, oc_end o);
  ocs_target : ∀ d, oc_target o = Some d → is_Some (definitions !! d) ∧ oc_candidates o = [];
  ocs_candidates : ∀ d, d ∈ oc_candidates o → is_Some (definitions !! d);
}.
Record relationship_sound (root : Node) (definitions : list DefinitionFact) (r : RelationshipFact) : Prop := {
  rls_span : spans root (re_evidence_start r, re_evidence_end r);
  rls_source : indexes definitions (re_source r);
  rls_target : ∀ d, re_target r = Some d → indexes definitions d;
}.
Record facts_sound (root : Node) (f : Facts) : Prop := {
  fas_definitions : Forall (definition_sound root) (fa_definitions f);
  fas_occurrences : Forall (occurrence_sound root (fa_definitions f)) (fa_occurrences f);
  fas_relationships : Forall (relationship_sound root (fa_definitions f)) (fa_relationships f);
}.
Record import_sound (root : Node) (import : PhpImport) : Prop := {
  ims_alias : spans root (im_alias_span import);
  ims_target : spans root (im_target_span import);
}.
(** The symbol of a definition. *)
Definition symbol_of (definitions : list DefinitionFact) (i : nat) (s : Symbol) : Prop :=
  sy_definition s = i ∧ ∃ d, definitions !! i = Some d ∧ df_kind d = sy_kind s ∧ qualified_name_of d = sy_qualified_name s.
Record catalog_sound (root : Node) (definitions : list DefinitionFact) (c : Catalog) : Prop := {
  cts_imports : Forall (import_sound root) (ct_imports c);
  cts_length : length (ct_symbols c) = length definitions;
  cts_symbols : ∀ i s, ct_symbols c !! i = Some s → symbol_of definitions i s;
  cts_classes : map_Forall (λ _, indexes definitions) (ct_class_definitions c);
  cts_owners : map_Forall (λ _, indexes definitions) (ct_owners c);
}.
Definition declares (o : Occurrence) : Prop := oc_role o = lit "declaration" ∨ oc_role o = lit "import".
Record state_sound (root : Node) (st : PhpState) : Prop := {
  sts_catalog : catalog_sound root (fa_definitions st.2) st.1;
  sts_facts : facts_sound root st.2;
  sts_declares : Forall declares (fa_occurrences st.2);
}.

(** ** Walks *)

Lemma named_walk_eq skip n up :
  named_walk skip n up =
    if is_kind skip (MkLoc n up) then []
    else MkLoc n up ::
      concat ((λ e, if loc_named e.1 then e.2 else []) <$> below (named_walk skip) n up).
Proof.
  destruct n as [k nm f a b cs]. cbn [named_walk]. unfold below. cbn [nd_children]. set (n := MkNode k nm f a b cs).
  destruct (is_kind _ _); [done|]. f_equal.
  assert (Hb : ∀ ds i0, (fix each (i : nat) (cs : list Node) : list Loc :=
       match cs with
       | [] => []
       | c :: cs => (if nd_named c then named_walk skip c ((n, i) :: up) else []) ++ each (S i) cs
       end) i0 ds =
     concat ((λ e, if loc_named e.1 then e.2 else []) <$>
       imap (λ i c, (MkLoc c ((n, i0 + i) :: up), named_walk skip c ((n, i0 + i) :: up))) ds)).
  { intros ds. induction ds as [|d ds IH]; intros i0; [done|]. cbn [imap fmap list_fmap concat]. rewrite Nat.add_0_r.
    unfold loc_named at 1. cbn [fst snd here]. f_equal. rewrite IH. f_equal. f_equal. apply imap_ext. intros i c _.
    cbn. by rewrite Nat.add_succ_r. }
  by rewrite (Hb cs 0).
Qed.
Lemma named_walk_placed root skip n up l : placed root (MkLoc n up) → l ∈ named_walk skip n up → placed root l.
Proof.
  revert up. induction n as [n IH] using node_induction. intros up Hn. rewrite named_walk_eq.
  destruct (is_kind _ _); [by intros ?%elem_of_nil|]. intros [->|Hl]%elem_of_cons; [done|].
  apply list_elem_of_In, in_concat in Hl as (ls & Hls%list_elem_of_In & Hl%list_elem_of_In).
  apply list_elem_of_fmap in Hls as (e & -> & (i & c & Hc & ->)%below_elem). cbn [fst snd] in Hl.
  destruct (loc_named _); [|by apply elem_of_nil in Hl]. eapply Forall_lookup_1 in IH; [|exact Hc]. eapply IH; [|exact Hl].
  by apply (placed_child root (MkLoc n up)).
Qed.

(** The inner loops of such functions give [below]. *)
Lemma each_below {A} (f : Node → list (Node * nat) → A) n up ds i0 :
  (fix each (i : nat) (cs : list Node) : list (Loc * A) :=
     match cs with
     | [] => []
     | c :: cs => (MkLoc c ((n, i) :: up), f c ((n, i) :: up)) :: each (S i) cs
     end) i0 ds = imap (λ i c, (MkLoc c ((n, i0 + i) :: up), f c ((n, i0 + i) :: up))) ds.
Proof.
  revert i0. induction ds as [|d ds IH]; intros i0; [done|]. cbn [imap]. rewrite Nat.add_0_r. f_equal.
  rewrite IH. apply imap_ext. intros i c _. cbn. by rewrite Nat.add_succ_r.
Qed.
Lemma terminal_name_eq n up :
  terminal_name n up =
    let node := MkLoc n up in
    if is_kind ["name"]%string node then Some node
    else if is_kind ["qualified_name"; "relative_name"; "namespace_name"]%string node then
      e ← last (List.filter (λ e, loc_named e.1) (below terminal_name n up)); e.2
    else None.
Proof.
  destruct n as [k nm f a b cs]. cbv zeta. cbn [terminal_name]. unfold below. cbn [nd_children].
  set (n := MkNode k nm f a b cs).
  by rewrite (each_below terminal_name n up cs 0).
Qed.
Lemma static_name_eq n up :
  static_name n up =
    let node := MkLoc n up in
    if is_name_node node then Some node
    else if is_kind ["parenthesized_expression"]%string node then
      e ← head (List.filter (λ e, loc_named e.1) (below static_name n up)); e.2
    else None.
Proof.
  destruct n as [k nm f a b cs]. cbv zeta. cbn [static_name]. unfold below. cbn [nd_children].
  set (n := MkNode k nm f a b cs).
  by rewrite (each_below static_name n up cs 0).
Qed.
(** A name is below the node that it is the name of. *)
Lemma name_below_placed root (f : Node → list (Node * nat) → option Loc) (pick : list (Loc * option Loc) → option (Loc * option Loc)) n up l :
  (∀ es e, pick es = Some e → e ∈ es) →
  Forall (λ c, ∀ up l, placed root (MkLoc c up) → f c up = Some l → placed root l) (nd_children n) →
  placed root (MkLoc n up) → (e ← pick (List.filter (λ e, loc_named e.1) (below f n up)); e.2) = Some l → placed root l.
Proof.
  intros Hpick Hf Hn. destruct (pick _) as [e|] eqn:He; cbn [mbind option_bind]; [|done]. intros Hl.
  apply Hpick, list_elem_of_In, filter_In in He as [He _]. apply list_elem_of_In, below_elem in He as (i & c & Hc & ->).
  eapply Forall_lookup_1 in Hf; [|exact Hc]. eapply Hf; [|exact Hl]. by apply (placed_child root (MkLoc n up)).
Qed.
Lemma terminal_name_placed root n up l : placed root (MkLoc n up) → terminal_name n up = Some l → placed root l.
Proof.
  revert up l. induction n as [n IH] using node_induction. intros up l Hn. rewrite terminal_name_eq. cbv zeta.
  destruct (is_kind _ _); [by intros [= <-]|]. destruct (is_kind _ _); [|done].
  apply name_below_placed; [|done..]. intros es e. rewrite last_lookup. apply list_elem_of_lookup_2.
Qed.
Lemma static_name_placed root n up l : placed root (MkLoc n up) → static_name n up = Some l → placed root l.
Proof.
  revert up l. induction n as [n IH] using node_induction. intros up l Hn. rewrite static_name_eq. cbv zeta.
  destruct (is_name_node _); [by intros [= <-]|]. destruct (is_kind _ _); [|done].
  apply name_below_placed; [|done..]. intros es e. rewrite head_lookup. apply list_elem_of_lookup_2.
Qed.

(** ** Sound states *)

Section Sound.
Context (root : Node).

Lemma indexes_grow definitions d x : indexes definitions x → indexes (definitions ++ [d]) x.
Proof. unfold indexes. rewrite length_app. intros [?|?]; [left; lia|by right]. Qed.
Lemma definition_grows (definitions : list DefinitionFact) d i : is_Some (definitions !! i) → is_Some ((definitions ++ [d]) !! i).
Proof. rewrite !lookup_lt_is_Some, length_app. lia. Qed.
Lemma occurrence_grows definitions d o : occurrence_sound root definitions o → occurrence_sound root (definitions ++ [d]) o.
Proof.
  intros [Hs Ht Hc]. constructor; [done|..].
  - intros x Hx. destruct (Ht x Hx). split; [by apply definition_grows|done].
  - intros x Hx. by apply definition_grows, Hc.
Qed.
Lemma relationship_grows definitions d r :
  relationship_sound root definitions r → relationship_sound root (definitions ++ [d]) r.
Proof. intros [Hs Hd Ht]. constructor; [done|by apply indexes_grow|]. intros x Hx. by apply indexes_grow, Ht. Qed.
Lemma symbol_grows definitions d i s : symbol_of definitions i s → symbol_of (definitions ++ [d]) i s.
Proof. intros [Hi (x & Hx & ?)]. split; [done|]. exists x. split; [by apply lookup_app_l_Some|done]. Qed.

Lemma add_occurrence_sound o f :
  occurrence_sound root (fa_definitions f) o → facts_sound root f → facts_sound root (add_occurrence o f).
Proof. intros Ho [? ? ?]. constructor; cbn; [done| |done]. apply Forall_app. split; [done|by constructor]. Qed.
Lemma add_relationship_sound r f :
  relationship_sound root (fa_definitions f) r → facts_sound root f → facts_sound root (add_relationship r f).
Proof. intros Hr [? ? ?]. constructor; cbn; [done..|]. apply Forall_app. split; [done|by constructor]. Qed.
Lemma plain_occurrence definitions name l role candidates provenance :
  placed root l → (∀ d, d ∈ candidates → is_Some (definitions !! d)) →
  occurrence_sound root definitions (occurrence name (byte_range l) role None candidates provenance).
Proof. intros Hl Hc. constructor; [by apply node_spans|done|exact Hc]. Qed.
Lemma plain_relationship definitions source target span kind provenance :
  spans root span → indexes definitions source → (∀ d, target = Some d → indexes definitions d) →
  relationship_sound root definitions (MkRel source target kind span.1 span.2 provenance).
Proof. intros Hs Hd Ht. constructor; [by destruct span|done|exact Ht]. Qed.

(** *** Declarations *)
Section Declare.
Context `{UnicodeTables} (source status : str).

Lemma add_definition_sound node token spelling kind container scope resolvable st :
  placed root node → placed root token → state_sound root st →
  let r := add_definition status node token spelling kind container scope resolvable st in
  state_sound root r.2 ∧ indexes (fa_definitions r.2.2) r.1 ∧ ct_imports r.2.1 = ct_imports st.1.
Proof.
  intros Hn Ht [Hc Hf Hdecl]. cbv zeta. unfold add_definition. case_bool_decide as Hs; [by split_and!; [|right|]|].
  destruct st as [c f]. cbn [fst snd] in *. destruct Hc as [Hci Hcl Hcs Hcc Hco]. destruct Hf as [Hfd Hfo Hfr].
  set (d := MkDef spelling (lit kind) (loc_start node) (loc_end node) container).
  assert (Hlast : (fa_definitions f ++ [d]) !! length (fa_definitions f) = Some d).
  { by rewrite lookup_app_r, Nat.sub_diag by lia. }
  split_and!; [| |done].
  - split; [| |apply Forall_app; split; [done|by constructor; [left|]]].
    + constructor; cbn.
      * done.
      * rewrite !length_app, Hcl. done.
      * intros i s [Hi|[Hge Hi]]%lookup_app_Some; [by apply symbol_grows, Hcs|].
        apply list_lookup_singleton_Some in Hi as [Hz <-]. assert (i = length (fa_definitions f)) as -> by lia.
        split; [done|]. exists d. split_and!; [done..|]. unfold qualified_name_of. cbn [df_kind df_container df_name d sy_qualified_name].
        by rewrite among_kind.
      * eapply map_Forall_impl; [exact Hcc|]. intros ? ?. apply indexes_grow.
      * eapply map_Forall_impl; [exact Hco|]. intros ? ?. apply indexes_grow.
    + constructor; cbn.
      * apply Forall_app. split; [done|]. constructor; [|done]. constructor; [done|]. by apply node_spans.
      * apply Forall_app. split; [by eapply Forall_impl; [|apply occurrence_grows]|]. constructor; [|done]. constructor; cbn.
        { by apply node_spans. } { intros x [= <-]. split; [by rewrite Hlast|done]. } { by intros x ?%elem_of_nil. }
      * eapply Forall_impl; [exact Hfr|]. apply relationship_grows.
  - left. cbn. rewrite length_app. cbn. lia.
Qed.

Definition changes_owners (definitions : list DefinitionFact) (f : Catalog → Catalog) : Prop :=
  ∀ c, ct_imports (f c) = ct_imports c ∧ ct_symbols (f c) = ct_symbols c ∧
    (map_Forall (λ _, indexes definitions) (ct_class_definitions c) →
     map_Forall (λ _, indexes definitions) (ct_class_definitions (f c))) ∧
    (map_Forall (λ _, indexes definitions) (ct_owners c) → map_Forall (λ _, indexes definitions) (ct_owners (f c))).
Lemma catalog_changed f definitions c :
  changes_owners definitions f → catalog_sound root definitions c → catalog_sound root definitions (f c).
Proof.
  intros Hf [? ? ? ? ?]. destruct (Hf c) as (Hi & Hs & Hc & Ho). constructor; rewrite ?Hi, ?Hs; auto.
Qed.
Lemma insert_class_changes definitions start d : indexes definitions d → changes_owners definitions (insert_class start d).
Proof. intros Hd c. cbn. split_and!; [done..|intros ?; by apply map_Forall_insert_2|done]. Qed.
Lemma insert_owner_changes definitions start d : indexes definitions d → changes_owners definitions (insert_owner start d).
Proof. intros Hd c. cbn. split_and!; [done..|intros ?; by apply map_Forall_insert_2]. Qed.

(** A definition that is recorded in the catalog afterwards. *)
Lemma define_then f node token spelling kind container scope st :
  placed root node → placed root token → state_sound root st →
  (∀ definitions d, indexes definitions d → changes_owners definitions (f d)) →
  state_sound root
    (let '(d, st) := add_definition status node token spelling kind container scope false st in (f d st.1, st.2)).
Proof.
  intros Hn Ht Hst Hf. pose proof (add_definition_sound node token spelling kind container scope false st Hn Ht Hst) as Hr.
  cbv zeta in Hr. destruct (add_definition _ _ _ _ _ _ _ _ _) as [d st']. cbn [fst snd] in Hr.
  destruct Hr as ([Hc Hfs Hdecl] & Hd & _). split; cbn [fst snd]; [|done..]. apply catalog_changed; [by apply Hf|done].
Qed.
Lemma move_last_declares name span os : Forall declares os → Forall declares (move_last name span os).
Proof.
  intros Hos. unfold move_last. destruct (last os) as [o|] eqn:Ho; [|done]. apply last_Some in Ho as [os' ->].
  rewrite removelast_last. apply Forall_app in Hos as [Hos [Ho _]%Forall_cons]. apply Forall_app. split; [done|by constructor].
Qed.
Lemma move_last_sound definitions name span os :
  spans root span → Forall (occurrence_sound root definitions) os →
  Forall (occurrence_sound root definitions) (move_last name span os).
Proof.
  intros Hs Hos. unfold move_last. destruct (last os) as [o|] eqn:Ho; [|done].
  apply last_Some in Ho as [os' ->]. rewrite removelast_last. apply Forall_app in Hos as [Hos [Ho _]%Forall_cons].
  apply Forall_app. split; [done|]. constructor; [|done]. destruct Ho. constructor; cbn; [by destruct span|done..].
Qed.
Lemma add_import_sound node st : placed root node → state_sound root st → state_sound root (add_import source status node st).
Proof.
  intros Hn Hst. unfold add_import. destruct (find _ _) as [import|] eqn:Hi; [|done].
  pose proof Hst as [[Himports _ _ _ _] _ _]. apply find_some in Hi as [Hi _]. rewrite Forall_forall in Himports.
  destruct (Himports import ltac:(by apply list_elem_of_In)) as [Ha Ht].
  pose proof (add_definition_sound node node (im_alias import) "import" (nonempty (im_namespace import)) (im_scope import) false
    st Hn Hn Hst) as Hr. cbv zeta in Hr. destruct (add_definition _ _ _ _ _ _ _ _ _) as [d [c f]]. cbn [fst snd] in Hr.
  destruct Hr as ([Hc [Hfd Hfo Hfr] Hdecl] & Hd & _). split; cbn [fst snd] in *.
  - apply (catalog_changed (push_declaration (im_alias_span import))); [|done]. intros c'. by split_and!.
  - constructor; cbn; [done| |].
    + apply Forall_app. split; [by apply move_last_sound|]. constructor; [|done]. destruct Ht as (l & Hl & ->).
      apply plain_occurrence; [done|]. by intros ? ?%elem_of_nil.
    + apply Forall_app. split; [done|]. constructor; [|done]. by apply plain_relationship.
  - apply Forall_app. split; [by apply move_last_declares|]. constructor; [by right|done].
Qed.

Lemma define_named field node kind container scope resolvable spelling st :
  placed root node → state_sound root st →
  state_sound root match field_child field node with
                   | Some name => (add_definition status node name (spelling name) kind (container name) scope resolvable st).2
                   | None => st
                   end.
Proof.
  intros Hn Hst. destruct (field_child field node) as [name|] eqn:Hname; [|done].
  apply add_definition_sound; [done| |done]. by eapply placed_field.
Qed.
Lemma add_parameter_sound node st : placed root node → state_sound root st → state_sound root (add_parameter source status node st).
Proof.
  intros Hn Hst. unfold add_parameter. destruct (field_child "name" node) as [name|] eqn:Hname; [|done]. cbv zeta.
  assert (Hp : placed root name) by by eapply placed_field.
  pose proof (add_definition_sound node name (text source name) "parameter" None (function_scope node) true st Hn Hp Hst) as Hr.
  cbv zeta in Hr. destruct (add_definition _ _ _ _ _ _ _ _ _) as [d st']. destruct Hr as (Hst' & _).
  destruct (is_kind _ node); [|done]. by apply add_definition_sound.
Qed.
Lemma declare_sound node st : placed root node → state_sound root st → state_sound root (declare source status node st).
Proof.
  intros Hn Hst.
  assert (Htype : ∀ kind, state_sound root (add_named_type source status node kind st)).
  { intros kind. unfold add_named_type. destruct (field_child "name" node) as [name|] eqn:Hname; [|done]. cbv zeta.
    apply (define_then (insert_class (loc_start node))); [done|by eapply placed_field|done|].
    intros definitions d. apply insert_class_changes. }
  assert (Hfun : ∀ container kind scope, state_sound root match field_child "name" node with
      | Some name =>
          let '(d, st) := add_definition status node name (text source name) kind container scope false st in
          (insert_owner (loc_start node) d st.1, st.2)
      | None => st
      end).
  { intros container kind scope. destruct (field_child "name" node) as [name|] eqn:Hname; [|done].
    apply (define_then (insert_owner (loc_start node))); [done|by eapply placed_field|done|].
    intros definitions d. apply insert_owner_changes. }
  unfold declare.
  destruct (is_kind ["namespace_definition"]%string node); [by apply (define_named "name" node _ (λ _, None))|].
  do 4 (destruct (is_kind _ node); [apply Htype|]).
  do 2 (destruct (is_kind _ node); [apply Hfun|]).
  destruct (is_kind ["namespace_use_clause"]%string node); [by apply add_import_sound|].
  destruct (is_kind ["property_element"]%string node).
  { by apply (define_named "name" node _ (λ _, nonempty (class_fqcn source node st.1)) _ _ (λ name, trim_dollars (text source name))). }
  destruct (is_kind ["const_element"]%string node).
  { unfold add_constant. destruct (find _ _) as [name|] eqn:Hname; [|done]. apply find_some in Hname as [Hname _].
    destruct (match class_node node with Some _ => _ | None => _ end) as [container scope].
    apply add_definition_sound; [done| |done]. eapply placed_named_children; [done|]. by apply list_elem_of_In. }
  destruct (is_kind ["enum_case"]%string node).
  { by apply (define_named "name" node _ (λ _, nonempty (class_fqcn source node st.1)) _ _ (text source)). }
  destruct (is_kind _ node); [by apply add_parameter_sound|].
  destruct (is_kind ["global_declaration"]%string node).
  { destruct Hst as [Hc Hf Hdecl]. split; cbn [fst snd]; [|done..]. apply (catalog_changed (push_globals _)); [|done]. intros c. by split_and!. }
  destruct (_ && _); [|done]. unfold add_variable. destruct (_ || _); [done|]. by apply add_definition_sound.
Qed.

(** *** Imports *)
Lemma ancestor_placed kinds l a : placed root l → ancestor l kinds = Some a → placed root a.
Proof.
  intros Hl [Ha _]%find_some. apply list_elem_of_In, elem_of_cons in Ha as [->|Ha]; [done|]. by eapply placed_ancestors.
Qed.
Lemma clause_import_sound prefix default_kind namespace scope clause import :
  placed root clause → clause_import source prefix default_kind namespace scope clause = Some import → import_sound root import.
Proof.
  intros Hc. unfold clause_import. cbv zeta. destruct (find _ _) as [path|] eqn:Hp; cbn [mbind option_bind]; [|done].
  apply find_some in Hp as [Hp%list_elem_of_In _]. pose proof (placed_named_children _ _ _ Hc Hp) as Hpath.
  intros [= <-]. constructor; cbn; [|by apply node_spans]. apply node_spans.
  destruct (field_child "alias" clause) as [alias|] eqn:Ha; [exact (placed_field _ _ _ _ Hc Ha)|].
  destruct (terminal_name _ _) as [t|] eqn:Ht; [|done]. apply (terminal_name_placed root (here path) (above path)); [|done].
  by destruct path.
Qed.
Lemma collect_imports_sound regions : Forall (import_sound root) (collect_imports source regions (root_loc root)).
Proof.
  apply Forall_concat, Forall_fmap, Forall_forall. intros node Hnode. unfold compose. destruct (is_kind ["namespace_use_declaration"]%string node); [|by constructor].
  apply (named_walk_placed root) in Hnode; [|apply placed_root]. apply Forall_forall. intros import Hin.
  apply list_elem_of_omap in Hin as (clause & Hclause & Hi). destruct (is_kind _ clause); [|done].
  eapply clause_import_sound; [|exact Hi]. eapply placed_named_children; [|exact Hclause].
  destruct (field_child "body" node) as [group|] eqn:Hg; [|done]. by eapply placed_field.
Qed.

Lemma settle_symbol_of globals definitions i s : symbol_of definitions i s → symbol_of definitions i (settle_symbol globals s).
Proof. unfold settle_symbol. by destruct (_ && _). Qed.
Lemma foldl_state {A} (f : PhpState → A → PhpState) (l : list A) st :
  (∀ x st, x ∈ l → state_sound root st → state_sound root (f st x)) → state_sound root st → state_sound root (foldl f st l).
Proof.
  revert st. induction l as [|x l IH]; intros st Hf Hst; [done|]. cbn [foldl]. apply IH.
  - intros y st' Hy. apply Hf. by right.
  - apply Hf; [by left|done].
Qed.
Lemma collect_declarations_sound : state_sound root (collect_declarations source status (root_loc root)).
Proof.
  unfold collect_declarations. cbv zeta. destruct (foldl _ _ _) as [c f] eqn:Hfold.
  assert (Hst : state_sound root (c, f)).
  { rewrite <-Hfold. apply foldl_state.
    - intros node st Hnode. apply declare_sound. eapply named_walk_placed; [|exact Hnode]. apply placed_root.
    - split; constructor; cbn; try done. apply collect_imports_sound. }
  destruct Hst as [[Hi Hl Hs Hc Ho] Hf Hdecl]. split; [|done..]. constructor; cbn [fst snd ct_imports ct_symbols ct_class_definitions ct_owners] in *.
  - done.
  - by rewrite length_fmap.
  - intros i s' Hs'. apply list_lookup_fmap_Some in Hs' as (s & -> & Hi'). by apply settle_symbol_of, Hs.
  - done.
  - done.
Qed.
End Declare.

(** *** Markers and references *)
Section Refer.
Context `{UnicodeTables} (source status : str) (catalog : Catalog) (definitions : list DefinitionFact).
Context (Hcatalog : catalog_sound root definitions catalog).

Lemma class_indexes start d : ct_class_definitions catalog !! start = Some d → indexes definitions d.
Proof. destruct Hcatalog as [_ _ _ Hc _]. intros Hd. exact (map_Forall_lookup_1 _ _ _ _ Hc Hd). Qed.
Lemma owner_indexes start d : ct_owners catalog !! start = Some d → indexes definitions d.
Proof. destruct Hcatalog as [_ _ _ _ Ho]. intros Hd. exact (map_Forall_lookup_1 _ _ _ _ Ho Hd). Qed.
Lemma symbol_elem s : s ∈ ct_symbols catalog → symbol_of definitions (sy_definition s) s.
Proof.
  destruct Hcatalog as [_ _ Hs _ _]. intros [i Hi]%list_elem_of_lookup. pose proof (Hs i s Hi) as [Hd Hx]. by rewrite Hd.
Qed.
Lemma symbol_definition s : s ∈ ct_symbols catalog → is_Some (definitions !! sy_definition s).
Proof. intros (_ & d & -> & _)%symbol_elem. by eexists. Qed.
Lemma candidates_defined f d : d ∈ candidates_of catalog f → is_Some (definitions !! d).
Proof.
  unfold candidates_of. intros Hd. apply elem_of_take in Hd as (i & Hi & _). apply list_elem_of_lookup_2 in Hi.
  apply list_elem_of_fmap in Hi as (s & -> & [Hs _]%list_elem_of_In%filter_In). by apply symbol_definition, list_elem_of_In.
Qed.

(** What an occurrence of a reference says of its node. *)
Definition variable_read (node : Loc) (o : Occurrence) : Prop :=
  let matching := bindings_of source catalog node in
  is_kind ["variable_name"]%string node = true ∧ oc_name o = text source node ∧ oc_role o = lit "read" ∧
  oc_target o = local_target status matching ∧
  oc_candidates o = match local_target status matching with Some _ => [] | None => sy_definition <$> matching end.
Definition type_read (node : Loc) (o : Occurrence) : Prop :=
  oc_role o = lit "type" ∧ oc_target o = None ∧
  (oc_provenance o = lit "php_fqcn" → canonical_at source catalog node "class" = (oc_name o, true) ∧
     oc_candidates o = candidates_for_type catalog (oc_name o)) ∧
  (oc_provenance o ≠ lit "php_fqcn" → oc_candidates o = []).
Definition other_read (o : Occurrence) : Prop :=
  (oc_role o = lit "call" ∨ oc_role o = lit "read") ∧
  among ["php_local_binding"; "candidate_name"]%string (oc_provenance o) = false ∧
  oc_target o = None ∧ ∀ d, d ∈ oc_candidates o → is_Some (definitions !! d).
Definition observed (o : Occurrence) : Prop :=
  ∃ node, placed root node ∧ oc_start o = loc_start node ∧ oc_end o = loc_end node ∧
    (variable_read node o ∨ type_read node o ∨ other_read o).
Record referred (f : Facts) : Prop := {
  rf_definitions : fa_definitions f = definitions;
  rf_sound : facts_sound root f;
  rf_observed : Forall (λ o, declares o ∨ observed o) (fa_occurrences f);
}.

Lemma php_observed_sound o : observed o → occurrence_sound root definitions o.
Proof.
  intros (node & Hn & Hs & He & Ho). assert (Hb : ∀ s, s ∈ bindings_of source catalog node → is_Some (definitions !! sy_definition s)).
  { intros s Hin. apply symbol_definition. apply list_elem_of_In, filter_In in Hin as [Hin _]. by apply list_elem_of_In. }
  assert (Hspan : spans root (oc_start o, oc_end o)) by (rewrite Hs, He; by apply node_spans).
  destruct Ho as [(_ & _ & _ & Ht & Hc)|[(_ & Ht & Hf & Hnf)|(_ & _ & Ht & Hc)]].
  - constructor; [done|..]; rewrite ?Ht, Hc.
    + intros d Hd. unfold local_target in *. destruct (bindings_of source catalog node) as [|s [|]]; try done.
      destruct (_ && _); [|done]. injection Hd as <-. split; [apply Hb; by left|done].
    + intros d. destruct (local_target _ _); [by intros ?%elem_of_nil|]. intros (s & -> & Hs')%list_elem_of_fmap. by apply Hb.
  - constructor; [done|by rewrite Ht|]. intros d. destruct (decide (oc_provenance o = lit "php_fqcn")) as [Hp|Hp].
    + destruct (Hf Hp) as (_ & ->). apply candidates_defined.
    + rewrite (Hnf Hp). by intros ?%elem_of_nil.
  - constructor; [done|by rewrite Ht|done].
Qed.
Lemma add_observed o f : observed o → referred f → referred (add_occurrence o f).
Proof.
  intros Ho [Hd Hs Hf]. constructor; cbn; [done| |].
  - apply add_occurrence_sound; [|done]. rewrite Hd. by apply php_observed_sound.
  - apply Forall_app. split; [done|]. constructor; [by right|done].
Qed.
Lemma add_related span source0 target kind provenance f :
  spans root span → indexes definitions source0 → (∀ d, target = Some d → indexes definitions d) → referred f →
  referred (add_relationship (MkRel source0 target kind span.1 span.2 provenance) f).
Proof.
  intros Hs Hi Ht [Hd Hf Ho]. constructor; cbn; [done| |done]. apply add_relationship_sound; [|done].
  rewrite Hd. by apply plain_relationship.
Qed.
Lemma add_other node name role candidates provenance f :
  placed root node → role = "call"%string ∨ role = "read"%string →
  existsb (String.eqb provenance) ["php_local_binding"; "candidate_name"]%string = false →
  (∀ d, d ∈ candidates → is_Some (definitions !! d)) → referred f →
  referred (add_occurrence (occurrence name (byte_range node) role None candidates provenance) f).
Proof.
  intros Hn Hr Hp Hc. apply add_observed. exists node. split_and!; [done..|]. right. right. split_and!; [| |done|done].
  - destruct Hr as [->| ->]; [by left|by right].
  - unfold among, occurrence. cbn [oc_provenance]. by rewrite among_kind.
Qed.

Lemma foldl_referred {A} (f : Facts → A → Facts) (l : list A) g :
  (∀ x g, x ∈ l → referred g → referred (f g x)) → referred g → referred (foldl f g l).
Proof.
  revert g. induction l as [|x l IH]; intros g Hf Hg; [done|]. cbn [foldl]. apply IH.
  - intros y g' Hy. apply Hf. by right.
  - apply Hf; [by left|done].
Qed.
Lemma marker_row_referred d target span marker f :
  spans root span → indexes definitions d → (∀ x, target = Some x → indexes definitions x) → referred f →
  referred (add_relationship (marker_row d target span marker) f).
Proof. intros. by apply add_related. Qed.

Lemma mark_referred (has_error : Loc → bool) uncertain node f :
  placed root node → referred f → referred (mark has_error source catalog uncertain node f).
Proof.
  intros Hn Hf. unfold mark.
  assert (Hchild : ∀ c l, placed root l → c ∈ loc_named_children l → spans root (byte_range c)).
  { intros c l Hl Hc. apply node_spans. by eapply placed_named_children. }
  destruct (is_kind ["class_declaration"]%string node).
  { unfold add_class_facts. destruct (_ !! _) as [d|] eqn:Hd; [|done]. cbv zeta. apply class_indexes in Hd.
    match goal with |- context [MClass ?r _] => generalize r; intros role end.
    assert (Hf' : ∀ m, referred (add_relationship (marker_row d None (byte_range node) m) f)).
    { intros m. apply marker_row_referred; [by apply node_spans|done..]. }
    destruct (find (is_kind ["base_clause"]%string) _) as [clause|] eqn:Hc; [|apply Hf']. apply find_some in Hc as [Hc%list_elem_of_In _].
    pose proof (placed_named_children _ _ _ Hn Hc) as Hclause.
    assert (Hmark : ∀ span m, spans root span → referred (add_relationship (marker_row d None span m)
       (add_relationship (marker_row d None (byte_range node) (MClass role (uncertain || class_is_conditional node))) f))).
    { intros span m Hs. by apply marker_row_referred. }
    unfold add_parent_fact. destruct (List.filter is_name_node _) as [|parent [|]] eqn:Hp; [by apply Hmark, node_spans| |by apply Hmark, node_spans].
    destruct (canonical _ _ _ _ _) as [name resolved]. apply Hmark. destruct (_ && has_error clause); [by apply node_spans|].
    apply (Hchild parent clause Hclause). assert (Hin : parent ∈ [parent]) by left. rewrite <-Hp in Hin.
    apply list_elem_of_In, filter_In in Hin as [Hin _]. by apply list_elem_of_In. }
  destruct (is_kind ["use_declaration"]%string node).
  { unfold add_trait_use_facts. destruct (class_node node) as [owner|]; [|done]. destruct (_ !! _) as [d|] eqn:Hd; [|done].
    cbv zeta. apply foldl_referred; [|done]. intros name g Hname Hg. apply list_elem_of_In, filter_In in Hname as [Hname%list_elem_of_In _].
    case_bool_decide; [done|]. apply marker_row_referred; [by apply (Hchild name node)|by eapply class_indexes|done..]. }
  destruct (is_kind _ node); [|done]. unfold add_method_fact.
  destruct (class_node node) as [owner|]; cbn [mbind option_bind]; [|done].
  destruct (ct_class_definitions catalog !! _) as [od|] eqn:Hod; cbn [mbind option_bind]; [|done].
  destruct (ct_owners catalog !! _) as [md|] eqn:Hmd; cbn [mbind option_bind]; [|done]. cbv zeta.
  apply marker_row_referred; [by apply node_spans|by eapply owner_indexes| |done]. intros x [= <-]. by eapply class_indexes.
Qed.

Lemma observe_type_referred node f : placed root node → referred f → referred (observe_type source catalog node f).
Proof.
  intros Hn Hf. unfold observe_type. cbv zeta. destruct (canonical_at source catalog node "class") as [name resolved] eqn:Hc.
  match goal with |- context [add_occurrence ?x f] => set (o := x) end.
  assert (Ho : referred (add_occurrence o f)).
  { apply add_observed; [|done]. exists node. split_and!; [done..|]. right. left. unfold type_read, o.
    rewrite Hc. unfold occurrence. cbn [oc_role oc_target oc_provenance oc_candidates oc_name].
    destruct (is_xfcp_placeholder (text source node)), (is_xfcp_placeholder name), resolved; cbn [orb andb negb];
      rewrite ?andb_false_r; by split_and!. }
  clearbody o.
  assert (Hrel : ∀ d kind provenance, indexes definitions d →
    referred (add_relationship (MkRel d None (lit kind) (loc_start node) (loc_end node) (lit provenance)) (add_occurrence o f))).
  { intros d kind provenance Hd. apply (add_related (byte_range node)); [by apply node_spans|done..]. }
  destruct (inheritance_owner catalog node) as [[d kind]|] eqn:Hi.
  - apply Hrel. unfold inheritance_owner in Hi. destruct (ancestor node _) as [p|]; cbn [mbind option_bind] in Hi; [|done].
    destruct (class_node p) as [c|]; cbn [mbind option_bind] in Hi; [|done]. unfold class_definition in Hi.
    destruct (_ !! _) as [x|] eqn:Hx; cbn [mbind option_bind] in Hi; [|done]. injection Hi as <- _. by eapply class_indexes.
  - destruct (trait_owner catalog node) as [d|] eqn:Ht; [|done]. apply Hrel. unfold trait_owner in Ht.
    destruct (ancestor node _) as [u|]; cbn [mbind option_bind] in Ht; [|done].
    destruct (is_trait_adaptation node u); [done|]. destruct (class_node u) as [c|]; cbn [mbind option_bind] in Ht; [|done].
    by eapply class_indexes.
Qed.
Lemma push_call_referred node expression name candidates resolved f :
  placed root node → (∀ d, d ∈ candidates → is_Some (definitions !! d)) → referred f →
  referred (push_call catalog node expression name candidates resolved f).
Proof.
  intros Hn Hc Hf. unfold push_call. cbv zeta.
  assert (Ho : referred (add_occurrence (occurrence name (byte_range node) "call" None candidates
      (if resolved then "php_call" else "php_ambiguous_import")) f)).
  { apply add_other; [done|by left|by destruct resolved|done..]. }
  destruct (function_owner catalog expression) as [d|] eqn:Hd; [|done].
  apply (add_related (byte_range node)); [by apply node_spans| |done..]. unfold function_owner in Hd.
  destruct (ancestor _ _); cbn [mbind option_bind] in Hd; [|done]. by eapply owner_indexes.
Qed.
Lemma no_candidates d : d ∈ @nil nat → is_Some (definitions !! d).
Proof. by intros ?%elem_of_nil. Qed.
Lemma candidates_when (b : bool) f d : d ∈ (if b then candidates_of catalog f else []) → is_Some (definitions !! d).
Proof. destruct b; [apply candidates_defined|apply no_candidates]. Qed.
Lemma observe_parent_call_referred name expression f :
  placed root name → referred f → referred (observe_parent_call source catalog name expression f).
Proof.
  intros Hn Hf. unfold observe_parent_call.
  destruct (if is_kind _ name then _ else _) as [[caller owner]|] eqn:Hp;
    [|apply add_other; [done|by left|done|apply no_candidates|done]].
  destruct (is_kind _ name); [|done]. unfold parent_call_owner in Hp.
  destruct (ancestor _ _) as [m|]; cbn [mbind option_bind] in Hp; [|done]. destruct (negb _); [done|].
  destruct (class_node m) as [c|]; cbn [mbind option_bind] in Hp; [|done]. destruct (negb _); [done|].
  destruct (ct_owners catalog !! _) as [x|] eqn:Hx; cbn [mbind option_bind] in Hp; [|done]. unfold class_definition in Hp.
  destruct (ct_class_definitions catalog !! _) as [y|] eqn:Hy; cbn [mbind option_bind] in Hp; [|done]. injection Hp as <- <-.
  apply marker_row_referred; [by apply node_spans|by eapply owner_indexes| |].
  - intros z [= <-]. by eapply class_indexes.
  - apply add_other; [done|by left|done|apply no_candidates|done].
Qed.
Lemma observe_method_call_referred node expression f :
  placed root node → referred f → referred (observe_method_call source catalog node expression f).
Proof.
  intros Hn Hf. unfold observe_method_call. destruct (is_suppressed_name _ _); [done|]. cbv zeta.
  apply push_call_referred; [done| |done]. intros d. apply candidates_defined.
Qed.
Lemma observe_constant_referred node f : placed root node → referred f → referred (observe_constant source catalog node f).
Proof.
  intros Hn Hf. unfold observe_constant. destruct (is_suppressed_name _ _); [done|]. destruct (among _ _); [done|].
  destruct (canonical_at _ _ _ _) as [name resolved]. apply add_other; [done|by right|by destruct resolved| |done].
  intros d. apply candidates_when.
Qed.
Lemma observe_when_name_referred o f :
  (∀ name, o = Some name → placed root name) → referred f → referred (observe_when_name source catalog o f).
Proof.
  intros Ho Hf. unfold observe_when_name. destruct o as [name|]; [|done]. destruct (is_name_node name); [|done].
  apply observe_type_referred; [by apply Ho|done].
Qed.
Lemma observe_member_access_referred node f : placed root node → referred f → referred (observe_member_access source catalog node f).
Proof.
  intros Hn Hf. unfold observe_member_access. destruct (field_child "name" node) as [name|] eqn:Hname; [|done].
  unfold observe_member_name. destruct (is_suppressed_name _ _); [done|]. cbv zeta. case_bool_decide; [done|].
  apply add_other; [exact (placed_field _ _ _ _ Hn Hname)|by right|done|apply no_candidates|done].
Qed.
Lemma observe_scoped_call_referred node f : placed root node → referred f → referred (observe_scoped_call source catalog node f).
Proof.
  intros Hn Hf. unfold observe_scoped_call. cbv zeta.
  assert (Hname : ∀ name, field_child "name" node = Some name → placed root name) by (intros name; by apply placed_field).
  assert (Hscope : ∀ scope, (if is_kind ["scoped_call_expression"]%string node then field_child "scope" node else None) = Some scope →
      placed root scope).
  { intros scope. destruct (is_kind _ node); [by apply placed_field|done]. }
  set (scope := if is_kind _ node then _ else None) in *. clearbody scope.
  destruct (match scope with Some _ => _ | None => false end).
  - destruct (field_child "name" node) as [name|]; [|done]. apply observe_parent_call_referred; [by apply Hname|done].
  - destruct (field_child "name" node) as [name|]; [|done].
    assert (Hf' : referred (if is_name_node name then observe_method_call source catalog name node f else f)).
    { destruct (is_name_node name); [|done]. apply observe_method_call_referred; [by apply Hname|done]. }
    destruct scope as [scope|]; [|done]. destruct (is_name_node scope); [|done].
    apply observe_type_referred; [by apply Hscope|done].
Qed.
Lemma observe_variable_referred node f :
  placed root node → is_kind ["variable_name"]%string node = true → referred f →
  referred (observe_variable source status catalog node f).
Proof.
  intros Hn Hk Hf. unfold observe_variable. destruct (_ || _); [done|]. cbv zeta.
  destruct (local_target status (bindings_of source catalog node)) as [d|] eqn:Hd; (apply add_observed; [|done]);
    exists node; split_and!; try done; left; unfold variable_read; cbv zeta; by rewrite Hd.
Qed.
Lemma refer_referred node f : placed root node → referred f → referred (refer source status catalog node f).
Proof.
  intros Hn Hf.
  assert (Hc : ∀ i c, named_child i node = Some c → placed root c).
  { intros i c Hi. eapply placed_named_children; [exact Hn|]. by eapply list_elem_of_lookup_2. }
  assert (Hfield : ∀ field c, field_child field node = Some c → placed root c) by (intros field c; by apply placed_field).
  unfold refer.
  destruct (is_kind ["function_call_expression"]%string node).
  { destruct (field_child "function" node) as [g|] eqn:Hg; cbn [mbind option_bind]; [|done].
    destruct (static_name (here g) (above g)) as [name|] eqn:Hname; [|done]. apply Hfield in Hg.
    unfold observe_function_call. destruct (is_suppressed_name _ _); [done|].
    destruct (canonical_at _ _ _ _) as [spelled resolved]. apply push_call_referred; [|intros d; apply candidates_when|done].
    eapply static_name_placed; [|exact Hname]. by destruct g. }
  destruct (is_kind _ node); [by apply observe_scoped_call_referred|].
  destruct (is_kind _ node).
  { apply observe_when_name_referred; [|done]. intros name [Hin%list_elem_of_In _]%find_some.
    by eapply placed_named_children. }
  destruct (is_kind _ node).
  { unfold observe_class_constant. assert (Hf' : referred (observe_when_name source catalog (named_child 0 node) f)).
    { apply observe_when_name_referred; [|done]. intros name. apply Hc. }
    destruct (named_child 1 node) as [c|] eqn:H1; cbn [mbind option_bind]; [|done]. apply Hc in H1.
    destruct (terminal_name _ _) as [t|] eqn:Ht; [|done]. apply observe_constant_referred; [|done].
    eapply terminal_name_placed; [|exact Ht]. by destruct c. }
  destruct (is_kind _ node).
  { apply observe_member_access_referred; [done|]. apply observe_when_name_referred; [|done]. intros name. apply Hfield. }
  destruct (is_kind _ node); [by apply observe_member_access_referred|].
  destruct (is_kind _ node).
  { apply foldl_referred; [|done]. intros c g Hin Hg. destruct (is_name_node c); [|done].
    apply observe_type_referred; [|done]. by eapply placed_named_children. }
  destruct (is_kind ["variable_name"]%string node) eqn:Hk; [by apply observe_variable_referred|].
  destruct (is_name_node node); [|done]. unfold observe_named_reference. destruct (_ || _); [done|].
  destruct (_ || _); [done|]. destruct (is_type_context node); [by apply observe_type_referred|].
  destruct (is_constant_context node); [|done]. by apply observe_constant_referred.
Qed.
Lemma collect_referred (has_error : Loc → bool) uncertain f :
  referred f →
  referred (collect_references source status catalog (root_loc root)
              (collect_markers has_error source catalog uncertain (root_loc root) f)).
Proof.
  intros Hf. apply foldl_referred.
  - intros node g Hnode. apply refer_referred. eapply named_walk_placed; [|exact Hnode]. apply placed_root.
  - apply foldl_referred; [|done]. intros node g Hnode. apply mark_referred. eapply named_walk_placed; [|exact Hnode]. apply placed_root.
Qed.
End Refer.
End Sound.

(** ** Local variables *)

Section Locals.
Context `{UnicodeTables} (source status : str).

Definition PARAMETER_KINDS : list string :=
  ["simple_parameter"; "variadic_parameter"; "property_promotion_parameter"]%string.
(** The nodes that bind a variable in a function: its parameters, and the
    assignments, [static] declarations, [catch] clauses and [foreach] targets. *)
Definition binds_name (name : str) (scope : nat * nat) (node : Loc) : bool :=
  ((is_kind PARAMETER_KINDS node &&
      match field_child "name" node with Some n => text source n =s name | None => false end) ||
   (is_kind ["variable_name"]%string node && is_variable_binding node && (text source node =s name) &&
    negb ((name =s lit "$this") || among SUPERGLOBALS name))) &&
  bool_decide (function_scope node = scope).
Definition declares_global (name : str) (scope : nat * nat) (node : Loc) : bool :=
  is_kind ["global_declaration"]%string node && bool_decide (function_scope node = scope) &&
  existsb (λ c, is_kind ["variable_name"]%string c && (text source c =s name)) (loc_named_children node).

Definition local_symbol (name : str) (scope : nat * nat) (s : Symbol) : bool :=
  among ["parameter"; "variable"]%string (sy_kind s) && (sy_qualified_name s =s name) &&
  bool_decide (sy_function_scope s = scope).
(** The symbol that such a node gets. *)
Record symbol_for (definitions : list DefinitionFact) (name : str) (scope : nat * nat) (s : Symbol) (node : Loc) : Prop := {
  sf_scope : sy_scope s = scope;
  sf_kind : sy_kind s = lit (if is_kind PARAMETER_KINDS node then "parameter" else "variable");
  sf_resolvable : sy_resolvable s = is_kind PARAMETER_KINDS node && (status =s lit "complete");
  sf_definition : definitions !! sy_definition s = Some (MkDef name (sy_kind s) (loc_start node) (loc_end node) None);
}.
Lemma symbol_for_grows definitions l name scope s node :
  symbol_for definitions name scope s node → symbol_for (definitions ++ l) name scope s node.
Proof. intros [? ? ? ?]. constructor; [done..|]. by apply lookup_app_l_Some. Qed.

(** What a step adds: definitions, the symbols of the binders, the globals. *)
Record step_locals (name : str) (scope : nat * nat) (nodes : list Loc) (st st' : PhpState) : Prop := {
  sl_definitions : ∃ l, fa_definitions st'.2 = fa_definitions st.2 ++ l;
  sl_symbols : ∃ l, List.filter (local_symbol name scope) (ct_symbols st'.1) =
    List.filter (local_symbol name scope) (ct_symbols st.1) ++ l ∧
    Forall2 (symbol_for (fa_definitions st'.2) name scope) l (List.filter (binds_name name scope) nodes);
  sl_globals : (scope, name) ∈ ct_uncertain_globals st'.1 ↔
    (scope, name) ∈ ct_uncertain_globals st.1 ∨ existsb (declares_global name scope) nodes = true;
}.
Lemma step_locals_refl name scope st : step_locals name scope [] st st.
Proof. constructor; [by exists []; rewrite app_nil_r|exists []; by rewrite app_nil_r|cbn; naive_solver]. Qed.
Lemma step_locals_trans name scope ns ms st1 st2 st3 :
  step_locals name scope ns st1 st2 → step_locals name scope ms st2 st3 → step_locals name scope (ns ++ ms) st1 st3.
Proof.
  intros [[l1 Hd1] (s1 & Hs1 & Hf1) Hg1] [[l2 Hd2] (s2 & Hs2 & Hf2) Hg2]. constructor.
  - exists (l1 ++ l2). by rewrite Hd2, Hd1, app_assoc.
  - exists (s1 ++ s2). split; [by rewrite Hs2, Hs1, app_assoc|]. rewrite List.filter_app. apply Forall2_app; [|done].
    eapply Forall2_impl; [exact Hf1|]. intros s node. rewrite Hd2. apply symbol_for_grows.
  - rewrite existsb_app, orb_true_iff, Hg2, Hg1. tauto.
Qed.

(** One definition, as the node [binder] or as no binder. *)
Lemma add_definition_locals name scope node token spelling kind container dscope resolvable st nodes :
  (∀ c, List.filter (binds_name name scope) nodes = c → c = [] ∧
     (existsb (String.eqb kind) ["parameter"; "variable"]%string = false ∨ spelling ≠ name ∨ function_scope node ≠ scope) ∨
     (c = [node] ∧ spelling = name ∧ function_scope node = scope ∧ dscope = scope ∧ container = None ∧
      kind = (if is_kind PARAMETER_KINDS node then "parameter" else "variable")%string ∧ resolvable = is_kind PARAMETER_KINDS node)) →
  existsb (declares_global name scope) nodes = false → name ≠ [] →
  step_locals name scope nodes st (add_definition status node token spelling kind container dscope resolvable st).2.
Proof.
  intros Hcase Hglobal Hname. specialize (Hcase _ eq_refl). unfold add_definition. case_bool_decide as Hs; cbn [snd].
  { destruct Hcase as [[Hnil _]|(_ & -> & _)]; [|done]. destruct (step_locals_refl name scope st) as [Hd Hsy Hg].
    constructor; [done|by rewrite Hnil|rewrite Hglobal; naive_solver]. }
  destruct st as [c f]. cbn [snd fst]. constructor; cbn [fst snd fa_definitions push_symbol ct_symbols ct_uncertain_globals].
  - by eexists.
  - rewrite List.filter_app. eexists. split; [done|]. cbn [List.filter]. unfold local_symbol, among.
    cbn [sy_kind sy_qualified_name sy_function_scope]. rewrite among_kind.
    destruct Hcase as [[-> Hnot]|(-> & -> & Hscope & -> & -> & -> & ->)].
    + destruct (existsb (String.eqb kind) ["parameter"; "variable"]%string) eqn:Hk; [|constructor]. cbn [andb].
      assert (Hq : existsb (String.eqb kind) QUALIFIED_KINDS = false).
      { cbn in Hk. rewrite orb_false_r in Hk. apply orb_true_iff in Hk as [Hk|Hk]; apply String.eqb_eq in Hk as ->; done. }
      rewrite Hq. destruct Hnot as [?|[Hn|Hn]]; [done|by rewrite bool_decide_false by done|].
      rewrite andb_comm, bool_decide_false by done. constructor.
    + assert (Hq : existsb (String.eqb (if is_kind PARAMETER_KINDS node then "parameter" else "variable")) QUALIFIED_KINDS = false)
        by (by destruct (is_kind _ _)).
      rewrite Hq, !bool_decide_true by done.
      assert (Hl : existsb (String.eqb (if is_kind PARAMETER_KINDS node then "parameter" else "variable"))
          ["parameter"; "variable"]%string = true) by (by destruct (is_kind _ _)).
      rewrite Hl. cbn [andb]. constructor; [|constructor]. constructor; cbn; [done..|].
      by rewrite lookup_app_r, Nat.sub_diag by lia.
  - rewrite Hglobal. naive_solver.
Qed.

Lemma is_kind_disjoint ks ks' node :
  existsb (λ k, existsb (String.eqb k) ks') ks = false → is_kind ks node = true → is_kind ks' node = false.
Proof.
  unfold is_kind. intros Hd (k & Hin & Hk)%existsb_exists. bool_to_prop. rewrite Hk, among_kind.
  destruct (existsb (String.eqb k) ks') eqn:He; [|done].
  exfalso. rewrite (proj2 (existsb_exists _ _)) in Hd; [done|]. by exists k.
Qed.
(** A node of other kinds binds nothing. *)
Lemma not_binder ks name scope node :
  existsb (λ k, existsb (String.eqb k) (PARAMETER_KINDS ++ ["variable_name"; "global_declaration"]%string)) ks = false →
  is_kind ks node = true → binds_name name scope node = false ∧ declares_global name scope node = false.
Proof.
  intros Hd Hk. pose proof (is_kind_disjoint ks _ node Hd Hk) as Hn. unfold is_kind in Hn. rewrite existsb_app in Hn.
  apply orb_false_iff in Hn as [Hp Hn]. cbn [existsb] in Hn. apply orb_false_iff in Hn as [Hv Hn].
  apply orb_false_iff in Hn as [Hg _].
  unfold binds_name, declares_global, is_kind. rewrite Hp. cbn [existsb]. by rewrite Hv, Hg.
Qed.
Lemma step_locals_after name scope nodes st st' (c : Catalog) (f : Facts) :
  ct_symbols c = ct_symbols st'.1 → ct_uncertain_globals c = ct_uncertain_globals st'.1 →
  fa_definitions f = fa_definitions st'.2 → step_locals name scope nodes st st' → step_locals name scope nodes st (c, f).
Proof. intros Hs Hg Hd [? ? ?]. by constructor; cbn [fst snd]; rewrite ?Hs, ?Hg, ?Hd. Qed.
Lemma step_locals_none name scope node st :
  binds_name name scope node = false → declares_global name scope node = false → step_locals name scope [node] st st.
Proof.
  intros Hb Hg. constructor; [by exists []; rewrite app_nil_r|exists []; rewrite app_nil_r; cbn; by rewrite Hb|].
  cbn. rewrite Hg. naive_solver.
Qed.

Lemma define_other name scope node (nodes : list Loc) token spelling kind container dscope resolvable st :
  name ≠ [] → List.filter (binds_name name scope) nodes = [] → existsb (declares_global name scope) nodes = false →
  existsb (String.eqb kind) ["parameter"; "variable"]%string = false →
  step_locals name scope nodes st (add_definition status node token spelling kind container dscope resolvable st).2.
Proof.
  intros Hname Hb Hg Hk. apply add_definition_locals; [|done..]. intros c <-. left. split; [done|by left].
Qed.
Lemma add_parameter_locals name scope node st :
  name ≠ [] → is_kind PARAMETER_KINDS node = true → step_locals name scope [node] st (add_parameter source status node st).
Proof.
  intros Hname Hk.
  pose proof (is_kind_disjoint PARAMETER_KINDS ["variable_name"; "global_declaration"]%string node eq_refl Hk) as Hvg.
  cbn [is_kind existsb] in Hvg. apply orb_false_iff in Hvg as [Hv [Hg _]%orb_false_iff].
  assert (Hglobal : declares_global name scope node = false) by (unfold declares_global; cbn [is_kind existsb]; by rewrite Hg).
  assert (Hbind : binds_name name scope node =
     match field_child "name" node with Some n => text source n =s name | None => false end && bool_decide (function_scope node = scope)).
  { unfold binds_name. rewrite Hk. cbn [is_kind existsb]. rewrite Hv. cbn [andb orb]. by rewrite orb_false_r. }
  unfold add_parameter. destruct (field_child "name" node) as [n|]; [|by apply step_locals_none; [rewrite Hbind|]]. cbv zeta.
  pose proof (add_definition_locals name scope node n (text source n) "parameter" None (function_scope node) true st [node]) as Hstep.
  destruct (add_definition _ _ _ _ _ _ _ _ _) as [d st']. cbn [snd] in Hstep.
  assert (Hp : step_locals name scope [node] st st').
  { apply Hstep; [|by cbn; rewrite Hglobal|done]. intros c <-. cbn [List.filter]. rewrite Hbind, Hk.
    case_bool_decide as Ht; cbn [andb]; [|left; split; [done|by right; left]].
    case_bool_decide as Hs; [|left; split; [done|by right; right]]. right. by split_and!. }
  destruct (is_kind ["property_promotion_parameter"]%string node); [|done]. apply (step_locals_trans name scope [node] [] st st'); [done|]. by apply define_other.
Qed.
Lemma add_variable_locals name scope node st :
  name ≠ [] → is_kind ["variable_name"]%string node = true → is_variable_binding node = true →
  step_locals name scope [node] st (add_variable source status node st).
Proof.
  intros Hname Hk Hvb.
  assert (Hp : is_kind PARAMETER_KINDS node = false) by (by apply (is_kind_disjoint ["variable_name"]%string PARAMETER_KINDS node eq_refl Hk)).
  assert (Hg : declares_global name scope node = false).
  { unfold declares_global. by rewrite (is_kind_disjoint ["variable_name"]%string ["global_declaration"]%string node eq_refl Hk). }
  assert (Hbind : binds_name name scope node = (text source node =s name) &&
     negb ((name =s lit "$this") || among SUPERGLOBALS name) && bool_decide (function_scope node = scope)).
  { unfold binds_name. by rewrite Hp, Hk, Hvb. }
  unfold add_variable. cbv zeta.
  destruct ((text source node =s lit "$this") || among SUPERGLOBALS (text source node)) eqn:Hthis.
  { apply step_locals_none; [|done]. rewrite Hbind. destruct (bool_decide_reflect (text source node = name)) as [Ht|Ht]; [|done].
    by rewrite <-Ht, Hthis. }
  apply add_definition_locals; [|cbn; by rewrite Hg|done]. intros c <-. cbn [List.filter]. rewrite Hbind, Hp.
  destruct (bool_decide_reflect (text source node = name)) as [Ht|Ht]; cbn [andb]; [|left; split; [done|by right; left]].
  rewrite <-Ht, Hthis. cbn [negb andb].
  clear Hbind Hthis. case_bool_decide as Hs; [right; by split_and!|left; split; [done|by right; right]].
Qed.
Lemma add_import_locals name scope node st :
  name ≠ [] → binds_name name scope node = false → declares_global name scope node = false →
  step_locals name scope [node] st (add_import source status node st).
Proof.
  intros Hname Hb Hg. unfold add_import. destruct (find _ _) as [import|]; [|by apply step_locals_none].
  pose proof (define_other name scope node [node] node (im_alias import) "import" (nonempty (im_namespace import))
    (im_scope import) false st Hname ltac:(cbn; by rewrite Hb) ltac:(cbn; by rewrite Hg) eq_refl) as Hstep.
  destruct (add_definition _ _ _ _ _ _ _ _ _) as [d [c f]]. cbv zeta. by eapply step_locals_after; [..|exact Hstep].
Qed.
Lemma add_global_names_locals name scope node st :
  is_kind ["global_declaration"]%string node = true →
  step_locals name scope [node] st (add_global_names source node st).
Proof.
  intros Hk.
  assert (Hb : binds_name name scope node = false).
  { unfold binds_name. by rewrite (is_kind_disjoint ["global_declaration"]%string PARAMETER_KINDS node eq_refl Hk),
      (is_kind_disjoint ["global_declaration"]%string ["variable_name"]%string node eq_refl Hk). }
  unfold add_global_names. constructor; cbn [fst snd push_globals ct_symbols ct_uncertain_globals].
  - exists []. by rewrite app_nil_r.
  - exists []. rewrite app_nil_r. split; [done|]. cbn [List.filter]. by rewrite Hb.
  - rewrite elem_of_app. cbn [existsb]. rewrite orb_false_r. unfold declares_global. rewrite Hk. cbn [andb].
    rewrite list_elem_of_omap, andb_true_iff, bool_decide_eq_true, existsb_exists.
    split; (intros [Hold|Hnew]; [by left|right]).
    + destruct Hnew as (c & Hc & He). destruct (is_kind _ c) eqn:Hkc; [|done]. injection He as <- <-.
      split; [done|]. exists c. split; [by apply list_elem_of_In|]. by rewrite Hkc, bool_decide_true.
    + destruct Hnew as (Hs & c & Hc & He). bool_to_prop. exists c. split; [by apply list_elem_of_In|].
      destruct (is_kind _ c); [|done]. by rewrite Hs, <-H1.
Qed.

(** What a node of another kind may do. *)
Lemma other_node ks name scope node st :
  name ≠ [] → is_kind ks node = true →
  existsb (λ k, existsb (String.eqb k) (PARAMETER_KINDS ++ ["variable_name"; "global_declaration"]%string)) ks = false →
  step_locals name scope [node] st st ∧
  (∀ token spelling kind container dscope resolvable,
     existsb (String.eqb kind) ["parameter"; "variable"]%string = false →
     step_locals name scope [node] st (add_definition status node token spelling kind container dscope resolvable st).2) ∧
  step_locals name scope [node] st (add_import source status node st).
Proof.
  intros Hname Hk Hd. destruct (not_binder ks name scope node Hd Hk) as [Hb Hg]. split_and!.
  - by apply step_locals_none.
  - intros. apply define_other; [done|cbn; by rewrite Hb|cbn; by rewrite Hg|done].
  - by apply add_import_locals.
Qed.
Lemma define_after name scope node token spelling kind container dscope (change : nat → Catalog → Catalog) st :
  (∀ d c, ct_symbols (change d c) = ct_symbols c ∧ ct_uncertain_globals (change d c) = ct_uncertain_globals c) →
  step_locals name scope [node] st (add_definition status node token spelling kind container dscope false st).2 →
  step_locals name scope [node] st
    (let '(d, st) := add_definition status node token spelling kind container dscope false st in (change d st.1, st.2)).
Proof.
  intros Hch Hstep. destruct (add_definition _ _ _ _ _ _ _ _ _) as [d st'].
  destruct (Hch d st'.1). by eapply step_locals_after; [..|exact Hstep].
Qed.
Lemma declare_locals name scope node st :
  name ≠ [] → step_locals name scope [node] st (declare source status node st).
Proof.
  intros Hname. pose proof (λ ks, other_node ks name scope node st Hname) as Hother.
  pose proof (define_after name scope node) as Hafter.
  unfold declare.
  destruct (is_kind ["namespace_definition"]%string node) eqn:Hk.
  { destruct (Hother _ Hk eq_refl) as (Hnone & Hdef & _). unfold add_namespace. destruct (field_child _ _); [by apply Hdef|done]. }
  clear Hk.
  do 4 (destruct (is_kind _ node) eqn:Hk;
    [destruct (Hother _ Hk eq_refl) as (Hnone & Hdef & _); unfold add_named_type; destruct (field_child _ _); [|done];
     apply (Hafter _ _ _ _ _ (insert_class (loc_start node))); [done|by apply Hdef]|clear Hk]).
  destruct (is_kind ["function_definition"]%string node) eqn:Hk.
  { destruct (Hother _ Hk eq_refl) as (Hnone & Hdef & _). unfold add_function. destruct (field_child _ _); [|done].
    apply (Hafter _ _ _ _ _ (insert_owner (loc_start node))); [done|by apply Hdef]. }
  clear Hk. destruct (is_kind ["method_declaration"]%string node) eqn:Hk.
  { destruct (Hother _ Hk eq_refl) as (Hnone & Hdef & _). unfold add_method. destruct (field_child _ _); [|done].
    apply (Hafter _ _ _ _ _ (insert_owner (loc_start node))); [done|by apply Hdef]. }
  clear Hk. destruct (is_kind ["namespace_use_clause"]%string node) eqn:Hk; [by apply (Hother _ Hk eq_refl)|clear Hk].
  destruct (is_kind ["property_element"]%string node) eqn:Hk.
  { destruct (Hother _ Hk eq_refl) as (Hnone & Hdef & _). unfold add_property. destruct (field_child _ _); [by apply Hdef|done]. }
  clear Hk. destruct (is_kind ["const_element"]%string node) eqn:Hk.
  { destruct (Hother _ Hk eq_refl) as (Hnone & Hdef & _). unfold add_constant. destruct (find _ _); [|done].
    destruct (match class_node node with Some _ => _ | None => _ end) as [container dscope]. by apply Hdef. }
  clear Hk. destruct (is_kind ["enum_case"]%string node) eqn:Hk.
  { destruct (Hother _ Hk eq_refl) as (Hnone & Hdef & _). unfold add_enum_case. destruct (field_child _ _); [by apply Hdef|done]. }
  clear Hk. destruct (is_kind ["simple_parameter"; "variadic_parameter"; "property_promotion_parameter"]%string node) eqn:Hp.
  { by apply add_parameter_locals. }
  destruct (is_kind ["global_declaration"]%string node) eqn:Hg; [by apply add_global_names_locals|].
  destruct (is_kind ["variable_name"]%string node && is_variable_binding node) eqn:Hv.
  { apply andb_true_iff in Hv as [Hv Hb]. by apply add_variable_locals. }
  apply step_locals_none; [|unfold declares_global; by rewrite Hg]. unfold binds_name, PARAMETER_KINDS. rewrite Hp.
  cbn [andb orb]. by rewrite Hv.
Qed.
Lemma foldl_locals name scope nodes st :
  name ≠ [] → step_locals name scope nodes st (foldl (λ st node, declare source status node st) st nodes).
Proof.
  intros Hname. revert st. induction nodes as [|node nodes IH]; intros st; [apply step_locals_refl|]. cbn [foldl].
  apply (step_locals_trans name scope [node] nodes st (declare source status node st)); [by apply declare_locals|apply IH].
Qed.

Lemma settle_fields globals s :
  sy_scope (settle_symbol globals s) = sy_scope s ∧ sy_kind (settle_symbol globals s) = sy_kind s ∧
  sy_definition (settle_symbol globals s) = sy_definition s ∧
  sy_resolvable (settle_symbol globals s) =
    if (sy_kind s =s lit "parameter") && bool_decide ((sy_function_scope s, sy_qualified_name s) ∈ globals)
    then false else sy_resolvable s.
Proof. unfold settle_symbol. by destruct (_ && _). Qed.
(** The symbols of a name in a function are those of the nodes that bind it. *)
Lemma locals_exact root name scope :
  name ≠ [] →
  let st := collect_declarations source status root in
  let nodes := named_walk SKIPPED (here root) (above root) in
  let global := existsb (declares_global name scope) nodes in
  Forall2 (λ s node,
      sy_scope s = scope ∧ sy_kind s = lit (if is_kind PARAMETER_KINDS node then "parameter" else "variable") ∧
      sy_resolvable s = is_kind PARAMETER_KINDS node && (status =s lit "complete") && negb global ∧
      fa_definitions st.2 !! sy_definition s = Some (MkDef name (sy_kind s) (loc_start node) (loc_end node) None))
    (List.filter (local_symbol name scope) (ct_symbols st.1)) (List.filter (binds_name name scope) nodes).
Proof.
  intros Hname. cbv zeta. unfold collect_declarations. cbv zeta. set (nodes := named_walk _ _ _).
  set (st0 := (MkCatalog _ _ _ _ _ _ _, _)). pose proof (foldl_locals name scope nodes st0 Hname) as [_ (l & Hl & Hf) Hg].
  unfold PhpState in *. destruct (foldl _ st0 nodes) as [c f]. cbn [fst snd ct_symbols ct_uncertain_globals] in *. subst st0.
  cbn [fst ct_symbols ct_uncertain_globals List.filter app] in Hl, Hg.
  set (globals := ct_uncertain_globals c) in *.
  assert (Hglobal : bool_decide ((scope, name) ∈ globals) = existsb (declares_global name scope) nodes).
  { apply eq_true_iff_eq. rewrite bool_decide_eq_true, Hg. split; [intros [?%elem_of_nil|?]; done|by right]. }
  assert (Hsettle : List.filter (local_symbol name scope) (settle_symbol globals <$> ct_symbols c) = settle_symbol globals <$> l).
  { rewrite <-Hl. generalize (ct_symbols c). intros ss. induction ss as [|s ss IH]; [done|]. cbn [fmap list_fmap List.filter].
    assert (Hs : local_symbol name scope (settle_symbol globals s) = local_symbol name scope s)
      by (unfold settle_symbol; by destruct (_ && _)).
    rewrite Hs. destruct (local_symbol name scope s); [cbn [fmap list_fmap]; by f_equal|done]. }
  rewrite Hsettle. apply Forall2_fmap_l.
  assert (Hlocal : Forall (λ s, local_symbol name scope s = true) l).
  { rewrite <-Hl. apply Forall_forall. intros s Hs. by apply list_elem_of_In, filter_In in Hs as [_ ?]. }
  clear Hl Hsettle Hg. revert Hlocal. induction Hf as [|s node l nodes' [Hsc Hk Hr Hd] Hf IH]; intros Hlocal; [constructor|].
  apply Forall_cons in Hlocal as [Hs Hlocal]. constructor; [|by apply IH]. unfold local_symbol in Hs. bool_to_prop.
  unfold compose. cbn beta. destruct (settle_fields globals s) as (-> & -> & -> & ->). rewrite <-Hglobal.
  replace (sy_function_scope s, sy_qualified_name s) with (scope, name) by congruence.
  rewrite Hr, Hk, lit_eq. rewrite Hk in Hd. split_and!; [done..| |done].
  destruct (is_kind PARAMETER_KINDS node), (bool_decide ((scope, name) ∈ globals)), (status =s lit "complete"); done.
Qed.

(** The namespaces and imports of a file are those it started with. *)
Definition same_context (st st' : PhpState) : Prop :=
  ct_regions st'.1 = ct_regions st.1 ∧ ct_imports st'.1 = ct_imports st.1.
Lemma add_definition_context node token spelling kind container dscope resolvable st :
  same_context st (add_definition status node token spelling kind container dscope resolvable st).2.
Proof. unfold add_definition. case_bool_decide; [done|]. by destruct st. Qed.
Lemma declare_context node st : same_context st (declare source status node st).
Proof.
  assert (Hdef : ∀ token spelling kind container dscope resolvable st,
      same_context st (add_definition status node token spelling kind container dscope resolvable st).2).
  { intros. apply add_definition_context. }
  assert (Hthen : ∀ token spelling kind container dscope resolvable (change : nat → Catalog → Catalog),
      (∀ d c, ct_regions (change d c) = ct_regions c ∧ ct_imports (change d c) = ct_imports c) →
      same_context st
        (let '(d, st) := add_definition status node token spelling kind container dscope resolvable st in (change d st.1, st.2))).
  { intros token spelling kind container dscope resolvable change Hch.
    pose proof (Hdef token spelling kind container dscope resolvable st) as [Hr Hi].
    destruct (add_definition _ _ _ _ _ _ _ _ _) as [d st']. destruct (Hch d st'.1) as [Hr' Hi'].
    split; cbn [fst]; [by rewrite Hr'|by rewrite Hi']. }
  assert (Htype : ∀ kind, same_context st (add_named_type source status node kind st)).
  { intros kind. unfold add_named_type. destruct (field_child _ _); [|done]. by apply (Hthen _ _ _ _ _ _ (insert_class (loc_start node))). }
  unfold declare, add_namespace, add_function, add_method, add_property, add_constant, add_enum_case, add_variable, add_global_names.
  destruct (is_kind _ node); [by destruct (field_child _ _)|].
  do 4 (destruct (is_kind _ node); [apply Htype|]).
  do 2 (destruct (is_kind _ node); [destruct (field_child _ _); [|done]; by apply (Hthen _ _ _ _ _ _ (insert_owner (loc_start node)))|]).
  destruct (is_kind _ node).
  { unfold add_import. destruct (find _ _) as [import|]; [|done].
    pose proof (Hdef node (im_alias import) "import"%string (nonempty (im_namespace import)) (im_scope import) false st) as Hctx.
    by destruct (add_definition _ _ _ _ _ _ _ _ _) as [d [c f]]. }
  destruct (is_kind _ node); [by destruct (field_child _ _)|].
  destruct (is_kind _ node).
  { destruct (find _ _); [|done]. by destruct (match class_node node with Some _ => _ | None => _ end). }
  destruct (is_kind _ node); [by destruct (field_child _ _)|].
  destruct (is_kind _ node).
  { unfold add_parameter. destruct (field_child _ _) as [n|]; [|done]. cbv zeta.
    pose proof (Hdef n (text source n) "parameter"%string None (function_scope node) true st) as [Hr Hi].
    destruct (add_definition _ _ _ _ _ _ _ _ _) as [d st'] eqn:Hst. cbn [snd] in Hr, Hi. destruct (is_kind _ node); [|done].
    split; etrans; [apply Hdef|done|apply Hdef|done]. }
  destruct (is_kind _ node); [done|]. destruct (_ && _); [|done]. cbv zeta. by destruct (_ || _).
Qed.
Lemma collect_context root :
  let st := collect_declarations source status root in
  ct_regions st.1 = namespace_regions source root ∧
  ct_imports st.1 = collect_imports source (namespace_regions source root) root.
Proof.
  cbv zeta. unfold collect_declarations. cbv zeta. set (st0 := (MkCatalog _ _ _ _ _ _ _, _)).
  assert (Hctx : ∀ nodes st, same_context st (foldl (λ st node, declare source status node st) st nodes)).
  { intros nodes. induction nodes as [|node nodes IH]; intros st; [done|]. cbn [foldl].
    destruct (IH (declare source status node st)) as [Hr Hi]. destruct (declare_context node st) as [Hr' Hi'].
    split; [by rewrite Hr|by rewrite Hi]. }
  pose proof (Hctx (named_walk SKIPPED (here root) (above root)) st0) as [Hr Hi]. unfold PhpState in *.
  by destruct (foldl _ st0 _) as [c f].
Qed.
End Locals.

(** ** The properties *)

Lemma in_function_scope root source l :
  wf_node root = true → placed root l → text source l ≠ [] → contains_pos (loc_start l) (function_scope l) = true.
Proof.
  intros Hwf Hl Ht%text_nonempty. unfold function_scope, ancestor. destruct (find _ _) as [a|] eqn:Ha; cbn [default id].
  - apply find_some in Ha as [Ha%list_elem_of_In _]. apply elem_of_cons in Ha as [->|Ha].
    + unfold contains_pos, byte_range. cbn [fst snd]. apply andb_true_iff. rewrite Nat.leb_le, Nat.ltb_lt. lia.
    + pose proof (ancestor_around root l a Hwf Hl Ha). unfold contains_pos, byte_range. cbn [fst snd].
      apply andb_true_iff. rewrite Nat.leb_le, Nat.ltb_lt. lia.
  - unfold contains_pos, byte_range. cbn [fst snd]. apply andb_true_iff. rewrite Nat.leb_le, Nat.ltb_lt. lia.
Qed.
Lemma filter_filter {A} (f g : A → bool) (l : list A) :
  Forall (λ x, g x = true) (List.filter f l) → List.filter (λ x, f x && g x) l = List.filter f l.
Proof.
  induction l as [|x l IH]; [done|]. cbn [List.filter]. destruct (f x); [|exact IH].
  intros [Hx Hl]%Forall_cons. rewrite Hx. cbn [andb]. by rewrite IH.
Qed.

(** What an extraction promises to the index. *)
Record php_sound (source : str) (e : FileExtraction) : Prop := {
  php_definitions : Forall (λ d, df_name d ≠ [] ∧ df_start d ≤ df_end d ≤ length source) (ex_definitions e);
  php_occurrences : Forall (λ o, oc_start o ≤ oc_end o ≤ length source ∧
    (∀ d, oc_target o = Some d → is_Some (ex_definitions e !! d) ∧ oc_candidates o = []) ∧
    (∀ d, d ∈ oc_candidates o → is_Some (ex_definitions e !! d))) (ex_occurrences e);
  php_occurrences_sorted : StronglySorted (cmp_le span_order) (ex_occurrences e);
  php_relationships : Forall (λ r, re_evidence_start r ≤ re_evidence_end r ≤ length source ∧
    indexes (ex_definitions e) (re_source r) ∧ (∀ d, re_target r = Some d → indexes (ex_definitions e) d)) (ex_relationships e);
  php_relationships_sorted : StronglySorted (cmp_le relationship_order) (ex_relationships e);
}.
(** The definitions that are classes of a name. *)
Definition names_class (name : str) (d : DefinitionFact) : bool :=
  among ["class"; "interface"; "trait"; "enum"]%string (df_kind d) &&
  eq_ignore_ascii_case (trim_backslashes (qualified_name_of d)) (trim_backslashes name).

Section Tree.
Context `{UnicodeTables} (has_error : Loc → bool) (source status : str) (root : Node).
Context (Hwf : wf_node root = true) (Hlen : nd_end root ≤ length source).
Let walk := named_walk SKIPPED root [].
Let declared := collect_declarations source status (root_loc root).
Let extraction := extract_php_tree has_error status root source.

Lemma tree_extraction :
  ex_definitions extraction = fa_definitions declared.2 ∧
  Forall (λ o, occurrence_sound root (ex_definitions extraction) o ∧
    (declares o ∨ observed root source status declared.1 (fa_definitions declared.2) o)) (ex_occurrences extraction) ∧
  StronglySorted (cmp_le span_order) (ex_occurrences extraction) ∧
  Forall (relationship_sound root (ex_definitions extraction)) (ex_relationships extraction) ∧
  StronglySorted (cmp_le relationship_order) (ex_relationships extraction).
Proof.
  pose proof (collect_declarations_sound root source status) as [Hc Hf Hd]. fold declared in Hc, Hf, Hd.
  unfold extraction, extract_php_tree. cbv zeta. fold declared. destruct declared as [catalog facts]. cbn [fst snd] in *.
  assert (Href : referred root source status catalog (fa_definitions facts) facts).
  { constructor; [done..|]. eapply Forall_impl; [exact Hd|]. by left. }
  destruct (collect_referred root source status catalog (fa_definitions facts) Hc has_error (negb (status =s lit "complete")) facts Href)
    as [Hdefs [_ Ho Hr] Hobs].
  rewrite Hdefs in *. cbn [ex_definitions ex_occurrences ex_relationships]. split_and!; [done| | | |].
  - apply Forall_forall. intros o Hin%elem_of_sort_by. rewrite Forall_forall in Ho, Hobs. split; [by apply Ho|by apply Hobs].
  - apply sort_by_sorted. apply _.
  - apply Forall_forall. intros r Hin%elem_of_sort_by. rewrite Forall_forall in Hr. by apply Hr.
  - apply sort_by_sorted. apply _.
Qed.
Lemma tree_sound : php_sound source extraction.
Proof.
  destruct tree_extraction as (Hd & Ho & Hos & Hr & Hrs).
  pose proof (collect_declarations_sound root source status) as [_ [Hf _ _] _]. fold declared in Hf. rewrite <-Hd in Hf.
  constructor; [| |done| |done].
  - eapply Forall_impl; [exact Hf|]. intros d [Hn Hs%(span_in_source source root Hwf Hlen)]. by split.
  - eapply Forall_impl; [exact Ho|]. intros o [[Hs%(span_in_source source root Hwf Hlen) Ht Hc] _]. split; [exact Hs|]. split; [exact Ht|exact Hc].
  - eapply Forall_impl; [exact Hr|]. intros r [Hs%(span_in_source source root Hwf Hlen) Hi Ht]. split; [exact Hs|]. split; [exact Hi|exact Ht].
Qed.

(** The symbols that bind a variable, through the nodes of the tree. *)
Lemma bindings_exact node :
  placed root node → text source node ≠ [] →
  let name := text source node in
  let scope := function_scope node in
  Forall2 (λ s p,
      sy_kind s = lit (if is_kind PARAMETER_KINDS p then "parameter" else "variable") ∧
      sy_resolvable s = is_kind PARAMETER_KINDS p && (status =s lit "complete") && negb (existsb (declares_global source name scope) walk) ∧
      fa_definitions declared.2 !! sy_definition s = Some (MkDef name (sy_kind s) (loc_start p) (loc_end p) None))
    (bindings_of source declared.1 node) (List.filter (binds_name source name scope) walk).
Proof.
  intros Hn Hname. cbv zeta. pose proof (locals_exact source status (root_loc root) _ (function_scope node) Hname) as Hl.
  cbv zeta in Hl. fold declared in Hl. cbn [here above root_loc] in Hl. fold walk in Hl. unfold bindings_of.
  assert (Hb : List.filter (binds (text source node) (function_scope node) (loc_start node)) (ct_symbols declared.1) =
      List.filter (local_symbol (text source node) (function_scope node)) (ct_symbols declared.1)).
  { apply (filter_filter (local_symbol (text source node) (function_scope node)) (λ s, contains_pos (loc_start node) (sy_scope s))).
    eapply Forall2_Forall_l; [exact Hl|]. apply Forall_forall. intros p _ s (-> & _). by apply (in_function_scope root source). }
  rewrite Hb. eapply Forall2_impl; [exact Hl|]. intros s p (_ & Hk & Hr & Hd). done.
Qed.
Lemma local_target_some matching d : local_target status matching = Some d ↔
  ∃ s, matching = [s] ∧ status = lit "complete" ∧ sy_kind s = lit "parameter" ∧ sy_resolvable s = true ∧ sy_definition s = d.
Proof.
  unfold local_target. split.
  - destruct matching as [|s [|]]; try done. destruct (_ && _) eqn:Hb; [|done]. intros [= <-]. bool_to_prop. by exists s.
  - intros (s & -> & Hst & Hk & Hr & <-). by rewrite !bool_decide_true, Hr by done.
Qed.
Lemma variable_target node d :
  placed root node → text source node ≠ [] →
  let name := text source node in
  let scope := function_scope node in
  local_target status (bindings_of source declared.1 node) = Some d →
  ∃ p, List.filter (binds_name source name scope) walk = [p] ∧
    fa_definitions declared.2 !! d = Some (MkDef name (lit "parameter") (loc_start p) (loc_end p) None).
Proof.
  intros Hn Hname. cbv zeta. pose proof (bindings_exact node Hn Hname) as Hf. cbv zeta in Hf.
  intros (s & Hs & _ & Hk & _ & <-)%local_target_some. rewrite Hs in Hf. apply Forall2_cons_inv_l in Hf as (p & l & (_ & _ & Hd) & Hf & Hp).
  apply Forall2_nil_inv_l in Hf as ->. exists p. split; [done|]. by rewrite Hd, Hk.
Qed.
Lemma variable_resolves node :
  placed root node → text source node ≠ [] →
  let name := text source node in
  let scope := function_scope node in
  is_Some (local_target status (bindings_of source declared.1 node)) ↔
  status = lit "complete" ∧ existsb (declares_global source name scope) walk = false ∧
  ∃ p, List.filter (binds_name source name scope) walk = [p] ∧ is_kind PARAMETER_KINDS p = true.
Proof.
  intros Hn Hname. cbv zeta. pose proof (bindings_exact node Hn Hname) as Hf. cbv zeta in Hf. split.
  - intros (d & (s & Hs & Hst & Hk & Hr & <-)%local_target_some). rewrite Hs in Hf.
    apply Forall2_cons_inv_l in Hf as (p & l & (_ & Hrp & _) & Hf & Hp). apply Forall2_nil_inv_l in Hf as ->.
    rewrite Hr in Hrp. symmetry in Hrp. bool_to_prop. split_and!; [done..|]. by exists p.
  - intros (Hst & Hg & p & Hp & Hk). rewrite Hp in Hf. apply Forall2_cons_inv_r in Hf as (s & l & (Hks & Hr & _) & Hf & Hs).
    apply Forall2_nil_inv_r in Hf as ->. exists (sy_definition s). apply local_target_some. exists s.
    rewrite Hk in Hks. rewrite Hk, Hg, Hst, bool_decide_true in Hr by done. by split_and!.
Qed.

(** The candidates of a type are the classes of its name. *)
Lemma class_candidates name :
  candidates_for_type declared.1 name =
  take 64 (List.filter (λ d, match fa_definitions declared.2 !! d with Some def => names_class name def | None => false end)
             (seq 0 (length (fa_definitions declared.2)))).
Proof.
  pose proof (collect_declarations_sound root source status) as [[_ Hl Hs _ _] _ _]. fold declared in Hl, Hs.
  unfold candidates_for_type, candidates_of. f_equal. set (defs := fa_definitions declared.2) in *.
  set (symbols := ct_symbols declared.1) in *. clearbody defs symbols. rewrite <-Hl. clear Hl.
  assert (Hgen : ∀ ss k, (∀ i s, ss !! i = Some s → symbol_of defs (k + i) s) →
     sy_definition <$> List.filter (type_candidate (trim_backslashes name)) ss =
     List.filter (λ d, match defs !! d with Some def => names_class name def | None => false end) (seq k (length ss))).
  { intros ss. induction ss as [|s ss IH]; intros k Hss; [done|]. cbn [length seq List.filter].
    pose proof (Hss 0 s eq_refl) as (Hd & def & Hdef & Hk & Hq). rewrite Nat.add_0_r in Hd, Hdef. rewrite Hdef.
    assert (Hn : names_class name def = type_candidate (trim_backslashes name) s)
      by (unfold names_class, type_candidate; by rewrite Hk, Hq).
    rewrite Hn. specialize (IH (S k)). destruct (type_candidate _ s); [cbn [fmap list_fmap]; rewrite Hd; f_equal|]; apply IH;
      intros i s' Hi; specialize (Hss (S i) s' Hi); by rewrite Nat.add_succ_r in Hss. }
  apply (Hgen symbols 0). intros i s Hi. by apply Hs.
Qed.
End Tree.

Section Properties.
Context `{UnicodeTables} (parse_php : str → ParseOutcome) (has_error : Loc → bool).
(** The parser gives a tree over the source. *)
Definition php_parses_well : Prop :=
  ∀ source root error, parse_php source = Parsed root error → wf_node root = true ∧ nd_end root ≤ length source.

Lemma extract_php_cases budget source :
  let e := extract_php parse_php has_error budget source in
  ex_definitions e = [] ∧ ex_occurrences e = [] ∧ ex_relationships e = [] ∨
  ∃ root error, parse_php source = Parsed root error ∧
    e = extract_php_tree has_error (lit (if error : bool then "parse_error" else "complete")) root source.
Proof.
  cbv zeta. unfold extract_php. destruct (negb (utf8_valid source)); [by left|]. destruct (budget =? 0); [by left|].
  destruct (parse_php source) as [| |root error] eqn:Hp; [by left..|]. destruct (negb _); [by left|]. right. by exists root, error.
Qed.

(** An import with an empty alias, which only a tree with an error has, defines
    nothing, and what moves to the alias is the last occurrence of another node. *)
Lemma empty_alias_moves_last source status node st import :
  find (λ import, bool_decide (im_clause_span import = byte_range node)) (ct_imports st.1) = Some import →
  im_alias import = [] →
  let st' := add_import source status node st in
  fa_definitions st'.2 = fa_definitions st.2 ∧
  fa_occurrences st'.2 =
    move_last (alias_spelling source import) (im_alias_span import) (fa_occurrences st.2) ++
    [occurrence (im_target import) (im_target_span import) "import" None [] (import_provenance import)].
Proof.
  intros Hi Ha. cbv zeta. unfold add_import. rewrite Hi. unfold add_definition. rewrite Ha.
  rewrite bool_decide_true by done. by destruct st.
Qed.

(** Everything that the extraction of a PHP file records lies in the source:
    definitions have a name, targets and candidates are definitions of the file,
    relationships come from a definition (or from none, [usize::MAX]), and both
    lists are in the order of their positions. *)
Theorem php_extraction_sound (budget : nat) (source : str) (Hparse : php_parses_well) :
  php_sound source (extract_php parse_php has_error budget source).
Proof.
  destruct (extract_php_cases budget source) as [(Hd & Ho & Hr)|(root & error & Hp & ->)].
  - constructor; rewrite ?Hd, ?Ho, ?Hr; constructor.
  - destruct (Hparse source root error Hp). by apply tree_sound.
Qed.

(** C11. A variable of PHP resolves exactly to the parameter that binds it: its
    occurrence has a target just when the file parsed without an error, one node
    of the function binds the name, that node is a parameter, and the function
    does not declare the name global; the target is that parameter's definition. *)
Theorem php_variables_exact (budget : nat) (source : str) (root : Node) (error : bool) (o : Occurrence)
    (Hparse : php_parses_well) (Hp : parse_php source = Parsed root error)
    (Ho : o ∈ ex_occurrences (extract_php parse_php has_error budget source))
    (Hrole : oc_role o = lit "read") (Hname : oc_name o ≠ [])
    (Hvariable : oc_provenance o = lit "php_local_binding" ∨ oc_provenance o = lit "candidate_name") :
  let walk := named_walk SKIPPED root [] in
  ∃ node, placed root node ∧ oc_start o = loc_start node ∧ oc_end o = loc_end node ∧ oc_name o = text source node ∧
    let binders := List.filter (binds_name source (oc_name o) (function_scope node)) walk in
    (is_Some (oc_target o) ↔
      error = false ∧ existsb (declares_global source (oc_name o) (function_scope node)) walk = false ∧
      ∃ p, binders = [p] ∧ is_kind PARAMETER_KINDS p = true) ∧
    (∀ d, oc_target o = Some d → ∃ p, binders = [p] ∧
      ex_definitions (extract_php parse_php has_error budget source) !! d =
        Some (MkDef (oc_name o) (lit "parameter") (loc_start p) (loc_end p) None)).
Proof.
  cbv zeta. destruct (extract_php_cases budget source) as [(_ & Hnone & _)|(root' & error' & Hp' & He)].
  { rewrite Hnone in Ho. by apply elem_of_nil in Ho. }
  rewrite Hp in Hp'. injection Hp' as <- <-. rewrite He in *. clear He.
  destruct (Hparse source root error Hp) as [Hwf Hlen].
  set (status := lit (if error then "parse_error" else "complete")%string) in *.
  assert (Hst : status = lit "complete" ↔ error = false) by (unfold status; by destruct error).
  destruct (tree_extraction has_error source status root) as (Hd & Hobs & _).
  rewrite Forall_forall in Hobs. destruct (Hobs o Ho) as [_ [Hdecl|(node & Hn & Hs & Hen & Hcase)]].
  { exfalso. unfold declares in Hdecl. rewrite Hrole, !lit_inj in Hdecl. by destruct Hdecl. }
  destruct Hcase as [(_ & Hn' & _ & Ht & _)|[(Hr & _)|(_ & Hprov & _)]].
  2: { exfalso. by rewrite Hr, lit_inj in Hrole. }
  2: { exfalso. by destruct Hvariable as [Hv|Hv]; rewrite Hv in Hprov; unfold among in Hprov; rewrite among_kind in Hprov. }
  exists node. split_and!; [done..| |]; rewrite Ht, Hn' in *.
  - rewrite (variable_resolves source status root Hwf node Hn Hname), Hst. done.
  - intros d Hd'. rewrite Hd. by apply (variable_target source status root Hwf node d Hn Hname).
Qed.

(** The candidates of a type that a PHP file names are the classes, interfaces,
    traits and enums of that file with its canonical name, in order, the first
    64 of them; the canonical name comes from the namespace and the imports at
    the reference, and a name that is ambiguous or a generated placeholder has
    no candidates. *)
Theorem php_types_exact (budget : nat) (source : str) (root : Node) (error : bool) (o : Occurrence)
    (Hparse : php_parses_well) (Hp : parse_php source = Parsed root error)
    (Ho : o ∈ ex_occurrences (extract_php parse_php has_error budget source)) (Hrole : oc_role o = lit "type") :
  let definitions := ex_definitions (extract_php parse_php has_error budget source) in
  let regions := namespace_regions source (root_loc root) in
  let imports := collect_imports source regions (root_loc root) in
  oc_target o = None ∧
  ∃ node, placed root node ∧ oc_start o = loc_start node ∧ oc_end o = loc_end node ∧
    (oc_provenance o = lit "php_fqcn" →
      canonical (text source node) (namespace_at regions (loc_start node)) imports "class" (loc_start node) = (oc_name o, true) ∧
      oc_candidates o = take 64 (List.filter
        (λ d, match definitions !! d with Some def => names_class (oc_name o) def | None => false end) (seq 0 (length definitions)))) ∧
    (oc_provenance o ≠ lit "php_fqcn" → oc_candidates o = []).
Proof.
  cbv zeta. destruct (extract_php_cases budget source) as [(_ & Hnone & _)|(root' & error' & Hp' & He)].
  { rewrite Hnone in Ho. by apply elem_of_nil in Ho. }
  rewrite Hp in Hp'. injection Hp' as <- <-. rewrite He in *. clear He.
  set (status := lit (if error then "parse_error" else "complete")%string) in *.
  destruct (tree_extraction has_error source status root) as (Hd & Hobs & _).
  rewrite Forall_forall in Hobs. destruct (Hobs o Ho) as [_ [Hdecl|(node & Hn & Hs & Hen & Hcase)]].
  { exfalso. unfold declares in Hdecl. rewrite Hrole, !lit_inj in Hdecl. by destruct Hdecl. }
  destruct Hcase as [(_ & _ & Hr & _)|[(_ & Ht & Hf & Hnf)|(Hr & _)]].
  1: { exfalso. by rewrite Hr, lit_inj in Hrole. }
  2: { exfalso. by destruct Hr as [Hr|Hr]; rewrite Hr, lit_inj in Hrole. }
  split; [done|]. exists node. split_and!; [done..| |done]. intros Hprov. destruct (Hf Hprov) as [Hc ->].
  destruct (collect_context source status (root_loc root)) as [Hregions Himports]. unfold canonical_at in Hc.
  rewrite Hregions, Himports in Hc. split; [done|]. rewrite Hd. apply class_candidates.
Qed.
End Properties.

Module PhpExample.
Definition node (kind : string) (field : option string) (start end_ : nat) (children : list Node) : Node :=
  MkNode (lit kind) true (lit <$> field) start end_ children.
Definition leaf (kind : string) (field : option string) (start end_ : nat) : Node := node kind field start end_ [].
(** A class, and one that extends it with a method that reads its parameter. *)
Definition source : str := lit "<?php class B{}class A extends B{function m($a){$a;}}".
Definition tree : Node :=
  node "program" None 0 53
    [leaf "php_tag" None 0 5;
     node "class_declaration" None 6 15 [leaf "name" (Some "name"%string) 12 13; leaf "declaration_list" (Some "body"%string) 13 15];
     node "class_declaration" None 15 53
       [leaf "name" (Some "name"%string) 21 22;
        node "base_clause" None 23 32 [leaf "name" None 31 32];
        node "declaration_list" (Some "body"%string) 32 53
          [node "method_declaration" None 33 52
            [leaf "name" (Some "name"%string) 42 43;
             node "formal_parameters" (Some "parameters"%string) 43 47
               [node "simple_parameter" None 44 46 [leaf "variable_name" (Some "name"%string) 44 46]];
             node "compound_statement" (Some "body"%string) 47 52
               [node "expression_statement" None 48 51 [leaf "variable_name" None 48 50]]]]]].
(** After an error a clause [use A as ;] has a missing alias. *)
Definition broken : str := lit "<?php class B{} use A as ;".
Definition broken_tree : Node :=
  node "program" None 0 26
    [leaf "php_tag" None 0 5;
     node "class_declaration" None 6 15 [leaf "name" (Some "name"%string) 12 13; leaf "declaration_list" (Some "body"%string) 13 15];
     node "namespace_use_declaration" None 16 26
       [node "namespace_use_clause" None 20 25 [leaf "name" None 20 21; leaf "name" (Some "alias"%string) 25 25]]].
(** The sources the parser knows; others it gives up. *)
Definition parse (s : str) : ParseOutcome :=
  if s =s source then Parsed tree false else if s =s broken then Parsed broken_tree true else Cancelled.
Definition no_error (_ : Loc) : bool := false.
Definition extraction : FileExtraction := extract_php parse no_error 1 source.

Lemma php_parses : php_parses_well parse.
Proof.
  intros s root error. unfold parse. case_bool_decide as Hs; [|case_bool_decide as Hb; [|done]]; intros [= <- <-];
    (split; [vm_compute; reflexivity|]); rewrite ?Hs, ?Hb; apply Nat.leb_le; vm_compute; reflexivity.
Qed.
(** The type [B] has the class as its candidate, [$a] is the parameter. *)
Example php_references :
  (λ o, (oc_start o, oc_end o, oc_target o, oc_candidates o)) <$>
    List.filter (λ o, negb (oc_role o =s lit "declaration")) (ex_occurrences extraction) =
  [(31, 32, None, [0]); (48, 50, Some 3, [])].
Proof. vm_compute. reflexivity. Qed.
Example missing_alias :
  (λ i, (im_alias i, im_alias_span i, im_clause_span i)) <$> collect_imports broken (namespace_regions broken (root_loc broken_tree)) (root_loc broken_tree)
  = [([], (25, 25), (20, 25))].
Proof. vm_compute. reflexivity. Qed.

Lemma php_extraction_sound_witness : php_sound source extraction ∧ length (ex_relationships extraction) = 5.
Proof. split; [exact (php_extraction_sound parse no_error 1 source php_parses)|vm_compute; reflexivity]. Defined.
Definition variable : Occurrence := MkOcc (lit "$a") 48 50 (lit "read") (Some 3) [] (lit "php_local_binding").
Lemma php_variables_exact_witness :
  ∃ node p, placed tree node ∧ loc_start node = 48 ∧ binds_name source (lit "$a") (function_scope node) p = true ∧
    ex_definitions extraction !! 3 = Some (MkDef (lit "$a") (lit "parameter") (loc_start p) (loc_end p) None).
Proof.
  unfold extraction.
  assert (Ho : variable ∈ ex_occurrences (extract_php parse no_error 1 source)) by (apply list_elem_of_In; vm_compute; tauto).
  destruct (php_variables_exact parse no_error 1 source tree false variable php_parses ltac:(vm_compute; reflexivity) Ho
    eq_refl ltac:(discriminate) (or_introl eq_refl)) as (node & Hn & Hs & _ & _ & _ & Ht).
  destruct (Ht 3 eq_refl) as (p & Hp & Hd). exists node, p. split; [exact Hn|]. split; [symmetry; exact Hs|]. split; [|exact Hd].
  assert (Hin : In p [p]) by (left; reflexivity). rewrite <-Hp in Hin. apply filter_In in Hin. apply Hin.
Defined.
Definition parent_type : Occurrence := MkOcc (lit "B") 31 32 (lit "type") None [0] (lit "php_fqcn").
Lemma php_types_exact_witness : ∃ node, placed tree node ∧ loc_start node = 31 ∧
  canonical (text source node) [] [] "class" (loc_start node) = (lit "B", true).
Proof.
  assert (Ho : parent_type ∈ ex_occurrences (extract_php parse no_error 1 source)) by (apply list_elem_of_In; vm_compute; tauto).
  destruct (php_types_exact parse no_error 1 source tree false parent_type php_parses ltac:(vm_compute; reflexivity) Ho eq_refl)
    as (_ & node & Hn & Hs & _ & Hf & _).
  exists node. split; [exact Hn|]. split; [symmetry; exact Hs|]. destruct (Hf eq_refl) as [Hc _].
  rewrite <-Hs in Hc |- *. exact Hc.
Defined.
End PhpExample.
