(* ===== verification/CSharp.v ===== *)
(** * Extraction of a C# file

    Models [src/src/extract/csharp.rs], [csharp/scopes.rs], [csharp/declarations.rs] and
    [csharp/references.rs]: the declarations of a tree with their scopes, and its
    references resolved over the index of [BindingIndex].  The parser with its
    time limit and the compilation of the query are parameters. *)
From Stdlib Require Import Ascii String ZArith Lia Sorted.
From stdpp Require Import base numbers list gmap strings sorting.
From S2P Require Import Prelude Order Text Collections QueryShape Diff Extract Aliases SyntaxTree Bindings BindingIndex.

(** ** Names and scopes *)

(** The kinds of node that bound the scope of a symbol. *)
Definition scope_kinds (kind : string) : list string :=
  if String.eqb kind "parameter" then
    ["method_declaration"; "constructor_declaration"; "local_function_statement"; "lambda_expression";
     "anonymous_method_expression"; "accessor_declaration"; "indexer_declaration"; "record_declaration";
     "delegate_declaration"]%string
  else if existsb (String.eqb kind) ["field"; "property"; "event"; "method"; "constructor"; "enum_member"]%string then
    ["declaration_list"; "enum_member_declaration_list"; "compilation_unit"]%string
  else if existsb (String.eqb kind)
            ["class"; "interface"; "struct"; "record"; "enum"; "delegate"; "namespace"]%string then
    ["declaration_list"; "compilation_unit"]%string
  else if String.eqb kind "type_parameter" then
    ["method_declaration"; "class_declaration"; "struct_declaration"; "record_declaration"; "interface_declaration";
     "delegate_declaration"]%string
  else
    ["block"; "for_statement"; "foreach_statement"; "catch_clause"; "switch_section"; "compilation_unit";
     "global_statement"]%string.
Definition binding_scope (node : Loc) (kind : string) : nat * nat :=
  if String.eqb kind "local" && is_kind ["foreach_statement"]%string node
  then byte_range (default node (field_child "body" node))
  else enclosing (scope_kinds kind) node.

Fixpoint identifier_tokens (n : Node) (up : list (Node * nat)) {struct n} : list Loc :=
  let node := MkLoc n up in
  if is_kind ["identifier"]%string node then [node]
  else
    (fix each (i : nat) (cs : list Node) : list Loc :=
       match cs with
       | [] => []
       | c :: cs => (if nd_named c then identifier_tokens c ((n, i) :: up) else []) ++ each (S i) cs
       end) 0 (nd_children n).
(** [ancestor]: the node or one above it is of this kind. *)
Definition ancestor (node : Loc) (kind : string) : bool := existsb (is_kind [kind]) (node :: ancestors node).
Definition has_conditional_ancestor (node : Loc) : bool :=
  existsb (λ l, starts_with (lit "preproc_") (nd_kind (here l))) (node :: ancestors node).
Definition join (parent : option str) (child : str) : str :=
  match parent with
  | Some parent => if parent =s [] then child else parent ++ ["."%char] ++ child
  | None => child
  end.

(** ** Declarations *)

Record CsState := MkCs {
  cs_definitions : list DefinitionFact;
  cs_bindings : list Binding;
  cs_occurrences : list Occurrence;
  cs_declarations : list (nat * nat);
  cs_owners : gmap nat nat;
}.
Definition TYPE_SYMBOLS : list string :=
  ["class"; "interface"; "struct"; "record"; "enum"; "delegate"; "type_parameter"; "namespace"]%string.
Definition OWNER_KINDS : list string :=
  ["method"; "constructor"; "function"; "property"; "field"; "event"]%string.
Definition CONTAINER_KINDS : list string :=
  ["class"; "interface"; "struct"; "record"; "enum"; "delegate"; "method"; "constructor"; "function"; "property";
   "field"; "event"]%string.
(** The kinds of node that declare a symbol by their field [name]. *)
Definition DECLARED_KINDS : list (string * string) :=
  [("class_declaration", "class"); ("interface_declaration", "interface"); ("struct_declaration", "struct");
   ("record_declaration", "record"); ("enum_declaration", "enum"); ("delegate_declaration", "delegate");
   ("method_declaration", "method"); ("constructor_declaration", "constructor");
   ("local_function_statement", "function"); ("property_declaration", "property"); ("event_declaration", "event");
   ("enum_member_declaration", "enum_member"); ("type_parameter", "type_parameter"); ("parameter", "parameter");
   ("catch_declaration", "local"); ("declaration_expression", "local")]%string.

Definition add_symbol (node name : Loc) (spelling : str) (kind : string) (container : option str) (namespaces : Z)
    (resolvable hoisted : bool) (st : CsState) : CsState :=
  if spelling =s [] then st
  else
    let definition := length (cs_definitions st) in
    let scope := binding_scope node kind in
    let token := byte_range name in
    MkCs
      (cs_definitions st ++ [MkDef spelling (lit kind) (loc_start node) (loc_end node) container])
      (cs_bindings st ++
         [MkBinding definition token scope (if hoisted then scope.1 else token.2)
            (resolvable && negb (has_conditional_ancestor node)) false None namespaces])
      (cs_occurrences st ++
         [MkOcc spelling token.1 token.2 (lit "declaration") (Some definition) [] (lit "syntax_declaration")])
      (cs_declarations st ++ [token])
      (if existsb (String.eqb kind) OWNER_KINDS then <[loc_start node := definition]> (cs_owners st) else cs_owners st).

Section Declarations.
Context `{UnicodeTables} (source : str).

Fixpoint display_name (n : Node) (up : list (Node * nat)) {struct n} : str :=
  let node := MkLoc n up in
  let below :=
    (fix each (i : nat) (cs : list Node) : list (Loc * str) :=
       match cs with
       | [] => []
       | c :: cs => (MkLoc c ((n, i) :: up), display_name c ((n, i) :: up)) :: each (S i) cs
       end) 0 (nd_children n) in
  let name_of field := snd <$> find (λ e, has_field field e.1) below in
  if is_kind ["qualified_name"]%string node then
    match name_of "qualifier"%string, name_of "name"%string with
    | Some qualifier, Some name => qualifier ++ ["."%char] ++ name
    | _, _ => trim (text source node)
    end
  else if is_kind ["alias_qualified_name"]%string node then
    match field_child "alias" node, name_of "name"%string with
    | Some alias, Some name => text source alias ++ lit "::" ++ name
    | _, _ => trim (text source node)
    end
  else trim (text source node).
Definition display (name : Loc) : str := display_name (here name) (above name).

(** The kind and the name of the symbol that a node declares. *)
Definition symbol_of (node : Loc) : option (string * Loc) :=
  if is_kind ["implicit_parameter"]%string node then Some ("parameter"%string, node)
  else if is_kind ["variable_declarator"]%string node then
    name ← field_child "name" node;
    Some (if ancestor node "event_field_declaration" then "event"
          else if ancestor node "field_declaration" then "field" else "local", name)%string
  else
    e ← find (λ e, is_kind [e.1] node) DECLARED_KINDS;
    name ← field_child "name" node;
    Some (e.2, name).
Definition add_foreach (node : Loc) (container : option str) (st : CsState) : CsState :=
  if is_kind ["foreach_statement"]%string node then
    match field_child "left" node with
    | Some tokens =>
        foldl (λ st name, add_symbol node name (text source name) "local" container 1 true false st) st
          (identifier_tokens (here tokens) (above tokens))
    | None => st
    end
  else st.
(** The turn of one node: the container of its children and the state, or
    nothing when the walk leaves the node out. *)
Definition declare (node : Loc) (container : option str) (st : CsState) : option (option str * CsState) :=
  if is_kind ["namespace_declaration"; "file_scoped_namespace_declaration"]%string node then
    name ← field_child "name" node;
    let label := display name in
    Some (Some (join container label), add_symbol node name label "namespace" container 2 false true st)
  else
    let st := add_foreach node container st in
    match symbol_of node with
    | Some (kind, name) =>
        let label := display name in
        let local := existsb (String.eqb kind) ["local"; "parameter"]%string in
        let st :=
          add_symbol node name label kind container (if existsb (String.eqb kind) TYPE_SYMBOLS then 2 else 1)
            (String.eqb kind "type_parameter" || local || String.eqb kind "function") (negb local) st in
        Some (if existsb (String.eqb kind) CONTAINER_KINDS then Some (join container label) else container, st)
    | None => Some (container, st)
    end.
(** After a namespace of the whole file the container is that namespace. *)
Definition after_child (child : Loc) (container : option str) : option str :=
  if is_kind ["file_scoped_namespace_declaration"]%string child then
    match field_child "name" child with Some name => Some (join container (display name)) | None => container end
  else container.
Fixpoint collect (n : Node) (up : list (Node * nat)) (container : option str) (st : CsState) {struct n} : CsState :=
  let node := MkLoc n up in
  if is_kind ["comment"]%string node then st
  else
    let unit := is_kind ["compilation_unit"]%string node in
    match (if unit then Some (container, st) else declare node container st) with
    | None => st
    | Some (container, st) =>
        (fix each (i : nat) (cs : list Node) (container : option str) (st : CsState) : CsState :=
           match cs with
           | [] => st
           | c :: cs =>
               if nd_named c then
                 each (S i) cs (if unit then after_child (MkLoc c ((n, i) :: up)) container else container)
                   (collect c ((n, i) :: up) container st)
               else each (S i) cs container st
           end) 0 (nd_children n) container st
    end.
End Declarations.

(** ** References *)

Record CsFacts := MkCsFacts { cf_occurrences : list Occurrence; cf_relationships : list RelationshipFact }.

Fixpoint terminal_name (n : Node) (up : list (Node * nat)) {struct n} : option Loc :=
  let node := MkLoc n up in
  let below :=
    (fix each (i : nat) (cs : list Node) : list (Loc * option Loc) :=
       match cs with
       | [] => []
       | c :: cs => (MkLoc c ((n, i) :: up), terminal_name c ((n, i) :: up)) :: each (S i) cs
       end) 0 (nd_children n) in
  let by_field field := find (λ e, has_field field e.1) below in
  if is_kind ["identifier"]%string node then Some node
  else if is_kind ["generic_name"]%string node then named_child 0 node
  else if is_kind ["member_access_expression"; "member_binding_expression"; "qualified_name"; "alias_qualified_name"]%string node
  then e ← by_field "name"%string; e.2
  else if is_kind ["parenthesized_expression"; "invocation_expression"]%string node then
    match by_field "function"%string with
    | Some e => e.2
    | None => e ← head (List.filter (λ e, loc_named e.1) below); e.2
    end
  else None.
Definition call_name (node : Loc) : bool :=
  match find (is_kind ["invocation_expression"]%string) (ancestors node) with
  | Some invocation =>
      match function ← field_child "function" invocation; terminal_name (here function) (above function) with
      | Some name => same_node name node
      | None => false
      end
  | None => false
  end.
Fixpoint field_above (field : string) (child : Loc) (up : list Loc) : bool :=
  match up with
  | [] => false
  | p :: up =>
      match field_child field p with Some f => same_node f child | None => false end || field_above field p up
  end.
Definition in_field (node : Loc) (field : string) : bool := field_above field node (ancestors node).
Definition type_reference (node : Loc) : bool :=
  ancestor node "type_pattern" || ancestor node "type_parameter_constraint" || ancestor node "type_argument_list" ||
  in_field node "type" || in_field node "returns".
Definition inherited (node : Loc) : bool := ancestor node "base_list" || ancestor node "record_base".
Definition imported (node : Loc) : bool := ancestor node "using_directive" || ancestor node "extern_alias_directive".
Definition qualified (node : Loc) : bool :=
  ancestor node "qualified_name" || ancestor node "alias_qualified_name" || ancestor node "member_access_expression" ||
  ancestor node "member_binding_expression".
Definition role_of (node : Loc) : string :=
  if imported node then "import"
  else if call_name node then "call"
  else if type_reference node || inherited node then "type" else "read".
Definition namespace_of (role : string) : Z := if String.eqb role "type" then 2 else 1.

Section Observe.
Context (source status : str) (index : BindingIndex) (declarations : list (nat * nat)) (owners : gmap nat nat).

(** A node within the last declaration that starts no later. *)
Definition declared (node : Loc) : bool :=
  match declarations !! (partition_point (λ range, range.1 <=? loc_start node) declarations - 1) with
  | Some range =>
      (0 <? partition_point (λ range, range.1 <=? loc_start node) declarations) && (loc_end node <=? range.2)
  | None => false
  end.
Definition target_of (node : Loc) (found : option nat) : option nat :=
  if qualified node || inherited node || imported node || negb (status =s lit "complete") then None else found.
Definition provenance_of (node : Loc) (target : option nat) (candidates : list nat) (limited : bool) : string :=
  if inherited node then "unresolved_inheritance"
  else match target with
       | Some _ => if call_name node then "direct_lexical_call" else "lexical_binding"
       | None =>
           if limited then "candidate_name_truncated"
           else match candidates with [] => "observed_syntax" | _ => "candidate_name" end
       end.
Definition call_owner (node : Loc) : option nat := head (omap (λ p, owners !! loc_start p) (ancestors node)).
Definition observe (node : Loc) (f : CsFacts) : CsFacts :=
  if declared node || ancestor node "comment" then f
  else
    let role := role_of node in
    let name := text source node in
    if name =s [] then f
    else
      let '(found, candidates, limited) := resolve index name node (namespace_of role) in
      let target := target_of node found in
      let provenance := lit (provenance_of node target candidates limited) in
      let relationships :=
        match (if call_name node then call_owner node else None) with
        | Some owner => [MkRel owner target (lit "calls") (loc_start node) (loc_end node) provenance]
        | None => []
        end in
      MkCsFacts
        (cf_occurrences f ++
           [MkOcc name (loc_start node) (loc_end node) (lit role) target
              match target with Some _ => [] | None => candidates end provenance])
        (cf_relationships f ++ relationships).
End Observe.

(** ** The extraction *)

Definition captures (root : Node) : list Loc :=
  List.filter (λ l, loc_named l && is_kind ["identifier"; "implicit_parameter"]%string l) (places [] root).
Definition by_position : Occurrence → Occurrence → comparison :=
  cmp_on (λ o, (oc_start o, oc_end o)) (pair_compare Nat.compare Nat.compare).
Definition csharp_failed (status : string) : FileExtraction := MkExt (lit "csharp") (lit status) [] [] [].

Section Extract.
Context `{UnicodeTables} (parse_csharp : str → ParseOutcome) (query_compiles : bool).

Definition extract_csharp_tree (status : str) (root : Node) (source : str) : FileExtraction :=
  let st := collect source root [] None (MkCs [] [] [] [] ∅) in
  let declarations := sort_by (pair_compare Nat.compare Nat.compare) (cs_declarations st) in
  let index := new_index (cs_bindings st) (cs_definitions st) in
  let f :=
    foldl (λ f node, observe source status index declarations (cs_owners st) node f)
      (MkCsFacts (cs_occurrences st) []) (captures root) in
  MkExt (lit "csharp") status (cs_definitions st) (sort_by by_position (cf_occurrences f)) (cf_relationships f).
Definition extract_csharp (budget : nat) (source : str) : FileExtraction :=
  if negb (utf8_valid source) then csharp_failed "invalid_encoding"
  else if budget =? 0 then csharp_failed "cancelled"
  else match parse_csharp source with
       | LanguageError => csharp_failed "incompatible_grammar"
       | Cancelled => csharp_failed "cancelled"
       | Parsed root error =>
           if negb query_compiles then csharp_failed "invalid_query"
           else if negb (height root <=? 256) then csharp_failed "depth_limit"
           else extract_csharp_tree (lit (if error then "parse_error" else "complete")) root source
       end.
End Extract.

(** ** What is declared *)

Section Sound.
Context (root : Node).

Lemma identifier_tokens_placed n up l : placed root (MkLoc n up) → l ∈ identifier_tokens n up → placed root l.
Proof.
  revert up. induction n as [n IH] using node_induction. intros up Hn Hl. destruct n as [k nm f a b cs].
  cbn [identifier_tokens nd_children] in *. set (n := MkNode k nm f a b cs) in *.
  destruct (is_kind _ _); [by apply list_elem_of_singleton in Hl as ->|].
  match type of Hl with _ ∈ ?each 0 _ => assert (Haux : ∀ ds i0, (∀ i c, ds !! i = Some c → cs !! (i0 + i) = Some c) →
      Forall (λ c, ∀ up, placed root (MkLoc c up) → l ∈ identifier_tokens c up → placed root l) ds →
      l ∈ each i0 ds → placed root l) end.
  { intros ds. induction ds as [|d ds IHd]; intros i0 Hi Hf Hin; [by apply elem_of_nil in Hin|].
    apply Forall_cons in Hf as [Hd Hf]. apply elem_of_app in Hin as [Hin|Hin].
    - destruct (nd_named d); [|by apply elem_of_nil in Hin]. eapply Hd; [|exact Hin].
      apply (placed_child root (MkLoc n up)); [done|]. specialize (Hi 0 d eq_refl). by rewrite Nat.add_0_r in Hi.
    - apply (IHd (S i0)); [|exact Hf|exact Hin]. intros i c Hc. specialize (Hi (S i) c Hc). by rewrite Nat.add_succ_r in Hi. }
  by apply (Haux cs 0).
Qed.
Lemma binding_scope_placed node kind : placed root node → spans root (binding_scope node kind).
Proof.
  intros Hn. unfold binding_scope. destruct (_ && _).
  - destruct (field_child "body" node) as [body|] eqn:Hb; [|by apply node_spans]. apply node_spans.
    exact (placed_field _ _ _ _ Hn Hb).
  - destruct (enclosing_placed root (scope_kinds kind) node Hn) as (a & Ha & -> & _). by apply node_spans.
Qed.

(** A definition and its binding come together. *)
Record binding_sound (i : nat) (b : Binding) : Prop := {
  bns_definition : bd_definition b = i;
  bns_scope : spans root (bd_scope b);
  bns_blocks : bd_blocks_before b = false;
}.
Definition declares (definitions : list DefinitionFact) (o : Occurrence) : Prop :=
  spans root (oc_start o, oc_end o) ∧ oc_role o = lit "declaration" ∧ oc_candidates o = [] ∧
  ∃ d def, oc_target o = Some d ∧ definitions !! d = Some def ∧ df_name def = oc_name o.
Definition owner_in (definitions : list DefinitionFact) (d : nat) : Prop :=
  ∃ def, definitions !! d = Some def ∧ existsb (λ k, df_kind def =s lit k) OWNER_KINDS = true.
Record cs_sound (st : CsState) : Prop := {
  css_length : length (cs_bindings st) = length (cs_definitions st);
  css_bindings : ∀ i b, cs_bindings st !! i = Some b → binding_sound i b;
  css_definitions : Forall (λ d, df_name d ≠ [] ∧ spans root (df_start d, df_end d)) (cs_definitions st);
  css_occurrences : Forall (declares (cs_definitions st)) (cs_occurrences st);
  css_owners : map_Forall (λ _, owner_in (cs_definitions st)) (cs_owners st);
}.
Lemma add_symbol_sound node name spelling kind container namespaces resolvable hoisted st :
  placed root node → placed root name → cs_sound st →
  cs_sound (add_symbol node name spelling kind container namespaces resolvable hoisted st).
Proof.
  intros Hn Hname Hst. unfold add_symbol. case_bool_decide as Hs; [done|]. destruct Hst as [Hl Hb Hd Ho Hw].
  set (d := MkDef _ _ _ _ _).
  assert (Hlast : (cs_definitions st ++ [d]) !! length (cs_definitions st) = Some d)
    by (by rewrite lookup_app_r, Nat.sub_diag by lia).
  constructor; cbn [cs_bindings cs_definitions cs_occurrences cs_owners].
  - rewrite !length_app, Hl. done.
  - intros i b [Hi|[Hge Hi]]%lookup_app_Some; [by apply Hb|]. apply list_lookup_singleton_Some in Hi as [Hz <-].
    constructor; cbn; [lia|by apply binding_scope_placed|done].
  - apply Forall_app. split; [done|]. constructor; [|done]. split; [done|by apply node_spans].
  - apply Forall_app. split.
    + eapply Forall_impl; [exact Ho|]. intros o (Hsp & Hr & Hc & x & def & Ht & Hx & Hnm). split_and!; [done..|].
      exists x, def. split_and!; [done|by apply lookup_app_l_Some|done].
    + constructor; [|done]. split_and!; [by apply node_spans|done..|]. by exists (length (cs_definitions st)), d.
  - assert (Hold : map_Forall (λ _, owner_in (cs_definitions st ++ [d])) (cs_owners st)).
    { eapply map_Forall_impl; [exact Hw|]. intros _ x (def & Hx & Hk). exists def. split; [by apply lookup_app_l_Some|done]. }
    destruct (existsb _ OWNER_KINDS) eqn:Hk; [|done]. apply map_Forall_insert_2; [|done]. exists d. split; [done|].
    unfold d. cbn [df_kind]. by rewrite among_kind.
Qed.

Context `{UnicodeTables} (source : str).
Lemma symbol_of_placed node kind name : placed root node → symbol_of node = Some (kind, name) → placed root name.
Proof.
  intros Hn. unfold symbol_of. destruct (is_kind ["implicit_parameter"]%string node); [by intros [= _ <-]|].
  destruct (is_kind _ node).
  - destruct (field_child "name" node) as [x|] eqn:Hx; cbn [mbind option_bind]; [|done]. intros [= _ <-].
    exact (placed_field _ _ _ _ Hn Hx).
  - destruct (find _ _); cbn [mbind option_bind]; [|done].
    destruct (field_child "name" node) as [x|] eqn:Hx; cbn [mbind option_bind]; [|done]. intros [= _ <-].
    exact (placed_field _ _ _ _ Hn Hx).
Qed.
Lemma declare_cs_sound node container st r :
  placed root node → cs_sound st → declare source node container st = Some r → cs_sound r.2.
Proof.
  intros Hn Hst. unfold declare. destruct (is_kind _ node).
  { destruct (field_child "name" node) as [x|] eqn:Hx; cbn [mbind option_bind]; [|done]. intros [= <-]. cbn [snd].
    apply add_symbol_sound; [done| |done]. exact (placed_field _ _ _ _ Hn Hx). }
  assert (Hf : cs_sound (add_foreach source node container st)).
  { unfold add_foreach. destruct (is_kind _ node); [|done]. destruct (field_child "left" node) as [tokens|] eqn:Ht; [|done].
    pose proof (placed_field _ _ _ _ Hn Ht) as Htp.
    assert (Hall : ∀ l, l ∈ identifier_tokens (here tokens) (above tokens) → placed root l).
    { intros l. apply identifier_tokens_placed. by destruct tokens. }
    revert st Hst. induction (identifier_tokens _ _) as [|x xs IH]; intros st Hst; [done|]. cbn [foldl]. apply IH.
    - intros l Hl. apply Hall. by right.
    - apply add_symbol_sound; [done|apply Hall; by left|done]. }
  cbv zeta. destruct (symbol_of node) as [[kind name]|] eqn:Hs; intros [= <-]; cbn [snd]; [|done].
  apply add_symbol_sound; [done|by eapply symbol_of_placed|done].
Qed.
Lemma collect_cs_sound n up container st :
  placed root (MkLoc n up) → cs_sound st → cs_sound (collect source n up container st).
Proof.
  revert up container st. induction n as [n IH] using node_induction. intros up container st Hn Hst.
  pose proof (λ r, declare_cs_sound (MkLoc n up) container st r Hn Hst) as Hdecl.
  destruct n as [k nm f a b cs]. cbn [collect nd_children] in *. set (n := MkNode k nm f a b cs) in *.
  destruct (is_kind ["comment"]%string _); [done|]. cbv zeta. set (unit := is_kind ["compilation_unit"]%string _) in *.
  destruct (if unit then _ else _) as [[container' st']|] eqn:Hr; [|done].
  assert (Hst' : cs_sound st') by (destruct unit; [by injection Hr as _ <-|exact (Hdecl _ Hr)]).
  clear Hr Hdecl Hst.
  match goal with |- cs_sound (?each 0 _ _ _) => assert (Haux : ∀ ds i0 container st,
      (∀ i c, ds !! i = Some c → cs !! (i0 + i) = Some c) →
      Forall (λ c, ∀ up container st, placed root (MkLoc c up) → cs_sound st → cs_sound (collect source c up container st)) ds →
      cs_sound st → cs_sound (each i0 ds container st)) end.
  { intros ds. induction ds as [|d ds IHd]; intros i0 container0 st0 Hi Hf Hst0; [done|]. apply Forall_cons in Hf as [Hd Hf].
    assert (Htail : ∀ i c, ds !! i = Some c → cs !! (S i0 + i) = Some c).
    { intros i c Hc. specialize (Hi (S i) c Hc). by rewrite Nat.add_succ_r in Hi. }
    destruct (nd_named d); apply (IHd (S i0)); try done. apply Hd; [|done]. apply (placed_child root (MkLoc n up)); [done|].
    specialize (Hi 0 d eq_refl). by rewrite Nat.add_0_r in Hi. }
  by apply (Haux cs 0).
Qed.
End Sound.

(** ** The properties *)

(** What an extraction promises to the index. *)
Record csharp_sound (source : str) (e : FileExtraction) : Prop := {
  csr_definitions : Forall (λ d, df_name d ≠ [] ∧ df_start d ≤ df_end d ≤ length source) (ex_definitions e);
  csr_occurrences : Forall (λ o, oc_start o ≤ oc_end o ≤ length source ∧ length (oc_candidates o) ≤ 64 ∧
    (∀ d, oc_target o = Some d → oc_candidates o = [] ∧
       ∃ def, ex_definitions e !! d = Some def ∧ df_name def = oc_name o) ∧
    (∀ d, d ∈ oc_candidates o → ∃ def, ex_definitions e !! d = Some def ∧ df_name def = oc_name o)) (ex_occurrences e);
  csr_sorted : StronglySorted (cmp_le by_position) (ex_occurrences e);
  csr_relationships : Forall (λ r, re_evidence_start r ≤ re_evidence_end r ≤ length source ∧
    owner_in (ex_definitions e) (re_source r) ∧
    (∀ d, re_target r = Some d → is_Some (ex_definitions e !! d))) (ex_relationships e);
}.

Section Tree.
Context `{UnicodeTables} (source status : str) (root : Node).
Context (Hwf : wf_node root = true) (Hlen : nd_end root ≤ length source).
Let st := collect source root [] None (MkCs [] [] [] [] ∅).
Let definitions := cs_definitions st.
Let bindings := cs_bindings st.
Let index := new_index bindings definitions.
Let resolution (node : Loc) := resolve index (text source node) node (namespace_of (role_of node)).

Lemma tree_state : cs_sound root st.
Proof. apply collect_cs_sound; [apply placed_root|]. by constructor. Qed.
Lemma tree_nested (position boundary : nat) namespace (f : Binding → bool) :
  nested_scopes (List.filter (eligible position boundary namespace) (List.filter f bindings)).
Proof.
  intros a b Ha Hb Hlength. pose proof tree_state as [_ Hbind _ _ _]. fold bindings in Hbind.
  assert (Hscope : ∀ x, x ∈ List.filter (eligible position boundary namespace) (List.filter f bindings) →
      contains_pos position (bd_scope x) = true ∧ spans root (bd_scope x)).
  { intros x Hx. apply list_elem_of_In, filter_In in Hx as [Hx He]. apply filter_In in Hx as [Hx _].
    unfold eligible in He. rewrite !andb_true_iff in He. split; [apply He|].
    apply list_elem_of_In, list_elem_of_lookup_1 in Hx as [i Hi]. apply (Hbind i x Hi). }
  destruct (Hscope a Ha) as (Hpa & pa & Hla & Hsa). destruct (Hscope b Hb) as (Hpb & pb & Hlb & Hsb).
  rewrite Hsa, Hsb in *. pose proof (placed_span root pa Hwf Hla). pose proof (placed_span root pb Hwf Hlb).
  destruct (placed_laminar root pa pb position Hwf Hla Hlb Hpa Hpb) as [[Hw1 Hw2]|[Hw1 Hw2]];
    unfold range_len, byte_range in *; cbn [fst snd] in *; f_equal; lia.
Qed.
Lemma tree_unblocked position namespace best (f : Binding → bool) :
  existsb (blocks position namespace best) (List.filter f bindings) = false.
Proof.
  destruct (existsb _ _) eqn:He; [|done]. apply existsb_exists in He as (b & [Hb _]%filter_In & Hbl).
  apply list_elem_of_In, list_elem_of_lookup_1 in Hb as [i Hi]. pose proof tree_state as [_ Hbind _ _ _].
  unfold blocks in Hbl. rewrite (bns_blocks _ _ _ (Hbind i b Hi)) in Hbl. done.
Qed.

(** *** The occurrences and relationships of the walk *)
Definition observed (o : Occurrence) : Prop :=
  ∃ node, placed root node ∧ oc_start o = loc_start node ∧ oc_end o = loc_end node ∧ oc_name o = text source node ∧
    oc_role o = lit (role_of node) ∧ oc_target o = target_of status node (resolution node).1.1 ∧
    oc_candidates o = match oc_target o with Some _ => [] | None => (resolution node).1.2 end.
Definition related (r : RelationshipFact) : Prop :=
  spans root (re_evidence_start r, re_evidence_end r) ∧ owner_in definitions (re_source r) ∧
  (∀ d, re_target r = Some d → is_Some (definitions !! d)).
Record facts_ok (f : CsFacts) : Prop := {
  fo_occurrences : Forall (λ o, declares root definitions o ∨ observed o) (cf_occurrences f);
  fo_relationships : Forall related (cf_relationships f);
}.
Lemma target_found node d : target_of status node (resolution node).1.1 = Some d →
  ∃ def, definitions !! d = Some def ∧ df_name def = text source node.
Proof.
  unfold target_of. destruct (_ || _); [done|].
  apply (resolve_target (MkCollected definitions bindings) (text source node) node).
Qed.
Lemma observe_facts declarations node f :
  placed root node → facts_ok f → facts_ok (observe source status index declarations (cs_owners st) node f).
Proof.
  intros Hn [Ho Hr]. unfold observe. destruct (_ || _); [done|]. cbv zeta. case_bool_decide; [done|].
  pose proof (target_found node) as Htarget. unfold resolution in Htarget.
  destruct (resolve index _ node _) as [[found candidates] limited] eqn:Hres. cbn [fst] in Htarget.
  constructor; cbn [cf_occurrences cf_relationships]; (apply Forall_app; split; [done|]).
  - constructor; [|done]. right. exists node. unfold resolution. rewrite Hres. by split_and!.
  - destruct (if call_name node then _ else _) as [owner|] eqn:Hown; [|done]. constructor; [|done]. split_and!; cbn.
    + by apply node_spans.
    + destruct (call_name node); [|done]. unfold call_owner in Hown. destruct (omap _ _) as [|x xs] eqn:Hx; [done|].
      cbn in Hown. injection Hown as ->. assert (Hin : owner ∈ owner :: xs) by left. rewrite <-Hx in Hin.
      apply list_elem_of_omap in Hin as (p & _ & Hp). pose proof tree_state as [_ _ _ _ Hw].
      exact (map_Forall_lookup_1 _ _ _ _ Hw Hp).
    + intros d Hd. destruct (Htarget d Hd) as (def & -> & _). by eexists.
Qed.
Lemma tree_facts :
  let e := extract_csharp_tree status root source in
  ex_definitions e = definitions ∧ Forall (λ o, declares root definitions o ∨ observed o) (ex_occurrences e) ∧
  StronglySorted (cmp_le by_position) (ex_occurrences e) ∧ Forall related (ex_relationships e).
Proof.
  cbv zeta. unfold extract_csharp_tree. cbv zeta. fold st. fold bindings definitions. fold index.
  cbn [ex_definitions ex_occurrences ex_relationships]. set (declarations := sort_by (pair_compare Nat.compare Nat.compare) (cs_declarations st)).
  assert (Hf : facts_ok (foldl (λ f node, observe source status index declarations (cs_owners st) node f)
      (MkCsFacts (cs_occurrences st) []) (captures root))).
  { assert (Hst : facts_ok (MkCsFacts (cs_occurrences st) [])).
    { constructor; [|constructor]. eapply Forall_impl; [exact (css_occurrences _ _ tree_state)|]. by left. }
    assert (Hc : ∀ l, l ∈ captures root → placed root l).
    { intros l [Hl _]%list_elem_of_In%filter_In. eapply places_placed; [apply placed_root|]. by apply list_elem_of_In. }
    revert Hst Hc. generalize (MkCsFacts (cs_occurrences st) []). induction (captures root) as [|l ls IH]; intros f Hst Hc; [done|].
    cbn [foldl]. apply IH; [|intros l' Hl'; apply Hc; by right]. apply observe_facts; [apply Hc; by left|done]. }
  destruct Hf as [Ho Hr]. split_and!; [done| | |done].
  - apply Forall_forall. intros o Hin%elem_of_sort_by. rewrite Forall_forall in Ho. by apply Ho.
  - apply sort_by_sorted. apply _.
Qed.
Lemma tree_csharp_sound : csharp_sound source (extract_csharp_tree status root source).
Proof.
  destruct tree_facts as (Hd & Ho & Hs & Hr).
  assert (Hspan : ∀ span, spans root span → span.1 ≤ span.2 ≤ length source)
    by (intros span Hsp; by apply (span_in_source source root Hwf Hlen)).
  constructor; rewrite ?Hd; [| |done|].
  - eapply Forall_impl; [exact (css_definitions _ _ tree_state)|]. intros d [Hn Hsp%Hspan]. split; [exact Hn|exact Hsp].
  - eapply Forall_impl; [exact Ho|].
    intros o [(Hsp%Hspan & _ & Hc & x & def & Ht & Hx & Hnm)|(node & Hn & Hst & Hen & Hname & Hrole & Ht & Hc)].
    + rewrite Hc, Ht. cbn [length]. split; [exact Hsp|]. split_and!; [lia| |by intros d ?%elem_of_nil].
      intros d [= <-]. split; [done|]. by exists def.
    + rewrite Hst, Hen. pose proof (Hspan _ (node_spans root node Hn)).
      split; [assumption|]. rewrite Hc, Hname. destruct (oc_target o) as [d|] eqn:Hto.
      * cbn [length]. split_and!; [lia| |by intros d' ?%elem_of_nil]. intros d' [= <-]. split; [done|].
        by apply target_found.
      * split_and!; [|done|].
        { apply (resolve_candidates_length (MkCollected definitions bindings)). }
        { intros d. apply (resolve_candidates (MkCollected definitions bindings)). }
  - eapply Forall_impl; [exact Hr|]. intros r (Hsp%Hspan & Hw & Ht). split; [exact Hsp|]. split; [exact Hw|exact Ht].
Qed.

(** A reference resolves to the nearest eligible binding of its name. *)
Lemma target_exact node d :
  target_of status node (resolution node).1.1 = Some d ↔
  status = lit "complete" ∧ qualified node = false ∧ inherited node = false ∧ imported node = false ∧
  ∃ b, nearest (List.filter (eligible (loc_start node) (function_scope node).1 (namespace_of (role_of node)))
                  (List.filter (named definitions (text source node)) bindings)) b ∧ bd_definition b = d.
Proof.
  unfold target_of, resolution. rewrite (resolve_named (MkCollected definitions bindings)). cbn [cl_definitions cl_bindings].
  pose proof (resolution_innermost (List.filter (named definitions (text source node)) bindings) (loc_start node)
    (function_scope node).1 (namespace_of (role_of node)) d (tree_nested _ _ _ _)) as Hres.
  set (es := List.filter (named _ _) bindings) in *.
  assert (Hblocks : ∀ b b', b' ∈ es → blocks (loc_start node) (namespace_of (role_of node)) b b' = false).
  { intros b b' Hb'. destruct (blocks _ _ b b') eqn:Hbl; [|done].
    rewrite <-(tree_unblocked (loc_start node) (namespace_of (role_of node)) b (named definitions (text source node))).
    symmetry. apply existsb_exists. exists b'. split; [by apply list_elem_of_In|done]. }
  destruct (bool_decide_reflect (status = lit "complete")) as [Hst|Hst]; cbn [negb]; [rewrite orb_false_r|rewrite orb_true_r; naive_solver].
  destruct (qualified node), (inherited node), (imported node); cbn [orb]; naive_solver.
Qed.
End Tree.

Section Properties.
Context `{UnicodeTables} (parse_csharp : str → ParseOutcome) (query_compiles : bool).
(** The parser gives a tree over the source. *)
Definition csharp_parses_well : Prop :=
  ∀ source root error, parse_csharp source = Parsed root error → wf_node root = true ∧ nd_end root ≤ length source.

Lemma extract_csharp_cases budget source :
  let e := extract_csharp parse_csharp query_compiles budget source in
  ex_definitions e = [] ∧ ex_occurrences e = [] ∧ ex_relationships e = [] ∨
  ∃ root error, parse_csharp source = Parsed root error ∧
    e = extract_csharp_tree (lit (if error : bool then "parse_error" else "complete")) root source.
Proof.
  cbv zeta. unfold extract_csharp. destruct (negb (utf8_valid source)); [by left|]. destruct (budget =? 0); [by left|].
  destruct (parse_csharp source) as [| |root error] eqn:Hp; [by left..|]. destruct (negb query_compiles); [by left|].
  destruct (negb _); [by left|]. right. by exists root, error.
Qed.

(** Everything that the extraction of a C# file records lies in the source:
    definitions have a name, a target and the candidates, at most 64, are
    definitions of the file with the name of the occurrence, calls come from a
    member of the file, and the occurrences are in the order of their positions. *)
Theorem csharp_extraction_sound (budget : nat) (source : str) (Hparse : csharp_parses_well) :
  csharp_sound source (extract_csharp parse_csharp query_compiles budget source).
Proof.
  destruct (extract_csharp_cases budget source) as [(Hd & Ho & Hr)|(root & error & Hp & ->)].
  - constructor; rewrite ?Hd, ?Ho, ?Hr; constructor.
  - destruct (Hparse source root error Hp). by apply tree_csharp_sound.
Qed.

(** C12. A reference of a C# file resolves exactly to the nearest eligible binding
    of its name, unless the file has an error or the reference is qualified,
    below a list of bases, or part of an import. *)
Theorem csharp_references_exact (budget : nat) (source : str) (root : Node) (error : bool) (o : Occurrence)
    (Hparse : csharp_parses_well) (Hp : parse_csharp source = Parsed root error)
    (Ho : o ∈ ex_occurrences (extract_csharp parse_csharp query_compiles budget source))
    (Hrole : oc_role o ≠ lit "declaration") :
  let st := collect source root [] None (MkCs [] [] [] [] ∅) in
  let bindings := List.filter (named (cs_definitions st) (oc_name o)) (cs_bindings st) in
  ∃ node, placed root node ∧ oc_start o = loc_start node ∧ oc_end o = loc_end node ∧ oc_name o = text source node ∧
    oc_role o = lit (role_of node) ∧
    ∀ d, oc_target o = Some d ↔
      error = false ∧ qualified node = false ∧ inherited node = false ∧ imported node = false ∧
      ∃ b, nearest (List.filter (eligible (loc_start node) (function_scope node).1 (namespace_of (role_of node))) bindings) b ∧
        bd_definition b = d.
Proof.
  cbv zeta. destruct (extract_csharp_cases budget source) as [(_ & Hnone & _)|(root' & error' & Hp' & He)].
  { rewrite Hnone in Ho. by apply elem_of_nil in Ho. }
  rewrite Hp in Hp'. injection Hp' as <- <-. rewrite He in Ho. clear He.
  destruct (Hparse source root error Hp) as [Hwf Hlen].
  set (status := lit (if error then "parse_error" else "complete")%string) in *.
  assert (Hst : status = lit "complete" ↔ error = false) by (unfold status; by destruct error).
  destruct (tree_facts source status root) as (_ & Hobs & _).
  rewrite Forall_forall in Hobs. destruct (Hobs o Ho) as [(_ & Hr & _)|(node & Hn & Hs & Hen & Hname & Hr & Ht & _)]; [done|].
  exists node. split_and!; [done..|]. intros d. by rewrite Ht, (target_exact source status root Hwf), Hst, Hname.
Qed.
End Properties.

Module CSharpExample.
Definition node (kind : string) (field : option string) (start end_ : nat) (children : list Node) : Node :=
  MkNode (lit kind) true (lit <$> field) start end_ children.
Definition name (field : option string) (start : nat) : Node := node "identifier" field start (S start) [].
(** A class with a method whose local hides its parameter's use as a call. *)
Definition source : str := lit "class C{int f(int x){g(x);}}".
Definition tree : Node :=
  node "compilation_unit" None 0 28
    [node "class_declaration" None 0 28
      [name (Some "name"%string) 6;
       node "declaration_list" (Some "body"%string) 7 28
         [node "method_declaration" None 8 27
           [node "predefined_type" (Some "returns"%string) 8 11 []; name (Some "name"%string) 12;
            node "parameter_list" (Some "parameters"%string) 13 20
              [node "parameter" None 14 19 [node "predefined_type" (Some "type"%string) 14 17 []; name (Some "name"%string) 18]];
            node "block" (Some "body"%string) 20 27
              [node "invocation_expression" None 21 25
                [name (Some "function"%string) 21;
                 node "argument_list" (Some "arguments"%string) 22 25 [node "argument" None 23 24 [name None 23]]]]]]]].
(** The one source the parser knows; others it gives up. *)
Definition parse (s : str) : ParseOutcome := if s =s source then Parsed tree false else Cancelled.
Definition extraction : FileExtraction := extract_csharp parse true 1 source.

Lemma csharp_parses : csharp_parses_well parse.
Proof.
  intros s root error. unfold parse. case_bool_decide as Hs; [|done]. intros [= <- <-].
  rewrite Hs. split; [vm_compute; reflexivity|]. apply Nat.leb_le. vm_compute. reflexivity.
Qed.
(** The call is not resolved and comes from the method, the argument is the parameter. *)
Example csharp_references :
  ((λ o, (oc_start o, oc_target o)) <$> ex_occurrences extraction, (λ r, (re_source r, re_evidence_start r)) <$> ex_relationships extraction) =
  ([(6, Some 0); (12, Some 1); (18, Some 2); (21, None); (23, Some 2)], [(1, 21)]).
Proof. vm_compute. reflexivity. Qed.
Lemma csharp_extraction_sound_witness : csharp_sound source (extract_csharp parse true 1 source) ∧ length (ex_definitions extraction) = 3.
Proof. split; [exact (csharp_extraction_sound parse true 1 source csharp_parses)|vm_compute; reflexivity]. Defined.
Definition argument : Occurrence := MkOcc (lit "x") 23 24 (lit "read") (Some 2) [] (lit "lexical_binding").
Lemma csharp_references_exact_witness : ∃ node, placed tree node ∧ loc_start node = 23 ∧ qualified node = false.
Proof.
  assert (Ho : argument ∈ ex_occurrences (extract_csharp parse true 1 source)) by (apply list_elem_of_In; vm_compute; tauto).
  destruct (csharp_references_exact parse true 1 source tree false argument csharp_parses ltac:(vm_compute; reflexivity) Ho
    ltac:(discriminate)) as (node & Hn & Hs & _ & _ & _ & Hd).
  exists node. split; [exact Hn|]. split; [symmetry; exact Hs|]. apply (Hd 2). reflexivity.
Defined.
End CSharpExample.
