(* ===== verification/Journal.v ===== *)
(** * The diagnostic journal

    Models [src/src/diagnostics/records.rs], [diagnostics/journal.rs] and the reader of
    [diagnostics/audit.rs]: bounded records, segments that are appended to and
    pruned, the epoch that a store is opened at, and reading records back.  The
    JSON of a record is a parameter; SQLite statements and file operations succeed,
    and the lock and the clock are arguments.  A record leaves out the constants of
    its JSON, the version of the schema and the name of the tokenizer. *)
From Stdlib Require Import Ascii String ZArith Lia Permutation Sorted.
From stdpp Require Import base numbers list gmap strings sorting.
From S2P Require Import Prelude Order Text Collections QueryShape Hierarchy.

Open Scope Z_scope.

(** ** Records *)

Inductive DiagnosticsMode := Off | Metadata | Detailed.
#[export] Instance DiagnosticsMode_eq_dec : EqDecision DiagnosticsMode.
Proof. solve_decision. Defined.
Inductive EventStage := Server | Delivery | Maintenance.
Inductive Operation :=
| More | References | Map | Search | Show | Context | HistoryIndex | HistoryStatus | History | Since | Diff | Blame
| Index | Status | Doctor | SessionStart | SessionEnd | Audit | ForgetLogs | Help | Version | Usage | Other.
Inductive Outcome := Success | Empty | BudgetTooSmall | InvalidInput | Unavailable | Stale | Failure.
Inductive DeliveryFailure := BrokenPipe | WriteZero | Write | Flush.
Record DeliveryReceipt := MkReceipt {
  rc_prepared_tokens : nat;
  rc_prepared_bytes : nat;
  rc_accepted_bytes : nat;
  rc_complete : bool;
  rc_completed_unix_micros : option Z;
  rc_failure : option DeliveryFailure;
}.
Record RequestContext := MkContext {
  cx_request_id : str;
  cx_created_unix_micros : Z;
  cx_session : option str;
  cx_client : option str;
}.
Record EmittedIdentity := MkIdentity {
  ei_owner_root : option str;
  ei_member : option str;
  ei_repository : str;
  ei_path : str;
  ei_content_revision : str;
  ei_commit : option str;
  ei_blob : option str;
  ei_start_byte : Z;
  ei_end_byte : Z;
  ei_original_rank : option nat;
  ei_source_body : bool;
}.

(** [bound]: a value is cut at the last character boundary within its maximum. *)
Fixpoint boundary_below (value : str) (end_ : nat) : nat :=
  match end_ with
  | O => O
  | S e => if is_char_boundary value end_ then end_ else boundary_below value e
  end.
Definition bound (maximum : nat) (value : str) : str :=
  if (maximum <? length value)%nat then take (boundary_below value maximum) value else value.
Definition too_long (maximum : nat) (value : str) : bool := (maximum <? length value)%nat.
Definition option_too_long (maximum : nat) (value : option str) : bool := from_option (too_long maximum) false value.

Definition sanitize_identity (i : EmittedIdentity) : EmittedIdentity :=
  MkIdentity (bound 1024 <$> ei_owner_root i) (bound 64 <$> ei_member i) (bound 1024 (ei_repository i))
    (bound 4096 (ei_path i)) (bound 128 (ei_content_revision i)) (bound 64 <$> ei_commit i) (bound 64 <$> ei_blob i)
    (ei_start_byte i) (ei_end_byte i) (ei_original_rank i) (ei_source_body i).
Definition identity_cut (i : EmittedIdentity) : bool :=
  option_too_long 1024 (ei_owner_root i) || option_too_long 64 (ei_member i) || too_long 1024 (ei_repository i) ||
  too_long 4096 (ei_path i) || too_long 128 (ei_content_revision i) || option_too_long 64 (ei_commit i) ||
  option_too_long 64 (ei_blob i).

(** [serde_json::to_vec] and [from_slice] of an event, and whether a trace
    omits records of its candidates. *)
Class EventFormat := {
  Trace : Type;
  Residency : Type;
  Probe : Type;
  Coverage : Type;
  omits_candidates : Trace → bool;
}.

Section Events.
Context `{EventFormat}.

Record RequestEvent := MkEvent {
  ev_context : RequestContext;
  ev_stage : EventStage;
  ev_timestamp : Z;
  ev_workspace : option str;
  ev_member : option str;
  ev_operation : Operation;
  ev_outcome : Outcome;
  ev_elapsed_micros : Z;
  ev_stderr_accepted_bytes : nat;
  ev_receipt : option DeliveryReceipt;
  ev_retrieval : option Trace;
  ev_residency : option Residency;
  ev_probes : list Probe;
  ev_coverage : option Coverage;
  ev_emitted : list EmittedIdentity;
  ev_raw_query : option str;
  ev_truncated : bool;
}.
Definition sanitize (mode : DiagnosticsMode) (e : RequestEvent) : RequestEvent :=
  let cx := ev_context e in
  let raw_query := match mode with Detailed => ev_raw_query e | _ => None end in
  let emitted := take 128 (ev_emitted e) in
  let truncated :=
    (6 <? length (ev_probes e))%nat || too_long 64 (cx_request_id cx) || option_too_long 128 (cx_session cx) ||
    option_too_long 128 (cx_client cx) || option_too_long 4096 raw_query ||
    from_option omits_candidates false (ev_retrieval e) || (128 <? length (ev_emitted e))%nat ||
    option_too_long 128 (ev_workspace e) || option_too_long 128 (ev_member e) || existsb identity_cut emitted in
  MkEvent
    (MkContext (bound 64 (cx_request_id cx)) (cx_created_unix_micros cx) (bound 128 <$> cx_session cx)
       (bound 128 <$> cx_client cx))
    (ev_stage e) (ev_timestamp e) (bound 128 <$> ev_workspace e) (bound 128 <$> ev_member e) (ev_operation e)
    (ev_outcome e) (ev_elapsed_micros e) (ev_stderr_accepted_bytes e) (ev_receipt e) (ev_retrieval e)
    (ev_residency e) (take 6 (ev_probes e)) (ev_coverage e) (sanitize_identity <$> emitted)
    (bound 4096 <$> raw_query) (ev_truncated e || truncated).
(** The last emitted identity is left out. *)
Definition pop_emitted (e : RequestEvent) : RequestEvent :=
  MkEvent (ev_context e) (ev_stage e) (ev_timestamp e) (ev_workspace e) (ev_member e) (ev_operation e) (ev_outcome e)
    (ev_elapsed_micros e) (ev_stderr_accepted_bytes e) (ev_receipt e) (ev_retrieval e) (ev_residency e) (ev_probes e)
    (ev_coverage e) (removelast (ev_emitted e)) (ev_raw_query e) true.
End Events.

(** ** The journal *)

Definition RETENTION_SECONDS : Z := 30 * 24 * 60 * 60.
Definition SEGMENT_BYTES : Z := 50 * 1024 * 1024.
Definition TOTAL_BYTES : Z := 200 * 1024 * 1024.
Definition DATABASE_BYTES : Z := 72 * 1024 * 1024.
Definition RECORD_BYTES : Z := 64 * 1024.

Definition bytes_len (bytes : str) : Z := Z.of_nat (length bytes).
Definition newline : ascii := chr 10.

Record Segment := MkSegment { sg_name : str; sg_bytes : str }.
(** The rows of [diagnostic_meta], the ids of [diagnostic_sessions], the segment
    files, and the bytes of the other files of the directory. *)
Record Journal := MkJournal {
  jn_epoch : Z;
  jn_drops : Z;
  jn_forgotten : Z;
  jn_evicted : Z;
  jn_sessions : list str;
  jn_segments : list Segment;
  jn_other_bytes : Z;
}.
Record DiagnosticStore := MkStore { ds_mode : DiagnosticsMode; ds_epoch : Z; ds_local_drops : Z }.
Inductive RecordStatus := Recorded | Disabled | Dropped | Invalidated.

Definition segment_order : Segment → Segment → comparison := cmp_on sg_name str_compare.
(** [segments]: the files of the directory by their names. *)
Definition segments (j : Journal) : list Segment := sort_by segment_order (jn_segments j).
Definition pad20 (n : Z) : str := repeat "0"%char (20 - length (show_usize n)) ++ show_usize n.
Definition segment_name (now : Z) (id : str) : str := lit "events-" ++ pad20 now ++ lit "-" ++ id ++ lit ".jsonl".
(** The time in the name of a segment, or zero. *)
Definition created (s : Segment) : Z :=
  let name := sg_name s in
  if is_char_boundary name 7 && is_char_boundary name 27 && (27 <=? length name)%nat
  then default 0 (parse_usize (take 20 (drop 7 name))) else 0.
Fixpoint segment_bytes (l : list Segment) : Z :=
  match l with [] => 0 | s :: l => bytes_len (sg_bytes s) + segment_bytes l end.
Definition total_bytes (j : Journal) : Z := jn_other_bytes j + segment_bytes (jn_segments j).

Definition saturating_sub (a b : Z) : Z := Z.max 0 (a - b).
(** The oldest segments go while they are expired or there is no room: what is
    left, its total and the number of those removed. *)
Fixpoint prune_loop (now incoming total : Z) (l : list Segment) : list Segment * Z * nat :=
  match l with
  | [] => ([], total, O)
  | s :: rest =>
      if (saturating_sub now (created s) <=? RETENTION_SECONDS) && (total + incoming + DATABASE_BYTES <=? TOTAL_BYTES)
      then (l, total, O)
      else let '(kept, left_, n) := prune_loop now incoming (saturating_sub total (bytes_len (sg_bytes s))) rest in (kept, left_, S n)
  end.
Definition prune (now incoming : Z) (j : Journal) : result unit * Journal :=
  let '(kept, total, removed) := prune_loop now incoming (total_bytes j) (segments j) in
  let j :=
    MkJournal (jn_epoch j) (jn_drops j) (jn_forgotten j) (jn_evicted j + Z.of_nat removed) (jn_sessions j) kept
      (jn_other_bytes j) in
  (if total + incoming + DATABASE_BYTES <=? TOTAL_BYTES then Ok () else Err "diagnostic_capacity_exhausted", j).

(** An open in append mode creates the file that is missing. *)
Fixpoint append_to (name bytes : str) (l : list Segment) : list Segment :=
  match l with
  | [] => [MkSegment name bytes]
  | s :: l => if sg_name s =s name then MkSegment name (sg_bytes s ++ bytes) :: l else s :: append_to name bytes l
  end.
(** The last segment while it has room, or a new one. *)
Definition active (now : Z) (id bytes : str) (l : list Segment) : str :=
  match last l with
  | Some s => if bytes_len (sg_bytes s) + bytes_len bytes <=? SEGMENT_BYTES then sg_name s else segment_name now id
  | None => segment_name now id
  end.
Definition persist_drops (d : DiagnosticStore) (j : Journal) : DiagnosticStore * Journal :=
  let drops := ds_local_drops d in
  let d := MkStore (ds_mode d) (ds_epoch d) 0 in
  if negb (jn_epoch j =? ds_epoch d) then (d, j)
  else
    (d, MkJournal (jn_epoch j) (jn_drops j + Z.min drops (2 ^ 63 - 1)) (jn_forgotten j) (jn_evicted j) (jn_sessions j)
          (jn_segments j) (jn_other_bytes j)).

Section Record.
Context `{EventFormat} (to_vec : RequestEvent → str) (from_slice : str → option RequestEvent).

(** The record without the identities that do not fit. *)
Fixpoint shrink_event (fuel : nat) (e : RequestEvent) : RequestEvent :=
  match fuel with
  | S fuel =>
      match ev_emitted e with
      | [] => e
      | _ => if RECORD_BYTES <? bytes_len (to_vec e) + 1 then shrink_event fuel (pop_emitted e) else e
      end
  | O => e
  end.
Definition prepared_event (mode : DiagnosticsMode) (e : RequestEvent) : RequestEvent :=
  let e := sanitize mode e in shrink_event (length (ev_emitted e)) e.
(** [locked] tells whether the lock came within its time, [id] is the fresh name. *)
Definition record (locked : bool) (now : Z) (id : str) (e : RequestEvent) (d : DiagnosticStore) (j : Journal) :
    result RecordStatus * DiagnosticStore * Journal :=
  if bool_decide (ds_mode d = Off) then (Ok Disabled, d, j)
  else if negb locked then (Ok Dropped, MkStore (ds_mode d) (ds_epoch d) (ds_local_drops d + 1), j)
  else if negb (jn_epoch j =? ds_epoch d) then (Ok Invalidated, d, j)
  else if cx_created_unix_micros (ev_context e) <=? jn_forgotten j then (Ok Invalidated, d, j)
  else if match cx_session (ev_context e) with
          | Some session => negb (bool_decide (session ∈ jn_sessions j))
          | None => false
          end then (Ok Invalidated, d, j)
  else
    let bytes := to_vec (prepared_event (ds_mode d) e) in
    if negb (bytes_len bytes <? RECORD_BYTES) then (Err "diagnostic record exceeds bound", d, j)
    else
      let line := bytes ++ [newline] in
      let '(pruned, j) := prune now (bytes_len line) j in
      match pruned with
      | Err message => (Err message, d, j)
      | Ok _ =>
          let name := active now id line (jn_segments j) in
          let '(d, j) :=
            persist_drops d
              (MkJournal (jn_epoch j) (jn_drops j) (jn_forgotten j) (jn_evicted j) (jn_sessions j)
                 (append_to name line (jn_segments j)) (jn_other_bytes j)) in
          (Ok Recorded, d, j)
      end.
End Record.

Definition open_store (mode : DiagnosticsMode) (j : Journal) : DiagnosticStore := MkStore mode (jn_epoch j) 0.
Definition forget (now_micros : Z) (j : Journal) : Journal :=
  MkJournal (jn_epoch j + 1) 0 (Z.min now_micros (2 ^ 63 - 1)) 0 [] [] (jn_other_bytes j).

(** ** Reading records *)

(** [fill_buf] gives the first of these chunks; none is empty. *)
Fixpoint read_loop (chunks : list str) (output : str) (oversized read_any : bool) : option bool * str * list str :=
  match chunks with
  | [] => (if read_any then Some oversized else None, output, [])
  | bytes :: rest =>
      match split_once newline bytes with
      | Some (line, left_) =>
          let oversized := oversized || (RECORD_BYTES <? bytes_len output + bytes_len line) in
          (Some oversized, if oversized then output else output ++ line,
           if left_ =s [] then rest else left_ :: rest)
      | None =>
          let oversized := oversized || (RECORD_BYTES <? bytes_len output + bytes_len bytes) in
          read_loop rest (if oversized then output else output ++ bytes) oversized true
      end
  end.
Definition read_record (chunks : list str) : option bool * str * list str := read_loop chunks [] false false.
(** The records of a file: a line, or nothing for one that is oversized. *)
Fixpoint read_records (fuel : nat) (chunks : list str) : list (option str) :=
  match fuel with
  | O => []
  | S fuel =>
      match read_record chunks with
      | (None, _, _) => []
      | (Some oversized, line, chunks) => (if oversized : bool then None else Some line) :: read_records fuel chunks
      end
  end.

(** ** Bounded values *)

Lemma boundary_below_le v n : (boundary_below v n ≤ n)%nat.
Proof. induction n as [|n IH]; cbn [boundary_below]; [done|]. destruct (is_char_boundary v (S n)); lia. Qed.
Lemma boundary_below_is v n : is_char_boundary v (boundary_below v n) = true.
Proof. induction n as [|n IH]; cbn [boundary_below]; [done|]. by destruct (is_char_boundary v (S n)) eqn:E. Qed.
Lemma bound_length m v : (length (bound m v) ≤ m)%nat.
Proof.
  unfold bound. destruct (Nat.ltb_spec m (length v)) as [Hl|Hl]; [|done]. rewrite length_take.
  pose proof (boundary_below_le v m). lia.
Qed.
Lemma bound_short m v : (length v ≤ m)%nat → bound m v = v.
Proof. intros Hl. unfold bound. by rewrite (proj2 (Nat.ltb_ge m (length v))). Qed.
Lemma bound_idemp m v : bound m (bound m v) = bound m v.
Proof. apply bound_short, bound_length. Qed.
Lemma bound_option_idemp m (v : option str) : bound m <$> (bound m <$> v) = bound m <$> v.
Proof. destruct v; cbn; [|done]. by rewrite bound_idemp. Qed.
Lemma too_long_bound m v : too_long m (bound m v) = false.
Proof. apply Nat.ltb_ge, bound_length. Qed.
Lemma option_too_long_bound m v : option_too_long m (bound m <$> v) = false.
Proof. destruct v; cbn; [apply too_long_bound|done]. Qed.
Lemma sanitize_identity_idemp i : sanitize_identity (sanitize_identity i) = sanitize_identity i.
Proof. unfold sanitize_identity. cbn. by rewrite !bound_option_idemp, !bound_idemp. Qed.
Lemma identity_cut_sanitized i : identity_cut (sanitize_identity i) = false.
Proof. unfold identity_cut, sanitize_identity. cbn [ei_owner_root ei_member ei_repository ei_path ei_content_revision ei_commit ei_blob]. by rewrite !option_too_long_bound, !too_long_bound. Qed.

Section EventFacts.
Context `{EventFormat}.

(** A queue may sanitize an event before the journal does so again. *)
Lemma sanitize_idempotent mode e : sanitize mode (sanitize mode e) = sanitize mode e.
Proof.
  assert (Htake : ∀ {A} n (l : list A), (n <? length (take n l))%nat = false)
    by (intros A n l; apply Nat.ltb_ge; rewrite length_take; lia).
  assert (Hraw : ∀ q : option str, match mode with Detailed => bound 4096 <$> match mode with Detailed => q | _ => None end | _ => None end =
    bound 4096 <$> match mode with Detailed => q | _ => None end) by (intros q; by destruct mode).
  unfold sanitize. cbn [ev_context ev_stage ev_timestamp ev_workspace ev_member ev_operation ev_outcome ev_elapsed_micros
    ev_stderr_accepted_bytes ev_receipt ev_retrieval ev_residency ev_probes ev_coverage ev_emitted ev_raw_query ev_truncated
    cx_request_id cx_created_unix_micros cx_session cx_client].
  rewrite Hraw, !bound_option_idemp, bound_idemp, !Htake, !option_too_long_bound, too_long_bound.
  rewrite length_fmap, Htake, (take_ge (sanitize_identity <$> _)) by (rewrite length_fmap, length_take; lia).
  rewrite take_idemp. rewrite <-list_fmap_compose.
  assert (Hids : sanitize_identity ∘ sanitize_identity <$> take 128 (ev_emitted e) = sanitize_identity <$> take 128 (ev_emitted e)).
  { apply list_fmap_ext. intros i x _. apply sanitize_identity_idemp. }
  assert (Hcut : existsb identity_cut (sanitize_identity <$> take 128 (ev_emitted e)) = false).
  { apply not_true_iff_false. intros (x & (y & -> & _)%list_elem_of_In%list_elem_of_fmap & Hx)%existsb_exists.
    by rewrite identity_cut_sanitized in Hx. }
  rewrite Hids, Hcut. f_equal. cbn [orb]. rewrite !orb_false_r. destruct (ev_truncated e); [done|]. cbn [orb].
  destruct (from_option omits_candidates false (ev_retrieval e)); [|by rewrite orb_false_r]. by rewrite !orb_true_r.
Qed.
Lemma sanitize_created mode e : cx_created_unix_micros (ev_context (sanitize mode e)) = cx_created_unix_micros (ev_context e).
Proof. done. Qed.
End EventFacts.

(** ** Pruning *)

Lemma segment_bytes_app l k : segment_bytes (l ++ k) = segment_bytes l + segment_bytes k.
Proof. induction l as [|s l IH]; cbn [app segment_bytes]; lia. Qed.
Lemma segment_bytes_nonneg l : 0 ≤ segment_bytes l.
Proof. induction l as [|s l IH]; cbn [segment_bytes]; unfold bytes_len in *; lia. Qed.
Lemma segment_bytes_perm l k : l ≡ₚ k → segment_bytes l = segment_bytes k.
Proof. induction 1; cbn [segment_bytes] in *; lia. Qed.

(** Nothing keeps a segment: it is fresh and there is room. *)
Definition keeps (now incoming total : Z) (s : Segment) : Prop :=
  saturating_sub now (created s) ≤ RETENTION_SECONDS ∧ total + incoming + DATABASE_BYTES ≤ TOTAL_BYTES.
Lemma prune_loop_spec now incoming total l :
  segment_bytes l ≤ total →
  let '(kept, left_, n) := prune_loop now incoming total l in
  (n ≤ length l)%nat ∧ kept = drop n l ∧ left_ = total - segment_bytes (take n l) ∧
  (∀ i s, (i < n)%nat → l !! i = Some s → ¬ keeps now incoming (total - segment_bytes (take i l)) s) ∧
  (∀ s, head kept = Some s → keeps now incoming left_ s).
Proof.
  revert total. induction l as [|s l IH]; intros total Hle; cbn [prune_loop].
  { split_and!; [cbn; lia|done|cbn; lia|intros i s Hi; lia|done]. }
  cbn [segment_bytes] in Hle. pose proof (segment_bytes_nonneg l).
  assert (Hs0 : 0 ≤ bytes_len (sg_bytes s)) by (unfold bytes_len; lia).
  destruct ((saturating_sub now (created s) <=? RETENTION_SECONDS) && (total + incoming + DATABASE_BYTES <=? TOTAL_BYTES)) eqn:Hb.
  { apply andb_true_iff in Hb as [H1%Z.leb_le H2%Z.leb_le]. split_and!; [cbn; lia|done|cbn; lia|intros i x Hi; lia|].
    intros x [= <-]. by split. }
  assert (Hsat : saturating_sub total (bytes_len (sg_bytes s)) = total - bytes_len (sg_bytes s)) by (unfold saturating_sub; lia).
  rewrite Hsat. specialize (IH (total - bytes_len (sg_bytes s)) ltac:(lia)).
  destruct (prune_loop now incoming (total - bytes_len (sg_bytes s)) l) as [[kept left_] n].
  destruct IH as (Hn & Hk & Hl & Hgone & Hkeep). split_and!.
  - cbn [length]. lia.
  - done.
  - rewrite Hl. cbn [take segment_bytes]. lia.
  - intros [|i] x Hi Hx.
    + cbn in Hx. injection Hx as <-. cbn [take segment_bytes]. rewrite Z.sub_0_r. intros [H1 H2].
      apply andb_false_iff in Hb as [Hb%Z.leb_gt|Hb%Z.leb_gt]; lia.
    + cbn [take segment_bytes]. specialize (Hgone i x ltac:(lia) Hx).
      by replace (total - (bytes_len (sg_bytes s) + segment_bytes (take i l))) with (total - bytes_len (sg_bytes s) - segment_bytes (take i l)) by lia.
  - done.
Qed.
Lemma segments_bytes j : segment_bytes (segments j) = segment_bytes (jn_segments j).
Proof. apply segment_bytes_perm, sort_by_perm. Qed.

(** What pruning leaves: a suffix of the segments by name, the rest of the
    journal, and room for the record just when it succeeds. *)
Lemma prune_spec now incoming j r j' :
  0 ≤ jn_other_bytes j → prune now incoming j = (r, j') →
  ∃ n, jn_segments j' = drop n (segments j) ∧ jn_evicted j' = jn_evicted j + Z.of_nat (Nat.min n (length (segments j))) ∧
    jn_epoch j' = jn_epoch j ∧ jn_forgotten j' = jn_forgotten j ∧ jn_sessions j' = jn_sessions j ∧
    jn_drops j' = jn_drops j ∧ jn_other_bytes j' = jn_other_bytes j ∧
    (∀ i s, (i < n)%nat → segments j !! i = Some s →
       ¬ keeps now incoming (total_bytes j - segment_bytes (take i (segments j))) s) ∧
    (∀ s, head (jn_segments j') = Some s → keeps now incoming (total_bytes j') s) ∧
    (is_ok r = true ↔ total_bytes j' + incoming + DATABASE_BYTES ≤ TOTAL_BYTES).
Proof.
  intros Hother. unfold prune.
  assert (Hle : segment_bytes (segments j) ≤ total_bytes j) by (rewrite segments_bytes; unfold total_bytes; lia).
  pose proof (prune_loop_spec now incoming (total_bytes j) (segments j) Hle) as Hspec.
  destruct (prune_loop now incoming (total_bytes j) (segments j)) as [[kept left_] n].
  destruct Hspec as (Hn & Hk & Hl & Hgone & Hkeep). intros [= <- <-]. exists n. cbn.
  assert (Htotal : left_ = jn_other_bytes j + segment_bytes kept).
  { rewrite Hl, Hk. rewrite <-(take_drop n (segments j)) in Hle at 1. unfold total_bytes in *.
    pose proof (segments_bytes j) as Hsb. rewrite <-(take_drop n (segments j)), segment_bytes_app in Hsb. lia. }
  rewrite (Nat.min_l n) by lia. unfold total_bytes at 2 3. cbn [jn_other_bytes jn_segments]. rewrite <-Htotal.
  split_and!; try done. destruct (left_ + incoming + DATABASE_BYTES <=? TOTAL_BYTES) eqn:Hb; cbn; split; try done.
  - intros _. by apply Z.leb_le.
  - intros Hc. apply Z.leb_gt in Hb. lia.
Qed.

(** ** What the journal holds *)

Section Journal.
Context `{EventFormat} (to_vec : RequestEvent → str) (from_slice : str → option RequestEvent).
(** JSON of an event is one line, and it is read back. *)
Definition line_format : Prop := ∀ e, (newline ∉ to_vec e) ∧ from_slice (to_vec e) = Some e.

Definition line_of (e : RequestEvent) : str := to_vec e ++ [newline].
Definition holds (s : Segment) (events : list RequestEvent) : Prop := sg_bytes s = concat (line_of <$> events).
Definition admitted (forgotten : Z) (e : RequestEvent) : Prop :=
  bytes_len (to_vec e) < RECORD_BYTES ∧ forgotten < cx_created_unix_micros (ev_context e).
Definition segment_ok (forgotten : Z) (s : Segment) : Prop :=
  bytes_len (sg_bytes s) ≤ SEGMENT_BYTES ∧ ∃ events, holds s events ∧ Forall (admitted forgotten) events.
Record journal_ok (j : Journal) : Prop := {
  jo_segments : Forall (segment_ok (jn_forgotten j)) (jn_segments j);
  jo_names : NoDup (sg_name <$> jn_segments j);
  jo_other : 0 ≤ jn_other_bytes j;
}.

Lemma append_last bytes l s :
  NoDup (sg_name <$> (l ++ [s])) → append_to (sg_name s) bytes (l ++ [s]) = l ++ [MkSegment (sg_name s) (sg_bytes s ++ bytes)].
Proof.
  rewrite fmap_app. cbn [fmap list_fmap]. intros (_ & Hnot & _)%NoDup_app. induction l as [|x l IH]; cbn [app append_to].
  - by rewrite bool_decide_true.
  - rewrite bool_decide_false; [|intros Heq; apply (Hnot (sg_name x)); [by left|rewrite Heq; by left]].
    f_equal. apply IH. intros y Hy. apply Hnot. by right.
Qed.
Lemma append_fresh name bytes l : name ∉ sg_name <$> l → append_to name bytes l = l ++ [MkSegment name bytes].
Proof.
  induction l as [|s l IH]; cbn [append_to fmap list_fmap app]; [done|]. intros [Hne Hin]%not_elem_of_cons.
  rewrite bool_decide_false by done. f_equal. by apply IH.
Qed.
Lemma shrink_created fuel e : ev_context (shrink_event to_vec fuel e) = ev_context e.
Proof.
  revert e. induction fuel as [|fuel IH]; intros e; [done|]. cbn [shrink_event]. destruct (ev_emitted e); [done|].
  destruct (_ <? _); [|done]. by rewrite IH.
Qed.
Lemma prepared_created mode e :
  cx_created_unix_micros (ev_context (prepared_event to_vec mode e)) = cx_created_unix_micros (ev_context e).
Proof. unfold prepared_event. by rewrite shrink_created. Qed.
Lemma line_holds e : admitted 0 e ∨ bytes_len (to_vec e) < RECORD_BYTES → bytes_len (line_of e) ≤ SEGMENT_BYTES.
Proof.
  intros He. assert (bytes_len (to_vec e) < RECORD_BYTES) as Hs by (destruct He as [[? _]|?]; done).
  unfold line_of, bytes_len in *. rewrite length_app. cbn [length]. unfold RECORD_BYTES, SEGMENT_BYTES in *. lia.
Qed.

(** A kept journal is still well formed. *)
Lemma journal_ok_drop j j' n :
  journal_ok j → jn_segments j' = drop n (segments j) → jn_forgotten j' = jn_forgotten j →
  jn_other_bytes j' = jn_other_bytes j → journal_ok j'.
Proof.
  intros [Hs Hn Ho] Hseg Hf Hob. assert (Hperm : segments j ≡ₚ jn_segments j) by apply sort_by_perm.
  constructor; [| |by rewrite Hob].
  - rewrite Hseg, Hf. apply Forall_drop. by rewrite Hperm.
  - rewrite Hseg, fmap_drop.
    assert (Hnd : NoDup (sg_name <$> segments j)) by (rewrite Hperm; exact Hn).
    rewrite <-(take_drop n (sg_name <$> segments j)) in Hnd. by apply NoDup_app in Hnd as (_ & _ & ?).
Qed.
(** The record goes to the end of the last segment or to a new one. *)
Lemma append_ok now id e j :
  journal_ok j → admitted (jn_forgotten j) e → segment_name now id ∉ sg_name <$> jn_segments j →
  let name := active now id (line_of e) (jn_segments j) in
  ∃ l old, append_to name (line_of e) (jn_segments j) = l ++ [MkSegment name (concat (line_of <$> (old ++ [e])))] ∧
    (jn_segments j = l ∧ old = [] ∧ name ∉ sg_name <$> l ∨ ∃ s, jn_segments j = l ++ [s] ∧ sg_name s = name ∧ holds s old) ∧
    Forall (admitted (jn_forgotten j)) old ∧ bytes_len (concat (line_of <$> (old ++ [e]))) ≤ SEGMENT_BYTES.
Proof.
  intros [Hs Hn _] He Hfresh. cbv zeta. unfold active.
  assert (Hnew : ∃ l old, append_to (segment_name now id) (line_of e) (jn_segments j) =
        l ++ [MkSegment (segment_name now id) (concat (line_of <$> (old ++ [e])))] ∧
      (jn_segments j = l ∧ old = [] ∧ segment_name now id ∉ sg_name <$> l ∨
       ∃ s, jn_segments j = l ++ [s] ∧ sg_name s = segment_name now id ∧ holds s old) ∧
      Forall (admitted (jn_forgotten j)) old ∧ bytes_len (concat (line_of <$> (old ++ [e]))) ≤ SEGMENT_BYTES).
  { exists (jn_segments j), []. cbn [app fmap list_fmap concat]. rewrite app_nil_r. split_and!; [by apply append_fresh|by left|done|].
    apply line_holds. right. apply He. }
  destruct (last (jn_segments j)) as [s|] eqn:Hl; [|exact Hnew].
  destruct (bytes_len (sg_bytes s) + bytes_len (line_of e) <=? SEGMENT_BYTES) eqn:Hb; [|exact Hnew].
  apply last_Some in Hl as [l Hl]. rewrite Hl in Hs, Hn |- *.
  apply Forall_app in Hs as [_ [(_ & old & Hold & Hall) _]%Forall_cons]. exists l, old.
  assert (Hconcat : concat (line_of <$> (old ++ [e])) = sg_bytes s ++ line_of e).
  { rewrite fmap_app, concat_app. cbn. by rewrite app_nil_r, Hold. }
  rewrite append_last, Hconcat by done. split_and!; [done|right; by exists s|done|].
  unfold bytes_len in *. rewrite length_app. apply Z.leb_le in Hb. lia.
Qed.

(** A record that is accepted. *)
Lemma recorded_spec locked now id e d j d' j' :
  journal_ok j → (∀ s, s ∈ jn_segments j → sg_name s ≠ segment_name now id) →
  record to_vec locked now id e d j = (Ok Recorded, d', j') →
  let e' := prepared_event to_vec (ds_mode d) e in
  ds_epoch d = jn_epoch j ∧ admitted (jn_forgotten j) e' ∧ jn_forgotten j' = jn_forgotten j ∧
  (∀ session, cx_session (ev_context e) = Some session → session ∈ jn_sessions j) ∧
  journal_ok j' ∧ total_bytes j' + DATABASE_BYTES ≤ TOTAL_BYTES ∧
  ∃ n l old name, jn_segments j' = l ++ [MkSegment name (concat (line_of <$> (old ++ [e'])))] ∧
    Forall (admitted (jn_forgotten j)) old ∧
    (drop n (segments j) = l ∧ old = [] ∨ ∃ s, drop n (segments j) = l ++ [s] ∧ sg_name s = name ∧ holds s old).
Proof.
  intros Hok Hfresh. cbv zeta. unfold record. set (e' := prepared_event to_vec (ds_mode d) e).
  destruct (bool_decide _); [done|]. destruct (negb locked); [done|].
  destruct (negb (jn_epoch j =? ds_epoch d)) eqn:Hepoch; [done|].
  destruct (cx_created_unix_micros (ev_context e) <=? jn_forgotten j) eqn:Hforgot; [done|].
  destruct (match cx_session (ev_context e) with Some _ => _ | None => false end) eqn:Hsession; [done|].
  cbv zeta. destruct (negb (bytes_len (to_vec e') <? RECORD_BYTES)) eqn:Hsize; [done|].
  destruct (prune now (bytes_len (to_vec e' ++ [newline])) j) as [r j1] eqn:Hprune. destruct r as [[]|message]; [|done].
  apply (prune_spec _ _ _ _ _ (jo_other _ Hok)) in Hprune
    as (n & Hseg & _ & Hep & Hfo & Hse & _ & Hot & _ & _ & Hroom). pose proof (proj1 Hroom eq_refl) as Hfits. clear Hroom.
  pose proof (journal_ok_drop j j1 n Hok Hseg Hfo Hot) as Hok1. bool_to_prop.
  assert (He' : admitted (jn_forgotten j1) e').
  { split; [done|]. unfold e'. rewrite prepared_created, Hfo. lia. }
  assert (Hfresh1 : segment_name now id ∉ sg_name <$> jn_segments j1).
  { intros (s & Hs & Hin)%list_elem_of_fmap. apply (Hfresh s); [|done]. rewrite Hseg in Hin.
    assert (Hall : s ∈ segments j) by (rewrite <-(take_drop n (segments j)); apply elem_of_app; by right).
    by apply elem_of_sort_by in Hall. }
  destruct (append_ok now id e' j1 Hok1 He' Hfresh1) as (l & old & Happ & Hcase & Hold & Hbound).
  unfold persist_drops. change (to_vec e' ++ [newline]) with (line_of e') in *. cbn [jn_epoch].
  rewrite Hep, (proj2 (Z.eqb_eq _ _)) by done. cbn [negb]. intros [= <- <-].
  set (name := active now id (line_of e') (jn_segments j1)) in *.
  assert (Hsegs : total_bytes j1 + bytes_len (line_of e') = jn_other_bytes j1 + segment_bytes (append_to name (line_of e') (jn_segments j1))).
  { unfold total_bytes. rewrite Happ, segment_bytes_app, fmap_app, concat_app. cbn [segment_bytes sg_bytes fmap list_fmap concat].
    unfold bytes_len. rewrite !length_app. cbn [length]. destruct Hcase as [(-> & -> & _)|(s & -> & _ & Hs)]; cbn [fmap list_fmap concat length].
    - lia.
    - rewrite segment_bytes_app. cbn [segment_bytes]. rewrite <-Hs. unfold bytes_len. lia. }
  split_and!; [done|by rewrite <-Hfo|done| | | |].
  - intros session Hs. rewrite Hs in Hsession. by bool_to_prop.
  - destruct Hok1 as [Hs Hn Ho]. constructor; cbn [jn_segments jn_forgotten jn_other_bytes]; [| |done].
    + rewrite Happ. apply Forall_app. split.
      * destruct Hcase as [(<- & _)|(s & Hl & _)]; [done|]. rewrite Hl in Hs. by apply Forall_app in Hs as [? _].
      * constructor; [|done]. split; [done|]. exists (old ++ [e']). split; [done|]. apply Forall_app. split; [done|by constructor].
    + rewrite Happ, fmap_app. cbn [fmap list_fmap sg_name]. destruct Hcase as [(Hl & _ & Hnot)|(s & Hl & <- & _)].
      * rewrite Hl in Hn. apply NoDup_app. split_and!; [done| |apply NoDup_singleton].
        by intros x Hx ->%list_elem_of_singleton.
      * rewrite Hl, fmap_app in Hn. done.
  - unfold total_bytes in *. cbn [jn_other_bytes jn_segments]. lia.
  - exists n, l, old, name. cbn [jn_segments]. rewrite <-Hseg. split; [done|]. split; [by rewrite <-Hfo|].
    destruct Hcase as [(Hl & Ho & _)|Hs]; [by left|by right].
Qed.
(** What is not accepted leaves the journal or only prunes it. *)
Lemma not_recorded locked now id e d j r d' j' :
  record to_vec locked now id e d j = (r, d', j') → r ≠ Ok Recorded → j' = j ∨ ∃ incoming, j' = (prune now incoming j).2.
Proof.
  unfold record. destruct (bool_decide _); [by intros [= <- <- <-]; left|]. destruct (negb locked); [by intros [= <- <- <-]; left|].
  destruct (negb (jn_epoch j =? ds_epoch d)); [by intros [= <- <- <-]; left|].
  destruct (cx_created_unix_micros (ev_context e) <=? jn_forgotten j); [by intros [= <- <- <-]; left|].
  destruct (match cx_session (ev_context e) with Some _ => _ | None => false end); [by intros [= <- <- <-]; left|].
  cbv zeta. destruct (negb (_ <? RECORD_BYTES)); [by intros [= <- <- <-]; left|].
  destruct (prune now _ j) as [[[]|message] j1] eqn:Hp.
  - destruct (persist_drops _ _). by intros [= <- <- <-].
  - intros [= <- <- <-] _. right. exists (bytes_len (to_vec (prepared_event to_vec (ds_mode d) e) ++ [newline])). by rewrite Hp.
Qed.

(** Everything that happens to a journal; the name of a new segment is fresh. *)
Inductive journal_step : Journal → Journal → Prop :=
| step_record locked now id e d r d' j j' :
    (∀ s, s ∈ jn_segments j → sg_name s ≠ segment_name now id) → record to_vec locked now id e d j = (r, d', j') →
    journal_step j j'
| step_prune now incoming j : journal_step j (prune now incoming j).2
| step_forget now_micros j : journal_step j (forget now_micros j)
| step_persist d j : journal_step j (persist_drops d j).2
| step_sessions sessions other_bytes j :
    0 ≤ other_bytes →
    journal_step j (MkJournal (jn_epoch j) (jn_drops j) (jn_forgotten j) (jn_evicted j) sessions (jn_segments j) other_bytes).
Lemma prune_step now incoming j : journal_ok j →
  journal_ok (prune now incoming j).2 ∧ jn_epoch (prune now incoming j).2 = jn_epoch j.
Proof.
  intros Hok. destruct (prune now incoming j) as [r j'] eqn:Hp.
  apply (prune_spec _ _ _ _ _ (jo_other _ Hok)) in Hp as (n & Hs & _ & He & Hf & _ & _ & Ho & _). split; [|done].
  by apply (journal_ok_drop j j' n).
Qed.
Lemma persist_same d j : jn_epoch (persist_drops d j).2 = jn_epoch j ∧ jn_segments (persist_drops d j).2 = jn_segments j ∧
  jn_forgotten (persist_drops d j).2 = jn_forgotten j ∧ jn_other_bytes (persist_drops d j).2 = jn_other_bytes j.
Proof. unfold persist_drops. by destruct (negb _). Qed.
Lemma record_epoch locked now id e d j r d' j' :
  record to_vec locked now id e d j = (r, d', j') → jn_epoch j' = jn_epoch j.
Proof.
  unfold record. destruct (bool_decide _); [by intros [= <- <- <-]|]. destruct (negb locked); [by intros [= <- <- <-]|].
  destruct (negb (jn_epoch j =? ds_epoch d)); [by intros [= <- <- <-]|].
  destruct (cx_created_unix_micros (ev_context e) <=? jn_forgotten j); [by intros [= <- <- <-]|].
  destruct (match cx_session (ev_context e) with Some _ => _ | None => false end); [by intros [= <- <- <-]|].
  cbv zeta. destruct (negb (_ <? RECORD_BYTES)); [by intros [= <- <- <-]|].
  unfold prune. destruct (prune_loop _ _ _ _) as [[kept left_] n]. destruct (_ <=? _).
  - match goal with |- context [persist_drops d ?x] => pose proof (persist_same d x) as (He & _); destruct (persist_drops d x) end.
    intros [= <- <- <-]. exact He.
  - by intros [= <- <- <-].
Qed.
Lemma journal_step_ok j j' : journal_step j j' → journal_ok j → journal_ok j' ∧ jn_epoch j ≤ jn_epoch j'.
Proof.
  intros Hstep Hok. destruct Hstep as [locked now id e d r d' j0 j0' Hfresh Hrec|now incoming j0|now j0|d j0|sessions other j0 Ho].
  - split; [|by rewrite (record_epoch _ _ _ _ _ _ _ _ _ Hrec)]. assert (r = Ok Recorded ∨ r ≠ Ok Recorded) as [->|Hr] by (destruct r as [[]|]; by (left + right)).
    + by apply (recorded_spec locked now id e d j0 d' j0' Hok Hfresh).
    + destruct (not_recorded _ _ _ _ _ _ _ _ _ Hrec Hr) as [->|[incoming ->]]; [done|]. by apply prune_step.
  - destruct (prune_step now incoming j0 Hok) as [? ->]. done.
  - split; [|cbn; lia]. destruct Hok. constructor; cbn; [constructor|constructor|done].
  - destruct (persist_same d j0) as (He & Hs & Hf & Hot). rewrite He. split; [|done]. destruct Hok.
    constructor; by rewrite ?Hs, ?Hf, ?Hot.
  - destruct Hok. split; [by constructor|done].
Qed.
End Journal.

(** ** Reading back *)

Lemma split_newline line rest : newline ∉ line → split_once newline (line ++ newline :: rest) = Some (line, rest).
Proof. intros Hl. by apply split_once_Some. Qed.
(** Any cutting of the bytes into chunks gives the same line. *)
Lemma read_loop_line line rest chunks output any :
  newline ∉ line → Forall (λ c, c ≠ []) chunks → concat chunks = line ++ newline :: rest →
  bytes_len output + bytes_len line ≤ RECORD_BYTES →
  ∃ chunks', read_loop chunks output false any = (Some false, output ++ line, chunks') ∧
    Forall (λ c, c ≠ []) chunks' ∧ concat chunks' = rest.
Proof.
  revert line output any. induction chunks as [|c chunks IH]; intros line output any Hl Hne Hcat Hfit.
  { by destruct line. }
  apply Forall_cons in Hne as [Hc Hne]. cbn [concat] in Hcat. cbn [read_loop]. cbn [orb].
  destruct (split_once newline c) as [[before after]|] eqn:Hsplit.
  - apply split_once_Some in Hsplit as [-> Hbefore].
    assert (before = line ∧ after ++ concat chunks = rest) as [-> <-].
    { rewrite <-app_assoc in Hcat. cbn [app] in Hcat.
      pose proof (split_newline before (after ++ concat chunks) Hbefore) as H1. rewrite Hcat, split_newline in H1 by done.
      by injection H1 as -> ->. }
    rewrite (proj2 (Z.ltb_ge _ _)) by lia. case_bool_decide as Hafter.
    + exists chunks. subst. by split_and!.
    + exists (after :: chunks). split_and!; [done|by constructor|done].
  - apply split_once_None in Hsplit.
    assert (∃ line', line = c ++ line' ∧ concat chunks = line' ++ newline :: rest) as (line' & -> & Hcat').
    { destruct (app_eq_inv _ _ _ _ Hcat) as [(l & -> & Hl')|(l & Hl' & ->)]; [|by exists l].
      destruct l as [|x l]; [exists []; rewrite !app_nil_r; split; [done|symmetry; exact Hl']|].
      exfalso. cbn in Hl'. injection Hl' as <- _. apply Hsplit, elem_of_app. right. by left. }
    assert (Hsz : bytes_len (output ++ c) + bytes_len line' = bytes_len output + bytes_len (c ++ line')).
    { unfold bytes_len. rewrite !length_app. lia. }
    rewrite (proj2 (Z.ltb_ge _ _)) by (unfold bytes_len in *; rewrite length_app in Hfit; lia).
    destruct (IH line' (output ++ c) true) as (chunks' & Hr & Hne' & Hrest); [|done|done|lia|].
    { intros Hin. apply Hl, elem_of_app. by right. }
    exists chunks'. split_and!; [by rewrite Hr, app_assoc|done|done].
Qed.
Lemma read_records_lines fuel lines chunks :
  Forall (λ l, (newline ∉ l) ∧ bytes_len l ≤ RECORD_BYTES) lines → Forall (λ c, c ≠ []) chunks →
  concat chunks = concat ((λ l, l ++ [newline]) <$> lines) → (length lines < fuel)%nat →
  read_records fuel chunks = Some <$> lines.
Proof.
  revert fuel chunks. induction lines as [|l lines IH]; intros fuel chunks Hlines Hne Hcat Hfuel; (destruct fuel as [|fuel]; [cbn in Hfuel; lia|]).
  - cbn in Hcat. destruct chunks as [|c chunks]; [done|]. apply Forall_cons in Hne as [Hc _]. by destruct c.
  - apply Forall_cons in Hlines as [[Hl Hs] Hlines]. cbn [fmap list_fmap concat] in Hcat. rewrite <-app_assoc in Hcat. cbn [app] in Hcat.
    destruct (read_loop_line l _ chunks [] false Hl Hne Hcat) as (chunks' & Hr & Hne' & Hrest); [done|].
    cbn [read_records]. unfold read_record. rewrite Hr. cbn [fmap list_fmap app]. f_equal.
    apply IH; [done..|cbn in Hfuel; lia].
Qed.

Section Claims.
Context `{EventFormat} (to_vec : RequestEvent → str) (from_slice : str → option RequestEvent).

(** C15. A journal stays well formed whatever happens to it: segments hold whole
    records of at most 64 KiB, newer than what was forgotten, within 50 MiB each
    and under names of their own; and a record that is accepted leaves the
    directory within its total, comes from a store opened since the last
    forgetting, and belongs to no session or to a known one. *)
Theorem journal_stays_bounded (j j' : Journal) (locked : bool) (now : Z) (id : str) (e : RequestEvent) (d d' : DiagnosticStore)
    (j'' : Journal) (Hok : journal_ok to_vec j) (Hsteps : rtc (journal_step to_vec) j j')
    (Hfresh : ∀ s, s ∈ jn_segments j' → sg_name s ≠ segment_name now id)
    (Hrecord : record to_vec locked now id e d j' = (Ok Recorded, d', j'')) :
  journal_ok to_vec j' ∧ journal_ok to_vec j'' ∧ total_bytes j'' + DATABASE_BYTES ≤ TOTAL_BYTES ∧
  ds_epoch d = jn_epoch j' ∧ jn_forgotten j' < cx_created_unix_micros (ev_context e) ∧
  (∀ session, cx_session (ev_context e) = Some session → session ∈ jn_sessions j').
Proof.
  assert (Hok' : journal_ok to_vec j').
  { clear Hfresh Hrecord. induction Hsteps as [|a b c Hab _ IH]; [done|]. apply IH. by apply (journal_step_ok to_vec a b). }
  destruct (recorded_spec to_vec locked now id e d j' d' j'' Hok' Hfresh Hrecord) as (He & [_ Hf] & _ & Hs & Hj & Ht & _).
  rewrite prepared_created in Hf. by split_and!.
Qed.

(** A store that was opened before its journal was forgotten records nothing
    in it any more. *)
Theorem forgotten_store_is_silent (j j' : Journal) (locked : bool) (now now_micros : Z) (id : str) (e : RequestEvent)
    (d d' : DiagnosticStore) (j'' : Journal) (r : result RecordStatus) (Hok : journal_ok to_vec j)
    (Hopened : ds_epoch d ≤ jn_epoch j) (Hsteps : rtc (journal_step to_vec) (forget now_micros j) j')
    (Hrecord : record to_vec locked now id e d j' = (r, d', j'')) :
  r ≠ Ok Recorded ∧ j'' = j'.
Proof.
  assert (Hepoch : jn_epoch (forget now_micros j) ≤ jn_epoch j').
  { destruct (journal_step_ok to_vec j (forget now_micros j) (step_forget to_vec now_micros j) Hok) as [Hf _].
    clear Hrecord Hok. revert Hf. induction Hsteps as [|a b c Hab _ IH]; [done|]. intros Ha.
    destruct (journal_step_ok to_vec a b Hab Ha) as [Hb ?]. specialize (IH Hb). lia. }
  cbn in Hepoch. revert Hrecord. unfold record. destruct (bool_decide _); [by intros [= <- _ <-]|].
  destruct (negb locked); [by intros [= <- _ <-]|]. rewrite (proj2 (Z.eqb_neq _ _)) by lia. by intros [= <- _ <-].
Qed.

(** C16. A record that is accepted is read back: the segment it went to gives, in
    whatever chunks its bytes are read, the records that the segment held before
    and then the new one, each parsed to its event. *)
Theorem journal_reads_back (locked : bool) (now : Z) (id : str) (e : RequestEvent) (d d' : DiagnosticStore) (j j' : Journal)
    (Hformat : line_format to_vec from_slice) (Hok : journal_ok to_vec j)
    (Hfresh : ∀ s, s ∈ jn_segments j → sg_name s ≠ segment_name now id)
    (Hrecord : record to_vec locked now id e d j = (Ok Recorded, d', j')) :
  ∃ s old, s ∈ jn_segments j' ∧
    (old = [] ∨ ∃ before, before ∈ jn_segments j ∧ sg_name before = sg_name s ∧ holds to_vec before old) ∧
    ∀ chunks, Forall (λ c, c ≠ []) chunks → concat chunks = sg_bytes s →
      (λ line, line ≫= from_slice) <$> read_records (S (length (sg_bytes s))) chunks =
      Some <$> (old ++ [prepared_event to_vec (ds_mode d) e]).
Proof.
  destruct (recorded_spec to_vec locked now id e d j d' j' Hok Hfresh Hrecord)
    as (_ & Hadm & _ & _ & _ & _ & n & l & old & name & Hseg & Hold & Hcase).
  set (e' := prepared_event to_vec (ds_mode d) e) in *. set (s := MkSegment name _) in Hseg. exists s, old.
  assert (Hin : s ∈ jn_segments j') by (rewrite Hseg; apply elem_of_app; right; by left). split_and!; [done| |].
  { destruct Hcase as [[_ ->]|(b & Hb & Hname & Hb')]; [by left|]. right. exists b. split_and!; [|done|done].
    assert (Hbj : b ∈ segments j).
    { rewrite <-(take_drop n (segments j)). apply elem_of_app. right. rewrite Hb. apply elem_of_app. right. by left. }
    by apply elem_of_sort_by in Hbj. }
  intros chunks Hne Hcat.
  assert (Hlines : Forall (λ line, (newline ∉ line) ∧ bytes_len line ≤ RECORD_BYTES) (to_vec <$> (old ++ [e']))).
  { apply Forall_fmap, Forall_app. split; [eapply Forall_impl; [exact Hold|]|constructor; [|done]]; unfold compose.
    - intros x [Hx _]. split; [apply Hformat|lia].
    - destruct Hadm as [Hx _]. split; [apply Hformat|lia]. }
  assert (Hbytes : concat chunks = concat ((λ line, line ++ [newline]) <$> (to_vec <$> (old ++ [e'])))).
  { rewrite Hcat. unfold s. cbn [sg_bytes]. by rewrite <-list_fmap_compose. }
  rewrite (read_records_lines _ _ _ Hlines Hne Hbytes).
  - rewrite <-!list_fmap_compose. apply list_fmap_ext. intros i x _. cbn. apply Hformat.
  - rewrite length_fmap. unfold s. cbn [sg_bytes].
    generalize (old ++ [e']). intros es. induction es as [|x es IH]; [cbn; lia|]. cbn [length fmap list_fmap concat].
    unfold line_of at 1. rewrite !length_app. cbn [length]. lia.
Qed.
End Claims.

(** ** A format of lines *)
Module JournalExample.
(** A value as a string without a newline that tells where it ends. *)
Record Codec (A : Type) := MkCodec {
  enc : A → str;
  dec : str → option (A * str);
  dec_enc : ∀ a rest, dec (enc a ++ rest) = Some (a, rest);
  enc_line : ∀ a, newline ∉ enc a;
}.
#[local] Arguments MkCodec {A}.
#[local] Arguments enc {A}.
#[local] Arguments dec {A}.
#[local] Arguments dec_enc {A}.
#[local] Arguments enc_line {A}.

Definition via {A B} (f : A → B) (g : B → A) (Hfg : ∀ a, g (f a) = a) (c : Codec B) : Codec A.
Proof.
  refine (MkCodec (λ a, enc c (f a)) (λ s, '(b, rest) ← dec c s; Some (g b, rest)) _ _).
  - intros a rest. rewrite dec_enc. cbn. by rewrite Hfg.
  - intros a. apply enc_line.
Defined.
Definition pair_codec {A B} (c : Codec A) (k : Codec B) : Codec (A * B).
Proof.
  refine (MkCodec (λ p, enc c p.1 ++ enc k p.2) (λ s, '(a, rest) ← dec c s; '(b, rest) ← dec k rest; Some ((a, b), rest)) _ _).
  - intros [a b] rest. cbn [fst snd]. rewrite <-app_assoc, dec_enc. cbn. by rewrite dec_enc.
  - intros p [Hin|Hin]%elem_of_app; by apply enc_line in Hin.
Defined.
Definition unit_codec : Codec unit.
Proof. refine (MkCodec (λ _, []) (λ s, Some (tt, s)) _ _); [by intros []|intros _; apply not_elem_of_nil]. Defined.
Definition bool_codec : Codec bool.
Proof.
  refine (MkCodec (λ b, [if b : bool then "1"%char else "0"%char])
    (λ s, match s with c :: rest => Some (bool_decide (c = "1"%char), rest) | [] => None end) _ _).
  - by intros [] rest.
  - by intros [] ?%list_elem_of_singleton.
Defined.
Definition sum_codec {A B} (c : Codec A) (k : Codec B) : Codec (A + B).
Proof.
  refine (MkCodec (λ v, match v with inl a => enc bool_codec true ++ enc c a | inr b => enc bool_codec false ++ enc k b end)
    (λ s, '(left_, rest) ← dec bool_codec s;
       if left_ : bool then '(a, rest) ← dec c rest; Some (inl a, rest) else '(b, rest) ← dec k rest; Some (inr b, rest)) _ _).
  - intros [a|b] rest; rewrite <-app_assoc, dec_enc; cbn [mbind option_bind]; by rewrite dec_enc.
  - intros [a|b] [Hin|Hin]%elem_of_app; by apply enc_line in Hin.
Defined.
Definition option_codec {A} (c : Codec A) : Codec (option A) :=
  via (λ v, match v with Some a => inl a | None => inr tt end) (λ v, match v with inl a => Some a | inr _ => None end)
    (λ v, match v with Some _ => eq_refl | None => eq_refl end) (sum_codec c unit_codec).

Fixpoint enc_list {A} (c : Codec A) (l : list A) : str :=
  match l with [] => enc bool_codec false | a :: l => enc bool_codec true ++ enc c a ++ enc_list c l end.
Fixpoint dec_list {A} (c : Codec A) (fuel : nat) (s : str) : option (list A * str) :=
  match fuel with
  | O => None
  | S fuel =>
      '(more, rest) ← dec bool_codec s;
      if more : bool then '(a, rest) ← dec c rest; '(l, rest) ← dec_list c fuel rest; Some (a :: l, rest) else Some ([], rest)
  end.
Lemma dec_enc_list {A} (c : Codec A) l rest fuel : (length l < fuel)%nat → dec_list c fuel (enc_list c l ++ rest) = Some (l, rest).
Proof.
  revert l rest. induction fuel as [|fuel IH]; intros [|a l] rest Hf; cbn [length] in Hf; [lia|lia|by cbn|].
  cbn [enc_list dec_list]. rewrite <-!app_assoc, dec_enc. cbn [mbind option_bind]. rewrite dec_enc. cbn [mbind option_bind].
  by rewrite IH by lia.
Qed.
Lemma enc_list_length {A} (c : Codec A) l : (length l < length (enc_list c l))%nat.
Proof. induction l as [|a l IH]; cbn; [lia|]. rewrite length_app. lia. Qed.
Definition list_codec {A} (c : Codec A) : Codec (list A).
Proof.
  refine (MkCodec (enc_list c) (λ s, dec_list c (length s) s) _ _).
  - intros l rest. apply dec_enc_list. pose proof (enc_list_length c l). rewrite length_app. lia.
  - intros l. induction l as [|a l IH]; cbn [enc_list]; [apply enc_line|].
    intros [Hin|[Hin|Hin]%elem_of_app]%elem_of_app; [by apply enc_line in Hin..|done].
Defined.

Definition nat_codec : Codec nat :=
  via (λ n, replicate n tt) length (λ n, length_replicate n tt) (list_codec unit_codec).
(** The binary digits of a positive number. *)
Fixpoint digits (p : positive) : list bool :=
  match p with xH => [] | xO p => false :: digits p | xI p => true :: digits p end.
Fixpoint positive_of (l : list bool) : positive :=
  match l with [] => xH | false :: l => xO (positive_of l) | true :: l => xI (positive_of l) end.
Lemma positive_of_digits p : positive_of (digits p) = p.
Proof. induction p as [p IH|p IH|]; cbn; by rewrite ?IH. Qed.
Definition positive_codec : Codec positive := via digits positive_of positive_of_digits (list_codec bool_codec).
Definition Z_codec : Codec Z :=
  via (λ z, match z with Z0 => inl tt | Zpos p => inr (inl p) | Zneg p => inr (inr p) end)
    (λ v, match v with inl _ => Z0 | inr (inl p) => Zpos p | inr (inr p) => Zneg p end)
    (λ z, match z with Z0 => eq_refl | Zpos _ => eq_refl | Zneg _ => eq_refl end)
    (sum_codec unit_codec (sum_codec positive_codec positive_codec)).
Lemma ascii_of_nat_of (c : ascii) : ascii_of_nat (nat_of_ascii c) = c.
Proof. apply ascii_nat_embedding. Qed.
Definition str_codec : Codec str := list_codec (via nat_of_ascii ascii_of_nat ascii_of_nat_of nat_codec).
Definition enum_codec {A} (l : list A) (default : A) (index : A → nat) (H : ∀ a, nth (index a) l default = a) : Codec A :=
  via index (λ n, nth n l default) H nat_codec.
Definition stage_codec : Codec EventStage :=
  enum_codec [Server; Delivery; Maintenance] Server (λ s, match s with Server => 0 | Delivery => 1 | Maintenance => 2 end)%nat
    (λ s, match s with Server | Delivery | Maintenance => eq_refl end).
Definition operations : list Operation :=
  [More; References; Map; Search; Show; Context; HistoryIndex; HistoryStatus; History; Since; Diff; Blame; Index; Status; Doctor;
   SessionStart; SessionEnd; Audit; ForgetLogs; Help; Version; Usage; Other].
Definition operation_index (o : Operation) : nat :=
  match o with
  | More => 0 | References => 1 | Map => 2 | Search => 3 | Show => 4 | Context => 5 | HistoryIndex => 6 | HistoryStatus => 7
  | History => 8 | Since => 9 | Diff => 10 | Blame => 11 | Index => 12 | Status => 13 | Doctor => 14 | SessionStart => 15
  | SessionEnd => 16 | Audit => 17 | ForgetLogs => 18 | Help => 19 | Version => 20 | Usage => 21 | Other => 22
  end.
Lemma operation_at (o : Operation) : nth (operation_index o) operations Other = o.
Proof. by destruct o. Qed.
Definition outcomes : list Outcome := [Success; Empty; BudgetTooSmall; InvalidInput; Unavailable; Stale; Failure].
Definition outcome_index (o : Outcome) : nat :=
  match o with Success => 0 | Empty => 1 | BudgetTooSmall => 2 | InvalidInput => 3 | Unavailable => 4 | Stale => 5 | Failure => 6 end.
Lemma outcome_at (o : Outcome) : nth (outcome_index o) outcomes Failure = o.
Proof. by destruct o. Qed.
Definition failures : list DeliveryFailure := [BrokenPipe; WriteZero; Write; Flush].
Definition failure_index (f : DeliveryFailure) : nat :=
  match f with BrokenPipe => 0 | WriteZero => 1 | Write => 2 | Flush => 3 end.
Lemma failure_at (f : DeliveryFailure) : nth (failure_index f) failures Flush = f.
Proof. by destruct f. Qed.

Definition receipt_codec : Codec DeliveryReceipt.
Proof.
  refine (via (λ r, (rc_prepared_tokens r, (rc_prepared_bytes r, (rc_accepted_bytes r, (rc_complete r, (rc_completed_unix_micros r, rc_failure r))))))
    (λ '(a, (b, (c, (d, (e, f))))), MkReceipt a b c d e f) _
    (pair_codec nat_codec (pair_codec nat_codec (pair_codec nat_codec (pair_codec bool_codec (pair_codec (option_codec Z_codec)
      (option_codec (enum_codec failures Flush failure_index failure_at)))))))).
  by intros [].
Defined.
Definition context_codec : Codec RequestContext.
Proof.
  refine (via (λ c, (cx_request_id c, (cx_created_unix_micros c, (cx_session c, cx_client c)))) (λ '(a, (b, (c, d))), MkContext a b c d) _
    (pair_codec str_codec (pair_codec Z_codec (pair_codec (option_codec str_codec) (option_codec str_codec))))).
  by intros [].
Defined.
Definition identity_codec : Codec EmittedIdentity.
Proof.
  refine (via (λ i, ((ei_owner_root i, (ei_member i, (ei_repository i, (ei_path i, (ei_content_revision i, ei_commit i))))),
        (ei_blob i, (ei_start_byte i, (ei_end_byte i, (ei_original_rank i, ei_source_body i))))))
    (λ '((a, (b, (c, (d, (e, f))))), (g, (h, (i, (j, k))))), MkIdentity a b c d e f g h i j k) _
    (pair_codec
      (pair_codec (option_codec str_codec) (pair_codec (option_codec str_codec) (pair_codec str_codec (pair_codec str_codec
        (pair_codec str_codec (option_codec str_codec))))))
      (pair_codec (option_codec str_codec) (pair_codec Z_codec (pair_codec Z_codec (pair_codec (option_codec nat_codec) bool_codec)))))).
  by intros [].
Defined.
(** Events without the payloads of other components. *)
#[local] Instance bare : EventFormat :=
  {| Trace := unit; Residency := unit; Probe := unit; Coverage := unit; omits_candidates := λ _, false |}.
Definition event_codec : Codec RequestEvent.
Proof.
  refine (via (λ e, ((ev_context e, (ev_stage e, (ev_timestamp e, (ev_workspace e, (ev_member e, ev_operation e))))),
        ((ev_outcome e, (ev_elapsed_micros e, (ev_stderr_accepted_bytes e, (ev_receipt e, (ev_retrieval e, ev_residency e))))),
         (ev_probes e, (ev_coverage e, (ev_emitted e, (ev_raw_query e, ev_truncated e)))))))
    (λ '((a, (b, (c, (d, (e, f))))), ((g, (h, (i, (j, (k, l))))), (m, (n, (o, (p, q)))))),
       MkEvent a b c d e f g h i j k l m n o p q) _
    (pair_codec
      (pair_codec context_codec (pair_codec stage_codec (pair_codec Z_codec (pair_codec (option_codec str_codec)
        (pair_codec (option_codec str_codec) (enum_codec operations Other operation_index operation_at))))))
      (pair_codec
        (pair_codec (enum_codec outcomes Failure outcome_index outcome_at) (pair_codec Z_codec (pair_codec nat_codec
          (pair_codec (option_codec receipt_codec) (pair_codec (option_codec unit_codec) (option_codec unit_codec))))))
        (pair_codec (list_codec unit_codec) (pair_codec (option_codec unit_codec) (pair_codec (list_codec identity_codec)
          (pair_codec (option_codec str_codec) bool_codec))))))).
  by intros [].
Defined.
Definition to_vec (e : RequestEvent) : str := enc event_codec e.
Definition from_slice (s : str) : option RequestEvent := '(e, rest) ← dec event_codec s; if rest =s [] then Some e else None.
Lemma format_of_lines : line_format to_vec from_slice.
Proof.
  intros e. split; [apply enc_line|]. unfold from_slice, to_vec. rewrite <-(app_nil_r (enc event_codec e)), dec_enc. done.
Qed.

(** A journal with one session; the second record joins the segment of the first. *)
Definition start : Journal := MkJournal 1 0 5 0 [lit "s"] [] 100.
Definition detailed : DiagnosticStore := MkStore Detailed 1 3.
Definition event (created : Z) : RequestEvent :=
  MkEvent (MkContext (lit "r") created (Some (lit "s")) None) Server 9 None None Search Success 4 0 None None None [] None
    [MkIdentity None None (lit "d") (lit "a.rs") (lit "c") None None 0 4 (Some 1%nat) true] (Some (lit "q")) false.
Definition first : Journal := (record to_vec true 7 (lit "u") (event 6) detailed start).2.
Definition second : Journal := (record to_vec true 8 (lit "v") (event 7) detailed first).2.
Example old_event_invalid : record to_vec true 7 (lit "u") (event 5) detailed start = (Ok Invalidated, detailed, start).
Proof. vm_compute. reflexivity. Qed.
Example drops_persist : (jn_drops first, length (jn_segments second)) = (3, 1%nat).
Proof. vm_compute. reflexivity. Qed.
Lemma start_ok : journal_ok to_vec start.
Proof. constructor; cbn; [constructor|constructor|lia]. Qed.
Lemma no_segment (j : Journal) name : jn_segments j = [] → ∀ s, s ∈ jn_segments j → sg_name s ≠ name.
Proof. intros -> s ?%not_elem_of_nil. done. Qed.
Lemma first_recorded : record to_vec true 7 (lit "u") (event 6) detailed start = (Ok Recorded, MkStore Detailed 1 0, first).
Proof. vm_compute. reflexivity. Qed.
Lemma first_step : journal_step to_vec start first.
Proof. exact (step_record _ _ _ _ _ _ _ _ _ _ (no_segment start _ eq_refl) first_recorded). Qed.
Lemma first_fresh : ∀ s, s ∈ jn_segments first → sg_name s ≠ segment_name 8 (lit "v").
Proof.
  assert (Hnames : segment_name 8 (lit "v") ∉ sg_name <$> jn_segments first) by (apply (bool_decide_unpack _); vm_compute; exact I).
  intros s Hs Hname. apply Hnames, list_elem_of_fmap. by exists s.
Qed.
Lemma second_recorded : record to_vec true 8 (lit "v") (event 7) detailed first = (Ok Recorded, MkStore Detailed 1 0, second).
Proof. vm_compute. reflexivity. Qed.
Lemma first_ok : journal_ok to_vec first.
Proof. exact (proj1 (journal_step_ok to_vec start first first_step start_ok)). Qed.
Lemma journal_stays_bounded_witness : journal_ok to_vec second ∧ total_bytes second + DATABASE_BYTES ≤ TOTAL_BYTES.
Proof.
  destruct (journal_stays_bounded to_vec start first true 8 (lit "v") (event 7) detailed (MkStore Detailed 1 0) second start_ok
    (rtc_once _ _ first_step) first_fresh second_recorded) as (_ & Hok & Hbytes & _).
  split; [exact Hok|exact Hbytes].
Defined.
Lemma journal_reads_back_witness : ∃ s old, s ∈ jn_segments second ∧
  (λ line, line ≫= from_slice) <$> read_records (S (length (sg_bytes s))) [sg_bytes s] =
  Some <$> (old ++ [prepared_event to_vec Detailed (event 7)]).
Proof.
  destruct (journal_reads_back to_vec from_slice true 8 (lit "v") (event 7) detailed (MkStore Detailed 1 0) first second format_of_lines
    first_ok first_fresh second_recorded) as (s & old & Hs & _ & Hread).
  exists s, old. split; [exact Hs|].
  assert (Hne : sg_bytes s ≠ []) by (intros Hnil; specialize (Hread [] (Forall_nil_2 _) (eq_sym Hnil)); destruct old; discriminate Hread).
  apply Hread; [constructor; [exact Hne|constructor]|apply app_nil_r].
Defined.
End JournalExample.
