(* ===== verification/DiagnosticAudit.v ===== *)
(** * The audit of the diagnostic journal

    Models [src/src/diagnostics/delivery.rs], [diagnostics/audit.rs],
    [diagnostics/ledger.rs] and [diagnostics/sessions.rs]: the receipt of a delivery,
    the counts over the records of the journal, the comparison of session
    reports with the evidence of deliveries, and the table of sessions. *)
From Stdlib Require Import Ascii String ZArith Lia Permutation Sorted.
From stdpp Require Import base numbers list gmap strings sorting.
From S2P Require Import Prelude Order Text Collections QueryShape Hierarchy Hits Journal.

Open Scope Z_scope.

(** ** Delivery *)

(** One call of [write]: a count of bytes, an interruption or a failure. *)
Inductive WriteEvent := Wrote (count : nat) | Interrupted | Refused (broken_pipe : bool).
Inductive FlushEvent := Flushed (now_micros : Z) | FlushRefused (broken_pipe : bool).
Definition receipt_of (tokens prepared accepted : nat) (complete : bool) (completed : option Z) (failure : option DeliveryFailure) :
    DeliveryReceipt := MkReceipt tokens prepared accepted complete completed failure.
(** Nothing while the writer blocks; a count is at most what it was given. *)
Fixpoint emit_loop (writes : list WriteEvent) (flush : FlushEvent) (tokens prepared accepted : nat) : option DeliveryReceipt :=
  if (accepted <? prepared)%nat then
    match writes with
    | [] => None
    | Wrote O :: _ => Some (receipt_of tokens prepared accepted false None (Some WriteZero))
    | Wrote count :: writes => emit_loop writes flush tokens prepared (accepted + Nat.min count (prepared - accepted))
    | Interrupted :: writes => emit_loop writes flush tokens prepared accepted
    | Refused broken :: _ =>
        Some (receipt_of tokens prepared accepted false None (Some (if broken then BrokenPipe else Write)))
    end
  else
    Some match flush with
         | Flushed now => receipt_of tokens prepared accepted true (Some now) None
         | FlushRefused broken => receipt_of tokens prepared accepted false None (Some (if broken then BrokenPipe else Flush))
         end.
Definition emit_response (tokens : nat) (response : str) (writes : list WriteEvent) (flush : FlushEvent) : option DeliveryReceipt :=
  emit_loop writes flush tokens (length response) 0.

(** ** The ledger *)

Record ObservationLedger := MkLedger {
  ol_available : bool;
  ol_changed_preimage_files : Z;
  ol_preimage_metadata_surfaced : Z;
  ol_preimage_source_viewed : Z;
  ol_changed_spans : Z;
  ol_changed_spans_metadata_surfaced : Z;
  ol_changed_spans_source_viewed : Z;
  ol_additions_without_preimages : Z;
  ol_coverage_changes : Z;
  ol_uncertain_correspondence : Z;
  ol_incomplete_publication_windows : Z;
  ol_incomplete_change_details : Z;
  ol_sessions_without_repository_identity : Z;
}.
Definition no_ledger : ObservationLedger := MkLedger false 0 0 0 0 0 0 0 0 0 0 0 0.
(** The counters that one part of a report adds. *)
Definition add_ledger (a b : ObservationLedger) : ObservationLedger :=
  MkLedger (ol_available a || ol_available b) (ol_changed_preimage_files a + ol_changed_preimage_files b)
    (ol_preimage_metadata_surfaced a + ol_preimage_metadata_surfaced b)
    (ol_preimage_source_viewed a + ol_preimage_source_viewed b) (ol_changed_spans a + ol_changed_spans b)
    (ol_changed_spans_metadata_surfaced a + ol_changed_spans_metadata_surfaced b)
    (ol_changed_spans_source_viewed a + ol_changed_spans_source_viewed b)
    (ol_additions_without_preimages a + ol_additions_without_preimages b)
    (ol_coverage_changes a + ol_coverage_changes b) (ol_uncertain_correspondence a + ol_uncertain_correspondence b)
    (ol_incomplete_publication_windows a + ol_incomplete_publication_windows b)
    (ol_incomplete_change_details a + ol_incomplete_change_details b)
    (ol_sessions_without_repository_identity a + ol_sessions_without_repository_identity b).
Definition sum_ledger {A} (f : A → ObservationLedger) (l : list A) : ObservationLedger :=
  foldl (λ acc x, add_ledger acc (f x)) no_ledger l.
Definition one_if (b : bool) : Z := if b then 1 else 0.
Definition count_of (v : Json) : Z := default 0 (as_u64 v).
Definition saturating_mul (a b : Z) : Z := Z.min U64_MAX (a * b).
(** [value[index]] of an array. *)
Definition nth_value (v : Json) (i : nat) : Json := match v with JArr l => default JNull (l !! i) | _ => JNull end.
Definition is_str (v : Json) (s : string) : bool := match v with JStr x => x =s lit s | _ => false end.
Definition is_bool (v : Json) (b : bool) : bool := match v with JBool x => Bool.eqb x b | _ => false end.
Definition jget (v : Json) (key : string) : option Json := match v with JObj m => obj_get m (lit key) | _ => None end.

Section Ledger.
Context `{EventFormat}.

(** A span of a changed source and the evidence around it. *)
Definition overlaps (start end_ : Z) (i : EmittedIdentity) : bool := (ei_start_byte i <? end_) && (start <? ei_end_byte i).
Definition compare_span (preimage : Json) (evidence : list EmittedIdentity) : ObservationLedger :=
  let span := default preimage (jget preimage "span") in
  match as_u64 (jindex span "start"), as_u64 (jindex span "end") with
  | Some start, Some end_ =>
      if end_ <=? start then no_ledger
      else
        let near := List.filter (overlaps start end_) evidence in
        MkLedger false 0 0 0 1 (one_if (existsb (λ i, negb (ei_source_body i)) near)) (one_if (existsb ei_source_body near))
          0 0 0 0 0 0
  | _, _ => no_ledger
  end.
(** The deliveries of a session within its interval. *)
Definition in_interval (session report : Json) (e : RequestEvent) : bool :=
  let start := saturating_mul (count_of (nth_value (jindex report "before_capture_interval") 0)) 1000 in
  let end_ := saturating_mul (default (U64_MAX / 1000) (as_u64 (nth_value (jindex report "after_capture_interval") 1))) 1000 in
  bool_decide (cx_session (ev_context e) = as_str (jindex session "session")) &&
  (start <=? cx_created_unix_micros (ev_context e)) &&
  match ev_receipt e ≫= rc_completed_unix_micros with Some completed => completed <=? end_ | None => false end.
Definition shows (repository : option str) (path revision : str) (i : EmittedIdentity) : bool :=
  bool_decide (repository = Some (default (ei_repository i) (ei_owner_root i))) && (ei_path i =s path) &&
  (ei_content_revision i =s revision).
Definition evidence_for (session report : Json) (repository : option str) (path revision : str)
    (deliveries : list RequestEvent) : list EmittedIdentity :=
  List.filter (shows repository path revision) (concat (ev_emitted <$> List.filter (in_interval session report) deliveries)).
(** A counter of the details that are missing. *)
Definition missing_details (n : Z) : ObservationLedger := MkLedger false 0 0 0 0 0 0 0 0 0 0 n 0.
Definition fact_ledger (fact : Json) : ObservationLedger :=
  let uncertain :=
    match as_str (jindex fact "correspondence") with
    | Some s => contains (lit "uncertain") s || contains (lit "candidate") s
    | None => false
    end in
  MkLedger false 0 0 0 0 0 0 0 0 (one_if uncertain) 0 (one_if (is_bool (jindex fact "candidates_truncated") true)) 0.
Definition change_ledger (session report : Json) (repository : option str) (deliveries : list RequestEvent) (change : Json) :
    ObservationLedger :=
  let category := jindex change "category" in
  let details :=
    missing_details (count_of (jindex (jindex change "source_changes") "truncated") +
                     count_of (jindex (jindex change "occurrences") "truncated")) in
  if is_str category "addition_without_preimage" then add_ledger details (MkLedger false 0 0 0 0 0 0 1 0 0 0 0 0)
  else
    let details :=
      if is_str category "coverage_change" || is_str category "ignored_or_excluded"
      then add_ledger details (MkLedger false 0 0 0 0 0 0 0 1 0 0 0 0) else details in
    match as_str (jindex change "path"), as_str (jindex change "before_revision") with
    | Some path, Some revision =>
        let matches := evidence_for session report repository path revision deliveries in
        let viewed := existsb (λ i, ei_source_body i && (ei_start_byte i <? ei_end_byte i)) matches in
        let details :=
          add_ledger details
            (MkLedger false 1 (one_if (existsb (λ i, negb (ei_source_body i)) matches)) (one_if viewed) 0 0 0 0 0 0 0 0 0) in
        let details :=
          match as_array (jindex (jindex change "source_changes") "changes") with
          | Some changes => add_ledger details (sum_ledger (λ c, compare_span (jindex c "before") matches) changes)
          | None => details
          end in
        match as_array (jindex (jindex change "occurrences") "changes") with
        | Some facts => add_ledger details (sum_ledger fact_ledger facts)
        | None => details
        end
    | _, _ => details
    end.
Definition session_ledger (deliveries : list RequestEvent) (session : Json) : ObservationLedger :=
  let report := jindex session "report" in
  match report with
  | JNull => no_ledger
  | _ =>
      let repository := match as_str (jindex report "repository") with Some [] | None => None | Some root => Some root end in
      let ledger :=
        MkLedger true 0 0 0 0 0 0 0 0 0 (one_if (is_bool (jindex (jindex report "publication_observations") "complete") false))
          (one_if (bool_decide (repository = None)) + count_of (jindex report "changes_truncated") +
           count_of (jindex report "publication_observations_truncated"))
          (one_if (bool_decide (repository = None))) in
      match as_array (jindex report "changes") with
      | Some changes => add_ledger ledger (sum_ledger (change_ledger session report repository deliveries) changes)
      | None => ledger
      end
  end.
Definition compare (sessions : Json) (deliveries : list RequestEvent) : ObservationLedger :=
  match as_array (jindex sessions "sessions") with
  | Some sessions => sum_ledger (session_ledger deliveries) sessions
  | None => no_ledger
  end.
End Ledger.

(** ** The audit *)

Section Audit.
Context `{EventFormat} (from_slice : str → option RequestEvent).

Record RequestEvidence := MkEvidence { rv_server : bool; rv_delivery : option RequestEvent }.
Record AuditState := MkAudit {
  au_requests : gmap str RequestEvidence;
  au_malformed : nat;
  au_truncated : nat;
  au_capped : bool;
  au_residency_samples : nat;
  au_retained_bytes : Z;
}.
Definition MAX_REQUESTS : Z := 10000.
Definition MAX_RETAINED_BYTES : Z := 32 * 1024 * 1024.
Definition add_malformed (st : AuditState) : AuditState :=
  MkAudit (au_requests st) (S (au_malformed st)) (au_truncated st) (au_capped st) (au_residency_samples st) (au_retained_bytes st).
(** An event of the window that was asked for. *)
Definition in_window (now forgotten : Z) (session : option str) (e : RequestEvent) : bool :=
  (saturating_sub now (ev_timestamp e) <=? RETENTION_SECONDS) && (forgotten <? cx_created_unix_micros (ev_context e)) &&
  match session with Some id => bool_decide (cx_session (ev_context e) = Some id) | None => true end.
Definition add_evidence (e : RequestEvent) (evidence : RequestEvidence) : RequestEvidence :=
  match ev_stage e with
  | Server => MkEvidence true (rv_delivery evidence)
  | Delivery => MkEvidence (rv_server evidence) (Some e)
  | Maintenance => evidence
  end.
(** One record of a segment; nothing stands for one that is oversized. *)
Definition audit_record (now forgotten : Z) (session : option str) (st : AuditState) (record : option str) : AuditState :=
  match record with
  | None => add_malformed st
  | Some [] => st
  | Some line =>
      match from_slice line with
      | None => add_malformed st
      | Some e =>
          if negb (in_window now forgotten session e) then st
          else
            let st :=
              MkAudit (au_requests st) (au_malformed st) (if ev_truncated e then S (au_truncated st) else au_truncated st)
                (au_capped st) (au_residency_samples st) (au_retained_bytes st) in
            match ev_stage e with
            | Maintenance =>
                MkAudit (au_requests st) (au_malformed st) (au_truncated st) (au_capped st)
                  (match ev_residency e with Some _ => S (au_residency_samples st) | None => au_residency_samples st end) (au_retained_bytes st)
            | _ =>
                let id := cx_request_id (ev_context e) in
                if ((MAX_REQUESTS <=? Z.of_nat (size (au_requests st))) ||
                    (MAX_RETAINED_BYTES <? au_retained_bytes st + bytes_len line)) &&
                   bool_decide (au_requests st !! id = None)
                then MkAudit (au_requests st) (au_malformed st) (au_truncated st) true (au_residency_samples st) (au_retained_bytes st)
                else
                  MkAudit (<[id := add_evidence e (default (MkEvidence false None) (au_requests st !! id))]> (au_requests st))
                    (au_malformed st) (au_truncated st) (au_capped st) (au_residency_samples st)
                    (au_retained_bytes st + bytes_len line)
            end
      end
  end.
Definition empty_audit : AuditState := MkAudit ∅ 0 0 false 0 0.
Definition audit_records (now forgotten : Z) (session : option str) (records : list (option str)) : AuditState :=
  foldl (audit_record now forgotten session) empty_audit records.

Record AuditReport := MkReport {
  ar_retained_requests : nat;
  ar_complete_deliveries : nat;
  ar_incomplete_deliveries : nat;
  ar_prepared_tokens : nat;
  ar_stdout_accepted_bytes : nat;
  ar_stderr_accepted_bytes : nat;
  ar_surfaced_metadata_identities : nat;
  ar_viewed_source_identities : nat;
  ar_truncated_records : nat;
  ar_dropped_records : Z;
  ar_evicted_segments : Z;
  ar_malformed_records : nat;
  ar_incomplete_window : bool;
  ar_residency_samples : nat;
  ar_ledger : ObservationLedger;
}.
Definition complete_receipt (r : DeliveryReceipt) : bool := rc_complete r && (rc_accepted_bytes r =? rc_prepared_bytes r)%nat.
(** The delivery of a request when all of it went out. *)
Definition complete_delivery (evidence : RequestEvidence) : option RequestEvent :=
  e ← rv_delivery evidence;
  r ← ev_receipt e;
  if complete_receipt r then Some e else None.
Definition evidence_receipt (evidence : RequestEvidence) : option DeliveryReceipt := rv_delivery evidence ≫= ev_receipt.
Definition sum_nat {A} (f : A → nat) (l : list A) : nat := foldl (λ n x, (n + f x)%nat) O l.
(** [requests] are the values of the map in the order of its iteration. *)
Definition report_of (sessions : Json) (dropped evicted : Z) (st : AuditState) (requests : list RequestEvidence) : AuditReport :=
  let complete := omap complete_delivery requests in
  let identities := concat (ev_emitted <$> complete) in
  let ledger := compare sessions complete in
  let incomplete := (length requests - length complete)%nat in
  MkReport (size (au_requests st)) (length complete) incomplete
    (sum_nat (λ v, from_option rc_prepared_tokens O (evidence_receipt v)) requests)
    (sum_nat (λ v, from_option rc_accepted_bytes O (evidence_receipt v)) requests)
    (sum_nat (λ v, from_option ev_stderr_accepted_bytes O (rv_delivery v)) requests)
    (length (List.filter (λ i, negb (ei_source_body i)) identities)) (length (List.filter ei_source_body identities))
    (au_truncated st) dropped evicted (au_malformed st)
    (* [loss_detection_complete] is always false *)
    (au_capped st || (0 <? au_malformed st)%nat || (0 <? dropped) || (0 <? evicted) || (0 <? au_truncated st)%nat ||
     (0 <? incomplete)%nat || (0 <? ol_incomplete_change_details ledger) || (0 <? ol_incomplete_publication_windows ledger) || true)
    (au_residency_samples st) ledger.
End Audit.

(** ** Sessions *)

Definition MAX_OPEN_SESSIONS : nat := 50.
Definition MAX_BASELINE_BYTES : Z := 64 * 1024 * 1024.
Inductive SessionStatus := Open | Ended | ExpiredIncomplete.
#[export] Instance SessionStatus_eq_dec : EqDecision SessionStatus.
Proof. solve_decision. Defined.
Definition status_name (s : SessionStatus) : string :=
  match s with Open => "open" | Ended => "ended" | ExpiredIncomplete => "expired_incomplete" end.
Record SessionRow := MkSession {
  sn_id : str;
  sn_started : Z;
  sn_ended : option Z;
  sn_status : SessionStatus;
  sn_baseline : option str;
  sn_report : option str;
  sn_overlap : bool;
}.
Definition is_open (r : SessionRow) : bool := bool_decide (sn_status r = Open).
Definition expire_row (now : Z) (r : SessionRow) : SessionRow :=
  if is_open r && (sn_started r <? now - RETENTION_SECONDS)
  then MkSession (sn_id r) (sn_started r) (Some now) ExpiredIncomplete None (sn_report r) (sn_overlap r) else r.
(** An ended session is deleted after its time; [NULL] is not less. *)
Definition expire (now : Z) (rows : list SessionRow) : list SessionRow :=
  List.filter (λ r, match sn_ended r with Some ended => now - RETENTION_SECONDS <=? ended | None => true end)
    (expire_row now <$> rows).
Definition open_count (rows : list SessionRow) : nat := length (List.filter is_open rows).
Fixpoint baseline_bytes (rows : list SessionRow) : Z :=
  match rows with [] => 0 | r :: rows => from_option bytes_len 0 (sn_baseline r) + baseline_bytes rows end.
Definition overlap_open (r : SessionRow) : SessionRow :=
  if is_open r then MkSession (sn_id r) (sn_started r) (sn_ended r) (sn_status r) (sn_baseline r) (sn_report r) true else r.
(** [encoded] is the baseline that [capture] gives for the bytes that are left,
    or its error; nothing else changes the table in between. *)
Definition start_session (now : Z) (id : str) (capture : Z → result str) (rows : list SessionRow) : result (list SessionRow) :=
  let rows := expire now rows in
  _ ← ensure (open_count rows <? MAX_OPEN_SESSIONS)%nat "at most 50 diagnostic sessions may remain open";
  encoded ← capture (saturating_sub MAX_BASELINE_BYTES (baseline_bytes rows));
  _ ← ensure (baseline_bytes rows + bytes_len encoded <=? MAX_BASELINE_BYTES) "session baseline capacity exhausted";
  Ok ((overlap_open <$> rows) ++
      [MkSession id now None Open (Some encoded) None (0 <? open_count rows)%nat]).
Definition find_session (id : str) (rows : list SessionRow) : option SessionRow := find (λ r, sn_id r =s id) rows.
Definition end_row (now : Z) (id report : str) (r : SessionRow) : SessionRow :=
  if (sn_id r =s id) && is_open r
  then MkSession (sn_id r) (sn_started r) (Some now) Ended None (Some report) (sn_overlap r) else r.
(** [report] compares the baseline with a new capture. *)
Definition end_session (now : Z) (id : str) (report : str → bool → result str) (rows : list SessionRow) : result (list SessionRow) :=
  let rows := expire now rows in
  row ← match find_session id rows with Some row => Ok row | None => Err "unknown diagnostic session" end;
  _ ← ensure (is_open row) (String.append "diagnostic session is " (status_name (sn_status row)));
  baseline ← match sn_baseline row with Some b => Ok b | None => Err "session baseline unavailable" end;
  encoded ← report baseline (sn_overlap row);
  Ok (end_row now id encoded <$> rows).

(** ** What a receipt says *)

Lemma emit_loop_receipt writes flush tokens prepared accepted r :
  (accepted ≤ prepared)%nat → emit_loop writes flush tokens prepared accepted = Some r →
  rc_prepared_bytes r = prepared ∧ (accepted ≤ rc_accepted_bytes r ≤ prepared)%nat ∧
  (rc_complete r = true ↔ rc_failure r = None) ∧
  (rc_complete r = true ↔ rc_accepted_bytes r = prepared ∧ ∃ now, flush = Flushed now ∧ rc_completed_unix_micros r = Some now) ∧
  (rc_complete r = false → rc_completed_unix_micros r = None).
Proof.
  revert accepted. induction writes as [|w writes IH]; intros accepted Hle; cbn [emit_loop];
    (destruct (Nat.ltb_spec accepted prepared) as [Hlt|Hge];
      [|destruct flush as [now|[]]; intros [= <-]; cbn; split_and!; try done; try lia; naive_solver lia]); [done|].
  destruct w as [[|count]| |[]].
  - intros [= <-]. cbn. split_and!; try done; try lia; naive_solver lia.
  - intros Hr. apply IH in Hr; [|lia]. naive_solver lia.
  - intros Hr. apply IH in Hr; [|lia]. naive_solver lia.
  - intros [= <-]. cbn. split_and!; try done; try lia; naive_solver lia.
  - intros [= <-]. cbn. split_and!; try done; try lia; naive_solver lia.
Qed.
(** A delivery is complete exactly when the whole response was accepted and
    then flushed; otherwise the receipt has a failure and no time. *)
Theorem receipt_exact (tokens : nat) (response : str) (writes : list WriteEvent) (flush : FlushEvent) (r : DeliveryReceipt)
    (Hr : emit_response tokens response writes flush = Some r) :
  rc_prepared_bytes r = length response ∧ (rc_accepted_bytes r ≤ length response)%nat ∧
  (rc_complete r = true ↔ rc_failure r = None) ∧
  (rc_complete r = true ↔
    rc_accepted_bytes r = length response ∧ ∃ now, flush = Flushed now ∧ rc_completed_unix_micros r = Some now).
Proof.
  destruct (emit_loop_receipt writes flush tokens (length response) 0 r ltac:(lia) Hr) as (? & ? & ? & ? & _).
  split_and!; try done. lia.
Qed.

(** ** The order of the deliveries does not matter *)

Section Order.
Context `{EventFormat}.

Lemma existsb_perm {A} (f : A → bool) l k : l ≡ₚ k → existsb f l = existsb f k.
Proof. induction 1 as [|x l k _ IH|x y l|l k m _ IH1 _ IH2]; cbn; [done|by rewrite IH|by rewrite !orb_assoc, (orb_comm (f y))|congruence]. Qed.
Lemma filter_bool_perm {A} (f : A → bool) l k : l ≡ₚ k → List.filter f l ≡ₚ List.filter f k.
Proof.
  induction 1 as [|x l k _ IH|x y l|l k m _ IH1 _ IH2]; cbn; [done|by destruct (f x); [apply perm_skip|]| |by etrans].
  destruct (f x), (f y); try done. apply perm_swap.
Qed.
Lemma concat_perm {A} (l k : list (list A)) : l ≡ₚ k → concat l ≡ₚ concat k.
Proof.
  induction 1 as [|x l k _ IH|x y l|l k m _ IH1 _ IH2]; cbn; [done|by rewrite IH| |by etrans].
  by rewrite !app_assoc, (Permutation_app_comm y).
Qed.
Lemma evidence_perm session report repository path revision ds ds' :
  ds ≡ₚ ds' → evidence_for session report repository path revision ds ≡ₚ evidence_for session report repository path revision ds'.
Proof. intros Hd. apply filter_bool_perm, concat_perm, fmap_Permutation, filter_bool_perm, Hd. Qed.
Lemma compare_span_perm preimage es es' : es ≡ₚ es' → compare_span preimage es = compare_span preimage es'.
Proof.
  intros He. unfold compare_span. cbv zeta. destruct (as_u64 _) as [start|]; [|done]. destruct (as_u64 _) as [end_|]; [|done].
  destruct (_ <=? _); [done|]. by rewrite !(existsb_perm _ _ _ (filter_bool_perm (overlaps start end_) _ _ He)).
Qed.
Lemma sum_ledger_ext {A} (f g : A → ObservationLedger) l : (∀ x, f x = g x) → sum_ledger f l = sum_ledger g l.
Proof.
  intros Hfg. unfold sum_ledger. generalize no_ledger. induction l as [|x l IH]; intros acc; [done|]. cbn [foldl]. by rewrite Hfg, IH.
Qed.
Lemma change_ledger_perm session report repository ds ds' change :
  ds ≡ₚ ds' → change_ledger session report repository ds change = change_ledger session report repository ds' change.
Proof.
  intros Hd. unfold change_ledger. cbv zeta. destruct (is_str _ "addition_without_preimage"); [done|].
  destruct (as_str _) as [path|]; [|done]. destruct (as_str _) as [revision|]; [|done].
  pose proof (evidence_perm session report repository path revision ds ds' Hd) as He.
  rewrite !(existsb_perm _ _ _ He).
  destruct (as_array (jindex (jindex change "source_changes") "changes")) as [changes|]; [|done].
  by rewrite (sum_ledger_ext _ _ changes (λ c, compare_span_perm (jindex c "before") _ _ He)).
Qed.
Lemma compare_perm sessions ds ds' : ds ≡ₚ ds' → compare sessions ds = compare sessions ds'.
Proof.
  intros Hd. unfold compare. destruct (as_array _) as [l|]; [|done]. apply sum_ledger_ext. intros session.
  unfold session_ledger. cbv zeta. destruct (jindex session "report"); try done.
  all: destruct (as_array _) as [changes|]; [|done].
  all: f_equal; apply sum_ledger_ext; intros change; by apply change_ledger_perm.
Qed.
End Order.

(** ** Bounds of the ledger *)

Record ledger_bounded (l : ObservationLedger) : Prop := {
  lb_metadata : 0 ≤ ol_preimage_metadata_surfaced l ≤ ol_changed_preimage_files l;
  lb_viewed : 0 ≤ ol_preimage_source_viewed l ≤ ol_changed_preimage_files l;
  lb_span_metadata : 0 ≤ ol_changed_spans_metadata_surfaced l ≤ ol_changed_spans l;
  lb_span_viewed : 0 ≤ ol_changed_spans_source_viewed l ≤ ol_changed_spans l;
}.
Lemma add_bounded a b : ledger_bounded a → ledger_bounded b → ledger_bounded (add_ledger a b).
Proof. intros [? ? ? ?] [? ? ? ?]. constructor; cbn; lia. Qed.
Lemma sum_bounded {A} (f : A → ObservationLedger) l : (∀ x, ledger_bounded (f x)) → ledger_bounded (sum_ledger f l).
Proof.
  intros Hf. unfold sum_ledger. assert (Hno : ledger_bounded no_ledger) by (constructor; cbn; lia). revert Hno.
  generalize no_ledger. induction l as [|x l IH]; intros acc Hacc; [done|]. cbn [foldl]. apply IH. by apply add_bounded.
Qed.
Ltac counters := constructor; cbn; unfold one_if; repeat case_match; lia.

Section Bounds.
Context `{EventFormat}.
Lemma compare_span_bounded preimage es : ledger_bounded (compare_span preimage es).
Proof. unfold compare_span. cbv zeta. repeat (case_match; try counters). Qed.
Lemma fact_bounded fact : ledger_bounded (fact_ledger fact).
Proof. unfold fact_ledger. cbv zeta. counters. Qed.
Lemma change_bounded session report repository ds change : ledger_bounded (change_ledger session report repository ds change).
Proof.
  unfold change_ledger. cbv zeta. set (details := missing_details _).
  assert (Hd : ledger_bounded details) by (unfold details, missing_details; counters).
  destruct (is_str _ "addition_without_preimage"); [apply add_bounded; [done|counters]|].
  set (details' := if _ || _ then _ else _).
  assert (Hd' : ledger_bounded details') by (unfold details'; destruct (_ || _); [apply add_bounded; [done|counters]|done]).
  clearbody details details'. destruct (as_str _) as [path|]; [|done]. destruct (as_str _) as [revision|]; [|done].
  set (matches := evidence_for _ _ _ _ _ _). clearbody matches. set (more := add_ledger details' _).
  assert (Hm : ledger_bounded more) by (apply add_bounded; [done|counters]). clearbody more.
  assert (Hspans : ledger_bounded match as_array (jindex (jindex change "source_changes") "changes") with
      | Some changes => add_ledger more (sum_ledger (λ c, compare_span (jindex c "before") matches) changes)
      | None => more
      end).
  { destruct (as_array _); [|done]. apply add_bounded; [done|]. apply sum_bounded. intros c. apply compare_span_bounded. }
  destruct (as_array (jindex (jindex change "occurrences") "changes")) as [facts|]; [|done].
  apply add_bounded; [done|]. apply sum_bounded. apply fact_bounded.
Qed.
Lemma compare_bounded sessions ds : ledger_bounded (compare sessions ds).
Proof.
  unfold compare. destruct (as_array _) as [l|]; [|counters]. apply sum_bounded. intros session.
  assert (Hbase : ∀ a n k c, ledger_bounded (MkLedger a 0 0 0 0 0 0 0 0 0 n k c)) by (intros; counters).
  unfold session_ledger. cbv zeta. destruct (jindex session "report"); try counters.
  all: destruct (as_array _) as [changes|]; [|apply Hbase].
  all: apply add_bounded; [apply Hbase|]; apply sum_bounded; intros change; apply change_bounded.
Qed.
End Bounds.

(** ** The audit *)

Section AuditFacts.
Context `{EventFormat} (from_slice : str → option RequestEvent).

Lemma sum_nat_cons {A} (f : A → nat) x l : sum_nat f (x :: l) = (f x + sum_nat f l)%nat.
Proof.
  unfold sum_nat. cbn [foldl]. assert (Hgen : ∀ l n m, foldl (λ n x, (n + f x)%nat) (n + m)%nat l = (n + foldl (λ n x, (n + f x)%nat) m l)%nat).
  { intros k. induction k as [|y k IH]; intros n m; cbn; [done|]. rewrite <-IH. f_equal. lia. }
  rewrite <-(Hgen l (f x) O). f_equal. lia.
Qed.
Lemma sum_nat_perm {A} (f : A → nat) l k : l ≡ₚ k → sum_nat f l = sum_nat f k.
Proof. induction 1; rewrite ?sum_nat_cons in *; lia. Qed.
Lemma omap_length_bound {A B} (f : A → option B) l : (length (omap f l) ≤ length l)%nat.
Proof. induction l as [|x l IH]; [done|]. cbn [omap list_omap]. destruct (f x); cbn [length]; lia. Qed.
Lemma split_by_body (l : list EmittedIdentity) :
  (length (List.filter (λ i, negb (ei_source_body i)) l) + length (List.filter ei_source_body l))%nat = length l.
Proof. induction l as [|i l IH]; cbn; [done|]. destruct (ei_source_body i); cbn [negb length]; lia. Qed.

(** The report of an audit does not depend on the order in which the map of
    the requests is walked, and its numbers add up: every retained request is a
    complete or an incomplete delivery, every identity of a complete delivery was
    surfaced or viewed, and the ledger counts no more surfaced or viewed files
    and spans than there are changed ones. *)
Theorem audit_report_adds_up (now forgotten dropped evicted : Z) (session : option str) (records : list (option str))
    (sessions : Json) (requests requests' : list RequestEvidence) :
  let st := audit_records from_slice now forgotten session records in
  let report := report_of sessions dropped evicted st in
  requests ≡ₚ (map_to_list (au_requests st)).*2 → requests' ≡ₚ (map_to_list (au_requests st)).*2 →
  report requests = report requests' ∧
  (ar_complete_deliveries (report requests) + ar_incomplete_deliveries (report requests))%nat = ar_retained_requests (report requests) ∧
  (ar_surfaced_metadata_identities (report requests) + ar_viewed_source_identities (report requests))%nat =
    length (concat (ev_emitted <$> omap complete_delivery requests)) ∧
  ledger_bounded (ar_ledger (report requests)).
Proof.
  cbv zeta. intros Hr Hr'. set (st := audit_records _ _ _ _ _) in *. assert (Hperm : requests ≡ₚ requests') by by rewrite Hr, Hr'.
  unfold report_of. cbv zeta. cbn [ar_complete_deliveries ar_incomplete_deliveries ar_retained_requests
    ar_surfaced_metadata_identities ar_viewed_source_identities ar_ledger]. split_and!.
  - assert (Hc : omap complete_delivery requests ≡ₚ omap complete_delivery requests') by by apply omap_Permutation.
    assert (Hi : concat (ev_emitted <$> omap complete_delivery requests) ≡ₚ concat (ev_emitted <$> omap complete_delivery requests'))
      by (apply concat_perm; by rewrite Hc).
    rewrite (compare_perm sessions _ _ Hc), !(sum_nat_perm _ _ _ Hperm), (Permutation_length Hc), (Permutation_length Hperm).
    by rewrite !(Permutation_length (filter_bool_perm _ _ _ Hi)).
  - pose proof (omap_length_bound complete_delivery requests). apply Permutation_length in Hr. rewrite length_fmap in Hr.
    rewrite length_map_to_list in Hr. lia.
  - apply split_by_body.
  - apply compare_bounded.
Qed.
End AuditFacts.

(** ** The table of sessions *)

Definition row_ok (r : SessionRow) : Prop := (is_Some (sn_baseline r) ↔ sn_status r = Open) ∧ (sn_ended r = None ↔ sn_status r = Open).
Record sessions_ok (rows : list SessionRow) : Prop := {
  so_rows : Forall row_ok rows;
  so_open : (open_count rows ≤ MAX_OPEN_SESSIONS)%nat;
  so_bytes : baseline_bytes rows ≤ MAX_BASELINE_BYTES;
}.
(** The statements over the table; a report is kept for ever only once ended. *)
Inductive session_step : list SessionRow → list SessionRow → Prop :=
| session_expire now rows : session_step rows (expire now rows)
| session_start now id capture rows rows' : start_session now id capture rows = Ok rows' → session_step rows rows'
| session_end now id report rows rows' : end_session now id report rows = Ok rows' → session_step rows rows'
| session_forget rows : session_step rows [].

(** A change of one row that keeps it or frees its baseline. *)
Definition frees (f : SessionRow → SessionRow) : Prop :=
  ∀ r, row_ok r → row_ok (f r) ∧ (is_open (f r) = true → is_open r = true) ∧ (sn_baseline (f r) = sn_baseline r ∨ sn_baseline (f r) = None).
Lemma frees_ok f rows : frees f → sessions_ok rows →
  sessions_ok (f <$> rows) ∧ (open_count (f <$> rows) ≤ open_count rows)%nat ∧ baseline_bytes (f <$> rows) ≤ baseline_bytes rows.
Proof.
  intros Hf [Hr Ho Hb].
  assert (Hle : (open_count (f <$> rows) ≤ open_count rows)%nat ∧ baseline_bytes (f <$> rows) ≤ baseline_bytes rows ∧ Forall row_ok (f <$> rows)).
  { clear Ho Hb. induction Hr as [|r rows Hrow _ IH]; [done|]. destruct (Hf r Hrow) as (Hrow' & Hopen & Hbase).
    destruct IH as (IH1 & IH2 & IH3). unfold open_count in *. cbn [fmap list_fmap List.filter baseline_bytes].
    assert (Hbytes : from_option bytes_len 0 (sn_baseline (f r)) ≤ from_option bytes_len 0 (sn_baseline r)).
    { destruct Hbase as [->| ->]; [done|]. destruct (sn_baseline r); cbn; unfold bytes_len; lia. }
    split_and!; [|change (list_fmap _ _ f rows) with (f <$> rows); lia|by constructor].
    change (list_fmap _ _ f rows) with (f <$> rows).
    destruct (is_open (f r)) eqn:E1; [rewrite Hopen by done; cbn [length]; lia|destruct (is_open r); cbn [length]; lia]. }
  destruct Hle as (? & ? & ?). split; [|done]. constructor; [done|lia|lia].
Qed.
Lemma filter_ok (g : SessionRow → bool) rows : sessions_ok rows →
  sessions_ok (List.filter g rows) ∧ (open_count (List.filter g rows) ≤ open_count rows)%nat ∧
  baseline_bytes (List.filter g rows) ≤ baseline_bytes rows.
Proof.
  intros [Hr Ho Hb].
  assert (Hle : (open_count (List.filter g rows) ≤ open_count rows)%nat ∧ baseline_bytes (List.filter g rows) ≤ baseline_bytes rows ∧
      Forall row_ok (List.filter g rows)).
  { clear Ho Hb. induction Hr as [|r rows Hrow _ (IH1 & IH2 & IH3)]; [done|]. unfold open_count in *. cbn [List.filter baseline_bytes].
    assert (0 ≤ from_option bytes_len 0 (sn_baseline r)) by (destruct (sn_baseline r); cbn; unfold bytes_len; lia).
    destruct (g r); cbn [List.filter baseline_bytes].
    - split_and!; [destruct (is_open r); cbn [length]; lia|lia|by constructor].
    - split_and!; [destruct (is_open r); cbn [length]; lia|lia|done]. }
  destruct Hle as (? & ? & ?). split; [|done]. constructor; [done|lia|lia].
Qed.
Lemma closed_row_ok id started now status report overlap : status ≠ Open →
  row_ok (MkSession id started (Some now) status None report overlap).
Proof. intros Hs. split; split; [by intros [? ?]|done|done|done]. Qed.
Lemma expire_row_frees now : frees (expire_row now).
Proof.
  intros r Hr. unfold expire_row. destruct (is_open r && (sn_started r <? now - RETENTION_SECONDS)) eqn:E; [|by split; [done|split; [by intros|by left]]].
  split; [by apply closed_row_ok|split; [done|by right]].
Qed.
Lemma expire_ok now rows : sessions_ok rows → sessions_ok (expire now rows).
Proof. intros Hok. apply filter_ok. by apply frees_ok; [apply expire_row_frees|]. Qed.
Lemma overlap_frees : frees overlap_open.
Proof.
  intros r Hr. unfold overlap_open. destruct (is_open r) eqn:E; [|by split; [done|split; [congruence|by left]]].
  split; [exact Hr|split; [by intros|by left]].
Qed.
Lemma end_row_frees now id report : frees (end_row now id report).
Proof.
  intros r Hr. unfold end_row. destruct ((sn_id r =s id) && is_open r) eqn:E; [|by split; [done|split; [by intros|by left]]].
  split; [by apply closed_row_ok|split; [done|by right]].
Qed.
Lemma session_step_ok rows rows' : session_step rows rows' → sessions_ok rows → sessions_ok rows'.
Proof.
  intros Hstep Hok. destruct Hstep as [now rows|now id capture rows rows' Hs|now id report rows rows' Hs|rows].
  - by apply expire_ok.
  - unfold start_session in Hs. cbv zeta in Hs. pose proof (expire_ok now rows Hok) as He. set (l := expire now rows) in *. clearbody l.
    destruct (open_count l <? MAX_OPEN_SESSIONS)%nat eqn:Hopen; cbn in Hs; [|done].
    destruct (capture _) as [encoded|m]; cbn in Hs; [|done].
    destruct (baseline_bytes l + bytes_len encoded <=? MAX_BASELINE_BYTES) eqn:Hb; cbn in Hs; [|done]. injection Hs as <-.
    destruct (frees_ok overlap_open l overlap_frees He) as ([Hr Ho Hbb] & Hoc & Hbl).
    apply Nat.ltb_lt in Hopen. apply Z.leb_le in Hb. set (row := MkSession _ _ _ _ _ _ _). constructor.
    + apply Forall_app. split; [done|]. constructor; [|done]. split; cbn; (split; [done|intros _; try done; by eexists]).
    + unfold open_count in *. rewrite List.filter_app, length_app. cbn. destruct (is_open row); cbn; lia.
    + assert (Happ : ∀ a b, baseline_bytes (a ++ b) = baseline_bytes a + baseline_bytes b)
        by (intros a b; induction a as [|x a IH]; cbn [app baseline_bytes]; lia).
      rewrite Happ. cbn. lia.
  - unfold end_session in Hs. cbv zeta in Hs. pose proof (expire_ok now rows Hok) as He. set (l := expire now rows) in *. clearbody l.
    destruct (find_session id l) as [row|]; cbn in Hs; [|done]. destruct (is_open row); cbn in Hs; [|done].
    destruct (sn_baseline row) as [b|]; cbn in Hs; [|done]. destruct (report b _) as [encoded|m]; cbn in Hs; [|done]. injection Hs as <-.
    by apply frees_ok; [apply end_row_frees|].
  - constructor; [done|cbn; unfold MAX_OPEN_SESSIONS; lia|cbn; unfold MAX_BASELINE_BYTES; lia].
Qed.
(** Whatever happens to the sessions, at most fifty are open, their baselines
    hold at most 64 MiB, and a session has a baseline and no end exactly while it
    is open. *)
Theorem sessions_stay_bounded (rows rows' : list SessionRow) (Hok : sessions_ok rows) (Hsteps : rtc session_step rows rows') :
  (open_count rows' ≤ MAX_OPEN_SESSIONS)%nat ∧ baseline_bytes rows' ≤ MAX_BASELINE_BYTES ∧
  ∀ r, r ∈ rows' → (is_Some (sn_baseline r) ↔ sn_status r = Open) ∧ (sn_ended r = None ↔ sn_status r = Open).
Proof.
  assert (Hok' : sessions_ok rows').
  { induction Hsteps as [|a b c Hab _ IH]; [done|]. apply IH. by apply (session_step_ok a b). }
  destruct Hok' as [Hr Ho Hb]. split_and!; [done..|]. intros r Hin. rewrite Forall_forall in Hr. exact (Hr r Hin).
Qed.
